(* ===== verification/_CoqProject ===== *)
-Q . S2P
Prelude.v
Limbs.v
Interfaces.v
Outcome.v
ThreadPool.v
ThreadPoolSpec.v
PoolClients.v
PoolClientsSpec.v
PoolLeavingSpec.v
IntUtil.v
Difficulty.v
NextDifficulty.v
DifficultySpec.v
DifficultyV2.v
NextBlock.v
BlockReward.v
HardFork.v
HardForkSpec.v
Varint.v
Base58.v
Base58Spec.v
Keccak.v
KeccakSpec.v
Random.v
TreeHash.v
Scalar.v
Field.v
FieldSpec.v
Primality.v
Edwards.v
Group.v
Curve25519.v
GroupSpec.v
PointCodec.v
PointCodecSpec.v
BaseTable.v
BaseTableSpec.v
OrderPrime.v
GroupOrder.v
Cofactor.v
ScalarMult.v
SlideSpec.v
ScalarMultSpec.v
WindowSpec.v
Crypto.v
Ring.v
CryptoSpec.v
TxProofSpec.v
RingSpec.v
RctTypes.v
RctTypesSpec.v
RctOps.v
RctOpsSpec.v
ScalarField.v
Multiexp.v
MultiexpSpec.v
PippengerSpec.v
BosCoster.v
BosCosterSpec.v
Borromean.v
BorromeanSpec.v
Mlsag.v
MlsagSpec.v
RctMGSpec.v
Bulletproofs.v
VectorSpec.v
InnerProductSpec.v
BulletproofsVerify.v
BulletproofsProve.v
BulletproofsSpec.v
RctSigs.v
RctSigsSpec.v
RctBatchSpec.v
RctBulletproofSpec.v
MultisigSpec.v
