(* ===== verification/Prelude.v ===== *)
(** * Verification of Electroneum Classic

    Electroneum Classic is a node of a CryptoNote currency, in C and C++.  This
    library models its cryptographic core and a part of its consensus rules as Rocq
    functions, translated from the sources, and proves what they compute.

    ** The program and the files

    - [common/int-util.h]: [IntUtil] (128-bit products and quotients, rotations, byte swaps).
    - [common/varint.h]: [Varint].  [common/base58.cpp]: [Base58], proofs in [Base58Spec].
    - [common/threadpool.cpp]: [ThreadPool] (the threads of the pool and of its callers, as steps under a schedule)
      and [ThreadPoolSpec] (schedules are bounded).  [PoolClients] is what [rctSigs.cpp] does with
      the pool; [PoolClientsSpec] is about callers that wait, [PoolLeavingSpec] about one that does not.
    - [crypto/keccak.c], [crypto/hash.c]: [Keccak], proofs in [KeccakSpec].
      [crypto/random.c]: [Random].  [crypto/tree-hash.c]: [TreeHash].
    - [crypto/crypto-ops.c], the arithmetic of Ed25519: [Scalar] (the [sc_] functions), [Field] and
      [FieldSpec] (the [fe_] functions, on the limbs of [Limbs]), [Group] and [GroupSpec] (the
      [ge_] functions), [PointCodec] and [PointCodecSpec] (points as bytes and hashing to points),
      [ScalarMult] with [SlideSpec], [ScalarMultSpec] and [WindowSpec].
      [crypto/crypto-ops-data.c]: [BaseTable], checked in [BaseTableSpec].
    - The mathematics these need: [Primality], [Edwards], [Curve25519], [OrderPrime], [GroupOrder],
      [Cofactor] (the field, the group of the curve, its prime-order subgroup).
    - [crypto/crypto.cpp]: [Crypto] (keys, derivations, signatures, transaction proofs) and [Ring]
      (ring signatures); proofs in [CryptoSpec], [TxProofSpec], [RingSpec].
    - [ringct/rctTypes.cpp] and [.h]: [RctTypes] (the records of a confidential transaction and the
      conversions of amounts), proofs in [RctTypesSpec].  [ringct/rctOps.cpp], [rctCryptoOps.c]:
      [RctOps] and [RctOpsSpec] (keys as points and scalars, commitments, hashing).
    - [ringct/multiexp.cc]: [Multiexp] (Straus and Pippenger) and [BosCoster]; proofs in
      [MultiexpSpec], [PippengerSpec], [BosCosterSpec].
    - [ringct/bulletproofs.cc]: [Bulletproofs].  Its proofs compute with the logarithms of the points
      of the prime-order subgroup ([ScalarField]), on vectors ([VectorSpec]): [InnerProductSpec] is
      the inner product argument, [BulletproofsVerify] the verifier, [BulletproofsProve] the prover,
      [BulletproofsSpec] both together.
    - [ringct/rctSigs.cpp]: [Borromean] and [BorromeanSpec] (range proofs by ring signatures),
      [Mlsag], [MlsagSpec] and [RctMGSpec] (the ring signature over a matrix of keys, with the part
      of [device/device_default.cpp] that computes for it), [RctSigs] and [RctSigsSpec] (whole
      transactions: making, checking and decoding them), [RctBatchSpec] (a batch that is left early),
      [RctBulletproofSpec] (transactions with a bulletproof), [MultisigSpec] (several signers, with both kinds
      of range proofs).
    - [cryptonote_basic/difficulty.cpp]: [Difficulty] (the test of a hash), [NextDifficulty] and
      [DifficultySpec] (the algorithms in integers), [DifficultyV2] (the one in [double]).
    - [cryptonote_core/blockchain.cpp]: [NextBlock] (the difficulty of the next block, with its
      caches, and of blocks on alternative chains) and, with [cryptonote_basic_impl.cpp],
      [BlockReward] (the reward, what a miner may claim, the count of coins).
    - [cryptonote_basic/hardfork.cpp]: [HardFork], proofs in [HardForkSpec].

    Components meet in [Interfaces]: the hash function is the class [FastHash] with its laws, of
    which Keccak is the instance; the random generator is [Rng] with its laws, of which [random.c] is
    the instance; [RctHash] of [RctOps] is the hash of confidential transactions, of which both are
    instances.  [Heap] is the heap of the C++ standard library and [BigNum] the modular inverse of OpenSSL.
    [NextBlock] reads the version of the protocol as a function of the chain
    ([ForkVersion]); that it is one is what [HardForkSpec] shows of the vote.

    ** Conventions

    A machine integer is a [Z].  Unsigned arithmetic wraps ([uwrap]), narrowing wraps ([swrap]), and a
    signed operation that overflows is undefined: [chk] returns [None].  [None] is also a failed
    assertion, an abort, an access out of range or a division by zero.  So a theorem that a function
    returns [Some] includes that none of these happens.  A function that returns a bool and
    an output has type [option (option A)]; [Some None] is [return false].  In [ringct], where
    functions throw, the result is an [outcome] ([Outcome]): [Ret], [Throw] or [Undef]; code that also draws
    random bytes is in the monad [gen], or [genx] where its exceptions are caught.  The class [Build] selects
    the build with or without assertions; theorems hold for both unless they name one.  The
    machine is little-endian.  Memory is modelled where the code updates in place: arrays are lists.

    ** What is proved

    - Field, scalar and group operations compute in the field, modulo the group order and in the
      group, without overflow for limbs in the documented ranges; decoding accepts exactly the points
      of the curve in canonical form; the tables hold the multiples they should.
    - Keccak is the sponge over the permutation, in one call or streamed; the Merkle tree in place is
      the recursive one; variable-length integers and base 58 round-trip and are canonical.
    - Signatures, ring signatures and transaction proofs that are generated are accepted, and what is
      accepted satisfies the equation of the scheme.  These are statements of correctness: that
      forging is hard is not stated.
    - Sums of multiples are the same by the three methods.  Range proofs, matrix ring signatures and
      whole confidential transactions that are made are accepted and decode to what was sent, by one signer
      or by several in any order; what is accepted satisfies the equations; the checks return on every
      signature of bytes from the network (bulletproofs excepted).  Bulletproofs of the prover satisfy the
      two equations of the scheme, and the verifier accepts a batch only if the sums of its equations,
      with the weights it draws, are 0.
    - The thread pool loses no task and no wakeup: over every schedule, callers that wait for their tasks get
      the results of all of them, and no waiter or result is used after it is destroyed.  A batch of
      signatures that is left early shows what happens to a caller that does not wait.
    - A hash passes the test exactly if its product with the difficulty is below 2^256.  The
      difficulty algorithms are closed formulas; the caches are transparent; the supply is bounded by its cap, after which blocks still
      earn the final subsidy;
      the state of the hard-fork vote after a restart or a reorganisation is that of the chain.
    - Where the code does not do what it means to, the theorem says what it does: the rejection loop
      of [random32_unbiased], the two [_p3] scalar multiplications on zero, the first version of Bos
      and Coster's method on a zero scalar, batches of signatures, the solve times of
      [next_difficulty_v2], the division of [next_difficulty_v3], version 8 on alternative chains.

    ** Bounds and fuel

    Loops run on the length of their data wherever that bounds them.  [encode_loop] of [Base58] has
    fuel 64 and needs at most 11 steps; [pow_loop] of [TreeHash] has 64 for a 64-bit count;
    [random32_loop] has 128 and stops at the first draw.  A signature draws nonces until one is
    good, which no number of steps guarantees: the number of attempts is a parameter there, and the
    theorems state what follows when an attempt succeeds.  The prover of bulletproofs starts again when
    a challenge is 0: for a positive number of attempts it is shown to return a proof unless that
    happens in the first.
    The loop of Bos and Coster's method has its fuel as a parameter; 507 iterations for each point
    are enough for the robust version.  A schedule of the thread pool is a list of turns; one without
    spurious wakeups has at most [pool_cost] turns, after which no thread can move.

    ** Not modelled

    The proof-of-work hash and the hash functions it alone uses, transaction formats and the pool
    are not modelled yet.  The database, the
    network, the wallet, the daemon and the command-line programs are input and output.
    [boost::math::round] is a parameter of [DifficultyV2], with a law.  [RctSigs] evaluates the tasks that
    [rctSigs.cpp] gives to the thread pool where the code waits for them, which [PoolClientsSpec] shows to be the
    result over every schedule; a function that leaves without waiting depends on the schedule, the class [Schedule].
    A step of a thread of the pool ends where a lock is taken or released; exceptions of the locks and the exit of the
    program are not modelled.  The bytes that seed the generator are an argument. *)

From stdpp Require Export base list numbers option.
From Stdlib Require Export ZArith Lia.

Local Open Scope Z_scope.

(** ** Notation and automation *)

Declare Scope stmt_scope.
Delimit Scope stmt_scope with stmt.

Create HintDb limbs.
Create HintDb zbits.

(** [lia] with the equations of Euclidean division for divisors that are
    numerals. *)
Ltac zlia := Z.div_mod_to_equations; lia.

(** Evaluate the closed arithmetic of a goal that is a comparison of two
    numerals. *)
Ltac zdecide := vm_compute; repeat split; congruence.

(** ** Machine integers

    A [w]-bit C object is a [Z].  A signed operation whose result does not fit
    its type is undefined behaviour: the checked operations return [None]
    there, so a theorem that a function returns [Some _] also says that no
    signed overflow happens on the way.  Unsigned types wrap around. *)

Definition fits (w x : Z) : bool := (- 2 ^ (w - 1) <=? x) && (x <? 2 ^ (w - 1)).

Definition chk (w x : Z) : option Z := if fits w x then Some x else None.

Definition uwrap (w x : Z) : Z := x mod 2 ^ w.

Definition swrap (w x : Z) : Z := (x + 2 ^ (w - 1)) mod 2 ^ w - 2 ^ (w - 1).

Lemma fits_spec w x : fits w x = true ↔ - 2 ^ (w - 1) ≤ x < 2 ^ (w - 1).
Proof. unfold fits. rewrite andb_true_iff, Z.leb_le, Z.ltb_lt. done. Qed.

Lemma chk_Some w x : fits w x = true → chk w x = Some x.
Proof. unfold chk. by intros ->. Qed.

Lemma chk_inv w x y : chk w x = Some y → y = x.
Proof. unfold chk. destruct (fits w x); congruence. Qed.

(** An interval check: every value between two representable values is
    representable. *)
Lemma fits_between w lo x hi :
  fits w lo = true → fits w hi = true → lo ≤ x ≤ hi → fits w x = true.
Proof. rewrite !fits_spec. lia. Qed.

Lemma swrap_fits w x : fits w x = true → swrap w x = x.
Proof.
  rewrite fits_spec. intros H. unfold swrap.
  destruct (decide (1 ≤ w)) as [Hw|Hw].
  - assert (2 ^ w = 2 * 2 ^ (w - 1)) as E.
    { rewrite <- Z.pow_succ_r by lia. f_equal. lia. }
    rewrite Z.mod_small; lia.
  - rewrite Z.pow_neg_r in H by lia. lia.
Qed.

(** ** Bytes and little-endian numbers *)

Definition bytes (l : list Z) : Prop := Forall (λ b, 0 ≤ b < 256) l.

Fixpoint le_combine (l : list Z) : Z :=
  match l with
  | [] => 0
  | b :: l' => b + 256 * le_combine l'
  end.

Fixpoint le_split (n : nat) (z : Z) : list Z :=
  match n with
  | O => []
  | S n' => z mod 256 :: le_split n' (z / 256)
  end.

Lemma length_le_split n z : length (le_split n z) = n.
Proof. revert z. induction n; intros z; simpl; auto. Qed.

Lemma pow256_succ n : 256 ^ Z.of_nat (S n) = 256 * 256 ^ Z.of_nat n.
Proof. rewrite Nat2Z.inj_succ, Z.pow_succ_r; lia. Qed.

Lemma pow256_pos n : 0 < 256 ^ Z.of_nat n.
Proof. apply Z.pow_pos_nonneg; lia. Qed.
#[export] Hint Resolve pow256_pos : zbits.

Lemma le_combine_split n z : le_combine (le_split n z) = z mod 256 ^ Z.of_nat n.
Proof.
  revert z. induction n as [|n IH]; intros z; cbn [le_split le_combine].
  - by rewrite Z.mod_1_r.
  - rewrite IH, pow256_succ. rewrite Z.rem_mul_r; [lia|lia|apply pow256_pos].
Qed.

Lemma le_combine_bound l :
  bytes l → 0 ≤ le_combine l < 256 ^ Z.of_nat (length l).
Proof.
  induction 1 as [|b l Hb _ IH]; cbn [le_combine length].
  - lia.
  - rewrite pow256_succ. lia.
Qed.

Lemma bytes_le_split n z : bytes (le_split n z).
Proof.
  revert z. induction n as [|n IH]; intros z; constructor; [|apply IH].
  apply Z.mod_pos_bound. lia.
Qed.

Lemma le_split_combine l : bytes l → le_split (length l) (le_combine l) = l.
Proof.
  induction 1 as [|b l Hb _ IH]; [done|].
  cbn [le_combine length le_split].
  replace ((b + 256 * le_combine l) mod 256) with b by zlia.
  replace ((b + 256 * le_combine l) / 256) with (le_combine l) by zlia.
  by rewrite IH.
Qed.

Lemma le_combine_app l k :
  le_combine (l ++ k) = le_combine l + 256 ^ Z.of_nat (length l) * le_combine k.
Proof.
  induction l as [|b l IH]; [cbn [app le_combine length]; lia|].
  cbn [app le_combine length]. rewrite IH, pow256_succ. lia.
Qed.

(** Byte [i] of a little-endian number. *)
Lemma le_combine_lookup l i :
  bytes l → (i < length l)%nat →
  l !!! i = (le_combine l / 256 ^ Z.of_nat i) mod 256.
Proof.
  intros Hl. revert i. induction Hl as [|b l Hb Hl IH]; intros i Hi.
  { simpl in Hi. lia. }
  destruct i as [|i]; cbn [le_combine].
  - rewrite Z.div_1_r. cbn. zlia.
  - cbn [length] in Hi. rewrite pow256_succ.
    rewrite <- Z.div_div by (pose proof (pow256_pos i); lia).
    replace ((b + 256 * le_combine l) / 256) with (le_combine l) by zlia.
    apply IH. lia.
Qed.

Lemma lookup_le_split n z i :
  (i < n)%nat → le_split n z !!! i = (z / 256 ^ Z.of_nat i) mod 256.
Proof.
  revert z i. induction n as [|n IH]; intros z i Hi; [lia|].
  destruct i as [|i]; cbn [le_split].
  - cbn. by rewrite Z.div_1_r.
  - change ((z mod 256 :: le_split n (z / 256)) !!! S i)
      with (le_split n (z / 256) !!! i).
    rewrite IH by lia. rewrite pow256_succ.
    rewrite Z.div_div by (pose proof (pow256_pos i); lia). done.
Qed.

(** ** Congruence modulo a number

    [a ≡ b] modulo [m], as an equivalence that the ring operations respect, so
    that setoid rewriting works under sums and products. *)
Definition eqm (m a b : Z) : Prop := a mod m = b mod m.

#[export] Instance eqm_equiv m : Equivalence (eqm m).
Proof. split; repeat intro; unfold eqm in *; congruence. Qed.

#[export] Instance eqm_add m : Proper (eqm m ==> eqm m ==> eqm m) Z.add.
Proof.
  intros a a' Ha b b' Hb. unfold eqm in *.
  by rewrite Zplus_mod, Ha, Hb, <- Zplus_mod.
Qed.

#[export] Instance eqm_mul m : Proper (eqm m ==> eqm m ==> eqm m) Z.mul.
Proof.
  intros a a' Ha b b' Hb. unfold eqm in *.
  by rewrite Zmult_mod, Ha, Hb, <- Zmult_mod.
Qed.

#[export] Instance eqm_opp m : Proper (eqm m ==> eqm m) Z.opp.
Proof.
  intros a a' Ha. rewrite !Z.opp_eq_mul_m1. by apply eqm_mul.
Qed.

#[export] Instance eqm_sub m : Proper (eqm m ==> eqm m ==> eqm m) Z.sub.
Proof.
  intros a a' Ha b b' Hb. unfold Z.sub. apply eqm_add; [done|]. by apply eqm_opp.
Qed.

Lemma eqm_add_mul m k a b : a = b + k * m → eqm m a b.
Proof.
  intros ->. unfold eqm. destruct (decide (m = 0)) as [->|Hm].
  - by rewrite Z.mul_0_r, Z.add_0_r.
  - by apply Z.mod_add.
Qed.

(** ** Bit fields *)

Lemma lor_shiftl_add a b k :
  0 ≤ k → 0 ≤ a < 2 ^ k → Z.lor a (Z.shiftl b k) = a + b * 2 ^ k.
Proof.
  intros Hk Ha. rewrite <- Z.shiftl_mul_pow2 by done.
  rewrite Z.add_nocarry_lxor, Z.lxor_lor; [done|..];
    apply Z.bits_inj'; intros n Hn; rewrite Z.land_spec, Z.bits_0.
  all: destruct (decide (n < k)) as [H|H].
  1, 3: rewrite (Z.shiftl_spec_low b) by lia; apply andb_false_r.
  all: rewrite <- (Z.mod_small a (2 ^ k)) by lia.
  all: by rewrite Z.mod_pow2_bits_high by lia.
Qed.

Lemma div_pow2_mod x a b :
  0 ≤ a → 0 ≤ b → (x mod 2 ^ (a + b)) / 2 ^ a = (x / 2 ^ a) mod 2 ^ b.
Proof.
  intros Ha Hb. rewrite Z.pow_add_r, Z.rem_mul_r by
    (try apply Z.pow_nonzero; try apply Z.pow_pos_nonneg; lia).
  rewrite (Z.mul_comm (2 ^ a)), Z.div_add by (apply Z.pow_nonzero; lia).
  rewrite Z.div_small by (apply Z.mod_pos_bound, Z.pow_pos_nonneg; lia). lia.
Qed.

Lemma div_abs_le t d b : 0 < d → Z.abs t ≤ b * d → Z.abs (t / d) ≤ b.
Proof.
  intros Hd Ht. apply Z.abs_le.
  split; [apply Z.div_le_lower_bound|apply Z.div_le_upper_bound]; lia.
Qed.

Lemma div_pow2_pow2 x a b :
  0 ≤ a → 0 ≤ b → x / 2 ^ a / 2 ^ b = x / 2 ^ (a + b).
Proof.
  intros Ha Hb. rewrite Z.pow_add_r by done.
  apply Z.div_div; [apply Z.pow_nonzero|apply Z.pow_pos_nonneg]; lia.
Qed.

Lemma mod_pow2_mod x a b :
  0 ≤ a ≤ b → (x mod 2 ^ b) mod 2 ^ a = x mod 2 ^ a.
Proof.
  intros Hab. replace b with (a + (b - a)) by lia.
  rewrite Z.pow_add_r, Z.rem_mul_r by
    (try apply Z.pow_nonzero; try apply Z.pow_pos_nonneg; lia).
  rewrite Z.mul_comm, Z.mod_add by (apply Z.pow_nonzero; lia).
  apply Z.mod_mod, Z.pow_nonzero; lia.
Qed.

(** A field of [n] bits at bit [k] of a number that is itself a field. *)
Lemma subfield x o m k n :
  0 ≤ o → 0 ≤ k → 0 ≤ n → k + n ≤ m →
  ((x / 2 ^ o) mod 2 ^ m / 2 ^ k) mod 2 ^ n = (x / 2 ^ (o + k)) mod 2 ^ n.
Proof.
  intros Ho Hk Hn Hm. replace m with (k + (m - k)) by lia.
  rewrite div_pow2_mod, mod_pow2_mod, div_pow2_pow2; (done || lia).
Qed.

Lemma land_ones_l k x : 0 ≤ k → Z.land (2 ^ k - 1) x = x mod 2 ^ k.
Proof.
  intros Hk. rewrite Z.land_comm, <- Z.land_ones by done.
  by rewrite Z.ones_equiv, <- Z.sub_1_r.
Qed.

Lemma pow256_pow2 n : 256 ^ n = 2 ^ (8 * n).
Proof. change 256 with (2 ^ 8). destruct (decide (0 ≤ n)).
  - by rewrite <- Z.pow_mul_r by lia.
  - by rewrite !Z.pow_neg_r by lia.
Qed.

(** The bytes [o .. o+n) of a byte string as a field of its value. *)
Lemma le_split_snoc n z :
  le_split (S n) z = le_split n z ++ [(z / 256 ^ Z.of_nat n) mod 256].
Proof.
  revert z. induction n as [|n IH]; intros z; [cbn; by rewrite Z.div_1_r|].
  change (le_split (S (S n)) z) with (z mod 256 :: le_split (S n) (z / 256)).
  rewrite IH, Z.div_div, <- pow256_succ by (try apply pow256_pos; lia). done.
Qed.

Lemma le_split_add_mul n z k : le_split n (z + 256 ^ Z.of_nat n * k) = le_split n z.
Proof.
  revert z k. induction n as [|n IH]; intros z k; [done|]. cbn [le_split].
  rewrite pow256_succ. f_equal.
  - replace (z + 256 * 256 ^ Z.of_nat n * k) with (z + (256 ^ Z.of_nat n * k) * 256) by ring.
    apply Z_mod_plus_full.
  - replace (z + 256 * 256 ^ Z.of_nat n * k) with (z + (256 ^ Z.of_nat n * k) * 256) by ring.
    rewrite Z.div_add by lia. apply IH.
Qed.

Lemma le_combine_sub l o n :
  bytes l → (o + n ≤ length l)%nat →
  le_combine (take n (drop o l)) =
    (le_combine l / 256 ^ Z.of_nat o) mod 256 ^ Z.of_nat n.
Proof.
  revert o n. induction l as [|b l IH]; intros o n Hl Hn; cbn [length] in Hn.
  { replace o with 0%nat by lia. replace n with 0%nat by lia.
    by rewrite Z.mod_1_r. }
  apply Forall_cons_1 in Hl as [Hb Hl]. destruct o as [|o].
  - rewrite drop_0. cbn [Z.of_nat Z.pow]. rewrite Z.div_1_r.
    destruct n as [|n]; [by rewrite Z.mod_1_r|].
    cbn [take le_combine]. specialize (IH 0%nat n Hl ltac:(lia)).
    rewrite drop_0 in IH. cbn [Z.of_nat Z.pow] in IH. rewrite Z.div_1_r in IH.
    rewrite IH, pow256_succ, Z.rem_mul_r by (pose proof (pow256_pos n); lia).
    replace ((b + 256 * le_combine l) mod 256) with b by zlia.
    by replace ((b + 256 * le_combine l) / 256) with (le_combine l) by zlia.
  - cbn [drop le_combine]. rewrite IH by (done || lia). rewrite pow256_succ.
    rewrite <- Z.div_div by (pose proof (pow256_pos o); lia).
    by replace ((b + 256 * le_combine l) / 256) with (le_combine l) by zlia.
Qed.

(** The [|] of all the bytes of a number vanishes exactly when the number does. *)
Lemma foldl_lor acc l :
  0 ≤ acc < 256 → bytes l →
  0 ≤ foldl Z.lor acc l < 256 ∧
  (foldl Z.lor acc l = 0 ↔ acc = 0 ∧ le_combine l = 0).
Proof.
  intros Ha Hl. revert acc Ha. induction Hl as [|b l Hb Hl IH]; intros acc Ha.
  { cbn. lia. }
  cbn [foldl le_combine]. assert (0 ≤ Z.lor acc b < 256) as Hr.
  { split; [apply Z.lor_nonneg; lia|]. destruct (decide (Z.lor acc b = 0)); [lia|].
    apply (Z.log2_lt_pow2 _ 8); [pose proof (Z.lor_nonneg acc b); lia|].
    rewrite Z.log2_lor by lia. apply Z.max_lub_lt.
    - destruct (decide (acc = 0)) as [->|]; [cbn; lia|]. apply Z.log2_lt_pow2; lia.
    - destruct (decide (b = 0)) as [->|]; [cbn; lia|]. apply Z.log2_lt_pow2; lia. }
  destruct (IH _ Hr) as [H1 H2]. split; [done|]. rewrite H2, Z.lor_eq_0_iff.
  pose proof (le_combine_bound l Hl). lia.
Qed.

(** Compares two explicit lists element by element. *)
Lemma cons_eq {A} (x y : A) l k : x = y → l = k → x :: l = y :: k.
Proof. by intros -> ->. Qed.

Lemma mapM_fmap {A B} (f : A → option B) g l :
  (∀ x, x ∈ l → f x = Some (g x)) → mapM f l = Some (g <$> l).
Proof.
  induction l as [|x l IH]; intros Hf; [done|]. cbn.
  rewrite Hf by left. cbn. rewrite IH; [done|]. intros y Hy. apply Hf. by right.
Qed.
