(* ===== verification/Limbs.v ===== *)
(** * Limb vectors: checked straight-line arithmetic and its interval analysis

    The scalar and field arithmetic of [crypto-ops.c] works on local variables
    [s0 .. s23] or [h0 .. h9] of type [int64_t] (or [int32_t]), the limbs of a
    number in a fixed radix, updated by straight-line statements.  The file
    models the limbs as a [list Z], each statement as a function to
    [option (list Z)] that is [None] where a signed operation overflows, and
    gives each statement two facts, found by instance resolution through
    sequences of statements: how it transforms intervals ([Analyzed]) and how it
    changes the number that the limbs stand for ([Shifts]). *)

From S2P Require Export Prelude.

Local Open Scope Z_scope.

(** ** Statements *)

Definition stmt := list Z → option (list Z).

Definition sthen (f g : stmt) : stmt := λ s, f s ≫= g.

Notation "f >> g" := (sthen f g) (at level 65, right associativity) : stmt_scope.

(** [s_d += s_i * c] and [s_d -= s_i * c] at width [w]. *)
Definition mul_acc (w : Z) (d i : nat) (c : Z) : stmt := λ s,
  p ← chk w (s !!! i * c);
  x ← chk w (s !!! d + p);
  Some (<[d := x]> s).

Definition mul_sub (w : Z) (d i : nat) (c : Z) : stmt := λ s,
  p ← chk w (s !!! i * c);
  x ← chk w (s !!! d - p);
  Some (<[d := x]> s).

(** [s_d = 0]. *)
Definition clear (d : nat) : stmt := λ s, Some (<[d := 0]> s).

(** [carry = (s_i + r) >> k; s_j += carry * m; s_i -= carry << k], where the
    statement has [m = 1] when the code adds [carry] itself. *)
Definition carry_gen (w r k m : Z) (i j : nat) : stmt := λ s,
  t ← chk w (s !!! i + r);
  let carry := Z.shiftr t k in
  p ← chk w (carry * m);
  x ← chk w (s !!! j + p);
  let s1 := <[j := x]> s in
  q ← chk w (carry * 2 ^ k);
  y ← chk w (s1 !!! i - q);
  Some (<[i := y]> s1).

(** The last floor carry of [fe_tobytes] is dropped:
    [carry = s_i >> k; s_i -= carry << k]. *)
Definition carry_drop (w k : Z) (i : nat) : stmt := λ s,
  let carry := Z.shiftr (s !!! i) k in
  q ← chk w (carry * 2 ^ k);
  y ← chk w (s !!! i - q);
  Some (<[i := y]> s).

(** ** Intervals *)

Abbreviation bounds := (list (Z * Z)).

Definition inb (b : Z * Z) (x : Z) : Prop := b.1 ≤ x ≤ b.2.

Definition within (B : bounds) (s : list Z) : Prop := Forall2 inb B s.

Definition guard_fits (w : Z) (b : Z * Z) : option (Z * Z) :=
  if fits w b.1 && fits w b.2 then Some b else None.

Definition iadd (a b : Z * Z) : Z * Z := (a.1 + b.1, a.2 + b.2).
Definition isub (a b : Z * Z) : Z * Z := (a.1 - b.2, a.2 - b.1).
Definition iscale (c : Z) (a : Z * Z) : Z * Z :=
  if 0 <=? c then (a.1 * c, a.2 * c) else (a.2 * c, a.1 * c).
Definition ishiftr (k : Z) (a : Z * Z) : Z * Z :=
  (Z.shiftr a.1 k, Z.shiftr a.2 k).

(** [in_range n i] guards an index against the length of the vector. *)
Definition in_range (B : bounds) (i : nat) : option unit :=
  if decide (i < length B)%nat then Some tt else None.

Definition mul_acc_abs (w : Z) (d i : nat) (c : Z) (B : bounds) : option bounds :=
  _ ← in_range B i; _ ← in_range B d;
  p ← guard_fits w (iscale c (B !!! i));
  x ← guard_fits w (iadd (B !!! d) p);
  Some (<[d := x]> B).

Definition mul_sub_abs (w : Z) (d i : nat) (c : Z) (B : bounds) : option bounds :=
  _ ← in_range B i; _ ← in_range B d;
  p ← guard_fits w (iscale c (B !!! i));
  x ← guard_fits w (isub (B !!! d) p);
  Some (<[d := x]> B).

Definition clear_abs (d : nat) (B : bounds) : option bounds :=
  Some (<[d := (0, 0)]> B).

Definition carry_abs (w r k m : Z) (i j : nat) (B : bounds) : option bounds :=
  _ ← in_range B i; _ ← in_range B j;
  _ ← (if decide (i = j) then None else Some tt);
  _ ← (if (0 <=? k) then Some tt else None);
  t ← guard_fits w (iadd (B !!! i) (r, r));
  let c := ishiftr k t in
  p ← guard_fits w (iscale m c);
  x ← guard_fits w (iadd (B !!! j) p);
  _ ← guard_fits w (iscale (2 ^ k) c);
  y ← guard_fits w (- r, 2 ^ k - 1 - r);
  Some (<[i := y]> (<[j := x]> B)).

Definition carry_drop_abs (w k : Z) (i : nat) (B : bounds) : option bounds :=
  _ ← in_range B i;
  _ ← (if (0 <=? k) then Some tt else None);
  _ ← guard_fits w (iscale (2 ^ k) (ishiftr k (B !!! i)));
  y ← guard_fits w (0, 2 ^ k - 1);
  Some (<[i := y]> B).

(** ** The value of a limb vector *)

Section value.
Variable wt : nat → Z.

(** [Σ_{i<n} s_i 2^(wt i)]. *)
Fixpoint eval (n : nat) (s : list Z) : Z :=
  match n with
  | O => 0
  | S n' => eval n' s + s !!! n' * 2 ^ wt n'
  end.

Lemma eval_S n s : eval (S n) s = eval n s + s !!! n * 2 ^ wt n.
Proof. done. Qed.

Lemma eval_insert_ge n s i x : (n ≤ i)%nat → eval n (<[i := x]> s) = eval n s.
Proof.
  induction n as [|n IH]; intros Hi; [done|]. simpl.
  rewrite IH by lia. by rewrite list_lookup_total_insert_ne by lia.
Qed.

Lemma eval_insert n s i x :
  (i < n)%nat → (i < length s)%nat →
  eval n (<[i := x]> s) = eval n s + (x - s !!! i) * 2 ^ wt i.
Proof.
  induction n as [|n IH]; intros Hi Hs; [lia|]. cbn [eval].
  destruct (decide (i = n)) as [->|Hne].
  - rewrite eval_insert_ge, list_lookup_total_insert_eq by lia. lia.
  - rewrite IH, list_lookup_total_insert_ne by lia. lia.
Qed.

(** [Valued N m f v]: on vectors of [N] limbs, [f] keeps the value modulo [m],
    reading [n] limbs before and [v n] limbs after.  With [m = 0] the value is
    kept exactly. *)
Class Valued (N : nat) (m : Z) (f : stmt) (v : nat → option nat) : Prop :=
  valued : ∀ n n' s s', v n = Some n' → length s = N → f s = Some s' →
    length s' = N ∧ eqm m (eval n' s') (eval n s).

#[global] Instance sthen_valued N m f g v v' :
  Valued N m f v → Valued N m g v' → Valued N m (sthen f g) (λ n, v n ≫= v').
Proof.
  intros Hf Hg n n' s s' (n1 & Hv & Hv')%bind_Some HN (s1 & H1 & H2)%bind_Some.
  destruct (Hf n n1 s s1) as [L1 E1]; [done..|].
  destruct (Hg n1 n' s1 s') as [L2 E2]; [done..|].
  split; [done|]. by rewrite E2.
Qed.

(** A carry keeps the value when what it moves out of limb [i] and what it
    adds to limb [j] have the same weight modulo [M]. *)
Definition carry_val (N : nat) (M k m : Z) (i j n : nat) : option nat :=
  if negb (i =? j)%nat && (i <? n)%nat && (j <? n)%nat && (n <=? N)%nat
     && ((m * 2 ^ wt j - 2 ^ k * 2 ^ wt i) mod M =? 0)
  then Some n else None.

#[global] Instance carry_valued N M w r k m i j :
  Valued N M (carry_gen w r k m i j) (carry_val N M k m i j).
Proof.
  intros n n' s s' Hv HN. unfold carry_val in Hv. case_match eqn:Hc; [|done].
  rewrite !andb_true_iff, negb_true_iff, Nat.eqb_neq, !Nat.ltb_lt, Nat.leb_le,
    Z.eqb_eq in Hc.
  destruct Hc as [[[[Hij Hi] Hj] Hn] HM]. injection Hv as <-.
  unfold carry_gen. intros Hs. repeat
    (apply bind_Some in Hs as (? & ?%chk_inv & Hs); subst).
  injection Hs as <-. rewrite !length_insert. split; [done|].
  rewrite list_lookup_total_insert_ne by done.
  rewrite eval_insert by (rewrite ?length_insert; lia).
  rewrite eval_insert by lia. rewrite list_lookup_total_insert_ne by done.
  set (c := Z.shiftr _ _).
  match goal with |- eqm _ ?a _ => replace a with
    (eval n s + c * (m * 2 ^ wt j - 2 ^ k * 2 ^ wt i)) by ring end.
  assert (eqm M (m * 2 ^ wt j - 2 ^ k * 2 ^ wt i) 0) as ->.
  { unfold eqm. by rewrite Zmod_0_l. }
  by rewrite Z.mul_0_r, Z.add_0_r.
Qed.

Definition carry_drop_val (N : nat) (M k : Z) (i n : nat) : option nat :=
  if (i <? n)%nat && (n <=? N)%nat && ((2 ^ k * 2 ^ wt i) mod M =? 0)
  then Some n else None.

#[global] Instance carry_drop_valued N M w k i :
  Valued N M (carry_drop w k i) (carry_drop_val N M k i).
Proof.
  intros n n' s s' Hv HN. unfold carry_drop_val in Hv. case_match eqn:Hc; [|done].
  rewrite !andb_true_iff, Nat.ltb_lt, Nat.leb_le, Z.eqb_eq in Hc.
  destruct Hc as [[Hi Hn] HM]. injection Hv as <-. unfold carry_drop. intros Hs.
  repeat (apply bind_Some in Hs as (? & ?%chk_inv & Hs); subst).
  injection Hs as <-. rewrite length_insert. split; [done|].
  rewrite eval_insert by lia. set (c := Z.shiftr _ _).
  match goal with |- eqm _ ?a _ => replace a with
    (eval n s - c * (2 ^ k * 2 ^ wt i)) by ring end.
  assert (eqm M (2 ^ k * 2 ^ wt i) 0) as ->.
  { unfold eqm. by rewrite Zmod_0_l. }
  by rewrite Z.mul_0_r, Z.sub_0_r.
Qed.

Definition clear_val (N d n : nat) : option nat :=
  if (n =? d)%nat && (d <? N)%nat then Some (S d) else None.

#[global] Instance clear_valued N M d : Valued N M (clear d) (clear_val N d).
Proof.
  intros n n' s s' Hv HN. unfold clear_val in Hv. case_match eqn:Hc; [|done].
  rewrite andb_true_iff, Nat.eqb_eq, Nat.ltb_lt in Hc. destruct Hc as [-> Hd].
  injection Hv as <-. unfold clear. intros [= <-]. rewrite length_insert.
  split; [done|]. cbn [eval].
  rewrite eval_insert_ge, list_lookup_total_insert_eq by lia.
  by rewrite Z.mul_0_l, Z.add_0_r.
Qed.
End value.

Arguments Valued wt N m f%_stmt v.

(** ** Soundness of the interval analysis *)

Class Analyzed (f : stmt) (a : bounds → option bounds) : Prop :=
  analyzed : ∀ B B' s, a B = Some B' → within B s →
    ∃ s', f s = Some s' ∧ within B' s'.
Arguments Analyzed f%_stmt a.

#[export] Instance sthen_analyzed f g a b :
  Analyzed f a → Analyzed g b → Analyzed (sthen f g) (λ B, a B ≫= b).
Proof.
  intros Hf Hg B B' s (B1 & H1 & H2)%bind_Some Hs.
  destruct (Hf B B1 s) as (s1 & E1 & W1); [done..|].
  destruct (Hg B1 B' s1) as (s2 & E2 & W2); [done..|].
  exists s2. unfold sthen. by rewrite E1.
Qed.

Lemma within_lookup B s i : within B s → (i < length B)%nat → inb (B !!! i) (s !!! i).
Proof.
  intros HB Hi. pose proof (Forall2_length HB) as HL.
  eapply Forall2_lookup_lr; [done|..]; apply list_lookup_lookup_total_lt; lia.
Qed.

Lemma within_insert B s i b x :
  within B s → inb b x → within (<[i := b]> B) (<[i := x]> s).
Proof. intros. by apply Forall2_insert. Qed.

Lemma in_range_Some B i u : in_range B i = Some u → (i < length B)%nat.
Proof. unfold in_range. by case_decide. Qed.

Lemma guard_fits_Some w b b' :
  guard_fits w b = Some b' → b' = b ∧ ∀ x, inb b x → chk w x = Some x.
Proof.
  unfold guard_fits. case_match eqn:Hf; [|done].
  apply andb_true_iff in Hf as [H1 H2]. intros [= <-]. split; [done|].
  intros x Hx. apply chk_Some. by apply (fits_between w b.1 x b.2).
Qed.

Lemma inb_add a b x y : inb a x → inb b y → inb (iadd a b) (x + y).
Proof. unfold inb. simpl. lia. Qed.

Lemma inb_sub a b x y : inb a x → inb b y → inb (isub a b) (x - y).
Proof. unfold inb. simpl. lia. Qed.

Lemma inb_const r : inb (r, r) r.
Proof. unfold inb. simpl. lia. Qed.

Lemma inb_scale c a x : inb a x → inb (iscale c a) (x * c).
Proof.
  unfold inb, iscale. destruct (Z.leb_spec 0 c); simpl; nia.
Qed.

Lemma inb_shiftr k a x : 0 ≤ k → inb a x → inb (ishiftr k a) (Z.shiftr x k).
Proof.
  unfold inb. simpl. intros Hk [H1 H2]. rewrite !Z.shiftr_div_pow2 by done.
  pose proof (Z.pow_pos_nonneg 2 k).
  split; apply Z.div_le_mono; auto with lia.
Qed.

#[export] Hint Resolve inb_add inb_sub inb_const inb_scale inb_shiftr
  within_lookup within_insert : limbs.

(** Runs one checked operation inside an analysis proof. *)
Ltac guard_step :=
  match goal with
  | H : (_ ≫= _) = Some _ |- _ => apply bind_Some in H as (? & ? & H)
  | H : in_range _ _ = Some _ |- _ => apply in_range_Some in H
  | H : guard_fits _ _ = Some _ |- _ => apply guard_fits_Some in H as [-> H]
  | H : (if decide _ then None else Some _) = Some _ |- _ =>
      destruct (decide _); [done|clear H]
  | H : (if (?a <=? ?b) then Some _ else None) = Some _ |- _ =>
      destruct (Z.leb_spec a b); [clear H|done]
  | H : Some _ = Some _ |- _ => injection H as <-
  end.

(** Discharges a check of the goal by the interval hypothesis [H]. *)
Ltac check_with H :=
  lazymatch goal with
  | |- ∃ _, (chk _ ?y ≫= _) = _ ∧ _ => rewrite (H y) by eauto 10 with limbs
  end; cbn [mbind option_bind]; clear H.

#[export] Instance mul_acc_analyzed w d i c :
  Analyzed (mul_acc w d i c) (mul_acc_abs w d i c).
Proof.
  intros B B' s Ha Hs. unfold mul_acc_abs in Ha. unfold mul_acc.
  repeat guard_step. check_with H1. check_with H2.
  eexists. split; [done|]. eauto 10 with limbs.
Qed.

#[export] Instance mul_sub_analyzed w d i c :
  Analyzed (mul_sub w d i c) (mul_sub_abs w d i c).
Proof.
  intros B B' s Ha Hs. unfold mul_sub_abs in Ha. unfold mul_sub.
  repeat guard_step. check_with H1. check_with H2.
  eexists. split; [done|]. eauto 10 with limbs.
Qed.

#[export] Instance clear_analyzed d : Analyzed (clear d) (clear_abs d).
Proof.
  intros B B' s [= <-] Hs. eexists. split; [done|].
  apply within_insert; [done|]. unfold inb. simpl. lia.
Qed.

(** What a carry leaves behind: a residue between [-r] and [2^k - 1 - r]. *)
Lemma inb_residue k r x :
  0 ≤ k → inb (- r, 2 ^ k - 1 - r) (x - Z.shiftr (x + r) k * 2 ^ k).
Proof.
  intros Hk. rewrite Z.shiftr_div_pow2 by done. unfold inb. cbn [fst snd].
  pose proof (Z.pow_pos_nonneg 2 k ltac:(lia) Hk).
  pose proof (Z.div_mod (x + r) (2 ^ k)). 
  pose proof (Z.mod_pos_bound (x + r) (2 ^ k)). lia.
Qed.
#[export] Hint Resolve inb_residue : limbs.

#[export] Instance carry_analyzed w r k m i j :
  Analyzed (carry_gen w r k m i j) (carry_abs w r k m i j).
Proof.
  intros B B' s Ha Hs. unfold carry_abs in Ha. unfold carry_gen.
  repeat guard_step.
  check_with H3. check_with H4. check_with H5. check_with H6.
  rewrite list_lookup_total_insert_ne by done.
  check_with H7.
  eexists. split; [done|]. eauto 10 with limbs.
Qed.

#[export] Instance carry_drop_analyzed w k i :
  Analyzed (carry_drop w k i) (carry_drop_abs w k i).
Proof.
  intros B B' s Ha Hs. unfold carry_drop_abs in Ha. unfold carry_drop.
  repeat guard_step. check_with H1.
  pose proof (inb_residue k 0 (s !!! i)) as Hr.
  rewrite Z.add_0_r, Z.sub_0_r in Hr.
  check_with H2.
  eexists. split; [done|]. eauto 10 with limbs.
Qed.

(** The composed transformers of a function, as terms to evaluate. *)
Definition abs_of (f : stmt) {a} {_ : Analyzed f a} : bounds → option bounds := a.
Definition val_of wt N m (f : stmt) {v} {_ : Valued wt N m f v} : nat → option nat := v.
Arguments abs_of f%_stmt {a _}.
Arguments val_of wt N m f%_stmt {v _}.

Lemma run_analyzed f {a} {Hf : Analyzed f a} B B' s :
  abs_of f B = Some B' → within B s → ∃ s', f s = Some s' ∧ within B' s'.
Proof. apply Hf. Qed.

Lemma run_valued wt N m f {v} {Hf : Valued wt N m f v} n n' s s' :
  val_of wt N m f n = Some n' → length s = N → f s = Some s' →
  length s' = N ∧ eqm m (eval wt n' s') (eval wt n s).
Proof. apply Hf. Qed.

(** Instance resolution works on the names of the statements. *)
#[global] Typeclasses Opaque sthen mul_acc mul_sub clear carry_gen carry_drop.

(** Weakening of intervals. *)
Definition ble (a b : Z * Z) : bool := (b.1 <=? a.1) && (a.2 <=? b.2).

Fixpoint bounds_le (A B : bounds) : bool :=
  match A, B with
  | [], [] => true
  | a :: A', b :: B' => ble a b && bounds_le A' B'
  | _, _ => false
  end.

Lemma within_le A B s : bounds_le A B = true → within A s → within B s.
Proof.
  intros Hle HA. revert B Hle. induction HA as [|a x A s Ha _ IH]; intros [|b B] Hle;
    try done; [constructor|]. cbn [bounds_le] in Hle.
  apply andb_true_iff in Hle as [[H1 H2]%andb_true_iff Hle].
  rewrite Z.leb_le in H1, H2. constructor; [unfold inb in *; lia|]. by apply IH.
Qed.

(** The value is monotone in the limbs. *)
Lemma eval_bounds wt n B s :
  within B s → (n ≤ length s)%nat →
  eval wt n (B.*1) ≤ eval wt n s ≤ eval wt n (B.*2).
Proof.
  intros HB Hn. pose proof (Forall2_length HB) as HL.
  induction n as [|n IH]; cbn [eval]; [lia|]. specialize (IH ltac:(lia)).
  pose proof (within_lookup B s n HB ltac:(lia)) as [H1 H2].
  assert (B.*1 !!! n = (B !!! n).1 ∧ B.*2 !!! n = (B !!! n).2) as [-> ->].
  { split; apply list_lookup_total_correct; rewrite list_lookup_fmap,
      (list_lookup_lookup_total_lt B n) by lia; done. }
  assert (0 ≤ 2 ^ wt n) by (apply Z.pow_nonneg; lia). nia.
Qed.

(** Limb-wise sums and differences. *)
Lemma eval_zip_with (op : Z → Z → Z) wt n a b :
  (∀ x y z, op x y * z = op (x * z) (y * z)) →
  (∀ x y x' y', op (x + x') (y + y') = op x y + op x' y') → op 0 0 = 0 →
  (n ≤ length a)%nat → (n ≤ length b)%nat →
  eval wt n (zip_with op a b) = op (eval wt n a) (eval wt n b).
Proof.
  intros Hm Hp H0 Ha Hb. induction n as [|n IH]; cbn [eval]; [done|].
  rewrite Hp, IH, <- Hm by lia. do 2 f_equal. apply list_lookup_total_correct.
  by rewrite lookup_zip_with, (list_lookup_lookup_total_lt a n),
    (list_lookup_lookup_total_lt b n) by lia.
Qed.

Lemma eval_opp wt n s :
  (n ≤ length s)%nat → eval wt n (Z.opp <$> s) = - eval wt n s.
Proof.
  induction n as [|n IH]; intros Hn; cbn [eval]; [done|].
  assert ((Z.opp <$> s) !!! n = - (s !!! n)) as ->.
  { apply list_lookup_total_correct.
    by rewrite list_lookup_fmap, (list_lookup_lookup_total_lt s n) by lia. }
  rewrite IH by lia. ring.
Qed.

(** ** Storing limbs as bytes *)

(** An [unsigned char] assigned from an expression on one or two limbs. *)
Definition b1 (s : list Z) (i : nat) (x : Z) : Z := uwrap 8 (Z.shiftr (s !!! i) x).

Definition b2 (s : list Z) (i : nat) (x : Z) (j : nat) (y : Z) : Z :=
  uwrap 8 (Z.lor (Z.shiftr (s !!! i) x) (Z.shiftl (s !!! j) y)).

Definition byte_at (v : Z) (j : nat) : Z := (v / 2 ^ (8 * Z.of_nat j)) mod 2 ^ 8.

Lemma le_split_byte_at n v : le_split n v = byte_at v <$> seq 0 n.
Proof.
  apply (list_eq_same_length _ _ n); [|by rewrite length_le_split|].
  { by rewrite length_fmap, length_seq. }
  intros i x y Hi Hx Hy. rewrite list_lookup_fmap, lookup_seq_lt in Hy by done.
  injection Hy as <-. apply list_lookup_total_correct in Hx as <-.
  rewrite lookup_le_split by done. by rewrite pow256_pow2.
Qed.

(** A radix: limb [i] has [wt (i+1) - wt i] bits. *)
Class Radix (wt : nat → Z) : Prop := {
  radix_0 : wt 0%nat = 0;
  radix_S : ∀ i, wt i ≤ wt (S i)
}.

Section storing.
Context (wt : nat → Z) {Hwt : Radix wt}.

Lemma radix_nonneg i : 0 ≤ wt i.
Proof. induction i as [|i IH]; [by rewrite radix_0|]. pose proof (radix_S i). lia. Qed.

(** The first [n] limbs are digits of the radix. *)
Definition digits_lt (n : nat) (s : list Z) : Prop :=
  ∀ i, (i < n)%nat → 0 ≤ s !!! i < 2 ^ (wt (S i) - wt i).

Lemma eval_range n s : digits_lt n s → 0 ≤ eval wt n s < 2 ^ wt n.
Proof.
  induction n as [|n IH]; intros Hs; cbn [eval]; [by rewrite radix_0|].
  assert (2 ^ wt (S n) = 2 ^ wt n * 2 ^ (wt (S n) - wt n)) as ->.
  { rewrite <- Z.pow_add_r; [f_equal; lia|apply radix_nonneg|].
    pose proof (radix_S n). lia. }
  specialize (IH ltac:(intros i Hi; apply Hs; lia)). specialize (Hs n ltac:(lia)). nia.
Qed.

(** The value from limb [i] on, divided by the weight of limb [i]. *)
Fixpoint eval_from (i m : nat) (s : list Z) : Z :=
  match m with
  | O => 0
  | S m' => s !!! i + 2 ^ (wt (S i) - wt i) * eval_from (S i) m' s
  end.

Lemma eval_split i m s :
  eval wt (i + m) s = eval wt i s + 2 ^ wt i * eval_from i m s.
Proof.
  revert i. induction m as [|m IH]; intros i; cbn [eval_from].
  { rewrite Nat.add_0_r. lia. }
  replace (i + S m)%nat with (S i + m)%nat by lia. rewrite IH. cbn [eval].
  assert (2 ^ wt (S i) = 2 ^ wt i * 2 ^ (wt (S i) - wt i)) as ->.
  { rewrite <- Z.pow_add_r; [f_equal; lia|apply radix_nonneg|].
    pose proof (radix_S i). lia. }
  ring.
Qed.

Lemma byte_at_limb s i m x j :
  digits_lt i s → 0 ≤ x → 8 * Z.of_nat j = wt i + x →
  byte_at (eval wt (i + m) s) j = (eval_from i m s / 2 ^ x) mod 2 ^ 8.
Proof.
  intros Hs Hx Hj. unfold byte_at. pose proof (radix_nonneg i).
  rewrite Hj, <- div_pow2_pow2 by lia. rewrite eval_split.
  pose proof (eval_range i s Hs).
  rewrite (Z.mul_comm (2 ^ wt i)), Z.div_add, (Z.div_small (eval wt i s)) by lia. done.
Qed.

Lemma digits_lt_le n m s : digits_lt n s → (m ≤ n)%nat → digits_lt m s.
Proof. intros Hs Hm i Hi. apply Hs. lia. Qed.

(** A byte inside limb [i], not the last one. *)
Lemma b1_byte_at n s i x j :
  digits_lt n s → (i < n)%nat → 0 ≤ x → x + 8 ≤ wt (S i) - wt i →
  8 * Z.of_nat j = wt i + x → b1 s i x = byte_at (eval wt (S n) s) j.
Proof.
  intros Hs Hi Hx Hw Hj. replace (S n) with (i + S (n - i))%nat by lia.
  rewrite (byte_at_limb s i _ x j); [|eapply digits_lt_le; [done|lia]|done..].
  cbn [eval_from]. unfold b1, uwrap. rewrite Z.shiftr_div_pow2 by lia.
  set (h := eval_from _ _ _). set (w := wt (S i) - wt i) in *.
  replace (2 ^ w * h) with (2 ^ (w - x - 8) * h * 2 ^ 8 * 2 ^ x).
  - rewrite Z.div_add by (apply Z.pow_nonzero; lia). by rewrite Z.mod_add.
  - replace (2 ^ w) with (2 ^ (w - x - 8) * 2 ^ 8 * 2 ^ x); [ring|].
    rewrite <- !Z.pow_add_r by lia. f_equal. lia.
Qed.

(** A byte of the last limb, which holds all the rest of the number. *)
Lemma b1_byte_at_top n s x j :
  digits_lt n s → 0 ≤ x → 8 * Z.of_nat j = wt n + x →
  b1 s n x = byte_at (eval wt (S n) s) j.
Proof.
  intros Hs Hx Hj. rewrite <- Nat.add_1_r.
  rewrite (byte_at_limb s n 1 x j) by done. cbn [eval_from].
  unfold b1, uwrap. rewrite Z.shiftr_div_pow2 by lia.
  by rewrite Z.mul_0_r, Z.add_0_r.
Qed.

(** A byte that begins in limb [i] and ends in the next one. *)
Lemma b2_byte_at n s i x y j :
  digits_lt n s → (i < n)%nat → 0 ≤ x → 0 ≤ y → x + y = wt (S i) - wt i →
  8 ≤ y + (wt (S (S i)) - wt (S i)) →
  8 * Z.of_nat j = wt i + x → b2 s i x (S i) y = byte_at (eval wt (S n) s) j.
Proof.
  intros Hs Hi Hx Hy Hxy H8 Hj.
  replace (S n) with (i + S (S (n - i - 1)))%nat by lia.
  rewrite (byte_at_limb s i _ x j); [|eapply digits_lt_le; [done|lia]|done..].
  cbn [eval_from]. unfold b2, uwrap. rewrite Z.shiftr_div_pow2 by lia.
  specialize (Hs i Hi). set (w := wt (S (S i)) - wt (S i)) in *.
  set (h := eval_from _ _ _). rewrite <- Hxy in Hs |- *.
  rewrite Z.pow_add_r in Hs |- * by lia.
  assert (0 < 2 ^ x) by (apply Z.pow_pos_nonneg; lia).
  rewrite lor_shiftl_add; [|lia|].
  2: { split; [apply Z.div_pos; lia|]. apply Z.div_lt_upper_bound; [lia|apply Hs]. }
  assert (2 ^ y * 2 ^ w = 2 ^ (y + w - 8) * 2 ^ 8) as E.
  { rewrite <- !Z.pow_add_r; [f_equal; lia|lia..|]. unfold w. pose proof (radix_S (S i)). lia. }
  replace (s !!! i + 2 ^ x * 2 ^ y * (s !!! S i + 2 ^ w * h)) with
    (s !!! i + (s !!! S i * 2 ^ y + (2 ^ (y + w - 8) * h) * 2 ^ 8) * 2 ^ x).
  - rewrite Z.div_add by lia. rewrite Z.add_assoc. by rewrite Z.mod_add.
  - transitivity (s !!! i + 2 ^ x * 2 ^ y * s !!! S i + 2 ^ x * h * (2 ^ (y + w - 8) * 2 ^ 8));
      [ring|]. rewrite <- E. ring.
Qed.
End storing.

(** Proves that a list of byte expressions is the little-endian encoding of a
    limb vector whose digits are in range. *)
Ltac store_bytes n :=
  rewrite le_split_byte_at; cbn [seq fmap list_fmap];
  repeat first
    [ apply cons_eq
    | lazymatch goal with |- b1 _ ?i _ = _ =>
        lazymatch i with
        | n => apply (b1_byte_at_top _ n); [done|lia|reflexivity]
        | _ => apply (b1_byte_at _ n); [done|lia|lia|vm_compute; congruence|reflexivity]
        end end
    | lazymatch goal with |- b2 _ ?i _ _ _ = _ =>
        apply (b2_byte_at _ n);
          [done|lia|lia|lia|reflexivity|vm_compute; congruence|reflexivity] end
    | reflexivity ].
