(* ===== verification/Interfaces.v ===== *)
(** * Interfaces between the components

    What the clients of the hash function and the clients of the random
    generator rely on, and the two builds of the code.  The definitions of the
    clients take the operations of a class, their theorems also its laws; the
    instances are in [KeccakSpec] and [Random]. *)

From S2P Require Export Prelude.

#[local] Open Scope Z_scope.

(** ** Builds

    [NDEBUG] selects the build: with it, [assert] and the blocks under
    [#if !defined(NDEBUG)] disappear.  A failing [assert] aborts. *)
Class Build := NDEBUG : bool.

Definition debug_only `{Build} (block : option unit) : option unit :=
  if NDEBUG then Some tt else block.

Definition abort_unless (b : bool) : option unit := if b then Some tt else None.

Definition assert_ `{Build} (b : bool) : option unit := debug_only (abort_unless b).

Lemma assert_true `{Build} b : b = true → assert_ b = Some tt.
Proof. intros ->. unfold assert_, debug_only. by destruct NDEBUG. Qed.

Lemma debug_only_ok `{Build} block : block = Some tt → debug_only block = Some tt.
Proof. intros ->. unfold debug_only. by destruct NDEBUG. Qed.

(** One step of a sequence of calls.  The proofs rewrite with this equation rather than by
    computation: the arguments of the calls are large. *)
Lemma bind_some {A B} (f : A → option B) (o : option A) a : o = Some a → (o ≫= f) = f a.
Proof. by intros ->. Qed.

Ltac step E := rewrite (bind_some _ _ _ E); cbv beta.

(** ** The hash function *)

(** The data of a point, of a scalar or of a hash: 32 bytes. *)
Definition bytes32 (l : list Z) : Prop := length l = 32%nat ∧ bytes l.

Class FastHash := fast_hash : list Z → option (list Z).

(** It returns, and what it returns is 32 bytes. *)
Class FastHashLaws `(FastHash) : Prop :=
  fast_hash_total : ∀ data, ∃ h, fast_hash data = Some h ∧ bytes32 h.

(** ** The random generator

    Its state and one operation that draws [n] bytes; [rng_ok] is the
    invariant under which a draw returns. *)
Class Rng (S : Type) := random_bytes : nat → S → option (list Z * S).

Class RngLaws {S : Type} `(Rng S) := {
  rng_ok : S → Prop;
  random_bytes_total n s :
    rng_ok s → ∃ l s', random_bytes n s = Some (l, s') ∧ length l = n ∧ bytes l ∧ rng_ok s'
}.

(** Code that draws: the state of the generator is passed along, [None] aborts. *)
Definition rand (S A : Type) : Type := S → option (A * S).

#[export] Instance rand_ret {S} : MRet (rand S) := λ A a s, Some (a, s).
#[export] Instance rand_bind {S} : MBind (rand S) := λ A B k m s,
  match m s with Some (a, s') => k a s' | None => None end.

(** A computation that does not draw. *)
Definition lift {S A : Type} (o : option A) : rand S A := λ s, (λ a, (a, s)) <$> o.
