(* ===== verification/Outcome.v ===== *)
(** * Code that throws

    The outcome of a call that may throw is a value, an exception, or undefined: an
    abort, an access out of bounds, a signed overflow. *)

From S2P Require Export Interfaces.

#[local] Open Scope Z_scope.

Inductive outcome (A : Type) : Type :=
| Ret (a : A)
| Throw
| Undef.
Arguments Ret {A} a.
Arguments Throw {A}.
Arguments Undef {A}.

#[export] Instance outcome_ret : MRet outcome := λ A a, Ret a.
#[export] Instance outcome_bind : MBind outcome := λ A B k m,
  match m with
  | Ret a => k a
  | Throw => Throw
  | Undef => Undef
  end.

(** Code that does not throw: [None] is undefined. *)
Definition run {A} (o : option A) : outcome A :=
  match o with Some a => Ret a | None => Undef end.

(** [CHECK_AND_ASSERT_THROW_MES(b, ..)] *)
Definition throw_unless (b : bool) : outcome unit := if b then Ret tt else Throw.

(** [try { m } catch (...) { return a; }] *)
Definition catch_all {A} (a : A) (m : outcome A) : outcome A :=
  match m with Throw => Ret a | _ => m end.

(** Code that also draws random bytes and catches no exception: the state of the generator
    is not followed past one.  (The verification of bulletproofs draws and is called where
    exceptions are caught; see [genx] of Bulletproofs.v.) *)
Definition gen (S A : Type) : Type := S → outcome (A * S).

#[export] Instance gen_ret {S} : MRet (gen S) := λ A a s, Ret (a, s).
#[export] Instance gen_bind {S} : MBind (gen S) := λ A B k m s,
  match m s with
  | Ret (a, s') => k a s'
  | Throw => Throw
  | Undef => Undef
  end.

Definition draw {S A} (m : rand S A) : gen S A := λ s, run (m s).
Definition calc {S A} (m : outcome A) : gen S A := λ s, a ← m; Ret (a, s).

(** The rewriting steps of the proofs, as [bind_some]. *)
Lemma bind_ret {A B} (f : A → outcome B) (o : outcome A) a : o = Ret a → (o ≫= f) = f a.
Proof. by intros ->. Qed.

Lemma bind_run {A B} (f : A → outcome B) (o : option A) a : o = Some a → (run o ≫= f) = f a.
Proof. by intros ->. Qed.

Lemma throw_unless_true b : b = true → throw_unless b = Ret tt.
Proof. by intros ->. Qed.

Ltac step_ret E := rewrite (bind_ret _ _ _ E); cbv beta.
Ltac step_run E := rewrite (bind_run _ _ _ E); cbv beta.

Lemma run_some {A} (o : option A) a : o = Some a → run o = Ret a.
Proof. by intros ->. Qed.

Lemma draw_step {S A B} (m : rand S A) (k : A → gen S B) s a s' :
  m s = Some (a, s') → (draw m ≫= k) s = k a s'.
Proof. intros E. unfold mbind, gen_bind, draw. by rewrite E. Qed.

Lemma calc_step {S A B} (m : outcome A) (k : A → gen S B) s a :
  m = Ret a → (calc m ≫= k) s = k a s.
Proof. by intros ->. Qed.

Lemma calc_throw {S A B} (m : outcome A) (k : A → gen S B) s :
  m = Throw → (calc m ≫= k) s = Throw.
Proof. by intros ->. Qed.
