(* ===== verification/ThreadPool.v ===== *)
(** * The thread pool: [common/threadpool.h], [common/threadpool.cpp]

    The pool and the threads that use it take turns.  A step of a thread is what it does under
    one of the locks ([mutex], or [mt] of a waiter), a call of a task, or a piece of the caller's own
    code; the schedule says which thread is next.  A thread that waits on a condition variable
    sleeps until it is notified, or wakes for no reason.

    Tasks are calls on a shared memory: the type of the tasks, the type of the memory and what a call does
    are parameters of the component, so that its clients bring their own.  A call that is undefined (an access
    to an object that is gone, an exception that leaves the task) makes the whole program undefined. *)

From S2P Require Export Outcome.
From stdpp Require Export gmap relations.

#[local] Open Scope Z_scope.

Section pool.
Context {M F : Type} (call : F → M → option M).

(** [threadpool::entry]; waiters are named by numbers *)
Record entry := { e_wo : option nat; e_f : F; e_leaf : bool }.

(** What the code that uses the pool does: the constructor, [wait(&tpool)] and the destructor of a waiter,
    [submit], something of its own, and the destructor of the pool *)
Inductive action :=
| NewWaiter (obj : nat)
| Submit (obj : option nat) (f : F) (leaf : bool)
| Wait (obj : nat)
| EndWaiter (obj : nat)
| Own (f : F)
| Shutdown.

(** Where a thread is.  In [run] the argument is [None] for a thread of the pool, and the waiter whose [wait] called
    [run(true)] otherwise. *)
Inductive place :=
| Code                                    (* between two actions *)
| Inline (f : F)                          (* in [submit], at [f()] *)
| Run (k : option nat)                    (* in [run], at the head of the loop *)
| AsleepWork                              (* in [run], at [has_work.wait(lock)] *)
| Exec (k : option nat) (e : entry)       (* in [run], at [e.f()] *)
| Dec (k : option nat) (e : entry)        (* in [run], at [e.wo->dec()] *)
| Relock (k : option nat)                 (* in [run], at [lock.lock(); active--;] *)
| CheckNum (obj : nat) (last : bool)      (* in [wait], at [while(num)]; [last] in the destructor *)
| AsleepNum (obj : nat) (last : bool)     (* in [wait], at [cv.wait(lock)] *)
| Joining                                 (* in the destructor of the pool, at [join()] *)
| Thrown                                  (* an exception left [submit] *)
| Exited.                                 (* a thread of the pool has ended *)

(** [depth] and [is_leaf] are thread-local. *)
Record thread := { t_pc : place; t_prog : list action; t_depth : Z; t_leaf : bool }.

(** The members of [threadpool], the numbers of the waiters that exist, the threads (first those of the pool) and the memory *)
Record pool := {
  tp_queue : list entry; tp_active : Z; tp_max : Z; tp_running : bool;
  tp_waiters : gmap nat Z; tp_threads : list thread; tp_mem : M
}.

Inductive result := Blocked | Next (s : pool) | Undefined.

Definition at_pc (t : thread) (pc : place) : thread :=
  {| t_pc := pc; t_prog := t_prog t; t_depth := t_depth t; t_leaf := t_leaf t |}.

(** [++depth; is_leaf = leaf;] and, after the call, [--depth; is_leaf = false;] *)
Definition enter (t : thread) (leaf : bool) (pc : place) : thread :=
  {| t_pc := pc; t_prog := t_prog t; t_depth := t_depth t + 1; t_leaf := leaf |}.
Definition leave_call (t : thread) (pc : place) : thread :=
  {| t_pc := pc; t_prog := t_prog t; t_depth := t_depth t - 1; t_leaf := false |}.

Definition set_threads (s : pool) (ts : list thread) : pool := {|
  tp_queue := tp_queue s; tp_active := tp_active s; tp_max := tp_max s; tp_running := tp_running s;
  tp_waiters := tp_waiters s; tp_threads := ts; tp_mem := tp_mem s |}.

Definition set_waiters (s : pool) (ws : gmap nat Z) : pool := {|
  tp_queue := tp_queue s; tp_active := tp_active s; tp_max := tp_max s; tp_running := tp_running s;
  tp_waiters := ws; tp_threads := tp_threads s; tp_mem := tp_mem s |}.

Definition set_queue (s : pool) (q : list entry) (active : Z) : pool := {|
  tp_queue := q; tp_active := active; tp_max := tp_max s; tp_running := tp_running s;
  tp_waiters := tp_waiters s; tp_threads := tp_threads s; tp_mem := tp_mem s |}.

Definition set_mem (s : pool) (m : M) : pool := {|
  tp_queue := tp_queue s; tp_active := tp_active s; tp_max := tp_max s; tp_running := tp_running s;
  tp_waiters := tp_waiters s; tp_threads := tp_threads s; tp_mem := m |}.

Definition stop (s : pool) : pool := {|
  tp_queue := tp_queue s; tp_active := tp_active s; tp_max := tp_max s; tp_running := false;
  tp_waiters := tp_waiters s; tp_threads := tp_threads s; tp_mem := tp_mem s |}.

Definition put (i : nat) (t : thread) (s : pool) : pool := set_threads s (<[i := t]> (tp_threads s)).

(** ** Condition variables *)

Definition asleep_work (t : thread) : bool := match t_pc t with AsleepWork => true | _ => false end.

Definition wake_work (t : thread) : thread := if asleep_work t then at_pc t (Run None) else t.

(** [has_work.notify_one()] wakes thread [w] if it sleeps, and otherwise the first that does. *)
Fixpoint wake_first (ts : list thread) : list thread :=
  match ts with
  | [] => []
  | t :: ts => if asleep_work t then wake_work t :: ts else t :: wake_first ts
  end.

Definition notify_one (w : nat) (ts : list thread) : list thread :=
  match ts !! w with
  | Some t => if asleep_work t then <[w := wake_work t]> ts else wake_first ts
  | None => wake_first ts
  end.

(** [has_work.notify_all()] *)
Definition notify_all (ts : list thread) : list thread := wake_work <$> ts.

(** [cv.notify_all()] of a waiter *)
Definition wake_num (obj : nat) (t : thread) : thread :=
  match t_pc t with
  | AsleepNum o last => if (o =? obj)%nat then at_pc t (CheckNum o last) else t
  | _ => t
  end.

Definition notify_waiter (obj : nat) (ts : list thread) : list thread := wake_num obj <$> ts.

(** ** The waiter *)

(** [if (obj) obj->inc();] *)
Definition inc (obj : option nat) (ws : gmap nat Z) : option (gmap nat Z) :=
  match obj with
  | None => Some ws
  | Some o => num ← ws !! o; num ← chk 32 (num + 1); Some (<[o := num]> ws)
  end.

(** [if (e.wo) e.wo->dec();]: the new numbers, and whether the number is now zero *)
Definition dec (wo : option nat) (ws : gmap nat Z) : option (gmap nat Z * bool) :=
  match wo with
  | None => Some (ws, false)
  | Some o => num ← ws !! o; num ← chk 32 (num - 1); Some (<[o := num]> ws, num =? 0)
  end.

(** [while(num) cv.wait(lock);], one test; at the end of the destructor the waiter is gone *)
Definition check_num (i : nat) (t : thread) (obj : nat) (last : bool) (s : pool) : result :=
  match tp_waiters s !! obj with
  | None => Undefined
  | Some num =>
      if num =? 0 then
        Next (put i (at_pc t Code) (if last then set_waiters s (delete obj (tp_waiters s)) else s))
      else Next (put i (at_pc t (AsleepNum obj last)) s)
  end.

(** ** The pool *)

(** [!leaf && ((active == max && !queue.empty()) || depth > 0)] *)
Definition run_here (t : thread) (leaf : bool) (s : pool) : bool :=
  negb leaf && (((tp_active s =? tp_max s) && negb (length (tp_queue s) =? 0)%nat) || (0 <? t_depth t)).

(** The thread [t] has taken the action from its code; [w] is the thread to notify. *)
Definition submit (i w : nat) (t : thread) (obj : option nat) (f : F) (leaf : bool) (s : pool) : result :=
  if t_leaf t then Next (put i (at_pc t Thrown) s) else
  if run_here t leaf s then Next (put i (enter t leaf (Inline f)) s) else
  match inc obj (tp_waiters s) with
  | None => Undefined
  | Some ws =>
      let e := {| e_wo := obj; e_f := f; e_leaf := leaf |} in
      let queue := if leaf then e :: tp_queue s else tp_queue s ++ [e] in
      let s := put i t (set_queue (set_waiters s ws) queue (tp_active s)) in
      Next (set_threads s (notify_one w (tp_threads s)))
  end.

(** Where [run] returns to *)
Definition returned (k : option nat) : place :=
  match k with None => Exited | Some obj => CheckNum obj false end.

(** [run], from the head of the loop, under the lock *)
Definition run_loop (i : nat) (t : thread) (k : option nat) (s : pool) : result :=
  if negb (tp_running s) then Next (put i (at_pc t (returned k)) s) else
  match tp_queue s with
  | [] => Next (put i (at_pc t (match k with None => AsleepWork | Some _ => returned k end)) s)
  | e :: queue =>
      Next (put i (enter t (e_leaf e) (Exec k e)) (set_queue s queue (uwrap 32 (tp_active s + 1))))
  end.

(** A task, on the memory *)
Definition run_task (i : nat) (t : thread) (f : F) (s : pool) : result :=
  match call f (tp_mem s) with None => Undefined | Some m => Next (put i t (set_mem s m)) end.

Definition run_dec (i : nat) (t : thread) (k : option nat) (e : entry) (s : pool) : result :=
  match dec (e_wo e) (tp_waiters s) with
  | None => Undefined
  | Some (ws, zero) =>
      let s := put i (at_pc t (Relock k)) (set_waiters s ws) in
      Next (match e_wo e with
        | Some obj => if zero then set_threads s (notify_waiter obj (tp_threads s)) else s
        | None => s
        end)
  end.

(** The threads of the pool are the first [max - 1]. *)
Definition workers (max : Z) : nat := if max =? 0 then 0 else Z.to_nat (max - 1).

Definition all_exited (s : pool) : bool :=
  forallb (λ t, match t_pc t with Exited => true | _ => false end) (take (workers (tp_max s)) (tp_threads s)).

(** The next action of a thread *)
Definition act (i w : nat) (t : thread) (a : action) (s : pool) : result :=
  match a with
  | NewWaiter obj => Next (put i t (set_waiters s (<[obj := 0]> (tp_waiters s))))
  | Submit obj f leaf => submit i w t obj f leaf s
  | Wait obj => Next (put i (at_pc t (Run (Some obj))) s)
  | EndWaiter obj => Next (put i (at_pc t (CheckNum obj true)) s)
  | Own f => run_task i t f s
  | Shutdown => let s := stop (put i (at_pc t Joining) s) in Next (set_threads s (notify_all (tp_threads s)))
  end.

(** A step of thread [i]; if it notifies one thread, that is [w]. *)
Definition step_thread (i w : nat) (s : pool) : result :=
  match tp_threads s !! i with
  | None => Blocked
  | Some t =>
      match t_pc t with
      | Code =>
          match t_prog t with
          | [] => Blocked
          | a :: prog => act i w {| t_pc := Code; t_prog := prog; t_depth := t_depth t; t_leaf := t_leaf t |} a s
          end
      | Inline f => run_task i (leave_call t Code) f s
      | Run k => run_loop i t k s
      | Exec k e => run_task i (leave_call t (Dec k e)) (e_f e) s
      | Dec k e => run_dec i t k e s
      | Relock k =>
          Next (put i (at_pc t (Run k)) (set_queue s (tp_queue s) (uwrap 32 (tp_active s - 1))))
      | CheckNum obj last => check_num i t obj last s
      | Joining => if all_exited s then Next (put i (at_pc t Code) s) else Blocked
      | AsleepWork | AsleepNum _ _ | Thrown | Exited => Blocked
      end
  end.

(** A thread that sleeps wakes for no reason. *)
Definition wakeup (i : nat) (s : pool) : result :=
  match tp_threads s !! i with
  | None => Blocked
  | Some t =>
      match t_pc t with
      | AsleepWork => Next (put i (at_pc t (Run None)) s)
      | AsleepNum obj last => Next (put i (at_pc t (CheckNum obj last)) s)
      | _ => Blocked
      end
  end.

(** ** Schedules *)

Inductive label := Turn (i w : nat) | Spurious (i : nat).

Definition sched_step (l : label) (s : pool) : result :=
  match l with Turn i w => step_thread i w s | Spurious i => wakeup i s end.

Fixpoint execute (ls : list label) (s : pool) : result :=
  match ls with
  | [] => Next s
  | l :: ls => match sched_step l s with Next s => execute ls s | r => r end
  end.

(** The constructor, with the threads of the callers beside those of the pool *)
Definition worker : thread := {| t_pc := Run None; t_prog := []; t_depth := 0; t_leaf := false |}.

Definition threadpool (max : Z) (callers : list thread) (m : M) : pool := {|
  tp_queue := []; tp_active := 0; tp_max := max; tp_running := true; tp_waiters := ∅;
  tp_threads := replicate (workers max) worker ++ callers; tp_mem := m |}.

End pool.

Arguments entry : clear implicits.
Arguments action : clear implicits.
Arguments place : clear implicits.
Arguments thread : clear implicits.
Arguments pool : clear implicits.
Arguments result : clear implicits.
