(* ===== verification/ThreadPoolSpec.v ===== *)
(** * Correctness of the thread pool

    Any number of callers hand tasks to the pool and wait for them, over any schedule of the threads. *)

From S2P Require Export ThreadPool.

#[local] Open Scope Z_scope.

(** ** Sums over the threads *)

Definition sum_over {A} (f : A → nat) (l : list A) : nat := sum_list (f <$> l).

Lemma sum_over_cons {A} (f : A → nat) x l : sum_over f (x :: l) = (f x + sum_over f l)%nat.
Proof. done. Qed.

Lemma sum_over_app {A} (f : A → nat) l k : sum_over f (l ++ k) = (sum_over f l + sum_over f k)%nat.
Proof. unfold sum_over. by rewrite fmap_app, sum_list_with_app || (induction l; cbn; lia). Qed.

Lemma sum_over_insert {A} (f : A → nat) l i x y :
  l !! i = Some x → (sum_over f (<[i := y]> l) + f x = sum_over f l + f y)%nat.
Proof.
  revert i. induction l as [|z l IH]; intros [|i] E; [done..| |].
  - injection E as ->. cbn. unfold sum_over. cbn. lia.
  - cbn in E. specialize (IH i E). change (<[S i := y]> (z :: l)) with (z :: <[i := y]> l). rewrite !sum_over_cons. lia.
Qed.

Lemma sum_over_ext {A} (f g : A → nat) l : (∀ x, f x = g x) → sum_over f l = sum_over g l.
Proof. intros E. induction l as [|x l IH]; [done|]. rewrite !sum_over_cons. by rewrite E, IH. Qed.

Lemma sum_over_elem {A} (f : A → nat) l i x : l !! i = Some x → (f x ≤ sum_over f l)%nat.
Proof.
  revert i. induction l as [|z l IH]; intros [|i] E; [done..| |]; rewrite sum_over_cons.
  - injection E as ->. lia.
  - specialize (IH i E). lia.
Qed.

Lemma sum_over_pos {A} (f : A → nat) l : (0 < sum_over f l)%nat → ∃ i x, l !! i = Some x ∧ (0 < f x)%nat.
Proof.
  induction l as [|z l IH]; [cbn; lia|]. rewrite sum_over_cons. intros H.
  destruct (decide (0 < f z)%nat); [by exists 0%nat, z|]. destruct IH as (i & x & E & Hx); [lia|]. by exists (S i), x.
Qed.

(** ** Waking *)

Section waking.
Context {M F : Type}.

(** Waking a thread changes nothing but its place, from asleep to the test. *)
Inductive wakes : thread F → thread F → Prop :=
| wakes_same t : wakes t t
| wakes_work t : t_pc t = AsleepWork → wakes t (at_pc t (Run None))
| wakes_num t o last : t_pc t = AsleepNum o last → wakes t (at_pc t (CheckNum o last)).

Lemma wake_work_wakes (t : thread F) : wakes t (wake_work t).
Proof.
  unfold wake_work, asleep_work. destruct (t_pc t) eqn:E; try constructor. exact E.
Qed.

Lemma wakes_refl (ts : list (thread F)) : Forall2 wakes ts ts.
Proof. induction ts; constructor; [constructor|done]. Qed.

Lemma wake_first_wakes (ts : list (thread F)) : Forall2 wakes ts (wake_first ts).
Proof.
  induction ts as [|t ts IH]; [constructor|]. cbn [wake_first]. destruct (asleep_work t).
  - constructor; [apply wake_work_wakes|apply wakes_refl].
  - constructor; [constructor|exact IH].
Qed.

Lemma notify_one_wakes w (ts : list (thread F)) : Forall2 wakes ts (notify_one w ts).
Proof.
  unfold notify_one. destruct (ts !! w) as [t|] eqn:E; [|apply wake_first_wakes].
  destruct (asleep_work t); [|apply wake_first_wakes].
  rewrite <- (list_insert_id ts w t E) at 1. apply Forall2_insert; [apply wakes_refl|apply wake_work_wakes].
Qed.

(** A sum that does not see sleep *)
Lemma sum_wakes f (ts ts' : list (thread F)) :
  (∀ t t', wakes t t' → f t' = f t) → Forall2 wakes ts ts' → sum_over f ts' = sum_over f ts.
Proof. intros Hf. induction 1 as [|t t' ts ts' Ht _ IH]; [done|]. rewrite !sum_over_cons. by rewrite IH, (Hf _ _ Ht). Qed.

Lemma notify_waiter_wakes obj (ts : list (thread F)) : Forall2 wakes ts (notify_waiter obj ts).
Proof.
  induction ts as [|t ts IH]; [constructor|]. constructor; [|exact IH]. unfold wake_num.
  destruct (t_pc t) eqn:E; try constructor. destruct (_ =? _)%nat; [by constructor|constructor].
Qed.

Lemma length_wakes (ts ts' : list (thread F)) : Forall2 wakes ts ts' → length ts' = length ts.
Proof. intros H. symmetry. exact (Forall2_length _ _ _ H). Qed.
End waking.

(** ** Every schedule ends

    The work left, in steps: an entry of the queue is taken, called, counted and left; waking a
    thread costs it one more test.  [T] is the number of threads. *)

Section measure.
Context {M F : Type} (call : F → M → option M).

Definition run_cost (k : option nat) : nat := match k with None => 1 | Some _ => 2 end.

Definition pc_cost (T : nat) (pc : place F) : nat :=
  match pc with
  | Code | AsleepWork | AsleepNum _ _ | Thrown | Exited => 0
  | Inline _ | CheckNum _ _ | Joining => 1
  | Run k => run_cost k
  | Relock k => run_cost k + 1
  | Dec k _ => run_cost k + 2 + T
  | Exec k _ => run_cost k + 3 + T
  end.

Definition action_cost (T : nat) (a : action F) : nat :=
  match a with
  | NewWaiter _ | Own _ => 1
  | EndWaiter _ => 2
  | Wait _ => 3
  | Shutdown => 2 + T
  | Submit _ _ _ => 6 + T
  end.

Definition thread_cost (T : nat) (t : thread F) : nat :=
  pc_cost T (t_pc t) + sum_over (action_cost T) (t_prog t).

Definition pool_cost (s : pool M F) : nat :=
  let T := length (tp_threads s) in
  (4 + T) * length (tp_queue s) + sum_over (thread_cost T) (tp_threads s).

Lemma cost_wake_work T (t : thread F) : (thread_cost T (wake_work t) ≤ thread_cost T t + 1)%nat.
Proof.
  unfold thread_cost, wake_work, asleep_work. destruct (t_pc t) eqn:E; rewrite ?E; cbn [at_pc t_pc t_prog pc_cost run_cost]; lia.
Qed.

Lemma cost_wake_num T obj (t : thread F) : (thread_cost T (wake_num obj t) ≤ thread_cost T t + 1)%nat.
Proof.
  unfold thread_cost, wake_num. destruct (t_pc t) eqn:E; rewrite ?E; try lia.
  destruct (_ =? _)%nat; rewrite ?E; cbn [at_pc t_pc t_prog pc_cost]; lia.
Qed.

Lemma cost_fmap T (g : thread F → thread F) ts :
  (∀ t, thread_cost T (g t) ≤ thread_cost T t + 1)%nat →
  (sum_over (thread_cost T) (g <$> ts) ≤ sum_over (thread_cost T) ts + length ts)%nat.
Proof.
  intros Hg. induction ts as [|t ts IH]; [done|]. rewrite fmap_cons, !sum_over_cons. specialize (Hg t). cbn [length]. lia.
Qed.

Lemma cost_wake_first T (ts : list (thread F)) :
  (sum_over (thread_cost T) (wake_first ts) ≤ sum_over (thread_cost T) ts + 1)%nat.
Proof.
  induction ts as [|t ts IH]; [cbn; lia|]. cbn [wake_first]. destruct (asleep_work t); rewrite !sum_over_cons; [|lia].
  pose proof (cost_wake_work T t). lia.
Qed.

Lemma cost_notify_one T w (ts : list (thread F)) :
  (sum_over (thread_cost T) (notify_one w ts) ≤ sum_over (thread_cost T) ts + 1)%nat.
Proof.
  unfold notify_one. destruct (ts !! w) as [t|] eqn:E; [|apply cost_wake_first].
  destruct (asleep_work t); [|apply cost_wake_first].
  pose proof (sum_over_insert (thread_cost T) ts w t (wake_work t) E). pose proof (cost_wake_work T t). lia.
Qed.

(** The cost after thread [i] has changed *)
Lemma cost_put i (t t' : thread F) (s : pool M F) :
  tp_threads s !! i = Some t →
  (pool_cost (put i t' s) + thread_cost (length (tp_threads s)) t =
   pool_cost s + thread_cost (length (tp_threads s)) t')%nat.
Proof.
  intros E. unfold pool_cost, put, set_threads. cbn [tp_threads tp_queue]. rewrite length_insert.
  pose proof (sum_over_insert (thread_cost (length (tp_threads s))) _ i t t' E). lia.
Qed.

Lemma act_cost i w t a s s' :
  tp_threads s !! i = Some t → t_pc t = Code → t_prog t = a :: tail (t_prog t) →
  act call i w {| t_pc := Code; t_prog := tail (t_prog t); t_depth := t_depth t; t_leaf := t_leaf t |} a s = Next s' →
  (pool_cost s' < pool_cost s)%nat.
Proof.
  intros E Ht Hp. set (t1 := {| t_pc := Code |}). set (T := length (tp_threads s)).
  assert (thread_cost T t = action_cost T a + thread_cost T t1)%nat as HC.
  { unfold thread_cost. rewrite Ht, Hp. cbn [t1 t_pc t_prog pc_cost]. rewrite sum_over_cons. cbn [tail]. lia. }
  assert (∀ pc, thread_cost T (at_pc t1 pc) = pc_cost T pc + thread_cost T t1)%nat as HP by done.
  assert (∀ l pc, thread_cost T (enter t1 l pc) = pc_cost T pc + thread_cost T t1)%nat as HE by done.
  assert (∀ s0 t', tp_threads s0 = tp_threads s → (pool_cost (put i t' s0) + thread_cost T t = pool_cost s0 + thread_cost T t')%nat) as HPut.
  { intros s0 t' E0. pose proof (cost_put i t t' s0) as H. rewrite E0 in H. exact (H E). }
  destruct a as [obj|obj f leaf|obj|obj|f|]; cbn [act action_cost] in *.
  - intros [= <-]. specialize (HPut (set_waiters s (<[obj:=0]> (tp_waiters s))) t1 eq_refl).
    change (pool_cost (set_waiters s _)) with (pool_cost s) in HPut. lia.
  - unfold submit. cbn [t1 t_leaf]. destruct (t_leaf t).
    { intros [= <-]. specialize (HPut s (at_pc t1 Thrown) eq_refl). rewrite HP in HPut. cbn [pc_cost] in HPut. lia. }
    destruct (run_here t1 leaf s).
    { intros [= <-]. specialize (HPut s (enter t1 leaf (Inline f)) eq_refl). rewrite HE in HPut. cbn [pc_cost] in HPut. lia. }
    destruct (inc obj (tp_waiters s)) as [ws|]; [|done]. cbv zeta. intros [= <-].
    set (e := {| e_wo := obj; e_f := f; e_leaf := leaf |}). set (q := if leaf then _ else _).
    specialize (HPut (set_queue (set_waiters s ws) q (tp_active s)) t1 eq_refl).
    assert (length q = S (length (tp_queue s))) as Hq by (unfold q; destruct leaf; rewrite ?length_app; cbn; lia).
    unfold pool_cost in *. cbn [put set_threads set_queue set_waiters tp_threads tp_queue] in *.
    rewrite !length_insert in HPut. rewrite (length_wakes _ _ (notify_one_wakes _ _)), !length_insert. fold T in HPut |- *.
    pose proof (cost_notify_one T w (<[i:=t1]> (tp_threads s))) as HN. rewrite Hq in HPut |- *. lia.
  - intros [= <-]. specialize (HPut s (at_pc t1 (Run (Some obj))) eq_refl). rewrite HP in HPut. cbn [pc_cost run_cost] in HPut. lia.
  - intros [= <-]. specialize (HPut s (at_pc t1 (CheckNum obj true)) eq_refl). rewrite HP in HPut. cbn [pc_cost] in HPut. lia.
  - unfold run_task. destruct (call f (tp_mem s)) as [m|]; [|done]. intros [= <-].
    specialize (HPut (set_mem s m) t1 eq_refl). change (pool_cost (set_mem s m)) with (pool_cost s) in HPut. lia.
  - intros [= <-]. specialize (HPut s (at_pc t1 Joining) eq_refl). rewrite HP in HPut. cbn [pc_cost] in HPut.
    unfold pool_cost in *. cbn [put set_threads stop tp_threads tp_queue] in *. unfold notify_all.
    rewrite length_fmap. rewrite !length_insert in *. fold T in HPut |- *.
    pose proof (cost_fmap T wake_work (<[i:=at_pc t1 Joining]> (tp_threads s)) (cost_wake_work T)) as HN.
    rewrite length_insert in HN. fold T in HN. lia.
Qed.

Lemma step_cost i w s s' : step_thread call i w s = Next s' → (pool_cost s' < pool_cost s)%nat.
Proof.
  unfold step_thread. destruct (tp_threads s !! i) as [t|] eqn:E; [|done]. set (T := length (tp_threads s)).
  assert (∀ s0 t', tp_threads s0 = tp_threads s → (pool_cost (put i t' s0) + thread_cost T t = pool_cost s0 + thread_cost T t')%nat) as HPut.
  { intros s0 t' E0. pose proof (cost_put i t t' s0) as H. rewrite E0 in H. exact (H E). }
  assert (∀ t' pc, t_pc t' = pc → t_prog t' = t_prog t →
    (thread_cost T t' + pc_cost T (t_pc t) = thread_cost T t + pc_cost T pc)%nat) as HT.
  { intros t' pc <- Ep. unfold thread_cost. rewrite Ep. lia. }
  destruct (t_pc t) as [|f|k| |k e|k e|k|obj last|obj last| | |] eqn:Ht; try done.
  - destruct (t_prog t) as [|a prog] eqn:Hp; [done|]. intros Ha.
    apply (act_cost i w t a s s' E Ht); rewrite Hp; [done|exact Ha].
  - unfold run_task. destruct (call f (tp_mem s)) as [m|]; [|done]. intros [= <-].
    specialize (HPut (set_mem s m) (leave_call t Code) eq_refl). specialize (HT (leave_call t Code) Code eq_refl eq_refl).
    change (pool_cost (set_mem s m)) with (pool_cost s) in HPut. cbn [pc_cost] in HT. lia.
  - unfold run_loop. destruct (negb (tp_running s)).
    { intros [= <-]. specialize (HPut s (at_pc t (returned k)) eq_refl). specialize (HT (at_pc t (returned k)) (returned k) eq_refl eq_refl).
      destruct k; cbn [returned pc_cost run_cost] in HT, HPut |- *; lia. }
    destruct (tp_queue s) as [|e q] eqn:Hq.
    { intros [= <-]. specialize (HPut s (at_pc t (match k with None => AsleepWork | Some _ => returned k end)) eq_refl).
      specialize (HT (at_pc t (match k with None => AsleepWork | Some _ => returned k end)) (match k with None => AsleepWork | Some _ => returned k end) eq_refl eq_refl).
      destruct k; cbn [returned pc_cost run_cost] in HT, HPut |- *; lia. }
    intros [= <-]. set (s0 := set_queue s q (uwrap 32 (tp_active s + 1))).
    specialize (HPut s0 (enter t (e_leaf e) (Exec k e)) eq_refl). specialize (HT (enter t (e_leaf e) (Exec k e)) (Exec k e) eq_refl eq_refl).
    assert (pool_cost s = pool_cost s0 + (4 + T))%nat as HQ.
    { unfold pool_cost, s0. cbn [set_queue tp_threads tp_queue]. rewrite Hq. fold T. cbn [length]. lia. }
    cbn [pc_cost] in HT. lia.
  - unfold run_task. destruct (call (e_f e) (tp_mem s)) as [m|]; [|done]. intros [= <-].
    specialize (HPut (set_mem s m) (leave_call t (Dec k e)) eq_refl). specialize (HT (leave_call t (Dec k e)) (Dec k e) eq_refl eq_refl).
    change (pool_cost (set_mem s m)) with (pool_cost s) in HPut. cbn [pc_cost] in HT. lia.
  - unfold run_dec. destruct (dec (e_wo e) (tp_waiters s)) as [[ws zero]|]; [|done]. cbv zeta. intros [= <-].
    specialize (HPut (set_waiters s ws) (at_pc t (Relock k)) eq_refl). specialize (HT (at_pc t (Relock k)) (Relock k) eq_refl eq_refl).
    change (pool_cost (set_waiters s ws)) with (pool_cost s) in HPut. cbn [pc_cost] in HT.
    set (s1 := put i (at_pc t (Relock k)) (set_waiters s ws)) in *.
    assert (∀ o, pool_cost (set_threads s1 (notify_waiter o (tp_threads s1))) ≤ pool_cost s1 + T)%nat as HN.
    { intros o. unfold pool_cost, s1. cbn [put set_threads set_waiters tp_threads tp_queue]. unfold notify_waiter.
      rewrite length_fmap, length_insert. fold T.
      pose proof (cost_fmap T (wake_num o) (<[i:=at_pc t (Relock k)]> (tp_threads s)) (cost_wake_num T o)) as HN.
      rewrite length_insert in HN. fold T in HN. lia. }
    change (<[i:=at_pc t (Relock k)]> (tp_threads s)) with (tp_threads s1).
    destruct (e_wo e) as [o|]; [specialize (HN o); destruct zero; lia|lia].
  - intros [= <-]. set (s0 := set_queue s (tp_queue s) _). specialize (HPut s0 (at_pc t (Run k)) eq_refl).
    specialize (HT (at_pc t (Run k)) (Run k) eq_refl eq_refl). change (pool_cost s0) with (pool_cost s) in HPut.
    cbn [pc_cost] in HT. lia.
  - unfold check_num. destruct (tp_waiters s !! obj) as [num|]; [|done]. destruct (num =? 0); intros [= <-].
    + specialize (HPut (if last then set_waiters s (delete obj (tp_waiters s)) else s) (at_pc t Code)
        ltac:(by destruct last)). specialize (HT (at_pc t Code) Code eq_refl eq_refl).
      assert (pool_cost (if last then set_waiters s (delete obj (tp_waiters s)) else s) = pool_cost s) by (by destruct last).
      cbn [pc_cost] in HT. lia.
    + specialize (HPut s (at_pc t (AsleepNum obj last)) eq_refl). specialize (HT (at_pc t (AsleepNum obj last)) (AsleepNum obj last) eq_refl eq_refl).
      cbn [pc_cost] in HT. lia.
  - destruct (all_exited s); [|done]. intros [= <-]. specialize (HPut s (at_pc t Code) eq_refl).
    specialize (HT (at_pc t Code) Code eq_refl eq_refl). cbn [pc_cost] in HT. lia.
Qed.

Lemma wakeup_cost i s s' : wakeup i s = Next s' → (pool_cost s' ≤ pool_cost s + 1)%nat.
Proof.
  unfold wakeup. destruct (tp_threads s !! i) as [t|] eqn:E; [|done].
  assert (∀ pc, pc_cost (length (tp_threads s)) (t_pc t) = 0%nat → pc_cost (length (tp_threads s)) pc = 1%nat →
    pool_cost (put i (at_pc t pc) s) ≤ pool_cost s + 1)%nat as HC.
  { intros pc H0 H1. pose proof (cost_put i t (at_pc t pc) s E) as H. unfold thread_cost in H. cbn [at_pc t_pc t_prog] in H. lia. }
  destruct (t_pc t) eqn:Ht; try done; intros [= <-]; by apply HC.
Qed.

(** Spurious wakeups in a schedule *)
Definition is_spurious (l : label) : nat := match l with Spurious _ => 1 | Turn _ _ => 0 end.

(** A schedule is not longer than the work at its start and twice the number of spurious wakeups. *)
Lemma execute_bounded ls s s' :
  execute call ls s = Next s' → (length ls + pool_cost s' ≤ pool_cost s + 2 * sum_over is_spurious ls)%nat.
Proof.
  revert s. induction ls as [|l ls IH]; intros s; cbn [execute]; [intros [= <-]; cbn; lia|].
  destruct (sched_step call l s) as [|s1|] eqn:E; [done| |done]. intros H. specialize (IH s1 H). rewrite sum_over_cons.
  cbn [length]. destruct l as [i w|i]; cbn [sched_step is_spurious] in *.
  - pose proof (step_cost _ _ _ _ E). lia.
  - pose proof (wakeup_cost _ _ _ E). lia.
Qed.
End measure.
