(* ===== verification/PoolClients.v ===== *)
(** * What [rctSigs.cpp] does with the thread pool

    [verRct], [verRctSemanticsSimple] and [verRctNonSemanticsSimple] hand one task for each range proof or
    ring signature to the pool; a task writes its result into [std::deque<bool> results].  They wait for
    all of them and look at the results.  [results] and the waiter are local variables, destroyed at
    the end of the function in the order opposite to that of their declarations.

    Each caller has one waiter and one deque, both named by the number of the caller. *)

From S2P Require Export ThreadPool.

#[local] Open Scope Z_scope.

(** The results of tasks of the thread pool, once all of them are done; an exception
    that leaves a task ends the program *)
Fixpoint tasks (l : list (outcome bool)) : outcome (list bool) :=
  match l with
  | [] => Ret []
  | Ret b :: l => bs ← tasks l; Ret (b :: bs)
  | _ :: _ => Undef
  end.

(** The deques that exist, and what the callers have concluded *)
Record memory := { m_results : gmap nat (list bool); m_answers : gmap nat bool }.

(** [Write] is what a task does; the others are the caller's own code. *)
Inductive task :=
| Create (o n : nat)
| Write (o i : nat) (v : outcome bool)
| Read (o : nat)
| Destroy (o : nat).

(** [None] for an access to a deque that does not exist *)
Definition run_on (f : task) (m : memory) : option memory :=
  match f with
  | Create o n => Some {| m_results := <[o := replicate n false]> (m_results m); m_answers := m_answers m |}
  | Write o i v =>
      match v, m_results m !! o with
      | Ret b, Some results =>
          if (i <? length results)%nat
          then Some {| m_results := <[o := <[i := b]> results]> (m_results m); m_answers := m_answers m |}
          else None
      | _, _ => None
      end
  | Read o =>
      results ← m_results m !! o;
      Some {| m_results := m_results m; m_answers := <[o := forallb id results]> (m_answers m) |}
  | Destroy o =>
      _ ← m_results m !! o;
      Some {| m_results := delete o (m_results m); m_answers := m_answers m |}
  end.

(** [waiter] is declared before [results], or after it. *)
Definition declare (first : bool) (j n : nat) : list (action task) :=
  if first then [NewWaiter j; Own (Create j n)] else [Own (Create j n); NewWaiter j].

Definition finish (first : bool) (j : nat) : list (action task) :=
  if first then [Own (Destroy j); EndWaiter j] else [EndWaiter j; Own (Destroy j)].

(** [for (..) tpool.submit(&waiter, [&, i] { results[i] = ..; });] *)
Fixpoint submits (j i : nat) (l : list (outcome bool)) : list (action task) :=
  match l with
  | [] => []
  | v :: l => Submit (Some j) (Write j i v) false :: submits j (S i) l
  end.

(** [waiter.wait(&tpool);], the loop over [results], and the end of the function *)
Definition collect (first : bool) (j : nat) : list (action task) := Wait j :: Own (Read j) :: finish first j.

Definition verifier (first : bool) (j : nat) (l : list (outcome bool)) : list (action task) :=
  declare first j (length l) ++ submits j 0 l ++ collect first j.

(** [verRctSemanticsSimple] when it leaves before it waits: [n] results, the tasks submitted so far, and
    the end of the function *)
Definition leaver (j n : nat) (l : list (outcome bool)) : list (action task) :=
  declare true j n ++ submits j 0 l ++ finish true j.

Definition caller (prog : list (action task)) (depth : Z) : thread task :=
  {| t_pc := Code; t_prog := prog; t_depth := depth; t_leaf := false |}.

Definition no_memory : memory := {| m_results := ∅; m_answers := ∅ |}.

(** A call of one of the functions: the order of the declarations, the tasks, and how deep in tasks of the pool
    the caller is *)
Record client := { c_first : bool; c_tasks : list (outcome bool); c_depth : Z }.

Definition verifying (max : Z) (cs : list client) : pool memory task :=
  threadpool max (imap (λ j c, caller (verifier (c_first c) j (c_tasks c)) (c_depth c)) cs) no_memory.

Definition leaving (max : Z) (n : nat) (l : list (outcome bool)) (depth : Z) : pool memory task :=
  threadpool max [caller (leaver 0 n l) depth] no_memory.

(** The code of thread [i] is done *)
Definition has_returned (i : nat) (s : pool memory task) : bool :=
  match tp_threads s !! i with
  | Some t => match t_pc t, t_prog t with Code, [] => true | _, _ => false end
  | None => false
  end.
