(* ===== verification/PoolClientsSpec.v ===== *)
(** * Callers that wait for their tasks are answered

    Over every schedule no caller's deque or waiter is used before it exists or after it is gone, every
    schedule ends, and then every caller has concluded from the results of all of its tasks. *)

From S2P Require Export ThreadPoolSpec PoolClients.

#[local] Open Scope Z_scope.

(** ** Counting *)

Definition is_for (j : nat) (e : entry task) : nat := if decide (e_wo e = Some j) then 1 else 0.

Definition is_write (j i : nat) (e : entry task) : nat :=
  match e_f e with Write j' i' _ => if decide (j' = j ∧ i' = i) then 1 else 0 | _ => 0 end.

(** Entries that are taken and not yet counted, entries that are taken and not yet called *)
Definition busy (j : nat) (t : thread task) : nat :=
  match t_pc t with Exec _ e | Dec _ e => is_for j e | _ => 0 end.

Definition uncalled (j i : nat) (t : thread task) : nat :=
  match t_pc t with Exec _ e => is_write j i e | _ => 0 end.

Definition queued (j : nat) (s : pool memory task) : nat := sum_over (is_for j) (tp_queue s).

(** Tasks of caller [j] that its waiter counts *)
Definition outstanding (j : nat) (s : pool memory task) : nat :=
  queued j s + sum_over (busy j) (tp_threads s).

(** Tasks for result [i] of caller [j] that are not called yet *)
Definition unwritten (j i : nat) (s : pool memory task) : nat :=
  sum_over (is_write j i) (tp_queue s) + sum_over (uncalled j i) (tp_threads s).

(** ** Where a caller is *)

Inductive kind := Idle | Busy | Waiting | Sleeping.

(** What is known of the number [q] of its queued tasks and the number [o] of its outstanding ones *)
Definition kind_ok (k : kind) (q o : nat) : Prop :=
  match k with
  | Idle => o = O
  | Busy => True
  | Waiting => q = O
  | Sleeping => q = O ∧ o ≠ O
  end.

Definition flushing (j : nat) (pc : place task) : Prop :=
  match pc with Run k | Exec k _ | Dec k _ | Relock k => k = Some j | _ => False end.

(** The place and the rest of the code, whether the waiter and the deque exist, whether the results were
    looked at, and the number of tasks that are submitted *)
Inductive stage (first : bool) (j : nat) (l : list (outcome bool)) :
    place task → list (action task) → bool → bool → bool → nat → kind → Prop :=
| st_start : stage first j l Code (verifier first j l) false false false 0 Idle
| st_half : stage first j l Code (drop 1 (declare first j (length l)) ++ submits j 0 l ++ collect first j)
    first (negb first) false 0 Idle
| st_submit i : (i ≤ length l)%nat →
    stage first j l Code (submits j i (drop i l) ++ collect first j) true true false i Busy
| st_inline i v : l !! i = Some v →
    stage first j l (Inline (Write j i v)) (submits j (S i) (drop (S i) l) ++ collect first j) true true false i Busy
| st_flush pc : flushing j pc →
    stage first j l pc (drop 1 (collect first j)) true true false (length l) Busy
| st_check : stage first j l (CheckNum j false) (drop 1 (collect first j)) true true false (length l) Waiting
| st_sleep : stage first j l (AsleepNum j false) (drop 1 (collect first j)) true true false (length l) Sleeping
| st_read : stage first j l Code (drop 1 (collect first j)) true true false (length l) Idle
| st_end : stage first j l Code (finish first j) true true true (length l) Idle
| st_last : stage first j l (CheckNum j true) (if first then [] else [Own (Destroy j)]) true (negb first) true
    (length l) Idle
| st_gone : stage first j l Code (drop 1 (finish first j)) first (negb first) true (length l) Idle
| st_done : stage first j l Code [] false false true (length l) Idle.

(** The results of the tasks that were called are right. *)
Definition results_ok (bs : list bool) (n : nat) (u : nat → nat) (results : list bool) : Prop :=
  length results = length bs ∧ ∀ i b, (i < n)%nat → bs !! i = Some b → u i = O → results !! i = Some b.

Definition client_inv (first : bool) (j : nat) (bs : list bool) (t : thread task) (num : option Z)
    (results : option (list bool)) (answer : option bool) (q o : nat) (u : nat → nat) : Prop :=
  ∃ aw ao r n k, stage first j (Ret <$> bs) (t_pc t) (t_prog t) aw ao r n k ∧ kind_ok k q o ∧ (o ≤ n)%nat ∧
    num = (if aw then Some (Z.of_nat o) else None) ∧
    (if ao then ∃ l, results = Some l ∧ results_ok bs n u l else results = None) ∧
    (r = true → answer = Some (forallb id bs)).

(** What another thread does *)
Lemma client_inv_frame first j bs t num results answer q o u q' u' :
  client_inv first j bs t num results answer q o u → (q' ≤ q)%nat → (∀ i, u' i = u i) →
  client_inv first j bs t num results answer q' o u'.
Proof.
  intros (aw & ao & r & n & k & HS & HK & Ho & HN & HR & HA) Hq Hu. exists aw, ao, r, n, k.
  split; [done|]. split; [destruct k; cbn [kind_ok] in *; lia|]. split; [done|]. split; [done|]. split; [|done].
  destruct ao; [|done]. destruct HR as (l & -> & HL & HW). exists l. split; [done|]. split; [done|].
  intros i b Hi Hb. rewrite Hu. by apply HW.
Qed.

(** The deque exists while there are tasks. *)
Lemma client_inv_alive first j bs t num results answer q o u :
  client_inv first j bs t num results answer q o u → o ≠ O →
  num = Some (Z.of_nat o) ∧ (o ≤ length bs)%nat ∧ ∃ l, results = Some l ∧ length l = length bs.
Proof.
  intros (aw & ao & r & n & k & HS & HK & Hn & -> & HR & _) Ho.
  assert (n ≤ length (Ret <$> bs))%nat as HL.
  { destruct HS as [| |i Hi|i v Hv| | | | | | | |]; try lia. by apply Nat.lt_le_incl, (lookup_lt_Some _ _ v). }
  rewrite length_fmap in HL.
  destruct HS; cbn [kind_ok] in HK; try (by rewrite HK in Ho); destruct HR as (l' & ? & ? & _); eauto with lia.
Qed.

(** In [run(true)] *)
Lemma client_inv_flush first j bs t t' num results answer q o u :
  client_inv first j bs t num results answer q o u → flushing j (t_pc t) → flushing j (t_pc t') → t_prog t' = t_prog t →
  client_inv first j bs t' num results answer q o u.
Proof.
  intros (aw & ao & r & n & k & HS & HR) Hf Hf' Ep. exists aw, ao, r, n, k. split; [|exact HR]. rewrite Ep.
  destruct HS; try done. by constructor.
Qed.

(** A result is written. *)
Lemma client_inv_write first j bs t num l answer q o u u' i b :
  client_inv first j bs t num (Some l) answer q o u → bs !! i = Some b → (∀ i', i' ≠ i → u' i' = u i') →
  client_inv first j bs t num (Some (<[i := b]> l)) answer q o u'.
Proof.
  intros (aw & ao & r & n & k & HS & HK & Ho & HN & HR & HA) Hb Hu. exists aw, ao, r, n, k.
  split; [done|]. split; [done|]. split; [done|]. split; [done|]. split; [|done].
  destruct ao; [|done]. destruct HR as (l' & [= <-] & HL & HW). eexists. split; [done|].
  split; [by rewrite length_insert|]. intros i' b' Hi' Hb' Hu'. destruct (decide (i' = i)) as [->|Hne].
  - rewrite list_lookup_insert_eq by (rewrite HL; by eapply lookup_lt_Some). congruence.
  - rewrite list_lookup_insert_ne by done. apply HW; [done|done|]. by rewrite <- Hu.
Qed.

(** The waiter counts one task less; a caller that sleeps is woken when there is none left. *)
Lemma client_inv_dec first j bs t num results answer q o u :
  client_inv first j bs t num results answer q (S o) u →
  client_inv first j bs (if (o =? 0)%nat then wake_num j t else t) (Some (Z.of_nat o)) results answer q o u.
Proof.
  destruct t as [pc prog d lf]. intros (aw & ao & r & n & k & HS & HK & Ho & HN & HR & HA). cbn [t_pc t_prog] in *.
  destruct HS; cbn [kind_ok] in HK; try lia.
  5: { destruct HK as [-> _]. unfold wake_num. cbn [t_pc]. rewrite Nat.eqb_refl.
       destruct (Nat.eqb_spec o 0) as [->|Hne]; eexists true, true, _, _, _;
         (split; [constructor|]); split_and!; try done; lia. }
  all: match goal with |- client_inv _ _ _ (if _ then wake_num ?jj ?t else _) _ _ _ _ _ _ =>
    assert (wake_num jj t = t) as -> by (unfold wake_num; cbn [t_pc]; try done; by destruct pc) end.
  all: destruct (o =? 0)%nat; eexists true, true, _, _, _; (split; [by constructor|]); split_and!; try done; lia.
Qed.

Section callers.
Context (max : Z) (firsts : list bool) (bss : list (list bool)).
Context (Hlen : length firsts = length bss) (Hsmall : Forall (λ bs, Z.of_nat (length bs) < 2 ^ 31) bss).

Definition W : nat := workers max.

(** An entry is a task of one of the callers. *)
Definition good (e : entry task) : Prop :=
  ∃ j bs i b, bss !! j = Some bs ∧ bs !! i = Some b ∧ e = {| e_wo := Some j; e_f := Write j i (Ret b); e_leaf := false |}.

Definition entry_ok (t : thread task) : Prop := match t_pc t with Exec _ e | Dec _ e => good e | _ => True end.

Definition worker_ok (t : thread task) : Prop :=
  t_prog t = [] ∧
  match t_pc t with AsleepWork => True | Run k | Exec k _ | Dec k _ | Relock k => k = None | _ => False end.

(** Caller [j] with its thread at [t] *)
Definition client_of (s : pool memory task) (j : nat) (first : bool) (bs : list bool) (t : thread task) : Prop :=
  client_inv first j bs t (tp_waiters s !! j) (m_results (tp_mem s) !! j) (m_answers (tp_mem s) !! j)
    (queued j s) (outstanding j s) (λ i, unwritten j i s).

Definition caller_inv (s : pool memory task) (j : nat) (first : bool) (bs : list bool) : Prop :=
  ∃ t, tp_threads s !! (W + j)%nat = Some t ∧ client_of s j first bs t.

Record inv (s : pool memory task) : Prop := {
  inv_running : tp_running s = true;
  inv_length : length (tp_threads s) = (W + length bss)%nat;
  inv_leaf : Forall (λ t, t_leaf t = false) (tp_threads s);
  inv_queue : Forall good (tp_queue s);
  inv_entries : Forall entry_ok (tp_threads s);
  inv_workers : ∀ i t, (i < W)%nat → tp_threads s !! i = Some t → worker_ok t;
  inv_callers : ∀ j first bs, firsts !! j = Some first → bss !! j = Some bs → caller_inv s j first bs
}.

(** A thread is one of the pool or a caller. *)
Lemma thread_cases s i t :
  inv s → tp_threads s !! i = Some t →
  (i < W)%nat ∧ worker_ok t ∨
  ∃ j first bs, i = (W + j)%nat ∧ firsts !! j = Some first ∧ bss !! j = Some bs ∧
    client_of s j first bs t.
Proof.
  intros HI E. destruct (decide (i < W)%nat) as [Hi|Hi]; [left; split; [done|]; by eapply inv_workers|right].
  pose proof (lookup_lt_Some _ _ _ E) as HL. rewrite (inv_length _ HI) in HL. set (j := (i - W)%nat).
  destruct (lookup_lt_is_Some_2 firsts j) as [first Ef]; [lia|]. destruct (lookup_lt_is_Some_2 bss j) as [bs Eb]; [lia|].
  destruct (inv_callers _ HI j first bs Ef Eb) as (t' & E' & HC). replace (W + j)%nat with i in E' by lia.
  rewrite E in E'. injection E' as <-. exists j, first, bs. split; [lia|done].
Qed.

Lemma busy_wakes j t t' : wakes t t' → busy j t' = busy j t.
Proof. unfold busy. by intros [|? ->|? ? ? ->]. Qed.

Lemma uncalled_wakes j i t t' : wakes t t' → uncalled j i t' = uncalled j i t.
Proof. unfold uncalled. by intros [|? ->|? ? ? ->]. Qed.

(** How the counts change with thread [i] and the queue *)
Lemma counts (s s' : pool memory task) i t t' :
  tp_threads s !! i = Some t → Forall2 wakes (<[i := t']> (tp_threads s)) (tp_threads s') →
  (∀ j, outstanding j s' + queued j s + busy j t = outstanding j s + queued j s' + busy j t')%nat ∧
  (∀ j i0, unwritten j i0 s' + sum_over (is_write j i0) (tp_queue s) + uncalled j i0 t =
    unwritten j i0 s + sum_over (is_write j i0) (tp_queue s') + uncalled j i0 t')%nat.
Proof.
  intros E HW. split; intros j; [|intros i0]; unfold outstanding, unwritten.
  - rewrite (sum_wakes (busy j) _ _ (busy_wakes j) HW). pose proof (sum_over_insert (busy j) _ i t t' E). lia.
  - rewrite (sum_wakes (uncalled j i0) _ _ (uncalled_wakes j i0) HW). pose proof (sum_over_insert (uncalled j i0) _ i t t' E). lia.
Qed.

Lemma wakes_other (P : thread task → Prop) ts ts' i t' :
  Forall2 wakes (<[i := t']> ts) ts' → (∀ t t', wakes t t' → P t → P t') → P t' → Forall P ts → Forall P ts'.
Proof.
  intros HW HP Ht HF. apply Forall_lookup. intros x y Ey.
  destruct (Forall2_lookup_r _ _ _ _ _ HW Ey) as (y0 & E0 & Hy). apply (HP _ _ Hy).
  destruct (decide (x = i)) as [->|Hne].
  - apply list_lookup_insert_Some in E0 as [(_ & <- & _)|[? _]]; done.
  - rewrite list_lookup_insert_ne in E0 by done. by eapply (proj1 (Forall_lookup _ _) HF).
Qed.

(** Thread [i] has moved, and some threads were woken. *)
Lemma inv_moved (s s' : pool memory task) i t t' :
  inv s → tp_threads s !! i = Some t → Forall2 wakes (<[i := t']> (tp_threads s)) (tp_threads s') →
  tp_running s' = true → t_leaf t' = false → Forall good (tp_queue s') → entry_ok t' → ((i < W)%nat → worker_ok t') →
  (∀ j first bs, firsts !! j = Some first → bss !! j = Some bs → caller_inv s' j first bs) → inv s'.
Proof.
  intros HI E HW HR Hl HQ He Hw HC. split; [done| | |done| | |done].
  - pose proof (Forall2_length _ _ _ HW) as HL. rewrite length_insert in HL. rewrite <- HL. apply HI.
  - eapply wakes_other; [exact HW| |done|apply HI]. intros x y [|? _|? ? ? _]; done.
  - eapply wakes_other; [exact HW| |done|apply HI]. unfold entry_ok. by intros x y [|? ->|? ? ? ->].
  - intros x y Hx Ey. destruct (Forall2_lookup_r _ _ _ _ _ HW Ey) as (y0 & E0 & Hy).
    assert (worker_ok y0) as [Hp Hpc].
    { destruct (decide (x = i)) as [->|Hne].
      - apply list_lookup_insert_Some in E0 as [(_ & <- & _)|[? _]]; [by apply Hw|done].
      - rewrite list_lookup_insert_ne in E0 by done. by eapply inv_workers. }
    unfold worker_ok. destruct Hy as [y|y Ey'|y o last Ey']; [done| |]; rewrite Ey' in Hpc; done.
Qed.

(** A caller is not disturbed by being woken. *)
Lemma client_inv_wakes first j bs t t' num results answer q o u :
  wakes t t' → client_inv first j bs t num results answer q o u → client_inv first j bs t' num results answer q o u.
Proof.
  intros Hw (aw & ao & r & n & k & HS & HK & HR). destruct Hw as [t|t E|t o0 last E].
  - by exists aw, ao, r, n, k.
  - rewrite E in HS. inversion HS; subst; done.
  - destruct t as [pc prog d lf]. cbn [t_pc t_prog at_pc] in *. subst pc. inversion HS; subst; [done|].
    destruct HK as [-> _]. eexists true, true, false, _, Waiting. cbn [at_pc t_pc t_prog].
    split; [constructor|]. by split.
Qed.

(** The thread of a caller after thread [i] has moved in a way that does not matter to it *)
Lemma caller_thread (s s' : pool memory task) i t t' j first bs :
  inv s → tp_threads s !! i = Some t → Forall2 wakes (<[i := t']> (tp_threads s)) (tp_threads s') →
  firsts !! j = Some first → bss !! j = Some bs →
  (i = (W + j)%nat → client_of s j first bs t → client_of s j first bs t') →
  ∃ tj t1, tp_threads s' !! (W + j)%nat = Some t1 ∧ wakes tj t1 ∧ <[i := t']> (tp_threads s) !! (W + j)%nat = Some tj ∧
    client_of s j first bs tj.
Proof.
  intros HI E HW Ef Eb Hown. destruct (inv_callers _ HI j first bs Ef Eb) as (tj & Ej & HC).
  assert (∃ t2, <[i := t']> (tp_threads s) !! (W + j)%nat = Some t2 ∧
    client_of s j first bs t2) as (t2 & E2 & HC2).
  { destruct (decide (i = W + j)%nat) as [->|Hne].
    - exists t'. rewrite list_lookup_insert_eq by (by eapply lookup_lt_Some). split; [done|].
      rewrite E in Ej. injection Ej as <-. by apply Hown.
    - exists tj. by rewrite list_lookup_insert_ne. }
  destruct (Forall2_lookup_l _ _ _ _ _ HW E2) as (t1 & E1 & Ht). by exists t2, t1.
Qed.

(** The same, when nothing else of it changes but that its tasks are taken from the queue *)
Lemma caller_step (s s' : pool memory task) i t t' j first bs :
  inv s → tp_threads s !! i = Some t → Forall2 wakes (<[i := t']> (tp_threads s)) (tp_threads s') →
  firsts !! j = Some first → bss !! j = Some bs →
  (i = (W + j)%nat → client_of s j first bs t → client_of s j first bs t') →
  tp_waiters s' !! j = tp_waiters s !! j → m_results (tp_mem s') !! j = m_results (tp_mem s) !! j →
  m_answers (tp_mem s') !! j = m_answers (tp_mem s) !! j →
  (queued j s' ≤ queued j s)%nat → outstanding j s' = outstanding j s → (∀ i, unwritten j i s' = unwritten j i s) →
  caller_inv s' j first bs.
Proof.
  intros HI E HW Ef Eb Hown Ew Er Ea Hq Ho Hu.
  destruct (caller_thread s s' i t t' j first bs HI E HW Ef Eb Hown) as (tj & t1 & E1 & Hw & _ & HC).
  exists t1. split; [exact E1|]. unfold client_of. rewrite Ew, Er, Ea, Ho. apply (client_inv_wakes _ _ _ _ _ _ _ _ _ _ _ Hw).
  by apply (client_inv_frame _ _ _ _ _ _ _ _ _ _ _ _ HC).
Qed.

(** ** Threads in [run] *)

Definition run_pc (k : option nat) (pc : place task) : Prop :=
  match pc with Run k' | Exec k' _ | Dec k' _ | Relock k' => k' = k | _ => False end.

Lemma run_pc_worker s i t t' k :
  inv s → tp_threads s !! i = Some t → run_pc k (t_pc t) → run_pc k (t_pc t') → t_prog t' = t_prog t →
  (i < W)%nat → worker_ok t'.
Proof.
  intros HI E Hk Hk' Ep Hi. destruct (inv_workers _ HI i t Hi E) as [Hp Hpc]. split; [congruence|].
  destruct (t_pc t), (t_pc t'); cbn [run_pc] in *; solve [done | congruence].
Qed.

Lemma run_pc_client first j bs t t' k num results answer q o u :
  run_pc k (t_pc t) → run_pc k (t_pc t') → t_prog t' = t_prog t →
  client_inv first j bs t num results answer q o u → client_inv first j bs t' num results answer q o u.
Proof.
  intros Hk Hk' Ep HC. assert (k = Some j) as ->.
  { destruct HC as (aw & ao & r & n & k' & HS & _). destruct HS as [| | | |pc Hpc| | | | | | |]; try done.
    destruct pc; cbn [run_pc flushing] in *; solve [done | congruence]. }
  apply (client_inv_flush _ _ _ _ _ _ _ _ _ _ _ HC); [|by destruct (t_pc t')|done].
  by destruct (t_pc t).
Qed.

(** [run(true)] returns when the queue is empty. *)
Lemma flushed first j bs t k num results answer q o u :
  t_pc t = Run k → q = 0%nat → client_inv first j bs t num results answer q o u →
  client_inv first j bs (at_pc t (match k with None => AsleepWork | Some _ => returned k end)) num results answer q o u.
Proof.
  destruct t as [pc prog d lf]. cbn [t_pc]. intros -> -> (aw & ao & r & n & k' & HS & HK & HR). cbn [t_pc t_prog] in HS.
  inversion HS as [| | | |pc Hpc| | | | | | |]; subst. cbn [flushing] in Hpc. subst k.
  eexists true, true, false, _, Waiting. split; [constructor|]. by split.
Qed.

Definition safe (r : result memory task) : Prop :=
  match r with Blocked => True | Next s => inv s | Undefined => False end.

Lemma good_for e j : good e → is_for j e = 0%nat → ∀ i, is_write j i e = 0%nat.
Proof.
  intros (j0 & bs & i0 & b & _ & _ & ->). unfold is_for, is_write. cbn. intros H i. repeat case_decide; naive_solver.
Qed.

Lemma queued_app j q e : sum_over (is_for j) (q ++ [e]) = (sum_over (is_for j) q + is_for j e)%nat.
Proof. rewrite sum_over_app. unfold sum_over at 2. cbn. lia. Qed.

Lemma relock_safe s i t k :
  inv s → tp_threads s !! i = Some t → t_pc t = Relock k →
  safe (Next (put i (at_pc t (Run k)) (set_queue s (tp_queue s) (uwrap 32 (tp_active s - 1))))).
Proof.
  intros HI E Ht. cbn [safe]. set (t' := at_pc t (Run k)). set (s' := put _ _ _).
  assert (Forall2 wakes (<[i := t']> (tp_threads s)) (tp_threads s')) as HW by apply wakes_refl.
  destruct (counts s s' i t t' E HW) as [Co Cu]. unfold busy, uncalled in Co, Cu. rewrite Ht in Co, Cu.
  eapply inv_moved; [exact HI|exact E|exact HW|apply HI| |apply HI|done| |].
  - exact (proj1 (Forall_lookup _ _) (inv_leaf _ HI) i t E).
  - by apply (run_pc_worker s i t t' k HI E); [rewrite Ht|..].
  - intros j first bs Ef Eb. eapply caller_step; [exact HI|exact E|exact HW|done|done| |done..| | |].
    + intros _. by apply (run_pc_client _ _ _ _ _ k); [rewrite Ht|..].
    + done.
    + specialize (Co j). change (queued j s') with (queued j s) in Co. cbn [t' at_pc t_pc] in Co. lia.
    + intros i0. specialize (Cu j i0). change (tp_queue s') with (tp_queue s) in Cu. cbn [t' at_pc t_pc] in Cu. lia.
Qed.

Lemma leaf_false s i t : inv s → tp_threads s !! i = Some t → t_leaf t = false.
Proof. intros HI E. exact (proj1 (Forall_lookup _ _) (inv_leaf _ HI) i t E). Qed.

Lemma run_loop_safe s i t k : inv s → tp_threads s !! i = Some t → t_pc t = Run k → safe (run_loop i t k s).
Proof.
  intros HI E Ht. unfold run_loop. rewrite (inv_running _ HI). cbn [negb]. destruct (tp_queue s) as [|e queue] eqn:Hq.
  - cbn [safe]. set (t' := at_pc t _). set (s' := put _ _ _).
    assert (Forall2 wakes (<[i := t']> (tp_threads s)) (tp_threads s')) as HW by apply wakes_refl.
    destruct (counts s s' i t t' E HW) as [Co Cu]. unfold busy, uncalled in Co, Cu. rewrite Ht in Co, Cu.
    assert (∀ j, outstanding j s' = outstanding j s) as Ho.
    { intros j. specialize (Co j). change (queued j s') with (queued j s) in Co. destruct k; cbn [t' at_pc t_pc returned] in Co; lia. }
    assert (∀ j i, unwritten j i s' = unwritten j i s) as Hu.
    { intros j i0. specialize (Cu j i0). change (tp_queue s') with (tp_queue s) in Cu.
      destruct k; cbn [t' at_pc t_pc returned] in Cu; lia. }
    eapply inv_moved; [exact HI|exact E|exact HW|apply HI|exact (leaf_false s i t HI E)|apply HI| | |].
    + unfold entry_ok. by destruct k.
    + intros Hi. destruct (inv_workers _ HI i t Hi E) as [Hp Hpc]. rewrite Ht in Hpc. subst k. by split.
    + intros j first bs Ef Eb. eapply caller_step; [exact HI|exact E|exact HW|done|done| |done..|by rewrite Ho|by intros; rewrite Hu].
      intros _. apply flushed; [done|]. unfold queued. by rewrite Hq.
  - cbn [safe]. set (t' := enter t _ _). set (s' := put _ _ _).
    assert (Forall2 wakes (<[i := t']> (tp_threads s)) (tp_threads s')) as HW by apply wakes_refl.
    destruct (counts s s' i t t' E HW) as [Co Cu]. unfold busy, uncalled in Co, Cu. rewrite Ht in Co, Cu.
    cbn [t' enter t_pc] in Co, Cu. unfold queued in Co. rewrite Hq in Co, Cu. cbn [s' put set_threads set_queue tp_queue] in Co, Cu.
    pose proof (inv_queue _ HI) as HQ. rewrite Hq in HQ. apply Forall_cons_1 in HQ as [He HQ].
    assert (e_leaf e = false) as Hl by (destruct He as (? & ? & ? & ? & _ & _ & ->); done).
    eapply inv_moved; [exact HI|exact E|exact HW|apply HI|exact Hl|exact HQ|exact He| |].
    + by apply (run_pc_worker s i t t' k HI E); [rewrite Ht|..].
    + intros j first bs Ef Eb. eapply caller_step; [exact HI|exact E|exact HW|done|done| |done..| | |].
      * intros _. by apply (run_pc_client _ _ _ _ _ k); [rewrite Ht|..].
      * unfold queued. rewrite Hq. cbn [s' put set_threads set_queue tp_queue]. rewrite sum_over_cons. lia.
      * specialize (Co j). rewrite sum_over_cons in Co. lia.
      * intros i0. specialize (Cu j i0). rewrite sum_over_cons in Cu. lia.
Qed.

(** The caller of an entry that a thread has taken *)
Lemma entry_alive s i t k e :
  inv s → tp_threads s !! i = Some t → t_pc t = Exec k e ∨ t_pc t = Dec k e →
  ∃ j first bs i0 b l, firsts !! j = Some first ∧ bss !! j = Some bs ∧ bs !! i0 = Some b ∧
    e = {| e_wo := Some j; e_f := Write j i0 (Ret b); e_leaf := false |} ∧ (1 ≤ outstanding j s ≤ length bs)%nat ∧
    tp_waiters s !! j = Some (Z.of_nat (outstanding j s)) ∧ m_results (tp_mem s) !! j = Some l ∧ length l = length bs.
Proof.
  intros HI E Ht. pose proof (proj1 (Forall_lookup _ _) (inv_entries _ HI) i t E) as He. unfold entry_ok in He.
  assert (good e) as (j & bs & i0 & b & Eb & Ei & Ee) by (by destruct Ht as [Ht|Ht]; rewrite Ht in He).
  assert (1 ≤ outstanding j s)%nat as Ho.
  { unfold outstanding. pose proof (sum_over_elem (busy j) _ i t E) as HB. unfold busy at 1 in HB.
    assert (is_for j e = 1%nat) as Hf by (subst e; unfold is_for; by rewrite decide_True). destruct Ht as [Ht|Ht]; rewrite Ht in HB; lia. }
  destruct (lookup_lt_is_Some_2 firsts j) as [first Ef]; [rewrite Hlen; by eapply lookup_lt_Some|].
  destruct (inv_callers _ HI j first bs Ef Eb) as (tj & _ & HC).
  destruct (client_inv_alive _ _ _ _ _ _ _ _ _ _ HC ltac:(lia)) as (Hn & Hle & l & Hr & HL).
  exists j, first, bs, i0, b, l. done.
Qed.

Lemma exec_safe s i t k e :
  inv s → tp_threads s !! i = Some t → t_pc t = Exec k e → safe (run_task run_on i (leave_call t (Dec k e)) (e_f e) s).
Proof.
  intros HI E Ht.
  destruct (entry_alive s i t k e HI E (or_introl Ht)) as (j0 & first0 & bs0 & i0 & b & l & Ef0 & Eb0 & Ei0 & Ee & Ho0 & _ & Hr0 & HL0).
  assert (e_f e = Write j0 i0 (Ret b)) as Efe by (by subst e).
  unfold run_task. rewrite Efe. cbn [run_on]. rewrite Hr0.
  rewrite (proj2 (Nat.ltb_lt i0 (length l))) by (rewrite HL0; by eapply lookup_lt_Some).
  cbn [safe]. set (t' := leave_call t (Dec k e)). set (s' := put _ _ _).
  assert (Forall2 wakes (<[i := t']> (tp_threads s)) (tp_threads s')) as HW by apply wakes_refl.
  destruct (counts s s' i t t' E HW) as [Co Cu]. unfold busy, uncalled in Co, Cu. rewrite Ht in Co, Cu.
  cbn [t' leave_call t_pc] in Co, Cu.
  assert (∀ j, outstanding j s' = outstanding j s) as Ho by (intros j; specialize (Co j); change (queued j s') with (queued j s) in Co; lia).
  assert (∀ j i', (j, i') ≠ (j0, i0) → unwritten j i' s' = unwritten j i' s) as Hu.
  { intros j i' Hne. specialize (Cu j i'). change (tp_queue s') with (tp_queue s) in Cu.
    assert (is_write j i' e = 0%nat) as Hz by (subst e; unfold is_write; cbn; rewrite decide_False; [done|naive_solver]). lia. }
  assert (∀ j first bs, client_of s j first bs t → client_of s j first bs t') as Hown
    by (intros j first bs; by apply (run_pc_client _ _ _ _ _ k); [rewrite Ht|..]).
  eapply inv_moved; [exact HI|exact E|exact HW|apply HI|done|apply HI| | |].
  - pose proof (proj1 (Forall_lookup _ _) (inv_entries _ HI) i t E) as He. unfold entry_ok in *. by rewrite Ht in He.
  - by apply (run_pc_worker s i t t' k HI E); [rewrite Ht|..].
  - intros j first bs Ef Eb. destruct (decide (j = j0)) as [->|Hne].
    + assert (first = first0) as -> by congruence. assert (bs = bs0) as -> by congruence.
      destruct (caller_thread s s' i t t' j0 first0 bs0 HI E HW Ef Eb (λ _, Hown _ _ _)) as (tj & t1 & E1 & Hw & _ & HC).
      exists t1. split; [exact E1|]. apply (client_inv_wakes _ _ _ _ _ _ _ _ _ _ _ Hw). unfold client_of in HC.
      rewrite Hr0 in HC. unfold s'. cbn [put set_threads set_mem tp_mem m_results m_answers tp_waiters].
      rewrite lookup_insert_eq. change (queued j0 (put i t' (set_mem s _))) with (queued j0 s). fold s'. rewrite Ho.
      apply (client_inv_write _ _ _ _ _ _ _ _ _ _ _ i0 b HC Ei0). intros i' Hi'. apply Hu. naive_solver.
    + eapply caller_step; [exact HI|exact E|exact HW|done|done|by intros _; apply Hown|done| |done|done|by rewrite Ho|].
      * cbn [s' put set_threads set_mem tp_mem m_results]. by rewrite lookup_insert_ne.
      * intros i'. apply Hu. naive_solver.
Qed.

Lemma small_num o j bs : bss !! j = Some bs → (1 ≤ o ≤ length bs)%nat → fits 32 (Z.of_nat o - 1) = true.
Proof.
  intros Eb Ho. apply fits_spec. pose proof (proj1 (Forall_lookup _ _) Hsmall j bs Eb) as H. cbn in H. lia.
Qed.

Lemma dec_safe s i t k e :
  inv s → tp_threads s !! i = Some t → t_pc t = Dec k e → safe (run_dec i t k e s).
Proof.
  intros HI E Ht.
  destruct (entry_alive s i t k e HI E (or_intror Ht)) as (j0 & first0 & bs0 & i0 & b & l & Ef0 & Eb0 & Ei0 & Ee & Ho0 & Hn0 & _ & _).
  assert (e_wo e = Some j0) as Ew by (by subst e).
  unfold run_dec, dec. rewrite Ew, Hn0. cbn [mbind option_bind]. rewrite chk_Some by (by apply (small_num _ j0 bs0)).
  cbn [mbind option_bind]. cbv zeta. set (o := (outstanding j0 s - 1)%nat).
  replace (Z.of_nat (outstanding j0 s) - 1) with (Z.of_nat o) by lia.
  assert ((Z.of_nat o =? 0) = (o =? 0)%nat) as Ez by (destruct (Nat.eqb_spec o 0), (Z.eqb_spec (Z.of_nat o) 0); lia).
  rewrite Ez. clear Ez. set (t' := at_pc t (Relock k)). set (s1 := put i t' _). cbn [safe].
  set (s' := if (o =? 0)%nat then set_threads s1 (notify_waiter j0 (tp_threads s1)) else s1).
  assert (tp_threads s' = (if (o =? 0)%nat then notify_waiter j0 else id) (<[i := t']> (tp_threads s))) as ET
    by (unfold s'; by destruct (o =? 0)%nat).
  assert (Forall2 wakes (<[i := t']> (tp_threads s)) (tp_threads s')) as HW.
  { rewrite ET. destruct (o =? 0)%nat; [apply notify_waiter_wakes|apply wakes_refl]. }
  assert (tp_queue s' = tp_queue s ∧ tp_waiters s' = <[j0 := Z.of_nat o]> (tp_waiters s) ∧ tp_mem s' = tp_mem s ∧ tp_running s' = tp_running s)
    as (Eq & Ews & Em & Er) by (unfold s'; by destruct (o =? 0)%nat).
  destruct (counts s s' i t t' E HW) as [Co Cu]. unfold busy, uncalled in Co, Cu. rewrite Ht in Co, Cu.
  cbn [t' at_pc t_pc] in Co, Cu. unfold queued in Co. rewrite Eq in Co, Cu.
  assert (∀ j i', unwritten j i' s' = unwritten j i' s) as Hu by (intros j i'; specialize (Cu j i'); lia).
  assert (∀ j, queued j s' = queued j s) as Hq by (intros j; unfold queued; by rewrite Eq).
  assert (∀ j, is_for j e = if decide (j = j0) then 1%nat else 0%nat) as Hf
    by (intros j; unfold is_for; rewrite Ew; repeat case_decide; congruence).
  assert (∀ j first bs, client_of s j first bs t → client_of s j first bs t') as Hown
    by (intros j first bs; by apply (run_pc_client _ _ _ _ _ k); [rewrite Ht|..]).
  eapply inv_moved; [exact HI|exact E|exact HW|rewrite Er; apply HI|exact (leaf_false s i t HI E)|rewrite Eq; apply HI|done| |].
  - by apply (run_pc_worker s i t t' k HI E); [rewrite Ht|..].
  - intros j first bs Ef Eb. specialize (Co j). rewrite Hf in Co. destruct (decide (j = j0)) as [->|Hne].
    + assert (first = first0) as -> by congruence. assert (bs = bs0) as -> by congruence.
      assert (outstanding j0 s' = o) as Ho' by lia.
      destruct (caller_thread s s' i t t' j0 first0 bs0 HI E HW Ef Eb (λ _, Hown _ _ _)) as (tj & t1 & E1 & _ & Ej & HC).
      assert (t1 = if (o =? 0)%nat then wake_num j0 tj else tj) as ->.
      { rewrite ET in E1. destruct (o =? 0)%nat; cbn [id] in E1; [|congruence].
        unfold notify_waiter in E1. rewrite list_lookup_fmap, Ej in E1. by injection E1. }
      eexists. split; [exact E1|]. unfold client_of in *. rewrite Ews, Em, lookup_insert_eq, Hq, Ho'.
      replace (outstanding j0 s) with (S o) in HC by lia.
      eapply client_inv_frame; [apply (client_inv_dec _ _ _ _ _ _ _ _ _ _ HC)|done|done].
    + eapply caller_step; [exact HI|exact E|exact HW|done|done|by intros _; apply Hown| |by rewrite Em|by rewrite Em|by rewrite Hq|lia|done].
      by rewrite Ews, lookup_insert_ne.
Qed.

(** ** The callers' own steps *)

(** A thread that has taken no entry *)
Definition no_entry (t : thread task) : Prop := match t_pc t with Exec _ _ | Dec _ _ => False | _ => True end.

Lemma no_entry_0 t j i : no_entry t → busy j t = 0%nat ∧ uncalled j i t = 0%nat ∧ entry_ok t.
Proof. unfold no_entry, busy, uncalled, entry_ok. by destruct (t_pc t). Qed.

(** A step of caller [j] that leaves the queue as it is *)
Lemma inv_own (s s' : pool memory task) j first bs t t' :
  inv s → firsts !! j = Some first → bss !! j = Some bs → tp_threads s !! (W + j)%nat = Some t →
  tp_threads s' = <[(W + j)%nat := t']> (tp_threads s) → tp_queue s' = tp_queue s → tp_running s' = tp_running s →
  no_entry t → no_entry t' → t_leaf t' = false →
  (∀ j', j' ≠ j → tp_waiters s' !! j' = tp_waiters s !! j' ∧ m_results (tp_mem s') !! j' = m_results (tp_mem s) !! j' ∧
    m_answers (tp_mem s') !! j' = m_answers (tp_mem s) !! j') →
  client_inv first j bs t' (tp_waiters s' !! j) (m_results (tp_mem s') !! j) (m_answers (tp_mem s') !! j)
    (queued j s) (outstanding j s) (λ i, unwritten j i s) →
  inv s'.
Proof.
  intros HI Ef Eb E ET EQ ER Hn Hn' Hl Ho HC. set (i := (W + j)%nat) in *.
  assert (Forall2 wakes (<[i := t']> (tp_threads s)) (tp_threads s')) as HW by (rewrite ET; apply wakes_refl).
  destruct (counts s s' i t t' E HW) as [Co Cu].
  assert (∀ j', queued j' s' = queued j' s) as Hq by (intros j'; unfold queued; by rewrite EQ).
  assert (∀ j', outstanding j' s' = outstanding j' s) as Ho'.
  { intros j'. specialize (Co j'). rewrite Hq in Co. destruct (no_entry_0 t j' 0 Hn) as (B1 & _), (no_entry_0 t' j' 0 Hn') as (B2 & _). lia. }
  assert (∀ j' i', unwritten j' i' s' = unwritten j' i' s) as Hu.
  { intros j' i'. specialize (Cu j' i'). rewrite EQ in Cu.
    destruct (no_entry_0 t j' i' Hn) as (_ & B1 & _), (no_entry_0 t' j' i' Hn') as (_ & B2 & _). lia. }
  eapply inv_moved; [exact HI|exact E|exact HW|rewrite ER; apply HI|done|rewrite EQ; apply HI|by apply (no_entry_0 t' 0 0)|lia|].
  intros j' first' bs' Ef' Eb'. destruct (decide (j' = j)) as [->|Hne].
  - assert (first' = first) as -> by congruence. assert (bs' = bs) as -> by congruence.
    exists t'. rewrite ET. split; [apply list_lookup_insert_eq; by eapply lookup_lt_Some|].
    unfold client_of. rewrite Hq, Ho'. eapply client_inv_frame; [exact HC|done|]. intros i'. apply Hu.
  - destruct (Ho j' Hne) as (H1 & H2 & H3).
    eapply caller_step; [exact HI|exact E|exact HW|done|done|lia|done|done|done|by rewrite Hq|by rewrite Ho'|by intros; rewrite Hu].
Qed.

(** Every stage but the last has a step; the places a caller can be at *)
Lemma check_num_safe s i t obj last :
  inv s → tp_threads s !! i = Some t → t_pc t = CheckNum obj last → safe (check_num i t obj last s).
Proof.
  intros HI E Ht. destruct (thread_cases s i t HI E) as [[_ [_ Hpc]]|(j & first & bs & -> & Ef & Eb & HC)]; [by rewrite Ht in Hpc|].
  pose proof (leaf_false s _ t HI E) as Hl. assert (no_entry t) as Hn by (unfold no_entry; by rewrite Ht).
  destruct HC as (aw & ao & r & n & k & HS & HK & Ho & HN & HR & HA).
  destruct t as [pc prog d lf]. cbn [t_pc t_prog t_leaf] in *. subst pc. unfold check_num.
  inversion HS as [| | | |pc Hpc| | | |  |  | |]; subst; [done| |]; cbn [kind_ok] in HK; rewrite HN.
  - destruct (Z.eqb_spec (Z.of_nat (outstanding obj s)) 0) as [E0|E0]; cbn [safe].
    + eapply (inv_own s _ obj first bs); [done|done|done|exact E|reflexivity|done|done|done|done|done|done|].
      exists true, true, false, (length (Ret <$> bs)), Idle. cbn [t_pc t_prog at_pc].
      split; [constructor|]. split; [cbn; lia|]. split; [lia|]. split; [exact HN|]. by split.
    + eapply (inv_own s _ obj first bs); [done|done|done|exact E|reflexivity|done|done|done|done|done|done|].
      exists true, true, false, (length (Ret <$> bs)), Sleeping. cbn [t_pc t_prog at_pc].
      split; [constructor|]. split; [cbn; lia|]. split; [lia|]. split; [exact HN|]. by split.
  - rewrite HK. cbn [Z.of_nat Z.eqb safe].
    eapply (inv_own s _ obj first bs); [done|done|done|exact E|reflexivity|done|done|done|done|done| |].
    + intros j' Hne. cbn [put set_threads set_waiters tp_waiters tp_mem]. by rewrite lookup_delete_ne.
    + exists false, (negb first), true, (length (Ret <$> bs)), Idle. cbn [t_pc t_prog at_pc].
      split; [destruct first; constructor|]. split; [exact HK|]. split; [lia|].
      cbn [put set_threads set_waiters tp_waiters tp_mem]. split; [by rewrite lookup_delete_eq|]. by split.
Qed.

Lemma wakeup_safe s i : inv s → safe (wakeup i s).
Proof.
  intros HI. unfold wakeup. destruct (tp_threads s !! i) as [t|] eqn:E; [|done].
  destruct (t_pc t) as [| | | | | | | |obj last| | |] eqn:Ht; try done; cbn [safe].
  - destruct (thread_cases s i t HI E) as [[Hi [Hp Hpc]]|(j & first & bs & -> & Ef & Eb & HC)].
    2: { destruct HC as (aw & ao & r & n & k & HS & _). rewrite Ht in HS. inversion HS; subst; done. }
    set (t' := at_pc t (Run None)). set (s' := put i t' s).
    assert (Forall2 wakes (<[i := t']> (tp_threads s)) (tp_threads s')) as HW by apply wakes_refl.
    destruct (counts s s' i t t' E HW) as [Co Cu].
    assert (no_entry t) as Hn by (unfold no_entry; by rewrite Ht).
    eapply inv_moved; [exact HI|exact E|exact HW|apply HI|exact (leaf_false s i t HI E)|apply HI|done|by split|].
    intros j first bs Ef Eb. eapply caller_step; [exact HI|exact E|exact HW|done|done|lia|done..| |].
    + specialize (Co j). change (queued j s') with (queued j s) in Co. destruct (no_entry_0 t j 0 Hn) as (B1 & _).
      change (busy j t') with 0%nat in Co. lia.
    + intros i'. specialize (Cu j i'). change (tp_queue s') with (tp_queue s) in Cu. destruct (no_entry_0 t j i' Hn) as (_ & B1 & _).
      change (uncalled j i' t') with 0%nat in Cu. lia.
  - destruct (thread_cases s i t HI E) as [[_ [_ Hpc]]|(j & first & bs & -> & Ef & Eb & HC)]; [by rewrite Ht in Hpc|].
    eapply (inv_own s _ j first bs); [done|done|done|exact E|reflexivity|done|done|unfold no_entry; by rewrite Ht|done|exact (leaf_false s _ t HI E)|done|].
    eapply client_inv_wakes; [by constructor|exact HC].
Qed.

Lemma inline_safe s i t f :
  inv s → tp_threads s !! i = Some t → t_pc t = Inline f → safe (run_task run_on i (leave_call t Code) f s).
Proof.
  intros HI E Ht. destruct (thread_cases s i t HI E) as [[_ [_ Hpc]]|(j & first & bs & -> & Ef & Eb & HC)]; [by rewrite Ht in Hpc|].
  destruct HC as (aw & ao & r & n & k & HS & HK & Ho & HN & HR & HA).
  destruct t as [pc prog d lf]. cbn [t_pc t_prog t_leaf] in *. subst pc.
  inversion HS as [| | |i0 v Hv|pc Hpc| | | |  |  | |]; subst; [|done].
  rewrite list_lookup_fmap in Hv. destruct (bs !! n) as [b|] eqn:Eb0; [|done]. injection Hv as <-.
  destruct HR as (l & El & HL & HW). unfold run_task. cbn [run_on]. rewrite El.
  pose proof (lookup_lt_Some _ _ _ Eb0) as Hlt. rewrite (proj2 (Nat.ltb_lt n (length l))) by lia. cbn [safe].
  eapply (inv_own s _ j first bs); [done|done|done|exact E|reflexivity|done|done|done|done|done| |].
  - intros j' Hne. cbn [put set_threads set_mem tp_waiters tp_mem m_results m_answers]. by rewrite lookup_insert_ne.
  - exists true, true, false, (S n), Busy. cbn [t_pc t_prog leave_call put set_threads set_mem tp_waiters tp_mem m_results m_answers].
    split; [constructor; rewrite length_fmap; lia|]. split; [done|]. split; [lia|]. split; [exact HN|]. split; [|done].
    rewrite lookup_insert_eq. eexists. split; [done|]. split; [by rewrite length_insert|].
    intros i' b' Hi' Hb' Hu. destruct (decide (i' = n)) as [->|Hne].
    + rewrite list_lookup_insert_eq by lia. congruence.
    + rewrite list_lookup_insert_ne by done. apply HW; [lia|done|done].
Qed.

(** A task is handed to the pool. *)
Lemma submit_safe s w j first bs prog d i b :
  inv s → firsts !! j = Some first → bss !! j = Some bs → bs !! i = Some b →
  let t := {| t_pc := Code; t_prog := Submit (Some j) (Write j i (Ret b)) false :: prog; t_depth := d; t_leaf := false |} in
  tp_threads s !! (W + j)%nat = Some t → prog = submits j (S i) (drop (S i) (Ret <$> bs)) ++ collect first j →
  (outstanding j s ≤ i)%nat → tp_waiters s !! j = Some (Z.of_nat (outstanding j s)) →
  (∃ l, m_results (tp_mem s) !! j = Some l ∧ results_ok bs i (λ i, unwritten j i s) l) →
  safe (submit (W + j) w {| t_pc := Code; t_prog := prog; t_depth := d; t_leaf := false |} (Some j) (Write j i (Ret b)) false s).
Proof.
  intros HI Ef Eb Hb t E Ep Ho HN (l & El & HL & HW0). unfold submit. cbn [t_leaf]. set (t1 := {| t_pc := Code |}).
  pose proof (lookup_lt_Some _ _ _ Hb) as Hlt. destruct (run_here t1 false s).
  { cbn [safe]. eapply (inv_own s _ j first bs); [done|done|done|exact E|reflexivity|done|done|done|done|done|done|].
    exists true, true, false, i, Busy. cbn [t_pc t_prog enter t1]. subst prog.
    split; [apply st_inline; by rewrite list_lookup_fmap, Hb|]. split; [done|]. split; [lia|]. split; [exact HN|].
    split; [by exists l|done]. }
  unfold inc. rewrite HN. cbn [mbind option_bind].
  assert (fits 32 (Z.of_nat (outstanding j s) + 1) = true) as Hfit.
  { apply fits_spec. pose proof (proj1 (Forall_lookup _ _) Hsmall j bs Eb) as H. cbn in H. lia. }
  rewrite (chk_Some _ _ Hfit). cbn [mbind option_bind]. cbv zeta iota.
  set (e := {| e_wo := Some j; e_f := Write j i (Ret b); e_leaf := false |}). set (s1 := put _ _ _). cbn [safe]. set (s' := set_threads s1 _).
  assert (Forall2 wakes (<[(W + j)%nat := t1]> (tp_threads s)) (tp_threads s')) as HW by apply notify_one_wakes.
  destruct (counts s s' (W + j) t t1 E HW) as [Co Cu].
  assert (tp_queue s' = tp_queue s ++ [e]) as EQ by done. unfold queued in Co. rewrite EQ in Co, Cu.
  assert (∀ j', is_for j' e = if decide (j' = j) then 1%nat else 0%nat) as Hf
    by (intros j'; unfold is_for; cbn [e e_wo]; repeat case_decide; congruence).
  assert (∀ j' i', is_write j' i' e = if decide (j' = j ∧ i' = i) then 1%nat else 0%nat) as Hw
    by (intros j' i'; unfold is_write; cbn [e e_f]; repeat case_decide; naive_solver).
  assert (∀ j' i', unwritten j' i' s' = unwritten j' i' s + is_write j' i' e)%nat as Hu.
  { intros j' i'. specialize (Cu j' i'). rewrite sum_over_app in Cu. change (uncalled j' i' t) with 0%nat in Cu.
    change (uncalled j' i' t1) with 0%nat in Cu. change (sum_over (is_write j' i') [e]) with (is_write j' i' e + 0)%nat in Cu. lia. }
  assert (∀ j', queued j' s' = queued j' s + is_for j' e)%nat as Hq by (intros j'; unfold queued; rewrite EQ; apply queued_app).
  assert (∀ j', outstanding j' s' = outstanding j' s + is_for j' e)%nat as Ho'.
  { intros j'. specialize (Co j'). rewrite queued_app in Co. change (busy j' t) with 0%nat in Co. change (busy j' t1) with 0%nat in Co. lia. }
  eapply inv_moved; [exact HI|exact E|exact HW|apply HI|done| |done|lia|].
  - rewrite EQ. apply Forall_app. split; [apply HI|]. constructor; [|constructor]. by exists j, bs, i, b.
  - intros j' first' bs' Ef' Eb'. destruct (decide (j' = j)) as [->|Hne].
    + assert (first' = first) as -> by congruence. assert (bs' = bs) as -> by congruence.
      assert (<[(W + j)%nat := t1]> (tp_threads s) !! (W + j)%nat = Some t1) as E1
        by (apply list_lookup_insert_eq; by eapply lookup_lt_Some).
      destruct (Forall2_lookup_l _ _ _ _ _ HW E1) as (t2 & E2 & Hw2). exists t2. split; [exact E2|].
      apply (client_inv_wakes _ _ _ _ _ _ _ _ _ _ _ Hw2). exists true, true, false, (S i), Busy. cbn [t_pc t_prog t1].
      subst prog. split; [constructor; rewrite length_fmap; lia|]. split; [done|]. rewrite Ho', Hf, decide_True by done.
      split; [lia|]. split; [unfold s', s1; cbn [put set_threads set_queue set_waiters tp_waiters]; rewrite lookup_insert_eq; f_equal; lia|].
      split; [|done]. exists l. split; [exact El|]. split; [exact HL|]. intros i' b' Hi' Hb' Hz. rewrite Hu, Hw in Hz.
      destruct (decide (j = j ∧ i' = i)) as [|Hni]; [lia|]. apply HW0; [|done|lia]. destruct (decide (i' = i)); [naive_solver|lia].
    + eapply caller_step; [exact HI|exact E|exact HW|done|done|lia| |done|done| | |].
      * unfold s', s1. cbn [put set_threads set_queue set_waiters tp_waiters]. by rewrite lookup_insert_ne.
      * rewrite Hq, Hf, decide_False by done. lia.
      * rewrite Ho', Hf, decide_False by done. lia.
      * intros i'. rewrite Hu, Hw, decide_False by naive_solver. lia.
Qed.

(** With no task outstanding all results are written. *)
Lemma idle_written s j i : inv s → outstanding j s = 0%nat → unwritten j i s = 0%nat.
Proof.
  intros HI Ho. unfold outstanding, queued, unwritten in *.
  assert (sum_over (is_write j i) (tp_queue s) ≤ sum_over (is_for j) (tp_queue s))%nat as HQ.
  { pose proof (inv_queue _ HI) as HQ. revert HQ. generalize (tp_queue s). intros q. induction 1 as [|e q He HQ IH]; [done|].
    rewrite !sum_over_cons. pose proof (good_for e j He) as Hg. unfold is_for in *. unfold is_write in *.
    specialize (λ H, Hg H i). repeat case_decide; destruct (e_f e); repeat case_decide; try lia; specialize (Hg eq_refl); lia. }
  assert (sum_over (uncalled j i) (tp_threads s) ≤ sum_over (busy j) (tp_threads s))%nat as HT.
  { pose proof (inv_entries _ HI) as HE. revert HE. generalize (tp_threads s). intros ts. induction 1 as [|t ts Ht HE IH]; [done|].
    rewrite !sum_over_cons. unfold uncalled at 1, busy at 1. unfold entry_ok in Ht. destruct (t_pc t); try lia.
    pose proof (good_for _ j Ht) as Hg. specialize (λ H, Hg H i). unfold is_for, is_write in *.
    repeat case_decide; destruct (e_f e); repeat case_decide; try lia; specialize (Hg eq_refl); lia. }
  lia.
Qed.

(** A step of the code of a caller: what the stage says of its next action *)
Lemma code_safe s i w t a prog :
  inv s → tp_threads s !! i = Some t → t_pc t = Code → t_prog t = a :: prog →
  safe (act run_on i w {| t_pc := Code; t_prog := prog; t_depth := t_depth t; t_leaf := t_leaf t |} a s).
Proof.
  intros HI E Ht Hp. destruct (thread_cases s i t HI E) as [[_ [Hp' _]]|(j & first & bs & -> & Ef & Eb & HC)]; [congruence|].
  pose proof (leaf_false s _ t HI E) as Hl. destruct HC as (aw & ao & r & n & k & HS & HK & Ho & HN & HR & HA).
  destruct t as [pc prog0 d lf]. cbn [t_pc t_prog t_leaf t_depth] in *. subst lf.
  assert (∀ s' t' aw' ao' r' n' k', tp_threads s' = <[(W + j)%nat := t']> (tp_threads s) → tp_queue s' = tp_queue s →
    tp_running s' = tp_running s → no_entry t' → t_leaf t' = false →
    (∀ j', j' ≠ j → tp_waiters s' !! j' = tp_waiters s !! j' ∧ m_results (tp_mem s') !! j' = m_results (tp_mem s) !! j' ∧
      m_answers (tp_mem s') !! j' = m_answers (tp_mem s) !! j') →
    stage first j (Ret <$> bs) (t_pc t') (t_prog t') aw' ao' r' n' k' → kind_ok k' (queued j s) (outstanding j s) →
    (outstanding j s ≤ n')%nat → tp_waiters s' !! j = (if aw' then Some (Z.of_nat (outstanding j s)) else None) →
    (if ao' then ∃ l, m_results (tp_mem s') !! j = Some l ∧ results_ok bs n' (λ i, unwritten j i s) l
     else m_results (tp_mem s') !! j = None) →
    (r' = true → m_answers (tp_mem s') !! j = Some (forallb id bs)) → inv s') as Hgo.
  { intros s' t' aw' ao' r' n' k' ET EQ ER Hn' Hl' Hoth HS' HK' Ho' HN' HR' HA'.
    eapply (inv_own s s' j first bs); [done|done|done|exact E|exact ET|done|done|unfold no_entry; by rewrite Ht|done|done|done|].
    by exists aw', ao', r', n', k'. }
  destruct HS as [| |n Hn| |pc Hpc| | | | | | |]; try discriminate Ht; try discriminate Hp; rename Hp into H1;
    cbn [kind_ok] in HK; [| | |by subst pc| | |].
  - (* the first declaration *)
    destruct first; injection H1 as <- <-; cbn [act safe run_task run_on].
    + eapply (Hgo _ _ true false false 0%nat Idle); [reflexivity|done|done|done|done| |apply st_half|done|lia| |done|done].
      * intros j' Hne. cbn [put set_threads set_waiters tp_waiters tp_mem]. by rewrite lookup_insert_ne.
      * cbn [put set_threads set_waiters tp_waiters]. rewrite lookup_insert_eq, HK. done.
    + eapply (Hgo _ _ false true false 0%nat Idle); [reflexivity|done|done|done|done| |apply (st_half false)|done|lia|done| |done].
      * intros j' Hne. cbn [put set_threads set_mem tp_waiters tp_mem m_results m_answers]. by rewrite lookup_insert_ne.
      * cbn [put set_threads set_mem tp_mem m_results]. rewrite lookup_insert_eq. eexists. split; [done|].
        split; [by rewrite length_replicate, length_fmap|lia].
  - (* the second *)
    destruct first; injection H1 as <- <-; cbn [act safe run_task run_on].
    + eapply (Hgo _ _ true true false 0%nat Busy); [reflexivity|done|done|done|done| |apply (st_submit _ _ _ 0); lia|done|lia|done| |done].
      * intros j' Hne. cbn [put set_threads set_mem tp_waiters tp_mem m_results m_answers]. by rewrite lookup_insert_ne.
      * cbn [put set_threads set_mem tp_mem m_results]. rewrite lookup_insert_eq. eexists. split; [done|].
        split; [by rewrite length_replicate, length_fmap|lia].
    + eapply (Hgo _ _ true true false 0%nat Busy); [reflexivity|done|done|done|done| |apply (st_submit _ _ _ 0); lia|done|lia| |done|done].
      * intros j' Hne. cbn [put set_threads set_waiters tp_waiters tp_mem]. by rewrite lookup_insert_ne.
      * cbn [put set_threads set_waiters tp_waiters]. rewrite lookup_insert_eq, HK. done.
  - (* submitting *)
    destruct (drop n (Ret <$> bs)) as [|v rest] eqn:Ed.
    + injection H1 as <- <-. cbn [act safe].
      assert (length (Ret <$> bs) = n) as EL.
      { pose proof (f_equal length Ed) as H. rewrite length_drop in H. cbn in H. lia. }
      eapply (Hgo _ _ true true false n Busy); [reflexivity|done|done|done|done|done| |done|done|done|done|done].
      rewrite <- EL. by apply st_flush.
    + injection H1 as <- <-. assert ((Ret <$> bs) !! n = Some v) as Ev.
      { rewrite <- (Nat.add_0_r n), <- lookup_drop, Ed. done. }
      rewrite list_lookup_fmap in Ev. destruct (bs !! n) as [b|] eqn:Hb; [|done]. injection Ev as <-. cbn [act].
      assert (rest = drop (S n) (Ret <$> bs)) as ->.
      { pose proof (f_equal (drop 1) Ed) as H. rewrite drop_drop, Nat.add_1_r in H. by rewrite H. }
      by eapply (submit_safe s w j first bs _ d n b HI Ef Eb Hb E).
  - (* reading *)
    injection H1 as <- <-. cbn [act run_task run_on]. destruct HR as (l & El & HL & HW0). unfold run_task. cbn [run_on].
    rewrite El. cbn [mbind option_bind safe].
    eapply (Hgo _ _ true true true (length (Ret <$> bs)) Idle); [reflexivity|done|done|done|done| |apply st_end|done|done|done| |].
    + intros j' Hne. cbn [put set_threads set_mem tp_waiters tp_mem m_results m_answers]. by rewrite lookup_insert_ne.
    + by exists l.
    + intros _. cbn [put set_threads set_mem tp_mem m_answers]. rewrite lookup_insert_eq. do 2 f_equal.
      apply list_eq. intros i'. destruct (bs !! i') as [b|] eqn:Hb.
      * apply HW0; [rewrite length_fmap; by eapply lookup_lt_Some|done|]. by apply idle_written.
      * apply lookup_ge_None. rewrite HL. by apply lookup_ge_None.
  - (* the first destructor *)
    destruct first; injection H1 as <- <-; cbn [act safe].
    + destruct HR as (l & El & HR). unfold run_task. cbn [run_on]. rewrite El. cbn [mbind option_bind safe].
      eapply (Hgo _ _ true false true (length (Ret <$> bs)) Idle); [reflexivity|done|done|done|done| |apply (st_gone true)|done|done|done| |done].
      * intros j' Hne. cbn [put set_threads set_mem tp_waiters tp_mem m_results m_answers]. by rewrite lookup_delete_ne.
      * cbn [put set_threads set_mem tp_mem m_results]. by rewrite lookup_delete_eq.
    + eapply (Hgo _ _ true true true (length (Ret <$> bs)) Idle); [reflexivity|done|done|done|done|done|apply (st_last false)|done..].
  - (* the second *)
    destruct first; injection H1 as <- <-; cbn [act safe].
    + eapply (Hgo _ _ true false true (length (Ret <$> bs)) Idle); [reflexivity|done|done|done|done|done|apply (st_last true)|done..].
    + destruct HR as (l & El & HR). unfold run_task. cbn [run_on]. rewrite El. cbn [mbind option_bind safe].
      eapply (Hgo _ _ false false true (length (Ret <$> bs)) Idle); [reflexivity|done|done|done|done| |apply st_done|done|done|done| |done].
      * intros j' Hne. cbn [put set_threads set_mem tp_waiters tp_mem m_results m_answers]. by rewrite lookup_delete_ne.
      * cbn [put set_threads set_mem tp_mem m_results]. by rewrite lookup_delete_eq.
Qed.

Lemma step_safe l s : inv s → safe (sched_step run_on l s).
Proof.
  intros HI. destruct l as [i w|i]; cbn [sched_step]; [|by apply wakeup_safe].
  unfold step_thread. destruct (tp_threads s !! i) as [t|] eqn:E; [|done].
  destruct (t_pc t) as [|f|k| |k e|k e|k|obj last|obj last| | |] eqn:Ht; try done.
  - destruct (t_prog t) as [|a prog] eqn:Hp; [done|]. by apply code_safe.
  - by apply inline_safe.
  - by apply run_loop_safe.
  - by apply exec_safe.
  - by apply dec_safe.
  - by apply (relock_safe s i t k).
  - by apply check_num_safe.
  - destruct (thread_cases s i t HI E) as [[_ [_ Hpc]]|(j & first & bs & -> & _ & _ & HC)]; [by rewrite Ht in Hpc|].
    destruct HC as (aw & ao & r & n & k & HS & _). rewrite Ht in HS. inversion HS; subst; done.
Qed.

Lemma execute_safe ls s : inv s → safe (execute run_on ls s).
Proof.
  revert s. induction ls as [|l ls IH]; intros s HI; [done|]. cbn [execute]. pose proof (step_safe l s HI) as H.
  destruct (sched_step run_on l s); [done|by apply IH|done].
Qed.

(** When no thread can move the callers have their answers. *)
Lemma stuck_answered s :
  inv s → (∀ i w, step_thread run_on i w s = Blocked) →
  ∀ j first bs, firsts !! j = Some first → bss !! j = Some bs →
  m_answers (tp_mem s) !! j = Some (forallb id bs) ∧
  ∃ t, tp_threads s !! (W + j)%nat = Some t ∧ t_pc t = Code ∧ t_prog t = [].
Proof.
  intros HI HB j first bs Ef Eb. destruct (inv_callers _ HI j first bs Ef Eb) as (t & E & HC).
  assert (∀ i t, tp_threads s !! i = Some t → ∀ k e, t_pc t ≠ Exec k e ∧ t_pc t ≠ Dec k e) as HN.
  { intros i t0 E0 k e. specialize (HB i 0%nat). unfold step_thread in HB. rewrite E0 in HB.
    split; intros Ht; rewrite Ht in HB.
    - unfold run_task in HB. by destruct (run_on (e_f e) (tp_mem s)).
    - unfold run_dec in HB. by destruct (dec (e_wo e) (tp_waiters s)) as [[]|]. }
  assert (outstanding j s = queued j s) as Ho.
  { unfold outstanding. destruct (sum_over (busy j) (tp_threads s)) eqn:Es; [lia|].
    destruct (sum_over_pos (busy j) (tp_threads s)) as (i & t0 & E0 & Hp); [lia|]. unfold busy in Hp.
    destruct (t_pc t0) eqn:Ht; try lia; by destruct (HN i t0 E0 k e). }
  pose proof (HB (W + j)%nat 0%nat) as Hj. unfold step_thread in Hj. rewrite E in Hj.
  destruct HC as (aw & ao & r & n & k & HS & HK & _ & HNm & HR & HA). rewrite Ho in HK.
  assert (∀ a prog, t_pc t = Code → t_prog t = a :: prog → False) as Hc.
  { intros a prog Ht Hp. rewrite Ht, Hp in Hj. destruct a; cbn [act] in Hj; try done.
    - unfold submit in Hj. repeat case_match; done.
    - unfold run_task in Hj. repeat case_match; done. }
  destruct t as [pc prog d lf]. cbn [t_pc t_prog] in *. destruct HS; cbn [kind_ok] in HK.
  - exfalso. by destruct first; eapply Hc.
  - exfalso. by destruct first; eapply Hc.
  - exfalso. destruct (drop i (Ret <$> bs)); by eapply Hc.
  - exfalso. unfold run_task in Hj. by case_match.
  - exfalso. destruct pc; try done.
    + unfold run_loop in Hj. repeat case_match; done.
    + by destruct (HN _ _ E k e).
    + by destruct (HN _ _ E k e).
  - exfalso. unfold check_num in Hj. repeat case_match; done.
  - lia.
  - exfalso. by eapply Hc.
  - exfalso. by destruct first; eapply Hc.
  - exfalso. unfold check_num in Hj. repeat case_match; done.
  - exfalso. by destruct first; eapply Hc.
  - split; [by apply HA|]. by eexists.
Qed.
End callers.

(** ** The claim *)

Lemma tasks_ret l bs : tasks l = Ret bs → l = Ret <$> bs.
Proof.
  revert bs. induction l as [|[b| |] l IH]; intros bs; cbn [tasks]; [by intros [= <-]| |done|done].
  destruct (tasks l) as [bs'| |]; try done. intros [= <-]. rewrite fmap_cons. f_equal. by apply IH.
Qed.

Lemma sum_over_zero {A} (f : A → nat) l : (∀ x, x ∈ l → f x = 0%nat) → sum_over f l = 0%nat.
Proof.
  induction l as [|x l IH]; intros Hf; [done|]. rewrite sum_over_cons, Hf by set_solver. rewrite IH; [done|set_solver].
Qed.

Lemma start_inv max (cs : list client) (bss : list (list bool)) :
  Forall2 (λ c bs, tasks (c_tasks c) = Ret bs) cs bss → inv max (c_first <$> cs) bss (verifying max cs).
Proof.
  intros HF. pose proof (Forall2_length _ _ _ HF) as HL. set (s := verifying max cs).
  assert (∀ t, t ∈ tp_threads s → t = worker ∨ ∃ prog d, t = caller prog d) as Hts.
  { intros t Ht. cbn [s verifying threadpool tp_threads] in Ht. apply elem_of_app in Ht as [Ht|Ht].
    - left. by apply elem_of_replicate in Ht as [-> _].
    - right. apply elem_of_lookup_imap_1 in Ht as (j & c & -> & _). by eexists _, _. }
  assert (∀ j, outstanding j s = 0%nat) as Ho.
  { intros j. unfold outstanding. apply sum_over_zero. intros t Ht. by destruct (Hts t Ht) as [-> | (? & ? & ->)]. }
  split.
  - done.
  - cbn [s verifying threadpool tp_threads]. rewrite length_app, length_replicate, length_imap. unfold W. lia.
  - apply Forall_forall. intros t Ht. by destruct (Hts t Ht) as [-> | (? & ? & ->)].
  - constructor.
  - apply Forall_forall. intros t Ht. by destruct (Hts t Ht) as [-> | (? & ? & ->)].
  - intros i t Hi E. cbn [s verifying threadpool tp_threads] in E. unfold W in Hi.
    rewrite lookup_app_l in E by (by rewrite length_replicate). apply lookup_replicate in E as [-> _]. by split.
  - intros j first bs Ef Eb. rewrite list_lookup_fmap in Ef. destruct (cs !! j) as [c|] eqn:Ec; [|done]. injection Ef as <-.
    pose proof (Forall2_lookup_lr _ _ _ _ _ _ HF Ec Eb) as Ht. cbn in Ht.
    exists (caller (verifier (c_first c) j (c_tasks c)) (c_depth c)). split.
    + cbn [s verifying threadpool tp_threads]. rewrite lookup_app_r by (rewrite length_replicate; unfold W; lia).
      rewrite length_replicate. unfold W. replace (workers max + j - workers max)%nat with j by lia.
      by rewrite list_lookup_imap, Ec.
    + exists false, false, false, 0%nat, Idle. rewrite Ho. cbn [caller t_pc t_prog]. rewrite (tasks_ret _ _ Ht).
      split; [constructor|]. split; [done|]. split; [lia|]. by split.
Qed.

(** C40. The thread pool runs the tasks it is given, over every schedule of its threads and of any number of
    callers that each hand in tasks, wait for them, and look at the results, as [verRct],
    [verRctSemanticsSimple] and [verRctNonSemanticsSimple] do.  No waiter and no deque of results is used before it exists or
    after it is destroyed, and no count overflows, for fewer than [2^31] tasks of a caller.  A schedule has
    no more steps than the work at its start and twice the number of spurious wakeups; and when no thread can move
    any more every caller has returned, with the conjunction of the results of all of its tasks: none is lost
    and no caller sleeps for ever. *)
Theorem pool_spec (max : Z) (cs : list client) (bss : list (list bool)) (ls : list label) :
  Forall2 (λ c bs, tasks (c_tasks c) = Ret bs) cs bss → Forall (λ bs, Z.of_nat (length bs) < 2 ^ 31) bss →
  match execute run_on ls (verifying max cs) with
  | Blocked => True
  | Undefined => False
  | Next s =>
      (length ls ≤ pool_cost (verifying max cs) + 2 * sum_over is_spurious ls)%nat ∧
      ((∀ i w, step_thread run_on i w s = Blocked) →
        ∀ j bs, bss !! j = Some bs → m_answers (tp_mem s) !! j = Some (forallb id bs) ∧
          ∃ t, tp_threads s !! (workers max + j)%nat = Some t ∧ t_pc t = Code ∧ t_prog t = [])
  end.
Proof.
  intros HF HS. pose proof (start_inv max cs bss HF) as HI.
  assert (length (c_first <$> cs) = length bss) as HL by (rewrite length_fmap; by eapply Forall2_length).
  pose proof (execute_safe max _ bss HL HS ls _ HI) as HE.
  destruct (execute run_on ls (verifying max cs)) as [|s|] eqn:E; [done| |done]. cbn [safe] in HE.
  split; [pose proof (execute_bounded run_on ls _ s E); lia|]. intros HB j bs Eb.
  destruct (lookup_lt_is_Some_2 (c_first <$> cs) j) as [first Ef]; [rewrite HL; by eapply lookup_lt_Some|].
  exact (stuck_answered max _ bss HL s HE HB j first bs Ef Eb).
Qed.

Definition two_clients : list client := [
  {| c_first := true; c_tasks := [Ret true; Ret false]; c_depth := 0 |};
  {| c_first := false; c_tasks := [Ret true]; c_depth := 1 |}].

(** One thread of the pool and two callers take turns; the second caller is itself a task. *)
Definition taking_turns : list label :=
  Turn 0 0 :: concat (replicate 3 [Turn 1 0; Turn 2 0]) ++ concat (replicate 5 [Turn 0 0; Turn 1 0; Turn 2 0]) ++
  concat (replicate 3 [Turn 1 0; Turn 2 0]) ++ replicate 4 (Turn 1 0).

Lemma pool_spec_witness :
  ∃ s, execute run_on taking_turns (verifying 2 two_clients) = Next s ∧
    m_answers (tp_mem s) !! 0%nat = Some false ∧ m_answers (tp_mem s) !! 1%nat = Some true ∧
    ∃ t, tp_threads s !! 1%nat = Some t ∧ t_pc t = Code ∧ t_prog t = [].
Proof.
  pose proof (pool_spec 2 two_clients [[true; false]; [true]] taking_turns
    ltac:(by repeat constructor) ltac:(by repeat constructor)) as H.
  destruct (execute run_on taking_turns (verifying 2 two_clients)) as [|s|] eqn:E; [vm_compute in E; discriminate E| |destruct H].
  destruct H as [_ H]. exists s. split; [done|].
  assert (∀ i w, step_thread run_on i w s = Blocked) as HB.
  { vm_compute in E. injection E as <-. intros [|[|[|i]]] w; reflexivity. }
  split; [exact (proj1 (H HB 0%nat _ eq_refl))|]. split; [exact (proj1 (H HB 1%nat _ eq_refl))|].
  exact (proj2 (H HB 0%nat _ eq_refl)).
Defined.
