(* ===== verification/PoolLeavingSpec.v ===== *)
(** * A caller that leaves without waiting

    [verRctSemanticsSimple] can return after it has submitted tasks and before it waits for them.  Its
    deque is then destroyed first, and the destructor of the waiter waits afterwards.  Which of the tasks
    were run by then depends on the schedule. *)

From S2P Require Export PoolClientsSpec.

#[local] Open Scope Z_scope.

Lemma execute_app {M F} (call : F → M → option M) ls ls' s s' :
  execute call ls s = Next s' → execute call (ls ++ ls') s = execute call ls' s'.
Proof.
  revert s. induction ls as [|l ls IH]; intros s; cbn [execute app]; [by intros [= ->]|].
  destruct (sched_step call l s); [done| |done]. apply IH.
Qed.

Lemma wake_first_none (ts : list (thread task)) : Forall (λ t, asleep_work t = false) ts → wake_first ts = ts.
Proof. induction 1 as [|t ts Ht _ IH]; [done|]. cbn [wake_first]. by rewrite Ht, IH. Qed.

Lemma notify_one_none w (ts : list (thread task)) : Forall (λ t, asleep_work t = false) ts → notify_one w ts = ts.
Proof.
  intros HF. unfold notify_one. destruct (ts !! w) as [t|] eqn:E; [|by apply wake_first_none].
  rewrite (proj1 (Forall_lookup _ _) HF w t E). by apply wake_first_none.
Qed.

Section leaving.
Context (max d : Z) (Hmax : 2 ≤ max) (Hd : d ≤ 0).

Let c : nat := workers max.

(** The pool between the turns of the caller: its threads are at the head of the loop *)
Definition resting (q : list (entry task)) (ws : gmap nat Z) (prog : list (action task)) (depth : Z) (m : memory) : pool memory task := {|
  tp_queue := q; tp_active := 0; tp_max := max; tp_running := true; tp_waiters := ws;
  tp_threads := replicate c worker ++ [caller prog depth]; tp_mem := m |}.

Lemma c_pos : (1 ≤ c)%nat.
Proof. unfold c, workers. destruct (Z.eqb_spec max 0); lia. Qed.

Lemma caller_lookup prog : (replicate c worker ++ [caller prog d]) !! c = Some (caller prog d).
Proof. rewrite lookup_app_r, length_replicate, Nat.sub_diag by (rewrite length_replicate; lia). done. Qed.

Lemma caller_insert prog t : <[c := t]> (replicate c worker ++ [caller prog d]) = replicate c worker ++ [t].
Proof. rewrite insert_app_r_alt, length_replicate, Nat.sub_diag by (rewrite length_replicate; lia). done. Qed.

(** A turn of the caller *)
Lemma caller_turn w q ws a prog m :
  sched_step run_on (Turn c w) (resting q ws (a :: prog) d m) =
    act run_on c w (caller prog d) a (resting q ws (a :: prog) d m).
Proof. cbn [sched_step]. unfold step_thread. cbn [resting tp_threads]. by rewrite caller_lookup. Qed.

Definition task_entry (i : nat) (v : outcome bool) : entry task := {| e_wo := Some 0%nat; e_f := Write 0 i v; e_leaf := false |}.

Lemma submit_turn q num i v prog m :
  fits 32 (num + 1) = true →
  sched_step run_on (Turn c 0) (resting q {[0%nat := num]} (Submit (Some 0%nat) (Write 0 i v) false :: prog) d m) =
    Next (resting (q ++ [task_entry i v]) {[0%nat := num + 1]} prog d m).
Proof.
  intros Hn. rewrite caller_turn. cbn [act]. unfold submit. cbn [caller t_leaf].
  assert (run_here (caller prog d) false (resting q {[0%nat := num]} (Submit (Some 0%nat) (Write 0 i v) false :: prog) d m) = false) as ->.
  { unfold run_here. cbn [resting tp_active tp_max caller t_depth]. rewrite (proj2 (Z.eqb_neq 0 max)), (proj2 (Z.ltb_ge 0 d)) by lia. done. }
  cbn [resting tp_waiters inc]. rewrite lookup_singleton_eq. cbn [mbind option_bind]. rewrite (chk_Some _ _ Hn).
  cbn [mbind option_bind]. cbv zeta iota. unfold put, set_threads, set_queue, set_waiters.
  cbn [tp_threads tp_queue tp_active tp_max tp_running tp_waiters tp_mem resting]. fold (caller prog d). rewrite caller_insert.
  rewrite notify_one_none; [by rewrite insert_singleton_eq|].
  apply Forall_app. split; [by apply Forall_replicate|by repeat constructor].
Qed.

Fixpoint entries (i : nat) (l : list (outcome bool)) : list (entry task) :=
  match l with [] => [] | v :: l => task_entry i v :: entries (S i) l end.

Lemma submit_turns l q num i prog m :
  0 ≤ num → num + Z.of_nat (length l) < 2 ^ 31 →
  execute run_on (replicate (length l) (Turn c 0)) (resting q {[0%nat := num]} (submits 0 i l ++ prog) d m) =
    Next (resting (q ++ entries i l) {[0%nat := num + Z.of_nat (length l)]} prog d m).
Proof.
  revert q num i. induction l as [|v l IH]; intros q num i Hn Hs; cbn [length replicate execute submits entries app].
  { by rewrite app_nil_r, Z.add_0_r. }
  cbn [length] in Hs. rewrite submit_turn by (apply fits_spec; lia). rewrite IH by lia. rewrite <- app_assoc. cbn [app].
  do 3 f_equal. lia.
Qed.

Definition results_mem (l : list bool) : memory := {| m_results := {[0%nat := l]}; m_answers := ∅ |}.

Lemma new_turn w q ws o prog m :
  sched_step run_on (Turn c w) (resting q ws (NewWaiter o :: prog) d m) = Next (resting q (<[o := 0]> ws) prog d m).
Proof.
  rewrite caller_turn. cbn [act]. unfold put, set_waiters, set_threads, resting.
  cbn [tp_threads tp_queue tp_active tp_max tp_running tp_waiters tp_mem]. by rewrite caller_insert.
Qed.

Lemma own_turn w q ws f prog m m' :
  run_on f m = Some m' → sched_step run_on (Turn c w) (resting q ws (Own f :: prog) d m) = Next (resting q ws prog d m').
Proof.
  intros E. rewrite caller_turn. cbn [act]. unfold run_task. cbn [resting tp_mem]. rewrite E. unfold put, set_mem, set_threads, resting.
  cbn [tp_threads tp_queue tp_active tp_max tp_running tp_waiters tp_mem]. by rewrite caller_insert.
Qed.

Definition no_results : memory := {| m_results := ∅; m_answers := ∅ |}.

Lemma destroy_results l : run_on (Destroy 0) (results_mem l) = Some no_results.
Proof. cbn. rewrite lookup_singleton_eq. cbn. by rewrite delete_singleton_eq. Qed.

Lemma write_results i b l : (i < length l)%nat → run_on (Write 0 i (Ret b)) (results_mem l) = Some (results_mem (<[i := b]> l)).
Proof. intros Hi. cbn [run_on results_mem m_results m_answers]. rewrite lookup_singleton_eq, (proj2 (Nat.ltb_lt _ _) Hi). unfold results_mem. by rewrite insert_singleton_eq. Qed.

Lemma dec_one num : fits 32 (num - 1) = true → dec (Some 0%nat) {[0%nat := num]} = Some ({[0%nat := num - 1]}, num - 1 =? 0).
Proof. intros Hn. cbn. rewrite lookup_singleton_eq. cbn. rewrite (chk_Some _ _ Hn). cbn. by rewrite insert_singleton_eq. Qed.

(** Up to the last task submitted *)
Lemma submitted n l :
  Z.of_nat (length l) < 2 ^ 31 →
  execute run_on (replicate (2 + length l) (Turn c 0)) (leaving max n l d) =
    Next (resting (entries 0 l) {[0%nat := Z.of_nat (length l)]} (finish true 0) d (results_mem (replicate n false))).
Proof.
  intros HL. change (leaving max n l d) with (resting [] ∅ (leaver 0 n l) d no_memory).
  cbn [Nat.add replicate execute]. unfold leaver, declare. cbn [app]. rewrite new_turn.
  rewrite (own_turn _ _ _ _ _ _ (results_mem (replicate n false))) by done.
  exact (submit_turns l [] 0 0 (finish true 0) (results_mem (replicate n false)) ltac:(lia) ltac:(lia)).
Qed.

Lemma worker_insert prog t : <[0%nat := t]> (replicate c worker ++ [caller prog d]) = t :: replicate (c - 1) worker ++ [caller prog d].
Proof. pose proof c_pos. destruct c as [|c']; [lia|]. cbn. by rewrite Nat.sub_0_r. Qed.

Lemma worker_cons prog : replicate c worker ++ [caller prog d] = worker :: replicate (c - 1) worker ++ [caller prog d].
Proof. pose proof c_pos. destruct c as [|c']; [lia|]. cbn. by rewrite Nat.sub_0_r. Qed.

(** A schedule with undefined behaviour: all tasks are submitted, the deque is destroyed, and a thread of the pool takes the first task. *)
Definition bad_schedule (l : list (outcome bool)) : list label := replicate (2 + length l) (Turn c 0) ++ [Turn c 0; Turn 0 0; Turn 0 0].

Lemma leaving_undefined n l :
  l ≠ [] → Z.of_nat (length l) < 2 ^ 31 → execute run_on (bad_schedule l) (leaving max n l d) = Undefined.
Proof.
  intros Hne HL. unfold bad_schedule. rewrite (execute_app _ _ _ _ _ (submitted n l HL)). cbn [execute].
  unfold finish. rewrite (own_turn _ _ _ _ _ _ no_results) by apply destroy_results.
  destruct l as [|v l]; [done|]. unfold resting. rewrite worker_cons. by destruct v.
Qed.

(** The four turns in which a thread of the pool runs a task *)
Definition one_task : list label := replicate 4 (Turn 0 0).

Lemma head_lookup (t : thread task) ts : (t :: ts) !! 0%nat = Some t.
Proof. done. Qed.

Lemma head_insert (t t' : thread task) ts : <[0%nat := t']> (t :: ts) = t' :: ts.
Proof. done. Qed.

Ltac pool_simpl :=
  cbn [tp_threads tp_queue tp_active tp_max tp_running tp_waiters tp_mem enter leave_call at_pc task_entry e_wo e_f e_leaf
    t_pc t_prog t_depth t_leaf negb m_results m_answers]; rewrite ?head_lookup, ?head_insert;
  cbn [worker enter leave_call at_pc t_pc t_prog t_depth t_leaf].

Lemma task_turns q num i b prog l :
  fits 32 (num - 1) = true → (i < length l)%nat →
  execute run_on one_task (resting (task_entry i (Ret b) :: q) {[0%nat := num]} prog d (results_mem l)) =
    Next (resting q {[0%nat := num - 1]} prog d (results_mem (<[i := b]> l))).
Proof.
  intros Hn Hi. unfold one_task, resting. rewrite worker_cons. cbn [replicate execute sched_step].
  unfold step_thread at 1. pool_simpl. unfold run_loop, put, set_queue, set_threads. pool_simpl.
  unfold step_thread at 1. pool_simpl. unfold run_task. pool_simpl.
  rewrite (write_results _ _ _ Hi). unfold put, set_mem, set_threads. pool_simpl.
  unfold step_thread at 1. pool_simpl. unfold run_dec. pool_simpl. rewrite (dec_one _ Hn).
  unfold put, set_waiters, set_threads. pool_simpl.
  assert (∀ t : thread task, t_pc t = Relock None → notify_waiter 0 (t :: replicate (c - 1) worker ++ [caller prog d]) = t :: replicate (c - 1) worker ++ [caller prog d]) as HW.
  { intros t Et. unfold notify_waiter. rewrite fmap_cons, fmap_app, fmap_replicate. unfold wake_num at 1. by rewrite Et. }
  rewrite HW by done. destruct (num - 1 =? 0); unfold step_thread; pool_simpl; unfold put, set_queue, set_threads; pool_simpl;
    done.
Qed.

Lemma all_turns bs i num prog l :
  Z.of_nat (length bs) ≤ num < 2 ^ 31 → (i + length bs ≤ length l)%nat →
  ∃ l', execute run_on (concat (replicate (length bs) one_task)) (resting (entries i (Ret <$> bs)) {[0%nat := num]} prog d (results_mem l)) =
    Next (resting [] {[0%nat := num - Z.of_nat (length bs)]} prog d (results_mem l')).
Proof.
  revert i num l. induction bs as [|b bs IH]; intros i num l Hn Hl; cbn [length replicate concat fmap list_fmap entries].
  { exists l. by rewrite Z.sub_0_r. }
  cbn [length] in Hn, Hl. destruct (IH (S i) (num - 1) (<[i := b]> l)) as [l' E]; [lia|rewrite length_insert; lia|].
  exists l'. rewrite (execute_app _ _ _ _ _ (task_turns _ num i b prog l ltac:(apply fits_spec; lia) ltac:(lia))).
  etransitivity; [exact E|]. do 3 f_equal. lia.
Qed.

(** A schedule without: the threads of the pool run all tasks before the caller goes on. *)
Definition good_schedule (l : list (outcome bool)) : list label :=
  replicate (2 + length l) (Turn c 0) ++ concat (replicate (length l) one_task) ++ replicate 3 (Turn c 0).

Lemma leaving_returns n bs :
  (length bs ≤ n)%nat → Z.of_nat (length bs) < 2 ^ 31 →
  execute run_on (good_schedule (Ret <$> bs)) (leaving max n (Ret <$> bs) d) = Next (resting [] ∅ [] d no_results).
Proof.
  intros Hl HL. unfold good_schedule. rewrite (execute_app _ _ _ _ _ (submitted n (Ret <$> bs) ltac:(rewrite length_fmap; lia))).
  rewrite length_fmap. destruct (all_turns bs 0 (Z.of_nat (length bs)) (finish true 0) (replicate n false)) as [l' E]; [lia|rewrite length_replicate; lia|].
  rewrite (execute_app _ _ _ _ _ E), Z.sub_diag. cbn [replicate execute]. unfold finish.
  rewrite (own_turn _ _ _ _ _ _ no_results) by apply destroy_results.
  rewrite caller_turn. cbn [act]. unfold put, set_threads, resting. cbn [tp_threads tp_queue tp_active tp_max tp_running tp_waiters tp_mem].
  rewrite caller_insert. cbn [sched_step]. unfold step_thread. cbn [tp_threads].
  rewrite lookup_app_r, length_replicate, Nat.sub_diag by (rewrite length_replicate; lia). cbn [lookup list_lookup at_pc t_pc].
  unfold check_num. cbn [tp_waiters]. rewrite lookup_singleton_eq. cbn [Z.eqb]. unfold put, set_waiters, set_threads.
  cbn [tp_threads tp_queue tp_active tp_max tp_running tp_waiters tp_mem].
  rewrite insert_app_r_alt, length_replicate, Nat.sub_diag by (rewrite length_replicate; lia). by rewrite delete_singleton_eq.
Qed.
End leaving.

(** ** A caller whose tasks no other thread runs

    It is itself a task, and so runs them as it submits them; or the pool has no threads. *)

Section unhelped.
Context (max d : Z) (n : nat) (bs : list bool) (Hn : (length bs ≤ n)%nat) (HL : Z.of_nat (length bs) < 2 ^ 31).

Let c : nat := workers max.

Context (Hhelp : 0 < d ∨ c = 0%nat).

(** The length of the queue after [i] tasks *)
Definition counted (i q : nat) : Prop :=
  (0 < d ∧ q = 0%nat) ∨ (d ≤ 0 ∧ c = 0%nat ∧ (q ≤ i)%nat ∧ ((0 < i)%nat → (0 < q)%nat)).

(** Where the caller is, whether its waiter exists, whether its deque does, its depth, and the length of the queue *)
Inductive caller_at : place task → list (action task) → bool → bool → Z → nat → Prop :=
| at_start : caller_at Code (leaver 0 n (Ret <$> bs)) false false d 0
| at_create : caller_at Code (Own (Create 0 n) :: submits 0 0 (Ret <$> bs) ++ finish true 0) true false d 0
| at_submit i l q : (i + length l = length bs)%nat → counted i q →
    caller_at Code (submits 0 i (Ret <$> l) ++ finish true 0) true true d q
| at_inline i b l q : (i + S (length l) = length bs)%nat → counted (S i) q →
    caller_at (Inline (Write 0 i (Ret b))) (submits 0 (S i) (Ret <$> l) ++ finish true 0) true true (d + 1) q
| at_end q : counted (length bs) q → caller_at Code [EndWaiter 0%nat] true false d q
| at_check q : counted (length bs) q → caller_at (CheckNum 0 true) [] true false d q
| at_asleep q : counted (length bs) q → q ≠ 0%nat → caller_at (AsleepNum 0 true) [] true false d q
| at_done : 0 < d ∨ bs = [] → caller_at Code [] false false d 0.

Definition leaver_inv (t : thread task) (q : nat) (ws : gmap nat Z) (m : memory) : Prop :=
  ∃ aw ao, caller_at (t_pc t) (t_prog t) aw ao (t_depth t) q ∧ t_leaf t = false ∧
    ws = (if aw then {[0%nat := Z.of_nat q]} else ∅) ∧
    (if ao then ∃ l, length l = n ∧ m_results m = {[0%nat := l]} else m_results m = ∅).

Record unhelped_inv (s : pool memory task) : Prop := {
  unhelped_queue : tp_queue s = [] ∨ c = 0%nat;
  unhelped_running : tp_running s = true;
  unhelped_workers i t : (i < c)%nat → tp_threads s !! i = Some t → t_pc t = Run None ∨ t_pc t = AsleepWork;
  unhelped_caller : ∃ t, tp_threads s !! c = Some t ∧ leaver_inv t (length (tp_queue s)) (tp_waiters s) (tp_mem s);
  unhelped_last i t : (c < i)%nat → tp_threads s !! i = Some t → False }.

Lemma unhelped_worker s i t pc : unhelped_inv s → (i < c)%nat → pc = Run None ∨ pc = AsleepWork → unhelped_inv (put i (at_pc t pc) s).
Proof.
  intros [HQ HR HW (t' & E & HA) HT] Hi Hpc. split; cbn [put set_threads tp_queue tp_running tp_waiters tp_threads tp_mem]; [done|done| | |].
  - intros k tk Hk Ek. destruct (decide (k = i)) as [->|Hne]; [|rewrite list_lookup_insert_ne in Ek by done; eauto].
    apply list_lookup_insert_Some in Ek as [(_ & <- & _)|[Hne _]]; done.
  - exists t'. by rewrite list_lookup_insert_ne by lia.
  - intros k tk Hk. rewrite list_lookup_insert_ne by lia. eauto.
Qed.

Lemma unhelped_put q a mx r ws ts m t q' ws' m' :
  unhelped_inv (Build_pool q a mx r ws ts m) → q' = [] ∨ c = 0%nat → leaver_inv t (length q') ws' m' →
  unhelped_inv (Build_pool q' a mx r ws' (<[c := t]> ts) m').
Proof.
  intros [HQ HR HW (t' & E & _) HT] Hq HA.
  split; cbn [tp_queue tp_running tp_waiters tp_threads tp_mem]; [done|done| | |].
  - intros k tk Hk. rewrite list_lookup_insert_ne by lia. eauto.
  - exists t. rewrite list_lookup_insert_eq by (by eapply lookup_lt_Some). eauto.
  - intros k tk Hk. rewrite list_lookup_insert_ne by lia. eauto.
Qed.

Ltac fields :=
  cbn [put set_threads set_mem set_queue set_waiters tp_queue tp_active tp_max tp_running tp_waiters tp_threads tp_mem].

Definition unhelped_ok (r : result memory task) : Prop :=
  match r with Blocked => True | Next s => unhelped_inv s | Undefined => False end.

Lemma unhelped_pool s i w t :
  unhelped_inv s → (i < c)%nat → tp_threads s !! i = Some t → unhelped_ok (step_thread run_on i w s).
Proof.
  intros HI Hi Et. unfold step_thread. rewrite Et. destruct (unhelped_workers s HI i t Hi Et) as [E|E]; rewrite E; [|done].
  unfold run_loop. rewrite (unhelped_running s HI). destruct (unhelped_queue s HI) as [->|Hc]; [|lia].
  cbn [negb unhelped_ok]. apply unhelped_worker; auto.
Qed.

(** The notification of a task that is queued finds no thread *)
Lemma unhelped_notify s w : unhelped_inv s → c = 0%nat → notify_one w (tp_threads s) = tp_threads s.
Proof.
  intros HI Hc. apply notify_one_none, Forall_lookup. intros i t Et. destruct (unhelped_caller s HI) as (t' & Et' & aw & ao & HA & _).
  destruct (decide (i = c)) as [->|Hne]; [|by destruct (unhelped_last s HI i t ltac:(lia) Et)].
  rewrite Et in Et'. injection Et' as <-. unfold asleep_work. by destruct HA.
Qed.

Lemma counted_start : counted 0 0.
Proof. destruct (Z.lt_ge_cases 0 d) as [Hd|Hd]; [by left|right]. repeat split; lia. Qed.

(** One more task, run by the caller or queued *)
Lemma counted_here i q : counted i q → (0 < d ∨ (0 < q)%nat) → counted (S i) q.
Proof. intros [[Hd ->]|(Hd & Hc & Hq & Hi)] [H|H]; [by left|lia|lia|]. right. repeat split; lia. Qed.

Lemma counted_queued i q : counted i q → d ≤ 0 → counted (S i) (S q).
Proof. intros [[Hd ->]|(Hd & Hc & Hq & Hi)] H; [lia|]. right. repeat split; lia. Qed.

Lemma unhelped_submit s w i b l :
  unhelped_inv s → (i + S (length l) = length bs)%nat → counted i (length (tp_queue s)) →
  tp_waiters s = {[0%nat := Z.of_nat (length (tp_queue s))]} →
  (∃ r, length r = n ∧ m_results (tp_mem s) = {[0%nat := r]}) →
  unhelped_ok (submit c w (caller (submits 0 (S i) (Ret <$> l) ++ finish true 0) d) (Some 0%nat) (Write 0 i (Ret b)) false s).
Proof.
  intros HI Hl HC HW HM. destruct s as [q act mx run ws ts m]. cbn [tp_queue tp_waiters tp_mem] in *. subst ws.
  unfold submit. cbn [caller t_leaf]. unfold run_here. cbn [negb andb tp_active tp_max tp_queue caller t_depth].
  destruct ((act =? mx) && negb (length q =? 0)%nat || (0 <? d)) eqn:ER; cbn [unhelped_ok].
  - refine (unhelped_put _ _ _ _ _ _ _ _ _ _ _ HI (unhelped_queue _ HI) _). fields. exists true, true.
    split; [|by split]. apply at_inline; [done|]. apply counted_here; [done|].
    apply orb_prop in ER as [[_ E%negb_true_iff%Nat.eqb_neq]%andb_prop|E%Z.ltb_lt]; [right; lia|by left].
  - apply orb_false_elim in ER as [_ Hd%Z.ltb_ge]. assert (c = 0%nat ∧ (length q ≤ i)%nat) as [Hc Hq] by (unfold counted in HC; lia).
    cbn [inc tp_waiters]. rewrite lookup_singleton_eq. cbn [mbind option_bind]. rewrite chk_Some by (apply fits_spec; lia).
    cbn [mbind option_bind unhelped_ok]. rewrite insert_singleton_eq. cbv zeta.
    match goal with |- unhelped_inv (set_threads ?s _) => assert (unhelped_inv s) as HI' end.
    { refine (unhelped_put _ _ _ _ _ _ _ _ _ _ _ HI (or_intror Hc) _). fields. exists true, true. rewrite length_app. cbn [length].
      split; [|split; [done|split; [|done]]].
      - rewrite Nat.add_1_r. apply at_submit; [lia|]. by apply counted_queued.
      - by rewrite Nat2Z.inj_add. }
    rewrite unhelped_notify by done. exact HI'.
Qed.

Lemma unhelped_turn s w : unhelped_inv s → unhelped_ok (step_thread run_on c w s).
Proof.
  intros HI. destruct (unhelped_caller s HI) as (t & Et & aw & ao & HA & HL' & HW & HM).
  unfold step_thread. rewrite Et. destruct t as [pc prog dp leaf]; cbn [t_pc t_prog t_depth t_leaf] in *. subst leaf.
  pose proof (unhelped_queue s HI) as HQ. destruct s as [q act mx run ws ts m]. cbn [tp_queue tp_waiters tp_mem] in HW, HM, HA, HQ.
  remember (length q) as lq eqn:Hlq.
  destruct HA as [| |i l q' Hl HC|i b l q' Hl HC|q' HC|q' HC|q' HC Hq|Hd]; subst ws.
  - cbn [leaver declare app ThreadPool.act unhelped_ok tp_waiters].
    refine (unhelped_put _ _ _ _ _ _ _ _ _ _ _ HI HQ _). fields. rewrite <- Hlq. exists true, false. split; [constructor|]. split; [done|].
    split; [apply insert_empty|done].
  - refine (unhelped_put _ _ _ _ _ _ _ _ _ _ _ HI HQ _). fields.
    rewrite <- Hlq. exists true, true. split; [apply (at_submit 0 bs); [done|exact counted_start]|]. split; [done|]. split; [done|].
    exists (replicate n false). rewrite length_replicate. split; [done|]. cbn [m_results]. rewrite HM. apply insert_empty.
  - destruct l as [|b l]; cbn [fmap list_fmap submits app finish ThreadPool.act].
    + destruct HM as (r & Hr & HM). unfold run_task. cbn [run_on tp_mem]. rewrite HM, lookup_singleton_eq. cbn [mbind option_bind unhelped_ok].
      refine (unhelped_put _ _ _ _ _ _ _ _ _ _ _ HI HQ _). fields. rewrite <- Hlq. exists true, false. cbn [length] in Hl. rewrite Nat.add_0_r in Hl. subst i.
      split; [by constructor|]. split; [done|]. split; [done|]. cbn [m_results]. apply delete_singleton_eq.
    + apply unhelped_submit; [done|done|by rewrite Hlq in HC|by rewrite Hlq|done].
  - destruct HM as (r & Hr & HM). unfold run_task. cbn [run_on tp_mem]. rewrite HM, lookup_singleton_eq, (proj2 (Nat.ltb_lt _ _)) by lia.
    cbn [unhelped_ok]. refine (unhelped_put _ _ _ _ _ _ _ _ _ _ _ HI HQ _). fields. rewrite <- Hlq. exists true, true.
    split; [|split; [done|split; [done|]]].
    + cbn [leave_call t_pc t_prog t_depth]. rewrite Z.add_simpl_r. apply at_submit; [lia|done].
    + exists (<[i := b]> r). rewrite length_insert. split; [done|]. cbn [m_results]. apply insert_singleton_eq.
  - refine (unhelped_put _ _ _ _ _ _ _ _ _ _ _ HI HQ _). fields. rewrite <- Hlq. exists true, false. split; [by apply at_check|done].
  - unfold check_num. cbn [tp_waiters]. rewrite lookup_singleton_eq. destruct (Z.eqb_spec (Z.of_nat q') 0) as [E|E]; cbn [unhelped_ok].
    + refine (unhelped_put _ _ _ _ _ _ _ _ _ _ _ HI HQ _). fields. rewrite <- Hlq. exists false, false.
      assert (q' = 0%nat) as -> by lia. split; [apply at_done|]. 2: split; [done|split; [apply delete_singleton_eq|done]].
      unfold counted in HC. destruct bs; [by right|]. cbn [length] in HC. lia.
    + refine (unhelped_put _ _ _ _ _ _ _ _ _ _ _ HI HQ _). fields. rewrite <- Hlq. exists true, false. split; [apply at_asleep; [done|lia]|]. done.
  - done.
  - done.
Qed.

Lemma unhelped_step s l : unhelped_inv s → unhelped_ok (sched_step run_on l s).
Proof.
  intros HI. destruct l as [i w|i]; cbn [sched_step].
  - destruct (Nat.lt_trichotomy i c) as [Hi|[->|Hi]].
    + destruct (tp_threads s !! i) as [t|] eqn:Et; [by apply (unhelped_pool s i w t)|]. unfold step_thread. by rewrite Et.
    + by apply unhelped_turn.
    + unfold step_thread. destruct (tp_threads s !! i) as [t|] eqn:Et; [|done]. by destruct (unhelped_last s HI i t Hi Et).
  - unfold wakeup. destruct (tp_threads s !! i) as [t|] eqn:Et; [|done]. destruct (Nat.lt_trichotomy i c) as [Hi|[->|Hi]].
    + destruct (unhelped_workers s HI i t Hi Et) as [E|E]; rewrite E; [done|]. apply unhelped_worker; auto.
    + destruct (unhelped_caller s HI) as (t' & Et' & aw & ao & HA & HL' & HW & HM). rewrite Et in Et'. injection Et' as <-.
      destruct t as [pc prog dp leaf]; cbn [t_pc t_prog t_depth t_leaf] in *. pose proof (unhelped_queue s HI) as HQ.
      destruct s as [q act mx run ws ts m]. cbn [tp_queue tp_waiters tp_mem] in HW, HM, HA, HQ.
      remember (length q) as lq eqn:Hlq. destruct HA; try done. cbn [unhelped_ok].
      refine (unhelped_put _ _ _ _ _ _ _ _ _ _ _ HI HQ _). fields. rewrite <- Hlq. exists true, false. split; [by apply at_check|done].
    + by destruct (unhelped_last s HI i t Hi Et).
Qed.

Lemma unhelped_start : unhelped_inv (leaving max n (Ret <$> bs) d).
Proof.
  split; cbn [leaving threadpool tp_queue tp_running tp_waiters tp_threads tp_mem]; [by left|done| | |].
  - intros i t Hi. rewrite lookup_app_l by (rewrite length_replicate; exact Hi). intros E%lookup_replicate. left. by destruct E as [-> _].
  - exists (caller (leaver 0 n (Ret <$> bs)) d). split; [|exists false, false; split; [constructor|done]].
    rewrite lookup_app_r; rewrite length_replicate; fold c; [by rewrite Nat.sub_diag|lia].
  - intros i t Hi E. apply lookup_lt_Some in E. rewrite length_app, length_replicate in E. cbn in E. lia.
Qed.

Lemma unhelped_safe ls : unhelped_ok (execute run_on ls (leaving max n (Ret <$> bs) d)).
Proof.
  generalize unhelped_start. generalize (leaving max n (Ret <$> bs) d).
  induction ls as [|l ls IH]; intros s HI; [done|]. cbn [execute].
  pose proof (unhelped_step s l HI). destruct (sched_step run_on l s); [done|by apply IH|done].
Qed.

(** A task that leaves returns. *)
Lemma nested_returns s : 0 < d → unhelped_inv s → step_thread run_on c 0 s = Blocked → has_returned c s = true.
Proof.
  intros Hd HI. destruct (unhelped_caller s HI) as (t & Et & aw & ao & HA & HL' & HW & HM).
  unfold step_thread, has_returned. rewrite Et. destruct t as [pc prog dp leaf]; cbn [t_pc t_prog t_depth t_leaf] in *.
  destruct HA as [| |i l q' Hl HC|i b l q' Hl HC|q' HC|q' HC|q' HC Hq|_]; try done.
  - destruct l as [|b l]; cbn [fmap list_fmap submits app finish act].
    + unfold run_task. by destruct (run_on _ _).
    + unfold submit. cbn [t_leaf]. rewrite HL'. destruct (run_here _ _ _); [done|]. by destruct (inc _ _).
  - unfold run_task. by destruct (run_on _ _).
  - unfold check_num. destruct (tp_waiters s !! 0%nat) as [num|]; [by destruct (num =? 0)|done].
  - unfold counted in HC. lia.
Qed.

(** With no thread in the pool, a caller with tasks never does. *)
Lemma alone_sleeps s : d ≤ 0 → bs ≠ [] → unhelped_inv s → has_returned c s = false.
Proof.
  intros Hd Hbs HI. destruct (unhelped_caller s HI) as (t & Et & aw & ao & HA & _). unfold has_returned. rewrite Et.
  destruct HA as [| |i l q' Hl HC| | | | |[H|H]]; try done; [by destruct l|lia].
Qed.
End unhelped.
