(* ===== verification/IntUtil.v ===== *)
(** * Wide arithmetic: [common/int-util.h]

    Products of 128 bits, long division by 32 bits, rotations and byte swaps, on
    machine words that wrap around; with the theorem that they compute what
    they are named after. *)

From S2P Require Export Interfaces.

#[local] Open Scope Z_scope.

Definition u64 (x : Z) : Prop := 0 ≤ x < 2 ^ 64.
Definition u32 (x : Z) : Prop := 0 ≤ x < 2 ^ 32.

(** ** Rotations *)

Definition rol32 (x r : Z) : Z :=
  Z.lor (uwrap 32 (Z.shiftl x (Z.land r 31))) (Z.shiftr x (Z.land (- r) 31)).

Definition rol64 (x r : Z) : Z :=
  Z.lor (uwrap 64 (Z.shiftl x (Z.land r 63))) (Z.shiftr x (Z.land (- r) 63)).

(** ** Products and quotients *)

Definition hi_dword (val : Z) : Z := Z.shiftr val 32.
Definition lo_dword (val : Z) : Z := Z.land val 0xFFFFFFFF.

Section arith.
Context `{Build}.

(** The product and [*product_hi]. *)
Definition mul128 (multiplier multiplicand : Z) : option (Z * Z) :=
  let a := hi_dword multiplier in
  let b := lo_dword multiplier in
  let c := hi_dword multiplicand in
  let d := lo_dword multiplicand in
  let ac := uwrap 64 (a * c) in
  let ad := uwrap 64 (a * d) in
  let bc := uwrap 64 (b * c) in
  let bd := uwrap 64 (b * d) in
  let adbc := uwrap 64 (ad + bc) in
  let adbc_carry := if adbc <? ad then 1 else 0 in
  let product_lo := uwrap 64 (bd + uwrap 64 (Z.shiftl adbc 32)) in
  let product_lo_carry := if product_lo <? bd then 1 else 0 in
  let product_hi :=
    uwrap 64 (ac + Z.shiftr adbc 32 + uwrap 64 (Z.shiftl adbc_carry 32) + product_lo_carry) in
  _ ← assert_ (ac <=? product_hi);
  Some (product_lo, product_hi).

(** The quotient and [*remainder]; division by zero is undefined. *)
Definition div_with_reminder (dividend divisor remainder : Z) : option (Z * Z) :=
  let dividend := Z.lor dividend (uwrap 64 (Z.shiftl remainder 32)) in
  if divisor =? 0 then None else
  Some (dividend / divisor, uwrap 32 (dividend mod divisor)).

(** The remainder, [*quotient_hi] and [*quotient_lo]. *)
Definition div128_32 (dividend_hi dividend_lo divisor : Z) : option (Z * Z * Z) :=
  let dwords3 := hi_dword dividend_hi in
  let dwords2 := lo_dword dividend_hi in
  let dwords1 := hi_dword dividend_lo in
  let dwords0 := lo_dword dividend_lo in
  '(q3, remainder) ← div_with_reminder dwords3 divisor 0;
  '(q2, remainder) ← div_with_reminder dwords2 divisor remainder;
  '(q1, remainder) ← div_with_reminder dwords1 divisor remainder;
  '(q0, remainder) ← div_with_reminder dwords0 divisor remainder;
  Some (remainder, Z.lor (uwrap 64 (Z.shiftl q3 32)) q2, Z.lor (uwrap 64 (Z.shiftl q1 32)) q0).

End arith.

(** ** Byte order *)

Definition swap32 (x : Z) : Z :=
  let x := Z.lor (uwrap 32 (Z.shiftl (Z.land x 0x00ff00ff) 8)) (Z.shiftr (Z.land x 0xff00ff00) 8) in
  Z.lor (uwrap 32 (Z.shiftl x 16)) (Z.shiftr x 16).

Definition swap64 (x : Z) : Z :=
  let x := Z.lor (uwrap 64 (Z.shiftl (Z.land x 0x00ff00ff00ff00ff) 8))
                 (Z.shiftr (Z.land x 0xff00ff00ff00ff00) 8) in
  let x := Z.lor (uwrap 64 (Z.shiftl (Z.land x 0x0000ffff0000ffff) 16))
                 (Z.shiftr (Z.land x 0xffff0000ffff0000) 16) in
  Z.lor (uwrap 64 (Z.shiftl x 32)) (Z.shiftr x 32).

(** The macro [SWAP64], which [SWAP64BE] is on a little-endian machine. *)
Definition SWAP64 (x : Z) : Z :=
  let t0 := uwrap 64 (Z.shiftl (Z.land x 0x00000000000000ff) 56) in
  let t1 := uwrap 64 (Z.shiftl (Z.land x 0x000000000000ff00) 40) in
  let t2 := uwrap 64 (Z.shiftl (Z.land x 0x0000000000ff0000) 24) in
  let t3 := uwrap 64 (Z.shiftl (Z.land x 0x00000000ff000000) 8) in
  let t4 := Z.shiftr (Z.land x 0x000000ff00000000) 8 in
  let t5 := Z.shiftr (Z.land x 0x0000ff0000000000) 24 in
  let t6 := Z.shiftr (Z.land x 0x00ff000000000000) 40 in
  let t7 := Z.shiftr (Z.land x 0xff00000000000000) 56 in
  Z.lor (Z.lor (Z.lor (Z.lor (Z.lor (Z.lor (Z.lor t0 t1) t2) t3) t4) t5) t6) t7.

(** ** The two halves of a word *)

Lemma hi_dword_ok x : u64 x → hi_dword x = x / 2 ^ 32 ∧ u32 (hi_dword x).
Proof.
  intros Hx. unfold hi_dword, u64, u32 in *. rewrite Z.shiftr_div_pow2 by lia.
  split; [done|]. split; [apply Z.div_pos; lia|apply Z.div_lt_upper_bound; lia].
Qed.

Lemma lo_dword_ok x : lo_dword x = x mod 2 ^ 32 ∧ u32 (lo_dword x).
Proof.
  assert (lo_dword x = x mod 2 ^ 32) as E by exact (Z.land_ones x 32 ltac:(lia)).
  split; [exact E|]. unfold u32. rewrite E. apply Z.mod_pos_bound. lia.
Qed.

Lemma dwords x : u64 x → x = hi_dword x * 2 ^ 32 + lo_dword x.
Proof.
  intros Hx. destruct (hi_dword_ok x Hx) as [-> _]. destruct (lo_dword_ok x) as [-> _].
  pose proof (Z.div_mod x (2 ^ 32)). lia.
Qed.

Lemma lor_halves a b : u32 a → 0 ≤ b → Z.lor a (Z.shiftl b 32) = b * 2 ^ 32 + a.
Proof. intros Ha Hb. unfold u32 in Ha. rewrite lor_shiftl_add by lia. lia. Qed.

(** ** The product *)

Section arith_spec.
Context `{Build}.

Lemma uwrap_id w x : 0 ≤ x < 2 ^ w → uwrap w x = x.
Proof. apply Z.mod_small. Qed.

Lemma mul128_core (a b c d : Z) :
  u32 a → u32 b → u32 c → u32 d →
  let adbc := uwrap 64 (a * d + b * c) in
  let adbc_carry := if adbc <? a * d then 1 else 0 in
  let lo := uwrap 64 (b * d + uwrap 64 (Z.shiftl adbc 32)) in
  let lo_carry := if lo <? b * d then 1 else 0 in
  let hi := a * c + Z.shiftr adbc 32 + adbc_carry * 2 ^ 32 + lo_carry in
  (a * 2 ^ 32 + b) * (c * 2 ^ 32 + d) = hi * 2 ^ 64 + lo ∧ u64 lo ∧ a * c ≤ hi < 2 ^ 64.
Proof.
  intros Ha Hb Hc Hd adbc adbc_carry lo lo_carry hi. unfold u32, u64 in *.
  assert (0 ≤ a * d ≤ (2 ^ 32 - 1) * (2 ^ 32 - 1)) as Had by nia.
  assert (0 ≤ b * c ≤ (2 ^ 32 - 1) * (2 ^ 32 - 1)) as Hbc by nia.
  assert (0 ≤ b * d ≤ (2 ^ 32 - 1) * (2 ^ 32 - 1)) as Hbd by nia.
  assert (adbc + adbc_carry * 2 ^ 64 = a * d + b * c ∧ 0 ≤ adbc < 2 ^ 64 ∧ 0 ≤ adbc_carry) as [E1 R1].
  { unfold adbc_carry, adbc, uwrap. destruct (Z.ltb_spec ((a * d + b * c) mod 2 ^ 64) (a * d)); zlia. }
  assert (adbc = adbc / 2 ^ 32 * 2 ^ 32 + adbc mod 2 ^ 32) as E2
    by (pose proof (Z.div_mod adbc (2 ^ 32)); lia).
  pose proof (Z.mod_pos_bound adbc (2 ^ 32) ltac:(lia)) as R2.
  assert (uwrap 64 (Z.shiftl adbc 32) = adbc mod 2 ^ 32 * 2 ^ 32) as E3.
  { unfold uwrap. rewrite Z.shiftl_mul_pow2 by lia. change (2 ^ 64) with (2 ^ 32 * 2 ^ 32).
    by rewrite Z.mul_mod_distr_r by lia. }
  assert (lo + lo_carry * 2 ^ 64 = b * d + adbc mod 2 ^ 32 * 2 ^ 32 ∧ 0 ≤ lo < 2 ^ 64 ∧ 0 ≤ lo_carry)
    as [E4 R4].
  { unfold lo_carry, lo. rewrite E3. unfold uwrap. set (m := adbc mod 2 ^ 32) in *. clearbody m.
    destruct (Z.ltb_spec ((b * d + m * 2 ^ 32) mod 2 ^ 64) (b * d)); zlia. }
  assert (hi = a * c + adbc / 2 ^ 32 + adbc_carry * 2 ^ 32 + lo_carry) as E5
    by (unfold hi; by rewrite Z.shiftr_div_pow2 by lia).
  assert (0 ≤ adbc / 2 ^ 32) by (apply Z.div_pos; lia).
  assert ((a * 2 ^ 32 + b) * (c * 2 ^ 32 + d) = hi * 2 ^ 64 + lo) as E.
  { rewrite E5. set (q := adbc / 2 ^ 32) in *. clearbody q. set (m := adbc mod 2 ^ 32) in *. clearbody m.
    nia. }
  split; [exact E|]. split; [lia|]. split; [lia|].
  assert ((a * 2 ^ 32 + b) * (c * 2 ^ 32 + d) < 2 ^ 64 * 2 ^ 64); [|nia].
  assert (0 ≤ a * 2 ^ 32 + b < 2 ^ 64) by lia. assert (0 ≤ c * 2 ^ 32 + d < 2 ^ 64) by lia. nia.
Qed.

Lemma mul128_ok x y :
  u64 x → u64 y →
  ∃ lo hi, mul128 x y = Some (lo, hi) ∧ x * y = hi * 2 ^ 64 + lo ∧ u64 lo ∧ u64 hi.
Proof.
  intros Hx Hy.
  destruct (hi_dword_ok x Hx) as [_ Ha]. destruct (lo_dword_ok x) as [_ Hb].
  destruct (hi_dword_ok y Hy) as [_ Hc]. destruct (lo_dword_ok y) as [_ Hd].
  pose proof (dwords x Hx) as Ex. pose proof (dwords y Hy) as Ey. unfold mul128.
  set (a := hi_dword x) in *. set (b := lo_dword x) in *.
  set (c := hi_dword y) in *. set (d := lo_dword y) in *. clearbody a b c d.
  destruct (mul128_core a b c d Ha Hb Hc Hd) as (E & Hlo & Hhi). unfold u32 in *.
  rewrite !(uwrap_id 64 (_ * _)) by nia.
  set (adbc := uwrap 64 (a * d + b * c)) in *.
  set (k := if adbc <? a * d then 1 else 0) in *.
  set (lo := uwrap 64 (b * d + uwrap 64 (Z.shiftl adbc 32))) in *.
  set (l := if lo <? b * d then 1 else 0) in *.
  assert (uwrap 64 (Z.shiftl k 32) = k * 2 ^ 32) as ->
    by (unfold k; by destruct (adbc <? a * d)).
  rewrite (uwrap_id 64 (_ + _)) by nia.
  exists lo, (a * c + Z.shiftr adbc 32 + k * 2 ^ 32 + l).
  rewrite assert_true by (apply Z.leb_le; lia).
  split; [done|]. rewrite Ex, Ey. split; [exact E|]. split; [exact Hlo|]. unfold u64. nia.
Qed.

(** ** The quotient *)

Lemma div_with_reminder_ok n d r :
  u32 n → u32 d → 0 ≤ r < d →
  ∃ q r', div_with_reminder n d r = Some (q, r')
    ∧ r * 2 ^ 32 + n = q * d + r' ∧ 0 ≤ r' < d ∧ u32 q.
Proof.
  intros Hn Hd Hr. unfold div_with_reminder, u32 in *.
  rewrite (uwrap_id 64) by (rewrite Z.shiftl_mul_pow2 by lia; lia).
  rewrite lor_halves by (unfold u32; lia).
  rewrite (proj2 (Z.eqb_neq d 0)) by lia.
  set (m := r * 2 ^ 32 + n). pose proof (Z.div_mod m d ltac:(lia)) as E.
  pose proof (Z.mod_pos_bound m d ltac:(lia)) as Hm.
  exists (m / d), (m mod d). rewrite uwrap_id by lia.
  split; [done|]. split; [lia|]. split; [lia|].
  split; [apply Z.div_pos; unfold m; lia|apply Z.div_lt_upper_bound; unfold m; nia].
Qed.

Lemma join_dwords q r : u32 q → u32 r → Z.lor (uwrap 64 (Z.shiftl q 32)) r = q * 2 ^ 32 + r.
Proof.
  intros Hq Hr. rewrite uwrap_id
    by (unfold u32 in *; rewrite Z.shiftl_mul_pow2 by lia; lia).
  rewrite Z.lor_comm. apply lor_halves; [done|]. unfold u32 in Hq. lia.
Qed.

Lemma div128_32_ok hi lo d :
  u64 hi → u64 lo → u32 d → d ≠ 0 →
  ∃ r qhi qlo, div128_32 hi lo d = Some (r, qhi, qlo)
    ∧ hi * 2 ^ 64 + lo = (qhi * 2 ^ 64 + qlo) * d + r
    ∧ 0 ≤ r < d ∧ u64 qhi ∧ u64 qlo.
Proof.
  intros Hhi Hlo Hd Hd0. assert (0 < d) as Hpos by (unfold u32 in Hd; lia). unfold div128_32.
  destruct (hi_dword_ok hi Hhi) as [_ H3]. destruct (lo_dword_ok hi) as [_ H2].
  destruct (hi_dword_ok lo Hlo) as [_ H1]. destruct (lo_dword_ok lo) as [_ H0].
  pose proof (dwords hi Hhi) as Eh. pose proof (dwords lo Hlo) as El.
  destruct (div_with_reminder_ok _ d 0 H3 Hd ltac:(lia)) as (q3 & r3 & E3 & F3 & R3 & Q3).
  destruct (div_with_reminder_ok _ d r3 H2 Hd R3) as (q2 & r2 & E2 & F2 & R2 & Q2).
  destruct (div_with_reminder_ok _ d r2 H1 Hd R2) as (q1 & r1 & E1 & F1 & R1 & Q1).
  destruct (div_with_reminder_ok _ d r1 H0 Hd R1) as (q0 & r0 & E0 & F0 & R0 & Q0).
  step E3. step E2. step E1. step E0. rewrite !join_dwords by done.
  eexists _, _, _. split; [reflexivity|]. unfold u32, u64 in *.
  split; [rewrite Eh, El; lia|]. lia.
Qed.

End arith_spec.

(** ** Rotations and byte order, bit by bit *)

Lemma uwrap_bits w x i : 0 ≤ i < w → Z.testbit (uwrap w x) i = Z.testbit x i.
Proof. intros Hi. apply Z.mod_pow2_bits_low. lia. Qed.

Lemma high_bits w x i : 0 ≤ x < 2 ^ w → w ≤ i → Z.testbit x i = false.
Proof.
  intros Hx Hi. destruct (decide (w < 0)).
  { rewrite Z.pow_neg_r in Hx by lia. lia. }
  rewrite <- (Z.mod_small x (2 ^ w)) by done. apply Z.mod_pow2_bits_high. lia.
Qed.

Lemma rotate_bits k x r i :
  0 ≤ k → 0 ≤ x < 2 ^ (2 ^ k) → 0 ≤ i < 2 ^ k →
  Z.testbit (Z.lor (uwrap (2 ^ k) (Z.shiftl x (r mod 2 ^ k))) (Z.shiftr x ((- r) mod 2 ^ k))) i
  = Z.testbit x ((i - r) mod 2 ^ k).
Proof.
  intros Hk Hx Hi. set (w := 2 ^ k) in *. assert (0 < w) as Hw by lia.
  rewrite Z.lor_spec, uwrap_bits, Z.shiftl_spec, Z.shiftr_spec by lia.
  assert ((i - r) mod w = (i - r mod w) mod w) as ->
    by (by rewrite Zminus_mod_idemp_r).
  assert ((- r) mod w = (- (r mod w)) mod w) as -> by (by rewrite <- (Z.sub_0_l r), <- (Z.sub_0_l (r mod w)), Zminus_mod_idemp_r).
  pose proof (Z.mod_pos_bound r w Hw) as Hs. set (s := r mod w) in *. clearbody s.
  destruct (decide (s = 0)) as [->|Hs0].
  { rewrite Z.sub_0_r, Z.opp_0, Z.mod_0_l, Z.add_0_r, Z.mod_small by lia. apply orb_diag. }
  assert ((- s) mod w = w - s) as -> by (symmetry; apply (Z.mod_unique_pos _ _ (-1)); lia).
  destruct (decide (s ≤ i)).
  - rewrite (Z.mod_small (i - s)) by lia. rewrite (high_bits w x (i + _)) by lia. apply orb_false_r.
  - assert ((i - s) mod w = i + (w - s)) as -> by (symmetry; apply (Z.mod_unique_pos _ _ (-1)); lia).
    by rewrite (Z.testbit_neg_r x) by lia.
Qed.

Lemma rol64_ok x r i :
  u64 x → 0 ≤ i < 64 → Z.testbit (rol64 x r) i = Z.testbit x ((i - r) mod 64).
Proof.
  intros Hx Hi. unfold rol64. change 63 with (Z.ones 6). rewrite !Z.land_ones by lia.
  by apply (rotate_bits 6).
Qed.

Lemma rol32_ok x r i :
  u32 x → 0 ≤ i < 32 → Z.testbit (rol32 x r) i = Z.testbit x ((i - r) mod 32).
Proof.
  intros Hx Hi. unfold rol32. change 31 with (Z.ones 5). rewrite !Z.land_ones by lia.
  by apply (rotate_bits 5).
Qed.

(** ** The byte swap *)

Definition octet (x : Z) (i : Z) : Z := (x / 2 ^ (8 * i)) mod 256.

Lemma octet_bound x i : 0 ≤ octet x i < 256.
Proof. apply Z.mod_pos_bound. lia. Qed.

(** A mask of one byte. *)
Lemma land_byte x i : 0 ≤ i → Z.land x (255 * 2 ^ (8 * i)) = octet x i * 2 ^ (8 * i).
Proof.
  intros Hi. apply Z.bits_inj'. intros n Hn. rewrite Z.land_spec, !Z.mul_pow2_bits by lia.
  destruct (Z.lt_ge_cases (n - 8 * i) 0).
  { rewrite !(Z.testbit_neg_r _ (n - 8 * i)) by lia. apply andb_false_r. }
  unfold octet. change 256 with (2 ^ 8). change 255 with (Z.ones 8).
  destruct (Z.lt_ge_cases (n - 8 * i) 8).
  - rewrite Z.ones_spec_low, Z.mod_pow2_bits_low, Z.div_pow2_bits, andb_true_r by lia. f_equal. lia.
  - by rewrite Z.ones_spec_high, Z.mod_pow2_bits_high, andb_false_r by lia.
Qed.

Lemma lor_byte a b k :
  0 ≤ k → 0 ≤ b < 256 → Z.lor (a * 2 ^ (k + 8)) (b * 2 ^ k) = (a * 256 + b) * 2 ^ k.
Proof.
  intros Hk Hb. replace (a * 2 ^ (k + 8)) with (Z.shiftl (Z.shiftl a 8) k)
    by (rewrite !Z.shiftl_mul_pow2, Z.pow_add_r by lia; lia).
  rewrite <- (Z.shiftl_mul_pow2 b k), <- Z.shiftl_lor, (Z.shiftl_mul_pow2 (Z.lor _ _)) by lia. f_equal.
  rewrite Z.lor_comm, lor_shiftl_add; lia.
Qed.

(** A byte moved up, and a byte moved down. *)
Lemma byte_up x i s :
  0 ≤ i → 0 ≤ s → 8 * i + s ≤ 56 →
  uwrap 64 (Z.shiftl (octet x i * 2 ^ (8 * i)) s) = octet x i * 2 ^ (8 * i + s).
Proof.
  intros Hi Hs Hb. rewrite Z.shiftl_mul_pow2, <- Z.mul_assoc, <- Z.pow_add_r by lia.
  apply uwrap_id. pose proof (octet_bound x i).
  assert (0 < 2 ^ (8 * i + s) ≤ 2 ^ 56) by (split; [lia|apply Z.pow_le_mono_r; lia]). nia.
Qed.

Lemma byte_down x i s :
  0 ≤ s ≤ 8 * i → Z.shiftr (octet x i * 2 ^ (8 * i)) s = octet x i * 2 ^ (8 * i - s).
Proof.
  intros Hs. rewrite Z.shiftr_div_pow2 by lia.
  replace (2 ^ (8 * i)) with (2 ^ (8 * i - s) * 2 ^ s) by (rewrite <- Z.pow_add_r by lia; f_equal; lia).
  rewrite Z.mul_assoc. apply Z.div_mul. lia.
Qed.

(** The bytes in the opposite order. *)
Lemma SWAP64_ok x : le_split 8 (SWAP64 x) = reverse (le_split 8 x).
Proof.
  assert (SWAP64 x = le_combine [octet x 7; octet x 6; octet x 5; octet x 4;
    octet x 3; octet x 2; octet x 1; octet x 0]) as ->.
  { unfold SWAP64.
    change 0x00000000000000ff with (255 * 2 ^ (8 * 0)).
    change 0x000000000000ff00 with (255 * 2 ^ (8 * 1)).
    change 0x0000000000ff0000 with (255 * 2 ^ (8 * 2)).
    change 0x00000000ff000000 with (255 * 2 ^ (8 * 3)).
    change 0x000000ff00000000 with (255 * 2 ^ (8 * 4)).
    change 0x0000ff0000000000 with (255 * 2 ^ (8 * 5)).
    change 0x00ff000000000000 with (255 * 2 ^ (8 * 6)).
    change 0xff00000000000000 with (255 * 2 ^ (8 * 7)).
    rewrite !land_byte by lia.
    rewrite !byte_up, !byte_down by lia.
    rewrite (lor_byte _ _ 48), (lor_byte _ _ 40), (lor_byte _ _ 32), (lor_byte _ _ 24),
      (lor_byte _ _ 16), (lor_byte _ _ 8), (lor_byte _ _ 0) by (apply octet_bound || lia).
    cbn [le_combine]. lia. }
  match goal with |- le_split 8 (le_combine ?l) = _ => change 8%nat with (length l) at 1 end.
  rewrite le_split_combine by (repeat constructor; apply octet_bound).
  unfold octet. cbn [le_split]. rewrite !Z.div_div by lia.
  rewrite (Z.div_1_r x : x / 2 ^ (8 * 0) = x). reflexivity.
Qed.

(** [mul128] returns the exact 128-bit product of two 64-bit numbers and
    [div128_32] the exact quotient and remainder of a 128-bit number by a
    non-zero 32-bit number, in both builds: the assertion of [mul128] holds,
    although every intermediate sum is modulo 2^64. *)
Theorem wide_arith_spec (build : Build) (x y d : Z) (Hx : u64 x) (Hy : u64 y) (Hd : u32 d) (Hd0 : d ≠ 0) :
  (∃ lo hi, mul128 x y = Some (lo, hi) ∧ x * y = hi * 2 ^ 64 + lo ∧ u64 lo ∧ u64 hi)
  ∧ (∃ r qhi qlo, div128_32 x y d = Some (r, qhi, qlo)
      ∧ x * 2 ^ 64 + y = (qhi * 2 ^ 64 + qlo) * d + r ∧ 0 ≤ r < d ∧ u64 qhi ∧ u64 qlo).
Proof. split; [by apply mul128_ok|by apply div128_32_ok]. Qed.

Lemma wide_arith_spec_witness :
  ∃ lo hi, @mul128 false (2 ^ 64 - 1) (2 ^ 64 - 1) = Some (lo, hi)
    ∧ (2 ^ 64 - 1) * (2 ^ 64 - 1) = hi * 2 ^ 64 + lo ∧ u64 lo ∧ u64 hi.
Proof.
  refine (proj1 (wide_arith_spec false (2 ^ 64 - 1) (2 ^ 64 - 1) (2 ^ 32 - 1) _ _ _ _));
    unfold u64, u32; lia.
Defined.
