(* ===== verification/Difficulty.v ===== *)
(** * Proof of work: [cryptonote_basic/difficulty.cpp]

    The test of a hash against a difficulty, on 64-bit words with explicit
    carries, and the difficulty of the next block computed in integers.  A hash
    passes exactly if its product with the difficulty fits in 256 bits. *)

From S2P Require Export IntUtil.

#[local] Open Scope Z_scope.

(** The compiler defines [__x86_64__] or it does not: [mul] has two bodies. *)
Class Arch := x86_64 : bool.

Definition mul_portable (a b : Z) : Z * Z :=
  let aLow := Z.land a 0xFFFFFFFF in
  let aHigh := Z.shiftr a 32 in
  let bLow := Z.land b 0xFFFFFFFF in
  let bHigh := Z.shiftr b 32 in
  let res := uwrap 64 (aLow * bLow) in
  let lowRes1 := Z.land res 0xFFFFFFFF in
  let carry := Z.shiftr res 32 in
  let res := uwrap 64 (aHigh * bLow + carry) in
  let highResHigh1 := Z.shiftr res 32 in
  let highResLow1 := Z.land res 0xFFFFFFFF in
  let res := uwrap 64 (aLow * bHigh) in
  let lowRes2 := Z.land res 0xFFFFFFFF in
  let carry := Z.shiftr res 32 in
  let res := uwrap 64 (aHigh * bHigh + carry) in
  let highResHigh2 := Z.shiftr res 32 in
  let highResLow2 := Z.land res 0xFFFFFFFF in
  let r := uwrap 64 (highResLow1 + lowRes2) in
  let carry := Z.shiftr r 32 in
  let low := Z.lor (uwrap 64 (Z.shiftl r 32)) lowRes1 in
  let r := uwrap 64 (highResHigh1 + highResLow2 + carry) in
  let d3 := Z.land r 0xFFFFFFFF in
  let carry := Z.shiftr r 32 in
  let r := uwrap 64 (highResHigh2 + carry) in
  let high := Z.lor d3 (uwrap 64 (Z.shiftl r 32)) in
  (low, high).

Definition cadd (a b : Z) : bool := uwrap 64 (a + b) <? a.

Definition cadc (a b : Z) (c : bool) : bool :=
  (uwrap 64 (a + b) <? a) || (c && (uwrap 64 (a + b) =? uwrap 64 (-1))).

(** The hash read as an array of 64-bit words; [swap64le] is the identity on this machine. *)
Definition hash_word (hash : list Z) (i : nat) : Z := le_combine (take 8 (drop (8 * i) hash)).

Section code.
Context `{Build} `{Arch}.

Definition mul (a b : Z) : option (Z * Z) :=
  if x86_64 then mul128 a b else Some (mul_portable a b).

Definition check_hash (hash : list Z) (difficulty : Z) : option bool :=
  '(top, high) ← mul (hash_word hash 3) difficulty;
  if negb (high =? 0) then Some false else
  '(low, cur) ← mul (hash_word hash 0) difficulty;
  '(low, high) ← mul (hash_word hash 1) difficulty;
  let carry := cadd cur low in
  let cur := high in
  '(low, high) ← mul (hash_word hash 2) difficulty;
  let carry := cadc cur low carry in
  let carry := cadc high top carry in
  Some (negb carry).

End code.

(** ** The product, on either machine *)

Lemma land_low x : Z.land x 0xFFFFFFFF = x mod 2 ^ 32.
Proof. exact (Z.land_ones x 32 ltac:(lia)). Qed.

Lemma split32 x : u64 x → u32 (x / 2 ^ 32) ∧ u32 (x mod 2 ^ 32) ∧ x = x / 2 ^ 32 * 2 ^ 32 + x mod 2 ^ 32.
Proof. intros Hx. unfold u32, u64 in *. zlia. Qed.

Lemma mod_u32 x : u32 (x mod 2 ^ 32).
Proof. unfold u32. zlia. Qed.

(** The high half of the shifted word is lost. *)
Lemma shift_join x r : u32 r → Z.lor (uwrap 64 (Z.shiftl x 32)) r = x mod 2 ^ 32 * 2 ^ 32 + r.
Proof.
  intros Hr. rewrite <- join_dwords by (apply mod_u32 || done). f_equal.
  unfold uwrap. rewrite !Z.shiftl_mul_pow2 by lia. change (2 ^ 64) with (2 ^ 32 * 2 ^ 32).
  by rewrite !Z.mul_mod_distr_r, Z.mod_mod by lia.
Qed.

Lemma join_u64 q r : u32 q → u32 r → u64 (q * 2 ^ 32 + r).
Proof. unfold u32, u64. lia. Qed.

Lemma mul_portable_core a b c d :
  u32 a → u32 b → u32 c → u32 d →
  let bd := b * d in
  let ad := a * d + bd / 2 ^ 32 in
  let bc := b * c in
  let ac := a * c + bc / 2 ^ 32 in
  let r := ad mod 2 ^ 32 + bc mod 2 ^ 32 in
  let r' := ad / 2 ^ 32 + ac mod 2 ^ 32 + r / 2 ^ 32 in
  let r'' := ac / 2 ^ 32 + r' / 2 ^ 32 in
  (a * 2 ^ 32 + b) * (c * 2 ^ 32 + d) =
    (r'' * 2 ^ 32 + r' mod 2 ^ 32) * 2 ^ 64 + (r mod 2 ^ 32 * 2 ^ 32 + bd mod 2 ^ 32)
  ∧ u64 bd ∧ u64 ad ∧ u64 bc ∧ u64 ac ∧ u64 r ∧ u64 r' ∧ u32 r''.
Proof.
  intros Ha Hb Hc Hd bd ad bc ac r r' r''.
  assert (∀ x y, u32 x → u32 y → 0 ≤ x * y ≤ (2 ^ 32 - 1) * (2 ^ 32 - 1)) as Hm
    by (unfold u32; intros; nia).
  pose proof (Hm b d Hb Hd). pose proof (Hm a d Ha Hd).
  pose proof (Hm b c Hb Hc). pose proof (Hm a c Ha Hc).
  assert (u64 bd) as Hbd by (unfold u64, bd; lia). destruct (split32 bd Hbd) as (?&?&Ebd).
  assert (u64 ad) as Had by (unfold u64, u32, ad in *; lia). destruct (split32 ad Had) as (?&?&Ead).
  assert (u64 bc) as Hbc by (unfold u64, bc; lia). destruct (split32 bc Hbc) as (?&?&Ebc).
  assert (u64 ac) as Hac by (unfold u64, u32, ac in *; lia). destruct (split32 ac Hac) as (?&?&Eac).
  assert (u64 r) as Hr by (unfold u64, u32, r in *; lia). destruct (split32 r Hr) as (?&?&Er).
  assert (u64 r') as Hr' by (unfold u64, u32, r' in *; lia). destruct (split32 r' Hr') as (?&?&Er').
  assert ((a * 2 ^ 32 + b) * (c * 2 ^ 32 + d) =
    (r'' * 2 ^ 32 + r' mod 2 ^ 32) * 2 ^ 64 + (r mod 2 ^ 32 * 2 ^ 32 + bd mod 2 ^ 32)) as E
    by (unfold r'' in *; lia).
  split; [exact E|]. do 6 (split; [assumption|]). unfold u32 in *. split; [unfold r''; lia|].
  assert ((a * 2 ^ 32 + b) * (c * 2 ^ 32 + d) < 2 ^ 64 * 2 ^ 64); [|lia].
  apply Z.mul_lt_mono_nonneg; lia.
Qed.

Lemma mul_portable_ok x y :
  u64 x → u64 y → ∃ lo hi, mul_portable x y = (lo, hi) ∧ x * y = hi * 2 ^ 64 + lo ∧ u64 lo ∧ u64 hi.
Proof.
  intros Hx Hy. destruct (split32 x Hx) as (Ha & Hb & Ex). destruct (split32 y Hy) as (Hc & Hd & Ey).
  unfold mul_portable. rewrite !land_low, !Z.shiftr_div_pow2 by lia.
  set (a := x / 2 ^ 32) in *. set (b := x mod 2 ^ 32) in *.
  set (c := y / 2 ^ 32) in *. set (d := y mod 2 ^ 32) in *. clearbody a b c d.
  destruct (mul_portable_core a b c d Ha Hb Hc Hd) as (E & Hbd & Had & Hbc & Hac & Hr & Hr' & Hr'').
  cbv zeta.
  rewrite (uwrap_id 64 _ Hbd), (uwrap_id 64 _ Had), (uwrap_id 64 _ Hbc), (uwrap_id 64 _ Hac),
    (uwrap_id 64 _ Hr), (uwrap_id 64 _ Hr').
  rewrite (uwrap_id 64 (_ / _ + _)) by (unfold u32 in Hr''; lia).
  rewrite (Z.lor_comm (_ mod 2 ^ 32)), (join_dwords (_ / _ + _)) by (try apply mod_u32; done).
  rewrite shift_join by apply mod_u32.
  eexists _, _. split; [reflexivity|]. rewrite Ex, Ey. split; [exact E|].
  split; apply join_u64; try apply mod_u32; done.
Qed.

Lemma mul_ok `{Build} `{Arch} x y :
  u64 x → u64 y → ∃ lo hi, mul x y = Some (lo, hi) ∧ x * y = hi * 2 ^ 64 + lo ∧ u64 lo ∧ u64 hi.
Proof.
  intros Hx Hy. unfold mul. destruct x86_64; [by apply mul128_ok|].
  destruct (mul_portable_ok x y Hx Hy) as (lo & hi & -> & E). by exists lo, hi.
Qed.

(** ** The carries and the test *)

Lemma cadd_ok a b : u64 a → u64 b → cadd a b = (2 ^ 64 <=? a + b).
Proof.
  intros Ha Hb. unfold cadd, uwrap, u64 in *. apply eq_bool_prop_intro.
  rewrite !Is_true_true, Z.ltb_lt, Z.leb_le. zlia.
Qed.

Lemma cadc_ok a b c : u64 a → u64 b → cadc a b c = (2 ^ 64 <=? a + b + Z.b2z c).
Proof.
  intros Ha Hb. unfold cadc, uwrap, u64 in *. apply eq_bool_prop_intro.
  change ((-1) mod 2 ^ 64) with (2 ^ 64 - 1).
  rewrite !Is_true_true, orb_true_iff, andb_true_iff, Z.ltb_lt, Z.eqb_eq, Z.leb_le.
  destruct c; cbn [Z.b2z]; zlia.
Qed.

Lemma hash_words hash :
  bytes32 hash →
  le_combine hash = hash_word hash 0 + 2 ^ 64 * hash_word hash 1
    + 2 ^ 128 * hash_word hash 2 + 2 ^ 192 * hash_word hash 3
  ∧ ∀ i, (i < 4)%nat → u64 (hash_word hash i).
Proof.
  intros [Hl Hb]. split.
  - pose proof (le_combine_bound hash Hb) as B. rewrite Hl in B. unfold hash_word.
    rewrite !le_combine_sub by (done || lia). cbn [Nat.mul Nat.add].
    change (256 ^ Z.of_nat 0) with 1. change (256 ^ Z.of_nat 8) with (2 ^ 64).
    change (256 ^ Z.of_nat 16) with (2 ^ 128). change (256 ^ Z.of_nat 24) with (2 ^ 192).
    change (256 ^ Z.of_nat 32) with (2 ^ 256) in B. zlia.
  - intros i Hi. unfold hash_word, u64.
    pose proof (le_combine_bound (take 8 (drop (8 * i) hash))) as B.
    rewrite length_take, length_drop, Hl in B. replace (8 `min` (32 - 8 * i))%nat with 8%nat in B by lia.
    apply B. by apply Forall_take, Forall_drop.
Qed.

Lemma check_hash_ok `{Build} `{Arch} hash difficulty :
  bytes32 hash → u64 difficulty →
  check_hash hash difficulty = Some (le_combine hash * difficulty <? 2 ^ 256).
Proof.
  intros Hh Hd. destruct (hash_words hash Hh) as [E Hw]. rewrite E. clear E. unfold check_hash.
  destruct (mul_ok _ _ (Hw 3%nat ltac:(lia)) Hd) as (l3 & h3 & M3 & E3 & L3 & U3).
  destruct (mul_ok _ _ (Hw 0%nat ltac:(lia)) Hd) as (l0 & h0 & M0 & E0 & L0 & U0).
  destruct (mul_ok _ _ (Hw 1%nat ltac:(lia)) Hd) as (l1 & h1 & M1 & E1 & L1 & U1).
  destruct (mul_ok _ _ (Hw 2%nat ltac:(lia)) Hd) as (l2 & h2 & M2 & E2 & L2 & U2).
  rewrite !Z.mul_add_distr_r, <- !Z.mul_assoc, E0, E1, E2, E3.
  step M3. unfold u64 in *. destruct (Z.eqb_spec h3 0) as [->|Hn]; cbn [negb].
  - step M0. step M1. step M2. rewrite !cadc_ok, cadd_ok by (unfold u64; lia). f_equal.
    apply eq_bool_prop_intro. rewrite !Is_true_true, negb_true_iff, Z.leb_gt, Z.ltb_lt.
    destruct (Z.leb_spec (2 ^ 64) (h0 + l1)); cbn [Z.b2z];
      (destruct (Z.leb_spec (2 ^ 64) (h1 + l2 + 1)) || idtac);
      (destruct (Z.leb_spec (2 ^ 64) (h1 + l2 + 0)) || idtac); cbn [Z.b2z]; lia.
  - f_equal. symmetry. apply Z.ltb_ge. lia.
Qed.

(** C31. A hash passes for a difficulty exactly if the product of the two, read
    as little-endian numbers, is below 2^256: with the product of
    [int-util.h] as with the portable one, and no assertion fails. *)
Theorem check_hash_spec (build : Build) (arch : Arch) (hash : list Z) (difficulty : Z)
    (Hh : bytes32 hash) (Hd : u64 difficulty) :
  check_hash hash difficulty = Some (le_combine hash * difficulty <? 2 ^ 256).
Proof. by apply check_hash_ok. Qed.

(** The largest hash that passes for the difficulty 3, and the next one. *)
Lemma check_hash_spec_witness :
  @check_hash false true (le_split 32 (2 ^ 256 / 3)) 3 = Some true
  ∧ @check_hash false false (le_split 32 (2 ^ 256 / 3 + 1)) 3 = Some false.
Proof.
  split.
  - refine (eq_trans (check_hash_spec false true (le_split 32 (2 ^ 256 / 3)) 3 _ _) _).
    + split; [reflexivity|]. apply bytes_le_split.
    + unfold u64. lia.
    + vm_compute. reflexivity.
  - refine (eq_trans (check_hash_spec false false (le_split 32 (2 ^ 256 / 3 + 1)) 3 _ _) _).
    + split; [reflexivity|]. apply bytes_le_split.
    + unfold u64. lia.
    + vm_compute. reflexivity.
Defined.
