(* ===== verification/NextDifficulty.v ===== *)
(** * The difficulty of the next block, in integers

    [next_difficulty], [next_difficulty_v3] and [next_difficulty_v9] of
    [cryptonote_basic/difficulty.cpp].  The version in [double] is in
    [DifficultyV2]. *)

From S2P Require Export Difficulty.
From stdpp Require Export sorting.

#[local] Open Scope Z_scope.

(** ** Constants of [cryptonote_config.h] *)

Definition DIFFICULTY_TARGET : Z := 60.
Definition DIFFICULTY_WINDOW : nat := 720.
Definition DIFFICULTY_WINDOW_V6_OLD : nat := 360.
Definition DIFFICULTY_WINDOW_V6 : nat := 60.
Definition DIFFICULTY_WINDOW_V9 : nat := 90.
Definition DIFFICULTY_CUT : nat := 60.
Definition CRYPTONOTE_BLOCK_FUTURE_TIME_LIMIT_V6 : Z := 3 * DIFFICULTY_TARGET.

Section code.
Context `{Build} `{Arch}.

(** The part of the sorted window that counts: [cut_begin] and [cut_end]. *)
Definition cut (difficultyWindow length : nat) : nat * nat :=
  let kept := (difficultyWindow - 2 * DIFFICULTY_CUT)%nat in
  if (length <=? kept)%nat then (0, length)%nat else
  let cut_begin := ((length - kept + 1) `div` 2)%nat in
  (cut_begin, (cut_begin + kept)%nat).

Definition next_difficulty (timestamps cumulative_difficulties : list Z)
    (target_seconds version : Z) : option Z :=
  let difficultyWindow := if 6 <=? version then DIFFICULTY_WINDOW_V6_OLD else DIFFICULTY_WINDOW in
  let '(timestamps, cumulative_difficulties) :=
    if (difficultyWindow <? length timestamps)%nat
    then (resize difficultyWindow 0 timestamps, resize difficultyWindow 0 cumulative_difficulties)
    else (timestamps, cumulative_difficulties) in
  let len := length timestamps in
  _ ← assert_ (len =? length cumulative_difficulties)%nat;
  if (len <=? 1)%nat then Some 1 else
  _ ← assert_ (len <=? difficultyWindow)%nat;
  let timestamps := merge_sort Z.le timestamps in
  let '(cut_begin, cut_end) := cut difficultyWindow len in
  _ ← assert_ ((cut_begin + 2 <=? cut_end) && (cut_end <=? len))%nat;
  t1 ← timestamps !! (cut_end - 1)%nat;
  t0 ← timestamps !! cut_begin;
  let time_span := uwrap 64 (t1 - t0) in
  let time_span := if time_span =? 0 then 1 else time_span in
  d1 ← cumulative_difficulties !! (cut_end - 1)%nat;
  d0 ← cumulative_difficulties !! cut_begin;
  let total_work := uwrap 64 (d1 - d0) in
  _ ← assert_ (0 <? total_work);
  '(low, high) ← mul total_work target_seconds;
  if negb (high =? 0) || (uwrap 64 (low + time_span - 1) <? low) then Some 0 else
  Some (uwrap 64 (low + time_span - 1) / time_span).

(** *** LWMA-2, in [int64_t] *)

(** The body of the loop on [i]: [L] and [sum_3_ST]. *)
Definition v3_step (timestamps : list Z) (N : Z) (i : nat) (acc : Z * Z) : option (Z * Z) :=
  let '(L, sum_3_ST) := acc in
  let T := DIFFICULTY_TARGET in
  let FTL := CRYPTONOTE_BLOCK_FUTURE_TIME_LIMIT_V6 in
  ti ← timestamps !! i;
  tp ← timestamps !! (i - 1)%nat;
  d ← chk 64 (swrap 64 ti - swrap 64 tp);
  let ST := Z.max (- FTL) (Z.min d (6 * T)) in
  Li ← chk 64 (ST * Z.of_nat i);
  L ← chk 64 (L + Li);
  if N - 3 <? Z.of_nat i
  then sum_3_ST ← chk 64 (sum_3_ST + ST); Some (L, sum_3_ST)
  else Some (L, sum_3_ST).

Fixpoint v3_loop (timestamps : list Z) (N : Z) (i n : nat) (acc : Z * Z) : option (Z * Z) :=
  match n with
  | O => Some acc
  | S n => acc ← v3_step timestamps N i acc; v3_loop timestamps N (S i) n acc
  end.

(** Signed division: undefined by zero, and when the quotient does not fit. *)
Definition sdiv (x y : Z) : option Z := if y =? 0 then None else chk 64 (Z.quot x y).

Definition next_difficulty_v3 (timestamps cumulative_difficulties : list Z)
    (target_seconds : Z) : option Z :=
  let T := DIFFICULTY_TARGET in
  let N := (DIFFICULTY_WINDOW_V6 - 1)%nat in
  '(L, sum_3_ST) ← v3_loop timestamps (Z.of_nat N) 1 N (0, 0);
  dN ← cumulative_difficulties !! N;
  d0 ← cumulative_difficulties !! 0%nat;
  a ← chk 64 (swrap 64 (uwrap 64 (dN - d0)) * T);
  a ← chk 64 (a * Z.of_nat (N + 1));
  a ← chk 64 (a * 99);
  b ← chk 64 (100 * 2 * L);
  next_D ← sdiv a b;
  dP ← cumulative_difficulties !! (N - 1)%nat;
  let prev_D := swrap 64 (uwrap 64 (dN - dP)) in
  p67 ← chk 64 (prev_D * 67);
  p150 ← chk 64 (prev_D * 150);
  let next_D := Z.max (Z.quot p67 100) (Z.min next_D (Z.quot p150 100)) in
  if sum_3_ST <? Z.quot (8 * T) 10 then
    p110 ← chk 64 (prev_D * 110);
    Some (uwrap 64 (Z.max next_D (Z.quot p110 100)))
  else Some (uwrap 64 next_D).

(** *** LWMA-3, in [uint64_t] *)

(** The body of the loop on [i]: [previous_timestamp], [L] and [sum_3_ST]. *)
Definition v9_step (timestamps : list Z) (N : Z) (i : nat) (acc : Z * Z * Z) : option (Z * Z * Z) :=
  let '(previous_timestamp, L, sum_3_ST) := acc in
  let T := DIFFICULTY_TARGET in
  ti ← timestamps !! i;
  let this_timestamp :=
    if previous_timestamp <? ti then ti else uwrap 64 (previous_timestamp + 1) in
  let ST := Z.min (6 * T) (uwrap 64 (this_timestamp - previous_timestamp)) in
  let L := uwrap 64 (L + uwrap 64 (ST * Z.of_nat i)) in
  let sum_3_ST := if uwrap 64 (N - 3) <? Z.of_nat i then uwrap 64 (sum_3_ST + ST) else sum_3_ST in
  Some (this_timestamp, L, sum_3_ST).

Fixpoint v9_loop (timestamps : list Z) (N : Z) (i n : nat) (acc : Z * Z * Z) : option (Z * Z * Z) :=
  match n with
  | O => Some acc
  | S n => acc ← v9_step timestamps N i acc; v9_loop timestamps N (S i) n acc
  end.

Definition next_difficulty_v9 (timestamps cumulative_difficulties : list Z)
    (target_seconds : Z) : option Z :=
  let T := DIFFICULTY_TARGET in
  let N := DIFFICULTY_WINDOW_V9 in
  let size := length timestamps in
  _ ← assert_ ((size =? length cumulative_difficulties) && (size <=? N + 1))%nat;
  let difficulty_guess := 100 in
  if (size <=? 10)%nat then Some difficulty_guess else
  let N := if (size <? N + 1)%nat then (size - 1)%nat else N in
  t0 ← timestamps !! 0%nat;
  '(_, L, sum_3_ST) ← v9_loop timestamps (Z.of_nat N) 1 N (t0, 0, 0);
  dN ← cumulative_difficulties !! N;
  d0 ← cumulative_difficulties !! 0%nat;
  let divisor := uwrap 64 (100 * 2 * L) in
  if divisor =? 0 then None else
  let next_D := uwrap 64 (uwrap 64 (dN - d0) * T * Z.of_nat (N + 1) * 99) / divisor in
  dP ← cumulative_difficulties !! (N - 1)%nat;
  let prev_D := uwrap 64 (dN - dP) in
  let next_D := Z.max (uwrap 64 (prev_D * 67) / 100) (Z.min next_D (uwrap 64 (prev_D * 150) / 100)) in
  Some (if sum_3_ST <? 8 * T / 10
        then Z.max next_D (uwrap 64 (prev_D * 108) / 100) else next_D).

End code.

(** A chain with a block a minute and a million of work in each. *)
Definition minute_times (n : nat) : list Z := (λ i, 1000000 + 60 * Z.of_nat i) <$> seq 0 n.
Definition million_work (n : nat) : list Z := (λ i, 1000000 * Z.of_nat i) <$> seq 0 n.
