(* ===== verification/DifficultySpec.v ===== *)
(** * What the integer difficulty algorithms compute

    LWMA-3 never divides by zero, is the weighted average of the solve times
    and moves by a bounded factor; the first algorithm is the work of the
    window over its time, rounded up; LWMA-2 divides by zero on a window of
    equal timestamps. *)

From S2P Require Export NextDifficulty.

#[local] Open Scope Z_scope.

(** ** LWMA-3 *)

(** The solve times of a window that starts after [prev]: a timestamp that is
    not later counts as one second later, a long wait as six targets. *)
Fixpoint solve_times (prev : Z) (ts : list Z) : list Z :=
  match ts with
  | [] => []
  | t :: ts =>
    let this := Z.max t (prev + 1) in
    Z.min (6 * DIFFICULTY_TARGET) (this - prev) :: solve_times this ts
  end.

(** The sum with linear weights that start at [i]. *)
Fixpoint weighted (i : Z) (sts : list Z) : Z :=
  match sts with [] => 0 | st :: sts => st * i + weighted (i + 1) sts end.

Definition sum_list (l : list Z) : Z := foldr Z.add 0 l.

(** The sum of the last three. *)
Definition last3 (sts : list Z) : Z := sum_list (drop (length sts - 3) sts).

(** The percentage [p] of [x], rounded down. *)
Definition percent (p x : Z) : Z := x * p / 100.

Definition clamp_percent (lo hi prev x : Z) : Z := Z.max (percent lo prev) (Z.min x (percent hi prev)).

(** The code's view of the same loop, with the wrap-around of [uint64_t]. *)
Fixpoint raw_times (prev : Z) (ts : list Z) : list Z :=
  match ts with
  | [] => []
  | t :: ts =>
    let this := if prev <? t then t else uwrap 64 (prev + 1) in
    Z.min (6 * DIFFICULTY_TARGET) (uwrap 64 (this - prev)) :: raw_times this ts
  end.

Lemma raw_times_length prev ts : length (raw_times prev ts) = length ts.
Proof. revert prev. induction ts as [|t ts IH]; intros prev; cbn; [done|]. by rewrite IH. Qed.

Lemma raw_times_bounds prev ts :
  u64 prev → Forall u64 ts → Forall (λ st, 1 ≤ st ≤ 360) (raw_times prev ts).
Proof.
  intros Hp Hts. revert prev Hp. induction Hts as [|t ts Ht _ IH]; intros prev Hp; [constructor|].
  cbn [raw_times]. unfold DIFFICULTY_TARGET, uwrap, u64 in *. destruct (Z.ltb_spec prev t).
  - constructor; [zlia|]. by apply IH.
  - constructor; [zlia|]. apply IH. zlia.
Qed.

(** Below the wrap-around the code's solve times are the intended ones. *)
Lemma raw_times_ok prev ts :
  0 ≤ prev → prev + Z.of_nat (length ts) < 2 ^ 64 →
  Forall (λ t, 0 ≤ t ∧ t + Z.of_nat (length ts) < 2 ^ 64) ts →
  raw_times prev ts = solve_times prev ts.
Proof.
  revert prev. induction ts as [|t ts IH]; intros prev Hp Hb Hts; [done|].
  cbn [length] in *. apply Forall_cons_1 in Hts as [Ht Hts]. cbn [raw_times solve_times].
  assert ((if prev <? t then t else uwrap 64 (prev + 1)) = Z.max t (prev + 1)) as ->.
  { destruct (Z.ltb_spec prev t); [lia|]. rewrite uwrap_id; lia. }
  rewrite uwrap_id by lia. f_equal. apply IH; [lia..|].
  eapply Forall_impl; [exact Hts|]. cbn. lia.
Qed.

Lemma weighted_bounds i sts :
  0 ≤ i → Forall (λ st, 1 ≤ st ≤ 360) sts →
  Z.of_nat (length sts) * i ≤ weighted i sts
    ≤ 360 * Z.of_nat (length sts) * (i + Z.of_nat (length sts)).
Proof.
  intros Hi Hs. revert i Hi. induction Hs as [|st sts Hst _ IH]; intros i Hi; cbn [weighted length]; [lia|].
  specialize (IH (i + 1) ltac:(lia)). nia.
Qed.

Lemma v9_loop_ok ts N i rest p L s :
  (3 ≤ N ≤ 90) → drop i ts = rest → u64 p → Forall u64 rest →
  Z.of_nat i + Z.of_nat (length rest) = N + 1 → 1 ≤ Z.of_nat i →
  0 ≤ L ≤ 360 * 91 * Z.of_nat i → 0 ≤ s ≤ 360 * Z.of_nat i →
  ∃ p', v9_loop ts N i (length rest) (p, L, s) =
    Some (p', L + weighted (Z.of_nat i) (raw_times p rest),
          s + sum_list (drop (Z.to_nat (N - 2 - Z.of_nat i)) (raw_times p rest))).
Proof.
  intros HN. revert i p L s. induction rest as [|t rest IH]; intros i p L s Hd Hp Hr Hi H1 HL Hs.
  { exists p. cbn. rewrite drop_nil. cbn. by rewrite !Z.add_0_r. }
  cbn [length] in *. apply Forall_cons_1 in Hr as [Ht Hr].
  assert (ts !! i = Some t) as Hlk by (rewrite <- (Nat.add_0_r i), <- lookup_drop, Hd; done).
  assert (drop (S i) ts = rest) as Hd' by (rewrite <- Nat.add_1_r, <- drop_drop, Hd; done).
  pose proof (raw_times_bounds p (t :: rest) Hp ltac:(by constructor)) as Hb.
  cbn [v9_loop raw_times] in *. apply Forall_cons_1 in Hb as [Hst Hb].
  set (this := if p <? t then t else uwrap 64 (p + 1)) in *.
  set (st := Z.min (6 * DIFFICULTY_TARGET) (uwrap 64 (this - p))) in *.
  assert (u64 this) as Hthis
    by (unfold this, u64, uwrap in *; destruct (p <? t); [done|zlia]).
  assert (v9_step ts N i (p, L, s) = Some (this, L + st * Z.of_nat i,
      if N - 3 <? Z.of_nat i then s + st else s)) as E.
  { unfold v9_step. rewrite Hlk. cbn [mbind option_bind]. fold this. fold st.
    rewrite (uwrap_id 64 (N - 3)), (uwrap_id 64 (st * _)), (uwrap_id 64 (L + _)), (uwrap_id 64 (s + _))
      by nia. done. }
  clearbody st this. step E.
  destruct (IH (S i) this (L + st * Z.of_nat i) (if N - 3 <? Z.of_nat i then s + st else s))
    as [p' ->]; [done..|lia|lia|nia|destruct (N - 3 <? Z.of_nat i); lia|].
  exists p'. do 2 f_equal; [f_equal|].
  - cbn [weighted]. rewrite Nat2Z.inj_succ. unfold Z.succ. lia.
  - destruct (Z.ltb_spec (N - 3) (Z.of_nat i)).
    + replace (Z.to_nat (N - 2 - Z.of_nat i)) with 0%nat by lia.
      replace (Z.to_nat (N - 2 - Z.of_nat (S i))) with 0%nat by lia. rewrite !drop_0. unfold sum_list. cbn [foldr]. lia.
    + replace (Z.to_nat (N - 2 - Z.of_nat i)) with (S (Z.to_nat (N - 2 - Z.of_nat (S i)))) by lia. done.
Qed.

(** The difficulty of LWMA-3, on the intended solve times. *)
Definition lwma3 (sts : list Z) (total prev_D : Z) : Z :=
  let N := Z.of_nat (length sts) in
  let next_D := total * DIFFICULTY_TARGET * (N + 1) * 99 / (200 * weighted 1 sts) in
  let next_D := clamp_percent 67 150 prev_D next_D in
  if last3 sts <? 48 then Z.max next_D (percent 108 prev_D) else next_D.

Section v9.
Context `{Build} `{Arch}.

Lemma v9_raw t0 ts cds target dN d0 dP :
  (10 ≤ length ts ≤ 90)%nat → length cds = S (length ts) →
  u64 t0 → Forall u64 ts →
  cds !! length ts = Some dN → cds !! 0%nat = Some d0 → cds !! (length ts - 1)%nat = Some dP →
  let sts := raw_times t0 ts in
  let N := Z.of_nat (length ts) in
  let prev_D := uwrap 64 (dN - dP) in
  let next_D := uwrap 64 (uwrap 64 (dN - d0) * DIFFICULTY_TARGET * (N + 1) * 99)
                / (200 * weighted 1 sts) in
  let next_D := Z.max (uwrap 64 (prev_D * 67) / 100)
                      (Z.min next_D (uwrap 64 (prev_D * 150) / 100)) in
  next_difficulty_v9 (t0 :: ts) cds target =
    Some (if last3 sts <? 48 then Z.max next_D (uwrap 64 (prev_D * 108) / 100) else next_D).
Proof.
  intros Hn Hc Ht0 Hts EN E0 EP sts N prev_D. unfold next_difficulty_v9.
  cbn [length]. rewrite Hc, assert_true
    by (rewrite Nat.eqb_refl, andb_true_l; apply Nat.leb_le; unfold DIFFICULTY_WINDOW_V9; lia).
  cbn [mbind option_bind]. rewrite (proj2 (Nat.leb_gt _ 10)) by lia.
  set (M := if (S (length ts) <? DIFFICULTY_WINDOW_V9 + 1)%nat then _ else _).
  assert (M = length ts) as ->.
  { unfold M, DIFFICULTY_WINDOW_V9. destruct (Nat.ltb_spec (S (length ts)) (90 + 1)); lia. }
  cbn [lookup list_lookup mbind option_bind].
  destruct (v9_loop_ok (t0 :: ts) N 1 ts t0 0 0) as [p' E]; try done; try (unfold N; lia).
  fold N. step E. cbn iota. rewrite EN, E0, EP. cbn [mbind option_bind].
  pose proof (raw_times_bounds t0 ts Ht0 Hts) as Hb. fold sts in Hb |- *.
  assert (length sts = length ts) as Hl by apply raw_times_length.
  pose proof (weighted_bounds 1 sts ltac:(lia) Hb) as HW. rewrite Hl in HW.
  change (Z.of_nat 1) with 1. rewrite !Z.add_0_l.
  rewrite (uwrap_id 64 (100 * 2 * weighted 1 sts)) by nia.
  rewrite (proj2 (Z.eqb_neq _ 0)) by nia.
  replace (Z.of_nat (length ts + 1)) with (N + 1) by (unfold N; lia).
  replace (Z.to_nat (N - 2 - 1)) with (length sts - 3)%nat by (unfold N; lia).
  reflexivity.
Qed.

Lemma v9_total ts cds target :
  length cds = length ts → (length ts ≤ 91)%nat → Forall u64 ts →
  ∃ d, next_difficulty_v9 ts cds target = Some d.
Proof.
  intros Hc Hn Hts. destruct (decide (length ts ≤ 10)%nat) as [Hs|Hs].
  { exists 100. unfold next_difficulty_v9. rewrite Hc, assert_true
      by (rewrite Nat.eqb_refl, andb_true_l; apply Nat.leb_le; unfold DIFFICULTY_WINDOW_V9; lia).
    cbn [mbind option_bind]. by rewrite (proj2 (Nat.leb_le _ 10)) by lia. }
  destruct ts as [|t0 ts]; [cbn in Hs; lia|]. cbn [length] in *.
  apply Forall_cons_1 in Hts as [Ht0 Hts].
  destruct (lookup_lt_is_Some_2 cds (length ts) ltac:(lia)) as [dN EN].
  destruct (lookup_lt_is_Some_2 cds 0%nat ltac:(lia)) as [d0 E0].
  destruct (lookup_lt_is_Some_2 cds (length ts - 1)%nat ltac:(lia)) as [dP EP].
  eexists. by eapply v9_raw; try lia.
Qed.

Lemma percent_mono p q x : 0 ≤ x → 0 ≤ p ≤ q → percent p x ≤ percent q x.
Proof. intros Hx Hp. unfold percent. apply Z.div_le_mono; nia. Qed.

(** The result moves by at most a third down and a half up. *)
Lemma lwma3_bounds sts total prev_D :
  0 ≤ prev_D → percent 67 prev_D ≤ lwma3 sts total prev_D ≤ percent 150 prev_D.
Proof.
  intros Hp. unfold lwma3, clamp_percent.
  pose proof (percent_mono 67 150 prev_D Hp ltac:(lia)).
  pose proof (percent_mono 108 150 prev_D Hp ltac:(lia)).
  destruct (last3 sts <? 48); lia.
Qed.

Lemma v9_ok t0 ts cds target dN d0 dP :
  (10 ≤ length ts ≤ 90)%nat → length cds = S (length ts) →
  Forall (λ t, 0 ≤ t < 2 ^ 63) (t0 :: ts) →
  cds !! length ts = Some dN → cds !! 0%nat = Some d0 → cds !! (length ts - 1)%nat = Some dP →
  d0 ≤ dP ≤ dN → (dN - d0) * DIFFICULTY_TARGET * (Z.of_nat (length ts) + 1) * 99 < 2 ^ 64 →
  next_difficulty_v9 (t0 :: ts) cds target = Some (lwma3 (solve_times t0 ts) (dN - d0) (dN - dP)).
Proof.
  intros Hn Hc Hts EN E0 EP Hd Hw. apply Forall_cons_1 in Hts as [Ht0 Hts].
  assert (raw_times t0 ts = solve_times t0 ts) as Er.
  { apply raw_times_ok; [lia..|]. eapply Forall_impl; [exact Hts|]. cbn. lia. }
  rewrite (v9_raw t0 ts cds target dN d0 dP);
    [|done|done|unfold u64; lia| |done|done|done].
  2:{ eapply Forall_impl; [exact Hts|]. unfold u64. cbn. lia. }
  unfold lwma3. rewrite <- Er, raw_times_length. unfold DIFFICULTY_TARGET in *.
  assert (dN - d0 < 2 ^ 49) by nia.
  rewrite (uwrap_id 64 (dN - d0)), (uwrap_id 64 (dN - dP)), !(uwrap_id 64 (_ * _)) by nia.
  reflexivity.
Qed.

End v9.

(** ** The first algorithm *)

Definition window (version : Z) : nat :=
  if 6 <=? version then DIFFICULTY_WINDOW_V6_OLD else DIFFICULTY_WINDOW.

(** The difference between the last and the first entry of the part that counts. *)
Definition across (w : nat) (l : list Z) : Z :=
  let '(b, e) := cut w (length l) in l !!! (e - 1)%nat - l !!! b.

Definition window_span (w : nat) (timestamps : list Z) : Z :=
  Z.max 1 (across w (merge_sort Z.le (take w timestamps))).

Definition window_work (w : nat) (cumulative_difficulties : list Z) : Z :=
  across w (take w cumulative_difficulties).

Lemma cut_ok w n b e :
  (122 ≤ w)%nat → (2 ≤ n ≤ w)%nat → cut w n = (b, e) → (b + 2 ≤ e ≤ n)%nat.
Proof.
  intros Hw Hn. unfold cut, DIFFICULTY_CUT. destruct (Nat.leb_spec n (w - 2 * 60)) as [Hk|Hk].
  - intros [= <- <-]. lia.
  - intros E. apply pair_equal_spec in E as [<- <-].
    pose proof (Nat.Div0.div_le_upper_bound (n - (w - 2 * 60) + 1) 2 (n - (w - 2 * 60))). lia.
Qed.

Lemma window_ok version : (122 ≤ window version)%nat.
Proof. unfold window. destruct (6 <=? version); vm_compute; lia. Qed.

Lemma resize_window w (l k : list Z) :
  length l = length k →
  (if (w <? length l)%nat then (resize w 0 l, resize w 0 k) else (l, k)) = (take w l, take w k).
Proof.
  intros E. destruct (Nat.ltb_spec w (length l)).
  - by rewrite !resize_le by lia.
  - by rewrite !take_ge by lia.
Qed.

Lemma sorted_lookup (R : Z → Z → Prop) l i j :
  StronglySorted R l → (i < j < length l)%nat → R (l !!! i) (l !!! j).
Proof.
  intros Hs. revert i j. induction Hs as [|x l Hs IH Hx]; intros i j Hij; cbn [length] in *; [lia|].
  destruct j as [|j]; [lia|]. destruct i as [|i]; [|apply (IH i j); lia].
  rewrite Forall_lookup in Hx. change (R x (l !!! j)). apply (Hx j), list_lookup_lookup_total_lt. lia.
Qed.

Lemma sorted_take (R : Z → Z → Prop) n l : StronglySorted R l → StronglySorted R (take n l).
Proof. intros Hs. rewrite <- (take_drop n l) in Hs. by eapply StronglySorted_app_1_l. Qed.

Section v1.
Context `{Build} `{Arch}.

(** The arithmetic at the end, on the four entries. *)
Lemma next_difficulty_tail t0 t1 d0 d1 target :
  u64 t0 → u64 t1 → u64 d0 → u64 d1 → u64 target → t0 ≤ t1 → d0 < d1 →
  let work := d1 - d0 in
  let span := Z.max 1 (t1 - t0) in
  (let time_span := uwrap 64 (t1 - t0) in
   let time_span := if time_span =? 0 then 1 else time_span in
   let total_work := uwrap 64 (d1 - d0) in
   _ ← assert_ (0 <? total_work);
   '(low, high) ← mul total_work target;
   if negb (high =? 0) || (uwrap 64 (low + time_span - 1) <? low) then Some 0 else
   Some (uwrap 64 (low + time_span - 1) / time_span)) =
    Some (if work * target + span - 1 <? 2 ^ 64 then (work * target + span - 1) / span else 0)
  ∧ 0 < work.
Proof.
  intros U0 U1 V0 V1 Ut Lt Ld work span. split; [|unfold work; lia]. cbv zeta. unfold u64 in *.
  rewrite !(uwrap_id 64 (_ - _)) by lia. fold work.
  assert ((if t1 - t0 =? 0 then 1 else t1 - t0) = span) as ->
    by (unfold span; destruct (Z.eqb_spec (t1 - t0) 0); lia).
  rewrite assert_true by (apply Z.ltb_lt; lia). cbn [mbind option_bind].
  destruct (mul_ok work target) as (lo & hi & E & F & Hlo & Hhi); [unfold u64, work; lia..|].
  step E. cbn iota. rewrite F. assert (1 ≤ span < 2 ^ 64) by lia. clearbody span work. unfold u64 in *.
  destruct (Z.eqb_spec hi 0) as [->|Hn]; cbn [negb orb].
  - rewrite Z.mul_0_l, Z.add_0_l. destruct (Z.ltb_spec (lo + span - 1) (2 ^ 64)).
    + rewrite uwrap_id by lia. by rewrite (proj2 (Z.ltb_ge _ _)) by lia.
    + rewrite (proj2 (Z.ltb_lt _ _)); [done|]. unfold uwrap. zlia.
  - by rewrite (proj2 (Z.ltb_ge _ _)) by nia.
Qed.

Lemma next_difficulty_ok timestamps cds target version :
  let w := window version in
  length timestamps = length cds → (2 ≤ length timestamps)%nat →
  Forall u64 timestamps → Forall u64 cds → StronglySorted Z.lt cds → u64 target →
  let work := window_work w cds in
  let span := window_span w timestamps in
  next_difficulty timestamps cds target version =
    Some (if work * target + span - 1 <? 2 ^ 64 then (work * target + span - 1) / span else 0)
  ∧ 0 < work.
Proof.
  intros w El Hn Ht Hc Hs Htg. unfold next_difficulty. fold (window version). fold w.
  rewrite resize_window by done.
  pose proof (window_ok version) as Hw. fold w in Hw. clearbody w.
  pose proof (sorted_take _ w _ Hs) as Hs'. unfold window_work, window_span.
  assert (length (take w timestamps) = length (take w cds)) as El' by (rewrite !length_take; lia).
  assert (2 ≤ length (take w cds) ≤ w)%nat as Hn' by (rewrite length_take; lia).
  apply (Forall_take _ w) in Ht, Hc. clear El Hn Hs.
  set (ts := take w timestamps) in *. set (ds := take w cds) in *. clearbody ts ds.
  set (so := merge_sort Z.le ts).
  assert (so ≡ₚ ts) as Hp by apply merge_sort_Permutation.
  assert (StronglySorted Z.le so) as Hso by (apply StronglySorted_merge_sort; apply _).
  assert (Forall u64 so) as Hu by (by rewrite Hp).
  assert (length so = length ds) as Hlen by (by rewrite Hp).
  unfold across. rewrite El', Hlen. clearbody so.
  rewrite (assert_true (_ =? _)%nat) by apply Nat.eqb_refl. cbn [mbind option_bind].
  rewrite (proj2 (Nat.leb_gt _ 1)) by lia. rewrite (assert_true (_ <=? _)%nat) by (apply Nat.leb_le; lia).
  cbn [mbind option_bind]. destruct (cut w (length ds)) as [b e] eqn:Ecut.
  apply cut_ok in Ecut; [|lia..].
  rewrite assert_true by (rewrite andb_true_iff, !Nat.leb_le; lia). cbn [mbind option_bind].
  rewrite !(list_lookup_lookup_total_lt so), !(list_lookup_lookup_total_lt ds) by lia.
  cbn [mbind option_bind].
  pose proof (sorted_lookup _ so b (e - 1) Hso ltac:(lia)) as Lt.
  pose proof (sorted_lookup _ ds b (e - 1) Hs' ltac:(lia)) as Ld.
  assert (∀ l i, Forall u64 l → (i < length l)%nat → u64 (l !!! i)) as Hget
    by (intros l i Hl Hi; by apply Forall_lookup_total).
  pose proof (Hget so b Hu ltac:(lia)). pose proof (Hget so (e - 1)%nat Hu ltac:(lia)).
  pose proof (Hget ds b Hc ltac:(lia)). pose proof (Hget ds (e - 1)%nat Hc ltac:(lia)).
  by apply next_difficulty_tail.
Qed.

End v1.

(** ** LWMA-2 *)

(** The solve times, signed: between three targets early and six late. *)
Fixpoint signed_times (prev : Z) (ts : list Z) : list Z :=
  match ts with
  | [] => []
  | t :: ts =>
    Z.max (- CRYPTONOTE_BLOCK_FUTURE_TIME_LIMIT_V6) (Z.min (t - prev) (6 * DIFFICULTY_TARGET))
      :: signed_times t ts
  end.

Definition lwma2 (sts : list Z) (total prev_D : Z) : Z :=
  let N := Z.of_nat (length sts) in
  let next_D := Z.quot (total * DIFFICULTY_TARGET * (N + 1) * 99) (200 * weighted 1 sts) in
  let next_D := clamp_percent 67 150 prev_D next_D in
  if last3 sts <? 48 then Z.max next_D (percent 110 prev_D) else next_D.

Lemma signed_times_length prev ts : length (signed_times prev ts) = length ts.
Proof. revert prev. induction ts as [|t ts IH]; intros prev; cbn; [done|]. by rewrite IH. Qed.

Lemma v3_loop_ok ts i rest p L s :
  let time := λ t, 0 ≤ t < 2 ^ 62 in
  ts !! (i - 1)%nat = Some p → take (length rest) (drop i ts) = rest → time p → Forall time rest →
  Z.of_nat i + Z.of_nat (length rest) = 60 → 1 ≤ Z.of_nat i →
  Z.abs L ≤ 360 * 60 * Z.of_nat i → Z.abs s ≤ 360 * Z.of_nat i →
  v3_loop ts 59 i (length rest) (L, s) =
    Some (L + weighted (Z.of_nat i) (signed_times p rest),
          s + sum_list (drop (Z.to_nat (59 - 2 - Z.of_nat i)) (signed_times p rest)))
  ∧ Z.abs (L + weighted (Z.of_nat i) (signed_times p rest)) ≤ 360 * 60 * 60.
Proof.
  intros time. revert i p L s. induction rest as [|t rest IH]; intros i p L s Hlp Hd Hp Hr Hi H1 HL Hs.
  { cbn. rewrite drop_nil. cbn. rewrite !Z.add_0_r. split; [done|]. cbn in Hi. lia. }
  cbn [length] in *. apply Forall_cons_1 in Hr as [Ht Hr].
  assert (ts !! i = Some t) as Hlk.
  { rewrite <- (Nat.add_0_r i), <- lookup_drop, <- (lookup_take_lt _ (S (length rest))), Hd by lia.
    done. }
  assert (take (length rest) (drop (S i) ts) = rest) as Hd'.
  { apply (f_equal (drop 1)) in Hd. rewrite <- Nat.add_1_r, <- drop_drop.
    by rewrite skipn_firstn_comm in Hd; replace (S (length rest) - 1)%nat with (length rest) in Hd by lia. }
  cbn [v3_loop signed_times weighted].
  set (st := Z.max (- CRYPTONOTE_BLOCK_FUTURE_TIME_LIMIT_V6) (Z.min (t - p) (6 * DIFFICULTY_TARGET))).
  assert (-180 ≤ st ≤ 360) as Hst
    by (unfold st, CRYPTONOTE_BLOCK_FUTURE_TIME_LIMIT_V6, DIFFICULTY_TARGET; lia).
  assert (v3_step ts 59 i (L, s) = Some (L + st * Z.of_nat i,
      if 59 - 3 <? Z.of_nat i then s + st else s)) as E.
  { unfold v3_step, time in *. rewrite Hlk, Hlp. cbn [mbind option_bind].
    rewrite !swrap_fits by (apply fits_spec; lia).
    rewrite (chk_Some 64 (t - p)) by (apply fits_spec; lia). cbn [mbind option_bind]. fold st.
    rewrite (chk_Some 64 (st * _)) by (apply fits_spec; nia). cbn [mbind option_bind].
    rewrite (chk_Some 64 (L + _)) by (apply fits_spec; nia). cbn [mbind option_bind].
    rewrite (chk_Some 64 (s + _)) by (apply fits_spec; lia). by destruct (59 - 3 <? Z.of_nat i). }
  clearbody st. step E.
  destruct (IH (S i) t (L + st * Z.of_nat i) (if 59 - 3 <? Z.of_nat i then s + st else s))
    as [-> HB]; [by rewrite Nat.sub_1_r|done..|lia|lia|nia|destruct (59 - 3 <? Z.of_nat i); lia|].
  rewrite Nat2Z.inj_succ in *. unfold Z.succ in *. split; [|lia].
  do 2 f_equal; [lia|]. destruct (Z.ltb_spec (59 - 3) (Z.of_nat i)).
  - replace (Z.to_nat (59 - 2 - Z.of_nat i)) with 0%nat by lia.
    replace (Z.to_nat (59 - 2 - (Z.of_nat i + 1))) with 0%nat by lia.
    rewrite !drop_0. unfold sum_list. cbn [foldr]. lia.
  - by replace (Z.to_nat (59 - 2 - Z.of_nat i)) with (S (Z.to_nat (59 - 2 - (Z.of_nat i + 1)))) by lia.
Qed.

Lemma sdiv_ok a b : 0 ≤ a < 2 ^ 63 → sdiv a b = if b =? 0 then None else Some (Z.quot a b).
Proof.
  intros Ha. unfold sdiv. destruct (Z.eqb_spec b 0) as [|Hb]; [done|].
  apply chk_Some, fits_spec. pose proof (Z.quot_abs a b Hb) as E.
  pose proof (Z.quot_le_upper_bound (Z.abs a) (Z.abs b) (Z.abs a) ltac:(lia) ltac:(nia)).
  pose proof (Z.quot_pos (Z.abs a) (Z.abs b) ltac:(lia) ltac:(lia)). lia.
Qed.

Lemma lwma2_bounds sts total prev_D :
  0 ≤ prev_D → percent 67 prev_D ≤ lwma2 sts total prev_D ≤ percent 150 prev_D.
Proof.
  intros Hp. unfold lwma2, clamp_percent.
  pose proof (percent_mono 67 150 prev_D Hp ltac:(lia)).
  pose proof (percent_mono 110 150 prev_D Hp ltac:(lia)).
  destruct (last3 sts <? 48); lia.
Qed.

Lemma v3_ok t0 ts cds target dN d0 dP :
  let sts := signed_times t0 (take 59 ts) in
  (59 ≤ length ts)%nat → Forall (λ t, 0 ≤ t < 2 ^ 62) (t0 :: ts) →
  cds !! 59%nat = Some dN → cds !! 0%nat = Some d0 → cds !! 58%nat = Some dP →
  0 ≤ d0 → d0 ≤ dP ≤ dN → (dN - d0) * 356400 < 2 ^ 63 →
  next_difficulty_v3 (t0 :: ts) cds target =
    if weighted 1 sts =? 0 then None else Some (lwma2 sts (dN - d0) (dN - dP)).
Proof.
  intros sts Hn Hts EN E0 EP Hd0 Hd Hw. apply Forall_cons_1 in Hts as [Ht0 Hts].
  assert (length (take 59 ts) = 59%nat) as Hl by (rewrite length_take; lia).
  destruct (v3_loop_ok (t0 :: ts) 1 (take 59 ts) t0 0 0) as [EL HL];
    [done|by rewrite Hl|done|by apply Forall_take|lia..|].
  assert (length sts = 59%nat) as Hls by (unfold sts; by rewrite signed_times_length).
  change (Z.of_nat 1) with 1 in *. rewrite Hl in EL. fold sts in EL, HL. rewrite !Z.add_0_l in *.
  pose proof (lwma2_bounds sts (dN - d0) (dN - dP) ltac:(lia)) as Hb.
  assert (percent 150 (dN - dP) < 2 ^ 63) as Hb' by (unfold percent; zlia).
  assert (0 ≤ percent 67 (dN - dP)) as Hb'' by (unfold percent; zlia).
  unfold next_difficulty_v3. change (DIFFICULTY_WINDOW_V6 - 1)%nat with 59%nat.
  change (Z.of_nat 59) with 59. step EL. cbn iota. change (59 - 1)%nat with 58%nat.
  rewrite EN, E0, EP. cbn [mbind option_bind]. change (Z.of_nat (59 + 1)) with 60.
  rewrite !(uwrap_id 64 (_ - _)), !swrap_fits by (try apply fits_spec; lia).
  unfold DIFFICULTY_TARGET.
  rewrite (chk_Some 64 ((dN - d0) * 60)) by (apply fits_spec; lia). cbn [mbind option_bind].
  rewrite (chk_Some 64 ((dN - d0) * 60 * 60)) by (apply fits_spec; lia). cbn [mbind option_bind].
  rewrite (chk_Some 64 ((dN - d0) * 60 * 60 * 99)) by (apply fits_spec; lia). cbn [mbind option_bind].
  rewrite (chk_Some 64 (100 * 2 * _)) by (apply fits_spec; lia). cbn [mbind option_bind].
  rewrite sdiv_ok by lia. change (100 * 2) with 200.
  replace (200 * weighted 1 sts =? 0) with (weighted 1 sts =? 0)
    by (destruct (Z.eqb_spec (weighted 1 sts) 0); symmetry; [apply Z.eqb_eq|apply Z.eqb_neq]; lia).
  destruct (weighted 1 sts =? 0); [done|]. cbn [mbind option_bind].
  rewrite !(chk_Some 64 ((dN - dP) * _)) by (apply fits_spec; lia). cbn [mbind option_bind].
  rewrite !(Z.quot_div_nonneg _ 100) by lia. change (Z.quot (8 * 60) 10) with 48.
  revert Hb. unfold lwma2. rewrite Hls. fold (last3 sts).
  replace (drop (Z.to_nat (59 - 2 - 1)) sts) with (drop (length sts - 3) sts) by (by rewrite Hls).
  fold (last3 sts). destruct (last3 sts <? 48); intros Hb; f_equal;
    match goal with |- uwrap _ ?x = ?y => change x with y end; apply uwrap_id; lia.
Qed.

(** ** Claims *)

(** C32. LWMA-3 returns for every window of at most 91 timestamps, whatever
    they are: the weighted sum it divides by is never zero.  On timestamps below
    2^63 and as long as the product in the numerator fits in 64 bits the result is
    the formula on the solve times, each at least a second, and lies between
    67% and 150% of the difficulty of the last block. *)
Theorem next_difficulty_v9_spec (build : Build) (timestamps cds : list Z) (target : Z)
    (El : length cds = length timestamps) (Hn : (length timestamps ≤ 91)%nat)
    (Hu : Forall u64 timestamps) :
  (∃ d, next_difficulty_v9 timestamps cds target = Some d)
  ∧ ∀ t0 ts dN d0 dP,
      timestamps = t0 :: ts → (10 ≤ length ts)%nat → Forall (λ t, 0 ≤ t < 2 ^ 63) timestamps →
      cds !! length ts = Some dN → cds !! 0%nat = Some d0 → cds !! (length ts - 1)%nat = Some dP →
      d0 ≤ dP ≤ dN → (dN - d0) * DIFFICULTY_TARGET * (Z.of_nat (length ts) + 1) * 99 < 2 ^ 64 →
      let d := lwma3 (solve_times t0 ts) (dN - d0) (dN - dP) in
      next_difficulty_v9 timestamps cds target = Some d
      ∧ percent 67 (dN - dP) ≤ d ≤ percent 150 (dN - dP).
Proof.
  split; [by apply v9_total|]. intros t0 ts dN d0 dP -> Hn' Hts EN E0 EP Hd Hw d. cbn [length] in *.
  split; [apply v9_ok; (done || lia)|apply lwma3_bounds; lia].
Qed.

Lemma next_difficulty_v9_spec_witness :
  @next_difficulty_v9 false (minute_times 91) (million_work 91) 60 = Some 990000.
Proof.
  refine (eq_trans (proj1 (proj2 (next_difficulty_v9_spec false (minute_times 91) (million_work 91) 60
    eq_refl _ _) 1000000 (tail (minute_times 91)) 90000000 0 89000000 eq_refl _ _ eq_refl eq_refl
    eq_refl _ _)) _).
  - apply Nat.leb_le. reflexivity.
  - apply (bool_decide_unpack _). vm_compute. exact I.
  - apply Nat.leb_le. reflexivity.
  - apply (bool_decide_unpack _). vm_compute. exact I.
  - lia.
  - vm_compute. reflexivity.
  - vm_compute. reflexivity.
Defined.

(** The first algorithm, on a window of at least two blocks whose cumulative
    difficulties increase: the work of the middle of the window, times the
    target, over the time between its sorted timestamps, rounded up; zero if
    that does not fit in 64 bits.  The assertions hold, the work is positive
    and the division is never by zero. *)
Theorem next_difficulty_spec (build : Build) (arch : Arch) (timestamps cds : list Z) (target version : Z)
    (El : length timestamps = length cds) (Hn : (2 ≤ length timestamps)%nat)
    (Ht : Forall u64 timestamps) (Hc : Forall u64 cds) (Hs : StronglySorted Z.lt cds) (Hg : u64 target) :
  let work := window_work (window version) cds in
  let span := window_span (window version) timestamps in
  next_difficulty timestamps cds target version =
    Some (if work * target + span - 1 <? 2 ^ 64 then (work * target + span - 1) / span else 0)
  ∧ 0 < work.
Proof. by apply next_difficulty_ok. Qed.

Lemma next_difficulty_spec_witness :
  @next_difficulty false true [1000; 1130; 1060] [5; 25; 65] 60 1 = Some 28.
Proof.
  refine (eq_trans (proj1 (next_difficulty_spec false true [1000; 1130; 1060] [5; 25; 65] 60 1
    eq_refl _ _ _ _ _)) _).
  - cbn. lia.
  - apply (bool_decide_unpack _). vm_compute. exact I.
  - apply (bool_decide_unpack _). vm_compute. exact I.
  - apply (bool_decide_unpack _). vm_compute. exact I.
  - unfold u64. lia.
  - vm_compute. reflexivity.
Defined.

(** C33. LWMA-2 on sixty timestamps below 2^62 whose numerator fits in 63 bits:
    no signed operation overflows, and it divides by zero exactly if the
    weighted sum of its signed solve times is zero, as when all timestamps are
    equal.  Otherwise its result is the formula, between 67% and 150% of the
    difficulty of a block. *)
Theorem next_difficulty_v3_spec (t0 : Z) (ts cds : list Z) (target dN d0 dP : Z)
    (Hn : (59 ≤ length ts)%nat) (Hts : Forall (λ t, 0 ≤ t < 2 ^ 62) (t0 :: ts))
    (EN : cds !! 59%nat = Some dN) (E0 : cds !! 0%nat = Some d0) (EP : cds !! 58%nat = Some dP)
    (Hd0 : 0 ≤ d0) (Hd : d0 ≤ dP ≤ dN) (Hw : (dN - d0) * 356400 < 2 ^ 63) :
  let sts := signed_times t0 (take 59 ts) in
  let d := lwma2 sts (dN - d0) (dN - dP) in
  next_difficulty_v3 (t0 :: ts) cds target = (if weighted 1 sts =? 0 then None else Some d)
  ∧ percent 67 (dN - dP) ≤ d ≤ percent 150 (dN - dP).
Proof. split; [by apply v3_ok|apply lwma2_bounds; lia]. Qed.

Lemma next_difficulty_v3_spec_witness :
  next_difficulty_v3 (replicate 61 1000000) (million_work 61) 60 = None.
Proof.
  refine (eq_trans (proj1 (next_difficulty_v3_spec 1000000 (replicate 60 1000000) (million_work 61) 60
    59000000 0 58000000 _ _ eq_refl eq_refl eq_refl _ _ _)) _).
  - apply Nat.leb_le. reflexivity.
  - apply (bool_decide_unpack _). vm_compute. exact I.
  - lia.
  - lia.
  - lia.
  - vm_compute. reflexivity.
Defined.
