(* ===== verification/DifficultyV2.v ===== *)
(** * The difficulty of the next block, in [double]

    [next_difficulty_v2] of [cryptonote_basic/difficulty.cpp], on IEEE binary64
    numbers: the executable specification of the Standard Library, 53 bits and
    rounding to nearest, ties to even. *)

From S2P Require Export NextDifficulty.
From Stdlib Require Import SpecFloat.

#[local] Open Scope Z_scope.

(** ** [double] *)

Definition double : Type := spec_float.

Definition dadd : double → double → double := SFadd 53 1024.
Definition dmul : double → double → double := SFmul 53 1024.
Definition ddiv : double → double → double := SFdiv 53 1024.

(** The conversion from an integer type. *)
Definition of_int (z : Z) : double := binary_normalize 53 1024 z 0 false.

(** The conversion to an integer type drops the fraction. *)
Definition to_int (x : double) : option Z :=
  match x with
  | S754_zero _ => Some 0
  | S754_finite s m e =>
    let a := if 0 <=? e then Z.pos m * 2 ^ e else Z.pos m / 2 ^ (- e) in
    Some (if s then - a else a)
  | _ => None
  end.

(** To [uint64_t]: undefined when the integer part does not fit. *)
Definition to_uint64 (x : double) : option Z :=
  z ← to_int x; if (0 <=? z) && (z <? 2 ^ 64) then Some z else None.

Definition to_int64 (x : double) : option Z := z ← to_int x; chk 64 z.

(** [boost::math::round], of the Boost library; [None] is the exception. *)
Class BoostRound := boost_round : double → option double.

(** A number that is an integer is returned unchanged. *)
Class BoostRoundLaws `(BoostRound) : Prop :=
  boost_round_integer : ∀ s m e, 0 ≤ e → boost_round (S754_finite s m e) = Some (S754_finite s m e).

(** 0.998 *)
Definition adjust : double := S754_finite false 8989184856231510 (-53).

Section code.
Context `{Build} `{BoostRound}.

(** The body of the loop: [LWMA] and [sum_inverse_D].  [solveTime * i] is the
    product of an [int64_t] and a [size_t], an unsigned number. *)
Definition v2_step (timestamps cumulative_difficulties : list Z) (T : Z) (k : double) (i : nat)
    (acc : double * double) : option (double * double) :=
  let '(LWMA, sum_inverse_D) := acc in
  ti ← timestamps !! i;
  tp ← timestamps !! (i - 1)%nat;
  solveTime ← chk 64 (swrap 64 ti - swrap 64 tp);
  T7 ← chk 64 (T * 7);
  mT7 ← chk 64 (-7 * T);
  let solveTime := Z.min T7 (Z.max solveTime mT7) in
  di ← cumulative_difficulties !! i;
  dp ← cumulative_difficulties !! (i - 1)%nat;
  let difficulty := uwrap 64 (di - dp) in
  let LWMA := dadd LWMA (ddiv (of_int (uwrap 64 (uwrap 64 solveTime * Z.of_nat i))) k) in
  let sum_inverse_D := dadd sum_inverse_D (ddiv (of_int 1) (of_int difficulty)) in
  Some (LWMA, sum_inverse_D).

Fixpoint v2_loop (timestamps cumulative_difficulties : list Z) (T : Z) (k : double) (i n : nat)
    (acc : double * double) : option (double * double) :=
  match n with
  | O => Some acc
  | S n =>
    acc ← v2_step timestamps cumulative_difficulties T k i acc;
    v2_loop timestamps cumulative_difficulties T k (S i) n acc
  end.

(** The lines after the loop. *)
Definition v2_finish (T : Z) (N : nat) (acc : double * double) : option Z :=
  let '(LWMA, sum_inverse_D) := acc in
  r ← boost_round LWMA;
  r ← to_int64 r;
  let LWMA := if r <? Z.quot T 20 then of_int (Z.quot T 20) else LWMA in
  let harmonic_mean_D := dmul (ddiv (of_int (Z.of_nat N)) sum_inverse_D) adjust in
  let nextDifficulty := ddiv (dmul harmonic_mean_D (of_int T)) LWMA in
  to_uint64 nextDifficulty.

Definition next_difficulty_v2 (timestamps cumulative_difficulties : list Z)
    (target_seconds : Z) : option Z :=
  let T := swrap 64 target_seconds in
  let N := DIFFICULTY_WINDOW_V6 in
  let '(timestamps, cumulative_difficulties) :=
    if (N <? length timestamps)%nat
    then (resize (N + 1) 0 timestamps, resize (N + 1) 0 cumulative_difficulties)
    else (timestamps, cumulative_difficulties) in
  let n := length timestamps in
  _ ← assert_ (n =? length cumulative_difficulties)%nat;
  _ ← assert_ (n <=? DIFFICULTY_WINDOW_V6)%nat;
  if (n <? 6)%nat then Some 1 else
  let N := if (n <? N + 1)%nat then (n - 1)%nat else N in
  let k := of_int (Z.of_nat (N * (N + 1) / 2)) in
  acc ← v2_loop timestamps cumulative_difficulties T k 1 N (of_int 0, of_int 0);
  v2_finish T N acc.

End code.

(** The literal is the double nearest to 998/1000. *)
Lemma adjust_nearest :
  ∃ m, adjust = S754_finite false m (-53) ∧ (2 ^ 52 ≤ Z.pos m < 2 ^ 53)
    ∧ 2 * Z.abs (Z.pos m * 1000 - 998 * 2 ^ 53) ≤ 1000.
Proof. exists 8989184856231510%positive. split; [reflexivity|]. lia. Qed.

(** ** Behaviour *)

Lemma v2_assert_fails `{BoostRound} timestamps cds target :
  length timestamps = length cds → (DIFFICULTY_WINDOW_V6 < length timestamps)%nat →
  @next_difficulty_v2 false _ timestamps cds target = None.
Proof.
  intros El Hn. unfold next_difficulty_v2. rewrite (proj2 (Nat.ltb_lt _ _)) by done.
  rewrite !length_resize. cbn [mbind option_bind]. unfold assert_, debug_only, NDEBUG.
  by rewrite Nat.eqb_refl.
Qed.

(** A window of [DIFFICULTY_BLOCKS_COUNT_V6] blocks, one a minute, each with a
    million of work; in the second one timestamp is a second earlier than the
    one before it. *)
Definition steady_times : list Z := minute_times 61.
Definition backward_times : list Z := <[30%nat := 1000000 + 60 * 29 - 1]> steady_times.
Definition steady_work : list Z := million_work 61.

(** An instance of the parameter: integers are returned, other numbers are
    rounded half away from zero. *)
Definition round_half_away : BoostRound := λ x,
  match x with
  | S754_zero _ => Some x
  | S754_finite s m e =>
    if 0 <=? e then Some x else
    let z := (2 * Z.pos m + 2 ^ (- e)) / (2 * 2 ^ (- e)) in
    Some (of_int (if s then - z else z))
  | _ => None
  end.

Lemma round_half_away_laws : BoostRoundLaws round_half_away.
Proof. intros s m e He. unfold boost_round, round_half_away. by rewrite (proj2 (Z.leb_le 0 e) He). Qed.

(** Without the assertions a full window reaches the loop. *)
Lemma v2_full `{BoostRound} timestamps cds target :
  length timestamps = 61%nat → length cds = 61%nat →
  @next_difficulty_v2 true _ timestamps cds target =
    acc ← v2_loop timestamps cds (swrap 64 target) (of_int 1830) 1 60 (of_int 0, of_int 0);
    v2_finish (swrap 64 target) 60 acc.
Proof.
  intros Et Ec. unfold next_difficulty_v2. rewrite Et. cbn [Nat.ltb Nat.leb DIFFICULTY_WINDOW_V6].
  rewrite !resize_all_alt by done. by rewrite Et.
Qed.

Lemma v2_backward `{BoostRound} `{!BoostRoundLaws _} :
  @next_difficulty_v2 true _ backward_times steady_work 60 = Some 0.
Proof.
  rewrite v2_full by reflexivity.
  match goal with |- context [v2_loop ?a ?b ?c ?d ?e ?f ?g] =>
    let r := eval vm_compute in (v2_loop a b c d e f g) in
    assert (v2_loop a b c d e f g = r) as E by (vm_compute; reflexivity) end.
  step E. unfold v2_finish. rewrite boost_round_integer by lia. vm_compute. reflexivity.
Qed.

(** The version in [double] has two defects.  With assertions it aborts on
    every window of more than [DIFFICULTY_WINDOW_V6] blocks, which is what its
    caller passes once the chain is long enough.  Without them one
    timestamp a second before its predecessor makes the difficulty of a steady
    chain zero, because the negative solve time is multiplied by an unsigned
    index. *)
Theorem next_difficulty_v2_spec (br : BoostRound) (laws : BoostRoundLaws br) :
  (∀ timestamps cds target, length timestamps = length cds →
     (DIFFICULTY_WINDOW_V6 < length timestamps)%nat →
     @next_difficulty_v2 false br timestamps cds target = None)
  ∧ @next_difficulty_v2 true br backward_times steady_work 60 = Some 0.
Proof. split; [intros; by apply v2_assert_fails|apply v2_backward]. Qed.

Lemma next_difficulty_v2_spec_witness :
  @next_difficulty_v2 false round_half_away steady_times steady_work 60 = None
  ∧ @next_difficulty_v2 true round_half_away backward_times steady_work 60 = Some 0
  ∧ @next_difficulty_v2 true round_half_away steady_times steady_work 60 = Some 998000.
Proof.
  destruct (next_difficulty_v2_spec round_half_away round_half_away_laws) as [Ha Hb].
  split; [apply Ha; [reflexivity|apply Nat.ltb_lt; reflexivity]|].
  split; [exact Hb|vm_compute; reflexivity].
Defined.
