(* ===== verification/NextBlock.v ===== *)
(** * The difficulty a block must meet: [cryptonote_core/blockchain.cpp]

    [Blockchain::get_difficulty_for_next_block] with its two caches, and
    [Blockchain::get_next_difficulty_for_alternative_chain].  The caches never
    change an answer, across blocks that are added and removed; the alternative
    chain is judged like the chain it would become, except under version 8. *)

From S2P Require Export DifficultyV2.
From stdpp Require Export relations.

#[local] Open Scope Z_scope.

(** ** Constants of [cryptonote_config.h] *)

Definition DIFFICULTY_LAG : nat := 15.
Definition DIFFICULTY_BLOCKS_COUNT : nat := DIFFICULTY_WINDOW + DIFFICULTY_LAG.
Definition DIFFICULTY_BLOCKS_COUNT_V6 : nat := DIFFICULTY_WINDOW_V6 + 1.
Definition DIFFICULTY_BLOCKS_COUNT_V9 : nat := DIFFICULTY_WINDOW_V9 + 1.
Definition HARDFORK_EMERGENCY_V6_HEIGHT : Z := 12500.

(** What the database answers about a block; the chain lists the blocks by
    height, the genesis block first. *)
Record block := Block {
  timestamp : Z;
  cumulative_difficulty : Z;
  block_hash : list Z
}.

Definition null_hash : list Z := replicate 32 0.

Definition top_block_hash (chain : list block) : list Z :=
  match last chain with Some b => block_hash b | None => null_hash end.

(** The members of [Blockchain] that the function reads and writes. *)
Record diff_cache := DiffCache {
  m_timestamps : list Z;
  m_difficulties : list Z;
  m_timestamps_and_difficulties_height : nat;
  m_difficulty_for_next_block_top_hash : list Z;
  m_difficulty_for_next_block : Z
}.

(** The constructor of [Blockchain]. *)
Definition initial_cache : diff_cache := DiffCache [] [] 0 null_hash 1.

Definition reset_height (c : diff_cache) : diff_cache :=
  DiffCache (m_timestamps c) (m_difficulties c) 0
    (m_difficulty_for_next_block_top_hash c) (m_difficulty_for_next_block c).

(** The version of the protocol that the hard-fork component reports for a
    chain. *)
Class ForkVersion := fork_version : list block → Z.

Definition blocks_count (version : Z) (height : nat) : nat :=
  if 9 <=? version then DIFFICULTY_BLOCKS_COUNT_V9
  else if (2 <=? height)%nat then DIFFICULTY_BLOCKS_COUNT_V6
  else DIFFICULTY_BLOCKS_COUNT.

(** [erase(begin())] while the vector is longer than [n]. *)
Definition keep_last (n : nat) (l : list Z) : list Z := drop (length l - n) l.

(** The blocks from [offset], the genesis block never included. *)
Definition window_blocks (chain : list block) (count : nat) : list block :=
  let height := length chain in
  let offset := (height - height `min` count)%nat in
  let offset := if (offset =? 0)%nat then 1%nat else offset in
  drop offset chain.

Section code.
Context `{Build} `{Arch} `{BoostRound} `{ForkVersion}.

(** The choice of the algorithm; [v3_before] is the version from which LWMA-3
    is used, which the two callers write differently. *)
Definition dispatch (v3_before : Z) (height : nat) (version : Z) (timestamps difficulties : list Z)
    (target : Z) : option Z :=
  if (height <? 2)%nat then next_difficulty timestamps difficulties target version
  else if Z.of_nat height <? HARDFORK_EMERGENCY_V6_HEIGHT
  then next_difficulty_v2 timestamps difficulties target
  else if version <? v3_before then next_difficulty_v3 timestamps difficulties target
  else next_difficulty_v9 timestamps difficulties target.

(** [m_timestamps] and [m_difficulties] brought to the current height: from the
    previous block when the cache is one block behind, else from the database. *)
Definition refresh (chain : list block) (count : nat) (c : diff_cache) : option (list Z * list Z) :=
  let height := length chain in
  let h := m_timestamps_and_difficulties_height c in
  if negb (h =? 0)%nat && (height =? S h)%nat && (count <=? length (m_timestamps c))%nat
  then
    b ← chain !! (height - 1)%nat;
    Some (keep_last count (m_timestamps c ++ [timestamp b]),
          keep_last count (m_difficulties c ++ [cumulative_difficulty b]))
  else
    let bs := window_blocks chain count in
    Some (timestamp <$> bs, cumulative_difficulty <$> bs).

Definition get_difficulty_for_next_block (m_fixed_difficulty : Z) (chain : list block) (c : diff_cache)
    : option (Z * diff_cache) :=
  let height := length chain in
  if negb (m_fixed_difficulty =? 0)
  then Some (if (height =? 0)%nat then 1 else m_fixed_difficulty, c) else
  let version := fork_version chain in
  let top_hash := top_block_hash chain in
  if decide (top_hash = m_difficulty_for_next_block_top_hash c)
  then Some (m_difficulty_for_next_block c, c) else
  '(timestamps, difficulties) ← refresh chain (blocks_count version height) c;
  diff ← dispatch 8 height version timestamps difficulties DIFFICULTY_TARGET;
  Some (diff, DiffCache timestamps difficulties height top_hash diff).

(** The entries that judge a block on an alternative chain which leaves the main
    chain at [stop].  The database throws on a height it does not have. *)
Definition alt_window (main alt_chain : list block) (stop count : nat) : option (list block) :=
  if (length alt_chain <? count)%nat
  then
    let main_chain_count := ((count - count `min` length alt_chain) `min` stop)%nat in
    let start := (stop - main_chain_count)%nat in
    let start := if (start =? 0)%nat then 1%nat else start in
    if (start <? stop)%nat && (length main <? stop)%nat then None else
    Some (take (stop - start) (drop start main) ++ alt_chain)
  else Some (drop (length alt_chain - count) alt_chain).

Definition get_next_difficulty_for_alternative_chain (m_fixed_difficulty : Z)
    (main alt_chain : list block) (alt_start bei_height : nat) : option Z :=
  let height := length main in
  if negb (m_fixed_difficulty =? 0)
  then Some (if (height =? 0)%nat then 1 else m_fixed_difficulty) else
  let version := fork_version main in
  let count := blocks_count version height in
  let stop := if (length alt_chain =? 0)%nat then bei_height else alt_start in
  bs ← alt_window main alt_chain stop count;
  if (length alt_chain <? count)%nat && negb (length bs <=? count)%nat then Some 0 else
  dispatch 9 height version (timestamp <$> bs) (cumulative_difficulty <$> bs) DIFFICULTY_TARGET.

(** [Blockchain::pop_block_from_blockchain], what it does to the chain and to the cache. *)
Definition pop_block_from_blockchain (chain : list block) (c : diff_cache) : list block * diff_cache :=
  (take (length chain - 1) chain, reset_height c).

End code.

(** ** The caches *)

(** The difficulty, computed from the chain alone. *)
Definition fresh_difficulty `{Build} `{Arch} `{BoostRound} `{ForkVersion} (chain : list block) : option Z :=
  let bs := window_blocks chain (blocks_count (fork_version chain) (length chain)) in
  dispatch 8 (length chain) (fork_version chain) (timestamp <$> bs) (cumulative_difficulty <$> bs)
    DIFFICULTY_TARGET.

Lemma keep_last_fmap {A} (f : A → Z) n l :
  keep_last n (f <$> l) = f <$> drop (length l - n) l.
Proof. unfold keep_last. by rewrite length_fmap, fmap_drop. Qed.

(** One block more: the old window, long enough, and the new block give the new
    window. *)
Lemma window_blocks_snoc chain b old count :
  (count ≤ length (window_blocks chain old))%nat → chain ≠ [] →
  let bs := window_blocks chain old ++ [b] in
  drop (length bs - count) bs = window_blocks (chain ++ [b]) count.
Proof.
  intros Hc Hne bs. unfold bs, window_blocks in *.
  set (o := (length chain - length chain `min` old)%nat) in *.
  set (o' := if (o =? 0)%nat then 1%nat else o) in *.
  assert (0 < length chain)%nat as Hpos by (destruct chain; [done|cbn; lia]).
  assert (1 ≤ o' ≤ length chain)%nat as Ho' by (unfold o'; destruct (Nat.eqb_spec o 0); unfold o in *; lia).
  rewrite length_drop in Hc. rewrite !length_app, length_drop. cbn [length].
  replace (if (_ =? 0)%nat then _ else _) with (length chain + 1 - count)%nat.
  2:{ destruct (Nat.eqb_spec (length chain + 1 - (length chain + 1) `min` count) 0); lia. }
  rewrite <- drop_app_le by lia. rewrite drop_drop. f_equal. lia.
Qed.

Section cache.
Context `{Build} `{Arch} `{BoostRound} `{ForkVersion}.

(** The chains that can occur: named by the hash of their last block, which is not
    the null hash (so they have a block). *)
Context (valid : list block → Prop).
Hypothesis valid_hash : ∀ c1 c2, valid c1 → valid c2 → top_block_hash c1 = top_block_hash c2 → c1 = c2.
Hypothesis valid_null : ∀ chain, valid chain → top_block_hash chain ≠ null_hash.

(** The steps of the state machine: a block is added, the top block is removed,
    another block is handled off the main chain, the difficulty is asked for. *)
Inductive step_chain : list block * diff_cache → list block * diff_cache → Prop :=
  | step_add chain c b : valid (chain ++ [b]) → step_chain (chain, c) (chain ++ [b], c)
  | step_pop chain c : valid (take (length chain - 1) chain) →
      step_chain (chain, c) (pop_block_from_blockchain chain c)
  | step_alternative chain c : step_chain (chain, c) (chain, reset_height c)
  | step_query chain c d c' :
      get_difficulty_for_next_block 0 chain c = Some (d, c') → step_chain (chain, c) (chain, c').

Record cache_ok (chain : list block) (c : diff_cache) : Prop := {
  cache_valid : valid chain;
  cache_window :
    let h := m_timestamps_and_difficulties_height c in
    h = 0%nat ∨ ∃ old, (h ≤ length chain)%nat
      ∧ m_timestamps c = timestamp <$> window_blocks (take h chain) old
      ∧ m_difficulties c = cumulative_difficulty <$> window_blocks (take h chain) old;
  cache_top :
    m_difficulty_for_next_block_top_hash c = null_hash
    ∨ ∃ past, valid past ∧ m_difficulty_for_next_block_top_hash c = top_block_hash past
      ∧ fresh_difficulty past = Some (m_difficulty_for_next_block c)
}.

Lemma refresh_ok chain c count :
  cache_ok chain c →
  refresh chain count c = Some (timestamp <$> window_blocks chain count,
                                cumulative_difficulty <$> window_blocks chain count).
Proof.
  intros [_ Hw _]. unfold refresh. set (h := m_timestamps_and_difficulties_height c) in *.
  destruct (negb (h =? 0)%nat) eqn:E0; [|done]. apply negb_true_iff, Nat.eqb_neq in E0.
  destruct (Nat.eqb_spec (length chain) (S h)) as [Eh|]; [|done].
  destruct (Nat.leb_spec count (length (m_timestamps c))) as [Hc|]; [|done]. cbn [andb].
  destruct Hw as [?|(old & Hle & Et & Ed)]; [done|].
  destruct (chain !! (length chain - 1)%nat) as [b|] eqn:Eb.
  2:{ apply lookup_ge_None in Eb. lia. }
  replace (length chain - 1)%nat with h in Eb by lia.
  assert (chain = take h chain ++ [b]) as Ech
    by (rewrite <- (take_S_r _ _ _ Eb), <- Eh; by rewrite take_ge).
  cbn [mbind option_bind]. rewrite Et, length_fmap in Hc.
  pose proof (window_blocks_snoc (take h chain) b old count Hc) as E.
  rewrite Et, Ed. change [timestamp b] with (timestamp <$> [b]).
  change [cumulative_difficulty b] with (cumulative_difficulty <$> [b]).
  rewrite <- !fmap_app, !keep_last_fmap. rewrite E, <- Ech; [done|].
  intros Hn. apply (f_equal length) in Hn. rewrite length_take in Hn. cbn in Hn. lia.
Qed.

(** A query answers as if there were no cache, and leaves the caches right. *)
Lemma query_ok chain c :
  cache_ok chain c →
  fst <$> get_difficulty_for_next_block 0 chain c = fresh_difficulty chain
  ∧ ∀ d c', get_difficulty_for_next_block 0 chain c = Some (d, c') → cache_ok chain c'.
Proof.
  intros Hok. unfold get_difficulty_for_next_block. cbn [negb Z.eqb].
  destruct (decide _) as [Etop|_].
  - split; [|by intros d c' [= _ <-]]. destruct Hok as [Hv _ [En|(past & Hp & Ep & Ed)]].
    + by destruct (valid_null chain Hv); rewrite Etop.
    + rewrite (valid_hash chain past Hv Hp) by (by rewrite Etop). by rewrite Ed.
  - rewrite (refresh_ok _ _ _ Hok). cbn [mbind option_bind]. fold (fresh_difficulty chain).
    destruct (fresh_difficulty chain) as [d|] eqn:Ed; cbn [mbind option_bind]; [|done].
    split; [done|]. intros d' c' [= <- <-]. pose proof (cache_valid _ _ Hok) as Hv.
    constructor; cbn [m_timestamps_and_difficulties_height m_timestamps m_difficulties
      m_difficulty_for_next_block_top_hash m_difficulty_for_next_block]; [done| |right; by exists chain].
    right. eexists. rewrite take_ge by lia. done.
Qed.

Lemma step_ok s s' : step_chain s s' → cache_ok s.1 s.2 → cache_ok s'.1 s'.2.
Proof.
  intros [chain c b Hb|chain c Hp|chain c|chain c d c' E]; cbn [fst snd pop_block_from_blockchain];
    intros Hok; [| | |by eapply (query_ok chain c)].
  - destruct Hok as [Hv Hw Ht]. constructor; [done| |done]. cbv zeta in *.
    destruct Hw as [|(old & Hle & Et & Ed)]; [by left|right]. exists old.
    rewrite take_app_le, length_app by done. split; [lia|done].
  - destruct Hok as [Hv Hw Ht]. constructor; [done|by left|done].
  - destruct Hok as [Hv Hw Ht]. constructor; [done|by left|done].
Qed.

Lemma reachable_ok chain0 s :
  valid chain0 → rtc step_chain (chain0, initial_cache) s → cache_ok s.1 s.2.
Proof.
  intros Hv Hr. assert (cache_ok chain0 initial_cache) as Hinit by (constructor; [done|by left|by left]).
  remember (chain0, initial_cache) as s0 eqn:E0.
  assert (cache_ok s0.1 s0.2) as Hs by (by subst). clear E0 Hinit.
  induction Hr as [|s1 s2 s3 Hst _ IH]; [done|]. eapply IH, step_ok; done.
Qed.

End cache.

(** ** Alternative chains *)

(** The window of a block on an alternative chain is the window it has once
    that chain is the main chain. *)
Lemma alt_window_ok main alt_chain stop count :
  (1 ≤ stop ≤ length main)%nat →
  alt_window main alt_chain stop count = Some (window_blocks (take stop main ++ alt_chain) count).
Proof.
  intros Hs. unfold alt_window, window_blocks. rewrite length_app, length_take, (Nat.min_l stop) by lia.
  set (k := length alt_chain). destruct (Nat.ltb_spec k count) as [Hk|Hk].
  - set (start := (stop - (count - count `min` k) `min` stop)%nat).
    assert ((stop + k - (stop + k) `min` count) = start)%nat as -> by (unfold start; lia).
    set (st := if (start =? 0)%nat then 1%nat else start).
    assert (st ≤ stop)%nat as Hst by (unfold st; destruct (Nat.eqb_spec start 0); unfold start in *; lia).
    rewrite (proj2 (Nat.ltb_ge (length main) stop)), andb_false_r by lia.
    rewrite drop_app_le, take_drop_commute by (rewrite length_take; lia).
    by replace (st + (stop - st))%nat with stop by lia.
  - replace (if (_ =? 0)%nat then _ else _) with (stop + (k - count))%nat.
    + rewrite drop_app_ge by (rewrite length_take; lia). rewrite length_take. do 2 f_equal. lia.
    + destruct (Nat.eqb_spec (stop + k - (stop + k) `min` count) 0); lia.
Qed.

Lemma window_blocks_length chain count : (length (window_blocks chain count) ≤ count)%nat.
Proof.
  unfold window_blocks. rewrite length_drop.
  destruct (Nat.eqb_spec (length chain - length chain `min` count) 0); lia.
Qed.

Lemma alternative_ok `{Build} `{Arch} `{BoostRound} `{ForkVersion} main alt_chain alt_start bei_height :
  let stop := if (length alt_chain =? 0)%nat then bei_height else alt_start in
  let count := blocks_count (fork_version main) (length main) in
  let bs := window_blocks (take stop main ++ alt_chain) count in
  (1 ≤ stop ≤ length main)%nat →
  get_next_difficulty_for_alternative_chain 0 main alt_chain alt_start bei_height =
    dispatch 9 (length main) (fork_version main) (timestamp <$> bs) (cumulative_difficulty <$> bs)
      DIFFICULTY_TARGET.
Proof.
  intros stop count bs Hs. unfold get_next_difficulty_for_alternative_chain. cbn [negb Z.eqb].
  fold stop count. rewrite alt_window_ok by done. cbn [mbind option_bind]. fold bs.
  pose proof (window_blocks_length (take stop main ++ alt_chain) count) as Hl. fold bs in Hl.
  by rewrite (proj2 (Nat.leb_le _ _) Hl), andb_false_r.
Qed.

(** Above the emergency height only the version selects. *)
Lemma dispatch_late `{Build} `{Arch} `{BoostRound} bound height version ts ds target :
  HARDFORK_EMERGENCY_V6_HEIGHT ≤ Z.of_nat height →
  dispatch bound height version ts ds target =
    if version <? bound then next_difficulty_v3 ts ds target else next_difficulty_v9 ts ds target.
Proof.
  unfold dispatch, HARDFORK_EMERGENCY_V6_HEIGHT. intros Hh.
  rewrite (proj2 (Nat.ltb_ge _ _)) by lia. by rewrite (proj2 (Z.ltb_ge _ _)) by lia.
Qed.

Lemma blocks_count_late version h : (2 ≤ h)%nat → blocks_count version h = blocks_count version 2.
Proof. intros Hh. unfold blocks_count. by rewrite (proj2 (Nat.leb_le 2 h) Hh). Qed.

(** ** Claims *)

(** C24. The caches of [get_difficulty_for_next_block] are transparent: in every
    state reached by adding blocks, removing the top block, handling blocks
    off the main chain and asking for the difficulty, in any order, the answer
    is the one computed from the chain alone.  The hypothesis is that the hash of a
    block names the chain that ends with it. *)
Theorem difficulty_cache_spec (build : Build) (arch : Arch) (br : BoostRound) (fv : ForkVersion)
    (valid : list block → Prop)
    (Hhash : ∀ c1 c2, valid c1 → valid c2 → top_block_hash c1 = top_block_hash c2 → c1 = c2)
    (Hnull : ∀ chain, valid chain → top_block_hash chain ≠ null_hash)
    (chain0 chain : list block) (c : diff_cache) (H0 : valid chain0)
    (Hr : rtc (step_chain valid) (chain0, initial_cache) (chain, c)) :
  fst <$> get_difficulty_for_next_block 0 chain c = fresh_difficulty chain.
Proof.
  apply (query_ok valid Hhash Hnull). by apply (reachable_ok valid Hhash Hnull chain0 (chain, c)).
Qed.

(** C25. Above the emergency height the difficulty of a block on an alternative
    chain is the one the main chain would demand after a switch to that chain, for
    the same version of the protocol, provided this version is not 8.  Under
    version 8 the two functions choose different algorithms for the same
    blocks: LWMA-2 for the alternative chain, LWMA-3 for the main chain. *)
Theorem alternative_difficulty_spec (build : Build) (arch : Arch) (br : BoostRound) (fv : ForkVersion)
    (main alt_chain : list block) (alt_start bei_height : nat) :
  let stop := if (length alt_chain =? 0)%nat then bei_height else alt_start in
  let joined := take stop main ++ alt_chain in
  let bs := window_blocks joined (blocks_count (fork_version main) (length main)) in
  ∀ (Hs : (1 ≤ stop ≤ length main)%nat)
    (Hv : fork_version joined = fork_version main)
    (Hm : HARDFORK_EMERGENCY_V6_HEIGHT ≤ Z.of_nat (length main))
    (Hj : HARDFORK_EMERGENCY_V6_HEIGHT ≤ Z.of_nat (length joined)),
  let alternative := get_next_difficulty_for_alternative_chain 0 main alt_chain alt_start bei_height in
  (fork_version main ≠ 8 → alternative = fresh_difficulty joined)
  ∧ (fork_version main = 8 →
      alternative = next_difficulty_v3 (timestamp <$> bs) (cumulative_difficulty <$> bs) DIFFICULTY_TARGET
      ∧ fresh_difficulty joined =
        next_difficulty_v9 (timestamp <$> bs) (cumulative_difficulty <$> bs) DIFFICULTY_TARGET).
Proof.
  intros stop joined bs Hs Hv Hm Hj. cbv zeta. rewrite alternative_ok by done. unfold fresh_difficulty.
  fold stop joined bs. rewrite Hv, !dispatch_late by done. unfold HARDFORK_EMERGENCY_V6_HEIGHT in *.
  rewrite (blocks_count_late _ (length joined)), <- (blocks_count_late _ (length main)) by lia. fold bs.
  split; [|by intros ->].
  intros Hn. destruct (Z.ltb_spec (fork_version main) 9), (Z.ltb_spec (fork_version main) 8); (done || lia).
Qed.

(** ** Examples *)

(** A chain of two blocks, and the version of the protocol it has. *)
Definition genesis : block := Block 1341378000 1 (replicate 32 1).
Definition second : block := Block 1530759847 2 (replicate 32 2).
Definition version6 : ForkVersion := λ _, 6.
Definition version8 : ForkVersion := λ _, 8.

Definition two_chains (chain : list block) : Prop := chain = [genesis] ∨ chain = [genesis; second].

Lemma difficulty_cache_spec_witness :
  fst <$> @get_difficulty_for_next_block false true round_half_away version6 0 [genesis; second]
            (reset_height initial_cache) = Some 1.
Proof.
  refine (eq_trans (difficulty_cache_spec false true round_half_away version6 two_chains _ _ [genesis]
    [genesis; second] (reset_height initial_cache) _ _) _).
  - intros c1 c2 [-> | ->] [-> | ->] E; (reflexivity || (vm_compute in E; discriminate E)).
  - intros c [-> | ->] E; vm_compute in E; discriminate E.
  - left. reflexivity.
  - apply (rtc_l _ _ ([genesis; second], initial_cache)).
    + apply (step_add two_chains [genesis] initial_cache second). right. reflexivity.
    + apply rtc_once. apply step_alternative.
  - vm_compute. reflexivity.
Defined.

(** A long chain whose last block came ten minutes after the one before. *)
Definition late_tail : list block :=
  (λ i, Block (1000000 + 60 * Z.of_nat i + (if (i =? 60)%nat then 540 else 0)) (1000000 * Z.of_nat i)
          (replicate 32 3)) <$> seq 0 61.
Definition long_chain (n : nat) : list block := replicate n genesis ++ late_tail.

Lemma long_chain_length n : length (long_chain n) = (n + 61)%nat.
Proof. unfold long_chain. by rewrite length_app, length_replicate. Qed.

Lemma long_chain_window n : (1 ≤ n)%nat → window_blocks (long_chain n) 61 = late_tail.
Proof.
  intros Hn. unfold window_blocks. rewrite long_chain_length.
  replace (n + 61 - (n + 61) `min` 61)%nat with n by lia.
  rewrite (proj2 (Nat.eqb_neq n 0)) by lia. unfold long_chain.
  by rewrite drop_app_length' by (by rewrite length_replicate).
Qed.

(** Version 8: the same chain, two difficulties. *)
Lemma alternative_difficulty_spec_witness :
  let n := Z.to_nat 12500 in
  let main := long_chain n in
  @get_next_difficulty_for_alternative_chain false true round_half_away version8 0 main [] 0 (n + 61)
    = Some 990000
  ∧ @fresh_difficulty false true round_half_away version8 main = Some 850563.
Proof.
  intros n main. assert (length main = n + 61)%nat as El by apply long_chain_length.
  assert (12500 ≤ Z.of_nat n) as Hn by (unfold n; lia). clearbody n.
  assert (take (n + 61) main ++ [] = main) as Ej by (rewrite app_nil_r; apply take_ge; lia).
  pose proof (alternative_difficulty_spec false true round_half_away version8 main [] 0 (n + 61)) as E.
  cbv zeta in E. cbn [length Nat.eqb] in E. rewrite Ej in E.
  unfold HARDFORK_EMERGENCY_V6_HEIGHT in E. rewrite blocks_count_late in E by lia.
  change (blocks_count (fork_version main) 2) with 61%nat in E.
  rewrite (long_chain_window n ltac:(lia) : window_blocks main 61 = late_tail) in E.
  destruct (proj2 (E ltac:(lia) eq_refl ltac:(lia) ltac:(lia)) eq_refl) as [Ea Ef].
  split; [rewrite Ea|rewrite Ef]; vm_compute; reflexivity.
Defined.
