(* ===== verification/BlockReward.v ===== *)
(** * The reward of a block

    [get_block_reward] of [cryptonote_basic/cryptonote_basic_impl.cpp], the part of
    [Blockchain::validate_miner_transaction] that checks what a miner claims, and the count
    of generated coins in [cryptonote_core/blockchain.cpp]. *)

From S2P Require Export NextDifficulty.
From stdpp Require Export relations.

#[local] Open Scope Z_scope.

(** ** Constants of [cryptonote_config.h] *)

Definition MONEY_SUPPLY : Z := 2100000000000.
Definition EMISSION_SPEED_FACTOR_PER_MINUTE : Z := 20.
Definition FINAL_SUBSIDY_PER_MINUTE : Z := 30.
Definition CRYPTONOTE_BLOCK_GRANTED_FULL_REWARD_ZONE_V1 : Z := 20000.
Definition CRYPTONOTE_BLOCK_GRANTED_FULL_REWARD_ZONE_V2 : Z := 60000.
Definition CRYPTONOTE_BLOCK_GRANTED_FULL_REWARD_ZONE_V5 : Z := 150000.
Definition premine : Z := 105000000000.

Definition get_min_block_weight (version : Z) : Z :=
  if version <? 2 then CRYPTONOTE_BLOCK_GRANTED_FULL_REWARD_ZONE_V1
  else if version <? 5 then CRYPTONOTE_BLOCK_GRANTED_FULL_REWARD_ZONE_V2
  else CRYPTONOTE_BLOCK_GRANTED_FULL_REWARD_ZONE_V5.

(** [epee::misc_utils::median] on [size_t]. *)
Definition median (v : list Z) : option Z :=
  match v with
  | [] => Some 0
  | [x] => Some x
  | _ =>
    let n := (length v `div` 2)%nat in
    let v := merge_sort Z.le v in
    if negb (length v `mod` 2 =? 0)%nat then v !! n else
    a ← v !! (n - 1)%nat;
    b ← v !! n;
    Some (uwrap 64 (a + b) / 2)
  end.

(** The amounts with one digit that is not zero, up to 10^19: the table of
    [cryptonote_format_utils.cpp]. *)
Definition valid_decomposed_outputs : list Z :=
  concat ((λ e, (λ d, Z.of_nat d * 10 ^ Z.of_nat e) <$> seq 1 9) <$> seq 0 19) ++ [10 ^ 19].

Definition is_valid_decomposed_amount (amount : Z) : bool :=
  bool_decide (amount ∈ valid_decomposed_outputs).

Section code.
Context `{Build}.

(** [Some None] is [return false], [Some (Some reward)] is [return true]. *)
Definition get_block_reward (median_weight current_block_weight already_generated_coins version : Z)
    : option (option Z) :=
  let target_minutes := Z.quot DIFFICULTY_TARGET 60 in
  let emission_speed_factor := EMISSION_SPEED_FACTOR_PER_MINUTE - (target_minutes - 1) in
  let full_reward_zone := get_min_block_weight version in
  if (0 <? median_weight) && (already_generated_coins <? premine) then Some (Some premine) else
  let base_reward := Z.shiftr (uwrap 64 (MONEY_SUPPLY - already_generated_coins)) emission_speed_factor in
  let subsidy := FINAL_SUBSIDY_PER_MINUTE * target_minutes in
  let base_reward := if base_reward <? subsidy then subsidy else base_reward in
  let median_weight := if median_weight <? full_reward_zone then full_reward_zone else median_weight in
  if current_block_weight <=? median_weight then Some (Some base_reward) else
  if uwrap 64 (2 * median_weight) <? current_block_weight then Some None else
  _ ← assert_ (median_weight <? 2 ^ 32 - 1);
  _ ← assert_ (current_block_weight <? 2 ^ 32 - 1);
  let multiplicand := uwrap 64 (2 * median_weight - current_block_weight) in
  let multiplicand := uwrap 64 (multiplicand * current_block_weight) in
  '(product_lo, product_hi) ← mul128 base_reward multiplicand;
  '(_, reward_hi, reward_lo) ← div128_32 product_hi product_lo (uwrap 32 median_weight);
  '(_, reward_hi, reward_lo) ← div128_32 reward_hi reward_lo (uwrap 32 median_weight);
  _ ← assert_ (0 =? reward_hi);
  _ ← assert_ (reward_lo <? base_reward);
  Some (Some reward_lo).

(** The amounts are those of the outputs of the miner's transaction, the weights
    those of the last blocks, [hf_version] is [m_hardfork->get_current_version()];
    the result is [base_reward] and [partial_block_reward]. *)
Definition validate_miner_transaction (amounts last_blocks_weights : list Z)
    (cumulative_block_weight fee already_generated_coins version hf_version : Z)
    : option (option (Z * bool)) :=
  let money_in_use := foldl (λ m o, uwrap 64 (m + o)) 0 amounts in
  if (version =? 3) && negb (forallb is_valid_decomposed_amount amounts) then Some None else
  m ← median last_blocks_weights;
  r ← get_block_reward m cumulative_block_weight already_generated_coins version;
  match r with
  | None => Some None
  | Some base_reward =>
    if (uwrap 64 (base_reward + fee) <? money_in_use) && (0 <? already_generated_coins) then Some None else
    if hf_version <? 2 then
      if negb (uwrap 64 (base_reward + fee) =? money_in_use) && (0 <? already_generated_coins)
      then Some None else Some (Some (base_reward, false))
    else
      if negb (uwrap 64 (money_in_use - fee) <=? base_reward) then Some None else
      Some (Some (uwrap 64 (money_in_use - fee), negb (uwrap 64 (base_reward + fee) =? money_in_use)))
  end.

End code.

(** The count stored with a block that generated [base_reward]. *)
Definition next_generated_coins (already_generated_coins base_reward : Z) : Z :=
  if base_reward <? uwrap 64 (MONEY_SUPPLY - already_generated_coins)
  then uwrap 64 (already_generated_coins + base_reward) else MONEY_SUPPLY.

(** ** The curve *)

(** The reward of a block of no more than the median weight. *)
Definition base_reward_at (g : Z) : Z := Z.max FINAL_SUBSIDY_PER_MINUTE ((MONEY_SUPPLY - g) / 2 ^ 20).

Definition effective_median (median_weight version : Z) : Z :=
  Z.max median_weight (get_min_block_weight version).

(** A heavier block loses the square of its relative excess. *)
Definition penalised (base m w : Z) : Z := base * ((2 * m - w) * w) / (m * m).

(** The reward, or none for a block that is too heavy: the premine for the first block
    whose predecessors have a weight, then the curve *)
Definition reward_at (median_weight w g version : Z) : option Z :=
  let m := effective_median median_weight version in
  let base := base_reward_at g in
  if (0 <? median_weight) && (g <? premine) then Some premine
  else if w <=? m then Some base
  else if 2 * m <? w then None else Some (penalised base m w).

Definition coins (g : Z) : Prop := 0 ≤ g ≤ MONEY_SUPPLY.

(** The weights that fit 32 bits; the code asserts it where it divides by the median. *)
Definition weight_ok (w : Z) : Prop := 0 ≤ w < 2 ^ 32 - 1.

Lemma min_weight_pos version : 20000 ≤ get_min_block_weight version ≤ 150000.
Proof.
  unfold get_min_block_weight. destruct (version <? 2), (version <? 5); vm_compute; split; discriminate.
Qed.

Lemma base_reward_bounds g : coins g → 30 ≤ base_reward_at g ≤ 2002716.
Proof.
  unfold coins, base_reward_at, MONEY_SUPPLY, FINAL_SUBSIDY_PER_MINUTE. intros Hg. zlia.
Qed.

Lemma penalised_bounds base m w :
  0 < base → 0 < m → m < w ≤ 2 * m → 0 ≤ penalised base m w < base.
Proof.
  intros Hb Hm Hw. unfold penalised. assert (0 ≤ (2 * m - w) * w < m * m) as Hx by nia.
  set (x := (2 * m - w) * w) in *. clearbody x.
  split; [apply Z.div_pos; nia|apply Z.div_lt_upper_bound; nia].
Qed.

Section reward.
Context `{Build}.

(** The two long divisions are the division by the square. *)
Lemma penalty_ok base m w :
  0 < base < 2 ^ 32 → 0 < m < 2 ^ 32 - 1 → m < w ≤ 2 * m →
  ('(product_lo, product_hi) ← mul128 base ((2 * m - w) * w);
   '(_, reward_hi, reward_lo) ← div128_32 product_hi product_lo m;
   '(_, reward_hi, reward_lo) ← div128_32 reward_hi reward_lo m;
   _ ← assert_ (0 =? reward_hi);
   _ ← assert_ (reward_lo <? base);
   Some (Some reward_lo)) = Some (Some (penalised base m w)).
Proof.
  intros Hb Hm Hw. pose proof (penalised_bounds base m w ltac:(lia) ltac:(lia) Hw) as Hp.
  assert (0 ≤ (2 * m - w) * w ≤ m * m) as Hx by nia.
  assert (m * m < 2 ^ 64) as Hm2 by nia.
  destruct (mul128_ok base ((2 * m - w) * w)) as (lo & hi & E & F & Hlo & Hhi); [unfold u64; lia..|].
  step E. cbn iota.
  destruct (div128_32_ok hi lo m) as (r1 & q1h & q1l & E1 & F1 & R1 & Q1 & Q1'); [done..|unfold u32; lia|lia|].
  step E1. cbn iota.
  destruct (div128_32_ok q1h q1l m) as (r2 & q2h & q2l & E2 & F2 & R2 & Q2 & Q2'); [done..|unfold u32; lia|lia|].
  step E2. cbn iota.
  assert (q2h * 2 ^ 64 + q2l = penalised base m w) as Eq.
  { unfold penalised. rewrite F, F1. set (a := q1h * 2 ^ 64 + q1l) in *.
    rewrite <- Z.div_div by lia. rewrite Z.div_add_l, (Z.div_small r1), Z.add_0_r by lia.
    rewrite F2, Z.div_add_l, (Z.div_small r2) by lia. lia. }
  unfold u64 in *. assert (q2h = 0) as -> by lia.
  assert (q2l = penalised base m w) as -> by lia.
  rewrite (assert_true (0 =? 0)) by reflexivity. cbn [mbind option_bind].
  by rewrite assert_true by (apply Z.ltb_lt; lia).
Qed.

Lemma get_block_reward_ok median_weight w g version :
  weight_ok median_weight → weight_ok w → coins g →
  get_block_reward median_weight w g version = Some (reward_at median_weight w g version).
Proof.
  intros Hmed Hw Hg. unfold get_block_reward, reward_at, weight_ok in *.
  destruct ((0 <? median_weight) && (g <? premine)) eqn:Hpre; [done|]. clear Hpre.
  set (m := effective_median median_weight version). set (base := base_reward_at g).
  change (Z.quot DIFFICULTY_TARGET 60) with 1. change (EMISSION_SPEED_FACTOR_PER_MINUTE - (1 - 1)) with 20.
  change (FINAL_SUBSIDY_PER_MINUTE * 1) with 30. pose proof (min_weight_pos version) as Hz.
  rewrite (uwrap_id 64) by (unfold coins, MONEY_SUPPLY in *; lia). rewrite Z.shiftr_div_pow2 by lia.
  set (raw := (MONEY_SUPPLY - g) / 2 ^ 20).
  assert ((if raw <? 30 then 30 else raw) = base) as ->.
  { unfold base, base_reward_at, FINAL_SUBSIDY_PER_MINUTE. fold raw. destruct (Z.ltb_spec raw 30); lia. }
  assert ((if median_weight <? get_min_block_weight version then get_min_block_weight version
           else median_weight) = m) as ->.
  { unfold m, effective_median. destruct (Z.ltb_spec median_weight (get_min_block_weight version)); lia. }
  assert (20000 ≤ m < 2 ^ 32 - 1) as Hm by (unfold m, effective_median; lia).
  pose proof (base_reward_bounds g Hg) as Hb. fold base in Hb. clearbody m base. cbv zeta.
  destruct (Z.leb_spec w m); [done|]. rewrite (uwrap_id 64 (2 * m)) by lia.
  destruct (Z.ltb_spec (2 * m) w); [done|].
  rewrite assert_true by (apply Z.ltb_lt; lia). cbn [mbind option_bind].
  rewrite assert_true by (apply Z.ltb_lt; lia). cbn [mbind option_bind].
  rewrite (uwrap_id 64 (2 * m - w)), (uwrap_id 32 m), (uwrap_id 64 (_ * _)) by nia.
  apply penalty_ok; lia.
Qed.

End reward.

(** ** What a miner may claim *)

Definition total (amounts : list Z) : Z := foldr Z.add 0 amounts.

(** The sum is one of 64-bit numbers. *)
Lemma money_in_use_ok amounts : foldl (λ m o, uwrap 64 (m + o)) 0 amounts = total amounts mod 2 ^ 64.
Proof.
  assert (∀ acc, foldl (λ m o, uwrap 64 (m + o)) (acc mod 2 ^ 64) amounts = (acc + total amounts) mod 2 ^ 64) as G.
  { induction amounts as [|a l IH]; intros acc; cbn [foldl total foldr]; [by rewrite Z.add_0_r|].
    unfold uwrap at 2. rewrite Zplus_mod_idemp_l, IH. f_equal. unfold total. lia. }
  exact (G 0).
Qed.

(** The median of such weights is one. *)
Lemma median_ok weights : Forall weight_ok weights → ∃ m, median weights = Some m ∧ weight_ok m.
Proof.
  intros HF. unfold median. destruct weights as [|x [|y l]].
  { exists 0. split; [done|]. unfold weight_ok. lia. }
  { apply Forall_cons_1 in HF as [Hx _]. by exists x. }
  set (v := x :: y :: l) in *. assert (2 ≤ length v)%nat as HL by (cbn; lia). clearbody v. clear x y l.
  pose proof (merge_sort_Permutation Z.le v) as HP. set (v' := merge_sort Z.le v) in *.
  assert (Forall weight_ok v') as HF' by (by rewrite HP). pose proof (Permutation_length HP) as HL'.
  pose proof (Nat.div_mod_eq (length v) 2) as Ed. pose proof (Nat.mod_upper_bound (length v) 2 ltac:(lia)) as Hr.
  destruct (lookup_lt_is_Some_2 v' (length v `div` 2)) as [b Eb]; [lia|].
  pose proof (proj1 (Forall_lookup _ _) HF' _ _ Eb) as Hb. destruct (negb _); [by exists b|].
  destruct (lookup_lt_is_Some_2 v' (length v `div` 2 - 1)) as [a Ea]; [lia|].
  pose proof (proj1 (Forall_lookup _ _) HF' _ _ Ea) as Ha. step Ea. step Eb.
  eexists. split; [reflexivity|]. unfold weight_ok in *. rewrite uwrap_id by lia. zlia.
Qed.

(** The base reward stored with the block and whether it is partial. *)
Definition claim (base fee money g hf_version : Z) : option (Z * bool) :=
  if hf_version <? 2
  then if (money =? base + fee) || (g =? 0) then Some (base, false) else None
  else if (fee <=? money) && (money <=? base + fee)
  then Some (money - fee, negb (money =? base + fee)) else None.

Section claims.
Context `{Build}.

(** What the outputs of version 3 have to be *)
Definition decomposed (version : Z) (amounts : list Z) : bool :=
  negb (version =? 3) || forallb is_valid_decomposed_amount amounts.

Lemma validate_ok amounts weights m w fee g version hf_version r :
  0 ≤ g → 0 ≤ fee → median weights = Some m → get_block_reward m w g version = Some r →
  (∀ base, r = Some base → 0 ≤ base ∧ base + fee < 2 ^ 64) →
  validate_miner_transaction amounts weights w fee g version hf_version =
    Some (if decomposed version amounts
      then r ≫= λ base, claim base fee (total amounts mod 2 ^ 64) g hf_version else None).
Proof.
  intros Hg Hf Em Er Hr. unfold validate_miner_transaction, decomposed.
  rewrite money_in_use_ok. rewrite <- (negb_involutive (version =? 3)) at 1. rewrite <- negb_orb.
  destruct (negb (version =? 3) || _); cbn [negb]; [|done].
  step Em. step Er. destruct r as [base|]; [|done]. destruct (Hr base eq_refl) as [Hb Hbf].
  pose proof (Z.mod_pos_bound (total amounts) (2 ^ 64) ltac:(lia)) as H0. set (money := total amounts mod 2 ^ 64) in *.
  cbn [mbind option_bind]. unfold claim. rewrite (uwrap_id 64 (base + fee)) by lia.
  clearbody money. rewrite (Z.eqb_sym money).
  assert ((money - fee) mod 2 ^ 64 = if fee <=? money then money - fee else 2 ^ 64 + money - fee) as Ew.
  { destruct (Z.leb_spec fee money); [apply Z.mod_small; lia|].
    symmetry. apply (Z.mod_unique_pos _ _ (-1)); lia. }
  unfold uwrap. rewrite Ew.
  destruct (Z.ltb_spec (base + fee) money), (Z.ltb_spec 0 g), (Z.ltb_spec hf_version 2),
    (Z.eqb_spec (base + fee) money), (Z.eqb_spec g 0), (Z.leb_spec fee money),
    (Z.leb_spec money (base + fee)); cbn [andb orb negb]; try lia; try done;
  match goal with |- context [?x <=? base] => destruct (Z.leb_spec x base) end; cbn [negb]; (done || lia).
Qed.

End claims.

(** ** The count of generated coins *)

Lemma next_generated_ok g r : coins g → 0 ≤ r → next_generated_coins g r = Z.min MONEY_SUPPLY (g + r).
Proof.
  unfold coins, next_generated_coins, MONEY_SUPPLY. intros Hg Hr. rewrite (uwrap_id 64 (_ - g)) by lia.
  destruct (Z.ltb_spec r (2100000000000 - g)); [rewrite uwrap_id|]; lia.
Qed.

(** A block is added whose miner was paid as validated. *)
Inductive mined `{Build} : Z → Z → Prop :=
  | mined_block amounts weights w fee version hf_version g base partial :
      Forall weight_ok weights → weight_ok w →
      validate_miner_transaction amounts weights w fee g version hf_version = Some (Some (base, partial)) →
      mined g (next_generated_coins g base).

(** What a block can be paid besides its fees. *)
Lemma reward_bounds m w g version base :
  weight_ok m → coins g → reward_at m w g version = Some base → 0 ≤ base ≤ premine.
Proof.
  intros Hm Hg. unfold reward_at. destruct (_ && _).
  { intros [= <-]. unfold premine. lia. }
  pose proof (base_reward_bounds g Hg). pose proof (min_weight_pos version).
  assert (0 < effective_median m version) by (unfold effective_median, weight_ok in *; lia). unfold premine.
  destruct (Z.leb_spec w (effective_median m version)); [intros [= <-]; lia|].
  destruct (Z.ltb_spec (2 * effective_median m version) w); [done|]. intros [= <-].
  pose proof (penalised_bounds (base_reward_at g) (effective_median m version) w). lia.
Qed.

(** What is counted is not more than the reward, whatever the fees and the amounts. *)
Lemma validated_base `{Build} amounts weights m w fee g version hf_version reward base partial :
  median weights = Some m → get_block_reward m w g version = Some reward →
  validate_miner_transaction amounts weights w fee g version hf_version = Some (Some (base, partial)) →
  ∃ r, reward = Some r ∧ (base = r ∨ 0 ≤ base ≤ r).
Proof.
  intros Em Er. unfold validate_miner_transaction. destruct (_ && _); [done|]. step Em. step Er.
  destruct reward as [r|]; [|done]. destruct (_ && _); [done|]. destruct (hf_version <? 2).
  - destruct (_ && _); [done|]. intros [= <- _]. exists r. tauto.
  - set (b := uwrap 64 (_ - fee)). assert (0 ≤ b) by (apply Z.mod_pos_bound; lia).
    destruct (Z.leb_spec b r); cbn [negb]; [|done]. intros [= <- _]. exists r. tauto.
Qed.

Lemma mined_ok `{Build} g g' : mined g g' → coins g → g ≤ g' ≤ MONEY_SUPPLY ∧ g' - g ≤ premine.
Proof.
  intros [amounts weights w fee version hf_version g0 base partial Hws Hw E] Hg.
  destruct (median_ok weights Hws) as (m & Em & Hm).
  destruct (validated_base _ _ m _ _ _ _ _ _ _ _ Em (get_block_reward_ok m w g0 version Hm Hw Hg) E) as (r & Er & Hb).
  pose proof (reward_bounds _ _ _ _ _ Hm Hg Er) as Hr.
  rewrite next_generated_ok by (done || lia). unfold coins in Hg. lia.
Qed.

Lemma mined_reachable `{Build} g g' : rtc mined g g' → coins g → coins g' ∧ g ≤ g'.
Proof.
  induction 1 as [g|g1 g2 g3 Hm _ IH]; intros Hg; [done|].
  destruct (mined_ok _ _ Hm Hg) as [H12 _]. destruct IH as [H3 H23]; unfold coins in *; lia.
Qed.

Lemma tail_reward m w g version :
  coins g → MONEY_SUPPLY - g < 31 * 2 ^ 20 → w ≤ effective_median m version →
  reward_at m w g version = Some FINAL_SUBSIDY_PER_MINUTE.
Proof.
  intros Hg Ht Hw. unfold reward_at, coins, MONEY_SUPPLY, premine in *.
  rewrite (proj2 (Z.ltb_ge g _)) by lia. rewrite andb_false_r, (proj2 (Z.leb_le w _)) by lia.
  f_equal. unfold base_reward_at, MONEY_SUPPLY, FINAL_SUBSIDY_PER_MINUTE. zlia.
Qed.

(** ** Claims *)

(** C29. The reward of a block in both builds, for weights below 2^32 - 1 and a count of coins
    up to the supply.  The premine, whatever the weight, as long as fewer coins were generated and the
    median of the weights is not 0.  Otherwise the rest of the supply over 2^20 and at least the final
    subsidy, up to the median weight (or the zone of full reward); beyond twice
    that the block is refused; between, the reward is the base times
    (2m - w)w/m^2, rounded down once, although the code divides twice, and is less
    than the base.  No assertion fails. *)
Theorem block_reward_spec (build : Build) (median_weight w g version : Z)
    (Hm : weight_ok median_weight) (Hw : weight_ok w) (Hg : coins g) :
  let m := effective_median median_weight version in
  let base := base_reward_at g in
  get_block_reward median_weight w g version = Some (
    if (0 <? median_weight) && (g <? premine) then Some premine
    else if w <=? m then Some base
    else if 2 * m <? w then None else Some (base * ((2 * m - w) * w) / (m * m)))
  ∧ (m < w ≤ 2 * m → 0 ≤ base * ((2 * m - w) * w) / (m * m) < base).
Proof.
  split; [exact (get_block_reward_ok median_weight w g version Hm Hw Hg)|]. intros Hr.
  pose proof (base_reward_bounds g Hg). pose proof (min_weight_pos version).
  apply penalised_bounds; [lia|unfold effective_median, weight_ok in *; lia|done].
Qed.

Lemma block_reward_spec_witness :
  @get_block_reward false 150000 200000 premine 9 = Some (Some 1691182)
  ∧ @get_block_reward false 0 10000 0 1 = Some (Some 2002716).
Proof.
  split.
  - destruct (block_reward_spec false 150000 200000 premine 9) as [E _];
      [unfold weight_ok; lia..|vm_compute; split; discriminate|].
    refine (eq_trans E _). vm_compute. reflexivity.
  - destruct (block_reward_spec false 0 10000 0 1) as [E _];
      [unfold weight_ok; lia..|vm_compute; split; discriminate|].
    refine (eq_trans E _). vm_compute. reflexivity.
Defined.

(** C30. What a miner may claim, for weights below 2^32 - 1, a count of coins up to the supply
    and fees below 2^64 less the premine.  The outputs add up modulo 2^64, and at version 3 each
    has to be a decomposed amount.  Before hard fork 2 the sum has to be exactly the reward and the
    fees, except when no coins were generated yet; from hard fork 2 on it can be anything between
    the fees and the fees plus the reward, and the block then counts with what was
    claimed beyond the fees. *)
Theorem miner_claim_spec (build : Build) (amounts weights : list Z) (w fee g version hf_version : Z)
    (Hws : Forall weight_ok weights) (Hw : weight_ok w) (Hg : coins g) (Hf : 0 ≤ fee < 2 ^ 64 - premine) :
  ∃ m, median weights = Some m ∧
    validate_miner_transaction amounts weights w fee g version hf_version =
      Some (if decomposed version amounts
        then reward_at m w g version ≫= λ base, claim base fee (total amounts mod 2 ^ 64) g hf_version
        else None).
Proof.
  destruct (median_ok weights Hws) as (m & Em & Hm). exists m. split; [exact Em|].
  apply (validate_ok _ _ m); [unfold coins in Hg; lia|lia|exact Em|by apply get_block_reward_ok|].
  intros base Hb. pose proof (reward_bounds _ _ _ _ _ Hm Hg Hb). lia.
Qed.

(** A claim below the fees, whose difference wraps around, is refused; 12 is not a decomposed amount. *)
Lemma miner_claim_spec_witness :
  @validate_miner_transaction false [5; 6] [100; 300; 200] 1000 12 premine 9 9 = Some None
  ∧ @validate_miner_transaction false [1000; 12] [100; 300; 200] 1000 12 premine 9 9
    = Some (Some (1000, true))
  ∧ @validate_miner_transaction false [1000; 12] [100; 300; 200] 1000 12 premine 3 3 = Some None.
Proof.
  assert (Forall weight_ok [100; 300; 200]) as Hws by (repeat constructor; unfold weight_ok; lia).
  assert (weight_ok 1000) as Hw by (unfold weight_ok; lia).
  assert (coins premine) as Hg by (vm_compute; split; discriminate).
  assert (0 ≤ 12 < 2 ^ 64 - premine) as Hf by (vm_compute; split; [discriminate|reflexivity]).
  split; [|split].
  - destruct (miner_claim_spec false [5; 6] _ 1000 12 premine 9 9 Hws Hw Hg Hf) as (m & [= <-] & E).
    refine (eq_trans E _). vm_compute. reflexivity.
  - destruct (miner_claim_spec false [1000; 12] _ 1000 12 premine 9 9 Hws Hw Hg Hf) as (m & [= <-] & E).
    refine (eq_trans E _). vm_compute. reflexivity.
  - destruct (miner_claim_spec false [1000; 12] _ 1000 12 premine 3 3 Hws Hw Hg Hf) as (m & [= <-] & E).
    refine (eq_trans E _). vm_compute. reflexivity.
Defined.

(** C28. The count of generated coins never passes [MONEY_SUPPLY] and never falls,
    in any sequence of blocks whose weights are below 2^32 - 1 and whose miners were paid as validated,
    whatever the versions, the fees and the amounts; so the subtraction in the formula of the
    reward does not wrap around.  Once less than 31 * 2^20 is left of the supply, a block of no more
    than the median weight is paid the final subsidy, for ever. *)
Theorem supply_spec (build : Build) (g g' : Z) (Hg : coins g) (Hr : rtc mined g g') :
  0 ≤ g' ≤ MONEY_SUPPLY ∧ g ≤ g'
  ∧ uwrap 64 (MONEY_SUPPLY - g') = MONEY_SUPPLY - g'
  ∧ (MONEY_SUPPLY - g < 31 * 2 ^ 20 → ∀ m w version, weight_ok m → weight_ok w → w ≤ effective_median m version →
      get_block_reward m w g' version = Some (Some FINAL_SUBSIDY_PER_MINUTE)).
Proof.
  destruct (mined_reachable g g' Hr Hg) as [Hc Hle]. split; [exact Hc|]. split; [exact Hle|].
  split; [apply uwrap_id; unfold coins, MONEY_SUPPLY in *; lia|]. intros Ht m w version Hm Hw Hwm.
  rewrite get_block_reward_ok by done. f_equal. apply tail_reward; [exact Hc|lia|exact Hwm].
Qed.

Lemma supply_spec_witness :
  (0 ≤ 2002716 ≤ MONEY_SUPPLY ∧ 0 ≤ 2002716)
  ∧ @get_block_reward false 100 1000 MONEY_SUPPLY 9 = Some (Some FINAL_SUBSIDY_PER_MINUTE).
Proof.
  split.
  - destruct (supply_spec false 0 2002716) as (H1 & H2 & _).
    + vm_compute. split; discriminate.
    + apply rtc_once. apply (mined_block (H := false) [1] [] 100 0 1 1 0 2002716 false);
        [constructor|unfold weight_ok; lia|vm_compute; reflexivity].
    + split; [exact H1|exact H2].
  - destruct (supply_spec false MONEY_SUPPLY MONEY_SUPPLY) as (_ & _ & _ & HT);
      [vm_compute; split; discriminate|reflexivity|].
    apply HT; [vm_compute; reflexivity|unfold weight_ok; lia|unfold weight_ok; lia|vm_compute; discriminate].
Defined.
