(* ===== verification/HardFork.v ===== *)
(** * The hard-fork vote: [cryptonote_basic/hardfork.cpp]

    The versions of the protocol, the window of votes and the current fork: a
    state machine that is fed the blocks of the chain, and rebuilt from the
    database when the node starts or the chain is reorganised. *)

From S2P Require Export Interfaces.
From stdpp Require Export gmap.

#[local] Open Scope Z_scope.

Record params := Params {
  version : Z;
  threshold : Z;
  height : Z;
  time : Z
}.

(** The members of [HardFork] that are set once. *)
Record config := Config {
  original_version : Z;
  original_version_till_height : Z;
  forked_time : Z;
  update_time : Z;
  window_size : nat;
  default_threshold_percent : Z
}.

(** The members that change. *)
Record hard_fork := HardFork {
  heights : list params;
  versions : list Z;
  last_versions : list Z;
  current_fork_index : nat
}.

(** A block as far as the vote is concerned. *)
Record voting_block := VotingBlock { major_version : Z; minor_version : Z }.

(** The database: the blocks by height and the versions stored for them. *)
Record hf_db := HfDb { db_blocks : list voting_block; db_versions : gmap nat Z }.

Definition get_block_vote (b : voting_block) : Z :=
  if minor_version b =? 0 then 1 else minor_version b.

Definition get_block_version (b : voting_block) : Z := major_version b.

(** The constructor throws on a window or a percentage that makes no sense. *)
Definition config_ok (c : config) : bool :=
  negb (window_size c =? 0)%nat && (default_threshold_percent c <=? 100).

Definition add_fork (hf : hard_fork) (v h t tm : Z) : bool * hard_fork :=
  if v =? 0 then (false, hf) else
  if match last (heights hf) with
     | Some p => (v <=? version p) || (h <=? height p) || (tm <=? time p)
     | None => false
     end then (false, hf) else
  if 100 <? t then (false, hf) else
  (true, HardFork (heights hf ++ [Params v t h tm]) (versions hf) (last_versions hf)
           (current_fork_index hf)).

Definition get_effective_version (hf : hard_fork) (voting_version : Z) : Z :=
  match last (heights hf) with
  | Some p => if version p <? voting_version then version p else voting_version
  | None => voting_version
  end.

Definition do_check (hf : hard_fork) (block_version voting_version : Z) : option bool :=
  p ← heights hf !! current_fork_index hf;
  Some ((block_version =? version p) && (version p <=? voting_version)).

(** The loop of [get_voted_fork_index], [n] downwards while it is above the
    current index; the votes accumulate in 32 bits. *)
Fixpoint voted_loop (c : config) (hf : hard_fork) (h : Z) (n : nat) (accumulated_votes : Z) : option nat :=
  match n with
  | O => Some (current_fork_index hf)
  | S m =>
    if (n <=? current_fork_index hf)%nat then Some (current_fork_index hf) else
    p ← heights hf !! n;
    votes ← last_versions hf !! Z.to_nat (version p);
    let accumulated_votes := uwrap 32 (accumulated_votes + votes) in
    let needed := uwrap 32 (uwrap 64 (Z.of_nat (window_size c) * threshold p + 99) / 100) in
    if (height p <=? h) && (needed <=? accumulated_votes) then Some n
    else voted_loop c hf h m accumulated_votes
  end.

Definition get_voted_fork_index (c : config) (hf : hard_fork) (h : Z) : option nat :=
  voted_loop c hf h (length (heights hf) - 1) 0.

(** [uint8_t voted = ...; if (voted > current_fork_index) ...] *)
Definition advance (c : config) (hf : hard_fork) (h : Z) : option hard_fork :=
  voted ← get_voted_fork_index c hf h;
  let voted := Z.to_nat (uwrap 8 (Z.of_nat voted)) in
  Some (if (current_fork_index hf <? voted)%nat
        then HardFork (heights hf) (versions hf) (last_versions hf) voted else hf).

Section code.
Context `{Build}.

(** [while (versions.size() >= window_size)]: a vote leaves the window. *)
Fixpoint drop_votes (window : nat) (vs counts : list Z) : option (list Z * list Z) :=
  if (window <=? length vs)%nat then
    match vs with
    | [] => None
    | old_version :: vs =>
      n ← counts !! Z.to_nat old_version;
      _ ← assert_ (1 <=? n);
      drop_votes window vs (<[Z.to_nat old_version := uwrap 32 (n - 1)]> counts)
    end
  else Some (vs, counts).

(** A vote is counted. *)
Definition count_vote (v : Z) (vs counts : list Z) : option (list Z * list Z) :=
  n ← counts !! Z.to_nat v;
  Some (vs ++ [v], <[Z.to_nat v := uwrap 32 (n + 1)]> counts).

(** [None] in the result is [return false]: the state and the database are unchanged. *)
Definition add (c : config) (hf : hard_fork) (stored : gmap nat Z) (b : voting_block) (h : nat)
    : option (option (hard_fork * gmap nat Z)) :=
  ok ← do_check hf (get_block_version b) (get_block_vote b);
  if negb ok then Some None else
  p ← heights hf !! current_fork_index hf;
  let stored := <[h := version p]> stored in
  let voting_version := get_effective_version hf (get_block_vote b) in
  '(vs, counts) ← drop_votes (window_size c) (versions hf) (last_versions hf);
  '(vs, counts) ← count_vote voting_version vs counts;
  hf ← advance c (HardFork (heights hf) vs counts (current_fork_index hf)) (Z.of_nat h + 1);
  Some (Some (hf, stored)).

(** The loop that counts the votes of stored blocks. *)
Fixpoint scan (hf : hard_fork) (bs : list voting_block) (vs counts : list Z) : option (list Z * list Z) :=
  match bs with
  | [] => Some (vs, counts)
  | b :: bs =>
    '(vs, counts) ← count_vote (get_effective_version hf (get_block_vote b)) vs counts;
    scan hf bs vs counts
  end.

Definition zero_counts : list Z := replicate 256 0.

(** [while (current_fork_index + 1 < heights.size() && heights[current_fork_index].version != lastv)] *)
Fixpoint find_version (hs : list params) (lastv : Z) : nat :=
  match hs with
  | [] => 0%nat
  | p :: hs =>
    match hs with
    | [] => 0%nat
    | _ => if version p =? lastv then 0%nat else S (find_version hs lastv)
    end
  end.

Definition rescan_from_block_height (c : config) (hf : hard_fork) (db : hf_db) (h : nat)
    : option (option hard_fork) :=
  let bc_height := length (db_blocks db) in
  if (bc_height <=? h)%nat then Some None else
  '(vs, counts) ← scan hf (drop h (db_blocks db)) [] zero_counts;
  lastv ← db_versions db !! (bc_height - 1)%nat;
  hf ← advance c (HardFork (heights hf) vs counts (find_version (heights hf) lastv)) (Z.of_nat bc_height);
  Some (Some hf).

(** [while (current_fork_index > 0 && heights[current_fork_index].version > start_version)] *)
Fixpoint step_back (hs : list params) (start_version : Z) (i : nat) : option nat :=
  match i with
  | O => Some O
  | S j => p ← hs !! i; if start_version <? version p then step_back hs start_version j else Some i
  end.

(** [add] for the blocks from [h]; its result is not looked at. *)
Fixpoint add_all (c : config) (hf : hard_fork) (stored : gmap nat Z) (bs : list voting_block) (h : nat)
    : option (hard_fork * gmap nat Z) :=
  match bs with
  | [] => Some (hf, stored)
  | b :: bs =>
    r ← add c hf stored b h;
    let '(hf, stored) := default (hf, stored) r in
    add_all c hf stored bs (S h)
  end.

Definition reorganize_from_block_height (c : config) (hf : hard_fork) (db : hf_db) (h : nat)
    : option (option (hard_fork * gmap nat Z)) :=
  let bc_height := length (db_blocks db) in
  if (bc_height <=? h)%nat then Some None else
  let rescan_height := if (window_size c - 1 <=? h)%nat then (h - (window_size c - 1))%nat else 0%nat in
  start_version ← if (h =? 0)%nat then Some (original_version c) else db_versions db !! h;
  i ← step_back (heights hf) start_version (current_fork_index hf);
  '(vs, counts) ← scan hf (take (S h - rescan_height) (drop rescan_height (db_blocks db))) [] zero_counts;
  hf ← advance c (HardFork (heights hf) vs counts i) (Z.of_nat h + 1);
  r ← add_all c hf (db_versions db) (drop (S h) (db_blocks db)) (S h);
  Some (Some r).

(** [init]; the results of the two calls are not looked at. *)
Definition init (c : config) (hf : hard_fork) (db : hf_db) : option (hard_fork * gmap nat Z) :=
  let hs := match heights hf with [] => [Params (original_version c) 0 0 0] | hs => hs end in
  let hf := HardFork hs [] zero_counts 0 in
  let bc_height := length (db_blocks db) in
  let h := if (window_size c <? bc_height)%nat then (bc_height - (window_size c - 1))%nat else 1%nat in
  match db_versions db !! 0%nat with
  | None =>
    r ← reorganize_from_block_height c hf db 0;
    let '(hf, stored) := default (hf, db_versions db) r in
    Some (hf, <[0%nat := original_version c]> stored)
  | Some _ =>
    r ← if (h =? 0)%nat then Some None else rescan_from_block_height c hf db (h - 1);
    Some (default hf r, db_versions db)
  end.

Definition get_current_version (hf : hard_fork) : option Z :=
  version <$> heights hf !! current_fork_index hf.

End code.

(** ** Queries *)

Definition do_check_for_height (c : config) (hf : hard_fork) (block_version voting_version h : Z)
    : option bool :=
  fork_index ← get_voted_fork_index c hf h;
  p ← heights hf !! fork_index;
  Some ((block_version =? version p) && (version p <=? voting_version)).

(** The version meant for a height, [n] downwards. *)
Fixpoint ideal_loop (c : config) (hs : list params) (h : Z) (n : nat) : option Z :=
  match n with
  | O => Some (original_version c)
  | S m => p ← hs !! n; if height p <=? h then Some (version p) else ideal_loop c hs h m
  end.

Definition get_ideal_version (c : config) (hf : hard_fork) (h : Z) : option Z :=
  ideal_loop c (heights hf) h (length (heights hf) - 1).

Inductive fork_state := LikelyForked | UpdateNeeded | Ready.

Definition get_state (c : config) (hf : hard_fork) (t : Z) : option fork_state :=
  if (length (heights hf) <=? 1)%nat then Some Ready else
  p ← last (heights hf);
  forked ← chk 64 (time p + forked_time c);
  if forked <=? t then Some LikelyForked else
  update ← chk 64 (time p + update_time c);
  if update <=? t then Some UpdateNeeded else Some Ready.
