(* ===== verification/HardForkSpec.v ===== *)
(** * The hard-fork vote: the state is a function of the chain

    The window, the counts and the current fork after any chain of accepted
    blocks; a restart and a reorganisation rebuild exactly this state. *)

From S2P Require Export HardFork.

#[local] Open Scope Z_scope.

(** ** The table of forks *)

Record table_ok (hs : list params) : Prop := {
  table_cons : hs ≠ [];
  table_bytes : ∀ i p, hs !! i = Some p → 0 < version p < 256;
  table_sorted : ∀ i j p q, (i < j)%nat → hs !! i = Some p → hs !! j = Some q →
    version p < version q ∧ height p < height q
}.

Lemma table_inj hs i j p q :
  table_ok hs → hs !! i = Some p → hs !! j = Some q → version p = version q → i = j.
Proof.
  intros Ht Ep Eq E. destruct (Nat.lt_trichotomy i j) as [Hlt|[->|Hlt]]; [|done|].
  - destruct (table_sorted hs Ht i j p q Hlt Ep Eq). lia.
  - destruct (table_sorted hs Ht j i q p Hlt Eq Ep). lia.
Qed.

(** Versions are bytes: there are fewer than 256. *)
Lemma table_index hs i p : table_ok hs → hs !! i = Some p → Z.of_nat i < version p.
Proof.
  intros Ht. revert p. induction i as [|i IH]; intros p Ep.
  - destruct (table_bytes hs Ht 0 p Ep). lia.
  - destruct (lookup_lt_is_Some_2 hs i) as [q Eq]; [apply lookup_lt_Some in Ep; lia|].
    specialize (IH q Eq). destruct (table_sorted hs Ht i (S i) q p ltac:(lia) Eq Ep). lia.
Qed.

Lemma table_length hs : table_ok hs → (0 < length hs < 256)%nat.
Proof.
  intros Ht. assert (0 < length hs)%nat as Hpos by (destruct hs; [by destruct (table_cons _ Ht)|cbn; lia]).
  destruct (lookup_lt_is_Some_2 hs (length hs - 1)) as [p Ep]; [lia|].
  pose proof (table_index hs _ p Ht Ep). destruct (table_bytes hs Ht _ p Ep). lia.
Qed.

Lemma find_version_ok hs i p : table_ok hs → hs !! i = Some p → find_version hs (version p) = i.
Proof.
  intros Ht Ep.
  assert (∀ k hs', hs' = drop k hs → ∀ j, hs !! (k + j)%nat = Some p → find_version hs' (version p) = j) as G.
  { intros k hs'. revert k. induction hs' as [|q hs' IH]; intros k Ek j Ej.
    { rewrite <- lookup_drop, <- Ek in Ej. discriminate Ej. }
    assert (hs !! k = Some q) as Eq by (rewrite <- (Nat.add_0_r k), <- lookup_drop, <- Ek; done).
    assert (hs' = drop (S k) hs) as Ek' by (rewrite <- Nat.add_1_r, <- drop_drop, <- Ek; done).
    cbn [find_version]. destruct hs' as [|q' hs''].
    { rewrite <- lookup_drop, <- Ek in Ej. destruct j; [done|discriminate Ej]. }
    destruct (Z.eqb_spec (version q) (version p)) as [E|E].
    - apply (table_inj hs k (k + j) q p Ht Eq Ej) in E. lia.
    - destruct j as [|j]; [rewrite Nat.add_0_r in Ej; congruence|]. f_equal.
      apply (IH (S k) Ek' j). by rewrite Nat.add_succ_comm. }
  by apply (G 0%nat hs).
Qed.

Lemma step_back_ok hs i j p :
  table_ok hs → hs !! i = Some p → (i ≤ j < length hs)%nat → step_back hs (version p) j = Some i.
Proof.
  intros Ht Ep Hj. induction j as [|j IH]; [by replace i with 0%nat by lia|]. cbn [step_back].
  destruct (lookup_lt_is_Some_2 hs (S j)) as [q Eq]; [lia|]. rewrite Eq. cbn [mbind option_bind].
  destruct (decide (i = S j)) as [->|Hne].
  - assert (p = q) as -> by congruence. by rewrite Z.ltb_irrefl.
  - destruct (table_sorted hs Ht i (S j) p q ltac:(lia) Ep Eq) as [Hv _].
    rewrite (proj2 (Z.ltb_lt _ _) Hv). apply IH. lia.
Qed.

(** ** The window and its counts *)

Definition lastn {A} (n : nat) (l : list A) : list A := drop (length l - n) l.

Definition count (v : Z) (vs : list Z) : Z := Z.of_nat (length (filter (λ x, x = v) vs)).

Definition byte (v : Z) : Prop := 0 ≤ v < 256.

(** The array of counts of a window. *)
Definition counts_of (vs : list Z) : list Z := (λ i, count (Z.of_nat i) vs) <$> seq 0 256.

Lemma counts_lookup vs v : byte v → counts_of vs !! Z.to_nat v = Some (count v vs).
Proof.
  intros Hv. unfold counts_of, byte in *. rewrite list_lookup_fmap, lookup_seq_lt by lia. cbn.
  by rewrite Z2Nat.id by lia.
Qed.

Lemma count_bound v vs : 0 ≤ count v vs ≤ Z.of_nat (length vs).
Proof. unfold count. pose proof (length_filter (λ x, x = v) vs). lia. Qed.

(** An update of one count, where the counts of two windows differ. *)
Lemma counts_insert v vs vs' n :
  byte v → n = count v vs' → (∀ u, u ≠ v → count u vs' = count u vs) →
  <[Z.to_nat v := n]> (counts_of vs) = counts_of vs'.
Proof.
  intros Hv -> Hu. apply list_eq. intros i. unfold byte in Hv.
  destruct (decide (i < 256)%nat) as [Hi|Hi].
  2:{ rewrite !lookup_ge_None_2; [done|..]; rewrite ?length_insert; unfold counts_of;
      rewrite length_fmap, length_seq; lia. }
  destruct (decide (i = Z.to_nat v)) as [->|Hne].
  - rewrite list_lookup_insert_eq by (unfold counts_of; rewrite length_fmap, length_seq; lia).
    symmetry. by apply counts_lookup.
  - rewrite list_lookup_insert_ne by done. unfold counts_of.
    rewrite !list_lookup_fmap, lookup_seq_lt by done. cbn. f_equal. symmetry. apply Hu. lia.
Qed.

Lemma count_snoc u v vs : count u (vs ++ [v]) = count u vs + (if decide (v = u) then 1 else 0).
Proof.
  unfold count. rewrite filter_app, length_app, filter_cons, filter_nil.
  destruct (decide (v = u)); cbn [length]; lia.
Qed.

Lemma count_cons u v vs : count u (v :: vs) = (if decide (v = u) then 1 else 0) + count u vs.
Proof. unfold count. rewrite filter_cons. destruct (decide (v = u)); cbn [length]; lia. Qed.

Lemma count_vote_ok v vs :
  byte v → Z.of_nat (length vs) < 2 ^ 32 - 1 →
  count_vote v vs (counts_of vs) = Some (vs ++ [v], counts_of (vs ++ [v])).
Proof.
  intros Hv Hl. unfold count_vote. rewrite counts_lookup by done. cbn [mbind option_bind].
  pose proof (count_bound v vs). unfold uwrap. rewrite Z.mod_small by lia.
  rewrite (counts_insert v vs (vs ++ [v])); [done|done|..].
  - rewrite count_snoc, decide_True by done. lia.
  - intros u Hu. rewrite count_snoc, decide_False by congruence. lia.
Qed.

Section window.
Context `{Build}.

Lemma drop_votes_ok window vs :
  (1 ≤ window)%nat → Forall byte vs → Z.of_nat (length vs) < 2 ^ 32 →
  drop_votes window vs (counts_of vs) = Some (lastn (window - 1) vs, counts_of (lastn (window - 1) vs)).
Proof.
  intros Hw Hb. induction Hb as [|v vs Hv Hb IH]; intros Hl; unfold lastn.
  - cbn [drop_votes length]. by rewrite (proj2 (Nat.leb_gt window 0)) by lia.
  - cbn [drop_votes]. destruct (Nat.leb_spec window (length (v :: vs))) as [Hle|Hgt].
    + rewrite counts_lookup by done. cbn [mbind option_bind length] in *.
      pose proof (count_bound v vs). pose proof (count_cons v v vs) as Ec. rewrite decide_True in Ec by done.
      rewrite assert_true by (apply Z.leb_le; lia). cbn [mbind option_bind].
      unfold uwrap. rewrite Z.mod_small by lia.
      rewrite (counts_insert v (v :: vs) vs); [|done|lia|].
      2:{ intros u Hu. rewrite count_cons, decide_False by congruence. lia. }
      rewrite IH by lia. unfold lastn.
      replace (S (length vs) - (window - 1))%nat with (S (length vs - (window - 1))) by lia. done.
    + by replace (length (v :: vs) - (window - 1))%nat with 0%nat by lia.
Qed.

End window.

(** ** The votes of a chain *)

Definition vote (hs : list params) (b : voting_block) : Z :=
  get_effective_version (HardFork hs [] [] 0) (get_block_vote b).

Definition block_ok (b : voting_block) : Prop := 0 ≤ minor_version b < 256.

Lemma effective_heights hf v :
  get_effective_version hf v = get_effective_version (HardFork (heights hf) [] [] 0) v.
Proof. done. Qed.

Lemma vote_byte hs b : table_ok hs → block_ok b → byte (vote hs b).
Proof.
  intros Ht Hb. unfold vote, get_effective_version, get_block_vote, byte, block_ok in *. cbn [heights].
  destruct (last hs) as [p|] eqn:E; [|destruct (Z.eqb_spec (minor_version b) 0); lia].
  rewrite last_lookup in E. destruct (table_bytes hs Ht _ p E) as [H1 H2].
  destruct (Z.eqb_spec (minor_version b) 0);
    match goal with |- context [if ?x then _ else _] => destruct x end; lia.
Qed.

Lemma votes_bytes hs bs : table_ok hs → Forall block_ok bs → Forall byte (vote hs <$> bs).
Proof.
  intros Ht Hb. apply Forall_fmap. apply Forall_forall. intros b Hin.
  rewrite Forall_forall in Hb. apply vote_byte; [done|]. by apply Hb.
Qed.

Lemma lastn_fmap {A B} (f : A → B) n l : lastn n (f <$> l) = f <$> lastn n l.
Proof. unfold lastn. by rewrite length_fmap, fmap_drop. Qed.

Lemma length_lastn {A} n (l : list A) : length (lastn n l) = (n `min` length l)%nat.
Proof. unfold lastn. rewrite length_drop. lia. Qed.

(** One vote more. *)
Lemma lastn_snoc {A} n (l : list A) x : (1 ≤ n)%nat → lastn n (l ++ [x]) = lastn (n - 1) (lastn n l) ++ [x].
Proof.
  intros Hn. unfold lastn. rewrite length_app, length_drop. cbn [length]. rewrite drop_drop, drop_app_le by lia.
  f_equal. f_equal. lia.
Qed.

Lemma scan_ok hf bs vs :
  Forall byte (vote (heights hf) <$> bs) → Z.of_nat (length vs + length bs) < 2 ^ 32 →
  scan hf bs vs (counts_of vs) =
    Some (vs ++ (vote (heights hf) <$> bs), counts_of (vs ++ (vote (heights hf) <$> bs))).
Proof.
  revert vs. induction bs as [|b bs IH]; intros vs Hb Hl; cbn [scan fmap list_fmap length] in *.
  - by rewrite app_nil_r.
  - apply Forall_cons_1 in Hb as [Hv Hb]. rewrite effective_heights. fold (vote (heights hf) b).
    rewrite count_vote_ok by (done || lia). cbn [mbind option_bind].
    rewrite IH; [by rewrite <- app_assoc|done|rewrite length_app; cbn [length]; lia].
Qed.

Lemma zero_counts_ok : zero_counts = counts_of [].
Proof. reflexivity. Qed.

(** ** The current fork *)

Lemma voted_loop_ok c hf h n acc :
  table_ok (heights hf) → length (last_versions hf) = 256%nat → (n < length (heights hf))%nat →
  (current_fork_index hf < length (heights hf))%nat →
  ∃ r, voted_loop c hf h n acc = Some r ∧ (current_fork_index hf ≤ r < length (heights hf))%nat.
Proof.
  intros Ht Hl Hn Hc. revert acc. induction n as [|n IH]; intros acc; cbn [voted_loop].
  { eexists. split; [done|]. lia. }
  destruct (Nat.leb_spec (S n) (current_fork_index hf)); [eexists; split; [done|]; lia|].
  destruct (lookup_lt_is_Some_2 (heights hf) (S n) Hn) as [p Ep]. rewrite Ep. cbn [mbind option_bind].
  destruct (table_bytes _ Ht _ p Ep) as [H1 H2].
  destruct (lookup_lt_is_Some_2 (last_versions hf) (Z.to_nat (version p))) as [k Ek]; [lia|].
  rewrite Ek. cbn [mbind option_bind].
  match goal with |- context [if ?x then _ else _] => destruct x end; [eexists; split; [done|]; lia|].
  apply IH. lia.
Qed.

Definition with_index (hf : hard_fork) (i : nat) : hard_fork :=
  HardFork (heights hf) (versions hf) (last_versions hf) i.

Lemma advance_ok c hf h :
  table_ok (heights hf) → length (last_versions hf) = 256%nat →
  (current_fork_index hf < length (heights hf))%nat →
  ∃ i, get_voted_fork_index c hf h = Some i ∧ advance c hf h = Some (with_index hf i)
    ∧ (current_fork_index hf ≤ i < length (heights hf))%nat.
Proof.
  intros Ht Hl Hc. unfold advance, get_voted_fork_index.
  destruct (voted_loop_ok c hf h (length (heights hf) - 1) 0 Ht Hl ltac:(lia) Hc) as (i & E & Hi).
  exists i. split; [done|]. split; [|done]. step E. pose proof (table_length _ Ht).
  unfold uwrap. rewrite Z.mod_small, Nat2Z.id by (change (2 ^ 8) with 256; lia).
  destruct (Nat.ltb_spec (current_fork_index hf) i); [done|].
  replace i with (current_fork_index hf) by lia. by destruct hf.
Qed.

Lemma counts_length vs : length (counts_of vs) = 256%nat.
Proof. unfold counts_of. by rewrite length_fmap, length_seq. Qed.

(** ** The state of a chain *)

Section chain.
Context `{Build} (c : config) (hs : list params).
Hypothesis table : table_ok hs.
Hypothesis window_pos : (1 ≤ window_size c)%nat.
Hypothesis window_u32 : Z.of_nat (window_size c) < 2 ^ 32 - 1.

(** The node that was fed the blocks one after the other, from a new
    database; [None] of [add] would be a block of the wrong version. *)
Inductive hf_run : list voting_block → hard_fork → gmap nat Z → Prop :=
  | run_nil stored : hf_run [] (HardFork hs [] zero_counts 0) stored
  | run_add bs hf stored b hf' stored' :
      hf_run bs hf stored → block_ok b →
      add c hf stored b (length bs) = Some (Some (hf', stored')) →
      hf_run (bs ++ [b]) hf' stored'.

(** The state before the vote of the next version. *)
Definition state_of (bs : list voting_block) (i : nat) : hard_fork :=
  let vs := lastn (window_size c) (vote hs <$> bs) in HardFork hs vs (counts_of vs) i.

Lemma state_votes_length bs i : Z.of_nat (length (versions (state_of bs i))) ≤ Z.of_nat (window_size c).
Proof. unfold state_of. cbn [versions]. rewrite length_lastn. lia. Qed.

(** [add] in one equation. *)
Lemma add_ok bs i p stored b :
  Forall block_ok bs → block_ok b → hs !! i = Some p →
  add c (state_of bs i) stored b (length bs) =
    if (get_block_version b =? version p) && (version p <=? get_block_vote b)
    then hf ← advance c (state_of (bs ++ [b]) i) (Z.of_nat (length bs) + 1);
         Some (Some (hf, <[length bs := version p]> stored))
    else Some None.
Proof.
  intros Hbs Hb Ep. unfold add, do_check. cbn [heights current_fork_index state_of].
  rewrite Ep. cbn [mbind option_bind].
  destruct ((get_block_version b =? version p) && (version p <=? get_block_vote b)); [|done]. cbn [negb].
  set (w := window_size c). set (vs := lastn w (vote hs <$> bs)).
  assert (Forall byte vs) as Hv by (apply Forall_drop, votes_bytes; done).
  assert (length vs ≤ w)%nat as Hl by (unfold vs; rewrite length_lastn; lia).
  change (get_effective_version (state_of bs i) (get_block_vote b)) with (vote hs b).
  change (versions (state_of bs i)) with vs. change (last_versions (state_of bs i)) with (counts_of vs).
  rewrite drop_votes_ok; [|done|done|unfold w in *; lia]. cbn [mbind option_bind].
  rewrite count_vote_ok; [|by apply vote_byte|rewrite length_lastn; unfold w in *; lia].
  cbn [mbind option_bind versions last_versions].
  assert (lastn w (vote hs <$> (bs ++ [b])) = lastn (w - 1) vs ++ [vote hs b]) as Es
    by (rewrite fmap_app; by apply lastn_snoc).
  unfold state_of. fold w. rewrite Es. done.
Qed.

Lemma add_all_app hf stored l l' h :
  add_all c hf stored (l ++ l') h =
    r ← add_all c hf stored l h; add_all c r.1 r.2 l' (h + length l).
Proof.
  revert hf stored h. induction l as [|b l IH]; intros hf stored h; cbn [app add_all length].
  - by rewrite Nat.add_0_r.
  - destruct (add c hf stored b h) as [r|]; [|done]. cbn [mbind option_bind].
    destruct (default (hf, stored) r) as [hf' stored']. rewrite IH. by rewrite Nat.add_succ_comm.
Qed.

(** What the database says of block [k]: the version stored for it has the index
    [j] that was current before its vote, and the blocks after it lead to [hf]. *)
Record past (bs : list voting_block) (hf : hard_fork) (stored : gmap nat Z) (i k j : nat) (p : params)
    : Prop := {
  past_params : hs !! j = Some p;
  past_stored : stored !! k = Some (version p);
  past_genesis : k = 0%nat → j = 0%nat;
  past_le : (j ≤ i)%nat;
  past_replay : ∃ i', advance c (state_of (take (S k) bs) j) (Z.of_nat k + 1) =
      Some (state_of (take (S k) bs) i')
    ∧ ∀ stored', (∀ m, (k < m < length bs)%nat → stored' !! m = stored !! m) →
        add_all c (state_of (take (S k) bs) i') stored' (drop (S k) bs) (S k) = Some (hf, stored')
}.

Record chain_ok (bs : list voting_block) (hf : hard_fork) (stored : gmap nat Z) (i : nat) : Prop := {
  chain_blocks : Forall block_ok bs;
  chain_state : hf = state_of bs i;
  chain_index : (i < length hs)%nat;
  chain_start : bs = [] → i = 0%nat;
  chain_past : ∀ k, (k < length bs)%nat → ∃ j p, past bs hf stored i k j p
}.

Lemma chain_add bs hf stored i b hf' stored' :
  chain_ok bs hf stored i → block_ok b →
  add c hf stored b (length bs) = Some (Some (hf', stored')) →
  ∃ i', chain_ok (bs ++ [b]) hf' stored' i'.
Proof.
  intros [Hbs -> Hi H0 Hpast] Hb E. destruct (lookup_lt_is_Some_2 hs i Hi) as [p Ep].
  pose proof E as Eadd. rewrite (add_ok bs i p) in E by done.
  destruct ((get_block_version b =? version p) && (version p <=? get_block_vote b)) eqn:Echk; [|discriminate E].
  destruct (advance_ok c (state_of (bs ++ [b]) i) (Z.of_nat (length bs) + 1)) as (i' & _ & Ea & Hi');
    [done|apply counts_length|done|].
  rewrite Ea in E. cbn [mbind option_bind] in E. injection E as <- <-.
  assert (length (bs ++ [b]) = S (length bs)) as El by (rewrite length_app; cbn; lia).
  cbn [current_fork_index heights state_of] in Hi'. exists i'. split; [by apply Forall_app; split; [|constructor]|
    done|lia|intros E; by destruct bs|].
  intros k Hk. rewrite El in Hk. destruct (decide (k = length bs)) as [->|Hne].
  - exists i, p. split; [done|by rewrite lookup_insert_eq|..|lia|].
    { intros E0. apply H0. by destruct bs. }
    rewrite take_ge, drop_ge by lia. exists i'. split; [done|]. done.
  - destruct (Hpast k ltac:(lia)) as (j & q & [Hq Hs Hg Hle (i0 & Ei & Hrep)]). exists j, q.
    split; [done|by rewrite lookup_insert_ne by lia|done|lia|]. exists i0.
    rewrite take_app_le, drop_app_le by lia. split; [done|]. intros st Hst.
    rewrite add_all_app, Hrep.
    2:{ intros m Hm. rewrite Hst by lia. by rewrite lookup_insert_ne by lia. }
    cbn [mbind option_bind fst snd]. rewrite length_drop.
    replace (S k + (length bs - S k))%nat with (length bs) by lia. cbn [add_all].
    rewrite (add_ok bs i p) by done. rewrite Echk, Ea. cbn [mbind option_bind default].
    f_equal. f_equal. apply insert_id. rewrite Hst by lia. by rewrite lookup_insert_eq.
Qed.

Lemma run_ok bs hf stored : hf_run bs hf stored → ∃ i, chain_ok bs hf stored i.
Proof.
  induction 1 as [stored|bs hf stored b hf' stored' _ [i IH] Hb E].
  - exists 0%nat. pose proof (table_length hs table). split; [constructor|done|lia|done|].
    intros k Hk. cbn in Hk. lia.
  - by eapply chain_add.
Qed.

(** A scan of the last blocks gives the window. *)
Lemma scan_window bs i vs0 :
  Forall block_ok bs →
  scan (HardFork hs vs0 zero_counts i) (lastn (window_size c) bs) [] zero_counts =
    Some (versions (state_of bs i), last_versions (state_of bs i)).
Proof.
  intros Hb. rewrite zero_counts_ok. rewrite scan_ok.
  - cbn [app heights state_of versions last_versions]. by rewrite lastn_fmap.
  - cbn [heights]. apply votes_bytes; [done|]. by apply Forall_drop.
  - cbn [length]. rewrite length_lastn. lia.
Qed.

Lemma scan_heights hf hf' bs vs counts :
  heights hf = heights hf' → scan hf bs vs counts = scan hf' bs vs counts.
Proof.
  intros E. revert vs counts. induction bs as [|b bs IH]; intros vs counts; [done|]. cbn [scan].
  rewrite effective_heights, E, <- effective_heights.
  destruct (count_vote _ vs counts) as [[vs' counts']|]; [|done]. apply IH.
Qed.

(** A restart. *)
Lemma init_ok bs hf stored old :
  hf_run bs hf stored → bs ≠ [] → heights old = hs → init c old (HfDb bs stored) = Some (hf, stored).
Proof.
  intros Hr Hne Eh. destruct (run_ok bs hf stored Hr) as [i [Hbs Ehf Hi _ Hpast]].
  assert (0 < length bs)%nat as Hpos by (destruct bs; [done|cbn; lia]).
  destruct (Hpast 0%nat Hpos) as (j0 & p0 & P0).
  destruct (Hpast (length bs - 1)%nat ltac:(lia)) as (j & p & [Hp Hs _ _ (i' & Ea & Hrep)]).
  replace (S (length bs - 1)) with (length bs) in Ea, Hrep by lia.
  rewrite take_ge in Ea, Hrep by lia. rewrite drop_ge in Hrep by lia.
  specialize (Hrep stored ltac:(intros; lia)). cbn [add_all] in Hrep. injection Hrep as Ehf'.
  unfold init. cbn [db_blocks db_versions]. rewrite (past_stored _ _ _ _ _ _ _ P0), Eh.
  replace (match hs with [] => _ | _ => _ end) with hs by (by destruct hs; [destruct (table_cons _ table)|]).
  set (h := if (window_size c <? length bs)%nat then _ else _).
  assert (drop (h - 1) bs = lastn (window_size c) bs ∧ (1 ≤ h ≤ length bs)%nat) as [Ed Hh].
  { unfold h, lastn. destruct (Nat.ltb_spec (window_size c) (length bs)); (split; [f_equal|]; lia). }
  rewrite (proj2 (Nat.eqb_neq h 0)) by lia. unfold rescan_from_block_height. cbn [db_blocks db_versions].
  rewrite (proj2 (Nat.leb_gt (length bs) (h - 1))) by lia. rewrite Ed.
  step (scan_window bs 0 [] Hbs). cbn iota. rewrite Hs. cbn [mbind option_bind heights].
  rewrite (find_version_ok hs j p table Hp).
  change (HardFork hs (versions (state_of bs 0)) (last_versions (state_of bs 0)) j) with (state_of bs j).
  replace (Z.of_nat (length bs)) with (Z.of_nat (length bs - 1) + 1) by lia.
  rewrite Ea. cbn [mbind option_bind default]. by rewrite Ehf'.
Qed.

(** A reorganisation from block [k] on, whatever window the node had. *)
Lemma reorganize_ok bs hf stored k old :
  hf_run bs hf stored → (k < length bs)%nat → heights old = hs →
  (current_fork_index hf ≤ current_fork_index old < length hs)%nat →
  (∀ p, hs !! 0%nat = Some p → version p = original_version c) →
  reorganize_from_block_height c old (HfDb bs stored) k = Some (Some (hf, stored)).
Proof.
  intros Hr Hk Eh Hold Horig. destruct (run_ok bs hf stored Hr) as [i [Hbs Ehf Hi _ Hpast]].
  destruct (Hpast k Hk) as (j & p & [Hp Hs Hg Hle (i' & Ea & Hrep)]).
  rewrite Ehf in Hold. cbn [current_fork_index state_of] in Hold.
  unfold reorganize_from_block_height. cbn [db_blocks db_versions].
  rewrite (proj2 (Nat.leb_gt (length bs) k)) by lia.
  assert ((if (k =? 0)%nat then Some (original_version c) else stored !! k) = Some (version p)) as ->.
  { destruct (Nat.eqb_spec k 0) as [Ek|]; [|done]. rewrite (Hg Ek) in Hp. by rewrite (Horig p Hp). }
  cbn [mbind option_bind]. rewrite Eh.
  rewrite (step_back_ok hs j _ p table Hp) by lia. cbn [mbind option_bind].
  set (r := if (window_size c - 1 <=? k)%nat then _ else _).
  assert (take (S k - r) (drop r bs) = lastn (window_size c) (take (S k) bs)) as ->.
  { unfold lastn. rewrite length_take, Nat.min_l, skipn_firstn_comm by lia.
    unfold r. destruct (Nat.leb_spec (window_size c - 1) k); f_equal; try f_equal; lia. }
  rewrite (scan_heights _ (HardFork hs [] zero_counts 0)) by done.
  step (scan_window (take (S k) bs) 0 [] ltac:(by apply Forall_take)). cbn iota.
  change (HardFork hs (versions (state_of (take (S k) bs) 0)) (last_versions (state_of (take (S k) bs) 0)) j)
    with (state_of (take (S k) bs) j).
  step Ea. step (Hrep stored ltac:(done)). done.
Qed.

(** ** Forks at fixed heights *)

Definition reached (h : Z) (p : params) : Prop := height p ≤ h.

#[local] Instance reached_dec h p : Decision (reached h p) := decide (height p ≤ h).

(** The number of forks after the first that have been reached. *)
Definition index_at (h : Z) : nat := length (filter (reached h) (tail hs)).

Lemma filter_none (P : params → Prop) `{!∀ p, Decision (P p)} l :
  (∀ m x, l !! m = Some x → ¬ P x) → filter P l = [].
Proof.
  induction l as [|x l IH]; intros Hn; [done|]. rewrite filter_cons, decide_False by (by apply (Hn 0%nat)).
  apply IH. intros m y Em. by apply (Hn (S m)).
Qed.

Lemma sorted_filter (l : list params) h n p :
  (∀ i j p q, (i < j)%nat → l !! i = Some p → l !! j = Some q → height p < height q) →
  l !! n = Some p → (height p ≤ h ↔ (n < length (filter (reached h) l))%nat).
Proof.
  revert n. induction l as [|q l IH]; intros n Hs Ep; [done|]. rewrite filter_cons.
  destruct (decide (reached h q)) as [Hq|Hq]; unfold reached in Hq.
  - cbn [length]. destruct n as [|n]; [injection Ep as <-; lia|]. rewrite (IH n); [lia| |done].
    intros i j p' q' Hij Ei Ej. apply (Hs (S i) (S j)); [lia|done..].
  - assert (filter (reached h) l = []) as ->.
    { apply filter_none. intros m x Em Hx. unfold reached in *.
      pose proof (Hs 0%nat (S m) q x ltac:(lia) eq_refl Em). lia. }
    cbn [length]. split; [|lia]. intros Hp. destruct n as [|n]; [injection Ep as <-; lia|].
    pose proof (Hs 0%nat (S n) q p ltac:(lia) eq_refl Ep). lia.
Qed.

Lemma index_at_spec h n p : hs !! S n = Some p → (height p ≤ h ↔ (S n ≤ index_at h)%nat).
Proof.
  intros Ep. unfold index_at. destruct hs as [|p0 l] eqn:E; [done|]. cbn [tail].
  rewrite (sorted_filter l h n p); [lia| |done]. intros i j p' q' Hij Ei Ej.
  apply (table_sorted _ table (S i) (S j) p' q' ltac:(lia)); done.
Qed.

Lemma index_at_bound h : (index_at h < length hs)%nat.
Proof.
  unfold index_at. pose proof (table_length hs table). destruct hs as [|p l]; [cbn in *; lia|].
  cbn [tail length]. pose proof (length_filter (reached h) l). lia.
Qed.

Hypothesis no_votes : ∀ p, p ∈ hs → threshold p = 0.

Lemma voted_fixed hf h n acc :
  heights hf = hs → length (last_versions hf) = 256%nat →
  (current_fork_index hf ≤ index_at h ≤ n)%nat → (n < length hs)%nat → 0 ≤ acc →
  voted_loop c hf h n acc = Some (index_at h).
Proof.
  intros Eh Hl. revert acc. induction n as [|n IH]; intros acc Hi Hn Ha; cbn [voted_loop].
  { f_equal. lia. }
  destruct (Nat.leb_spec (S n) (current_fork_index hf)); [f_equal; lia|]. rewrite Eh.
  destruct (lookup_lt_is_Some_2 hs (S n) Hn) as [p Ep]. rewrite Ep. cbn [mbind option_bind].
  destruct (table_bytes _ table _ p Ep) as [H1 H2].
  destruct (lookup_lt_is_Some_2 (last_versions hf) (Z.to_nat (version p))) as [k Ek]; [lia|].
  rewrite Ek. cbn [mbind option_bind].
  rewrite (no_votes p) by (by eapply list_elem_of_lookup_2). rewrite Z.mul_0_r, Z.add_0_l.
  change (uwrap 32 (uwrap 64 99 / 100)) with 0.
  assert (0 ≤ uwrap 32 (acc + k)) as Hu by (apply Z.mod_pos_bound; lia).
  rewrite (proj2 (Z.leb_le 0 _) Hu), andb_true_r.
  pose proof (index_at_spec h n p Ep) as Hat. destruct (Z.leb_spec (height p) h) as [Hp|Hp].
  - f_equal. lia.
  - apply IH; lia.
Qed.

Lemma index_at_mono h h' : h ≤ h' → (index_at h ≤ index_at h')%nat.
Proof.
  intros Hh. destruct (index_at h) as [|n] eqn:E; [lia|].
  destruct (lookup_lt_is_Some_2 hs (S n)) as [p Ep]; [rewrite <- E; apply index_at_bound|].
  apply (index_at_spec h' n p Ep). pose proof (proj2 (index_at_spec h n p Ep) ltac:(lia)). lia.
Qed.

(** With no votes needed the current fork depends on the height alone. *)
Lemma run_fixed bs hf stored :
  hf_run bs hf stored →
  (current_fork_index hf ≤ index_at (Z.of_nat (length bs)))%nat
  ∧ (bs ≠ [] → current_fork_index hf = index_at (Z.of_nat (length bs))).
Proof.
  induction 1 as [stored|bs hf stored b hf' stored' Hr [IH _] Hb E]; [split; [cbn; lia|done]|].
  assert (current_fork_index hf' = index_at (Z.of_nat (length (bs ++ [b])))) as ->; [|done].
  destruct (run_ok bs hf stored Hr) as [i [Hbs -> Hi _ _]].
  destruct (lookup_lt_is_Some_2 hs i Hi) as [p Ep]. rewrite (add_ok bs i p) in E by done.
  destruct (_ && _); [|discriminate E]. cbn [current_fork_index state_of] in IH.
  destruct (advance_ok c (state_of (bs ++ [b]) i) (Z.of_nat (length bs) + 1)) as (i' & Ev & Ea & _);
    [done|apply counts_length|done|].
  rewrite Ea in E. cbn [mbind option_bind] in E. injection E as <- _. cbn [current_fork_index with_index].
  unfold get_voted_fork_index in Ev.
  pose proof (index_at_bound (Z.of_nat (length bs) + 1)). cbn [heights state_of] in Ev.
  pose proof (index_at_mono (Z.of_nat (length bs)) (Z.of_nat (length bs) + 1) ltac:(lia)).
  rewrite (voted_fixed (state_of (bs ++ [b]) i)) in Ev;
    [|done|apply counts_length|cbn [current_fork_index state_of]; lia|lia|lia].
  injection Ev as <-. rewrite length_app. cbn [length]. f_equal. lia.
Qed.

(** The version meant for a height is the one of the last fork that was reached. *)
Lemma ideal_ok h n p0 :
  hs !! 0%nat = Some p0 → version p0 = original_version c →
  (index_at h ≤ n < length hs)%nat → ideal_loop c hs h n = version <$> hs !! index_at h.
Proof.
  intros E0 Eo. induction n as [|n IH]; intros Hn; cbn [ideal_loop].
  - replace (index_at h) with 0%nat by lia. rewrite E0. cbn. by rewrite Eo.
  - destruct (lookup_lt_is_Some_2 hs (S n)) as [p Ep]; [lia|]. rewrite Ep. cbn [mbind option_bind].
    pose proof (index_at_spec h n p Ep). destruct (Z.leb_spec (height p) h).
    + assert (index_at h = S n) as -> by lia. by rewrite Ep.
    + apply IH. lia.
Qed.

End chain.

(** ** Claims *)

(** C26. The state of the hard-fork vote is a function of the chain.  After a
    chain of accepted blocks, a restart ([init] on the database) and a
    reorganisation from any of its blocks rebuild the same window of votes, the same
    counts and the same current fork as the node that saw the blocks one after the
    other, and leave the stored versions as they are. *)
Theorem hard_fork_restart_spec (build : Build) (c : config) (hs : list params) (table : table_ok hs)
    (Hw : (1 ≤ window_size c)%nat) (Hw32 : Z.of_nat (window_size c) < 2 ^ 32 - 1)
    (bs : list voting_block) (hf old : hard_fork) (stored : gmap nat Z) (k : nat)
    (Hr : hf_run c hs bs hf stored) (Hk : (k < length bs)%nat) (Eh : heights old = hs)
    (Hi : (current_fork_index hf ≤ current_fork_index old < length hs)%nat)
    (Ho : ∀ p, hs !! 0%nat = Some p → version p = original_version c) :
  init c old (HfDb bs stored) = Some (hf, stored)
  ∧ reorganize_from_block_height c old (HfDb bs stored) k = Some (Some (hf, stored)).
Proof.
  split; [|by apply (reorganize_ok c hs)]. apply (init_ok c hs); [done..| |done].
  intros ->. cbn in Hk. lia.
Qed.

(** C27. With forks that need no votes, as in all three networks, the current version
    after a chain of accepted blocks is the version meant for its height, that of
    the last fork whose height is reached; the window never holds more votes
    than its size, and the counts are those of the window. *)
Theorem hard_fork_schedule_spec (build : Build) (c : config) (hs : list params) (table : table_ok hs)
    (Hw : (1 ≤ window_size c)%nat) (Hw32 : Z.of_nat (window_size c) < 2 ^ 32 - 1)
    (Hn : ∀ p, p ∈ hs → threshold p = 0)
    (Ho : ∀ p, hs !! 0%nat = Some p → version p = original_version c)
    (bs : list voting_block) (hf : hard_fork) (stored : gmap nat Z)
    (Hr : hf_run c hs bs hf stored) (Hne : bs ≠ []) :
  get_current_version hf = get_ideal_version c hf (Z.of_nat (length bs))
  ∧ current_fork_index hf = index_at hs (Z.of_nat (length bs))
  ∧ (length (versions hf) ≤ window_size c)%nat ∧ last_versions hf = counts_of (versions hf).
Proof.
  destruct (run_ok c hs table Hw Hw32 bs hf stored Hr) as [i [_ Ehf _ _ _]].
  destruct (run_fixed c hs table Hw Hw32 Hn bs hf stored Hr) as [_ Ei]. specialize (Ei Hne).
  assert (heights hf = hs) as Eh by (by rewrite Ehf).
  destruct (lookup_lt_is_Some_2 hs 0) as [p0 E0]; [apply (table_length hs table)|].
  assert (index_at hs (Z.of_nat (length bs)) < length hs)%nat by (by eapply index_at_bound).
  split; [|split; [exact Ei|]].
  - unfold get_current_version, get_ideal_version. rewrite Eh, Ei.
    symmetry. eapply ideal_ok; [done..|exact E0|by apply Ho|lia].
  - rewrite Ehf. cbn [versions last_versions state_of]. rewrite length_lastn. split; [lia|done].
Qed.

(** ** The forks of the main network *)

Definition mainnet_forks : list params :=
  [Params 1 0 1 1341378000; Params 6 0 2 1530759847; Params 9 0 146500 1535889548].
Definition mainnet_config : config := Config 1 1 31557600 15778800 (Z.to_nat 10080) 80.

Lemma mainnet_table : table_ok mainnet_forks.
Proof.
  split; [done|..].
  - intros i p E. do 3 (destruct i as [|i]; [injection E as <-; cbn; lia|]). done.
  - intros i j p q Hij Ep Eq.
    do 3 (destruct j as [|j]; [|]; [do 3 (destruct i as [|i];
      [try (exfalso; lia); injection Ep as <-; injection Eq as <-; cbn; lia|]); exfalso; lia|]). done.
Qed.

(** The genesis block and the next one, and the node that saw them. *)
Definition v1_block : voting_block := VotingBlock 1 0.

Definition seen (n : nat) : hard_fork * gmap nat Z :=
  default (HardFork [] [] [] 0, ∅) (@add_all false mainnet_config
    (HardFork mainnet_forks [] zero_counts 0) ∅ (replicate n v1_block) 0).

Lemma seen_run : @hf_run false mainnet_config mainnet_forks [v1_block; v1_block] (seen 2).1 (seen 2).2.
Proof.
  apply (run_add (H := false) mainnet_config mainnet_forks [v1_block] (seen 1).1 (seen 1).2 v1_block);
    [|vm_compute; split; [discriminate|reflexivity]|vm_compute; reflexivity].
  apply (run_add (H := false) mainnet_config mainnet_forks [] (HardFork mainnet_forks [] zero_counts 0) ∅ v1_block);
    [constructor|vm_compute; split; [discriminate|reflexivity]|vm_compute; reflexivity].
Qed.

Lemma mainnet_original p : mainnet_forks !! 0%nat = Some p → version p = original_version mainnet_config.
Proof. by intros [= <-]. Qed.

Lemma mainnet_fixed p : p ∈ mainnet_forks → threshold p = 0.
Proof. rewrite list_elem_of_In. cbn. intros [<-|[<-|[<-|[]]]]; reflexivity. Qed.

Lemma hard_fork_restart_spec_witness :
  @init false mainnet_config (seen 2).1 (HfDb [v1_block; v1_block] (seen 2).2) = Some (seen 2)
  ∧ @reorganize_from_block_height false mainnet_config (seen 2).1 (HfDb [v1_block; v1_block] (seen 2).2) 0
    = Some (Some (seen 2)).
Proof.
  apply (hard_fork_restart_spec false mainnet_config mainnet_forks mainnet_table).
  - cbn [window_size mainnet_config]. lia.
  - cbn [window_size mainnet_config]. lia.
  - exact seen_run.
  - cbn. lia.
  - vm_compute. reflexivity.
  - vm_compute. lia.
  - exact mainnet_original.
Defined.

(** After two blocks the main network is at version 6. *)
Lemma hard_fork_schedule_spec_witness :
  get_current_version (seen 2).1 = get_ideal_version mainnet_config (seen 2).1 2
  ∧ get_current_version (seen 2).1 = Some 6.
Proof.
  split; [|vm_compute; reflexivity].
  refine (proj1 (hard_fork_schedule_spec false mainnet_config mainnet_forks mainnet_table _ _
    mainnet_fixed mainnet_original [v1_block; v1_block] (seen 2).1 (seen 2).2 seen_run _)).
  - cbn [window_size mainnet_config]. lia.
  - cbn [window_size mainnet_config]. lia.
  - discriminate.
Defined.
