(* ===== verification/Varint.v ===== *)
(** * Variable-length integers

    Model of [common/varint.h]: [write_varint] and [read_varint] with its two
    error codes, for an unsigned type of [w] bits, and their round trip: every
    number is read back, and a complete number that is read is one that was
    written. *)

From S2P Require Export Prelude.

#[local] Open Scope Z_scope.

Definition EVARINT_OVERFLOW : Z := -1.
Definition EVARINT_REPRESENT : Z := -2.

(** [while (i >= 0x80)], at most [n] iterations *)
Fixpoint write_loop (n : nat) (i : Z) : list Z :=
  match n with
  | O => [uwrap 8 i]
  | S n' =>
      if 0x80 <=? i
      then Z.lor (Z.land i 0x7f) 0x80 :: write_loop n' (Z.shiftr i 7)
      else [uwrap 8 i]
  end.

Definition write_varint (i : Z) : list Z := write_loop (Z.to_nat (Z.log2 i)) i.

(** [get_varint_data]: the same bytes as a string. *)
Definition get_varint_data (v : Z) : list Z := write_varint v.

(** The code that is returned, the value in [write], and what is left of the input. *)
Fixpoint read_loop (w bits : Z) (input : list Z) (shift read write : Z) : Z * Z * list Z :=
  match input with
  | [] => (read, write, [])
  | byte :: input =>
      let read := read + 1 in
      if (bits <=? shift + 7) && (Z.shiftl 1 (bits - shift) <=? byte) then
        (EVARINT_OVERFLOW, write, input)
      else if (byte =? 0) && negb (shift =? 0) then (EVARINT_REPRESENT, write, input)
      else
        let write := Z.lor write (uwrap w (Z.shiftl (Z.land byte 0x7f) shift)) in
        if Z.land byte 0x80 =? 0 then (read, write, input)
        else read_loop w bits input (shift + 7) read write
  end.

Definition read_varint (w bits : Z) (input : list Z) : Z * Z * list Z :=
  read_loop w bits input 0 0 0.

(** ** Bytes of seven bits *)

Lemma land_7f i : Z.land i 0x7f = i mod 128.
Proof. exact (Z.land_ones i 7 ltac:(lia)). Qed.

Lemma lor_80 i : 0 ≤ i < 128 → Z.lor i 0x80 = 128 + i.
Proof. intros Hi. pose proof (lor_shiftl_add i 1 7) as H. change (Z.shiftl 1 7) with 128 in H. lia. Qed.

Lemma land_80 b : 0 ≤ b < 256 → (Z.land b 0x80 =? 0) = (b <? 128).
Proof.
  intros Hb.
  assert (forallb (λ b, eqb (Z.land b 0x80 =? 0) (b <? 128)) (seqZ 0 256) = true) as H
    by (vm_compute; reflexivity).
  rewrite forallb_forall in H. apply eqb_prop, H, list_elem_of_In, elem_of_seqZ. lia.
Qed.

Lemma uwrap8_small i : 0 ≤ i < 128 → uwrap 8 i = i.
Proof. intros Hi. apply Z.mod_small. lia. Qed.

(** ** What is written *)

(** The digits in base 128: all but the last have the continuation bit. *)
Inductive varint : Z → list Z → Prop :=
| varint_last i : 0 ≤ i < 128 → varint i [i]
| varint_more i r l : 0 ≤ r < 128 → 0 < i → varint i l → varint (r + 128 * i) (128 + r :: l).

Lemma write_loop_varint n i :
  0 ≤ i < 2 ^ (7 * Z.of_nat (S n)) → varint i (write_loop n i).
Proof.
  revert i. induction n as [|n IH]; intros i Hi; cbn [write_loop].
  { rewrite uwrap8_small by lia. by constructor. }
  destruct (Z.leb_spec 0x80 i).
  - rewrite land_7f, lor_80, Z.shiftr_div_pow2 by zlia. change (2 ^ 7) with 128.
    pose proof (Z.div_mod i 128). pose proof (Z.mod_pos_bound i 128).
    replace i with (i mod 128 + 128 * (i / 128)) at 1 by lia.
    constructor; [lia|zlia|]. apply IH. split; [zlia|].
    replace (7 * Z.of_nat (S (S n))) with (7 + 7 * Z.of_nat (S n)) in Hi by lia.
    rewrite Z.pow_add_r in Hi by lia. change (2 ^ 7) with 128 in Hi. zlia.
  - rewrite uwrap8_small by lia. constructor. lia.
Qed.

Lemma write_varint_ok i : 0 ≤ i → varint i (write_varint i).
Proof.
  intros Hi. apply write_loop_varint. split; [done|].
  destruct (Z.eq_dec i 0) as [->|]; [reflexivity|].
  pose proof (Z.log2_nonneg i). apply Z.log2_lt_pow2; lia.
Qed.

Lemma varint_nonneg i l : varint i l → 0 ≤ i.
Proof. induction 1; lia. Qed.

Lemma varint_fun i l l' : varint i l → varint i l' → l = l'.
Proof.
  intros H. revert l'. induction H as [i Hi|i r l Hr Hi H IH]; intros l' H'.
  - inversion H'; subst; [done|lia].
  - inversion H' as [|i' r' l'' Hr' Hi' H'' E]; subst; [lia|].
    assert (i' = i ∧ r' = r) as [-> ->] by lia. f_equal. by apply IH.
Qed.

Lemma varint_bytes i l : varint i l → bytes l.
Proof. induction 1; repeat (constructor; [lia|]); [constructor|done]. Qed.

Lemma varint_length i l n :
  varint i l → i < 2 ^ (7 * Z.of_nat n) → (0 < n)%nat → (length l ≤ n)%nat.
Proof.
  intros H. revert n. induction H as [i Hi|i r l Hr Hi H IH]; intros n Hn Hpos; [cbn; lia|].
  destruct n as [|n]; [lia|].
  replace (7 * Z.of_nat (S n)) with (7 + 7 * Z.of_nat n) in Hn by lia.
  rewrite Z.pow_add_r in Hn by lia. change (2 ^ 7) with 128 in Hn.
  destruct n as [|n]; [cbn in Hn; lia|]. cbn [length]. apply le_n_S, IH; lia.
Qed.

(** ** Reading *)

(** A step of [read_loop] that places seven bits. *)
Lemma place_bits w bits shift acc r :
  0 ≤ shift → 0 ≤ acc < 2 ^ shift → 0 ≤ r < 128 → r * 2 ^ shift < 2 ^ bits → 0 ≤ bits ≤ w →
  Z.lor acc (uwrap w (Z.shiftl r shift)) = acc + r * 2 ^ shift.
Proof.
  intros Hs Ha Hr Hv Hb. unfold uwrap.
  assert (2 ^ bits ≤ 2 ^ w) by (apply Z.pow_le_mono_r; lia).
  rewrite Z.mod_small; [by apply lor_shiftl_add|].
  rewrite Z.shiftl_mul_pow2 by done. nia.
Qed.

Lemma read_loop_written w bits i l rest shift read acc :
  varint i l → 0 ≤ bits ≤ w → 0 ≤ shift → 0 ≤ acc < 2 ^ shift →
  (0 < i ∨ shift = 0) → i * 2 ^ shift < 2 ^ bits →
  read_loop w bits (l ++ rest) shift read acc =
    (read + Z.of_nat (length l), acc + i * 2 ^ shift, rest).
Proof.
  intros H Hb. revert shift read acc.
  induction H as [i Hi|i r l Hr Hi H IH]; intros shift read acc Hs Ha Hpos Hv;
    cbn [app read_loop].
  - assert ((bits <=? shift + 7) && (Z.shiftl 1 (bits - shift) <=? i) = false) as ->.
    { assert (shift ≤ bits) as Hsb.
      { destruct Hpos; [|lia]. destruct (Z.le_gt_cases shift bits); [done|].
        assert (2 ^ bits < 2 ^ shift) by (apply Z.pow_lt_mono_r; lia). nia. }
      apply andb_false_intro2, Z.leb_gt. rewrite Z.shiftl_1_l.
      rewrite <- (Z.sub_add shift bits), Z.pow_add_r in Hv by lia. nia. }
    assert ((i =? 0) && negb (shift =? 0) = false) as ->.
    { destruct (Z.eqb_spec i 0), (Z.eqb_spec shift 0); try reflexivity. lia. }
    rewrite land_7f, Z.mod_small, (place_bits w bits) by lia.
    rewrite land_80, (proj2 (Z.ltb_lt i 128)) by lia. done.
  - assert (128 * 2 ^ shift ≤ (r + 128 * i) * 2 ^ shift) by nia.
    assert (shift + 7 < bits) as Hlt.
    { apply (Z.pow_lt_mono_r_iff 2); [lia..|]. rewrite Z.pow_add_r by lia.
      change (2 ^ 7) with 128. lia. }
    rewrite (proj2 (Z.leb_gt bits (shift + 7))) by lia. cbn [andb].
    rewrite (proj2 (Z.eqb_neq (128 + r) 0)) by lia. cbn [andb].
    rewrite land_7f. replace ((128 + r) mod 128) with r by zlia.
    rewrite (place_bits w bits) by nia.
    rewrite land_80, (proj2 (Z.ltb_ge _ 128)) by lia.
    rewrite IH; rewrite ?Z.pow_add_r by lia; change (2 ^ 7) with 128; [|nia..].
    cbn [length]. f_equal. f_equal; lia.
Qed.

(** What a successful read has consumed: a written number, or the whole input with every
    continuation bit set. *)
Record consumed (bits shift acc v : Z) (pre rest : list Z) : Prop := {
  cons_range : 0 ≤ v < 2 ^ bits;
  cons_value : ∃ i, v = acc + i * 2 ^ shift ∧
    (varint i pre ∧ (0 < i ∨ shift = 0) ∨ rest = [] ∧ Forall (λ b, 128 ≤ b) pre)
}.

Lemma read_loop_inv w bits l shift read acc code v rest :
  bytes l → 0 ≤ bits ≤ w → 0 ≤ shift ≤ bits → 0 ≤ acc < 2 ^ shift → 0 ≤ code →
  read_loop w bits l shift read acc = (code, v, rest) →
  ∃ pre, l = pre ++ rest ∧ code = read + Z.of_nat (length pre) ∧ consumed bits shift acc v pre rest.
Proof.
  intros Hl Hb. revert shift read acc.
  induction Hl as [|b l Hbyte Hl IH]; intros shift read acc Hs Ha Hc E; cbn [read_loop] in E.
  { injection E as <- <- <-. exists []. split_and!; [done|cbn; lia|]. split.
    - assert (2 ^ shift ≤ 2 ^ bits) by (apply Z.pow_le_mono_r; lia). lia.
    - exists 0. split; [lia|]. right. split; constructor. }
  destruct (_ && _) eqn:E1 in E; [injection E as <- _ _; by apply Z.leb_le in Hc|].
  destruct (_ && _) eqn:E2 in E; [injection E as <- _ _; by apply Z.leb_le in Hc|].
  assert (0 < 2 ^ shift) by lia.
  assert (b mod 128 * 2 ^ shift + 2 ^ shift ≤ 2 ^ bits ∧ (128 ≤ b → shift + 7 ≤ bits)) as [Hv H128].
  { assert (2 ^ bits = 2 ^ (bits - shift) * 2 ^ shift) as Hp by (rewrite <- Z.pow_add_r; [f_equal|..]; lia).
    apply andb_false_iff in E1 as [E1|E1]; apply Z.leb_gt in E1.
    - split; [|lia]. assert (2 ^ 7 ≤ 2 ^ (bits - shift)) by (apply Z.pow_le_mono_r; lia).
      assert (b mod 128 < 128) by zlia. rewrite Hp. nia.
    - rewrite Z.shiftl_1_l in E1. assert (b mod 128 ≤ b) by zlia. split; [rewrite Hp; nia|].
      intros. destruct (Z.le_gt_cases (shift + 7) bits); [done|].
      assert (2 ^ (bits - shift) ≤ 2 ^ 7) by (apply Z.pow_le_mono_r; lia). lia. }
  assert (0 ≤ b mod 128 < 128) by zlia.
  rewrite land_7f, (place_bits w bits), land_80 in E by lia.
  destruct (Z.ltb_spec b 128).
  - injection E as <- <- <-. exists [b]. split_and!; [done|cbn [length]; lia|].
    split; [nia|]. exists (b mod 128). split; [done|]. left. rewrite Z.mod_small by lia.
    split; [apply varint_last; lia|]. apply andb_false_iff in E2 as [E2|E2]; [apply Z.eqb_neq in E2; lia|].
    apply negb_false_iff, Z.eqb_eq in E2. by right.
  - destruct (IH (shift + 7) (read + 1) (acc + b mod 128 * 2 ^ shift)) as (pre & -> & -> & [Hr Hi]);
      [lia| |done|done|].
    { rewrite Z.pow_add_r by lia. change (2 ^ 7) with 128. nia. }
    exists (b :: pre). split_and!; [done|cbn [length]; lia|]. split; [done|].
    destruct Hi as (i & -> & Hi). exists (b mod 128 + 128 * i).
    split; [rewrite Z.pow_add_r by lia; change (2 ^ 7) with 128; lia|].
    destruct Hi as [[Hi Hpos]|[-> Hf]]; [left|right; by repeat constructor].
    replace b with (128 + b mod 128) at 2 by zlia. split; [constructor; [lia|lia|done]|lia].
Qed.

(** C39. Variable-length integers: what [write_varint] writes is read back by [read_varint],
    whatever follows, in at most one byte for seven bits; and whatever [read_varint] accepts
    is the encoding that [write_varint] gives of the value read, or an input that ends before
    the number does. *)
Theorem varint_spec (w bits i : Z) (rest input input' : list Z) (code v : Z)
    (Hb : 0 ≤ bits ≤ w) (Hi : 0 ≤ i < 2 ^ bits) (Hin : bytes input) (Hc : 0 ≤ code)
    (HR : read_varint w bits input = (code, v, input')) :
  read_varint w bits (write_varint i ++ rest) = (Z.of_nat (length (write_varint i)), i, rest) ∧
  (∀ n, (0 < n)%nat → bits ≤ 7 * Z.of_nat n → (length (write_varint i) ≤ n)%nat) ∧
  0 ≤ v < 2 ^ bits ∧
  ∃ pre, input = pre ++ input' ∧ code = Z.of_nat (length pre) ∧
    (pre = write_varint v ∨ input' = [] ∧ Forall (λ b, 128 ≤ b) pre).
Proof.
  pose proof (write_varint_ok i ltac:(lia)) as HW. split; [|split; [|split]].
  - unfold read_varint. rewrite (read_loop_written w bits i); [f_equal; f_equal|..]; try done; lia.
  - intros n Hn Hbits. apply (varint_length i); [done| |done].
    apply (Z.lt_le_trans _ (2 ^ bits)); [lia|]. apply Z.pow_le_mono_r; lia.
  - eapply read_loop_inv in HR as (pre & _ & _ & []); try done; lia.
  - eapply read_loop_inv in HR as (pre & -> & -> & [Hr (j & Ev & Hj)]); try done; try lia.
    exists pre. split_and!; [done|lia|]. destruct Hj as [[Hj _]|Hj]; [left|by right].
    assert (j = v) as -> by lia. apply (varint_fun v); [done|apply write_varint_ok; lia].
Qed.

Lemma varint_spec_witness :
  read_varint 64 64 (write_varint 300 ++ [7]) = (2, 300, [7]) ∧
  (∀ n, (0 < n)%nat → 64 ≤ 7 * Z.of_nat n → (length (write_varint 300) ≤ n)%nat) ∧
  0 ≤ 0x100 < 2 ^ 64 ∧
  ∃ pre, [0x80; 0x02; 9] = pre ++ [9] ∧ 2 = Z.of_nat (length pre) ∧
    (pre = write_varint 0x100 ∨ [9] = [] ∧ Forall (λ b, 128 ≤ b) pre).
Proof.
  apply (varint_spec 64 64 300 [7] [0x80; 0x02; 9] [9] 2 0x100);
    [lia|lia| |lia|reflexivity]. do 3 (constructor; [lia|]). constructor.
Defined.
