(* ===== verification/Base58.v ===== *)
(** * Base 58: [common/base58.cpp]

    Strings are lists of bytes.  Blocks of 8 bytes become 11 symbols, a shorter
    last block fewer; an address is a tag, the data and four bytes of hash. *)

From S2P Require Export IntUtil Varint.
From Stdlib Require Ascii.
From Stdlib Require Import(notations) String.

#[local] Open Scope Z_scope.

Definition codes (s : String.string) : list Z :=
  (λ a, Z.of_N (Ascii.N_of_ascii a)) <$> String.list_ascii_of_string s.

Definition alphabet : list Z := codes "123456789ABCDEFGHJKLMNPQRSTUVWXYZabcdefghijkmnopqrstuvwxyz"%string.
Definition alphabet_size : Z := 58.
Definition encoded_block_sizes : list nat := [0; 2; 3; 5; 6; 7; 9; 10; 11]%nat.
Definition full_block_size : nat := 8.
Definition full_encoded_block_size : nat := 11.
Definition addr_checksum_size : nat := 4.

(** The tables filled by the constructors of the two static objects. *)
Definition reverse_alphabet_data : list Z :=
  foldl (λ m i, <[Z.to_nat (alphabet !!! i - alphabet !!! 0%nat) := Z.of_nat i]> m)
    (replicate (Z.to_nat (alphabet !!! 57%nat - alphabet !!! 0%nat + 1)) (-1)) (seq 0 58).

(** A [char] is signed. *)
Definition reverse_alphabet (letter : Z) : Z :=
  let idx := uwrap 64 (swrap 8 letter - alphabet !!! 0%nat) in
  if idx <? Z.of_nat (length reverse_alphabet_data)
  then reverse_alphabet_data !!! Z.to_nat idx else -1.

Definition decoded_block_sizes_data : list Z :=
  foldl (λ m i, <[encoded_block_sizes !!! i := Z.of_nat i]> m)
    (replicate (full_encoded_block_size + 1) (-1)) (seq 0 9).

Section code.
Context `{Build}.

Definition decoded_block_sizes (encoded_block_size : nat) : option Z :=
  _ ← assert_ (encoded_block_size <=? full_encoded_block_size)%nat;
  decoded_block_sizes_data !! encoded_block_size.

(** [data] is the block, of [size] bytes. *)
Definition uint_8be_to_64 (data : list Z) : option Z :=
  _ ← assert_ ((1 <=? length data) && (length data <=? 8))%nat;
  Some (foldl (λ res b, Z.lor (uwrap 64 (Z.shiftl res 8)) b) 0 data).

Definition uint_64_to_8be (num : Z) (size : nat) : option (list Z) :=
  _ ← assert_ ((1 <=? size) && (size <=? 8))%nat;
  Some (drop (8 - size) (le_split 8 (SWAP64 num))).

(** [while (0 < num)]; a write before the start of the buffer is undefined. *)
Fixpoint encode_loop (n : nat) (num i : Z) (res : list Z) : option (list Z) :=
  if num <=? 0 then Some res else
  match n with
  | O => None
  | S n =>
    let remainder := num mod alphabet_size in
    let num := num / alphabet_size in
    if i <? 0 then None else
    c ← alphabet !! Z.to_nat remainder;
    encode_loop n num (i - 1) (<[Z.to_nat i := c]> res)
  end.

(** [res] is what the caller left at the place of the block. *)
Definition encode_block (block res : list Z) : option (list Z) :=
  let size := length block in
  _ ← assert_ ((1 <=? size) && (size <=? full_block_size))%nat;
  num ← uint_8be_to_64 block;
  enc ← encoded_block_sizes !! size;
  encode_loop 64 num (Z.of_nat enc - 1) res.

(** The symbols from the last to the first; [Some None] is [return false]. *)
Fixpoint decode_loop (symbols : list Z) (res_num order : Z) : option (option Z) :=
  match symbols with
  | [] => Some (Some res_num)
  | c :: symbols =>
    let digit := reverse_alphabet c in
    if digit <? 0 then Some None else
    '(lo, product_hi) ← mul128 order digit;
    let tmp := uwrap 64 (res_num + lo) in
    if (tmp <? res_num) || negb (product_hi =? 0) then Some None else
    decode_loop symbols tmp (uwrap 64 (order * alphabet_size))
  end.

Definition decode_block (block : list Z) : option (option (list Z)) :=
  let size := length block in
  _ ← assert_ ((1 <=? size) && (size <=? full_encoded_block_size))%nat;
  res_size ← decoded_block_sizes size;
  if res_size <=? 0 then Some None else
  r ← decode_loop (reverse block) 0 1;
  match r with
  | None => Some None
  | Some res_num =>
    if (res_size <? Z.of_nat full_block_size) && (Z.shiftl 1 (8 * res_size) <=? res_num)
    then Some None
    else Some <$> uint_64_to_8be res_num (Z.to_nat res_size)
  end.

(** The loop over the full blocks, then the last block. *)
Fixpoint encode_blocks (full_block_count : nat) (data : list Z) : option (list Z) :=
  match full_block_count with
  | O =>
    match data with
    | [] => Some []
    | _ => enc ← encoded_block_sizes !! length data;
           encode_block data (replicate enc (alphabet !!! 0%nat))
    end
  | S n =>
    e ← encode_block (take full_block_size data) (replicate full_encoded_block_size (alphabet !!! 0%nat));
    rest ← encode_blocks n (drop full_block_size data);
    Some (e ++ rest)
  end.

Definition encode (data : list Z) : option (list Z) :=
  encode_blocks (length data `div` full_block_size) data.

Fixpoint decode_blocks (full_block_count : nat) (enc : list Z) : option (option (list Z)) :=
  match full_block_count with
  | O => match enc with [] => Some (Some []) | _ => decode_block enc end
  | S n =>
    d ← decode_block (take full_encoded_block_size enc);
    match d with
    | None => Some None
    | Some d =>
      rest ← decode_blocks n (drop full_encoded_block_size enc);
      Some (match rest with Some rest => Some (d ++ rest) | None => None end)
    end
  end.

Definition decode (enc : list Z) : option (option (list Z)) :=
  match enc with
  | [] => Some (Some [])
  | _ =>
    last_block_decoded_size ← decoded_block_sizes (length enc `mod` full_encoded_block_size);
    if last_block_decoded_size <? 0 then Some None else
    decode_blocks (length enc `div` full_encoded_block_size) enc
  end.

Context `{FastHash}.

Definition encode_addr (tag : Z) (data : list Z) : option (list Z) :=
  let buf := get_varint_data tag ++ data in
  hash ← fast_hash buf;
  encode (buf ++ take addr_checksum_size hash).

Definition decode_addr (addr : list Z) : option (option (Z * list Z)) :=
  r ← decode addr;
  match r with
  | None => Some None
  | Some addr_data =>
    let size := length addr_data in
    if (size <=? addr_checksum_size)%nat then Some None else
    let checksum := drop (size - addr_checksum_size) addr_data in
    let addr_data := take (size - addr_checksum_size) addr_data in
    hash ← fast_hash addr_data;
    if decide (take addr_checksum_size hash = checksum) then
      let '(read, tag, _) := read_varint 64 64 addr_data in
      if read <=? 0 then Some None else
      Some (Some (tag, drop (Z.to_nat read) addr_data))
    else Some None
  end.

End code.
