(* ===== verification/Base58Spec.v ===== *)
(** * Base 58: round trips

    Every byte string is decoded from its encoding, every string that is accepted is
    the encoding of what it decodes to, and an address gives back its tag and data. *)

From S2P Require Export Base58.
From Stdlib Require Import(notations) String.

#[local] Open Scope Z_scope.

(** ** Digits *)

(** The [k] digits of a number in base 58, the lowest first. *)
Fixpoint split58 (k : nat) (num : Z) : list Z :=
  match k with O => [] | S k => num mod 58 :: split58 k (num / 58) end.

Fixpoint val58 (l : list Z) : Z := match l with [] => 0 | d :: l => d + 58 * val58 l end.

Definition digit58 (d : Z) : Prop := 0 ≤ d < 58.

Lemma length_split58 k num : length (split58 k num) = k.
Proof. revert num. induction k as [|k IH]; intros num; cbn; [done|]. by rewrite IH. Qed.

Lemma split58_digits k num : Forall digit58 (split58 k num).
Proof.
  revert num. induction k as [|k IH]; intros num; cbn [split58]; constructor; [|apply IH].
  apply Z.mod_pos_bound. lia.
Qed.

Lemma pow58_succ k : 58 ^ Z.of_nat (S k) = 58 * 58 ^ Z.of_nat k.
Proof. rewrite Nat2Z.inj_succ, Z.pow_succ_r by lia. done. Qed.

Lemma val58_split k num : 0 ≤ num < 58 ^ Z.of_nat k → val58 (split58 k num) = num.
Proof.
  revert num. induction k as [|k IH]; intros num Hn; cbn [split58 val58].
  - change (58 ^ Z.of_nat 0) with 1 in Hn. lia.
  - rewrite pow58_succ in Hn. rewrite IH by zlia. zlia.
Qed.

Lemma split58_val l : Forall digit58 l → split58 (length l) (val58 l) = l.
Proof.
  unfold digit58. induction 1 as [|d l Hd _ IH]; cbn [length split58 val58]; [done|].
  replace ((d + 58 * val58 l) mod 58) with d by zlia.
  replace ((d + 58 * val58 l) / 58) with (val58 l) by zlia. by rewrite IH.
Qed.

Lemma val58_bound l : Forall digit58 l → 0 ≤ val58 l < 58 ^ Z.of_nat (length l).
Proof.
  unfold digit58. induction 1 as [|d l Hd _ IH]; cbn [length val58]; [done|].
  rewrite pow58_succ. lia.
Qed.

Lemma split58_0 k : split58 k 0 = replicate k 0.
Proof. induction k as [|k IH]; [done|]. cbn [split58 replicate]. by rewrite <- IH. Qed.

(** ** Symbols *)

Definition symbol (d : Z) : Z := alphabet !!! Z.to_nat d.

Definition digit_of (c : Z) : option Z :=
  let d := reverse_alphabet c in if d <? 0 then None else Some d.

Lemma forall_below (P : Z → bool) n :
  forallb (λ i, P (Z.of_nat i)) (seq 0 n) = true → ∀ x, 0 ≤ x < Z.of_nat n → P x = true.
Proof.
  intros H x Hx. rewrite forallb_forall in H. specialize (H (Z.to_nat x)).
  rewrite Z2Nat.id in H by lia. apply H, in_seq. lia.
Qed.

Lemma symbol_lookup d : digit58 d → alphabet !! Z.to_nat d = Some (symbol d).
Proof.
  intros Hd. apply list_lookup_lookup_total_lt. unfold digit58 in Hd.
  change (length alphabet) with 58%nat. lia.
Qed.

Lemma digit_of_symbol d : digit58 d → digit_of (symbol d) = Some d.
Proof.
  intros Hd.
  pose proof (forall_below (λ d, bool_decide (digit_of (symbol d) = Some d)) 58 eq_refl d Hd) as F.
  exact (bool_decide_eq_true_1 _ F).
Qed.

Lemma digit_of_inv c d : 0 ≤ c < 256 → digit_of c = Some d → digit58 d ∧ symbol d = c.
Proof.
  intros Hc E.
  assert (match digit_of c with Some d => (0 <=? d) && (d <? 58) && (symbol d =? c) | None => true end = true)
    as F.
  { apply (forall_below (λ c, match digit_of c with
      Some d => (0 <=? d) && (d <? 58) && (symbol d =? c) | None => true end) 256);
      [vm_compute; reflexivity|lia]. }
  rewrite E in F. rewrite !andb_true_iff, Z.leb_le, Z.ltb_lt, Z.eqb_eq in F. unfold digit58. lia.
Qed.

Lemma digits_of_symbols l : Forall digit58 l → mapM digit_of (symbol <$> l) = Some l.
Proof.
  induction 1 as [|d l Hd _ IH]; [done|]. cbn [fmap list_fmap mapM].
  by rewrite (digit_of_symbol d Hd), IH.
Qed.

Lemma digits_of_inv cs ds :
  bytes cs → mapM digit_of cs = Some ds → Forall digit58 ds ∧ symbol <$> ds = cs.
Proof.
  intros Hb. rewrite mapM_Some. intros E. induction E as [|c d cs ds Hc _ IH]; [done|].
  apply Forall_cons_1 in Hb as [Hb1 Hb2]. destruct (digit_of_inv c d Hb1 Hc) as [Hd Es].
  destruct (IH Hb2) as [Hds Ess]. split; [by constructor|]. cbn. by rewrite Es, <- Ess.
Qed.

(** ** Numbers in a block *)

Definition be_num (data : list Z) : Z := le_combine (reverse data).

Lemma be_num_bound data : bytes data → 0 ≤ be_num data < 256 ^ Z.of_nat (length data).
Proof.
  intros Hb. unfold be_num. rewrite <- (length_reverse data). apply le_combine_bound.
  unfold bytes. by rewrite Forall_reverse.
Qed.

Lemma pow256_le8 n : (n ≤ 8)%nat → 256 ^ Z.of_nat n ≤ 2 ^ 64.
Proof. intros Hn. change (2 ^ 64) with (256 ^ 8). apply Z.pow_le_mono_r; lia. Qed.

Lemma foldl_be data :
  bytes data → (length data ≤ 8)%nat →
  foldl (λ res b, Z.lor (uwrap 64 (Z.shiftl res 8)) b) 0 data = be_num data.
Proof.
  induction data as [|b data IH] using rev_ind; intros Hb Hl; [done|].
  apply Forall_app in Hb as [Hd Hb]. apply Forall_cons_1 in Hb as [Hb _].
  rewrite length_app in Hl. cbn [length] in Hl.
  rewrite foldl_app. cbn [foldl]. rewrite IH by (done || lia).
  pose proof (be_num_bound data Hd) as B.
  assert (256 ^ Z.of_nat (length data) ≤ 256 ^ 7) by (apply Z.pow_le_mono_r; lia).
  change (256 ^ 7) with (2 ^ 56) in *.
  rewrite uwrap_id by (rewrite Z.shiftl_mul_pow2 by lia; lia).
  rewrite Z.lor_comm, lor_shiftl_add by lia. unfold be_num. rewrite reverse_snoc. cbn [le_combine]. lia.
Qed.

Lemma take_le_split n m z : (n ≤ m)%nat → take n (le_split m z) = le_split n z.
Proof.
  revert m z. induction n as [|n IH]; intros m z Hn; [done|].
  destruct m as [|m]; [lia|]. cbn [le_split take]. rewrite IH by lia. done.
Qed.

Section blocks.
Context `{Build}.

Lemma uint_8be_to_64_ok data :
  bytes data → (1 ≤ length data ≤ 8)%nat → uint_8be_to_64 data = Some (be_num data).
Proof.
  intros Hb Hl. unfold uint_8be_to_64.
  rewrite assert_true by (rewrite andb_true_iff, !Nat.leb_le; lia). cbn [mbind option_bind].
  rewrite foldl_be by (done || lia). done.
Qed.

Lemma uint_64_to_8be_ok num size :
  (1 ≤ size ≤ 8)%nat → uint_64_to_8be num size = Some (reverse (le_split size num)).
Proof.
  intros Hs. unfold uint_64_to_8be.
  rewrite assert_true by (rewrite andb_true_iff, !Nat.leb_le; lia). cbn [mbind option_bind].
  rewrite SWAP64_ok, <- (take_le_split size 8 num) by lia. f_equal.
  rewrite <- (take_drop size (le_split 8 num)) at 1. rewrite reverse_app.
  apply drop_app_length'. rewrite length_reverse, length_drop, length_le_split. done.
Qed.

(** ** One block *)

Lemma encode_loop_ok n k num suffix :
  (k ≤ n)%nat → 0 ≤ num < 58 ^ Z.of_nat k →
  encode_loop n num (Z.of_nat k - 1) (replicate k (alphabet !!! 0%nat) ++ suffix)
  = Some (reverse (symbol <$> split58 k num) ++ suffix).
Proof.
  revert k num suffix. induction n as [|n IH]; intros k num suffix Hk Hn.
  - destruct k; [|lia]. change (58 ^ Z.of_nat 0) with 1 in Hn. cbn [encode_loop].
    by rewrite (proj2 (Z.leb_le num 0)) by lia.
  - cbn [encode_loop]. destruct (Z.leb_spec num 0) as [H0|H0].
    { assert (num = 0) as -> by lia. rewrite split58_0, fmap_replicate, reverse_replicate. done. }
    destruct k as [|k]; [change (58 ^ Z.of_nat 0) with 1 in Hn; lia|]. rewrite pow58_succ in Hn.
    rewrite (proj2 (Z.ltb_ge _ 0)) by lia. unfold alphabet_size.
    rewrite symbol_lookup by (apply Z.mod_pos_bound; lia). cbn [mbind option_bind].
    replace (Z.of_nat (S k) - 1) with (Z.of_nat k) by lia. rewrite Nat2Z.id.
    rewrite replicate_S_end, <- app_assoc.
    rewrite insert_app_r_alt by (by rewrite length_replicate).
    rewrite length_replicate, Nat.sub_diag. cbn [app insert list_insert].
    rewrite IH by (lia || zlia). cbn [split58 fmap list_fmap]. by rewrite reverse_cons, <- app_assoc.
Qed.

(** The value of the symbols decides, whatever the partial sums are. *)
Lemma decode_loop_ok symbols res j :
  (j + length symbols ≤ 11)%nat → bytes symbols → u64 res →
  decode_loop symbols res (uwrap 64 (58 ^ Z.of_nat j)) =
    Some (ds ← mapM digit_of symbols;
          let v := res + 58 ^ Z.of_nat j * val58 ds in if v <? 2 ^ 64 then Some v else None).
Proof.
  revert res j. induction symbols as [|c symbols IH]; intros res j Hj Hb Hr.
  { cbn. unfold u64 in Hr. rewrite Z.mul_0_r, Z.add_0_r. by rewrite (proj2 (Z.ltb_lt _ _)) by lia. }
  cbn [length] in Hj. apply Forall_cons_1 in Hb as [Hc Hb].
  assert (0 < 58 ^ Z.of_nat j < 2 ^ 64) as Hp.
  { split; [lia|]. apply Z.le_lt_trans with (58 ^ 10); [apply Z.pow_le_mono_r; lia|reflexivity]. }
  cbn [decode_loop mapM]. rewrite (uwrap_id 64 (58 ^ _)) by lia.
  destruct (digit_of c) as [d|] eqn:Ed; unfold digit_of in Ed.
  2:{ destruct (reverse_alphabet c <? 0); [done|discriminate]. }
  destruct (reverse_alphabet c <? 0) eqn:Eneg; [discriminate|]. injection Ed as Ed. rewrite Ed.
  assert (digit58 d) as Hd.
  { apply (digit_of_inv c d Hc). unfold digit_of. rewrite Eneg. by rewrite Ed. }
  unfold digit58, u64 in *.
  destruct (mul128_ok (58 ^ Z.of_nat j) d) as (lo & hi & E & F & Hlo & Hhi); [unfold u64; lia..|].
  step E. cbn iota. unfold u64 in *. set (p := 58 ^ Z.of_nat j) in *.
  assert (alphabet_size = 58) as -> by reflexivity.
  replace (uwrap 64 (p * 58)) with (uwrap 64 (58 ^ Z.of_nat (S j)))
    by (rewrite pow58_succ; fold p; f_equal; lia).
  assert (∀ ds, mapM digit_of symbols = Some ds → 0 ≤ val58 ds) as Hpos.
  { intros ds Eds. apply digits_of_inv in Eds as [Hds _]; [|done]. by apply val58_bound. }
  destruct (decide (res + p * d < 2 ^ 64)) as [Hfit|Hover].
  - assert (hi = 0) as -> by nia. assert (lo = p * d) as -> by lia.
    rewrite (uwrap_id 64 (res + _)), (proj2 (Z.ltb_ge (res + _) res)) by nia. cbn [orb negb Z.eqb].
    rewrite IH by (done || lia || nia). f_equal.
    destruct (mapM digit_of symbols) as [ds|]; [|done]. cbn [mret option_ret mbind option_bind val58].
    rewrite pow58_succ. fold p.
    replace (res + p * d + 58 * p * val58 ds) with (res + p * (d + 58 * val58 ds)) by lia. done.
  - assert ((uwrap 64 (res + lo) <? res) || negb (hi =? 0) = true) as ->.
    { rewrite orb_true_iff, negb_true_iff, Z.eqb_neq, Z.ltb_lt.
      destruct (decide (hi = 0)) as [->|]; [left|by right]. unfold uwrap.
      assert (lo = p * d) as -> by lia. zlia. }
    f_equal. destruct (mapM digit_of symbols) as [ds|] eqn:Eds; [|done]. cbn [mbind option_bind val58].
    specialize (Hpos ds eq_refl). cbn [mret option_ret mbind option_bind val58].
    by rewrite (proj2 (Z.ltb_ge _ _)) by nia.
Qed.

Definition enc_size (n : nat) : nat := encoded_block_sizes !!! n.

Definition enc_block (data : list Z) : list Z :=
  reverse (symbol <$> split58 (enc_size (length data)) (be_num data)).

(** The sizes are large enough, and the table of the other direction inverts them. *)
Lemma sizes_ok n :
  (n ≤ 8)%nat →
  encoded_block_sizes !! n = Some (enc_size n) ∧ (n ≤ enc_size n ≤ 11)%nat
  ∧ 256 ^ Z.of_nat n ≤ 58 ^ Z.of_nat (enc_size n) ∧ decoded_block_sizes (enc_size n) = Some (Z.of_nat n).
Proof.
  intros Hn. unfold decoded_block_sizes. assert (enc_size n ≤ 11)%nat as He.
  { do 9 (destruct n as [|n]; [vm_compute; lia|]). lia. }
  rewrite assert_true by (by apply Nat.leb_le). cbn [mbind option_bind]. clear He.
  do 9 (destruct n as [|n]; [split; [reflexivity|]; split; [vm_compute; lia|]; split;
    [vm_compute; discriminate|reflexivity]|]). lia.
Qed.

Lemma decoded_size_inv k :
  (k ≤ 11)%nat →
  decoded_block_sizes k = Some (-1) ∨ ∃ n, (n ≤ 8)%nat ∧ decoded_block_sizes k = Some (Z.of_nat n) ∧ k = enc_size n.
Proof.
  intros Hk. unfold decoded_block_sizes. rewrite assert_true by (by apply Nat.leb_le).
  cbn [mbind option_bind].
  assert (forallb (λ k, match decoded_block_sizes_data !! k with
      | Some z => (z =? -1) || ((0 <=? z) && (z <=? 8) && (k =? enc_size (Z.to_nat z))%nat)
      | None => false end) (seq 0 12) = true) as F by reflexivity.
  rewrite forallb_forall in F. specialize (F k ltac:(apply in_seq; lia)).
  destruct (decoded_block_sizes_data !! k) as [z|]; [|done].
  rewrite orb_true_iff, !andb_true_iff, !Z.leb_le, Z.eqb_eq, Nat.eqb_eq in F.
  destruct F as [->|[[H0 H8] ->]]; [by left|right]. exists (Z.to_nat z).
  rewrite Z2Nat.id by done. split; [lia|done].
Qed.

Lemma length_enc_block data : length (enc_block data) = enc_size (length data).
Proof. unfold enc_block. by rewrite length_reverse, length_fmap, length_split58. Qed.

Lemma encode_block_ok data :
  bytes data → (1 ≤ length data ≤ 8)%nat →
  encode_block data (replicate (enc_size (length data)) (alphabet !!! 0%nat)) = Some (enc_block data).
Proof.
  intros Hb Hl. destruct (sizes_ok (length data)) as (E & Hs & Hp & _); [lia|]. unfold encode_block.
  rewrite assert_true by (rewrite andb_true_iff, !Nat.leb_le; unfold full_block_size; lia).
  cbn [mbind option_bind]. step (uint_8be_to_64_ok data Hb Hl). rewrite E. cbn [mbind option_bind].
  pose proof (be_num_bound data Hb).
  rewrite <- (app_nil_r (replicate _ _)), encode_loop_ok by lia. by rewrite app_nil_r.
Qed.

Lemma decode_block_ok block n :
  bytes block → length block = enc_size n → (1 ≤ n ≤ 8)%nat →
  decode_block block =
    Some (ds ← mapM digit_of (reverse block);
          if val58 ds <? 256 ^ Z.of_nat n then Some (reverse (le_split n (val58 ds))) else None).
Proof.
  intros Hb Hl Hn. destruct (sizes_ok n) as (_ & Hs & _ & E); [lia|]. unfold decode_block. rewrite Hl.
  rewrite assert_true by (rewrite andb_true_iff, !Nat.leb_le; unfold full_encoded_block_size; lia).
  cbn [mbind option_bind]. rewrite E. cbn [mbind option_bind].
  rewrite (proj2 (Z.leb_gt _ 0)) by lia.
  pose proof (decode_loop_ok (reverse block) 0 0) as D. change (uwrap 64 (58 ^ Z.of_nat 0)) with 1 in D.
  rewrite D; [|rewrite length_reverse; lia|unfold bytes; by rewrite Forall_reverse|unfold u64; lia].
  clear D. cbn [mbind option_bind]. pose proof (pow256_le8 n ltac:(lia)) as Hp.
  destruct (mapM digit_of (reverse block)) as [ds|]; [|done]. cbn [mbind option_bind].
  change (58 ^ Z.of_nat 0) with 1. rewrite Z.mul_1_l, Z.add_0_l.
  destruct (Z.ltb_spec (val58 ds) (2 ^ 64)) as [Hv|Hv]; [|by rewrite (proj2 (Z.ltb_ge _ _)) by lia].
  rewrite Nat2Z.id, (uint_64_to_8be_ok _ n) by lia.
  rewrite Z.shiftl_1_l, <- pow256_pow2. change (Z.of_nat full_block_size) with 8.
  destruct (Z.ltb_spec (val58 ds) (256 ^ Z.of_nat n)) as [Hlt|Hge].
  - rewrite (proj2 (Z.leb_gt (256 ^ _) _)), andb_false_r by lia. done.
  - rewrite (proj2 (Z.leb_le (256 ^ _) _)), andb_true_r by lia.
    destruct (Z.ltb_spec (Z.of_nat n) 8); [done|]. assert (n = 8%nat) as -> by lia.
    change (256 ^ Z.of_nat 8) with (2 ^ 64) in Hge. lia.
Qed.

Lemma enc_block_bytes data : bytes (enc_block data).
Proof.
  unfold enc_block, bytes. rewrite Forall_reverse, Forall_fmap.
  eapply Forall_impl; [|apply split58_digits]. intros d Hd. cbn.
  pose proof (forall_below (λ d, (0 <=? symbol d) && (symbol d <? 256)) 58 eq_refl d Hd) as F.
  by rewrite andb_true_iff, Z.leb_le, Z.ltb_lt in F.
Qed.

Lemma decode_enc_block data :
  bytes data → (1 ≤ length data ≤ 8)%nat → decode_block (enc_block data) = Some (Some data).
Proof.
  intros Hb Hl. destruct (sizes_ok (length data)) as (_ & _ & Hp & _); [lia|].
  rewrite (decode_block_ok _ (length data)) by (apply enc_block_bytes || apply length_enc_block || done).
  unfold enc_block. rewrite reverse_involutive, digits_of_symbols by apply split58_digits.
  pose proof (be_num_bound data Hb). cbn [mbind option_bind].
  rewrite val58_split, (proj2 (Z.ltb_lt _ _)) by lia. do 2 f_equal. unfold be_num.
  rewrite <- (length_reverse data), le_split_combine by (unfold bytes; by rewrite Forall_reverse).
  apply reverse_involutive.
Qed.

Lemma decode_block_inv block data :
  bytes block → (1 ≤ length block ≤ 11)%nat → decode_block block = Some (Some data) →
  bytes data ∧ (1 ≤ length data ≤ 8)%nat ∧ enc_block data = block.
Proof.
  intros Hb Hl E. destruct (decoded_size_inv (length block)) as [En|(n & Hn & En & El)]; [lia| |].
  - unfold decode_block in E. rewrite assert_true, En in E
      by (rewrite andb_true_iff, !Nat.leb_le; unfold full_encoded_block_size; lia). discriminate E.
  - assert (1 ≤ n)%nat as Hn1 by (destruct n; [cbn in El; lia|lia]).
    rewrite (decode_block_ok block n) in E by (done || lia). injection E as E.
    destruct (mapM digit_of (reverse block)) as [ds|] eqn:Eds; [|discriminate E].
    apply digits_of_inv in Eds as [Hds Es]; [|unfold bytes; by rewrite Forall_reverse].
    cbn [mbind option_bind] in E. destruct (Z.ltb_spec (val58 ds) (256 ^ Z.of_nat n)); [|discriminate E].
    injection E as <-. rewrite length_reverse, length_le_split.
    split; [unfold bytes; rewrite Forall_reverse; apply bytes_le_split|]. split; [lia|].
    unfold enc_block, be_num. rewrite reverse_involutive, length_reverse, length_le_split.
    pose proof (val58_bound ds Hds). rewrite le_combine_split, Z.mod_small by lia.
    assert (length ds = enc_size n) as Eds.
    { apply (f_equal length) in Es. rewrite length_fmap, length_reverse in Es. lia. }
    rewrite <- Eds, split58_val by done. rewrite Es. apply reverse_involutive.
Qed.

(** ** All blocks *)

(** The encoding, block by block. *)
Fixpoint enc_blocks (n : nat) (data : list Z) : list Z :=
  match n with
  | O => match data with [] => [] | _ => enc_block data end
  | S n => enc_block (take 8 data) ++ enc_blocks n (drop 8 data)
  end.

(** [n] full blocks and a shorter one. *)
Definition shape (n : nat) (data : list Z) : Prop := (8 * n ≤ length data < 8 * n + 8)%nat.

Lemma shape_div data : shape (length data `div` 8) data.
Proof.
  unfold shape. pose proof (Nat.div_mod (length data) 8). pose proof (Nat.mod_upper_bound (length data) 8). lia.
Qed.

Lemma shape_drop n data : shape (S n) data → shape n (drop 8 data) ∧ length (take 8 data) = 8%nat.
Proof. unfold shape. rewrite length_drop, length_take. lia. Qed.

Lemma encode_blocks_ok n data :
  bytes data → shape n data → encode_blocks n data = Some (enc_blocks n data).
Proof.
  revert data. induction n as [|n IH]; intros data Hb Hs.
  - unfold shape in Hs. destruct data as [|b data]; [done|]. cbn [encode_blocks enc_blocks].
    destruct (sizes_ok (length (b :: data))) as (E & _); [lia|]. rewrite E. cbn [mbind option_bind].
    apply encode_block_ok; [done|]. cbn [length] in *. lia.
  - apply shape_drop in Hs as [Hs Ht]. cbn [encode_blocks enc_blocks].
    pose proof (encode_block_ok (take 8 data)) as E. rewrite Ht in E.
    change (enc_size 8) with full_encoded_block_size in E.
    step (E ltac:(by apply Forall_take) ltac:(lia)). change full_block_size with 8%nat.
    step (IH (drop 8 data) ltac:(by apply Forall_drop) Hs). done.
Qed.

Lemma enc_blocks_length n data :
  shape n data → length (enc_blocks n data) = (11 * n + enc_size (length data - 8 * n))%nat.
Proof.
  revert data. induction n as [|n IH]; intros data Hs.
  - destruct data; [done|]. cbn [enc_blocks]. by rewrite length_enc_block, Nat.mul_0_r, Nat.sub_0_r.
  - apply shape_drop in Hs as [Hs Ht]. cbn [enc_blocks].
    rewrite length_app, IH, length_enc_block, Ht, length_drop by done.
    change (enc_size 8) with 11%nat. replace (length data - 8 - 8 * n)%nat with (length data - 8 * S n)%nat by lia. lia.
Qed.

Lemma decode_enc_blocks n data :
  bytes data → shape n data → decode_blocks n (enc_blocks n data) = Some (Some data).
Proof.
  revert data. induction n as [|n IH]; intros data Hb Hs.
  - destruct data as [|b data]; [done|]. cbn [decode_blocks enc_blocks]. unfold shape in Hs.
    assert (1 ≤ length (b :: data) ≤ 8)%nat as Hl by (cbn [length] in *; lia).
    destruct (enc_block (b :: data)) eqn:E; [|rewrite <- E; by apply decode_enc_block].
    apply (f_equal length) in E. rewrite length_enc_block in E.
    destruct (sizes_ok (length (b :: data))) as (_ & ? & _); cbn [length] in *; lia.
  - apply shape_drop in Hs as [Hs Ht]. cbn [decode_blocks enc_blocks].
    assert (length (enc_block (take 8 data)) = full_encoded_block_size) as El
      by (by rewrite length_enc_block, Ht).
    rewrite take_app_length', drop_app_length' by done.
    step (decode_enc_block (take 8 data) ltac:(by apply Forall_take) ltac:(lia)).
    step (IH (drop 8 data) ltac:(by apply Forall_drop) Hs). by rewrite take_drop.
Qed.

Lemma enc_size_small n : (n < 8)%nat → (enc_size n < 11)%nat.
Proof. intros Hn. do 8 (destruct n as [|n]; [vm_compute; lia|]). lia. Qed.

Lemma base58_encode_ok data : bytes data → encode data = Some (enc_blocks (length data `div` 8) data).
Proof. intros Hb. apply encode_blocks_ok; [done|apply shape_div]. Qed.

(** The size of an encoding gives back the number of blocks. *)
Lemma encoded_shape n r : (r < 8)%nat →
  ((11 * n + enc_size r) `div` 11 = n ∧ (11 * n + enc_size r) `mod` 11 = enc_size r)%nat.
Proof.
  intros Hr. pose proof (enc_size_small r Hr). rewrite Nat.mul_comm, Nat.add_comm.
  rewrite Nat.div_add, Nat.Div0.mod_add, Nat.div_small, Nat.mod_small by lia. done.
Qed.

Lemma decode_encode data : bytes data → ∃ enc, encode data = Some enc ∧ bytes enc ∧ decode enc = Some (Some data).
Proof.
  intros Hb. rewrite base58_encode_ok by done. pose proof (shape_div data) as Hs.
  set (n := (length data `div` 8)%nat) in *. exists (enc_blocks n data). split; [done|].
  split. { clear Hb Hs. generalize n data. clear n data. intros n. induction n as [|n IH]; intros data.
    - destruct data; [constructor|apply enc_block_bytes].
    - cbn [enc_blocks]. apply Forall_app. split; [apply enc_block_bytes|apply IH]. }
  pose proof (enc_blocks_length n data Hs) as El. pose proof (decode_enc_blocks n data Hb Hs) as D.
  unfold shape in Hs. set (r := (length data - 8 * n)%nat) in *. assert (r < 8)%nat as Hr by lia.
  destruct (encoded_shape n r Hr) as [Ed Em]. destruct (sizes_ok r) as (_ & _ & _ & Es); [lia|].
  unfold decode. change full_encoded_block_size with 11%nat. rewrite El, Em, Ed.
  destruct (enc_blocks n data) as [|c enc] eqn:Ee.
  - cbn [length] in El. destruct n as [|n]; [|lia]. destruct data; [done|]. cbn [enc_blocks] in Ee.
    apply (f_equal length) in Ee. rewrite length_enc_block in Ee. destruct (sizes_ok (length (z :: data))); cbn [length] in *; lia.
  - rewrite Es. cbn [mbind option_bind]. by rewrite (proj2 (Z.ltb_ge _ 0)) by lia.
Qed.

Lemma decode_block_total block :
  bytes block → (1 ≤ length block ≤ 11)%nat → ∃ r, decode_block block = Some r.
Proof.
  intros Hb Hl. destruct (decoded_size_inv (length block)) as [En|(n & Hn & En & El)]; [lia| |].
  - exists None. unfold decode_block. rewrite assert_true, En
      by (rewrite andb_true_iff, !Nat.leb_le; unfold full_encoded_block_size; lia). done.
  - assert (1 ≤ n)%nat by (destruct n; [cbn in El; lia|lia]).
    rewrite (decode_block_ok block n) by (done || lia). by eexists.
Qed.

Lemma decode_blocks_inv n enc :
  bytes enc → (11 * n ≤ length enc < 11 * n + 11)%nat →
  ∃ r, decode_blocks n enc = Some r
    ∧ ∀ data, r = Some data → bytes data ∧ shape n data ∧ enc_blocks n data = enc.
Proof.
  revert enc. induction n as [|n IH]; intros enc Hb Hl.
  - destruct enc as [|c enc].
    { exists (Some []). split; [done|]. intros data [= <-]. split; [constructor|]. split; [unfold shape; cbn; lia|done]. }
    assert (1 ≤ length (c :: enc) ≤ 11)%nat as Hl1 by (cbn [length] in *; lia).
    destruct (decode_block_total (c :: enc) Hb Hl1) as [r E]. exists r. split; [exact E|].
    intros data ->. destruct (decode_block_inv _ _ Hb Hl1 E) as (Hd & Hn & Ee).
    split; [done|]. split; [|destruct data; [cbn in Hn; lia|exact Ee]].
    apply (f_equal length) in Ee. rewrite length_enc_block in Ee. unfold shape.
    assert (length data ≠ 8%nat); [|lia]. intros E8. rewrite E8 in Ee. change (enc_size 8) with 11%nat in Ee. lia.
  - assert (length (take 11 enc) = 11%nat) as Ht by (rewrite length_take; lia).
    assert (bytes (take 11 enc)) as Hb1 by (by apply Forall_take).
    destruct (decode_block_total (take 11 enc) Hb1 ltac:(lia)) as [r E].
    destruct (IH (drop 11 enc)) as (r2 & E2 & H2); [by apply Forall_drop|rewrite length_drop; lia|].
    cbn [decode_blocks]. change full_encoded_block_size with 11%nat. step E.
    destruct r as [d|]; [|by eexists]. step E2. eexists. split; [reflexivity|].
    destruct r2 as [d2|]; [|done]. intros data [= <-].
    destruct (H2 d2 eq_refl) as (Hd2 & Hs2 & Ee2).
    destruct (decode_block_inv _ _ Hb1 ltac:(lia) E) as (Hd & Hn & Ee).
    assert (length d = 8%nat) as El8.
    { apply (f_equal length) in Ee. rewrite length_enc_block, Ht in Ee.
      destruct (decide (length d < 8)%nat) as [Hlt|]; [|lia]. apply enc_size_small in Hlt. lia. }
    split; [by apply Forall_app|]. split; [unfold shape in *; rewrite length_app; lia|].
    cbn [enc_blocks]. rewrite take_app_length', drop_app_length', Ee, Ee2 by done. apply take_drop.
Qed.

Lemma decode_inv enc :
  bytes enc → ∃ r, decode enc = Some r ∧ ∀ data, r = Some data → bytes data ∧ encode data = Some enc.
Proof.
  intros Hb. destruct enc as [|c enc].
  { exists (Some []). split; [done|]. intros data [= <-]. split; [constructor|done]. }
  unfold decode. change full_encoded_block_size with 11%nat.
  set (e := c :: enc) in *. set (n := (length e `div` 11)%nat).
  pose proof (Nat.div_mod (length e) 11). pose proof (Nat.mod_upper_bound (length e) 11). fold n in H0.
  destruct (decoded_size_inv (length e `mod` 11)) as [En|(m & Hm & En & El)]; [lia|by rewrite En; eexists|].
  rewrite En. cbn [mbind option_bind]. rewrite (proj2 (Z.ltb_ge _ 0)) by lia.
  destruct (decode_blocks_inv n e Hb) as (r & E & Hr); [lia|]. exists r. split; [exact E|].
  intros data ->. destruct (Hr data eq_refl) as (Hd & Hs & Ee). split; [done|].
  rewrite base58_encode_ok by done. rewrite <- Ee. do 2 f_equal. unfold shape in Hs.
  symmetry. apply (Nat.div_unique _ _ _ (length data - 8 * n)); lia.
Qed.

End blocks.

(** ** Addresses *)

Lemma read_written tag rest :
  u64 tag → read_varint 64 64 (get_varint_data tag ++ rest) =
    (Z.of_nat (length (get_varint_data tag)), tag, rest).
Proof.
  intros Ht. unfold u64, get_varint_data, read_varint in *.
  rewrite (read_loop_written 64 64 tag _ rest 0 0 0); [|apply write_varint_ok; lia|lia..].
  f_equal. f_equal; lia.
Qed.

Lemma read_accepted input code v rest :
  bytes input → 0 ≤ code → read_varint 64 64 input = (code, v, rest) →
  u64 v ∧ ∃ pre, input = pre ++ rest ∧ code = Z.of_nat (length pre)
    ∧ (pre = get_varint_data v ∨ rest = [] ∧ Forall (λ b, 128 ≤ b) pre).
Proof.
  intros Hb Hc E. apply read_loop_inv in E as (pre & -> & -> & [Hv (j & Ev & Hj)]); [|done|lia..].
  split; [done|]. exists pre. split; [done|]. split; [lia|].
  destruct Hj as [[Hj _]|Hj]; [left|by right]. assert (j = v) as -> by lia.
  apply (varint_fun v); [done|]. apply write_varint_ok. lia.
Qed.

(** The number of the bytes, seven bits of each *)
Definition seven_bits (pre : list Z) : Z := foldr (λ b v, b mod 128 + 128 * v) 0 pre.

(** A number whose last byte is missing: up to nine bytes are read to the end of the input. *)
Lemma read_cut pre k w :
  Forall (λ b, 128 ≤ b < 256) pre → 0 ≤ k → k + Z.of_nat (length pre) ≤ 9 → 0 ≤ w < 2 ^ (7 * k) →
  read_loop 64 64 pre (7 * k) k w = (k + Z.of_nat (length pre), w + 2 ^ (7 * k) * seven_bits pre, []).
Proof.
  intros HF. revert k w. induction HF as [|b pre Hb HF IH]; intros k w Hk HL Hw; cbn [read_loop length seven_bits foldr].
  { rewrite Z.mul_0_r, !Z.add_0_r. done. }
  cbn [length] in HL. rewrite (proj2 (Z.leb_gt 64 (7 * k + 7))) by lia. cbn [andb].
  rewrite (proj2 (Z.eqb_neq b 0)) by lia. cbn [andb]. rewrite land_80, (proj2 (Z.ltb_ge b 128)), land_7f by lia.
  pose proof (Z.mod_pos_bound b 128 ltac:(lia)) as Hm.
  assert (2 ^ (7 * k + 7) = 2 ^ (7 * k) * 128) as E7 by (rewrite Z.pow_add_r by lia; done).
  assert (0 < 2 ^ (7 * k)) as Hp by (apply Z.pow_pos_nonneg; lia).
  assert (2 ^ (7 * k + 7) ≤ 2 ^ 64) as H64 by (apply Z.pow_le_mono_r; lia).
  rewrite uwrap_id by (rewrite Z.shiftl_mul_pow2 by lia; nia).
  rewrite lor_shiftl_add by lia. replace (7 * k + 7) with (7 * (k + 1)) by lia.
  rewrite IH; [|lia|lia|replace (7 * (k + 1)) with (7 * k + 7) by lia; nia].
  replace (7 * (k + 1)) with (7 * k + 7) by lia. rewrite E7. fold (seven_bits pre).
  f_equal. f_equal; [lia|ring].
Qed.

(** The tenth byte has one bit. *)
Lemma read_cut_long pre k w :
  Forall (λ b, 128 ≤ b < 256) pre → 0 ≤ k ≤ 9 → 9 < k + Z.of_nat (length pre) →
  ∃ w' rest, read_loop 64 64 pre (7 * k) k w = (EVARINT_OVERFLOW, w', rest).
Proof.
  intros HF. revert k w. induction HF as [|b pre Hb HF IH]; intros k w Hk HL; cbn [read_loop length] in *; [lia|].
  destruct (decide (k = 9)) as [->|].
  { rewrite (proj2 (Z.leb_le _ b)) by (change (Z.shiftl 1 _) with 2; lia). by eexists _, _. }
  rewrite (proj2 (Z.leb_gt 64 (7 * k + 7))) by lia. cbn [andb].
  rewrite (proj2 (Z.eqb_neq b 0)) by lia. cbn [andb]. rewrite land_80, (proj2 (Z.ltb_ge b 128)) by lia.
  replace (7 * k + 7) with (7 * (k + 1)) by lia. apply IH; lia.
Qed.

Lemma varint_data_pos tag : 0 ≤ tag → bytes (get_varint_data tag) ∧ (1 ≤ length (get_varint_data tag))%nat.
Proof.
  intros Ht. pose proof (write_varint_ok tag Ht) as Hv. split; [by eapply varint_bytes|].
  unfold get_varint_data. destruct Hv; cbn [length]; lia.
Qed.

Section addresses.
Context `{Build} `{FastHashLaws}.

Lemma checksum_ok data : bytes data → ∃ h, fast_hash data = Some h
  ∧ length (take addr_checksum_size h) = 4%nat ∧ bytes (take addr_checksum_size h).
Proof.
  intros _. destruct (fast_hash_total data) as (h & E & Hl & Hb). exists h. split; [done|].
  split; [rewrite length_take; unfold addr_checksum_size; lia|by apply Forall_take].
Qed.

Lemma decode_encode_addr tag data :
  u64 tag → bytes data → ∃ addr, encode_addr tag data = Some addr ∧ bytes addr
    ∧ decode_addr addr = Some (Some (tag, data)).
Proof.
  intros Ht Hd. destruct (varint_data_pos tag) as [Hv Hl]; [unfold u64 in Ht; lia|].
  set (buf := get_varint_data tag ++ data).
  assert (bytes buf) as Hbuf by (by apply Forall_app).
  destruct (checksum_ok buf Hbuf) as (h & Eh & Hc & Hcb).
  unfold encode_addr, decode_addr, addr_checksum_size in *. set (sum := take 4 h) in *.
  destruct (decode_encode (buf ++ sum)) as (addr & Ee & Hab & Ed); [by apply Forall_app|].
  exists addr. fold buf. step Eh. fold sum. rewrite Ee.
  split; [done|]. split; [done|]. step Ed. rewrite length_app, Hc.
  assert (1 ≤ length buf)%nat as Hbl by (unfold buf; rewrite length_app; lia).
  rewrite (proj2 (Nat.leb_gt _ 4)) by lia. cbv zeta.
  replace (length buf + 4 - 4)%nat with (length buf) by lia.
  rewrite take_app_length, drop_app_length. step Eh. fold sum. rewrite decide_True by done.
  unfold buf. rewrite read_written by done. rewrite (proj2 (Z.leb_gt _ 0)) by lia.
  rewrite Nat2Z.id, drop_app_length. done.
Qed.

(** The address of a body, with its checksum *)
Definition addr_of (body addr : list Z) : Prop :=
  ∃ h, fast_hash body = Some h ∧ encode (body ++ take addr_checksum_size h) = Some addr.

(** An address that ends inside its tag *)
Definition cut_addr (tag : Z) (addr : list Z) : Prop :=
  ∃ pre, (1 ≤ length pre ≤ 9)%nat ∧ Forall (λ b, 128 ≤ b < 256) pre ∧ tag = seven_bits pre ∧ addr_of pre addr.

(** Every address with a right checksum is decoded to its body. *)
Lemma decode_addr_body body addr :
  bytes body → (1 ≤ length body)%nat → addr_of body addr →
  decode_addr addr = Some (let '(read, tag, _) := read_varint 64 64 body in
    if read <=? 0 then None else Some (tag, drop (Z.to_nat read) body)).
Proof.
  intros Hb Hl (h & Eh & Ee). destruct (checksum_ok body Hb) as (h' & Eh' & Hc & Hcb).
  rewrite Eh in Eh'. injection Eh' as <-. unfold decode_addr, addr_checksum_size in *.
  destruct (decode_encode (body ++ take 4 h)) as (addr' & Ee' & _ & Ed); [by apply Forall_app|].
  rewrite Ee in Ee'. injection Ee' as <-. step Ed. rewrite length_app, Hc.
  rewrite (proj2 (Nat.leb_gt _ 4)) by lia. cbv zeta.
  replace (length body + 4 - 4)%nat with (length body) by lia.
  rewrite take_app_length, drop_app_length. step Eh. rewrite decide_True by done.
  destruct (read_varint 64 64 body) as [[read tag] rest]. by destruct (read <=? 0).
Qed.

Lemma decode_addr_inv addr :
  bytes addr → ∃ r, decode_addr addr = Some r ∧
    ∀ tag data, r = Some (tag, data) ↔
      (u64 tag ∧ bytes data ∧ encode_addr tag data = Some addr) ∨ (data = [] ∧ cut_addr tag addr).
Proof.
  intros Hb. assert (∃ r, decode_addr addr = Some r ∧ ∀ tag data, r = Some (tag, data) →
    (u64 tag ∧ bytes data ∧ encode_addr tag data = Some addr) ∨ (data = [] ∧ cut_addr tag addr)) as (r & Er & Hr).
  { destruct (decode_inv addr Hb) as (r & E & Hr). unfold decode_addr. step E.
    destruct r as [raw|]; [|by eexists]. destruct (Hr raw eq_refl) as [Hraw Ee].
    destruct (Nat.leb_spec (length raw) addr_checksum_size) as [|Hlen]; [by eexists|]. cbv zeta.
    set (cut := (length raw - addr_checksum_size)%nat). set (body := take cut raw).
    assert (bytes body) as Hbody by (by apply Forall_take).
    destruct (checksum_ok body Hbody) as (h & Eh & _). step Eh.
    destruct (decide _) as [Es|]; [|by eexists].
    destruct (read_varint 64 64 body) as [[code v] rest] eqn:Ev.
    destruct (Z.leb_spec code 0); [by eexists|]. eexists. split; [reflexivity|].
    intros tag data [= <- <-].
    destruct (read_accepted body code v rest Hbody ltac:(lia) Ev) as (Hv & pre & Ebody & -> & Hpre).
    rewrite Nat2Z.id. replace (drop (length pre) body) with rest by (by rewrite Ebody, drop_app_length).
    assert (bytes pre ∧ bytes rest) as [Bp Br] by (rewrite Ebody in Hbody; by apply Forall_app in Hbody).
    assert (body ++ drop cut raw = raw) as Eraw by apply take_drop.
    destruct Hpre as [->|[-> Hp]].
    - left. split; [done|]. split; [done|]. unfold encode_addr. rewrite <- Ebody. step Eh. by rewrite Es, Eraw.
    - right. split; [done|]. rewrite app_nil_r in Ebody.
      assert (Forall (λ b, 128 ≤ b < 256) pre) as Hp'.
      { apply Forall_lookup. intros i b Hi. pose proof (proj1 (Forall_lookup _ _) Hp i b Hi) as G1.
        pose proof (proj1 (Forall_lookup _ _) Bp i b Hi) as G2. cbn in G1, G2. lia. }
      unfold read_varint in Ev. rewrite Ebody in Ev. destruct (le_lt_dec (length pre) 9) as [H9|H9].
      + pose proof (read_cut pre 0 0 Hp' ltac:(lia) ltac:(lia) ltac:(cbn; lia)) as Ec.
        change (7 * 0) with 0 in Ec. rewrite Ev in Ec. injection Ec as Ec. exists pre. split; [lia|].
        split; [done|]. split; [rewrite Ec; lia|]. exists h. rewrite <- Ebody. by rewrite Es, Eraw.
      + destruct (read_cut_long pre 0 0 Hp' ltac:(lia) ltac:(lia)) as (w' & rest & Ec).
        change (7 * 0) with 0 in Ec. rewrite Ev in Ec. injection Ec as Ec. unfold EVARINT_OVERFLOW in Ec. lia. }
  exists r. split; [exact Er|]. intros tag data. split; [apply Hr|]. intros [(Ht & Hd & Ee)|(-> & pre & Hl & HF & -> & Ha)].
  - destruct (decode_encode_addr tag data Ht Hd) as (a & Ea & _ & Ed). rewrite Ee in Ea. injection Ea as <-.
    rewrite Er in Ed. by injection Ed.
  - assert (bytes pre) as Bp by (eapply Forall_impl; [|exact HF]; cbn; lia).
    rewrite (decode_addr_body pre addr Bp ltac:(lia) Ha) in Er. unfold read_varint in Er.
    pose proof (read_cut pre 0 0 HF ltac:(lia) ltac:(lia) ltac:(cbn; lia)) as Ec. change (7 * 0) with 0 in Ec.
    rewrite Ec in Er. cbv iota beta in Er. rewrite (proj2 (Z.leb_gt _ 0)) in Er by lia. injection Er as <-.
    rewrite !Z.add_0_l, Nat2Z.id, drop_all. f_equal. f_equal. change (2 ^ 0) with 1. lia.
Qed.

End addresses.

(** ** Claims *)

(** C34. Base 58 is a bijection between byte strings and accepted strings: every
    byte string is encoded, its encoding decodes to it, decoding any string
    returns, and a string that decodes is the encoding of the result.  No assertion
    fails and no write leaves the buffer. *)
Theorem base58_spec (build : Build) (data enc : list Z) (Hd : bytes data) (He : bytes enc) :
  (∃ e, encode data = Some e ∧ bytes e ∧ decode e = Some (Some data))
  ∧ ∃ r, decode enc = Some r ∧ ∀ d, r = Some d → bytes d ∧ encode d = Some enc.
Proof. split; [by apply decode_encode|by apply decode_inv]. Qed.

(** The largest block, and the first string beyond it. *)
Lemma base58_spec_witness :
  @encode false (replicate 8 255) = Some (codes "jpXCZedGfVQ"%string)
  ∧ @decode false (codes "jpXCZedGfVR"%string) = Some None
  ∧ ∃ e, @encode false (replicate 8 255) = Some e ∧ bytes e ∧ @decode false e = Some (Some (replicate 8 255)).
Proof.
  split; [vm_compute; reflexivity|]. split; [vm_compute; reflexivity|].
  refine (proj1 (base58_spec false (replicate 8 255) (codes "jpXCZedGfVR"%string) _ _));
    apply (bool_decide_unpack _); vm_compute; exact I.
Defined.

(** C35. An address gives back its tag and its data, whatever the hash function is
    that returns 32 bytes.  Decoding any string returns, and accepts exactly two kinds of
    strings: the encoding of a 64-bit tag and data, which are returned; and the encoding
    of one to nine bytes of 128 or more with their checksum, an address that ends inside its tag,
    for which the number read so far is returned with empty data. *)
Theorem address_spec (build : Build) (hash : FastHash) (laws : FastHashLaws hash)
    (tag : Z) (data addr : list Z) (Ht : u64 tag) (Hd : bytes data) (Ha : bytes addr) :
  (∃ a, encode_addr tag data = Some a ∧ bytes a ∧ decode_addr a = Some (Some (tag, data)))
  ∧ ∃ r, decode_addr addr = Some r
    ∧ ∀ tag' data', r = Some (tag', data') ↔
        (u64 tag' ∧ bytes data' ∧ encode_addr tag' data' = Some addr)
        ∨ (data' = [] ∧ cut_addr tag' addr).
Proof. split; [by apply decode_encode_addr|by apply decode_addr_inv]. Qed.

(** A hash function for the example: the length of the data, 32 times. *)
Definition length_hash : FastHash := λ data, Some (replicate 32 (Z.of_nat (length data) mod 256)).

Lemma length_hash_laws : FastHashLaws length_hash.
Proof.
  intros data. eexists. split; [reflexivity|]. split; [apply length_replicate|].
  apply Forall_replicate. apply Z.mod_pos_bound. lia.
Qed.

Lemma address_spec_witness :
  ∃ a, @encode_addr false length_hash 18018 [1; 2; 3] = Some a ∧ bytes a
    ∧ @decode_addr false length_hash a = Some (Some (18018, [1; 2; 3])).
Proof.
  refine (proj1 (address_spec false length_hash length_hash_laws 18018 [1; 2; 3] [] _ _ _)).
  - unfold u64. lia.
  - apply (bool_decide_unpack _). vm_compute. exact I.
  - constructor.
Defined.
