(* ===== verification/Keccak.v ===== *)
(** * Keccak: [keccak.c] and [cn_fast_hash] of [hash.c]

    The permutation on 25 lanes of 64 bits, the one-shot sponge [keccak] and the
    incremental interface [keccak_init], [keccak_update], [keccak_finish].  A
    [uint64_t] is a number below [2 ^ 64]; memory is a list of bytes, and a
    [uint64_t] is read from it in little-endian order ([swap64le]).
    [local_abort] is [None]. *)

From S2P Require Export Prelude.

#[local] Open Scope Z_scope.

(** ** The permutation *)

Definition ROTL64 (x y : Z) : Z := Z.lor (uwrap 64 (Z.shiftl x y)) (Z.shiftr x (64 - y)).

(** [~x] *)
Definition not64 (x : Z) : Z := uwrap 64 (Z.lnot x).

Definition keccakf_rndc : list Z :=
  [ 0x0000000000000001; 0x0000000000008082; 0x800000000000808a;
    0x8000000080008000; 0x000000000000808b; 0x0000000080000001;
    0x8000000080008081; 0x8000000000008009; 0x000000000000008a;
    0x0000000000000088; 0x0000000080008009; 0x000000008000000a;
    0x000000008000808b; 0x800000000000008b; 0x8000000000008089;
    0x8000000000008003; 0x8000000000008002; 0x8000000000000080;
    0x000000000000800a; 0x800000008000000a; 0x8000000080008081;
    0x8000000000008080; 0x0000000080000001; 0x8000000080008008 ].

Definition keccakf_rotc : list Z :=
  [ 1; 3; 6; 10; 15; 21; 28; 36; 45; 55; 2; 14;
    27; 41; 56; 8; 25; 43; 62; 18; 39; 61; 20; 44 ].

Definition keccakf_piln : list nat :=
  [ 10; 7; 11; 17; 18; 3; 5; 16; 8; 21; 24; 4;
    15; 23; 19; 13; 12; 2; 20; 14; 22; 9; 6; 1 ]%nat.

(** [st[k] ^= t] *)
Definition xor_at (st : list Z) (k : nat) (t : Z) : list Z :=
  <[k := Z.lxor (st !!! k) t]> st.

(** [for (j = 0; j < 25; j += 5)] *)
Definition rows5 : list nat := [0; 5; 10; 15; 20]%nat.

Definition theta (st : list Z) : list Z :=
  let bc := (λ i, Z.lxor (Z.lxor (Z.lxor (Z.lxor (st !!! i) (st !!! (i + 5)%nat))
    (st !!! (i + 10)%nat)) (st !!! (i + 15)%nat)) (st !!! (i + 20)%nat)) <$> seq 0 5 in
  foldl (λ st i,
    let t := Z.lxor (bc !!! ((i + 4) mod 5)%nat) (ROTL64 (bc !!! ((i + 1) mod 5)%nat) 1) in
    foldl (λ st j, xor_at st (j + i)%nat t) st rows5) st (seq 0 5).

Definition rho_pi (st : list Z) : list Z :=
  fst (foldl (λ '(st, t) i,
    let j := keccakf_piln !!! i in
    let bc0 := st !!! j in
    (<[j := ROTL64 t (keccakf_rotc !!! i)]> st, bc0)) (st, st !!! 1%nat) (seq 0 24)).

Definition chi (st : list Z) : list Z :=
  foldl (λ st j,
    let bc := (λ i, st !!! (j + i)%nat) <$> seq 0 5 in
    foldl (λ st i, xor_at st (j + i)%nat
      (Z.land (not64 (bc !!! ((i + 1) mod 5)%nat)) (bc !!! ((i + 2) mod 5)%nat)))
      st (seq 0 5)) st rows5.

Definition iota (round : nat) (st : list Z) : list Z := xor_at st 0 (keccakf_rndc !!! round).

Definition keccak_round (st : list Z) (round : nat) : list Z :=
  iota round (chi (rho_pi (theta st))).

Definition keccakf (st : list Z) (rounds : nat) : list Z :=
  foldl keccak_round st (seq 0 rounds).

Definition KECCAK_ROUNDS : nat := 24.

(** ** The sponge *)

(** [swap64le(((uint64_t * ) in)[i])] *)
Definition word64 (inp : list Z) (i : nat) : Z := le_combine (take 8 (drop (8 * i) inp)).

(** [for (i = 0; i < rsizw; i++) st[i] ^= swap64le(((uint64_t * ) in)[i]); keccakf(st, ..)] *)
Definition absorb (rsizw : nat) (st inp : list Z) : list Z :=
  keccakf (foldl (λ st i, xor_at st i (word64 inp i)) st (seq 0 rsizw)) KECCAK_ROUNDS.

(** [for ( ; inlen >= rsiz; inlen -= rsiz, in += rsiz)]; at most [n] iterations *)
Fixpoint absorb_blocks (n rsiz : nat) (st inp : list Z) : list Z * list Z :=
  match n with
  | O => (st, inp)
  | S n' =>
      if (rsiz <=? length inp)%nat
      then absorb_blocks n' rsiz (absorb (rsiz / 8) st inp) (drop rsiz inp)
      else (st, inp)
  end.

(** The first [rsiz] bytes of [temp] after the padding. *)
Definition pad_block (rsiz : nat) (inp : list Z) : list Z :=
  let temp := inp ++ [1] ++ replicate (rsiz - (length inp + 1)) 0 in
  <[(rsiz - 1)%nat := Z.lor (temp !!! (rsiz - 1)%nat) 0x80]> temp.

Definition HASH_DATA_AREA : nat := 136.

(** [memcpy_swap64le(md, st, n)] *)
Definition store64 (n : nat) (st : list Z) : list Z := mjoin (le_split 8 <$> take n st).

Definition keccak (inp : list Z) (mdlen : nat) : option (list Z) :=
  if (mdlen =? 0)%nat || (100 <? mdlen)%nat && negb (200 =? mdlen)%nat then None else
  let rsiz := if (200 =? mdlen)%nat then HASH_DATA_AREA else (200 - 2 * mdlen)%nat in
  let rsizw := (rsiz / 8)%nat in
  let '(st, inp) := absorb_blocks (length inp) rsiz (replicate 25 0) inp in
  let inlen := length inp in
  if (144 <=? inlen + 1)%nat || (rsiz <? inlen)%nat || (144 <=? rsiz - inlen + inlen + 1)%nat ||
     (rsiz =? 0)%nat || (144 <=? rsiz - 1)%nat || (144 <? rsizw * 8)%nat then None else
  let st := absorb rsizw st (pad_block rsiz inp) in
  if negb (mdlen mod 8 =? 0)%nat then None else
  Some (store64 (mdlen / 8) st).

Definition keccak1600 (inp : list Z) : option (list Z) := keccak inp 200.

(** [cn_fast_hash] of [hash.c], through [hash_process]. *)
Definition hash_process (buf : list Z) : option (list Z) := keccak1600 buf.

Definition HASH_SIZE : nat := 32.

Definition cn_fast_hash (data : list Z) : option (list Z) :=
  state ← hash_process data; Some (take HASH_SIZE state).

(** ** The incremental interface

    [message] is the buffer as bytes.  Whether the input pointer is aligned
    decides which copy of a block is hashed: [is_aligned] is a parameter. *)
Record KECCAK_CTX := { ctx_hash : list Z; ctx_message : list Z; ctx_rest : Z }.

Definition KECCAK_FINALIZED : Z := 0x80000000.
Definition KECCAK_BLOCKLEN : nat := 136.
Definition KECCAK_WORDS : nat := 17.
Definition KECCAK_DIGESTSIZE : nat := 32.

(** [KECCAK_PROCESS_BLOCK(st, block)] *)
Definition process_block (st block : list Z) : list Z := absorb KECCAK_WORDS st block.

Definition keccak_init : KECCAK_CTX :=
  {| ctx_hash := replicate 25 0; ctx_message := replicate 136 0; ctx_rest := 0 |}.

(** [memcpy(message + o, in, n)] *)
Definition copy_in (message : list Z) (o : nat) (inp : list Z) : list Z :=
  take o message ++ inp ++ drop (o + length inp) message.

(** [while (inlen >= KECCAK_BLOCKLEN)], at most [n] iterations *)
Fixpoint update_blocks (n : nat) (is_aligned : bool) (st message inp : list Z) :
    list Z * list Z * list Z :=
  match n with
  | O => (st, message, inp)
  | S n' =>
      if (KECCAK_BLOCKLEN <=? length inp)%nat then
        let message := if is_aligned then message
          else copy_in message 0 (take KECCAK_BLOCKLEN inp) in
        let block := if is_aligned then inp else message in
        update_blocks n' is_aligned (process_block st block) message (drop KECCAK_BLOCKLEN inp)
      else (st, message, inp)
  end.

(** The code after the partial block. *)
Definition update_rest (is_aligned : bool) (st message inp : list Z) (rest : Z) : KECCAK_CTX :=
  let '(st, message, inp) := update_blocks (length inp) is_aligned st message inp in
  let message := if (length inp =? 0)%nat then message else copy_in message 0 inp in
  {| ctx_hash := st; ctx_message := message; ctx_rest := rest |}.

Definition keccak_update (is_aligned : bool) (ctx : KECCAK_CTX) (inp : list Z) :
    option KECCAK_CTX :=
  if negb (Z.land (ctx_rest ctx) KECCAK_FINALIZED =? 0) then None else
  let idx := Z.to_nat (ctx_rest ctx) in
  let rest := uwrap 64 (ctx_rest ctx + Z.of_nat (length inp)) mod Z.of_nat KECCAK_BLOCKLEN in
  if negb (idx =? 0)%nat then
    let left := (KECCAK_BLOCKLEN - idx)%nat in
    let message := copy_in (ctx_message ctx) idx (take left inp) in
    if (length inp <? left)%nat then
      Some {| ctx_hash := ctx_hash ctx; ctx_message := message; ctx_rest := rest |}
    else
      Some (update_rest is_aligned (process_block (ctx_hash ctx) message) message
        (drop left inp) rest)
  else Some (update_rest is_aligned (ctx_hash ctx) (ctx_message ctx) inp rest).

(** The context afterwards and the digest. *)
Definition keccak_finish (ctx : KECCAK_CTX) : KECCAK_CTX * list Z :=
  let ctx :=
    if Z.land (ctx_rest ctx) KECCAK_FINALIZED =? 0 then
      let rest := Z.to_nat (ctx_rest ctx) in
      let message := copy_in (ctx_message ctx) rest (replicate (KECCAK_BLOCKLEN - rest) 0) in
      let message := <[rest := Z.lor (message !!! rest) 0x01]> message in
      let last := (KECCAK_BLOCKLEN - 1)%nat in
      let message := <[last := Z.lor (message !!! last) 0x80]> message in
      {| ctx_hash := process_block (ctx_hash ctx) message; ctx_message := message;
         ctx_rest := KECCAK_FINALIZED |}
    else ctx in
  (ctx, take KECCAK_DIGESTSIZE (store64 25 (ctx_hash ctx))).
