(* ===== verification/KeccakSpec.v ===== *)
(** * Correctness of Keccak

    [keccakf] is the permutation of FIPS 202, written there on coordinates
    [(x, y)] of lanes and here on a flat array with the rotations and the
    transposition in one pass; [keccak1600] is the sponge with rate 136 on the
    padded message; and the incremental interface computes the same digest for
    every way of cutting the message into pieces. *)

From S2P Require Export Interfaces Keccak.

#[local] Open Scope Z_scope.

(** ** The permutation of the standard

    A state is a function of the coordinates [x, y < 5]; lane [(x, y)] is word
    [x + 5 y]. *)
Definition lanes := nat → nat → Z.

Definition of_list (st : list Z) : lanes := λ x y, st !!! (x + 5 * y)%nat.
Definition to_list (A : lanes) : list Z := (λ i, A (i mod 5)%nat (i / 5)%nat) <$> seq 0 25.

Definition ref_theta (A : lanes) : lanes :=
  let C x := foldl Z.lxor (A x 0%nat) ((λ y, A x y) <$> seq 1 4) in
  let D x := Z.lxor (C ((x + 4) mod 5)%nat) (ROTL64 (C ((x + 1) mod 5)%nat) 1) in
  λ x y, Z.lxor (A x y) (D x).

(** The offsets: [(t + 1) (t + 2) / 2] along the walk [(x, y) -> (y, 2 x + 3 y)]
    from [(1, 0)]. *)
Fixpoint rho_walk (n : nat) (t x y x0 y0 : nat) : Z :=
  match n with
  | O => 0
  | S n' =>
      if (x =? x0)%nat && (y =? y0)%nat
      then (Z.of_nat t + 1) * (Z.of_nat t + 2) / 2 mod 64
      else rho_walk n' (S t) y ((2 * x + 3 * y) mod 5)%nat x0 y0
  end.

Definition rho_offset (x y : nat) : Z := rho_walk 24 0 1 0 x y.

Definition ref_rho (A : lanes) : lanes :=
  λ x y, if rho_offset x y =? 0 then A x y else ROTL64 (A x y) (rho_offset x y).

Definition ref_pi (A : lanes) : lanes := λ x y, A ((x + 3 * y) mod 5)%nat x.

Definition ref_chi (A : lanes) : lanes :=
  λ x y, Z.lxor (A x y) (Z.land (not64 (A ((x + 1) mod 5)%nat y)) (A ((x + 2) mod 5)%nat y)).

(** The round constants: bit [2^j - 1] of constant [r] is output [j + 7 r] of the
    shift register with feedback polynomial [x^8 + x^6 + x^5 + x^4 + 1]. *)
Fixpoint lfsr (n : nat) (R : Z) : Z :=
  match n with
  | O => R
  | S n' =>
      let R := 2 * R in
      lfsr n' (if Z.testbit R 8 then Z.lxor R 0x171 else R)
  end.

Definition round_constant (r : nat) : Z :=
  foldl Z.lor 0 ((λ j, if Z.testbit (lfsr (j + 7 * r) 1) 0
    then 2 ^ (2 ^ Z.of_nat j - 1) else 0) <$> seq 0 7).

Definition ref_iota (r : nat) (A : lanes) : lanes :=
  λ x y, if (x =? 0)%nat && (y =? 0)%nat then Z.lxor (A x y) (round_constant r) else A x y.

Definition ref_round (A : lanes) (r : nat) : lanes :=
  ref_iota r (ref_chi (ref_pi (ref_rho (ref_theta A)))).

Definition ref_keccakf (A : lanes) : lanes := foldl ref_round A (seq 0 24).

Ltac words25 st HL :=
  do 25 (destruct st as [|? st]; [discriminate HL|]); destruct st; [clear HL|discriminate HL].

Lemma rndc_ok r : (r < 24)%nat → keccakf_rndc !!! r = round_constant r.
Proof. intros Hr. do 24 (destruct r as [|r]; [vm_compute; reflexivity|]). lia. Qed.

Lemma round_ok st r :
  length st = 25%nat → (r < 24)%nat →
  keccak_round st r = to_list (ref_round (of_list st) r).
Proof.
  intros HL Hr. unfold keccak_round, iota, ref_round, ref_iota. rewrite <- rndc_ok by done.
  set (c := keccakf_rndc !!! r). clearbody c. words25 st HL.
  cbv -[Z.lxor Z.land not64 ROTL64]. reflexivity.
Qed.

(** Two states agree on the 25 lanes; every step respects this. *)
Record lanes_eq (A B : lanes) : Prop := {
  lanes_at : ∀ x y, (x < 5)%nat → (y < 5)%nat → A x y = B x y
}.

#[export] Instance lanes_eq_equiv : Equivalence lanes_eq.
Proof.
  split; [by split|intros A B [H]; split; intros x y Hx Hy; by rewrite H|].
  intros A B C [H1] [H2]. split. intros x y Hx Hy. by rewrite H1, H2.
Qed.

Lemma mod5_lt n : (n mod 5 < 5)%nat.
Proof. apply Nat.mod_upper_bound. lia. Qed.

Ltac lane_lt := first [assumption|apply mod5_lt|lia].

#[export] Instance ref_theta_proper : Proper (lanes_eq ==> lanes_eq) ref_theta.
Proof.
  intros A B [H]. split. intros x y Hx Hy. unfold ref_theta. cbn [foldl fmap list_fmap seq].
  by rewrite !(H _ _) by lane_lt.
Qed.

#[export] Instance ref_rho_proper : Proper (lanes_eq ==> lanes_eq) ref_rho.
Proof. intros A B [H]. split. intros x y Hx Hy. unfold ref_rho. by rewrite (H x y Hx Hy). Qed.

#[export] Instance ref_pi_proper : Proper (lanes_eq ==> lanes_eq) ref_pi.
Proof. intros A B [H]. split. intros x y Hx Hy. unfold ref_pi. by rewrite (H _ _) by lane_lt. Qed.

#[export] Instance ref_chi_proper : Proper (lanes_eq ==> lanes_eq) ref_chi.
Proof. intros A B [H]. split. intros x y Hx Hy. unfold ref_chi. by rewrite !(H _ _) by lane_lt. Qed.

#[export] Instance ref_iota_proper r : Proper (lanes_eq ==> lanes_eq) (ref_iota r).
Proof. intros A B [H]. split. intros x y Hx Hy. unfold ref_iota. by rewrite (H x y Hx Hy). Qed.

#[export] Instance ref_round_proper : Proper (lanes_eq ==> eq ==> lanes_eq) ref_round.
Proof. intros A B H r _ <-. unfold ref_round. by rewrite H. Qed.

#[export] Instance to_list_proper : Proper (lanes_eq ==> eq) to_list.
Proof.
  intros A B [H]. unfold to_list. apply list_fmap_ext. intros i j Hj.
  apply lookup_seq in Hj as [-> Hi].
  apply H; [apply mod5_lt|apply Nat.Div0.div_lt_upper_bound; lia].
Qed.

Lemma of_to_list A : lanes_eq (of_list (to_list A)) A.
Proof.
  split. intros x y Hx Hy.
  do 5 (destruct x as [|x]; [do 5 (destruct y as [|y]; [reflexivity|]); lia|]). lia.
Qed.

Lemma length_to_list A : length (to_list A) = 25%nat.
Proof. done. Qed.

(** [keccakf] is the permutation of the standard. *)
Lemma keccakf_ok st :
  length st = 25%nat → keccakf st KECCAK_ROUNDS = to_list (ref_keccakf (of_list st)).
Proof.
  intros HL. unfold keccakf, ref_keccakf.
  assert (∀ n A, (n ≤ 24)%nat → lanes_eq (of_list st) A →
    to_list (of_list (foldl keccak_round st (seq 0 n))) = to_list (foldl ref_round A (seq 0 n)) ∧
    length (foldl keccak_round st (seq 0 n)) = 25%nat) as H.
  { intros n A Hn HA. induction n as [|n IH]; [split; [cbn [seq foldl]; by rewrite HA|done]|].
    rewrite seq_S, !foldl_app. cbn [foldl Nat.add].
    destruct IH as [IH1 IH2]; [lia|].
    assert (lanes_eq (of_list (foldl keccak_round st (seq 0 n))) (foldl ref_round A (seq 0 n)))
      as IH' by (rewrite <- of_to_list, IH1, of_to_list; done).
    rewrite round_ok by (done || lia). split; [|apply length_to_list].
    by rewrite of_to_list, IH'. }
  destruct (H 24%nat (of_list st)) as [H1 H2]; [done..|].
  change (foldl keccak_round st (seq 0 KECCAK_ROUNDS))
    with (foldl keccak_round st (seq 0 24)).
  rewrite <- H1. set (s := foldl _ _ _) in *. clearbody s. clear -H2. words25 s H2. reflexivity.
Qed.

Lemma length_keccakf st : length st = 25%nat → length (keccakf st KECCAK_ROUNDS) = 25%nat.
Proof. intros HL. rewrite keccakf_ok by done. apply length_to_list. Qed.

(** ** The sponge *)

(** The first [k] blocks of 136 bytes. *)
Fixpoint full_blocks (k : nat) (l : list Z) : list (list Z) :=
  match k with
  | O => []
  | S k' => take 136 l :: full_blocks k' (drop 136 l)
  end.

Lemma full_blocks_app j k a b :
  length a = (136 * j)%nat → full_blocks (j + k) (a ++ b) = full_blocks j a ++ full_blocks k b.
Proof.
  revert a. induction j as [|j IH]; intros a Ha.
  { destruct a; [done|cbn in Ha; lia]. }
  cbn [Nat.add full_blocks app]. rewrite take_app_le by lia.
  rewrite drop_app_le, IH by (rewrite ?length_drop; lia). done.
Qed.

Lemma full_blocks_take k l : full_blocks k (take (136 * k) l) = full_blocks k l.
Proof.
  revert l. induction k as [|k IH]; intros l; [done|]. cbn [full_blocks].
  rewrite take_take, Nat.min_l by lia. f_equal.
  rewrite skipn_firstn_comm. replace (136 * S k - 136)%nat with (136 * k)%nat by lia. apply IH.
Qed.

(** The padding of a last block with [n] bytes: [10*1] in bits. *)
Definition pad (n : nat) : list Z :=
  if (n =? 135)%nat then [0x81] else 1 :: replicate (134 - n) 0 ++ [0x80].

(** The state of the sponge after a message: the blocks of the padded message are
    absorbed in turn. *)
Definition ref_sponge (msg : list Z) : list Z :=
  let n := length msg in
  foldl (absorb 17) (replicate 25 0)
    (full_blocks (n / 136 + 1) (msg ++ pad (n mod 136))).

(** Only the first 136 bytes matter to a block. *)
Lemma word64_take inp i : (i < 17)%nat → word64 (take 136 inp) i = word64 inp i.
Proof.
  intros Hi. unfold word64. rewrite skipn_firstn_comm, take_take, Nat.min_l by lia. done.
Qed.

Lemma xor_words_take st inp n :
  (n ≤ 17)%nat →
  foldl (λ st i, xor_at st i (word64 (take 136 inp) i)) st (seq 0 n) =
  foldl (λ st i, xor_at st i (word64 inp i)) st (seq 0 n).
Proof.
  induction n as [|n IH]; intros Hn; [reflexivity|].
  rewrite seq_S, !foldl_app. cbn [foldl]. rewrite IH, word64_take by lia. reflexivity.
Qed.

Lemma absorb_take st inp : absorb 17 st (take 136 inp) = absorb 17 st inp.
Proof. unfold absorb. rewrite xor_words_take by lia. reflexivity. Qed.

Lemma length_xor_words st f n :
  length (foldl (λ st i, xor_at st i (f i)) st (seq 0 n)) = length st.
Proof.
  induction n as [|n IH]; [done|]. rewrite seq_S, foldl_app. cbn [foldl]. unfold xor_at at 1.
  by rewrite length_insert.
Qed.

Lemma length_absorb st inp : length st = 25%nat → length (absorb 17 st inp) = 25%nat.
Proof. intros HL. apply length_keccakf. by rewrite length_xor_words. Qed.

Lemma length_absorbs st bs : length st = 25%nat → length (foldl (absorb 17) st bs) = 25%nat.
Proof.
  revert st. induction bs as [|b bs IH]; intros st HL; [done|]. by apply IH, length_absorb.
Qed.

(** [k] is the number of full blocks of [n] bytes. *)
Definition quot136 (k n : nat) : Prop := (136 * k ≤ n < 136 * k + 136)%nat.

Lemma quot136_div n : quot136 (n / 136) n.
Proof.
  unfold quot136. pose proof (Nat.div_mod_eq n 136). pose proof (Nat.mod_upper_bound n 136). lia.
Qed.

Lemma quot136_eq k n : quot136 k n → (n / 136 = k ∧ n mod 136 = n - 136 * k)%nat.
Proof.
  intros H. pose proof (quot136_div n) as H'. unfold quot136 in *.
  assert (n / 136 = k)%nat as -> by lia. split; [done|].
  rewrite Nat.Div0.mod_eq. assert (n / 136 = k)%nat as -> by lia. done.
Qed.

Lemma absorb_blocks_ok n k st inp :
  quot136 k (length inp) → (length inp ≤ n)%nat →
  absorb_blocks n 136 st inp =
    (foldl (absorb 17) st (full_blocks k inp), drop (136 * k) inp).
Proof.
  unfold quot136. revert k st inp. induction n as [|n IH]; intros k st inp Hk Hn;
    cbn [absorb_blocks].
  - assert (k = 0%nat) as -> by lia. done.
  - destruct (Nat.leb_spec 136 (length inp)).
    + destruct k as [|k]; [lia|].
      rewrite (IH k) by (rewrite length_drop; lia). cbn [full_blocks foldl].
      change (136 / 8)%nat with 17%nat. rewrite absorb_take, drop_drop.
      replace (136 + 136 * k)%nat with (136 * S k)%nat by lia. done.
    + assert (k = 0%nat) as -> by lia. done.
Qed.

Lemma insert_last_or (l : list Z) (x y : Z) :
  <[length l := Z.lor ((l ++ [x]) !!! length l) y]> (l ++ [x]) = l ++ [Z.lor x y].
Proof.
  rewrite lookup_total_app_r, insert_app_r_alt by lia. rewrite Nat.sub_diag. reflexivity.
Qed.

Lemma pad_block_ok inp :
  (length inp < 136)%nat → pad_block 136 inp = inp ++ pad (length inp).
Proof.
  intros HL. unfold pad_block, pad. change (136 - 1)%nat with 135%nat.
  destruct (Nat.eqb_spec (length inp) 135) as [E|E].
  - replace (136 - (length inp + 1))%nat with O by lia. rewrite <- E. apply insert_last_or.
  - replace (136 - (length inp + 1))%nat with (S (134 - length inp)) by lia.
    rewrite replicate_S_end, !app_assoc.
    assert (135%nat = length ((inp ++ [1]) ++ replicate (134 - length inp) 0)) as ->
      by (rewrite !length_app, length_replicate; cbn [length]; lia).
    rewrite insert_last_or, <- !app_assoc. reflexivity.
Qed.

Lemma length_pad n : (n < 136)%nat → length (pad n) = (136 - n)%nat.
Proof.
  intros Hn. unfold pad. destruct (Nat.eqb_spec n 135); [cbn; lia|].
  cbn [length]. rewrite length_app, length_replicate. cbn [length]. lia.
Qed.

(** The padded message, block by block. *)
Lemma ref_sponge_eq k msg :
  quot136 k (length msg) →
  ref_sponge msg =
    absorb 17 (foldl (absorb 17) (replicate 25 0) (full_blocks k msg))
      (drop (136 * k) msg ++ pad (length msg - 136 * k)).
Proof.
  intros Hk. destruct (quot136_eq _ _ Hk) as [Hd Hm]. unfold quot136 in Hk.
  unfold ref_sponge. rewrite Hd, Hm.
  rewrite <- (take_drop (136 * k) msg) at 1. rewrite <- app_assoc.
  rewrite full_blocks_app by (rewrite length_take; lia).
  rewrite full_blocks_take, foldl_app. cbn [full_blocks foldl]. apply absorb_take.
Qed.

(** [keccak1600] never aborts and computes the sponge. *)
Lemma keccak1600_ok msg : keccak1600 msg = Some (store64 25 (ref_sponge msg)).
Proof.
  set (k := (length msg / 136)%nat). pose proof (quot136_div (length msg)) as Hk.
  fold k in Hk. unfold keccak1600, keccak.
  change ((200 =? 0)%nat || (100 <? 200)%nat && negb (200 =? 200)%nat) with false.
  change (if (200 =? 200)%nat then HASH_DATA_AREA else (200 - 2 * 200)%nat) with 136%nat.
  cbn [andb negb orb]. rewrite (absorb_blocks_ok _ k) by first [exact Hk | lia].
  assert (length (drop (136 * k) msg) = length msg - 136 * k)%nat as HL by apply length_drop.
  unfold quot136 in Hk. rewrite HL.
  rewrite !(proj2 (Nat.leb_gt _ _)), !(proj2 (Nat.ltb_ge _ _)) by (change (136 / 8)%nat with 17%nat; lia).
  change (136 =? 0)%nat with false. change (negb (200 mod 8 =? 0)%nat) with false.
  cbn [orb]. change (200 / 8)%nat with 25%nat. change (136 / 8)%nat with 17%nat.
  rewrite (ref_sponge_eq k) by exact Hk. rewrite pad_block_ok by lia. rewrite HL. reflexivity.
Qed.

(** ** The incremental interface *)

(** [ctx] holds the sponge after [msg]: the [k] full blocks are absorbed, the rest is in
    the buffer. *)
Record ctx_at (k : nat) (ctx : KECCAK_CTX) (msg : list Z) : Prop := {
  at_quot : quot136 k (length msg);
  at_hash : ctx_hash ctx = foldl (absorb 17) (replicate 25 0) (full_blocks k msg);
  at_rest : ctx_rest ctx = Z.of_nat (length msg - 136 * k);
  at_length : length (ctx_message ctx) = 136%nat;
  at_message : take (length msg - 136 * k) (ctx_message ctx) = drop (136 * k) msg;
}.

Definition ctx_ok (ctx : KECCAK_CTX) (msg : list Z) : Prop := ∃ k, ctx_at k ctx msg.

Lemma keccak_init_ok : ctx_ok keccak_init [].
Proof. exists 0%nat. split; cbn; unfold quot136; done || lia. Qed.

Lemma length_copy_in message o inp :
  (o + length inp ≤ length message)%nat → length (copy_in message o inp) = length message.
Proof. intros H. unfold copy_in. rewrite !length_app, length_take, length_drop. lia. Qed.

Lemma take_copy_in message o inp :
  (o + length inp ≤ length message)%nat →
  take (o + length inp) (copy_in message o inp) = take o message ++ inp.
Proof.
  intros H. unfold copy_in. rewrite app_assoc. apply take_app_length'.
  rewrite length_app, length_take. lia.
Qed.

Lemma copy_in_full message inp :
  length inp = length message → copy_in message 0 inp = inp.
Proof. intros H. unfold copy_in. rewrite drop_ge by lia. cbn [take app]. by rewrite app_nil_r. Qed.

Lemma update_blocks_ok n al k st message inp :
  quot136 k (length inp) → (length inp ≤ n)%nat → length message = 136%nat →
  ∃ message',
    length message' = 136%nat ∧
    update_blocks n al st message inp =
      (foldl (absorb 17) st (full_blocks k inp), message', drop (136 * k) inp).
Proof.
  unfold quot136. revert k st message inp.
  induction n as [|n IH]; intros k st message inp Hk Hn Hm; cbn [update_blocks].
  - assert (k = 0%nat) as -> by lia. by exists message.
  - unfold KECCAK_BLOCKLEN. destruct (Nat.leb_spec 136 (length inp)).
    + destruct k as [|k]; [lia|].
      assert (length (take 136 inp) = 136%nat) as Ht by (rewrite length_take; lia).
      set (m1 := if al then message else copy_in message 0 (take 136 inp)).
      assert (length m1 = 136%nat) as Hm1.
      { destruct al; [done|]. unfold m1. rewrite copy_in_full; lia. }
      assert (process_block st (if al then inp else m1) = absorb 17 st (take 136 inp)) as ->.
      { destruct al; unfold process_block, m1, KECCAK_WORDS; [by rewrite absorb_take|].
        rewrite copy_in_full by lia. reflexivity. }
      destruct (IH k (absorb 17 st (take 136 inp)) m1 (drop 136 inp)) as (m' & ? & ->);
        [rewrite length_drop; lia..|done|].
      exists m'. split; [done|]. cbn [full_blocks foldl]. rewrite drop_drop.
      replace (136 + 136 * k)%nat with (136 * S k)%nat by lia. reflexivity.
    + assert (k = 0%nat) as -> by lia. by exists message.
Qed.

(** The code after the partial block: the buffer is empty, [msg0] is all absorbed. *)
Lemma update_rest_ok al j st message msg0 inp :
  length msg0 = (136 * j)%nat → length message = 136%nat →
  st = foldl (absorb 17) (replicate 25 0) (full_blocks j msg0) →
  ctx_ok (update_rest al st message inp (Z.of_nat (length (msg0 ++ inp) mod 136))) (msg0 ++ inp).
Proof.
  intros H0 Hm ->. set (k := (length inp / 136)%nat).
  pose proof (quot136_div (length inp)) as Hk. fold k in Hk.
  unfold update_rest.
  destruct (update_blocks_ok (length inp) al k
    (foldl (absorb 17) (replicate 25 0) (full_blocks j msg0)) message inp)
    as (m' & Hm' & ->); [done|lia|done|].
  assert (length (drop (136 * k) inp) = length inp - 136 * k)%nat as HL by apply length_drop.
  assert (quot136 (j + k) (length (msg0 ++ inp))) as Hq
    by (unfold quot136 in *; rewrite length_app; lia).
  destruct (quot136_eq _ _ Hq) as [_ Hr]. unfold quot136 in Hk.
  assert (length (msg0 ++ inp) - 136 * (j + k) = length inp - 136 * k)%nat as HR
    by (rewrite length_app; lia).
  exists (j + k)%nat. split; cbn [ctx_hash ctx_message ctx_rest]; [done|..].
  - rewrite full_blocks_app, foldl_app by done. reflexivity.
  - by rewrite Hr.
  - destruct (Nat.eqb_spec (length (drop (136 * k) inp)) 0); [done|].
    rewrite length_copy_in; lia.
  - rewrite HR, drop_app_ge by lia. replace (136 * (j + k) - length msg0)%nat with (136 * k)%nat by lia.
    destruct (Nat.eqb_spec (length (drop (136 * k) inp)) 0) as [E|E].
    + rewrite HL in E. rewrite E. symmetry. by apply nil_length_inv; rewrite HL.
    + rewrite <- HL. apply (take_copy_in m' 0). lia.
Qed.

Lemma rest_not_final r : 0 ≤ r < 136 → Z.land r KECCAK_FINALIZED = 0.
Proof.
  intros Hr. change KECCAK_FINALIZED with (2 ^ 31). apply Z.bits_inj_0. intros i.
  rewrite Z.land_spec. destruct (Z.neg_nonneg_cases i); [by rewrite Z.testbit_neg_r|].
  rewrite Z.pow2_bits_eqb by lia. destruct (Z.eqb_spec 31 i) as [<-|]; [|apply andb_false_r].
  rewrite (Z.bits_above_log2 r); [done|lia|].
  destruct (Z.eq_dec r 0) as [->|]; [done|]. apply Z.log2_lt_pow2; lia.
Qed.

Lemma rest_mod k r n :
  (r < 136)%nat → Z.of_nat n < 2 ^ 64 - 136 →
  uwrap 64 (Z.of_nat r + Z.of_nat n) mod Z.of_nat KECCAK_BLOCKLEN
    = Z.of_nat ((136 * k + r + n) mod 136).
Proof.
  intros Hr Hn. unfold uwrap, KECCAK_BLOCKLEN.
  rewrite (Z.mod_small _ (2 ^ 64)), <- Nat2Z.inj_add, <- Nat2Z.inj_mod by lia. f_equal.
  replace (136 * k + r + n)%nat with (r + n + k * 136)%nat by lia.
  symmetry. apply Nat.Div0.mod_add.
Qed.

(** A piece of input is appended to the message, whatever its size and its alignment. *)
Lemma keccak_update_ok al ctx msg inp :
  ctx_ok ctx msg → Z.of_nat (length inp) < 2 ^ 64 - 136 →
  ∃ ctx', keccak_update al ctx inp = Some ctx' ∧ ctx_ok ctx' (msg ++ inp).
Proof.
  intros [k [Hk Hh Hr Hl Hm]] Hin. unfold keccak_update.
  set (r := (length msg - 136 * k)%nat) in *.
  assert (length msg = 136 * k + r ∧ r < 136)%nat as [Hlen Hr136] by (unfold quot136 in Hk; lia).
  rewrite Hr, rest_not_final by lia. cbn [Z.eqb negb]. rewrite Nat2Z.id.
  rewrite (rest_mod k) by lia. rewrite <- Hlen, <- length_app.
  unfold KECCAK_BLOCKLEN. destruct (Nat.eqb_spec r 0) as [E|E]; cbn [negb].
  { eexists. split; [reflexivity|]. apply (update_rest_ok al k); [lia|done|done]. }
  destruct (Nat.ltb_spec (length inp) (136 - r)).
  - eexists. split; [reflexivity|]. rewrite take_ge by lia.
    assert (quot136 k (length (msg ++ inp))) as Hq by (unfold quot136; rewrite length_app; lia).
    destruct (quot136_eq _ _ Hq) as [_ Hmod].
    exists k. split; cbn [ctx_hash ctx_message ctx_rest].
    + done.
    + rewrite Hh, <- (full_blocks_take k (msg ++ inp)), take_app_le, full_blocks_take by lia.
      reflexivity.
    + by rewrite Hmod.
    + rewrite length_copy_in; lia.
    + rewrite length_app. replace (length msg + length inp - 136 * k)%nat with (r + length inp)%nat by lia.
      rewrite take_copy_in, Hm, drop_app_le by lia. reflexivity.
  - eexists. split; [reflexivity|].
    assert (length (take (136 - r) inp) = 136 - r)%nat as Ht by (rewrite length_take; lia).
    assert (copy_in (ctx_message ctx) r (take (136 - r) inp)
      = drop (136 * k) (msg ++ take (136 - r) inp)) as Hc.
    { rewrite drop_app_le, <- Hm by lia. unfold copy_in. rewrite (drop_ge (ctx_message ctx)) by lia.
      by rewrite app_nil_r. }
    rewrite <- (take_drop (136 - r) inp) at 4 5. rewrite app_assoc.
    apply (update_rest_ok al (S k)).
    + rewrite length_app; lia.
    + rewrite length_copy_in; lia.
    + rewrite Hc, Hh. replace (S k) with (k + 1)%nat by lia.
      rewrite <- (take_drop (136 * k) (msg ++ _)) at 2.
      rewrite full_blocks_app by (rewrite length_take, length_app; lia).
      rewrite take_app_le, full_blocks_take, foldl_app by lia. cbn [full_blocks foldl].
      rewrite absorb_take. reflexivity.
Qed.

(** The padding that [keccak_finish] writes into the buffer. *)
Lemma finish_pad (message : list Z) (r : nat) :
  length message = 136%nat → (r < 136)%nat →
  let m := copy_in message r (replicate (136 - r) 0) in
  let m := <[r := Z.lor (m !!! r) 0x01]> m in
  <[135%nat := Z.lor (m !!! 135%nat) 0x80]> m = take r message ++ pad r.
Proof.
  intros Hl Hr m.
  assert (m = take r message ++ replicate (136 - r) 0) as ->.
  { unfold m, copy_in. rewrite length_replicate, (drop_ge message), app_nil_r by lia. done. }
  assert (length (take r message) = r) as Ht by (rewrite length_take; lia).
  cbv zeta. rewrite lookup_total_app_r, insert_app_r_alt, Ht, Nat.sub_diag by lia.
  replace (136 - r)%nat with (S (135 - r)) by lia. cbn [replicate].
  change ((0 :: replicate (135 - r) 0) !!! 0%nat) with 0.
  change (<[0%nat:=Z.lor 0 1]> (0 :: replicate (135 - r) 0)) with (1 :: replicate (135 - r) 0).
  pose proof (pad_block_ok (take r message)) as E. rewrite Ht in E. rewrite <- E by lia.
  unfold pad_block. rewrite Ht. replace (136 - (r + 1))%nat with (135 - r)%nat by lia. reflexivity.
Qed.

(** [keccak_finish] gives the digest of the whole message, and again when called again. *)
Lemma keccak_finish_ok ctx msg :
  ctx_ok ctx msg →
  ∃ ctx', keccak_finish ctx = (ctx', take 32 (store64 25 (ref_sponge msg))) ∧
    keccak_finish ctx' = (ctx', take 32 (store64 25 (ref_sponge msg))) ∧
    (∀ al inp, keccak_update al ctx' inp = None).
Proof.
  intros [k [Hk Hh Hr Hl Hm]]. unfold keccak_finish at 1.
  assert (length msg - 136 * k < 136)%nat as Hlt by (unfold quot136 in Hk; lia).
  rewrite Hr, rest_not_final by lia. rewrite Nat2Z.id. cbn [Z.eqb]. unfold KECCAK_BLOCKLEN.
  change (136 - 1)%nat with 135%nat. rewrite finish_pad by done.
  rewrite Hm, Hh. unfold process_block, KECCAK_WORDS. rewrite <- ref_sponge_eq by done.
  eexists. split; [reflexivity|]. split; [|intros; reflexivity].
  reflexivity.
Qed.

(** Hashing in pieces, as a sequence of calls. *)
Fixpoint keccak_updates (ctx : KECCAK_CTX) (pieces : list (bool * list Z)) : option KECCAK_CTX :=
  match pieces with
  | [] => Some ctx
  | (al, inp) :: ps => ctx' ← keccak_update al ctx inp; keccak_updates ctx' ps
  end.

Lemma keccak_updates_ok ctx msg pieces :
  ctx_ok ctx msg → Forall (λ p, Z.of_nat (length p.2) < 2 ^ 64 - 136) pieces →
  ∃ ctx', keccak_updates ctx pieces = Some ctx' ∧ ctx_ok ctx' (msg ++ mjoin pieces.*2).
Proof.
  intros Hc Hp. revert ctx msg Hc.
  induction Hp as [|[al inp] ps H1 Hp IH]; intros ctx msg Hc.
  { exists ctx. cbn. by rewrite app_nil_r. }
  destruct (keccak_update_ok al ctx msg inp) as (c1 & E1 & Hc1); [done..|].
  destruct (IH c1 _ Hc1) as (c2 & E2 & Hc2). exists c2. cbn [keccak_updates]. rewrite E1.
  split; [exact E2|]. cbn. rewrite app_assoc. exact Hc2.
Qed.

(** ** The digest *)

Lemma length_store64 st : length (store64 (length st) st) = (8 * length st)%nat.
Proof.
  unfold store64. rewrite take_ge by lia. induction st as [|x st IH]; [done|].
  change (length (le_split 8 x ++ mjoin (le_split 8 <$> st)) = (8 * S (length st))%nat).
  rewrite length_app, length_le_split. lia.
Qed.

Lemma bytes_store64 n st : bytes (store64 n st).
Proof.
  unfold store64. induction (take n st) as [|x l IH]; [constructor|].
  apply Forall_app. split; [apply (bytes_le_split 8)|exact IH].
Qed.

Lemma length_ref_sponge msg : length (ref_sponge msg) = 25%nat.
Proof. apply length_absorbs. reflexivity. Qed.

Lemma cn_fast_hash_ok data :
  ∃ h, cn_fast_hash data = Some h ∧ h = take 32 (store64 25 (ref_sponge data)) ∧
    length h = 32%nat ∧ bytes h.
Proof.
  unfold cn_fast_hash, hash_process. rewrite keccak1600_ok. eexists. split; [reflexivity|].
  split; [reflexivity|]. pose proof (length_store64 (ref_sponge data)) as H.
  rewrite length_ref_sponge in H. split.
  - rewrite length_take, H. reflexivity.
  - apply Forall_take, bytes_store64.
Qed.

#[export] Instance keccak_hash : FastHash := cn_fast_hash.

#[export] Instance keccak_hash_laws : FastHashLaws keccak_hash.
Proof. intros data. destruct (cn_fast_hash_ok data) as (h & E & _ & HL & HB). by exists h. Qed.

(** The same sponge on the permutation of the standard: the words of a block are added to
    the first 17 words of the state, then the state is permuted. *)
Definition ref_absorb (st block : list Z) : list Z :=
  to_list (ref_keccakf (of_list
    (zip_with Z.lxor st ((word64 block <$> seq 0 17) ++ replicate 8 0)))).

Definition ref_keccak (msg : list Z) : list Z :=
  let n := length msg in
  store64 25 (foldl ref_absorb (replicate 25 0)
    (full_blocks (n / 136 + 1) (msg ++ pad (n mod 136)))).

Lemma xor_words_zip st (f : nat → Z) :
  length st = 25%nat →
  foldl (λ st i, xor_at st i (f i)) st (seq 0 17)
    = zip_with Z.lxor st ((f <$> seq 0 17) ++ replicate 8 0).
Proof.
  intros HL. words25 st HL.
  cbn [seq foldl fmap list_fmap app replicate zip_with]. rewrite !Z.lxor_0_r. reflexivity.
Qed.

Lemma absorb_ok st block : length st = 25%nat → absorb 17 st block = ref_absorb st block.
Proof.
  intros HL. unfold absorb. rewrite keccakf_ok by (by rewrite length_xor_words).
  rewrite xor_words_zip by done. reflexivity.
Qed.

Lemma absorbs_ok st bs :
  length st = 25%nat → foldl (absorb 17) st bs = foldl ref_absorb st bs.
Proof.
  revert st. induction bs as [|b bs IH]; intros st HL; [reflexivity|]. cbn [foldl].
  rewrite IH by (by apply length_absorb). rewrite absorb_ok by done. reflexivity.
Qed.

Lemma ref_keccak_ok msg : store64 25 (ref_sponge msg) = ref_keccak msg.
Proof. unfold ref_sponge, ref_keccak. rewrite absorbs_ok by done. reflexivity. Qed.

(** ** The properties *)

(** The permutation: [keccakf], on a flat array with tables of constants, is the
    permutation of the standard on lanes, its offsets and round constants generated by the
    walk and by the shift register. *)
Theorem keccakf_spec (st : list Z) (HL : length st = 25%nat) :
  keccakf st KECCAK_ROUNDS = to_list (ref_keccakf (of_list st)).
Proof. exact (keccakf_ok st HL). Qed.

Lemma keccakf_spec_witness :
  keccakf (replicate 25 0) KECCAK_ROUNDS = to_list (ref_keccakf (of_list (replicate 25 0))).
Proof. apply keccakf_spec. reflexivity. Defined.

(** The sponge: for every message [keccak1600] returns (no abort is reached) the state
    of the sponge on the padded message, and [cn_fast_hash] its first 32 bytes. *)
Theorem keccak1600_spec (msg : list Z) :
  keccak1600 msg = Some (ref_keccak msg) ∧
  cn_fast_hash msg = Some (take 32 (ref_keccak msg)) ∧
  length (take 32 (ref_keccak msg)) = 32%nat ∧ bytes (ref_keccak msg).
Proof.
  destruct (cn_fast_hash_ok msg) as (h & E & -> & HL & HB). rewrite ref_keccak_ok in *.
  rewrite keccak1600_ok, ref_keccak_ok. split_and!; [done..|].
  rewrite <- ref_keccak_ok. apply bytes_store64.
Qed.

(** C37. Hashing in pieces: any sequence of [keccak_update]s from [keccak_init], whatever the
    sizes and the alignments of the pieces, followed by [keccak_finish] gives the
    [cn_fast_hash] of the whole message; a second [keccak_finish] gives it again, and a
    [keccak_update] after it aborts. *)
Theorem keccak_stream_spec (pieces : list (bool * list Z))
    (Hp : Forall (λ p, Z.of_nat (length p.2) < 2 ^ 64 - 136) pieces) :
  ∃ ctx ctx' md,
    keccak_updates keccak_init pieces = Some ctx ∧
    keccak_finish ctx = (ctx', md) ∧
    cn_fast_hash (mjoin pieces.*2) = Some md ∧
    keccak_finish ctx' = (ctx', md) ∧
    ∀ al inp, keccak_update al ctx' inp = None.
Proof.
  destruct (keccak_updates_ok _ _ _ keccak_init_ok Hp) as (ctx & E & Hc).
  destruct (keccak_finish_ok _ _ Hc) as (ctx' & E1 & E2 & E3).
  exists ctx, ctx', (take 32 (store64 25 (ref_sponge (mjoin pieces.*2)))).
  destruct (cn_fast_hash_ok (mjoin pieces.*2)) as (h & Eh & -> & _).
  split; [exact E|]. split; [exact E1|]. split; [exact Eh|]. split; [exact E2|exact E3].
Qed.

Lemma keccak_stream_spec_witness :
  let pieces := [(false, replicate 100 1); (true, replicate 300 2); (false, [])] in
  ∃ ctx ctx' md,
    keccak_updates keccak_init pieces = Some ctx ∧
    keccak_finish ctx = (ctx', md) ∧
    cn_fast_hash (mjoin pieces.*2) = Some md ∧
    keccak_finish ctx' = (ctx', md) ∧
    ∀ al inp, keccak_update al ctx' inp = None.
Proof. intros pieces. apply keccak_stream_spec. repeat constructor. Defined.
