(* ===== verification/Random.v ===== *)
(** * The random generator: [random.c]

    A global [union hash_state], here its 25 words, seeded with 32 bytes of the
    operating system and permuted by [hash_permutation] for every 136 bytes of
    output.  [curstate] is the variable of the debug build that catches
    concurrent uses: 0 not initialised, 1 ready, 2 drawing. *)

From S2P Require Export Interfaces KeccakSpec.

#[local] Open Scope Z_scope.

Record random_state := { state : list Z; curstate : Z }.

(** [hash_permutation] of [hash.c] *)
Definition hash_permutation (st : list Z) : list Z := keccakf st 24.

(** The static variables before [init_random]. *)
Definition random_boot : random_state := {| state := replicate 25 0; curstate := 0 |}.

(** [curstate = c;], in the debug build *)
Definition set_curstate `{Build} (c : Z) (s : random_state) : random_state :=
  if NDEBUG then s else {| state := state s; curstate := c |}.

(** [seed] is what [generate_system_random_bytes(32, &state)] reads. *)
Definition init_random `{Build} (seed : list Z) (s : random_state) : option random_state :=
  let s := {| state := (word64 seed <$> seq 0 4) ++ drop 4 (state s); curstate := curstate s |} in
  _ ← assert_ (curstate s =? 0);
  Some (set_curstate 1 s).

Definition deinit_random `{Build} (s : random_state) : option random_state :=
  _ ← assert_ (curstate s =? 1);
  let s := set_curstate 0 s in
  Some {| state := replicate 25 0; curstate := curstate s |}.

(** [for (;;)], at most [k] iterations: what is written to [result], and the state *)
Fixpoint random_loop (k n : nat) (st : list Z) : option (list Z * list Z) :=
  match k with
  | O => None
  | S k' =>
      let st := hash_permutation st in
      if (n <=? HASH_DATA_AREA)%nat then Some (take n (store64 25 st), st)
      else
        '(result, st') ← random_loop k' (n - HASH_DATA_AREA) st;
        Some (take HASH_DATA_AREA (store64 25 st) ++ result, st')
  end.

Definition generate_random_bytes_not_thread_safe `{Build} (n : nat) (s : random_state) :
    option (list Z * random_state) :=
  _ ← assert_ (curstate s =? 1);
  let s := set_curstate 2 s in
  if (n =? 0)%nat then
    _ ← assert_ (curstate s =? 2);
    Some ([], set_curstate 1 s)
  else
    '(result, st) ← random_loop n n (state s);
    let s := {| state := st; curstate := curstate s |} in
    _ ← assert_ (curstate s =? 2);
    Some (result, set_curstate 1 s).

(** [generate_random_bytes_thread_safe] of [crypto.cpp] holds a lock around the call, so
    calls do not overlap. *)
Definition generate_random_bytes_thread_safe `{Build} (N : nat) (s : random_state) :
    option (list Z * random_state) :=
  generate_random_bytes_not_thread_safe N s.

(** ** The stream that is drawn from *)

(** The first 136 bytes of each of the next [k] states. *)
Fixpoint squeeze (k : nat) (st : list Z) : list Z :=
  match k with
  | O => []
  | S k' =>
      let st := hash_permutation st in take 136 (store64 25 st) ++ squeeze k' st
  end.

Lemma squeeze_succ k st :
  squeeze (S k) st =
    take 136 (store64 25 (hash_permutation st)) ++ squeeze k (hash_permutation st).
Proof. cbn [squeeze]. reflexivity. Qed.

Definition random_ready `{Build} (s : random_state) : Prop :=
  length (state s) = 25%nat ∧ (NDEBUG = false → curstate s = 1).

Lemma length_hash_permutation st :
  length st = 25%nat → length (hash_permutation st) = 25%nat.
Proof. apply length_keccakf. Qed.

Lemma length_state_bytes st : length st = 25%nat → length (store64 25 st) = 200%nat.
Proof. intros HL. rewrite <- HL at 1. rewrite length_store64, HL. reflexivity. Qed.

Lemma random_loop_ok k n st :
  (0 < n ≤ k)%nat → length st = 25%nat →
  let j := S ((n - 1) / 136) in
  random_loop k n st = Some (take n (squeeze j st), Nat.iter j hash_permutation st).
Proof.
  revert n st. induction k as [|k IH]; intros n st Hn HL; [lia|]. cbn [random_loop].
  pose proof (length_hash_permutation st HL) as HL'.
  pose proof (length_state_bytes _ HL') as Hs.
  unfold HASH_DATA_AREA. destruct (Nat.leb_spec n 136).
  - rewrite Nat.div_small by lia. cbn [squeeze Nat.iter nat_rect]. rewrite app_nil_r.
    rewrite take_take, Nat.min_l by lia. reflexivity.
  - rewrite IH by (lia || done). cbn [mbind option_bind].
    assert ((n - 1) / 136 = S ((n - 136 - 1) / 136))%nat as ->.
    { replace (n - 1)%nat with (n - 136 - 1 + 1 * 136)%nat by lia.
      rewrite Nat.div_add by lia. lia. }
    set (j := ((n - 136 - 1) / 136)%nat). rewrite (Nat.iter_succ_r (S j)).
    rewrite (squeeze_succ (S j) st).
    set (B := take 136 _). assert (length B = 136%nat) by (unfold B; rewrite length_take; lia).
    rewrite take_app_ge by lia. replace (length B) with 136%nat by lia. reflexivity.
Qed.

Section ready.
Context `{Build}.

Lemma init_random_ok seed : ∃ s, init_random seed random_boot = Some s ∧ random_ready s.
Proof.
  eexists. split; [unfold init_random; rewrite assert_true by done; reflexivity|].
  unfold random_ready, set_curstate. destruct NDEBUG; split; done.
Qed.

Lemma curstate_ready s : random_ready s → assert_ (curstate s =? 1) = Some tt.
Proof.
  intros [_ Hc]. unfold assert_, debug_only. destruct NDEBUG; [done|]. by rewrite Hc.
Qed.

Lemma curstate_drawing s : assert_ (curstate (set_curstate 2 s) =? 2) = Some tt.
Proof. unfold assert_, debug_only, set_curstate. by destruct NDEBUG. Qed.

Lemma random_ready_set st c :
  length st = 25%nat → random_ready (set_curstate 1 {| state := st; curstate := c |}).
Proof. intros HL. unfold random_ready, set_curstate. by destruct NDEBUG. Qed.

Lemma state_set_curstate c s : state (set_curstate c s) = state s.
Proof. unfold set_curstate. by destruct NDEBUG. Qed.

Lemma length_iter_permutation k st :
  length st = 25%nat → length (Nat.iter k hash_permutation st) = 25%nat.
Proof.
  intros HL. induction k as [|k IH]; [exact HL|]. rewrite Nat.iter_succ.
  by apply length_hash_permutation.
Qed.

(** [n] bytes are the first [n] of the stream, and the blocks used are consumed. *)
Lemma generate_random_bytes_ok n s :
  random_ready s →
  ∃ s', generate_random_bytes_not_thread_safe n s =
      Some (take n (squeeze ((n + 135) / 136) (state s)), s') ∧
    state s' = Nat.iter ((n + 135) / 136) hash_permutation (state s) ∧ random_ready s'.
Proof.
  intros Hr. unfold generate_random_bytes_not_thread_safe. rewrite curstate_ready by done.
  destruct Hr as [HL _]. cbn [mbind option_bind]. destruct (Nat.eqb_spec n 0) as [->|Hn].
  - rewrite curstate_drawing. eexists. split; [reflexivity|].
    rewrite state_set_curstate, state_set_curstate. split; [reflexivity|].
    destruct (set_curstate 2 s) as [st c] eqn:E. apply random_ready_set.
    pose proof (state_set_curstate 2 s) as Es. rewrite E in Es. cbn in Es. by rewrite Es.
  - rewrite state_set_curstate.
    assert ((n + 135) / 136 = S ((n - 1) / 136))%nat as ->.
    { replace (n + 135)%nat with (n - 1 + 1 * 136)%nat by lia. rewrite Nat.div_add by lia. lia. }
    set (j := S ((n - 1) / 136)). rewrite random_loop_ok by (lia || done).
    cbn [mbind option_bind curstate]. rewrite curstate_drawing. eexists.
    split; [reflexivity|]. rewrite state_set_curstate. split; [reflexivity|].
    by apply random_ready_set, length_iter_permutation.
Qed.

Lemma length_squeeze k st : length st = 25%nat → length (squeeze k st) = (136 * k)%nat.
Proof.
  revert st. induction k as [|k IH]; intros st HL; [done|]. rewrite squeeze_succ.
  pose proof (length_hash_permutation st HL).
  rewrite length_app, length_take, length_state_bytes, IH by done. lia.
Qed.

Lemma bytes_squeeze k st : bytes (squeeze k st).
Proof.
  revert st. induction k as [|k IH]; intros st; [constructor|]. rewrite squeeze_succ.
  apply Forall_app. split; [apply Forall_take, bytes_store64|apply IH].
Qed.

Lemma generate_random_bytes_total n s :
  random_ready s →
  ∃ l s', generate_random_bytes_not_thread_safe n s = Some (l, s') ∧ random_ready s' ∧
    length l = n ∧ bytes l ∧ l = take n (squeeze ((n + 135) / 136) (state s)) ∧
    state s' = Nat.iter ((n + 135) / 136) hash_permutation (state s).
Proof.
  intros Hs. destruct (generate_random_bytes_ok n s Hs) as (s' & E & Es & Hs').
  eexists _, s'. split; [exact E|]. split; [exact Hs'|]. destruct Hs as [HL _].
  split; [|split; [apply Forall_take, bytes_squeeze|split; [reflexivity|exact Es]]].
  rewrite length_take, length_squeeze by exact HL.
  pose proof (Nat.div_mod_eq (n + 135) 136). pose proof (Nat.mod_upper_bound (n + 135) 136). lia.
Qed.

End ready.

(** ** The interface *)

#[export] Instance random_rng `{Build} : Rng random_state := generate_random_bytes_thread_safe.

Lemma random_rng_total `{Build} n s :
  random_ready s →
  ∃ l s', random_bytes n s = Some (l, s') ∧ length l = n ∧ bytes l ∧ random_ready s'.
Proof.
  intros Hs. destruct (generate_random_bytes_total n s Hs) as (l & s' & E & Hs' & HL & HB & _).
  by exists l, s'.
Qed.

#[export] Instance random_rng_laws `{Build} : RngLaws random_rng :=
  {| rng_ok := random_ready; random_bytes_total := random_rng_total |}.

Lemma rng_ready `{Build} (s : random_state) : random_ready s → rng_ok s.
Proof. exact (λ Hs, Hs). Qed.

(** The random generator: after [init_random] with any seed, any number of draws of any
    sizes returns in either build (no [assert] fails); each draw returns as many bytes as
    asked, the first of the stream of its state, and no block of the stream is used twice. *)
Theorem random_bytes_spec (B : Build) (seed : list Z) :
  (∃ s, init_random seed random_boot = Some s ∧ random_ready s) ∧
  ∀ n s, random_ready s →
    ∃ l s', generate_random_bytes_not_thread_safe n s = Some (l, s') ∧ random_ready s' ∧
      length l = n ∧ bytes l ∧ l = take n (squeeze ((n + 135) / 136) (state s)) ∧
      state s' = Nat.iter ((n + 135) / 136) hash_permutation (state s).
Proof.
  split; [apply init_random_ok|]. intros n s Hs. exact (generate_random_bytes_total n s Hs).
Qed.

Lemma random_bytes_spec_witness :
  ∃ s l s', @init_random false (replicate 32 7) random_boot = Some s ∧
    @generate_random_bytes_not_thread_safe false 200 s = Some (l, s') ∧
    length l = 200%nat ∧ bytes l.
Proof.
  destruct (random_bytes_spec false (replicate 32 7)) as [(s & E & Hs) HR].
  destruct (HR 200%nat s Hs) as (l & s' & E' & _ & HL & HB & _).
  exists s, l, s'. split; [exact E|]. split; [exact E'|]. split; [exact HL|exact HB].
Defined.
