(* ===== verification/TreeHash.v ===== *)
(** * The Merkle tree: [tree-hash.c]

    [tree_hash] reduces the hashes of the transactions of a block to one, in
    place in an array of [tree_hash_cnt] entries.  The theorem is that this is
    the root of a binary tree: the last hashes are paired so that a power of
    two is left, and these are the leaves of a perfect tree. *)

From S2P Require Export KeccakSpec.

#[local] Open Scope Z_scope.

Section tree_hash.
Context `{Build} `{FastHash}.

(** [while (pow < count) pow <<= 1;], at most [n] iterations *)
Fixpoint pow_loop (n : nat) (pow count : Z) : option Z :=
  if pow <? count then
    match n with
    | O => None
    | S n' => pow_loop n' (uwrap 64 (Z.shiftl pow 1)) count
    end
  else Some pow.

Definition tree_hash_cnt (count : Z) : option Z :=
  _ ← assert_ (3 <=? count);
  _ ← assert_ (count <=? 0x10000000);
  pow ← pow_loop 64 2 count;
  Some (Z.shiftr pow 1).

(** [cn_fast_hash(hashes[i], 64, ints[j])]: two adjacent hashes are read, then one is
    written; [None] outside of an array. *)
Definition hash_pair (hashes : list (list Z)) (i : nat) : option (list Z) :=
  a ← hashes !! i; b ← hashes !! S i; fast_hash (a ++ b).

Definition store_hash (ints : list (list Z)) (j : nat) (h : list Z) : option (list (list Z)) :=
  if (j <? length ints)%nat then Some (<[j := h]> ints) else None.

(** [for (..; j < cnt; i += 2, ++j) cn_fast_hash(hashes[i], 64, ints[j]);], [n] iterations *)
Fixpoint leaf_loop (hashes : list (list Z)) (n i j : nat) (ints : list (list Z)) :
    option (list (list Z)) :=
  match n with
  | O => Some ints
  | S n' =>
      h ← hash_pair hashes i;
      ints ← store_hash ints j h;
      leaf_loop hashes n' (i + 2) (S j) ints
  end.

(** The same with [ints] read and written. *)
Fixpoint level_loop (n i j : nat) (ints : list (list Z)) : option (list (list Z)) :=
  match n with
  | O => Some ints
  | S n' =>
      h ← hash_pair ints i;
      ints ← store_hash ints j h;
      level_loop n' (i + 2) (S j) ints
  end.

(** [while (cnt > 2)], at most [n] iterations *)
Fixpoint tree_loop (n cnt : nat) (ints : list (list Z)) : option (list (list Z)) :=
  if (2 <? cnt)%nat then
    match n with
    | O => None
    | S n' =>
        let cnt := Nat.div2 cnt in
        ints ← level_loop cnt 0 0 ints;
        tree_loop n' cnt ints
    end
  else Some ints.

Definition tree_hash (hashes : list (list Z)) : option (list Z) :=
  let count := length hashes in
  _ ← assert_ (0 <? count)%nat;
  if (count =? 1)%nat then hashes !! 0%nat
  else if (count =? 2)%nat then hash_pair hashes 0
  else
    cnt ← tree_hash_cnt (Z.of_nat count);
    let cnt := Z.to_nat cnt in
    let k := (2 * cnt - count)%nat in
    let ints := take k hashes ++ replicate (cnt - k) (replicate 32 0) in
    ints ← leaf_loop hashes (cnt - k) k k ints;
    _ ← assert_ (k + 2 * (cnt - k) =? count)%nat;
    ints ← tree_loop cnt cnt ints;
    hash_pair ints 0.

End tree_hash.

(** ** The tree *)

Section merkle.
Context `{Build} {F : FastHash} {FL : FastHashLaws F}.

(** The hash of two nodes. *)
Definition hash2 (a b : list Z) : list Z := default [] (fast_hash (a ++ b)).

Lemma hash2_ok a b : fast_hash (a ++ b) = Some (hash2 a b).
Proof. unfold hash2. by destruct (fast_hash_total (a ++ b)) as (h & -> & _). Qed.

(** The root of a perfect tree of depth [k] over the first [2 ^ k] entries of [l]. *)
Fixpoint merkle (k : nat) (l : list (list Z)) : list Z :=
  match k with
  | O => l !!! 0%nat
  | S k' => hash2 (merkle k' (take (2 ^ k') l)) (merkle k' (drop (2 ^ k') l))
  end.

Fixpoint pairs (l : list (list Z)) : list (list Z) :=
  match l with
  | a :: b :: l' => hash2 a b :: pairs l'
  | _ => []
  end.

(** The last hashes are paired so that [2 ^ k] nodes are left. *)
Definition leaves (k : nat) (hashes : list (list Z)) : list (list Z) :=
  let m := (2 ^ S k - length hashes)%nat in take m hashes ++ pairs (drop m hashes).

Lemma length_pairs n l : length l = (2 * n)%nat → length (pairs l) = n.
Proof.
  revert l. induction n as [|n IH]; intros [|a [|b l]] HL; cbn in *; try lia. by rewrite IH by lia.
Qed.

Lemma pairs_app n l l' : length l = (2 * n)%nat → pairs (l ++ l') = pairs l ++ pairs l'.
Proof.
  revert l. induction n as [|n IH]; intros [|a [|b l]] HL; cbn in *; try lia; [done|].
  by rewrite IH by lia.
Qed.

(** Hashing the tree from the leaves is hashing it from the root. *)
Lemma merkle_pairs k l : length l = (2 ^ S k)%nat → merkle (S k) l = merkle k (pairs l).
Proof.
  revert l. induction k as [|k IH]; intros l HL.
  { destruct l as [|a [|b [|]]]; cbn in HL; try lia. reflexivity. }
  remember (S k) as k' eqn:Ek. cbn [merkle]. subst k'.
  set (m := (2 ^ S k)%nat) in *.
  assert (length l = m + m)%nat as HL' by (rewrite HL; unfold m; cbn [Nat.pow]; lia).
  assert (m = 2 * 2 ^ k)%nat as Hm by done.
  rewrite !IH by (rewrite ?length_take, ?length_drop; fold m; lia). cbn [merkle].
  assert (pairs l = pairs (take m l) ++ pairs (drop m l)) as ->.
  { rewrite <- (take_drop m l) at 1. apply (pairs_app (2 ^ k)). rewrite length_take. lia. }
  assert (length (pairs (take m l)) = 2 ^ k)%nat as Hp
    by (apply length_pairs; rewrite length_take; lia).
  rewrite take_app_length', drop_app_length' by done. done.
Qed.

Lemma hash_pair_ok l i a b : l !! i = Some a → l !! S i = Some b → hash_pair l i = Some (hash2 a b).
Proof. intros E1 E2. unfold hash_pair. rewrite E1, E2. apply hash2_ok. Qed.

Lemma lookup_over {A} (p l : list A) j i :
  length p = j → (j ≤ i)%nat → (p ++ drop j l) !! i = l !! i.
Proof. intros <- Hi. rewrite lookup_app_r, lookup_drop by done. f_equal. lia. Qed.

(** The entries at [2 j] and [2 j + 1] are still those of the previous level. *)
Lemma level_loop_ok n j l :
  (2 * (j + n) ≤ length l)%nat →
  level_loop n (2 * j) j (pairs (take (2 * j) l) ++ drop j l) =
    Some (pairs (take (2 * (j + n)) l) ++ drop (j + n) l).
Proof.
  revert j. induction n as [|n IH]; intros j HL; cbn [level_loop]; [by rewrite Nat.add_0_r|].
  assert (length (pairs (take (2 * j) l)) = j) as Hp
    by (apply length_pairs; rewrite length_take; lia).
  destruct (lookup_lt_is_Some_2 l (2 * j)) as [a Ea]; [lia|].
  destruct (lookup_lt_is_Some_2 l (S (2 * j))) as [b Eb]; [lia|].
  rewrite (hash_pair_ok _ _ a b) by (rewrite (lookup_over _ _ j) by lia; done).
  cbn [mbind option_bind]. unfold store_hash. rewrite length_app, Hp, length_drop.
  rewrite (proj2 (Nat.ltb_lt _ _)) by lia. cbn [mbind option_bind].
  replace (j + S n)%nat with (S j + n)%nat by lia.
  replace (2 * j + 2)%nat with (2 * S j)%nat by lia. rewrite <- IH by lia. f_equal.
  rewrite insert_app_r_alt, Hp, Nat.sub_diag by lia.
  assert (take (2 * S j) l = take (2 * j) l ++ [a; b]) as ->.
  { replace (2 * S j)%nat with (S (S (2 * j))) by lia.
    by rewrite (take_S_r _ _ b), (take_S_r _ _ a), <- app_assoc by done. }
  rewrite (pairs_app j) by (rewrite length_take; lia). rewrite <- app_assoc. f_equal.
  destruct (lookup_lt_is_Some_2 l j) as [c Ec]; [lia|].
  by rewrite (drop_S l c j Ec).
Qed.

Lemma tree_loop_ok k n l :
  (k ≤ n)%nat → (2 ^ S k ≤ length l)%nat →
  ∃ l', tree_loop n (2 ^ S k) l = Some l' ∧
    hash_pair l' 0 = Some (merkle (S k) (take (2 ^ S k) l)).
Proof.
  revert n l. induction k as [|k IH]; intros n l Hn HL.
  - exists l. split; [by destruct n|]. change (2 ^ 1)%nat with 2%nat in *.
    destruct l as [|a [|b l]]; cbn in HL; try lia. apply hash_pair_ok; reflexivity.
  - destruct n as [|n]; [lia|].
    assert (2 ^ S (S k) = 2 * 2 ^ S k)%nat as E2 by done.
    assert (2 ≤ 2 ^ S k)%nat as H2 by (cbn; pose proof (Nat.pow_nonzero 2 k); lia).
    rewrite E2 in *. set (m := (2 ^ S k)%nat) in *. cbn [tree_loop].
    rewrite (proj2 (Nat.ltb_lt _ _)), Nat.div2_double by lia.
    pose proof (level_loop_ok m 0 l :
      _ → level_loop m 0 0 l = Some (pairs (take (2 * m) l) ++ drop m l)) as E.
    rewrite E by lia. cbn [mbind option_bind].
    assert (length (take (2 * m) l) = 2 * m)%nat as Ht by (rewrite length_take; lia).
    destruct (IH n (pairs (take (2 * m) l) ++ drop m l)) as (l' & -> & E'); [lia| |].
    { rewrite length_app, (length_pairs m) by done. lia. }
    exists l'. split; [done|]. rewrite E'. f_equal.
    rewrite take_app_length' by (symmetry; by apply length_pairs).
    rewrite (merkle_pairs (S k)) by (rewrite Ht; unfold m; cbn [Nat.pow]; lia). done.
Qed.

Lemma leaf_loop_ok hashes n i A B :
  length B = n → (i + 2 * n ≤ length hashes)%nat →
  leaf_loop hashes n i (length A) (A ++ B) = Some (A ++ pairs (take (2 * n) (drop i hashes))).
Proof.
  revert i A B. induction n as [|n IH]; intros i A B HB Hi; cbn [leaf_loop].
  { by destruct B. }
  destruct B as [|x B]; [done|]. cbn in HB.
  destruct (lookup_lt_is_Some_2 hashes i) as [a Ea]; [lia|].
  destruct (lookup_lt_is_Some_2 hashes (S i)) as [b Eb]; [lia|].
  rewrite (hash_pair_ok _ _ a b) by done. cbn [mbind option_bind]. unfold store_hash.
  rewrite length_app, (proj2 (Nat.ltb_lt _ _)) by (cbn; lia). cbn [mbind option_bind].
  rewrite insert_app_r_alt, Nat.sub_diag by lia. cbn [insert list_insert].
  replace (S (length A)) with (length (A ++ [hash2 a b])) by (rewrite length_app; cbn; lia).
  rewrite (drop_S hashes a i Ea), (drop_S hashes b (S i) Eb).
  replace (2 * S n)%nat with (S (S (2 * n))) by lia. cbn [take pairs].
  change (A ++ hash2 a b :: B) with (A ++ [hash2 a b] ++ B). rewrite app_assoc.
  rewrite IH by lia. replace (i + 2)%nat with (S (S i)) by lia. by rewrite <- app_assoc.
Qed.

Lemma pow_loop_ok n j k count :
  (j ≤ k)%nat → (k - j ≤ n)%nat → (k ≤ 63)%nat →
  2 ^ Z.of_nat k < 2 * count → count ≤ 2 ^ Z.of_nat k →
  pow_loop n (2 ^ Z.of_nat j) count = Some (2 ^ Z.of_nat k).
Proof.
  revert j. induction n as [|n IH]; intros j Hj Hn Hk H1 H2; cbn [pow_loop].
  { assert (j = k) as -> by lia. by rewrite (proj2 (Z.ltb_ge _ _)). }
  destruct (decide (j = k)) as [->|Hne]; [by rewrite (proj2 (Z.ltb_ge _ _))|].
  assert (2 * 2 ^ Z.of_nat j = 2 ^ Z.of_nat (S j)) as E
    by (rewrite Nat2Z.inj_succ, Z.pow_succ_r; lia).
  assert (2 ^ Z.of_nat (S j) ≤ 2 ^ Z.of_nat k) by (apply Z.pow_le_mono_r; lia).
  assert (2 ^ Z.of_nat k ≤ 2 ^ 63) by (apply Z.pow_le_mono_r; lia).
  rewrite (proj2 (Z.ltb_lt _ _)) by lia. rewrite Z.shiftl_mul_pow2 by lia.
  change (2 ^ 1) with 2. unfold uwrap. rewrite Z.mod_small by lia.
  rewrite Z.mul_comm, E. apply IH; lia.
Qed.

(** The power of two below [count]: [cnt < count <= 2 cnt]. *)
Lemma tree_hash_cnt_ok count k :
  3 ≤ count ≤ 2 ^ 28 → 2 ^ Z.of_nat k < count ≤ 2 ^ Z.of_nat (S k) →
  tree_hash_cnt count = Some (2 ^ Z.of_nat k).
Proof.
  intros Hc Hk. unfold tree_hash_cnt. rewrite !assert_true by (apply Z.leb_le; lia).
  cbn [mbind option_bind]. assert (Z.of_nat k < 28) as Hk28.
  { apply (Z.pow_lt_mono_r_iff 2); lia. }
  assert (2 ^ Z.of_nat (S k) = 2 ^ Z.of_nat k * 2) as E
    by (rewrite Nat2Z.inj_succ, Z.pow_succ_r; lia).
  change (pow_loop 64 2 count) with (pow_loop 64 (2 ^ Z.of_nat 1) count).
  rewrite (pow_loop_ok _ _ (S k)) by lia. cbn [mbind option_bind].
  rewrite Z.shiftr_div_pow2, E by lia. change (2 ^ 1) with 2. by rewrite Z.div_mul.
Qed.

Lemma tree_hash_ok hashes k :
  (2 ^ k < length hashes ≤ 2 ^ S k)%nat → Z.of_nat (length hashes) ≤ 2 ^ 28 →
  tree_hash hashes = Some (merkle k (leaves k hashes)).
Proof.
  intros Hk H28. unfold tree_hash. pose proof (Nat.pow_nonzero 2 k ltac:(lia)).
  rewrite assert_true by (apply Nat.ltb_lt; lia). cbn [mbind option_bind].
  rewrite (proj2 (Nat.eqb_neq (length hashes) 1)) by lia.
  destruct (Nat.eqb_spec (length hashes) 2) as [E2|E2].
  { destruct k as [|k]; [|cbn in Hk; pose proof (Nat.pow_nonzero 2 k); lia].
    destruct hashes as [|a [|b [|]]]; try discriminate. apply hash_pair_ok; reflexivity. }
  destruct k as [|k]; [cbn in Hk; lia|].
  assert (∀ n, Z.of_nat (2 ^ n) = 2 ^ Z.of_nat n) as HZ by (intros; by rewrite Nat2Z.inj_pow).
  rewrite (tree_hash_cnt_ok _ (S k)) by (rewrite <- ?HZ; lia). cbn [mbind option_bind].
  rewrite <- HZ, Nat2Z.id.
  assert (2 ^ S (S k) = 2 * 2 ^ S k)%nat as Ek by done.
  set (cnt := (2 ^ S k)%nat) in *. set (m := (2 * cnt - length hashes)%nat).
  assert (length (take m hashes) = m) as Hm by (rewrite length_take; lia).
  rewrite <- Hm at 3. rewrite leaf_loop_ok by (rewrite ?length_replicate; lia).
  cbn [mbind option_bind]. rewrite (take_ge (drop m hashes)) by (rewrite length_drop; lia).
  rewrite assert_true by (apply Nat.eqb_eq; lia). cbn [mbind option_bind].
  assert (length (pairs (drop m hashes)) = cnt - m)%nat as Hp
    by (apply length_pairs; rewrite length_drop; lia).
  destruct (tree_loop_ok k cnt (take m hashes ++ pairs (drop m hashes))) as (l' & E & E').
  { unfold cnt. pose proof (Nat.pow_gt_lin_r 2 (S k)). lia. }
  { fold cnt. rewrite length_app. lia. }
  fold cnt in E, E'. rewrite E. cbn [mbind option_bind]. rewrite E'.
  rewrite (take_ge (_ ++ _)) by (rewrite length_app; lia). unfold leaves. rewrite Ek. reflexivity.
Qed.

End merkle.

(** C38. The Merkle root: for 1 to [2 ^ 28] hashes, in either build, [tree_hash] returns the
    single hash, or the root of the perfect binary tree over the [2 ^ k] nodes that are left
    when the last hashes are paired, [k] being the logarithm of the number of hashes minus
    one; the power of two that [tree_hash_cnt] computes is smaller than the count. *)
Theorem tree_hash_spec (B : Build) (hashes : list (list Z))
    (Hn : (1 ≤ length hashes)%nat) (H28 : Z.of_nat (length hashes) ≤ 2 ^ 28) :
  let k := Nat.log2 (length hashes - 1) in
  tree_hash hashes =
    (if (length hashes =? 1)%nat then hashes !! 0%nat else Some (merkle k (leaves k hashes))) ∧
  ((3 ≤ length hashes)%nat →
    tree_hash_cnt (Z.of_nat (length hashes)) = Some (2 ^ Z.of_nat k)).
Proof.
  intros k. destruct (Nat.eqb_spec (length hashes) 1) as [E|E].
  { split; [|lia]. unfold tree_hash. rewrite E, assert_true by done. reflexivity. }
  destruct (Nat.log2_spec (length hashes - 1)) as [H1 H2]; [lia|]. fold k in H1, H2.
  split; [apply tree_hash_ok; lia|]. intros H3. apply tree_hash_cnt_ok; [lia|].
  pose proof (Nat2Z.inj_pow 2 k) as P1. pose proof (Nat2Z.inj_pow 2 (S k)) as P2. lia.
Qed.

Lemma tree_hash_spec_witness :
  let hashes := replicate 5 (replicate 32 7) in
  @tree_hash false _ hashes = Some (merkle 2 (leaves 2 hashes)) ∧
  ((3 ≤ 5)%nat → @tree_hash_cnt false 5 = Some 4).
Proof. apply (tree_hash_spec false (replicate 5 (replicate 32 7))); cbn [length replicate]; lia. Defined.
