(* ===== verification/Scalar.v ===== *)
(** * Scalars modulo the group order: the [sc_*] functions of [crypto-ops.c]

    A scalar is a string of 32 bytes, little endian.  The functions unpack it
    into limbs of 21 bits in [int64_t] variables, compute on the limbs, reduce
    modulo [l = 2^252 + 27742317777372353535851937790883648493] by folding the
    high limbs down and carrying, and pack the limbs into bytes again.  The
    theorems say that each function returns the canonical encoding of the exact
    result modulo [l] and that no [int64_t] operation overflows. *)

From S2P Require Export Limbs.

Local Open Scope Z_scope.
Local Open Scope stmt_scope.

(** ** Loading *)

Definition load_3 (s : list Z) (o : nat) : Z :=
  let result := s !!! o in
  let result := Z.lor result (Z.shiftl (s !!! (o + 1)%nat) 8) in
  Z.lor result (Z.shiftl (s !!! (o + 2)%nat) 16).

Definition load_4 (s : list Z) (o : nat) : Z :=
  let result := s !!! o in
  let result := Z.lor result (Z.shiftl (s !!! (o + 1)%nat) 8) in
  let result := Z.lor result (Z.shiftl (s !!! (o + 2)%nat) 16) in
  Z.lor result (Z.shiftl (s !!! (o + 3)%nat) 24).

Definition mask21 (x : Z) : Z := Z.land 2097151 x.

(** The twelve limbs of a 32-byte scalar; the last limb keeps all its bits. *)
Definition sc_load (s : list Z) : list Z :=
  [ mask21 (load_3 s 0);
    mask21 (Z.shiftr (load_4 s 2) 5);
    mask21 (Z.shiftr (load_3 s 5) 2);
    mask21 (Z.shiftr (load_4 s 7) 7);
    mask21 (Z.shiftr (load_4 s 10) 4);
    mask21 (Z.shiftr (load_3 s 13) 1);
    mask21 (Z.shiftr (load_4 s 15) 6);
    mask21 (Z.shiftr (load_3 s 18) 3);
    mask21 (load_3 s 21);
    mask21 (Z.shiftr (load_4 s 23) 5);
    mask21 (Z.shiftr (load_3 s 26) 2);
    Z.shiftr (load_4 s 28) 7 ].

(** The 24 limbs of the 64-byte argument of [sc_reduce]. *)
Definition sc_reduce_load (s : list Z) : list Z :=
  [ mask21 (load_3 s 0);
    mask21 (Z.shiftr (load_4 s 2) 5);
    mask21 (Z.shiftr (load_3 s 5) 2);
    mask21 (Z.shiftr (load_4 s 7) 7);
    mask21 (Z.shiftr (load_4 s 10) 4);
    mask21 (Z.shiftr (load_3 s 13) 1);
    mask21 (Z.shiftr (load_4 s 15) 6);
    mask21 (Z.shiftr (load_3 s 18) 3);
    mask21 (load_3 s 21);
    mask21 (Z.shiftr (load_4 s 23) 5);
    mask21 (Z.shiftr (load_3 s 26) 2);
    mask21 (Z.shiftr (load_4 s 28) 7);
    mask21 (Z.shiftr (load_4 s 31) 4);
    mask21 (Z.shiftr (load_3 s 34) 1);
    mask21 (Z.shiftr (load_4 s 36) 6);
    mask21 (Z.shiftr (load_3 s 39) 3);
    mask21 (load_3 s 42);
    mask21 (Z.shiftr (load_4 s 44) 5);
    mask21 (Z.shiftr (load_3 s 47) 2);
    mask21 (Z.shiftr (load_4 s 49) 7);
    mask21 (Z.shiftr (load_4 s 52) 4);
    mask21 (Z.shiftr (load_3 s 55) 1);
    mask21 (Z.shiftr (load_4 s 57) 6);
    Z.shiftr (load_4 s 60) 3 ].

(** ** The statements of the reduction *)

(** [carry_i = (s_i + (1<<20)) >> 21; s_{i+1} += carry_i; s_i -= carry_i << 21] *)
Definition carry_r (i : nat) : stmt := carry_gen 64 (2 ^ 20) 21 1 i (S i).

(** [carry_i = s_i >> 21; s_{i+1} += carry_i; s_i -= carry_i << 21] *)
Definition carry_f (i : nat) : stmt := carry_gen 64 0 21 1 i (S i).

(** The six statements that fold limb [s_i] into the limbs 12 positions down:
    [2^252] is congruent to minus the low part of [l]. *)
Definition sc_fold (i : nat) : stmt :=
  mul_acc 64 (i - 12) i 666643 >>
  mul_acc 64 (i - 11) i 470296 >>
  mul_acc 64 (i - 10) i 654183 >>
  mul_sub 64 (i - 9) i 997805 >>
  mul_acc 64 (i - 8) i 136657 >>
  mul_sub 64 (i - 7) i 683901.

(** The end of every reduction, from the fold of [s12] that follows the last
    rounding carries: two floor carry chains with a fold of [s12] between. *)
Definition sc_final_fold : stmt := sc_fold 12 >> clear 12.

Definition sc_final_chain : stmt :=
  carry_f 0 >> carry_f 1 >> carry_f 2 >> carry_f 3 >> carry_f 4 >> carry_f 5 >>
  carry_f 6 >> carry_f 7 >> carry_f 8 >> carry_f 9 >> carry_f 10.

Definition sc_final : stmt :=
  sc_final_fold >> (sc_final_chain >> carry_f 11) >> sc_fold 12 >> sc_final_chain.

(** ** Storing *)

Definition sc_store (s : list Z) : list Z :=
  [ b1 s 0 0; b1 s 0 8; b2 s 0 16 1 5;
    b1 s 1 3; b1 s 1 11; b2 s 1 19 2 2;
    b1 s 2 6; b2 s 2 14 3 7;
    b1 s 3 1; b1 s 3 9; b2 s 3 17 4 4;
    b1 s 4 4; b1 s 4 12; b2 s 4 20 5 1;
    b1 s 5 7; b2 s 5 15 6 6;
    b1 s 6 2; b1 s 6 10; b2 s 6 18 7 3;
    b1 s 7 5; b1 s 7 13;
    b1 s 8 0; b1 s 8 8; b2 s 8 16 9 5;
    b1 s 9 3; b1 s 9 11; b2 s 9 19 10 2;
    b1 s 10 6; b2 s 10 14 11 7;
    b1 s 11 1; b1 s 11 9; b1 s 11 17 ].

(** ** [sc_reduce] and [sc_reduce32] *)

(** The folds of [s23 .. s18] and the carries between them and the next folds. *)
Definition sc_reduce_high : stmt :=
  sc_fold 23 >> sc_fold 22 >> sc_fold 21 >> sc_fold 20 >> sc_fold 19 >> sc_fold 18 >>
  carry_r 6 >> carry_r 8 >> carry_r 10 >> carry_r 12 >> carry_r 14 >> carry_r 16 >>
  carry_r 7 >> carry_r 9 >> carry_r 11 >> carry_r 13 >> carry_r 15.

(** The folds of [s17 .. s12] and the carries after them. *)
Definition sc_reduce_low : stmt :=
  sc_fold 17 >> sc_fold 16 >> sc_fold 15 >> sc_fold 14 >> sc_fold 13 >>
  sc_fold 12 >> clear 12 >>
  carry_r 0 >> carry_r 2 >> carry_r 4 >> carry_r 6 >> carry_r 8 >> carry_r 10 >>
  carry_r 1 >> carry_r 3 >> carry_r 5 >> carry_r 7 >> carry_r 9 >> carry_r 11.

Definition sc_reduce (s : list Z) : option (list Z) :=
  r ← ((sc_reduce_high >> sc_reduce_low) >> sc_final) (sc_reduce_load s);
  Some (sc_store r).

(** The rounding carries of [sc_reduce32], [sc_add] and [sc_sub]. *)
Definition sc_round : stmt :=
  carry_r 0 >> carry_r 2 >> carry_r 4 >> carry_r 6 >> carry_r 8 >> carry_r 10 >>
  carry_r 1 >> carry_r 3 >> carry_r 5 >> carry_r 7 >> carry_r 9 >> carry_r 11.

Definition sc_reduce32 (s : list Z) : option (list Z) :=
  r ← (sc_round >> sc_final) (sc_load s ++ [0]);
  Some (sc_store r).

Definition sc_0 : list Z := replicate 32 0.

(** ** [sc_add], [sc_sub] *)

Definition sc_add (a b : list Z) : option (list Z) :=
  s ← mapM (λ '(x, y), chk 64 (x + y)) (zip (sc_load a) (sc_load b));
  r ← (sc_round >> sc_final) (s ++ [0]);
  Some (sc_store r).

Definition sc_sub (a b : list Z) : option (list Z) :=
  s ← mapM (λ '(x, y), chk 64 (x - y)) (zip (sc_load a) (sc_load b));
  r ← (sc_round >> sc_final) (s ++ [0]);
  Some (sc_store r).

(** ** [sc_mul], [sc_muladd], [sc_mulsub] *)

(** The products of row [k], in the order of the code:
    [a_i * b_(k-i)] for the indices where both limbs exist. *)
Definition row (a b : list Z) (k : nat) : list (Z * Z) :=
  (λ i, (a !!! i, b !!! (k - i)%nat)) <$> seq (k - 11) (S (k `min` 11) - (k - 11)).

(** [x0*y0 + x1*y1 + ...], evaluated from the left. *)
Fixpoint dot_from (acc : Z) (ps : list (Z * Z)) : option Z :=
  match ps with
  | [] => Some acc
  | (x, y) :: ps' =>
      p ← chk 64 (x * y);
      acc' ← chk 64 (acc + p);
      dot_from acc' ps'
  end.

Definition dot (ps : list (Z * Z)) : option Z :=
  match ps with
  | [] => Some 0
  | (x, y) :: ps' => p ← chk 64 (x * y); dot_from p ps'
  end.

Definition sc_mul_limbs (a b : list Z) : option (list Z) :=
  s ← mapM (λ k, dot (row a b k)) (seq 0 23);
  Some (s ++ [0]).

Definition sc_muladd_limbs (a b c : list Z) : option (list Z) :=
  lo ← mapM (λ k, d ← dot (row a b k); chk 64 (c !!! k + d)) (seq 0 12);
  hi ← mapM (λ k, dot (row a b k)) (seq 12 11);
  Some (lo ++ hi ++ [0]).

Definition sc_mulsub_limbs (a b c : list Z) : option (list Z) :=
  lo ← mapM (λ k, d ← dot (row a b k); chk 64 (c !!! k - d)) (seq 0 12);
  hi ← mapM (λ k, d ← dot (row a b k); chk 64 (- d)) (seq 12 10);
  n ← chk 64 (- (a !!! 11%nat));
  s22 ← chk 64 (n * b !!! 11%nat);
  Some (lo ++ hi ++ [s22; 0]).

(** The first two rounds of carries after the products. *)
Definition sc_mul_round : stmt :=
  carry_r 0 >> carry_r 2 >> carry_r 4 >> carry_r 6 >> carry_r 8 >> carry_r 10 >>
  carry_r 12 >> carry_r 14 >> carry_r 16 >> carry_r 18 >> carry_r 20 >> carry_r 22 >>
  carry_r 1 >> carry_r 3 >> carry_r 5 >> carry_r 7 >> carry_r 9 >> carry_r 11 >>
  carry_r 13 >> carry_r 15 >> carry_r 17 >> carry_r 19 >> carry_r 21.

Definition sc_mul_reduce : stmt :=
  (sc_mul_round >> sc_reduce_high >> sc_reduce_low) >> sc_final.

Definition sc_mul (a b : list Z) : option (list Z) :=
  s ← sc_mul_limbs (sc_load a) (sc_load b);
  r ← sc_mul_reduce s;
  Some (sc_store r).

Definition sc_muladd (a b c : list Z) : option (list Z) :=
  s ← sc_muladd_limbs (sc_load a) (sc_load b) (sc_load c);
  r ← sc_mul_reduce s;
  Some (sc_store r).

Definition sc_mulsub (a b c : list Z) : option (list Z) :=
  s ← sc_mulsub_limbs (sc_load a) (sc_load b) (sc_load c);
  r ← sc_mul_reduce s;
  Some (sc_store r).

(** ** [sc_check] and [sc_isnonzero] *)

Definition signum (a : Z) : Z := if 0 <? a then 1 else if a <? 0 then -1 else 0.

Definition sc_check (s : list Z) : Z :=
  Z.shiftr
    (signum (1559614444 - load_4 s 0) +
     Z.shiftl (signum (1477600026 - load_4 s 4)) 1 +
     Z.shiftl (signum (2734136534 - load_4 s 8)) 2 +
     Z.shiftl (signum (350157278 - load_4 s 12)) 3 +
     Z.shiftl (signum (- load_4 s 16)) 4 +
     Z.shiftl (signum (- load_4 s 20)) 5 +
     Z.shiftl (signum (- load_4 s 24)) 6 +
     Z.shiftl (signum (268435456 - load_4 s 28)) 7) 8.

(** [s[0] | s[1] | ... | s[31]], evaluated from the left. *)
Definition or_bytes (s : list Z) : Z := foldl Z.lor 0 (take 32 s).

Definition sc_isnonzero (s : list Z) : Z := Z.shiftr (or_bytes s - 1) 8 + 1.

(** * Correctness *)

Definition L : Z := 2 ^ 252 + 27742317777372353535851937790883648493.

Definition wt21 (i : nat) : Z := 21 * Z.of_nat i.

Abbreviation eval21 := (eval wt21).

(** ** Loading computes the 21-bit digits *)

Lemma byte_lookup s i : bytes s → (i < length s)%nat → 0 ≤ s !!! i < 256.
Proof.
  intros Hs Hi. apply (Forall_lookup_1 _ _ i _ Hs).
  by apply list_lookup_lookup_total_lt.
Qed.

Lemma take_drop_lookup (s : list Z) o n :
  (o + S n ≤ length s)%nat →
  take (S n) (drop o s) = s !!! o :: take n (drop (S o) s).
Proof.
  intros Ho. rewrite (drop_S s (s !!! o)); [done|].
  apply list_lookup_lookup_total_lt. lia.
Qed.

Lemma load_3_spec s o :
  bytes s → (o + 3 ≤ length s)%nat →
  load_3 s o = (le_combine s / 2 ^ (8 * Z.of_nat o)) mod 2 ^ 24.
Proof.
  intros Hs Ho. pose proof (le_combine_sub s o 3 Hs Ho) as E.
  rewrite pow256_pow2 in E. change (256 ^ Z.of_nat 3) with (2 ^ 24) in E.
  rewrite <- E. rewrite !take_drop_lookup by lia. unfold load_3.
  pose proof (byte_lookup s o Hs). pose proof (byte_lookup s (o + 1) Hs).
  rewrite (lor_shiftl_add (s !!! o)) by lia.
  rewrite (lor_shiftl_add (_ + _)) by lia.
  replace (S o) with (o + 1)%nat by lia. replace (S (o + 1)) with (o + 2)%nat by lia.
  rewrite take_0. cbn [le_combine]. lia.
Qed.

Lemma load_4_spec s o :
  bytes s → (o + 4 ≤ length s)%nat →
  load_4 s o = (le_combine s / 2 ^ (8 * Z.of_nat o)) mod 2 ^ 32.
Proof.
  intros Hs Ho. pose proof (le_combine_sub s o 4 Hs Ho) as E.
  rewrite pow256_pow2 in E. change (256 ^ Z.of_nat 4) with (2 ^ 32) in E.
  rewrite <- E. rewrite !take_drop_lookup by lia. unfold load_4.
  pose proof (byte_lookup s o Hs). pose proof (byte_lookup s (o + 1) Hs).
  pose proof (byte_lookup s (o + 2) Hs).
  rewrite (lor_shiftl_add (s !!! o)) by lia.
  rewrite (lor_shiftl_add (_ + _)) by lia.
  rewrite (lor_shiftl_add (_ + _ + _)) by lia.
  replace (S o) with (o + 1)%nat by lia. replace (S (o + 1)) with (o + 2)%nat by lia.
  replace (S (o + 2)) with (o + 3)%nat by lia. rewrite take_0. cbn [le_combine]. lia.
Qed.

(** Digit [i] of [v] in radix [2^21]. *)
Definition digit (v : Z) (i : nat) : Z := (v / 2 ^ wt21 i) mod 2 ^ 21.

Lemma load_3_digit s o k i :
  bytes s → (o + 3 ≤ length s)%nat → 0 ≤ k → k + 21 ≤ 24 →
  8 * Z.of_nat o + k = wt21 i →
  mask21 (Z.shiftr (load_3 s o) k) = digit (le_combine s) i.
Proof.
  intros Hs Ho Hk Hk' Hi. unfold mask21. change 2097151 with (2 ^ 21 - 1).
  rewrite land_ones_l, Z.shiftr_div_pow2, load_3_spec, subfield by (done || lia).
  by rewrite Hi.
Qed.

Lemma load_4_digit s o k i :
  bytes s → (o + 4 ≤ length s)%nat → 0 ≤ k → k + 21 ≤ 32 →
  8 * Z.of_nat o + k = wt21 i →
  mask21 (Z.shiftr (load_4 s o) k) = digit (le_combine s) i.
Proof.
  intros Hs Ho Hk Hk' Hi. unfold mask21. change 2097151 with (2 ^ 21 - 1).
  rewrite land_ones_l, Z.shiftr_div_pow2, load_4_spec, subfield by (done || lia).
  by rewrite Hi.
Qed.

(** The limb that keeps its high bits holds the rest of the number. *)
Lemma load_4_top s o k i :
  bytes s → length s = (o + 4)%nat → 0 ≤ k ≤ 32 →
  8 * Z.of_nat o + k = wt21 i →
  Z.shiftr (load_4 s o) k = le_combine s / 2 ^ wt21 i.
Proof.
  intros Hs Ho Hk Hi. rewrite Z.shiftr_div_pow2, load_4_spec by (done || lia).
  rewrite <- Hi, <- div_pow2_pow2 by lia. f_equal. apply Z.mod_small.
  pose proof (le_combine_bound s Hs) as Hb. rewrite Ho, pow256_pow2 in Hb.
  split; [apply Z.div_pos; [lia|apply Z.pow_pos_nonneg; lia]|].
  apply Z.div_lt_upper_bound; [apply Z.pow_pos_nonneg; lia|].
  rewrite <- Z.pow_add_r by lia. eapply Z.lt_le_trans; [apply Hb|].
  apply Z.pow_le_mono_r; lia.
Qed.

Definition digits (v : Z) (n : nat) : list Z :=
  (digit v <$> seq 0 n) ++ [v / 2 ^ wt21 n].

Lemma load_3_digit0 s o i :
  bytes s → (o + 3 ≤ length s)%nat → 8 * Z.of_nat o = wt21 i →
  mask21 (load_3 s o) = digit (le_combine s) i.
Proof.
  intros Hs Ho Hi. rewrite <- (load_3_digit s o 0 i) by (done || lia).
  by rewrite Z.shiftr_0_r.
Qed.

Ltac load_digits :=
  repeat first
    [ apply cons_eq
    | apply load_3_digit; [done|lia|lia|lia|reflexivity]
    | apply load_3_digit0; [done|lia|reflexivity]
    | apply load_4_digit; [done|lia|lia|lia|reflexivity]
    | apply load_4_top; [done|lia|lia|reflexivity]
    | reflexivity ].

Lemma sc_load_digits s :
  bytes s → length s = 32%nat → sc_load s = digits (le_combine s) 11.
Proof. intros Hs Hl. unfold sc_load, digits. cbn [seq fmap list_fmap app]. load_digits. Qed.

Lemma sc_reduce_load_digits s :
  bytes s → length s = 64%nat → sc_reduce_load s = digits (le_combine s) 23.
Proof. intros Hs Hl. unfold sc_reduce_load, digits. cbn [seq fmap list_fmap app]. load_digits. Qed.

Lemma eval_digits s v n :
  (∀ i, (i < n)%nat → s !!! i = digit v i) → eval21 n s = v mod 2 ^ wt21 n.
Proof.
  induction n as [|n IH]; intros Hs; cbn [eval].
  { by rewrite Z.mod_1_r. }
  rewrite IH by auto. rewrite Hs by lia. unfold digit.
  replace (wt21 (S n)) with (wt21 n + 21) by (unfold wt21; lia).
  rewrite Z.pow_add_r, Z.rem_mul_r by
    (try apply Z.pow_nonzero; try apply Z.pow_pos_nonneg; unfold wt21; lia). lia.
Qed.

Lemma eval_load v n : 0 ≤ v → eval21 (S n) (digits v n) = v.
Proof.
  intros Hv. cbn [eval]. rewrite (eval_digits _ v).
  - unfold digits. rewrite lookup_total_app_r by (rewrite length_fmap, length_seq; lia).
    rewrite length_fmap, length_seq, Nat.sub_diag. cbn.
    pose proof (Z.div_mod v (2 ^ wt21 n)).
    pose proof (Z.pow_pos_nonneg 2 (wt21 n)). unfold wt21 in *. lia.
  - intros i Hi. unfold digits.
    rewrite lookup_total_app_l by (rewrite length_fmap, length_seq; lia).
    apply list_lookup_total_correct.
    by rewrite list_lookup_fmap, lookup_seq_lt by lia.
Qed.

Lemma digit_range v i : 0 ≤ digit v i ≤ 2097151.
Proof. pose proof (Z.mod_pos_bound (v / 2 ^ wt21 i) (2 ^ 21)). unfold digit. lia. Qed.

(** The limbs of an argument of [n + 1] limbs below [2^t]. *)
Definition load_bounds (n : nat) (t : Z) : bounds :=
  replicate n (0, 2097151) ++ [(0, 2 ^ (t - wt21 n) - 1)].

Lemma within_digits v n t :
  0 ≤ v < 2 ^ t → wt21 n ≤ t → within (load_bounds n t) (digits v n).
Proof.
  intros Hv Ht. unfold within, load_bounds, digits. apply Forall2_app.
  - rewrite Forall2_fmap_r. 
    apply Forall2_same_length_lookup_2; [by rewrite length_replicate, length_seq|].
    intros i b j [-> _]%lookup_replicate _. unfold inb. cbn. apply digit_range.
  - constructor; [|constructor]. unfold inb. cbn [fst snd].
    assert (0 < 2 ^ wt21 n) by (apply Z.pow_pos_nonneg; unfold wt21; lia).
    split; [apply Z.div_pos; lia|].
    enough (v / 2 ^ wt21 n < 2 ^ (t - wt21 n)) by lia.
    apply Z.div_lt_upper_bound; [done|].
    rewrite <- Z.pow_add_r by (unfold wt21 in *; lia).
    replace (wt21 n + (t - wt21 n)) with t by lia. lia.
Qed.

(** ** Folding *)

Lemma mul_acc_eval wt w d i c s s' n :
  mul_acc w d i c s = Some s' → (d < n ≤ length s)%nat → d ≠ i →
  length s' = length s ∧ s' !!! i = s !!! i ∧
  eval wt n s' = eval wt n s + s !!! i * c * 2 ^ wt d.
Proof.
  unfold mul_acc. intros (? & ->%chk_inv & (? & ->%chk_inv & [= <-])%bind_Some)%bind_Some Hd Hi.
  rewrite length_insert, list_lookup_total_insert_ne by done.
  split_and!; [done..|]. rewrite eval_insert by lia. lia.
Qed.

Lemma mul_sub_eval wt w d i c s s' n :
  mul_sub w d i c s = Some s' → (d < n ≤ length s)%nat → d ≠ i →
  length s' = length s ∧ s' !!! i = s !!! i ∧
  eval wt n s' = eval wt n s - s !!! i * c * 2 ^ wt d.
Proof.
  unfold mul_sub. intros (? & ->%chk_inv & (? & ->%chk_inv & [= <-])%bind_Some)%bind_Some Hd Hi.
  rewrite length_insert, list_lookup_total_insert_ne by done.
  split_and!; [done..|]. rewrite eval_insert by lia. lia.
Qed.

Lemma pow_wt21 i m e :
  (m ≤ 12 ≤ i)%nat → e = 252 - 21 * Z.of_nat m →
  2 ^ wt21 (i - m) = 2 ^ wt21 (i - 12) * 2 ^ e.
Proof. intros Hm ->. unfold wt21. rewrite <- Z.pow_add_r by lia. f_equal. lia. Qed.

(** Folding [s_i] subtracts a multiple of [l] from the number. *)
Lemma sc_fold_eval i s s' :
  (12 ≤ i < length s)%nat → sc_fold i s = Some s' →
  length s' = length s ∧
  eval21 i s' = eval21 (S i) s - s !!! i * 2 ^ wt21 (i - 12) * L.
Proof.
  intros Hi. unfold sc_fold, sthen.
  intros (s1 & H1 & (s2 & H2 & (s3 & H3 & (s4 & H4 & (s5 & H5 & H6)%bind_Some)
    %bind_Some)%bind_Some)%bind_Some)%bind_Some.
  apply (mul_acc_eval wt21 _ _ _ _ _ _ i) in H1 as (L1 & N1 & E1); [|lia..].
  apply (mul_acc_eval wt21 _ _ _ _ _ _ i) in H2 as (L2 & N2 & E2); [|lia..].
  apply (mul_acc_eval wt21 _ _ _ _ _ _ i) in H3 as (L3 & N3 & E3); [|lia..].
  apply (mul_sub_eval wt21 _ _ _ _ _ _ i) in H4 as (L4 & N4 & E4); [|lia..].
  apply (mul_acc_eval wt21 _ _ _ _ _ _ i) in H5 as (L5 & N5 & E5); [|lia..].
  apply (mul_sub_eval wt21 _ _ _ _ _ _ i) in H6 as (L6 & N6 & E6); [|lia..].
  split; [lia|].
  rewrite E6, E5, E4, E3, E2, E1, N5, N4, N3, N2, N1. cbn [eval].
  clear -Hi. pose proof (pow_wt21 i 0 252 ltac:(lia) eq_refl) as E0.
  rewrite Nat.sub_0_r in E0. rewrite E0.
  rewrite (pow_wt21 i 11 21), (pow_wt21 i 10 42), (pow_wt21 i 9 63),
    (pow_wt21 i 8 84), (pow_wt21 i 7 105) by lia.
  unfold L. ring.
Qed.

(** The statements of the reductions, as instance resolution sees them. *)
#[export] Instance carry_r_analyzed i : Analyzed (carry_r i) _ :=
  carry_analyzed 64 (2 ^ 20) 21 1 i (S i).
#[export] Instance carry_f_analyzed i : Analyzed (carry_f i) _ :=
  carry_analyzed 64 0 21 1 i (S i).
#[export] Instance sc_fold_analyzed i : Analyzed (sc_fold i) _ :=
  ltac:(unfold sc_fold; apply _).
#[export] Instance carry_r_valued N m i : Valued wt21 N m (carry_r i) _ :=
  carry_valued wt21 N m 64 (2 ^ 20) 21 1 i (S i).
#[export] Instance carry_f_valued N m i : Valued wt21 N m (carry_f i) _ :=
  carry_valued wt21 N m 64 0 21 1 i (S i).
#[global] Typeclasses Opaque carry_r carry_f sc_fold.

Definition fold_val (N i n : nat) : option nat :=
  if (n =? S i)%nat && (12 <=? i)%nat && (i <? N)%nat then Some i else None.

#[export] Instance sc_fold_valued N i : Valued wt21 N L (sc_fold i) (fold_val N i).
Proof.
  intros n n' s s' Hv HN Hs. unfold fold_val in Hv. case_match eqn:Hc; [|done].
  rewrite !andb_true_iff, Nat.eqb_eq, Nat.leb_le, Nat.ltb_lt in Hc.
  destruct Hc as [[-> Hi] HiN]. injection Hv as <-.
  apply sc_fold_eval in Hs as [HL ->]; [|lia]. split; [lia|].
  apply (eqm_add_mul _ (- (s !!! i * 2 ^ wt21 (i - 12)))). ring.
Qed.

(** ** Storing *)

#[export] Instance wt21_radix : Radix wt21.
Proof. split; [done|]. unfold wt21. lia. Qed.

(** [s] is ready to be stored: digits, and a top limb that holds the rest. *)
Lemma sc_store_spec s :
  digits_lt wt21 11 s → sc_store s = le_split 32 (eval21 12 s).
Proof. intros Hs. unfold sc_store. store_bytes 11%nat. Qed.

(** ** The last folds bring the number into [0 .. l)

    [tail_ok B] runs the interval analysis of [sc_final] from the bounds [B] and
    checks what the argument below needs of it. *)
Definition digits_ok (n : nat) (B : bounds) : bool :=
  bounds_le (take n B) (replicate n (0, 2097151)).

Definition tail_ok (B : bounds) : bool :=
  let N := length B in
  bool_decide (val_of wt21 N L sc_final_fold 13%nat = Some 13%nat) &&
  bool_decide (val_of wt21 N 0 (sc_final_chain >> carry_f 11) 13%nat = Some 13%nat) &&
  bool_decide (val_of wt21 N 0 sc_final_chain 12%nat = Some 12%nat) &&
  match abs_of sc_final_fold B with
  | Some B1 =>
      (- 2 ^ 252 <? eval21 13 (B1.*1)) && (eval21 13 (B1.*2) <? 2 ^ 252) &&
      match abs_of (sc_final_chain >> carry_f 11) B1 with
      | Some B2 =>
          digits_ok 12 B2 &&
          match abs_of (sc_fold 12) B2 with
          | Some B3 =>
              match abs_of sc_final_chain B3 with
              | Some B4 => digits_ok 11 B4
              | None => false
              end
          | None => false
          end
      | None => false
      end
  | None => false
  end.

Lemma eqm_0 a b : eqm 0 a b → a = b.
Proof. unfold eqm. by rewrite !Z.mod_0_r. Qed.

Lemma digits_ok_spec n B s i :
  digits_ok n B = true → within B s → (i < n ≤ length B)%nat →
  0 ≤ s !!! i < 2 ^ (wt21 (S i) - wt21 i).
Proof.
  replace (wt21 (S i) - wt21 i) with 21 by (unfold wt21; lia).
  intros Hd HB Hi. pose proof (Forall2_length HB) as HL.
  pose proof (within_le _ _ (take n s) Hd) as Hw.
  assert (within (take n B) (take n s)) as Ht by (by apply Forall2_take).
  specialize (Hw Ht). apply (within_lookup _ _ i) in Hw; [|rewrite length_replicate; lia].
  rewrite lookup_total_take_lt, lookup_total_replicate_2 in Hw by lia.
  unfold inb in Hw. cbn [fst snd] in Hw. lia.
Qed.

(** The quotient by [2^252] of a number between [-2^252] and [2^252], times [l],
    subtracted once, gives the residue. *)
Lemma fold_top v q r :
  - 2 ^ 252 < v < 2 ^ 252 → 0 ≤ r < 2 ^ 252 → v = r + q * 2 ^ 252 →
  v - q * L = v mod L.
Proof.
  intros Hv Hr E. apply Z.mod_unique_pos with q; [|ring].
  assert (q = 0 ∨ q = -1) as [->| ->] by lia; unfold L; lia.
Qed.

Lemma sc_final_spec B s :
  tail_ok B = true → (13 ≤ length B)%nat → within B s →
  ∃ r, sc_final s = Some r ∧ sc_store r = le_split 32 (eval21 13 s mod L).
Proof.
  intros Hok HN HB. pose proof (Forall2_length HB) as HL. unfold tail_ok in Hok.
  apply andb_true_iff in Hok as [[[V1 V2]%andb_true_iff V3]%andb_true_iff Hok].
  apply bool_decide_eq_true in V1, V2, V3.
  destruct (abs_of sc_final_fold B) as [B1|] eqn:A1; [|done].
  apply andb_true_iff in Hok as [[Hlo%Z.ltb_lt Hhi%Z.ltb_lt]%andb_true_iff Hok].
  destruct (abs_of (sc_final_chain >> carry_f 11) B1) as [B2|] eqn:A2; [|done].
  apply andb_true_iff in Hok as [D2 Hok].
  destruct (abs_of (sc_fold 12) B2) as [B3|] eqn:A3; [|done].
  destruct (abs_of sc_final_chain B3) as [B4|] eqn:A4; [|done].
  apply (run_analyzed _ _ _ s) in A1 as (s1 & R1 & W1); [|done].
  apply (run_analyzed _ _ _ s1) in A2 as (s2 & R2 & W2); [|done].
  apply (run_analyzed _ _ _ s2) in A3 as (s3 & R3 & W3); [|done].
  apply (run_analyzed _ _ _ s3) in A4 as (s4 & R4 & W4); [|done].
  apply (run_valued _ _ _ _ _ _ s s1) in V1 as [L1 E1]; [|done..].
  apply (run_valued _ _ _ _ _ _ s1 s2) in V2 as [L2 E2%eqm_0]; [|done..].
  apply sc_fold_eval in R3 as F3; [|lia]. destruct F3 as [L3 E3].
  apply (run_valued _ _ _ _ _ _ s3 s4) in V3 as [L4 E4%eqm_0]; [|lia|done].
  exists s4. split.
  { unfold sc_final, sthen in *. rewrite R1. cbn [mbind option_bind].
    rewrite R2. cbn [mbind option_bind]. by rewrite R3. }
  assert (length B2 = length B ∧ length B4 = length B) as [HB2 HB4].
  { rewrite (Forall2_length W2), (Forall2_length W4). lia. }
  rewrite sc_store_spec by (intros i Hi; apply (digits_ok_spec 11 B4); [done..|lia]).
  f_equal. rewrite E4, E3. change (2 ^ wt21 (12 - 12)) with 1. rewrite Z.mul_1_r, E2.
  rewrite (fold_top (eval21 13 s1) (s2 !!! 12%nat) (eval21 12 s2)); [exact E1|..].
  - pose proof (eval_bounds wt21 13 B1 s1 W1). lia.
  - apply (eval_range wt21 12). intros i Hi. apply (digits_ok_spec 12 B2); [done..|lia].
  - rewrite <- E2. apply (eval_S wt21 12).
Qed.

(** ** The reductions *)

(** A body of statements that keeps the value modulo [l], then [sc_final]. *)
Lemma reduce_spec f {a} {_ : Analyzed f a} B {v}
    {_ : Valued wt21 (length B) L f v} n B' s :
  abs_of f B = Some B' → val_of wt21 (length B) L f n = Some 13%nat →
  tail_ok B' = true → (13 ≤ length B)%nat → within B s →
  ∃ r, (f >> sc_final) s = Some r ∧ sc_store r = le_split 32 (eval21 n s mod L).
Proof.
  intros Ha Hv Ht HN HB. pose proof (Forall2_length HB) as HL.
  apply (run_analyzed _ _ _ s) in Ha as (s1 & R1 & W1); [|done].
  apply (run_valued _ _ _ _ _ _ s s1) in Hv as [L1 E1]; [|done..].
  destruct (sc_final_spec B' s1) as (r & R2 & E2); [done| |done|].
  { rewrite (Forall2_length W1). lia. }
  exists r. unfold sthen. rewrite R1. split; [done|]. by rewrite E2, E1.
Qed.

Lemma load_within n t l :
  bytes l → 8 * Z.of_nat (length l) = t → wt21 n ≤ t →
  within (load_bounds n t) (digits (le_combine l) n).
Proof.
  intros Hl Ht Hn. apply within_digits; [|done].
  rewrite <- Ht, <- pow256_pow2. by apply le_combine_bound.
Qed.

(** [sc_reduce] returns, for every 64-byte string, the canonical 32-byte
    encoding of its value modulo the group order [l]; no [int64_t] operation of
    the loads, folds and carries overflows. *)
Lemma sc_reduce_ok s :
  bytes s → length s = 64%nat →
  sc_reduce s = Some (le_split 32 (le_combine s mod L)).
Proof.
  intros Hs Hl. unfold sc_reduce. rewrite sc_reduce_load_digits by done.
  edestruct (reduce_spec (sc_reduce_high >> sc_reduce_low) (load_bounds 23 512)
    24) as (r & -> & E); [vm_compute; reflexivity..|cbn; lia| |].
  - apply load_within; [done|lia|unfold wt21; lia].
  - cbn [mbind option_bind]. rewrite E, (eval_load _ 23); [done|].
    apply le_combine_bound, Hs.
Qed.

(** Appending the limb [s12 = 0]. *)
Lemma eval_snoc_0 n s : length s = n → eval21 (S n) (s ++ [0]) = eval21 n s.
Proof.
  intros Hn. cbn [eval]. rewrite lookup_total_app_r by lia.
  rewrite Hn, Nat.sub_diag. cbn. rewrite Z.add_0_r.
  assert (∀ m, (m ≤ n)%nat → eval21 m (s ++ [0]) = eval21 m s) as H.
  { induction m as [|m IH]; intros Hm; cbn [eval]; [done|].
    rewrite IH, lookup_total_app_l by lia. done. }
  by apply H.
Qed.

Lemma within_snoc_0 B s : within B s → within (B ++ [(0, 0)]) (s ++ [0]).
Proof.
  intros HB. apply Forall2_app; [done|]. constructor; [|constructor].
  unfold inb. cbn. lia.
Qed.

(** [sc_round >> sc_final] on twelve limbs. *)
Lemma round_spec B B' s :
  abs_of sc_round (B ++ [(0, 0)]) = Some B' → tail_ok B' = true →
  length B = 12%nat → within B s →
  ∃ r, (sc_round >> sc_final) (s ++ [0]) = Some r ∧
    sc_store r = le_split 32 (eval21 12 s mod L).
Proof.
  intros Ha Ht HN HB. pose proof (Forall2_length HB) as HL.
  rewrite <- (eval_snoc_0 12) by lia.
  apply (reduce_spec sc_round (B ++ [(0, 0)]) 13 B'); [done| |done| |].
  - rewrite length_app, HN. vm_compute. reflexivity.
  - rewrite length_app, HN. cbn. lia.
  - by apply within_snoc_0.
Qed.

(** [sc_reduce32] returns, for every 32-byte string (also one above [l]),
    the canonical encoding of its value modulo [l], without overflow. *)
Lemma sc_reduce32_ok s :
  bytes s → length s = 32%nat →
  sc_reduce32 s = Some (le_split 32 (le_combine s mod L)).
Proof.
  intros Hs Hl. unfold sc_reduce32. rewrite sc_load_digits by done.
  edestruct (round_spec (load_bounds 11 256)) as (r & -> & E);
    [vm_compute; reflexivity..| |].
  - apply load_within; [done|lia|unfold wt21; lia].
  - cbn [mbind option_bind]. rewrite E, (eval_load _ 11); [done|].
    apply le_combine_bound, Hs.
Qed.

(** ** Addition and subtraction *)

Definition all_fit (B : bounds) : bool := forallb (λ b, fits 64 b.1 && fits 64 b.2) B.

Lemma zip_chk op iop A B a b :
  (∀ p q x y, inb p x → inb q y → inb (iop p q) (op x y)) →
  within A a → within B b → all_fit (zip_with iop A B) = true →
  mapM (λ '(x, y), chk 64 (op x y)) (zip a b) = Some (zip_with op a b) ∧
  within (zip_with iop A B) (zip_with op a b).
Proof.
  intros Hop HA. revert B b. induction HA as [|p x A a Hp _ IH]; intros B b HB Hf.
  { by split; [|constructor]. }
  destruct HB as [|q y B b Hq HB]; [by split; [|constructor]|].
  cbn in Hf. apply andb_true_iff in Hf as [[H1 H2]%andb_true_iff Hf].
  destruct (IH B b HB Hf) as [E W]. assert (inb (iop p q) (op x y)) by auto.
  split; [|by constructor]. cbn.
  rewrite (chk_Some 64 (op x y)) by (by apply (fits_between 64 _ _ _ H1 H2)). cbn.
  change (zip_with pair a b) with (zip a b). by rewrite E.
Qed.

Lemma load_within32 a :
  bytes a → length a = 32%nat → within (load_bounds 11 256) (sc_load a).
Proof.
  intros Ha Hl. rewrite sc_load_digits by done.
  apply load_within; [done|lia|unfold wt21; lia].
Qed.

Lemma eval_load32 a :
  bytes a → length a = 32%nat → eval21 12 (sc_load a) = le_combine a.
Proof.
  intros Ha Hl. rewrite sc_load_digits by done. apply (eval_load _ 11).
  apply le_combine_bound, Ha.
Qed.
#[export] Hint Resolve load_within32 : limbs.

Lemma length_sc_load a : length (sc_load a) = 12%nat.
Proof. done. Qed.

(** [sc_add] returns the canonical encoding of [(a + b) mod l] for all
    32-byte [a] and [b], reduced or not, without overflow. *)
Lemma sc_add_ok a b :
  bytes a → length a = 32%nat → bytes b → length b = 32%nat →
  sc_add a b = Some (le_split 32 ((le_combine a + le_combine b) mod L)).
Proof.
  intros Ha La Hb Lb. unfold sc_add.
  destruct (zip_chk Z.add iadd (load_bounds 11 256) (load_bounds 11 256)
    (sc_load a) (sc_load b)) as [-> W]; [apply inb_add|auto with limbs..|done|].
  cbn [mbind option_bind].
  eapply round_spec in W as (r & -> & E); [|vm_compute; reflexivity..].
  cbn [mbind option_bind].
  rewrite E, eval_zip_with; [|intros; ring|intros; ring|done|by rewrite length_sc_load..].
  by rewrite !eval_load32.
Qed.

(** [sc_sub] returns the canonical encoding of [(a - b) mod l] for all
    32-byte [a] and [b], also when the difference is negative, without overflow. *)
Lemma sc_sub_ok a b :
  bytes a → length a = 32%nat → bytes b → length b = 32%nat →
  sc_sub a b = Some (le_split 32 ((le_combine a - le_combine b) mod L)).
Proof.
  intros Ha La Hb Lb. unfold sc_sub.
  destruct (zip_chk Z.sub isub (load_bounds 11 256) (load_bounds 11 256)
    (sc_load a) (sc_load b)) as [-> W]; [apply inb_sub|auto with limbs..|done|].
  cbn [mbind option_bind].
  eapply round_spec in W as (r & -> & E); [|vm_compute; reflexivity..].
  cbn [mbind option_bind].
  rewrite E, eval_zip_with; [|intros; ring|intros; ring|done|by rewrite length_sc_load..].
  by rewrite !eval_load32.
Qed.

(** ** Multiplication *)

Definition psum (ps : list (Z * Z)) : Z := foldr (λ p acc, p.1 * p.2 + acc) 0 ps.

Definition pair_le (p q : Z * Z) : Prop := 0 ≤ p.1 ≤ q.1 ∧ 0 ≤ p.2 ≤ q.2.

Lemma psum_le ps qs : Forall2 pair_le ps qs → 0 ≤ psum ps ≤ psum qs.
Proof.
  induction 1 as [|p q ps qs [Hp Hq] _ IH]; cbn [psum foldr]; [lia|].
  fold (psum ps) (psum qs). nia.
Qed.

Lemma dot_from_ok acc top ps qs :
  0 ≤ acc ≤ top → Forall2 pair_le ps qs → fits 64 (top + psum qs) = true →
  dot_from acc ps = Some (acc + psum ps).
Proof.
  intros Ha Hps. revert acc top Ha.
  induction Hps as [|[x y] [u v] ps qs [Hx Hy] Hps IH]; intros acc top Ha Hf.
  { cbn. by rewrite Z.add_0_r. }
  cbn [dot_from psum foldr fst snd] in *. fold (psum ps) (psum qs) in *.
  pose proof (psum_le _ _ Hps). assert (0 ≤ x * y ≤ u * v) by nia.
  assert (∀ z, 0 ≤ z ≤ top + (u * v + psum qs) → fits 64 z = true) as Hz.
  { intros z Hz. by apply (fits_between 64 0 z _ eq_refl Hf). }
  rewrite chk_Some by (apply Hz; lia). cbn [mbind option_bind].
  rewrite chk_Some by (apply Hz; lia). cbn [mbind option_bind].
  rewrite (IH _ (top + u * v)); [f_equal; lia|lia|].
  by rewrite <- Z.add_assoc.
Qed.

Lemma dot_ok ps qs :
  Forall2 pair_le ps qs → fits 64 (psum qs) = true → dot ps = Some (psum ps).
Proof.
  destruct 1 as [|[x y] [u v] ps qs [Hx Hy] Hps]; intros Hf; [done|].
  cbn [dot psum foldr fst snd] in *. fold (psum ps) (psum qs) in *.
  pose proof (psum_le _ _ Hps). assert (0 ≤ x * y ≤ u * v) by nia.
  rewrite chk_Some by (apply (fits_between 64 0 _ _ eq_refl Hf); lia).
  cbn [mbind option_bind]. by apply (dot_from_ok _ (u * v) _ qs).
Qed.

(** The largest limbs of a loaded scalar. *)
Definition max_limbs : list Z := (load_bounds 11 256).*2.

Lemma loaded_le a i :
  within (load_bounds 11 256) a → (i < 12)%nat → 0 ≤ a !!! i ≤ max_limbs !!! i.
Proof.
  intros Ha Hi. apply (within_lookup _ _ i) in Ha; [|done].
  unfold max_limbs. do 12 (destruct i as [|i]; [exact Ha|]). lia.
Qed.

Lemma row_le a b k :
  within (load_bounds 11 256) a → within (load_bounds 11 256) b → (k < 23)%nat →
  Forall2 pair_le (row a b k) (row max_limbs max_limbs k).
Proof.
  intros Ha Hb Hk. unfold row. apply Forall2_fmap, Forall_Forall2_diag.
  apply Forall_forall. intros i Hi%in_seq.
  split; apply loaded_le; (done || lia).
Qed.

Lemma row_dot a b k :
  within (load_bounds 11 256) a → within (load_bounds 11 256) b → (k < 23)%nat →
  dot (row a b k) = Some (psum (row a b k)) ∧
  0 ≤ psum (row a b k) ≤ psum (row max_limbs max_limbs k).
Proof.
  intros Ha Hb Hk. pose proof (row_le a b k Ha Hb Hk) as Hr.
  split; [|by apply psum_le]. apply (dot_ok _ _ Hr).
  do 23 (destruct k as [|k]; [reflexivity|]). lia.
Qed.

(** The intervals of the rows, and of the limbs that the three products leave. *)
Definition row_b (k : nat) : Z * Z := (0, psum (row max_limbs max_limbs k)).

Definition mul_bounds : bounds := (row_b <$> seq 0 23) ++ [(0, 0)].

Definition muladd_bounds : bounds :=
  ((λ k, iadd (load_bounds 11 256 !!! k) (row_b k)) <$> seq 0 12) ++
  (row_b <$> seq 12 11) ++ [(0, 0)].

Definition mulsub_bounds : bounds :=
  ((λ k, isub (load_bounds 11 256 !!! k) (row_b k)) <$> seq 0 12) ++
  ((λ k, isub (0, 0) (row_b k)) <$> seq 12 11) ++ [(0, 0)].

(** Evaluates the weights of a goal about explicit limbs. *)
Ltac eval_weights :=
  repeat match goal with |- context [2 ^ wt21 ?k] =>
    let w := eval vm_compute in (2 ^ wt21 k) in change (2 ^ wt21 k) with w end.

Ltac case_limbs a H :=
  do 12 (destruct a as [|? a]; [discriminate H|]); destruct a; [|discriminate H].

(** Schoolbook multiplication: the rows of products are the limbs of the product. *)
Lemma rows_eval a b :
  length a = 12%nat → length b = 12%nat →
  eval21 23 ((λ k, psum (row a b k)) <$> seq 0 23) = eval21 12 a * eval21 12 b.
Proof.
  intros La Lb. case_limbs a La. case_limbs b Lb.
  cbn -[Z.mul Z.add Z.pow wt21]. eval_weights. ring.
Qed.

Lemma muladd_eval (f : nat → Z) c :
  length c = 12%nat →
  eval21 24 (((λ k, c !!! k + f k) <$> seq 0 12) ++ (f <$> seq 12 11) ++ [0]) =
  eval21 12 c + eval21 23 (f <$> seq 0 23).
Proof. intros Lc. case_limbs c Lc. cbn -[Z.mul Z.add Z.pow wt21]. eval_weights. ring. Qed.

Lemma mulsub_eval (f : nat → Z) c :
  length c = 12%nat →
  eval21 24 (((λ k, c !!! k - f k) <$> seq 0 12) ++ ((λ k, 0 - f k) <$> seq 12 11) ++ [0])
  = eval21 12 c - eval21 23 (f <$> seq 0 23).
Proof.
  intros Lc. case_limbs c Lc. cbn -[Z.mul Z.add Z.sub Z.pow wt21]. eval_weights. ring.
Qed.

Lemma fmap_within (B : nat → Z * Z) (f : nat → Z) i n :
  (∀ k, (i ≤ k < i + n)%nat → inb (B k) (f k)) → within (B <$> seq i n) (f <$> seq i n).
Proof.
  intros H. apply Forall2_fmap, Forall_Forall2_diag, Forall_forall.
  intros k Hk%in_seq. by apply H.
Qed.

Lemma within_0 : within [(0, 0)] [0].
Proof. repeat constructor; cbn; lia. Qed.

Lemma chk_row (B : nat → Z * Z) i n k x :
  all_fit (B <$> seq i n) = true → (i ≤ k < i + n)%nat → inb (B k) x →
  chk 64 x = Some x.
Proof.
  unfold all_fit. rewrite forallb_forall. intros Hf Hk Hx.
  specialize (Hf (B k)). apply chk_Some.
  assert (In (B k) (B <$> seq i n)) as HI by (by apply in_map, in_seq).
  apply Hf, andb_true_iff in HI as [H1 H2]. by apply (fits_between 64 _ _ _ H1 H2).
Qed.

Section products.
Context (a b c : list Z).
Context (Ha : within (load_bounds 11 256) a) (Hb : within (load_bounds 11 256) b).
Context (Hc : within (load_bounds 11 256) c).
Let f (k : nat) : Z := psum (row a b k).

Lemma row_f k : (k < 23)%nat → dot (row a b k) = Some (f k) ∧ inb (row_b k) (f k).
Proof. apply (row_dot a b k Ha Hb). Qed.

Lemma limb_c k : (k < 12)%nat → inb (load_bounds 11 256 !!! k) (c !!! k).
Proof. intros Hk. by apply (within_lookup _ _ k Hc). Qed.

Lemma rows_f : eval21 23 (f <$> seq 0 23) = eval21 12 a * eval21 12 b.
Proof. apply rows_eval; [by rewrite <- (Forall2_length Ha)|by rewrite <- (Forall2_length Hb)]. Qed.

Lemma hi_rows i n :
  (i + n ≤ 23)%nat → mapM (λ k, dot (row a b k)) (seq i n) = Some (f <$> seq i n).
Proof.
  intros Hn. apply mapM_fmap. intros k Hk%elem_of_seq.
  by destruct (row_f k) as [-> _]; [lia|].
Qed.

(** A row combined with the limb of [c] by a checked operation. *)
Lemma lo_rows (op : Z → Z → Z) iop g i n :
  (∀ p q x y, inb p x → inb q y → inb (iop p q) (op x y)) →
  (i + n ≤ 23)%nat →
  (∀ k, (i ≤ k < i + n)%nat → inb (g k).1 (g k).2) →
  all_fit ((λ k, iop (g k).1 (row_b k)) <$> seq i n) = true →
  mapM (λ k, d ← dot (row a b k); chk 64 (op (g k).2 d)) (seq i n) =
    Some ((λ k, op (g k).2 (f k)) <$> seq i n) ∧
  within ((λ k, iop (g k).1 (row_b k)) <$> seq i n) ((λ k, op (g k).2 (f k)) <$> seq i n).
Proof.
  intros Hop Hn Hg Hf. split.
  - apply mapM_fmap. intros k Hk%elem_of_seq.
    destruct (row_f k) as [-> Hr]; [lia|]. cbn [mbind option_bind].
    apply (chk_row _ i n k _ Hf); [lia|]. apply Hop; [apply Hg; lia|done].
  - apply fmap_within. intros k Hk. apply Hop; [by apply Hg|apply row_f; lia].
Qed.

Lemma sc_mul_limbs_ok :
  ∃ s, sc_mul_limbs a b = Some s ∧ within mul_bounds s ∧
    eval21 24 s = eval21 12 a * eval21 12 b.
Proof.
  unfold sc_mul_limbs. rewrite hi_rows by lia.
  eexists. split_and!; [done|..].
  - apply Forall2_app; [|apply within_0]. apply fmap_within.
    intros k Hk. apply row_f. lia.
  - rewrite (eval_snoc_0 23) by done. apply rows_f.
Qed.

Lemma sc_muladd_limbs_ok :
  ∃ s, sc_muladd_limbs a b c = Some s ∧ within muladd_bounds s ∧
    eval21 24 s = eval21 12 c + eval21 12 a * eval21 12 b.
Proof.
  unfold sc_muladd_limbs.
  destruct (lo_rows Z.add iadd (λ k, (load_bounds 11 256 !!! k, c !!! k)) 0 12)
    as [E W]; [apply inb_add|lia|intros; apply limb_c; lia|done|].
  cbn [fst snd] in E. rewrite E, hi_rows by lia.
  eexists. split_and!; [done|..].
  - apply Forall2_app; [apply W|]. apply Forall2_app; [|apply within_0].
    apply fmap_within. intros k Hk. apply row_f. lia.
  - rewrite <- rows_f. apply muladd_eval. by rewrite <- (Forall2_length Hc).
Qed.

Lemma sc_mulsub_limbs_ok :
  ∃ s, sc_mulsub_limbs a b c = Some s ∧ within mulsub_bounds s ∧
    eval21 24 s = eval21 12 c - eval21 12 a * eval21 12 b.
Proof.
  unfold sc_mulsub_limbs.
  destruct (lo_rows Z.sub isub (λ k, (load_bounds 11 256 !!! k, c !!! k)) 0 12)
    as [E1 W1]; [apply inb_sub|lia|intros; apply limb_c; lia|done|].
  destruct (lo_rows Z.sub isub (λ _, ((0, 0), 0)) 12 11)
    as [_ W2]; [apply inb_sub|lia|intros; apply inb_const|done|].
  destruct (lo_rows Z.sub isub (λ _, ((0, 0), 0)) 12 10)
    as [E2 _]; [apply inb_sub|lia|intros; apply inb_const|done|].
  cbn [fst snd] in E1, E2.
  change (λ k, d ← dot (row a b k); chk 64 (0 - d)) with
    (λ k, d ← dot (row a b k); chk 64 (- d)) in E2.
  rewrite E1, E2. cbn [mbind option_bind].
  pose proof (loaded_le a 11 Ha ltac:(lia)) as Ha11.
  pose proof (loaded_le b 11 Hb ltac:(lia)) as Hb11.
  change (max_limbs !!! 11%nat) with 33554431 in Ha11, Hb11.
  rewrite (chk_Some 64 (- _)) by (apply fits_spec; lia). cbn [mbind option_bind].
  rewrite (chk_Some 64 (_ * _)) by (apply fits_spec; nia). cbn [mbind option_bind].
  assert (- a !!! 11%nat * b !!! 11%nat = 0 - f 22) as E22 by (unfold f; cbn; lia).
  eexists. split_and!; [done|..].
  - apply Forall2_app; [apply W1|]. rewrite E22. exact (Forall2_app W2 within_0).
  - rewrite <- rows_f, E22. apply (mulsub_eval f c). by rewrite <- (Forall2_length Hc).
Qed.
End products.

(** The carries and folds after the products. *)
Lemma mul_reduce_spec B B' s :
  abs_of (sc_mul_round >> sc_reduce_high >> sc_reduce_low) B = Some B' →
  tail_ok B' = true → length B = 24%nat → within B s →
  ∃ r, sc_mul_reduce s = Some r ∧ sc_store r = le_split 32 (eval21 24 s mod L).
Proof.
  intros Ha Ht HN HB. unfold sc_mul_reduce.
  apply (reduce_spec _ B 24 B'); [done| |done|lia|done].
  rewrite HN. vm_compute. reflexivity.
Qed.

Ltac finish_product W :=
  eapply mul_reduce_spec in W as (? & -> & E); [|vm_compute; reflexivity..];
  cbn [mbind option_bind]; rewrite E; do 2 f_equal.

(** [sc_mul] returns the canonical encoding of [(a * b) mod l] for all
    32-byte [a] and [b], without overflow. *)
Lemma sc_mul_ok a b :
  bytes a → length a = 32%nat → bytes b → length b = 32%nat →
  sc_mul a b = Some (le_split 32 ((le_combine a * le_combine b) mod L)).
Proof.
  intros Ha La Hb Lb. unfold sc_mul.
  destruct (sc_mul_limbs_ok (sc_load a) (sc_load b)) as (s & -> & W & Es);
    [auto with limbs..|]. cbn [mbind option_bind].
  finish_product W. by rewrite Es, !eval_load32.
Qed.

(** [sc_muladd] returns the canonical encoding of [(c + a*b) mod l] for all
    32-byte [a], [b] and [c], without overflow in the products, folds and carries. *)
Lemma sc_muladd_ok a b c :
  bytes a → length a = 32%nat → bytes b → length b = 32%nat →
  bytes c → length c = 32%nat →
  sc_muladd a b c =
    Some (le_split 32 ((le_combine c + le_combine a * le_combine b) mod L)).
Proof.
  intros Ha La Hb Lb Hc Lc. unfold sc_muladd.
  destruct (sc_muladd_limbs_ok (sc_load a) (sc_load b) (sc_load c))
    as (s & -> & W & Es); [auto with limbs..|]. cbn [mbind option_bind].
  finish_product W. by rewrite Es, !eval_load32.
Qed.

(** [sc_mulsub] returns the canonical encoding of [(c - a*b) mod l] for all
    32-byte [a], [b] and [c], without overflow. *)
Lemma sc_mulsub_ok a b c :
  bytes a → length a = 32%nat → bytes b → length b = 32%nat →
  bytes c → length c = 32%nat →
  sc_mulsub a b c =
    Some (le_split 32 ((le_combine c - le_combine a * le_combine b) mod L)).
Proof.
  intros Ha La Hb Lb Hc Lc. unfold sc_mulsub.
  destruct (sc_mulsub_limbs_ok (sc_load a) (sc_load b) (sc_load c))
    as (s & -> & W & Es); [auto with limbs..|]. cbn [mbind option_bind].
  finish_product W. by rewrite Es, !eval_load32.
Qed.

(** ** [sc_check]: comparison with [l] from the top word down *)

Definition word_range (x : Z) : Prop := 0 ≤ x < 2 ^ 32.

Fixpoint val32 (xs : list Z) : Z :=
  match xs with [] => 0 | x :: xs' => x + 2 ^ 32 * val32 xs' end.

(** [signum(t0 - x0) + (signum(t1 - x1) << 1) + ...] *)
Fixpoint wsum (ts xs : list Z) : Z :=
  match ts, xs with
  | t :: ts', x :: xs' => signum (t - x) + 2 * wsum ts' xs'
  | _, _ => 0
  end.

(** The weighted sum of the signs has the sign of the difference: a difference
    in a higher word outweighs all the lower ones. *)
Lemma wsum_sign ts xs :
  length ts = length xs → Forall word_range ts → Forall word_range xs →
  Z.abs (wsum ts xs) < 2 ^ Z.of_nat (length ts) ∧
  (wsum ts xs < 0 ↔ val32 ts < val32 xs) ∧ (0 < wsum ts xs ↔ val32 xs < val32 ts).
Proof.
  intros Hl Ht. revert xs Hl. induction Ht as [|t ts Ht _ IH]; intros xs Hl Hx.
  { destruct xs; [cbn; lia|done]. }
  destruct xs as [|x xs]; [done|]. apply Forall_cons_1 in Hx as [Hx Hxs].
  destruct (IH xs ltac:(cbn in Hl; lia) Hxs) as (Ha & Hn & Hp).
  cbn [length wsum val32]. rewrite Nat2Z.inj_succ, Z.pow_succ_r by lia.
  unfold word_range in *. unfold signum.
  destruct (Z.ltb_spec 0 (t - x)); [lia|]. destruct (Z.ltb_spec (t - x) 0); lia.
Qed.

Definition check_words : list Z :=
  [1559614444; 1477600026; 2734136534; 350157278; 0; 0; 0; 268435456].

Definition words (s : list Z) : list Z := load_4 s <$> [0; 4; 8; 12; 16; 20; 24; 28]%nat.

Lemma words_range s : bytes s → length s = 32%nat → Forall word_range (words s).
Proof.
  intros Hs Hl. unfold words. cbn [fmap list_fmap].
  repeat constructor; rewrite load_4_spec by (done || lia); apply Z.mod_pos_bound; lia.
Qed.

Lemma val32_words s : bytes s → length s = 32%nat → val32 (words s) = le_combine s.
Proof.
  intros Hs Hl. unfold words. cbn [fmap list_fmap val32].
  rewrite !load_4_spec by (done || lia).
  pose proof (le_combine_bound s Hs) as Hb. rewrite Hl in Hb.
  assert (∀ k k', 0 ≤ k → k' = k + 32 → le_combine s / 2 ^ k =
    (le_combine s / 2 ^ k) mod 2 ^ 32 + 2 ^ 32 * (le_combine s / 2 ^ k')) as D.
  { intros k ? Hk ->. rewrite <- div_pow2_pow2 by lia.
    pose proof (Z.div_mod (le_combine s / 2 ^ k) (2 ^ 32)). lia. }
  transitivity (le_combine s / 2 ^ 0); [|apply Z.div_1_r].
  rewrite (D 0 32), (D 32 64), (D 64 96), (D 96 128), (D 128 160), (D 160 192),
    (D 192 224), (D 224 256) by lia.
  rewrite (Z.div_small (le_combine s) (2 ^ 256)) by (split; [lia|apply Hb]).
  reflexivity.
Qed.

(** [sc_check] returns 0 exactly for the 32-byte strings below the group
    order [l] and -1 for all others: it accepts canonical scalars only. *)
Lemma sc_check_ok s :
  bytes s → length s = 32%nat →
  sc_check s = if le_combine s <? L then 0 else -1.
Proof.
  intros Hs Hl. rewrite <- val32_words by done.
  destruct (wsum_sign check_words (words s)) as (Ha & Hn & _);
    [done| |by apply words_range|].
  { unfold check_words, word_range. repeat constructor; lia. }
  change (val32 check_words) with (L - 1) in Hn.
  assert (sc_check s = Z.shiftr (wsum check_words (words s)) 8) as ->.
  { unfold sc_check, check_words, words. cbn [wsum fmap list_fmap].
    change (- load_4 s 16) with (0 - load_4 s 16).
    change (- load_4 s 20) with (0 - load_4 s 20).
    change (- load_4 s 24) with (0 - load_4 s 24).
    f_equal. rewrite !Z.shiftl_mul_pow2 by lia. ring. }
  rewrite Z.shiftr_div_pow2 by lia. change (2 ^ Z.of_nat (length check_words)) with 256 in Ha.
  destruct (Z.ltb_spec (val32 (words s)) L); [rewrite Z.div_small; lia|].
  zlia.
Qed.

(** ** [sc_isnonzero] *)

(** [sc_isnonzero] returns 0 for the all-zero string and 1 for every other
    32-byte string. *)
Lemma sc_isnonzero_ok s :
  bytes s → length s = 32%nat →
  sc_isnonzero s = if le_combine s =? 0 then 0 else 1.
Proof.
  intros Hs Hl. unfold sc_isnonzero, or_bytes. rewrite take_ge by lia.
  destruct (foldl_lor 0 s) as [H1 H2]; [lia|done|].
  rewrite Z.shiftr_div_pow2 by lia. destruct (Z.eqb_spec (le_combine s) 0); zlia.
Qed.

(** ** The properties of the scalar functions *)

(** [sc_reduce] and [sc_reduce32] return the canonical 32-byte encoding of
    their argument modulo the group order [l], for every 64-byte and every
    32-byte string; no [int64_t] operation of the loads, folds and carries
    overflows. *)
Theorem sc_reduce_spec s :
  bytes s →
  (length s = 64%nat → sc_reduce s = Some (le_split 32 (le_combine s mod L))) ∧
  (length s = 32%nat → sc_reduce32 s = Some (le_split 32 (le_combine s mod L))).
Proof. split; [by apply sc_reduce_ok|by apply sc_reduce32_ok]. Qed.

(** [sc_add] and [sc_sub] return the canonical encodings of [(a + b) mod l]
    and [(a - b) mod l] for all 32-byte [a] and [b], reduced or not, also when
    the difference is negative, without overflow. *)
Theorem sc_add_sub_spec a b :
  bytes a → length a = 32%nat → bytes b → length b = 32%nat →
  sc_add a b = Some (le_split 32 ((le_combine a + le_combine b) mod L)) ∧
  sc_sub a b = Some (le_split 32 ((le_combine a - le_combine b) mod L)).
Proof. split; [by apply sc_add_ok|by apply sc_sub_ok]. Qed.

(** [sc_mul], [sc_muladd] and [sc_mulsub] return the canonical encodings of
    [(a * b) mod l], [(c + a * b) mod l] and [(c - a * b) mod l] for all 32-byte
    [a], [b] and [c], without overflow in the products, folds and carries. *)
Theorem sc_mul_spec a b c :
  bytes a → length a = 32%nat → bytes b → length b = 32%nat →
  bytes c → length c = 32%nat →
  sc_mul a b = Some (le_split 32 ((le_combine a * le_combine b) mod L)) ∧
  sc_muladd a b c =
    Some (le_split 32 ((le_combine c + le_combine a * le_combine b) mod L)) ∧
  sc_mulsub a b c =
    Some (le_split 32 ((le_combine c - le_combine a * le_combine b) mod L)).
Proof. intros. split_and!; [by apply sc_mul_ok|by apply sc_muladd_ok|by apply sc_mulsub_ok]. Qed.

(** [sc_check] returns 0 exactly for the 32-byte strings below the group
    order [l] and -1 for all others, so it accepts canonical scalars only;
    [sc_isnonzero] returns 0 for the all-zero string and 1 for every other. *)
Theorem sc_check_spec s :
  bytes s → length s = 32%nat →
  sc_check s = (if le_combine s <? L then 0 else -1) ∧
  sc_isnonzero s = if le_combine s =? 0 then 0 else 1.
Proof. split; [by apply sc_check_ok|by apply sc_isnonzero_ok]. Qed.

(** ** Witnesses *)

Definition ff32 : list Z := replicate 32 255.

Lemma bytes_ff n : bytes (replicate n 255).
Proof. apply Forall_replicate. lia. Qed.

Lemma sc_reduce_witness :
  sc_reduce (replicate 64 255) = Some (le_split 32 (le_combine (replicate 64 255) mod L)) ∧
  sc_reduce32 ff32 = Some (le_split 32 (le_combine ff32 mod L)).
Proof.
  split; [apply (sc_reduce_spec (replicate 64 255))|apply (sc_reduce_spec ff32)];
    (apply bytes_ff || reflexivity).
Defined.

Lemma sc_add_sub_witness :
  sc_add sc_0 ff32 = Some (le_split 32 ((le_combine sc_0 + le_combine ff32) mod L)) ∧
  sc_sub sc_0 ff32 = Some (le_split 32 ((le_combine sc_0 - le_combine ff32) mod L)).
Proof.
  apply sc_add_sub_spec; [|reflexivity|apply bytes_ff|reflexivity].
  apply Forall_replicate. lia.
Defined.

Lemma sc_mul_witness :
  sc_mul ff32 ff32 = Some (le_split 32 ((le_combine ff32 * le_combine ff32) mod L)) ∧
  sc_muladd ff32 ff32 ff32 =
    Some (le_split 32 ((le_combine ff32 + le_combine ff32 * le_combine ff32) mod L)) ∧
  sc_mulsub ff32 ff32 ff32 =
    Some (le_split 32 ((le_combine ff32 - le_combine ff32 * le_combine ff32) mod L)).
Proof. apply sc_mul_spec; (apply bytes_ff || reflexivity). Defined.

Lemma sc_check_witness :
  sc_check (le_split 32 L) = (if le_combine (le_split 32 L) <? L then 0 else -1) ∧
  sc_isnonzero (le_split 32 L) = (if le_combine (le_split 32 L) =? 0 then 0 else 1).
Proof. apply sc_check_spec; [apply bytes_le_split|apply length_le_split]. Defined.
