(* ===== verification/Field.v ===== *)
(** * The field of 2^255 - 19: the [fe_*] functions of [crypto-ops.c]

    A field element is ten [int32_t] limbs in the radix [2^25.5]: limb [i] has
    the weight [2^ceil(25.5 i)].  The representation is redundant and signed.
    Products are computed in [int64_t] and carried back to small limbs.  The
    theorems say that every operation computes the field operation modulo
    [2^255 - 19], keeps the bounds that the comments in the source promise, and
    never overflows a signed type within those bounds. *)

From S2P Require Export Limbs.

Local Open Scope Z_scope.
Local Open Scope stmt_scope.

(** ** Constants, copies and moves *)

Definition fe_0 : list Z := [0; 0; 0; 0; 0; 0; 0; 0; 0; 0].
Definition fe_1 : list Z := [1; 0; 0; 0; 0; 0; 0; 0; 0; 0].
Definition fe_copy (f : list Z) : list Z := f.

(** The assertion of [fe_cmov] on its selector, an [unsigned int]. *)
Definition cmov_assert (b : Z) : bool :=
  let not x := uwrap 32 (Z.lnot x) in
  Z.lor (Z.land (uwrap 32 (b - 1)) (not b))
        (Z.land (uwrap 32 (b - 2)) (not (uwrap 32 (b - 1)))) =? uwrap 32 (-1).

(** [x = f ^ g; b = -b; x &= b; f ^= x], limb by limb: [x] is converted to
    [unsigned int] for the [&=] and back. *)
Definition cmov_limb (m f g : Z) : Z :=
  Z.lxor f (swrap 32 (Z.land (uwrap 32 (Z.lxor f g)) m)).

Definition fe_cmov (f g : list Z) (b : Z) : option (list Z) :=
  if cmov_assert b then Some (zip_with (cmov_limb (uwrap 32 (- b))) f g) else None.

(** ** Addition, subtraction, negation *)

Definition fe_add (f g : list Z) : option (list Z) :=
  mapM (λ '(x, y), chk 32 (x + y)) (zip f g).

Definition fe_sub (f g : list Z) : option (list Z) :=
  mapM (λ '(x, y), chk 32 (x - y)) (zip f g).

Definition fe_neg (f : list Z) : option (list Z) :=
  mapM (λ x, chk 32 (- x)) f.

(** ** Multiplication and squaring *)

(** [x0 + x1 + ...], evaluated from the left in [int64_t]. *)
Fixpoint sum_from (acc : Z) (xs : list Z) : option Z :=
  match xs with
  | [] => Some acc
  | x :: xs' => acc' ← chk 64 (acc + x); sum_from acc' xs'
  end.

Definition sum64 (xs : list Z) : option Z :=
  match xs with [] => Some 0 | x :: xs' => sum_from x xs' end.

Definition fe_mul_products (f g : list Z) : option (list Z) :=
  let f0 := f !!! 0%nat in
  let f1 := f !!! 1%nat in
  let f2 := f !!! 2%nat in
  let f3 := f !!! 3%nat in
  let f4 := f !!! 4%nat in
  let f5 := f !!! 5%nat in
  let f6 := f !!! 6%nat in
  let f7 := f !!! 7%nat in
  let f8 := f !!! 8%nat in
  let f9 := f !!! 9%nat in
  let g0 := g !!! 0%nat in
  let g1 := g !!! 1%nat in
  let g2 := g !!! 2%nat in
  let g3 := g !!! 3%nat in
  let g4 := g !!! 4%nat in
  let g5 := g !!! 5%nat in
  let g6 := g !!! 6%nat in
  let g7 := g !!! 7%nat in
  let g8 := g !!! 8%nat in
  let g9 := g !!! 9%nat in
  g1_19 ← chk 32 (19 * g1);
  g2_19 ← chk 32 (19 * g2);
  g3_19 ← chk 32 (19 * g3);
  g4_19 ← chk 32 (19 * g4);
  g5_19 ← chk 32 (19 * g5);
  g6_19 ← chk 32 (19 * g6);
  g7_19 ← chk 32 (19 * g7);
  g8_19 ← chk 32 (19 * g8);
  g9_19 ← chk 32 (19 * g9);
  f1_2 ← chk 32 (2 * f1);
  f3_2 ← chk 32 (2 * f3);
  f5_2 ← chk 32 (2 * f5);
  f7_2 ← chk 32 (2 * f7);
  f9_2 ← chk 32 (2 * f9);
  f0g0 ← chk 64 (f0 * g0);
  f0g1 ← chk 64 (f0 * g1);
  f0g2 ← chk 64 (f0 * g2);
  f0g3 ← chk 64 (f0 * g3);
  f0g4 ← chk 64 (f0 * g4);
  f0g5 ← chk 64 (f0 * g5);
  f0g6 ← chk 64 (f0 * g6);
  f0g7 ← chk 64 (f0 * g7);
  f0g8 ← chk 64 (f0 * g8);
  f0g9 ← chk 64 (f0 * g9);
  f1g0 ← chk 64 (f1 * g0);
  f1g1_2 ← chk 64 (f1_2 * g1);
  f1g2 ← chk 64 (f1 * g2);
  f1g3_2 ← chk 64 (f1_2 * g3);
  f1g4 ← chk 64 (f1 * g4);
  f1g5_2 ← chk 64 (f1_2 * g5);
  f1g6 ← chk 64 (f1 * g6);
  f1g7_2 ← chk 64 (f1_2 * g7);
  f1g8 ← chk 64 (f1 * g8);
  f1g9_38 ← chk 64 (f1_2 * g9_19);
  f2g0 ← chk 64 (f2 * g0);
  f2g1 ← chk 64 (f2 * g1);
  f2g2 ← chk 64 (f2 * g2);
  f2g3 ← chk 64 (f2 * g3);
  f2g4 ← chk 64 (f2 * g4);
  f2g5 ← chk 64 (f2 * g5);
  f2g6 ← chk 64 (f2 * g6);
  f2g7 ← chk 64 (f2 * g7);
  f2g8_19 ← chk 64 (f2 * g8_19);
  f2g9_19 ← chk 64 (f2 * g9_19);
  f3g0 ← chk 64 (f3 * g0);
  f3g1_2 ← chk 64 (f3_2 * g1);
  f3g2 ← chk 64 (f3 * g2);
  f3g3_2 ← chk 64 (f3_2 * g3);
  f3g4 ← chk 64 (f3 * g4);
  f3g5_2 ← chk 64 (f3_2 * g5);
  f3g6 ← chk 64 (f3 * g6);
  f3g7_38 ← chk 64 (f3_2 * g7_19);
  f3g8_19 ← chk 64 (f3 * g8_19);
  f3g9_38 ← chk 64 (f3_2 * g9_19);
  f4g0 ← chk 64 (f4 * g0);
  f4g1 ← chk 64 (f4 * g1);
  f4g2 ← chk 64 (f4 * g2);
  f4g3 ← chk 64 (f4 * g3);
  f4g4 ← chk 64 (f4 * g4);
  f4g5 ← chk 64 (f4 * g5);
  f4g6_19 ← chk 64 (f4 * g6_19);
  f4g7_19 ← chk 64 (f4 * g7_19);
  f4g8_19 ← chk 64 (f4 * g8_19);
  f4g9_19 ← chk 64 (f4 * g9_19);
  f5g0 ← chk 64 (f5 * g0);
  f5g1_2 ← chk 64 (f5_2 * g1);
  f5g2 ← chk 64 (f5 * g2);
  f5g3_2 ← chk 64 (f5_2 * g3);
  f5g4 ← chk 64 (f5 * g4);
  f5g5_38 ← chk 64 (f5_2 * g5_19);
  f5g6_19 ← chk 64 (f5 * g6_19);
  f5g7_38 ← chk 64 (f5_2 * g7_19);
  f5g8_19 ← chk 64 (f5 * g8_19);
  f5g9_38 ← chk 64 (f5_2 * g9_19);
  f6g0 ← chk 64 (f6 * g0);
  f6g1 ← chk 64 (f6 * g1);
  f6g2 ← chk 64 (f6 * g2);
  f6g3 ← chk 64 (f6 * g3);
  f6g4_19 ← chk 64 (f6 * g4_19);
  f6g5_19 ← chk 64 (f6 * g5_19);
  f6g6_19 ← chk 64 (f6 * g6_19);
  f6g7_19 ← chk 64 (f6 * g7_19);
  f6g8_19 ← chk 64 (f6 * g8_19);
  f6g9_19 ← chk 64 (f6 * g9_19);
  f7g0 ← chk 64 (f7 * g0);
  f7g1_2 ← chk 64 (f7_2 * g1);
  f7g2 ← chk 64 (f7 * g2);
  f7g3_38 ← chk 64 (f7_2 * g3_19);
  f7g4_19 ← chk 64 (f7 * g4_19);
  f7g5_38 ← chk 64 (f7_2 * g5_19);
  f7g6_19 ← chk 64 (f7 * g6_19);
  f7g7_38 ← chk 64 (f7_2 * g7_19);
  f7g8_19 ← chk 64 (f7 * g8_19);
  f7g9_38 ← chk 64 (f7_2 * g9_19);
  f8g0 ← chk 64 (f8 * g0);
  f8g1 ← chk 64 (f8 * g1);
  f8g2_19 ← chk 64 (f8 * g2_19);
  f8g3_19 ← chk 64 (f8 * g3_19);
  f8g4_19 ← chk 64 (f8 * g4_19);
  f8g5_19 ← chk 64 (f8 * g5_19);
  f8g6_19 ← chk 64 (f8 * g6_19);
  f8g7_19 ← chk 64 (f8 * g7_19);
  f8g8_19 ← chk 64 (f8 * g8_19);
  f8g9_19 ← chk 64 (f8 * g9_19);
  f9g0 ← chk 64 (f9 * g0);
  f9g1_38 ← chk 64 (f9_2 * g1_19);
  f9g2_19 ← chk 64 (f9 * g2_19);
  f9g3_38 ← chk 64 (f9_2 * g3_19);
  f9g4_19 ← chk 64 (f9 * g4_19);
  f9g5_38 ← chk 64 (f9_2 * g5_19);
  f9g6_19 ← chk 64 (f9 * g6_19);
  f9g7_38 ← chk 64 (f9_2 * g7_19);
  f9g8_19 ← chk 64 (f9 * g8_19);
  f9g9_38 ← chk 64 (f9_2 * g9_19);
  h0 ← sum64 [f0g0; f1g9_38; f2g8_19; f3g7_38; f4g6_19; f5g5_38; f6g4_19; f7g3_38; f8g2_19; f9g1_38];
  h1 ← sum64 [f0g1; f1g0; f2g9_19; f3g8_19; f4g7_19; f5g6_19; f6g5_19; f7g4_19; f8g3_19; f9g2_19];
  h2 ← sum64 [f0g2; f1g1_2; f2g0; f3g9_38; f4g8_19; f5g7_38; f6g6_19; f7g5_38; f8g4_19; f9g3_38];
  h3 ← sum64 [f0g3; f1g2; f2g1; f3g0; f4g9_19; f5g8_19; f6g7_19; f7g6_19; f8g5_19; f9g4_19];
  h4 ← sum64 [f0g4; f1g3_2; f2g2; f3g1_2; f4g0; f5g9_38; f6g8_19; f7g7_38; f8g6_19; f9g5_38];
  h5 ← sum64 [f0g5; f1g4; f2g3; f3g2; f4g1; f5g0; f6g9_19; f7g8_19; f8g7_19; f9g6_19];
  h6 ← sum64 [f0g6; f1g5_2; f2g4; f3g3_2; f4g2; f5g1_2; f6g0; f7g9_38; f8g8_19; f9g7_38];
  h7 ← sum64 [f0g7; f1g6; f2g5; f3g4; f4g3; f5g2; f6g1; f7g0; f8g9_19; f9g8_19];
  h8 ← sum64 [f0g8; f1g7_2; f2g6; f3g5_2; f4g4; f5g3_2; f6g2; f7g1_2; f8g0; f9g9_38];
  h9 ← sum64 [f0g9; f1g8; f2g7; f3g6; f4g5; f5g4; f6g3; f7g2; f8g1; f9g0];
  Some [h0; h1; h2; h3; h4; h5; h6; h7; h8; h9].

Definition fe_sq_products (f : list Z) : option (list Z) :=
  let f0 := f !!! 0%nat in
  let f1 := f !!! 1%nat in
  let f2 := f !!! 2%nat in
  let f3 := f !!! 3%nat in
  let f4 := f !!! 4%nat in
  let f5 := f !!! 5%nat in
  let f6 := f !!! 6%nat in
  let f7 := f !!! 7%nat in
  let f8 := f !!! 8%nat in
  let f9 := f !!! 9%nat in
  f0_2 ← chk 32 (2 * f0);
  f1_2 ← chk 32 (2 * f1);
  f2_2 ← chk 32 (2 * f2);
  f3_2 ← chk 32 (2 * f3);
  f4_2 ← chk 32 (2 * f4);
  f5_2 ← chk 32 (2 * f5);
  f6_2 ← chk 32 (2 * f6);
  f7_2 ← chk 32 (2 * f7);
  f5_38 ← chk 32 (38 * f5);
  f6_19 ← chk 32 (19 * f6);
  f7_38 ← chk 32 (38 * f7);
  f8_19 ← chk 32 (19 * f8);
  f9_38 ← chk 32 (38 * f9);
  f0f0 ← chk 64 (f0 * f0);
  f0f1_2 ← chk 64 (f0_2 * f1);
  f0f2_2 ← chk 64 (f0_2 * f2);
  f0f3_2 ← chk 64 (f0_2 * f3);
  f0f4_2 ← chk 64 (f0_2 * f4);
  f0f5_2 ← chk 64 (f0_2 * f5);
  f0f6_2 ← chk 64 (f0_2 * f6);
  f0f7_2 ← chk 64 (f0_2 * f7);
  f0f8_2 ← chk 64 (f0_2 * f8);
  f0f9_2 ← chk 64 (f0_2 * f9);
  f1f1_2 ← chk 64 (f1_2 * f1);
  f1f2_2 ← chk 64 (f1_2 * f2);
  f1f3_4 ← chk 64 (f1_2 * f3_2);
  f1f4_2 ← chk 64 (f1_2 * f4);
  f1f5_4 ← chk 64 (f1_2 * f5_2);
  f1f6_2 ← chk 64 (f1_2 * f6);
  f1f7_4 ← chk 64 (f1_2 * f7_2);
  f1f8_2 ← chk 64 (f1_2 * f8);
  f1f9_76 ← chk 64 (f1_2 * f9_38);
  f2f2 ← chk 64 (f2 * f2);
  f2f3_2 ← chk 64 (f2_2 * f3);
  f2f4_2 ← chk 64 (f2_2 * f4);
  f2f5_2 ← chk 64 (f2_2 * f5);
  f2f6_2 ← chk 64 (f2_2 * f6);
  f2f7_2 ← chk 64 (f2_2 * f7);
  f2f8_38 ← chk 64 (f2_2 * f8_19);
  f2f9_38 ← chk 64 (f2 * f9_38);
  f3f3_2 ← chk 64 (f3_2 * f3);
  f3f4_2 ← chk 64 (f3_2 * f4);
  f3f5_4 ← chk 64 (f3_2 * f5_2);
  f3f6_2 ← chk 64 (f3_2 * f6);
  f3f7_76 ← chk 64 (f3_2 * f7_38);
  f3f8_38 ← chk 64 (f3_2 * f8_19);
  f3f9_76 ← chk 64 (f3_2 * f9_38);
  f4f4 ← chk 64 (f4 * f4);
  f4f5_2 ← chk 64 (f4_2 * f5);
  f4f6_38 ← chk 64 (f4_2 * f6_19);
  f4f7_38 ← chk 64 (f4 * f7_38);
  f4f8_38 ← chk 64 (f4_2 * f8_19);
  f4f9_38 ← chk 64 (f4 * f9_38);
  f5f5_38 ← chk 64 (f5 * f5_38);
  f5f6_38 ← chk 64 (f5_2 * f6_19);
  f5f7_76 ← chk 64 (f5_2 * f7_38);
  f5f8_38 ← chk 64 (f5_2 * f8_19);
  f5f9_76 ← chk 64 (f5_2 * f9_38);
  f6f6_19 ← chk 64 (f6 * f6_19);
  f6f7_38 ← chk 64 (f6 * f7_38);
  f6f8_38 ← chk 64 (f6_2 * f8_19);
  f6f9_38 ← chk 64 (f6 * f9_38);
  f7f7_38 ← chk 64 (f7 * f7_38);
  f7f8_38 ← chk 64 (f7_2 * f8_19);
  f7f9_76 ← chk 64 (f7_2 * f9_38);
  f8f8_19 ← chk 64 (f8 * f8_19);
  f8f9_38 ← chk 64 (f8 * f9_38);
  f9f9_38 ← chk 64 (f9 * f9_38);
  h0 ← sum64 [f0f0; f1f9_76; f2f8_38; f3f7_76; f4f6_38; f5f5_38];
  h1 ← sum64 [f0f1_2; f2f9_38; f3f8_38; f4f7_38; f5f6_38];
  h2 ← sum64 [f0f2_2; f1f1_2; f3f9_76; f4f8_38; f5f7_76; f6f6_19];
  h3 ← sum64 [f0f3_2; f1f2_2; f4f9_38; f5f8_38; f6f7_38];
  h4 ← sum64 [f0f4_2; f1f3_4; f2f2; f5f9_76; f6f8_38; f7f7_38];
  h5 ← sum64 [f0f5_2; f1f4_2; f2f3_2; f6f9_38; f7f8_38];
  h6 ← sum64 [f0f6_2; f1f5_4; f2f4_2; f3f3_2; f7f9_76; f8f8_19];
  h7 ← sum64 [f0f7_2; f1f6_2; f2f5_2; f3f4_2; f8f9_38];
  h8 ← sum64 [f0f8_2; f1f7_4; f2f6_2; f3f5_4; f4f4; f9f9_38];
  h9 ← sum64 [f0f9_2; f1f8_2; f2f7_2; f3f6_2; f4f5_2];
  Some [h0; h1; h2; h3; h4; h5; h6; h7; h8; h9].

Definition fe_sq2_products (f : list Z) : option (list Z) :=
  let f0 := f !!! 0%nat in
  let f1 := f !!! 1%nat in
  let f2 := f !!! 2%nat in
  let f3 := f !!! 3%nat in
  let f4 := f !!! 4%nat in
  let f5 := f !!! 5%nat in
  let f6 := f !!! 6%nat in
  let f7 := f !!! 7%nat in
  let f8 := f !!! 8%nat in
  let f9 := f !!! 9%nat in
  f0_2 ← chk 32 (2 * f0);
  f1_2 ← chk 32 (2 * f1);
  f2_2 ← chk 32 (2 * f2);
  f3_2 ← chk 32 (2 * f3);
  f4_2 ← chk 32 (2 * f4);
  f5_2 ← chk 32 (2 * f5);
  f6_2 ← chk 32 (2 * f6);
  f7_2 ← chk 32 (2 * f7);
  f5_38 ← chk 32 (38 * f5);
  f6_19 ← chk 32 (19 * f6);
  f7_38 ← chk 32 (38 * f7);
  f8_19 ← chk 32 (19 * f8);
  f9_38 ← chk 32 (38 * f9);
  f0f0 ← chk 64 (f0 * f0);
  f0f1_2 ← chk 64 (f0_2 * f1);
  f0f2_2 ← chk 64 (f0_2 * f2);
  f0f3_2 ← chk 64 (f0_2 * f3);
  f0f4_2 ← chk 64 (f0_2 * f4);
  f0f5_2 ← chk 64 (f0_2 * f5);
  f0f6_2 ← chk 64 (f0_2 * f6);
  f0f7_2 ← chk 64 (f0_2 * f7);
  f0f8_2 ← chk 64 (f0_2 * f8);
  f0f9_2 ← chk 64 (f0_2 * f9);
  f1f1_2 ← chk 64 (f1_2 * f1);
  f1f2_2 ← chk 64 (f1_2 * f2);
  f1f3_4 ← chk 64 (f1_2 * f3_2);
  f1f4_2 ← chk 64 (f1_2 * f4);
  f1f5_4 ← chk 64 (f1_2 * f5_2);
  f1f6_2 ← chk 64 (f1_2 * f6);
  f1f7_4 ← chk 64 (f1_2 * f7_2);
  f1f8_2 ← chk 64 (f1_2 * f8);
  f1f9_76 ← chk 64 (f1_2 * f9_38);
  f2f2 ← chk 64 (f2 * f2);
  f2f3_2 ← chk 64 (f2_2 * f3);
  f2f4_2 ← chk 64 (f2_2 * f4);
  f2f5_2 ← chk 64 (f2_2 * f5);
  f2f6_2 ← chk 64 (f2_2 * f6);
  f2f7_2 ← chk 64 (f2_2 * f7);
  f2f8_38 ← chk 64 (f2_2 * f8_19);
  f2f9_38 ← chk 64 (f2 * f9_38);
  f3f3_2 ← chk 64 (f3_2 * f3);
  f3f4_2 ← chk 64 (f3_2 * f4);
  f3f5_4 ← chk 64 (f3_2 * f5_2);
  f3f6_2 ← chk 64 (f3_2 * f6);
  f3f7_76 ← chk 64 (f3_2 * f7_38);
  f3f8_38 ← chk 64 (f3_2 * f8_19);
  f3f9_76 ← chk 64 (f3_2 * f9_38);
  f4f4 ← chk 64 (f4 * f4);
  f4f5_2 ← chk 64 (f4_2 * f5);
  f4f6_38 ← chk 64 (f4_2 * f6_19);
  f4f7_38 ← chk 64 (f4 * f7_38);
  f4f8_38 ← chk 64 (f4_2 * f8_19);
  f4f9_38 ← chk 64 (f4 * f9_38);
  f5f5_38 ← chk 64 (f5 * f5_38);
  f5f6_38 ← chk 64 (f5_2 * f6_19);
  f5f7_76 ← chk 64 (f5_2 * f7_38);
  f5f8_38 ← chk 64 (f5_2 * f8_19);
  f5f9_76 ← chk 64 (f5_2 * f9_38);
  f6f6_19 ← chk 64 (f6 * f6_19);
  f6f7_38 ← chk 64 (f6 * f7_38);
  f6f8_38 ← chk 64 (f6_2 * f8_19);
  f6f9_38 ← chk 64 (f6 * f9_38);
  f7f7_38 ← chk 64 (f7 * f7_38);
  f7f8_38 ← chk 64 (f7_2 * f8_19);
  f7f9_76 ← chk 64 (f7_2 * f9_38);
  f8f8_19 ← chk 64 (f8 * f8_19);
  f8f9_38 ← chk 64 (f8 * f9_38);
  f9f9_38 ← chk 64 (f9 * f9_38);
  h0 ← sum64 [f0f0; f1f9_76; f2f8_38; f3f7_76; f4f6_38; f5f5_38];
  h1 ← sum64 [f0f1_2; f2f9_38; f3f8_38; f4f7_38; f5f6_38];
  h2 ← sum64 [f0f2_2; f1f1_2; f3f9_76; f4f8_38; f5f7_76; f6f6_19];
  h3 ← sum64 [f0f3_2; f1f2_2; f4f9_38; f5f8_38; f6f7_38];
  h4 ← sum64 [f0f4_2; f1f3_4; f2f2; f5f9_76; f6f8_38; f7f7_38];
  h5 ← sum64 [f0f5_2; f1f4_2; f2f3_2; f6f9_38; f7f8_38];
  h6 ← sum64 [f0f6_2; f1f5_4; f2f4_2; f3f3_2; f7f9_76; f8f8_19];
  h7 ← sum64 [f0f7_2; f1f6_2; f2f5_2; f3f4_2; f8f9_38];
  h8 ← sum64 [f0f8_2; f1f7_4; f2f6_2; f3f5_4; f4f4; f9f9_38];
  h9 ← sum64 [f0f9_2; f1f8_2; f2f7_2; f3f6_2; f4f5_2];
  h0 ← chk 64 (h0 + h0);
  h1 ← chk 64 (h1 + h1);
  h2 ← chk 64 (h2 + h2);
  h3 ← chk 64 (h3 + h3);
  h4 ← chk 64 (h4 + h4);
  h5 ← chk 64 (h5 + h5);
  h6 ← chk 64 (h6 + h6);
  h7 ← chk 64 (h7 + h7);
  h8 ← chk 64 (h8 + h8);
  h9 ← chk 64 (h9 + h9);
  Some [h0; h1; h2; h3; h4; h5; h6; h7; h8; h9].

(** [carry_i = (h_i + (int64_t) (1<<25)) >> 26; h_(i+1) += carry_i; ...] for even
    [i], with 24 and 25 for odd [i]. *)
Definition carry26 (i : nat) : stmt := carry_gen 64 (2 ^ 25) 26 1 i (S i).
Definition carry25 (i : nat) : stmt := carry_gen 64 (2 ^ 24) 25 1 i (S i).

(** [carry9 = (h9 + (1<<24)) >> 25; h0 += carry9 * 19; h9 -= carry9 << 25] *)
Definition carry9_19 : stmt := carry_gen 64 (2 ^ 24) 25 19 9 0.

(** The twelve carries of [fe_mul], [fe_sq] and [fe_sq2]. *)
Definition fe_carry : stmt :=
  carry26 0 >> carry26 4 >>
  carry25 1 >> carry25 5 >>
  carry26 2 >> carry26 6 >>
  carry25 3 >> carry25 7 >>
  carry26 4 >> carry26 8 >>
  carry9_19 >>
  carry26 0.

(** [h[i] = h_i]: [int64_t] values stored into [int32_t]. *)
Definition store32 (h : list Z) : list Z := swrap 32 <$> h.

Definition fe_mul (f g : list Z) : option (list Z) :=
  h ← fe_mul_products f g; h ← fe_carry h; Some (store32 h).

Definition fe_sq (f : list Z) : option (list Z) :=
  h ← fe_sq_products f; h ← fe_carry h; Some (store32 h).

Definition fe_sq2 (f : list Z) : option (list Z) :=
  h ← fe_sq2_products f; h ← fe_carry h; Some (store32 h).

(** ** Encoding *)

(** [q = (h_i + q) >> k] *)
Definition q_step (h : list Z) (i : nat) (k q : Z) : option Z :=
  t ← chk 32 (h !!! i + q); Some (Z.shiftr t k).

Definition tobytes_q (h : list Z) : option Z :=
  p ← chk 32 (19 * h !!! 9%nat);
  t ← chk 32 (p + 2 ^ 24);
  let q := Z.shiftr t 25 in
  q ← q_step h 0 26 q;
  q ← q_step h 1 25 q;
  q ← q_step h 2 26 q;
  q ← q_step h 3 25 q;
  q ← q_step h 4 26 q;
  q ← q_step h 5 25 q;
  q ← q_step h 6 26 q;
  q ← q_step h 7 25 q;
  q ← q_step h 8 26 q;
  q_step h 9 25 q.

Definition tcarry26 (i : nat) : stmt := carry_gen 32 0 26 1 i (S i).
Definition tcarry25 (i : nat) : stmt := carry_gen 32 0 25 1 i (S i).

Definition tobytes_chain : stmt :=
  tcarry26 0 >> tcarry25 1 >> tcarry26 2 >> tcarry25 3 >> tcarry26 4 >>
  tcarry25 5 >> tcarry26 6 >> tcarry25 7 >> tcarry26 8 >> carry_drop 32 25 9.

Definition tobytes_store (h : list Z) : list Z :=
  [ b1 h 0 0; b1 h 0 8; b1 h 0 16; b2 h 0 24 1 2;
    b1 h 1 6; b1 h 1 14; b2 h 1 22 2 3;
    b1 h 2 5; b1 h 2 13; b2 h 2 21 3 5;
    b1 h 3 3; b1 h 3 11; b2 h 3 19 4 6;
    b1 h 4 2; b1 h 4 10; b1 h 4 18;
    b1 h 5 0; b1 h 5 8; b1 h 5 16; b2 h 5 24 6 1;
    b1 h 6 7; b1 h 6 15; b2 h 6 23 7 3;
    b1 h 7 5; b1 h 7 13; b2 h 7 21 8 4;
    b1 h 8 4; b1 h 8 12; b2 h 8 20 9 6;
    b1 h 9 2; b1 h 9 10; b1 h 9 18 ].

Definition fe_tobytes (h : list Z) : option (list Z) :=
  q ← tobytes_q h;
  p ← chk 32 (19 * q);
  x ← chk 32 (h !!! 0%nat + p);
  h ← tobytes_chain (<[0%nat := x]> h);
  Some (tobytes_store h).

Definition fe_isnegative (f : list Z) : option Z :=
  s ← fe_tobytes f; Some (Z.land (s !!! 0%nat) 1).

Definition fe_isnonzero (f : list Z) : option Z :=
  s ← fe_tobytes f; Some (Z.shiftr (foldl Z.lor 0 s - 1) 8 + 1).

(** ** Powers *)

(** [for (i = 0; i < n; ++i) fe_sq(t, t)] *)
Fixpoint fe_sq_times (n : nat) (t : list Z) : option (list Z) :=
  match n with
  | O => Some t
  | S n' => t' ← fe_sq t; fe_sq_times n' t'
  end.

Definition fe_invert (z : list Z) : option (list Z) :=
  t0 ← fe_sq z;
  t1 ← fe_sq t0;
  t1 ← fe_sq t1;
  t1 ← fe_mul z t1;
  t0 ← fe_mul t0 t1;
  t2 ← fe_sq t0;
  t1 ← fe_mul t1 t2;
  t2 ← fe_sq t1;
  t2 ← fe_sq_times 4 t2;
  t1 ← fe_mul t2 t1;
  t2 ← fe_sq t1;
  t2 ← fe_sq_times 9 t2;
  t2 ← fe_mul t2 t1;
  t3 ← fe_sq t2;
  t3 ← fe_sq_times 19 t3;
  t2 ← fe_mul t3 t2;
  t2 ← fe_sq t2;
  t2 ← fe_sq_times 9 t2;
  t1 ← fe_mul t2 t1;
  t2 ← fe_sq t1;
  t2 ← fe_sq_times 49 t2;
  t2 ← fe_mul t2 t1;
  t3 ← fe_sq t2;
  t3 ← fe_sq_times 99 t3;
  t2 ← fe_mul t3 t2;
  t2 ← fe_sq t2;
  t2 ← fe_sq_times 49 t2;
  t1 ← fe_mul t2 t1;
  t1 ← fe_sq t1;
  t1 ← fe_sq_times 4 t1;
  fe_mul t1 t0.

Definition fe_divpowm1 (u v : list Z) : option (list Z) :=
  v3 ← fe_sq v;
  v3 ← fe_mul v3 v;
  uv7 ← fe_sq v3;
  uv7 ← fe_mul uv7 v;
  uv7 ← fe_mul uv7 u;
  t0 ← fe_sq uv7;
  t1 ← fe_sq t0;
  t1 ← fe_sq t1;
  t1 ← fe_mul uv7 t1;
  t0 ← fe_mul t0 t1;
  t0 ← fe_sq t0;
  t0 ← fe_mul t1 t0;
  t1 ← fe_sq t0;
  t1 ← fe_sq_times 4 t1;
  t0 ← fe_mul t1 t0;
  t1 ← fe_sq t0;
  t1 ← fe_sq_times 9 t1;
  t1 ← fe_mul t1 t0;
  t2 ← fe_sq t1;
  t2 ← fe_sq_times 19 t2;
  t1 ← fe_mul t2 t1;
  t1 ← fe_sq_times 10 t1;
  t0 ← fe_mul t1 t0;
  t1 ← fe_sq t0;
  t1 ← fe_sq_times 49 t1;
  t1 ← fe_mul t1 t0;
  t2 ← fe_sq t1;
  t2 ← fe_sq_times 99 t2;
  t1 ← fe_mul t2 t1;
  t1 ← fe_sq_times 50 t1;
  t0 ← fe_mul t1 t0;
  t0 ← fe_sq t0;
  t0 ← fe_sq t0;
  t0 ← fe_mul t0 uv7;
  t0 ← fe_mul t0 v3;
  fe_mul t0 u.

(** * Correctness *)

Definition p25519 : Z := 2 ^ 255 - 19.

(** The weight of limb [i] is [2^ceil(25.5 i)]. *)
Definition wt25 (i : nat) : Z := (51 * Z.of_nat i + 1) / 2.

Definition fe_val (f : list Z) : Z := eval wt25 10 f.

(** [fe_bounded c f]: ten limbs with [|f_i|] at most [c/100 * 2^25] for even [i]
    and [c/100 * 2^24] for odd [i]; the bounds of the comments in the source are
    of this form. *)
Definition limb_max (c : Z) (i : nat) : Z :=
  c * (if Nat.even i then 2 ^ 25 else 2 ^ 24) / 100.

Definition fe_bounds (c : Z) : bounds := (λ i, (- limb_max c i, limb_max c i)) <$> seq 0 10.

Definition fe_bounded (c : Z) (f : list Z) : Prop := within (fe_bounds c) f.

#[export] Instance wt25_radix : Radix wt25.
Proof. split; [done|]. intros i. unfold wt25. apply Z.div_le_mono; lia. Qed.

(** ** Symbolic execution of the products *)

Lemma fits_abs w C x : fits w C = true → Z.abs x ≤ C → fits w x = true.
Proof. rewrite !fits_spec. lia. Qed.

Lemma step_mul w a b A B C (k : Z → option (list Z)) (P : list Z → Prop) :
  Z.abs a ≤ A → Z.abs b ≤ B → A * B = C → fits w C = true →
  (∀ x, x = a * b → Z.abs x ≤ C → ∃ h, k x = Some h ∧ P h) →
  ∃ h, (chk w (a * b) ≫= k) = Some h ∧ P h.
Proof.
  intros Ha Hb HC Hf Hk. assert (Z.abs (a * b) ≤ C) as Hx by (rewrite Z.abs_mul; nia).
  rewrite (chk_Some w (a * b)) by (by apply (fits_abs w C)). by apply Hk.
Qed.

Lemma step_add w a b A B C (k : Z → option (list Z)) (P : list Z → Prop) :
  Z.abs a ≤ A → Z.abs b ≤ B → A + B = C → fits w C = true →
  (∀ x, x = a + b → Z.abs x ≤ C → ∃ h, k x = Some h ∧ P h) →
  ∃ h, (chk w (a + b) ≫= k) = Some h ∧ P h.
Proof.
  intros Ha Hb HC Hf Hk. assert (Z.abs (a + b) ≤ C) as Hx by lia.
  rewrite (chk_Some w (a + b)) by (by apply (fits_abs w C)). by apply Hk.
Qed.

(** Adding a list of numbers with bounds on their absolute values. *)
Inductive abs_sum : list Z → Z → Prop :=
| abs_sum_nil : abs_sum [] 0
| abs_sum_cons x X xs C : Z.abs x ≤ X → abs_sum xs C → abs_sum (x :: xs) (X + C).

Lemma sum_from_ok acc A xs C :
  Z.abs acc ≤ A → abs_sum xs C → fits 64 (A + C) = true →
  sum_from acc xs = Some (acc + foldr Z.add 0 xs) ∧
  Z.abs (acc + foldr Z.add 0 xs) ≤ A + C.
Proof.
  intros Ha Hxs. revert acc A Ha. induction Hxs as [|x X xs C Hx Hxs IH];
    intros acc A Ha Hf; cbn [sum_from foldr].
  { split; [f_equal|]; lia. }
  assert (0 ≤ C) as HC by (clear -Hxs; induction Hxs; lia).
  rewrite chk_Some by (apply (fits_abs 64 (A + (X + C)) _ Hf); lia). cbn [mbind option_bind].
  destruct (IH (acc + x) (A + X)) as [-> H2]; [lia|by rewrite <- Z.add_assoc|].
  rewrite <- !Z.add_assoc in *. split; [done|lia].
Qed.

Lemma step_sum xs C D (k : Z → option (list Z)) (P : list Z → Prop) :
  abs_sum xs C → C = D → fits 64 D = true →
  (∀ x, x = foldr Z.add 0 xs → Z.abs x ≤ D → ∃ h, k x = Some h ∧ P h) →
  ∃ h, (sum64 xs ≫= k) = Some h ∧ P h.
Proof.
  intros Hxs -> Hf Hk. destruct Hxs as [|x X xs C Hx Hxs]; [by apply Hk|].
  destruct (sum_from_ok x X xs C Hx Hxs Hf) as [E Hb]. cbn [sum64]. rewrite E.
  by apply Hk.
Qed.

Ltac abs_bound := first [ eassumption | apply Z.le_refl ].

Ltac abs_sum_tac :=
  repeat (eapply abs_sum_cons; [eassumption|]); apply abs_sum_nil.

(** Runs one checked operation of the products with the bounds at hand. *)
Ltac product_step :=
  lazymatch goal with
  | |- ∃ h, (chk _ (_ * _) ≫= _) = Some h ∧ _ =>
      eapply step_mul; [abs_bound|abs_bound|vm_compute; reflexivity|reflexivity|]
  | |- ∃ h, (chk _ (_ + _) ≫= _) = Some h ∧ _ =>
      eapply step_add; [abs_bound|abs_bound|vm_compute; reflexivity|reflexivity|]
  | |- ∃ h, (sum64 _ ≫= _) = Some h ∧ _ =>
      eapply step_sum; [abs_sum_tac|vm_compute; reflexivity|reflexivity|]
  end;
  let x := fresh "x" in let E := fresh "E" in let B := fresh "B" in
  intros x E B; cbv beta.

(** The part of a product above [2^255], divided by [2^255]. *)
Definition high_part (f g : list Z) : Z :=
  foldr Z.add 0 (flat_map (λ i, (λ j,
    if (10 <=? i + j)%nat
    then f !!! i * g !!! j * (if Nat.odd i && Nat.odd j then 2 else 1)
         * 2 ^ wt25 (i + j - 10)
    else 0) <$> seq 0 10) (seq 0 10)).

Ltac eval_weights25 :=
  repeat match goal with |- context [2 ^ wt25 ?k] =>
    let w := eval vm_compute in (2 ^ wt25 k) in change (2 ^ wt25 k) with w end.

Definition sym (l : list Z) : bounds := (λ c, (- c, c)) <$> l.

Definition mul_max : list Z :=
  [1526500696134443485; 944100830127147000; 1195452352106279851; 723401934772749000;
   864404008078116217; 502703039418351000; 533355664049952583; 282004144063953000;
   202307320021788949; 61305248709555000].

(** The limbs of a bounded element, with their bounds. *)
Ltac limbs_of f H :=
  do 10 (let x := fresh f in let X := fresh "B" in
    apply Forall2_cons_inv_l in H as (x & ? & X & H & ->));
  apply Forall2_nil_inv_l in H as ->.

Lemma inb_abs m x : inb (- m, m) x ↔ Z.abs x ≤ m.
Proof. unfold inb. cbn. lia. Qed.

(** The product of two numbers in radix [2^25.5], reduced by [2^255 = 19]: the
    reference for [fe_mul], [fe_sq] and [fe_sq2]. *)
Definition products25 (f g : list Z) : list Z :=
  (λ k, foldr Z.add 0 ((λ i,
    let j := if (i <=? k)%nat then (k - i)%nat else (10 + k - i)%nat in
    f !!! i * g !!! j * (if Nat.odd i && Nat.odd j then 2 else 1)
      * (if (i <=? k)%nat then 1 else 19)) <$> seq 0 10)) <$> seq 0 10.

Lemma products25_val f g :
  length f = 10%nat → length g = 10%nat →
  fe_val (products25 f g) = fe_val f * fe_val g - p25519 * high_part f g.
Proof.
  intros Hf Hg. do 10 (destruct f as [|? f]; [done|]). destruct f; [|done].
  do 10 (destruct g as [|? g]; [done|]). destruct g; [|done].
  unfold fe_val, high_part, products25, p25519.
  cbn -[Z.mul Z.add Z.pow Z.sub wt25]. eval_weights25. ring.
Qed.

(** Closes a product lemma: the bounds are the ones found on the way, and each
    limb is an identity of polynomials in the limbs of the arguments. *)
Ltac product_limbs :=
  unfold products25; cbn -[Z.mul Z.add] in *;
  repeat (apply cons_eq; [subst; ring|]); reflexivity.

Lemma fe_mul_products_ok f g :
  fe_bounded 330 f → fe_bounded 330 g →
  ∃ h, fe_mul_products f g = Some h ∧ (within (sym mul_max) h ∧ h = products25 f g).
Proof.
  intros Hf Hg. unfold fe_bounded in *. limbs_of f Hf. limbs_of g Hg.
  rewrite inb_abs in *. unfold fe_mul_products. cbn [lookup_total list_lookup_total].
  repeat product_step. eexists. split; [reflexivity|]. split.
  - repeat (apply Forall2_cons; [by apply inb_abs|]). apply Forall2_nil.
  - product_limbs.
Qed.

Lemma fe_sq_products_ok f :
  fe_bounded 330 f → ∃ h, fe_sq_products f = Some h ∧ h = products25 f f.
Proof.
  intros Hf. unfold fe_bounded in *. limbs_of f Hf.
  rewrite inb_abs in *. unfold fe_sq_products. cbn [lookup_total list_lookup_total].
  repeat product_step. eexists. split; [reflexivity|]. product_limbs.
Qed.

Lemma fe_sq2_products_ok f :
  fe_bounded 330 f → ∃ h, fe_sq2_products f = Some h ∧ h = (Z.mul 2 <$> products25 f f).
Proof.
  intros Hf. unfold fe_bounded in *. limbs_of f Hf.
  rewrite inb_abs in *. unfold fe_sq2_products. cbn [lookup_total list_lookup_total].
  repeat product_step. eexists. split; [reflexivity|]. product_limbs.
Qed.
