(* ===== verification/FieldSpec.v ===== *)
(** * The field operations compute modulo 2^255 - 19

    The functional correctness of the [fe_*] functions modelled in [Field]:
    values, bounds, absence of overflow, the canonical encoding, and the
    exponents of the two addition chains. *)

From S2P Require Export Field.

Local Open Scope Z_scope.
Local Open Scope stmt_scope.

(** ** Carrying *)

#[export] Instance carry26_analyzed i : Analyzed (carry26 i) _ :=
  carry_analyzed 64 (2 ^ 25) 26 1 i (S i).
#[export] Instance carry25_analyzed i : Analyzed (carry25 i) _ :=
  carry_analyzed 64 (2 ^ 24) 25 1 i (S i).
#[export] Instance carry9_19_analyzed : Analyzed carry9_19 _ :=
  carry_analyzed 64 (2 ^ 24) 25 19 9 0.
#[export] Instance carry26_valued N m i : Valued wt25 N m (carry26 i) _ :=
  carry_valued wt25 N m 64 (2 ^ 25) 26 1 i (S i).
#[export] Instance carry25_valued N m i : Valued wt25 N m (carry25 i) _ :=
  carry_valued wt25 N m 64 (2 ^ 24) 25 1 i (S i).
#[export] Instance carry9_19_valued N m : Valued wt25 N m carry9_19 _ :=
  carry_valued wt25 N m 64 (2 ^ 24) 25 19 9 0.
#[global] Typeclasses Opaque carry26 carry25 carry9_19.

(** After the carries the limbs are small enough to be stored in [int32_t]. *)
Lemma store32_id B s :
  forallb (λ b, fits 32 b.1 && fits 32 b.2) B = true → within B s → store32 s = s.
Proof.
  intros Hf HB. unfold store32. induction HB as [|b x B s Hb _ IH]; [done|].
  cbn in Hf. apply andb_true_iff in Hf as [[H1 H2]%andb_true_iff Hf].
  cbn. rewrite IH by done. f_equal. apply swrap_fits.
  by apply (fits_between 32 b.1 x b.2).
Qed.

Lemma fe_carry_ok B B' h :
  abs_of fe_carry B = Some B' → bounds_le B' (fe_bounds 101) = true →
  length B = 10%nat → within B h →
  ∃ r, fe_carry h = Some r ∧ store32 r = r ∧ fe_bounded 101 r ∧
    eqm p25519 (fe_val r) (fe_val h).
Proof.
  intros Ha Hle HN HB. pose proof (Forall2_length HB) as HL.
  apply (run_analyzed _ _ _ h) in Ha as (r & R & W); [|done].
  exists r. apply (within_le _ _ _ Hle) in W. split_and!; [done| |done|].
  - by apply (store32_id (fe_bounds 101)).
  - apply (run_valued wt25 10 p25519 fe_carry 10 10 h r); [vm_compute; reflexivity|lia|done].
Qed.

(** The bounds of all three products. *)
Definition prod_bounds : bounds := sym (Z.mul 2 <$> mul_max).

Lemma mul_max_le h : within (sym mul_max) h → within prod_bounds h.
Proof. by apply within_le. Qed.

Lemma fe_carry_mul h v k :
  within prod_bounds h → fe_val h = v - p25519 * k →
  ∃ r, (h' ← fe_carry h; Some (store32 h')) = Some r ∧ fe_bounded 101 r ∧
    eqm p25519 (fe_val r) v.
Proof.
  intros HB E. edestruct (fe_carry_ok prod_bounds) as (r & R & S & B & V);
    [vm_compute; reflexivity..|done|].
  exists r. rewrite R. cbn [mbind option_bind]. rewrite S. split_and!; [done..|].
  rewrite V, E. apply (eqm_add_mul _ (- k)). ring.
Qed.

(** ** Bounds *)

Lemma limb_max_add c d i : limb_max c i + limb_max d i ≤ limb_max (c + d) i.
Proof. unfold limb_max. destruct (Nat.even i); zlia. Qed.

Lemma limb_max_mono c d i : c ≤ d → limb_max c i ≤ limb_max d i.
Proof. unfold limb_max. intros H. apply Z.div_le_mono; destruct (Nat.even i); lia. Qed.

Lemma fe_bounded_mono c d f : fe_bounded c f → c ≤ d → fe_bounded d f.
Proof.
  intros Hf Hcd. unfold fe_bounded, within, fe_bounds in *.
  rewrite Forall2_fmap_l in *. eapply Forall2_impl; [|exact Hf].
  intros i x. cbn. pose proof (limb_max_mono c d i Hcd). unfold inb. cbn. lia.
Qed.

Lemma fe_bounded_length c f : fe_bounded c f → length f = 10%nat.
Proof. intros H. by rewrite <- (Forall2_length H). Qed.

Lemma fe_bounded_0 : fe_bounded 1 fe_0.
Proof. repeat constructor; vm_compute; congruence. Qed.

Lemma fe_bounded_1 : fe_bounded 1 fe_1.
Proof. repeat constructor; vm_compute; congruence. Qed.

Lemma fe_val_0 : fe_val fe_0 = 0.
Proof. done. Qed.

Lemma fe_val_1 : fe_val fe_1 = 1.
Proof. done. Qed.

(** ** The operations *)

Lemma products25_within f g :
  fe_bounded 330 f → fe_bounded 330 g → within (sym mul_max) (products25 f g).
Proof. intros Hf Hg. by destruct (fe_mul_products_ok f g Hf Hg) as (h & _ & HB & <-). Qed.

Lemma fe_mul_ok f g :
  fe_bounded 330 f → fe_bounded 330 g →
  ∃ h, fe_mul f g = Some h ∧ fe_bounded 101 h ∧
    eqm p25519 (fe_val h) (fe_val f * fe_val g).
Proof.
  intros Hf Hg. destruct (fe_mul_products_ok f g Hf Hg) as (h & E & HB & ->).
  unfold fe_mul. rewrite E. cbn [mbind option_bind].
  eapply fe_carry_mul; [by apply mul_max_le|].
  by apply products25_val; eapply fe_bounded_length.
Qed.

(** Squaring is multiplication, limb for limb. *)
Lemma fe_sq_mul f : fe_bounded 330 f → fe_sq f = fe_mul f f.
Proof.
  intros Hf. destruct (fe_mul_products_ok f f Hf Hf) as (h & E & _ & ->).
  destruct (fe_sq_products_ok f Hf) as (k & E' & ->). unfold fe_sq, fe_mul. by rewrite E, E'.
Qed.

Lemma fe_sq_ok f :
  fe_bounded 330 f →
  ∃ h, fe_sq f = Some h ∧ fe_bounded 101 h ∧
    eqm p25519 (fe_val h) (fe_val f * fe_val f).
Proof. intros Hf. rewrite fe_sq_mul by done. by apply fe_mul_ok. Qed.

Lemma within_double B h : within (sym B) h → within (sym (Z.mul 2 <$> B)) (Z.mul 2 <$> h).
Proof.
  unfold within, sym. rewrite <- list_fmap_compose, !Forall2_fmap_l. intros H.
  induction H as [|c x B h Hx _ IH]; constructor; [|exact IH].
  unfold compose in *. rewrite !inb_abs in *. lia.
Qed.

Lemma fe_val_double h : length h = 10%nat → fe_val (Z.mul 2 <$> h) = 2 * fe_val h.
Proof.
  intros HL. do 10 (destruct h as [|? h]; [done|]). destruct h; [|done].
  unfold fe_val. cbn [fmap list_fmap eval lookup_total list_lookup_total].
  repeat match goal with |- context [2 ^ wt25 ?k] => generalize (2 ^ wt25 k); intros ? end. ring.
Qed.

Lemma fe_sq2_ok f :
  fe_bounded 330 f →
  ∃ h, fe_sq2 f = Some h ∧ fe_bounded 101 h ∧
    eqm p25519 (fe_val h) (2 * (fe_val f * fe_val f)).
Proof.
  intros Hf. destruct (fe_sq2_products_ok f Hf) as (h & E & ->).
  unfold fe_sq2. rewrite E. cbn [mbind option_bind].
  eapply (fe_carry_mul _ _ (2 * high_part f f)).
  - by apply within_double, products25_within.
  - rewrite fe_val_double, products25_val by (done || by eapply fe_bounded_length).
    rewrite Z.mul_sub_distr_l, (Z.mul_shuffle3 2 p25519). reflexivity.
Qed.

(** A limb-wise operation on bounded elements. *)
Lemma zip_chk32 op c d f g :
  (∀ x y, Z.abs (op x y) ≤ Z.abs x + Z.abs y) →
  fe_bounded c f → fe_bounded d g → c + d ≤ 330 →
  mapM (λ '(x, y), chk 32 (op x y)) (zip f g) = Some (zip_with op f g) ∧
  fe_bounded (c + d) (zip_with op f g).
Proof.
  intros Hop Hf Hg Hcd. unfold fe_bounded, within, fe_bounds in *.
  rewrite Forall2_fmap_l in *. assert (Forall (λ i, limb_max 330 i < 2 ^ 31) (seq 0 10)) as HM.
  { repeat constructor; vm_compute; congruence. }
  revert HM g Hg. induction Hf as [|i x l f Hx _ IH]; intros HM g Hg.
  { inversion Hg. by split; [|constructor]. }
  inversion Hg as [|? y ? g' Hy Hg']; subst. apply Forall_cons_1 in HM as [Hm HM].
  destruct (IH HM g' Hg') as [E W]. cbn in Hx, Hy. apply inb_abs in Hx, Hy.
  pose proof (limb_max_add c d i). pose proof (limb_max_mono (c + d) 330 i Hcd).
  specialize (Hop x y). split.
  - cbn. rewrite (chk_Some 32 (op x y)) by (apply fits_spec; lia). cbn.
    change (zip_with pair f g') with (zip f g'). by rewrite E.
  - constructor; [|done]. cbn. apply inb_abs. lia.
Qed.

Lemma fe_add_ok c d f g :
  fe_bounded c f → fe_bounded d g → c + d ≤ 330 →
  ∃ h, fe_add f g = Some h ∧ fe_bounded (c + d) h ∧ fe_val h = fe_val f + fe_val g.
Proof.
  intros Hf Hg Hcd. destruct (zip_chk32 Z.add c d f g) as [E W]; [lia|done..|].
  eexists. split_and!; [exact E|exact W|]. unfold fe_val.
  rewrite eval_zip_with; [done|intros; ring|intros; ring|done|..];
    erewrite fe_bounded_length by done; lia.
Qed.

Lemma fe_sub_ok c d f g :
  fe_bounded c f → fe_bounded d g → c + d ≤ 330 →
  ∃ h, fe_sub f g = Some h ∧ fe_bounded (c + d) h ∧ fe_val h = fe_val f - fe_val g.
Proof.
  intros Hf Hg Hcd. destruct (zip_chk32 Z.sub c d f g) as [E W]; [lia|done..|].
  eexists. split_and!; [exact E|exact W|]. unfold fe_val.
  rewrite eval_zip_with; [done|intros; ring|intros; ring|done|..];
    erewrite fe_bounded_length by done; lia.
Qed.

Lemma fe_neg_ok c f :
  fe_bounded c f → c ≤ 330 →
  ∃ h, fe_neg f = Some h ∧ fe_bounded c h ∧ fe_val h = - fe_val f.
Proof.
  intros Hf Hc. exists (Z.opp <$> f). split_and!;
    [| |apply eval_opp; by rewrite (fe_bounded_length c f Hf)].
  - pose proof (fe_bounded_mono c 330 f Hf Hc) as H330. apply mapM_fmap. intros x Hx.
    apply chk_Some, fits_spec. apply list_elem_of_lookup in Hx as [i Hi].
    destruct (Forall2_lookup_r _ _ _ _ _ H330 Hi) as (b & Hb & Hx).
    assert (Forall (λ b, - 2 ^ 31 < b.1 ∧ b.2 < 2 ^ 31) (fe_bounds 330)) as HM
      by (repeat constructor; vm_compute; congruence).
    apply (Forall_lookup_1 _ _ _ _ HM) in Hb. unfold inb in Hx. lia.
  - unfold fe_bounded, within, fe_bounds in *. rewrite Forall2_fmap_r.
    rewrite Forall2_fmap_l in *. eapply Forall2_impl; [|exact Hf].
    intros i x. unfold compose. rewrite !inb_abs. lia.
Qed.

Lemma fe_val_expand f0 f1 f2 f3 f4 f5 f6 f7 f8 f9 :
  fe_val [f0; f1; f2; f3; f4; f5; f6; f7; f8; f9] =
    f0 + f1 * 2 ^ 26 + f2 * 2 ^ 51 + f3 * 2 ^ 77 + f4 * 2 ^ 102 + f5 * 2 ^ 128 +
    f6 * 2 ^ 153 + f7 * 2 ^ 179 + f8 * 2 ^ 204 + f9 * 2 ^ 230.
Proof.
  unfold fe_val. cbn -[Z.mul Z.add Z.pow wt25].
  change (wt25 0) with 0. change (wt25 1) with 26. change (wt25 2) with 51.
  change (wt25 3) with 77. change (wt25 4) with 102. change (wt25 5) with 128.
  change (wt25 6) with 153. change (wt25 7) with 179. change (wt25 8) with 204.
  change (wt25 9) with 230. lia.
Qed.

(** ** The canonical encoding *)

#[export] Instance tcarry26_analyzed i : Analyzed (tcarry26 i) _ :=
  carry_analyzed 32 0 26 1 i (S i).
#[export] Instance tcarry25_analyzed i : Analyzed (tcarry25 i) _ :=
  carry_analyzed 32 0 25 1 i (S i).
#[export] Instance tcarry26_valued N m i : Valued wt25 N m (tcarry26 i) _ :=
  carry_valued wt25 N m 32 0 26 1 i (S i).
#[export] Instance tcarry25_valued N m i : Valued wt25 N m (tcarry25 i) _ :=
  carry_valued wt25 N m 32 0 25 1 i (S i).
#[global] Typeclasses Opaque tcarry26 tcarry25.

Lemma tobytes_store_spec h :
  digits_lt wt25 9 h → tobytes_store h = le_split 32 (fe_val h).
Proof. intros Hs. unfold tobytes_store, fe_val. store_bytes 9%nat. Qed.

(** [q] before the step for limb [i]: the floor of [y] plus the limbs below [i],
    divided by the weight of limb [i]. *)
Definition q_ok (h : list Z) (y : Z) (i : nat) (q : Z) : Prop :=
  Z.abs q ≤ 2 ^ 27 ∧ q = (y + eval wt25 i h) / 2 ^ wt25 i.

Lemma fe_bounded_lookup c f i :
  fe_bounded c f → (i < 10)%nat → Z.abs (f !!! i) ≤ limb_max c i.
Proof.
  intros Hf Hi. apply (proj1 (inb_abs _ _)). eapply (Forall2_lookup_lr inb (fe_bounds c) f i); [exact Hf| |].
  - unfold fe_bounds. rewrite list_lookup_fmap, lookup_seq_lt by done. done.
  - apply list_lookup_lookup_total_lt. by rewrite (fe_bounded_length c f Hf).
Qed.

Lemma limb_abs_le h i : fe_bounded 330 h → (i < 10)%nat → Z.abs (h !!! i) ≤ 2 ^ 27.
Proof.
  intros Hh Hi. pose proof (fe_bounded_lookup _ _ _ Hh Hi) as Hx.
  unfold limb_max in Hx. case_match; clear -Hx; zlia.
Qed.

Lemma q_step_ok h y i k q :
  fe_bounded 330 h → (i < 10)%nat → wt25 (S i) = wt25 i + k → 2 ≤ k →
  q_ok h y i q → ∃ q', q_step h i k q = Some q' ∧ q_ok h y (S i) q'.
Proof.
  intros Hh Hi Hk Hk2 [Hq E]. pose proof (limb_abs_le h i Hh Hi) as Hx.
  unfold q_step. rewrite chk_Some by (apply fits_spec; lia). eexists.
  split; [done|]. assert (4 ≤ 2 ^ k) by (apply (Z.pow_le_mono_r 2 2 k); lia).
  rewrite Z.shiftr_div_pow2 by lia. split.
  - apply div_abs_le; [lia|]. clear -H Hx Hq. nia.
  - cbn [eval]. rewrite E, Hk.
    assert (0 < 2 ^ wt25 i) by (apply Z.pow_pos_nonneg; [lia|apply radix_nonneg, _]).
    rewrite <- div_pow2_pow2 by (lia || apply radix_nonneg, _).
    f_equal. rewrite Z.add_assoc, Z.div_add by lia. lia.
Qed.

(** The chain of [q_step]s computes [⌊(q0 + h) / 2 ^ 255⌋]. *)
Lemma tobytes_q_ok h :
  fe_bounded 330 h →
  tobytes_q h =
    Some (((19 * h !!! 9%nat + 2 ^ 24) / 2 ^ 25 + fe_val h) / 2 ^ 255).
Proof.
  intros Hh. pose proof (fe_bounded_lookup _ _ 9 Hh ltac:(lia)) as H9.
  change (limb_max 330 9) with 55364812 in H9.
  unfold tobytes_q. rewrite !chk_Some by (apply fits_spec; lia).
  cbn [mbind option_bind]. rewrite chk_Some by (apply fits_spec; lia).
  cbn [mbind option_bind]. rewrite Z.shiftr_div_pow2 by done.
  remember ((19 * h !!! 9%nat + 2 ^ 24) / 2 ^ 25) as q0 eqn:E0.
  assert (q_ok h q0 0 q0) as Q.
  { split; [subst; apply div_abs_le; lia|].
    change (eval wt25 0 h) with 0. change (2 ^ wt25 0) with 1.
    by rewrite Z.div_1_r, Z.add_0_r. }
  clear E0. revert Q. generalize q0 at 2 3. intros q Q.
  do 10 (eapply q_step_ok in Q as (? & -> & Q); [|done|lia|reflexivity|lia];
    cbn [mbind option_bind]).
  by destruct Q as [_ ->].
Qed.

Lemma digits_bounds B s :
  within B s → bounds_le B ((λ i, (0, 2 ^ (wt25 (S i) - wt25 i) - 1)) <$> seq 0 10) = true →
  digits_lt wt25 10 s.
Proof.
  intros HB Hle i Hi. apply (within_le _ _ _ Hle) in HB.
  pose proof (Forall2_length HB) as HL. cbn in HL.
  eapply (Forall2_lookup_lr inb _ s i) in HB;
    [|rewrite list_lookup_fmap, lookup_seq_lt by done; done
     |apply list_lookup_lookup_total_lt; lia].
  unfold inb in HB. cbn [fst snd Nat.add] in HB. lia.
Qed.

(** The chain that brings [h + 19 q] below [2 ^ 255]. *)
Lemma tobytes_chain_ok h :
  within (<[0%nat := (- 2 ^ 27, 2 ^ 27)]> (fe_bounds 330)) h →
  ∃ r, tobytes_chain h = Some r ∧ digits_lt wt25 10 r ∧ fe_val r = fe_val h mod 2 ^ 255.
Proof.
  intros W. pose proof (Forall2_length W) as HL.
  eapply (run_analyzed tobytes_chain) in W as (r & R & W); [|vm_compute; reflexivity].
  exists r. split; [done|].
  assert (digits_lt wt25 10 r) as HD by (eapply digits_bounds; [exact W|vm_compute; reflexivity]).
  split; [done|].
  apply (run_valued wt25 10 (2 ^ 255) tobytes_chain 10 10) in R as [_ V];
    [|vm_compute; reflexivity|done].
  unfold eqm in V. unfold fe_val. rewrite <- V. symmetry. apply Z.mod_small.
  exact (eval_range wt25 10 r HD).
Qed.

(** [⌊(q0 + h) / 2 ^ 255⌋ = ⌊h / p⌋] for every [h] in the range of the limbs. *)
Lemma q_floor H low h9 :
  H = low + h9 * 2 ^ 230 → Z.abs low < 2 ^ 231 → Z.abs h9 ≤ 2 ^ 27 →
  ((19 * h9 + 2 ^ 24) / 2 ^ 25 + H) / 2 ^ 255 = H / p25519.
Proof.
  intros E Hl H9. pose proof (Z.div_mod H p25519 ltac:(done)) as D.
  pose proof (Z.mod_pos_bound H p25519 ltac:(done)) as R.
  pose proof (Z.div_mod (19 * h9 + 2 ^ 24) (2 ^ 25) ltac:(done)) as D0.
  pose proof (Z.mod_pos_bound (19 * h9 + 2 ^ 24) (2 ^ 25) ltac:(done)) as R0.
  set (q := H / p25519) in *. set (r := H mod p25519) in *.
  set (q0 := (19 * h9 + 2 ^ 24) / 2 ^ 25) in *. set (r0 := _ mod 2 ^ 25) in *.
  symmetry. apply (Z.div_unique _ _ _ (q0 - 19 * q + r)); [left|];
    unfold p25519 in *; clearbody q r q0 r0; lia.
Qed.

Lemma fe_tobytes_ok h :
  fe_bounded 330 h → fe_tobytes h = Some (le_split 32 (fe_val h mod p25519)).
Proof.
  intros Hh. pose proof (fe_bounded_length _ _ Hh) as HL.
  assert (Z.abs (h !!! 0%nat) ≤ 110729625) as H0
    by (apply (fe_bounded_lookup 330 h 0); [done|lia]).
  pose proof (limb_abs_le h 9 Hh ltac:(lia)) as H9.
  assert (Z.abs (eval wt25 9 h) < 2 ^ 231) as Hlow.
  { pose proof (eval_bounds wt25 9 _ h Hh ltac:(lia)) as Hb.
    vm_compute (eval wt25 9 _.*1) in Hb. vm_compute (eval wt25 9 _.*2) in Hb. lia. }
  assert (fe_val h = eval wt25 9 h + h !!! 9%nat * 2 ^ 230) as EV by done.
  unfold fe_tobytes. rewrite tobytes_q_ok by done. cbn [mbind option_bind].
  rewrite (q_floor _ _ _ EV Hlow H9). set (q := fe_val h / p25519).
  assert (Z.abs q ≤ 8) as Hq.
  { apply div_abs_le; [done|]. clear -EV Hlow H9. unfold p25519. lia. }
  rewrite chk_Some by (apply fits_spec; lia). cbn [mbind option_bind].
  rewrite chk_Some by (apply fits_spec; lia). cbn [mbind option_bind].
  destruct (tobytes_chain_ok (<[0%nat := h !!! 0%nat + 19 * q]> h)) as (r & -> & D & V).
  { apply within_insert; [done|]. unfold inb. cbn [fst snd]. lia. }
  cbn [mbind option_bind]. rewrite tobytes_store_spec by (intros i Hi; apply D; lia).
  rewrite V. do 2 f_equal. unfold fe_val at 1. rewrite eval_insert by lia.
  change (2 ^ wt25 0) with 1. fold (fe_val h).
  pose proof (Z.div_mod (fe_val h) p25519 ltac:(done)) as DM. fold q in DM.
  pose proof (Z.mod_pos_bound (fe_val h) p25519 ltac:(done)) as RM.
  symmetry. apply (Z.mod_unique_pos _ _ q); unfold p25519 in *; lia.
Qed.

(** The comment of [fe_tobytes] derives [|q| <= 1] from its precondition, limbs
    within 1.1 * 2^26 and 1.1 * 2^25.  Those limbs can be worth less than [-p],
    and then the quotient is -2; the encoding is right all the same
    ([fe_tobytes_ok]). *)
Lemma tobytes_q_range :
  ∃ h, fe_bounded 220 h ∧ fe_val h < - p25519 ∧ tobytes_q h = Some (-2).
Proof.
  exists ((λ i, - limb_max 220 i) <$> seq 0 10).
  split; [repeat constructor; vm_compute; congruence|]. split; vm_compute; reflexivity.
Qed.

Lemma fe_isnonzero_ok f :
  fe_bounded 330 f →
  fe_isnonzero f = Some (if fe_val f mod p25519 =? 0 then 0 else 1).
Proof.
  intros Hf. unfold fe_isnonzero. rewrite fe_tobytes_ok by done. cbn [mbind option_bind].
  f_equal. pose proof (Z.mod_pos_bound (fe_val f) p25519 ltac:(done)) as R.
  set (x := fe_val f mod p25519) in *.
  destruct (foldl_lor 0 (le_split 32 x)) as [H1 H2]; [lia|apply bytes_le_split|].
  rewrite le_combine_split, Z.mod_small in H2 by (unfold p25519 in *; lia).
  rewrite Z.shiftr_div_pow2 by lia. destruct (Z.eqb_spec x 0); zlia.
Qed.

Lemma fe_isnegative_ok f :
  fe_bounded 330 f → fe_isnegative f = Some ((fe_val f mod p25519) mod 2).
Proof.
  intros Hf. unfold fe_isnegative. rewrite fe_tobytes_ok by done. cbn [mbind option_bind].
  f_equal. cbn [le_split lookup_total list_lookup_total].
  rewrite (Z.land_ones _ 1) by lia. apply (mod_pow2_mod _ 1 8); lia.
Qed.

(** ** Conditional move *)

Lemma cmov_assert_spec b :
  0 ≤ b < 2 ^ 32 → cmov_assert b = (b =? 0) || (b =? 1).
Proof.
  intros Hb. destruct (decide (b = 0)) as [->|]; [done|].
  destruct (decide (b = 1)) as [->|]; [done|].
  rewrite (proj2 (Z.eqb_neq b 0)), (proj2 (Z.eqb_neq b 1)) by done.
  unfold cmov_assert. apply Z.eqb_neq. intros E.
  apply (f_equal (λ x, Z.testbit x 31)) in E. revert E.
  rewrite Z.lor_spec, !Z.land_spec. unfold uwrap.
  rewrite !Z.mod_pow2_bits_low, !Z.lnot_spec by lia.
  rewrite !(Z.mod_small (b - 1)) by lia.
  assert (∀ x, 0 ≤ x < 2 ^ 32 → Z.testbit x 31 = (2 ^ 31 <=? x)) as T.
  { intros x Hx. rewrite Z.testbit_odd, Z.shiftr_div_pow2 by lia.
    destruct (Z.leb_spec (2 ^ 31) x).
    - by replace (x / 2 ^ 31) with 1 by zlia.
    - by rewrite Z.div_small by lia. }
  rewrite !T by lia. cbn.
  destruct (Z.leb_spec (2 ^ 31) (b - 1)), (Z.leb_spec (2 ^ 31) b),
    (Z.leb_spec (2 ^ 31) (b - 2)); cbn in *; lia || done.
Qed.

Lemma fits_lxor w x y : 1 ≤ w → fits w x = true → fits w y = true → fits w (Z.lxor x y) = true.
Proof.
  intros Hw. rewrite !fits_spec.
  assert (∀ z, - 2 ^ (w - 1) ≤ z < 2 ^ (w - 1) ↔
    Z.shiftr z (w - 1) = 0 ∨ Z.shiftr z (w - 1) = -1) as T.
  { intros z. rewrite Z.shiftr_div_pow2 by lia.
    pose proof (Z.pow_pos_nonneg 2 (w - 1) ltac:(lia) ltac:(lia)) as HP.
    pose proof (Z.div_mod z (2 ^ (w - 1)) ltac:(lia)).
    pose proof (Z.mod_pos_bound z (2 ^ (w - 1)) HP). nia. }
  rewrite !T, Z.shiftr_lxor. intros [-> | ->] [-> | ->]; auto.
Qed.

Lemma cmov_limb_ok b f g :
  fits 32 f = true → fits 32 g = true → b = 0 ∨ b = 1 →
  cmov_limb (uwrap 32 (- b)) f g = if b =? 1 then g else f.
Proof.
  intros Hf Hg [-> | ->]; unfold cmov_limb.
  - change (uwrap 32 (- 0)) with 0. rewrite Z.land_0_r. apply Z.lxor_0_r.
  - change (uwrap 32 (- (1))) with (Z.ones 32). rewrite Z.land_ones by lia.
    unfold uwrap at 1. rewrite Z.mod_mod by lia.
    assert (swrap 32 (Z.lxor f g mod 2 ^ 32) = Z.lxor f g) as ->.
    { transitivity (swrap 32 (Z.lxor f g)); [|by apply swrap_fits, fits_lxor].
      unfold swrap. f_equal. apply Zplus_mod_idemp_l. }
    by rewrite <- Z.lxor_assoc, Z.lxor_nilpotent, Z.lxor_0_l.
Qed.

Lemma cmov_limbs_ok b f g :
  Forall (λ x, fits 32 x = true) f → Forall (λ x, fits 32 x = true) g →
  length f = length g → b = 0 ∨ b = 1 →
  zip_with (cmov_limb (uwrap 32 (- b))) f g = if b =? 1 then g else f.
Proof.
  intros Hf Hg HL Hb. revert g Hg HL.
  induction Hf as [|x f Hx _ IH]; intros [|y g] Hg HL; [by destruct (b =? 1)|done..|].
  apply Forall_cons_1 in Hg as [Hy Hg]. cbn [zip_with].
  rewrite cmov_limb_ok, IH by (done || cbn in HL; lia). by destruct (b =? 1).
Qed.

Lemma fe_cmov_ok f g b :
  Forall (λ x, fits 32 x = true) f → Forall (λ x, fits 32 x = true) g →
  length f = length g → 0 ≤ b < 2 ^ 32 →
  fe_cmov f g b = if b =? 0 then Some f else if b =? 1 then Some g else None.
Proof.
  intros Hf Hg HL Hb. unfold fe_cmov. rewrite cmov_assert_spec by done.
  destruct (Z.eqb_spec b 0) as [->|H0]; [by rewrite cmov_limbs_ok by auto|].
  destruct (Z.eqb_spec b 1) as [->|H1]; [by rewrite cmov_limbs_ok by auto|done].
Qed.

(** * Field elements as numbers modulo [p]

    [fe_rep c x f]: the limbs [f] are within [c] hundredths of [2 ^ 25] and
    [2 ^ 24], and stand for [x] modulo [p]. *)
Definition fe_rep (c x : Z) (f : list Z) : Prop :=
  fe_bounded c f ∧ eqm p25519 (fe_val f) x.

Lemma fe_rep_mono c d x f : fe_rep c x f → c ≤ d → fe_rep d x f.
Proof. intros [H1 H2] Hc. split; [|done]. by eapply fe_bounded_mono. Qed.

Lemma fe_rep_eqm c x y f : fe_rep c x f → eqm p25519 x y → fe_rep c y f.
Proof. intros [H1 H2] E. split; [done|]. by rewrite H2. Qed.

Lemma fe_rep_eq c x y f : fe_rep c x f → x = y → fe_rep c y f.
Proof. by intros ? <-. Qed.

Lemma fe_rep_0 : fe_rep 101 0 fe_0.
Proof. by split; [apply (fe_bounded_mono 1); [apply fe_bounded_0|lia]|]. Qed.

Lemma fe_rep_1 : fe_rep 101 1 fe_1.
Proof. by split; [apply (fe_bounded_mono 1); [apply fe_bounded_1|lia]|]. Qed.

Lemma fe_rep_mul c d x y f g :
  fe_rep c x f → fe_rep d y g → c ≤ 330 → d ≤ 330 →
  ∃ h, fe_mul f g = Some h ∧ fe_rep 101 (x * y) h.
Proof.
  intros [Hf Ef] [Hg Eg] Hc Hd.
  destruct (fe_mul_ok f g) as (h & -> & Hh & E);
    [by eapply fe_bounded_mono|by eapply fe_bounded_mono|].
  exists h. split; [done|]. split; [done|]. by rewrite E, Ef, Eg.
Qed.

Lemma fe_rep_sq c x f :
  fe_rep c x f → c ≤ 330 → ∃ h, fe_sq f = Some h ∧ fe_rep 101 (x * x) h.
Proof.
  intros [Hf Ef] Hc. destruct (fe_sq_ok f) as (h & -> & Hh & E);
    [by eapply fe_bounded_mono|].
  exists h. split; [done|]. split; [done|]. by rewrite E, Ef.
Qed.

Lemma fe_rep_sq2 c x f :
  fe_rep c x f → c ≤ 330 → ∃ h, fe_sq2 f = Some h ∧ fe_rep 101 (2 * (x * x)) h.
Proof.
  intros [Hf Ef] Hc. destruct (fe_sq2_ok f) as (h & -> & Hh & E);
    [by eapply fe_bounded_mono|].
  exists h. split; [done|]. split; [done|]. by rewrite E, Ef.
Qed.

Lemma fe_rep_add c d x y f g :
  fe_rep c x f → fe_rep d y g → c + d ≤ 330 →
  ∃ h, fe_add f g = Some h ∧ fe_rep (c + d) (x + y) h.
Proof.
  intros [Hf Ef] [Hg Eg] Hcd. destruct (fe_add_ok c d f g) as (h & -> & Hh & E); [done..|].
  exists h. split; [done|]. split; [done|]. by rewrite E, Ef, Eg.
Qed.

Lemma fe_rep_sub c d x y f g :
  fe_rep c x f → fe_rep d y g → c + d ≤ 330 →
  ∃ h, fe_sub f g = Some h ∧ fe_rep (c + d) (x - y) h.
Proof.
  intros [Hf Ef] [Hg Eg] Hcd. destruct (fe_sub_ok c d f g) as (h & -> & Hh & E); [done..|].
  exists h. split; [done|]. split; [done|]. by rewrite E, Ef, Eg.
Qed.

Lemma fe_rep_neg c x f :
  fe_rep c x f → c ≤ 330 → ∃ h, fe_neg f = Some h ∧ fe_rep c (- x) h.
Proof.
  intros [Hf Ef] Hc. destruct (fe_neg_ok c f) as (h & -> & Hh & E); [done..|].
  exists h. split; [done|]. split; [done|]. by rewrite E, Ef.
Qed.

Lemma fe_rep_tobytes c x f :
  fe_rep c x f → c ≤ 330 → fe_tobytes f = Some (le_split 32 (x mod p25519)).
Proof.
  intros [Hf Ef] Hc. rewrite fe_tobytes_ok by (by eapply fe_bounded_mono).
  unfold eqm in Ef. by rewrite Ef.
Qed.

Lemma fe_rep_isnonzero c x f :
  fe_rep c x f → c ≤ 330 →
  fe_isnonzero f = Some (if x mod p25519 =? 0 then 0 else 1).
Proof.
  intros [Hf Ef] Hc. rewrite fe_isnonzero_ok by (by eapply fe_bounded_mono).
  unfold eqm in Ef. by rewrite Ef.
Qed.

Lemma fe_rep_isnegative c x f :
  fe_rep c x f → c ≤ 330 → fe_isnegative f = Some ((x mod p25519) mod 2).
Proof.
  intros [Hf Ef] Hc. rewrite fe_isnegative_ok by (by eapply fe_bounded_mono).
  unfold eqm in Ef. by rewrite Ef.
Qed.

(** ** Addition chains

    [fe_mono c u v a b f]: [f] stands for [u ^ a * v ^ b]. *)
Record fe_mono (c u v a b : Z) (f : list Z) : Prop := {
  mono_rep : fe_rep c (u ^ a * v ^ b) f;
  mono_a : 0 ≤ a;
  mono_b : 0 ≤ b
}.

Lemma fe_mono_mul c d u v a b a' b' f g :
  fe_mono c u v a b f → fe_mono d u v a' b' g → c ≤ 330 → d ≤ 330 →
  ∃ h, fe_mul f g = Some h ∧ fe_mono 101 u v (a + a') (b + b') h.
Proof.
  intros [Hf Ha Hb] [Hg Ha' Hb'] Hc Hd.
  destruct (fe_rep_mul _ _ _ _ _ _ Hf Hg Hc Hd) as (h & -> & Hh). exists h.
  split; [done|]. split; [|lia..]. rewrite !Z.pow_add_r by done.
  eapply fe_rep_eq; [exact Hh|]. ring.
Qed.

Lemma fe_mono_sq c u v a b f :
  fe_mono c u v a b f → c ≤ 330 →
  ∃ h, fe_sq f = Some h ∧ fe_mono 101 u v (2 * a) (2 * b) h.
Proof.
  intros [Hf Ha Hb] Hc.
  destruct (fe_rep_sq _ _ _ Hf Hc) as (h & -> & Hh). exists h.
  split; [done|]. split; [|lia..]. rewrite <- !Z.add_diag, !Z.pow_add_r by done.
  eapply fe_rep_eq; [exact Hh|]. ring.
Qed.

Lemma fe_mono_sq_times n u v a b f :
  fe_mono 101 u v a b f →
  ∃ h, fe_sq_times n f = Some h ∧
    fe_mono 101 u v (2 ^ Z.of_nat n * a) (2 ^ Z.of_nat n * b) h.
Proof.
  revert a b f. induction n as [|n IH]; intros a b f Hf.
  - exists f. by rewrite !Z.mul_1_l.
  - cbn [fe_sq_times]. destruct (fe_mono_sq _ _ _ _ _ _ Hf) as (g & -> & Hg); [lia|].
    destruct (IH _ _ _ Hg) as (h & Eh & Hh). exists h. split; [exact Eh|].
    rewrite Nat2Z.inj_succ, Z.pow_succ_r by lia.
    by replace (2 * 2 ^ Z.of_nat n * a) with (2 ^ Z.of_nat n * (2 * a)) by ring;
      replace (2 * 2 ^ Z.of_nat n * b) with (2 ^ Z.of_nat n * (2 * b)) by ring.
Qed.

(** One step of an addition chain. *)
Ltac chain_step :=
  match goal with
  | |- context [mbind _ (fe_sq ?f)] =>
      match goal with H : fe_mono _ _ _ _ _ f |- _ =>
        destruct (fe_mono_sq _ _ _ _ _ _ H) as (? & -> & ?); [lia|] end
  | |- context [mbind _ (fe_sq_times ?n ?f)] =>
      match goal with H : fe_mono _ _ _ _ _ f |- _ =>
        destruct (fe_mono_sq_times n _ _ _ _ _ H) as (? & -> & ?) end
  | |- context [mbind _ (fe_mul ?f ?g)] =>
      match goal with H : fe_mono _ _ _ _ _ f, H' : fe_mono _ _ _ _ _ g |- _ =>
        destruct (fe_mono_mul _ _ _ _ _ _ _ _ _ _ H H') as (? & -> & ?); [lia..|] end
  end; cbn [mbind option_bind].

Ltac chain_end h Hh :=
  match goal with H : fe_mono _ _ _ _ _ ?f, H' : fe_mono _ _ _ _ _ ?g
    |- context [fe_mul ?f ?g] =>
    destruct (fe_mono_mul _ _ _ _ _ _ _ _ _ _ H H') as (h & -> & [Hh _ _]); [lia..|] end.

Lemma fe_invert_ok c x z :
  fe_rep c x z → c ≤ 330 →
  ∃ h, fe_invert z = Some h ∧ fe_rep 101 (x ^ (p25519 - 2)) h.
Proof.
  intros Hz Hc. assert (fe_mono c x 1 1 0 z) as H0.
  { split; [|lia..]. eapply fe_rep_eq; [exact Hz|]. ring. }
  unfold fe_invert. repeat chain_step.
  chain_end h Hh.
  exists h. split; [done|]. eapply fe_rep_eq; [exact Hh|].
  match goal with |- _ ^ ?a * _ = _ ^ ?b => replace a with b by (vm_compute; reflexivity) end.
  rewrite Z.pow_1_l by lia. ring.
Qed.

Lemma fe_divpowm1_ok c d x y u v :
  fe_rep c x u → fe_rep d y v → c ≤ 330 → d ≤ 330 →
  ∃ h, fe_divpowm1 u v = Some h ∧
    fe_rep 101 (x * y ^ 3 * (x * y ^ 7) ^ ((p25519 - 5) / 8)) h.
Proof.
  intros Hu Hv Hc Hd. assert (fe_mono c x y 1 0 u) as H0.
  { split; [|lia..]. eapply fe_rep_eq; [exact Hu|]. ring. }
  assert (fe_mono d x y 0 1 v) as H1.
  { split; [|lia..]. eapply fe_rep_eq; [exact Hv|]. ring. }
  unfold fe_divpowm1. repeat chain_step. chain_end h Hh.
  exists h. split; [done|]. eapply fe_rep_eq; [exact Hh|].
  remember ((p25519 - 5) / 8) as e eqn:He.
  match goal with |- _ ^ ?a * _ ^ ?b = _ => 
    replace a with (1 + e) by (subst e; vm_compute; reflexivity);
    replace b with (3 + 7 * e) by (subst e; vm_compute; reflexivity) end.
  assert (0 ≤ e) as Hpos by (subst e; vm_compute; congruence). clear -Hpos.
  rewrite (Z.pow_add_r x 1 e), (Z.pow_add_r y 3 (7 * e)), (Z.pow_mul_r y 7 e),
    (Z.pow_mul_l x (y ^ 7) e) by lia. ring.
Qed.

(** * The properties of the field functions *)

(** [fe_mul] multiplies modulo [p = 2^255 - 19]: for all arguments within the
    stated bounds (1.65 * 2^26 and 1.65 * 2^25) none of the [int32_t] and [int64_t]
    operations overflows, the result is congruent to the product, and its limbs
    are within the stated output bounds (1.01 * 2^25 and 1.01 * 2^24). *)
Theorem fe_mul_spec f g :
  fe_bounded 330 f → fe_bounded 330 g →
  ∃ h, fe_mul f g = Some h ∧ fe_bounded 101 h ∧
    fe_val h mod p25519 = (fe_val f * fe_val g) mod p25519.
Proof. apply fe_mul_ok. Qed.

(** The optimised squaring is the multiplication: [fe_sq f] returns the very
    limbs of [fe_mul f f], and [fe_sq2 f] a bounded representation of [2 f^2]. *)
Theorem fe_sq_spec f :
  fe_bounded 330 f →
  fe_sq f = fe_mul f f ∧
  ∃ h, fe_sq2 f = Some h ∧ fe_bounded 101 h ∧
    fe_val h mod p25519 = (2 * (fe_val f * fe_val f)) mod p25519.
Proof. split; [by apply fe_sq_mul|by apply fe_sq2_ok]. Qed.

(** [fe_add], [fe_sub] and [fe_neg] add, subtract and negate exactly, and the
    bounds of the limbs add up. *)
Theorem fe_add_sub_spec c d f g :
  fe_bounded c f → fe_bounded d g → c + d ≤ 330 → 0 ≤ d →
  (∃ h, fe_add f g = Some h ∧ fe_bounded (c + d) h ∧ fe_val h = fe_val f + fe_val g) ∧
  (∃ h, fe_sub f g = Some h ∧ fe_bounded (c + d) h ∧ fe_val h = fe_val f - fe_val g) ∧
  (∃ h, fe_neg f = Some h ∧ fe_bounded c h ∧ fe_val h = - fe_val f).
Proof.
  intros Hf Hg Hcd Hd. split_and!; [by apply fe_add_ok|by apply fe_sub_ok|].
  apply fe_neg_ok; [done|lia].
Qed.

(** [fe_tobytes] writes the canonical encoding: for limbs within the bounds
    that the other functions accept, the result is the 32 little-endian bytes of
    the value modulo [p], fully reduced; [fe_isnonzero] and [fe_isnegative] are
    the test against 0 and the parity of that reduced value. *)
Theorem fe_tobytes_spec h :
  fe_bounded 330 h →
  fe_tobytes h = Some (le_split 32 (fe_val h mod p25519)) ∧
  fe_isnonzero h = Some (if fe_val h mod p25519 =? 0 then 0 else 1) ∧
  fe_isnegative h = Some ((fe_val h mod p25519) mod 2).
Proof.
  intros. split_and!; [by apply fe_tobytes_ok|by apply fe_isnonzero_ok|by apply fe_isnegative_ok].
Qed.

(** [fe_cmov] moves [g] into [f] when [b] is 1 and leaves [f] when [b] is 0, for
    all 32-bit limbs; every other [b] fails its assertion. *)
Theorem fe_cmov_spec f g b :
  Forall (λ x, fits 32 x = true) f → Forall (λ x, fits 32 x = true) g →
  length f = length g → 0 ≤ b < 2 ^ 32 →
  fe_cmov f g b = if b =? 0 then Some f else if b =? 1 then Some g else None.
Proof. apply fe_cmov_ok. Qed.

(** ** Witnesses *)

(** All limbs at the largest accepted value. *)
Definition fe_top : list Z := limb_max 330 <$> seq 0 10.

Lemma fe_top_bounded : fe_bounded 330 fe_top.
Proof. repeat constructor; vm_compute; congruence. Qed.

Lemma fe_mul_witness :
  ∃ h, fe_mul fe_top fe_top = Some h ∧ fe_bounded 101 h ∧
    fe_val h mod p25519 = (fe_val fe_top * fe_val fe_top) mod p25519.
Proof. apply fe_mul_spec; apply fe_top_bounded. Defined.

Lemma fe_sq_witness :
  fe_sq fe_top = fe_mul fe_top fe_top ∧
  ∃ h, fe_sq2 fe_top = Some h ∧ fe_bounded 101 h ∧
    fe_val h mod p25519 = (2 * (fe_val fe_top * fe_val fe_top)) mod p25519.
Proof. apply fe_sq_spec, fe_top_bounded. Defined.

Lemma fe_add_sub_witness :
  (∃ h, fe_add fe_1 fe_1 = Some h ∧ fe_bounded (1 + 1) h ∧ fe_val h = fe_val fe_1 + fe_val fe_1) ∧
  (∃ h, fe_sub fe_1 fe_1 = Some h ∧ fe_bounded (1 + 1) h ∧ fe_val h = fe_val fe_1 - fe_val fe_1) ∧
  (∃ h, fe_neg fe_1 = Some h ∧ fe_bounded 1 h ∧ fe_val h = - fe_val fe_1).
Proof. apply fe_add_sub_spec; [apply fe_bounded_1..|lia|lia]. Defined.

Lemma fe_tobytes_witness :
  fe_tobytes fe_top = Some (le_split 32 (fe_val fe_top mod p25519)) ∧
  fe_isnonzero fe_top = Some (if fe_val fe_top mod p25519 =? 0 then 0 else 1) ∧
  fe_isnegative fe_top = Some ((fe_val fe_top mod p25519) mod 2).
Proof. apply fe_tobytes_spec, fe_top_bounded. Defined.

Lemma fe_cmov_witness :
  fe_cmov fe_1 fe_top 1 = (if 1 =? 0 then Some fe_1 else if 1 =? 1 then Some fe_top else None).
Proof.
  apply fe_cmov_spec; [repeat constructor|repeat constructor|reflexivity|lia].
Defined.
