(* ===== verification/Primality.v ===== *)
(** * Primality of the field modulus

    The arithmetic of [crypto-ops.c] is over the integers modulo
    [p = 2 ^ 255 - 19].  This file proves that [p] is prime with Pocklington's
    criterion, by a chain of certificates that the kernel evaluates, and that
    2 is not a square modulo [p]. *)

From Stdlib Require Import Znumtheory Zpow_facts ZmodInv Zdivisibility.
From S2P Require Export Prelude.

#[local] Open Scope Z_scope.

(** ** Modular powers

    The numbers are computed by the kernel's call-by-need reduction:
    [eager z k] is [k z] with the digits of [z] evaluated first. *)
Fixpoint eager_pos {A} (q : positive) (k : positive → A) : A :=
  match q with
  | xH => k xH
  | xO q' => eager_pos q' (λ r, k (xO r))
  | xI q' => eager_pos q' (λ r, k (xI r))
  end.

Definition eager {A} (z : Z) (k : Z → A) : A :=
  match z with
  | Z0 => k Z0
  | Zpos q => eager_pos q (λ r, k (Zpos r))
  | Zneg q => eager_pos q (λ r, k (Zneg r))
  end.

Lemma eager_spec {A} z (k : Z → A) : eager z k = k z.
Proof.
  assert (∀ q (k : positive → A), eager_pos q k = k q) as E.
  { induction q as [q IH|q IH|]; intros h; cbn; by rewrite ?IH. }
  destruct z; cbn; by rewrite ?E.
Qed.

(** [barrett n mu s x] is congruent to [x] whatever [mu] and [s] are; with
    [mu = 4 ^ s / n] it is also small, which is what makes the evaluation
    cheap.  Nothing below depends on its size. *)
Definition barrett (n mu s x : Z) : Z :=
  eager x (λ x, eager (Z.shiftr x (s - 1)) (λ h, eager (h * mu) (λ m,
  eager (Z.shiftr m (s + 1)) (λ q, eager (q * n) (λ m, x - m))))).

(** [2 ^ 255 = 19] modulo [p], used twice. *)
Definition fold_255 (x : Z) : Z :=
  eager x (λ x, eager (Z.shiftr x 255) (λ h, eager (Z.land x (Z.ones 255)) (λ l,
  l + 19 * h))).

Definition reduce_25519 (x : Z) : Z := fold_255 (fold_255 x).

Fixpoint powmod_pos (red : Z → Z) (a : Z) (e : positive) : Z :=
  match e with
  | xH => a
  | xO e' => eager (powmod_pos red a e') (λ r, red (r * r))
  | xI e' => eager (powmod_pos red a e') (λ r, red (red (r * r) * a))
  end.

(** [a ^ e mod n] *)
Definition powmod (n a : Z) (e : positive) : Z :=
  let s := Z.log2 n + 1 in
  eager (4 ^ s / n) (λ mu, powmod_pos (barrett n mu s) a e mod n).

Definition reduces (n : Z) (red : Z → Z) : Prop := ∀ x, eqm n (red x) x.

Lemma barrett_reduces n mu s : reduces n (barrett n mu s).
Proof.
  intros x. unfold barrett. rewrite !eager_spec. set (k := Z.shiftr _ (s + 1)).
  apply (eqm_add_mul n (- k)). ring.
Qed.

Lemma reduce_25519_reduces : reduces (2 ^ 255 - 19) reduce_25519.
Proof.
  assert (reduces (2 ^ 255 - 19) fold_255) as F.
  { intros x. unfold fold_255. rewrite !eager_spec.
    rewrite Z.shiftr_div_pow2, Z.land_ones by lia.
    pose proof (Z.div_mod x (2 ^ 255) ltac:(done)) as E.
    apply (eqm_add_mul _ (- (x / 2 ^ 255))). lia. }
  intros x. unfold reduce_25519. by rewrite !(F _).
Qed.

Lemma powmod_pos_eqm n red a e :
  reduces n red → eqm n (powmod_pos red a e) (a ^ Z.pos e).
Proof.
  intros HR. induction e as [e IH|e IH|]; cbn [powmod_pos]; [..|by rewrite Z.pow_1_r];
    rewrite eager_spec, !(HR _), IH; unfold eqm; f_equal.
  - rewrite Pos2Z.inj_xI, Z.pow_add_r, <- Z.add_diag, Z.pow_add_r, Z.pow_1_r by lia. done.
  - rewrite Pos2Z.inj_xO, <- Z.add_diag, Z.pow_add_r by lia. done.
Qed.

Lemma powmod_spec n a e : powmod n a e = a ^ Z.pos e mod n.
Proof. unfold powmod. rewrite eager_spec. apply powmod_pos_eqm, barrett_reduces. Qed.

(** ** Pocklington's criterion *)

Lemma pow_eqm_1 r a x k : 0 ≤ x → 0 ≤ k → eqm r (a ^ x) 1 → eqm r (a ^ (x * k)) 1.
Proof.
  intros Hx Hk E. rewrite Z.pow_mul_r by done. revert k Hk.
  refine (natlike_ind _ _ _); [done|]. intros k Hk IH.
  rewrite Z.pow_succ_r by done. by rewrite IH, E.
Qed.

(** The exponents that send [a] to 1 are closed under [gcd]. *)
Lemma pow_gcd_eqm_1 r a x y :
  0 < x → 0 < y → eqm r (a ^ x) 1 → eqm r (a ^ y) 1 → eqm r (a ^ Z.gcd x y) 1.
Proof.
  intros Hx Hy Ex Ey. destruct (Z.gcd_bezout x y _ eq_refl) as (u & v & E).
  set (g := Z.gcd x y) in *. pose proof (Z.gcd_nonneg x y : 0 ≤ g).
  set (k := Z.abs u + Z.abs v).
  assert (g + y * (k * x - v) = x * (u + k * y)) as E' by lia.
  assert (0 ≤ k * x - v) by (subst k; nia). assert (0 ≤ u + k * y) by (subst k; nia).
  assert (eqm r (a ^ (g + y * (k * x - v))) 1) as G
    by (rewrite E'; apply pow_eqm_1; [lia|done..]).
  rewrite Z.pow_add_r in G by (done || apply Z.mul_nonneg_nonneg; lia).
  by rewrite (pow_eqm_1 r a y) in G; rewrite ?Z.mul_1_r in G; [|lia|done..].
Qed.

(** What a certificate establishes for one prime factor [q] of [n - 1]. *)
Record pock_factor (n q : Z) : Prop := {
  pock_prime : Z.prime q;
  pock_divide : (q | n - 1);
  pock_base : ∃ a, eqm n (a ^ (n - 1)) 1 ∧ Z.gcd (a ^ ((n - 1) / q) - 1) n = 1
}.

Lemma pock_factor_divides n q r :
  1 < n → pock_factor n q → Z.prime r → (r | n) → (q | r - 1).
Proof.
  intros Hn [Hq [m Hm] (a & E1 & E2)] Hr Hrn.
  pose proof (Z.prime_ge_2 _ Hq). pose proof (Z.prime_ge_2 _ Hr).
  assert (0 < m) by nia. rewrite Hm, Z.div_mul in E2 by lia.
  destruct (Zdivide_dec q (r - 1)) as [|Hqr]; [done|exfalso].
  assert (∀ b, eqm n b 1 → eqm r b 1) as Hsub.
  { intros b Hb. destruct Hrn as [k ->]. apply Z.cong_iff_ex in Hb as [c Hc].
    apply (eqm_add_mul r (c * k)). lia. }
  apply Hsub in E1. assert (a mod r ≠ 0) as Ha.
  { intros Ha. revert E1. unfold eqm. rewrite Zpower_mod, Ha, Z.pow_0_l, Zmod_0_l by lia.
    rewrite Z.mod_1_l by lia. done. }
  pose proof (Z.fermat_nz r a Hr Ha) as F.
  set (g := Z.gcd (n - 1) (r - 1)).
  assert (g | m) as [k Hk].
  { apply (Z.gauss _ q); [rewrite Z.mul_comm, <- Hm; apply Z.gcd_divide_l|].
    rewrite Z.gcd_comm. apply Z.coprime_prime_l; [done|]. intros Hqg. apply Hqr.
    by eapply Z.divide_trans; [|apply Z.gcd_divide_r]. }
  assert (0 ≤ g) by apply Z.gcd_nonneg.
  assert (eqm r (a ^ m) 1) as Em.
  { rewrite Hk, Z.mul_comm. apply pow_eqm_1; [done|nia|].
    apply pow_gcd_eqm_1; [lia..|done|]. unfold eqm. by rewrite F, Z.mod_1_l by lia. }
  apply Z.cong_iff_ex in Em as [c Hc].
  assert (r | 1) as H1r; [|apply Z.divide_1_r_nonneg in H1r; lia].
  rewrite <- E2. apply Z.gcd_greatest; [|done]. by exists c.
Qed.

Lemma prime_divisor n : 1 < n → ∃ r, Z.prime r ∧ (r | n).
Proof.
  intros Hn. revert Hn. assert (0 ≤ n ∨ n < 0) as [Hp|] by lia; [|lia]. revert n Hp.
  refine (Z_lt_induction _ _). intros n IH Hn.
  destruct (prime_dec n) as [Hpr|Hnp]; [exists n; split; [by apply prime_alt|done]|].
  apply not_prime_divide in Hnp as (m & Hm & Hd); [|done].
  destruct (IH m) as (r & Hr & Hrm); [lia..|]. exists r. split; [done|].
  by eapply Z.divide_trans.
Qed.

Lemma prime_by_divisors n :
  1 < n → (∀ r, Z.prime r → (r | n) → n < r * r) → Z.prime n.
Proof.
  intros Hn Hr. apply prime_alt. destruct (prime_dec n) as [|Hnp]; [done|exfalso].
  apply not_prime_divide in Hnp as (u & Hu & [v Hv]); [|done].
  assert (1 < v) by (clear -Hu Hv; nia).
  assert (∃ w w', 1 < w ∧ w ≤ w' ∧ n = w * w') as (w & w' & H1 & H2 & E).
  { destruct (Z.le_gt_cases u v); [exists u, v|exists v, u]; lia. }
  destruct (prime_divisor w H1) as (r & Pr & [k Hk]).
  specialize (Hr r Pr ltac:(exists (k * w'); rewrite E, Hk; ring)).
  pose proof (Z.prime_ge_2 _ Pr). assert (r ≤ w) by (apply Z.divide_pos_le; [lia|by exists k]).
  assert (r * r ≤ w * w') by (apply Z.mul_le_mono_nonneg; lia). lia.
Qed.

Definition prod (qs : list Z) : Z := foldr Z.mul 1 qs.

Lemma prod_coprime q qs :
  Z.prime q → Forall Z.prime qs → q ∉ qs → Z.gcd q (prod qs) = 1.
Proof.
  intros Hq HP Hn. apply Z.coprime_prime_l; [done|]. intros Hd. revert Hn.
  induction HP as [|q' qs Hq' HP IH]; cbn in *.
  - apply Z.divide_1_r in Hd. pose proof (Z.prime_ge_2 _ Hq). lia.
  - intros [Hne Hn]%not_elem_of_cons. apply Z.divide_prime_mul in Hd as [Hd|Hd]; [..|done].
    + by apply Hne, Z.divide_prime_prime.
    + by apply IH.
Qed.

Lemma prod_divides qs x :
  NoDup qs → Forall Z.prime qs → Forall (λ q, (q | x)) qs → (prod qs | x).
Proof.
  intros HN HP HD. induction qs as [|q qs IH]; cbn; [apply Z.divide_1_l|].
  pose proof (NoDup_cons_1_1 _ _ HN) as Hq. apply NoDup_cons_1_2 in HN. apply Forall_cons_1 in HP as [Hpq HP].
  apply Forall_cons_1 in HD as [Hd HD]. destruct (IH HN HP HD) as [k Hk].
  rewrite Hk in Hd. rewrite Z.mul_comm in Hd.
  apply Z.gauss in Hd as [j ->]; [|by apply prod_coprime].
  exists j. rewrite Hk. fold (prod qs). ring.
Qed.

Theorem pocklington n qs :
  1 < n → NoDup qs → Forall (pock_factor n) qs → n ≤ prod qs * prod qs → Z.prime n.
Proof.
  intros Hn HN HF Hle. apply prime_by_divisors; [done|]. intros r Hr Hrn.
  assert (prod qs | r - 1) as Hd.
  { apply prod_divides; [done|..]; eapply Forall_impl; [..|exact HF| |exact HF].
    - by intros q []. 
    - intros q Hq. by eapply pock_factor_divides. }
  pose proof (Z.prime_ge_2 _ Hr). apply Z.divide_pos_le in Hd; [|lia].
  assert (0 ≤ prod qs); [|nia]. unfold prod. clear -HF.
  induction HF as [|q qs [Hq _ _] _ IH]; cbn; [lia|].
  pose proof (Z.prime_ge_2 _ Hq). nia.
Qed.

(** ** Certificates

    All of them use the base 2.  [pock_check n q qs]: [q :: qs] are the prime
    factors of [n - 1] that the certificate uses. *)
Definition half_power (n q : Z) : Z := powmod n 2 (Z.to_pos ((n - 1) / q)).

Definition pock_check (n q : Z) (qs : list Z) : bool :=
  (1 <? n) && (n <=? prod (q :: qs) * prod (q :: qs)) &&
  forallb (λ q, (1 <? q) && (q <? n) && ((n - 1) mod q =? 0)) (q :: qs) &&
  (let y := half_power n q in
   (powmod n y (Z.to_pos q) =? 1) && (Z.gcd (y - 1) n =? 1)) &&
  forallb (λ q, Z.gcd (half_power n q - 1) n =? 1) qs.

Lemma half_power_spec n q :
  1 < q < n → (n - 1) mod q = 0 → half_power n q = 2 ^ ((n - 1) / q) mod n.
Proof.
  intros Hq Hm. unfold half_power. rewrite powmod_spec, Z2Pos.id; [done|].
  apply Z.div_str_pos. lia.
Qed.

Lemma half_power_gcd n q :
  1 < q < n → (n - 1) mod q = 0 → Z.gcd (half_power n q - 1) n = 1 →
  Z.gcd (2 ^ ((n - 1) / q) - 1) n = 1.
Proof.
  intros Hq Hm HG. rewrite half_power_spec in HG by done.
  set (y := 2 ^ ((n - 1) / q)) in *. etransitivity; [|exact HG].
  rewrite <- (Z.gcd_mod_l (y - 1)), <- (Z.gcd_mod_l (y mod n - 1)) by lia.
  by rewrite Zminus_mod_idemp_l.
Qed.

Lemma pock_check_sound n q qs :
  Forall Z.prime (q :: qs) → NoDup (q :: qs) → pock_check n q qs = true → Z.prime n.
Proof.
  intros HP HN HC. unfold pock_check in HC.
  apply andb_true_iff in HC as [[[[Hn HF]%andb_true_iff HQ]%andb_true_iff
    [HY HG]%andb_true_iff]%andb_true_iff HGs].
  rewrite ?Z.ltb_lt, ?Z.leb_le, ?Z.eqb_eq in *.
  assert (∀ q', q' ∈ q :: qs → 1 < q' < n ∧ (n - 1) mod q' = 0) as HQ'.
  { intros q' Hq'. apply list_elem_of_In in Hq'.
    apply (proj1 (forallb_forall _ _) HQ) in Hq'. lia. }
  destruct (HQ' q) as [Hq Hqd]; [left|].
  assert (eqm n (2 ^ (n - 1)) 1) as E.
  { rewrite powmod_spec, Z2Pos.id, half_power_spec in HY by (done || lia).
    unfold eqm. rewrite Z.mod_1_l by done. etransitivity; [|exact HY].
    rewrite Z.mod_pow_l.
    rewrite <- Z.pow_mul_r by (try apply Z.div_pos; lia). f_equal. f_equal.
    rewrite Z.mul_comm. apply Z_div_exact_full_2; [lia|done]. }
  apply (pocklington n (q :: qs)); [done..| |done].
  rewrite Forall_forall in HP. apply Forall_forall. intros q' Hq'.
  destruct (HQ' q') as [Hb Hd]; [by apply list_elem_of_In|]. split.
  - by apply HP.
  - apply Z.mod_divide; [lia|done].
  - exists 2. split; [done|]. apply half_power_gcd; [done..|].
    destruct Hq' as [<-|Hq']; [done|].
    apply (proj1 (forallb_forall _ _) HGs) in Hq'. by apply Z.eqb_eq.
Qed.

Definition trial_division (n : Z) : bool :=
  (1 <? n) && forallb (λ d, negb (n mod d =? 0)) (seqZ 2 (Z.sqrt n - 1)).

Lemma trial_division_sound n : trial_division n = true → Z.prime n.
Proof.
  intros [Hn%Z.ltb_lt HT]%andb_true_iff. apply prime_by_divisors; [done|].
  intros r Hr Hd. apply Z.nle_gt. intros Hle. pose proof (Z.prime_ge_2 _ Hr).
  assert (In r (seqZ 2 (Z.sqrt n - 1))) as Hin.
  { apply list_elem_of_In, elem_of_seqZ. assert (r ≤ Z.sqrt n); [|lia].
    apply Z.sqrt_le_square; lia. }
  apply (proj1 (forallb_forall _ _) HT), negb_true_iff, Z.eqb_neq in Hin.
  by apply Hin, Z.mod_divide; [lia|].
Qed.

Lemma prime_127 : Z.prime 127.
Proof. apply trial_division_sound. vm_compute. reflexivity. Qed.

Lemma prime_353 : Z.prime 353.
Proof. apply trial_division_sound. vm_compute. reflexivity. Qed.

Lemma prime_75707 : Z.prime 75707.
Proof. apply trial_division_sound. vm_compute. reflexivity. Qed.

Lemma prime_8574133 : Z.prime 8574133.
Proof. apply trial_division_sound. vm_compute. reflexivity. Qed.

Create HintDb primes.
#[export] Hint Resolve prime_127 prime_353 prime_75707 prime_8574133 : primes.

Ltac certify q qs :=
  apply (pock_check_sound _ q qs);
    [repeat (apply Forall_cons_2; [solve [auto with primes]|]); apply Forall_nil_2
    |apply NoDup_ListNoDup; repeat constructor; cbn; intuition lia
    |vm_compute; reflexivity].

Lemma prime_51bits : Z.prime 1919519569386763.
Proof. certify 127 [8574133]. Qed.
#[export] Hint Resolve prime_51bits : primes.

Lemma prime_116bits : Z.prime 75445702479781427272750846543864801.
Proof. certify 75707 [1919519569386763]. Qed.
#[export] Hint Resolve prime_116bits : primes.

Lemma prime_236bits :
  Z.prime 74058212732561358302231226437062788676166966415465897661863160754340907.
Proof. certify 353 [75445702479781427272750846543864801]. Qed.

(** [2 ^ ((p - 1) / 2) = -1]: 2 is not a square modulo [p]. *)
Lemma two_half_power :
  2 ^ ((2 ^ 255 - 19 - 1) / 2) mod (2 ^ 255 - 19) = 2 ^ 255 - 19 - 1.
Proof.
  transitivity (powmod_pos reduce_25519 2 (Z.to_pos ((2 ^ 255 - 19 - 1) / 2))
    mod (2 ^ 255 - 19)); [|vm_compute; reflexivity].
  symmetry. rewrite (powmod_pos_eqm _ _ _ _ reduce_25519_reduces : _ mod _ = _).
  by rewrite Z2Pos.id by done.
Qed.

(** The modulus of the field is prime. *)
Lemma prime_25519 : Z.prime (2 ^ 255 - 19).
Proof.
  apply (pocklington _ [74058212732561358302231226437062788676166966415465897661863160754340907]);
    [done|apply NoDup_singleton|apply Forall_singleton|vm_compute; congruence].
  split; [apply prime_236bits|apply Z.mod_divide; [lia|vm_compute; reflexivity]|].
  exists 2. split.
  - replace (2 ^ 255 - 19 - 1) with ((2 ^ 255 - 19 - 1) / 2 * 2) by (vm_compute; reflexivity).
    rewrite Z.pow_mul_r by (vm_compute; congruence).
    unfold eqm. rewrite <- Z.mod_pow_l, two_half_power. vm_compute. reflexivity.
  - apply half_power_gcd; [split; reflexivity|vm_compute; reflexivity..].
Qed.
