(* ===== verification/Edwards.v ===== *)
(** * Complete twisted Edwards curves

    The group that [crypto-ops.c] computes in: the points [(x, y)] of
    [- x ^ 2 + y ^ 2 = 1 + d * x ^ 2 * y ^ 2] over the integers modulo a prime,
    with the addition law of [ge_add].  When [d] is not a square and -1 is
    one, the denominators of the law never vanish and the points are an
    abelian group; [ed_mul] is multiplication by an integer.  The
    implementation is proved against this interface in [Group.v]. *)

From Stdlib Require Import Zmod.Zmod NsatzTactic Field.
From S2P Require Export Prelude.

#[local] Open Scope Zmod_scope.

Create HintDb edwards discriminated.
#[export] Hint Constants Opaque : edwards.

(** What a curve is: the coefficient, a square root of -1, and why the law is
    complete. *)
Class EdwardsCurve (p : Z) := {
  ed_d : Zmod p;
  ed_i : Zmod p;
  ed_prime : Z.prime p;
  ed_odd : (2 < p)%Z;
  ed_i_square : ed_i * ed_i = Zmod.opp 1;
  ed_nonsquare : ∀ x : Zmod p, x * x ≠ ed_d
}.

#[export] Instance Zmod_eq_dec p : EqDecision (Zmod p).
Proof.
  intros x y. destruct (Zmod.eqb x y) eqn:E.
  - left. by apply Zmod.eqb_eq.
  - right. intros ->. by rewrite Zmod.eqb_refl in E.
Defined.

Section edwards.
Context {p : Z} {C : EdwardsCurve p}.
Hint Resolve ed_prime : typeclass_instances.
Abbreviation F := (Zmod p).
Abbreviation d := ed_d.

Add Field Fp : (Zmod.field_theory p ed_prime).

Definition ed_point : Type := F * F.

Definition on_curve (P : ed_point) : Prop :=
  let '(x, y) := P in y * y - x * x = 1 + d * x * x * y * y.

Definition ed_zero : ed_point := (0, 1).
Definition ed_opp (P : ed_point) : ed_point := (- P.1, P.2).

Definition ed_add (P Q : ed_point) : ed_point :=
  let '(x1, y1) := P in let '(x2, y2) := Q in
  let e := d * x1 * x2 * y1 * y2 in
  (Zmod.mdiv (x1 * y2 + x2 * y1) (1 + e), Zmod.mdiv (y1 * y2 + x1 * x2) (1 - e)).

(** ** Completeness *)

Lemma two_neq_0 : (1 + 1 : F) ≠ 0.
Proof.
  intros E%(f_equal Zmod.to_Z). pose proof ed_odd.
  rewrite Zmod.to_Z_add, Zmod.to_Z_1_pos, Zmod.to_Z_0, Z.mod_small in E by lia. lia.
Qed.

Lemma mul_eq_0 (a b : F) : a * b = 0 → a = 0 ∨ b = 0.
Proof. apply Zmod.mul_0_iff_prime, ed_prime. Qed.

Lemma one_neq_0 : (1 : F) ≠ 0.
Proof. apply Zmod.one_neq_zero. pose proof ed_odd. lia. Qed.

(** [d s ^ 2] is a square only when [s] is 0. *)
Lemma nonsquare_mul (r s : F) : r * r = d * s * s → s = 0.
Proof.
  intros E. destruct (decide (s = 0)) as [|Hs]; [done|exfalso].
  apply (ed_nonsquare (Zmod.mdiv r s)). field_simplify_eq; [|done].
  transitivity (r * r); [ring|]. rewrite E. ring.
Qed.

Lemma sub_eq_0 (a b : F) : a - b = 0 → a = b.
Proof. apply Zmod.sub_eq_0_iff. Qed.

(** By how much [(x, y)] misses the curve: the ideal that the identities below
    are taken in. *)
Definition gap (x y : F) : F := y * y - x * x - (1 + d * x * x * y * y).

Lemma gap_0 x y : on_curve (x, y) ↔ gap x y = 0.
Proof. unfold gap. cbn. symmetry. apply Zmod.sub_eq_0_iff. Qed.

Lemma law_complete x1 y1 x2 y2 :
  on_curve (x1, y1) → on_curve (x2, y2) →
  let e := d * x1 * x2 * y1 * y2 in 1 + e ≠ 0 ∧ 1 - e ≠ 0.
Proof.
  rewrite !gap_0. intros H1 H2 e.
  assert (e * e - 1 ≠ 0) as He.
  { intros Hs. pose proof ed_i_square as Hi. apply Zmod.sub_eq_0_iff in Hi.
    assert (∀ u : F, u * u = 1 → x1 * y1 * (ed_i * x2 + u * y2) = 0) as A.
    { intros u Hu. apply Zmod.sub_eq_0_iff in Hu.
      apply (nonsquare_mul (ed_i * x1 + u * e * y1)), sub_eq_0.
      transitivity ((ed_i * ed_i - - (1)) * (x1 * x1 - d * x1 * x1 * y1 * y1 * x2 * x2)
        + (e * e - 1) * (y1 * y1 - 1) + gap x1 y1 - d * x1 * x1 * y1 * y1 * gap x2 y2
        + (u * u - 1) * (e * e * y1 * y1 - d * x1 * x1 * y1 * y1 * y2 * y2)).
      - unfold e, gap. ring.
      - rewrite Hi, Hs, H1, H2, Hu. ring. }
    assert ((1 + 1) * (x1 * y1 * y2) = 0) as A3.
    { transitivity (x1 * y1 * (ed_i * x2 + 1 * y2) - x1 * y1 * (ed_i * x2 + - (1) * y2));
        [ring|]. rewrite !A by ring. ring. }
    apply mul_eq_0 in A3 as [A3|A3]; [by apply two_neq_0 in A3|].
    apply one_neq_0. transitivity (e * e - (e * e - 1)); [ring|]. rewrite Hs.
    unfold e. transitivity (d * x2 * (x1 * y1 * y2) * e); [unfold e; ring|].
    rewrite A3. ring. }
  split; intros E; apply He.
  - transitivity ((1 + e) * (e - 1)); [ring|]. rewrite E. ring.
  - transitivity ((1 - e) * (- e - 1)); [ring|]. rewrite E. ring.
Qed.

(** ** Closure and associativity, as identities modulo the curve equations *)

Lemma closed_identity x1 y1 x2 y2 :
  let e := d * x1 * x2 * y1 * y2 in
  let nx := x1 * y2 + x2 * y1 in let ny := y1 * y2 + x1 * x2 in
  ny * ny * (1 + e) * (1 + e) - nx * nx * (1 - e) * (1 - e)
    - ((1 - e * e) * (1 - e * e) + d * nx * nx * ny * ny) =
    (d * d * d * x1 * x1 * y1 * y1 * x2 * x2 * x2 * x2 * y2 * y2 * y2 * y2 - d * d * x1 *
       x1 * x2 * x2 * x2 * x2 * y2 * y2 * y2 * y2 + d * d * y1 * y1 * x2 * x2 * x2 * x2 *
       y2 * y2 * y2 * y2 - d * d * x2 * x2 * x2 * x2 * y2 * y2 * y2 * y2 - d * x1 * x1 * x2
       * x2 * x2 * x2 * y2 * y2 + d * x1 * x1 * x2 * x2 * y2 * y2 * y2 * y2 + d * y1 * y1 *
       x2 * x2 * x2 * x2 * y2 * y2 - d * y1 * y1 * x2 * x2 * y2 * y2 * y2 * y2 - (1 + 1) *
       d * x2 * x2 * x2 * x2 * y2 * y2 * y2 * y2 - (1 + 1) * d * x2 * x2 * y2 * y2 - (1 +
       1) * x2 * x2 * x2 * x2 * y2 * y2 + x2 * x2 * x2 * x2 + (1 + 1) * x2 * x2 * y2 * y2 *
       y2 * y2 - (1 + 1 + 1 + 1) * x2 * x2 * y2 * y2 + y2 * y2 * y2 * y2) *
      gap x1 y1
    + (d * x1 * x1 * x1 * x1 * x2 * x2 * y2 * y2 + (1 + 1) * d * x1 * x1 * x2 * x2 * y2 *
       y2 + d * y1 * y1 * y1 * y1 * x2 * x2 * y2 * y2 - (1 + 1) * d * y1 * y1 * x2 * x2 *
       y2 * y2 + d * x2 * x2 * y2 * y2 + (1 + 1) * x1 * x1 * x2 * x2 * y2 * y2 - x1 * x1 *
       x2 * x2 + x1 * x1 * y2 * y2 - (1 + 1) * y1 * y1 * x2 * x2 * y2 * y2 + y1 * y1 * x2 *
       x2 - y1 * y1 * y2 * y2 + (1 + 1) * x2 * x2 * y2 * y2 - x2 * x2 + y2 * y2 + 1) *
      gap x2 y2.
Proof. cbv zeta. unfold gap. ring. Qed.

(** The coordinates of [(x1, y1) + (x2, y2) + (x3, y3)], bracketed to the left,
    as fractions. *)
Definition sum3 (x1 y1 x2 y2 x3 y3 : F) : (F * F) * (F * F) :=
  let e := d * x1 * x2 * y1 * y2 in
  let nx := x1 * y2 + x2 * y1 in let ny := y1 * y2 + x1 * x2 in
  ((nx * (1 - e) * y3 + x3 * ny * (1 + e), (1 + e) * (1 - e) + d * x3 * y3 * nx * ny),
   (ny * (1 + e) * y3 + x3 * nx * (1 - e), (1 + e) * (1 - e) - d * x3 * y3 * nx * ny)).

Lemma assoc_identity_x x1 y1 x2 y2 x3 y3 :
  let '((a, b), _) := sum3 x1 y1 x2 y2 x3 y3 in
  let '((a', b'), _) := sum3 x3 y3 x2 y2 x1 y1 in
  a * b' - a' * b =
    (- d * d * x1 * x2 * x2 * x2 * x2 * y2 * y2 * y2 * x3 * x3 * y3 - d * d * x1 * x2 *
       x2 * x2 * y2 * y2 * y2 * y2 * x3 * y3 * y3 + d * d * y1 * x2 * x2 * x2 * x2 * y2 *
       y2 * y2 * x3 * y3 * y3 + d * d * y1 * x2 * x2 * x2 * y2 * y2 * y2 * y2 * x3 * x3 *
       y3 - d * x1 * x2 * x2 * x2 * x2 * y2 * x3 * x3 * y3 - d * x1 * x2 * x2 * x2 * y2 *
       y2 * x3 * x3 * x3 - d * x1 * x2 * x2 * x2 * y2 * y2 * x3 + d * x1 * x2 * x2 * y2 *
       y2 * y2 * y3 * y3 * y3 - d * x1 * x2 * x2 * y2 * y2 * y2 * y3 + d * x1 * x2 * y2 *
       y2 * y2 * y2 * x3 * y3 * y3 + d * y1 * x2 * x2 * x2 * x2 * y2 * x3 * y3 * y3 + d *
       y1 * x2 * x2 * x2 * y2 * y2 * y3 * y3 * y3 - d * y1 * x2 * x2 * x2 * y2 * y2 * y3 -
       d * y1 * x2 * x2 * y2 * y2 * y2 * x3 * x3 * x3 - d * y1 * x2 * x2 * y2 * y2 * y2 *
       x3 - d * y1 * x2 * y2 * y2 * y2 * y2 * x3 * x3 * y3) *
      gap x1 y1
    + (d * d * x1 * x1 * y1 * x2 * x2 * y2 * x3 * x3 * x3 * y3 * y3 - d * d * x1 * x1 * y1
       * x2 * y2 * y2 * x3 * x3 * y3 * y3 * y3 - d * d * x1 * y1 * y1 * x2 * x2 * y2 * x3 *
       x3 * y3 * y3 * y3 + d * d * x1 * y1 * y1 * x2 * y2 * y2 * x3 * x3 * x3 * y3 * y3 + d
       * x1 * x1 * x1 * x2 * x2 * y2 * x3 * x3 * y3 + d * x1 * x1 * x1 * x2 * y2 * y2 * x3
       * y3 * y3 + d * x1 * x1 * x1 * x2 * x3 * x3 * x3 * y3 * y3 + d * x1 * x1 * x1 * y2 *
       x3 * x3 * y3 * y3 * y3 - d * x1 * x1 * y1 * x2 * x2 * y2 * x3 * y3 * y3 - d * x1 *
       x1 * y1 * x2 * y2 * y2 * x3 * x3 * y3 + d * x1 * x1 * y1 * x2 * x3 * x3 * y3 * y3 *
       y3 + d * x1 * x1 * y1 * y2 * x3 * x3 * x3 * y3 * y3 - d * x1 * y1 * y1 * x2 * x2 *
       y2 * x3 * x3 * y3 - d * x1 * y1 * y1 * x2 * y2 * y2 * x3 * y3 * y3 - d * x1 * y1 *
       y1 * x2 * x3 * x3 * x3 * y3 * y3 - d * x1 * y1 * y1 * y2 * x3 * x3 * y3 * y3 * y3 +
       d * x1 * x2 * x2 * y2 * x3 * x3 * y3 + d * x1 * x2 * y2 * y2 * x3 * y3 * y3 + d * x1
       * x2 * x3 * x3 * x3 * y3 * y3 + d * x1 * y2 * x3 * x3 * y3 * y3 * y3 + d * y1 * y1 *
       y1 * x2 * x2 * y2 * x3 * y3 * y3 + d * y1 * y1 * y1 * x2 * y2 * y2 * x3 * x3 * y3 -
       d * y1 * y1 * y1 * x2 * x3 * x3 * y3 * y3 * y3 - d * y1 * y1 * y1 * y2 * x3 * x3 *
       x3 * y3 * y3 - d * y1 * x2 * x2 * y2 * x3 * y3 * y3 - d * y1 * x2 * y2 * y2 * x3 *
       x3 * y3 + d * y1 * x2 * x3 * x3 * y3 * y3 * y3 + d * y1 * y2 * x3 * x3 * x3 * y3 *
       y3 + x1 * x1 * x1 * x2 * x3 * x3 * x3 - x1 * x1 * x1 * x2 * x3 * y3 * y3 + x1 * x1 *
       x1 * x2 * x3 + x1 * x1 * x1 * y2 * x3 * x3 * y3 - x1 * x1 * x1 * y2 * y3 * y3 * y3 +
       x1 * x1 * x1 * y2 * y3 + x1 * x1 * y1 * x2 * x3 * x3 * y3 - x1 * x1 * y1 * x2 * y3 *
       y3 * y3 + x1 * x1 * y1 * x2 * y3 + x1 * x1 * y1 * y2 * x3 * x3 * x3 - x1 * x1 * y1 *
       y2 * x3 * y3 * y3 + x1 * x1 * y1 * y2 * x3 - x1 * y1 * y1 * x2 * x3 * x3 * x3 + x1 *
       y1 * y1 * x2 * x3 * y3 * y3 - x1 * y1 * y1 * x2 * x3 - x1 * y1 * y1 * y2 * x3 * x3 *
       y3 + x1 * y1 * y1 * y2 * y3 * y3 * y3 - x1 * y1 * y1 * y2 * y3 + x1 * x2 * x3 * x3 *
       x3 - x1 * x2 * x3 * y3 * y3 + x1 * x2 * x3 + x1 * y2 * x3 * x3 * y3 - x1 * y2 * y3 *
       y3 * y3 + x1 * y2 * y3 - y1 * y1 * y1 * x2 * x3 * x3 * y3 + y1 * y1 * y1 * x2 * y3 *
       y3 * y3 - y1 * y1 * y1 * x2 * y3 - y1 * y1 * y1 * y2 * x3 * x3 * x3 + y1 * y1 * y1 *
       y2 * x3 * y3 * y3 - y1 * y1 * y1 * y2 * x3 + y1 * x2 * x3 * x3 * y3 - y1 * x2 * y3 *
       y3 * y3 + y1 * x2 * y3 + y1 * y2 * x3 * x3 * x3 - y1 * y2 * x3 * y3 * y3 + y1 * y2 *
       x3) *
      gap x2 y2
    + (- d * x1 * x1 * y1 * x2 * x2 * y2 * x3 + d * x1 * x1 * y1 * x2 * y2 * y2 * y3 + d *
       x1 * y1 * y1 * x2 * x2 * y2 * y3 - d * x1 * y1 * y1 * x2 * y2 * y2 * x3 - x1 * x1 *
       x1 * x2 * x2 * x2 * x3 - x1 * x1 * x1 * x2 * x2 * y2 * y3 + x1 * x1 * x1 * x2 * y2 *
       y2 * x3 - x1 * x1 * x1 * x2 * x3 + x1 * x1 * x1 * y2 * y2 * y2 * y3 - x1 * x1 * x1 *
       y2 * y3 - x1 * x1 * y1 * x2 * x2 * x2 * y3 - x1 * x1 * y1 * x2 * x2 * y2 * x3 + x1 *
       x1 * y1 * x2 * y2 * y2 * y3 - x1 * x1 * y1 * x2 * y3 + x1 * x1 * y1 * y2 * y2 * y2 *
       x3 - x1 * x1 * y1 * y2 * x3 + x1 * y1 * y1 * x2 * x2 * x2 * x3 + x1 * y1 * y1 * x2 *
       x2 * y2 * y3 - x1 * y1 * y1 * x2 * y2 * y2 * x3 + x1 * y1 * y1 * x2 * x3 - x1 * y1 *
       y1 * y2 * y2 * y2 * y3 + x1 * y1 * y1 * y2 * y3 - x1 * x2 * x2 * x2 * x3 - x1 * x2 *
       x2 * y2 * y3 + x1 * x2 * y2 * y2 * x3 - x1 * x2 * x3 + x1 * y2 * y2 * y2 * y3 - x1 *
       y2 * y3 + y1 * y1 * y1 * x2 * x2 * x2 * y3 + y1 * y1 * y1 * x2 * x2 * y2 * x3 - y1 *
       y1 * y1 * x2 * y2 * y2 * y3 + y1 * y1 * y1 * x2 * y3 - y1 * y1 * y1 * y2 * y2 * y2 *
       x3 + y1 * y1 * y1 * y2 * x3 - y1 * x2 * x2 * x2 * y3 - y1 * x2 * x2 * y2 * x3 + y1 *
       x2 * y2 * y2 * y3 - y1 * x2 * y3 + y1 * y2 * y2 * y2 * x3 - y1 * y2 * x3) *
      gap x3 y3.
Proof. unfold sum3, gap. ring. Qed.

Lemma assoc_identity_y x1 y1 x2 y2 x3 y3 :
  let '(_, (a, b)) := sum3 x1 y1 x2 y2 x3 y3 in
  let '(_, (a', b')) := sum3 x3 y3 x2 y2 x1 y1 in
  a * b' - a' * b =
    (d * d * x1 * x2 * x2 * x2 * x2 * y2 * y2 * y2 * x3 * y3 * y3 + d * d * x1 * x2 * x2
       * x2 * y2 * y2 * y2 * y2 * x3 * x3 * y3 - d * d * y1 * x2 * x2 * x2 * x2 * y2 * y2 *
       y2 * x3 * x3 * y3 - d * d * y1 * x2 * x2 * x2 * y2 * y2 * y2 * y2 * x3 * y3 * y3 + d
       * x1 * x2 * x2 * x2 * x2 * y2 * x3 * y3 * y3 + d * x1 * x2 * x2 * x2 * y2 * y2 * y3
       * y3 * y3 - d * x1 * x2 * x2 * x2 * y2 * y2 * y3 - d * x1 * x2 * x2 * y2 * y2 * y2 *
       x3 * x3 * x3 - d * x1 * x2 * x2 * y2 * y2 * y2 * x3 - d * x1 * x2 * y2 * y2 * y2 *
       y2 * x3 * x3 * y3 - d * y1 * x2 * x2 * x2 * x2 * y2 * x3 * x3 * y3 - d * y1 * x2 *
       x2 * x2 * y2 * y2 * x3 * x3 * x3 - d * y1 * x2 * x2 * x2 * y2 * y2 * x3 + d * y1 *
       x2 * x2 * y2 * y2 * y2 * y3 * y3 * y3 - d * y1 * x2 * x2 * y2 * y2 * y2 * y3 + d *
       y1 * x2 * y2 * y2 * y2 * y2 * x3 * y3 * y3) *
      gap x1 y1
    + (d * d * x1 * x1 * y1 * x2 * x2 * y2 * x3 * x3 * y3 * y3 * y3 - d * d * x1 * x1 * y1
       * x2 * y2 * y2 * x3 * x3 * x3 * y3 * y3 - d * d * x1 * y1 * y1 * x2 * x2 * y2 * x3 *
       x3 * x3 * y3 * y3 + d * d * x1 * y1 * y1 * x2 * y2 * y2 * x3 * x3 * y3 * y3 * y3 - d
       * x1 * x1 * x1 * x2 * x2 * y2 * x3 * y3 * y3 - d * x1 * x1 * x1 * x2 * y2 * y2 * x3
       * x3 * y3 + d * x1 * x1 * x1 * x2 * x3 * x3 * y3 * y3 * y3 + d * x1 * x1 * x1 * y2 *
       x3 * x3 * x3 * y3 * y3 + d * x1 * x1 * y1 * x2 * x2 * y2 * x3 * x3 * y3 + d * x1 *
       x1 * y1 * x2 * y2 * y2 * x3 * y3 * y3 + d * x1 * x1 * y1 * x2 * x3 * x3 * x3 * y3 *
       y3 + d * x1 * x1 * y1 * y2 * x3 * x3 * y3 * y3 * y3 + d * x1 * y1 * y1 * x2 * x2 *
       y2 * x3 * y3 * y3 + d * x1 * y1 * y1 * x2 * y2 * y2 * x3 * x3 * y3 - d * x1 * y1 *
       y1 * x2 * x3 * x3 * y3 * y3 * y3 - d * x1 * y1 * y1 * y2 * x3 * x3 * x3 * y3 * y3 -
       d * x1 * x2 * x2 * y2 * x3 * y3 * y3 - d * x1 * x2 * y2 * y2 * x3 * x3 * y3 + d * x1
       * x2 * x3 * x3 * y3 * y3 * y3 + d * x1 * y2 * x3 * x3 * x3 * y3 * y3 - d * y1 * y1 *
       y1 * x2 * x2 * y2 * x3 * x3 * y3 - d * y1 * y1 * y1 * x2 * y2 * y2 * x3 * y3 * y3 -
       d * y1 * y1 * y1 * x2 * x3 * x3 * x3 * y3 * y3 - d * y1 * y1 * y1 * y2 * x3 * x3 *
       y3 * y3 * y3 + d * y1 * x2 * x2 * y2 * x3 * x3 * y3 + d * y1 * x2 * y2 * y2 * x3 *
       y3 * y3 + d * y1 * x2 * x3 * x3 * x3 * y3 * y3 + d * y1 * y2 * x3 * x3 * y3 * y3 *
       y3 + x1 * x1 * x1 * x2 * x3 * x3 * y3 - x1 * x1 * x1 * x2 * y3 * y3 * y3 + x1 * x1 *
       x1 * x2 * y3 + x1 * x1 * x1 * y2 * x3 * x3 * x3 - x1 * x1 * x1 * y2 * x3 * y3 * y3 +
       x1 * x1 * x1 * y2 * x3 + x1 * x1 * y1 * x2 * x3 * x3 * x3 - x1 * x1 * y1 * x2 * x3 *
       y3 * y3 + x1 * x1 * y1 * x2 * x3 + x1 * x1 * y1 * y2 * x3 * x3 * y3 - x1 * x1 * y1 *
       y2 * y3 * y3 * y3 + x1 * x1 * y1 * y2 * y3 - x1 * y1 * y1 * x2 * x3 * x3 * y3 + x1 *
       y1 * y1 * x2 * y3 * y3 * y3 - x1 * y1 * y1 * x2 * y3 - x1 * y1 * y1 * y2 * x3 * x3 *
       x3 + x1 * y1 * y1 * y2 * x3 * y3 * y3 - x1 * y1 * y1 * y2 * x3 + x1 * x2 * x3 * x3 *
       y3 - x1 * x2 * y3 * y3 * y3 + x1 * x2 * y3 + x1 * y2 * x3 * x3 * x3 - x1 * y2 * x3 *
       y3 * y3 + x1 * y2 * x3 - y1 * y1 * y1 * x2 * x3 * x3 * x3 + y1 * y1 * y1 * x2 * x3 *
       y3 * y3 - y1 * y1 * y1 * x2 * x3 - y1 * y1 * y1 * y2 * x3 * x3 * y3 + y1 * y1 * y1 *
       y2 * y3 * y3 * y3 - y1 * y1 * y1 * y2 * y3 + y1 * x2 * x3 * x3 * x3 - y1 * x2 * x3 *
       y3 * y3 + y1 * x2 * x3 + y1 * y2 * x3 * x3 * y3 - y1 * y2 * y3 * y3 * y3 + y1 * y2 *
       y3) *
      gap x2 y2
    + (- d * x1 * x1 * y1 * x2 * x2 * y2 * y3 + d * x1 * x1 * y1 * x2 * y2 * y2 * x3 + d *
       x1 * y1 * y1 * x2 * x2 * y2 * x3 - d * x1 * y1 * y1 * x2 * y2 * y2 * y3 - x1 * x1 *
       x1 * x2 * x2 * x2 * y3 - x1 * x1 * x1 * x2 * x2 * y2 * x3 + x1 * x1 * x1 * x2 * y2 *
       y2 * y3 - x1 * x1 * x1 * x2 * y3 + x1 * x1 * x1 * y2 * y2 * y2 * x3 - x1 * x1 * x1 *
       y2 * x3 - x1 * x1 * y1 * x2 * x2 * x2 * x3 - x1 * x1 * y1 * x2 * x2 * y2 * y3 + x1 *
       x1 * y1 * x2 * y2 * y2 * x3 - x1 * x1 * y1 * x2 * x3 + x1 * x1 * y1 * y2 * y2 * y2 *
       y3 - x1 * x1 * y1 * y2 * y3 + x1 * y1 * y1 * x2 * x2 * x2 * y3 + x1 * y1 * y1 * x2 *
       x2 * y2 * x3 - x1 * y1 * y1 * x2 * y2 * y2 * y3 + x1 * y1 * y1 * x2 * y3 - x1 * y1 *
       y1 * y2 * y2 * y2 * x3 + x1 * y1 * y1 * y2 * x3 - x1 * x2 * x2 * x2 * y3 - x1 * x2 *
       x2 * y2 * x3 + x1 * x2 * y2 * y2 * y3 - x1 * x2 * y3 + x1 * y2 * y2 * y2 * x3 - x1 *
       y2 * x3 + y1 * y1 * y1 * x2 * x2 * x2 * x3 + y1 * y1 * y1 * x2 * x2 * y2 * y3 - y1 *
       y1 * y1 * x2 * y2 * y2 * x3 + y1 * y1 * y1 * x2 * x3 - y1 * y1 * y1 * y2 * y2 * y2 *
       y3 + y1 * y1 * y1 * y2 * y3 - y1 * x2 * x2 * x2 * x3 - y1 * x2 * x2 * y2 * y3 + y1 *
       x2 * y2 * y2 * x3 - y1 * x2 * x3 + y1 * y2 * y2 * y2 * y3 - y1 * y2 * y3) *
      gap x3 y3.
Proof. unfold sum3, gap. ring. Qed.

(** ** The group laws *)

Lemma div_eq (a b a' b' : F) :
  b ≠ 0 → b' ≠ 0 → a * b' = a' * b → Zmod.mdiv a b = Zmod.mdiv a' b'.
Proof. intros Hb Hb' E. field_simplify_eq; [|done]. rewrite E. ring. Qed.

Lemma ed_add_closed P Q : on_curve P → on_curve Q → on_curve (ed_add P Q).
Proof.
  destruct P as [x1 y1], Q as [x2 y2]. intros H1 H2.
  destruct (law_complete _ _ _ _ H1 H2) as [E1 E2].
  apply gap_0 in H1, H2. pose proof (closed_identity x1 y1 x2 y2) as C'.
  rewrite H1, H2 in C'. cbv zeta in *. unfold ed_add. apply gap_0.
  assert (∀ a b : F, a * 0 + b * 0 = 0) as Z0 by (intros; ring). rewrite Z0 in C'.
  revert E1 E2 C'. generalize (d * x1 * x2 * y1 * y2) (x1 * y2 + x2 * y1) (y1 * y2 + x1 * x2).
  intros e nx ny E1 E2 C'.
  assert (nx = Zmod.mdiv nx (1 + e) * (1 + e)) as Hu by (field; done).
  assert (ny = Zmod.mdiv ny (1 - e) * (1 - e)) as Hv by (field; done).
  set (u := Zmod.mdiv nx (1 + e)) in *. set (v := Zmod.mdiv ny (1 - e)) in *.
  clearbody u v. subst nx ny.
  assert ((1 + e) * (1 + e) * ((1 - e) * (1 - e)) * gap u v = 0) as G.
  { etransitivity; [|exact C']. unfold gap. ring. }
  by apply mul_eq_0 in G as [[[]%mul_eq_0|[]%mul_eq_0]%mul_eq_0|].
Qed.

Lemma ed_add_comm P Q : ed_add P Q = ed_add Q P.
Proof.
  destruct P as [x1 y1], Q as [x2 y2]. cbn. f_equal; f_equal; ring.
Qed.

Lemma on_curve_zero : on_curve ed_zero.
Proof. cbn. ring. Qed.

Lemma ed_add_0_l P : ed_add ed_zero P = P.
Proof.
  destruct P as [x y]. cbn.
  replace (1 + d * 0 * x * 1 * y) with (1 : F) by ring.
  replace (1 - d * 0 * x * 1 * y) with (1 : F) by ring.
  rewrite !Zmod.div_1_r. f_equal; ring.
Qed.

Lemma ed_add_0_r P : ed_add P ed_zero = P.
Proof. rewrite ed_add_comm. apply ed_add_0_l. Qed.

Lemma on_curve_opp P : on_curve P → on_curve (ed_opp P).
Proof.
  destruct P as [x y]. cbn. intros E.
  transitivity (y * y - x * x); [ring|]. rewrite E. ring.
Qed.

Lemma ed_add_opp_r P : on_curve P → ed_add P (ed_opp P) = ed_zero.
Proof.
  destruct P as [x y]. intros H. pose proof (on_curve_opp _ H) as H'. cbn in H'.
  destruct (law_complete _ _ _ _ H H') as [E1 E2]. cbn in *. unfold ed_zero. f_equal.
  - replace (x * y + - x * y) with (0 : F) by ring. unfold Zmod.mdiv. ring.
  - replace (y * y + x * - x) with (1 - d * x * - x * y * y);
      [by apply Zmod.mdiv_same_prime, E2; apply ed_prime|].
    transitivity (1 + d * x * x * y * y); [ring|]. rewrite <- H. ring.
Qed.

Lemma ed_opp_opp P : ed_opp (ed_opp P) = P.
Proof. destruct P as [x y]. unfold ed_opp. cbn. f_equal. ring. Qed.

Lemma sum3_frac x1 y1 x2 y2 x3 y3 :
  on_curve (x1, y1) → on_curve (x2, y2) → on_curve (x3, y3) →
  let '((a, b), (a', b')) := sum3 x1 y1 x2 y2 x3 y3 in
  b ≠ 0 ∧ b' ≠ 0 ∧
  ed_add (ed_add (x1, y1) (x2, y2)) (x3, y3) = (Zmod.mdiv a b, Zmod.mdiv a' b').
Proof.
  intros H1 H2 H3. pose proof (ed_add_closed _ _ H1 H2) as H12.
  destruct (law_complete _ _ _ _ H1 H2) as [E1 E2]. cbv zeta in *.
  unfold ed_add at 1 in H12. destruct (law_complete _ _ _ _ H12 H3) as [E3 E4].
  cbv zeta in *. unfold sum3, ed_add. clear H1 H2 H3 H12. revert E1 E2 E3 E4.
  generalize (d * x1 * x2 * y1 * y2) (x1 * y2 + x2 * y1) (y1 * y2 + x1 * x2).
  intros e nx ny E1 E2 E3 E4.
  assert (nx = Zmod.mdiv nx (1 + e) * (1 + e)) as Hu by (field; done).
  assert (ny = Zmod.mdiv ny (1 - e) * (1 - e)) as Hv by (field; done).
  set (u := Zmod.mdiv nx (1 + e)) in *. set (v := Zmod.mdiv ny (1 - e)) in *.
  clearbody u v. subst nx ny.
  assert (∀ a b c : F, a ≠ 0 → b ≠ 0 → c ≠ 0 → a * b * c ≠ 0) as NZ.
  { intros a b c Ha Hb Hc [[?|?]%mul_eq_0|?]%mul_eq_0; done. }
  assert ((1 + e) * (1 - e) + d * x3 * y3 * (u * (1 + e)) * (v * (1 - e)) ≠ 0) as B1.
  { intros B. apply (NZ _ _ _ E1 E2 E3). etransitivity; [|exact B]. ring. }
  assert ((1 + e) * (1 - e) - d * x3 * y3 * (u * (1 + e)) * (v * (1 - e)) ≠ 0) as B2.
  { intros B. apply (NZ _ _ _ E1 E2 E4). etransitivity; [|exact B]. ring. }
  split_and!; [done..|]. f_equal; apply div_eq; (done || ring).
Qed.

Lemma ed_add_assoc P Q R :
  on_curve P → on_curve Q → on_curve R →
  ed_add P (ed_add Q R) = ed_add (ed_add P Q) R.
Proof.
  destruct P as [x1 y1], Q as [x2 y2], R as [x3 y3]. intros H1 H2 H3.
  rewrite (ed_add_comm (x1, y1)), (ed_add_comm (x2, y2) (x3, y3)).
  pose proof (sum3_frac _ _ _ _ _ _ H1 H2 H3) as L.
  pose proof (sum3_frac _ _ _ _ _ _ H3 H2 H1) as R.
  pose proof (assoc_identity_x x1 y1 x2 y2 x3 y3) as X.
  pose proof (assoc_identity_y x1 y1 x2 y2 x3 y3) as Y.
  apply gap_0 in H1, H2, H3. rewrite H1, H2, H3 in X, Y.
  destruct (sum3 x1 y1 x2 y2 x3 y3) as [[a b] [a' b']].
  destruct (sum3 x3 y3 x2 y2 x1 y1) as [[c e] [c' e']].
  destruct L as (Hb & Hb' & ->), R as (He & He' & ->).
  assert (∀ q1 q2 q3 : F, q1 * 0 + q2 * 0 + q3 * 0 = 0) as Z0 by (intros; ring).
  rewrite Z0 in X, Y. apply sub_eq_0 in X, Y.
  f_equal; by apply div_eq.
Qed.

Hint Resolve on_curve_zero ed_add_closed on_curve_opp : edwards.

Lemma ed_add_swap P Q R S :
  on_curve P → on_curve Q → on_curve R → on_curve S →
  ed_add (ed_add P Q) (ed_add R S) = ed_add (ed_add P R) (ed_add Q S).
Proof.
  intros. rewrite <- !ed_add_assoc by auto with edwards. f_equal.
  rewrite !(ed_add_assoc Q), !(ed_add_assoc R) by auto with edwards.
  by rewrite (ed_add_comm Q R).
Qed.

Lemma ed_opp_add P Q : ed_opp (ed_add P Q) = ed_add (ed_opp P) (ed_opp Q).
Proof.
  destruct P as [x1 y1], Q as [x2 y2]. cbn. unfold ed_opp. cbn [fst snd].
  replace (d * - x1 * - x2 * y1 * y2) with (d * x1 * x2 * y1 * y2) by ring.
  f_equal; unfold Zmod.mdiv; ring.
Qed.

Lemma ed_opp_zero : ed_opp ed_zero = ed_zero.
Proof. unfold ed_opp, ed_zero. cbn. f_equal. ring. Qed.

(** ** Multiplication by an integer *)

Fixpoint ed_pmul (n : positive) (P : ed_point) : ed_point :=
  match n with
  | xH => P
  | xO n' => let Q := ed_pmul n' P in ed_add Q Q
  | xI n' => let Q := ed_pmul n' P in ed_add (ed_add Q Q) P
  end.

Definition ed_mul (n : Z) (P : ed_point) : ed_point :=
  match n with
  | Z0 => ed_zero
  | Zpos n => ed_pmul n P
  | Zneg n => ed_opp (ed_pmul n P)
  end.

Lemma on_curve_pmul n P : on_curve P → on_curve (ed_pmul n P).
Proof. intros HP. induction n; cbn [ed_pmul]; auto with edwards. Qed.
Hint Resolve on_curve_pmul : edwards.

Lemma on_curve_mul n P : on_curve P → on_curve (ed_mul n P).
Proof. destruct n; cbn [ed_mul]; auto with edwards. Qed.
Hint Resolve on_curve_mul : edwards.

Lemma ed_pmul_succ n P : on_curve P → ed_pmul (Pos.succ n) P = ed_add (ed_pmul n P) P.
Proof.
  intros HP. induction n as [n IH|n IH|]; [|done..].
  change (Pos.succ n~1) with ((Pos.succ n)~0)%positive. cbn [ed_pmul]. rewrite IH, ed_add_swap by auto with edwards.
  by rewrite <- !ed_add_assoc by auto with edwards.
Qed.

Lemma ed_mul_succ n P : on_curve P → ed_mul (Z.succ n) P = ed_add (ed_mul n P) P.
Proof.
  intros HP. destruct n as [|n|n].
  - cbn [Z.succ Z.add ed_mul ed_pmul]. by rewrite ed_add_0_l.
  - rewrite <- Pos2Z.inj_succ. by apply ed_pmul_succ.
  - destruct (Pos.eq_dec n 1) as [->|Hn].
    + change (ed_mul (Z.succ (-1)) P) with (ed_zero : ed_point).
      cbn [ed_mul ed_pmul]. by rewrite ed_add_comm, ed_add_opp_r.
    + rewrite <- (Pos.succ_pred n Hn). set (m := Pos.pred n).
      replace (Z.succ (Z.neg (Pos.succ m))) with (Z.neg m) by lia.
      cbn [ed_mul]. rewrite ed_pmul_succ, ed_opp_add by done.
      rewrite <- ed_add_assoc, (ed_add_comm (ed_opp P)), ed_add_opp_r by auto with edwards.
      by rewrite ed_add_0_r.
Qed.

Lemma ed_mul_pred n P : on_curve P → ed_mul (Z.pred n) P = ed_add (ed_mul n P) (ed_opp P).
Proof.
  intros HP. rewrite <- (Z.succ_pred n) at 2. rewrite ed_mul_succ by done.
  rewrite <- ed_add_assoc, ed_add_opp_r by auto with edwards. by rewrite ed_add_0_r.
Qed.

Lemma ed_mul_add a b P :
  on_curve P → ed_mul (a + b) P = ed_add (ed_mul a P) (ed_mul b P).
Proof.
  intros HP. revert a. refine (Z.peano_ind _ _ _ _).
  - cbn [ed_mul]. by rewrite ed_add_0_l.
  - intros a IH. rewrite Z.add_succ_l, !ed_mul_succ, IH by done.
    rewrite <- !ed_add_assoc by auto with edwards. by rewrite (ed_add_comm P).
  - intros a IH. rewrite Z.add_pred_l, !ed_mul_pred, IH by done.
    rewrite <- !ed_add_assoc by auto with edwards. by rewrite (ed_add_comm (ed_opp P)).
Qed.

Lemma ed_mul_opp n P : ed_mul (- n) P = ed_opp (ed_mul n P).
Proof. destruct n; cbn; by rewrite ?ed_opp_zero, ?ed_opp_opp. Qed.

Lemma ed_mul_1 P : ed_mul 1 P = P.
Proof. done. Qed.

Lemma ed_mul_mul a b P : on_curve P → ed_mul a (ed_mul b P) = ed_mul (a * b) P.
Proof.
  intros HP. revert a. refine (Z.peano_ind _ _ _ _); [done|..].
  - intros a IH. rewrite ed_mul_succ, IH, Z.mul_succ_l, ed_mul_add by auto with edwards.
    done.
  - intros a IH. rewrite ed_mul_pred, IH, Z.mul_pred_l by auto with edwards.
    unfold Z.sub. by rewrite ed_mul_add, ed_mul_opp by done.
Qed.

Lemma ed_mul_add_point a P Q :
  on_curve P → on_curve Q → ed_mul a (ed_add P Q) = ed_add (ed_mul a P) (ed_mul a Q).
Proof.
  intros HP HQ. revert a. refine (Z.peano_ind _ _ _ _).
  - cbn [ed_mul]. by rewrite ed_add_0_l.
  - intros a IH. rewrite !ed_mul_succ, IH by auto with edwards.
    apply ed_add_swap; auto with edwards.
  - intros a IH. rewrite !ed_mul_pred, IH, ed_opp_add by auto with edwards.
    apply ed_add_swap; auto with edwards.
Qed.
End edwards.

#[export] Hint Resolve on_curve_zero ed_add_closed on_curve_opp on_curve_pmul on_curve_mul
  : edwards.
#[global] Arguments ed_point p : clear implicits.
