(* ===== verification/Group.v ===== *)
(** * Group elements: [ge_*] of [crypto-ops.c]

    The five representations of a curve point that [crypto-ops.h] declares, the
    conversions between them, and the formulas for addition, subtraction and
    doubling.  Every operation is a sequence of the field operations of
    [Field.v], in the order of the source, and fails ([None]) as soon as one of
    them overflows a machine integer. *)

From S2P Require Export Field.

#[local] Open Scope Z_scope.

(** ** The representations ([crypto-ops.h]) *)

Abbreviation fe := (list Z).

(** [(X : Y : Z)], [x = X / Z], [y = Y / Z] *)
Record ge_p2 := { p2_X : fe; p2_Y : fe; p2_Z : fe }.

(** [((X : Y : Z), T)], the same with [x y = T / Z] *)
Record ge_p3 := { p3_X : fe; p3_Y : fe; p3_Z : fe; p3_T : fe }.

(** [((X : Z), (Y : T))], [x = X / Z], [y = Y / T] *)
Record ge_p1p1 := { p1_X : fe; p1_Y : fe; p1_Z : fe; p1_T : fe }.

(** [(y + x, y - x, 2 d x y)] *)
Record ge_precomp := { yplusx : fe; yminusx : fe; xy2d : fe }.

(** [(Y + X, Y - X, Z, 2 d T)] *)
Record ge_cached := { YplusX : fe; YminusX : fe; c_Z : fe; T2d : fe }.

(** ** Constants ([crypto-ops-data.c]) *)

Definition fe_d : fe :=
  [-10913610; 13857413; -15372611; 6949391; 114729; -8787816; -6275908; -3247719;
   -18696448; -12055116].

Definition fe_sqrtm1 : fe :=
  [-32595792; -7943725; 9377950; 3500415; 12389472; -272473; -25146209; -2005654;
   326686; 11406482].

Definition fe_d2 : fe :=
  [-21827239; -5839606; -30745221; 13898782; 229458; 15978800; -12551817; -6495438;
   29715968; 9444199].

Definition ge_p3_identity : ge_p3 := {|
  p3_X := fe_0; p3_Y := fe_1; p3_Z := fe_1; p3_T := fe_0 |}.

(** ** Conversions *)

Definition ge_p1p1_to_p2 (p : ge_p1p1) : option ge_p2 :=
  rX ← fe_mul (p1_X p) (p1_T p);
  rY ← fe_mul (p1_Y p) (p1_Z p);
  rZ ← fe_mul (p1_Z p) (p1_T p);
  Some {| p2_X := rX; p2_Y := rY; p2_Z := rZ |}.

Definition ge_p1p1_to_p3 (p : ge_p1p1) : option ge_p3 :=
  rX ← fe_mul (p1_X p) (p1_T p);
  rY ← fe_mul (p1_Y p) (p1_Z p);
  rZ ← fe_mul (p1_Z p) (p1_T p);
  rT ← fe_mul (p1_X p) (p1_Y p);
  Some {| p3_X := rX; p3_Y := rY; p3_Z := rZ; p3_T := rT |}.

Definition ge_p3_to_cached (p : ge_p3) : option ge_cached :=
  rYplusX ← fe_add (p3_Y p) (p3_X p);
  rYminusX ← fe_sub (p3_Y p) (p3_X p);
  let rZ := fe_copy (p3_Z p) in
  rT2d ← fe_mul (p3_T p) fe_d2;
  Some {| YplusX := rYplusX; YminusX := rYminusX; c_Z := rZ; T2d := rT2d |}.

Definition ge_p3_to_p2 (p : ge_p3) : ge_p2 :=
  {| p2_X := fe_copy (p3_X p); p2_Y := fe_copy (p3_Y p); p2_Z := fe_copy (p3_Z p) |}.

(** ** Neutral elements *)

Definition ge_p2_0 : ge_p2 := {| p2_X := fe_0; p2_Y := fe_1; p2_Z := fe_1 |}.

Definition ge_p3_0 : ge_p3 :=
  {| p3_X := fe_0; p3_Y := fe_1; p3_Z := fe_1; p3_T := fe_0 |}.

Definition ge_precomp_0 : ge_precomp :=
  {| yplusx := fe_1; yminusx := fe_1; xy2d := fe_0 |}.

Definition ge_cached_0 : ge_cached :=
  {| YplusX := fe_1; YminusX := fe_1; c_Z := fe_1; T2d := fe_0 |}.

(** ** Addition, subtraction, doubling *)

Definition ge_add (p : ge_p3) (q : ge_cached) : option ge_p1p1 :=
  rX ← fe_add (p3_Y p) (p3_X p);
  rY ← fe_sub (p3_Y p) (p3_X p);
  rZ ← fe_mul rX (YplusX q);
  rY ← fe_mul rY (YminusX q);
  rT ← fe_mul (T2d q) (p3_T p);
  rX ← fe_mul (p3_Z p) (c_Z q);
  t0 ← fe_add rX rX;
  rX ← fe_sub rZ rY;
  rY ← fe_add rZ rY;
  rZ ← fe_add t0 rT;
  rT ← fe_sub t0 rT;
  Some {| p1_X := rX; p1_Y := rY; p1_Z := rZ; p1_T := rT |}.

Definition ge_sub (p : ge_p3) (q : ge_cached) : option ge_p1p1 :=
  rX ← fe_add (p3_Y p) (p3_X p);
  rY ← fe_sub (p3_Y p) (p3_X p);
  rZ ← fe_mul rX (YminusX q);
  rY ← fe_mul rY (YplusX q);
  rT ← fe_mul (T2d q) (p3_T p);
  rX ← fe_mul (p3_Z p) (c_Z q);
  t0 ← fe_add rX rX;
  rX ← fe_sub rZ rY;
  rY ← fe_add rZ rY;
  rZ ← fe_sub t0 rT;
  rT ← fe_add t0 rT;
  Some {| p1_X := rX; p1_Y := rY; p1_Z := rZ; p1_T := rT |}.

Definition ge_madd (p : ge_p3) (q : ge_precomp) : option ge_p1p1 :=
  rX ← fe_add (p3_Y p) (p3_X p);
  rY ← fe_sub (p3_Y p) (p3_X p);
  rZ ← fe_mul rX (yplusx q);
  rY ← fe_mul rY (yminusx q);
  rT ← fe_mul (xy2d q) (p3_T p);
  t0 ← fe_add (p3_Z p) (p3_Z p);
  rX ← fe_sub rZ rY;
  rY ← fe_add rZ rY;
  rZ ← fe_add t0 rT;
  rT ← fe_sub t0 rT;
  Some {| p1_X := rX; p1_Y := rY; p1_Z := rZ; p1_T := rT |}.

Definition ge_msub (p : ge_p3) (q : ge_precomp) : option ge_p1p1 :=
  rX ← fe_add (p3_Y p) (p3_X p);
  rY ← fe_sub (p3_Y p) (p3_X p);
  rZ ← fe_mul rX (yminusx q);
  rY ← fe_mul rY (yplusx q);
  rT ← fe_mul (xy2d q) (p3_T p);
  t0 ← fe_add (p3_Z p) (p3_Z p);
  rX ← fe_sub rZ rY;
  rY ← fe_add rZ rY;
  rZ ← fe_sub t0 rT;
  rT ← fe_add t0 rT;
  Some {| p1_X := rX; p1_Y := rY; p1_Z := rZ; p1_T := rT |}.

Definition ge_p2_dbl (p : ge_p2) : option ge_p1p1 :=
  rX ← fe_sq (p2_X p);
  rZ ← fe_sq (p2_Y p);
  rT ← fe_sq2 (p2_Z p);
  rY ← fe_add (p2_X p) (p2_Y p);
  t0 ← fe_sq rY;
  rY ← fe_add rZ rX;
  rZ ← fe_sub rZ rX;
  rX ← fe_sub t0 rY;
  rT ← fe_sub rT rZ;
  Some {| p1_X := rX; p1_Y := rY; p1_Z := rZ; p1_T := rT |}.

Definition ge_p3_dbl (p : ge_p3) : option ge_p1p1 := ge_p2_dbl (ge_p3_to_p2 p).

Definition ge_mul8 (t : ge_p2) : option ge_p1p1 :=
  r ← ge_p2_dbl t;
  u ← ge_p1p1_to_p2 r;
  r ← ge_p2_dbl u;
  u ← ge_p1p1_to_p2 r;
  ge_p2_dbl u.

(** ** Encoding

    [s[31] ^= fe_isnegative(x) << 7] *)
Definition set_sign (s : list Z) (b : Z) : list Z :=
  <[31%nat := uwrap 8 (Z.lxor (s !!! 31%nat) (Z.shiftl b 7))]> s.

Definition ge_p3_tobytes (h : ge_p3) : option (list Z) :=
  recip ← fe_invert (p3_Z h);
  x ← fe_mul (p3_X h) recip;
  y ← fe_mul (p3_Y h) recip;
  s ← fe_tobytes y;
  b ← fe_isnegative x;
  Some (set_sign s b).

Definition ge_tobytes (h : ge_p2) : option (list Z) :=
  recip ← fe_invert (p2_Z h);
  x ← fe_mul (p2_X h) recip;
  y ← fe_mul (p2_Y h) recip;
  s ← fe_tobytes y;
  b ← fe_isnegative x;
  Some (set_sign s b).

(** ** Comparison with the neutral element: the first limb that fails decides. *)
Fixpoint infinity_loop (n : nat) (i : nat) (p : ge_p3) : Z :=
  match n with
  | O => 1
  | S n' =>
      if negb (Z.lor (p3_X p !!! i) (p3_T p !!! i) =? 0) then 0
      else if negb (p3_Y p !!! i =? p3_Z p !!! i) then 0
      else infinity_loop n' (S i) p
  end.

Definition ge_p3_is_point_at_infinity (p : ge_p3) : Z := infinity_loop 10 0 p.
