(* ===== verification/Curve25519.v ===== *)
(** * The curve of [crypto-ops.c]

    The instance of the [EdwardsCurve] interface that the code works on:
    [p = 2 ^ 255 - 19] and [d = - 121665 / 121666], the constants [fe_d],
    [fe_d2] and [fe_sqrtm1] of [crypto-ops-data.c] as elements of the field,
    and the field operations of [FieldSpec.v] restated on the field itself. *)

From Stdlib Require Import Zmod.Zmod Field.
From S2P Require Export FieldSpec Group Primality Edwards.

#[local] Open Scope Z_scope.

Abbreviation Fp := (Zmod p25519).
Abbreviation to_F := (Zmod.of_Z p25519).

Add Field Fp_field : (Zmod.field_theory p25519 prime_25519).

(** ** Field elements

    [fe_is c x f]: the limbs [f] stand for the field element [x]. *)
Definition fe_is (c : Z) (x : Fp) (f : fe) : Prop := fe_rep c (Zmod.to_Z x) f.

Lemma to_F_eq a b : eqm p25519 a b ↔ to_F a = to_F b.
Proof. symmetry. apply Zmod.of_Z_inj. Qed.

Lemma fe_is_val c x f : fe_is c x f ↔ fe_bounded c f ∧ to_F (fe_val f) = x.
Proof.
  unfold fe_is, fe_rep. rewrite to_F_eq, Zmod.of_Z_to_Z. done.
Qed.

Lemma fe_is_rep c a f : fe_is c (to_F a) f ↔ fe_rep c a f.
Proof. rewrite fe_is_val. unfold fe_rep. by rewrite to_F_eq. Qed.

(** The right-hand sides of the lemmas below come out of [fe_rep] as [to_F] of an
    integer expression over [Zmod.to_Z]. *)
Ltac to_field :=
  rewrite ?Zmod.of_Z_mul, ?Zmod.of_Z_add, ?Zmod.of_Z_sub, ?Zmod.of_Z_opp, ?Zmod.of_Z_to_Z in *.

Ltac field_op lem :=
  let h := fresh "h" in let E := fresh "E" in let H := fresh "H" in
  destruct lem as (h & E & H); exists h; split; [exact E|];
  apply fe_is_rep in H; to_field; exact H.

#[local] Open Scope Zmod_scope.

Lemma fe_is_mul c e x y f g :
  fe_is c x f → fe_is e y g → (c ≤ 330)%Z → (e ≤ 330)%Z →
  ∃ h, fe_mul f g = Some h ∧ fe_is 101 (x * y) h.
Proof. intros Hf Hg Hc He. field_op (fe_rep_mul _ _ _ _ _ _ Hf Hg Hc He). Qed.

Lemma fe_is_sq c x f :
  fe_is c x f → (c ≤ 330)%Z → ∃ h, fe_sq f = Some h ∧ fe_is 101 (x * x) h.
Proof. intros Hf Hc. field_op (fe_rep_sq _ _ _ Hf Hc). Qed.

Lemma fe_is_sq2 c x f :
  fe_is c x f → (c ≤ 330)%Z → ∃ h, fe_sq2 f = Some h ∧ fe_is 101 (x * x + x * x) h.
Proof.
  intros Hf Hc. destruct (fe_rep_sq2 _ _ _ Hf Hc) as (h & E & H).
  exists h. split; [exact E|]. rewrite <- Z.add_diag in H.
  apply fe_is_rep in H. to_field. exact H.
Qed.

Lemma fe_is_add c e x y f g :
  fe_is c x f → fe_is e y g → (c + e ≤ 330)%Z →
  ∃ h, fe_add f g = Some h ∧ fe_is (c + e) (x + y) h.
Proof. intros Hf Hg Hc. field_op (fe_rep_add _ _ _ _ _ _ Hf Hg Hc). Qed.

Lemma fe_is_sub c e x y f g :
  fe_is c x f → fe_is e y g → (c + e ≤ 330)%Z →
  ∃ h, fe_sub f g = Some h ∧ fe_is (c + e) (x - y) h.
Proof. intros Hf Hg Hc. field_op (fe_rep_sub _ _ _ _ _ _ Hf Hg Hc). Qed.

Lemma fe_is_neg c x f :
  fe_is c x f → (c ≤ 330)%Z → ∃ h, fe_neg f = Some h ∧ fe_is c (- x) h.
Proof. intros Hf Hc. field_op (fe_rep_neg _ _ _ Hf Hc). Qed.

Lemma fe_is_0 : fe_is 101 0 fe_0.
Proof. apply (fe_is_rep 101 0), fe_rep_0. Qed.

Lemma fe_is_1 : fe_is 101 1 fe_1.
Proof. apply (fe_is_rep 101 1), fe_rep_1. Qed.

Lemma fe_is_mono c e x f : fe_is c x f → (c ≤ e)%Z → fe_is e x f.
Proof. apply fe_rep_mono. Qed.

(** [fe_invert] is the inverse of the field, 0 being sent to 0. *)
Lemma fe_is_invert c x f :
  fe_is c x f → (c ≤ 330)%Z → ∃ h, fe_invert f = Some h ∧ fe_is 101 (Zmod.inv x) h.
Proof.
  intros Hf Hc. destruct (fe_invert_ok _ _ _ Hf Hc) as (h & E & H).
  exists h. split; [done|]. apply fe_is_rep in H.
  rewrite Zmod.of_Z_pow, Zmod.of_Z_to_Z in H by (vm_compute; congruence).
  destruct (decide (x = 0)) as [->|Hx].
  - rewrite Zmod.pow_0_l in H by (vm_compute; congruence). by rewrite Zmod.inv_0.
  - by rewrite (Zmod.fermat_inv x Hx prime_25519) in H.
Qed.

Lemma fe_is_isnonzero c x f :
  fe_is c x f → (c ≤ 330)%Z →
  fe_isnonzero f = Some (if decide (x = 0) then 0%Z else 1%Z).
Proof.
  intros Hf Hc. rewrite (fe_rep_isnonzero _ _ _ Hf Hc), Zmod.mod_to_Z. f_equal.
  destruct (decide (x = 0)) as [->|Hx]; [done|].
  destruct (Z.eqb_spec (Zmod.to_Z x) 0) as [E|]; [|done].
  by apply Zmod.to_Z_0_iff in E.
Qed.

(** The sign of a field element: the parity of its least representative. *)
Definition f_sign (x : Fp) : Z := (Zmod.to_Z x mod 2)%Z.

Lemma fe_is_isnegative c x f :
  fe_is c x f → (c ≤ 330)%Z → fe_isnegative f = Some (f_sign x).
Proof. intros Hf Hc. by rewrite (fe_rep_isnegative _ _ _ Hf Hc), Zmod.mod_to_Z. Qed.

Lemma fe_is_tobytes c x f :
  fe_is c x f → (c ≤ 330)%Z → fe_tobytes f = Some (le_split 32 (Zmod.to_Z x)).
Proof. intros Hf Hc. by rewrite (fe_rep_tobytes _ _ _ Hf Hc), Zmod.mod_to_Z. Qed.

Lemma fe_is_divpowm1 c e x y u v :
  fe_is c x u → fe_is e y v → (c ≤ 330)%Z → (e ≤ 330)%Z →
  ∃ h, fe_divpowm1 u v = Some h ∧
    fe_is 101 (x * y ^ 3 * (x * y ^ 7) ^ ((p25519 - 5) / 8)%Z) h.
Proof.
  intros Hu Hv Hc He. destruct (fe_divpowm1_ok _ _ _ _ _ _ Hu Hv Hc He) as (h & E & H).
  exists h. split; [done|]. apply fe_is_rep in H.
  rewrite !Zmod.of_Z_mul, (Zmod.of_Z_pow (_ * _ ^ 7)%Z), Zmod.of_Z_mul in H
    by (vm_compute; congruence).
  by rewrite !(Zmod.of_Z_pow (Zmod.to_Z y)), !Zmod.of_Z_to_Z in H by lia.
Qed.

(** ** The constants of the curve *)

Definition d25519 : Fp := Zmod.mdiv (to_F (-121665)) (to_F 121666).

Lemma to_F_neq_0 a : (a mod p25519 ≠ 0)%Z → to_F a ≠ 0.
Proof. apply Zmod.of_Z_nz. Qed.

(** [a / b] is recognised by multiplication. *)
Lemma mdiv_unique (a b x : Fp) : b ≠ 0 → x * b = a → Zmod.mdiv a b = x.
Proof. intros Hb <-. field. done. Qed.

Ltac f_compute := apply Zmod.of_Z_inj; vm_compute; reflexivity.

Lemma fe_d_val : to_F (fe_val fe_d) = d25519.
Proof.
  symmetry. apply mdiv_unique; [apply to_F_neq_0; vm_compute; congruence|].
  rewrite <- Zmod.of_Z_mul. f_compute.
Qed.

Lemma fe_bounded_const c f : bounds_le ((λ x, (x, x)) <$> f) (fe_bounds c) = true → fe_bounded c f.
Proof.
  intros H. eapply within_le; [exact H|]. clear H. induction f as [|x f IH]; constructor; [|done].
  unfold inb. cbn. lia.
Qed.

Lemma fe_is_d : fe_is 101 d25519 fe_d.
Proof. apply fe_is_val. split; [by apply fe_bounded_const|apply fe_d_val]. Qed.

Lemma fe_is_d2 : fe_is 101 (d25519 + d25519) fe_d2.
Proof.
  apply fe_is_val. split; [by apply fe_bounded_const|].
  rewrite <- fe_d_val, <- Zmod.of_Z_add. f_compute.
Qed.

Definition i25519 : Fp := to_F (fe_val fe_sqrtm1).

Lemma fe_is_sqrtm1 : fe_is 101 i25519 fe_sqrtm1.
Proof. apply fe_is_val. split; [by apply fe_bounded_const|done]. Qed.

Lemma i25519_square : i25519 * i25519 = - (1).
Proof. unfold i25519. rewrite <- Zmod.of_Z_mul, <- Zmod.of_Z_m1. f_compute. Qed.

Lemma to_F_2 : to_F 2 = 1 + 1.
Proof. change 2%Z with (1 + 1)%Z. by rewrite Zmod.of_Z_add, Zmod.of_Z_1. Qed.

Lemma two_nonsquare (r : Fp) : r * r ≠ to_F 2.
Proof.
  intros E. pose proof two_half_power as H. fold p25519 in H.
  assert (r ≠ 0) as Hr.
  { intros ->. revert E. rewrite Zmod.mul_0_l. intros E%(f_equal Zmod.to_Z). done. }
  apply (f_equal to_F) in H. rewrite Zmod.of_Z_mod, Zmod.of_Z_pow, <- E in H
    by (vm_compute; congruence).
  rewrite <- Zmod.pow_2_r, <- Zmod.pow_mul_r_nonneg in H by (vm_compute; congruence).
  replace (2 * ((p25519 - 1) / 2))%Z with (Z.pred p25519) in H by (vm_compute; reflexivity).
  rewrite (Zmod.fermat_nz r Hr prime_25519) in H.
  apply (f_equal Zmod.to_Z) in H. vm_compute in H. discriminate.
Qed.

(** [d / 2] is a square, so [d] is not. *)
Definition half_d_root : Z :=
  30152228160694284937144285544751646460505239448795619900082871953631125353365.

Lemma d25519_nonsquare (x : Fp) : x * x ≠ d25519.
Proof.
  intros E. apply (two_nonsquare (Zmod.mdiv x (to_F half_d_root))).
  assert (to_F half_d_root ≠ 0) as Hs by (apply to_F_neq_0; vm_compute; congruence).
  transitivity (Zmod.mdiv (x * x) (to_F half_d_root * to_F half_d_root)); [by field|].
  apply mdiv_unique.
  { intros [E'|E']%(Zmod.mul_0_iff_prime prime_25519); exact (Hs E'). }
  rewrite E, <- fe_d_val, <- !Zmod.of_Z_mul. f_compute.
Qed.

#[export, refine] Instance curve25519 : EdwardsCurve p25519 := {|
  ed_d := d25519; ed_i := i25519 |}.
Proof.
  - apply prime_25519.
  - done.
  - apply i25519_square.
  - apply d25519_nonsquare.
Defined.

(** [fe_invert] inverts modulo [p]: for every argument within the bounds it
    returns a bounded [h] with [z * h = 1 (mod p)], and 0 for a multiple of [p]. *)
Theorem fe_invert_spec z :
  fe_bounded 330 z →
  ∃ h, fe_invert z = Some h ∧ fe_bounded 101 h ∧
    if (fe_val z mod p25519 =? 0)%Z then (fe_val h mod p25519 = 0)%Z
    else ((fe_val z * fe_val h) mod p25519 = 1)%Z.
Proof.
  intros Hz. destruct (fe_is_invert 330 (to_F (fe_val z)) z) as (h & E & Hh);
    [by apply fe_is_val|lia|].
  apply fe_is_val in Hh as [Hb Hv]. exists h. split; [exact E|]. split; [exact Hb|].
  destruct (Z.eqb_spec (fe_val z mod p25519) 0) as [E0|E0].
  - assert (to_F (fe_val z) = 0) as Ez by (apply (to_F_eq _ 0%Z); unfold eqm; by rewrite E0).
    rewrite Ez, Zmod.inv_0 in Hv. apply (to_F_eq _ 0%Z) in Hv. exact Hv.
  - apply to_F_neq_0 in E0.
    assert (to_F (fe_val z * fe_val h) = to_F 1) as Hm.
    { rewrite Zmod.of_Z_mul, Hv, Zmod.of_Z_1. by apply Zmod.mul_inv_same_r_prime; [exact prime_25519|]. }
    apply to_F_eq in Hm. exact Hm.
Qed.

Lemma fe_invert_witness :
  ∃ h, fe_invert fe_sqrtm1 = Some h ∧ fe_bounded 101 h ∧
    if (fe_val fe_sqrtm1 mod p25519 =? 0)%Z then (fe_val h mod p25519 = 0)%Z
    else ((fe_val fe_sqrtm1 * fe_val h) mod p25519 = 1)%Z.
Proof.
  apply fe_invert_spec, (fe_bounded_mono 101); [|lia].
  apply (proj1 (fe_is_val _ _ _) fe_is_sqrtm1).
Defined.
