(* ===== verification/GroupSpec.v ===== *)
(** * Correctness of the group operations

    Each representation of [Group.v] is related to the point of the curve it
    stands for ([p2_is], [p3_is], [p1p1_is], [precomp_is], [cached_is]); the
    relations carry the limb bounds that keep the field operations from
    overflowing.  Every [ge_*] operation is then proved to return a
    representation of the result of the group operation of [Edwards.v]. *)

From Stdlib Require Import Zmod.Zmod Field.
From S2P Require Export Curve25519.

#[local] Open Scope Zmod_scope.

Add Field Fp_field : (Zmod.field_theory p25519 prime_25519).

Abbreviation point := (ed_point p25519).

(** ** The representation relations *)

Definition p2_is (P : point) (h : ge_p2) : Prop :=
  on_curve P ∧ ∃ z, z ≠ 0 ∧ fe_is 101 (P.1 * z) (p2_X h) ∧ fe_is 203 (P.2 * z) (p2_Y h) ∧
    fe_is 203 z (p2_Z h).

Definition p3_is (P : point) (h : ge_p3) : Prop :=
  on_curve P ∧ ∃ z, z ≠ 0 ∧ fe_is 101 (P.1 * z) (p3_X h) ∧ fe_is 101 (P.2 * z) (p3_Y h) ∧
    fe_is 101 z (p3_Z h) ∧ fe_is 101 (P.1 * P.2 * z) (p3_T h).

Definition p1p1_is (P : point) (h : ge_p1p1) : Prop :=
  on_curve P ∧ ∃ z t, z ≠ 0 ∧ t ≠ 0 ∧ fe_is 303 (P.1 * z) (p1_X h) ∧ fe_is 303 (P.2 * t) (p1_Y h) ∧
    fe_is 303 z (p1_Z h) ∧ fe_is 303 t (p1_T h).

Definition precomp_is (P : point) (h : ge_precomp) : Prop :=
  on_curve P ∧ fe_is 101 (P.2 + P.1) (yplusx h) ∧ fe_is 101 (P.2 - P.1) (yminusx h) ∧
  fe_is 101 ((d25519 + d25519) * (P.1 * P.2)) (xy2d h).

Definition cached_is (P : point) (h : ge_cached) : Prop :=
  on_curve P ∧ ∃ z, z ≠ 0 ∧ fe_is 202 ((P.2 + P.1) * z) (YplusX h) ∧
    fe_is 202 ((P.2 - P.1) * z) (YminusX h) ∧ fe_is 101 z (c_Z h) ∧
    fe_is 101 ((d25519 + d25519) * (P.1 * P.2) * z) (T2d h).

(** ** Running the code on field elements *)

Lemma fe_is_eq c e x y f : fe_is c x f → (c ≤ e)%Z → x = y → fe_is e y f.
Proof. intros H Hc <-. by eapply fe_is_mono. Qed.

(** [with_fe f k]: pass to [k] what [f] is known to stand for. *)
Ltac with_fe f k := match goal with H : fe_is _ _ f |- _ => k H end.

Ltac fe_op op :=
  lazymatch op with
  | fe_mul ?f ?g =>
      with_fe f ltac:(fun Hf => with_fe g ltac:(fun Hg =>
        destruct (fe_is_mul _ _ _ _ _ _ Hf Hg) as (? & -> & ?); [lia..|]))
  | fe_add ?f ?g =>
      with_fe f ltac:(fun Hf => with_fe g ltac:(fun Hg =>
        destruct (fe_is_add _ _ _ _ _ _ Hf Hg) as (? & -> & ?); [lia|]))
  | fe_sub ?f ?g =>
      with_fe f ltac:(fun Hf => with_fe g ltac:(fun Hg =>
        destruct (fe_is_sub _ _ _ _ _ _ Hf Hg) as (? & -> & ?); [lia|]))
  | fe_sq ?f =>
      with_fe f ltac:(fun Hf => destruct (fe_is_sq _ _ _ Hf) as (? & -> & ?); [lia|])
  | fe_sq2 ?f =>
      with_fe f ltac:(fun Hf => destruct (fe_is_sq2 _ _ _ Hf) as (? & -> & ?); [lia|])
  | fe_neg ?f =>
      with_fe f ltac:(fun Hf => destruct (fe_is_neg _ _ _ Hf) as (? & -> & ?); [lia|])
  | fe_invert ?f =>
      with_fe f ltac:(fun Hf => destruct (fe_is_invert _ _ _ Hf) as (? & -> & ?); [lia|])
  end; cbn [mbind option_bind].

(** The field operation at the head of the code. *)
Ltac fe_step :=
  lazymatch goal with
  | |- ∃ _, mbind _ ?op = _ ∧ _ => fe_op op
  | |- ∃ _, ?op = _ ∧ _ => fe_op op
  | |- mbind _ ?op = _ => fe_op op
  end.

Ltac fe_run := repeat fe_step.

(** The result of a run stands for the expected field element. *)
Ltac fe_result :=
  cbn [p2_X p2_Y p2_Z p3_X p3_Y p3_Z p3_T p1_X p1_Y p1_Z p1_T yplusx yminusx xy2d
       YplusX YminusX c_Z T2d fst snd];
  lazymatch goal with
  | H : fe_is _ _ ?f |- fe_is _ _ ?f => eapply (fe_is_eq _ _ _ _ f H); [lia|]
  end.

Lemma mul_neq_0 (a b : Fp) : a ≠ 0 → b ≠ 0 → a * b ≠ 0.
Proof.
  intros Ha Hb [E|E]%(Zmod.mul_0_iff_prime prime_25519); [exact (Ha E)|exact (Hb E)].
Qed.

Lemma two_neq_0_25519 : (1 + 1 : Fp) ≠ 0.
Proof. apply two_neq_0. Qed.

(** Products of non-zero factors. *)
Ltac nz :=
  repeat match goal with |- _ * _ ≠ _ => apply mul_neq_0 end;
  first [assumption|apply two_neq_0_25519|apply one_neq_0].

Ltac curve := first [assumption|apply on_curve_opp; assumption].

(** [on_curve] by the shape of the point, without unfolding it. *)
Ltac oncurve :=
  lazymatch goal with
  | |- on_curve (ed_mul _ _) => apply on_curve_mul; oncurve
  | |- on_curve (ed_add _ _) => apply ed_add_closed; oncurve
  | |- on_curve (ed_opp _) => apply on_curve_opp; oncurve
  | |- on_curve ed_zero => apply on_curve_zero
  | |- on_curve ?P => match goal with H : on_curve P |- _ => exact H end
  end.

(** ** Neutral elements *)

Lemma ge_p2_0_is : p2_is ed_zero ge_p2_0.
Proof.
  split; [apply on_curve_zero|]. exists 1. split; [apply one_neq_0|]. cbn.
  split_and!; [apply (fe_is_eq _ _ _ _ _ fe_is_0)|apply (fe_is_eq _ _ _ _ _ fe_is_1)|
    apply (fe_is_eq _ _ _ _ _ fe_is_1)]; (lia || ring).
Qed.

Lemma ge_p3_0_is : p3_is ed_zero ge_p3_0.
Proof.
  split; [apply on_curve_zero|]. exists 1. split; [apply one_neq_0|]. cbn.
  split_and!; [apply (fe_is_eq _ _ _ _ _ fe_is_0)|apply (fe_is_eq _ _ _ _ _ fe_is_1)|
    apply fe_is_1|apply (fe_is_eq _ _ _ _ _ fe_is_0)]; (lia || ring).
Qed.

Lemma ge_precomp_0_is : precomp_is ed_zero ge_precomp_0.
Proof.
  split; [apply on_curve_zero|].
  split_and!; cbn; [apply (fe_is_eq _ _ _ _ _ fe_is_1)|apply (fe_is_eq _ _ _ _ _ fe_is_1)|
    apply (fe_is_eq _ _ _ _ _ fe_is_0)]; (lia || ring).
Qed.

Lemma ge_cached_0_is : cached_is ed_zero ge_cached_0.
Proof.
  split; [apply on_curve_zero|]. exists 1. split; [apply one_neq_0|].
  split_and!; cbn; [apply (fe_is_eq _ _ _ _ _ fe_is_1)|apply (fe_is_eq _ _ _ _ _ fe_is_1)|
    apply fe_is_1|apply (fe_is_eq _ _ _ _ _ fe_is_0)]; (lia || ring).
Qed.

(** ** Conversions *)

Lemma ge_p1p1_to_p2_ok P h :
  p1p1_is P h → ∃ r, ge_p1p1_to_p2 h = Some r ∧ p2_is P r.
Proof.
  intros (HP & z & t & Hz & Ht & HX & HY & HZ & HT). unfold ge_p1p1_to_p2. fe_run.
  eexists. split; [done|]. split; [exact HP|]. exists (z * t). split; [nz|].
  split_and!; fe_result; ring.
Qed.

Lemma ge_p1p1_to_p3_ok P h :
  p1p1_is P h → ∃ r, ge_p1p1_to_p3 h = Some r ∧ p3_is P r.
Proof.
  intros (HP & z & t & Hz & Ht & HX & HY & HZ & HT). unfold ge_p1p1_to_p3. fe_run.
  eexists. split; [done|]. split; [exact HP|]. exists (z * t). split; [nz|].
  split_and!; fe_result; ring.
Qed.

Lemma ge_p3_to_cached_ok P h :
  p3_is P h → ∃ r, ge_p3_to_cached h = Some r ∧ cached_is P r.
Proof.
  intros (HP & z & Hz & HX & HY & HZ & HT). unfold ge_p3_to_cached, fe_copy.
  pose proof fe_is_d2. fe_run. eexists. split; [done|]. split; [exact HP|]. exists z. split; [exact Hz|].
  split_and!; fe_result; ring.
Qed.

Lemma ge_p3_to_p2_ok P h : p3_is P h → p2_is P (ge_p3_to_p2 h).
Proof.
  intros (HP & z & Hz & HX & HY & HZ & _). split; [exact HP|]. exists z.
  split_and!; [exact Hz|fe_result; done..].
Qed.

(** ** Addition *)

(** The coordinates of a sum, with the denominators cleared. *)
Lemma ed_add_coords (P Q : point) :
  on_curve P → on_curve Q →
  let e := d25519 * P.1 * Q.1 * P.2 * Q.2 in
  1 + e ≠ 0 ∧ 1 - e ≠ 0 ∧
  (ed_add P Q).1 * (1 + e) = P.1 * Q.2 + Q.1 * P.2 ∧
  (ed_add P Q).2 * (1 - e) = P.2 * Q.2 + P.1 * Q.1.
Proof.
  destruct P as [x1 y1], Q as [x2 y2]. intros HP HQ.
  destruct (law_complete _ _ _ _ HP HQ) as [E1 E2]. cbn in *.
  split_and!; [exact E1|exact E2| |]; field; assumption.
Qed.

(** [k] scales both fractions of a completed point. *)
Lemma p1p1_is_sum P Q k X Y Z T :
  on_curve P → on_curve Q → k ≠ 0 →
  let e := d25519 * P.1 * Q.1 * P.2 * Q.2 in
  fe_is 303 (k * (P.1 * Q.2 + Q.1 * P.2)) X → fe_is 303 (k * (P.2 * Q.2 + P.1 * Q.1)) Y →
  fe_is 303 (k * (1 + e)) Z → fe_is 303 (k * (1 - e)) T →
  p1p1_is (ed_add P Q) {| p1_X := X; p1_Y := Y; p1_Z := Z; p1_T := T |}.
Proof.
  intros HP HQ Hk e HX HY HZ HT.
  destruct (ed_add_coords P Q HP HQ) as (E1 & E2 & EX & EY). fold e in E1, E2, EX, EY.
  split; [by apply ed_add_closed|].
  exists (k * (1 + e)), (k * (1 - e)). split_and!; [nz..| | |exact HZ|exact HT]; cbn [p1_X p1_Y].
  - eapply fe_is_eq; [exact HX|lia|]. rewrite <- EX. ring.
  - eapply fe_is_eq; [exact HY|lia|]. rewrite <- EY. ring.
Qed.

Lemma ge_add_ok P Q p q :
  p3_is P p → cached_is Q q →
  ∃ r, ge_add p q = Some r ∧ p1p1_is (ed_add P Q) r.
Proof.
  intros (HP & z & Hz & HX & HY & HZ & HT) (HQ & w & Hw & HA & HB & HC & HD).
  unfold ge_add. fe_run. eexists. split; [done|].
  apply (p1p1_is_sum _ _ ((1 + 1) * (z * w))); [curve|curve|nz|fe_result; ring..].
Qed.

Lemma ge_sub_ok P Q p q :
  p3_is P p → cached_is Q q →
  ∃ r, ge_sub p q = Some r ∧ p1p1_is (ed_add P (ed_opp Q)) r.
Proof.
  intros (HP & z & Hz & HX & HY & HZ & HT) (HQ & w & Hw & HA & HB & HC & HD).
  unfold ge_sub. fe_run. eexists. split; [done|].
  apply (p1p1_is_sum _ _ ((1 + 1) * (z * w)));
    [curve|curve|nz|unfold ed_opp; fe_result; ring..].
Qed.

Lemma ge_madd_ok P Q p q :
  p3_is P p → precomp_is Q q →
  ∃ r, ge_madd p q = Some r ∧ p1p1_is (ed_add P Q) r.
Proof.
  intros (HP & z & Hz & HX & HY & HZ & HT) (HQ & HA & HB & HD).
  unfold ge_madd. fe_run. eexists. split; [done|].
  apply (p1p1_is_sum _ _ ((1 + 1) * z)); [curve|curve|nz|fe_result; ring..].
Qed.

Lemma ge_msub_ok P Q p q :
  p3_is P p → precomp_is Q q →
  ∃ r, ge_msub p q = Some r ∧ p1p1_is (ed_add P (ed_opp Q)) r.
Proof.
  intros (HP & z & Hz & HX & HY & HZ & HT) (HQ & HA & HB & HD).
  unfold ge_msub. fe_run. eexists. split; [done|].
  apply (p1p1_is_sum _ _ ((1 + 1) * z));
    [curve|curve|nz|unfold ed_opp; fe_result; ring..].
Qed.

(** ** Doubling

    The formulas use the curve equation: [y ^ 2 - x ^ 2] is the denominator
    [1 + d x ^ 2 y ^ 2]. *)
Lemma ge_p2_dbl_ok P p :
  p2_is P p → ∃ r, ge_p2_dbl p = Some r ∧ p1p1_is (ed_add P P) r.
Proof.
  intros (HP & z & Hz & HX & HY & HZ). unfold ge_p2_dbl. fe_run. eexists. split; [done|].
  assert (P.2 * P.2 - P.1 * P.1 = 1 + d25519 * P.1 * P.1 * P.2 * P.2) as E
    by (destruct P; exact HP).
  apply (p1p1_is_sum _ _ (z * z)); [curve|curve|nz|..].
  - fe_result. ring.
  - fe_result. ring.
  - rewrite <- E. fe_result. ring.
  - replace (1 - d25519 * P.1 * P.1 * P.2 * P.2)
      with (1 + 1 - (P.2 * P.2 - P.1 * P.1)) by (rewrite E; ring).
    fe_result. ring.
Qed.

Lemma ge_p3_dbl_ok P p :
  p3_is P p → ∃ r, ge_p3_dbl p = Some r ∧ p1p1_is (ed_add P P) r.
Proof. intros Hp. by apply ge_p2_dbl_ok, ge_p3_to_p2_ok. Qed.

(** ** Runs of group operations *)

Ltac with_ge h k :=
  match goal with
  | H : p2_is _ h |- _ => k H
  | H : p3_is _ h |- _ => k H
  | H : p1p1_is _ h |- _ => k H
  | H : cached_is _ h |- _ => k H
  | H : precomp_is _ h |- _ => k H
  end.

Ltac ge_op op :=
  lazymatch op with
  | ge_p1p1_to_p2 ?h => with_ge h ltac:(fun H =>
      destruct (ge_p1p1_to_p2_ok _ _ H) as (? & -> & ?))
  | ge_p1p1_to_p3 ?h => with_ge h ltac:(fun H =>
      destruct (ge_p1p1_to_p3_ok _ _ H) as (? & -> & ?))
  | ge_p3_to_cached ?h => with_ge h ltac:(fun H =>
      destruct (ge_p3_to_cached_ok _ _ H) as (? & -> & ?))
  | ge_p2_dbl ?h => with_ge h ltac:(fun H =>
      destruct (ge_p2_dbl_ok _ _ H) as (? & -> & ?))
  | ge_p3_dbl ?h => with_ge h ltac:(fun H =>
      destruct (ge_p3_dbl_ok _ _ H) as (? & -> & ?))
  | ge_add ?h ?q => with_ge h ltac:(fun H =>
      with_ge q ltac:(fun Hq =>
      destruct (ge_add_ok _ _ _ _ H Hq) as (? & -> & ?)))
  | ge_sub ?h ?q => with_ge h ltac:(fun H =>
      with_ge q ltac:(fun Hq =>
      destruct (ge_sub_ok _ _ _ _ H Hq) as (? & -> & ?)))
  | ge_madd ?h ?q => with_ge h ltac:(fun H =>
      with_ge q ltac:(fun Hq =>
      destruct (ge_madd_ok _ _ _ _ H Hq) as (? & -> & ?)))
  | ge_msub ?h ?q => with_ge h ltac:(fun H =>
      with_ge q ltac:(fun Hq =>
      destruct (ge_msub_ok _ _ _ _ H Hq) as (? & -> & ?)))
  end; cbn [mbind option_bind].

(** The operation at the head of the code. *)
Ltac ge_step :=
  lazymatch goal with
  | |- ∃ _, mbind _ ?op = _ ∧ _ => ge_op op
  | |- ∃ _, ?op = _ ∧ _ => ge_op op
  end.

Ltac ge_run := repeat ge_step.

(** Doubling as multiplication by 2, for the scalars. *)
Lemma ed_double n (P : point) : on_curve P →
  ed_add (ed_mul n P) (ed_mul n P) = ed_mul (2 * n) P.
Proof. intros HP. by rewrite <- ed_mul_add, Z.add_diag by done. Qed.

Lemma ge_mul8_ok P t :
  p2_is P t → ∃ r, ge_mul8 t = Some r ∧ p1p1_is (ed_mul 8 P) r.
Proof.
  intros Ht. unfold ge_mul8. ge_run. eexists. split; [done|]. exact H3.
Qed.

(** ** Encoding

    32 bytes: [y] in the low 255 bits, the sign of [x] in the top one. *)
Definition ed_encode (P : point) : list Z :=
  le_split 32 (Zmod.to_Z P.2 + 2 ^ 255 * f_sign P.1)%Z.

Lemma to_Z_range (x : Fp) : (0 ≤ Zmod.to_Z x < p25519)%Z.
Proof. pose proof (Zmod.to_Z_range x). unfold p25519 in *. lia. Qed.

Lemma set_sign_encode y b :
  (0 ≤ y < 2 ^ 255)%Z → (0 ≤ b ≤ 1)%Z →
  set_sign (le_split 32 y) b = le_split 32 (y + 2 ^ 255 * b)%Z.
Proof.
  intros Hy Hb. unfold set_sign. rewrite !(le_split_snoc 31).
  replace (2 ^ 255 * b)%Z with (256 ^ Z.of_nat 31 * (128 * b))%Z by lia.
  rewrite le_split_add_mul, insert_app_r_alt by (rewrite length_le_split; lia).
  rewrite length_le_split, (lookup_total_app_r _ _ 31), length_le_split
    by (rewrite length_le_split; lia).
  cbn [Nat.sub lookup_total list_lookup_total insert list_insert]. do 2 f_equal.
  change (256 ^ Z.of_nat 31)%Z with (2 ^ 248)%Z.
  rewrite (Z.mul_comm (2 ^ 248)), Z.div_add by done. set (t := (y / 2 ^ 248)%Z).
  assert (0 ≤ t < 128)%Z as Ht
    by (split; [apply Z.div_pos|apply Z.div_lt_upper_bound]; lia).
  rewrite (Z.mod_small t) by lia. unfold uwrap. f_equal.
  rewrite Z.shiftl_mul_pow2 by lia.
  assert (b = 0 ∨ b = 1)%Z as [-> | ->] by lia; [by rewrite Z.lxor_0_r, Z.add_0_r|].
  symmetry. apply Z.add_nocarry_lxor. apply Z.bits_inj'. intros i Hi.
  rewrite Z.land_spec, Z.bits_0. change (1 * 2 ^ 7)%Z with (2 ^ 7)%Z.
  rewrite Z.pow2_bits_eqb by lia. destruct (Z.eqb_spec 7 i) as [<-|]; [|apply andb_false_r].
  rewrite andb_true_r. rewrite <- (Z.mod_small t (2 ^ 7)) by lia.
  by apply Z.mod_pow2_bits_high.
Qed.

Lemma f_sign_range x : (0 ≤ f_sign x ≤ 1)%Z.
Proof. unfold f_sign. pose proof (Z.mod_pos_bound (Zmod.to_Z x) 2). lia. Qed.

(** The affine coordinates, from any representation. *)
Lemma encode_ok (P : point) z (X Y Z : fe) :
  z ≠ 0 → fe_is 101 (P.1 * z) X → fe_is 203 (P.2 * z) Y → fe_is 203 z Z →
  (recip ← fe_invert Z; x ← fe_mul X recip; y ← fe_mul Y recip;
   s ← fe_tobytes y; b ← fe_isnegative x; Some (set_sign s b)) = Some (ed_encode P).
Proof.
  intros Hz HX HY HZ. fe_run.
  match goal with HA : fe_is _ (P.1 * z * _) ?x, HB : fe_is _ (P.2 * z * _) ?y |- _ =>
    apply (fe_is_eq _ 101 _ P.1) in HA; [|lia|field; exact Hz];
    apply (fe_is_eq _ 101 _ P.2) in HB; [|lia|field; exact Hz];
    rewrite (fe_is_tobytes _ _ _ HB) by lia; cbn [mbind option_bind];
    rewrite (fe_is_isnegative _ _ _ HA) by lia; cbn [mbind option_bind]
  end.
  f_equal. apply set_sign_encode; [|apply f_sign_range].
  pose proof (to_Z_range P.2). unfold p25519 in *. lia.
Qed.

Lemma ge_p3_tobytes_ok P h : p3_is P h → ge_p3_tobytes h = Some (ed_encode P).
Proof.
  intros (_ & z & Hz & HX & HY & HZ & _).
  by apply (encode_ok P z _ _ _ Hz HX); apply (fe_is_mono 101).
Qed.

Lemma ge_tobytes_ok P h : p2_is P h → ge_tobytes h = Some (ed_encode P).
Proof. intros (_ & z & Hz & HX & HY & HZ). exact (encode_ok P z _ _ _ Hz HX HY HZ). Qed.

(** ** Comparison with the neutral element *)

Lemma infinity_loop_ok n i p :
  infinity_loop n i p =
    if forallb (λ j, (p3_X p !!! j =? 0)%Z && (p3_T p !!! j =? 0)%Z && (p3_Y p !!! j =? p3_Z p !!! j)%Z)
         (seq i n) then 1%Z else 0%Z.
Proof.
  revert i. induction n as [|n IH]; intros i; [done|]. cbn [infinity_loop seq forallb].
  destruct (Z.eqb_spec (Z.lor (p3_X p !!! i) (p3_T p !!! i)) 0) as [E|E]; cbn [negb].
  - apply Z.lor_eq_0_iff in E as [-> ->]. cbn [Z.eqb andb].
    destruct (p3_Y p !!! i =? p3_Z p !!! i)%Z; cbn [negb andb]; [apply IH|done].
  - destruct (Z.eqb_spec (p3_X p !!! i) 0) as [EX|], (Z.eqb_spec (p3_T p !!! i) 0) as [ET|];
      cbn [andb]; try done. destruct E. by rewrite EX, ET.
Qed.

Lemma fe_val_ext f g : (∀ i, (i < 10)%nat → f !!! i = g !!! i) → fe_val f = fe_val g.
Proof.
  unfold fe_val. generalize 10%nat as n. induction n as [|n IH]; intros H; [done|].
  cbn [eval]. rewrite IH, (H n) by (intros; try apply H; lia). done.
Qed.

(** The test accepts representations of the neutral element only. *)
Lemma ge_p3_is_point_at_infinity_ok P h :
  p3_is P h → ge_p3_is_point_at_infinity h = 1%Z → P = ed_zero.
Proof.
  intros (_ & z & Hz & HX & HY & HZ & _). unfold ge_p3_is_point_at_infinity.
  rewrite infinity_loop_ok. destruct (forallb _ _) eqn:E; [intros _|discriminate].
  rewrite forallb_forall in E.
  assert (∀ i, (i < 10)%nat → p3_X h !!! i = 0%Z ∧ p3_Y h !!! i = p3_Z h !!! i) as Hl.
  { intros i Hi. specialize (E i (proj2 (in_seq 10 0 i) ltac:(lia))).
    apply andb_true_iff in E as [[EX _]%andb_true_iff EY].
    apply Z.eqb_eq in EX, EY. done. }
  apply fe_is_val in HX as [_ EX], HY as [_ EY], HZ as [_ EZ].
  rewrite (fe_val_ext _ fe_0) in EX
    by (intros i Hi; rewrite (proj1 (Hl i Hi)); do 10 (destruct i; [done|]); lia).
  rewrite (fe_val_ext _ (p3_Z h)) in EY by (intros i Hi; apply Hl; lia).
  rewrite EZ in EY. destruct P as [x y]. cbn [fst snd] in *. unfold ed_zero. f_equal.
  - apply (Zmod.mul_cancel_l_prime z x 0 prime_25519 Hz). etrans; [|etrans; [symmetry; exact EX|]].
    + ring.
    + change (to_F (fe_val fe_0)) with (0 : Fp). ring.
  - apply (Zmod.mul_cancel_l_prime z y 1 prime_25519 Hz). etrans; [|etrans; [symmetry; exact EY|]].
    + ring.
    + ring.
Qed.

(** * The properties of the group functions *)

(** The curve points form a commutative group under the addition law that
    the [ge_] functions compute: the law is closed (so complete), associative and
    commutative, with the point of [ge_p3_0] as neutral element and [(-x, y)] as
    the inverse of [(x, y)]. *)
Theorem curve_group_spec (P Q R : point) :
  on_curve P → on_curve Q → on_curve R →
  on_curve (ed_add P Q) ∧
  ed_add P (ed_add Q R) = ed_add (ed_add P Q) R ∧ ed_add P Q = ed_add Q P ∧
  (∃ O, p3_is O ge_p3_0 ∧ ed_add O P = P ∧ ed_add P (ed_opp P) = O).
Proof.
  intros HP HQ HR. split; [by apply ed_add_closed|].
  split; [by apply ed_add_assoc|]. split; [apply ed_add_comm|].
  exists ed_zero. split; [exact ge_p3_0_is|]. split; [apply ed_add_0_l|].
  by apply ed_add_opp_r.
Qed.

(** [ge_add] and [ge_sub] refine the group law: from any extended
    representation of [P] and any cached representation of [Q] they return a
    representation of [P + Q] and [P - Q], for every pair of points of the curve
    (equal, opposite and neutral ones included), without overflow. *)
Theorem ge_add_spec P Q p q :
  p3_is P p → cached_is Q q →
  (∃ r, ge_add p q = Some r ∧ p1p1_is (ed_add P Q) r) ∧
  (∃ r, ge_sub p q = Some r ∧ p1p1_is (ed_add P (ed_opp Q)) r).
Proof. intros Hp Hq. split; [by apply ge_add_ok|by apply ge_sub_ok]. Qed.

(** [ge_madd] and [ge_msub] do the same for a precomputed affine operand. *)
Theorem ge_madd_spec P Q p q :
  p3_is P p → precomp_is Q q →
  (∃ r, ge_madd p q = Some r ∧ p1p1_is (ed_add P Q) r) ∧
  (∃ r, ge_msub p q = Some r ∧ p1p1_is (ed_add P (ed_opp Q)) r).
Proof. intros Hp Hq. split; [by apply ge_madd_ok|by apply ge_msub_ok]. Qed.

(** The doublings [ge_p2_dbl] and [ge_p3_dbl] return [P + P], and [ge_mul8]
    returns [8 P]. *)
Theorem ge_dbl_spec P p q :
  p2_is P p → p3_is P q →
  (∃ r, ge_p2_dbl p = Some r ∧ p1p1_is (ed_add P P) r) ∧
  (∃ r, ge_p3_dbl q = Some r ∧ p1p1_is (ed_add P P) r) ∧
  (∃ r, ge_mul8 p = Some r ∧ p1p1_is (ed_mul 8 P) r).
Proof.
  intros Hp Hq. split_and!; [by apply ge_p2_dbl_ok|by apply ge_p3_dbl_ok|by apply ge_mul8_ok].
Qed.

(** The conversions between the five representations keep the point:
    completed to projective and extended, extended to cached and projective. *)
Theorem ge_convert_spec P t u :
  p1p1_is P t → p3_is P u →
  (∃ r, ge_p1p1_to_p2 t = Some r ∧ p2_is P r) ∧
  (∃ r, ge_p1p1_to_p3 t = Some r ∧ p3_is P r) ∧
  (∃ r, ge_p3_to_cached u = Some r ∧ cached_is P r) ∧
  p2_is P (ge_p3_to_p2 u).
Proof.
  intros Ht Hu. split_and!; [by apply ge_p1p1_to_p2_ok|by apply ge_p1p1_to_p3_ok|
    by apply ge_p3_to_cached_ok|by apply ge_p3_to_p2_ok].
Qed.

(** ** Witnesses, at the point [(sqrt(-1), 0)] of order 4 *)

Definition p3_order4 : ge_p3 :=
  {| p3_X := fe_sqrtm1; p3_Y := fe_0; p3_Z := fe_1; p3_T := fe_0 |}.

Definition order4 : point := (i25519, 0).

Lemma order4_on_curve : on_curve order4.
Proof.
  unfold on_curve, order4. cbn. transitivity (- (i25519 * i25519)); [ring|].
  rewrite i25519_square. ring.
Qed.

Lemma p3_order4_is : p3_is order4 p3_order4.
Proof.
  split; [exact order4_on_curve|]. exists 1. split; [apply one_neq_0|]. cbn.
  split_and!; [apply (fe_is_eq _ _ _ _ _ fe_is_sqrtm1)|apply (fe_is_eq _ _ _ _ _ fe_is_0)|
    apply fe_is_1|apply (fe_is_eq _ _ _ _ _ fe_is_0)]; (lia || ring).
Qed.

Lemma curve_group_witness :
  on_curve (ed_add order4 order4) ∧
  ed_add order4 (ed_add order4 order4) = ed_add (ed_add order4 order4) order4 ∧
  ed_add order4 order4 = ed_add order4 order4 ∧
  (∃ O, p3_is O ge_p3_0 ∧ ed_add O order4 = order4 ∧ ed_add order4 (ed_opp order4) = O).
Proof. apply curve_group_spec; apply order4_on_curve. Defined.

Lemma ge_add_witness :
  ∃ q, ge_p3_to_cached p3_order4 = Some q ∧
  (∃ r, ge_add p3_order4 q = Some r ∧ p1p1_is (ed_add order4 order4) r) ∧
  (∃ r, ge_sub p3_order4 q = Some r ∧ p1p1_is (ed_add order4 (ed_opp order4)) r).
Proof.
  destruct (ge_p3_to_cached_ok _ _ p3_order4_is) as (q & E & Hq). exists q.
  split; [exact E|]. exact (ge_add_spec _ _ _ _ p3_order4_is Hq).
Defined.

Lemma ge_madd_witness :
  (∃ r, ge_madd p3_order4 ge_precomp_0 = Some r ∧ p1p1_is (ed_add order4 ed_zero) r) ∧
  (∃ r, ge_msub p3_order4 ge_precomp_0 = Some r ∧
    p1p1_is (ed_add order4 (ed_opp ed_zero)) r).
Proof. exact (ge_madd_spec _ _ _ _ p3_order4_is ge_precomp_0_is). Defined.

Lemma ge_dbl_witness :
  (∃ r, ge_p2_dbl (ge_p3_to_p2 p3_order4) = Some r ∧ p1p1_is (ed_add order4 order4) r) ∧
  (∃ r, ge_p3_dbl p3_order4 = Some r ∧ p1p1_is (ed_add order4 order4) r) ∧
  (∃ r, ge_mul8 (ge_p3_to_p2 p3_order4) = Some r ∧ p1p1_is (ed_mul 8 order4) r).
Proof.
  exact (ge_dbl_spec _ _ _ (ge_p3_to_p2_ok _ _ p3_order4_is) p3_order4_is).
Defined.

Lemma ge_convert_witness :
  ∃ t, ge_p3_dbl ge_p3_0 = Some t ∧
  (∃ r, ge_p1p1_to_p2 t = Some r ∧ p2_is ed_zero r) ∧
  (∃ r, ge_p1p1_to_p3 t = Some r ∧ p3_is ed_zero r) ∧
  (∃ r, ge_p3_to_cached ge_p3_0 = Some r ∧ cached_is ed_zero r) ∧
  p2_is ed_zero (ge_p3_to_p2 ge_p3_0).
Proof.
  destruct (ge_p3_dbl_ok _ _ ge_p3_0_is) as (t & E & Ht). exists t. split; [exact E|].
  rewrite ed_add_0_l in Ht. exact (ge_convert_spec _ _ _ Ht ge_p3_0_is).
Defined.
