(* ===== verification/PointCodec.v ===== *)
(** * Decoding points: [ge_frombytes_vartime] and [ge_fromfe_frombytes_vartime]

    A 32-byte string is loaded into ten limbs ([fe_frombytes] of the original
    code, inlined in both functions), then [ge_frombytes_vartime] recovers the
    [x] coordinate by a square root, and [ge_fromfe_frombytes_vartime] maps the
    field element to a point of the curve. *)

From S2P Require Export Scalar Group.

#[local] Open Scope Z_scope.
#[local] Open Scope stmt_scope.

(** ** Loading a field element *)

Definition fe_load (s : list Z) (h9 : Z) : list Z :=
  [ load_4 s 0;
    Z.shiftl (load_3 s 4) 6;
    Z.shiftl (load_3 s 7) 5;
    Z.shiftl (load_3 s 10) 3;
    Z.shiftl (load_3 s 13) 2;
    load_4 s 16;
    Z.shiftl (load_3 s 20) 7;
    Z.shiftl (load_3 s 23) 5;
    Z.shiftl (load_3 s 26) 4;
    h9 ].

(** [ge_frombytes_vartime] drops the sign bit of [x]. *)
Definition fe_load255 (s : list Z) : list Z :=
  fe_load s (Z.shiftl (Z.land (load_3 s 29) 8388607) 2).

(** [ge_fromfe_frombytes_vartime] keeps all 256 bits. *)
Definition fe_load256 (s : list Z) : list Z :=
  fe_load s (Z.shiftl (load_3 s 29) 2).

Definition load_carry : stmt :=
  carry9_19 >>
  carry25 1 >> carry25 3 >> carry25 5 >> carry25 7 >>
  carry26 0 >> carry26 2 >> carry26 4 >> carry26 6 >> carry26 8.

(** The number is rejected when it is [p] or more. *)
Definition not_canonical (h : list Z) : bool :=
  (h !!! 9%nat =? 33554428) && (h !!! 8%nat =? 268435440) && (h !!! 7%nat =? 536870880) &&
  (h !!! 6%nat =? 2147483520) && (h !!! 5%nat =? 4294967295) && (h !!! 4%nat =? 67108860) &&
  (h !!! 3%nat =? 134217720) && (h !!! 2%nat =? 536870880) && (h !!! 1%nat =? 1073741760) &&
  (4294967277 <=? h !!! 0%nat).

(** ** [ge_frombytes_vartime]

    [Some None] is the result -1, [Some (Some h)] the result 0 with the point
    in [h]; [None] is an overflow. *)

(** The square root: [x], [- x] excluded, with [v x ^ 2 = u]; [Some None] when
    there is none. *)
Definition recover_x (u v : fe) : option (option fe) :=
  x ← fe_divpowm1 u v;
  vxx ← fe_sq x;
  vxx ← fe_mul vxx v;
  check ← fe_sub vxx u;
  nz ← fe_isnonzero check;
  if negb (nz =? 0) then
    check ← fe_add vxx u;
    nz ← fe_isnonzero check;
    if negb (nz =? 0) then Some None
    else x ← fe_mul x fe_sqrtm1; Some (Some x)
  else Some (Some x).

(** The sign: [x] or [- x], with the parity that the top bit asks for. *)
Definition fix_sign (x : fe) (b : Z) : option (option fe) :=
  neg ← fe_isnegative x;
  if negb (neg =? b) then
    nz ← fe_isnonzero x;
    if nz =? 0 then Some None
    else x ← fe_neg x; Some (Some x)
  else Some (Some x).

Definition ge_frombytes_vartime (s : list Z) : option (option ge_p3) :=
  let h := fe_load255 s in
  if not_canonical h then Some None else
  h ← load_carry h;
  let hY := store32 h in
  let hZ := fe_1 in
  u ← fe_sq hY;
  v ← fe_mul u fe_d;
  u ← fe_sub u hZ;
  v ← fe_add v hZ;
  ox ← recover_x u v;
  match ox with
  | None => Some None
  | Some x =>
      ox ← fix_sign x (Z.shiftr (s !!! 31%nat) 7);
      match ox with
      | None => Some None
      | Some hX =>
          hT ← fe_mul hX hY;
          Some (Some {| p3_X := hX; p3_Y := hY; p3_Z := hZ; p3_T := hT |})
      end
  end.

(** ** [ge_fromfe_frombytes_vartime] ([crypto-ops-data.c] for the constants) *)

Definition fe_ma2 : fe := [-12721188; -3529; 0; 0; 0; 0; 0; 0; 0; 0].
Definition fe_ma : fe := [-486662; 0; 0; 0; 0; 0; 0; 0; 0; 0].
Definition fe_fffb1 : fe :=
  [-31702527; -2466483; -26106795; -12203692; -12169197; -321052; 14850977; -10296299;
   -16929438; -407568].
Definition fe_fffb2 : fe :=
  [8166131; -6741800; -17040804; 3154616; 21461005; 1466302; -30876704; -6368709;
   10503587; -13363080].
Definition fe_fffb3 : fe :=
  [-13620103; 14639558; 4532995; 7679154; 16815101; -15883539; -22863840; -14813421;
   13716513; -6477756].
Definition fe_fffb4 : fe :=
  [-21786234; -12173074; 21573800; 4524538; -4645904; 16204591; 8012863; -8444712;
   3212926; 6885324].

(** The code up to [setsign]: [r->X], [z] and [sign]. *)
Definition fromfe_root (u v w : fe) : option (fe * fe * Z) :=
  x ← fe_sq w;
  y ← fe_mul fe_ma2 v;
  x ← fe_add x y;
  rX ← fe_divpowm1 w x;
  y ← fe_sq rX;
  x ← fe_mul y x;
  y ← fe_sub w x;
  let z := fe_copy fe_ma in
  nz ← fe_isnonzero y;
  if negb (nz =? 0) then
    y ← fe_add w x;
    nz ← fe_isnonzero y;
    if negb (nz =? 0) then
      (* negative: *)
      x ← fe_mul x fe_sqrtm1;
      y ← fe_sub w x;
      nz ← fe_isnonzero y;
      if negb (nz =? 0) then
        y ← fe_add w x;
        nz ← fe_isnonzero y;
        if negb (nz =? 0) then None (* assert *)
        else rX ← fe_mul rX fe_fffb3; Some (rX, z, 1)
      else rX ← fe_mul rX fe_fffb4; Some (rX, z, 1)
    else
      rX ← fe_mul rX fe_fffb1;
      rX ← fe_mul rX u;
      z ← fe_mul z v;
      Some (rX, z, 0)
  else
    rX ← fe_mul rX fe_fffb2;
    rX ← fe_mul rX u;
    z ← fe_mul z v;
    Some (rX, z, 0).

(** [if (fe_isnegative(r->X) != sign) { assert(fe_isnonzero(r->X)); fe_neg }] *)
Definition fromfe_setsign (rX : fe) (sign : Z) : option fe :=
  neg ← fe_isnegative rX;
  if negb (neg =? sign) then
    nz ← fe_isnonzero rX;
    if nz =? 0 then None (* assert *) else fe_neg rX
  else Some rX.

(** The check of debug builds that the result is on the curve. *)
Definition fromfe_check (r : ge_p2) : option unit :=
  check_iz ← fe_invert (p2_Z r);
  check_x ← fe_mul (p2_X r) check_iz;
  check_y ← fe_mul (p2_Y r) check_iz;
  check_x ← fe_sq check_x;
  check_y ← fe_sq check_y;
  check_v ← fe_mul check_x check_y;
  check_v ← fe_mul fe_d check_v;
  check_v ← fe_add check_v check_x;
  check_v ← fe_sub check_v check_y;
  let check_x := fe_1 in
  check_v ← fe_add check_v check_x;
  nz ← fe_isnonzero check_v;
  if nz =? 0 then Some () else None (* assert *).

(** [None] also stands for a failed assertion. *)
Definition ge_fromfe_frombytes_vartime (s : list Z) : option ge_p2 :=
  h ← load_carry (fe_load256 s);
  let u := store32 h in
  v ← fe_sq2 u;
  let w := fe_1 in
  w ← fe_add v w;
  '(rX, z, sign) ← fromfe_root u v w;
  rX ← fromfe_setsign rX sign;
  rZ ← fe_add z w;
  rY ← fe_sub z w;
  rX ← fe_mul rX rZ;
  let r := {| p2_X := rX; p2_Y := rY; p2_Z := rZ |} in
  _ ← fromfe_check r;
  Some r.
