(* ===== verification/PointCodecSpec.v ===== *)
(** * Correctness of the point decoders

    [ge_frombytes_vartime] inverts [ed_encode]: it accepts exactly the
    encodings of the points of the curve.  [ge_fromfe_frombytes_vartime] always
    returns a point of the curve, and none of its assertions can fail. *)

From Stdlib Require Import Zmod.Zmod Field.
From S2P Require Export PointCodec GroupSpec.

#[local] Open Scope Z_scope.

Add Field Fp_field : (Zmod.field_theory p25519 prime_25519).

(** ** Loading *)

Lemma mod_split a b v :
  0 ≤ a → 0 ≤ b → v mod 2 ^ (a + b) = v mod 2 ^ a + 2 ^ a * ((v / 2 ^ a) mod 2 ^ b).
Proof.
  intros Ha Hb. rewrite Z.pow_add_r by done. apply Z.rem_mul_r; [|by apply Z.pow_pos_nonneg].
  pose proof (Z.pow_pos_nonneg 2 a). lia.
Qed.

(** The chunks of the byte string that the limbs hold. *)
Definition chunk (v o n : Z) : Z := (v / 2 ^ o) mod 2 ^ n.

Lemma chunk_range v o n : 0 ≤ n → 0 ≤ chunk v o n < 2 ^ n.
Proof. intros Hn. apply Z.mod_pos_bound. by apply Z.pow_pos_nonneg. Qed.

Lemma chunks_sum v n :
  0 ≤ n → v mod 2 ^ (232 + n) =
    chunk v 0 32 + 2 ^ 32 * chunk v 32 24 + 2 ^ 56 * chunk v 56 24 + 2 ^ 80 * chunk v 80 24 +
    2 ^ 104 * chunk v 104 24 + 2 ^ 128 * chunk v 128 32 + 2 ^ 160 * chunk v 160 24 +
    2 ^ 184 * chunk v 184 24 + 2 ^ 208 * chunk v 208 24 + 2 ^ 232 * chunk v 232 n.
Proof.
  intros Hn. unfold chunk. rewrite (mod_split 232 n), (mod_split 208 24), (mod_split 184 24),
    (mod_split 160 24), (mod_split 128 32), (mod_split 104 24), (mod_split 80 24),
    (mod_split 56 24), (mod_split 32 24) by lia.
  by rewrite Z.div_1_r.
Qed.

Section load.
Context (s : list Z) (Hs : bytes s) (HL : length s = 32%nat).
Abbreviation v := (le_combine s).

Lemma load_limbs h9 :
  fe_load s h9 = [chunk v 0 32; chunk v 32 24 * 2 ^ 6; chunk v 56 24 * 2 ^ 5;
    chunk v 80 24 * 2 ^ 3; chunk v 104 24 * 2 ^ 2; chunk v 128 32; chunk v 160 24 * 2 ^ 7;
    chunk v 184 24 * 2 ^ 5; chunk v 208 24 * 2 ^ 4; h9].
Proof.
  unfold fe_load. rewrite !load_3_spec, !load_4_spec, !Z.shiftl_mul_pow2 by (done || lia).
  done.
Qed.

Lemma load255_limbs :
  fe_load255 s = fe_load s (chunk v 232 23 * 2 ^ 2).
Proof.
  unfold fe_load255. rewrite load_3_spec by (done || lia).
  change 8388607 with (Z.ones 23). rewrite Z.land_ones, Z.shiftl_mul_pow2 by lia.
  rewrite mod_pow2_mod by lia. done.
Qed.

Lemma load256_limbs :
  fe_load256 s = fe_load s (chunk v 232 24 * 2 ^ 2).
Proof.
  unfold fe_load256. rewrite load_3_spec, Z.shiftl_mul_pow2 by (done || lia). done.
Qed.

Lemma load_val n h9 :
  0 ≤ n → h9 = chunk v 232 n * 2 ^ 2 → fe_val (fe_load s h9) = v mod 2 ^ (232 + n).
Proof.
  intros Hn ->. rewrite load_limbs, chunks_sum, fe_val_expand by done. lia.
Qed.

Lemma fe_val_eval f : fe_val f = eval wt25 10 f.
Proof. reflexivity. Qed.

(** The carries bring the limbs within the usual bounds. *)
Lemma load_carry_ok n h9 :
  0 ≤ n ≤ 24 → h9 = chunk v 232 n * 2 ^ 2 →
  ∃ r, load_carry (fe_load s h9) = Some r ∧ store32 r = r ∧
    fe_rep 101 (v mod 2 ^ (232 + n)) r.
Proof.
  intros Hn E. pose proof (load_val n h9 ltac:(lia) E) as HV.
  assert (within [(0, 2 ^ 32); (0, 2 ^ 30); (0, 2 ^ 29); (0, 2 ^ 27); (0, 2 ^ 26); (0, 2 ^ 32);
    (0, 2 ^ 31); (0, 2 ^ 29); (0, 2 ^ 28); (0, 2 ^ 26)] (fe_load s h9)) as W.
  { pose proof (chunk_range v 232 n ltac:(lia)).
    assert (2 ^ n ≤ 2 ^ 24) by (apply Z.pow_le_mono_r; lia).
    rewrite load_limbs.
    repeat (apply Forall2_cons; [unfold inb; cbn [fst snd];
      lazymatch goal with
      | |- context [chunk v ?o 24] => pose proof (chunk_range v o 24)
      | |- context [chunk v ?o 32] => pose proof (chunk_range v o 32)
      | _ => idtac end; lia|]). apply Forall2_nil. }
  eapply (run_analyzed load_carry) in W as (r & R & W); [|vm_compute; reflexivity].
  exists r. eapply (within_le _ (fe_bounds 101)) in W; [|vm_compute; reflexivity].
  split; [done|]. split; [by apply (store32_id (fe_bounds 101))|]. split; [done|].
  apply (run_valued wt25 10 p25519 load_carry 10 10) in R as [_ V];
    [|vm_compute; reflexivity|done].
  rewrite fe_val_eval in *. by rewrite HV in V.
Qed.

Lemma not_canonical_spec :
  not_canonical (fe_load255 s) = (p25519 <=? v mod 2 ^ 255).
Proof.
  change 255 with (232 + 23). rewrite load255_limbs, load_limbs, chunks_sum by lia. unfold not_canonical.
  cbn [lookup_total list_lookup_total].
  pose proof (chunk_range v 0 32). pose proof (chunk_range v 32 24).
  pose proof (chunk_range v 56 24). pose proof (chunk_range v 80 24).
  pose proof (chunk_range v 104 24). pose proof (chunk_range v 128 32).
  pose proof (chunk_range v 160 24). pose proof (chunk_range v 184 24).
  pose proof (chunk_range v 208 24). pose proof (chunk_range v 232 23).
  unfold p25519. apply eq_true_iff_eq. rewrite !andb_true_iff, !Z.eqb_eq, !Z.leb_le. lia.
Qed.
End load.

(** ** Square roots in the field *)

Section roots.
#[local] Open Scope Zmod_scope.

Lemma mul_0_cases (a b : Fp) : a * b = 0 → a = 0 ∨ b = 0.
Proof. apply Zmod.mul_0_iff_prime, prime_25519. Qed.

Lemma square_cases (a b : Fp) : a * a = b * b → a = b ∨ a = - b.
Proof.
  intros E. assert ((a - b) * (a + b) = 0) as H.
  { transitivity (a * a - b * b); [ring|]. rewrite E. ring. }
  apply mul_0_cases in H as [H|H]; [left|right].
  - by apply Zmod.sub_eq_0_iff.
  - transitivity (a + b - b); [ring|]. rewrite H. ring.
Qed.

(** What [fe_divpowm1] computes, and its square. *)
Definition root (u v : Fp) : Fp := u * v ^ 3 * (u * v ^ 7) ^ ((p25519 - 5) / 8)%Z.
Definition quartic (u v : Fp) : Fp := (u * v ^ 7) ^ ((p25519 - 1) / 4)%Z.

Lemma pow_7 (v : Fp) : v ^ 7 = v * v ^ 3 * v ^ 3.
Proof.
  change 7%Z with (1 + 3 + 3)%Z. by rewrite !Zmod.pow_add_r_nonneg, Zmod.pow_1_r by lia.
Qed.

Lemma root_square u v : v * (root u v * root u v) = u * quartic u v.
Proof.
  unfold root, quartic.
  replace ((p25519 - 1) / 4)%Z with ((p25519 - 5) / 8 + (p25519 - 5) / 8 + 1)%Z
    by (vm_compute; reflexivity).
  generalize ((p25519 - 5) / 8)%Z (ltac:(vm_compute; congruence) : (0 ≤ (p25519 - 5) / 8)%Z).
  intros e He. rewrite !Zmod.pow_add_r_nonneg, Zmod.pow_1_r by lia.
  rewrite (pow_7 v). ring.
Qed.

Lemma quartic_fourth u v : u ≠ 0 → v ≠ 0 →
  (quartic u v * quartic u v) * (quartic u v * quartic u v) = 1.
Proof.
  intros Hu Hv. unfold quartic. set (w := u * v ^ 7).
  assert (w ≠ 0) as Hw.
  { intros E. unfold w in E. apply mul_0_cases in E as [E|E]; [exact (Hu E)|].
    assert (∀ n, v ^ Z.of_nat n ≠ 0) as Hp.
    { induction n as [|n IH]; [apply one_neq_0|].
      rewrite Nat2Z.inj_succ, Zmod.pow_succ_r_nonneg by lia. intros [E'|E']%mul_0_cases;
        [exact (Hv E')|exact (IH E')]. }
    exact (Hp 7%nat E). }
  rewrite <- !Zmod.pow_add_r_nonneg by (vm_compute; congruence).
  rewrite <- (Zmod.fermat_nz w Hw prime_25519). f_equal.
Qed.

Lemma pow_neq_0 (v : Fp) n : v ≠ 0 → (0 ≤ n)%Z → v ^ n ≠ 0.
Proof.
  intros Hv Hn. revert n Hn. refine (natlike_ind _ _ _); [apply one_neq_0|].
  intros n Hn IH. rewrite Zmod.pow_succ_r_nonneg by done.
  intros [E|E]%mul_0_cases; [exact (Hv E)|exact (IH E)].
Qed.

Lemma quartic_of_square u v r :
  u ≠ 0 → v ≠ 0 → v * (r * r) = u → quartic u v * quartic u v = 1.
Proof.
  intros Hu Hv E. unfold quartic.
  assert (u * v ^ 7 = (r * (v * v ^ 3)) * (r * (v * v ^ 3))) as ->.
  { rewrite pow_7, <- E. ring. }
  set (t := r * (v * v ^ 3)).
  assert (t ≠ 0) as Ht.
  { unfold t. apply mul_neq_0; [|apply mul_neq_0; [exact Hv|by apply pow_neq_0]].
    intros ->. apply Hu. rewrite <- E. ring. }
  rewrite <- (Zmod.pow_2_r t), <- Zmod.pow_mul_r_nonneg, <- Zmod.pow_add_r_nonneg
    by (vm_compute; congruence).
  rewrite <- (Zmod.fermat_nz t Ht prime_25519). f_equal.
Qed.

(** [x ^ 2 = u / v] has a solution exactly when the candidate or its product
    with the square root of -1 is one. *)
Lemma root_cases u v r :
  v ≠ 0 → v * (r * r) = u →
  v * (root u v * root u v) = u ∨ v * (root u v * root u v) = - u.
Proof.
  intros Hv E. rewrite root_square. destruct (decide (u = 0)) as [->|Hu].
  - left. ring.
  - pose proof (quartic_of_square u v r Hu Hv E) as C. rewrite <- (Zmod.mul_1_l 1) in C.
    apply square_cases in C as [-> | ->]; [left|right]; ring.
Qed.

(** ** The sign *)

Lemma f_sign_opp (x : Fp) : x ≠ 0 → f_sign (- x) = (1 - f_sign x)%Z.
Proof.
  intros Hx. unfold f_sign. rewrite Zmod.to_Z_opp.
  pose proof (to_Z_range x) as R.
  assert (Zmod.to_Z x ≠ 0)%Z by (intros E; apply Hx; by apply Zmod.to_Z_0_iff).
  replace (- Zmod.to_Z x mod p25519)%Z with (p25519 - Zmod.to_Z x)%Z; [unfold p25519; zlia|].
  apply (Z.mod_unique_pos _ _ (-1)); lia.
Qed.

Lemma f_sign_0 : f_sign 0 = 0%Z.
Proof. done. Qed.

Lemma f_sign_inj (x y : Fp) : x * x = y * y → f_sign x = f_sign y → x = y.
Proof.
  intros E S. destruct (square_cases _ _ E) as [|Hx]; [done|].
  destruct (decide (y = 0)) as [Hy|Hy]; [by rewrite Hx, Hy; ring|].
  rewrite Hx, f_sign_opp in S by exact Hy. pose proof (f_sign_range y). lia.
Qed.
End roots.

(** ** [ge_frombytes_vartime] *)

Section decode.
#[local] Open Scope Zmod_scope.

Lemma recover_x_ok u v fu fv :
  fe_is 202 u fu → fe_is 202 v fv → v ≠ 0 →
  ∃ ox, recover_x fu fv = Some ox ∧
    match ox with
    | Some fx => ∃ x, fe_is 101 x fx ∧ v * (x * x) = u
    | None => ∀ x, v * (x * x) ≠ u
    end.
Proof.
  intros Hu Hv Hv0. unfold recover_x.
  destruct (fe_is_divpowm1 _ _ _ _ _ _ Hu Hv) as (fx & -> & Hx); [lia..|].
  fold (root u v) in Hx. cbn [mbind option_bind]. set (x := root u v) in *. fe_step. fe_step.
  match goal with H : fe_is _ (x * x * v) ?f |- _ => rename f into fw, H into Hw end.
  assert (x * x * v = v * (x * x)) as Ew by ring.
  destruct (fe_is_sub _ _ _ _ _ _ Hw Hu) as (fc & -> & Hc); [lia|]. cbn [mbind option_bind].
  rewrite (fe_is_isnonzero _ _ _ Hc) by lia. cbn [mbind option_bind].
  destruct (decide (x * x * v - u = 0)) as [E|E]; cbn [Z.eqb negb].
  { eexists. split; [done|]. exists x. split; [exact Hx|].
    rewrite <- Ew. by apply Zmod.sub_eq_0_iff. }
  destruct (fe_is_add _ _ _ _ _ _ Hw Hu) as (fe' & -> & He); [lia|]. cbn [mbind option_bind].
  rewrite (fe_is_isnonzero _ _ _ He) by lia. cbn [mbind option_bind].
  destruct (decide (x * x * v + u = 0)) as [E'|E']; cbn [Z.eqb negb].
  - pose proof fe_is_sqrtm1 as Hi. fe_step. eexists. split; [done|].
    eexists. split; [eassumption|].
    transitivity ((x * x * v) * (i25519 * i25519)); [ring|].
    rewrite i25519_square. transitivity (- (x * x * v + u) + u); [ring|]. rewrite E'. ring.
  - eexists. split; [done|]. intros r Hr. destruct (root_cases u v r Hv0 Hr) as [Hx'|Hx'];
      fold x in Hx'.
    + apply E. rewrite Ew, Hx'. ring.
    + apply E'. rewrite Ew, Hx'. ring.
Qed.

Lemma fix_sign_ok x fx b :
  fe_is 101 x fx → (0 ≤ b ≤ 1)%Z →
  ∃ ox, fix_sign fx b = Some ox ∧
    match ox with
    | Some fx' => ∃ x', fe_is 101 x' fx' ∧ x' * x' = x * x ∧ f_sign x' = b
    | None => x = 0 ∧ b = 1%Z
    end.
Proof.
  intros Hx Hb. unfold fix_sign. rewrite (fe_is_isnegative _ _ _ Hx) by lia.
  cbn [mbind option_bind]. destruct (Z.eqb_spec (f_sign x) b) as [E|E]; cbn [negb].
  { eexists. split; [done|]. by exists x. }
  rewrite (fe_is_isnonzero _ _ _ Hx) by lia. cbn [mbind option_bind].
  pose proof (f_sign_range x).
  destruct (decide (x = 0)) as [->|Hx0]; cbn [Z.eqb].
  - eexists. split; [done|]. split; [done|]. rewrite f_sign_0 in E. lia.
  - fe_step. eexists. split; [done|]. eexists. split; [eassumption|].
    split; [ring|]. rewrite f_sign_opp by exact Hx0. lia.
Qed.

(** [v = d y ^ 2 + 1] does not vanish: [d] is not a square and -1 is one. *)
Lemma dyy_neq_0 (y : Fp) : y * y * d25519 + 1 ≠ 0.
Proof.
  intros E. destruct (decide (y = 0)) as [->|Hy].
  - apply one_neq_0. etransitivity; [|exact E]. ring.
  - apply (d25519_nonsquare (Zmod.mdiv i25519 y)).
    transitivity (Zmod.mdiv (i25519 * i25519) (y * y)); [by field|].
    rewrite i25519_square. apply mdiv_unique; [by apply mul_neq_0|].
    transitivity (y * y * d25519 + 1 - 1); [ring|]. rewrite E. ring.
Qed.

Lemma on_curve_u_v (x y : Fp) :
  on_curve (x, y) ↔ (y * y * d25519 + 1) * (x * x) = y * y - 1.
Proof.
  unfold on_curve. cbn. split; intros E.
  - transitivity (x * x + (1 + d25519 * x * x * y * y) - 1); [ring|]. rewrite <- E. ring.
  - transitivity (y * y - 1 - x * x + 1); [ring|]. rewrite <- E. ring.
Qed.

(** The number in the low 255 bits, and the top bit. *)
Definition enc_y (s : list Z) : Z := (le_combine s mod 2 ^ 255)%Z.
Definition enc_sign (s : list Z) : Z := Z.shiftr (s !!! 31%nat) 7.

Lemma enc_sign_spec s :
  bytes s → length s = 32%nat → enc_sign s = (le_combine s / 2 ^ 255)%Z.
Proof.
  intros Hs HL. unfold enc_sign. rewrite le_combine_lookup by (done || lia).
  rewrite Z.shiftr_div_pow2 by lia. change (256 ^ Z.of_nat 31)%Z with (2 ^ 248)%Z.
  pose proof (le_combine_bound s Hs) as Hb. rewrite HL in Hb.
  change (256 ^ Z.of_nat 32)%Z with (2 ^ 256)%Z in Hb.
  rewrite Z.mod_small; [by rewrite Z.div_div|].
  split; [apply Z.div_pos|apply Z.div_lt_upper_bound]; lia.
Qed.

Lemma enc_sign_range s : bytes s → length s = 32%nat → (0 ≤ enc_sign s ≤ 1)%Z.
Proof.
  intros Hs HL. rewrite enc_sign_spec by done.
  pose proof (le_combine_bound s Hs) as Hb. rewrite HL in Hb.
  change (256 ^ Z.of_nat 32)%Z with (2 ^ 256)%Z in Hb.
  split; [apply Z.div_pos; lia|]. apply Z.lt_succ_r, Z.div_lt_upper_bound; lia.
Qed.

(** A string is an encoding of [(x, y)] when its fields are those of the point. *)
Lemma encode_iff s x y :
  bytes s → length s = 32%nat →
  ed_encode (x, y) = s ↔ Zmod.to_Z y = enc_y s ∧ f_sign x = enc_sign s.
Proof.
  intros Hs HL. unfold ed_encode. cbn [fst snd]. rewrite enc_sign_spec by done. unfold enc_y.
  pose proof (to_Z_range y) as Ry. pose proof (f_sign_range x) as Rx.
  assert (Zmod.to_Z y < 2 ^ 255)%Z by (unfold p25519 in *; lia).
  split.
  - intros <-. rewrite le_combine_split.
    change (256 ^ Z.of_nat 32)%Z with (2 ^ 255 * 2)%Z.
    rewrite (Z.mod_small _ (2 ^ 255 * 2)) by lia. split.
    + apply (Z.mod_unique_pos _ _ (f_sign x)); lia.
    + apply (Z.div_unique_pos _ _ _ (Zmod.to_Z y)); lia.
  - intros [-> ->]. rewrite Z.add_comm, <- Z.div_mod by lia.
    rewrite <- HL. by apply le_split_combine.
Qed.
End decode.

Section decode_main.
#[local] Open Scope Zmod_scope.

(** What the decoder does with any 32 bytes: the outcome, in terms of the
    equation of the curve. *)
Lemma ge_frombytes_outcome s :
  bytes s → length s = 32%nat →
  ∃ o, ge_frombytes_vartime s = Some o ∧
    match o with
    | Some h => ∃ P, p3_is P h ∧ ed_encode P = s
    | None => ∀ P, on_curve P → ed_encode P ≠ s
    end.
Proof.
  intros Hs HL. unfold ge_frombytes_vartime.
  rewrite not_canonical_spec by done. fold (enc_y s).
  destruct (Z.leb_spec p25519 (enc_y s)) as [Hp|Hp].
  { eexists. split; [done|]. intros [x y] HP E. apply encode_iff in E as [E _]; [|done..].
    pose proof (to_Z_range y). lia. }
  rewrite load255_limbs by done.
  destruct (load_carry_ok s Hs HL 23 _ ltac:(lia) eq_refl) as (r & -> & SR & R).
  cbn [mbind option_bind]. rewrite SR. change (232 + 23)%Z with 255%Z in R.
  fold (enc_y s) in R. apply fe_is_rep in R. set (y := to_F (enc_y s)) in *.
  assert (Zmod.to_Z y = enc_y s) as Ey.
  { unfold y. rewrite Zmod.to_Z_of_Z. apply Z.mod_small. split; [|done].
    apply Z.mod_pos_bound. lia. }
  pose proof fe_is_d as Hd. pose proof fe_is_1 as H1. fe_run.
  match goal with HU : fe_is _ (y * y - 1) ?fu, HV : fe_is _ (y * y * d25519 + 1) ?fv |- _ =>
    destruct (recover_x_ok _ _ fu fv HU HV (dyy_neq_0 y)) as (ox & -> & Hox) end.
  cbn [mbind option_bind]. destruct ox as [fx|].
  - destruct Hox as (a & Hx & Ex).
    destruct (fix_sign_ok a fx (enc_sign s) Hx (enc_sign_range s Hs HL)) as (ox & Es & Hox).
    unfold enc_sign in Es. rewrite Es. cbn [mbind option_bind]. destruct ox as [fx'|].
    + destruct Hox as (b & Hx' & Esq & Esg). fe_step. eexists. split; [done|].
      exists (b, y). split; [|by apply encode_iff].
      split; [apply on_curve_u_v; by rewrite Esq|].
      exists 1. split; [apply one_neq_0|]. split_and!; fe_result; ring.
    + destruct Hox as [-> Eb]. eexists. split; [done|]. intros [c y'] HP E.
      apply encode_iff in E as [E1 E2]; [|done..].
      assert (y' = y) as -> by (apply Zmod.to_Z_inj; congruence).
      apply on_curve_u_v in HP. rewrite <- Ex in HP.
      apply Zmod.mul_cancel_l_prime in HP; [|apply prime_25519|apply dyy_neq_0].
      assert (c = 0) as ->.
      { destruct (square_cases _ _ HP) as [-> | ->]; ring. }
      rewrite f_sign_0 in E2. lia.
  - eexists. split; [done|]. intros [c y'] HP E.
    apply encode_iff in E as [E1 E2]; [|done..].
    assert (y' = y) as -> by (apply Zmod.to_Z_inj; congruence).
    apply on_curve_u_v in HP. exact (Hox _ HP).
Qed.
End decode_main.

(** ** [ge_fromfe_frombytes_vartime] *)

Section fromfe.
#[local] Open Scope Zmod_scope.

Definition A25519 : Fp := to_F 486662.
Abbreviation A := A25519.
Abbreviation two := (1 + 1 : Fp).

Lemma fe_is_const c x f :
  bounds_le ((λ x, (x, x)) <$> f) (fe_bounds c) = true → to_F (fe_val f) = x → fe_is c x f.
Proof. intros. apply fe_is_val. split; [by apply fe_bounded_const|done]. Qed.

Lemma fe_is_ma : fe_is 101 (- A) fe_ma.
Proof.
  apply fe_is_const; [done|]. unfold A25519. rewrite <- Zmod.of_Z_opp. f_compute.
Qed.

Lemma fe_is_ma2 : fe_is 101 (- (A * A)) fe_ma2.
Proof.
  apply fe_is_const; [done|]. unfold A25519.
  rewrite <- Zmod.of_Z_mul, <- Zmod.of_Z_opp. f_compute.
Qed.

(** The four square roots. *)
Definition fffb (f : fe) : Fp := to_F (fe_val f).

Lemma fe_is_fffb f : bounds_le ((λ x, (x, x)) <$> f) (fe_bounds 101) = true →
  fe_is 101 (fffb f) f.
Proof. intros. by apply fe_is_const. Qed.

Ltac fffb_square :=
  rewrite <- to_F_2; unfold fffb, A25519, i25519;
  rewrite <- ?Zmod.of_Z_mul, <- ?Zmod.of_Z_add, <- ?Zmod.of_Z_mul, <- ?Zmod.of_Z_opp,
    <- ?Zmod.of_Z_mul; f_compute.

Lemma fffb1_square : fffb fe_fffb1 * fffb fe_fffb1 = - (two * A * (A + two)).
Proof. fffb_square. Qed.

Lemma fffb2_square : fffb fe_fffb2 * fffb fe_fffb2 = two * A * (A + two).
Proof. fffb_square. Qed.

Lemma fffb3_square : fffb fe_fffb3 * fffb fe_fffb3 = - (i25519 * A * (A + two)).
Proof. fffb_square. Qed.

Lemma fffb4_square : fffb fe_fffb4 * fffb fe_fffb4 = i25519 * A * (A + two).
Proof. fffb_square. Qed.

(** [d = - (A - 2) / (A + 2)] *)
Lemma d_A : d25519 * (A + two) = two - A.
Proof.
  rewrite <- to_F_2.  rewrite <- fe_d_val. unfold A25519. rewrite <- Zmod.of_Z_add, <- Zmod.of_Z_mul,
    <- Zmod.of_Z_sub. f_compute.
Qed.

Lemma A_plus_2_neq_0 : A + two ≠ 0.
Proof.
  rewrite <- to_F_2.  unfold A25519. rewrite <- Zmod.of_Z_add. apply to_F_neq_0. vm_compute. congruence.
Qed.

Lemma A_neq_0 : A ≠ 0.
Proof. apply to_F_neq_0. vm_compute. congruence. Qed.

(** The map from the Montgomery form: [z / w] is the abscissa there. *)
Lemma montgomery_on_curve (z w X : Fp) :
  w ≠ 0 → X * X * (z * z + A * z * w + w * w) = - (z * w * (A + two)) →
  z + w ≠ 0 ∧ on_curve (X, Zmod.mdiv (z - w) (z + w)).
Proof.
  intros Hw E. pose proof d_A as HA. pose proof A_plus_2_neq_0 as HA2.
  assert (z + w ≠ 0) as HZ.
  { intros Hz. assert (z = - w) as ->
      by (transitivity (z + w - w); [ring|]; rewrite Hz; ring).
    assert ((w * w * (A + two)) * (X * X * d25519) = (w * w * (A + two)) * 1) as D.
    { transitivity (w * w * (X * X) * (d25519 * (A + two))); [ring|]. rewrite HA.
      transitivity (X * X * (- w * - w + A * - w * w + w * w)); [ring|]. rewrite E. ring. }
    apply Zmod.mul_cancel_l_prime in D; [|apply prime_25519|nz].
    assert (X ≠ 0) as HX.
    { intros ->. apply one_neq_0. rewrite <- D. ring. }
    apply (d25519_nonsquare (Zmod.inv X)).
    transitivity (Zmod.inv X * Zmod.inv X * (X * X * d25519)); [rewrite D; ring|].
    field. exact HX. }
  split; [exact HZ|]. set (y := Zmod.mdiv (z - w) (z + w)).
  assert (y * (z + w) = z - w) as Ey by (unfold y; field; exact HZ).
  clearbody y. unfold on_curve. cbn. fold d25519.
  assert ((A + two) * ((z + w) * (z + w)) ≠ 0) as HK by nz.
  apply (Zmod.mul_cancel_l_prime ((A + two) * ((z + w) * (z + w)))); [apply prime_25519|exact HK|].
  transitivity ((A + two) * ((y * (z + w)) * (y * (z + w)) - X * X * ((z + w) * (z + w))));
    [ring|].
  transitivity ((A + two) * ((z + w) * (z + w))
    + d25519 * (A + two) * (X * X * ((y * (z + w)) * (y * (z + w))))); [|ring].
  rewrite Ey, HA. apply (proj1 (Zmod.sub_eq_0_iff _ _)).
  transitivity (- (two * two) * (X * X * (z * z + A * z * w + w * w) - - (z * w * (A + two))));
    [ring|]. rewrite E. ring.
Qed.

Lemma w_neq_0 (u : Fp) : u * u + u * u + 1 ≠ 0.
Proof.
  intros E. assert (u ≠ 0) as Hu.
  { intros ->. apply one_neq_0. etransitivity; [|exact E]. ring. }
  apply (two_nonsquare (Zmod.mdiv i25519 u)). rewrite to_F_2.
  transitivity (Zmod.mdiv (i25519 * i25519) (u * u)); [by field|].
  rewrite i25519_square. apply mdiv_unique; [nz|].
  transitivity (u * u + u * u + 1 - 1); [ring|]. rewrite E. ring.
Qed.

Lemma x_neq_0 (u : Fp) :
  let v := u * u + u * u in let w := v + 1 in w * w + - (A * A) * v ≠ 0.
Proof.
  intros v w E. pose proof A_neq_0 as HA. destruct (decide (u = 0)) as [Hu|Hu].
  - apply one_neq_0. etransitivity; [|exact E]. unfold w, v. rewrite Hu. ring.
  - apply (two_nonsquare (Zmod.mdiv w (A * u))). rewrite to_F_2.
    transitivity (Zmod.mdiv (w * w) ((A * u) * (A * u))); [field; by split|].
    apply mdiv_unique; [nz|]. transitivity (A * A * v); [unfold v; ring|].
    transitivity (w * w - (w * w + - (A * A) * v)); [ring|]. rewrite E. ring.
Qed.

Lemma quartic_cases u v : u ≠ 0 → v ≠ 0 →
  quartic u v = 1 ∨ quartic u v = - (1) ∨ quartic u v = i25519 ∨ quartic u v = - i25519.
Proof.
  intros Hu Hv. pose proof (quartic_fourth u v Hu Hv) as E.
  rewrite <- (Zmod.mul_1_l 1) in E. apply square_cases in E as [E|E].
  - rewrite <- (Zmod.mul_1_l 1) in E. apply square_cases in E. tauto.
  - rewrite <- i25519_square in E. apply square_cases in E. tauto.
Qed.

(** The point that a field element [u] is sent to: [X] is its abscissa,
    [(z - w) / (z + w)] its ordinate. *)
Record fromfe_rel (v w : Fp) (X z : Fp) (sign : Z) : Prop := {
  ff_curve : X * X * (z * z + A * z * w + w * w) = - (z * w * (A + two));
  ff_z : z = if (sign =? 0)%Z then - A * v else - A;
  ff_sign : sign = 0%Z ∨ sign = 1%Z;
  ff_square : sign = 0%Z ↔ ∃ r, (w * w + - (A * A) * v) * (r * r) = w;
  ff_X : X = 0 → sign = 0%Z
}.

Lemma fromfe_rel_0 (u v w x r X k : Fp) :
  v = u * u + u * u → w = v + 1 → x = w * w + - (A * A) * v →
  X = r * k * u → r * r * x * (k * k) = two * A * (A + two) * w →
  (∃ r', x * (r' * r') = w) →
  fromfe_rel v w X (- A * v) 0.
Proof.
  intros Hv Hw Hx HX E HE. split;
    [|reflexivity|by left|rewrite <- Hx; split; [intros _; exact HE|reflexivity]|reflexivity].
  transitivity (r * r * x * (k * k) * (u * u)); [rewrite HX, Hx, Hw; ring|].
  rewrite E, Hv. ring.
Qed.

Lemma fromfe_rel_1 (v w x r X k : Fp) :
  w = v + 1 → x = w * w + - (A * A) * v → w ≠ 0 →
  X = r * k → r * r * x * (k * k) = A * (A + two) * w →
  (∀ r', x * (r' * r') ≠ w) →
  fromfe_rel v w X (- A) 1.
Proof.
  intros Hw Hx Hw0 HX E HE.
  split; [|reflexivity|by right|split; [done|rewrite <- Hx; intros [r' Er]; destruct (HE r' Er)]|].
  - transitivity (r * r * x * (k * k)); [rewrite HX, Hx, Hw; ring|]. rewrite E. ring.
  - intros HX0. exfalso. assert (A * (A + two) * w ≠ 0) as H.
    { pose proof A_neq_0. pose proof A_plus_2_neq_0. nz. }
    apply H. rewrite <- E. transitivity (x * ((r * k) * (r * k))); [ring|].
    rewrite <- HX, HX0. ring.
Qed.

(** A test for zero, both ways; and the end of a branch. *)
Ltac fe_test E :=
  lazymatch goal with
  | |- ∃ _, mbind _ (fe_isnonzero ?f) = _ ∧ _ =>
      with_fe f ltac:(fun H => rewrite (fe_is_isnonzero _ _ _ H) by lia);
      cbn [mbind option_bind];
      lazymatch goal with |- context [decide ?P] =>
        destruct (decide P) as [E|E]; cbn [Z.eqb negb] end
  end.

Ltac fe_done :=
  eexists; split; [reflexivity|]; cbv beta iota zeta;
  eexists _, _; split_and!; [eassumption|eassumption|].

Lemma fromfe_root_ok (u v w : Fp) fu fv fw :
  v = u * u + u * u → w = v + 1 →
  fe_is 101 u fu → fe_is 101 v fv → fe_is 102 w fw →
  ∃ o, fromfe_root fu fv fw = Some o ∧
    let '(fX, fz, sign) := o in
    ∃ X z, fe_is 101 X fX ∧ fe_is 101 z fz ∧ fromfe_rel v w X z sign.
Proof.
  intros Ev Ew Hu Hv Hw. unfold fromfe_root, fe_copy.
  pose proof fe_is_ma2 as Hma2. pose proof fe_is_ma as Hma. pose proof fe_is_sqrtm1 as Hi.
  pose proof (fe_is_fffb fe_fffb1 eq_refl) as H1. pose proof (fe_is_fffb fe_fffb2 eq_refl) as H2.
  pose proof (fe_is_fffb fe_fffb3 eq_refl) as H3. pose proof (fe_is_fffb fe_fffb4 eq_refl) as H4.
  assert (w ≠ 0) as Hw0 by (rewrite Ew, Ev; apply w_neq_0).
  assert (w * w + - (A * A) * v ≠ 0) as Hx0 by (rewrite Ew, Ev; apply x_neq_0).
  do 3 fe_step. remember (w * w + - (A * A) * v) as n eqn:En.
  match goal with H : fe_is _ n ?f |- _ =>
    destruct (fe_is_divpowm1 _ _ _ _ _ _ Hw H) as (fr & -> & Hr); [lia..|];
    fold (root w n) in Hr; cbn [mbind option_bind] end.
  pose proof (root_square w n) as Es. pose proof (quartic_cases w n Hw0 Hx0) as Hchi.
  set (r := root w n) in *. set (c := quartic w n) in *.
  assert (r * r * n = w * c) as Ec by (rewrite <- Es; ring). clearbody r.
  do 3 fe_step. fe_test E1.
  { do 3 fe_step. fe_done. apply (fromfe_rel_0 u v w n r _ (fffb fe_fffb2)); [done..| |].
    - apply sub_eq_0 in E1. rewrite fffb2_square, <- E1. ring.
    - exists r. apply sub_eq_0 in E1. rewrite E1. ring. }
  fe_step. fe_test E2.
  { do 3 fe_step. fe_done. apply (fromfe_rel_0 u v w n r _ (fffb fe_fffb1)); [done..| |].
    - rewrite fffb1_square.
      transitivity (two * A * (A + two) * (w - (w + r * r * n))); [ring|]. rewrite E2. ring.
    - exists (r * i25519). transitivity ((i25519 * i25519) * (w + r * r * n - w)); [ring|].
      rewrite E2, i25519_square. ring. }
  assert (∀ r', n * (r' * r') ≠ w) as HN.
  { intros r' Er. pose proof (quartic_of_square w n r' Hw0 Hx0 Er) as C. fold c in C.
    rewrite <- (Zmod.mul_1_l 1) in C. rewrite Ec in E1, E2.
    apply square_cases in C as [-> | ->]; [apply E1|apply E2]; ring. }
  do 2 fe_step. fe_test E3.
  { fe_step. fe_done. apply (fromfe_rel_1 v w n r _ (fffb fe_fffb4)); [done..| |exact HN].
    apply sub_eq_0 in E3. rewrite fffb4_square.
    transitivity (A * (A + two) * (r * r * n * i25519)); [ring|]. rewrite <- E3. ring. }
  fe_step. fe_test E4.
  { fe_step. fe_done. apply (fromfe_rel_1 v w n r _ (fffb fe_fffb3)); [done..| |exact HN].
    rewrite fffb3_square.
    transitivity (A * (A + two) * (w - (w + r * r * n * i25519))); [ring|].
    rewrite E4. ring. }
  exfalso. clearbody c. rewrite Ec in *. destruct Hchi as [-> | [-> | [-> | ->]]].
  - apply E1. ring.
  - apply E2. ring.
  - apply E4. transitivity (w * (i25519 * i25519 + 1)); [ring|]. rewrite i25519_square. ring.
  - apply E3. transitivity (w * (i25519 * i25519 + 1)); [ring|]. rewrite i25519_square. ring.
Qed.

Lemma fromfe_setsign_ok v w X z sign fX :
  fe_is 101 X fX → fromfe_rel v w X z sign →
  ∃ o, fromfe_setsign fX sign = Some o ∧
    ∃ X', fe_is 101 X' o ∧ fromfe_rel v w X' z sign ∧ f_sign X' = sign.
Proof.
  intros HX [Ec Ez Es Eq E0]. unfold fromfe_setsign. rewrite (fe_is_isnegative _ _ _ HX) by lia.
  cbn [mbind option_bind]. pose proof (f_sign_range X) as Rs.
  destruct (Z.eqb_spec (f_sign X) sign) as [E|E]; cbn [negb].
  { eexists. split; [reflexivity|]. exists X. by split_and!. }
  fe_test EX.
  { exfalso. apply E. rewrite (E0 EX), EX. apply f_sign_0. }
  fe_step. eexists. split; [reflexivity|]. eexists. split; [eassumption|]. split.
  - split; [|done..|].
    + etransitivity; [|exact Ec]. ring.
    + intros EX'. apply E0. transitivity (- - X); [ring|]. rewrite EX'. ring.
  - rewrite f_sign_opp by exact EX. lia.
Qed.

Lemma fe_is_1_small : fe_is 1 1 fe_1.
Proof. apply fe_is_const; [done|]. f_compute. Qed.

Lemma fromfe_check_ok P r : p2_is P r → fromfe_check r = Some tt.
Proof.
  intros (HP & z & Hz & HX & HY & HZ). unfold fromfe_check.
  pose proof fe_is_d as Hd. pose proof fe_is_1_small as H1. destruct P as [x y].
  cbn [fst snd] in *. fe_run.
  match goal with |- mbind _ (fe_isnonzero ?f) = _ =>
    with_fe f ltac:(fun H => rewrite (fe_is_isnonzero _ _ _ H) by lia) end.
  cbn [mbind option_bind].
  match goal with |- context [decide ?E] => destruct (decide E) as [|N] end; [done|].
  exfalso. apply N. assert (x * z * Zmod.inv z = x) as -> by (field; exact Hz).
  assert (y * z * Zmod.inv z = y) as -> by (field; exact Hz).
  transitivity (1 + d25519 * x * x * y * y - (y * y - x * x)); [ring|].
  unfold on_curve in HP. cbn in HP. rewrite HP. ring.
Qed.

(** The point of [u]: the Montgomery abscissa is [- A v / w] or [- A / w],
    whichever is on the curve, and the sign of the Edwards abscissa says which. *)
Record hash_point (u : Fp) (P : point) : Prop := {
  hp_curve : on_curve P;
  hp_sign : f_sign P.1 = 0%Z ↔
    let v := u * u + u * u in let w := v + 1 in
    ∃ r, (w * w + - (A * A) * v) * (r * r) = w;
  hp_y :
    let v := u * u + u * u in let w := v + 1 in
    let z := if (f_sign P.1 =? 0)%Z then - A * v else - A in
    P.2 * (z + w) = z - w
}.

Lemma ge_fromfe_ok s :
  bytes s → length s = 32%nat →
  ∃ r, ge_fromfe_frombytes_vartime s = Some r ∧
    ∃ P, p2_is P r ∧ hash_point (to_F (le_combine s)) P.
Proof.
  intros Hs HL. unfold ge_fromfe_frombytes_vartime. rewrite load256_limbs by done.
  destruct (load_carry_ok s Hs HL 24 _ ltac:(lia) eq_refl) as (fu & -> & SR & R).
  cbn [mbind option_bind]. rewrite SR. change (232 + 24)%Z with 256%Z in R.
  rewrite Z.mod_small in R.
  2: { pose proof (le_combine_bound s Hs) as Hb. by rewrite HL in Hb. }
  apply fe_is_rep in R. set (u := to_F (le_combine s)) in *.
  pose proof fe_is_1_small as H1. do 2 fe_step.
  match goal with HV : fe_is _ (u * u + u * u) ?fv, HW : fe_is _ (u * u + u * u + 1) ?fw |- _ =>
    destruct (fromfe_root_ok u _ _ fu fv fw eq_refl eq_refl R HV HW)
      as ([[fX fz] sign] & -> & X & z & HX & Hz & Hrel) end.
  cbn [mbind option_bind].
  destruct (fromfe_setsign_ok _ _ _ _ _ _ HX Hrel) as (fX' & -> & X' & HX' & [Ec Ez Es Eq _] & Esg).
  cbn [mbind option_bind]. do 3 fe_step.
  destruct (montgomery_on_curve z (u * u + u * u + 1) X' (w_neq_0 u) Ec) as [HZ HC].
  set (w := u * u + u * u + 1) in *.
  match goal with |- context [fromfe_check ?r] =>
    assert (p2_is (X', Zmod.mdiv (z - w) (z + w)) r) as HP end.
  { split; [exact HC|]. exists (z + w). split_and!; [exact HZ|fe_result; ring|fe_result|fe_result; ring].
    field. exact HZ. }
  rewrite (fromfe_check_ok _ _ HP). cbn [mbind option_bind]. eexists. split; [reflexivity|].
  eexists. split; [exact HP|]. split; [exact HC| |]; cbn [fst snd]; rewrite Esg.
  - exact Eq.
  - fold w. rewrite <- Ez. field. exact HZ.
Qed.
End fromfe.

(** ** Encodings determine points *)

#[local] Open Scope Zmod_scope.

Lemma length_ed_encode P : length (ed_encode P) = 32%nat.
Proof. apply length_le_split. Qed.

Lemma bytes_ed_encode P : bytes (ed_encode P).
Proof. apply bytes_le_split. Qed.

Lemma on_curve_abscissa (x x' y : Fp) :
  on_curve (x, y) → on_curve (x', y) → x * x = x' * x'.
Proof.
  intros H%on_curve_u_v H'%on_curve_u_v.
  apply (Zmod.mul_cancel_l_prime (y * y * d25519 + 1) _ _ prime_25519 (dyy_neq_0 y)).
  rewrite H, H'. reflexivity.
Qed.

Lemma ed_encode_inj (P Q : point) :
  on_curve P → on_curve Q → ed_encode P = ed_encode Q → P = Q.
Proof.
  destruct P as [x y], Q as [x' y']. intros HP HQ E.
  apply encode_iff in E as [Ey Ex]; [|apply bytes_ed_encode|apply length_ed_encode].
  destruct (proj1 (encode_iff (ed_encode (x', y')) x' y' (bytes_ed_encode _)
    (length_ed_encode _)) eq_refl) as [Ey' Ex'].
  rewrite <- Ey' in Ey. rewrite <- Ex' in Ex. apply Zmod.unsigned_inj in Ey as ->.
  f_equal. exact (f_sign_inj _ _ (on_curve_abscissa _ _ _ HP HQ) Ex).
Qed.

(** Decoding an encoding. *)
Lemma ge_frombytes_encode P :
  on_curve P → ∃ h, ge_frombytes_vartime (ed_encode P) = Some (Some h) ∧ p3_is P h.
Proof.
  intros HP. destruct (ge_frombytes_outcome (ed_encode P) (bytes_ed_encode P)
    (length_ed_encode P)) as ([h|] & E & H).
  - destruct H as (Q & HQ & EQ). apply ed_encode_inj in EQ; [|exact (proj1 HQ)|exact HP].
    rewrite EQ in HQ. exists h. split; [exact E|exact HQ].
  - destruct (H P HP eq_refl).
Qed.

Lemma ge_frombytes_inv s h :
  bytes s → length s = 32%nat → ge_frombytes_vartime s = Some (Some h) →
  ∃ P, p3_is P h ∧ ed_encode P = s.
Proof.
  intros Hs HL E. destruct (ge_frombytes_outcome s Hs HL) as (o & E' & H).
  rewrite E in E'. injection E' as <-. exact H.
Qed.

(** * The properties of the encodings *)

(** [ge_frombytes_vartime] decides which strings are points: on every 32-byte
    string it returns without overflow, it accepts exactly the encodings of
    points of the curve (so it rejects [y >= p] and every [y] that no point has,
    and the sign bit on a point with [x = 0]), and the point it returns has that
    encoding. *)
Theorem ge_frombytes_spec s :
  bytes s → length s = 32%nat →
  ∃ o, ge_frombytes_vartime s = Some o ∧
    match o with
    | Some h => ∃ P, p3_is P h ∧ ed_encode P = s
    | None => ∀ P, on_curve P → ed_encode P ≠ s
    end.
Proof. apply ge_frombytes_outcome. Qed.

(** Round trip of points: [ge_p3_tobytes] and [ge_tobytes] write the same
    32 bytes for every representation of a point, decoding them gives a
    representation of that point back, and two representations have the same
    encoding exactly when they stand for the same point. *)
Theorem ge_tobytes_roundtrip P Q h h2 g :
  p3_is P h → p2_is P h2 → p3_is Q g →
  ∃ s h', ge_p3_tobytes h = Some s ∧ ge_tobytes h2 = Some s ∧
    length s = 32%nat ∧ bytes s ∧
    ge_frombytes_vartime s = Some (Some h') ∧ p3_is P h' ∧
    (ge_p3_tobytes g = Some s ↔ P = Q).
Proof.
  intros Hh Hh2 Hg. destruct (ge_frombytes_encode P (proj1 Hh)) as (h' & E & H').
  exists (ed_encode P), h'. split; [exact (ge_p3_tobytes_ok _ _ Hh)|].
  split; [exact (ge_tobytes_ok _ _ Hh2)|]. split; [apply length_ed_encode|].
  split; [apply bytes_ed_encode|]. split; [exact E|]. split; [exact H'|].
  rewrite (ge_p3_tobytes_ok _ _ Hg). split.
  - intros Eq%Some_inj. symmetry. apply ed_encode_inj; [exact (proj1 Hg)|exact (proj1 Hh)|exact Eq].
  - intros ->. reflexivity.
Qed.

(** [ge_fromfe_frombytes_vartime], the map from a hash to the curve, is total:
    on every 32-byte string no operation overflows, none of its assertions fails,
    and the result represents a point of the curve whose ordinate and sign are
    those of the Elligator map at [u], the string modulo [p]. *)
Theorem ge_fromfe_spec s :
  bytes s → length s = 32%nat →
  ∃ r, ge_fromfe_frombytes_vartime s = Some r ∧
    ∃ P, p2_is P r ∧ hash_point (to_F (le_combine s)) P.
Proof. apply ge_fromfe_ok. Qed.

(** ** Witnesses *)

Lemma ge_frombytes_witness :
  ∃ o, ge_frombytes_vartime (replicate 32 255%Z) = Some o ∧
    match o with
    | Some h => ∃ P, p3_is P h ∧ ed_encode P = replicate 32 255%Z
    | None => ∀ P, on_curve P → ed_encode P ≠ replicate 32 255%Z
    end.
Proof. apply ge_frombytes_spec; [apply bytes_ff|apply length_replicate]. Defined.

Lemma ge_tobytes_roundtrip_witness :
  ∃ s h', ge_p3_tobytes p3_order4 = Some s ∧ ge_tobytes (ge_p3_to_p2 p3_order4) = Some s ∧
    length s = 32%nat ∧ bytes s ∧
    ge_frombytes_vartime s = Some (Some h') ∧ p3_is order4 h' ∧
    (ge_p3_tobytes ge_p3_0 = Some s ↔ order4 = ed_zero).
Proof.
  exact (ge_tobytes_roundtrip order4 ed_zero p3_order4 (ge_p3_to_p2 p3_order4) ge_p3_0
    p3_order4_is (ge_p3_to_p2_ok _ _ p3_order4_is) ge_p3_0_is).
Defined.

Lemma ge_fromfe_witness :
  ∃ r, ge_fromfe_frombytes_vartime (replicate 32 255%Z) = Some r ∧
    ∃ P, p2_is P r ∧ hash_point (to_F (le_combine (replicate 32 255%Z))) P.
Proof. apply ge_fromfe_spec; [apply bytes_ff|apply length_replicate]. Defined.
