(* ===== verification/BaseTableSpec.v ===== *)
(** * The precomputed tables hold the multiples of the base point

    [ge_base[i][j] = (j + 1) * 256 ^ i * B] and [ge_Bi[j] = (2 j + 1) * B], checked
    entry by entry: each one is the sum of two others, which is a polynomial
    equation modulo [p] because the addition law is complete, and the first
    entry of a row is 32 times the last one of the row before. *)

From Stdlib Require Import Zmod.Zmod Field.
From S2P Require Export BaseTable GroupSpec.

#[local] Open Scope Z_scope.

Add Field Fp_field : (Zmod.field_theory p25519 prime_25519).

(** ** Arithmetic modulo [p] for the check *)

(** The value of ten limbs, by Horner's rule. *)
Definition fe_horner (f : fe) : Z :=
  match f with
  | [f0; f1; f2; f3; f4; f5; f6; f7; f8; f9] =>
      f0 + Z.shiftl (f1 + Z.shiftl (f2 + Z.shiftl (f3 + Z.shiftl (f4 + Z.shiftl (f5 +
        Z.shiftl (f6 + Z.shiftl (f7 + Z.shiftl (f8 + Z.shiftl f9 26) 25) 26) 25) 26)
        25) 26) 25) 26
  | _ => 0
  end.

Definition red (z : Z) : Z := reduce_25519 z.

Lemma to_F_red z : to_F (red z) = to_F z.
Proof. apply to_F_eq, reduce_25519_reduces. Qed.

(** A small multiple of [p]. *)
Definition is_zero (z : Z) : bool :=
  eager (red z) (λ r, existsb (Z.eqb r) [0; p25519; - p25519; 2 * p25519; -2 * p25519]).

Lemma is_zero_sound z : is_zero z = true → to_F z = Zmod.zero.
Proof.
  unfold is_zero. rewrite eager_spec. intros [m [Hin E%Z.eqb_eq]]%existsb_exists.
  rewrite <- to_F_red, E. cbn in Hin.
  destruct Hin as [<-|[<-|[<-|[<-|[<-|[]]]]]]; apply Zmod.of_Z_inj; vm_compute; reflexivity.
Qed.

Definition d_horner : Z := Eval vm_compute in fe_val fe_d mod p25519.

Lemma d_horner_val : to_F d_horner = d25519.
Proof. rewrite <- fe_d_val. apply Zmod.of_Z_inj. vm_compute. reflexivity. Qed.

(** A point by twice its coordinates, as the table gives them. *)
Definition twice (q : ge_precomp) : Z * Z :=
  eager (fe_horner (yplusx q)) (λ p, eager (fe_horner (yminusx q)) (λ m,
  eager (p - m) (λ x, eager (p + m) (λ y, (x, y))))).

(** [(x3, y3) = (x1, y1) + (x2, y2)] *)
Definition check_sum (P1 P2 P3 : Z * Z) : bool :=
  let '(x1, y1) := P1 in let '(x2, y2) := P2 in let '(x3, y3) := P3 in
  eager (red (x1 * x2)) (λ xx, eager (red (y1 * y2)) (λ yy,
  eager (red (red (xx * yy) * d_horner)) (λ e,
  is_zero (x3 * (16 + e) - 8 * (x1 * y2 + x2 * y1)) &&
  is_zero (y3 * (16 - e) - 8 * (yy + xx))))).

(** [xy2d = 2 d x y] *)
Definition check_xy2d (P : Z * Z) (q : ge_precomp) : bool :=
  is_zero (2 * fe_horner (xy2d q) - red (P.1 * P.2) * d_horner).

Definition check_bounds (q : ge_precomp) : bool :=
  forallb (λ f, bounds_le ((λ x, (x, x)) <$> f) (fe_bounds 101))
    [yplusx q; yminusx q; xy2d q].

Definition check_entry (q : ge_precomp) : bool :=
  check_bounds q && check_xy2d (twice q) q.

(** Each entry is the one before plus [step]. *)
Fixpoint check_row (step prev : Z * Z) (qs : list ge_precomp) : bool :=
  match qs with
  | [] => true
  | q :: qs' =>
      let P := twice q in
      check_entry q && check_sum prev step P && check_row step P qs'
  end.

(** Projective doubling. *)
Definition double_proj (P : Z * Z * Z) : Z * Z * Z :=
  let '(x, y, z) := P in
  eager (red (x * x)) (λ a, eager (red (y * y)) (λ b, eager (red (z * z)) (λ c,
  eager (red (x * y)) (λ h, eager (b - a) (λ g, eager (2 * c - g) (λ f,
  eager (red (2 * h * f)) (λ x', eager (red ((b + a) * g)) (λ y', eager (red (g * f)) (λ z',
  (x', y', z')))))))))).

(** [Q = 32 P] *)
Definition check_32 (P Q : Z * Z) : bool :=
  let '(x, y, z) :=
    double_proj (double_proj (double_proj (double_proj (double_proj (P.1, P.2, 2))))) in
  is_zero (Q.1 * z - 2 * x) && is_zero (Q.2 * z - 2 * y).

(** ** Soundness of the check *)

Section sound.
#[local] Open Scope Zmod_scope.
Abbreviation two := (1 + 1 : Fp).

Definition twice_is (P : point) (t : Z * Z) : Prop :=
  to_F t.1 = two * P.1 ∧ to_F t.2 = two * P.2.

Ltac push_F :=
  repeat first [rewrite Zmod.of_Z_sub|rewrite Zmod.of_Z_mul|rewrite Zmod.of_Z_add
    |rewrite to_F_red].

(** Rewrite an equation between integers modulo [p] as one in the field. *)
Ltac f_eq H :=
  repeat first [rewrite Zmod.of_Z_sub in H|rewrite Zmod.of_Z_mul in H
    |rewrite Zmod.of_Z_add in H|rewrite to_F_red in H];
  rewrite ?d_horner_val in H; apply sub_eq_0 in H.

Lemma to_F_8 : to_F 8 = two * two * two.
Proof. change 8%Z with (2 * 2 * 2)%Z. by rewrite !Zmod.of_Z_mul, to_F_2. Qed.

Lemma to_F_16 : to_F 16 = two * two * two * two.
Proof. change 16%Z with (2 * 2 * 2 * 2)%Z. by rewrite !Zmod.of_Z_mul, to_F_2. Qed.

Lemma check_sum_sound P1 P2 t1 t2 t3 :
  on_curve P1 → on_curve P2 → twice_is P1 t1 → twice_is P2 t2 →
  check_sum t1 t2 t3 = true → twice_is (ed_add P1 P2) t3.
Proof.
  destruct t1 as [x1 y1], t2 as [x2 y2], t3 as [x3 y3].
  intros HP1 HP2 [X1 Y1] [X2 Y2]. cbn [fst snd] in *. unfold check_sum. rewrite !eager_spec.
  intros [HX%is_zero_sound HY%is_zero_sound]%andb_true_iff. f_eq HX. f_eq HY.
  destruct (ed_add_coords P1 P2 HP1 HP2) as (E1 & E2 & EX & EY).
  rewrite to_F_16, to_F_8, X1, X2, Y1, Y2 in HX, HY.
  set (e := d25519 * P1.1 * P2.1 * P1.2 * P2.2) in *.
  split; cbn [fst snd].
  - apply (Zmod.mul_cancel_l_prime (two * two * two * two * (1 + e))); [apply prime_25519|nz|].
    transitivity (two * two * two * two * two * ((ed_add P1 P2).1 * (1 + e))); [|ring].
    rewrite EX. etransitivity; [|etransitivity; [exact HX|]]; [unfold e|]; ring.
  - apply (Zmod.mul_cancel_l_prime (two * two * two * two * (1 - e))); [apply prime_25519|nz|].
    transitivity (two * two * two * two * two * ((ed_add P1 P2).2 * (1 - e))); [|ring].
    rewrite EY. etransitivity; [|etransitivity; [exact HY|]]; [unfold e|]; ring.
Qed.

Lemma fe_horner_val f : length f = 10%nat → fe_horner f = fe_val f.
Proof.
  intros Hf. destruct f as [|f0 [|f1 [|f2 [|f3 [|f4 [|f5 [|f6 [|f7 [|f8 [|f9 [|? ?]]]]]]]]]]];
    try (cbn in Hf; lia).
  unfold fe_horner. rewrite fe_val_expand, !Z.shiftl_mul_pow2 by lia. lia.
Qed.

(** An entry that passes the checks represents the point it gives twice of. *)
Lemma check_entry_sound P q :
  on_curve P → twice_is P (twice q) → check_entry q = true → precomp_is P q.
Proof.
  intros HP HT [HB HD]%andb_true_iff. unfold check_bounds in HB. cbn [forallb] in HB.
  rewrite !andb_true_iff in HB. destruct HB as (B1 & B2 & B3 & _).
  apply fe_bounded_const in B1, B2, B3.
  assert (∀ f, fe_bounded 101 f → fe_horner f = fe_val f) as HH
    by (intros f Hf; apply fe_horner_val, (fe_bounded_length _ _ Hf)).
  unfold check_xy2d in HD. apply is_zero_sound in HD.
  unfold twice in *. rewrite !eager_spec, !HH in * by done. destruct HT as [HX HY].
  cbn [fst snd] in *. f_eq HD. rewrite Zmod.of_Z_sub in HX. rewrite Zmod.of_Z_add in HY.
  split; [exact HP|]. rewrite to_F_2, HX, HY in HD.
  split_and!; apply fe_is_val; (split; [done|]);
    apply (Zmod.mul_cancel_l_prime two); try apply prime_25519; try apply two_neq_0_25519.
  - transitivity (two * P.1 + two * P.2); [rewrite <- HX, <- HY|]; ring.
  - transitivity (two * P.2 - two * P.1); [rewrite <- HX, <- HY|]; ring.
  - rewrite HD. ring.
Qed.

(** Projective coordinates. *)
Definition proj_is (P : point) (t : Z * Z * Z) : Prop :=
  to_F t.2 ≠ 0 ∧ to_F t.1.1 = P.1 * to_F t.2 ∧ to_F t.1.2 = P.2 * to_F t.2.

Lemma double_proj_sound P t :
  on_curve P → proj_is P t → proj_is (ed_add P P) (double_proj t).
Proof.
  destruct t as [[x y] z]. intros HP (Hz & HX & HY). cbn [fst snd] in *.
  unfold double_proj. rewrite !eager_spec.
  destruct (ed_add_coords P P HP HP) as (E1 & E2 & EX & EY).
  assert (P.2 * P.2 - P.1 * P.1 = 1 + d25519 * P.1 * P.1 * P.2 * P.2) as E
    by (destruct P; exact HP).
  set (e := d25519 * P.1 * P.1 * P.2 * P.2) in *. set (w := to_F z) in *.
  unfold proj_is. cbn [fst snd].
  push_F. rewrite to_F_2, HX, HY. fold w.
  assert (P.2 * w * (P.2 * w) - P.1 * w * (P.1 * w) = w * w * (1 + e)) as ->.
  { transitivity (w * w * (P.2 * P.2 - P.1 * P.1)); [ring|]. by rewrite E. }
  assert (two * (w * w) - w * w * (1 + e) = w * w * (1 - e)) as -> by ring.
  split_and!; [nz| |].
  - transitivity (w * w * (1 + e) * (w * w * (1 - e)) * (ed_add P P).1); [|ring].
    transitivity (w * w * (w * w * (1 - e)) * ((ed_add P P).1 * (1 + e))); [|ring].
    rewrite EX. ring.
  - transitivity (w * w * (1 + e) * (w * w) * ((ed_add P P).2 * (1 - e))); [|ring].
    rewrite EY. ring.
Qed.

Lemma check_32_sound P t t' :
  on_curve P → twice_is P t → check_32 t t' = true → twice_is (ed_mul 32 P) t'.
Proof.
  intros HP [HX HY] HC. unfold check_32 in HC.
  assert (proj_is P (t.1, t.2, 2%Z)) as H0.
  { split_and!; cbn [fst snd]; rewrite to_F_2; [apply two_neq_0_25519|rewrite HX|rewrite HY];
      ring. }
  do 5 (apply double_proj_sound in H0; [|by auto 6 with edwards]).
  change (ed_add _ _) with (ed_mul 32 P) in H0.
  destruct (double_proj _) as [[x y] z]. destruct H0 as (Hz & EX & EY). cbn [fst snd] in *.
  apply andb_true_iff in HC as [CX%is_zero_sound CY%is_zero_sound]. f_eq CX. f_eq CY.
  rewrite to_F_2 in CX, CY.
  split; apply (Zmod.mul_cancel_r_prime (to_F z)); [apply prime_25519|exact Hz| |
    apply prime_25519|exact Hz|].
  - rewrite CX, EX. ring.
  - rewrite CY, EY. ring.
Qed.

(** The entries [P + S], [P + 2 S], .. after [P]. *)
Lemma check_row_sound P S step prev qs :
  on_curve P → on_curve S → twice_is S step → twice_is P prev →
  check_row step prev qs = true →
  ∀ j q, qs !! j = Some q →
    let R := ed_add P (ed_mul (Z.of_nat j + 1) S) in
    precomp_is R q ∧ twice_is R (twice q).
Proof.
  intros HP HS Hstep. revert P HP prev. induction qs as [|q qs IH];
    intros P HP prev Hprev HC j q' Hj; [done|]. cbn [check_row] in HC.
  apply andb_true_iff in HC as [[HE HT]%andb_true_iff HR].
  apply (check_sum_sound _ _ _ _ _ HP HS Hprev Hstep) in HT.
  destruct j as [|j]; cbn in Hj.
  - injection Hj as <-. split; [|exact HT].
    apply check_entry_sound; [by apply ed_add_closed|exact HT|exact HE].
  - replace (Z.of_nat (Datatypes.S j) + 1)%Z with (1 + (Z.of_nat j + 1))%Z by lia.
    rewrite ed_mul_add, ed_mul_1, ed_add_assoc by auto with edwards.
    eapply (IH (ed_add P S)); [by apply ed_add_closed|exact HT|exact HR|exact Hj].
Qed.
End sound.

(** ** The tables *)

Fixpoint check_rows (rows : list (list ge_precomp)) : bool :=
  match rows with
  | [] => true
  | row :: rows' =>
      match row with
      | q0 :: qs =>
          check_entry q0 && check_row (twice q0) (twice q0) qs &&
          match rows', qs !! 6%nat with
          | (q' :: _) :: _, Some q => check_32 (twice q) (twice q')
          | [], _ => true
          | _, _ => false
          end
      | [] => false
      end && check_rows rows'
  end.

Lemma check_rows_sound Q rows :
  on_curve Q → check_rows rows = true →
  (∀ q qs rows', rows = (q :: qs) :: rows' → twice_is Q (twice q)) →
  ∀ i j row q, rows !! i = Some row → row !! j = Some q →
    precomp_is (ed_mul ((Z.of_nat j + 1) * 256 ^ Z.of_nat i) Q) q.
Proof.
  revert Q. induction rows as [|row rows IH]; intros Q HQ HC HF i j row' q Hi Hj; [done|].
  cbn [check_rows] in HC. destruct row as [|q0 qs]; [done|].
  apply andb_true_iff in HC as [[[HE HR]%andb_true_iff HN]%andb_true_iff HC].
  pose proof (HF _ _ _ eq_refl) as H0.
  pose proof (check_row_sound Q Q _ _ _ HQ HQ H0 H0 HR) as HS. cbv zeta in HS.
  destruct i as [|i].
  - injection Hi as <-. rewrite Z.mul_1_r. destruct j as [|j].
    + injection Hj as <-. by apply check_entry_sound.
    + destruct (HS j q Hj) as [HP _].
      replace (Z.of_nat (S j) + 1)%Z with (1 + (Z.of_nat j + 1))%Z by lia.
      by rewrite ed_mul_add, ed_mul_1 by exact HQ.
  - cbn in Hi. replace ((Z.of_nat j + 1) * 256 ^ Z.of_nat (S i))%Z
      with ((Z.of_nat j + 1) * 256 ^ Z.of_nat i * 256)%Z
      by (rewrite Nat2Z.inj_succ, Z.pow_succ_r by lia; ring).
    rewrite <- ed_mul_mul by exact HQ.
    eapply (IH (ed_mul 256 Q)); [by apply on_curve_mul|done| |exact Hi|exact Hj].
    intros q' qs' rows' ->. destruct (qs !! 6%nat) as [ql|] eqn:Hlast; [|done].
    destruct (HS 6%nat ql Hlast) as [_ HT].
    change 256%Z with (32 * (1 + 7))%Z. rewrite <- ed_mul_mul by exact HQ.
    rewrite ed_mul_add, ed_mul_1 by exact HQ.
    eapply check_32_sound; [by auto with edwards|exact HT|exact HN].
Qed.

(** ** The base point: [(x, 4 / 5)] with [x] even *)

Definition base_x : Z :=
  15112221349535400772501151409588531511454012693041857206046113283949847762202.

Definition B25519 : point := (to_F base_x, Zmod.mdiv (to_F 4) (to_F 5)).

Definition base_y : Z :=
  46316835694926478169428394003475163141307993866256225615783033603165251855960.

Lemma base_y_val : to_F base_y = B25519.2.
Proof.
  symmetry. apply mdiv_unique; [apply to_F_neq_0; vm_compute; congruence|].
  rewrite <- Zmod.of_Z_mul. apply Zmod.of_Z_inj. vm_compute. reflexivity.
Qed.

Lemma B25519_eq : B25519 = (to_F base_x, to_F base_y).
Proof. by rewrite base_y_val. Qed.

Lemma B25519_sign : f_sign B25519.1 = 0.
Proof. vm_compute. reflexivity. Qed.

Lemma B25519_on_curve : on_curve B25519.
Proof.
  rewrite B25519_eq. apply gap_0. unfold gap. change ed_d with d25519.
  rewrite <- d_horner_val, <- Zmod.of_Z_1, <- !Zmod.of_Z_mul, <- Zmod.of_Z_sub, <- Zmod.of_Z_add,
    <- Zmod.of_Z_sub, <- Zmod.of_Z_0.
  apply Zmod.of_Z_inj. vm_compute. reflexivity.
Qed.
#[export] Hint Resolve B25519_on_curve : edwards.

Definition base_twice : Z * Z := (2 * base_x, 2 * base_y).

Lemma base_twice_is : twice_is B25519 base_twice.
Proof.
  rewrite B25519_eq. split; cbn [fst snd base_twice]; by rewrite Zmod.of_Z_mul, to_F_2.
Qed.

(** The sum of two points of the curve is unique: an entry that is [base + 0]. *)
Definition same_twice (t t' : Z * Z) : bool := is_zero (t.1 - t'.1) && is_zero (t.2 - t'.2).

Lemma same_twice_sound P t t' : twice_is P t → same_twice t t' = true → twice_is P t'.
Proof.
  intros [HX HY] [E1%is_zero_sound E2%is_zero_sound]%andb_true_iff.
  rewrite Zmod.of_Z_sub in E1, E2. apply sub_eq_0 in E1, E2.
  by split; rewrite <- ?E1, <- ?E2.
Qed.

Lemma ge_base_checked :
  match ge_base with (q :: _) :: _ => same_twice base_twice (twice q) | _ => false end &&
  check_rows ge_base = true.
Proof. vm_compute. reflexivity. Qed.

Lemma ge_base_is i j row q :
  ge_base !! i = Some row → row !! j = Some q →
  precomp_is (ed_mul ((Z.of_nat j + 1) * 256 ^ Z.of_nat i) B25519) q.
Proof.
  pose proof ge_base_checked as [H0 HC]%andb_true_iff.
  apply (check_rows_sound B25519 ge_base B25519_on_curve HC).
  intros q0 qs rows E. rewrite E in H0.
  exact (same_twice_sound _ _ _ base_twice_is H0).
Qed.

(** [ge_Bi]: steps of [2 B], which is the second entry of [ge_base]. *)
Definition check_Bi (base : list (list ge_precomp)) (Bi : list ge_precomp) : bool :=
  match base, Bi with
  | (_ :: q2 :: _) :: _, q :: qs =>
      same_twice base_twice (twice q) && check_entry q && check_sum (twice q) (twice q) (twice q2) &&
      check_row (twice q2) (twice q) qs
  | _, _ => false
  end.

Lemma check_Bi_sound base Bi j q :
  check_Bi base Bi = true → Bi !! j = Some q →
  precomp_is (ed_mul (2 * Z.of_nat j + 1) B25519) q.
Proof.
  intros HC Hj. unfold check_Bi in HC.
  destruct base as [|[|? [|q2 ?]] ?]; [done..|]. destruct Bi as [|q0 qs]; [done|].
  apply andb_true_iff in HC as [[[H0 HE]%andb_true_iff H2]%andb_true_iff HR].
  pose proof (same_twice_sound _ _ _ base_twice_is H0) as T0.
  pose proof B25519_on_curve as HB.
  pose proof (check_sum_sound _ _ _ _ _ HB HB T0 T0 H2) as T2.
  destruct j as [|j]; cbn in Hj.
  - injection Hj as <-. exact (check_entry_sound _ _ HB T0 HE).
  - destruct (check_row_sound B25519 _ _ _ _ HB (ed_add_closed _ _ HB HB) T2 T0 HR j q Hj) as [HP _].
    replace (2 * Z.of_nat (S j) + 1) with (1 + (Z.of_nat j + 1) * 2) by lia.
    rewrite ed_mul_add, ed_mul_1, <- ed_mul_mul by exact HB. exact HP.
Qed.

Lemma ge_Bi_checked : check_Bi ge_base ge_Bi = true.
Proof. vm_compute. reflexivity. Qed.

Lemma ge_Bi_is j q :
  ge_Bi !! j = Some q → precomp_is (ed_mul (2 * Z.of_nat j + 1) B25519) q.
Proof. exact (check_Bi_sound _ _ _ _ ge_Bi_checked). Qed.

(** The second generator [ge_p3_H] is a point of the curve. *)
Definition H25519 : point := (to_F (fe_val (p3_X ge_p3_H)), to_F (fe_val (p3_Y ge_p3_H))).

Lemma ge_p3_H_is : p3_is H25519 ge_p3_H.
Proof.
  split.
  - apply gap_0. unfold gap. change ed_d with d25519.
    rewrite <- d_horner_val, <- Zmod.of_Z_1, <- !Zmod.of_Z_mul, <- Zmod.of_Z_sub,
      <- Zmod.of_Z_add, <- Zmod.of_Z_sub, <- Zmod.of_Z_0.
    apply Zmod.of_Z_inj. vm_compute. reflexivity.
  - exists Zmod.one. split; [apply one_neq_0|]. unfold H25519. cbn [fst snd].
    rewrite <- Zmod.of_Z_1, <- !Zmod.of_Z_mul.
    split_and!; apply fe_is_val; (split; [by apply fe_bounded_const|]);
      apply Zmod.of_Z_inj; vm_compute; reflexivity.
Qed.

Lemma length_ge_base : length ge_base = 32%nat.
Proof. vm_compute. reflexivity. Qed.

Lemma ge_base_row pos row : ge_base !! pos = Some row → length row = 8%nat.
Proof.
  assert (forallb (λ r, Nat.eqb (length r) 8) ge_base = true) as HF by (vm_compute; reflexivity).
  intros E. apply Nat.eqb_eq. apply list_elem_of_lookup_2, list_elem_of_In in E.
  by apply (proj1 (forallb_forall _ _) HF).
Qed.

(** * The property of the tables *)

(** The tables of [crypto-ops-data.c] hold what their uses rely on: [ge_base] has
    32 rows of 8 entries, and entry [j] of row [i] is the precomputed form of
    [(j + 1) 256^i B]; entry [j] of the 8 of [ge_Bi] is [(2 j + 1) B]; and
    [ge_p3_H] is a point of the curve.  [B] is the point [(x, 4/5)] with [x] even. *)
Theorem base_tables_spec :
  B25519.2 = Zmod.mdiv (to_F 4) (to_F 5) ∧ f_sign B25519.1 = 0 ∧ on_curve B25519 ∧
  length ge_base = 32%nat ∧ Forall (λ row, length row = 8%nat) ge_base ∧
  (∀ i j row q, ge_base !! i = Some row → row !! j = Some q →
    precomp_is (ed_mul ((Z.of_nat j + 1) * 256 ^ Z.of_nat i) B25519) q) ∧
  length ge_Bi = 8%nat ∧
  (∀ j q, ge_Bi !! j = Some q → precomp_is (ed_mul (2 * Z.of_nat j + 1) B25519) q) ∧
  p3_is H25519 ge_p3_H.
Proof.
  split; [reflexivity|]. split; [exact B25519_sign|]. split; [exact B25519_on_curve|].
  split; [exact length_ge_base|].
  split; [apply Forall_lookup; intros i row; apply ge_base_row|].
  split; [exact ge_base_is|]. split; [reflexivity|].
  split; [exact ge_Bi_is|exact ge_p3_H_is].
Qed.
