(* ===== verification/OrderPrime.v ===== *)
(** * Primality of the group order

    [l = 2^252 + 27742317777372353535851937790883648493], the modulus of the
    [sc_] functions, is prime: a chain of Pocklington certificates as for the
    modulus of the field. *)

From S2P Require Export Primality Scalar.

#[local] Open Scope Z_scope.

Lemma prime_3 : Z.prime 3.
Proof. apply trial_division_sound. vm_compute. reflexivity. Qed.

Lemma prime_23 : Z.prime 23.
Proof. apply trial_division_sound. vm_compute. reflexivity. Qed.

Lemma prime_531581 : Z.prime 531581.
Proof. apply trial_division_sound. vm_compute. reflexivity. Qed.

#[export] Hint Resolve prime_3 prime_23 prime_531581 : primes.

Lemma prime_order_51bits : Z.prime 1257559732178653.
Proof. certify 3 [23; 531581]. Qed.
#[export] Hint Resolve prime_order_51bits : primes.

Lemma prime_order_62bits : Z.prime 4434155615661930479.
Proof. certify 1257559732178653 (@nil Z). Qed.
#[export] Hint Resolve prime_order_62bits : primes.

Lemma prime_order_88bits : Z.prime 172054593956031949258510691.
Proof. certify 4434155615661930479 (@nil Z). Qed.
#[export] Hint Resolve prime_order_88bits : primes.

Lemma prime_order_134bits : Z.prime 19757330305831588566944191468367130476339.
Proof. certify 172054593956031949258510691 (@nil Z). Qed.
#[export] Hint Resolve prime_order_134bits : primes.

Lemma prime_order_138bits : Z.prime 276602624281642239937218680557139826668747.
Proof. certify 19757330305831588566944191468367130476339 (@nil Z). Qed.
#[export] Hint Resolve prime_order_138bits : primes.

(** The group order is prime. *)
Lemma prime_L : Z.prime L.
Proof. certify 276602624281642239937218680557139826668747 (@nil Z). Qed.
