(* ===== verification/GroupOrder.v ===== *)
(** * The order of the base point

    [l B] is the neutral element for the group order [l] that the scalar
    functions reduce by, so the multiples of [B] depend on the scalar modulo [l]
    only.  The product is computed in projective coordinates. *)

From Stdlib Require Import Zmod.Zmod Field.
From S2P Require Export Scalar BaseTableSpec.

#[local] Open Scope Z_scope.

Add Field Fp_field : (Zmod.field_theory p25519 prime_25519).

(** Addition of an affine point. *)
Definition madd_proj (P : Z * Z * Z) (Q : Z * Z) : Z * Z * Z :=
  let '(x, y, z) := P in let '(x2, y2) := Q in
  eager (red (z * z)) (λ b, eager (red (x * x2)) (λ c, eager (red (y * y2)) (λ f,
  eager (red (red (c * f) * d_horner)) (λ e, eager (red (z * (x * y2 + y * x2))) (λ n1,
  eager (red (z * (f + c))) (λ n2,
  eager (red (n1 * (b - e))) (λ x', eager (red (n2 * (b + e))) (λ y',
  eager (red ((b - e) * (b + e))) (λ z', (x', y', z')))))))))).

(** The same recursion as [ed_pmul]. *)
Fixpoint pmul_proj (n : positive) (Q : Z * Z) : Z * Z * Z :=
  match n with
  | xH => (Q.1, Q.2, 1)
  | xO n' => double_proj (pmul_proj n' Q)
  | xI n' => madd_proj (double_proj (pmul_proj n' Q)) Q
  end.

Section sound.
#[local] Open Scope Zmod_scope.

Lemma madd_proj_sound P Q t q :
  on_curve P → on_curve Q → proj_is P t → to_F q.1 = Q.1 → to_F q.2 = Q.2 →
  proj_is (ed_add P Q) (madd_proj t q).
Proof.
  destruct t as [[x y] z], q as [x2 y2]. intros HP HQ (Hz & HX & HY) HX2 HY2.
  cbn [fst snd] in *. unfold madd_proj. rewrite !eager_spec.
  destruct (ed_add_coords P Q HP HQ) as (E1 & E2 & EX & EY).
  set (e := d25519 * P.1 * Q.1 * P.2 * Q.2) in *. set (w := to_F z) in *.
  unfold proj_is. cbn [fst snd].
  repeat first [rewrite Zmod.of_Z_sub|rewrite Zmod.of_Z_mul|rewrite Zmod.of_Z_add
    |rewrite to_F_red]. rewrite d_horner_val, HX, HY, HX2, HY2. fold w.
  assert (P.1 * w * Q.1 * (P.2 * w * Q.2) * d25519 = w * w * e) as -> by (unfold e; ring).
  assert (w * w - w * w * e = w * w * (1 - e)) as -> by ring.
  assert (w * w + w * w * e = w * w * (1 + e)) as -> by ring.
  split_and!; [nz| |].
  - transitivity (w * w * (w * w * (1 - e)) * ((ed_add P Q).1 * (1 + e))); [|ring].
    rewrite EX. ring.
  - transitivity (w * w * (w * w * (1 + e)) * ((ed_add P Q).2 * (1 - e))); [|ring].
    rewrite EY. ring.
Qed.

Lemma pmul_proj_sound n Q q :
  on_curve Q → to_F q.1 = Q.1 → to_F q.2 = Q.2 → proj_is (ed_pmul n Q) (pmul_proj n q).
Proof.
  intros HQ HX HY. induction n as [n IH|n IH|]; cbn [ed_pmul pmul_proj].
  - apply madd_proj_sound; [by auto with edwards|exact HQ| |exact HX|exact HY].
    apply double_proj_sound; [by auto with edwards|exact IH].
  - apply double_proj_sound; [by auto with edwards|exact IH].
  - unfold proj_is. cbn [fst snd]. rewrite Zmod.of_Z_1, HX, HY.
    split; [apply one_neq_0|]. split; ring.
Qed.

Lemma proj_zero_sound P t :
  proj_is P t → is_zero t.1.1 = true → is_zero (t.1.2 - t.2) = true → P = ed_zero.
Proof.
  intros (Hz & HX & HY) EX%is_zero_sound EY%is_zero_sound.
  rewrite Zmod.of_Z_sub in EY. apply sub_eq_0 in EY. rewrite HX in EX. rewrite HY in EY.
  destruct P as [x y]. cbn [fst snd] in *. unfold ed_zero. f_equal.
  - apply (Zmod.mul_cancel_r_prime (to_F t.2) _ _ prime_25519 Hz). etransitivity; [exact EX|ring].
  - apply (Zmod.mul_cancel_r_prime (to_F t.2) _ _ prime_25519 Hz). etransitivity; [exact EY|ring].
Qed.
End sound.

Definition order_proj : Z * Z * Z := pmul_proj (Z.to_pos L) (base_x, base_y).

Lemma order_checked :
  let t := order_proj in is_zero t.1.1 && is_zero (t.1.2 - t.2) = true.
Proof. vm_compute. reflexivity. Qed.

(** [l B = 0]. *)
Lemma B25519_order : ed_mul L B25519 = ed_zero.
Proof.
  pose proof order_checked as [HX HY]%andb_true_iff.
  refine (proj_zero_sound _ _ _ HX HY).
  change (ed_mul L B25519) with (ed_pmul (Z.to_pos L) B25519).
  apply pmul_proj_sound; [exact B25519_on_curve|by rewrite B25519_eq..].
Qed.

Lemma ed_mul_zero n : ed_mul n ed_zero = (ed_zero : point).
Proof.
  revert n. refine (Z.peano_ind _ _ _ _); [done|..].
  - intros n IH. rewrite ed_mul_succ, IH, ed_add_0_l by apply on_curve_zero. done.
  - intros n IH. rewrite ed_mul_pred, IH, ed_add_0_l by apply on_curve_zero. apply ed_opp_zero.
Qed.

(** Scalars modulo [l], for every point of order dividing [l]. *)
Definition l_torsion (P : point) : Prop := on_curve P ∧ ed_mul L P = ed_zero.

Lemma l_torsion_mod P n : l_torsion P → ed_mul (n mod L) P = ed_mul n P.
Proof.
  intros [HP HL]. rewrite (Z.div_mod n L) at 2 by done.
  rewrite Z.mul_comm, ed_mul_add, <- ed_mul_mul, HL, ed_mul_zero, ed_add_0_l by exact HP. done.
Qed.

Lemma l_torsion_B : l_torsion B25519.
Proof. split; [exact B25519_on_curve|exact B25519_order]. Qed.

Lemma l_torsion_mul P n : l_torsion P → l_torsion (ed_mul n P).
Proof.
  intros [HP HL]. split; [by apply on_curve_mul|].
  rewrite ed_mul_mul, Z.mul_comm, <- ed_mul_mul, HL by exact HP. apply ed_mul_zero.
Qed.
#[export] Hint Resolve l_torsion_B l_torsion_mul : edwards.
