(* ===== verification/Cofactor.v ===== *)
(** * The order of the group

    The curve has [8 l] points, so [8 P] lies in the subgroup of prime order [l]
    for every point [P]: that is what multiplying by the cofactor is for.  There
    are at least [8 l] points, the sums of a multiple of [B] and a multiple of a
    point [T8] of order 8; a point outside of them would give [16 l] different
    points, but a point is determined by [y] and the sign of [x], so there are at
    most [2 p], which is less. *)

From Stdlib Require Import Zmod.Zmod Field.
From S2P Require Export OrderPrime GroupOrder PointCodecSpec.

#[local] Open Scope Z_scope.

Add Field Fp_field : (Zmod.field_theory p25519 prime_25519).

(** ** Counting *)

Lemma pigeonhole_Z (n m : Z) (g : Z → Z) :
  0 ≤ n → 0 ≤ m → (∀ i, 0 ≤ i < n → 0 ≤ g i < m) →
  (∀ i j, 0 ≤ i < n → 0 ≤ j < n → g i = g j → i = j) → n ≤ m.
Proof.
  intros Hn Hm Hr Hinj.
  assert (base.NoDup (g <$> seqZ 0 n)) as HN.
  { apply NoDup_fmap_2_strong; [|apply NoDup_seqZ]. intros i j Hi Hj.
    apply elem_of_seqZ in Hi, Hj. apply Hinj; lia. }
  assert (g <$> seqZ 0 n ⊆+ seqZ 0 m) as HS.
  { apply NoDup_submseteq; [exact HN|]. intros x Hx.
    apply list_elem_of_fmap in Hx as (i & -> & Hi). apply elem_of_seqZ in Hi.
    apply elem_of_seqZ. specialize (Hr i). lia. }
  apply submseteq_length in HS. rewrite length_fmap, !length_seqZ in HS.
  lia.
Qed.

(** ** A point of order 8 *)

Definition t8_x : Z :=
  43496726750457979451437558183816721346016168361625936758514574428539776020131.
Definition t8_y : Z :=
  2707385501144840649318225287225658788936804267575313519463743609750303402022.
Definition T8 : point := (to_F t8_x, to_F t8_y).

(** The point of order 2. *)
Definition minus_one : point := (Zmod.zero, Zmod.opp Zmod.one).

Lemma T8_on_curve : on_curve T8.
Proof.
  apply gap_0. unfold gap. change ed_d with d25519.
  rewrite <- d_horner_val, <- Zmod.of_Z_1, <- !Zmod.of_Z_mul, <- Zmod.of_Z_sub, <- Zmod.of_Z_add,
    <- Zmod.of_Z_sub, <- Zmod.of_Z_0.
  apply Zmod.of_Z_inj. vm_compute. reflexivity.
Qed.
#[export] Hint Resolve T8_on_curve : edwards.

Section torsion.
#[local] Open Scope Zmod_scope.

Lemma proj_minus_one_sound P t :
  proj_is P t → is_zero t.1.1 = true → is_zero (t.1.2 + t.2) = true → P = minus_one.
Proof.
  intros (Hz & HX & HY) EX%is_zero_sound EY%is_zero_sound.
  rewrite Zmod.of_Z_add in EY. rewrite HX in EX. rewrite HY in EY.
  destruct P as [x y]. cbn [fst snd] in *. unfold minus_one. f_equal.
  - apply (Zmod.mul_cancel_r_prime (to_F t.2) _ _ prime_25519 Hz). etransitivity; [exact EX|ring].
  - apply (Zmod.mul_cancel_r_prime (to_F t.2) _ _ prime_25519 Hz).
    transitivity (y * to_F t.2 + to_F t.2 - to_F t.2); [ring|]. rewrite EY. ring.
Qed.

Lemma T8_4 : ed_mul 4 T8 = minus_one.
Proof.
  assert (let t := pmul_proj 4 (t8_x, t8_y) in
    is_zero t.1.1 && is_zero (t.1.2 + t.2) = true) as [HX HY]%andb_true_iff
    by (vm_compute; reflexivity).
  refine (proj_minus_one_sound _ _ _ HX HY).
  exact (pmul_proj_sound 4 T8 (t8_x, t8_y) T8_on_curve eq_refl eq_refl).
Qed.

Lemma double_no_x (y : Fp) : y * y = 1 → ed_add (0, y) (0, y) = ed_zero.
Proof.
  intros Hy. unfold ed_add, ed_zero. apply pair_equal_spec. split; apply mdiv_unique.
  - intros E. apply one_neq_0. etransitivity; [|exact E]. ring.
  - ring.
  - intros E. apply one_neq_0. etransitivity; [|exact E]. ring.
  - rewrite Hy. ring.
Qed.

Lemma minus_one_double : ed_add minus_one minus_one = ed_zero.
Proof. apply double_no_x. ring. Qed.

Lemma T8_8 : ed_mul 8 T8 = ed_zero.
Proof.
  change (ed_mul 8 T8) with (ed_add (ed_mul 4 T8) (ed_mul 4 T8)).
  rewrite T8_4. apply minus_one_double.
Qed.

Lemma minus_one_neq_zero : minus_one ≠ ed_zero.
Proof.
  intros E%(f_equal snd). unfold minus_one, ed_zero in E. cbn [snd] in E.
  apply two_neq_0_25519. transitivity (1 - - (1) : Fp); [ring|]. rewrite E. ring.
Qed.

Lemma B25519_neq_zero : B25519 ≠ ed_zero.
Proof.
  rewrite B25519_eq. intros E%(f_equal (λ P, Zmod.to_Z P.2)). revert E.
  vm_compute. discriminate.
Qed.
End torsion.

(** ** Orders *)

Lemma ed_mul_gcd a b (P : point) :
  on_curve P → ed_mul a P = ed_zero → ed_mul b P = ed_zero → ed_mul (Z.gcd a b) P = ed_zero.
Proof.
  intros HP Ha Hb. destruct (Z.gcd_bezout a b _ eq_refl) as (u & v & <-).
  rewrite ed_mul_add, <- !ed_mul_mul, Ha, Hb, !ed_mul_zero by exact HP. apply ed_add_0_l.
Qed.

(** A multiple of a non-zero point of the subgroup vanishes for multiples of [l]
    only. *)
Lemma l_torsion_order P n :
  l_torsion P → P ≠ ed_zero → ed_mul n P = ed_zero → (L | n).
Proof.
  intros [HP HL] Hne Hn. destruct (Z.eq_dec (n mod L) 0) as [E|E].
  { apply Z.mod_divide; [discriminate|exact E]. }
  exfalso. apply Hne. rewrite <- (ed_mul_1 P).
  rewrite <- (Z.coprime_prime_l L n prime_L) by (intros Hd; apply E, Z.mod_divide; [discriminate|exact Hd]).
  by apply ed_mul_gcd.
Qed.

Lemma B25519_order_divides n : ed_mul n B25519 = ed_zero → (L | n).
Proof. apply l_torsion_order; [exact l_torsion_B|exact B25519_neq_zero]. Qed.

Lemma T8_order_divides n : ed_mul n T8 = ed_zero → (8 | n).
Proof.
  intros Hn. pose proof (ed_mul_gcd n 8 T8 T8_on_curve Hn T8_8) as Hg.
  assert (∀ k, 4 = k * Z.gcd n 8 → False) as H4.
  { intros k Hk. apply minus_one_neq_zero. rewrite <- T8_4, Hk.
    rewrite <- ed_mul_mul, Hg by exact T8_on_curve. apply ed_mul_zero. }
  pose proof (Z.gcd_divide_l n 8) as Hd. destruct (Z.gcd_divide_r n 8) as [k Hk].
  pose proof (Z.gcd_nonneg n 8). set (g := Z.gcd n 8) in *.
  assert (g = 1 ∨ g = 2 ∨ g = 4 ∨ g = 8) as [E|[E|[E| <-]]]; [|..|exact Hd].
  { assert (g ≤ 8) by (apply Z.divide_pos_le; [lia|by exists k]).
    assert (g = 0 ∨ g = 1 ∨ g = 2 ∨ g = 3 ∨ g = 4 ∨ g = 5 ∨ g = 6 ∨ g = 7 ∨ g = 8) as Hc by lia.
    clearbody g. clear -Hk Hc. intuition (subst; lia). }
  all: exfalso; rewrite E in H4.
  - by apply (H4 4).
  - by apply (H4 2).
  - by apply (H4 1).
Qed.

Lemma ed_mul_sub_eq a b (P : point) :
  on_curve P → ed_mul a P = ed_mul b P → ed_mul (a - b) P = ed_zero.
Proof.
  intros HP E. unfold Z.sub. rewrite ed_mul_add, ed_mul_opp, E by exact HP.
  apply ed_add_opp_r. by apply on_curve_mul.
Qed.

Lemma ed_add_cancel_l (P Q R : point) :
  on_curve P → on_curve Q → on_curve R → ed_add P Q = ed_add P R → Q = R.
Proof.
  intros HP HQ HR E. apply (f_equal (ed_add (ed_opp P))) in E.
  rewrite !ed_add_assoc, (ed_add_comm (ed_opp P)), ed_add_opp_r, !ed_add_0_l in E
    by curve. exact E.
Qed.

(** ** Every point is killed by [8 l] *)

(** A point by [y] and the sign of [x]. *)
Definition point_code (P : point) : Z := Zmod.to_Z P.2 + p25519 * f_sign P.1.

Lemma point_code_range P : 0 ≤ point_code P < 2 * p25519.
Proof.
  unfold point_code. pose proof (to_Z_range P.2). pose proof (f_sign_range P.1).
  unfold p25519 in *. lia.
Qed.

Lemma point_code_inj P Q :
  on_curve P → on_curve Q → point_code P = point_code Q → P = Q.
Proof.
  destruct P as [x y], Q as [x' y']. unfold point_code. cbn [fst snd]. intros HP HQ E.
  pose proof (to_Z_range y). pose proof (to_Z_range y').
  pose proof (f_sign_range x). pose proof (f_sign_range x').
  assert (f_sign x = f_sign x') as Ex by (unfold p25519 in *; lia).
  assert (Zmod.to_Z y = Zmod.to_Z y') as Ey by (rewrite Ex in E; lia).
  apply Zmod.unsigned_inj in Ey as ->. f_equal.
  exact (f_sign_inj _ _ (on_curve_abscissa _ _ _ HP HQ) Ex).
Qed.

Section outside.
Context (P B T : point) (HP : on_curve P) (HB : on_curve B) (HT : on_curve T).
Context (HBL : ed_mul L B = ed_zero) (HBo : ∀ n, ed_mul n B = ed_zero → (L | n)).
Context (HT8 : ed_mul 8 T = ed_zero) (HTo : ∀ n, ed_mul n T = ed_zero → (8 | n)).
Context (HN : ed_mul (8 * L) P ≠ ed_zero).

(** The candidates: [c P + (a B + b T)]. *)
Definition candidate (c a b : Z) : point :=
  ed_add (ed_mul c P) (ed_add (ed_mul a B) (ed_mul b T)).

Lemma candidate_on_curve c a b : on_curve (candidate c a b).
Proof. unfold candidate. oncurve. Qed.

(** [n] times a candidate. *)
Lemma candidate_mul n c a b :
  ed_mul n (candidate c a b) = candidate (n * c) (n * a) (n * b).
Proof.
  unfold candidate. rewrite !ed_mul_add_point by oncurve.
  rewrite !ed_mul_mul by oncurve. reflexivity.
Qed.

Lemma candidate_8L c a b : ed_mul (8 * L) (candidate c a b) = ed_mul c (ed_mul (8 * L) P).
Proof.
  rewrite candidate_mul. unfold candidate.
  replace (8 * L * a) with (8 * a * L) by ring. replace (8 * L * b) with (L * b * 8) by ring.
  rewrite <- (ed_mul_mul (8 * a) L), <- (ed_mul_mul (L * b) 8) by oncurve.
  rewrite HBL, HT8, !ed_mul_zero, ed_add_0_l, ed_add_0_r.
  rewrite (ed_mul_mul c) by exact HP. f_equal. ring.
Qed.

Lemma candidate_inj c a b c' a' b' :
  0 ≤ c < 2 → 0 ≤ c' < 2 → 0 ≤ a < L → 0 ≤ a' < L → 0 ≤ b < 8 → 0 ≤ b' < 8 →
  candidate c a b = candidate c' a' b' → c = c' ∧ a = a' ∧ b = b'.
Proof.
  intros Hc Hc' Ha Ha' Hb Hb' E.
  assert (c = c') as <-.
  { apply (f_equal (ed_mul (8 * L))) in E. rewrite !candidate_8L in E.
    assert (c = 0 ∨ c = 1) as [-> | ->] by lia; assert (c' = 0 ∨ c' = 1) as [-> | ->] by lia;
      try reflexivity; exfalso; apply HN; rewrite ed_mul_1 in E; [symmetry|]; exact E. }
  apply ed_add_cancel_l in E; [|oncurve..].
  assert (a = a') as <-.
  { apply (f_equal (ed_mul 8)) in E. rewrite !ed_mul_add_point in E by oncurve.
    rewrite !(ed_mul_mul 8) in E by oncurve.
    rewrite !(Z.mul_comm 8), <- !(ed_mul_mul _ 8 T), HT8, !ed_mul_zero, !ed_add_0_r in E
      by oncurve.
    apply ed_mul_sub_eq, HBo in E; [|exact HB].
    rewrite <- Z.mul_sub_distr_r in E. rewrite Z.mul_comm in E.
    apply Z.gauss in E; [|reflexivity]. destruct E as [k Hk]. assert (k = 0) by nia. lia. }
  apply ed_add_cancel_l in E; [|oncurve..].
  apply ed_mul_sub_eq, HTo in E as [k Hk]; [|exact HT]. lia.
Qed.

Lemma too_many_points : False.
Proof.
  assert (16 * L ≤ 2 * p25519) as Hle; [|revert Hle; vm_compute; congruence].
  apply (pigeonhole_Z _ _ (λ i,
    point_code (candidate (i / (8 * L)) ((i mod (8 * L)) mod L) (i mod (8 * L) / L)))).
  - discriminate.
  - discriminate.
  - intros i _. apply point_code_range.
  - intros i j Hi Hj E. apply point_code_inj in E; [|apply candidate_on_curve..].
    pose proof (Z.mod_pos_bound i (8 * L) ltac:(reflexivity)) as Ri.
    pose proof (Z.mod_pos_bound j (8 * L) ltac:(reflexivity)) as Rj.
    apply candidate_inj in E as (E1 & E2 & E3).
    + rewrite (Z.div_mod i (8 * L)), (Z.div_mod j (8 * L)), E1 by discriminate. f_equal.
      rewrite (Z.div_mod (i mod (8 * L)) L), (Z.div_mod (j mod (8 * L)) L), E2, E3
        by discriminate. reflexivity.
    + split; [apply Z.div_pos; [lia|reflexivity]|apply Z.div_lt_upper_bound; [reflexivity|lia]].
    + split; [apply Z.div_pos; [lia|reflexivity]|apply Z.div_lt_upper_bound; [reflexivity|lia]].
    + apply Z.mod_pos_bound. reflexivity.
    + apply Z.mod_pos_bound. reflexivity.
    + split; [apply Z.div_pos; [lia|reflexivity]|apply Z.div_lt_upper_bound; [reflexivity|lia]].
    + split; [apply Z.div_pos; [lia|reflexivity]|apply Z.div_lt_upper_bound; [reflexivity|lia]].
Qed.
End outside.

(** The group has exponent dividing [8 l]. *)
Lemma curve_exponent P : on_curve P → ed_mul (8 * L) P = ed_zero.
Proof.
  intros HP. destruct (decide (ed_mul (8 * L) P = ed_zero)) as [E|E]; [exact E|exfalso].
  exact (too_many_points P B25519 T8 HP B25519_on_curve T8_on_curve B25519_order
    B25519_order_divides T8_8 T8_order_divides E).
Qed.

(** The image of the multiplication by the cofactor. *)
Lemma l_torsion_8 P : on_curve P → l_torsion (ed_mul 8 P).
Proof.
  intros HP. split; [by apply on_curve_mul|].
  rewrite ed_mul_mul, Z.mul_comm by exact HP. by apply curve_exponent.
Qed.
