(* ===== verification/ScalarMult.v ===== *)
(** * Scalar multiplication: [slide], [select] and [ge_*scalarmult*] of [crypto-ops.c]

    The recodings of a 32-byte scalar into signed digits, the constant-time
    table lookups and the loops over the digits.  An index outside of a table,
    like an overflow or a failed assertion, is [None]. *)

From S2P Require Export Group BaseTable.

#[local] Open Scope Z_scope.

(** ** [slide]: signed sliding window, digits odd or 0 and at most 15 *)

Definition slide_bits (a : list Z) : list Z :=
  (λ i, Z.land 1 (Z.shiftr (a !!! (i / 8)%nat) (Z.of_nat (i mod 8)))) <$> seq 0 256.

(** [for (k = i + b; k < 256; ++k) { if (!r[k]) { r[k] = 1; break; } r[k] = 0; }],
    [n] iterations left *)
Fixpoint slide_carry (n k : nat) (r : list Z) : list Z :=
  match n with
  | O => r
  | S n' =>
      if r !!! k =? 0 then <[k := 1]> r else slide_carry n' (S k) (<[k := 0]> r)
  end.

(** [for (b = 1; b <= 6 && i + b < 256; ++b)], [n] iterations left *)
Fixpoint slide_inner (n b i : nat) (r : list Z) : list Z :=
  match n with
  | O => r
  | S n' =>
      if (i + b <? 256)%nat then
        if r !!! (i + b)%nat =? 0 then slide_inner n' (S b) i r
        else
          let t := r !!! (i + b)%nat * 2 ^ Z.of_nat b in
          if r !!! i + t <=? 15 then
            slide_inner n' (S b) i (<[(i + b)%nat := 0]> (<[i := swrap 8 (r !!! i + t)]> r))
          else if -15 <=? r !!! i - t then
            slide_inner n' (S b) i
              (slide_carry (256 - (i + b)) (i + b) (<[i := swrap 8 (r !!! i - t)]> r))
          else r
      else r
  end.

Definition slide_digit (r : list Z) (i : nat) : list Z :=
  if r !!! i =? 0 then r else slide_inner 6 1 i r.

Definition slide (a : list Z) : list Z := foldl slide_digit (slide_bits a) (seq 0 256).

(** ** Double scalar multiplication *)

(** [ge_add(&t, &s2, &r[i]); ge_p1p1_to_p3(&u, &t); ge_p3_to_cached(&r[i + 1], &u)] *)
Definition dsm_next (s2 : ge_p3) (c : ge_cached) : option ge_cached :=
  t ← ge_add s2 c; u ← ge_p1p1_to_p3 t; ge_p3_to_cached u.

(** The odd multiples [s, 3 s, .., 15 s]. *)
Definition ge_dsm_precomp (s : ge_p3) : option (list ge_cached) :=
  r0 ← ge_p3_to_cached s;
  t ← ge_p3_dbl s;
  s2 ← ge_p1p1_to_p3 t;
  r1 ← dsm_next s2 r0;
  r2 ← dsm_next s2 r1;
  r3 ← dsm_next s2 r2;
  r4 ← dsm_next s2 r3;
  r5 ← dsm_next s2 r4;
  r6 ← dsm_next s2 r5;
  r7 ← dsm_next s2 r6;
  Some [r0; r1; r2; r3; r4; r5; r6; r7].

(** One digit of a scalar with its table of odd multiples:
    [if (d > 0) .. ge_add(&t, &u, &Ai[d/2]) else if (d < 0) .. ge_sub(&t, &u, &Ai[(-d)/2])] *)
Definition digit_add (Ai : list ge_cached) (d : Z) (t : ge_p1p1) : option ge_p1p1 :=
  if 0 <? d then
    u ← ge_p1p1_to_p3 t; q ← Ai !! Z.to_nat (Z.quot d 2); ge_add u q
  else if d <? 0 then
    u ← ge_p1p1_to_p3 t; q ← Ai !! Z.to_nat (Z.quot (- d) 2); ge_sub u q
  else Some t.

(** The same with [ge_madd] and [ge_msub]. *)
Definition digit_madd (Bi : list ge_precomp) (d : Z) (t : ge_p1p1) : option ge_p1p1 :=
  if 0 <? d then
    u ← ge_p1p1_to_p3 t; q ← Bi !! Z.to_nat (Z.quot d 2); ge_madd u q
  else if d <? 0 then
    u ← ge_p1p1_to_p3 t; q ← Bi !! Z.to_nat (Z.quot (- d) 2); ge_msub u q
  else Some t.

(** [for (i = 255; i >= 0; --i) { if (aslide[i] || bslide[i]) break; }]: the
    value of [i + 1] after the loop *)
Fixpoint top_digit (aslide bslide : list Z) (n : nat) : nat :=
  match n with
  | O => O
  | S i =>
      if negb (aslide !!! i =? 0) || negb (bslide !!! i =? 0) then n
      else top_digit aslide bslide i
  end.

Section double.
(** [addA], [addB]: what the body does with a digit of [a], of [b]. *)
Context (addA addB : Z → ge_p1p1 → option ge_p1p1).

(** [for (; i >= 0; --i)], with [i + 1] iterations left *)
Fixpoint double_loop (aslide bslide : list Z) (n : nat) (r : ge_p2) : option ge_p2 :=
  match n with
  | O => Some r
  | S i =>
      t ← ge_p2_dbl r;
      t ← addA (aslide !!! i) t;
      t ← addB (bslide !!! i) t;
      r ← ge_p1p1_to_p2 t;
      double_loop aslide bslide i r
  end.

(** The same for the functions that return a [ge_p3], written when [i] is 0:
    [Some None] when [r3] is never written. *)
Fixpoint double_loop_p3 (aslide bslide : list Z) (n : nat) (r : ge_p2) :
    option (option ge_p3) :=
  match n with
  | O => Some None
  | S i =>
      t ← ge_p2_dbl r;
      t ← addA (aslide !!! i) t;
      t ← addB (bslide !!! i) t;
      match i with
      | O => r3 ← ge_p1p1_to_p3 t; Some (Some r3)
      | S _ => r ← ge_p1p1_to_p2 t; double_loop_p3 aslide bslide i r
      end
  end.
End double.

Definition ge_double_scalarmult_base_vartime (a : list Z) (A : ge_p3) (b : list Z) :
    option ge_p2 :=
  let aslide := slide a in
  let bslide := slide b in
  Ai ← ge_dsm_precomp A;
  double_loop (digit_add Ai) (digit_madd ge_Bi) aslide bslide
    (top_digit aslide bslide 256) ge_p2_0.

Definition ge_double_scalarmult_base_vartime_p3 (a : list Z) (A : ge_p3) (b : list Z) :
    option (option ge_p3) :=
  let aslide := slide a in
  let bslide := slide b in
  Ai ← ge_dsm_precomp A;
  double_loop_p3 (digit_add Ai) (digit_madd ge_Bi) aslide bslide
    (top_digit aslide bslide 256) ge_p2_0.

Definition ge_double_scalarmult_precomp_vartime2 (a : list Z) (Ai : list ge_cached)
    (b : list Z) (Bi : list ge_cached) : option ge_p2 :=
  let aslide := slide a in
  let bslide := slide b in
  double_loop (digit_add Ai) (digit_add Bi) aslide bslide
    (top_digit aslide bslide 256) ge_p2_0.

Definition ge_double_scalarmult_precomp_vartime2_p3 (a : list Z) (Ai : list ge_cached)
    (b : list Z) (Bi : list ge_cached) : option (option ge_p3) :=
  let aslide := slide a in
  let bslide := slide b in
  double_loop_p3 (digit_add Ai) (digit_add Bi) aslide bslide
    (top_digit aslide bslide 256) ge_p2_0.

Definition ge_double_scalarmult_precomp_vartime (a : list Z) (A : ge_p3) (b : list Z)
    (Bi : list ge_cached) : option ge_p2 :=
  Ai ← ge_dsm_precomp A;
  ge_double_scalarmult_precomp_vartime2 a Ai b Bi.

(** ** Constant-time selection *)

(** [signed char] arguments; the result is an [unsigned char]. *)
Definition equal (b c : Z) : Z :=
  let ub := uwrap 8 b in
  let uc := uwrap 8 c in
  let x := Z.lxor ub uc in
  let y := uwrap 32 (x - 1) in
  Z.shiftr y 31.

Definition negative (b : Z) : Z := Z.shiftr (uwrap 64 b) 63.

(** [unsigned char babs = b - (((-bnegative) & b) << 1)] *)
Definition babs (b : Z) : Z := uwrap 8 (b - Z.land (- negative b) b * 2).

Definition ge_precomp_cmov (t u : ge_precomp) (b : Z) : option ge_precomp :=
  tp ← fe_cmov (yplusx t) (yplusx u) b;
  tm ← fe_cmov (yminusx t) (yminusx u) b;
  t2 ← fe_cmov (xy2d t) (xy2d u) b;
  Some {| yplusx := tp; yminusx := tm; xy2d := t2 |}.

Definition ge_cached_cmov (t u : ge_cached) (b : Z) : option ge_cached :=
  tp ← fe_cmov (YplusX t) (YplusX u) b;
  tm ← fe_cmov (YminusX t) (YminusX u) b;
  tz ← fe_cmov (c_Z t) (c_Z u) b;
  t2 ← fe_cmov (T2d t) (T2d u) b;
  Some {| YplusX := tp; YminusX := tm; c_Z := tz; T2d := t2 |}.

Section scan.
Context {A : Type} (cmov : A → A → Z → option A).

(** [cmov(t, &tbl[k], equal(babs, k + 1))] for each entry of the table *)
Fixpoint scan_table (tbl : list A) (k b : Z) (t : A) : option A :=
  match tbl with
  | [] => Some t
  | u :: tbl' => t ← cmov t u (equal b k); scan_table tbl' (k + 1) b t
  end.
End scan.

Definition select (pos : nat) (b : Z) : option ge_precomp :=
  let bnegative := negative b in
  row ← ge_base !! pos;
  t ← scan_table ge_precomp_cmov row 1 (babs b) ge_precomp_0;
  m2 ← fe_neg (xy2d t);
  let minust := {| yplusx := fe_copy (yminusx t); yminusx := fe_copy (yplusx t);
                   xy2d := m2 |} in
  ge_precomp_cmov t minust bnegative.

(** The body of the loops of [ge_scalarmult] has the same with [ge_cached]. *)
Definition select_cached (Ai : list ge_cached) (b : Z) : option ge_cached :=
  let bnegative := negative b in
  cur ← scan_table ge_cached_cmov Ai 1 (babs b) ge_cached_0;
  m2 ← fe_neg (T2d cur);
  let minuscur := {| YplusX := fe_copy (YminusX cur); YminusX := fe_copy (YplusX cur);
                     c_Z := fe_copy (c_Z cur); T2d := m2 |} in
  ge_cached_cmov cur minuscur bnegative.

(** ** [ge_scalarmult] *)

(** The digits of the bytes [a[0 .. 30]] and the carry into [a[31]]. *)
Fixpoint recode_bytes (carry : Z) (a : list Z) : list Z * Z :=
  match a with
  | [] => ([], carry)
  | x :: a' =>
      let carry := carry + x in
      let carry2 := Z.shiftr (carry + 8) 4 in
      let e0 := swrap 8 (carry - carry2 * 2 ^ 4) in
      let carry := Z.shiftr (carry2 + 8) 4 in
      let e1 := swrap 8 (carry2 - carry * 2 ^ 4) in
      let '(e, c) := recode_bytes carry a' in
      (e0 :: e1 :: e, c)
  end.

Definition recode (a : list Z) : list Z :=
  let '(e, carry) := recode_bytes 0 (take 31 a) in
  let carry := carry + a !!! 31%nat in
  let carry2 := Z.shiftr (carry + 8) 4 in
  e ++ [swrap 8 (carry - carry2 * 2 ^ 4); swrap 8 carry2].

(** [for (i = 0; i < 7; i++) { ge_add(&t, A, &Ai[i]); .. &Ai[i + 1] }], the entries
    after [c] *)
Fixpoint multiples (n : nat) (A : ge_p3) (c : ge_cached) : option (list ge_cached) :=
  match n with
  | O => Some []
  | S n' =>
      t ← ge_add A c;
      u ← ge_p1p1_to_p3 t;
      c ← ge_p3_to_cached u;
      cs ← multiples n' A c;
      Some (c :: cs)
  end.

Definition eight_multiples (A : ge_p3) : option (list ge_cached) :=
  c ← ge_p3_to_cached A; cs ← multiples 7 A c; Some (c :: cs).

(** One iteration up to the last [ge_add]. *)
Definition scalarmult_step (Ai : list ge_cached) (b : Z) (r : ge_p2) : option ge_p1p1 :=
  t ← ge_p2_dbl r;
  r ← ge_p1p1_to_p2 t;
  t ← ge_p2_dbl r;
  r ← ge_p1p1_to_p2 t;
  t ← ge_p2_dbl r;
  r ← ge_p1p1_to_p2 t;
  t ← ge_p2_dbl r;
  u ← ge_p1p1_to_p3 t;
  cur ← select_cached Ai b;
  ge_add u cur.

(** [for (i = 63; i >= 0; i--)], with [i + 1] iterations left *)
Fixpoint scalarmult_loop (Ai : list ge_cached) (e : list Z) (n : nat) (r : ge_p2) :
    option ge_p2 :=
  match n with
  | O => Some r
  | S i =>
      t ← scalarmult_step Ai (e !!! i) r;
      r ← ge_p1p1_to_p2 t;
      scalarmult_loop Ai e i r
  end.

Definition ge_scalarmult (a : list Z) (A : ge_p3) : option ge_p2 :=
  let e := recode a in
  Ai ← eight_multiples A;
  scalarmult_loop Ai e 64 ge_p2_0.

Fixpoint scalarmult_loop_p3 (Ai : list ge_cached) (e : list Z) (n : nat) (r : ge_p2) :
    option (option ge_p3) :=
  match n with
  | O => Some None
  | S i =>
      t ← scalarmult_step Ai (e !!! i) r;
      match i with
      | O => r3 ← ge_p1p1_to_p3 t; Some (Some r3)
      | S _ => r ← ge_p1p1_to_p2 t; scalarmult_loop_p3 Ai e i r
      end
  end.

Definition ge_scalarmult_p3 (a : list Z) (A : ge_p3) : option (option ge_p3) :=
  let e := recode a in
  Ai ← eight_multiples A;
  scalarmult_loop_p3 Ai e 64 ge_p2_0.

(** ** [ge_scalarmult_base] *)

Fixpoint nibbles (a : list Z) : list Z :=
  match a with
  | [] => []
  | x :: a' => Z.land (Z.shiftr x 0) 15 :: Z.land (Z.shiftr x 4) 15 :: nibbles a'
  end.

(** [for (i = 0; i < 63; ++i) { e[i] += carry; carry = e[i] + 8; carry >>= 4;
    e[i] -= carry << 4; } e[63] += carry] *)
Fixpoint carry_nibbles (carry : Z) (e : list Z) : list Z :=
  match e with
  | [] => []
  | [x] => [swrap 8 (x + carry)]
  | x :: e' =>
      let x := swrap 8 (x + carry) in
      let carry := Z.shiftr (swrap 8 (x + 8)) 4 in
      swrap 8 (x - carry * 2 ^ 4) :: carry_nibbles carry e'
  end.

Definition recode_base (a : list Z) : list Z := carry_nibbles 0 (nibbles a).

(** [for (i = o; i < 64; i += 2) { select(&t, i / 2, e[i]); ge_madd; ge_p1p1_to_p3 }]
    with [n] iterations left *)
Fixpoint base_loop (e : list Z) (n i : nat) (h : ge_p3) : option ge_p3 :=
  match n with
  | O => Some h
  | S n' =>
      t ← select (i / 2) (e !!! i);
      r ← ge_madd h t;
      h ← ge_p1p1_to_p3 r;
      base_loop e n' (i + 2) h
  end.

Definition ge_scalarmult_base (a : list Z) : option ge_p3 :=
  let e := recode_base a in
  h ← base_loop e 32 1 ge_p3_0;
  r ← ge_p3_dbl h;
  s ← ge_p1p1_to_p2 r;
  r ← ge_p2_dbl s;
  s ← ge_p1p1_to_p2 r;
  r ← ge_p2_dbl s;
  s ← ge_p1p1_to_p2 r;
  r ← ge_p2_dbl s;
  h ← ge_p1p1_to_p3 r;
  base_loop e 32 0 h.
