(* ===== verification/SlideSpec.v ===== *)
(** * The sliding-window recoding [slide]

    The digits of [slide] are 0 or odd, at most 15 in absolute value, at least five
    positions apart, and represent the scalar when it is below [2 ^ 255].  From [2 ^ 255]
    on a carry can run off the top of the array: then they represent the scalar minus [2 ^ 256]. *)

From S2P Require Export ScalarMult.

#[local] Open Scope Z_scope.

(** Weights of binary digits; [eval wt1 n r] is the number of the digits below [n]. *)
Definition wt1 (i : nat) : Z := Z.of_nat i.

(** A digit of [slide]: 0 or odd, at most 15. *)
Definition good_digit (d : Z) : Prop := d = 0 ∨ (Z.odd d = true ∧ Z.abs d ≤ 15).

Definition is_bit (d : Z) : Prop := d = 0 ∨ d = 1.

(** A finished digit: the four positions above a non-zero one are 0. *)
Definition isolated (r : list Z) (j : nat) : Prop :=
  r !!! j = 0 ∨
  (good_digit (r !!! j) ∧ ∀ t, (1 ≤ t ≤ 4)%nat → (j + t < 256)%nat → r !!! (j + t)%nat = 0).

Record slide_inv (v : Z) (i : nat) (r : list Z) : Prop := {
  sl_len : length r = 256%nat;
  sl_bits : ∀ j, (i ≤ j < 256)%nat → is_bit (r !!! j);
  sl_low : ∀ j, (j < i)%nat → isolated r j;
  sl_val : eval wt1 256 r = v
}.

(** What digits made from the number [a] represent: [a], or [a] less the lost carry *)
Definition recodes (a v : Z) : Prop := v = a ∨ (2 ^ 255 ≤ a ∧ v = a - 2 ^ 256).

Lemma recodes_trans a v w : a < 2 ^ 256 → recodes a v → recodes v w → recodes a w.
Proof. unfold recodes. lia. Qed.

Lemma recodes_small a v : a < 2 ^ 255 → recodes a v → v = a.
Proof. unfold recodes. lia. Qed.

Lemma recodes_nonzero a v : 0 ≤ a < 2 ^ 256 → recodes a v → v = 0 ↔ a = 0.
Proof. unfold recodes. lia. Qed.

(** While digit [i] is being formed, before the test of position [i + b]. *)
Record inner_inv (v : Z) (i b : nat) (r : list Z) : Prop := {
  in_len : length r = 256%nat;
  in_bits : ∀ j, (i < j < 256)%nat → is_bit (r !!! j);
  in_odd : Z.odd (r !!! i) = true;
  in_abs : Z.abs (r !!! i) ≤ 15;
  in_gap : ∀ t, (1 ≤ t ≤ 4)%nat → (t < b)%nat → (i + t < 256)%nat → r !!! (i + t)%nat = 0;
  in_low : ∀ j, (j < i)%nat → isolated r j;
  in_val : eval wt1 256 r = v
}.

(** ** Partial sums *)

Lemma eval_zero_above r i n :
  (i ≤ n)%nat → (∀ j, (i ≤ j < n)%nat → r !!! j = 0) → eval wt1 n r = eval wt1 i r.
Proof.
  intros Hin Hz. induction n as [|n IH]; [by replace i with O by lia|].
  destruct (decide (i = S n)) as [->|]; [done|]. cbn [eval].
  rewrite Hz, IH by (intros; try apply Hz; lia). lia.
Qed.

Lemma wt1_succ n : 2 ^ wt1 (S n) = 2 * 2 ^ wt1 n.
Proof. unfold wt1. rewrite Nat2Z.inj_succ, Z.pow_succ_r by lia. done. Qed.

Lemma eval_succ n r : eval wt1 (S n) r = eval wt1 n r + r !!! n * 2 ^ wt1 n.
Proof. done. Qed.

Lemma wt1_pos n : 0 < 2 ^ wt1 n.
Proof. apply Z.pow_pos_nonneg; unfold wt1; lia. Qed.

(** Isolated digits add up to little: [|sum| < 8 * 2 ^ n] in general. *)
Lemma eval_isolated r n :
  (n ≤ 256)%nat → (∀ j, (j < n)%nat → isolated r j) → Z.abs (eval wt1 n r) < 8 * 2 ^ wt1 n.
Proof.
  induction n as [n IH] using lt_wf_ind. intros Hn Hlow.
  destruct n as [|n]; [cbn [eval]; pose proof (wt1_pos 0); lia|]. cbn [eval].
  pose proof (wt1_pos n). rewrite wt1_succ.
  destruct (decide (r !!! n = 0)) as [E|E].
  - rewrite E. pose proof (IH n ltac:(lia) ltac:(lia) ltac:(intros; apply Hlow; lia)). lia.
  - assert (Z.abs (r !!! n) ≤ 15) as Hd.
    { destruct (Hlow n ltac:(lia)) as [|[[|[_ Hd]] _]]; [done..|exact Hd]. }
    assert (∀ j, (j < n)%nat → (n ≤ j + 4)%nat → r !!! j = 0) as Hz.
    { intros j Hj Hj4. destruct (Hlow j ltac:(lia)) as [|[_ Hg]]; [done|].
      specialize (Hg (n - j)%nat ltac:(lia) ltac:(lia)).
      replace (j + (n - j))%nat with n in Hg by lia. done. }
    destruct (le_lt_dec n 4) as [H4|H4].
    + rewrite (eval_zero_above r 0 n) by (intros; try apply Hz; lia). cbn [eval]. nia.
    + rewrite (eval_zero_above r (n - 4) n) by (intros; try apply Hz; lia).
      pose proof (IH (n - 4)%nat ltac:(lia) ltac:(lia) ltac:(intros; apply Hlow; lia)) as B.
      assert (2 ^ wt1 n = 16 * 2 ^ wt1 (n - 4)) as ->.
      { replace n with (S (S (S (S (n - 4))))) at 1 by lia. rewrite !wt1_succ. lia. }
      clear -B Hd. nia.
Qed.

(** Below a non-zero digit the sum is less than the weight of the digit. *)
Lemma eval_below r i :
  (i < 256)%nat → (∀ j, (j < i)%nat → isolated r j) → r !!! i ≠ 0 →
  Z.abs (eval wt1 i r) < 2 ^ wt1 i.
Proof.
  intros Hi Hlow E. pose proof (wt1_pos i).
  assert (∀ j, (j < i)%nat → (i ≤ j + 4)%nat → r !!! j = 0) as Hz.
  { intros j Hj Hj4. destruct (Hlow j Hj) as [|[_ Hg]]; [done|].
    specialize (Hg (i - j)%nat ltac:(lia) ltac:(lia)).
    replace (j + (i - j))%nat with i in Hg by lia. done. }
  destruct (le_lt_dec i 4) as [H4|H4].
  - rewrite (eval_zero_above r 0 i) by (intros; try apply Hz; lia). cbn [eval]. lia.
  - rewrite (eval_zero_above r (i - 4) i) by (intros; try apply Hz; lia).
    pose proof (eval_isolated r (i - 4) ltac:(lia) ltac:(intros; apply Hlow; lia)) as B.
    assert (2 ^ wt1 i = 16 * 2 ^ wt1 (i - 4)) as ->.
    { replace i with (S (S (S (S (i - 4))))) at 1 by lia. rewrite !wt1_succ. lia. }
    pose proof (wt1_pos (i - 4)). lia.
Qed.

(** ** The carry *)

Lemma slide_carry_spec n k r :
  (k + n = 256)%nat → length r = 256%nat →
  (∀ j, (k ≤ j < 256)%nat → is_bit (r !!! j)) →
  let r' := slide_carry n k r in
  length r' = 256%nat ∧ (∀ j, (j < k)%nat → r' !!! j = r !!! j) ∧
  (∀ j, (k ≤ j < 256)%nat → is_bit (r' !!! j)) ∧
  (r !!! k = 1 → (k < 256)%nat → r' !!! k = 0) ∧
  (eval wt1 256 r' = eval wt1 256 r + 2 ^ wt1 k ∨
   (∀ j, (k ≤ j < 256)%nat → r !!! j = 1) ∧ eval wt1 256 r' = eval wt1 256 r + 2 ^ wt1 k - 2 ^ 256).
Proof.
  revert k r. induction n as [|n IH]; intros k r Hk HL Hb; cbn [slide_carry].
  { split_and!; [done..|lia|]. right. split; [lia|]. replace k with 256%nat by lia.
    change (2 ^ wt1 256) with (2 ^ 256). lia. }
  destruct (Z.eqb_spec (r !!! k) 0) as [E|E].
  - split_and!; [by rewrite length_insert| | |rewrite E; done|left].
    + intros j Hj. by rewrite list_lookup_total_insert_ne by lia.
    + intros j Hj. destruct (decide (j = k)) as [->|].
      * rewrite list_lookup_total_insert_eq by lia. by right.
      * rewrite list_lookup_total_insert_ne by lia. apply Hb. lia.
    + rewrite eval_insert by lia. rewrite E. lia.
  - assert (r !!! k = 1) as E1 by (destruct (Hb k ltac:(lia)); done).
    destruct (IH (S k) (<[k := 0]> r)) as (H1 & H2 & H3 & H4 & H5).
    + lia.
    + by rewrite length_insert.
    + intros j Hj. rewrite list_lookup_total_insert_ne by lia. apply Hb. lia.
    + split_and!; [done| | | |].
      * intros j Hj. rewrite H2 by lia. by rewrite list_lookup_total_insert_ne by lia.
      * intros j Hj. destruct (decide (j = k)) as [->|]; [|apply H3; lia].
        rewrite H2, list_lookup_total_insert_eq by lia. by left.
      * intros _ _. by rewrite H2, list_lookup_total_insert_eq by lia.
      * destruct H5 as [H5|[H5 H6]]; [left|right].
        -- rewrite H5, eval_insert, wt1_succ by lia. rewrite E1. lia.
        -- split; [|rewrite H6, eval_insert, wt1_succ by lia; rewrite E1; lia]. intros j Hj. destruct (decide (j = k)) as [->|]; [done|].
           rewrite <- (H5 j) by lia. by rewrite list_lookup_total_insert_ne by lia.
Qed.

(** ** One position of the inner loop *)

Lemma low_ext r r' i :
  (i < 256)%nat → (∀ j, (j < i)%nat → isolated r j) → r !!! i ≠ 0 →
  (∀ j, (j < i)%nat → r' !!! j = r !!! j) → ∀ j, (j < i)%nat → isolated r' j.
Proof.
  intros Hi Hlow Ei Heq j Hj. destruct (Hlow j Hj) as [E|[Hg Hz]].
  - left. by rewrite Heq.
  - right. rewrite Heq by done. split; [done|]. intros t Ht Hjt.
    destruct (decide (i ≤ j + t)%nat) as [Hle|]; [|rewrite Heq by lia; by apply Hz].
    exfalso. apply Ei. rewrite <- (Hz (i - j)%nat) by lia. f_equal. lia.
Qed.

Section inner.
Context (v : Z) (i : nat) (Hi : (i < 256)%nat).

Lemma odd_neq_0 d : Z.odd d = true → d ≠ 0.
Proof. by intros Ho ->. Qed.

Lemma inner_skip b r :
  inner_inv v i b r → r !!! (i + b)%nat = 0 → inner_inv v i (S b) r.
Proof.
  intros [? ? ? ? Hgap ? ?] E. split; [done..| |done|done]. intros t Ht Htb Hit.
  destruct (decide (t = b)) as [->|]; [done|]. apply Hgap; lia.
Qed.

(** A change of digit [i] and of the positions from [i + b] on. *)
Lemma inner_update b r r' v' :
  inner_inv v i b r → (1 ≤ b)%nat → length r' = 256%nat →
  (∀ j, (j < i + b)%nat → j ≠ i → r' !!! j = r !!! j) →
  (∀ j, (i + b ≤ j < 256)%nat → is_bit (r' !!! j)) → r' !!! (i + b)%nat = 0 →
  Z.odd (r' !!! i) = true → Z.abs (r' !!! i) ≤ 15 → eval wt1 256 r' = v' →
  inner_inv v' i (S b) r'.
Proof.
  intros [HL Hb Ho Ha Hg Hl Hv] Hb1 HL' Heq Hbit' H0 Ho' Ha' Hv'. split; try done.
  - intros j Hj. destruct (le_lt_dec (i + b) j); [apply Hbit'; lia|].
    rewrite Heq by lia. apply Hb. lia.
  - intros t Ht Htb Hit. destruct (decide (t = b)) as [->|]; [done|].
    rewrite Heq by lia. apply Hg; lia.
  - eapply low_ext; [done|exact Hl|by apply odd_neq_0|]. intros j Hj. apply Heq; lia.
Qed.

Lemma pow2_odd d b : (1 ≤ b)%nat → Z.odd (d + 2 ^ Z.of_nat b) = Z.odd d.
Proof.
  intros Hb. replace (Z.of_nat b) with (Z.succ (Z.of_nat (b - 1))) by lia.
  rewrite Z.pow_succ_r by lia. rewrite Z.odd_add, Z.odd_mul. cbn.
  by destruct (Z.odd d).
Qed.

Lemma swrap8_small x : Z.abs x ≤ 15 → swrap 8 x = x.
Proof. intros Hx. apply swrap_fits, fits_spec. lia. Qed.

Lemma pow_wt1_add b : 2 ^ wt1 (i + b) = 2 ^ Z.of_nat b * 2 ^ wt1 i.
Proof. unfold wt1. rewrite Nat2Z.inj_add, Z.pow_add_r by lia. ring. Qed.

Lemma inner_add b r :
  inner_inv v i b r → (1 ≤ b)%nat → (i + b < 256)%nat → r !!! (i + b)%nat = 1 →
  r !!! i + 2 ^ Z.of_nat b ≤ 15 →
  inner_inv v i (S b) (<[(i + b)%nat := 0]> (<[i := swrap 8 (r !!! i + 2 ^ Z.of_nat b)]> r)).
Proof.
  intros HI Hb1 Hib E1 H15. destruct HI as [HL Hb Ho Ha Hg Hl Hv] eqn:HI'.
  pose proof (Z.pow_pos_nonneg 2 (Z.of_nat b) ltac:(lia) ltac:(lia)).
  rewrite swrap8_small by lia.
  apply (inner_update b r); try done.
  - by rewrite !length_insert.
  - intros j Hj Hji. by rewrite !list_lookup_total_insert_ne by lia.
  - intros j Hj. destruct (decide (j = i + b)%nat) as [->|].
    + rewrite list_lookup_total_insert_eq by (rewrite length_insert; lia). by left.
    + rewrite !list_lookup_total_insert_ne by lia. apply Hb. lia.
  - by rewrite list_lookup_total_insert_eq by (rewrite length_insert; lia).
  - rewrite list_lookup_total_insert_ne, list_lookup_total_insert_eq by lia. by rewrite pow2_odd.
  - rewrite list_lookup_total_insert_ne, list_lookup_total_insert_eq by lia. lia.
  - rewrite !eval_insert, list_lookup_total_insert_ne by (rewrite ?length_insert; lia).
    rewrite E1, pow_wt1_add, Hv. ring.
Qed.

(** Bits above [i] only add to the number. *)
Lemma eval_bits_ge r n :
  (i < n ≤ 256)%nat → (∀ j, (i < j < 256)%nat → is_bit (r !!! j)) →
  eval wt1 (S i) r ≤ eval wt1 n r.
Proof.
  intros Hn Hb. induction n as [|n IH]; [lia|]. destruct (decide (n = i)) as [->|]; [done|].
  specialize (IH ltac:(lia)). cbn [eval] in *. pose proof (wt1_pos n).
  destruct (Hb n ltac:(lia)) as [-> | ->]; lia.
Qed.

Lemma not_all_ones b r :
  v < 2 ^ 255 → inner_inv v i b r → (1 ≤ b)%nat → (i + b < 256)%nat → 0 < r !!! i →
  ¬ ∀ j, (i + b ≤ j < 256)%nat → r !!! j = 1.
Proof.
  intros Hv [HL Hb Ho Ha Hg Hl HV] Hb1 Hib Hpos H1.
  pose proof (eval_below r i Hi Hl ltac:(lia)) as HB. pose proof (wt1_pos i) as HW.
  pose proof (eval_bits_ge r 255 ltac:(lia) Hb) as HG.
  rewrite (eval_succ 255), (H1 255%nat) in HV by lia. rewrite eval_succ in HG.
  change (2 ^ wt1 255) with (2 ^ 255) in HV. nia.
Qed.

(** The value changes only when the carry goes past the last digit. *)
Lemma inner_sub b r :
  inner_inv v i b r → (1 ≤ b)%nat → (i + b < 256)%nat →
  r !!! (i + b)%nat = 1 → 15 < r !!! i + 2 ^ Z.of_nat b → -15 ≤ r !!! i - 2 ^ Z.of_nat b →
  ∃ v', recodes v v' ∧ inner_inv v' i (S b)
    (slide_carry (256 - (i + b)) (i + b) (<[i := swrap 8 (r !!! i - 2 ^ Z.of_nat b)]> r)).
Proof.
  intros HI Hb1 Hib E1 H15 Hm15. pose proof HI as [HL Hb Ho Ha Hg Hl HV].
  pose proof (Z.pow_pos_nonneg 2 (Z.of_nat b) ltac:(lia) ltac:(lia)) as Hp.
  assert (0 < r !!! i) as Hpos by lia.
  rewrite swrap8_small by lia. set (r1 := <[i := _]> r).
  assert (∀ j, j ≠ i → r1 !!! j = r !!! j) as Hne
    by (intros j Hj; unfold r1; by rewrite list_lookup_total_insert_ne by lia).
  assert (r1 !!! i = r !!! i - 2 ^ Z.of_nat b) as Heq
    by (unfold r1; by rewrite list_lookup_total_insert_eq by lia).
  destruct (slide_carry_spec (256 - (i + b)) (i + b) r1) as (H1 & H2 & H3 & H4 & H5).
  { lia. }
  { unfold r1. by rewrite length_insert. }
  { intros j Hj. rewrite Hne by lia. apply Hb. lia. }
  exists (eval wt1 256 (slide_carry (256 - (i + b)) (i + b) r1)). split.
  { destruct H5 as [-> | [H5 ->]]; [left|right].
    - unfold r1. rewrite eval_insert, pow_wt1_add, HV by lia. ring.
    - split; [|unfold r1; rewrite eval_insert, pow_wt1_add, HV by lia; ring].
      destruct (Z.le_gt_cases (2 ^ 255) v) as [|Hv]; [done|].
      exfalso. apply (not_all_ones b r Hv HI Hb1 Hib Hpos). intros j Hj.
      rewrite <- (H5 j Hj). symmetry. apply Hne. lia. }
  apply (inner_update b r); try done.
  - intros j Hj Hji. rewrite H2, Hne by lia. done.
  - apply H4; [|done]. by rewrite Hne by lia.
  - rewrite H2, Heq by lia. replace (r !!! i - 2 ^ Z.of_nat b)
      with (r !!! i + - 2 ^ Z.of_nat b) by lia.
    rewrite Z.odd_add, Z.odd_opp, <- Z.odd_add. by rewrite pow2_odd.
  - rewrite H2, Heq by lia. lia.
Qed.

(** One of the two updates applies at each of the first four positions. *)
Lemma inner_no_break b r :
  inner_inv v i b r → (1 ≤ b ≤ 4)%nat →
  ¬ (15 < r !!! i + 2 ^ Z.of_nat b ∧ r !!! i - 2 ^ Z.of_nat b < -15).
Proof.
  intros [_ _ Ho Ha _ _ _] Hb. apply Z.odd_spec in Ho as [k Hk].
  assert (b = 1 ∨ b = 2 ∨ b = 3 ∨ b = 4)%nat as [-> | [-> | [-> | ->]]] by lia; cbn; lia.
Qed.

(** The finished digit. *)
Lemma inner_done b r : (5 ≤ b ∨ 256 ≤ i + b)%nat → inner_inv v i b r → slide_inv v (S i) r.
Proof.
  intros Hb5 [HL Hb Ho Ha Hg Hl HV]. split; [done| |  |done].
  - intros j Hj. apply Hb. lia.
  - intros j Hj. destruct (decide (j = i)) as [->|]; [|apply Hl; lia].
    right. split; [by right|]. intros t Ht Hit. apply Hg; lia.
Qed.

End inner.

Lemma slide_inner_ok v i n b r :
  (i < 256)%nat → (n + b = 7)%nat → (1 ≤ b)%nat → v < 2 ^ 256 → inner_inv v i b r →
  ∃ v', recodes v v' ∧ slide_inv v' (S i) (slide_inner n b i r).
Proof.
  intros Hi. revert v b r. induction n as [|n IH]; intros v b r Hn Hb1 Hv HI; cbn [slide_inner].
  { exists v. split; [by left|]. apply (inner_done v i Hi b); [lia|done]. }
  destruct (Nat.ltb_spec (i + b) 256) as [Hib|Hib];
    [|exists v; split; [by left|]; by apply (inner_done v i Hi b); [lia|]].
  destruct (Z.eqb_spec (r !!! (i + b)%nat) 0) as [E0|E0].
  { apply IH; [lia..|done|]. by apply inner_skip. }
  assert (r !!! (i + b)%nat = 1) as E1
    by (destruct (in_bits _ _ _ _ HI (i + b)%nat ltac:(lia)); done).
  rewrite E1, Z.mul_1_l. destruct (Z.leb_spec (r !!! i + 2 ^ Z.of_nat b) 15) as [H15|H15].
  { apply IH; [lia..|done|]. by apply inner_add. }
  destruct (Z.leb_spec (-15) (r !!! i - 2 ^ Z.of_nat b)) as [Hm|Hm].
  { destruct (inner_sub v i Hi b r HI Hb1 Hib E1 H15 Hm) as (v1 & Hv1 & HI1).
    destruct (IH v1 (S b) _ ltac:(lia) ltac:(lia) ltac:(unfold recodes in Hv1; lia) HI1) as (v2 & Hv2 & HI2).
    exists v2. split; [|exact HI2]. by apply (recodes_trans v v1). }
  exists v. split; [by left|]. apply (inner_done v i Hi b); [|done]. left.
  destruct (le_lt_dec b 4) as [H4|]; [|lia]. by destruct (inner_no_break v i Hi b r HI).
Qed.

Lemma slide_digit_ok v i r :
  (i < 256)%nat → v < 2 ^ 256 → slide_inv v i r →
  ∃ v', recodes v v' ∧ slide_inv v' (S i) (slide_digit r i).
Proof.
  intros Hi Hv [HL Hb Hl HV]. unfold slide_digit.
  destruct (Hb i ltac:(lia)) as [E|E]; rewrite E; cbn [Z.eqb].
  - exists v. split; [by left|]. split; [done| | |done]; [intros j Hj; apply Hb; lia|].
    intros j Hj. destruct (decide (j = i)) as [->|]; [by left|apply Hl; lia].
  - apply slide_inner_ok; [done..|]. split; try done.
    + intros j Hj. apply Hb. lia.
    + by rewrite E.
    + by rewrite E.
    + lia.
Qed.

(** ** The bits of the scalar *)

Lemma slide_bits_lookup a i :
  length a = 32%nat → bytes a → (i < 256)%nat →
  slide_bits a !!! i = (le_combine a / 2 ^ Z.of_nat i) mod 2.
Proof.
  intros HL Hb Hi. unfold slide_bits.
  rewrite list_lookup_total_alt, list_lookup_fmap, lookup_seq_lt by lia.
  cbn [fmap option_fmap option_map from_option Nat.add].
  pose proof (Nat.div_mod_eq i 8) as Edm. pose proof (Nat.mod_upper_bound i 8 ltac:(lia)) as Hm.
  rewrite (land_ones_l 1), Z.shiftr_div_pow2 by lia.
  rewrite le_combine_lookup by (try done; apply Nat.Div0.div_lt_upper_bound; lia).
  rewrite pow256_pow2. change 256 with (2 ^ 8).
  rewrite subfield by lia.
  by replace (8 * Z.of_nat (i / 8) + Z.of_nat (i mod 8)) with (Z.of_nat i) by lia.
Qed.

Lemma eval_slide_bits a n :
  length a = 32%nat → bytes a → (n ≤ 256)%nat →
  eval wt1 n (slide_bits a) = le_combine a mod 2 ^ Z.of_nat n.
Proof.
  intros HL Hb. induction n as [|n IH]; intros Hn; [by rewrite Z.mod_1_r|].
  rewrite eval_succ, IH, slide_bits_lookup by (done || lia). unfold wt1.
  replace (2 ^ Z.of_nat (S n)) with (2 ^ Z.of_nat n * 2)
    by (rewrite Nat2Z.inj_succ, Z.pow_succ_r by lia; lia).
  rewrite Z.rem_mul_r by (try apply Z.pow_nonzero; lia). lia.
Qed.

Lemma slide_bits_inv a :
  length a = 32%nat → bytes a → slide_inv (le_combine a) 0 (slide_bits a).
Proof.
  intros HL Hb. split.
  - unfold slide_bits. by rewrite length_fmap, length_seq.
  - intros j Hj. rewrite slide_bits_lookup by (done || lia). unfold is_bit. zlia.
  - lia.
  - rewrite eval_slide_bits by done. apply Z.mod_small.
    pose proof (le_combine_bound a Hb) as H. rewrite HL, pow256_pow2 in H. exact H.
Qed.

(** The digits of any 32 bytes are good; they represent the scalar, or it less a carry. *)
Lemma slide_any a :
  length a = 32%nat → bytes a →
  ∃ v, recodes (le_combine a) v ∧ slide_inv v 256 (slide a).
Proof.
  intros HL Hb. unfold slide. pose proof (le_combine_bound a Hb) as Ha. rewrite HL, pow256_pow2 in Ha.
  change (2 ^ (8 * Z.of_nat 32)) with (2 ^ 256) in Ha.
  assert (∀ n, (n ≤ 256)%nat → ∃ v, recodes (le_combine a) v ∧
    slide_inv v n (foldl slide_digit (slide_bits a) (seq 0 n))) as H.
  { induction n as [|n IH]; intros Hn.
    { exists (le_combine a). split; [by left|]. by apply slide_bits_inv. }
    destruct (IH ltac:(lia)) as (v & Hv & HI). rewrite seq_S, foldl_app.
    destruct (slide_digit_ok v n _ ltac:(lia) ltac:(unfold recodes in Hv; lia) HI) as (v1 & Hv1 & HI1).
    exists v1. split; [|exact HI1]. apply (recodes_trans _ v); [lia|done|done]. }
  by apply H.
Qed.

Lemma slide_ok a :
  length a = 32%nat → bytes a → le_combine a < 2 ^ 255 → slide_inv (le_combine a) 256 (slide a).
Proof. intros HL Hb Ha. destruct (slide_any a HL Hb) as (v & Hv & HI). by rewrite (recodes_small _ _ Ha Hv) in HI. Qed.

Lemma slide_good v r i : slide_inv v 256 r → (i < 256)%nat → good_digit (r !!! i).
Proof. intros H Hi. destruct (sl_low _ _ _ H i Hi) as [E | [G _]]; [by left|done]. Qed.

(** Isolated digits represent 0 only when all of them are 0. *)
Lemma isolated_zero r n :
  (n ≤ 256)%nat → (∀ j, (j < n)%nat → isolated r j) → eval wt1 n r = 0 →
  ∀ j, (j < n)%nat → r !!! j = 0.
Proof.
  induction n as [|n IH]; intros Hn Hl E j Hj; [lia|]. rewrite eval_succ in E.
  pose proof (wt1_pos n). destruct (decide (r !!! n = 0)) as [E0|E0].
  - destruct (decide (j = n)) as [->|]; [done|].
    apply IH; [lia|intros; apply Hl; lia| |lia]. rewrite E0 in E. lia.
  - pose proof (eval_below r n ltac:(lia) ltac:(intros; apply Hl; lia) E0). nia.
Qed.

(** * The property of [slide] *)

(** [slide] represents every scalar below [2^255] by signed digits: the 256
    digits add up to the scalar with weights [2^i], each is 0 or odd and between
    -15 and 15, and the four digits above a non-zero one are 0. *)
Theorem slide_spec a :
  length a = 32%nat → bytes a → le_combine a < 2 ^ 255 →
  length (slide a) = 256%nat ∧ eval wt1 256 (slide a) = le_combine a ∧
  ∀ i, (i < 256)%nat →
    good_digit (slide a !!! i) ∧
    (slide a !!! i ≠ 0 →
     ∀ t, (1 ≤ t ≤ 4)%nat → (i + t < 256)%nat → slide a !!! (i + t)%nat = 0).
Proof.
  intros HL Hb Hv. pose proof (slide_ok a HL Hb Hv) as HI.
  split; [apply (sl_len _ _ _ HI)|]. split; [apply (sl_val _ _ _ HI)|]. intros i Hi.
  split; [by apply (slide_good _ _ _ HI)|]. intros Hn.
  by destruct (sl_low _ _ _ HI i Hi) as [|[_ Hg]].
Qed.

(** The largest scalar below [2^255]. *)
Definition scalar_top : list Z := replicate 31 255 ++ [127].

Lemma scalar_top_bytes : bytes scalar_top.
Proof. apply Forall_app. split; [apply Forall_replicate; lia|repeat constructor; lia]. Qed.

Lemma slide_witness :
  length (slide scalar_top) = 256%nat ∧
  eval wt1 256 (slide scalar_top) = le_combine scalar_top ∧
  ∀ i, (i < 256)%nat →
    good_digit (slide scalar_top !!! i) ∧
    (slide scalar_top !!! i ≠ 0 →
     ∀ t, (1 ≤ t ≤ 4)%nat → (i + t < 256)%nat → slide scalar_top !!! (i + t)%nat = 0).
Proof.
  apply slide_spec; [reflexivity|apply scalar_top_bytes|vm_compute; reflexivity].
Defined.
