(* ===== verification/ScalarMultSpec.v ===== *)
(** * Correctness of scalar multiplication

    The recodings represent the scalar, the lookups return the multiple that
    the digit asks for, and the loops compute the multiple of the point:
    [ge_scalarmult a A] is [a A], [ge_scalarmult_base a] is [a B], and the
    double multiplications are [a A + b B], for every scalar below [2 ^ 255].  The [_p3] variants are
    described for all scalars of 32 bytes. *)

From Stdlib Require Import Zmod.Zmod.
From S2P Require Export SlideSpec BaseTableSpec.

#[local] Open Scope Z_scope.

(** ** Double multiplication, from good digits *)

(** A scalar argument: 32 bytes, below [2 ^ 255]. *)
Definition scalar255 (a : list Z) : Prop :=
  length a = 32%nat ∧ bytes a ∧ le_combine a < 2 ^ 255.

(** A table of the odd multiples of [P]. *)
Definition odd_multiples (P : point) (Ai : list ge_cached) : Prop :=
  ∀ j, (j < 8)%nat → ∃ q, Ai !! j = Some q ∧ cached_is (ed_mul (2 * Z.of_nat j + 1) P) q.

(** [add d] adds [d P]. *)
Definition adds (P : point) (add : Z → ge_p1p1 → option ge_p1p1) : Prop :=
  ∀ d R t, good_digit d → p1p1_is R t →
    ∃ t', add d t = Some t' ∧ p1p1_is (ed_add R (ed_mul d P)) t'.

(** The index of an odd digit. *)
Lemma odd_index d :
  0 < d → good_digit d → ∃ j, Z.to_nat (Z.quot d 2) = j ∧ (j < 8)%nat ∧ d = 2 * Z.of_nat j + 1.
Proof.
  intros Hd [->|[Ho Hb]]; [lia|]. exists (Z.to_nat (Z.quot d 2)). split; [done|].
  rewrite Z.quot_div_nonneg by lia. apply Z.odd_spec in Ho as [k ->].
  replace ((2 * k + 1) / 2) with k by zlia. lia.
Qed.

Lemma good_digit_opp d : good_digit d → good_digit (- d).
Proof.
  intros [->|[Ho Hb]]; [by left|right]. by rewrite Z.odd_opp, Z.abs_opp.
Qed.

(** Both signs of a digit, and no digit; [HA] finds the entry of the table. *)
Ltac digit_cases d Hd HA :=
  let j := fresh "j" in let q := fresh "q" in
  let Hp := fresh in let Hn := fresh in let E := fresh in
  let Hj := fresh in let Eq := fresh in let Hq := fresh in
  destruct (Z.ltb_spec 0 d) as [Hp|Hp];
  [destruct (odd_index d Hp Hd) as (j & -> & Hj & E); destruct (HA j Hj) as (q & Eq & Hq);
   ge_step; rewrite Eq; cbn [mbind option_bind]; ge_step; eexists; split; [done|];
   by rewrite E|];
  destruct (Z.ltb_spec d 0) as [Hn|Hn];
  [destruct (odd_index (- d) ltac:(lia) (good_digit_opp d Hd)) as (j & -> & Hj & E);
   destruct (HA j Hj) as (q & Eq & Hq);
   ge_step; rewrite Eq; cbn [mbind option_bind]; ge_step; eexists; split; [done|];
   by rewrite <- (Z.opp_involutive d), ed_mul_opp, E|];
  replace d with 0 by lia; eexists; split; [done|]; cbn [ed_mul]; by rewrite ed_add_0_r.

Lemma digit_add_adds P Ai : odd_multiples P Ai → adds P (digit_add Ai).
Proof. intros HA d R t Hd Ht. unfold digit_add. digit_cases d Hd HA. Qed.

Lemma digit_madd_adds : adds B25519 (digit_madd ge_Bi).
Proof.
  assert (∀ j, (j < 8)%nat → ∃ q, ge_Bi !! j = Some q ∧
    precomp_is (ed_mul (2 * Z.of_nat j + 1) B25519) q) as HA.
  { intros j Hj. destruct (lookup_lt_is_Some_2 ge_Bi j) as [q Eq]; [exact Hj|].
    exists q. split; [done|]. by apply ge_Bi_is. }
  intros d R t Hd Ht. unfold digit_madd. digit_cases d Hd HA.
Qed.

(** The table of [ge_dsm_precomp]. *)
Lemma dsm_next_ok P n s2 c :
  on_curve P → p3_is (ed_mul 2 P) s2 → cached_is (ed_mul n P) c →
  ∃ c', dsm_next s2 c = Some c' ∧ cached_is (ed_mul (n + 2) P) c'.
Proof.
  intros HP Hs Hc. unfold dsm_next. ge_run. eexists. split; [done|].
  rewrite Z.add_comm, ed_mul_add by exact HP. assumption.
Qed.

Lemma ge_dsm_precomp_ok P s :
  p3_is P s → ∃ Ai, ge_dsm_precomp s = Some Ai ∧ odd_multiples P Ai.
Proof.
  intros Hs. pose proof (proj1 Hs) as HP. unfold ge_dsm_precomp. do 3 ge_step.
  rewrite <- (ed_mul_1 P) in H at 1. change (ed_add P P) with (ed_mul 2 P) in *.
  repeat match goal with
  | Hc : cached_is (ed_mul ?n P) ?c |- context [dsm_next ?s2 ?c] =>
      destruct (dsm_next_ok P n s2 c HP ltac:(assumption) Hc) as (? & -> & ?);
      cbn [mbind option_bind]
  end.
  eexists. split; [done|]. intros j Hj.
  do 8 (destruct j as [|j]; [eexists; split; [reflexivity|];
    match goal with H : cached_is _ ?c |- cached_is _ ?c => exact H end|]). lia.
Qed.

(** The value of the digits below [n], with the digits above it 0. *)
Lemma top_digit_eval as_ bs n :
  (top_digit as_ bs n ≤ n)%nat ∧
  eval wt1 (top_digit as_ bs n) as_ = eval wt1 n as_ ∧
  eval wt1 (top_digit as_ bs n) bs = eval wt1 n bs.
Proof.
  induction n as [|n (IH & IHa & IHb)]; [done|]. cbn [top_digit].
  destruct (Z.eqb_spec (as_ !!! n) 0) as [Ea|]; cbn [negb orb]; [|done].
  destruct (Z.eqb_spec (bs !!! n) 0) as [Eb|]; cbn [negb]; [|done].
  split; [lia|]. rewrite IHa, IHb. cbn [eval]. rewrite Ea, Eb. lia.
Qed.

Section loops.
Context (P Q : point) (HP : on_curve P) (HQ : on_curve Q).
Context (addA addB : Z → ge_p1p1 → option ge_p1p1).
Context (HA : adds P addA) (HB : adds Q addB).
Context (as_ bs : list Z).

(** [m P + n Q] *)
Definition comb (m n : Z) : point := ed_add (ed_mul m P) (ed_mul n Q).

Lemma comb_step m n a b :
  ed_add (ed_add (ed_add (comb m n) (comb m n)) (ed_mul a P)) (ed_mul b Q) =
  comb (2 * m + a) (2 * n + b).
Proof.
  unfold comb. rewrite (ed_add_swap (ed_mul m P)) by auto with edwards.
  rewrite !ed_double by done.
  rewrite <- (ed_add_assoc (ed_mul (2 * m) P)) by auto with edwards.
  rewrite (ed_add_comm (ed_mul (2 * n) Q) (ed_mul a P)).
  rewrite (ed_add_assoc (ed_mul (2 * m) P)) by auto with edwards.
  rewrite <- ed_mul_add, <- ed_add_assoc, <- ed_mul_add by auto with edwards. done.
Qed.

(** One iteration, up to the conversion. *)
Lemma double_step m n a b r :
  good_digit a → good_digit b → p2_is (comb m n) r →
  ∃ t0 t1 t2, ge_p2_dbl r = Some t0 ∧ addA a t0 = Some t1 ∧ addB b t1 = Some t2 ∧
    p1p1_is (comb (2 * m + a) (2 * n + b)) t2.
Proof.
  intros Ha Hb Hr. destruct (ge_p2_dbl_ok _ _ Hr) as (t0 & E0 & H0).
  destruct (HA a _ t0 Ha H0) as (t1 & E1 & H1).
  destruct (HB b _ t1 Hb H1) as (t2 & E2 & H2). exists t0, t1, t2.
  rewrite comb_step in H2. done.
Qed.

(** The value after [k] more digits. *)
Lemma shift_digit m k r :
  m * 2 ^ Z.of_nat (S k) + eval wt1 (S k) r =
  (2 * m + r !!! k) * 2 ^ Z.of_nat k + eval wt1 k r.
Proof. rewrite Nat2Z.inj_succ, Z.pow_succ_r by lia. cbn [eval]. unfold wt1. ring. Qed.

Lemma double_loop_ok k m n r :
  (∀ i, (i < k)%nat → good_digit (as_ !!! i) ∧ good_digit (bs !!! i)) →
  p2_is (comb m n) r →
  ∃ r', double_loop addA addB as_ bs k r = Some r' ∧
    p2_is (comb (m * 2 ^ Z.of_nat k + eval wt1 k as_) (n * 2 ^ Z.of_nat k + eval wt1 k bs)) r'.
Proof.
  revert m n r. induction k as [|k IH]; intros m n r Hg Hr.
  { exists r. split; [done|]. cbn. by rewrite !Z.mul_1_r, !Z.add_0_r. }
  cbn [double_loop]. destruct (Hg k ltac:(lia)) as [Ga Gb].
  destruct (double_step m n _ _ r Ga Gb Hr) as (t0 & t1 & t2 & -> & E1 & E2 & H2).
  cbn [mbind option_bind]. rewrite E1. cbn [mbind option_bind]. rewrite E2.
  cbn [mbind option_bind]. ge_step. rewrite !shift_digit.
  apply IH; [|assumption]. intros i Hi. apply Hg. lia.
Qed.

Lemma double_loop_p3_ok k m n r :
  (∀ i, (i < S k)%nat → good_digit (as_ !!! i) ∧ good_digit (bs !!! i)) →
  p2_is (comb m n) r →
  ∃ r', double_loop_p3 addA addB as_ bs (S k) r = Some (Some r') ∧
    p3_is (comb (m * 2 ^ Z.of_nat (S k) + eval wt1 (S k) as_)
                (n * 2 ^ Z.of_nat (S k) + eval wt1 (S k) bs)) r'.
Proof.
  revert m n r. induction k as [|k IH]; intros m n r Hg Hr;
    match goal with |- context [double_loop_p3 _ _ _ _ (S ?k) _] => 
      destruct (Hg k ltac:(lia)) as [Ga Gb];
      destruct (double_step m n _ _ r Ga Gb Hr) as (t0 & t1 & t2 & E0 & E1 & E2 & H2) end;
    cbn [double_loop_p3]; rewrite E0; cbn [mbind option_bind]; rewrite E1;
    cbn [mbind option_bind]; rewrite E2; cbn [mbind option_bind]; rewrite !shift_digit.
  - destruct (ge_p1p1_to_p3_ok _ _ H2) as (r3 & -> & H3). exists r3. split; [done|].
    cbn [eval]. by rewrite !Z.mul_1_r, !Z.add_0_r.
  - destruct (ge_p1p1_to_p2_ok _ _ H2) as (r2 & -> & H3). cbn [mbind option_bind].
    destruct (IH _ _ _ ltac:(intros i Hi; apply Hg; lia) H3) as (r' & E & H'). exists r'.
    split; [exact E|]. rewrite !shift_digit in H'. exact H'.
Qed.

Lemma comb_0_is : p2_is (comb 0 0) ge_p2_0.
Proof. unfold comb. cbn [ed_mul]. rewrite ed_add_0_l. exact ge_p2_0_is. Qed.
End loops.

(** The loops on the digits of two scalars. *)
Section double_scalars.
Context (P Q : point) (HP : on_curve P) (HQ : on_curve Q).
Context (addA addB : Z → ge_p1p1 → option ge_p1p1).
Context (HA : adds P addA) (HB : adds Q addB).

(** Any 32 bytes have digits, which represent some number. *)
Lemma double_scalars_any a b va vb :
  slide_inv va 256 (slide a) → slide_inv vb 256 (slide b) →
  ∃ r, double_loop addA addB (slide a) (slide b) (top_digit (slide a) (slide b) 256) ge_p2_0 =
    Some r ∧ p2_is (comb P Q va vb) r.
Proof.
  intros Ia Ib. destruct (top_digit_eval (slide a) (slide b) 256) as (Hn & Ea & Eb).
  destruct (double_loop_ok P Q HP HQ addA addB HA HB (slide a) (slide b)
    (top_digit (slide a) (slide b) 256) 0 0 ge_p2_0) as (r & E & Hr).
  { intros i Hi. split; eapply slide_good; [exact Ia|lia|exact Ib|lia]. }
  { by apply comb_0_is. }
  exists r. split; [exact E|].
  by rewrite !Z.mul_0_l, !Z.add_0_l, Ea, Eb, (sl_val _ _ _ Ia), (sl_val _ _ _ Ib) in Hr.
Qed.

Lemma top_digit_zero as_ bs n :
  (∀ i, (i < n)%nat → as_ !!! i = 0 ∧ bs !!! i = 0) → top_digit as_ bs n = O.
Proof.
  induction n as [|n IH]; intros Hz; [done|]. cbn [top_digit].
  destruct (Hz n ltac:(lia)) as [-> ->]. cbn. apply IH. intros i Hi. apply Hz. lia.
Qed.

(** There is no digit at all exactly when both numbers are 0. *)
Lemma top_digit_any a b va vb :
  slide_inv va 256 (slide a) → slide_inv vb 256 (slide b) →
  top_digit (slide a) (slide b) 256 = O ↔ va = 0 ∧ vb = 0.
Proof.
  intros [_ _ La Va] [_ _ Lb Vb]. rewrite <- Va, <- Vb. split.
  - intros E. destruct (top_digit_eval (slide a) (slide b) 256) as (_ & Ea & Eb).
    rewrite E in Ea, Eb. done.
  - intros [Ea Eb]. apply top_digit_zero. intros i Hi.
    split; (eapply isolated_zero; [|eassumption..|eassumption]); lia.
Qed.

Lemma double_scalars_p3_any a b va vb :
  slide_inv va 256 (slide a) → slide_inv vb 256 (slide b) → ¬ (va = 0 ∧ vb = 0) →
  ∃ r, double_loop_p3 addA addB (slide a) (slide b) (top_digit (slide a) (slide b) 256) ge_p2_0 =
    Some (Some r) ∧ p3_is (comb P Q va vb) r.
Proof.
  intros Ia Ib Hnz. rewrite <- (top_digit_any a b va vb Ia Ib) in Hnz.
  destruct (top_digit_eval (slide a) (slide b) 256) as (Hn & Ea & Eb).
  destruct (top_digit (slide a) (slide b) 256) as [|k] eqn:Ek; [done|].
  destruct (double_loop_p3_ok P Q HP HQ addA addB HA HB (slide a) (slide b) k 0 0 ge_p2_0) as (r & E & Hr).
  { intros i Hi. split; eapply slide_good; [exact Ia|lia|exact Ib|lia]. }
  { by apply comb_0_is. }
  exists r. split; [exact E|].
  by rewrite !Z.mul_0_l, !Z.add_0_l, Ea, Eb, (sl_val _ _ _ Ia), (sl_val _ _ _ Ib) in Hr.
Qed.

Context (a b : list Z) (Ha : scalar255 a) (Hb : scalar255 b).

Definition sum_point : point := ed_add (ed_mul (le_combine a) P) (ed_mul (le_combine b) Q).

Lemma double_scalars_ok :
  ∃ r, double_loop addA addB (slide a) (slide b) (top_digit (slide a) (slide b) 256) ge_p2_0 =
    Some r ∧ p2_is sum_point r.
Proof.
  destruct Ha as (? & ? & ?), Hb as (? & ? & ?).
  apply double_scalars_any; by apply slide_ok.
Qed.

(** There is no digit at all exactly when both scalars are 0. *)
Lemma top_digit_0 :
  top_digit (slide a) (slide b) 256 = O ↔ le_combine a = 0 ∧ le_combine b = 0.
Proof. destruct Ha as (? & ? & ?), Hb as (? & ? & ?). apply top_digit_any; by apply slide_ok. Qed.

Lemma double_scalars_p3_ok :
  ¬ (le_combine a = 0 ∧ le_combine b = 0) →
  ∃ r, double_loop_p3 addA addB (slide a) (slide b) (top_digit (slide a) (slide b) 256) ge_p2_0 =
    Some (Some r) ∧ p3_is sum_point r.
Proof.
  destruct Ha as (? & ? & ?), Hb as (? & ? & ?). apply double_scalars_p3_any; by apply slide_ok.
Qed.

Lemma double_scalars_p3_zero :
  le_combine a = 0 → le_combine b = 0 →
  double_loop_p3 addA addB (slide a) (slide b) (top_digit (slide a) (slide b) 256) ge_p2_0 =
    Some None.
Proof. intros Ea Eb. by rewrite (proj2 top_digit_0 (conj Ea Eb)). Qed.
End double_scalars.

(** ** The five functions *)

Lemma ge_double_scalarmult_base_vartime_ok P A a b :
  p3_is P A → scalar255 a → scalar255 b →
  ∃ r, ge_double_scalarmult_base_vartime a A b = Some r ∧ p2_is (sum_point P B25519 a b) r.
Proof.
  intros HA Ha Hb. unfold ge_double_scalarmult_base_vartime.
  destruct (ge_dsm_precomp_ok P A HA) as (Ai & -> & HAi). cbn [mbind option_bind].
  apply double_scalars_ok; auto using digit_add_adds, digit_madd_adds, B25519_on_curve.
  exact (proj1 HA).
Qed.

Lemma scalar_range a : length a = 32%nat → bytes a → 0 ≤ le_combine a < 2 ^ 256.
Proof. intros La Ba. pose proof (le_combine_bound a Ba) as H. by rewrite La, pow256_pow2 in H. Qed.

(** Whatever the bytes of the scalars *)
Lemma ge_double_scalarmult_base_vartime_any P A a b :
  p3_is P A → length a = 32%nat → bytes a → length b = 32%nat → bytes b →
  ∃ va vb r, ge_double_scalarmult_base_vartime a A b = Some r ∧ p2_is (comb P B25519 va vb) r ∧
    recodes (le_combine a) va ∧ recodes (le_combine b) vb.
Proof.
  intros HA La Ba Lb Bb. unfold ge_double_scalarmult_base_vartime.
  destruct (slide_any a La Ba) as (va & Va & Ia). destruct (slide_any b Lb Bb) as (vb & Vb & Ib).
  destruct (ge_dsm_precomp_ok P A HA) as (Ai & -> & HAi). cbn [mbind option_bind].
  exists va, vb. destruct (double_scalars_any P B25519 (proj1 HA) B25519_on_curve
    (digit_add Ai) (digit_madd ge_Bi)) with (a := a) (b := b) (va := va) (vb := vb)
    as (r & E & Hr); auto using digit_add_adds, digit_madd_adds, B25519_on_curve.
  exists r. done.
Qed.

Lemma ge_double_scalarmult_base_vartime_p3_ok P A a b :
  p3_is P A → scalar255 a → scalar255 b → ¬ (le_combine a = 0 ∧ le_combine b = 0) →
  ∃ r, ge_double_scalarmult_base_vartime_p3 a A b = Some (Some r) ∧
    p3_is (sum_point P B25519 a b) r.
Proof.
  intros HA Ha Hb Hnz. unfold ge_double_scalarmult_base_vartime_p3.
  destruct (ge_dsm_precomp_ok P A HA) as (Ai & -> & HAi). cbn [mbind option_bind].
  apply double_scalars_p3_ok; auto using digit_add_adds, digit_madd_adds, B25519_on_curve.
  exact (proj1 HA).
Qed.

Lemma ge_double_scalarmult_base_vartime_p3_zero P A a b :
  p3_is P A → scalar255 a → scalar255 b → le_combine a = 0 → le_combine b = 0 →
  ge_double_scalarmult_base_vartime_p3 a A b = Some None.
Proof.
  intros HA Ha Hb Ea Eb. unfold ge_double_scalarmult_base_vartime_p3.
  destruct (ge_dsm_precomp_ok P A HA) as (Ai & -> & HAi). cbn [mbind option_bind].
  by apply double_scalars_p3_zero.
Qed.

Lemma ge_double_scalarmult_precomp_vartime2_ok P Q Ai Bi a b :
  on_curve P → on_curve Q → odd_multiples P Ai → odd_multiples Q Bi →
  scalar255 a → scalar255 b →
  ∃ r, ge_double_scalarmult_precomp_vartime2 a Ai b Bi = Some r ∧ p2_is (sum_point P Q a b) r.
Proof. intros. apply double_scalars_ok; auto using digit_add_adds. Qed.

Lemma ge_double_scalarmult_precomp_vartime2_p3_ok P Q Ai Bi a b :
  on_curve P → on_curve Q → odd_multiples P Ai → odd_multiples Q Bi →
  scalar255 a → scalar255 b → ¬ (le_combine a = 0 ∧ le_combine b = 0) →
  ∃ r, ge_double_scalarmult_precomp_vartime2_p3 a Ai b Bi = Some (Some r) ∧
    p3_is (sum_point P Q a b) r.
Proof. intros. apply double_scalars_p3_ok; auto using digit_add_adds. Qed.

Lemma ge_double_scalarmult_precomp_vartime2_p3_zero Ai Bi a b :
  scalar255 a → scalar255 b → le_combine a = 0 → le_combine b = 0 →
  ge_double_scalarmult_precomp_vartime2_p3 a Ai b Bi = Some None.
Proof. intros. by apply double_scalars_p3_zero. Qed.

Lemma ge_double_scalarmult_precomp_vartime_ok P A Q Bi a b :
  p3_is P A → on_curve Q → odd_multiples Q Bi → scalar255 a → scalar255 b →
  ∃ r, ge_double_scalarmult_precomp_vartime a A b Bi = Some r ∧ p2_is (sum_point P Q a b) r.
Proof.
  intros HA HQ HBi Ha Hb. unfold ge_double_scalarmult_precomp_vartime.
  destruct (ge_dsm_precomp_ok P A HA) as (Ai & -> & HAi). cbn [mbind option_bind].
  apply ge_double_scalarmult_precomp_vartime2_ok; auto. exact (proj1 HA).
Qed.

(** * The properties of the double multiplications *)

(** [ge_double_scalarmult_base_vartime] computes [a A + b B] for every point
    [A] of the curve and all scalars below [2^255], [B] being the base point. *)
Theorem ge_double_scalarmult_base_spec P A a b :
  p3_is P A → scalar255 a → scalar255 b →
  ∃ r, ge_double_scalarmult_base_vartime a A b = Some r ∧
    p2_is (ed_add (ed_mul (le_combine a) P) (ed_mul (le_combine b) B25519)) r.
Proof. apply ge_double_scalarmult_base_vartime_ok. Qed.

(** The multiplications with precomputed odd multiples compute [a P + b Q]:
    [ge_dsm_precomp] builds the table of [P, 3 P, .., 15 P], and both
    [ge_double_scalarmult_precomp_vartime] and [.._vartime2] return a
    representation of the sum, for all scalars below [2^255]. *)
Theorem ge_double_scalarmult_precomp_spec P A Q B a b :
  p3_is P A → p3_is Q B → scalar255 a → scalar255 b →
  ∃ Ai Bi r r2, ge_dsm_precomp A = Some Ai ∧ ge_dsm_precomp B = Some Bi ∧
    ge_double_scalarmult_precomp_vartime a A b Bi = Some r ∧
    ge_double_scalarmult_precomp_vartime2 a Ai b Bi = Some r2 ∧
    p2_is (ed_add (ed_mul (le_combine a) P) (ed_mul (le_combine b) Q)) r ∧
    p2_is (ed_add (ed_mul (le_combine a) P) (ed_mul (le_combine b) Q)) r2.
Proof.
  intros HA HB Ha Hb.
  destruct (ge_dsm_precomp_ok P A HA) as (Ai & EA & HAi).
  destruct (ge_dsm_precomp_ok Q B HB) as (Bi & EB & HBi).
  destruct (ge_double_scalarmult_precomp_vartime_ok P A Q Bi a b HA (proj1 HB) HBi Ha Hb)
    as (r & Er & Hr).
  destruct (ge_double_scalarmult_precomp_vartime2_ok P Q Ai Bi a b (proj1 HA) (proj1 HB)
    HAi HBi Ha Hb) as (r2 & Er2 & Hr2).
  exists Ai, Bi, r, r2. repeat (split; [assumption|]). exact Hr2.
Qed.

(** The variants that return an extended point write their result exactly when
    one of the scalars, which are any 32 bytes, is not 0.  When both scalars are 0
    the loop body never runs, and the output argument [r3] is left unwritten
    instead of being set to the neutral element.  Otherwise it is [a P + b Q] for scalars below
    [2^255]; from [2^255] on a scalar may lose a carry, and stands for itself
    minus [2^256]. *)
Theorem ge_double_scalarmult_p3_spec P A Q Ai Bi a b :
  p3_is P A → on_curve Q → odd_multiples P Ai → odd_multiples Q Bi →
  length a = 32%nat → bytes a → length b = 32%nat → bytes b →
  if (le_combine a =? 0) && (le_combine b =? 0) then
    ge_double_scalarmult_base_vartime_p3 a A b = Some None ∧
    ge_double_scalarmult_precomp_vartime2_p3 a Ai b Bi = Some None
  else ∃ va vb, recodes (le_combine a) va ∧ recodes (le_combine b) vb ∧
    (∃ r, ge_double_scalarmult_base_vartime_p3 a A b = Some (Some r) ∧
      p3_is (ed_add (ed_mul va P) (ed_mul vb B25519)) r) ∧
    (∃ r, ge_double_scalarmult_precomp_vartime2_p3 a Ai b Bi = Some (Some r) ∧
      p3_is (ed_add (ed_mul va P) (ed_mul vb Q)) r).
Proof.
  intros HA HQ HAi HBi La Ba Lb Bb. pose proof (proj1 HA) as HP.
  destruct (slide_any a La Ba) as (va & Va & Ia). destruct (slide_any b Lb Bb) as (vb & Vb & Ib).
  pose proof (recodes_nonzero _ _ (scalar_range a La Ba) Va) as Na.
  pose proof (recodes_nonzero _ _ (scalar_range b Lb Bb) Vb) as Nb.
  unfold ge_double_scalarmult_base_vartime_p3, ge_double_scalarmult_precomp_vartime2_p3.
  destruct (ge_dsm_precomp_ok P A HA) as (A' & -> & HA'). cbn [mbind option_bind].
  destruct (Z.eqb_spec (le_combine a) 0) as [Ea|Ea], (Z.eqb_spec (le_combine b) 0) as [Eb|Eb]; cbn [andb].
  1: { rewrite (proj2 (top_digit_any a b va vb Ia Ib)) by tauto. done. }
  all: exists va, vb; split; [done|]; split; [done|]; split;
    (apply double_scalars_p3_any; auto using digit_add_adds, digit_madd_adds, B25519_on_curve; tauto).
Qed.

(** ** Witnesses *)

Lemma scalar_top_ok : scalar255 scalar_top.
Proof. split; [reflexivity|]. split; [apply scalar_top_bytes|vm_compute; reflexivity]. Qed.

Lemma ge_double_scalarmult_base_witness :
  ∃ r, ge_double_scalarmult_base_vartime scalar_top ge_p3_H scalar_top = Some r ∧
    p2_is (ed_add (ed_mul (le_combine scalar_top) H25519)
      (ed_mul (le_combine scalar_top) B25519)) r.
Proof.
  exact (ge_double_scalarmult_base_spec _ _ _ _ ge_p3_H_is scalar_top_ok scalar_top_ok).
Defined.

Lemma ge_double_scalarmult_precomp_witness :
  ∃ Ai Bi r r2, ge_dsm_precomp ge_p3_H = Some Ai ∧ ge_dsm_precomp p3_order4 = Some Bi ∧
    ge_double_scalarmult_precomp_vartime scalar_top ge_p3_H scalar_top Bi = Some r ∧
    ge_double_scalarmult_precomp_vartime2 scalar_top Ai scalar_top Bi = Some r2 ∧
    p2_is (ed_add (ed_mul (le_combine scalar_top) H25519)
      (ed_mul (le_combine scalar_top) order4)) r ∧
    p2_is (ed_add (ed_mul (le_combine scalar_top) H25519)
      (ed_mul (le_combine scalar_top) order4)) r2.
Proof.
  exact (ge_double_scalarmult_precomp_spec _ _ _ _ _ _ ge_p3_H_is p3_order4_is
    scalar_top_ok scalar_top_ok).
Defined.


Lemma byte_replicate_ok : bytes (replicate 32 0) ∧ bytes (replicate 32 255).
Proof. split; apply Forall_replicate; lia. Qed.

(** With the scalars 0, and with [2^256 - 1], which stands for -1 *)
Lemma ge_double_scalarmult_p3_witness :
  ∃ Ai, ge_dsm_precomp ge_p3_H = Some Ai ∧
    (ge_double_scalarmult_base_vartime_p3 (replicate 32 0) ge_p3_H (replicate 32 0) = Some None ∧
     ge_double_scalarmult_precomp_vartime2_p3 (replicate 32 0) Ai (replicate 32 0) Ai = Some None) ∧
    eval wt1 256 (slide (replicate 32 255)) = -1 ∧
    ∃ va vb r, recodes (le_combine (replicate 32 255)) va ∧ recodes 0 vb ∧
      ge_double_scalarmult_base_vartime_p3 (replicate 32 255) ge_p3_H (replicate 32 0) = Some (Some r) ∧
      p3_is (ed_add (ed_mul va H25519) (ed_mul vb B25519)) r.
Proof.
  destruct (ge_dsm_precomp_ok _ _ ge_p3_H_is) as (Ai & E & HAi). exists Ai.
  split; [exact E|]. destruct byte_replicate_ok as [B0 B1]. split; [|split; [vm_compute; reflexivity|]].
  - exact (ge_double_scalarmult_p3_spec H25519 ge_p3_H H25519 Ai Ai (replicate 32 0) (replicate 32 0)
      ge_p3_H_is (proj1 ge_p3_H_is) HAi HAi eq_refl B0 eq_refl B0).
  - destruct (ge_double_scalarmult_p3_spec H25519 ge_p3_H H25519 Ai Ai (replicate 32 255) (replicate 32 0)
      ge_p3_H_is (proj1 ge_p3_H_is) HAi HAi eq_refl B1 eq_refl B0) as (va & vb & Va & Vb & (r & Er & Hr) & _).
    exists va, vb, r. split; [exact Va|]. split; [exact Vb|]. split; [exact Er|exact Hr].
Defined.
