(* ===== verification/WindowSpec.v ===== *)
(** * Fixed windows: [select], [ge_scalarmult], [ge_scalarmult_base]

    The constant-time lookups return the multiple that the digit asks for, the
    recodings in radix 16 represent the scalar, and the loops compute
    [a A] and [a B] for every scalar below [2 ^ 255]. *)

From Stdlib Require Import Zmod.Zmod Field.
From S2P Require Export ScalarMultSpec.

#[local] Open Scope Z_scope.

Add Field Fp_field : (Zmod.field_theory p25519 prime_25519).

(** ** [equal], [negative] and the absolute value of a digit *)

Lemma equal_ok b c : 0 ≤ b < 256 → 0 ≤ c < 256 → equal b c = if b =? c then 1 else 0.
Proof.
  intros Hb Hc. unfold equal, uwrap. rewrite !(Z.mod_small _ (2 ^ 8)) by lia.
  rewrite Z.shiftr_div_pow2 by lia.
  assert (0 ≤ Z.lxor b c < 256) as Hx.
  { split; [apply Z.lxor_nonneg; lia|]. destruct (decide (Z.lxor b c = 0)) as [->|]; [lia|].
    pose proof (proj2 (Z.lxor_nonneg b c) ltac:(lia)).
    apply (Z.log2_lt_pow2 _ 8); [lia|]. pose proof (Z.log2_lxor b c ltac:(lia) ltac:(lia)).
    pose proof (Z.log2_le_mono b 255 ltac:(lia)). pose proof (Z.log2_le_mono c 255 ltac:(lia)).
    change (Z.log2 255) with 7 in *. lia. }
  destruct (Z.eqb_spec b c) as [->|Hne]; [by rewrite Z.lxor_nilpotent|].
  assert (Z.lxor b c ≠ 0) by (rewrite Z.lxor_eq_0_iff; done).
  rewrite Z.mod_small by lia. apply Z.div_small. lia.
Qed.

Lemma negative_ok b : - 2 ^ 63 ≤ b < 2 ^ 63 → negative b = if b <? 0 then 1 else 0.
Proof.
  intros Hb. unfold negative, uwrap. rewrite Z.shiftr_div_pow2 by lia.
  destruct (Z.ltb_spec b 0).
  - replace (b mod 2 ^ 64) with (b + 2 ^ 64) by zlia. zlia.
  - rewrite Z.mod_small by lia. apply Z.div_small. lia.
Qed.

Lemma babs_ok b : -128 ≤ b < 128 → babs b = Z.abs b.
Proof.
  intros Hb. unfold babs, uwrap. rewrite negative_ok by lia. destruct (Z.ltb_spec b 0).
  - change (- (1)) with (-1). rewrite Z.land_m1_l, Z.mod_small; lia.
  - change (- 0) with 0. rewrite Z.land_0_l, Z.mod_small; lia.
Qed.

(** ** Conditional moves *)

Lemma fe_is_fits c x f : fe_is c x f → c ≤ 330 → Forall (λ l, fits 32 l = true) f.
Proof.
  intros [Hb _]%fe_is_val Hc. apply (fe_bounded_mono _ 330) in Hb; [|done].
  apply Forall_lookup. intros i l Hl. pose proof (lookup_lt_Some _ _ _ Hl) as Hi.
  rewrite (fe_bounded_length _ _ Hb) in Hi. pose proof (fe_bounded_lookup _ _ i Hb Hi) as HB.
  rewrite (list_lookup_total_correct _ _ _ Hl) in HB.
  apply (fits_abs 32 (limb_max 330 0)); [done|]. etrans; [exact HB|].
  unfold limb_max. destruct (Nat.even i); cbn [Nat.even]; zdecide.
Qed.

Lemma fe_is_length c x f : fe_is c x f → length f = 10%nat.
Proof. intros [Hb _]%fe_is_val. by eapply fe_bounded_length. Qed.

Lemma fe_is_cmov c e x y f g b :
  fe_is c x f → fe_is e y g → c ≤ 330 → e ≤ 330 → b = 0 ∨ b = 1 →
  fe_cmov f g b = Some (if b =? 1 then g else f).
Proof.
  intros Hf Hg Hc He Hb. rewrite fe_cmov_ok; try by eapply fe_is_fits.
  - destruct Hb as [-> | ->]; done.
  - by rewrite (fe_is_length _ _ _ Hf), (fe_is_length _ _ _ Hg).
  - lia.
Qed.

Lemma ge_precomp_cmov_ok P Q t u b :
  precomp_is P t → precomp_is Q u → b = 0 ∨ b = 1 →
  ge_precomp_cmov t u b = Some (if b =? 1 then u else t).
Proof.
  intros (_ & H1 & H2 & H3) (_ & H1' & H2' & H3') Hb. unfold ge_precomp_cmov.
  rewrite (fe_is_cmov _ _ _ _ _ _ b H1 H1') by (done || lia). cbn [mbind option_bind].
  rewrite (fe_is_cmov _ _ _ _ _ _ b H2 H2') by (done || lia). cbn [mbind option_bind].
  rewrite (fe_is_cmov _ _ _ _ _ _ b H3 H3') by (done || lia). cbn [mbind option_bind].
  destruct Hb as [-> | ->], t, u; done.
Qed.

Lemma ge_cached_cmov_ok P Q t u b :
  cached_is P t → cached_is Q u → b = 0 ∨ b = 1 →
  ge_cached_cmov t u b = Some (if b =? 1 then u else t).
Proof.
  intros (_ & z & _ & H1 & H2 & H3 & H4) (_ & w & _ & H1' & H2' & H3' & H4') Hb.
  unfold ge_cached_cmov.
  rewrite (fe_is_cmov _ _ _ _ _ _ b H1 H1') by (done || lia). cbn [mbind option_bind].
  rewrite (fe_is_cmov _ _ _ _ _ _ b H2 H2') by (done || lia). cbn [mbind option_bind].
  rewrite (fe_is_cmov _ _ _ _ _ _ b H3 H3') by (done || lia). cbn [mbind option_bind].
  rewrite (fe_is_cmov _ _ _ _ _ _ b H4 H4') by (done || lia). cbn [mbind option_bind].
  destruct Hb as [-> | ->], t, u; done.
Qed.

(** ** Table scans

    [rel P t]: [t] represents [P]; [cmov] is a conditional move on
    representations. *)
Section scan.
Context {A : Type} (rel : point → A → Prop) (cmov : A → A → Z → option A).
Context (Hcmov : ∀ P Q t u b, rel P t → rel Q u → b = 0 ∨ b = 1 →
  cmov t u b = Some (if b =? 1 then u else t)).

(** The scan of a table of the multiples [k P, (k + 1) P, ..] picks [b P], or
    keeps the accumulator. *)
Lemma scan_table_ok P tbl k b R t :
  (∀ j u, tbl !! j = Some u → rel (ed_mul (k + Z.of_nat j) P) u) → rel R t →
  0 ≤ k → k + Z.of_nat (length tbl) ≤ 256 → 0 ≤ b < 256 →
  ∃ t', scan_table cmov tbl k b t = Some t' ∧
    rel (if (k <=? b) && (b <? k + Z.of_nat (length tbl)) then ed_mul b P else R) t'.
Proof.
  revert k R t. induction tbl as [|u tbl IH]; intros k R t Ht HR Hk Hl Hb.
  { exists t. split; [done|]. cbn [length].
    destruct (Z.leb_spec k b), (Z.ltb_spec b (k + Z.of_nat 0)); cbn [andb]; (done || lia). }
  cbn [scan_table]. cbn [length] in Hl.
  pose proof (Ht O u eq_refl) as Hu. rewrite Z.add_0_r in Hu.
  assert (equal b k = 0 ∨ equal b k = 1) as He
    by (rewrite equal_ok by lia; destruct (b =? k); auto).
  rewrite (Hcmov _ _ _ _ _ HR Hu He). cbn [mbind option_bind].
  assert (rel (if b =? k then ed_mul k P else R) (if equal b k =? 1 then u else t)) as Hr
    by (rewrite equal_ok by lia; destruct (b =? k); done).
  destruct (IH (k + 1) _ _ ltac:(intros j v Hv;
      replace (k + 1 + Z.of_nat j) with (k + Z.of_nat (S j)) by lia; by apply Ht)
    Hr ltac:(lia) ltac:(lia) Hb) as (t' & -> & H').
  exists t'. split; [done|]. cbn [length].
  destruct (Z.eqb_spec b k) as [E|];
    destruct (Z.leb_spec (k + 1) b), (Z.ltb_spec b (k + 1 + Z.of_nat (length tbl))),
      (Z.leb_spec k b), (Z.ltb_spec b (k + Z.of_nat (S (length tbl)))); cbn [andb] in *;
    first [lia|exact H'|rewrite E; exact H'].
Qed.
End scan.

(** The scan of the eight multiples of [P] for a digit. *)
Lemma scan_digit_ok {A} (rel : point → A → Prop) cmov P tbl b t :
  (∀ P Q t u b, rel P t → rel Q u → b = 0 ∨ b = 1 →
    cmov t u b = Some (if b =? 1 then u else t)) →
  length tbl = 8%nat →
  (∀ j u, tbl !! j = Some u → rel (ed_mul (1 + Z.of_nat j) P) u) → rel ed_zero t →
  -8 ≤ b ≤ 8 →
  ∃ t', scan_table cmov tbl 1 (babs b) t = Some t' ∧ rel (ed_mul (Z.abs b) P) t'.
Proof.
  intros Hcmov HL Ht H0 Hb. rewrite babs_ok by lia.
  destruct (scan_table_ok rel cmov Hcmov P tbl 1 (Z.abs b) ed_zero t Ht H0) as (t' & E & H');
    [lia..|]. exists t'. split; [exact E|]. rewrite HL in H'.
  destruct (Z.leb_spec 1 (Z.abs b)), (Z.ltb_spec (Z.abs b) (1 + Z.of_nat 8));
    cbn [andb] in H'; first [lia|exact H'|idtac].
  replace (Z.abs b) with 0 by lia. exact H'.
Qed.

(** A digit with its sign. *)
Lemma ed_mul_sign b (P : point) :
  ed_mul b P = if b <? 0 then ed_opp (ed_mul (Z.abs b) P) else ed_mul (Z.abs b) P.
Proof.
  destruct (Z.ltb_spec b 0).
  - rewrite <- ed_mul_opp. f_equal. lia.
  - f_equal. lia.
Qed.

Lemma precomp_is_opp P t m2 :
  precomp_is P t → fe_is 101 (Zmod.opp (Zmod.mul (Zmod.add d25519 d25519) (Zmod.mul P.1 P.2))) m2 →
  precomp_is (ed_opp P)
    {| yplusx := fe_copy (yminusx t); yminusx := fe_copy (yplusx t); xy2d := m2 |}.
Proof.
  intros (HP & H1 & H2 & _) Hm. split; [by apply on_curve_opp|]. unfold fe_copy, ed_opp.
  split_and!; fe_result; ring.
Qed.

Lemma cached_is_opp P t z m2 :
  on_curve P → z ≠ Zmod.zero → fe_is 202 (Zmod.mul (Zmod.add P.2 P.1) z) (YplusX t) →
  fe_is 202 (Zmod.mul (Zmod.sub P.2 P.1) z) (YminusX t) → fe_is 101 z (c_Z t) →
  fe_is 101 (Zmod.opp (Zmod.mul (Zmod.mul (Zmod.add d25519 d25519) (Zmod.mul P.1 P.2)) z)) m2 →
  cached_is (ed_opp P)
    {| YplusX := fe_copy (YminusX t); YminusX := fe_copy (YplusX t); c_Z := fe_copy (c_Z t);
       T2d := m2 |}.
Proof.
  intros HP Hz H1 H2 H3 Hm. split; [by apply on_curve_opp|]. exists z. split; [exact Hz|].
  unfold fe_copy, ed_opp. split_and!; fe_result; ring.
Qed.

Lemma select_ok pos b :
  (pos < 32)%nat → -8 ≤ b ≤ 8 →
  ∃ t, select pos b = Some t ∧ precomp_is (ed_mul (b * 256 ^ Z.of_nat pos) B25519) t.
Proof.
  intros Hpos Hb. unfold select.
  destruct (lookup_lt_is_Some_2 ge_base pos) as [row Erow]; [by rewrite length_ge_base|].
  rewrite Erow. cbn [mbind option_bind].
  set (P := ed_mul (256 ^ Z.of_nat pos) B25519).
  pose proof (ge_base_row _ _ Erow) as HL.
  destruct (scan_digit_ok precomp_is ge_precomp_cmov P row b ge_precomp_0) as (t & -> & Ht).
  { apply ge_precomp_cmov_ok. }
  { exact HL. }
  { intros j u Hu. unfold P. rewrite ed_mul_mul, Z.add_comm by apply B25519_on_curve.
    by apply (ge_base_is _ _ row). }
  { apply ge_precomp_0_is. }
  { exact Hb. }
  cbn [mbind option_bind]. pose proof Ht as (_ & _ & _ & H3).
  destruct (fe_is_neg _ _ _ H3) as (m2 & -> & Hm); [lia|]. cbn [mbind option_bind].
  rewrite (ge_precomp_cmov_ok _ _ _ _ _ Ht (precomp_is_opp _ _ _ Ht Hm))
    by (rewrite negative_ok by lia; destruct (b <? 0); auto).
  eexists. split; [done|]. rewrite <- ed_mul_mul by apply B25519_on_curve. fold P.
  rewrite (ed_mul_sign b), negative_ok by lia.
  destruct (b <? 0); [by apply precomp_is_opp|exact Ht].
Qed.

(** A table of the first eight multiples of [P]. *)
Definition eight_is (P : point) (Ai : list ge_cached) : Prop :=
  length Ai = 8%nat ∧ ∀ j u, Ai !! j = Some u → cached_is (ed_mul (1 + Z.of_nat j) P) u.

Lemma select_cached_ok P Ai b :
  eight_is P Ai → -8 ≤ b ≤ 8 →
  ∃ t, select_cached Ai b = Some t ∧ cached_is (ed_mul b P) t.
Proof.
  intros [HL HA] Hb. unfold select_cached.
  destruct (scan_digit_ok cached_is ge_cached_cmov P Ai b ge_cached_0
    ge_cached_cmov_ok HL HA ge_cached_0_is Hb) as (t & -> & Ht).
  cbn [mbind option_bind]. pose proof Ht as (HC & z & Hz & H1 & H2 & H3 & H4).
  destruct (fe_is_neg _ _ _ H4) as (m2 & -> & Hm); [lia|]. cbn [mbind option_bind].
  pose proof (cached_is_opp _ _ z m2 HC Hz H1 H2 H3 Hm) as Hopp.
  rewrite (ge_cached_cmov_ok _ _ _ _ _ Ht Hopp)
    by (rewrite negative_ok by lia; destruct (b <? 0); auto).
  eexists. split; [done|]. rewrite (ed_mul_sign b), negative_ok by lia.
  destruct (b <? 0); [exact Hopp|exact Ht].
Qed.

Lemma multiples_ok P A n k c :
  p3_is P A → cached_is (ed_mul k P) c →
  ∃ cs, multiples n A c = Some cs ∧ length cs = n ∧
    ∀ j u, cs !! j = Some u → cached_is (ed_mul (k + 1 + Z.of_nat j) P) u.
Proof.
  intros HA. pose proof (proj1 HA) as HP. revert k c.
  induction n as [|n IH]; intros k c Hc.
  { exists []. split_and!; [reflexivity..|]. intros j u Hu. discriminate Hu. }
  cbn [multiples].
  do 3 ge_step. rewrite <- (ed_mul_1 P), <- ed_mul_add, (ed_mul_1 P) in H1 by
    (rewrite ?ed_mul_1; exact HP).
  destruct (IH (1 + k) _ H1) as (cs & -> & HL & Hcs). cbn [mbind option_bind].
  eexists. split; [done|]. split; [cbn; lia|]. intros [|j] u Hu; cbn in Hu; simplify_eq.
  - by replace (k + 1 + Z.of_nat 0) with (1 + k) by lia.
  - replace (k + 1 + Z.of_nat (S j)) with (1 + k + 1 + Z.of_nat j) by lia. by apply Hcs.
Qed.

Lemma eight_multiples_ok P A :
  p3_is P A → ∃ Ai, eight_multiples A = Some Ai ∧ eight_is P Ai.
Proof.
  intros HA. unfold eight_multiples. ge_step. rewrite <- (ed_mul_1 P) in H.
  destruct (multiples_ok P A 7 1 _ HA H) as (cs & -> & HL & Hcs). cbn [mbind option_bind].
  eexists. split; [done|]. split; [cbn; lia|]. intros [|j] u Hu; cbn in Hu; simplify_eq.
  - exact H.
  - replace (1 + Z.of_nat (S j)) with (1 + 1 + Z.of_nat j) by lia. by apply Hcs.
Qed.

(** ** Radix 16 *)

Fixpoint digits16 (e : list Z) : Z :=
  match e with
  | [] => 0
  | d :: e' => d + 16 * digits16 e'
  end.

Definition digit16 (d : Z) : Prop := -8 ≤ d ≤ 8.

Lemma digits16_app e e' : digits16 (e ++ e') = digits16 e + 16 ^ Z.of_nat (length e) * digits16 e'.
Proof.
  induction e as [|d e IH]; [cbn [app digits16 length]; lia|]. cbn [app digits16 length].
  rewrite IH, Nat2Z.inj_succ, Z.pow_succ_r by lia. lia.
Qed.

Lemma digits16_take k e :
  (k < length e)%nat →
  digits16 (take (S k) e) = digits16 (take k e) + 16 ^ Z.of_nat k * e !!! k.
Proof.
  intros Hk. rewrite (take_S_r _ _ (e !!! k)) by (by apply list_lookup_lookup_total_lt).
  rewrite digits16_app, length_take, Nat.min_l by lia. cbn [digits16]. lia.
Qed.

Lemma swrap8_digit d : digit16 d → swrap 8 d = d.
Proof. unfold digit16. intros Hd. apply swrap_fits, fits_spec. cbn. lia. Qed.

(** The top byte of a scalar. *)
Lemma top_byte a :
  scalar255 a → ∃ a' x, a = a' ++ [x] ∧ length a' = 31%nat ∧ bytes a' ∧ 0 ≤ x ≤ 127.
Proof.
  intros (HL & Hb & Hv). destruct (exists_last (l := a)) as (a' & x & ->); [by destruct a|].
  rewrite length_app in HL. cbn in HL. apply Forall_app in Hb as [Hb' Hx].
  apply Forall_cons_1 in Hx as [Hx _]. exists a', x. split_and!; [done|lia|done|lia|].
  rewrite le_combine_app in Hv. cbn [le_combine] in Hv.
  pose proof (le_combine_bound a' Hb'). replace (length a') with 31%nat in * by lia.
  change (256 ^ Z.of_nat 31) with (2 ^ 248) in *.
  change (2 ^ 255) with (128 * 2 ^ 248) in Hv. nia.
Qed.

(** *** [ge_scalarmult] *)

Lemma recode_bytes_ok carry a :
  0 ≤ carry ≤ 1 → bytes a →
  let '(e, c) := recode_bytes carry a in
  length e = (2 * length a)%nat ∧ Forall digit16 e ∧ 0 ≤ c ≤ 1 ∧
  digits16 e + 256 ^ Z.of_nat (length a) * c = carry + le_combine a.
Proof.
  intros Hc Ha. revert carry Hc. induction Ha as [|x a Hx Ha IH]; intros carry Hc.
  { cbn. split_and!; [done|constructor|lia..]. }
  cbn [recode_bytes]. rewrite !Z.shiftr_div_pow2 by lia.
  change (2 ^ 4) with 16. set (c2 := (carry + x + 8) / 16). set (c1 := (c2 + 8) / 16).
  assert (digit16 (carry + x - c2 * 16)) as D0 by (unfold digit16, c2; zlia).
  assert (digit16 (c2 - c1 * 16)) as D1 by (unfold digit16, c1; zlia).
  assert (0 ≤ c1 ≤ 1) as H1 by (unfold c1, c2; zlia).
  specialize (IH c1 H1). destruct (recode_bytes c1 a) as [e c]. destruct IH as (HL & HF & Hc' & E).
  rewrite !swrap8_digit by done. cbn [length digits16 le_combine]. rewrite pow256_succ.
  split_and!; [lia|do 2 (constructor; [done|]); done|lia..].
Qed.

Lemma recode_ok a :
  scalar255 a →
  length (recode a) = 64%nat ∧ Forall digit16 (recode a) ∧ digits16 (recode a) = le_combine a.
Proof.
  intros (a' & x & -> & HL & Hb & Hx)%top_byte. unfold recode.
  rewrite take_app_length', list_lookup_total_middle by lia.
  pose proof (recode_bytes_ok 0 a' ltac:(lia) Hb) as H.
  destruct (recode_bytes 0 a') as [e c]. destruct H as (HLe & HF & Hc & E).
  rewrite Z.shiftr_div_pow2 by lia. change (2 ^ 4) with 16. set (c2 := (c + x + 8) / 16).
  assert (digit16 (c + x - c2 * 16)) as D0 by (unfold digit16, c2; zlia).
  assert (digit16 c2) as D1 by (unfold digit16, c2; zlia).
  rewrite !swrap8_digit by done. rewrite length_app, digits16_app, le_combine_app, HLe, HL.
  rewrite HL in E. cbn [length digits16 le_combine].
  change (16 ^ Z.of_nat (2 * 31)) with (256 ^ Z.of_nat 31).
  split_and!; [done| |lia]. apply Forall_app. split; [done|do 2 (constructor; [done|]); done].
Qed.

(** *** [ge_scalarmult_base] *)

Definition nibble (d : Z) : Prop := 0 ≤ d < 16.

Lemma nibbles_ok a :
  bytes a →
  length (nibbles a) = (2 * length a)%nat ∧ Forall nibble (nibbles a) ∧
  digits16 (nibbles a) = le_combine a.
Proof.
  induction 1 as [|x a Hx Ha (HL & HF & E)]; [done|]. cbn [nibbles].
  rewrite !(Z.land_comm _ 15), !(land_ones_l 4), !Z.shiftr_div_pow2, Z.div_1_r by lia.
  change (2 ^ 4) with 16. rewrite (Z.mod_small (x / 16)) by zlia.
  cbn [length digits16 le_combine]. unfold nibble in *.
  split_and!; [lia|do 2 (constructor; [zlia|]); done|]. rewrite E. zlia.
Qed.

Lemma carry_nibbles_ok c e x :
  0 ≤ c ≤ 1 → Forall nibble e → 0 ≤ x ≤ 7 →
  length (carry_nibbles c (e ++ [x])) = S (length e) ∧
  Forall digit16 (carry_nibbles c (e ++ [x])) ∧
  digits16 (carry_nibbles c (e ++ [x])) = c + digits16 (e ++ [x]).
Proof.
  intros Hc He Hx. revert c Hc. induction He as [|d e Hd He IH]; intros c Hc.
  { cbn [app carry_nibbles digits16]. rewrite swrap8_digit by (unfold digit16; lia).
    split_and!; [done|constructor; [unfold digit16; lia|done]|lia]. }
  replace (carry_nibbles c ((d :: e) ++ [x])) with
    (let x0 := swrap 8 (d + c) in let carry := Z.shiftr (swrap 8 (x0 + 8)) 4 in
     swrap 8 (x0 - carry * 2 ^ 4) :: carry_nibbles carry (e ++ [x])) by (by destruct e).
  unfold nibble in Hd. cbv zeta. rewrite (swrap_fits 8 (d + c)) by (apply fits_spec; cbn; lia).
  rewrite (swrap_fits 8 (d + c + 8)) by (apply fits_spec; cbn; lia).
  rewrite Z.shiftr_div_pow2 by lia. change (2 ^ 4) with 16. set (c1 := (d + c + 8) / 16).
  assert (digit16 (d + c - c1 * 16)) as D0 by (unfold digit16, c1; zlia).
  destruct (IH c1 ltac:(unfold c1; zlia)) as (HL & HF & E).
  rewrite swrap8_digit by done. cbn [app length digits16].
  split_and!; [lia|by constructor|rewrite E; lia].
Qed.

Lemma nibbles_app a b : nibbles (a ++ b) = nibbles a ++ nibbles b.
Proof. induction a as [|x a IH]; [done|]. cbn. by rewrite IH. Qed.

Lemma recode_base_ok a :
  scalar255 a →
  length (recode_base a) = 64%nat ∧ Forall digit16 (recode_base a) ∧
  digits16 (recode_base a) = le_combine a.
Proof.
  intros Ha. pose proof Ha as (HLa & Hba & _).
  apply top_byte in Ha as (a' & x & -> & HL & Hb & Hx). unfold recode_base.
  destruct (nibbles_ok _ Hba) as (_ & HF & E). rewrite nibbles_app in *.
  cbn [nibbles] in *. set (y := Z.land (Z.shiftr x 4) 15) in *.
  assert (0 ≤ y ≤ 7) as Hy.
  { unfold y. rewrite Z.land_comm, (land_ones_l 4), Z.shiftr_div_pow2 by lia. zlia. }
  rewrite (cons_middle _ (nibbles a')), app_assoc in *.
  apply Forall_app in HF as [HF _].
  destruct (carry_nibbles_ok 0 _ y ltac:(lia) HF Hy) as (H1 & H2 & H3).
  destruct (nibbles_ok a' Hb) as (HLn & _ & _).
  rewrite H1, H3, E, length_app, HLn, HL. split_and!; [done|done|lia].
Qed.

(** ** The loops *)

Lemma scalarmult_step_ok P Ai b m r :
  on_curve P → eight_is P Ai → digit16 b → p2_is (ed_mul m P) r →
  ∃ t, scalarmult_step Ai b r = Some t ∧ p1p1_is (ed_mul (16 * m + b) P) t.
Proof.
  intros HP HA Hb Hr. unfold scalarmult_step. do 8 ge_step.
  destruct (select_cached_ok P Ai b HA Hb) as (c & -> & Hc). cbn [mbind option_bind]. ge_step.
  eexists. split; [reflexivity|]. rewrite !ed_double, <- ed_mul_add in H7 by exact HP.
  replace (16 * m + b) with (2 * (2 * (2 * (2 * m))) + b) by ring. exact H7.
Qed.

Lemma shift_digit16 m k e :
  (k < length e)%nat →
  m * 16 ^ Z.of_nat (S k) + digits16 (take (S k) e) =
  (16 * m + e !!! k) * 16 ^ Z.of_nat k + digits16 (take k e).
Proof.
  intros Hk. rewrite digits16_take, Nat2Z.inj_succ, Z.pow_succ_r by lia. ring.
Qed.

Section scalarmult.
Context (P : point) (Ai : list ge_cached) (e : list Z).
Context (HP : on_curve P) (HA : eight_is P Ai) (He : Forall digit16 e).

Lemma digit_at i : (i < length e)%nat → digit16 (e !!! i).
Proof.
  intros Hi. apply (Forall_lookup_1 _ _ i _ He). by apply list_lookup_lookup_total_lt.
Qed.

Lemma scalarmult_loop_ok k m r :
  (k ≤ length e)%nat → p2_is (ed_mul m P) r →
  ∃ r', scalarmult_loop Ai e k r = Some r' ∧
    p2_is (ed_mul (m * 16 ^ Z.of_nat k + digits16 (take k e)) P) r'.
Proof.
  revert m r. induction k as [|k IH]; intros m r Hk Hr.
  { exists r. split; [reflexivity|]. rewrite take_0. cbn [digits16].
    replace (m * 16 ^ Z.of_nat 0 + 0) with m by lia. exact Hr. }
  cbn [scalarmult_loop].
  destruct (scalarmult_step_ok P Ai (e !!! k) m r HP HA (digit_at k Hk) Hr) as (t & -> & Ht).
  cbn [mbind option_bind]. ge_step. rewrite shift_digit16 by lia. apply IH; [lia|assumption].
Qed.

Lemma scalarmult_loop_p3_ok k m r :
  (S k ≤ length e)%nat → p2_is (ed_mul m P) r →
  ∃ r', scalarmult_loop_p3 Ai e (S k) r = Some (Some r') ∧
    p3_is (ed_mul (m * 16 ^ Z.of_nat (S k) + digits16 (take (S k) e)) P) r'.
Proof.
  revert m r. induction k as [|k IH]; intros m r Hk Hr;
    match goal with |- context [scalarmult_loop_p3 _ _ (S ?k) _] =>
      destruct (scalarmult_step_ok P Ai (e !!! k) m r HP HA (digit_at k Hk) Hr) as (t & E & Ht)
    end; cbn [scalarmult_loop_p3]; rewrite E; cbn [mbind option_bind];
    rewrite shift_digit16 by lia.
  - ge_step. eexists. split; [reflexivity|]. rewrite take_0. cbn [digits16].
    replace ((16 * m + e !!! 0%nat) * 16 ^ Z.of_nat 0 + 0) with (16 * m + e !!! 0%nat) by lia.
    assumption.
  - ge_step. apply IH; [lia|assumption].
Qed.
End scalarmult.

Lemma ge_scalarmult_ok P A a :
  p3_is P A → scalar255 a →
  ∃ r, ge_scalarmult a A = Some r ∧ p2_is (ed_mul (le_combine a) P) r.
Proof.
  intros HA Ha. unfold ge_scalarmult. destruct (recode_ok a Ha) as (HL & HF & E).
  destruct (eight_multiples_ok P A HA) as (Ai & -> & HAi). cbn [mbind option_bind].
  destruct (scalarmult_loop_ok P Ai (recode a) (proj1 HA) HAi HF 64 0 ge_p2_0)
    as (r & Er & Hr); [lia|exact ge_p2_0_is|]. exists r. split; [exact Er|].
  rewrite take_ge, E, Z.mul_0_l, Z.add_0_l in Hr by lia. exact Hr.
Qed.

Lemma ge_scalarmult_p3_ok P A a :
  p3_is P A → scalar255 a →
  ∃ r, ge_scalarmult_p3 a A = Some (Some r) ∧ p3_is (ed_mul (le_combine a) P) r.
Proof.
  intros HA Ha. unfold ge_scalarmult_p3. destruct (recode_ok a Ha) as (HL & HF & E).
  destruct (eight_multiples_ok P A HA) as (Ai & -> & HAi). cbn [mbind option_bind].
  destruct (scalarmult_loop_p3_ok P Ai (recode a) (proj1 HA) HAi HF 63 0 ge_p2_0)
    as (r & Er & Hr); [lia|exact ge_p2_0_is|]. exists r. split; [exact Er|].
  rewrite take_ge, E, Z.mul_0_l, Z.add_0_l in Hr by lia. exact Hr.
Qed.

(** *** The base point: odd digits, four doublings, even digits *)

(** The sum of [e[o + 2 j] * 256 ^ j] for [j < n]. *)
Fixpoint half_sum (e : list Z) (o n : nat) : Z :=
  match n with
  | O => 0
  | S j => half_sum e o j + e !!! (o + 2 * j)%nat * 256 ^ Z.of_nat j
  end.

Lemma half_sums e n :
  (2 * n ≤ length e)%nat →
  digits16 (take (2 * n) e) = 16 * half_sum e 1 n + half_sum e 0 n.
Proof.
  induction n as [|n IH]; intros Hn; [done|]. cbn [half_sum].
  replace (2 * S n)%nat with (S (S (2 * n))) by lia.
  rewrite !digits16_take, IH by lia. replace (0 + 2 * n)%nat with (2 * n)%nat by lia.
  replace (1 + 2 * n)%nat with (S (2 * n)) by lia. rewrite Nat2Z.inj_succ, Z.pow_succ_r by lia.
  replace (16 ^ Z.of_nat (2 * n)) with (256 ^ Z.of_nat n); [lia|].
  change 256 with (16 ^ 2). rewrite <- Z.pow_mul_r by lia. f_equal. lia.
Qed.

Lemma base_loop_ok e o n j m h :
  Forall digit16 e → (o < 2)%nat → (o + 2 * (j + n) < length e + 2)%nat → (j + n ≤ 32)%nat →
  p3_is (ed_mul (m + half_sum e o j) B25519) h →
  ∃ h', base_loop e n (o + 2 * j) h = Some h' ∧
    p3_is (ed_mul (m + half_sum e o (j + n)) B25519) h'.
Proof.
  intros He Ho. revert j h. induction n as [|n IH]; intros j h HL Hn Hh.
  { exists h. split; [reflexivity|]. by replace (j + 0)%nat with j by lia. }
  cbn [base_loop]. replace ((o + 2 * j) / 2)%nat with j
    by (apply (Nat.div_unique _ 2 _ o); lia).
  destruct (select_ok j (e !!! (o + 2 * j)%nat)) as (t & -> & Ht); [lia| |].
  { apply (digit_at e He). lia. }
  cbn [mbind option_bind]. do 2 ge_step.
  replace (o + 2 * j + 2)%nat with (o + 2 * S j)%nat by lia.
  replace (j + S n)%nat with (S j + n)%nat by lia. apply IH; [lia..|].
  cbn [half_sum]. rewrite Z.add_assoc, ed_mul_add by apply B25519_on_curve. assumption.
Qed.

Lemma ge_scalarmult_base_ok a :
  scalar255 a →
  ∃ h, ge_scalarmult_base a = Some h ∧ p3_is (ed_mul (le_combine a) B25519) h.
Proof.
  intros Ha. unfold ge_scalarmult_base. destruct (recode_base_ok a Ha) as (HL & HF & E).
  destruct (base_loop_ok (recode_base a) 1 32 0 0 ge_p3_0) as (h & Eh & Hh);
    [done|lia|lia|lia|exact ge_p3_0_is|].
  change (1 + 2 * 0)%nat with 1%nat in Eh. rewrite Eh. cbn [mbind option_bind]. do 8 ge_step.
  rewrite !ed_double in H6 by apply B25519_on_curve.
  destruct (base_loop_ok (recode_base a) 0 32 0
    (2 * (2 * (2 * (2 * (0 + half_sum (recode_base a) 1 (0 + 32)))))) x6)
    as (h' & E' & H'); [done|lia|lia|lia| |].
  { cbn [half_sum]. rewrite Z.add_0_r. exact H6. }
  exists h'. split; [exact E'|].
  pose proof (half_sums (recode_base a) 32 ltac:(lia)) as HS. rewrite take_ge, E in HS by lia.
  change (0 + 32)%nat with 32%nat in H'.
  replace (le_combine a) with
    (2 * (2 * (2 * (2 * (0 + half_sum (recode_base a) 1 32)))) + half_sum (recode_base a) 0 32)
    by lia. exact H'.
Qed.

(** * The properties of the fixed-window multiplications *)

(** The constant-time lookups return the multiple of the digit: [select pos b]
    is the precomputed form of [b 256^pos B], and the lookup in a table of the
    first eight multiples of [P] is the cached form of [b P], for every digit
    from -8 to 8; no assertion of the conditional moves fails. *)
Theorem select_spec pos P Ai b :
  (pos < 32)%nat → eight_is P Ai → -8 ≤ b ≤ 8 →
  (∃ t, select pos b = Some t ∧ precomp_is (ed_mul (b * 256 ^ Z.of_nat pos) B25519) t) ∧
  (∃ t, select_cached Ai b = Some t ∧ cached_is (ed_mul b P) t).
Proof. intros Hp HA Hb. split; [by apply select_ok|by apply select_cached_ok]. Qed.

(** The recodings in radix 16 of [ge_scalarmult] and [ge_scalarmult_base] are
    exact: for every scalar below [2^255] both produce 64 digits from -8 to 8
    whose sum with weights [16^i] is the scalar. *)
Theorem recode_spec a :
  scalar255 a →
  (length (recode a) = 64%nat ∧ Forall digit16 (recode a) ∧
   digits16 (recode a) = le_combine a) ∧
  (length (recode_base a) = 64%nat ∧ Forall digit16 (recode_base a) ∧
   digits16 (recode_base a) = le_combine a).
Proof. intros Ha. split; [by apply recode_ok|by apply recode_base_ok]. Qed.

(** [ge_scalarmult] and [ge_scalarmult_p3] compute [a P] for every point [P] of
    the curve and every scalar below [2^255] (0 included): no operation
    overflows, no assertion fails and no index is out of its table. *)
Theorem ge_scalarmult_spec P A a :
  p3_is P A → scalar255 a →
  (∃ r, ge_scalarmult a A = Some r ∧ p2_is (ed_mul (le_combine a) P) r) ∧
  (∃ r, ge_scalarmult_p3 a A = Some (Some r) ∧ p3_is (ed_mul (le_combine a) P) r).
Proof. intros HA Ha. split; [by apply ge_scalarmult_ok|by apply ge_scalarmult_p3_ok]. Qed.

(** [ge_scalarmult_base] computes [a B] for every scalar below [2^255] (the
    precondition [a[31] <= 127] of its comment), [B] being the base point. *)
Theorem ge_scalarmult_base_spec a :
  scalar255 a →
  ∃ h, ge_scalarmult_base a = Some h ∧ p3_is (ed_mul (le_combine a) B25519) h.
Proof. apply ge_scalarmult_base_ok. Qed.

(** ** Witnesses *)

Lemma select_witness :
  ∃ Ai, eight_multiples ge_p3_H = Some Ai ∧
  (∃ t, select 31 (-8) = Some t ∧ precomp_is (ed_mul (-8 * 256 ^ Z.of_nat 31) B25519) t) ∧
  (∃ t, select_cached Ai (-8) = Some t ∧ cached_is (ed_mul (-8) H25519) t).
Proof.
  destruct (eight_multiples_ok _ _ ge_p3_H_is) as (Ai & E & HA). exists Ai.
  split; [exact E|]. apply (select_spec 31 H25519 Ai (-8)); [lia|exact HA|lia].
Defined.

Lemma recode_witness :
  (length (recode scalar_top) = 64%nat ∧ Forall digit16 (recode scalar_top) ∧
   digits16 (recode scalar_top) = le_combine scalar_top) ∧
  (length (recode_base scalar_top) = 64%nat ∧ Forall digit16 (recode_base scalar_top) ∧
   digits16 (recode_base scalar_top) = le_combine scalar_top).
Proof. exact (recode_spec _ scalar_top_ok). Defined.

Lemma ge_scalarmult_witness :
  (∃ r, ge_scalarmult scalar_top ge_p3_H = Some r ∧
    p2_is (ed_mul (le_combine scalar_top) H25519) r) ∧
  (∃ r, ge_scalarmult_p3 scalar_top ge_p3_H = Some (Some r) ∧
    p3_is (ed_mul (le_combine scalar_top) H25519) r).
Proof. exact (ge_scalarmult_spec _ _ _ ge_p3_H_is scalar_top_ok). Defined.

Lemma ge_scalarmult_base_witness :
  ∃ h, ge_scalarmult_base scalar_top = Some h ∧
    p3_is (ed_mul (le_combine scalar_top) B25519) h.
Proof. exact (ge_scalarmult_base_spec _ scalar_top_ok). Defined.
