(* ===== verification/Crypto.v ===== *)
(** * Keys and signatures: [crypto.cpp]

    The class [crypto_ops]: keys, key derivations, one-time keys, signatures,
    transaction proofs, key images and ring signatures, on the operations of
    [crypto-ops.c], on [cn_fast_hash] and on the random generator.  A point, a
    scalar and a hash are 32 bytes.

    The outer [option] of a result is the abort of the program: a failing
    [assert] of the debug build, [local_abort], or undefined behaviour.  A
    function that returns [bool] and fills an output parameter returns an inner
    [option]: [Some None] is [return false], with the output unchanged.  Code
    that draws random scalars has type [rand G]. *)

From S2P Require Export Interfaces Varint Scalar PointCodec ScalarMult.

#[local] Open Scope Z_scope.

Record signature := { sig_c : list Z; sig_r : list Z }.

Section crypto.
Context `{Build} `{FastHash} {G : Type} `{Rng G}.

(** ** Random scalars *)

(** [for (int n = 31; n >= 0; --n)] *)
Fixpoint less32_loop (n : nat) (k0 k1 : list Z) : bool :=
  match n with
  | O => false
  | S n' =>
      if k0 !!! n' <? k1 !!! n' then true
      else if k1 !!! n' <? k0 !!! n' then false
      else less32_loop n' k0 k1
  end.

Definition less32 (k0 k1 : list Z) : bool := less32_loop 32 k0 k1.

Definition limit : list Z :=
  [ 0xe3; 0x6a; 0x67; 0x72; 0x8b; 0xce; 0x13; 0x29; 0x8f; 0x30; 0x82; 0x8c; 0x0b; 0xa4; 0x10;
    0x39; 0x01; 0x00; 0x00; 0x00; 0x00; 0x00; 0x00; 0x00; 0x00; 0x00; 0x00; 0x00; 0x00; 0x00;
    0x00; 0xf0 ].

(** The [do .. while], at most [n] iterations *)
Fixpoint random32_loop (n : nat) : rand G (list Z) :=
  match n with
  | O => λ _, None
  | S n' =>
      bs ← random_bytes 32;
      if (sc_isnonzero bs =? 0) && negb (less32 bs limit) then random32_loop n' else mret bs
  end.

Definition random32_unbiased : rand G (list Z) :=
  bs ← random32_loop 128;
  lift (sc_reduce32 bs).

Definition random_scalar : rand G (list Z) := random32_unbiased.

Definition hash_to_scalar (data : list Z) : option (list Z) :=
  h ← fast_hash data;
  sc_reduce32 h.

(** ** Keys *)

(** The public key, the secret key, and the scalar they are made of, which is returned. *)
Definition generate_keys (recovery_key : list Z) (recover : bool) :
    rand G (list Z * list Z * list Z) :=
  rng ← (if recover then mret recovery_key else random_scalar);
  lift (
    sec ← sc_reduce32 rng;
    point ← ge_scalarmult_base sec;
    pub ← ge_p3_tobytes point;
    Some (pub, sec, rng)).

Definition check_key (key : list Z) : option bool :=
  point ← ge_frombytes_vartime key;
  Some (match point with Some _ => true | None => false end).

Definition secret_key_to_public_key (sec : list Z) : option (option (list Z)) :=
  if negb (sc_check sec =? 0) then Some None else
  point ← ge_scalarmult_base sec;
  pub ← ge_p3_tobytes point;
  Some (Some pub).

Definition generate_key_derivation (key1 key2 : list Z) : option (option (list Z)) :=
  _ ← assert_ (sc_check key2 =? 0);
  point ← ge_frombytes_vartime key1;
  match point with
  | None => Some None
  | Some point =>
      point2 ← ge_scalarmult key2 point;
      point3 ← ge_mul8 point2;
      point2 ← ge_p1p1_to_p2 point3;
      derivation ← ge_tobytes point2;
      Some (Some derivation)
  end.

(** [sizeof buf.output_index]: a [size_t] of 64 bits *)
Definition output_index_size : nat := 10.

Definition derivation_to_scalar (derivation : list Z) (output_index : Z) : option (list Z) :=
  let buf := write_varint output_index in
  _ ← assert_ (length buf <=? output_index_size)%nat;
  hash_to_scalar (derivation ++ buf).

Definition derive_public_key (derivation : list Z) (output_index : Z) (base : list Z) :
    option (option (list Z)) :=
  point1 ← ge_frombytes_vartime base;
  match point1 with
  | None => Some None
  | Some point1 =>
      scalar ← derivation_to_scalar derivation output_index;
      point2 ← ge_scalarmult_base scalar;
      point3 ← ge_p3_to_cached point2;
      point4 ← ge_add point1 point3;
      point5 ← ge_p1p1_to_p2 point4;
      derived_key ← ge_tobytes point5;
      Some (Some derived_key)
  end.

Definition derive_secret_key (derivation : list Z) (output_index : Z) (base : list Z) :
    option (list Z) :=
  _ ← assert_ (sc_check base =? 0);
  scalar ← derivation_to_scalar derivation output_index;
  sc_add base scalar.

Definition derive_subaddress_public_key (out_key derivation : list Z) (output_index : Z) :
    option (option (list Z)) :=
  point1 ← ge_frombytes_vartime out_key;
  match point1 with
  | None => Some None
  | Some point1 =>
      scalar ← derivation_to_scalar derivation output_index;
      point2 ← ge_scalarmult_base scalar;
      point3 ← ge_p3_to_cached point2;
      point4 ← ge_sub point1 point3;
      point5 ← ge_p1p1_to_p2 point4;
      derived_key ← ge_tobytes point5;
      Some (Some derived_key)
  end.

(** ** Signatures *)

(** The bytes of a [struct s_comm]. *)
Definition s_comm (h key comm : list Z) : list Z := h ++ key ++ comm.

(** The block [#if !defined(NDEBUG)] of [generate_signature]. *)
Definition check_key_pair (pub sec : list Z) : option unit :=
  _ ← abort_unless (sc_check sec =? 0);
  t ← ge_scalarmult_base sec;
  t2 ← ge_p3_tobytes t;
  abort_unless (bool_decide (pub = t2)).

(** From [random_scalar(k)] to the end: [None] is [goto try_again]. *)
Definition sign_attempt (prefix_hash pub sec k : list Z) : option (option signature) :=
  if load_4 k 28 =? 0 then Some None else
  tmp3 ← ge_scalarmult_base k;
  comm ← ge_p3_tobytes tmp3;
  c ← hash_to_scalar (s_comm prefix_hash pub comm);
  if sc_isnonzero c =? 0 then Some None else
  r ← sc_mulsub c sec k;
  if sc_isnonzero r =? 0 then Some None else
  Some (Some {| sig_c := c; sig_r := r |}).

(** [try_again:], at most [n] attempts *)
Fixpoint sign_loop (n : nat) (prefix_hash pub sec : list Z) : rand G signature :=
  match n with
  | O => λ _, None
  | S n' =>
      k ← random_scalar;
      sig ← lift (sign_attempt prefix_hash pub sec k);
      match sig with
      | Some sig => mret sig
      | None => sign_loop n' prefix_hash pub sec
      end
  end.

Definition generate_signature (n : nat) (prefix_hash pub sec : list Z) : rand G signature :=
  _ ← lift (debug_only (check_key_pair pub sec));
  sign_loop n prefix_hash pub sec.

Definition infinity : list Z := 1 :: replicate 31 0.

Definition check_signature (prefix_hash pub : list Z) (sig : signature) : option bool :=
  _ ← debug_only (b ← check_key pub; abort_unless b);
  tmp3 ← ge_frombytes_vartime pub;
  match tmp3 with
  | None => Some false
  | Some tmp3 =>
      if negb (sc_check (sig_c sig) =? 0) || negb (sc_check (sig_r sig) =? 0) ||
         (sc_isnonzero (sig_c sig) =? 0) then Some false else
      tmp2 ← ge_double_scalarmult_base_vartime (sig_c sig) tmp3 (sig_r sig);
      comm ← ge_tobytes tmp2;
      if bool_decide (comm = infinity) then Some false else
      c ← hash_to_scalar (s_comm prefix_hash pub comm);
      c ← sc_sub c (sig_c sig);
      Some (sc_isnonzero c =? 0)
  end.

(** ** Proofs of a transaction key *)

Inductive tx_proof_error :=
| tx_pubkey_is_invalid
| recipient_view_pubkey_is_invalid
| recipient_spend_pubkey_is_invalid
| key_derivation_is_invalid.

(** The bytes of a [struct s_comm_2]. *)
Definition s_comm_2 (msg D X Y : list Z) : list Z := msg ++ D ++ X ++ Y.

(** [k * B], or [k * G] when there is no [B]. *)
Definition mul_B_or_G (k : list Z) (B_p3 : option ge_p3) : option (list Z) :=
  match B_p3 with
  | Some B_p3 => p2 ← ge_scalarmult k B_p3; ge_tobytes p2
  | None => p3 ← ge_scalarmult_base k; ge_p3_tobytes p3
  end.

(** The block [#if !defined(NDEBUG)] of [generate_tx_proof]. *)
Definition check_tx_keys (R D sec : list Z) (A_p3 : ge_p3) (B_p3 : option ge_p3) : option unit :=
  _ ← abort_unless (sc_check sec =? 0);
  dbg_R ← mul_B_or_G sec B_p3;
  _ ← abort_unless (bool_decide (R = dbg_R));
  dbg_D_p2 ← ge_scalarmult sec A_p3;
  dbg_D ← ge_tobytes dbg_D_p2;
  abort_unless (bool_decide (D = dbg_D)).

(** After the checks. *)
Definition tx_proof (prefix_hash D sec : list Z) (A_p3 : ge_p3) (B_p3 : option ge_p3)
    (k : list Z) : option signature :=
  X ← mul_B_or_G k B_p3;
  Y_p2 ← ge_scalarmult k A_p3;
  Y ← ge_tobytes Y_p2;
  c ← hash_to_scalar (s_comm_2 prefix_hash D X Y);
  r ← sc_mulsub c sec k;
  Some {| sig_c := c; sig_r := r |}.

(** [B && ge_frombytes_vartime(&B_p3, &*B) != 0]: [Some None] when it holds *)
Definition load_optional (B : option (list Z)) : option (option (option ge_p3)) :=
  match B with
  | None => Some (Some None)
  | Some B =>
      p ← ge_frombytes_vartime B;
      Some (match p with Some p => Some (Some p) | None => None end)
  end.

Definition generate_tx_proof (prefix_hash R A : list Z) (B : option (list Z)) (D sec : list Z) :
    rand G (tx_proof_error + signature) :=
  R_p3 ← lift (ge_frombytes_vartime R);
  match R_p3 with None => mret (inl tx_pubkey_is_invalid) | Some R_p3 =>
  A_p3 ← lift (ge_frombytes_vartime A);
  match A_p3 with None => mret (inl recipient_view_pubkey_is_invalid) | Some A_p3 =>
  B_p3 ← lift (load_optional B);
  match B_p3 with None => mret (inl recipient_spend_pubkey_is_invalid) | Some B_p3 =>
  D_p3 ← lift (ge_frombytes_vartime D);
  match D_p3 with None => mret (inl key_derivation_is_invalid) | Some D_p3 =>
    _ ← lift (debug_only (check_tx_keys R D sec A_p3 B_p3));
    k ← random_scalar;
    sig ← lift (tx_proof prefix_hash D sec A_p3 B_p3 k);
    mret (inr sig)
  end end end end.

(** [a * P] through its encoding, as a [ge_p3] again *)
Definition scalarmult_via_bytes (a : list Z) (P : ge_p3) : option (option ge_p3) :=
  p2 ← ge_scalarmult a P;
  bs ← ge_tobytes p2;
  ge_frombytes_vartime bs.

Definition add_tobytes (p q : ge_p3) : option (list Z) :=
  cached ← ge_p3_to_cached q;
  p1p1 ← ge_add p cached;
  p2 ← ge_p1p1_to_p2 p1p1;
  ge_tobytes p2.

Definition check_tx_proof (prefix_hash R A : list Z) (B : option (list Z)) (D : list Z)
    (sig : signature) : option bool :=
  R_p3 ← ge_frombytes_vartime R;
  match R_p3 with None => Some false | Some R_p3 =>
  A_p3 ← ge_frombytes_vartime A;
  match A_p3 with None => Some false | Some A_p3 =>
  B_p3 ← load_optional B;
  match B_p3 with None => Some false | Some B_p3 =>
  D_p3 ← ge_frombytes_vartime D;
  match D_p3 with None => Some false | Some D_p3 =>
  if negb (sc_check (sig_c sig) =? 0) || negb (sc_check (sig_r sig) =? 0) then Some false else
  cR_p3 ← scalarmult_via_bytes (sig_c sig) R_p3;
  match cR_p3 with None => Some false | Some cR_p3 =>
  rB_p3 ← match B_p3 with
    | Some B_p3 => scalarmult_via_bytes (sig_r sig) B_p3
    | None => p ← ge_scalarmult_base (sig_r sig); Some (Some p)
    end;
  match rB_p3 with None => Some false | Some rB_p3 =>
  X ← add_tobytes cR_p3 rB_p3;
  cD_p3 ← scalarmult_via_bytes (sig_c sig) D_p3;
  match cD_p3 with None => Some false | Some cD_p3 =>
  rA_p3 ← scalarmult_via_bytes (sig_r sig) A_p3;
  match rA_p3 with None => Some false | Some rA_p3 =>
    Y ← add_tobytes cD_p3 rA_p3;
    c2 ← hash_to_scalar (s_comm_2 prefix_hash D X Y);
    c2 ← sc_sub c2 (sig_c sig);
    Some (sc_isnonzero c2 =? 0)
  end end end end end end end end.

(** ** Key images and ring signatures *)

Definition hash_to_ec (key : list Z) : option ge_p3 :=
  h ← fast_hash key;
  point ← ge_fromfe_frombytes_vartime h;
  point2 ← ge_mul8 point;
  ge_p1p1_to_p3 point2.

Definition generate_key_image (pub sec : list Z) : option (list Z) :=
  _ ← assert_ (sc_check sec =? 0);
  point ← hash_to_ec pub;
  point2 ← ge_scalarmult sec point;
  ge_tobytes point2.

End crypto.
