(* ===== verification/Ring.v ===== *)
(** * Ring signatures: [generate_ring_signature] and [check_ring_signature]

    of [crypto.cpp].  The array [sig] is passed and returned; [ab] is the array
    [buf->ab] as the bytes written so far, in order. *)

From S2P Require Export Crypto.

#[local] Open Scope Z_scope.

Section ring.
Context `{Build} `{FastHash} {G : Type} `{Rng G}.

(** The variables of the loop of [generate_ring_signature]. *)
Record ring_vars := {
  rv_sig : list signature;
  rv_ab : list Z;
  rv_sum : list Z;
  rv_k : option (list Z)
}.

(** The two commitments of an entry whose [c] and [r] are known. *)
Definition ring_commitments (image_pre : list ge_cached) (pub : list Z) (tmp3 : ge_p3)
    (sig : signature) : option (list Z) :=
  tmp2 ← ge_double_scalarmult_base_vartime (sig_c sig) tmp3 (sig_r sig);
  a ← ge_tobytes tmp2;
  tmp3 ← hash_to_ec pub;
  tmp2 ← ge_double_scalarmult_precomp_vartime (sig_r sig) tmp3 (sig_c sig) image_pre;
  b ← ge_tobytes tmp2;
  Some (a ++ b).

(** The two commitments of the signer. *)
Definition signer_commitments (pub k : list Z) : option (list Z) :=
  tmp3 ← ge_scalarmult_base k;
  a ← ge_p3_tobytes tmp3;
  tmp3 ← hash_to_ec pub;
  tmp2 ← ge_scalarmult k tmp3;
  b ← ge_tobytes tmp2;
  Some (a ++ b).

(** [sig[i] = ..], undefined outside of the array *)
Definition store_sig (sigs : list signature) (i : nat) (sig : signature) :
    option (list signature) :=
  if (i <? length sigs)%nat then Some (<[i := sig]> sigs) else None.

(** The body of the loop of [generate_ring_signature]. *)
Definition generate_ring_step (image_pre : list ge_cached) (sec_index i : nat) (pub : list Z)
    (v : ring_vars) : rand G ring_vars :=
  if (i =? sec_index)%nat then
    k ← random_scalar;
    ab ← lift (signer_commitments pub k);
    mret {| rv_sig := rv_sig v; rv_ab := rv_ab v ++ ab; rv_sum := rv_sum v; rv_k := Some k |}
  else
    c ← random_scalar;
    r ← random_scalar;
    let sig := {| sig_c := c; sig_r := r |} in
    lift (
      sigs ← store_sig (rv_sig v) i sig;
      tmp3 ← ge_frombytes_vartime pub;
      (* [local_abort("invalid pubkey")] *)
      tmp3 ← tmp3;
      ab ← ring_commitments image_pre pub tmp3 sig;
      sum ← sc_add (rv_sum v) c;
      Some {| rv_sig := sigs; rv_ab := rv_ab v ++ ab; rv_sum := sum; rv_k := rv_k v |}).

Fixpoint generate_ring_loop (image_pre : list ge_cached) (sec_index i : nat)
    (pubs : list (list Z)) (v : ring_vars) : rand G ring_vars :=
  match pubs with
  | [] => mret v
  | pub :: pubs =>
      v ← generate_ring_step image_pre sec_index i pub v;
      generate_ring_loop image_pre sec_index (i + 1) pubs v
  end.

(** [assert(check_key(..))] for every public key *)
Fixpoint assert_keys (pubs : list (list Z)) : option unit :=
  match pubs with
  | [] => Some tt
  | pub :: pubs => b ← check_key pub; _ ← abort_unless b; assert_keys pubs
  end.

(** The block [#if !defined(NDEBUG)] of [generate_ring_signature]. *)
Definition check_ring_keys (image : list Z) (pubs : list (list Z)) (sec : list Z)
    (sec_index : nat) : option unit :=
  pub ← pubs !! sec_index;
  _ ← check_key_pair pub sec;
  t3 ← generate_key_image pub sec;
  _ ← abort_unless (bool_decide (image = t3));
  assert_keys pubs.

Definition generate_ring_signature (prefix_hash image : list Z) (pubs : list (list Z))
    (sec : list Z) (sec_index : nat) (sig : list signature) : rand G (list signature) :=
  _ ← lift (assert_ (sec_index <? length pubs)%nat);
  _ ← lift (debug_only (check_ring_keys image pubs sec sec_index));
  image_unp ← lift (ge_frombytes_vartime image);
  (* [local_abort("invalid key image")] *)
  image_unp ← lift image_unp;
  image_pre ← lift (ge_dsm_precomp image_unp);
  v ← generate_ring_loop image_pre sec_index 0 pubs
    {| rv_sig := sig; rv_ab := []; rv_sum := sc_0; rv_k := None |};
  lift (
    h ← hash_to_scalar (prefix_hash ++ rv_ab v);
    c ← sc_sub h (rv_sum v);
    k ← rv_k v;
    r ← sc_mulsub c sec k;
    store_sig (rv_sig v) sec_index {| sig_c := c; sig_r := r |}).

(** The loop of [check_ring_signature]: [None] is [return false]. *)
Fixpoint check_ring_loop (image_pre : list ge_cached) (pubs : list (list Z))
    (sigs : list signature) (ab sum : list Z) : option (option (list Z * list Z)) :=
  match pubs with
  | [] => Some (Some (ab, sum))
  | pub :: pubs =>
      match sigs with
      | [] => None
      | sig :: sigs =>
          if negb (sc_check (sig_c sig) =? 0) || negb (sc_check (sig_r sig) =? 0)
          then Some None else
          tmp3 ← ge_frombytes_vartime pub;
          match tmp3 with
          | None => Some None
          | Some tmp3 =>
              ab' ← ring_commitments image_pre pub tmp3 sig;
              sum ← sc_add sum (sig_c sig);
              check_ring_loop image_pre pubs sigs (ab ++ ab') sum
          end
      end
  end.

Definition check_ring_signature (prefix_hash image : list Z) (pubs : list (list Z))
    (sig : list signature) : option bool :=
  _ ← debug_only (assert_keys pubs);
  image_unp ← ge_frombytes_vartime image;
  match image_unp with
  | None => Some false
  | Some image_unp =>
      image_pre ← ge_dsm_precomp image_unp;
      res ← check_ring_loop image_pre pubs sig [] sc_0;
      match res with
      | None => Some false
      | Some (ab, sum) =>
          h ← hash_to_scalar (prefix_hash ++ ab);
          h ← sc_sub h sum;
          Some (sc_isnonzero h =? 0)
      end
  end.

End ring.
