(* ===== verification/CryptoSpec.v ===== *)
(** * Correctness of keys and signatures

    The functions of [crypto.cpp] on the group of the curve: what each computes
    and when it fails, that the two ends of a derivation agree, and that what
    is signed is accepted. *)

From S2P Require Export Crypto WindowSpec Cofactor Random.

#[local] Open Scope Z_scope.

(** ** Scalars *)

(** 32 bytes whose value is below [L]: what [sc_check] accepts. *)
Record scalar (s : list Z) : Prop := {
  scalar_length : length s = 32%nat;
  scalar_bytes : bytes s;
  scalar_small : le_combine s < L
}.

(** The scalar of a number. *)
Definition to_scalar (n : Z) : list Z := le_split 32 (n mod L).

Lemma L_range : 2 ^ 252 < L < 2 ^ 253.
Proof. unfold L. lia. Qed.

Lemma le_combine_to_scalar n : le_combine (to_scalar n) = n mod L.
Proof.
  unfold to_scalar. rewrite le_combine_split. apply Z.mod_small.
  pose proof L_range. pose proof (Z.mod_pos_bound n L).
  assert (2 ^ 253 < 256 ^ Z.of_nat 32) by reflexivity. lia.
Qed.

Lemma to_scalar_scalar n : scalar (to_scalar n).
Proof.
  split; [apply length_le_split|apply bytes_le_split|].
  rewrite le_combine_to_scalar. pose proof L_range. apply Z.mod_pos_bound. lia.
Qed.

Lemma scalar_255 s : scalar s → scalar255 s.
Proof. intros [HL HB Hs]. split; [done|]. split; [done|]. pose proof L_range. lia. Qed.

Lemma scalar_nonneg s : scalar s → 0 ≤ le_combine s < L.
Proof. intros [HL HB Hs]. pose proof (le_combine_bound s HB). lia. Qed.

Lemma scalar_bytes32 s : scalar s → bytes32 s.
Proof. intros [HL HB _]. by split. Qed.

Lemma to_scalar_id s : scalar s → to_scalar (le_combine s) = s.
Proof.
  intros Hs. pose proof (scalar_nonneg s Hs). destruct Hs as [HL HB _].
  unfold to_scalar. rewrite Z.mod_small by lia. rewrite <- HL. by apply le_split_combine.
Qed.

Lemma to_scalar_mod n : to_scalar (n mod L) = to_scalar n.
Proof. unfold to_scalar. by rewrite Z.mod_mod by (pose proof L_range; lia). Qed.

Lemma to_scalar_inj m n : to_scalar m = to_scalar n ↔ m mod L = n mod L.
Proof.
  split; [|by unfold to_scalar; intros ->]. intros E.
  by rewrite <- (le_combine_to_scalar m), E, le_combine_to_scalar.
Qed.

Lemma sc_check_scalar s : bytes32 s → sc_check s = 0 ↔ scalar s.
Proof.
  intros [HL HB]. rewrite sc_check_ok by done. destruct (Z.ltb_spec (le_combine s) L).
  - split; [by split|done].
  - split; [done|intros [_ _ Hs]; lia].
Qed.

Lemma sc_check_0 s : scalar s → sc_check s =? 0 = true.
Proof. intros Hs. apply Z.eqb_eq, sc_check_scalar; [by apply scalar_bytes32|done]. Qed.

Lemma sc_reduce32_scalar s : bytes32 s → sc_reduce32 s = Some (to_scalar (le_combine s)).
Proof. intros [HL HB]. by apply sc_reduce32_ok. Qed.

Lemma sc_add_scalar a b :
  scalar a → scalar b → sc_add a b = Some (to_scalar (le_combine a + le_combine b)).
Proof. intros [] []. by apply sc_add_ok. Qed.

Lemma sc_sub_scalar a b :
  scalar a → scalar b → sc_sub a b = Some (to_scalar (le_combine a - le_combine b)).
Proof. intros [] []. by apply sc_sub_ok. Qed.

Lemma sc_mulsub_scalar a b d :
  scalar a → scalar b → scalar d →
  sc_mulsub a b d = Some (to_scalar (le_combine d - le_combine a * le_combine b)).
Proof. intros [] [] []. by apply sc_mulsub_ok. Qed.

Lemma sc_isnonzero_scalar n : (sc_isnonzero (to_scalar n) =? 0) = (n mod L =? 0).
Proof.
  destruct (to_scalar_scalar n) as [HL HB _]. rewrite sc_isnonzero_ok, le_combine_to_scalar by done.
  by destruct (n mod L =? 0).
Qed.

(** ** Multiples of the base point *)

Definition mulG (n : Z) : point := ed_mul n B25519.

Lemma mulG_on_curve n : on_curve (mulG n).
Proof. apply on_curve_mul. exact (proj1 l_torsion_B). Qed.

Lemma mulG_torsion n : l_torsion (mulG n).
Proof. apply l_torsion_mul, l_torsion_B. Qed.

Lemma mulG_mod n : mulG (n mod L) = mulG n.
Proof. apply l_torsion_mod, l_torsion_B. Qed.

Lemma mulG_add a b : mulG (a + b) = ed_add (mulG a) (mulG b).
Proof. apply ed_mul_add. exact (proj1 l_torsion_B). Qed.

Lemma mulG_mul a b : ed_mul a (mulG b) = mulG (a * b).
Proof. apply ed_mul_mul. exact (proj1 l_torsion_B). Qed.

Lemma mulG_zero n : mulG n = ed_zero → (L | n).
Proof. apply B25519_order_divides. Qed.

(** What the callers do with a multiple: compute it, then encode it. *)
Lemma base_mul a :
  scalar a →
  ∃ h, ge_scalarmult_base a = Some h ∧ p3_is (mulG (le_combine a)) h ∧
    ge_p3_tobytes h = Some (ed_encode (mulG (le_combine a))).
Proof.
  intros Ha. destruct (ge_scalarmult_base_ok a) as (h & E & Hh); [by apply scalar_255|].
  exists h. split; [exact E|]. split; [exact Hh|]. exact (ge_p3_tobytes_ok _ _ Hh).
Qed.

Lemma point_mul P A a :
  p3_is P A → scalar a →
  ∃ h, ge_scalarmult a A = Some h ∧ p2_is (ed_mul (le_combine a) P) h ∧
    ge_tobytes h = Some (ed_encode (ed_mul (le_combine a) P)).
Proof.
  intros HP Ha. destruct (ge_scalarmult_ok P A a) as (h & E & Hh); [exact HP|by apply scalar_255|].
  exists h. split; [exact E|]. split; [exact Hh|]. exact (ge_tobytes_ok _ _ Hh).
Qed.

Lemma bytes32_encode P : bytes32 (ed_encode P).
Proof. split; [apply length_ed_encode|apply bytes_ed_encode]. Qed.

(** ** Random scalars *)

Lemma le_combine_snoc l x :
  le_combine (l ++ [x]) = le_combine l + 256 ^ Z.of_nat (length l) * x.
Proof. rewrite le_combine_app. cbn [le_combine]. lia. Qed.

Lemma less32_loop_ok n k0 k1 :
  (n ≤ length k0)%nat → (n ≤ length k1)%nat → bytes k0 → bytes k1 →
  less32_loop n k0 k1 = (le_combine (take n k0) <? le_combine (take n k1)).
Proof.
  intros H0 H1 B0 B1. revert H0 H1. induction n as [|n IH]; intros H0 H1; [done|].
  destruct (lookup_lt_is_Some_2 k0 n) as [x Ex]; [lia|].
  destruct (lookup_lt_is_Some_2 k1 n) as [y Ey]; [lia|]. cbn [less32_loop].
  rewrite (list_lookup_total_correct _ _ _ Ex), (list_lookup_total_correct _ _ _ Ey).
  rewrite (take_S_r _ _ _ Ex), (take_S_r _ _ _ Ey), !le_combine_snoc, !length_take.
  rewrite !Nat.min_l, IH by lia.
  pose proof (le_combine_bound (take n k0) (Forall_take _ n _ B0)) as R0.
  pose proof (le_combine_bound (take n k1) (Forall_take _ n _ B1)) as R1.
  rewrite length_take, Nat.min_l in R0, R1 by lia.
  set (M := 256 ^ Z.of_nat n) in *. clearbody M.
  destruct (Z.ltb_spec x y); [symmetry; apply Z.ltb_lt; nia|].
  destruct (Z.ltb_spec y x); [symmetry; apply Z.ltb_ge; nia|].
  assert (x = y) as -> by lia. apply eq_true_iff_eq. rewrite !Z.ltb_lt. lia.
Qed.

Lemma less32_ok k0 k1 :
  bytes32 k0 → bytes32 k1 → less32 k0 k1 = (le_combine k0 <? le_combine k1).
Proof.
  intros [L0 B0] [L1 B1]. unfold less32. rewrite less32_loop_ok by (lia || done).
  by rewrite !take_ge by lia.
Qed.

Lemma limit_ok : bytes32 limit ∧ le_combine limit = 15 * L.
Proof. split; [|reflexivity]. split; [reflexivity|]. by repeat constructor. Qed.

Lemma rand_step {S A B} (m : rand S A) (k : A → rand S B) s a s' :
  m s = Some (a, s') → (m ≫= k) s = k a s'.
Proof. intros E. unfold mbind, rand_bind. by rewrite E. Qed.

Lemma rand_lift {S A B} (k : A → rand S B) o s a :
  o = Some a → (lift o ≫= k) s = k a s.
Proof. intros ->. reflexivity. Qed.

(** A branch that returns false where the relation of the theorem does not hold. *)
Ltac reject := exists false; split; [reflexivity|]; split; [discriminate|]; intros [].

Section crypto_spec.
Context `{Bd : Build} {F : FastHash} {FL : FastHashLaws F} {G : Type} {R : Rng G} {RL : RngLaws R}.

(** The condition of the loop asks for a draw that is zero and not below the limit: there is
    none, so the first draw is kept. *)
Lemma random32_loop_ok n s :
  rng_ok s →
  ∃ l s', random_bytes 32 s = Some (l, s') ∧ bytes32 l ∧ rng_ok s' ∧
    random32_loop (S n) s = Some (l, s').
Proof.
  intros Hs. destruct (random_bytes_total 32 s Hs) as (l & s' & E & HL & HB & Hs').
  exists l, s'. split; [exact E|]. split; [by split|]. split; [exact Hs'|].
  cbn [random32_loop]. rewrite (rand_step _ _ _ _ _ E).
  destruct limit_ok as [H32 H15]. rewrite less32_ok, H15, sc_isnonzero_ok by done.
  destruct (Z.eqb_spec (le_combine l) 0) as [->|_]; reflexivity.
Qed.

Lemma random_scalar_ok s :
  rng_ok s →
  ∃ l s', random_bytes 32 s = Some (l, s') ∧ bytes32 l ∧ rng_ok s' ∧
    random_scalar s = Some (to_scalar (le_combine l), s').
Proof.
  intros Hs. destruct (random32_loop_ok 127 s Hs) as (l & s' & E & Hl & Hs' & EL).
  exists l, s'. split; [exact E|]. split; [exact Hl|]. split; [exact Hs'|].
  unfold random_scalar, random32_unbiased. rewrite (rand_step _ _ _ _ _ EL).
  unfold lift. by rewrite sc_reduce32_scalar.
Qed.

(** ** Hashes *)

(** [hash_num]: the hash as a number. *)
Definition hash_num (data : list Z) : Z := le_combine (default [] (fast_hash data)).

Lemma hash_to_scalar_ok data : hash_to_scalar data = Some (to_scalar (hash_num data)).
Proof.
  unfold hash_to_scalar, hash_num. destruct (fast_hash_total data) as (h & -> & Hh).
  by apply sc_reduce32_scalar.
Qed.

(** ** Keys *)

Definition public_of (sec : list Z) : list Z := ed_encode (mulG (le_combine sec)).

Lemma secret_key_to_public_key_ok sec :
  bytes32 sec →
  secret_key_to_public_key sec =
    Some (if le_combine sec <? L then Some (public_of sec) else None).
Proof.
  intros [HL HB]. unfold secret_key_to_public_key. rewrite sc_check_ok by done.
  destruct (Z.ltb_spec (le_combine sec) L) as [Hs|]; [|reflexivity]. cbn [Z.eqb negb].
  destruct (base_mul sec) as (h & E & _ & E'); [by split|].
  step E. step E'. unfold public_of. reflexivity.
Qed.

Lemma secret_key_to_public_key_scalar sec :
  scalar sec → secret_key_to_public_key sec = Some (Some (public_of sec)).
Proof.
  intros Hs. rewrite secret_key_to_public_key_ok by (by apply scalar_bytes32).
  pose proof (scalar_nonneg sec Hs). by rewrite (proj2 (Z.ltb_lt _ _)) by lia.
Qed.

Lemma check_key_ok P : on_curve P → check_key (ed_encode P) = Some true.
Proof.
  intros HP. unfold check_key. destruct (ge_frombytes_encode P HP) as (h & -> & _). reflexivity.
Qed.

(** The pair of [n mod L]; the number itself is returned. *)
Lemma key_pair_ok n :
  bytes32 n →
  (sec ← sc_reduce32 n; point ← ge_scalarmult_base sec; pub ← ge_p3_tobytes point;
   Some (pub, sec, n)) = Some (public_of (to_scalar (le_combine n)), to_scalar (le_combine n), n).
Proof.
  intros Hn. step (sc_reduce32_scalar n Hn).
  destruct (base_mul _ (to_scalar_scalar (le_combine n))) as (h & E & _ & E').
  step E. step E'. unfold public_of. reflexivity.
Qed.

Lemma generate_keys_ok recovery_key recover s :
  bytes32 recovery_key → rng_ok s →
  ∃ n s', rng_ok s' ∧ bytes32 n ∧
    generate_keys recovery_key recover s =
      Some (public_of (to_scalar (le_combine n)), to_scalar (le_combine n), n, s') ∧
    if recover then n = recovery_key ∧ s' = s else random_scalar s = Some (n, s').
Proof.
  intros Hk Hs. unfold generate_keys. destruct recover.
  - exists recovery_key, s. split; [exact Hs|]. split; [exact Hk|]. split; [|done].
    rewrite (rand_step (mret recovery_key) _ s recovery_key s) by reflexivity.
    unfold lift. rewrite key_pair_ok by exact Hk. reflexivity.
  - destruct (random_scalar_ok s Hs) as (l & s' & _ & Hl & Hs' & E).
    exists (to_scalar (le_combine l)), s'. split; [exact Hs'|].
    assert (bytes32 (to_scalar (le_combine l))) as Hb by (apply scalar_bytes32, to_scalar_scalar).
    split; [exact Hb|]. split; [|exact E]. rewrite (rand_step _ _ _ _ _ E).
    unfold lift. rewrite key_pair_ok by exact Hb. reflexivity.
Qed.

(** ** Derivations *)

(** A key that is not the encoding of a point. *)
Definition invalid_key (key : list Z) : Prop := ∀ P, on_curve P → ed_encode P ≠ key.

Lemma load_invalid key :
  bytes32 key → invalid_key key → ge_frombytes_vartime key = Some None.
Proof.
  intros [HL HB] Hk. destruct (ge_frombytes_outcome key HB HL) as ([h|] & E & Ho); [|exact E].
  destruct Ho as (P & [HP _] & EP). by destruct (Hk P HP).
Qed.

Lemma load_cases key :
  bytes32 key → (∃ P, on_curve P ∧ key = ed_encode P) ∨ invalid_key key.
Proof.
  intros [HL HB]. destruct (ge_frombytes_outcome key HB HL) as ([h|] & _ & Ho); [|by right].
  destruct Ho as (P & [HP _] & EP). left. exists P. split; [exact HP|]. symmetry. exact EP.
Qed.

Lemma generate_key_derivation_ok P sec :
  on_curve P → scalar sec →
  generate_key_derivation (ed_encode P) sec =
    Some (Some (ed_encode (ed_mul (8 * le_combine sec) P))).
Proof.
  intros HP Hsec. unfold generate_key_derivation.
  step (assert_true _ (sc_check_0 sec Hsec)).
  destruct (ge_frombytes_encode P HP) as (A & EA & HA). step EA. cbn iota.
  destruct (point_mul P A sec HA Hsec) as (h & E & Hh & _). step E.
  destruct (ge_mul8_ok _ _ Hh) as (h8 & E8 & H8). step E8.
  destruct (ge_p1p1_to_p2_ok _ _ H8) as (h2 & E2 & H2). step E2.
  step (ge_tobytes_ok _ _ H2). rewrite ed_mul_mul by exact HP. reflexivity.
Qed.

Lemma generate_key_derivation_invalid key sec :
  bytes32 key → invalid_key key → scalar sec → generate_key_derivation key sec = Some None.
Proof.
  intros Hk Hi Hsec. unfold generate_key_derivation.
  step (assert_true _ (sc_check_0 sec Hsec)). step (load_invalid key Hk Hi). reflexivity.
Qed.

(** The scalar of output [i] of a derivation. *)
Definition derived_scalar (derivation : list Z) (i : Z) : Z := hash_num (derivation ++ write_varint i).

Lemma derivation_to_scalar_ok derivation i :
  0 ≤ i < 2 ^ 64 →
  derivation_to_scalar derivation i = Some (to_scalar (derived_scalar derivation i)).
Proof.
  intros Hi. unfold derivation_to_scalar. rewrite assert_true; [apply hash_to_scalar_ok|].
  apply Nat.leb_le, (varint_length i); [apply write_varint_ok; lia| |unfold output_index_size; lia].
  eapply Z.lt_trans; [apply Hi|]. reflexivity.
Qed.

Lemma derive_public_key_ok derivation i P :
  0 ≤ i < 2 ^ 64 → on_curve P →
  derive_public_key derivation i (ed_encode P) =
    Some (Some (ed_encode (ed_add P (mulG (derived_scalar derivation i))))).
Proof.
  intros Hi HP. unfold derive_public_key.
  destruct (ge_frombytes_encode P HP) as (A & EA & HA). step EA. cbn iota.
  step (derivation_to_scalar_ok derivation i Hi).
  destruct (base_mul _ (to_scalar_scalar (derived_scalar derivation i))) as (h & E & Hh & _). step E.
  rewrite le_combine_to_scalar, mulG_mod in Hh.
  destruct (ge_p3_to_cached_ok _ _ Hh) as (hc & Ec & Hc). step Ec.
  destruct (ge_add_ok _ _ _ _ HA Hc) as (t & Et & Ht). step Et.
  destruct (ge_p1p1_to_p2_ok _ _ Ht) as (h2 & E2 & H2). step E2.
  step (ge_tobytes_ok _ _ H2). reflexivity.
Qed.

Lemma derive_subaddress_public_key_ok derivation i P :
  0 ≤ i < 2 ^ 64 → on_curve P →
  derive_subaddress_public_key (ed_encode P) derivation i =
    Some (Some (ed_encode (ed_add P (ed_opp (mulG (derived_scalar derivation i)))))).
Proof.
  intros Hi HP. unfold derive_subaddress_public_key.
  destruct (ge_frombytes_encode P HP) as (A & EA & HA). step EA. cbn iota.
  step (derivation_to_scalar_ok derivation i Hi).
  destruct (base_mul _ (to_scalar_scalar (derived_scalar derivation i))) as (h & E & Hh & _). step E.
  rewrite le_combine_to_scalar, mulG_mod in Hh.
  destruct (ge_p3_to_cached_ok _ _ Hh) as (hc & Ec & Hc). step Ec.
  destruct (ge_sub_ok _ _ _ _ HA Hc) as (t & Et & Ht). step Et.
  destruct (ge_p1p1_to_p2_ok _ _ Ht) as (h2 & E2 & H2). step E2.
  step (ge_tobytes_ok _ _ H2). reflexivity.
Qed.

Lemma derive_secret_key_ok derivation i base :
  0 ≤ i < 2 ^ 64 → scalar base →
  derive_secret_key derivation i base =
    Some (to_scalar (le_combine base + derived_scalar derivation i)).
Proof.
  intros Hi Hb. unfold derive_secret_key. step (assert_true _ (sc_check_0 base Hb)).
  step (derivation_to_scalar_ok derivation i Hi).
  rewrite sc_add_scalar, le_combine_to_scalar by (exact Hb || apply to_scalar_scalar).
  f_equal. apply to_scalar_inj. apply Z.add_mod_idemp_r. pose proof L_range. lia.
Qed.

Lemma derive_invalid key derivation i :
  bytes32 key → invalid_key key →
  derive_public_key derivation i key = Some None ∧
  derive_subaddress_public_key key derivation i = Some None.
Proof.
  intros Hk Hi. unfold derive_public_key, derive_subaddress_public_key.
  split; step (load_invalid key Hk Hi); reflexivity.
Qed.

(** ** Signatures *)

(** The commitment [c P + r G] of a signature. *)
Definition sig_point (P : point) (cv rv : Z) : point := ed_add (ed_mul cv P) (mulG rv).

Lemma sig_point_on_curve P cv rv : on_curve P → on_curve (sig_point P cv rv).
Proof. intros HP. apply ed_add_closed; [by apply on_curve_mul|apply mulG_on_curve]. Qed.

Lemma sig_point_signed x cv K : sig_point (mulG x) cv ((K - cv * x) mod L) = mulG K.
Proof.
  unfold sig_point. rewrite mulG_mod, mulG_mul, <- mulG_add. f_equal. lia.
Qed.

Lemma base_double P A cs rs :
  p3_is P A → scalar cs → scalar rs →
  ∃ h, ge_double_scalarmult_base_vartime cs A rs = Some h ∧
    ge_tobytes h = Some (ed_encode (sig_point P (le_combine cs) (le_combine rs))).
Proof.
  intros HA Hc Hr. destruct (ge_double_scalarmult_base_vartime_ok P A cs rs) as (h & E & Hh);
    [exact HA|by apply scalar_255..|].
  exists h. split; [exact E|]. exact (ge_tobytes_ok _ _ Hh).
Qed.

(** What the verifier hashes, and the numbers of an attempt to sign with [K]. *)
Definition challenge (prefix_hash pub : list Z) (Q : point) : Z :=
  hash_num (s_comm prefix_hash pub (ed_encode Q)) mod L.

Definition response (K cv x : Z) : Z := (K - cv * x) mod L.

Definition sign_accepts (prefix_hash pub : list Z) (x K : Z) : bool :=
  let cv := challenge prefix_hash pub (mulG K) in
  (2 ^ 224 <=? K) && negb (cv =? 0) && negb (response K cv x =? 0).

Lemma tiny_ok k : bytes32 k → (load_4 k 28 =? 0) = (le_combine k <? 2 ^ 224).
Proof.
  intros [HL HB]. rewrite load_4_spec by (done || lia).
  change (8 * Z.of_nat 28) with 224. pose proof (le_combine_bound k HB) as Hb.
  rewrite HL in Hb. change (256 ^ Z.of_nat 32) with (2 ^ 224 * 2 ^ 32) in Hb.
  rewrite Z.mod_small by (split; [apply Z.div_pos|apply Z.div_lt_upper_bound]; lia).
  apply eq_true_iff_eq. rewrite Z.eqb_eq, Z.ltb_lt, Z.div_small_iff by lia. lia.
Qed.

Lemma sign_attempt_ok prefix_hash pub sec k :
  scalar sec → scalar k →
  let cv := challenge prefix_hash pub (mulG (le_combine k)) in
  sign_attempt prefix_hash pub sec k =
    Some (if sign_accepts prefix_hash pub (le_combine sec) (le_combine k)
          then Some {| sig_c := to_scalar cv;
                       sig_r := to_scalar (le_combine k - cv * le_combine sec) |}
          else None).
Proof.
  intros Hsec Hk cv. unfold sign_attempt, sign_accepts. fold cv.
  rewrite tiny_ok, Z.ltb_antisym by (by apply scalar_bytes32).
  destruct (2 ^ 224 <=? le_combine k); [|reflexivity]. cbn [negb andb].
  destruct (base_mul k Hk) as (h & E & _ & E'). step E. step E'.
  step (hash_to_scalar_ok (s_comm prefix_hash pub (ed_encode (mulG (le_combine k))))).
  rewrite sc_isnonzero_scalar. change (hash_num _ mod L) with cv.
  assert (to_scalar (hash_num (s_comm prefix_hash pub (ed_encode (mulG (le_combine k))))) = to_scalar cv)
    as -> by (symmetry; apply to_scalar_mod).
  destruct (cv =? 0) eqn:Ec; [reflexivity|]. cbn [negb andb].
  assert (le_combine (to_scalar cv) = cv) as Ecv.
  { rewrite le_combine_to_scalar. apply Z.mod_mod. pose proof L_range. lia. }
  step (sc_mulsub_scalar _ _ _ (to_scalar_scalar cv) Hsec Hk). rewrite Ecv.
  rewrite sc_isnonzero_scalar. unfold response.
  destruct ((le_combine k - cv * le_combine sec) mod L =? 0); reflexivity.
Qed.

Lemma infinity_ok : infinity = ed_encode ed_zero.
Proof. vm_compute. reflexivity. Qed.

Lemma encode_zero P : on_curve P → ed_encode P = infinity ↔ P = ed_zero.
Proof.
  intros HP. rewrite infinity_ok. split; [|intros ->; reflexivity].
  apply ed_encode_inj; [exact HP|apply on_curve_zero].
Qed.

(** What [check_signature] accepts. *)
Record valid_signature (prefix_hash pub : list Z) (P : point) (sig : signature) : Prop := {
  vs_c : scalar (sig_c sig);
  vs_r : scalar (sig_r sig);
  vs_nonzero : le_combine (sig_c sig) ≠ 0;
  vs_point : sig_point P (le_combine (sig_c sig)) (le_combine (sig_r sig)) ≠ ed_zero;
  vs_challenge :
    challenge prefix_hash pub (sig_point P (le_combine (sig_c sig)) (le_combine (sig_r sig)))
      = le_combine (sig_c sig)
}.

Lemma debug_key_ok P : on_curve P →
  debug_only (b ← check_key (ed_encode P); abort_unless b) = Some tt.
Proof. intros HP. apply debug_only_ok. step (check_key_ok P HP). reflexivity. Qed.

Lemma sc_check_false s : bytes32 s → ¬ scalar s → sc_check s =? 0 = false.
Proof. intros Hs Hn. apply Z.eqb_neq. by rewrite sc_check_scalar. Qed.

Lemma scalar_decidable s : bytes32 s → scalar s ∨ ¬ scalar s.
Proof.
  intros [HL HB]. destruct (Z.lt_ge_cases (le_combine s) L); [left; by split|right].
  intros [_ _ Hs]. lia.
Qed.

Lemma sub_is_zero a cs :
  scalar cs → ((a mod L - le_combine cs) mod L =? 0) = (a mod L =? le_combine cs).
Proof.
  intros Hc. pose proof (scalar_nonneg cs Hc). pose proof L_range.
  pose proof (Z.mod_pos_bound a L).
  destruct (Z.eqb_spec (a mod L) (le_combine cs)) as [->|Hn].
  { by rewrite Z.sub_diag, Z.mod_0_l by lia. }
  apply Z.eqb_neq. intros E%Z.mod_divide; [|lia]. destruct E as [q Hq].
  assert (0 < L) by lia. generalize dependent L. intros l **.
  destruct (Z.lt_trichotomy q 0) as [|[->|]]; nia.
Qed.

(** The comparison at the end of the three checking functions. *)
Lemma compare_challenge data cs :
  scalar cs →
  (h ← hash_to_scalar data; d ← sc_sub h cs; Some (sc_isnonzero d =? 0)) =
    Some (hash_num data mod L =? le_combine cs).
Proof.
  intros Hc. step (hash_to_scalar_ok data). step (sc_sub_scalar _ _ (to_scalar_scalar (hash_num data)) Hc).
  rewrite le_combine_to_scalar, sc_isnonzero_scalar, sub_is_zero by exact Hc. reflexivity.
Qed.

Lemma check_signature_ok prefix_hash P sig :
  on_curve P → bytes32 (sig_c sig) → bytes32 (sig_r sig) →
  ∃ b, check_signature prefix_hash (ed_encode P) sig = Some b ∧
    (b = true ↔ valid_signature prefix_hash (ed_encode P) P sig).
Proof.
  intros HP Hc Hr. unfold check_signature. step (debug_key_ok P HP).
  destruct (ge_frombytes_encode P HP) as (A & EA & HA). step EA. cbn iota.
  destruct (scalar_decidable _ Hc) as [Sc|Sc];
    [rewrite (sc_check_0 _ Sc)|rewrite (sc_check_false _ Hc Sc); reject; by destruct Sc].
  destruct (scalar_decidable _ Hr) as [Sr|Sr];
    [rewrite (sc_check_0 _ Sr)|rewrite (sc_check_false _ Hr Sr); reject; by destruct Sr].
  cbn [negb orb]. destruct Hc as [Lc Bc]. rewrite sc_isnonzero_ok by done.
  destruct (Z.eqb_spec (le_combine (sig_c sig)) 0) as [E0|E0].
  { reject. by destruct E0. }
  cbn [Z.eqb]. destruct (base_double P A _ _ HA Sc Sr) as (h & E & E'). step E. step E'.
  set (Q := sig_point P _ _). assert (on_curve Q) as HQ by (by apply sig_point_on_curve).
  rewrite compare_challenge by exact Sc.
  destruct (bool_decide (ed_encode Q = infinity)) eqn:Ei.
  { apply bool_decide_eq_true_1, encode_zero in Ei; [|exact HQ]. reject. by destruct Ei. }
  apply bool_decide_eq_false_1 in Ei. eexists. split; [reflexivity|]. rewrite Z.eqb_eq.
  split; [intros Eq; split; try assumption|by intros []].
  intros EQ. apply Ei. by apply encode_zero.
Qed.

Lemma check_key_pair_ok sec : scalar sec → check_key_pair (public_of sec) sec = Some tt.
Proof.
  intros Hsec. unfold check_key_pair. rewrite (sc_check_0 _ Hsec). step (eq_refl (Some tt)).
  destruct (base_mul sec Hsec) as (h & E & _ & E'). step E. step E'.
  unfold public_of. by rewrite bool_decide_eq_true_2.
Qed.

(** A signature that an attempt produces is valid. *)
Lemma sign_attempt_valid prefix_hash sec k :
  scalar sec → scalar k →
  let pub := public_of sec in
  let cv := challenge prefix_hash pub (mulG (le_combine k)) in
  sign_accepts prefix_hash pub (le_combine sec) (le_combine k) = true →
  valid_signature prefix_hash pub (mulG (le_combine sec))
    {| sig_c := to_scalar cv; sig_r := to_scalar (le_combine k - cv * le_combine sec) |}.
Proof.
  intros Hsec Hk pub cv HA. unfold sign_accepts in HA. fold cv in HA.
  apply andb_true_iff in HA as [[H1 H2]%andb_true_iff _].
  apply Z.leb_le in H1. apply negb_true_iff, Z.eqb_neq in H2.
  assert (le_combine (to_scalar cv) = cv) as Ecv.
  { rewrite le_combine_to_scalar. apply Z.mod_mod. pose proof L_range. lia. }
  assert (∀ n, le_combine (to_scalar n) = n mod L) as En by apply le_combine_to_scalar.
  split; cbn [Crypto.sig_c Crypto.sig_r]; try apply to_scalar_scalar; rewrite ?Ecv.
  - exact H2.
  - rewrite En, sig_point_signed. intros E%mulG_zero.
    pose proof (scalar_nonneg k Hk). apply Z.divide_pos_le in E; lia.
  - rewrite En, sig_point_signed. reflexivity.
Qed.

(** Every one of the next [n] draws is refused. *)
Fixpoint all_refused (n : nat) (prefix_hash pub : list Z) (x : Z) (s : G) : Prop :=
  match n with
  | O => True
  | S n' => ∃ k s', random_scalar s = Some (k, s') ∧
      sign_accepts prefix_hash pub x (le_combine k) = false ∧
      all_refused n' prefix_hash pub x s'
  end.

Lemma sign_loop_ok n prefix_hash sec s :
  scalar sec → rng_ok s →
  match sign_loop n prefix_hash (public_of sec) sec s with
  | Some (sig, s') =>
      rng_ok s' ∧ valid_signature prefix_hash (public_of sec) (mulG (le_combine sec)) sig
  | None => all_refused n prefix_hash (public_of sec) (le_combine sec) s
  end.
Proof.
  intros Hsec. revert s. induction n as [|n IH]; intros s Hs; [exact I|]. cbn [sign_loop all_refused].
  destruct (random_scalar_ok s Hs) as (l & s' & _ & _ & Hs' & E).
  rewrite (rand_step _ _ _ _ _ E). set (k := to_scalar (le_combine l)) in *.
  assert (scalar k) as Hk by apply to_scalar_scalar.
  rewrite (rand_lift _ _ _ _ (sign_attempt_ok prefix_hash (public_of sec) sec k Hsec Hk)).
  destruct (sign_accepts _ _ _ _) eqn:EA.
  - unfold mret, rand_ret. split; [exact Hs'|]. exact (sign_attempt_valid _ _ _ Hsec Hk EA).
  - specialize (IH s' Hs'). destruct (sign_loop n _ _ _ s') as [[sig s'']|]; [exact IH|].
    exists k, s'. split; [exact E|]. split; [exact EA|exact IH].
Qed.

Lemma check_valid prefix_hash P sig :
  on_curve P → valid_signature prefix_hash (ed_encode P) P sig →
  check_signature prefix_hash (ed_encode P) sig = Some true.
Proof.
  intros HP HV. destruct (check_signature_ok prefix_hash P sig HP) as (b & E & Hb);
    [apply scalar_bytes32, HV..|]. rewrite E. f_equal. by apply Hb.
Qed.

Lemma generate_signature_ok n prefix_hash sec s :
  scalar sec → rng_ok s →
  match generate_signature n prefix_hash (public_of sec) sec s with
  | Some (sig, s') => rng_ok s' ∧ check_signature prefix_hash (public_of sec) sig = Some true
  | None => all_refused n prefix_hash (public_of sec) (le_combine sec) s
  end.
Proof.
  intros Hsec Hs. unfold generate_signature.
  rewrite (rand_lift _ _ _ _ (debug_only_ok _ (check_key_pair_ok sec Hsec))).
  pose proof (sign_loop_ok n prefix_hash sec s Hsec Hs) as HL.
  destruct (sign_loop n _ _ _ s) as [[sig s']|]; [|exact HL]. destruct HL as [Hs' HV].
  split; [exact Hs'|]. apply check_valid; [apply mulG_on_curve|exact HV].
Qed.

End crypto_spec.

(** ** The properties

    of the code with its hash function and its random generator. *)

(** C36. Random scalars: [random32_unbiased] takes one draw of 32 bytes, keeps it whatever it
    is, and returns it modulo [L].  Its loop never draws again, so a draw that is zero or
    that is not below the limit [15 L] is kept too. *)
Theorem random32_spec (B : Build) (s : random_state) (Hs : random_ready s) :
  ∃ l s', generate_random_bytes_thread_safe 32 s = Some (l, s') ∧ random_ready s' ∧ bytes32 l ∧
    random32_unbiased s = Some (to_scalar (le_combine l), s') ∧ scalar (to_scalar (le_combine l)).
Proof.
  destruct (random_scalar_ok s (rng_ready s Hs)) as (l & s' & E & Hl & Hs' & E').
  exists l, s'. split; [exact E|]. split; [exact Hs'|]. split; [exact Hl|]. split; [exact E'|].
  apply to_scalar_scalar.
Qed.

(** Keys: the public key of a secret below [L] is the encoding of its multiple of the
    base point, other secrets are refused; [generate_keys] returns a pair that matches, for a
    new key or for the key that is recovered, and its public key passes [check_key]. *)
Theorem keys_spec (B : Build) (sec recovery_key : list Z) (recover : bool) (s : random_state)
    (Hsec : bytes32 sec) (Hrk : bytes32 recovery_key) (Hs : random_ready s) :
  secret_key_to_public_key sec =
    Some (if le_combine sec <? L then Some (ed_encode (ed_mul (le_combine sec) B25519)) else None) ∧
  ∃ pub sk rng s', generate_keys recovery_key recover s = Some (pub, sk, rng, s') ∧
    random_ready s' ∧ scalar sk ∧ le_combine sk = le_combine rng mod L ∧
    (if recover then rng = recovery_key ∧ s' = s else random32_unbiased s = Some (rng, s')) ∧
    secret_key_to_public_key sk = Some (Some pub) ∧ check_key pub = Some true.
Proof.
  split; [exact (secret_key_to_public_key_ok sec Hsec)|].
  destruct (generate_keys_ok recovery_key recover s Hrk (rng_ready s Hs)) as (n & s' & Hs' & Hn & E & Hr).
  pose proof (to_scalar_scalar (le_combine n)) as HS.
  eexists _, _, n, s'. split; [exact E|]. split; [exact Hs'|]. split; [exact HS|].
  split; [apply le_combine_to_scalar|]. split; [exact Hr|].
  split; [exact (secret_key_to_public_key_scalar _ HS)|]. apply check_key_ok, mulG_on_curve.
Qed.

(** Key derivations agree: the sender, with the secret transaction key and the public view
    key, and the receiver, with the secret view key and the public transaction key, derive the
    same point, eight times the product; a key that is not a point is refused. *)
Theorem derivation_spec (B : Build) (a b key : list Z)
    (Ha : scalar a) (Hb : scalar b) (Hk : bytes32 key) :
  (∃ pa pb D, secret_key_to_public_key a = Some (Some pa) ∧
    secret_key_to_public_key b = Some (Some pb) ∧
    generate_key_derivation pa b = Some (Some D) ∧ generate_key_derivation pb a = Some (Some D) ∧
    D = ed_encode (ed_mul (8 * le_combine a * le_combine b) B25519)) ∧
  (invalid_key key → generate_key_derivation key a = Some None).
Proof.
  split; [|intros Hi; exact (generate_key_derivation_invalid key a Hk Hi Ha)].
  exists (public_of a), (public_of b), (ed_encode (mulG (8 * le_combine a * le_combine b))).
  split; [by apply secret_key_to_public_key_scalar|].
  split; [by apply secret_key_to_public_key_scalar|].
  unfold public_of. rewrite !generate_key_derivation_ok, !mulG_mul by first [assumption|apply mulG_on_curve].
  split; [do 4 f_equal; lia|]. split; [do 4 f_equal; lia|]. reflexivity.
Qed.

(** C20. One-time keys: for every derivation and output index, the secret key that the receiver
    derives belongs to the public key that the sender derives, and
    [derive_subaddress_public_key] takes the derived key back to the base key. *)
Theorem derive_key_spec (B : Build) (derivation sec : list Z) (output_index : Z)
    (Hsec : scalar sec) (Hi : 0 ≤ output_index < 2 ^ 64) :
  ∃ base derived derived_sec,
    secret_key_to_public_key sec = Some (Some base) ∧
    derive_public_key derivation output_index base = Some (Some derived) ∧
    derive_secret_key derivation output_index sec = Some derived_sec ∧
    secret_key_to_public_key derived_sec = Some (Some derived) ∧
    derive_subaddress_public_key derived derivation output_index = Some (Some base).
Proof.
  set (d := derived_scalar derivation output_index).
  exists (public_of sec), (ed_encode (mulG (le_combine sec + d))), (to_scalar (le_combine sec + d)).
  split; [by apply secret_key_to_public_key_scalar|].
  unfold public_of at 1. rewrite derive_public_key_ok by first [exact Hi|apply mulG_on_curve].
  fold d. rewrite <- mulG_add. split; [reflexivity|].
  split; [exact (derive_secret_key_ok derivation output_index sec Hi Hsec)|].
  rewrite secret_key_to_public_key_scalar by apply to_scalar_scalar. unfold public_of.
  rewrite le_combine_to_scalar, mulG_mod. split; [reflexivity|].
  rewrite derive_subaddress_public_key_ok by first [exact Hi|apply mulG_on_curve]. fold d.
  rewrite mulG_add, <- ed_add_assoc, ed_add_opp_r, ed_add_0_r
    by first [apply mulG_on_curve|apply on_curve_opp, mulG_on_curve]. reflexivity.
Qed.

(** C19. What a signature proves: [check_signature] accepts exactly the pairs [(c, r)] of
    scalars below [L] with [c] not zero such that [c P + r G] is not the point at infinity
    and [c] is the hash of the message, the key and that point; with a key that is not a point
    it returns false, or aborts in the debug build. *)
Theorem check_signature_spec (B : Build) (prefix_hash pub : list Z) (sig : signature)
    (Hp : bytes32 pub) (Hc : bytes32 (sig_c sig)) (Hr : bytes32 (sig_r sig)) :
  (∃ P b, on_curve P ∧ pub = ed_encode P ∧ check_signature prefix_hash pub sig = Some b ∧
    (b = true ↔ valid_signature prefix_hash pub P sig)) ∨
  (invalid_key pub ∧
    check_signature prefix_hash pub sig = if NDEBUG then Some false else None).
Proof.
  destruct (load_cases pub Hp) as [(P & HP & ->)|Hi]; [left|right; split; [exact Hi|]].
  - destruct (check_signature_ok prefix_hash P sig HP Hc Hr) as (b & E & Hb).
    exists P, b. split; [exact HP|]. split; [reflexivity|]. split; [exact E|exact Hb].
  - unfold check_signature, check_key, debug_only.
    pose proof (load_invalid pub Hp Hi) as E. destruct (NDEBUG).
    + step (eq_refl (Some tt)). step E. reflexivity.
    + rewrite E. reflexivity.
Qed.

(** C18. Signing: for every key pair and every state of the generator, [generate_signature]
    aborts for no reason but the number of attempts allowed, when every draw is refused
    (smaller than [2 ^ 224], or with a challenge or a response that is zero); otherwise it
    returns a signature that [check_signature] accepts. *)
Theorem generate_signature_spec (B : Build) (n : nat) (prefix_hash sec : list Z) (s : random_state)
    (Hsec : scalar sec) (Hs : random_ready s) :
  ∃ pub, secret_key_to_public_key sec = Some (Some pub) ∧
    match generate_signature n prefix_hash pub sec s with
    | Some (sig, s') => random_ready s' ∧ check_signature prefix_hash pub sig = Some true
    | None => all_refused n prefix_hash pub (le_combine sec) s
    end.
Proof.
  exists (public_of sec). split; [by apply secret_key_to_public_key_scalar|].
  exact (generate_signature_ok n prefix_hash sec s Hsec (rng_ready s Hs)).
Qed.

(** ** Witnesses *)

Definition ready_state : random_state := {| state := replicate 25 7; curstate := 1 |}.

Lemma ready_state_ok `{Build} : random_ready ready_state.
Proof. split; reflexivity. Qed.

Lemma scalar_bytes32_id n : bytes32 (to_scalar n).
Proof. apply scalar_bytes32, to_scalar_scalar. Qed.

Definition debug_build : Build := false.
#[local] Existing Instance debug_build.

Lemma random32_spec_witness :
  ∃ l s', generate_random_bytes_thread_safe 32 ready_state = Some (l, s') ∧ random_ready s' ∧
    bytes32 l ∧ random32_unbiased ready_state = Some (to_scalar (le_combine l), s') ∧
    scalar (to_scalar (le_combine l)).
Proof. exact (random32_spec false ready_state ready_state_ok). Defined.

Lemma keys_spec_witness :
  ∃ pub sk rng s', generate_keys (to_scalar 5) false ready_state = Some (pub, sk, rng, s') ∧
    secret_key_to_public_key sk = Some (Some pub) ∧ check_key pub = Some true.
Proof.
  destruct (keys_spec false (to_scalar 5) (to_scalar 5) false ready_state (scalar_bytes32_id 5)
    (scalar_bytes32_id 5) ready_state_ok) as [_ (pub & sk & rng & s' & E & _ & _ & _ & _ & E1 & E2)].
  exists pub, sk, rng, s'. split; [exact E|]. split; [exact E1|exact E2].
Defined.

Lemma derivation_spec_witness :
  ∃ pa pb D, secret_key_to_public_key (to_scalar 5) = Some (Some pa) ∧
    secret_key_to_public_key (to_scalar 7) = Some (Some pb) ∧
    generate_key_derivation pa (to_scalar 7) = Some (Some D) ∧
    generate_key_derivation pb (to_scalar 5) = Some (Some D).
Proof.
  destruct (derivation_spec false (to_scalar 5) (to_scalar 7) (to_scalar 5) (to_scalar_scalar 5)
    (to_scalar_scalar 7) (scalar_bytes32_id 5)) as [(pa & pb & D & E1 & E2 & E3 & E4 & _) _].
  exists pa, pb, D. split; [exact E1|]. split; [exact E2|]. split; [exact E3|exact E4].
Defined.

Lemma derive_key_spec_witness :
  ∃ base derived derived_sec,
    secret_key_to_public_key (to_scalar 5) = Some (Some base) ∧
    derive_public_key [7] 300 base = Some (Some derived) ∧
    derive_secret_key [7] 300 (to_scalar 5) = Some derived_sec ∧
    secret_key_to_public_key derived_sec = Some (Some derived) ∧
    derive_subaddress_public_key derived [7] 300 = Some (Some base).
Proof. apply (derive_key_spec false [7] (to_scalar 5) 300 (to_scalar_scalar 5)). lia. Defined.

Lemma check_signature_spec_witness :
  let pub := ed_encode (mulG 5) in
  let sig := {| sig_c := to_scalar 1; sig_r := to_scalar 2 |} in
  (∃ P b, on_curve P ∧ pub = ed_encode P ∧ check_signature [] pub sig = Some b ∧
    (b = true ↔ valid_signature [] pub P sig)) ∨
  (invalid_key pub ∧ check_signature [] pub sig = None).
Proof.
  intros pub sig. exact (check_signature_spec false [] pub sig (bytes32_encode (mulG 5))
    (scalar_bytes32_id 1) (scalar_bytes32_id 2)).
Defined.

Lemma generate_signature_spec_witness :
  ∃ pub, secret_key_to_public_key (to_scalar 5) = Some (Some pub) ∧
    match generate_signature 1 [] pub (to_scalar 5) ready_state with
    | Some (sig, s') => random_ready s' ∧ check_signature [] pub sig = Some true
    | None => all_refused 1 [] pub (le_combine (to_scalar 5)) ready_state
    end.
Proof.
  exact (generate_signature_spec false 1 [] (to_scalar 5) ready_state (to_scalar_scalar 5) ready_state_ok).
Defined.
