(* ===== verification/TxProofSpec.v ===== *)
(** * Correctness of the proofs of a transaction key

    [generate_tx_proof] and [check_tx_proof]: which proofs are accepted, that a
    generated proof is accepted, and which error is thrown for a key that is
    not a point. *)

From S2P Require Export CryptoSpec.

#[local] Open Scope Z_scope.

Section tx_proof_spec.
Context `{Bd : Build} {F : FastHash} {FL : FastHashLaws F} {G : Type} {R : Rng G} {RL : RngLaws R}.

(** ** The base of [R]: the point [B] when it is given, otherwise the base point *)

Definition base_of (B : option point) : point := default B25519 B.

Definition encode_optional (B : option point) : option (list Z) := ed_encode <$> B.

Definition base_is (P : point) (Bo : option ge_p3) : Prop :=
  match Bo with
  | Some h => p3_is P h
  | None => P = B25519
  end.

Lemma base_of_on_curve B : (∀ P, B = Some P → on_curve P) → on_curve (base_of B).
Proof. intros HB. destruct B as [P|]; [by apply HB|exact (proj1 l_torsion_B)]. Qed.

Lemma load_optional_ok B :
  (∀ P, B = Some P → on_curve P) →
  ∃ Bo, load_optional (encode_optional B) = Some (Some Bo) ∧ base_is (base_of B) Bo.
Proof.
  intros HB. destruct B as [P|]; cbn [load_optional encode_optional fmap option_fmap option_map].
  - destruct (ge_frombytes_encode P (HB P eq_refl)) as (h & E & Hh). exists (Some h).
    split; [|exact Hh]. step E. reflexivity.
  - exists None. split; reflexivity.
Qed.

Lemma mul_B_or_G_ok P Bo k :
  base_is P Bo → scalar k → mul_B_or_G k Bo = Some (ed_encode (ed_mul (le_combine k) P)).
Proof.
  intros HB Hk. destruct Bo as [h|]; cbn [mul_B_or_G base_is] in *.
  - destruct (point_mul P h k HB Hk) as (q & E & _ & E'). step E. exact E'.
  - rewrite HB. destruct (base_mul k Hk) as (q & E & _ & E'). step E. exact E'.
Qed.

Lemma scalarmult_via_bytes_ok P A a :
  p3_is P A → scalar a →
  ∃ h, scalarmult_via_bytes a A = Some (Some h) ∧ p3_is (ed_mul (le_combine a) P) h.
Proof.
  intros HA Ha. unfold scalarmult_via_bytes.
  destruct (point_mul P A a HA Ha) as (q & E & Hq & E').
  destruct (ge_frombytes_encode _ (proj1 Hq)) as (h & Eh & Hh). exists h.
  split; [|exact Hh]. step E. step E'. exact Eh.
Qed.

Lemma add_tobytes_ok P Q p q :
  p3_is P p → p3_is Q q → add_tobytes p q = Some (ed_encode (ed_add P Q)).
Proof.
  intros HP HQ. unfold add_tobytes.
  destruct (ge_p3_to_cached_ok _ _ HQ) as (hc & Ec & Hc). step Ec.
  destruct (ge_add_ok _ _ _ _ HP Hc) as (t & Et & Ht). step Et.
  destruct (ge_p1p1_to_p2_ok _ _ Ht) as (h2 & E2 & H2). step E2.
  exact (ge_tobytes_ok _ _ H2).
Qed.

(** ** Checking *)

(** [sig.c * U + sig.r * V] *)
Definition combine (sig : signature) (U V : point) : point :=
  ed_add (ed_mul (le_combine (sig_c sig)) U) (ed_mul (le_combine (sig_r sig)) V).

(** What [check_tx_proof] accepts. *)
Record valid_tx_proof (prefix_hash : list Z) (Rp A : point) (B : option point) (D : point)
    (sig : signature) : Prop := {
  vt_c : scalar (sig_c sig);
  vt_r : scalar (sig_r sig);
  vt_challenge :
    hash_num (s_comm_2 prefix_hash (ed_encode D) (ed_encode (combine sig Rp (base_of B)))
         (ed_encode (combine sig D A))) mod L = le_combine (sig_c sig)
}.

Lemma mul_base_or_G P Bo k :
  base_is P Bo → scalar k →
  ∃ h, match Bo with
    | Some B_p3 => scalarmult_via_bytes k B_p3
    | None => p ← ge_scalarmult_base k; Some (Some p)
    end = Some (Some h) ∧ p3_is (ed_mul (le_combine k) P) h.
Proof.
  intros HB Hk. destruct Bo as [b|]; cbn [base_is] in HB.
  - exact (scalarmult_via_bytes_ok P b k HB Hk).
  - destruct (base_mul k Hk) as (q & E & Hq & _). exists q. rewrite HB.
    split; [step E; reflexivity|exact Hq].
Qed.

Lemma check_tx_proof_ok prefix_hash Rp A B D sig :
  on_curve Rp → on_curve A → (∀ P, B = Some P → on_curve P) → on_curve D →
  bytes32 (sig_c sig) → bytes32 (sig_r sig) →
  ∃ b, check_tx_proof prefix_hash (ed_encode Rp) (ed_encode A) (encode_optional B) (ed_encode D) sig
      = Some b ∧ (b = true ↔ valid_tx_proof prefix_hash Rp A B D sig).
Proof.
  intros HR HA HB HD Hc Hr. unfold check_tx_proof.
  destruct (ge_frombytes_encode Rp HR) as (R3 & ER & HR3). step ER. cbn iota.
  destruct (ge_frombytes_encode A HA) as (A3 & EA & HA3). step EA. cbn iota.
  destruct (load_optional_ok B HB) as (Bo & EB & HBo). step EB. cbn iota.
  destruct (ge_frombytes_encode D HD) as (D3 & ED & HD3). step ED. cbn iota.
  destruct (scalar_decidable _ Hc) as [Sc|Sc];
    [rewrite (sc_check_0 _ Sc)|rewrite (sc_check_false _ Hc Sc); reject; by destruct Sc].
  destruct (scalar_decidable _ Hr) as [Sr|Sr];
    [rewrite (sc_check_0 _ Sr)|rewrite (sc_check_false _ Hr Sr); reject; by destruct Sr].
  cbn [negb orb].
  destruct (scalarmult_via_bytes_ok Rp R3 _ HR3 Sc) as (cR & E1 & HcR). step E1. cbn iota.
  destruct (mul_base_or_G _ Bo _ HBo Sr) as (rB & E2 & HrB). step E2. cbn iota.
  step (add_tobytes_ok _ _ _ _ HcR HrB).
  destruct (scalarmult_via_bytes_ok D D3 _ HD3 Sc) as (cD & E3 & HcD). step E3. cbn iota.
  destruct (scalarmult_via_bytes_ok A A3 _ HA3 Sr) as (rA & E4 & HrA). step E4. cbn iota.
  step (add_tobytes_ok _ _ _ _ HcD HrA).
  rewrite compare_challenge by exact Sc. eexists. split; [reflexivity|]. rewrite Z.eqb_eq.
  split; [intros Eq; split; assumption|by intros []].
Qed.

(** ** Generating *)

Lemma check_tx_keys_ok A A3 P Bo sec :
  p3_is A A3 → base_is P Bo → scalar sec →
  check_tx_keys (ed_encode (ed_mul (le_combine sec) P)) (ed_encode (ed_mul (le_combine sec) A))
    sec A3 Bo = Some tt.
Proof.
  intros HA HB Hs. unfold check_tx_keys. rewrite (sc_check_0 _ Hs). step (eq_refl (Some tt)).
  step (mul_B_or_G_ok P Bo sec HB Hs). rewrite bool_decide_eq_true_2 by reflexivity.
  step (eq_refl (Some tt)). destruct (point_mul A A3 sec HA Hs) as (h & E & _ & E').
  step E. step E'. rewrite bool_decide_eq_true_2 by reflexivity. reflexivity.
Qed.

(** The proof made with the draw [K]. *)
Definition tx_challenge (prefix_hash : list Z) (A : point) (B : option point) (D : point) (K : Z) : Z :=
  hash_num (s_comm_2 prefix_hash (ed_encode D) (ed_encode (ed_mul K (base_of B))) (ed_encode (ed_mul K A))).

Definition tx_signature (prefix_hash : list Z) (A : point) (B : option point) (D : point) (x K : Z) :
    signature :=
  let cv := tx_challenge prefix_hash A B D K mod L in
  {| sig_c := to_scalar cv; sig_r := to_scalar (K - cv * x) |}.

Lemma tx_proof_ok prefix_hash A A3 B Bo D sec k :
  p3_is A A3 → base_is (base_of B) Bo → scalar sec → scalar k →
  tx_proof prefix_hash (ed_encode D) sec A3 Bo k =
    Some (tx_signature prefix_hash A B D (le_combine sec) (le_combine k)).
Proof.
  intros HA HB Hs Hk. unfold tx_proof. step (mul_B_or_G_ok _ Bo k HB Hk).
  destruct (point_mul A A3 k HA Hk) as (h & E & _ & E'). step E. step E'.
  step (hash_to_scalar_ok (s_comm_2 prefix_hash (ed_encode D)
    (ed_encode (ed_mul (le_combine k) (base_of B))) (ed_encode (ed_mul (le_combine k) A)))).
  fold (tx_challenge prefix_hash A B D (le_combine k)).
  set (cv := tx_challenge prefix_hash A B D (le_combine k)).
  step (sc_mulsub_scalar _ _ _ (to_scalar_scalar cv) Hs Hk).
  unfold tx_signature. fold cv. rewrite le_combine_to_scalar, to_scalar_mod. reflexivity.
Qed.

Lemma torsion_sum P a b : l_torsion P → ed_add (ed_mul a P) (ed_mul (b mod L) P) = ed_mul (a + b) P.
Proof.
  intros HP. rewrite l_torsion_mod by exact HP. symmetry. apply ed_mul_add. exact (proj1 HP).
Qed.

(** In the subgroup of order [L] the proof of [x] is accepted. *)
Lemma tx_signature_valid prefix_hash A B x K :
  l_torsion A → l_torsion (base_of B) →
  let D := ed_mul x A in
  valid_tx_proof prefix_hash (ed_mul x (base_of B)) A B D (tx_signature prefix_hash A B D x K).
Proof.
  intros HA HB D. unfold tx_signature.
  set (cv := tx_challenge prefix_hash A B D K mod L).
  assert (le_combine (to_scalar cv) = cv) as Ecv.
  { rewrite le_combine_to_scalar. apply Z.mod_mod. pose proof L_range. lia. }
  assert (∀ P, l_torsion P →
    ed_add (ed_mul cv (ed_mul x P)) (ed_mul (le_combine (to_scalar (K - cv * x))) P) = ed_mul K P)
    as HK.
  { intros P HP. rewrite le_combine_to_scalar, ed_mul_mul by exact (proj1 HP).
    rewrite torsion_sum by exact HP. f_equal. lia. }
  split; cbn [Crypto.sig_c Crypto.sig_r]; [apply to_scalar_scalar..|].
  unfold combine. cbn [Crypto.sig_c Crypto.sig_r]. rewrite Ecv. unfold D.
  rewrite (HK _ HA), (HK _ HB). reflexivity.
Qed.

Lemma generate_tx_proof_ok prefix_hash A B sec s :
  on_curve A → (∀ P, B = Some P → on_curve P) → scalar sec → rng_ok s →
  let D := ed_mul (le_combine sec) A in
  ∃ K s', rng_ok s' ∧
    generate_tx_proof prefix_hash (ed_encode (ed_mul (le_combine sec) (base_of B))) (ed_encode A)
      (encode_optional B) (ed_encode D) sec s =
    Some (inr (tx_signature prefix_hash A B D (le_combine sec) K), s').
Proof.
  intros HA HB Hsec Hs D. pose proof (base_of_on_curve B HB) as HBc. unfold generate_tx_proof.
  destruct (ge_frombytes_encode _ (on_curve_mul (le_combine sec) _ HBc)) as (R3 & ER & _).
  rewrite (rand_lift _ _ _ _ ER). cbn iota.
  destruct (ge_frombytes_encode A HA) as (A3 & EA & HA3). rewrite (rand_lift _ _ _ _ EA). cbn iota.
  destruct (load_optional_ok B HB) as (Bo & EB & HBo). rewrite (rand_lift _ _ _ _ EB). cbn iota.
  destruct (ge_frombytes_encode _ (on_curve_mul (le_combine sec) _ HA)) as (D3 & ED & _).
  fold D in ED. rewrite (rand_lift _ _ _ _ ED). cbn iota.
  rewrite (rand_lift _ _ _ _ (debug_only_ok _ (check_tx_keys_ok A A3 _ Bo sec HA3 HBo Hsec))).
  destruct (random_scalar_ok s Hs) as (l & s' & _ & _ & Hs' & E).
  rewrite (rand_step _ _ _ _ _ E).
  rewrite (rand_lift _ _ _ _ (tx_proof_ok prefix_hash A A3 B Bo D sec _ HA3 HBo Hsec
    (to_scalar_scalar (le_combine l)))).
  eexists _, s'. split; [exact Hs'|]. reflexivity.
Qed.

(** The errors, in the order in which the keys are read. *)
Lemma generate_tx_proof_invalid prefix_hash Rk A B D sec s :
  bytes32 Rk → bytes32 A → (∀ b, B = Some b → bytes32 b) → bytes32 D →
  let throws e := generate_tx_proof prefix_hash Rk A B D sec s = Some (inl e, s) in
  (invalid_key Rk → throws tx_pubkey_is_invalid) ∧
  (¬ invalid_key Rk → invalid_key A → throws recipient_view_pubkey_is_invalid) ∧
  (∀ b, B = Some b → ¬ invalid_key Rk → ¬ invalid_key A → invalid_key b →
    throws recipient_spend_pubkey_is_invalid) ∧
  (¬ invalid_key Rk → ¬ invalid_key A → (∀ b, B = Some b → ¬ invalid_key b) → invalid_key D →
    throws key_derivation_is_invalid).
Proof.
  intros HR HA HB HD throws. unfold throws, generate_tx_proof.
  assert (∀ k, bytes32 k → ¬ invalid_key k → ∃ h, ge_frombytes_vartime k = Some (Some h)) as Hload.
  { intros k Hk Hv. destruct (load_cases k Hk) as [(P & HP & ->)|]; [|done].
    destruct (ge_frombytes_encode P HP) as (h & E & _). by exists h. }
  split; [|split; [|split]].
  - intros Hi. rewrite (rand_lift _ _ _ _ (load_invalid _ HR Hi)). reflexivity.
  - intros Hv Hi. destruct (Hload Rk HR Hv) as [h E]. rewrite (rand_lift _ _ _ _ E). cbn iota.
    rewrite (rand_lift _ _ _ _ (load_invalid _ HA Hi)). reflexivity.
  - intros b -> Hv Hv' Hi. destruct (Hload Rk HR Hv) as [h E]. rewrite (rand_lift _ _ _ _ E). cbn iota.
    destruct (Hload A HA Hv') as [h' E']. rewrite (rand_lift _ _ _ _ E'). cbn iota.
    unfold load_optional. rewrite (load_invalid b (HB b eq_refl) Hi). reflexivity.
  - intros Hv Hv' Hb Hi. destruct (Hload Rk HR Hv) as [h E]. rewrite (rand_lift _ _ _ _ E). cbn iota.
    destruct (Hload A HA Hv') as [h' E']. rewrite (rand_lift _ _ _ _ E'). cbn iota.
    assert (∃ Bo, load_optional B = Some (Some Bo)) as [Bo EB].
    { destruct B as [b|]; [|by exists None]. unfold load_optional.
      destruct (Hload b (HB b eq_refl) (Hb b eq_refl)) as [h3 E3]. exists (Some h3).
      step E3. reflexivity. }
    rewrite (rand_lift _ _ _ _ EB). cbn iota.
    rewrite (rand_lift _ _ _ _ (load_invalid D HD Hi)). reflexivity.
Qed.

End tx_proof_spec.

(** ** The properties *)

(** C22. Proofs of a transaction key are accepted: for a view key [A] and an optional spend key
    [B] in the subgroup of order [L], [R = r B] (or [r G]) and [D = r A], the proof that
    [generate_tx_proof] returns is accepted by [check_tx_proof]. *)
Theorem generate_tx_proof_spec (Bd : Build) (prefix_hash : list Z) (A : point) (B : option point)
    (sec : list Z) (s : random_state)
    (HA : l_torsion A) (HB : ∀ P, B = Some P → l_torsion P) (Hsec : scalar sec)
    (Hs : random_ready s) :
  let R := ed_encode (ed_mul (le_combine sec) (base_of B)) in
  let D := ed_encode (ed_mul (le_combine sec) A) in
  ∃ sig s', random_ready s' ∧
    generate_tx_proof prefix_hash R (ed_encode A) (encode_optional B) D sec s = Some (inr sig, s') ∧
    check_tx_proof prefix_hash R (ed_encode A) (encode_optional B) D sig = Some true.
Proof.
  intros R D. pose proof (proj1 HA) as HAc.
  assert (∀ P, B = Some P → on_curve P) as HBc by (intros P E; exact (proj1 (HB P E))).
  assert (l_torsion (base_of B)) as HBt by (destruct B as [P|]; [by apply HB|apply l_torsion_B]).
  destruct (generate_tx_proof_ok prefix_hash A B sec s HAc HBc Hsec (rng_ready s Hs))
    as (K & s' & Hs' & E).
  eexists _, s'. split; [exact Hs'|]. split; [exact E|]. unfold R, D.
  pose proof (tx_signature_valid prefix_hash A B (le_combine sec) K HA HBt) as HV.
  destruct (check_tx_proof_ok prefix_hash (ed_mul (le_combine sec) (base_of B)) A B
    (ed_mul (le_combine sec) A) _ (on_curve_mul _ _ (proj1 HBt)) HAc HBc (on_curve_mul _ _ HAc)
    (scalar_bytes32 _ (vt_c _ _ _ _ _ _ HV)) (scalar_bytes32 _ (vt_r _ _ _ _ _ _ HV)))
    as (b & -> & Hb).
  f_equal. by apply Hb.
Qed.

(** C23. What a proof of a transaction key proves, and the errors: [check_tx_proof] accepts
    exactly the pairs of scalars below [L] whose challenge is the hash of the message, of [D],
    of [c R + r B] and of [c D + r A]; [generate_tx_proof] throws the error of the first key,
    in the order [R], [A], [B], [D], that is not a point. *)
Theorem check_tx_proof_spec (Bd : Build) (prefix_hash : list Z) (Rp A D : point) (B : option point)
    (sig : signature) (Rk Ak Dk sec : list Z) (Bk : option (list Z)) (s : random_state)
    (HR : on_curve Rp) (HA : on_curve A) (HB : ∀ P, B = Some P → on_curve P) (HD : on_curve D)
    (Hc : bytes32 (sig_c sig)) (Hr : bytes32 (sig_r sig))
    (HRk : bytes32 Rk) (HAk : bytes32 Ak) (HBk : ∀ b, Bk = Some b → bytes32 b) (HDk : bytes32 Dk) :
  (∃ b, check_tx_proof prefix_hash (ed_encode Rp) (ed_encode A) (encode_optional B) (ed_encode D) sig
      = Some b ∧ (b = true ↔ valid_tx_proof prefix_hash Rp A B D sig)) ∧
  let throws e := generate_tx_proof prefix_hash Rk Ak Bk Dk sec s = Some (inl e, s) in
  (invalid_key Rk → throws tx_pubkey_is_invalid) ∧
  (¬ invalid_key Rk → invalid_key Ak → throws recipient_view_pubkey_is_invalid) ∧
  (∀ b, Bk = Some b → ¬ invalid_key Rk → ¬ invalid_key Ak → invalid_key b →
    throws recipient_spend_pubkey_is_invalid) ∧
  (¬ invalid_key Rk → ¬ invalid_key Ak → (∀ b, Bk = Some b → ¬ invalid_key b) → invalid_key Dk →
    throws key_derivation_is_invalid).
Proof.
  split; [exact (check_tx_proof_ok prefix_hash Rp A B D sig HR HA HB HD Hc Hr)|].
  exact (generate_tx_proof_invalid prefix_hash Rk Ak Bk Dk sec s HRk HAk HBk HDk).
Qed.

(** ** Witnesses *)

#[local] Existing Instance debug_build.

Lemma generate_tx_proof_spec_witness :
  let B := Some (mulG 7) in
  let R := ed_encode (ed_mul (le_combine (to_scalar 5)) (base_of B)) in
  let D := ed_encode (ed_mul (le_combine (to_scalar 5)) (mulG 3)) in
  ∃ sig s', random_ready s' ∧
    generate_tx_proof [] R (ed_encode (mulG 3)) (encode_optional B) D (to_scalar 5) ready_state
      = Some (inr sig, s') ∧
    check_tx_proof [] R (ed_encode (mulG 3)) (encode_optional B) D sig = Some true.
Proof.
  intros B. apply (generate_tx_proof_spec false [] (mulG 3) B (to_scalar 5) ready_state
    (mulG_torsion 3)); [|apply to_scalar_scalar|apply ready_state_ok].
  intros P E. apply Some_inj in E. rewrite <- E. apply mulG_torsion.
Defined.

Lemma check_tx_proof_spec_witness :
  let sig := {| sig_c := to_scalar 1; sig_r := to_scalar 2 |} in
  ∃ b, check_tx_proof [] (ed_encode (mulG 3)) (ed_encode (mulG 5)) None (ed_encode (mulG 7)) sig
      = Some b ∧ (b = true ↔ valid_tx_proof [] (mulG 3) (mulG 5) None (mulG 7) sig).
Proof.
  intros sig.
  destruct (check_tx_proof_spec false [] (mulG 3) (mulG 5) (mulG 7) None sig (to_scalar 1)
    (to_scalar 1) (to_scalar 1) (to_scalar 1) None ready_state) as [H _];
    try apply mulG_on_curve; try apply scalar_bytes32_id; try discriminate. exact H.
Defined.
