(* ===== verification/RingSpec.v ===== *)
(** * Correctness of key images and ring signatures

    [hash_to_ec] lands in the subgroup of order [L]; the key image of a secret
    is determined by it; [check_ring_signature] accepts exactly the rings whose
    challenges add up to the hash of their commitments; and what
    [generate_ring_signature] returns is accepted. *)

From S2P Require Export Ring CryptoSpec.

#[local] Open Scope Z_scope.

Section ring_spec.
Context `{Bd : Build} {F : FastHash} {FL : FastHashLaws F} {G : Type} {R : Rng G} {RL : RngLaws R}.

(** ** Key images *)

(** The point of a key under [hash_to_ec]. *)
Definition hash_to_ec_is (key : list Z) (P : point) : Prop :=
  ∃ h, hash_to_ec key = Some h ∧ p3_is P h.

Lemma hash_to_ec_ok key : ∃ P, hash_to_ec_is key P ∧ l_torsion P.
Proof.
  destruct (fast_hash_total key) as (d & Ed & HL & HB).
  destruct (ge_fromfe_ok d HB HL) as (p & Ep & P & HP & _).
  destruct (ge_mul8_ok _ _ HP) as (h8 & E8 & H8).
  destruct (ge_p1p1_to_p3_ok _ _ H8) as (h & E & Hh).
  exists (ed_mul 8 P). split; [|exact (l_torsion_8 P (proj1 HP))].
  exists h. split; [|exact Hh]. unfold hash_to_ec. step Ed. step Ep. step E8. exact E.
Qed.

Lemma generate_key_image_ok pub sec P :
  scalar sec → hash_to_ec_is pub P →
  generate_key_image pub sec = Some (ed_encode (ed_mul (le_combine sec) P)).
Proof.
  intros Hs (h & Eh & HP). unfold generate_key_image. step (assert_true _ (sc_check_0 sec Hs)).
  step Eh. destruct (point_mul P h sec HP Hs) as (q & E & _ & E'). step E. exact E'.
Qed.

(** Two secrets below [L] have the same image only if they are equal. *)
Lemma image_inj (P : point) a b :
  l_torsion P → P ≠ ed_zero → scalar a → scalar b →
  ed_encode (ed_mul (le_combine a) P) = ed_encode (ed_mul (le_combine b) P) → a = b.
Proof.
  intros HP Hz Ha Hb E. pose proof (proj1 HP) as HPc.
  apply ed_encode_inj in E; [|by apply on_curve_mul..].
  apply ed_mul_sub_eq in E; [|exact HPc].
  apply (l_torsion_order P) in E; [|exact HP|exact Hz].
  pose proof (scalar_nonneg a Ha) as Ra. pose proof (scalar_nonneg b Hb) as Rb.
  rewrite <- (to_scalar_id a Ha), <- (to_scalar_id b Hb). f_equal.
  destruct E as [q Hq]. pose proof L_range. assert (0 < L) by lia.
  generalize dependent L. intros l **. destruct (Z.lt_trichotomy q 0) as [|[->|]]; nia.
Qed.

(** ** The commitments of an entry *)

(** [r H + c I] *)
Definition image_point (I H : point) (cv rv : Z) : point := ed_add (ed_mul rv H) (ed_mul cv I).

Definition entry_bytes (I P H : point) (sig : signature) : list Z :=
  ed_encode (sig_point P (le_combine (sig_c sig)) (le_combine (sig_r sig))) ++
  ed_encode (image_point I H (le_combine (sig_c sig)) (le_combine (sig_r sig))).

Lemma ring_commitments_ok I P H image_pre pub tmp3 sig :
  on_curve I → odd_multiples I image_pre → p3_is P tmp3 → hash_to_ec_is pub H →
  scalar (sig_c sig) → scalar (sig_r sig) →
  ring_commitments image_pre pub tmp3 sig = Some (entry_bytes I P H sig).
Proof.
  intros HI Hpre HP (h & Eh & HH) Hc Hr. unfold ring_commitments.
  destruct (base_double P tmp3 _ _ HP Hc Hr) as (t & Et & Et'). step Et. step Et'. step Eh.
  destruct (ge_double_scalarmult_precomp_vartime_ok H h I image_pre (sig_r sig) (sig_c sig))
    as (u & Eu & Hu); [exact HH|exact HI|exact Hpre|by apply scalar_255..|].
  step Eu. step (ge_tobytes_ok _ _ Hu). reflexivity.
Qed.

(** The signer's commitments are those that the verifier computes. *)
Lemma signer_commitments_ok pub H x k cv :
  hash_to_ec_is pub H → l_torsion H → scalar k →
  signer_commitments pub k =
    Some (entry_bytes (ed_mul x H) (mulG x) H
      {| sig_c := to_scalar cv; sig_r := to_scalar (le_combine k - cv mod L * x) |}).
Proof.
  intros (h & Eh & HH) HT Hk. unfold signer_commitments.
  destruct (base_mul k Hk) as (t & Et & _ & Et'). step Et. step Et'. step Eh.
  destruct (point_mul H h k HH Hk) as (u & Eu & _ & Eu'). step Eu. step Eu'.
  unfold entry_bytes. cbn [Crypto.sig_c Crypto.sig_r]. rewrite !le_combine_to_scalar.
  rewrite sig_point_signed. do 3 f_equal. unfold image_point.
  rewrite l_torsion_mod by exact HT. rewrite ed_mul_mul by exact (proj1 HT).
  rewrite <- ed_mul_add by exact (proj1 HT). f_equal. lia.
Qed.

(** ** Checking *)

(** The entries of a ring: the bytes that are hashed and the sum of the challenges. *)
Inductive ring_entries (I : point) : list (list Z) → list signature → list Z → Z → Prop :=
| ring_nil : ring_entries I [] [] [] 0
| ring_cons P H pubs sig sigs ab sum :
    on_curve P → hash_to_ec_is (ed_encode P) H →
    scalar (sig_c sig) → scalar (sig_r sig) → ring_entries I pubs sigs ab sum →
    ring_entries I (ed_encode P :: pubs) (sig :: sigs) (entry_bytes I P H sig ++ ab)
      (le_combine (sig_c sig) + sum).

Lemma check_ring_loop_complete I image_pre pubs sigs ab sum ab0 sum0 :
  on_curve I → odd_multiples I image_pre → ring_entries I pubs sigs ab sum → scalar sum0 →
  ∃ sum1, scalar sum1 ∧ le_combine sum1 = (le_combine sum0 + sum) mod L ∧
    check_ring_loop image_pre pubs sigs ab0 sum0 = Some (Some (ab0 ++ ab, sum1)).
Proof.
  intros HI Hpre HR. revert ab0 sum0.
  induction HR as [|P H pubs sig sigs ab sum HP HH Hc Hr HR IH]; intros ab0 sum0 H0.
  - exists sum0. split; [exact H0|]. pose proof (scalar_nonneg _ H0).
    rewrite Z.add_0_r, Z.mod_small, app_nil_r by lia. split; reflexivity.
  - cbn [check_ring_loop]. rewrite (sc_check_0 _ Hc), (sc_check_0 _ Hr). cbn [negb orb].
    destruct (ge_frombytes_encode P HP) as (t & Et & Ht). step Et. cbn iota.
    step (ring_commitments_ok I P H image_pre _ t sig HI Hpre Ht HH Hc Hr).
    step (sc_add_scalar _ _ H0 Hc).
    destruct (IH (ab0 ++ entry_bytes I P H sig) (to_scalar (le_combine sum0 + le_combine (sig_c sig))))
      as (s1 & Hs1 & E1 & E); [apply to_scalar_scalar|].
    exists s1. split; [exact Hs1|]. rewrite E, <- app_assoc. split; [|reflexivity].
    rewrite E1, le_combine_to_scalar, Z.add_mod_idemp_l by (pose proof L_range; lia).
    f_equal. lia.
Qed.

Definition sig_bytes (sig : signature) : Prop := bytes32 (sig_c sig) ∧ bytes32 (sig_r sig).

Lemma ring_entries_inv I pub pubs sig sigs :
  (∃ ab sum, ring_entries I (pub :: pubs) (sig :: sigs) ab sum) →
  ¬ invalid_key pub ∧ scalar (sig_c sig) ∧ scalar (sig_r sig) ∧
  ∃ ab sum, ring_entries I pubs sigs ab sum.
Proof.
  intros (ab & sum & HE). inversion HE as [|P H ? ? ? ab' sum' HP HH Hc Hr HE' E]. subst.
  split; [|split; [exact Hc|split; [exact Hr|by exists ab', sum']]].
  intros Hi. exact (Hi P HP eq_refl).
Qed.

Lemma check_ring_loop_cases I image_pre pubs sigs :
  on_curve I → odd_multiples I image_pre →
  Forall bytes32 pubs → Forall sig_bytes sigs → length sigs = length pubs →
  (∃ ab sum, ring_entries I pubs sigs ab sum) ∨
  (¬ (∃ ab sum, ring_entries I pubs sigs ab sum) ∧
    ∀ ab0 sum0, scalar sum0 → check_ring_loop image_pre pubs sigs ab0 sum0 = Some None).
Proof.
  intros HI Hpre Hp. revert sigs.
  induction Hp as [|pub pubs Hpub Hp IH]; intros [|sig sigs] Hs HL; try discriminate.
  { left. exists [], 0. constructor. }
  apply Forall_cons_1 in Hs as [[Bc Br] Hs]. cbn [check_ring_loop].
  destruct (scalar_decidable _ Bc) as [Sc|Sc]; [rewrite (sc_check_0 _ Sc)|right; split;
    [intros (_ & ? & _)%ring_entries_inv; contradiction|
     intros; rewrite (sc_check_false _ Bc Sc); reflexivity]].
  destruct (scalar_decidable _ Br) as [Sr|Sr]; [rewrite (sc_check_0 _ Sr)|right; split;
    [intros (_ & _ & ? & _)%ring_entries_inv; contradiction|
     intros; rewrite (sc_check_false _ Br Sr); reflexivity]].
  cbn [negb orb]. destruct (load_cases pub Hpub) as [(P & HP & ->)|Hi]; [|right; split;
    [intros (? & _)%ring_entries_inv; contradiction|
     intros; step (load_invalid pub Hpub Hi); reflexivity]].
  destruct (hash_to_ec_ok (ed_encode P)) as (H & HH & _).
  destruct (IH sigs Hs) as [(ab & sum & HE)|[Hn HE]]; [by injection HL|left|right; split].
  - eexists _, _. exact (ring_cons I P H pubs sig sigs ab sum HP HH Sc Sr HE).
  - intros (_ & _ & _ & HE')%ring_entries_inv. exact (Hn HE').
  - intros ab0 sum0 H0. destruct (ge_frombytes_encode P HP) as (t & Et & Ht). step Et. cbn iota.
    step (ring_commitments_ok I P H image_pre _ t sig HI Hpre Ht HH Sc Sr).
    step (sc_add_scalar _ _ H0 Sc). apply HE, to_scalar_scalar.
Qed.

(** What [check_ring_signature] accepts: the sum of the challenges is the hash of the
    commitments. *)
Definition valid_ring (prefix_hash image : list Z) (pubs : list (list Z)) (sigs : list signature) :
    Prop :=
  ∃ I ab sum, on_curve I ∧ image = ed_encode I ∧ ring_entries I pubs sigs ab sum ∧
    hash_num (prefix_hash ++ ab) mod L = sum mod L.

Lemma scalar_sc_0 : scalar sc_0 ∧ le_combine sc_0 = 0.
Proof. split; [|reflexivity]. split; [reflexivity|by repeat constructor|reflexivity]. Qed.

Lemma assert_keys_ok pubs :
  Forall bytes32 pubs → Forall (λ k, ¬ invalid_key k) pubs → assert_keys pubs = Some tt.
Proof.
  intros Hb. induction Hb as [|pub pubs Hpub Hb IH]; intros Hv; [reflexivity|].
  apply Forall_cons_1 in Hv as [Hk Hv]. cbn [assert_keys].
  destruct (load_cases pub Hpub) as [(P & HP & ->)|]; [|contradiction].
  step (check_key_ok P HP). cbn [abort_unless]. step (eq_refl (Some tt)). exact (IH Hv).
Qed.

(** The first key that is not a point fails its assertion. *)
Lemma assert_keys_invalid pubs : Forall bytes32 pubs → Exists invalid_key pubs → assert_keys pubs = None.
Proof.
  intros Hb He. induction He as [pub pubs Hi|pub pubs He IH]; apply Forall_cons_1 in Hb as [Hk Hb];
    cbn [assert_keys]; unfold check_key.
  - pose proof (load_invalid pub Hk Hi) as E. step E. reflexivity.
  - destruct (load_cases pub Hk) as [(P & HP & ->)|Hi].
    + destruct (ge_frombytes_encode P HP) as (t & Et & _). step Et. exact (IH Hb).
    + pose proof (load_invalid pub Hk Hi) as E. step E. reflexivity.
Qed.

Lemma check_ring_signature_abort prefix_hash image pubs sigs :
  Forall bytes32 pubs → NDEBUG = false → Exists invalid_key pubs →
  check_ring_signature prefix_hash image pubs sigs = None.
Proof.
  intros Hb HN He. unfold check_ring_signature, debug_only. rewrite HN.
  by rewrite (assert_keys_invalid pubs Hb He).
Qed.

Lemma check_ring_signature_ok prefix_hash image pubs sigs :
  bytes32 image → Forall bytes32 pubs → Forall sig_bytes sigs → length sigs = length pubs →
  (NDEBUG = false → Forall (λ k, ¬ invalid_key k) pubs) →
  ∃ b, check_ring_signature prefix_hash image pubs sigs = Some b ∧
    (b = true ↔ valid_ring prefix_hash image pubs sigs).
Proof.
  intros Hi Hp Hs HL Hv. unfold check_ring_signature.
  assert (debug_only (assert_keys pubs) = Some tt) as Ed.
  { unfold debug_only. destruct NDEBUG; [reflexivity|]. by apply assert_keys_ok, Hv. }
  step Ed. clear Ed Hv.
  destruct (load_cases image Hi) as [(I & HI & ->)|Hn].
  2: { step (load_invalid image Hi Hn). exists false. split; [reflexivity|]. split; [discriminate|].
       intros (I & ? & ? & HI & EI & _). by destruct (Hn I HI). }
  destruct (ge_frombytes_encode I HI) as (t & Et & Ht). step Et. cbn iota.
  destruct (ge_dsm_precomp_ok I t Ht) as (pre & Epre & Hpre). step Epre.
  destruct scalar_sc_0 as [S0 V0].
  destruct (check_ring_loop_cases I pre pubs sigs) as [(ab & sum & HE)|[Hn HE]]; [done..| |].
  2: { step (HE [] sc_0 S0). exists false. split; [reflexivity|]. split; [discriminate|].
       intros (I' & ab & sum & HI' & EI & HR & _). apply ed_encode_inj in EI as <-; [|done..].
       destruct Hn. eauto. }
  destruct (check_ring_loop_complete I pre pubs sigs ab sum [] sc_0) as (s1 & Hs1 & E1 & E); [done..|].
  step E. cbn iota. rewrite compare_challenge by exact Hs1. rewrite V0, Z.add_0_l in E1.
  eexists. split; [reflexivity|]. rewrite Z.eqb_eq, E1. cbn [app]. split.
  - intros Eq. exists I, ab, sum. done.
  - intros (I' & ab' & sum' & HI' & EI & HE' & Eq). apply ed_encode_inj in EI as <-; [|done..].
    destruct (check_ring_loop_complete I pre pubs sigs ab' sum' [] sc_0) as (s2 & _ & E2 & E');
      [done..|].
    rewrite E in E'. apply Some_inj, Some_inj, pair_equal_spec in E' as [Ea Es].
    cbn [app] in Ea. rewrite Ea, <- E1, Es, E2, V0, Z.add_0_l. exact Eq.
Qed.

(** ** Generating *)

Lemma ring_entries_app I pubs1 sigs1 ab1 sum1 pubs2 sigs2 ab2 sum2 :
  ring_entries I pubs1 sigs1 ab1 sum1 → ring_entries I pubs2 sigs2 ab2 sum2 →
  ring_entries I (pubs1 ++ pubs2) (sigs1 ++ sigs2) (ab1 ++ ab2) (sum1 + sum2).
Proof.
  intros H1 H2. induction H1 as [|P H pubs sig sigs ab sum HP HH Hc Hr HR IH]; [exact H2|].
  cbn [app]. rewrite <- app_assoc, <- Z.add_assoc. by constructor.
Qed.

Lemma generate_ring_loop_app image_pre sec_index i pubs1 pubs2 v s :
  generate_ring_loop image_pre sec_index i (pubs1 ++ pubs2) v s =
    (v1 ← generate_ring_loop image_pre sec_index i pubs1 v;
     generate_ring_loop image_pre sec_index (i + length pubs1) pubs2 v1) s.
Proof.
  revert i v s. induction pubs1 as [|pub pubs1 IH]; intros i v s.
  { cbn [app generate_ring_loop length]. rewrite Nat.add_0_r. reflexivity. }
  cbn [app generate_ring_loop length]. unfold mbind, rand_bind.
  destruct (generate_ring_step image_pre sec_index i pub v s) as [[v' s']|]; [|reflexivity].
  rewrite IH. replace (i + S (length pubs1))%nat with (i + 1 + length pubs1)%nat by lia.
  reflexivity.
Qed.

(** A run of entries that are not the signer's: each gets a random signature. *)
Lemma decoys_ok I image_pre sec_index i pubs v s :
  on_curve I → odd_multiples I image_pre →
  Forall bytes32 pubs → Forall (λ k, ¬ invalid_key k) pubs →
  (i + length pubs ≤ sec_index ∨ sec_index < i)%nat →
  (i + length pubs ≤ length (rv_sig v))%nat → scalar (rv_sum v) → rng_ok s →
  ∃ ds ab sum v' s',
    generate_ring_loop image_pre sec_index i pubs v s = Some (v', s') ∧ rng_ok s' ∧
    length ds = length pubs ∧ ring_entries I pubs ds ab sum ∧
    rv_sig v' = take i (rv_sig v) ++ ds ++ drop (i + length pubs) (rv_sig v) ∧
    rv_ab v' = rv_ab v ++ ab ∧ rv_k v' = rv_k v ∧ scalar (rv_sum v') ∧
    le_combine (rv_sum v') = (le_combine (rv_sum v) + sum) mod L.
Proof.
  intros HI Hpre Hp. revert i v s.
  induction Hp as [|pub pubs Hpub Hp IH]; intros i v s Hv Hi HL H0 Hs.
  { exists [], [], 0, v, s. pose proof (scalar_nonneg _ H0). cbn [length app] in *.
    rewrite Nat.add_0_r, take_drop, app_nil_r, Z.add_0_r, Z.mod_small by lia.
    split_and!; try done; constructor. }
  apply Forall_cons_1 in Hv as [Hk Hv].
  destruct (load_cases pub Hpub) as [(P & HP & ->)|]; [|contradiction].
  cbn [length] in *.
  destruct (random_scalar_ok s Hs) as (lc & s1 & _ & _ & Hs1 & E1).
  destruct (random_scalar_ok s1 Hs1) as (lr & s2 & _ & _ & Hs2 & E2).
  set (sig := {| sig_c := to_scalar (le_combine lc); sig_r := to_scalar (le_combine lr) |}).
  assert (scalar (sig_c sig) ∧ scalar (sig_r sig)) as [Sc Sr] by (split; apply to_scalar_scalar).
  destruct (hash_to_ec_ok (ed_encode P)) as (H & HH & _).
  destruct (ge_frombytes_encode P HP) as (t & Et & Ht).
  set (v1 := {| rv_sig := <[i := sig]> (rv_sig v); rv_ab := rv_ab v ++ entry_bytes I P H sig;
    rv_sum := to_scalar (le_combine (rv_sum v) + le_combine (sig_c sig)); rv_k := rv_k v |}).
  assert (generate_ring_step image_pre sec_index i (ed_encode P) v s = Some (v1, s2)) as Estep.
  { unfold generate_ring_step. rewrite (proj2 (Nat.eqb_neq i sec_index)) by lia.
    rewrite (rand_step _ _ _ _ _ E1), (rand_step _ _ _ _ _ E2). fold sig. unfold lift, store_sig.
    rewrite (proj2 (Nat.ltb_lt _ _)) by lia. step (eq_refl (Some (<[i:=sig]> (rv_sig v)))).
    step Et. step (eq_refl (Some t)).
    step (ring_commitments_ok I P H image_pre _ t sig HI Hpre Ht HH Sc Sr).
    step (sc_add_scalar _ _ H0 Sc). reflexivity. }
  destruct (IH (i + 1)%nat v1 s2) as (ds & ab & sum & v' & s' & E & Hs' & HLd & HE & Esig & Eab & Ek & Hsum & Esum);
    [done|lia|cbn [v1 rv_sig]; rewrite length_insert; lia|apply to_scalar_scalar|done|].
  exists (sig :: ds), (entry_bytes I P H sig ++ ab), (le_combine (sig_c sig) + sum), v', s'.
  split.
  { cbn [generate_ring_loop]. rewrite (rand_step _ _ _ _ _ Estep). exact E. }
  split_and!; [done|cbn [length]; lia|by constructor| |..].
  - rewrite Esig. cbn [v1 rv_sig]. rewrite drop_insert_lt by lia.
    destruct (lookup_lt_is_Some_2 (rv_sig v) i) as [x Ex]; [lia|].
    rewrite Nat.add_1_r, (take_S_r _ _ sig) by (rewrite list_lookup_insert_eq by lia; done).
    rewrite take_insert_ge by lia. rewrite <- app_assoc. cbn [app].
    replace (S i + length pubs)%nat with (i + S (length pubs))%nat by lia. reflexivity.
  - rewrite Eab. cbn [v1 rv_ab]. by rewrite app_assoc.
  - by rewrite Ek.
  - exact Hsum.
  - rewrite Esum. cbn [v1 rv_sum]. rewrite le_combine_to_scalar, Z.add_mod_idemp_l by (pose proof L_range; lia).
    f_equal. lia.
Qed.

(** The signer's entry: the commitments are those of every challenge. *)
Lemma signer_step_ok image_pre sec_index H x pub v s :
  hash_to_ec_is pub H → l_torsion H → rng_ok s →
  ∃ k ab s', scalar k ∧ rng_ok s' ∧
    generate_ring_step image_pre sec_index sec_index pub v s =
      Some ({| rv_sig := rv_sig v; rv_ab := rv_ab v ++ ab; rv_sum := rv_sum v; rv_k := Some k |}, s') ∧
    ∀ cv, ab = entry_bytes (ed_mul x H) (mulG x) H
      {| sig_c := to_scalar cv; sig_r := to_scalar (le_combine k - cv mod L * x) |}.
Proof.
  intros HH HT Hs. destruct (random_scalar_ok s Hs) as (l & s' & _ & _ & Hs' & E).
  set (k := to_scalar (le_combine l)) in *. assert (scalar k) as Hk by apply to_scalar_scalar.
  pose proof (λ cv, signer_commitments_ok pub H x k cv HH HT Hk) as EC.
  eexists k, _, s'. split; [exact Hk|]. split; [exact Hs'|]. split.
  - unfold generate_ring_step. rewrite Nat.eqb_refl, (rand_step _ _ _ _ _ E).
    rewrite (rand_lift _ _ _ _ (EC 0)). reflexivity.
  - intros cv. apply Some_inj. rewrite <- (EC 0), (EC cv). reflexivity.
Qed.

Lemma check_ring_keys_ok pre post sec H :
  let pubs := pre ++ public_of sec :: post in
  scalar sec → hash_to_ec_is (public_of sec) H →
  Forall bytes32 pubs → Forall (λ k, ¬ invalid_key k) pubs →
  check_ring_keys (ed_encode (ed_mul (le_combine sec) H)) pubs sec (length pre) = Some tt.
Proof.
  intros pubs Hsec HH Hb Hv. unfold check_ring_keys, pubs.
  step (list_lookup_middle pre post (public_of sec) (length pre) eq_refl).
  step (check_key_pair_ok sec Hsec). step (generate_key_image_ok _ sec H Hsec HH).
  rewrite bool_decide_eq_true_2 by reflexivity. cbn [abort_unless]. step (eq_refl (Some tt)).
  exact (assert_keys_ok _ Hb Hv).
Qed.

Lemma ring_entries_bytes I pubs sigs ab sum :
  ring_entries I pubs sigs ab sum → Forall sig_bytes sigs ∧ length sigs = length pubs.
Proof.
  induction 1 as [|P H pubs sig sigs ab sum HP HH Hc Hr HR [IH1 IH2]]; [done|].
  split; [|cbn [length]; lia]. constructor; [|exact IH1]. by split; apply scalar_bytes32.
Qed.

(** The variables after the loop: the entries before and after the signer's are complete,
    the signer's commitments are made with [k]. *)
Record ring_run (I H : point) (x : Z) (pre post : list (list Z)) (v : ring_vars) : Prop := {
  run_entries : ∃ k ds1 ds2 sig ab1 abk ab2 sum1 sum2,
    scalar k ∧ rv_k v = Some k ∧ length ds1 = length pre ∧
    ring_entries I pre ds1 ab1 sum1 ∧ ring_entries I post ds2 ab2 sum2 ∧
    rv_sig v = ds1 ++ sig :: ds2 ∧ rv_ab v = ab1 ++ abk ++ ab2 ∧
    le_combine (rv_sum v) = (sum1 + sum2) mod L ∧
    ∀ cv, abk = entry_bytes I (mulG x) H
      {| sig_c := to_scalar cv; sig_r := to_scalar (le_combine k - cv mod L * x) |};
  run_sum : scalar (rv_sum v)
}.

Lemma ring_loop_ok image_pre pre post sec sig0 H s :
  let x := le_combine sec in
  let I := ed_mul x H in
  hash_to_ec_is (public_of sec) H → l_torsion H → odd_multiples I image_pre →
  Forall bytes32 (pre ++ post) → Forall (λ k, ¬ invalid_key k) (pre ++ post) →
  length sig0 = (length pre + S (length post))%nat → rng_ok s →
  ∃ v s', rng_ok s' ∧ ring_run I H x pre post v ∧
    generate_ring_loop image_pre (length pre) 0 (pre ++ public_of sec :: post)
      {| rv_sig := sig0; rv_ab := []; rv_sum := sc_0; rv_k := None |} s = Some (v, s').
Proof.
  intros x I HH HT Hpre [Hb1 Hb2]%Forall_app [Hv1 Hv2]%Forall_app HL Hs.
  assert (on_curve I) as HI by (apply on_curve_mul; exact (proj1 HT)).
  destruct scalar_sc_0 as [S0 V0].
  set (v0 := {| rv_sig := sig0; rv_ab := []; rv_sum := sc_0; rv_k := None |}).
  destruct (decoys_ok I image_pre (length pre) 0 pre v0 s)
    as (ds1 & ab1 & sum1 & v1 & s1 & E1 & Hs1 & L1 & R1 & Esig1 & Eab1 & _ & Hsum1 & Esum1);
    [done..|lia|cbn [v0 rv_sig]; lia|done|done|].
  cbn [v0 rv_sig rv_ab rv_sum app Nat.add] in Esig1, Eab1, Esum1.
  rewrite take_0 in Esig1. cbn [app] in Esig1.
  destruct (signer_step_ok image_pre (length pre) H x (public_of sec) v1 s1 HH HT Hs1)
    as (k & abk & s2 & Hk & Hs2 & E2 & Eabk).
  set (v2 := {| rv_sig := rv_sig v1; rv_ab := rv_ab v1 ++ abk; rv_sum := rv_sum v1; rv_k := Some k |}) in *.
  assert (length (drop (length pre) sig0) = S (length post)) as Ld by (rewrite length_drop; lia).
  destruct (drop (length pre) sig0) as [|sig rest]; [discriminate|]. injection Ld as Ld.
  destruct (decoys_ok I image_pre (length pre) (length pre + 1) post v2 s2)
    as (ds2 & ab2 & sum2 & v3 & s3 & E3 & Hs3 & L3 & R3 & Esig3 & Eab3 & Ek3 & Hsum3 & Esum3);
    [done..|lia|cbn [v2 rv_sig]; rewrite Esig1, length_app; cbn [length]; lia|done|done|].
  exists v3, s3. split; [exact Hs3|]. split; [split; [|exact Hsum3]|].
  - exists k, ds1, ds2, sig, ab1, abk, ab2, sum1, sum2.
    cbn [v2 rv_sig rv_ab rv_sum rv_k] in *. split_and!; try assumption.
    + rewrite Esig3, Esig1, take_app_ge, drop_ge, app_nil_r by (rewrite ?length_app; cbn [length]; lia).
      replace (length pre + 1 - length ds1)%nat with 1%nat by lia. cbn [take].
      by rewrite <- app_assoc.
    + by rewrite Eab3, Eab1, <- app_assoc.
    + rewrite Esum3, Esum1, V0, Z.add_mod_idemp_l by (pose proof L_range; lia). reflexivity.
  - rewrite generate_ring_loop_app, (rand_step _ _ _ _ _ E1). cbn [generate_ring_loop Nat.add].
    rewrite (rand_step _ _ _ _ _ E2). exact E3.
Qed.

(** The challenge of the signer closes the sum. *)
Lemma close_sum h sum1 sum2 :
  (sum1 + ((h mod L - (sum1 + sum2) mod L) mod L + sum2)) mod L = h mod L.
Proof.
  pose proof L_range. rewrite <- Zminus_mod.
  replace (sum1 + ((h - (sum1 + sum2)) mod L + sum2))
    with ((h - (sum1 + sum2)) mod L + (sum1 + sum2)) by lia.
  rewrite Z.add_mod_idemp_l by lia. f_equal. lia.
Qed.

Lemma cv_scalar n : le_combine (to_scalar (n mod L)) = n mod L.
Proof. rewrite le_combine_to_scalar. apply Z.mod_mod. pose proof L_range. lia. Qed.

Lemma generate_ring_signature_ok prefix_hash pre post sec sig0 H s :
  let pubs := pre ++ public_of sec :: post in
  let image := ed_encode (ed_mul (le_combine sec) H) in
  scalar sec → hash_to_ec_is (public_of sec) H → l_torsion H →
  Forall bytes32 pubs → Forall (λ k, ¬ invalid_key k) pubs →
  length sig0 = length pubs → rng_ok s →
  ∃ sigs s', rng_ok s' ∧
    generate_ring_signature prefix_hash image pubs sec (length pre) sig0 s = Some (sigs, s') ∧
    valid_ring prefix_hash image pubs sigs ∧ Forall sig_bytes sigs ∧ length sigs = length pubs.
Proof.
  intros pubs image Hsec HH HT Hb Hv HL0 Hs. set (x := le_combine sec) in *.
  assert (length pubs = length pre + S (length post))%nat as HLp by apply length_app.
  assert (on_curve (ed_mul x H)) as HI by (apply on_curve_mul; exact (proj1 HT)).
  unfold generate_ring_signature.
  rewrite (rand_lift _ _ _ _ (assert_true _ (proj2 (Nat.ltb_lt (length pre) (length pubs)) ltac:(lia)))).
  rewrite (rand_lift _ _ _ _ (debug_only_ok _ (check_ring_keys_ok pre post sec H Hsec HH Hb Hv))).
  destruct (ge_frombytes_encode _ HI) as (t & Et & Ht). unfold image.
  rewrite (rand_lift _ _ _ _ Et), (rand_lift _ _ _ _ (eq_refl (Some t))).
  destruct (ge_dsm_precomp_ok _ t Ht) as (image_pre & Epre & Hpre). rewrite (rand_lift _ _ _ _ Epre).
  destruct (ring_loop_ok image_pre pre post sec sig0 H s) as (v & s' & Hs' & [Hrun Hsum] & Eloop);
    [done..| | |lia|done|].
  { apply Forall_app in Hb as [? [_ ?]%Forall_cons_1]. by apply Forall_app. }
  { apply Forall_app in Hv as [? [_ ?]%Forall_cons_1]. by apply Forall_app. }
  destruct Hrun as (k & ds1 & ds2 & sig & ab1 & abk & ab2 & sum1 & sum2 & Hk & Ek & Ld & R1 & R2 &
    Esig & Eab & Esum & Eabk).
  unfold pubs. rewrite (rand_step _ _ _ _ _ Eloop). clear Eloop. set (I := ed_mul x H) in *.
  set (h := hash_num (prefix_hash ++ rv_ab v)).
  set (cv := (h mod L - le_combine (rv_sum v)) mod L).
  set (sg := {| sig_c := to_scalar cv; sig_r := to_scalar (le_combine k - cv mod L * x) |}).
  exists (ds1 ++ sg :: ds2), s'. split; [exact Hs'|].
  assert (ring_entries I (pre ++ public_of sec :: post) (ds1 ++ sg :: ds2) (ab1 ++ abk ++ ab2)
    (sum1 + (cv + sum2))) as HE.
  { apply ring_entries_app; [exact R1|]. rewrite (Eabk cv). fold sg.
    pose proof (ring_cons I (mulG x) H post sg ds2 ab2 sum2 (mulG_on_curve x) HH
      (to_scalar_scalar _) (to_scalar_scalar _) R2) as HC.
    rewrite (cv_scalar _ : le_combine (sig_c sg) = cv) in HC. exact HC. }
  split; [|split; [|exact (ring_entries_bytes _ _ _ _ _ HE)]].
  - unfold lift. step (hash_to_scalar_ok (prefix_hash ++ rv_ab v)). fold h.
    step (sc_sub_scalar _ _ (to_scalar_scalar h) Hsum). rewrite le_combine_to_scalar, Ek.
    step (eq_refl (Some k)). rewrite <- (to_scalar_mod (h mod L - _)). fold cv.
    step (sc_mulsub_scalar _ _ _ (to_scalar_scalar cv) Hsec Hk). rewrite le_combine_to_scalar.
    fold x sg. unfold store_sig. rewrite Esig, length_app, (proj2 (Nat.ltb_lt _ _)) by (cbn [length]; lia).
    rewrite <- Ld, insert_app_r_alt, Nat.sub_diag by lia. reflexivity.
  - exists I, (ab1 ++ abk ++ ab2), (sum1 + (cv + sum2)). split; [exact HI|]. split; [reflexivity|].
    split; [exact HE|]. rewrite <- Eab. fold h. unfold cv. rewrite Esum. symmetry. apply close_sum.
Qed.

End ring_spec.

(** ** The properties *)

(** C21. Key images: [hash_to_ec] maps every key to a point [P] of the subgroup of order [L],
    the image of a secret [a] is the encoding of [a P], and, unless [P] is the neutral point,
    two different secrets below [L] have different images, so that the image of a key marks
    its use. *)
Theorem key_image_spec (B : Build) (pub a b : list Z) (Ha : scalar a) (Hb : scalar b) :
  ∃ P h, hash_to_ec pub = Some h ∧ p3_is P h ∧ l_torsion P ∧
    generate_key_image pub a = Some (ed_encode (ed_mul (le_combine a) P)) ∧
    (generate_key_image pub a = generate_key_image pub b → P = ed_zero ∨ a = b).
Proof.
  destruct (hash_to_ec_ok pub) as (P & (h & Eh & HP) & HT). exists P, h.
  assert (hash_to_ec_is pub P) as HH by (by exists h).
  rewrite (generate_key_image_ok pub a P Ha HH), (generate_key_image_ok pub b P Hb HH).
  split; [exact Eh|]. split; [exact HP|]. split; [exact HT|]. split; [reflexivity|].
  intros E%Some_inj. destruct (decide (P = ed_zero)) as [HZ|HZ]; [by left|right].
  exact (image_inj P a b HT HZ Ha Hb E).
Qed.

(** C17. What a ring signature proves.  [check_ring_signature] aborts exactly in the debug build
    when one of the keys is not a point.  Otherwise it accepts exactly the rings whose
    image is a point [I], whose keys are points [P_i], whose [(c_i, r_i)] are scalars below [L],
    and whose challenges add up modulo [L] to the hash of the message and of all the
    [c_i P_i + r_i G] and [r_i H_i + c_i I]. *)
Theorem check_ring_signature_spec (B : Build) (prefix_hash image : list Z) (pubs : list (list Z))
    (sigs : list signature)
    (Hi : bytes32 image) (Hp : Forall bytes32 pubs) (Hs : Forall sig_bytes sigs)
    (HL : length sigs = length pubs) :
  (NDEBUG = false → Exists invalid_key pubs → check_ring_signature prefix_hash image pubs sigs = None) ∧
  ((NDEBUG = false → ¬ Exists invalid_key pubs) →
    ∃ b, check_ring_signature prefix_hash image pubs sigs = Some b ∧
      (b = true ↔ valid_ring prefix_hash image pubs sigs)).
Proof.
  split; [by apply check_ring_signature_abort|]. intros Hv.
  apply (check_ring_signature_ok prefix_hash image pubs sigs Hi Hp Hs HL). intros HN.
  by apply Forall_Exists_neg, Hv.
Qed.

(** C16. Ring signatures are accepted: for every secret key, at every position of every ring of
    valid keys, and for every state of the generator, [generate_ring_signature] with the key
    image of the secret returns (no abort, no failed [assert]) signatures that
    [check_ring_signature] accepts. *)
Theorem generate_ring_signature_spec (B : Build) (prefix_hash : list Z) (pre post : list (list Z))
    (sec : list Z) (sig0 : list signature) (s : random_state)
    (Hsec : scalar sec) (Hb : Forall bytes32 (pre ++ post))
    (Hv : Forall (λ k, ¬ invalid_key k) (pre ++ post))
    (HL : length sig0 = S (length (pre ++ post))) (Hs : random_ready s) :
  ∃ pub image sigs s',
    secret_key_to_public_key sec = Some (Some pub) ∧ generate_key_image pub sec = Some image ∧
    generate_ring_signature prefix_hash image (pre ++ pub :: post) sec (length pre) sig0 s
      = Some (sigs, s') ∧ random_ready s' ∧
    check_ring_signature prefix_hash image (pre ++ pub :: post) sigs = Some true.
Proof.
  destruct (hash_to_ec_ok (public_of sec)) as (H & HH & HT).
  apply Forall_app in Hb as [Hb1 Hb2]. apply Forall_app in Hv as [Hv1 Hv2].
  assert (Forall bytes32 (pre ++ public_of sec :: post)) as Hb
    by (apply Forall_app; split; [exact Hb1|constructor; [apply bytes32_encode|exact Hb2]]).
  assert (¬ invalid_key (public_of sec)) as Hk
    by (intros Hi; exact (Hi _ (mulG_on_curve (le_combine sec)) eq_refl)).
  assert (Forall (λ k, ¬ invalid_key k) (pre ++ public_of sec :: post)) as Hv
    by (apply Forall_app; split; [exact Hv1|constructor; [exact Hk|exact Hv2]]).
  destruct (generate_ring_signature_ok prefix_hash pre post sec sig0 H s) as
    (sigs & s' & Hs' & E & HV & HB' & HL'); [exact Hsec|exact HH|exact HT|exact Hb|exact Hv| |
    exact (rng_ready s Hs)|].
  { rewrite HL, !length_app. cbn [length]. lia. }
  exists (public_of sec), (ed_encode (ed_mul (le_combine sec) H)), sigs, s'.
  split; [by apply secret_key_to_public_key_scalar|].
  split; [exact (generate_key_image_ok _ sec H Hsec HH)|]. split; [exact E|]. split; [exact Hs'|].
  destruct (check_ring_signature_ok prefix_hash (ed_encode (ed_mul (le_combine sec) H))
    (pre ++ public_of sec :: post) sigs (bytes32_encode _) Hb HB' HL' (λ _, Hv)) as (b & -> & Hb').
  f_equal. by apply Hb'.
Qed.

(** ** Witnesses *)

#[local] Existing Instance debug_build.

Lemma valid_mulG n : ¬ invalid_key (ed_encode (mulG n)).
Proof. intros Hi. exact (Hi _ (mulG_on_curve n) eq_refl). Qed.

Lemma key_image_spec_witness :
  ∃ P h, hash_to_ec [7] = Some h ∧ p3_is P h ∧ l_torsion P ∧
    generate_key_image [7] (to_scalar 5) = Some (ed_encode (ed_mul (le_combine (to_scalar 5)) P)) ∧
    (generate_key_image [7] (to_scalar 5) = generate_key_image [7] (to_scalar 6) →
      P = ed_zero ∨ to_scalar 5 = to_scalar 6).
Proof.
  exact (key_image_spec false [7] (to_scalar 5) (to_scalar 6) (to_scalar_scalar 5) (to_scalar_scalar 6)).
Defined.

Lemma check_ring_signature_spec_witness :
  let sigs := [{| sig_c := to_scalar 1; sig_r := to_scalar 2 |}] in
  ∃ b, check_ring_signature [] (ed_encode (mulG 5)) [ed_encode (mulG 7)] sigs = Some b ∧
    (b = true ↔ valid_ring [] (ed_encode (mulG 5)) [ed_encode (mulG 7)] sigs).
Proof.
  intros sigs. destruct (check_ring_signature_spec false [] (ed_encode (mulG 5)) [ed_encode (mulG 7)] sigs)
    as [_ H].
  - apply bytes32_encode.
  - constructor; [apply bytes32_encode|constructor].
  - constructor; [split; apply scalar_bytes32_id|constructor].
  - reflexivity.
  - apply H. intros _ He. inversion_clear He as [? ? Hi|? ? Hi]; [exact (valid_mulG 7 Hi)|inversion Hi].
Defined.

Lemma generate_ring_signature_spec_witness :
  let sig := {| sig_c := []; sig_r := [] |} in
  let pre := [ed_encode (mulG 5)] in
  let post := [ed_encode (mulG 7)] in
  ∃ pub image sigs s',
    secret_key_to_public_key (to_scalar 9) = Some (Some pub) ∧
    generate_key_image pub (to_scalar 9) = Some image ∧
    generate_ring_signature [] image (pre ++ pub :: post) (to_scalar 9) 1 [sig; sig; sig] ready_state
      = Some (sigs, s') ∧ random_ready s' ∧
    check_ring_signature [] image (pre ++ pub :: post) sigs = Some true.
Proof.
  intros sig pre post.
  apply (generate_ring_signature_spec false [] pre post (to_scalar 9) [sig; sig; sig] ready_state).
  - apply to_scalar_scalar.
  - constructor; [apply bytes32_encode|constructor; [apply bytes32_encode|constructor]].
  - constructor; [apply valid_mulG|constructor; [apply valid_mulG|constructor]].
  - reflexivity.
  - apply ready_state_ok.
Defined.
