(* ===== verification/RctTypes.v ===== *)
(** * Ring confidential transactions, the types: [rctTypes.h], [rctTypes.cpp]

    Keys, commitments, signatures and range proofs as the records of the code,
    and the conversions between an amount, its 64 bits and a 32-byte key.
    The code of [ringct] reports errors by exceptions, and some functions catch
    them. *)

From S2P Require Export Outcome IntUtil Scalar Group.

#[local] Open Scope Z_scope.

(** ** Keys *)

Notation key := (list Z) (only parsing).
Notation keyV := (list (list Z)) (only parsing).
(** by columns *)
Notation keyM := (list (list (list Z))) (only parsing).

(** [operator==]: [crypto_verify_32] compares the 32 bytes. *)
Definition key_eqb (a b : key) : bool := bool_decide (a = b).

Record ctkey := { ct_dest : key; ct_mask : key }.
Notation ctkeyV := (list ctkey) (only parsing).
Notation ctkeyM := (list (list ctkey)) (only parsing).

Record multisig_kLRki := { ms_k : key; ms_L : key; ms_R : key; ms_ki : key }.

Record ecdhTuple := { ecdh_mask : key; ecdh_amount : key; ecdh_senderPk : key }.

(** [key64]: a list of 64 keys *)
Record boroSig := { bb_s0 : keyV; bb_s1 : keyV; bb_ee : key }.

Record mgSig := { mg_ss : keyM; mg_cc : key; mg_II : keyV }.

Record rangeSig := { rs_asig : boroSig; rs_Ci : keyV }.

Record Bulletproof := {
  bp_V : keyV;
  bp_A : key; bp_S : key; bp_T1 : key; bp_T2 : key;
  bp_taux : key; bp_mu : key;
  bp_L : keyV; bp_R : keyV;
  bp_a : key; bp_b : key; bp_t : key
}.

Definition RCTTypeNull : Z := 0.
Definition RCTTypeFull : Z := 1.
Definition RCTTypeSimple : Z := 2.
Definition RCTTypeBulletproof : Z := 3.

Inductive RangeProofType :=
| RangeProofBorromean
| RangeProofBulletproof
| RangeProofMultiOutputBulletproof
| RangeProofPaddedBulletproof.

Record rctSigPrunable := {
  p_rangeSigs : list rangeSig;
  p_bulletproofs : list Bulletproof;
  p_MGs : list mgSig;
  p_pseudoOuts : keyV
}.

(** [rctSigBase] and the field [p] of [rctSig] *)
Record rctSig := {
  rct_type : Z;
  rct_message : key;
  rct_mixRing : ctkeyM;
  rct_pseudoOuts : keyV;
  rct_ecdhInfo : list ecdhTuple;
  rct_outPk : ctkeyV;
  rct_txnFee : Z;
  rct_p : rctSigPrunable
}.

Definition get_pseudo_outs (rv : rctSig) : keyV :=
  if rct_type rv =? RCTTypeBulletproof then p_pseudoOuts (rct_p rv) else rct_pseudoOuts rv.

(** ** Amounts *)

(** [while (val != 0)]; [n] is the number of bytes of the array from [i] on *)
Fixpoint d2h_loop (n i : nat) (amounth : key) (val : Z) : option key :=
  if val =? 0 then Some amounth else
  match n with
  | O => None
  | S n' => d2h_loop n' (S i) (<[i := Z.land val 0xFF]> amounth) (val / 256)
  end.

Definition d2h (val : Z) : option key := d2h_loop 32 0 sc_0 val.

(** The first loop of [d2b]: where it stops, and the array *)
Fixpoint d2b_loop (n i : nat) (amountb : list Z) (val : Z) : option (nat * list Z) :=
  if val =? 0 then Some (i, amountb) else
  match n with
  | O => None
  | S n' => d2b_loop n' (S i) (<[i := Z.land val 1]> amountb) (Z.shiftr val 1)
  end.

(** [while (i < to) { amountb[i] = 0; i++; }], [n] iterations *)
Fixpoint zero_bits (n i : nat) (amountb : list Z) : list Z :=
  match n with
  | O => amountb
  | S n' => zero_bits n' (S i) (<[i := 0]> amountb)
  end.

(** [amountb] is the array before the call. *)
Definition d2b (amountb : list Z) (val : Z) : option (list Z) :=
  '(i, amountb) ← d2b_loop 64 0 amountb val;
  Some (zero_bits (64 - i) i amountb).

(** [for (j = 7; j >= 0; j--)] *)
Fixpoint h2d_loop (n : nat) (test : key) (vali : Z) : Z :=
  match n with
  | O => vali
  | S j => h2d_loop j test (uwrap 64 (vali * 256 + test !!! j))
  end.

Definition h2d (test : key) : Z := h2d_loop 8 test 0.

(** [for (j = 0; j < 8; j++)], [n] iterations from [j] *)
Fixpoint h2b_loop (n j : nat) (test : key) (amountb2 : list Z) : option (list Z) :=
  match n with
  | O => Some amountb2
  | S n' =>
      '(i, amountb2) ← d2b_loop (64 - 8 * j) (8 * j) amountb2 (test !!! j);
      h2b_loop n' (S j) test (zero_bits (8 * (j + 1) - i) i amountb2)
  end.

Definition h2b (amountb2 : list Z) (test : key) : option (list Z) := h2b_loop 8 0 test amountb2.

(** [for (i = 7; i > -1; i--)] of byte [j]; [byte] is an [int], the bits are [unsigned int]s *)
Fixpoint b2h_byte (n j : nat) (amountb2 : list Z) (byte : Z) : option Z :=
  match n with
  | O => Some byte
  | S i =>
      twice ← chk 32 (byte * 2);
      b2h_byte i j amountb2 (swrap 32 (uwrap 32 (twice + amountb2 !!! (8 * j + i)%nat)))
  end.

Fixpoint b2h_loop (n j : nat) (amountb2 : list Z) : option (list Z) :=
  match n with
  | O => Some []
  | S n' =>
      byte ← b2h_byte 8 j amountb2 0;
      rest ← b2h_loop n' (S j) amountb2;
      Some (uwrap 8 byte :: rest)
  end.

Definition b2h (amountb2 : list Z) : option key :=
  low ← b2h_loop 8 0 amountb2;
  Some (low ++ replicate 24 0).

(** [for (j = 63; j >= 0; j--)] *)
Fixpoint b2d_loop (n : nat) (amountb : list Z) (vali : Z) : Z :=
  match n with
  | O => vali
  | S j => b2d_loop j amountb (uwrap 64 (vali * 2 + amountb !!! j))
  end.

Definition b2d (amountb : list Z) : Z := b2d_loop 64 amountb 0.

(** ** Kinds of signatures, sizes of bulletproofs *)

Definition is_rct_simple (type : Z) : bool := (type =? RCTTypeSimple) || (type =? RCTTypeBulletproof).
Definition is_rct_bulletproof (type : Z) : bool := type =? RCTTypeBulletproof.
Definition is_rct_borromean (type : Z) : bool := (type =? RCTTypeSimple) || (type =? RCTTypeFull).

Definition extra_bits : Z := 4.

Definition n_bulletproof_amounts (proof : Bulletproof) : Z :=
  let nL := Z.of_nat (length (bp_L proof)) in
  let nR := Z.of_nat (length (bp_R proof)) in
  let nV := Z.of_nat (length (bp_V proof)) in
  if negb (6 <=? nL) then 0 else
  if negb (nL =? nR) then 0 else
  if negb (nL <=? 6 + extra_bits) then 0 else
  if negb (nV <=? Z.shiftl 1 (nL - 6)) then 0 else
  if negb (Z.shiftl 1 (nL - 6) <? nV * 2) then 0 else
  if negb (0 <? nV) then 0 else
  nV.

Definition n_bulletproof_max_amounts (proof : Bulletproof) : Z :=
  let nL := Z.of_nat (length (bp_L proof)) in
  let nR := Z.of_nat (length (bp_R proof)) in
  if negb (6 <=? nL) then 0 else
  if negb (nL =? nR) then 0 else
  if negb (nL <=? 6 + extra_bits) then 0 else
  Z.shiftl 1 (nL - 6).

(** The sums over a vector of proofs: [size] is one of the two functions above. *)
Fixpoint sum_amounts (size : Bulletproof → Z) (proofs : list Bulletproof) (n : Z) : Z :=
  match proofs with
  | [] => n
  | proof :: proofs =>
      let n2 := size proof in
      if negb (n2 <? uwrap 64 (2 ^ 32 - 1 - n)) then 0 else
      if n2 =? 0 then 0 else
      sum_amounts size proofs (uwrap 64 (n + n2))
  end.

Definition n_bulletproofs_amounts (proofs : list Bulletproof) : Z :=
  sum_amounts n_bulletproof_amounts proofs 0.

Definition n_bulletproofs_max_amounts (proofs : list Bulletproof) : Z :=
  sum_amounts n_bulletproof_max_amounts proofs 0.
