(* ===== verification/RctTypesSpec.v ===== *)
(** * Amounts as keys and as bits

    The conversions of [rctTypes.cpp] between a 64-bit amount, its 64 bits and
    its 32-byte key, and the numbers of amounts a bulletproof can hold. *)

From S2P Require Export RctTypes.

#[local] Open Scope Z_scope.

(** ** Bits *)

Fixpoint bit_list (n : nat) (v : Z) : list Z :=
  match n with
  | O => []
  | S n' => v mod 2 :: bit_list n' (v / 2)
  end.

Fixpoint bits_val (l : list Z) : Z :=
  match l with
  | [] => 0
  | b :: l => b + 2 * bits_val l
  end.

Definition is_bits (l : list Z) : Prop := Forall (λ b, b = 0 ∨ b = 1) l.

Lemma length_bit_list n v : length (bit_list n v) = n.
Proof. revert v. induction n; intros v; cbn; auto. Qed.

Lemma bit_list_bits n v : is_bits (bit_list n v).
Proof.
  revert v. induction n as [|n IH]; intros v; constructor; [|apply IH]. zlia.
Qed.

Lemma pow2_nat_succ n : 2 ^ Z.of_nat (S n) = 2 * 2 ^ Z.of_nat n.
Proof. rewrite Nat2Z.inj_succ, Z.pow_succ_r; lia. Qed.

Lemma pow2_nat_pos n : 0 < 2 ^ Z.of_nat n.
Proof. apply Z.pow_pos_nonneg; lia. Qed.

Lemma bits_val_list n v : bits_val (bit_list n v) = v mod 2 ^ Z.of_nat n.
Proof.
  revert v. induction n as [|n IH]; intros v; cbn [bit_list bits_val]; [by rewrite Z.mod_1_r|].
  rewrite IH, pow2_nat_succ. rewrite Z.rem_mul_r; [lia|lia|apply pow2_nat_pos].
Qed.

Lemma bits_val_bound l : is_bits l → 0 ≤ bits_val l < 2 ^ Z.of_nat (length l).
Proof.
  induction 1 as [|b l Hb _ IH]; cbn [bits_val length]; [lia|]. rewrite pow2_nat_succ. lia.
Qed.

Lemma bit_list_val l : is_bits l → bit_list (length l) (bits_val l) = l.
Proof.
  induction 1 as [|b l Hb _ IH]; [done|]. cbn [bits_val length bit_list].
  replace ((b + 2 * bits_val l) mod 2) with b by zlia.
  replace ((b + 2 * bits_val l) / 2) with (bits_val l) by zlia. by rewrite IH.
Qed.

Lemma bits_val_app l k :
  bits_val (l ++ k) = bits_val l + 2 ^ Z.of_nat (length l) * bits_val k.
Proof.
  induction l as [|b l IH]; cbn [bits_val app length]; [lia|]. rewrite IH, pow2_nat_succ. ring.
Qed.

Lemma bits_val_snoc l x : bits_val (l ++ [x]) = bits_val l + 2 ^ Z.of_nat (length l) * x.
Proof. rewrite bits_val_app. cbn [bits_val]. lia. Qed.

Lemma bit_list_0 n : bit_list n 0 = replicate n 0.
Proof. induction n; cbn; f_equal; auto. Qed.

(** The bits above the number are 0. *)
Lemma bit_list_app n m v :
  0 ≤ v < 2 ^ Z.of_nat n → ∀ w, bit_list (n + m) (v + 2 ^ Z.of_nat n * w) = bit_list n v ++ bit_list m w.
Proof.
  revert v. induction n as [|n IH]; intros v Hv w; cbn [bit_list app plus Nat.add].
  { cbn in Hv. f_equal. cbn. lia. }
  rewrite pow2_nat_succ in *. apply cons_eq; [zlia|].
  rewrite <- IH by zlia. f_equal.
  replace (v + 2 * 2 ^ Z.of_nat n * w) with (v + (2 ^ Z.of_nat n * w) * 2) by ring.
  rewrite Z.div_add; lia.
Qed.

Lemma bit_list_small n m v :
  0 ≤ v < 2 ^ Z.of_nat n → bit_list (n + m) v = bit_list n v ++ replicate m 0.
Proof.
  intros Hv. rewrite <- bit_list_0, <- bit_list_app by done. f_equal. lia.
Qed.

(** ** An amount as a key *)

Lemma le_split_0 n : le_split n 0 = replicate n 0.
Proof. induction n; cbn; f_equal; auto. Qed.

Lemma le_split_app n m v w :
  0 ≤ v < 256 ^ Z.of_nat n →
  le_split (n + m) (v + 256 ^ Z.of_nat n * w) = le_split n v ++ le_split m w.
Proof.
  revert v. induction n as [|n IH]; intros v Hv; cbn [le_split app plus Nat.add].
  { cbn in Hv. f_equal. cbn. lia. }
  rewrite pow256_succ in *.
  replace (v + 256 * 256 ^ Z.of_nat n * w) with (v + (256 ^ Z.of_nat n * w) * 256) by ring.
  apply cons_eq; [apply Z_mod_plus_full|]. rewrite Z.div_add by lia. apply IH. zlia.
Qed.

Lemma d2h_loop_ok n pre v :
  0 ≤ v < 256 ^ Z.of_nat n →
  d2h_loop n (length pre) (pre ++ replicate n 0) v = Some (pre ++ le_split n v).
Proof.
  revert pre v. induction n as [|n IH]; intros pre v Hv; cbn [d2h_loop].
  { cbn in Hv. replace v with 0 by lia. done. }
  rewrite pow256_succ in Hv. destruct (Z.eqb_spec v 0) as [->|Hv0].
  { by rewrite le_split_0. }
  replace (<[length pre := Z.land v 255]> (pre ++ replicate (S n) 0))
    with ((pre ++ [Z.land v 255]) ++ replicate n 0).
  2: { rewrite insert_app_r_alt, Nat.sub_diag by lia. by rewrite <- app_assoc. }
  replace (S (length pre)) with (length (pre ++ [Z.land v 255])) by (rewrite length_app; cbn; lia).
  rewrite IH by zlia. cbn [le_split]. rewrite <- app_assoc.
  change (Z.land v 255) with (Z.land v (Z.ones 8)). by rewrite Z.land_ones by lia.
Qed.

Lemma d2h_ok v : 0 ≤ v < 2 ^ 64 → d2h v = Some (le_split 32 v).
Proof.
  intros Hv. refine (d2h_loop_ok 32 [] v _).
  assert (2 ^ 64 < 256 ^ Z.of_nat 32) by reflexivity. lia.
Qed.

Lemma h2d_loop_ok n l acc :
  (n ≤ length l)%nat → 0 ≤ acc < 2 ^ 64 →
  h2d_loop n l acc = uwrap 64 (acc * 256 ^ Z.of_nat n + le_combine (take n l)).
Proof.
  revert acc. induction n as [|n IH]; intros acc Hn Hacc; cbn [h2d_loop].
  { cbn. rewrite Z.mul_1_r, Z.add_0_r. symmetry. by apply uwrap_id. }
  rewrite IH; [|lia|apply Z.mod_pos_bound; lia].
  rewrite (take_S_r l n (l !!! n)), le_combine_app, length_take by
    (apply list_lookup_lookup_total_lt; lia).
  rewrite Nat.min_l, pow256_succ by lia. cbn [le_combine]. unfold uwrap.
  rewrite Zplus_mod, Zmult_mod_idemp_l, <- Zplus_mod. f_equal. ring.
Qed.

Lemma h2d_ok k : bytes32 k → h2d k = uwrap 64 (le_combine k).
Proof.
  intros [HL HB]. unfold h2d. rewrite h2d_loop_ok by lia. unfold uwrap.
  pose proof (le_combine_sub k 0 8 HB ltac:(lia)) as E. rewrite drop_0, Z.div_1_r in E.
  rewrite E. apply Z.mod_mod. lia.
Qed.

(** ** An amount as bits *)

Lemma d2b_loop_ok n pre rest v :
  length rest = n → 0 ≤ v < 2 ^ Z.of_nat n →
  ∃ m, (m ≤ n)%nat ∧ v < 2 ^ Z.of_nat m ∧
    (∀ k, v < 2 ^ Z.of_nat k → (m ≤ k)%nat) ∧
    d2b_loop n (length pre) (pre ++ rest) v =
      Some ((length pre + m)%nat, pre ++ bit_list m v ++ drop m rest).
Proof.
  revert pre rest v. induction n as [|n IH]; intros pre rest v HL Hv; cbn [d2b_loop].
  all: destruct (Z.eqb_spec v 0) as [->|Hv0].
  1, 3: exists 0%nat; split_and!; [lia|lia|intros; lia|].
  1, 2: by rewrite Nat.add_0_r.
  { cbn in Hv. lia. }
  destruct rest as [|x rest]; [done|]. rewrite pow2_nat_succ in Hv.
  replace (<[length pre := Z.land v 1]> (pre ++ x :: rest)) with ((pre ++ [v mod 2]) ++ rest).
  2: { rewrite insert_app_r_alt, Nat.sub_diag by lia. rewrite <- app_assoc. cbn.
       change (Z.land v 1) with (Z.land v (Z.ones 1)). by rewrite Z.land_ones by lia. }
  replace (S (length pre)) with (length (pre ++ [v mod 2])) by (rewrite length_app; cbn; lia).
  rewrite Z.shiftr_div_pow2 by lia. change (2 ^ 1) with 2.
  destruct (IH (pre ++ [v mod 2]) rest (v / 2)) as (m & Hm & Hlt & Hmin & E); [by injection HL|zlia|].
  exists (S m). rewrite pow2_nat_succ. split_and!; [lia|zlia| |].
  - intros [|k] Hk; [cbn in Hk; lia|]. rewrite pow2_nat_succ in Hk. specialize (Hmin k). zlia.
  - rewrite E, length_app, <- app_assoc. cbn [bit_list drop length app]. do 2 f_equal. lia.
Qed.

Lemma zero_bits_ok k pre rest :
  (k ≤ length rest)%nat →
  zero_bits k (length pre) (pre ++ rest) = pre ++ replicate k 0 ++ drop k rest.
Proof.
  revert pre rest. induction k as [|k IH]; intros pre rest Hk; [done|].
  destruct rest as [|x rest]; cbn [length] in Hk; [lia|]. cbn [zero_bits].
  replace (<[length pre := 0]> (pre ++ x :: rest)) with ((pre ++ [0]) ++ rest).
  2: { rewrite insert_app_r_alt, Nat.sub_diag by lia. by rewrite <- app_assoc. }
  replace (S (length pre)) with (length (pre ++ [0])) by (rewrite length_app; cbn; lia).
  rewrite IH by lia. by rewrite <- app_assoc.
Qed.

(** The two loops together: [k] bits are written, what follows stays. *)
Lemma write_bits_ok n k pre rest v :
  length rest = n → (k ≤ n)%nat → 0 ≤ v < 2 ^ Z.of_nat k →
  ∃ i l, d2b_loop n (length pre) (pre ++ rest) v = Some (i, l) ∧
    zero_bits (length pre + k - i) i l = pre ++ bit_list k v ++ drop k rest.
Proof.
  intros HL Hk Hv. assert (2 ^ Z.of_nat k ≤ 2 ^ Z.of_nat n) by (apply Z.pow_le_mono_r; lia).
  destruct (d2b_loop_ok n pre rest v HL) as (m & Hm & Hlt & Hmin & E); [lia|].
  specialize (Hmin k ltac:(lia)). eexists _, _. split; [exact E|].
  replace (length pre + k - (length pre + m))%nat with (k - m)%nat by lia.
  rewrite app_assoc.
  replace (length pre + m)%nat with (length (pre ++ bit_list m v))
    by (rewrite length_app, length_bit_list; lia).
  rewrite zero_bits_ok by (rewrite length_drop; lia). rewrite drop_drop, <- !app_assoc.
  replace (m + (k - m))%nat with k by lia. f_equal. rewrite app_assoc. f_equal.
  rewrite <- (bit_list_small m (k - m)) by lia. f_equal. lia.
Qed.

Lemma d2b_ok l v :
  length l = 64%nat → 0 ≤ v < 2 ^ 64 → d2b l v = Some (bit_list 64 v).
Proof.
  intros HL Hv. unfold d2b.
  destruct (write_bits_ok 64 64 [] l v HL ltac:(lia) Hv) as (i & l' & E & Ez).
  step E. cbn [length app plus Nat.add] in Ez. rewrite Ez, drop_ge by lia. by rewrite app_nil_r.
Qed.

Lemma h2b_loop_ok n j k pre rest :
  bytes k → length k = 32%nat → (j + n = 8)%nat →
  length pre = (8 * j)%nat → length rest = (8 * n)%nat →
  h2b_loop n j k (pre ++ rest) =
    Some (pre ++ bit_list (8 * n) (le_combine (take n (drop j k)))).
Proof.
  intros HB HK. revert j pre rest. induction n as [|n IH]; intros j pre rest Hj Hp Hr.
  { destruct rest; [|done]. reflexivity. }
  cbn [h2b_loop].
  assert (k !! j = Some (k !!! j)) as Ek by (apply list_lookup_lookup_total_lt; lia).
  assert (0 ≤ k !!! j < 2 ^ Z.of_nat 8) as Hb by (by apply (Forall_lookup_1 _ _ _ _ HB Ek)).
  destruct (write_bits_ok (64 - 8 * j) 8 pre rest (k !!! j)) as (i & l & E & Ez); [lia|lia|exact Hb|].
  rewrite Hp in E, Ez. step E. cbn beta iota.
  replace (8 * (j + 1) - i)%nat with (8 * j + 8 - i)%nat by lia. rewrite Ez, app_assoc.
  rewrite IH; [|lia|rewrite length_app, length_bit_list; lia|rewrite length_drop; lia].
  rewrite <- app_assoc. do 2 f_equal. rewrite (drop_S _ _ _ Ek). cbn [take le_combine].
  replace (8 * S n)%nat with (8 + 8 * n)%nat by lia.
  rewrite <- (bit_list_app 8 (8 * n)) by exact Hb. reflexivity.
Qed.

Lemma h2b_ok l k :
  length l = 64%nat → bytes32 k → h2b l k = Some (bit_list 64 (le_combine (take 8 k))).
Proof.
  intros HL [HK HB]. refine (h2b_loop_ok 8 0 k [] l HB HK _ _ _); done.
Qed.

Lemma b2d_loop_ok n l acc :
  (n ≤ length l)%nat → 0 ≤ acc < 2 ^ 64 →
  b2d_loop n l acc = uwrap 64 (acc * 2 ^ Z.of_nat n + bits_val (take n l)).
Proof.
  revert acc. induction n as [|n IH]; intros acc Hn Hacc; cbn [b2d_loop].
  { cbn. rewrite Z.mul_1_r, Z.add_0_r. symmetry. by apply uwrap_id. }
  rewrite IH; [|lia|apply Z.mod_pos_bound; lia].
  rewrite (take_S_r l n (l !!! n)), bits_val_snoc, length_take by (apply list_lookup_lookup_total_lt; lia).
  rewrite Nat.min_l, pow2_nat_succ by lia. unfold uwrap.
  rewrite Zplus_mod, Zmult_mod_idemp_l, <- Zplus_mod. f_equal. ring.
Qed.

Lemma b2h_byte_ok n j l acc :
  is_bits l → (8 * j + n ≤ length l)%nat → (n ≤ 8)%nat → 0 ≤ acc < 2 ^ (8 - Z.of_nat n) →
  b2h_byte n j l acc =
    Some (acc * 2 ^ Z.of_nat n + bits_val (take n (drop (8 * j) l))).
Proof.
  intros Hl. revert acc. induction n as [|n IH]; intros acc Hn H8 Hacc; cbn [b2h_byte].
  { f_equal. change (acc = acc * 1 + 0). lia. }
  assert (2 ^ (8 - Z.of_nat (S n)) ≤ 2 ^ 7) by (apply Z.pow_le_mono_r; lia).
  step (chk_Some 32 (acc * 2) ltac:(apply fits_spec; lia)).
  assert (l !! (8 * j + n)%nat = Some (l !!! (8 * j + n)%nat)) as El
    by (apply list_lookup_lookup_total_lt; lia).
  pose proof (Forall_lookup_1 _ _ _ _ Hl El) as Hb. cbv beta in Hb.
  rewrite uwrap_id, swrap_fits by (rewrite ?fits_spec; lia).
  replace (8 - Z.of_nat (S n)) with (7 - Z.of_nat n) in Hacc by lia.
  rewrite IH; [|lia|lia|].
  2: { replace (8 - Z.of_nat n) with (Z.succ (7 - Z.of_nat n)) by lia.
       rewrite Z.pow_succ_r by lia. lia. }
  f_equal. rewrite (take_S_r _ n (l !!! (8 * j + n)%nat)) by (by rewrite lookup_drop).
  rewrite bits_val_snoc, length_take, length_drop, Nat.min_l, pow2_nat_succ by lia. ring.
Qed.

Lemma b2h_loop_ok n j l :
  is_bits l → length l = (8 * (j + n))%nat →
  b2h_loop n j l = Some (le_split n (bits_val (drop (8 * j) l))).
Proof.
  intros Hl. revert j. induction n as [|n IH]; intros j HL; [done|]. cbn [b2h_loop].
  step (b2h_byte_ok 8 j l 0 Hl ltac:(lia) ltac:(lia) ltac:(lia)).
  step (IH (S j) ltac:(lia)). cbn [le_split].
  set (v := bits_val (take 8 (drop (8 * j) l))).
  assert (0 ≤ v < 256) as Hv.
  { pose proof (bits_val_bound (take 8 (drop (8 * j) l))) as HB.
    rewrite length_take, length_drop, Nat.min_l in HB by lia. apply HB.
    by apply Forall_take, Forall_drop. }
  replace (bits_val (drop (8 * j) l)) with (v + 256 * bits_val (drop (8 * S j) l)).
  2: { rewrite <- (take_drop 8 (drop (8 * j) l)), bits_val_app, drop_drop.
       rewrite length_take, length_drop, Nat.min_l by lia. unfold v.
       replace (8 * j + 8)%nat with (8 * S j)%nat by lia. reflexivity. }
  f_equal. apply cons_eq.
  - unfold uwrap. change (2 ^ 8) with 256. zlia.
  - f_equal. zlia.
Qed.

Lemma b2h_ok l :
  is_bits l → length l = 64%nat → b2h l = Some (le_split 32 (bits_val l)).
Proof.
  intros Hl HL. unfold b2h. step (b2h_loop_ok 8 0 l Hl HL). cbn [drop].
  pose proof (bits_val_bound l Hl) as HB. rewrite HL in HB. f_equal. change (8 * 0)%nat with 0%nat.
  rewrite drop_0. rewrite <- le_split_0.
  transitivity (le_split (8 + 24) (bits_val l + 256 ^ Z.of_nat 8 * 0)); [|f_equal; lia].
  symmetry. apply le_split_app. exact HB.
Qed.

(** C15. The conversions between a 64-bit amount, its key and its bits agree: the key of an amount is
    a reduced scalar with that value, and [h2d], [b2d], [b2h] and [h2b] lead back from the key and
    from the bits, whatever the arrays held before. *)
Theorem amount_codec_spec (v : Z) (amountb : list Z)
    (Hv : 0 ≤ v < 2 ^ 64) (Hb : length amountb = 64%nat) :
  ∃ k b, d2h v = Some k ∧ d2b amountb v = Some b ∧ bytes32 k ∧ le_combine k = v ∧
    is_bits b ∧ length b = 64%nat ∧ bits_val b = v ∧
    h2d k = v ∧ b2d b = v ∧ b2h b = Some k ∧ h2b amountb k = Some b.
Proof.
  exists (le_split 32 v), (bit_list 64 v).
  assert (bits_val (bit_list 64 v) = v) as EB by (rewrite bits_val_list; by apply Z.mod_small).
  assert (le_combine (le_split 32 v) = v) as EK.
  { rewrite le_combine_split. apply Z.mod_small. change (256 ^ Z.of_nat 32) with (2 ^ 256). lia. }
  assert (bytes32 (le_split 32 v)) as HK by (split; [apply length_le_split|apply bytes_le_split]).
  split_and!; [by apply d2h_ok|by apply d2b_ok|exact HK|exact EK|apply bit_list_bits|done|
    exact EB|..].
  - rewrite h2d_ok, EK by exact HK. by apply uwrap_id.
  - unfold b2d. rewrite b2d_loop_ok by (cbn; lia). rewrite take_ge by (rewrite length_bit_list; lia).
    rewrite EB. by apply uwrap_id.
  - rewrite b2h_ok, EB; [done|apply bit_list_bits|done].
  - rewrite h2b_ok by done. do 2 f_equal.
    rewrite <- (drop_0 (le_split 32 v)), le_combine_sub by (apply HK || (rewrite length_le_split; lia)).
    rewrite EK, Z.div_1_r. by apply Z.mod_small.
Qed.

Lemma amount_codec_spec_witness :
  ∃ k b, d2h (2 ^ 64 - 1) = Some k ∧ d2b (replicate 64 7) (2 ^ 64 - 1) = Some b ∧ bytes32 k ∧
    le_combine k = 2 ^ 64 - 1 ∧ is_bits b ∧ length b = 64%nat ∧ bits_val b = 2 ^ 64 - 1 ∧
    h2d k = 2 ^ 64 - 1 ∧ b2d b = 2 ^ 64 - 1 ∧ b2h b = Some k ∧ h2b (replicate 64 7) k = Some b.
Proof. apply (amount_codec_spec (2 ^ 64 - 1) (replicate 64 7)); [lia|reflexivity]. Defined.
