(* ===== verification/RctOps.v ===== *)
(** * Ring confidential transactions, operations on keys: [rctOps.cpp]

    Also [rctOps.h] and [rctCryptoOps.c].  A key is 32 bytes, a scalar or the
    encoding of a point.  Loading a key that does not encode a point throws.

    [rct_hash] is [cn_fast_hash] of the namespace [rct], which calls [keccak]
    for a digest of 32 bytes; [fast_hash] is [cn_fast_hash] of [crypto], which
    cuts the full state. *)

From S2P Require Export RctTypes Crypto Keccak.

#[local] Open Scope stmt_scope.
#[local] Open Scope Z_scope.

(** ** [rctCryptoOps.c] *)

(** The statements of [sc_reduce32], with another destination. *)
Definition sc_reduce32copy (s : key) : option key :=
  r ← (sc_round >> sc_final) (sc_load s ++ [0]);
  Some (sc_store r).

(** ** Constants *)

Definition rct_Z : key := replicate 32 0.
Definition rct_I : key := 1 :: replicate 31 0.
Definition rct_L : key :=
  [ 0xed; 0xd3; 0xf5; 0x5c; 0x1a; 0x63; 0x12; 0x58; 0xd6; 0x9c; 0xf7; 0xa2; 0xde; 0xf9; 0xde; 0x14;
    0x00; 0x00; 0x00; 0x00; 0x00; 0x00; 0x00; 0x00; 0x00; 0x00; 0x00; 0x00; 0x00; 0x00; 0x00; 0x10 ].
Definition rct_G : key := 0x58 :: replicate 31 0x66.
Definition EIGHT : key := 8 :: replicate 31 0.
Definition INV_EIGHT : key :=
  [ 0x79; 0x2f; 0xdc; 0xe2; 0x29; 0xe5; 0x06; 0x61; 0xd0; 0xda; 0x1c; 0x7d; 0xb3; 0x9d; 0xd3; 0x07;
    0x00; 0x00; 0x00; 0x00; 0x00; 0x00; 0x00; 0x00; 0x00; 0x00; 0x00; 0x00; 0x00; 0x00; 0x00; 0x06 ].
Definition rct_H : key :=
  [ 0x8b; 0x65; 0x59; 0x70; 0x15; 0x37; 0x99; 0xaf; 0x2a; 0xea; 0xdc; 0x9f; 0xf1; 0xad; 0xd0; 0xea;
    0x6c; 0x72; 0x51; 0xd5; 0x41; 0x54; 0xcf; 0xa9; 0x2c; 0x17; 0x3a; 0x0d; 0xd3; 0x9c; 0x1f; 0x94 ].

Definition zero : key := rct_Z.
Definition rct_identity : key := rct_I.
Definition curveOrder : key := rct_L.

Definition keyMInit (rows cols : nat) : keyM := replicate cols (replicate rows rct_Z).

(** ** The hash functions *)

(** [keccak(data, l, hash.bytes, 32)] *)
Definition rct_cn_fast_hash (data : list Z) : option key := keccak data 32.

Class RctHash := rct_hash : list Z → option (list Z).

(** What the clients rely on: it is the function of [crypto]. *)
Class RctHashLaws `(FastHash) `(RctHash) : Prop :=
  rct_hash_eq : ∀ data, rct_hash data = fast_hash data.

Section rct_ops.
Context `{FastHash} `{RctHash} {G : Type} `{Rng G}.

(** [hash_to_scalar] of a key, or of a block of memory *)
Definition rct_hash_to_scalar (data : list Z) : option key :=
  h ← rct_hash data;
  sc_reduce32 h.

(** of a vector of keys; [&keys[0]] does not exist for the empty one *)
Definition cn_fast_hash_keyV (keys : keyV) : option key :=
  match keys with
  | [] => fast_hash []
  | _ => rct_hash (mjoin keys)
  end.

Definition hash_to_scalar_keyV (keys : keyV) : option key :=
  rv ← cn_fast_hash_keyV keys;
  sc_reduce32 rv.

Definition cn_fast_hash_ctkeyV (PC : ctkeyV) : option key :=
  match PC with
  | [] => fast_hash []
  | _ => rct_hash (PC ≫= λ k, ct_dest k ++ ct_mask k)
  end.

Definition hash_to_scalar_ctkeyV (PC : ctkeyV) : option key :=
  rv ← cn_fast_hash_ctkeyV PC;
  sc_reduce32 rv.

(** of a [key64] *)
Definition hash_to_scalar_key64 (keys : keyV) : option key :=
  rv ← rct_hash (mjoin keys);
  sc_reduce32 rv.

(** ** Points *)

(** [CHECK_AND_ASSERT_THROW_MES_L1(ge_frombytes_vartime(&A, P.bytes) == 0, ..)] *)
Definition load_key (P : key) : outcome ge_p3 :=
  A ← run (ge_frombytes_vartime P);
  match A with Some A => Ret A | None => Throw end.

(** What is stored in [P], if anything, and what is returned *)
Definition toPointCheckOrder (data : list Z) : option (option ge_p3 * bool) :=
  P ← ge_frombytes_vartime data;
  match P with
  | None => Some (None, false)
  | Some P =>
      R ← ge_scalarmult curveOrder P;
      tmp ← ge_tobytes R;
      Some (Some P, key_eqb tmp rct_identity)
  end.

Definition isInMainSubgroup (a : key) : option bool := snd <$> toPointCheckOrder a.

Definition scalarmultBase (a : key) : option key :=
  aG ← sc_reduce32copy a;
  point ← ge_scalarmult_base aG;
  ge_p3_tobytes point.

Definition scalarmultKey (P a : key) : outcome key :=
  A ← load_key P;
  run (R ← ge_scalarmult a A; ge_tobytes R).

Definition scalarmultH (a : key) : option key :=
  R ← ge_scalarmult a ge_p3_H;
  ge_tobytes R.

Definition scalarmult8 (P : key) : outcome key :=
  p3 ← load_key P;
  run (
    p1 ← ge_mul8 (ge_p3_to_p2 p3);
    p2 ← ge_p1p1_to_p2 p1;
    ge_tobytes p2).

(** [A2 + B2], as a [ge_p3] *)
Definition add_p3 (A2 B2 : ge_p3) : option ge_p3 :=
  tmp2 ← ge_p3_to_cached B2;
  tmp3 ← ge_add A2 tmp2;
  ge_p1p1_to_p3 tmp3.

Definition addKeys (A B : key) : outcome key :=
  B2 ← load_key B;
  A2 ← load_key A;
  run (A2 ← add_p3 A2 B2; ge_p3_tobytes A2).

(** [for (size_t i = 1; i < A.size(); ++i)] *)
Fixpoint addKeys_loop (A : keyV) (p3 : ge_p3) : outcome ge_p3 :=
  match A with
  | [] => Ret p3
  | a :: A =>
      tmp ← load_key a;
      p3 ← run (add_p3 p3 tmp);
      addKeys_loop A p3
  end.

Definition addKeys_keyV (A : keyV) : outcome key :=
  match A with
  | [] => Ret rct_identity
  | a :: A =>
      p3 ← load_key a;
      p3 ← addKeys_loop A p3;
      run (ge_p3_tobytes p3)
  end.

Definition addKeys1 (a B : key) : outcome key :=
  aG ← run (scalarmultBase a);
  addKeys aG B.

Definition addKeys2 (a b B : key) : outcome key :=
  B2 ← load_key B;
  run (rv ← ge_double_scalarmult_base_vartime b B2 a; ge_tobytes rv).

Definition precomp (B : key) : outcome (list ge_cached) :=
  B2 ← load_key B;
  run (ge_dsm_precomp B2).

Definition addKeys3 (a A b : key) (B : list ge_cached) : outcome key :=
  A2 ← load_key A;
  run (rv ← ge_double_scalarmult_precomp_vartime a A2 b B; ge_tobytes rv).

(** The overload where [A] is precomputed too *)
Definition addKeys3_precomp (a : key) (A : list ge_cached) (b : key) (B : list ge_cached) :
    option key :=
  rv ← ge_double_scalarmult_precomp_vartime2 a A b B;
  ge_tobytes rv.

Definition subKeys (A B : key) : outcome key :=
  B2 ← load_key B;
  A2 ← load_key A;
  run (
    tmp2 ← ge_p3_to_cached B2;
    tmp3 ← ge_sub A2 tmp2;
    A2 ← ge_p1p1_to_p3 tmp3;
    ge_p3_tobytes A2).

(** [for (int i = 0; i < 32; ++i)], [n] iterations from [i] *)
Fixpoint equalKeys_loop (n i : nat) (a b : key) (rv : bool) : bool :=
  match n with
  | O => rv
  | S n' => equalKeys_loop n' (S i) a b (if negb (a !!! i =? b !!! i) then false else rv)
  end.

Definition equalKeys (a b : key) : bool := equalKeys_loop 32 0 a b true.

Fixpoint sumKeys_loop (Cis : keyV) (Csum : key) : outcome key :=
  match Cis with
  | [] => Ret Csum
  | Ci :: Cis => Csum ← addKeys Csum Ci; sumKeys_loop Cis Csum
  end.

Definition sumKeys (Cis : keyV) : outcome key := sumKeys_loop Cis rct_identity.

(** ** Hashing to a point *)

Definition hashToPointSimple (hh : key) : outcome key :=
  h ← run (rct_hash hh);
  res ← load_key h;
  run (
    point2 ← ge_mul8 (ge_p3_to_p2 res);
    res ← ge_p1p1_to_p3 point2;
    ge_p3_tobytes res).

Definition hashToPoint (hh : key) : option key :=
  h ← rct_hash hh;
  point ← ge_fromfe_frombytes_vartime h;
  point2 ← ge_mul8 point;
  res ← ge_p1p1_to_p3 point2;
  ge_p3_tobytes res.

(** ** Key generation *)

Definition skGen : rand G key := random32_unbiased.

Fixpoint skvGen_loop (rows : nat) : rand G keyV :=
  match rows with
  | O => mret []
  | S n => k ← skGen; rest ← skvGen_loop n; mret (k :: rest)
  end.

Definition skvGen (rows : nat) : gen G keyV :=
  _ ← calc (throw_unless (0 <? rows)%nat);
  draw (skvGen_loop rows).

Definition pkGen : rand G key :=
  sk ← skGen;
  lift (scalarmultBase sk).

(** The secret key and the public key *)
Definition skpkGen : rand G (key * key) :=
  sk ← skGen;
  pk ← lift (scalarmultBase sk);
  mret (sk, pk).

(** ** Commitments *)

Definition genC (a : key) (amount : Z) : outcome key :=
  bH ← run (am ← d2h amount; scalarmultH am);
  addKeys1 a bH.

(** The overload that takes [bH] *)
Definition ctskpkGen_bH (bH : key) : gen G (ctkey * ctkey) :=
  '(sk_dest, pk_dest) ← draw skpkGen;
  '(sk_mask, pk_mask) ← draw skpkGen;
  pk_mask ← calc (addKeys pk_mask bH);
  mret ({| ct_dest := sk_dest; ct_mask := sk_mask |}, {| ct_dest := pk_dest; ct_mask := pk_mask |}).

Definition ctskpkGen (amount : Z) : gen G (ctkey * ctkey) :=
  '(sk_dest, pk_dest) ← draw skpkGen;
  '(sk_mask, pk_mask) ← draw skpkGen;
  bH ← calc (run (am ← d2h amount; scalarmultH am));
  pk_mask ← calc (addKeys pk_mask bH);
  mret ({| ct_dest := sk_dest; ct_mask := sk_mask |}, {| ct_dest := pk_dest; ct_mask := pk_mask |}).

Definition zeroCommit (amount : Z) : outcome key :=
  bH ← run (am ← d2h amount; scalarmultH am);
  addKeys rct_G bH.

Definition commit (amount : Z) (mask : key) : outcome key :=
  c ← run (scalarmultBase mask);
  bH ← run (am ← d2h amount; scalarmultH am);
  addKeys c bH.

(** [% 0] is undefined. *)
Definition randXmrAmount (upperlimit : Z) : rand G Z :=
  sk ← skGen;
  lift (if upperlimit =? 0 then None else Some (h2d sk mod upperlimit)).

(** ** The amount and the mask for the receiver *)

Definition ecdhEncode (unmasked : ecdhTuple) (sharedSec : key) : option ecdhTuple :=
  sharedSec1 ← rct_hash_to_scalar sharedSec;
  sharedSec2 ← rct_hash_to_scalar sharedSec1;
  mask ← sc_add (ecdh_mask unmasked) sharedSec1;
  amount ← sc_add (ecdh_amount unmasked) sharedSec2;
  Some {| ecdh_mask := mask; ecdh_amount := amount; ecdh_senderPk := ecdh_senderPk unmasked |}.

Definition ecdhDecode (masked : ecdhTuple) (sharedSec : key) : option ecdhTuple :=
  sharedSec1 ← rct_hash_to_scalar sharedSec;
  sharedSec2 ← rct_hash_to_scalar sharedSec1;
  mask ← sc_sub (ecdh_mask masked) sharedSec1;
  amount ← sc_sub (ecdh_amount masked) sharedSec2;
  Some {| ecdh_mask := mask; ecdh_amount := amount; ecdh_senderPk := ecdh_senderPk masked |}.

End rct_ops.
