(* ===== verification/RctOpsSpec.v ===== *)
(** * Correctness of the operations on keys

    [rctOps.cpp] on the group of the curve: sums, differences and multiples of
    keys, commitments [a G + b H], hashes to points, and the amount and mask
    sent to the receiver.  A key that is not the encoding of a point throws. *)

From S2P Require Export RctOps RctTypesSpec RingSpec.

#[local] Open Scope Z_scope.

(** ** Loading *)

Lemma load_key_ok P : on_curve P → ∃ h, load_key (ed_encode P) = Ret h ∧ p3_is P h.
Proof.
  intros HP. destruct (ge_frombytes_encode P HP) as (h & E & Hh). exists h. split; [|exact Hh].
  unfold load_key. step_run E. reflexivity.
Qed.

Lemma load_key_invalid k : bytes32 k → invalid_key k → load_key k = Throw.
Proof. intros Hk Hi. unfold load_key. step_run (load_invalid k Hk Hi). reflexivity. Qed.

Lemma add_p3_ok P Q p q :
  p3_is P p → p3_is Q q → ∃ r, add_p3 p q = Some r ∧ p3_is (ed_add P Q) r.
Proof.
  intros HP HQ. unfold add_p3. destruct (ge_p3_to_cached_ok _ _ HQ) as (c & Ec & Hc). step Ec.
  destruct (ge_add_ok _ _ _ _ HP Hc) as (t & Et & Ht). step Et.
  exact (ge_p1p1_to_p3_ok _ _ Ht).
Qed.

(** ** Multiples *)

Lemma sc_reduce32copy_ok s : bytes32 s → sc_reduce32copy s = Some (to_scalar (le_combine s)).
Proof. exact (sc_reduce32_scalar s). Qed.

Lemma scalarmultBase_ok a : bytes32 a → scalarmultBase a = Some (ed_encode (mulG (le_combine a))).
Proof.
  intros Ha. unfold scalarmultBase. step (sc_reduce32copy_ok a Ha).
  destruct (base_mul _ (to_scalar_scalar (le_combine a))) as (h & E & _ & E'). step E.
  rewrite E', le_combine_to_scalar, mulG_mod. reflexivity.
Qed.

Lemma scalarmult_encode P A a :
  p3_is P A → scalar255 a →
  (R ← ge_scalarmult a A; ge_tobytes R) = Some (ed_encode (ed_mul (le_combine a) P)).
Proof.
  intros HP Ha. destruct (ge_scalarmult_ok P A a HP Ha) as (r & E & Hr). step E.
  exact (ge_tobytes_ok _ _ Hr).
Qed.

Lemma scalarmultKey_ok P a :
  on_curve P → scalar255 a →
  scalarmultKey (ed_encode P) a = Ret (ed_encode (ed_mul (le_combine a) P)).
Proof.
  intros HP Ha. destruct (load_key_ok P HP) as (h & E & Hh). unfold scalarmultKey. step_ret E.
  exact (run_some _ _ (scalarmult_encode _ _ _ Hh Ha)).
Qed.

Lemma scalarmultH_ok a :
  scalar255 a → scalarmultH a = Some (ed_encode (ed_mul (le_combine a) H25519)).
Proof. exact (scalarmult_encode _ _ a ge_p3_H_is). Qed.

Lemma mul8_encode P h :
  p3_is P h →
  (p1 ← ge_mul8 (ge_p3_to_p2 h); p2 ← ge_p1p1_to_p2 p1; ge_tobytes p2) =
    Some (ed_encode (ed_mul 8 P)).
Proof.
  intros Hh. destruct (ge_mul8_ok _ _ (ge_p3_to_p2_ok _ _ Hh)) as (t & E & Ht). step E.
  destruct (ge_p1p1_to_p2_ok _ _ Ht) as (r & E' & Hr). step E'. exact (ge_tobytes_ok _ _ Hr).
Qed.

Lemma scalarmult8_ok P :
  on_curve P → scalarmult8 (ed_encode P) = Ret (ed_encode (ed_mul 8 P)).
Proof.
  intros HP. destruct (load_key_ok P HP) as (h & E & Hh). unfold scalarmult8. step_ret E.
  exact (run_some _ _ (mul8_encode _ _ Hh)).
Qed.

Lemma ge_p3_identity_is : p3_is ed_zero ge_p3_identity.
Proof. exact ge_p3_0_is. Qed.

(** ** The order of a point *)

Lemma key_eqb_eq a b : key_eqb a b = true ↔ a = b.
Proof. apply bool_decide_eq_true. Qed.

Lemma rct_identity_ok : rct_identity = ed_encode ed_zero.
Proof. exact infinity_ok. Qed.

Lemma curveOrder_ok : scalar255 curveOrder ∧ le_combine curveOrder = L.
Proof.
  split; [|reflexivity]. split; [reflexivity|]. split; [|reflexivity].
  apply (bool_decide_unpack _). vm_compute. exact I.
Qed.

Lemma toPointCheckOrder_ok P :
  on_curve P →
  ∃ h, p3_is P h ∧
    toPointCheckOrder (ed_encode P) =
      Some (Some h, key_eqb (ed_encode (ed_mul L P)) (ed_encode ed_zero)).
Proof.
  intros HP. destruct (ge_frombytes_encode P HP) as (h & E & Hh). exists h. split; [exact Hh|].
  unfold toPointCheckOrder. step E. cbn iota. destruct curveOrder_ok as [HL EL].
  destruct (ge_scalarmult_ok P h _ Hh HL) as (r & Er & Hr). step Er.
  step (ge_tobytes_ok _ _ Hr). rewrite EL, rct_identity_ok. reflexivity.
Qed.

Lemma isInMainSubgroup_ok k :
  bytes32 k →
  ∃ b, isInMainSubgroup k = Some b ∧ (b = true ↔ ∃ P, l_torsion P ∧ k = ed_encode P).
Proof.
  intros Hk. unfold isInMainSubgroup. destruct (load_cases k Hk) as [(P & HP & ->)|Hi].
  - destruct (toPointCheckOrder_ok P HP) as (h & _ & E). rewrite E.
    eexists. split; [reflexivity|]. cbn [snd]. rewrite key_eqb_eq. split.
    + intros EL. exists P. split; [|done]. split; [exact HP|].
      apply ed_encode_inj; [auto with edwards..|exact EL].
    + intros (Q & [HQ HL] & EQ). rewrite (ed_encode_inj P Q HP HQ EQ), HL. reflexivity.
  - exists false. unfold toPointCheckOrder. rewrite (load_invalid k Hk Hi). split; [reflexivity|].
    split; [discriminate|]. intros (P & [HP _] & EP). destruct (Hi P HP). done.
Qed.

(** ** Sums *)

Lemma addKeys_ok P Q :
  on_curve P → on_curve Q →
  addKeys (ed_encode P) (ed_encode Q) = Ret (ed_encode (ed_add P Q)).
Proof.
  intros HP HQ. unfold addKeys. destruct (load_key_ok Q HQ) as (q & Eq & Hq). step_ret Eq.
  destruct (load_key_ok P HP) as (p & Ep & Hp). step_ret Ep.
  destruct (add_p3_ok _ _ _ _ Hp Hq) as (r & Er & Hr). apply run_some. step Er.
  exact (ge_p3_tobytes_ok _ _ Hr).
Qed.

Lemma subKeys_ok P Q :
  on_curve P → on_curve Q →
  subKeys (ed_encode P) (ed_encode Q) = Ret (ed_encode (ed_add P (ed_opp Q))).
Proof.
  intros HP HQ. unfold subKeys. destruct (load_key_ok Q HQ) as (q & Eq & Hq). step_ret Eq.
  destruct (load_key_ok P HP) as (p & Ep & Hp). step_ret Ep. apply run_some.
  destruct (ge_p3_to_cached_ok _ _ Hq) as (c & Ec & Hc). step Ec.
  destruct (ge_sub_ok _ _ _ _ Hp Hc) as (t & Et & Ht). step Et.
  destruct (ge_p1p1_to_p3_ok _ _ Ht) as (r & Er & Hr). step Er. exact (ge_p3_tobytes_ok _ _ Hr).
Qed.

Lemma addKeys_invalid A B :
  bytes32 A → bytes32 B → invalid_key A ∨ invalid_key B →
  addKeys A B = Throw ∧ subKeys A B = Throw.
Proof.
  intros HA HB HI. unfold addKeys, subKeys.
  destruct (load_cases B HB) as [(Q & HQ & ->)|IB].
  - destruct (load_key_ok Q HQ) as (q & Eq & _). rewrite !(bind_ret _ _ _ Eq); cbv beta.
    rewrite (load_key_invalid A HA); [done|]. destruct HI as [HI|HI]; [exact HI|].
    destruct (HI Q HQ). done.
  - rewrite (load_key_invalid B HB IB). done.
Qed.

(** The sum of a list of points *)
Definition point_sum (Ps : list point) : point := foldr ed_add ed_zero Ps.

Lemma psum_cons P Ps : point_sum (P :: Ps) = ed_add P (point_sum Ps).
Proof. done. Qed.

Lemma psum_on_curve Ps : Forall on_curve Ps → on_curve (point_sum Ps).
Proof. induction 1; cbn; auto with edwards. Qed.

Lemma psum_app Ps Qs :
  Forall on_curve Ps → Forall on_curve Qs → point_sum (Ps ++ Qs) = ed_add (point_sum Ps) (point_sum Qs).
Proof.
  intros HP HQ. induction HP as [|P Ps H HP IH]; [exact (eq_sym (ed_add_0_l _))|].
  change (point_sum ((P :: Ps) ++ Qs)) with (ed_add P (point_sum (Ps ++ Qs))).
  rewrite IH. apply ed_add_assoc; [exact H|by apply psum_on_curve..].
Qed.

Lemma psum_snoc Ps P :
  Forall on_curve Ps → on_curve P → point_sum (Ps ++ [P]) = ed_add (point_sum Ps) P.
Proof.
  intros HP H. rewrite psum_app by (done || by repeat constructor).
  cbn [point_sum foldr]. by rewrite ed_add_0_r.
Qed.

Lemma addKeys_loop_ok Ps P p3 :
  Forall on_curve Ps → p3_is P p3 →
  ∃ r, addKeys_loop (ed_encode <$> Ps) p3 = Ret r ∧ p3_is (ed_add P (point_sum Ps)) r.
Proof.
  intros HPs. revert P p3. induction HPs as [|Q Qs HQ HQs IH]; intros P p3 HP.
  { exists p3. split; [reflexivity|]. cbn [point_sum foldr]. by rewrite ed_add_0_r. }
  destruct (load_key_ok Q HQ) as (q & Eq & Hq). destruct (add_p3_ok _ _ _ _ HP Hq) as (r & Er & Hr).
  destruct (IH _ _ Hr) as (r' & E' & Hr'). exists r'. split.
  - rewrite fmap_cons. cbn [addKeys_loop]. step_ret Eq. step_run Er. exact E'.
  - rewrite psum_cons, ed_add_assoc; [exact Hr'|exact (proj1 HP)|exact HQ|].
    by apply psum_on_curve.
Qed.

Lemma addKeys_keyV_ok Ps :
  Forall on_curve Ps → addKeys_keyV (ed_encode <$> Ps) = Ret (ed_encode (point_sum Ps)).
Proof.
  intros HPs. destruct HPs as [|P Ps HP HPs]; [exact (f_equal Ret rct_identity_ok)|].
  rewrite fmap_cons. cbn [addKeys_keyV]. destruct (load_key_ok P HP) as (p & Ep & Hp). step_ret Ep.
  destruct (addKeys_loop_ok Ps P p HPs Hp) as (r & Er & Hr). step_ret Er.
  exact (run_some _ _ (ge_p3_tobytes_ok _ _ Hr)).
Qed.

Lemma sumKeys_loop_ok Ps P :
  Forall on_curve Ps → on_curve P →
  sumKeys_loop (ed_encode <$> Ps) (ed_encode P) = Ret (ed_encode (ed_add P (point_sum Ps))).
Proof.
  intros HPs. revert P. induction HPs as [|Q Qs HQ HQs IH]; intros P HP.
  { cbn [point_sum foldr]. by rewrite ed_add_0_r. }
  rewrite fmap_cons. cbn [sumKeys_loop]. step_ret (addKeys_ok P Q HP HQ).
  rewrite IH by auto with edwards. cbn [point_sum foldr].
  by rewrite ed_add_assoc by auto using psum_on_curve.
Qed.

Lemma sumKeys_ok Ps :
  Forall on_curve Ps → sumKeys (ed_encode <$> Ps) = Ret (ed_encode (point_sum Ps)).
Proof.
  intros HPs. unfold sumKeys. rewrite rct_identity_ok, sumKeys_loop_ok by auto with edwards.
  by rewrite ed_add_0_l.
Qed.

(** ** Linear combinations *)

Lemma addKeys1_ok a P :
  bytes32 a → on_curve P →
  addKeys1 a (ed_encode P) = Ret (ed_encode (ed_add (mulG (le_combine a)) P)).
Proof.
  intros Ha HP. unfold addKeys1. step_run (scalarmultBase_ok a Ha).
  apply addKeys_ok; [apply mulG_on_curve|exact HP].
Qed.

Lemma addKeys2_ok a b P :
  scalar255 a → scalar255 b → on_curve P →
  addKeys2 a b (ed_encode P) =
    Ret (ed_encode (ed_add (mulG (le_combine a)) (ed_mul (le_combine b) P))).
Proof.
  intros Ha Hb HP. unfold addKeys2. destruct (load_key_ok P HP) as (h & E & Hh). step_ret E.
  destruct (ge_double_scalarmult_base_vartime_ok P h b a Hh Hb Ha) as (r & Er & Hr).
  apply run_some. step Er. rewrite (ge_tobytes_ok _ _ Hr). unfold sum_point.
  by rewrite ed_add_comm.
Qed.

Lemma precomp_ok P :
  on_curve P → ∃ Ai, precomp (ed_encode P) = Ret Ai ∧ odd_multiples P Ai.
Proof.
  intros HP. unfold precomp. destruct (load_key_ok P HP) as (h & E & Hh).
  destruct (ge_dsm_precomp_ok P h Hh) as (Ai & EA & HA). exists Ai. split; [|exact HA].
  step_ret E. exact (run_some _ _ EA).
Qed.

Lemma addKeys3_ok a b P Q Bi :
  scalar255 a → scalar255 b → on_curve P → on_curve Q → odd_multiples Q Bi →
  addKeys3 a (ed_encode P) b Bi =
    Ret (ed_encode (ed_add (ed_mul (le_combine a) P) (ed_mul (le_combine b) Q))).
Proof.
  intros Ha Hb HP HQ HB. unfold addKeys3. destruct (load_key_ok P HP) as (h & E & Hh). step_ret E.
  destruct (ge_double_scalarmult_precomp_vartime_ok P h Q Bi a b Hh HQ HB Ha Hb) as (r & Er & Hr).
  apply run_some. step Er. exact (ge_tobytes_ok _ _ Hr).
Qed.

Lemma addKeys3_precomp_ok a b P Q Ai Bi :
  scalar255 a → scalar255 b → on_curve P → on_curve Q → odd_multiples P Ai → odd_multiples Q Bi →
  addKeys3_precomp a Ai b Bi =
    Some (ed_encode (ed_add (ed_mul (le_combine a) P) (ed_mul (le_combine b) Q))).
Proof.
  intros Ha Hb HP HQ HA HB. unfold addKeys3_precomp.
  destruct (ge_double_scalarmult_precomp_vartime2_ok P Q Ai Bi a b HP HQ HA HB Ha Hb)
    as (r & Er & Hr).
  step Er. exact (ge_tobytes_ok _ _ Hr).
Qed.

Lemma linear_invalid a b k Bi :
  bytes32 k → invalid_key k →
  addKeys2 a b k = Throw ∧ addKeys3 a k b Bi = Throw ∧ precomp k = Throw ∧
  scalarmultKey k a = Throw ∧ scalarmult8 k = Throw.
Proof.
  intros Hk Hi. unfold addKeys2, addKeys3, precomp, scalarmultKey, scalarmult8.
  rewrite (load_key_invalid k Hk Hi). done.
Qed.

(** ** Comparison *)

Lemma equalKeys_loop_false n i a b : equalKeys_loop n i a b false = false.
Proof. revert i. induction n as [|n IH]; intros i; [done|]. cbn. destruct negb; apply IH. Qed.

Lemma equalKeys_loop_ok n i a b :
  length a = (i + n)%nat → length b = (i + n)%nat → take i a = take i b →
  equalKeys_loop n i a b true = bool_decide (a = b).
Proof.
  revert i. induction n as [|n IH]; intros i Ha Hb E.
  { rewrite !take_ge in E by lia. cbn. by rewrite bool_decide_eq_true_2. }
  cbn [equalKeys_loop]. destruct (Z.eqb_spec (a !!! i) (b !!! i)) as [Ei|Ei]; cbn [negb].
  - apply IH; [lia..|].
    rewrite (take_S_r a i (a !!! i)), (take_S_r b i (b !!! i)), E, Ei; [done|..];
      apply list_lookup_lookup_total_lt; lia.
  - rewrite equalKeys_loop_false. symmetry. apply bool_decide_eq_false. by intros ->.
Qed.

Lemma equalKeys_ok a b :
  length a = 32%nat → length b = 32%nat → equalKeys a b = bool_decide (a = b).
Proof. intros Ha Hb. by apply equalKeys_loop_ok. Qed.

Lemma equalKeys_points P Q :
  on_curve P → on_curve Q → equalKeys (ed_encode P) (ed_encode Q) = true ↔ P = Q.
Proof.
  intros HP HQ. rewrite equalKeys_ok by apply length_ed_encode. rewrite bool_decide_eq_true.
  split; [by apply ed_encode_inj|by intros ->].
Qed.

(** ** The two ways to hash *)

Lemma take_store64 st : (4 ≤ length st)%nat → take 32 (store64 25 st) = store64 4 st.
Proof. intros HL. destruct st as [|a [|b [|c [|d st]]]]; cbn in HL; [lia..|]. reflexivity. Qed.

Lemma keccak32_ok msg : keccak msg 32 = Some (store64 4 (ref_sponge msg)).
Proof.
  set (k := (length msg / 136)%nat). pose proof (quot136_div (length msg)) as Hk.
  fold k in Hk. unfold keccak.
  change ((32 =? 0)%nat || (100 <? 32)%nat && negb (200 =? 32)%nat) with false.
  change (if (200 =? 32)%nat then HASH_DATA_AREA else (200 - 2 * 32)%nat) with 136%nat.
  cbn [andb negb orb]. rewrite (absorb_blocks_ok _ k) by first [exact Hk | lia].
  assert (length (drop (136 * k) msg) = length msg - 136 * k)%nat as HL by apply length_drop.
  unfold quot136 in Hk. rewrite HL.
  rewrite !(proj2 (Nat.leb_gt _ _)), !(proj2 (Nat.ltb_ge _ _)) by (change (136 / 8)%nat with 17%nat; lia).
  change (136 =? 0)%nat with false. change (negb (32 mod 8 =? 0)%nat) with false.
  cbn [orb]. change (32 / 8)%nat with 4%nat. change (136 / 8)%nat with 17%nat.
  rewrite (ref_sponge_eq k) by exact Hk. rewrite pad_block_ok by lia. rewrite HL. reflexivity.
Qed.

#[export] Instance keccak32 : RctHash := rct_cn_fast_hash.

#[export] Instance keccak32_laws : RctHashLaws keccak_hash keccak32.
Proof.
  intros data. change (keccak data 32 = cn_fast_hash data).
  destruct (cn_fast_hash_ok data) as (h & -> & -> & _). rewrite keccak32_ok, take_store64; [done|].
  rewrite length_ref_sponge. lia.
Qed.

(** ** The generators *)

Lemma rct_G_ok : rct_G = ed_encode B25519.
Proof. vm_compute. reflexivity. Qed.

Lemma rct_H_ok : rct_H = ed_encode H25519.
Proof. vm_compute. reflexivity. Qed.

Lemma H_on_curve : on_curve H25519.
Proof. exact (proj1 ge_p3_H_is). Qed.
#[export] Hint Resolve H_on_curve mulG_on_curve psum_on_curve : edwards.

(** The commitment to [b] with the mask [a] *)
Definition commitment (a b : Z) : point := ed_add (mulG a) (ed_mul b H25519).

Lemma commitment_on_curve a b : on_curve (commitment a b).
Proof. unfold commitment. auto with edwards. Qed.
#[export] Hint Resolve commitment_on_curve : edwards.

Lemma commitment_add a b a' b' :
  ed_add (commitment a b) (commitment a' b') = commitment (a + a') (b + b').
Proof.
  unfold commitment. rewrite ed_add_swap by auto with edwards.
  by rewrite <- mulG_add, <- ed_mul_add by auto with edwards.
Qed.

Lemma commitment_opp a b : ed_opp (commitment a b) = commitment (- a) (- b).
Proof.
  unfold commitment, mulG. by rewrite ed_opp_add, !ed_mul_opp.
Qed.

Lemma commitment_mod a b : commitment (a mod L) b = commitment a b.
Proof. unfold commitment. by rewrite mulG_mod. Qed.

Lemma commitment_0 a : commitment a 0 = mulG a.
Proof. unfold commitment. cbn [ed_mul]. apply ed_add_0_r. Qed.

Definition zsum (l : list Z) : Z := foldr Z.add 0 l.

Lemma zsum_cons x l : zsum (x :: l) = x + zsum l.
Proof. done. Qed.

Lemma commitment_psum l :
  point_sum ((λ p, commitment p.1 p.2) <$> l) = commitment (zsum l.*1) (zsum l.*2).
Proof.
  induction l as [|[a v] l IH].
  - exact (eq_sym (commitment_0 0)).
  - rewrite !fmap_cons. cbn [fst snd].
    transitivity (ed_add (commitment a v) (point_sum ((λ p, commitment p.1 p.2) <$> l))); [reflexivity|].
    rewrite IH, commitment_add. reflexivity.
Qed.

(** The key of an amount *)
Definition amount_key (v : Z) : key := le_split 32 v.

Lemma amount_scalar v : 0 ≤ v < 2 ^ 64 → scalar (amount_key v) ∧ le_combine (amount_key v) = v.
Proof.
  intros Hv. pose proof L_range.
  assert (le_combine (amount_key v) = v) as E.
  { unfold amount_key. rewrite le_combine_split. apply Z.mod_small.
    change (256 ^ Z.of_nat 32) with (2 ^ 256). lia. }
  split; [|exact E]. split; [apply length_le_split|apply bytes_le_split|rewrite E; lia].
Qed.

Lemma amountH_ok v :
  0 ≤ v < 2 ^ 64 →
  (am ← d2h v; scalarmultH am) = Some (ed_encode (ed_mul v H25519)).
Proof.
  intros Hv. step (d2h_ok v Hv). destruct (amount_scalar v Hv) as [HS E].
  rewrite (scalarmultH_ok (le_split 32 v)) by (by apply scalar_255). do 3 f_equal. exact E.
Qed.

Lemma genC_ok a v :
  bytes32 a → 0 ≤ v < 2 ^ 64 → genC a v = Ret (ed_encode (commitment (le_combine a) v)).
Proof.
  intros Ha Hv. unfold genC. step_run (amountH_ok v Hv). apply addKeys1_ok; auto with edwards.
Qed.

Lemma zeroCommit_ok v : 0 ≤ v < 2 ^ 64 → zeroCommit v = Ret (ed_encode (commitment 1 v)).
Proof.
  intros Hv. unfold zeroCommit. step_run (amountH_ok v Hv). rewrite rct_G_ok, addKeys_ok.
  - unfold commitment, mulG. by rewrite ed_mul_1.
  - exact (proj1 l_torsion_B).
  - auto with edwards.
Qed.

Lemma commit_ok v a :
  bytes32 a → 0 ≤ v < 2 ^ 64 → commit v a = Ret (ed_encode (commitment (le_combine a) v)).
Proof.
  intros Ha Hv. unfold commit. step_run (scalarmultBase_ok a Ha). step_run (amountH_ok v Hv).
  apply addKeys_ok; auto with edwards.
Qed.

Section rct_ops_spec.
Context {F : FastHash} {FL : FastHashLaws F} {RH : RctHash} {RHL : RctHashLaws F RH}.
Context {G : Type} {R : Rng G} {RL : RngLaws R}.

(** ** Hashes *)

Lemma rct_hash_to_scalar_ok data :
  rct_hash_to_scalar data = Some (to_scalar (hash_num data)).
Proof.
  unfold rct_hash_to_scalar. rewrite rct_hash_eq. exact (hash_to_scalar_ok data).
Qed.

Lemma cn_fast_hash_keyV_ok keys : cn_fast_hash_keyV keys = fast_hash (mjoin keys).
Proof. destruct keys; [done|]. apply rct_hash_eq. Qed.

Lemma hash_to_scalar_keyV_ok keys :
  hash_to_scalar_keyV keys = Some (to_scalar (hash_num (mjoin keys))).
Proof.
  unfold hash_to_scalar_keyV. rewrite cn_fast_hash_keyV_ok. exact (hash_to_scalar_ok (mjoin keys)).
Qed.

Lemma hash_to_scalar_key64_ok keys :
  hash_to_scalar_key64 keys = Some (to_scalar (hash_num (mjoin keys))).
Proof.
  unfold hash_to_scalar_key64. rewrite rct_hash_eq. exact (hash_to_scalar_ok (mjoin keys)).
Qed.

Lemma hashToPoint_ok hh P : hash_to_ec_is hh P → hashToPoint hh = Some (ed_encode P).
Proof.
  intros (h & E & Hh). rewrite <- (ge_p3_tobytes_ok _ _ Hh).
  change (ge_p3_tobytes h) with (Some h ≫= ge_p3_tobytes). rewrite <- E.
  unfold hashToPoint, hash_to_ec. rewrite rct_hash_eq.
  destruct (fast_hash_total hh) as (d & -> & _). cbn [mbind option_bind].
  destruct (ge_fromfe_frombytes_vartime d) as [p|]; [|done]. cbn [mbind option_bind].
  by destruct (ge_mul8 p).
Qed.

Lemma hashToPointSimple_ok hh h P :
  fast_hash hh = Some h → on_curve P → h = ed_encode P →
  hashToPointSimple hh = Ret (ed_encode (ed_mul 8 P)).
Proof.
  intros Eh HP ->. unfold hashToPointSimple. rewrite rct_hash_eq, Eh.
  change (run (Some (ed_encode P))) with (Ret (ed_encode P)).
  destruct (load_key_ok P HP) as (p & Ep & Hp). step_ret (eq_refl (Ret (ed_encode P))). step_ret Ep.
  apply run_some. destruct (ge_mul8_ok _ _ (ge_p3_to_p2_ok _ _ Hp)) as (t & Et & Ht). step Et.
  destruct (ge_p1p1_to_p3_ok _ _ Ht) as (r & Er & Hr). step Er. exact (ge_p3_tobytes_ok _ _ Hr).
Qed.

Lemma hashToPointSimple_invalid hh h :
  fast_hash hh = Some h → invalid_key h → hashToPointSimple hh = Throw.
Proof.
  intros Eh Hi. unfold hashToPointSimple. rewrite rct_hash_eq.
  destruct (fast_hash_total hh) as (h' & E' & Hb). rewrite Eh in *. injection E' as <-.
  step_ret (eq_refl (Ret h)). by rewrite load_key_invalid.
Qed.

(** ** Random keys *)

Lemma skGen_ok s :
  rng_ok s → ∃ x s', scalar x ∧ rng_ok s' ∧ skGen s = Some (x, s').
Proof.
  intros Hs. destruct (random_scalar_ok s Hs) as (l & s' & _ & _ & Hs' & E).
  exists (to_scalar (le_combine l)), s'. split; [apply to_scalar_scalar|]. by split.
Qed.

Lemma skpkGen_ok s :
  rng_ok s →
  ∃ x s', scalar x ∧ rng_ok s' ∧ skpkGen s = Some (x, ed_encode (mulG (le_combine x)), s').
Proof.
  intros Hs. destruct (skGen_ok s Hs) as (x & s' & Hx & Hs' & E). exists x, s'.
  split_and!; [exact Hx..|exact Hs'|]. unfold skpkGen. rewrite (rand_step _ _ _ _ _ E).
  rewrite (rand_lift _ _ _ _ (scalarmultBase_ok x (scalar_bytes32 x Hx))). reflexivity.
Qed.

Lemma skvGen_loop_ok n s :
  rng_ok s →
  ∃ xs s', length xs = n ∧ Forall scalar xs ∧ rng_ok s' ∧ skvGen_loop n s = Some (xs, s').
Proof.
  revert s. induction n as [|n IH]; intros s Hs.
  { exists [], s. done. }
  destruct (skGen_ok s Hs) as (x & s1 & Hx & Hs1 & E1).
  destruct (IH s1 Hs1) as (xs & s2 & HL & HF & Hs2 & E2).
  exists (x :: xs), s2. split_and!; [cbn; lia|by constructor|exact Hs2|].
  cbn [skvGen_loop]. rewrite (rand_step _ _ _ _ _ E1), (rand_step _ _ _ _ _ E2). reflexivity.
Qed.

Lemma skvGen_ok n s :
  (0 < n)%nat → rng_ok s →
  ∃ xs s', length xs = n ∧ Forall scalar xs ∧ rng_ok s' ∧ skvGen n s = Ret (xs, s').
Proof.
  intros Hn Hs. destruct (skvGen_loop_ok n s Hs) as (xs & s' & HL & HF & Hs' & E).
  exists xs, s'. split_and!; [done..|]. unfold skvGen.
  rewrite (calc_step _ _ _ _ (throw_unless_true _ (proj2 (Nat.ltb_lt 0 n) Hn))).
  exact (run_some _ _ E).
Qed.

Lemma ctskpkGen_bH_ok P s :
  on_curve P → rng_ok s →
  ∃ sk pk s', ctskpkGen_bH (ed_encode P) s = Ret (sk, pk, s') ∧ rng_ok s' ∧
    scalar (ct_dest sk) ∧ scalar (ct_mask sk) ∧
    ct_dest pk = ed_encode (mulG (le_combine (ct_dest sk))) ∧
    ct_mask pk = ed_encode (ed_add (mulG (le_combine (ct_mask sk))) P).
Proof.
  intros HP Hs. destruct (skpkGen_ok s Hs) as (x & s1 & Hx & Hs1 & E1).
  destruct (skpkGen_ok s1 Hs1) as (y & s2 & Hy & Hs2 & E2).
  exists {| ct_dest := x; ct_mask := y |}. eexists _, s2. unfold ctskpkGen_bH.
  rewrite (draw_step _ _ _ _ _ E1), (draw_step _ _ _ _ _ E2).
  rewrite (calc_step _ _ _ _ (addKeys_ok _ P (mulG_on_curve _) HP)).
  split; [reflexivity|]. done.
Qed.

Lemma ctskpkGen_ok v s :
  0 ≤ v < 2 ^ 64 → rng_ok s →
  ∃ sk pk s', ctskpkGen v s = Ret (sk, pk, s') ∧ rng_ok s' ∧
    scalar (ct_dest sk) ∧ scalar (ct_mask sk) ∧
    ct_dest pk = ed_encode (mulG (le_combine (ct_dest sk))) ∧
    ct_mask pk = ed_encode (commitment (le_combine (ct_mask sk)) v).
Proof.
  intros Hv Hs.
  destruct (ctskpkGen_bH_ok (ed_mul v H25519) s ltac:(auto with edwards) Hs)
    as (sk & pk & s' & E & Hs' & HP).
  exists sk, pk, s'. split; [|done]. rewrite <- E. unfold ctskpkGen, ctskpkGen_bH.
  destruct (skpkGen_ok s Hs) as (x & s1 & Hx & Hs1 & E1).
  destruct (skpkGen_ok s1 Hs1) as (y & s2 & Hy & Hs2 & E2).
  rewrite !(draw_step _ _ _ _ _ E1), !(draw_step _ _ _ _ _ E2).
  rewrite (calc_step _ _ _ _ (run_some _ _ (amountH_ok v Hv))). reflexivity.
Qed.

(** ** The amount and the mask for the receiver *)

Definition ecdh_ok (e : ecdhTuple) : Prop := bytes32 (ecdh_mask e) ∧ bytes32 (ecdh_amount e).

Lemma sc_add_sub_cancel a h :
  bytes32 a → ∃ c, sc_add a (to_scalar h) = Some c ∧ bytes32 c ∧
    sc_sub c (to_scalar h) = Some (to_scalar (le_combine a)).
Proof.
  intros [HL HB]. destruct (to_scalar_scalar h) as [Lh Bh Sh].
  eexists. rewrite sc_add_ok by done. split; [reflexivity|].
  split; [split; [apply length_le_split|apply bytes_le_split]|].
  rewrite sc_sub_ok by (done || apply length_le_split || apply bytes_le_split).
  unfold to_scalar. do 2 f_equal.
  change (le_split 32 ((le_combine a + le_combine (le_split 32 (h mod L))) mod L))
    with (to_scalar (le_combine a + le_combine (to_scalar h))).
  rewrite !le_combine_to_scalar. rewrite Zminus_mod_idemp_l. f_equal.
  change (le_combine (le_split 32 (h mod L))) with (le_combine (to_scalar h)).
  rewrite le_combine_to_scalar. lia.
Qed.

Lemma ecdh_round_trip e sec :
  ecdh_ok e →
  ∃ m, ecdhEncode e sec = Some m ∧ ecdh_ok m ∧
    ecdhDecode m sec = Some {| ecdh_mask := to_scalar (le_combine (ecdh_mask e));
      ecdh_amount := to_scalar (le_combine (ecdh_amount e)); ecdh_senderPk := ecdh_senderPk e |}.
Proof.
  intros [HM HA]. unfold ecdhEncode, ecdhDecode.
  rewrite !(bind_some _ _ _ (rct_hash_to_scalar_ok sec)); cbv beta.
  set (h := to_scalar (hash_num sec)).
  destruct (sc_add_sub_cancel _ (hash_num sec) HM) as (m & Em & Hm & Em').
  destruct (sc_add_sub_cancel _ (hash_num h) HA) as (v & Ev & Hv & Ev').
  eexists. rewrite !(bind_some _ _ _ (rct_hash_to_scalar_ok h)); cbv beta.
  step Em. step Ev. split; [reflexivity|]. split; [by split|]. cbn [ecdh_mask ecdh_amount ecdh_senderPk].
  rewrite (bind_some _ _ _ (rct_hash_to_scalar_ok sec)); cbv beta. fold h.
  rewrite (bind_some _ _ _ (rct_hash_to_scalar_ok h)); cbv beta.
  step Em'. step Ev'. reflexivity.
Qed.

End rct_ops_spec.

(** The operations on keys are the group's.  For any two strings of 32
    bytes, either both encode points [P] and [Q] of the curve and [addKeys],
    [subKeys], [scalarmultKey], [addKeys2] and [addKeys3] (with the table of
    [precomp]) return the encodings of [P + Q], [P - Q], [a P], [a G + b Q] and
    [a P + b Q], while [equalKeys] decides [P = Q]; or one of them does not
    encode a point and [addKeys] and [subKeys] throw. *)
Theorem key_operations_spec a b A B :
  scalar255 a → scalar255 b → bytes32 A → bytes32 B →
  (∃ P Q, on_curve P ∧ on_curve Q ∧ A = ed_encode P ∧ B = ed_encode Q ∧
    addKeys A B = Ret (ed_encode (ed_add P Q)) ∧
    subKeys A B = Ret (ed_encode (ed_add P (ed_opp Q))) ∧
    scalarmultKey A a = Ret (ed_encode (ed_mul (le_combine a) P)) ∧
    addKeys2 a b B = Ret (ed_encode (ed_add (mulG (le_combine a)) (ed_mul (le_combine b) Q))) ∧
    (∃ Bi, precomp B = Ret Bi ∧
      addKeys3 a A b Bi = Ret (ed_encode (ed_add (ed_mul (le_combine a) P) (ed_mul (le_combine b) Q)))) ∧
    (equalKeys A B = true ↔ P = Q)) ∨
  ((invalid_key A ∨ invalid_key B) ∧ addKeys A B = Throw ∧ subKeys A B = Throw).
Proof.
  intros Ha Hb HA HB.
  destruct (load_cases A HA) as [(P & HP & ->)|IA].
  2: { right. split; [by left|]. apply addKeys_invalid; [done..|by left]. }
  destruct (load_cases B HB) as [(Q & HQ & ->)|IB].
  2: { right. split; [by right|]. apply addKeys_invalid; [done..|by right]. }
  left. exists P, Q. split_and!; try done.
  - by apply addKeys_ok.
  - by apply subKeys_ok.
  - by apply scalarmultKey_ok.
  - by apply addKeys2_ok.
  - destruct (precomp_ok Q HQ) as (Bi & E & HBi). exists Bi. split; [done|]. by apply addKeys3_ok.
  - by apply equalKeys_points.
Qed.

Lemma key_operations_spec_witness :
  ∃ P Q, rct_G = ed_encode P ∧ rct_H = ed_encode Q ∧
    addKeys rct_G rct_H = Ret (ed_encode (ed_add P Q)) ∧ (equalKeys rct_G rct_H = true ↔ P = Q).
Proof.
  destruct (key_operations_spec (to_scalar 3) (to_scalar 5) rct_G rct_H)
    as [(P & Q & _ & _ & EP & EQ & E & _ & _ & _ & _ & EK)|([HI|HI] & _)].
  - apply scalar_255, to_scalar_scalar.
  - apply scalar_255, to_scalar_scalar.
  - rewrite rct_G_ok. apply bytes32_encode.
  - rewrite rct_H_ok. apply bytes32_encode.
  - exists P, Q. split; [exact EP|]. split; [exact EQ|]. split; [exact E|exact EK].
  - destruct (HI B25519 (proj1 l_torsion_B) (eq_sym rct_G_ok)).
  - destruct (HI H25519 H_on_curve (eq_sym rct_H_ok)).
Defined.
