(* ===== verification/ScalarField.v ===== *)
(** * The field of scalars, and logarithms

    Scalars modulo the prime [L] are a field; the points of order dividing [L]
    are the multiples of the base point.  So a computation with such points and
    reduced scalars is one in the field: [fkey c] is the key of the scalar [c],
    [pkey c] the key of the point [c G], and the operations on keys are those of
    the field on [c]. *)

From Stdlib Require Import Zmod.Zmod Field.
From S2P Require Export RctOpsSpec.

#[local] Open Scope Z_scope.

(** ** The subgroup of order [L] is cyclic *)

Lemma mulG_opp a : mulG (- a) = ed_opp (mulG a).
Proof. apply ed_mul_opp. Qed.

Section logarithm.
Context (Q : point) (HQ : l_torsion Q) (HN : ¬ Exists (λ k, Q = mulG k) (seqZ 0 L)).

Definition candidate2 (c a : Z) : point := ed_add (ed_mul c Q) (mulG a).

Lemma candidate2_on_curve c a : on_curve (candidate2 c a).
Proof. unfold candidate2. pose proof (proj1 HQ). auto with edwards. Qed.

Lemma not_multiple k : Q ≠ mulG k.
Proof.
  intros E. apply HN. apply Exists_exists. exists (k mod L). split.
  - apply list_elem_of_In, elem_of_seqZ. pose proof (Z.mod_pos_bound k L ltac:(reflexivity)). lia.
  - by rewrite mulG_mod.
Qed.

Lemma candidate2_lt c a c' a' : 0 < c' - c < L → candidate2 c a ≠ candidate2 c' a'.
Proof.
  intros Hc E. destruct HQ as [HQc HQL].
  assert (Z.gcd (c' - c) L = 1) as Hg.
  { rewrite Z.gcd_comm. apply Z.coprime_prime_l; [exact prime_L|].
    intros [k Hk]. assert (0 < k) by nia. assert (k < 1) by nia. lia. }
  destruct (Z.gcd_bezout _ _ _ Hg) as (u & v & Huv).
  apply (not_multiple (u * (a - a'))).
  assert (ed_mul (c' - c) Q = mulG (a - a')) as Ed.
  { unfold candidate2 in E. apply (f_equal (ed_add (ed_opp (ed_add (ed_mul c Q) (mulG a'))))) in E.
    transitivity (ed_add (ed_opp (ed_add (ed_mul c Q) (mulG a'))) (ed_add (ed_mul c' Q) (mulG a'))).
    - unfold Z.sub. rewrite ed_mul_add, ed_mul_opp by done.
      rewrite ed_opp_add, ed_add_swap by auto with edwards.
      rewrite (ed_add_comm (ed_opp (mulG a'))), ed_add_opp_r, ed_add_0_r by auto with edwards.
      apply ed_add_comm.
    - rewrite <- E. unfold Z.sub. rewrite mulG_add, mulG_opp.
      rewrite ed_opp_add, ed_add_swap by auto with edwards.
      rewrite (ed_add_comm (ed_opp (ed_mul c Q))), ed_add_opp_r, ed_add_0_l by auto with edwards.
      apply ed_add_comm. }
  rewrite <- (ed_mul_1 Q). rewrite <- Huv, ed_mul_add by done.
  rewrite <- (ed_mul_mul u), <- (ed_mul_mul v), HQL, ed_mul_zero, ed_add_0_r by done.
  by rewrite Ed, mulG_mul.
Qed.
End logarithm.

Lemma l_torsion_log Q : l_torsion Q → ∃ k, 0 ≤ k < L ∧ Q = mulG k.
Proof.
  intros HQ. destruct (decide (Exists (λ k, Q = mulG k) (seqZ 0 L))) as [HE|HN].
  { apply Exists_exists in HE as (k & Hk & ->). apply list_elem_of_In, elem_of_seqZ in Hk. exists k. split; [lia|done]. }
  exfalso. assert (16 * L ≤ 2 * p25519) as Hle; [|revert Hle; vm_compute; congruence].
  apply (pigeonhole_Z _ _ (λ i, point_code (candidate2 Q (i / L) (i mod L)))).
  - discriminate.
  - discriminate.
  - intros i _. apply point_code_range.
  - intros i j Hi Hj E. apply point_code_inj in E; [|by apply candidate2_on_curve..].
    assert (∀ i, 0 ≤ i < 16 * L → 0 ≤ i / L < L) as Hb.
    { clear. intros i Hi. assert (0 ≤ i / L < 16); [|unfold L in *; lia].
      split; [apply Z.div_pos; [lia|reflexivity]|apply Z.div_lt_upper_bound; [reflexivity|lia]]. }
    pose proof (Hb i Hi). pose proof (Hb j Hj).
    destruct (Z.lt_trichotomy (i / L) (j / L)) as [Hlt|[Heq|Hgt]].
    + exfalso. revert E. apply candidate2_lt; [done|done|lia].
    + rewrite (Z.div_mod i L), (Z.div_mod j L), Heq by discriminate. f_equal.
      unfold candidate2 in E. rewrite Heq in E. apply ed_add_cancel_l in E; [|pose proof (proj1 HQ); auto with edwards..].
      apply ed_mul_sub_eq, B25519_order_divides in E as [k Hk]; [|exact B25519_on_curve].
      pose proof (Z.mod_pos_bound i L ltac:(reflexivity)). pose proof (Z.mod_pos_bound j L ltac:(reflexivity)).
      assert (k = 0) by nia. lia.
    + exfalso. symmetry in E. revert E. apply candidate2_lt; [done|done|lia].
Qed.

(** ** The field *)

Notation FL := (Zmod L).

Lemma FL_field_theory : field_theory (Zmod.zero : FL) Zmod.one Zmod.add Zmod.mul Zmod.sub Zmod.opp Zmod.mdiv Zmod.inv eq.
Proof. exact (Zmod.field_theory L prime_L). Qed.
Add Field FL_field : FL_field_theory.

#[local] Open Scope Zmod_scope.

(** The key of a scalar, and the key of a multiple of the base point *)
Definition fkey (c : FL) : key := to_scalar (Zmod.to_Z c).
Definition fpoint (c : FL) : point := mulG (Zmod.to_Z c).
Definition pkey (c : FL) : key := ed_encode (fpoint c).

(** The number of a scalar *)
Definition of_key (k : key) : FL := Zmod.of_Z L (le_combine k).

Lemma to_Z_range_L (c : FL) : (0 ≤ Zmod.to_Z c < L)%Z.
Proof. apply Zmod.unsigned_pos_bound. reflexivity. Qed.

Lemma fkey_scalar c : scalar (fkey c).
Proof. apply to_scalar_scalar. Qed.
#[export] Hint Resolve fkey_scalar : scalars.

Lemma le_combine_fkey c : le_combine (fkey c) = Zmod.to_Z c.
Proof. unfold fkey. rewrite le_combine_to_scalar. apply Z.mod_small, to_Z_range_L. Qed.

Lemma to_scalar_fkey n : to_scalar n = fkey (Zmod.of_Z L n).
Proof. unfold fkey. by rewrite Zmod.to_Z_of_Z, to_scalar_mod. Qed.

Lemma fkey_of_key k : scalar k → fkey (of_key k) = k.
Proof. intros Hk. unfold of_key. by rewrite <- to_scalar_fkey, to_scalar_id. Qed.

Lemma of_key_fkey c : of_key (fkey c) = c.
Proof. unfold of_key. rewrite le_combine_fkey. apply Zmod.of_Z_to_Z. Qed.

Lemma fkey_inj c d : fkey c = fkey d → c = d.
Proof. intros E. by rewrite <- (of_key_fkey c), E, of_key_fkey. Qed.

Lemma mulG_fpoint n : mulG n = fpoint (Zmod.of_Z L n).
Proof. unfold fpoint. by rewrite Zmod.to_Z_of_Z, mulG_mod. Qed.

Lemma fpoint_inj c d : fpoint c = fpoint d → c = d.
Proof.
  intros E. apply Zmod.unsigned_inj. unfold fpoint, mulG in E.
  apply ed_mul_sub_eq, B25519_order_divides in E as [k Hk]; [|exact B25519_on_curve].
  pose proof (to_Z_range_L c). pose proof (to_Z_range_L d). assert (k = 0%Z) by nia. lia.
Qed.

Lemma fpoint_on_curve c : on_curve (fpoint c).
Proof. apply mulG_on_curve. Qed.
#[export] Hint Resolve fpoint_on_curve : edwards.

Lemma fpoint_0 : fpoint 0 = ed_zero.
Proof. unfold fpoint. by rewrite Zmod.to_Z_0. Qed.

Lemma fpoint_add c d : fpoint (c + d) = ed_add (fpoint c) (fpoint d).
Proof. unfold fpoint. rewrite <- mulG_add. rewrite Zmod.to_Z_add, mulG_mod. done. Qed.

Lemma fpoint_opp c : fpoint (- c) = ed_opp (fpoint c).
Proof. unfold fpoint. rewrite <- mulG_opp. rewrite Zmod.to_Z_opp, mulG_mod. done. Qed.

Lemma fpoint_mul n c : ed_mul n (fpoint c) = fpoint (Zmod.of_Z L n * c).
Proof.
  unfold fpoint. rewrite mulG_mul, Zmod.to_Z_mul, Zmod.to_Z_of_Z, mulG_mod.
  rewrite <- mulG_mod, <- Z.mul_mod_idemp_l, mulG_mod by discriminate. done.
Qed.

Lemma fpoint_to_Z c d : ed_mul (Zmod.to_Z c) (fpoint d) = fpoint (c * d).
Proof. rewrite fpoint_mul. by rewrite Zmod.of_Z_to_Z. Qed.

Lemma l_torsion_fpoint P : l_torsion P → ∃ c, P = fpoint c.
Proof. intros HP. destruct (l_torsion_log P HP) as (k & _ & ->). eexists. apply mulG_fpoint. Qed.

Lemma pkey_inj c d : pkey c = pkey d → c = d.
Proof. intros E. apply fpoint_inj. apply ed_encode_inj in E; [done|auto with edwards..]. Qed.

(** ** Operations on scalars *)

Lemma zero_fkey : zero = fkey 0.
Proof. reflexivity. Qed.

Lemma one_fkey : rct_identity = fkey 1.
Proof. reflexivity. Qed.

Lemma key_eqb_fkey c d : key_eqb (fkey c) (fkey d) = bool_decide (c = d).
Proof.
  unfold key_eqb. apply bool_decide_ext. split; [apply fkey_inj|by intros ->].
Qed.

Lemma sc_add_f a b : sc_add (fkey a) (fkey b) = Some (fkey (a + b)).
Proof.
  rewrite sc_add_scalar by auto with scalars. rewrite !le_combine_fkey, to_scalar_fkey.
  by rewrite Zmod.of_Z_add, !Zmod.of_Z_to_Z.
Qed.

Lemma sc_sub_f a b : sc_sub (fkey a) (fkey b) = Some (fkey (a - b)).
Proof.
  rewrite sc_sub_scalar by auto with scalars. rewrite !le_combine_fkey, to_scalar_fkey.
  by rewrite Zmod.of_Z_sub, !Zmod.of_Z_to_Z.
Qed.

Lemma sc_mul_f a b : sc_mul (fkey a) (fkey b) = Some (fkey (a * b)).
Proof.
  destruct (fkey_scalar a) as [], (fkey_scalar b) as [].
  rewrite sc_mul_ok by assumption. rewrite !le_combine_fkey. apply (f_equal Some).
  transitivity (to_scalar (Zmod.to_Z a * Zmod.to_Z b)%Z); [done|].
  by rewrite to_scalar_fkey, Zmod.of_Z_mul, !Zmod.of_Z_to_Z.
Qed.

Lemma sc_muladd_f a b c : sc_muladd (fkey a) (fkey b) (fkey c) = Some (fkey (a * b + c)).
Proof.
  destruct (fkey_scalar a) as [], (fkey_scalar b) as [], (fkey_scalar c) as [].
  rewrite sc_muladd_ok by assumption. rewrite !le_combine_fkey. apply (f_equal Some).
  transitivity (to_scalar (Zmod.to_Z c + Zmod.to_Z a * Zmod.to_Z b)%Z); [done|].
  rewrite to_scalar_fkey, Zmod.of_Z_add, Zmod.of_Z_mul, !Zmod.of_Z_to_Z. f_equal. ring.
Qed.

Lemma sc_mulsub_f a b c : sc_mulsub (fkey a) (fkey b) (fkey c) = Some (fkey (c - a * b)).
Proof.
  rewrite sc_mulsub_scalar by auto with scalars. rewrite !le_combine_fkey, to_scalar_fkey.
  by rewrite Zmod.of_Z_sub, Zmod.of_Z_mul, !Zmod.of_Z_to_Z.
Qed.

(** ** Operations on points *)

Lemma fkey_255 c : scalar255 (fkey c).
Proof. apply scalar_255, fkey_scalar. Qed.
#[export] Hint Resolve fkey_255 : scalars.

Lemma identity_pkey : rct_identity = pkey 0.
Proof. unfold pkey. rewrite fpoint_0. exact rct_identity_ok. Qed.

Lemma addKeys_p c d : addKeys (pkey c) (pkey d) = Ret (pkey (c + d)).
Proof. unfold pkey. rewrite addKeys_ok, fpoint_add by auto with edwards. done. Qed.

Lemma scalarmultKey_p a c : scalarmultKey (pkey c) (fkey a) = Ret (pkey (a * c)).
Proof.
  unfold pkey. rewrite scalarmultKey_ok by auto with edwards scalars.
  by rewrite le_combine_fkey, fpoint_to_Z.
Qed.

Lemma scalarmultBase_p a : scalarmultBase (fkey a) = Some (pkey a).
Proof.
  rewrite scalarmultBase_ok by apply scalar_bytes32, fkey_scalar. by rewrite le_combine_fkey.
Qed.

Lemma scalarmult8_p c : scalarmult8 (pkey c) = Ret (pkey (Zmod.of_Z L 8 * c)).
Proof. unfold pkey. rewrite scalarmult8_ok by auto with edwards. by rewrite fpoint_mul. Qed.

(** Multiplying any point by the cofactor leads to the subgroup. *)
Lemma scalarmult8_any P : on_curve P → ∃ c, ed_mul 8 P = fpoint c ∧ scalarmult8 (ed_encode P) = Ret (pkey c).
Proof.
  intros HP. destruct (l_torsion_fpoint _ (l_torsion_8 P HP)) as [c Ec]. exists c.
  split; [exact Ec|]. rewrite scalarmult8_ok by exact HP. unfold pkey. by rewrite Ec.
Qed.

Definition inv8 : FL := Zmod.inv (Zmod.of_Z L 8).

Lemma INV_EIGHT_f : INV_EIGHT = fkey inv8.
Proof. vm_compute. reflexivity. Qed.

Lemma inv8_8 : inv8 * Zmod.of_Z L 8 = 1.
Proof. apply Zmod.unsigned_inj. vm_compute. reflexivity. Qed.

(** The second generator *)
Definition H_order_proj : Z * Z * Z :=
  pmul_proj (Z.to_pos L) (fe_val (p3_X ge_p3_H), fe_val (p3_Y ge_p3_H)).

Lemma H_order_checked : let t := H_order_proj in is_zero t.1.1 && is_zero (t.1.2 - t.2) = true.
Proof. vm_compute. reflexivity. Qed.

Lemma H25519_order : ed_mul L H25519 = ed_zero.
Proof.
  pose proof H_order_checked as [HX HY]%andb_true_iff.
  refine (proj_zero_sound _ _ _ HX HY).
  change (ed_mul L H25519) with (ed_pmul (Z.to_pos L) H25519).
  apply pmul_proj_sound; [exact H_on_curve|reflexivity..].
Qed.

Lemma H_log : ∃ h, H25519 = fpoint h.
Proof. apply l_torsion_fpoint. split; [exact H_on_curve|exact H25519_order]. Qed.
