(* ===== verification/Multiexp.v ===== *)
(** * Sums of multiples of points: [multiexp.cc]

    Straus' and Pippenger's methods with their caches, and the two versions of
    Bos and Coster's, on a heap of the standard library.  The build is the one
    of the source: [RAW_MEMORY_BLOCK] defined, [ALTERNATE_LAYOUT] and
    [TRACK_STRAUS_ZERO_IDENTITY] not.  Allocation succeeds. *)

From S2P Require Export RctOps.

#[local] Open Scope Z_scope.

Record MultiexpData := { md_scalar : key; md_point : ge_p3 }.

(** The constructor from two keys *)
Definition MultiexpData_of_keys (s p : key) : outcome MultiexpData :=
  point ← load_key p;
  Ret {| md_scalar := s; md_point := point |}.

(** ** Keys as numbers *)

(** [for (int n = 31; n >= 0; --n)] *)
Fixpoint key_lt_loop (n : nat) (k0 k1 : key) : bool :=
  match n with
  | O => false
  | S n' =>
      if k0 !!! n' <? k1 !!! n' then true
      else if k1 !!! n' <? k0 !!! n' then false
      else key_lt_loop n' k0 k1
  end.

(** [operator<] *)
Definition key_lt (k0 k1 : key) : bool := key_lt_loop 32 k0 k1.

Fixpoint div2_loop (n : nat) (k res : key) (carry : Z) : key :=
  match n with
  | O => res
  | S n' =>
      let new_carry := Z.shiftl (Z.land (k !!! n') 1) 7 in
      div2_loop n' k (<[n' := uwrap 8 (k !!! n' / 2 + carry)]> res) new_carry
  end.

(** All the bytes of [res] are written. *)
Definition div2 (k : key) : key := div2_loop 32 k (replicate 32 0) 0.

Definition pow2 (n : nat) : outcome key :=
  _ ← throw_unless (n <? 256)%nat;
  let i := (n / 8)%nat in
  Ret (<[i := Z.lor (zero !!! i) (Z.shiftl 1 (Z.of_nat (n mod 8)))]> zero).

Definition test (k : key) (n : nat) : Z :=
  if (256 <=? n)%nat then 0 else Z.land (k !!! (n / 8)%nat) (Z.shiftl 1 (Z.of_nat (n mod 8))).

Definition maxscalar (data : list MultiexpData) : key :=
  foldl (λ m d, if key_lt m (md_scalar d) then md_scalar d else m) zero data.

(** [while (start < 256 && !(maxscalar < pow2(start))) start += d;], at most [n] iterations *)
Fixpoint bits_above (n d : nat) (m : key) (start : nat) : outcome nat :=
  match n with
  | O => Undef
  | S n' =>
      if (start <? 256)%nat then
        p ← pow2 start;
        if negb (key_lt m p) then bits_above n' d m (start + d) else Ret start
      else Ret start
  end.

(** [add(ge_p3 &, const ge_cached &)]; the overload for a [ge_p3] is [add_p3]. *)
Definition add_cached (p3 : ge_p3) (other : ge_cached) : option ge_p3 :=
  p1 ← ge_add p3 other;
  ge_p1p1_to_p3 p1.

(** [n] doublings of a [ge_p3]: all but the last stay in a [ge_p2] *)
Fixpoint dbl_loop (n : nat) (p2 : ge_p2) : option ge_p3 :=
  match n with
  | O => None
  | S n' =>
      p1 ← ge_p2_dbl p2;
      match n' with
      | O => ge_p1p1_to_p3 p1
      | _ => p2 ← ge_p1p1_to_p2 p1; dbl_loop n' p2
      end
  end.

Definition dbl_p3 (n : nat) (p3 : ge_p3) : option ge_p3 :=
  match n with O => Some p3 | _ => dbl_loop n (ge_p3_to_p2 p3) end.

(** ** Straus *)

Definition STRAUS_C : nat := 4.

(** [multiples] before a cell is written is not initialised: [None]. *)
Record straus_cached_data := { st_size : nat; st_multiples : list (option ge_cached) }.

(** [CACHE_OFFSET(cache, point, digit)] *)
Definition CACHE_OFFSET (size point digit : nat) : nat := (point + size * (digit - 1))%nat.

Definition cache_read (cache : straus_cached_data) (point digit : nat) : option ge_cached :=
  mjoin (st_multiples cache !! CACHE_OFFSET (st_size cache) point digit).

Definition cache_write (cache : straus_cached_data) (point digit : nat) (c : ge_cached) :
    option straus_cached_data :=
  let i := CACHE_OFFSET (st_size cache) point digit in
  if (i <? length (st_multiples cache))%nat then
    Some {| st_size := st_size cache; st_multiples := <[i := Some c]> (st_multiples cache) |}
  else None.

(** [for (size_t i=2;i<1<<STRAUS_C;++i)], [n] iterations from [i] *)
Fixpoint straus_row (n i j : nat) (point : ge_p3) (cache : straus_cached_data) :
    option straus_cached_data :=
  match n with
  | O => Some cache
  | S n' =>
      prev ← cache_read cache j (i - 1);
      p1 ← ge_add point prev;
      p3 ← ge_p1p1_to_p3 p1;
      c ← ge_p3_to_cached p3;
      cache ← cache_write cache j i c;
      straus_row n' (S i) j point cache
  end.

(** [for (size_t j=offset;j<N;++j)], [n] iterations from [j] *)
Fixpoint straus_rows (n j : nat) (data : list MultiexpData) (cache : straus_cached_data) :
    option straus_cached_data :=
  match n with
  | O => Some cache
  | S n' =>
      d ← data !! j;
      c ← ge_p3_to_cached (md_point d);
      cache ← cache_write cache j 1 c;
      cache ← straus_row 14 2 j (md_point d) cache;
      straus_rows n' (S j) data cache
  end.

Definition straus_init_cache (data : list MultiexpData) (N : nat) : outcome straus_cached_data :=
  let N := if (N =? 0)%nat then length data else N in
  _ ← throw_unless (N <=? length data)%nat;
  run (straus_rows N 0 data {| st_size := N; st_multiples := replicate (15 * N) None |}).

(** [sizeof(ge_cached)]: four arrays of ten [int32_t] *)
Definition sizeof_ge_cached : nat := 160.

Definition straus_get_cache_size (cache : straus_cached_data) : nat :=
  (st_size cache * sizeof_ge_cached * 15)%nat.

(** The eight digits at a byte; the second argument is the byte after it. *)
Definition byte_digits (b0 b1 : Z) : list Z :=
  [ Z.land b0 0xf;
    Z.land (Z.shiftr b0 1) 0xf;
    Z.land (Z.shiftr b0 2) 0xf;
    Z.land (Z.shiftr b0 3) 0xf;
    Z.land (Z.lor (Z.shiftr b0 4) (Z.shiftl b1 4)) 0xf;
    Z.land (Z.lor (Z.shiftr b0 5) (Z.shiftl b1 3)) 0xf;
    Z.land (Z.lor (Z.shiftr b0 6) (Z.shiftl b1 2)) 0xf;
    Z.land (Z.lor (Z.shiftr b0 7) (Z.shiftl b1 1)) 0xf ].

(** [digits[j*256 .. j*256+255]], from [bytes33] *)
Fixpoint scalar_digits (bytes : list Z) : list Z :=
  match bytes with
  | b0 :: ((b1 :: _) as rest) => byte_digits b0 b1 ++ scalar_digits rest
  | _ => []
  end.

Definition straus_digits (data : list MultiexpData) : list Z :=
  data ≫= λ d, scalar_digits (md_scalar d ++ [0]).

(** [for (size_t j = start_offset; j < start_offset + num_points; ++j)], [n] iterations from [j] *)
Fixpoint straus_add (n j i : nat) (digits : list Z) (cache : straus_cached_data) (band_p3 : ge_p3) :
    option ge_p3 :=
  match n with
  | O => Some band_p3
  | S n' =>
      digit ← digits !! (j * 256 + i)%nat;
      band_p3 ← (if negb (digit =? 0) then
          c ← cache_read cache j (Z.to_nat digit);
          add_cached band_p3 c
        else Some band_p3);
      straus_add n' (S j) i digits cache band_p3
  end.

(** [while (!(i < STRAUS_C))]; [skipfirst] when it is entered at the label.  At most [n] iterations. *)
Fixpoint straus_band (n : nat) (skipfirst : bool) (i start_offset num_points : nat)
    (digits : list Z) (cache : straus_cached_data) (band_p3 : ge_p3) : option ge_p3 :=
  match n with
  | O => None
  | S n' =>
      if negb (i <? STRAUS_C)%nat then
        band_p3 ← (if skipfirst then Some band_p3 else dbl_p3 STRAUS_C band_p3);
        let i := (i - STRAUS_C)%nat in
        band_p3 ← straus_add num_points start_offset i digits cache band_p3;
        straus_band n' false i start_offset num_points digits cache band_p3
      else Some band_p3
  end.

(** [for (.. start_offset < data.size(); start_offset += STEP)], at most [n] iterations *)
Fixpoint straus_bands (n size STEP start_i start_offset : nat) (digits : list Z)
    (cache : straus_cached_data) (res_p3 : ge_p3) : option ge_p3 :=
  match n with
  | O => None
  | S n' =>
      if (start_offset <? size)%nat then
        let num_points := Nat.min (size - start_offset) STEP in
        band_p3 ← straus_band 65 true start_i start_offset num_points digits cache ge_p3_identity;
        res_p3 ← add_p3 res_p3 band_p3;
        straus_bands n' size STEP start_i (start_offset + STEP) digits cache res_p3
      else Some res_p3
  end.

Definition straus (data : list MultiexpData) (cache : option straus_cached_data) (STEP : nat) :
    outcome key :=
  _ ← throw_unless (match cache with
    | None => true
    | Some c => (length data <=? st_size c)%nat end);
  let STEP := if (STEP =? 0)%nat then 192%nat else STEP in
  local_cache ← match cache with
    | None => straus_init_cache data 0
    | Some c => Ret c
    end;
  start_i ← bits_above 65 STRAUS_C (maxscalar data) 0;
  run (
    res_p3 ← straus_bands (S (length data)) (length data) STEP start_i 0 (straus_digits data)
      local_cache ge_p3_identity;
    ge_p3_tobytes res_p3).

(** ** Pippenger *)

Definition get_pippenger_c (N : nat) : nat :=
  if (N <=? 2)%nat then 1 else
  if (N <=? 8)%nat then 2 else
  if (N <=? 16)%nat then 3 else
  if (N <=? 64)%nat then 4 else
  if (N <=? 128)%nat then 5 else
  if (N <=? 256)%nat then 6 else
  if (N <=? 1024)%nat then 7 else
  if (N <=? 2048)%nat then 8 else
  9.

(** The array [cached]; [size] is its length. *)
Definition pippenger_init_cache (data : list MultiexpData) (N : nat) : outcome (list ge_cached) :=
  let N := if (N =? 0)%nat then length data else N in
  _ ← throw_unless (N <=? length data)%nat;
  run (mapM (λ d, ge_p3_to_cached (md_point d)) (take N data)).

Definition pippenger_get_cache_size (cache : list ge_cached) : nat :=
  (length cache * sizeof_ge_cached)%nat.

(** [for (size_t j = 0; j < c; ++j)], [n] iterations from [j] *)
Fixpoint bucket_of (n j : nat) (k : key) (base : nat) (bucket : Z) : Z :=
  match n with
  | O => bucket
  | S n' =>
      let bucket := if negb (test k (base + j) =? 0)
        then Z.lor bucket (Z.shiftl 1 (Z.of_nat j)) else bucket in
      bucket_of n' (S j) k base bucket
  end.

(** One point of [// partition scalars into buckets] *)
Definition bucket_add (c k : nat) (d : MultiexpData) (cached : ge_cached) (buckets : list ge_p3) :
    outcome (list ge_p3) :=
  let bucket := bucket_of c 0 (md_scalar d) (k * c) 0 in
  if bucket =? 0 then Ret buckets else
  _ ← throw_unless (bucket <? Z.shiftl 1 (Z.of_nat c));
  let b := Z.to_nat bucket in
  old ← run (buckets !! b);
  new ← (if ge_p3_is_point_at_infinity old =? 0
    then run (add_cached old cached) else Ret (md_point d));
  Ret (<[b := new]> buckets).

(** [cache] is indexed with the points: [None] is past its end. *)
Fixpoint buckets_fill (c k : nat) (data : list MultiexpData) (cache : list ge_cached)
    (buckets : list ge_p3) : outcome (list ge_p3) :=
  match data, cache with
  | [], _ => Ret buckets
  | d :: data, cached :: cache =>
      buckets ← bucket_add c k d cached buckets;
      buckets_fill c k data cache buckets
  | _ :: _, [] => Undef
  end.

(** [for (size_t i = (1<<c)-1; i > 0; --i)]: [pail] and [result] *)
Fixpoint buckets_sum (i : nat) (buckets : list ge_p3) (pail result : ge_p3) : option ge_p3 :=
  match i with
  | O => Some result
  | S i' =>
      b ← buckets !! i;
      pail ← (if ge_p3_is_point_at_infinity b =? 0 then add_p3 pail b else Some pail);
      result ← (if ge_p3_is_point_at_infinity pail =? 0 then add_p3 result pail else Some result);
      buckets_sum i' buckets pail result
  end.

(** [for (size_t k = groups; k-- > 0; )] *)
Fixpoint pippenger_loop (k c : nat) (data : list MultiexpData) (cache : list ge_cached)
    (result : ge_p3) : outcome ge_p3 :=
  match k with
  | O => Ret result
  | S k' =>
      result ← run (if ge_p3_is_point_at_infinity result =? 0 then dbl_p3 c result else Some result);
      buckets ← buckets_fill c k' data cache (replicate (2 ^ c) ge_p3_identity);
      result ← run (buckets_sum (2 ^ c - 1) buckets ge_p3_identity result);
      pippenger_loop k' c data cache result
  end.

Definition pippenger (data : list MultiexpData) (cache : option (list ge_cached)) (c : nat) :
    outcome key :=
  _ ← throw_unless (match cache with
    | None => true
    | Some cache => (length data <=? length cache)%nat end);
  let c := if (c =? 0)%nat then get_pippenger_c (length data) else c in
  _ ← throw_unless (c <=? 9)%nat;
  local_cache ← match cache with
    | None => pippenger_init_cache data 0
    | Some cache => Ret cache
    end;
  groups ← bits_above 257 1 (maxscalar data) 0;
  let groups := ((groups + c - 1) / c)%nat in
  result ← pippenger_loop groups c data local_cache ge_p3_identity;
  run (ge_p3_tobytes result).
