(* ===== verification/MultiexpSpec.v ===== *)
(** * Correctness of [multiexp.cc]: Straus and Pippenger

    Both methods return the encoding of the sum of [s_j P_j], for every list of
    32-byte scalars and points, with or without a cache, for every band size
    and every bucket width. *)

From S2P Require Export Multiexp RctOpsSpec.

#[local] Open Scope Z_scope.

(** ** Weighted sums *)

(** The sum of [f s P] over the pairs of a scalar and a point *)
Definition window_sum (f : Z → Z) (ds : list (Z * point)) : point :=
  foldr (λ d acc, ed_add (ed_mul (f d.1) d.2) acc) ed_zero ds.

Definition good_pairs (ds : list (Z * point)) : Prop := Forall (λ d, 0 ≤ d.1 < 2 ^ 256 ∧ on_curve d.2) ds.

(** What the methods compute *)
Definition msum (ds : list (Z * point)) : point := window_sum id ds.

Lemma wsum_on_curve f ds : good_pairs ds → on_curve (window_sum f ds).
Proof. induction 1 as [|d ds [_ Hd] _ IH]; cbn [window_sum foldr]; auto with edwards. Qed.
#[export] Hint Resolve wsum_on_curve : edwards.

Lemma wsum_add f g ds :
  good_pairs ds → window_sum (λ s, f s + g s) ds = ed_add (window_sum f ds) (window_sum g ds).
Proof.
  induction 1 as [|d ds [_ Hd] Hds IH]; [exact (eq_sym (ed_add_0_l _))|].
  change (ed_add (ed_mul (f d.1 + g d.1) d.2) (window_sum (λ s, f s + g s) ds) =
    ed_add (ed_add (ed_mul (f d.1) d.2) (window_sum f ds)) (ed_add (ed_mul (g d.1) d.2) (window_sum g ds))).
  rewrite IH, ed_mul_add by exact Hd. apply ed_add_swap; auto with edwards.
Qed.

Lemma wsum_mul a f ds : good_pairs ds → window_sum (λ s, a * f s) ds = ed_mul a (window_sum f ds).
Proof.
  induction 1 as [|d ds [_ Hd] Hds IH].
  { cbn [window_sum foldr]. symmetry. apply ed_mul_zero. }
  change (ed_add (ed_mul (a * f d.1) d.2) (window_sum (λ s, a * f s) ds) =
    ed_mul a (ed_add (ed_mul (f d.1) d.2) (window_sum f ds))).
  rewrite IH, ed_mul_add_point, ed_mul_mul by auto with edwards. reflexivity.
Qed.

Lemma wsum_ext_in f g ds : Forall (λ d, f d.1 = g d.1) ds → window_sum f ds = window_sum g ds.
Proof.
  induction 1 as [|d ds E _ IH]; [done|].
  change (ed_add (ed_mul (f d.1) d.2) (window_sum f ds) = ed_add (ed_mul (g d.1) d.2) (window_sum g ds)).
  by rewrite E, IH.
Qed.

Lemma wsum_ext f g ds :
  good_pairs ds → (∀ s, 0 ≤ s < 2 ^ 256 → f s = g s) → window_sum f ds = window_sum g ds.
Proof.
  intros HG E. apply wsum_ext_in. eapply Forall_impl; [|exact HG].
  intros d [Hs _]. by apply E.
Qed.

Lemma wsum_nil f : window_sum f [] = ed_zero.
Proof. done. Qed.

Lemma wsum_0 ds : window_sum (λ _, 0) ds = ed_zero.
Proof.
  induction ds as [|d ds IH]; [done|].
  change (ed_add ed_zero (window_sum (λ _, 0) ds) = ed_zero). by rewrite IH, ed_add_0_l.
Qed.

Lemma wsum_app f ds es :
  good_pairs ds → good_pairs es → window_sum f (ds ++ es) = ed_add (window_sum f ds) (window_sum f es).
Proof.
  intros Hds Hes. induction Hds as [|d ds [_ Hd] Hds IH]; [exact (eq_sym (ed_add_0_l _))|].
  change (ed_add (ed_mul (f d.1) d.2) (window_sum f (ds ++ es)) =
    ed_add (ed_add (ed_mul (f d.1) d.2) (window_sum f ds)) (window_sum f es)).
  rewrite IH. apply ed_add_assoc; auto with edwards.
Qed.

Lemma good_pairs_app ds es : good_pairs (ds ++ es) ↔ good_pairs ds ∧ good_pairs es.
Proof. apply Forall_app. Qed.

(** The data hold the pairs. *)
Record pair_is (d : Z * point) (m : MultiexpData) : Prop := {
  pi_bytes : bytes32 (md_scalar m);
  pi_value : le_combine (md_scalar m) = d.1;
  pi_point : p3_is d.2 (md_point m)
}.

Definition data_is (ds : list (Z * point)) (data : list MultiexpData) : Prop := Forall2 pair_is ds data.

Lemma data_is_good ds data : data_is ds data → good_pairs ds.
Proof.
  intros HD. eapply Forall2_Forall_l; [exact HD|]. apply Forall_true. intros m d [Hb <- Hp].
  destruct Hb as [HL HB]. pose proof (le_combine_bound _ HB) as Hr. rewrite HL in Hr.
  split; [exact Hr|exact (proj1 Hp)].
Qed.
#[export] Hint Resolve data_is_good : edwards.

(** ** Keys as numbers *)

Lemma key_lt_ok k0 k1 : bytes32 k0 → bytes32 k1 → key_lt k0 k1 = (le_combine k0 <? le_combine k1).
Proof. exact (less32_ok k0 k1). Qed.

Lemma bytes32_insert k i x :
  bytes32 k → 0 ≤ x < 256 → bytes32 (<[i := x]> k).
Proof.
  intros [HL HB] Hx. split; [by rewrite length_insert|]. by apply Forall_insert.
Qed.

Lemma zero_bytes32 : bytes32 zero ∧ le_combine zero = 0.
Proof. split; [|reflexivity]. split; [reflexivity|]. by apply Forall_replicate. Qed.

Lemma le_combine_replicate_0 n : le_combine (replicate n 0) = 0.
Proof. induction n as [|n IH]; [done|]. cbn [replicate le_combine]. lia. Qed.

Lemma pow2_ok n :
  (n < 256)%nat → ∃ k, pow2 n = Ret k ∧ bytes32 k ∧ le_combine k = 2 ^ Z.of_nat n.
Proof.
  intros Hn. unfold pow2. rewrite (throw_unless_true _ (proj2 (Nat.ltb_lt n 256) Hn)).
  eexists. split; [reflexivity|].
  assert (n / 8 < 32)%nat as Hi by (apply Nat.Div0.div_lt_upper_bound; lia).
  assert (zero !!! (n / 8)%nat = 0) as Ez.
  { unfold zero, rct_Z. rewrite lookup_total_replicate_2; [done|exact Hi]. }
  rewrite Ez, Z.lor_0_l, Z.shiftl_1_l.
  pose proof (Nat.mod_upper_bound n 8 ltac:(lia)) as Hm.
  assert (2 ^ Z.of_nat (n mod 8) ≤ 2 ^ 7) as Hp by (apply Z.pow_le_mono_r; lia).
  assert (0 < 2 ^ Z.of_nat (n mod 8)) by (apply Z.pow_pos_nonneg; lia).
  split; [apply bytes32_insert; [apply zero_bytes32|lia]|].
  replace (2 ^ Z.of_nat n) with (256 ^ Z.of_nat (n / 8) * 2 ^ Z.of_nat (n mod 8)).
  2: { rewrite pow256_pow2, <- Z.pow_add_r by lia. f_equal.
       pose proof (Nat.div_mod_eq n 8). lia. }
  unfold zero, rct_Z. rewrite insert_replicate_lt by exact Hi.
  rewrite le_combine_app, le_combine_replicate_0, length_replicate. cbn [le_combine].
  rewrite le_combine_replicate_0. ring.
Qed.

Lemma max_step m d :
  bytes32 m → bytes32 (md_scalar d) →
  let m' := if key_lt m (md_scalar d) then md_scalar d else m in
  bytes32 m' ∧ le_combine m ≤ le_combine m' ∧ le_combine (md_scalar d) ≤ le_combine m'.
Proof.
  intros Hm Hd. cbv zeta. rewrite key_lt_ok by done.
  destruct (Z.ltb_spec (le_combine m) (le_combine (md_scalar d))); split_and!; (done || lia).
Qed.

Lemma maxscalar_loop ds data m :
  data_is ds data → bytes32 m →
  let m' := foldl (λ m d, if key_lt m (md_scalar d) then md_scalar d else m) m data in
  bytes32 m' ∧ le_combine m ≤ le_combine m' ∧ Forall (λ d, d.1 ≤ le_combine m') ds.
Proof.
  intros HD. revert m. induction HD as [|d x ds data [Hb Hv _] HD IH]; intros m Hm; [done|].
  cbn [foldl]. destruct (max_step m x Hm Hb) as (H1 & H2 & H3).
  destruct (IH _ H1) as (I1 & I2 & I3). cbv zeta in *. split_and!; [exact I1|lia|].
  constructor; [lia|exact I3].
Qed.

Lemma maxscalar_ok ds data :
  data_is ds data →
  bytes32 (maxscalar data) ∧ Forall (λ d, d.1 ≤ le_combine (maxscalar data)) ds.
Proof.
  intros HD. destruct (maxscalar_loop ds data zero HD (proj1 zero_bytes32)) as (H1 & _ & H2). done.
Qed.

Lemma bits_above_ok n d m start :
  (0 < d)%nat → (256 ≤ start + n * d)%nat → (start ≤ 255 + d)%nat → bytes32 m →
  ∃ k, bits_above (S n) d m start = Ret (start + k * d)%nat ∧ (start + k * d ≤ 255 + d)%nat ∧
    ((256 ≤ start + k * d)%nat ∨ le_combine m < 2 ^ Z.of_nat (start + k * d)).
Proof.
  intros Hd. revert start. induction n as [|n IH]; intros start Hn Hs Hm.
  all: cbn [bits_above]; destruct (Nat.ltb_spec start 256) as [H1|H1].
  - lia.
  - exists 0%nat. rewrite Nat.add_0_r. split_and!; [done|lia|by left].
  - destruct (pow2_ok start H1) as (p & Ep & Hp & Vp). rewrite (bind_ret _ _ _ Ep), key_lt_ok by done.
    rewrite Vp. destruct (Z.ltb_spec (le_combine m) (2 ^ Z.of_nat start)); cbn [negb].
    + exists 0%nat. rewrite Nat.add_0_r. split_and!; [done|lia|by right].
    + destruct (IH (start + d)%nat) as (k & E & H2 & H3); [lia|lia|done|].
      exists (S k). replace (start + S k * d)%nat with (start + d + k * d)%nat by lia. done.
  - exists 0%nat. rewrite Nat.add_0_r. split_and!; [done|lia|by left].
Qed.

(** Every scalar is below the power found. *)
Lemma bits_above_bound ds data i :
  data_is ds data →
  (256 ≤ i)%nat ∨ le_combine (maxscalar data) < 2 ^ Z.of_nat i →
  Forall (λ d, 0 ≤ d.1 < 2 ^ Z.of_nat i) ds.
Proof.
  intros HD Hi. destruct (maxscalar_ok ds data HD) as [_ HM].
  pose proof (data_is_good _ _ HD) as HG.
  apply Forall_forall. intros d Hd.
  pose proof (proj1 (Forall_forall _ _) HM d Hd) as Hle. cbv beta in Hle.
  destruct (proj1 (Forall_forall _ _) HG d Hd) as [H0 _].
  destruct Hi as [Hi|Hi]; [|lia].
  assert (2 ^ 256 ≤ 2 ^ Z.of_nat i) by (apply Z.pow_le_mono_r; lia). lia.
Qed.

(** ** Additions and doublings *)

Lemma add_cached_ok P Q p c :
  p3_is P p → cached_is Q c → ∃ r, add_cached p c = Some r ∧ p3_is (ed_add P Q) r.
Proof.
  intros HP HQ. unfold add_cached. destruct (ge_add_ok _ _ _ _ HP HQ) as (t & E & Ht). step E.
  exact (ge_p1p1_to_p3_ok _ _ Ht).
Qed.

Lemma dbl_loop_ok n P p2 :
  p2_is P p2 → ∃ r, dbl_loop (S n) p2 = Some r ∧ p3_is (ed_mul (2 ^ Z.of_nat (S n)) P) r.
Proof.
  revert P p2. induction n as [|n IH]; intros P p2 HP.
  all: destruct (ge_p2_dbl_ok _ _ HP) as (t & Et & Ht).
  all: assert (on_curve P) as HC by exact (proj1 HP).
  all: assert (ed_add P P = ed_mul 2 P) as E2
    by (change 2 with (1 + 1); by rewrite ed_mul_add, ed_mul_1).
  - cbn [dbl_loop]. step Et. rewrite E2 in Ht. exact (ge_p1p1_to_p3_ok _ _ Ht).
  - destruct (ge_p1p1_to_p2_ok _ _ Ht) as (q & Eq & Hq). destruct (IH _ _ Hq) as (r & Er & Hr).
    exists r. split.
    + change (dbl_loop (S (S n)) p2) with
        (p1 ← ge_p2_dbl p2; p2 ← ge_p1p1_to_p2 p1; dbl_loop (S n) p2).
      step Et. step Eq. exact Er.
    + rewrite E2, ed_mul_mul in Hr by exact HC.
      replace (2 ^ Z.of_nat (S (S n))) with (2 ^ Z.of_nat (S n) * 2); [exact Hr|].
      rewrite (pow2_nat_succ (S n)). ring.
Qed.

Lemma dbl_p3_ok n P p :
  (0 < n)%nat → p3_is P p → ∃ r, dbl_p3 n p = Some r ∧ p3_is (ed_mul (2 ^ Z.of_nat n) P) r.
Proof.
  intros Hn HP. destruct n as [|n]; [lia|]. exact (dbl_loop_ok n _ _ (ge_p3_to_p2_ok _ _ HP)).
Qed.

(** ** The digits of Straus' method *)

(** Digit [i] of a scalar: the four bits from bit [i] on *)
Definition straus_digit_at (i : nat) (s : Z) : Z := (s / 2 ^ Z.of_nat i) mod 16.

Lemma land_15 x : Z.land x 15 = x mod 16.
Proof. exact (Z.land_ones x 4 ltac:(lia)). Qed.

Lemma digit_pair b0 b1 k :
  0 ≤ b0 < 256 → 0 ≤ k ≤ 8 →
  Z.lor (Z.shiftr b0 k) (Z.shiftl b1 (8 - k)) = (b0 + 256 * b1) / 2 ^ k.
Proof.
  intros Hb Hk. rewrite Z.shiftr_div_pow2 by lia.
  assert (2 ^ k * 2 ^ (8 - k) = 256) as E by
    (rewrite <- Z.pow_add_r by lia; by replace (k + (8 - k)) with 8 by lia).
  assert (0 < 2 ^ k) by (apply Z.pow_pos_nonneg; lia).
  rewrite lor_shiftl_add; [|lia|].
  - rewrite <- E. replace (b0 + 2 ^ k * 2 ^ (8 - k) * b1) with (b0 + (2 ^ (8 - k) * b1) * 2 ^ k) by ring.
    rewrite Z.div_add by lia. ring.
  - split; [apply Z.div_pos; lia|]. apply Z.div_lt_upper_bound; lia.
Qed.

Lemma byte_digits_ok b0 b1 v i :
  0 ≤ b0 < 256 → 0 ≤ b1 < 256 → (i < 8)%nat →
  byte_digits b0 b1 !! i = Some (straus_digit_at i (b0 + 256 * (b1 + 256 * v))).
Proof.
  intros H0 H1 Hi. unfold byte_digits, straus_digit_at.
  change (Z.shiftl b1 4) with (Z.shiftl b1 (8 - 4)). change (Z.shiftl b1 3) with (Z.shiftl b1 (8 - 5)).
  change (Z.shiftl b1 2) with (Z.shiftl b1 (8 - 6)). change (Z.shiftl b1 1) with (Z.shiftl b1 (8 - 7)).
  rewrite (digit_pair b0 b1 4), (digit_pair b0 b1 5), (digit_pair b0 b1 6), (digit_pair b0 b1 7),
    !land_15, !Z.shiftr_div_pow2 by lia.
  do 8 (destruct i as [|i]; [cbn [lookup list_lookup]; f_equal;
    match goal with |- context [2 ^ Z.of_nat ?n] =>
      let p := eval vm_compute in (2 ^ Z.of_nat n) in change (2 ^ Z.of_nat n) with p end;
    rewrite ?Z.pow_1_r; zlia|]). lia.
Qed.

Lemma length_scalar_digits l : length (scalar_digits l) = (8 * (length l - 1))%nat.
Proof.
  induction l as [|b0 [|b1 l] IH]; [done..|].
  change (scalar_digits (b0 :: b1 :: l)) with (byte_digits b0 b1 ++ scalar_digits (b1 :: l)).
  rewrite length_app, IH. cbn [length]. change (length (byte_digits b0 b1)) with 8%nat. lia.
Qed.

Lemma digit_shift i v b : 0 ≤ b < 256 → straus_digit_at (8 + i) (b + 256 * v) = straus_digit_at i v.
Proof.
  intros Hb. unfold straus_digit_at. f_equal. rewrite Nat2Z.inj_add, Z.pow_add_r by lia.
  change (2 ^ Z.of_nat 8) with 256. rewrite <- Z.div_div by (try apply Z.pow_pos_nonneg; lia).
  f_equal. zlia.
Qed.

Lemma scalar_digits_ok l i :
  bytes l → (i < 8 * (length l - 1))%nat →
  scalar_digits l !! i = Some (straus_digit_at i (le_combine l)).
Proof.
  intros Hl. revert i. induction l as [|b0 [|b1 l] IH]; intros i Hi; [cbn in Hi; lia..|].
  change (scalar_digits (b0 :: b1 :: l)) with (byte_digits b0 b1 ++ scalar_digits (b1 :: l)).
  apply Forall_cons_1 in Hl as [H0 Hl]. destruct (Nat.lt_ge_cases i 8) as [H8|H8].
  - rewrite lookup_app_l by (change (length (byte_digits b0 b1)) with 8%nat; lia).
    apply Forall_cons_1 in Hl as [H1 Hl]. cbn [le_combine]. by apply byte_digits_ok.
  - rewrite lookup_app_r; change (length (byte_digits b0 b1)) with 8%nat; [|lia].
    rewrite IH; [|done|cbn [length] in *; lia].
    change (le_combine (b0 :: b1 :: l)) with (b0 + 256 * le_combine (b1 :: l)).
    replace i with (8 + (i - 8))%nat at 2 by lia. by rewrite digit_shift.
Qed.

Lemma straus_digits_ok ds data j d i :
  data_is ds data → ds !! j = Some d → (i < 256)%nat →
  straus_digits data !! (j * 256 + i)%nat = Some (straus_digit_at i d.1).
Proof.
  intros HD. revert j. induction HD as [|d' x ds data [[HL HB] Hv _] HD IH]; intros j Hj Hi; [done|].
  change (straus_digits (x :: data)) with (scalar_digits (md_scalar x ++ [0]) ++ straus_digits data).
  assert (length (scalar_digits (md_scalar x ++ [0])) = 256%nat) as H256
    by (rewrite length_scalar_digits, length_app, HL; reflexivity).
  destruct j as [|j]; cbn in Hj.
  - injection Hj as <-. rewrite lookup_app_l by lia. cbn [Nat.mul Nat.add].
    rewrite scalar_digits_ok; [| |rewrite length_app, HL; cbn; lia].
    + do 2 f_equal. rewrite le_combine_app. cbn [le_combine]. lia.
    + apply Forall_app. split; [done|]. by repeat constructor.
  - rewrite lookup_app_r by lia. rewrite H256.
    replace (S j * 256 + i - 256)%nat with (j * 256 + i)%nat by lia. by apply IH.
Qed.

Lemma digit_at_range i s : 0 ≤ straus_digit_at i s < 16.
Proof. apply Z.mod_pos_bound. lia. Qed.

(** ** The cache of Straus' method *)

(** The first [n] cells of the rows of [P]: the multiples [P .. 15 P] *)
Definition row_is (cache : straus_cached_data) (j : nat) (P : point) : Prop :=
  ∀ digit, (1 ≤ digit ≤ 15)%nat →
    ∃ c, cache_read cache j digit = Some c ∧ cached_is (ed_mul (Z.of_nat digit) P) c.

Record cache_is (ds : list (Z * point)) (cache : straus_cached_data) : Prop := {
  ca_size : (length ds ≤ st_size cache)%nat;
  ca_rows : ∀ j d, ds !! j = Some d → row_is cache j d.2
}.

Record cache_mem (N : nat) (cache : straus_cached_data) : Prop := {
  cm_size : st_size cache = N;
  cm_length : length (st_multiples cache) = (15 * N)%nat
}.

Lemma offset_lt N j digit :
  (j < N)%nat → (1 ≤ digit ≤ 15)%nat → (CACHE_OFFSET N j digit < 15 * N)%nat.
Proof. unfold CACHE_OFFSET. nia. Qed.

Lemma offset_inj N j digit j' digit' :
  (j < N)%nat → (j' < N)%nat → (1 ≤ digit)%nat → (1 ≤ digit')%nat →
  CACHE_OFFSET N j digit = CACHE_OFFSET N j' digit' → j = j' ∧ digit = digit'.
Proof.
  unfold CACHE_OFFSET. intros Hj Hj' H1 H1' E.
  assert (digit - 1 = digit' - 1)%nat by nia. assert (j = j') by nia. lia.
Qed.

Lemma cache_write_ok N cache j digit c :
  cache_mem N cache → (j < N)%nat → (1 ≤ digit ≤ 15)%nat →
  ∃ cache', cache_write cache j digit c = Some cache' ∧ cache_mem N cache' ∧
    cache_read cache' j digit = Some c ∧
    ∀ j' digit', (j' < N)%nat → (1 ≤ digit')%nat → (j', digit') ≠ (j, digit) →
      cache_read cache' j' digit' = cache_read cache j' digit'.
Proof.
  intros [HS HL] Hj Hd. unfold cache_write. rewrite HS.
  pose proof (offset_lt N j digit Hj Hd) as Ho. rewrite HL, (proj2 (Nat.ltb_lt _ _) Ho).
  eexists. split; [reflexivity|]. unfold cache_read. cbn [st_size st_multiples].
  split; [split; [done|cbn [st_multiples]; by rewrite length_insert]|]. split.
  - rewrite list_lookup_insert_eq by (rewrite HL; exact Ho). reflexivity.
  - intros j' d' Hj' Hd' Hne. rewrite HS, list_lookup_insert_ne; [done|].
    intros E. destruct (offset_inj N j digit j' d' Hj Hj' ltac:(lia) Hd' E) as [-> ->]. done.
Qed.

Lemma straus_row_ok N j P point n i cache :
  (i + n = 16)%nat → (2 ≤ i)%nat → (j < N)%nat → p3_is P point → cache_mem N cache →
  (∃ c, cache_read cache j (i - 1) = Some c ∧ cached_is (ed_mul (Z.of_nat (i - 1)) P) c) →
  ∃ cache', straus_row n i j point cache = Some cache' ∧ cache_mem N cache' ∧
    (∀ digit, (i ≤ digit ≤ 15)%nat →
      ∃ c, cache_read cache' j digit = Some c ∧ cached_is (ed_mul (Z.of_nat digit) P) c) ∧
    (∀ j' digit, (j' < N)%nat → (1 ≤ digit)%nat → j' ≠ j ∨ (digit < i)%nat →
      cache_read cache' j' digit = cache_read cache j' digit).
Proof.
  revert i cache. induction n as [|n IH]; intros i cache Hn Hi Hj HP HM (c & Ec & Hc).
  { exists cache. split_and!; [done|exact HM|intros; lia|done]. }
  cbn [straus_row]. step Ec.
  destruct (ge_add_ok _ _ _ _ HP Hc) as (t & Et & Ht). step Et.
  destruct (ge_p1p1_to_p3_ok _ _ Ht) as (p3 & E3 & H3). step E3.
  destruct (ge_p3_to_cached_ok _ _ H3) as (c' & Ec' & Hc'). step Ec'.
  assert (ed_add P (ed_mul (Z.of_nat (i - 1)) P) = ed_mul (Z.of_nat i) P) as EP.
  { replace (Z.of_nat i) with (1 + Z.of_nat (i - 1)) by lia.
    by rewrite ed_mul_add, ed_mul_1 by exact (proj1 HP). }
  rewrite EP in Hc'.
  destruct (cache_write_ok N cache j i c' HM Hj ltac:(lia)) as (ca & Ew & HMa & Rs & Ro). step Ew.
  destruct (IH (S i) ca) as (cb & Eb & HMb & Rb & Ub); [lia|lia|exact Hj|exact HP|exact HMa|..].
  { replace (S i - 1)%nat with i by lia. by exists c'. }
  exists cb. split; [exact Eb|]. split; [exact HMb|]. split.
  - intros digit Hd. destruct (decide (digit = i)) as [->|Hne]; [|apply Rb; lia].
    exists c'. rewrite Ub by (done || lia). done.
  - intros j' digit Hj' H1 Hor. rewrite Ub by (done || lia). apply Ro; [done..|].
    intros [= -> ->]. lia.
Qed.

Lemma straus_rows_ok N ds data n j cache :
  data_is ds data → (j + n = N)%nat → (N ≤ length ds)%nat → cache_mem N cache →
  ∃ cache', straus_rows n j data cache = Some cache' ∧ cache_mem N cache' ∧
    (∀ j' d, (j ≤ j' < N)%nat → ds !! j' = Some d → row_is cache' j' d.2) ∧
    (∀ j' digit, (j' < j)%nat → (1 ≤ digit)%nat →
      cache_read cache' j' digit = cache_read cache j' digit).
Proof.
  intros HD. revert j cache. induction n as [|n IH]; intros j cache Hn HN HM.
  { exists cache. split_and!; [done|exact HM|intros; lia|done]. }
  cbn [straus_rows].
  destruct (lookup_lt_is_Some_2 ds j ltac:(lia)) as [d Ed].
  destruct (Forall2_lookup_l _ _ _ _ _ HD Ed) as (x & Ex & [_ _ HP]). step Ex.
  destruct (ge_p3_to_cached_ok _ _ HP) as (c & Ec & Hc). step Ec.
  destruct (cache_write_ok N cache j 1 c HM ltac:(lia) ltac:(lia)) as (ca & Ew & HMa & Rs & Ro). step Ew.
  destruct (straus_row_ok N j d.2 (md_point x) 14 2 ca) as (cb & Eb & HMb & Rb & Ub);
    [lia|lia|lia|exact HP|exact HMa|..].
  { exists c. split; [exact Rs|]. cbn [Nat.sub Z.of_nat]. by rewrite ed_mul_1. }
  step Eb. destruct (IH (S j) cb) as (cc & Ecc & HMc & Rc & Uc); [lia|lia|exact HMb|].
  exists cc. split; [exact Ecc|]. split; [exact HMc|]. split.
  - intros j' d' Hj' Ed'. destruct (decide (j' = j)) as [->|Hne]; [|apply (Rc j'); (done || lia)].
    rewrite Ed in Ed'. injection Ed' as <-. intros digit Hd. rewrite Uc by lia.
    destruct (decide (digit = 1)%nat) as [->|]; [|apply Rb; lia].
    exists c. rewrite Ub by lia. split; [exact Rs|]. cbn [Z.of_nat]. by rewrite ed_mul_1.
  - intros j' digit Hj' H1. rewrite Uc by lia. rewrite Ub by lia. apply Ro; [lia|lia|].
    intros [= -> _]. lia.
Qed.

Lemma straus_init_cache_ok ds data N :
  data_is ds data → (N ≤ length data)%nat →
  let M := if (N =? 0)%nat then length data else N in
  ∃ cache, straus_init_cache data N = Ret cache ∧ st_size cache = M ∧ cache_is (take M ds) cache.
Proof.
  intros HD HN M. pose proof (Forall2_length HD) as HL.
  assert (M ≤ length data)%nat as HM by (unfold M; destruct (N =? 0)%nat; lia).
  unfold straus_init_cache. fold M.
  rewrite (bind_ret _ _ _ (throw_unless_true _ (proj2 (Nat.leb_le _ _) HM))).
  destruct (straus_rows_ok M ds data M 0 {| st_size := M; st_multiples := replicate (15 * M) None |})
    as (cache & E & HMem & HR & _); [exact HD|lia|lia|..].
  { split; [done|]. apply length_replicate. }
  exists cache. split; [exact (run_some _ _ E)|]. destruct HMem as [HS _]. split; [exact HS|].
  split; [rewrite HS, length_take; lia|]. intros j d Hd. apply lookup_take_Some in Hd as [Hd Hlt].
  apply (HR j); [lia|done].
Qed.

(** ** The loops of Straus' method *)

Lemma good_pairs_sub ds o n : good_pairs ds → good_pairs (take n (drop o ds)).
Proof. intros HG. by apply Forall_take, Forall_drop. Qed.

(** Adding the digits [i] of [n] points from [j] on *)
Lemma straus_add_ok ds data cache P n j i band :
  data_is ds data → cache_is ds cache → (j + n ≤ length ds)%nat → (i < 256)%nat →
  p3_is P band →
  ∃ r, straus_add n j i (straus_digits data) cache band = Some r ∧
    p3_is (ed_add P (window_sum (straus_digit_at i) (take n (drop j ds)))) r.
Proof.
  intros HD HC. revert P j band. induction n as [|n IH]; intros P j band Hj Hi HP.
  { exists band. split; [done|]. by rewrite take_0, wsum_nil, ed_add_0_r. }
  destruct (lookup_lt_is_Some_2 ds j ltac:(lia)) as [d Ed].
  pose proof (data_is_good _ _ HD) as HG.
  assert (on_curve d.2) as Hd.
  { exact (proj2 (Forall_lookup_1 _ _ _ _ HG Ed)). }
  cbn [straus_add]. step (straus_digits_ok ds data j d i HD Ed Hi).
  pose proof (digit_at_range i d.1) as Hr.
  assert (∃ b, (if negb (straus_digit_at i d.1 =? 0) then
      c ← cache_read cache j (Z.to_nat (straus_digit_at i d.1)); add_cached band c
    else Some band) = Some b ∧ p3_is (ed_add P (ed_mul (straus_digit_at i d.1) d.2)) b) as (b & Eb & Hb).
  { destruct (Z.eqb_spec (straus_digit_at i d.1) 0) as [->|Hne]; cbn [negb].
    - exists band. split; [done|]. cbn [ed_mul]. by rewrite ed_add_0_r.
    - destruct (ca_rows ds cache HC j d Ed (Z.to_nat (straus_digit_at i d.1)) ltac:(lia)) as (c & Ec & Hc).
      step Ec. rewrite Z2Nat.id in Hc by lia. exact (add_cached_ok _ _ _ _ HP Hc). }
  step Eb. destruct (IH _ (S j) b ltac:(lia) Hi Hb) as (r & Er & Hr'). exists r.
  split; [exact Er|]. rewrite (drop_S _ _ _ Ed).
  change (window_sum (straus_digit_at i) (take (S n) (d :: drop (S j) ds)))
    with (ed_add (ed_mul (straus_digit_at i d.1) d.2) (window_sum (straus_digit_at i) (take n (drop (S j) ds)))).
  rewrite ed_add_assoc; [exact Hr'|exact (proj1 HP)|auto with edwards|].
  apply wsum_on_curve. by apply good_pairs_sub.
Qed.

Lemma digit_step s i :
  s / 2 ^ Z.of_nat i = 16 * (s / 2 ^ Z.of_nat (4 + i)) + straus_digit_at i s.
Proof.
  unfold straus_digit_at.
  replace (2 ^ Z.of_nat (4 + i)) with (2 ^ Z.of_nat i * 16).
  2: { rewrite Nat2Z.inj_add, Z.pow_add_r by lia. change (2 ^ Z.of_nat 4) with 16. ring. }
  rewrite <- Z.div_div by (try apply Z.pow_pos_nonneg; lia). apply Z.div_mod. lia.
Qed.

(** Each iteration brings in four more bits of every scalar. *)
Lemma straus_band_ok ds data cache o m k n band :
  data_is ds data → cache_is ds cache → (o + m ≤ length ds)%nat → (k ≤ 64)%nat → (k < n)%nat →
  p3_is (window_sum (λ s, s / 2 ^ Z.of_nat (4 * k)) (take m (drop o ds))) band →
  ∃ r, straus_band n false (4 * k) o m (straus_digits data) cache band = Some r ∧
    p3_is (msum (take m (drop o ds))) r.
Proof.
  intros HD HC Ho. revert n band. induction k as [|k IH]; intros n band Hk Hn HB.
  all: destruct n as [|n]; [lia|].
  all: pose proof (good_pairs_sub ds o m (data_is_good _ _ HD)) as HG.
  { exists band. split; [done|]. unfold msum. rewrite (wsum_ext _ (λ s, s / 2 ^ Z.of_nat (4 * 0))); [done..|].
    intros s _. cbn. by rewrite Z.div_1_r. }
  cbn [straus_band]. unfold STRAUS_C. rewrite (proj2 (Nat.ltb_ge _ _)) by lia. cbn [negb].
  destruct (dbl_p3_ok 4 _ _ ltac:(lia) HB) as (q & Eq & Hq). step Eq.
  replace (4 * S k - 4)%nat with (4 * k)%nat by lia.
  destruct (straus_add_ok ds data cache _ m o (4 * k) q HD HC Ho ltac:(lia) Hq) as (r & Er & Hr).
  step Er. apply IH; [lia|lia|].
  rewrite <- wsum_mul, <- wsum_add in Hr by exact HG.
  rewrite (wsum_ext _ _ _ HG (λ s _, digit_step s (4 * k))).
  replace (4 + 4 * k)%nat with (4 * S k)%nat by lia. exact Hr.
Qed.

(** The first iteration starts from the neutral point. *)
Lemma straus_band_first ds data cache o m k n :
  data_is ds data → cache_is ds cache → (o + m ≤ length ds)%nat → (k ≤ 64)%nat → (k < n)%nat →
  Forall (λ d, 0 ≤ d.1 < 2 ^ Z.of_nat (4 * k)) ds →
  ∃ r, straus_band n true (4 * k) o m (straus_digits data) cache ge_p3_identity = Some r ∧
    p3_is (msum (take m (drop o ds))) r.
Proof.
  intros HD HC Ho Hk Hn HB. pose proof (good_pairs_sub ds o m (data_is_good _ _ HD)) as HG.
  assert (window_sum (λ s, s / 2 ^ Z.of_nat (4 * k)) (take m (drop o ds)) = ed_zero) as E0.
  { rewrite <- (wsum_0 (take m (drop o ds))). clear -HB.
    apply wsum_ext_in. apply (Forall_drop _ o), (Forall_take _ m) in HB.
    eapply Forall_impl; [|exact HB]. intros d Hd. by apply Z.div_small. }
  destruct n as [|n]; [lia|]. destruct k as [|k].
  { exists ge_p3_identity. split; [done|]. unfold msum.
    rewrite (wsum_ext _ (λ s, s / 2 ^ Z.of_nat (4 * 0))); [|done|intros s _; cbn; by rewrite Z.div_1_r].
    rewrite E0. exact ge_p3_identity_is. }
  cbn [straus_band]. unfold STRAUS_C. rewrite (proj2 (Nat.ltb_ge _ _)) by lia. cbn [negb].
  step (eq_refl (Some ge_p3_identity)). replace (4 * S k - 4)%nat with (4 * k)%nat by lia.
  destruct (straus_add_ok ds data cache _ m o (4 * k) _ HD HC Ho ltac:(lia) ge_p3_identity_is)
    as (r & Er & Hr).
  step Er. apply (straus_band_ok ds); [done..|lia|lia|].
  rewrite (wsum_ext _ _ _ HG (λ s _, digit_step s (4 * k))), wsum_add, wsum_mul by exact HG.
  replace (4 + 4 * k)%nat with (4 * S k)%nat by lia. rewrite E0, ed_mul_zero. exact Hr.
Qed.

Lemma straus_bands_ok ds data cache k STEP n o res :
  data_is ds data → cache_is ds cache → (k ≤ 64)%nat → (0 < STEP)%nat →
  Forall (λ d, 0 ≤ d.1 < 2 ^ Z.of_nat (4 * k)) ds →
  (length ds < o + n)%nat → (0 < n)%nat → p3_is (msum (take o ds)) res →
  ∃ r, straus_bands n (length ds) STEP (4 * k) o (straus_digits data) cache res = Some r ∧
    p3_is (msum ds) r.
Proof.
  intros HD HC Hk HS HB. pose proof (data_is_good _ _ HD) as HG.
  revert o res. induction n as [|n IH]; intros o res Hn H0 HR; [lia|].
  cbn [straus_bands].
  destruct (Nat.ltb_spec o (length ds)) as [Ho|Ho].
  2: { exists res. split; [done|]. by rewrite take_ge in HR by lia. }
  set (m := Nat.min (length ds - o) STEP).
  destruct (straus_band_first ds data cache o m k 65) as (b & Eb & Hb); [done..|lia|done|lia|done|].
  step Eb. destruct (add_p3_ok _ _ _ _ HR Hb) as (r & Er & Hr). step Er. apply IH; [lia|lia|].
  assert (take (o + STEP) ds = take o ds ++ take m (drop o ds)) as ->.
  { rewrite <- (take_drop o ds) at 1. rewrite take_app, length_take, Nat.min_l by lia.
    rewrite take_ge by (rewrite length_take; lia). f_equal.
    replace (o + STEP - o)%nat with STEP by lia. unfold m.
    destruct (Nat.min_spec (length ds - o) STEP) as [[? ->]|[? ->]]; [|done].
    rewrite !take_ge by (rewrite length_drop; lia). done. }
  unfold msum in *. rewrite wsum_app; [exact Hr|by apply Forall_take|by apply good_pairs_sub].
Qed.

Lemma bits4 k : (4 * k ≤ 255 + 4)%nat → (k ≤ 64)%nat.
Proof. lia. Qed.

(** With a cache of these points, or none *)
Lemma straus_ok ds data cache STEP :
  data_is ds data → (∀ c, cache = Some c → cache_is ds c) →
  straus data cache STEP = Ret (ed_encode (msum ds)).
Proof.
  intros HD HC. pose proof (Forall2_length HD) as HL. unfold straus.
  assert (∃ c, match cache with None => straus_init_cache data 0 | Some c => Ret c end = Ret c ∧
    cache_is ds c) as (c & Ec & Hc).
  { destruct cache as [c|]; [exists c; split; [done|by apply HC]|].
    destruct (straus_init_cache_ok ds data 0 HD ltac:(lia)) as (c & E & _ & Hc).
    exists c. split; [exact E|]. by rewrite take_ge in Hc by (cbn; lia). }
  assert (match cache with None => true | Some c => (length data <=? st_size c)%nat end = true) as E0.
  { destruct cache as [c'|]; [|done]. apply Nat.leb_le. rewrite <- HL. apply ca_size. by apply HC. }
  rewrite (bind_ret _ _ _ (throw_unless_true _ E0)).
  rewrite (bind_ret _ _ _ Ec).
  destruct (maxscalar_ok ds data HD) as [HM _].
  destruct (bits_above_ok 64 4 (maxscalar data) 0) as (k & Ek & Hk & HB); [lia|lia|lia|exact HM|].
  unfold STRAUS_C. rewrite (bind_ret _ _ _ Ek). rewrite Nat.add_0_l, Nat.mul_comm in *.
  apply run_some.
  destruct (straus_bands_ok ds data c k (if (STEP =? 0)%nat then 192 else STEP)%nat
    (S (length data)) 0 ge_p3_identity) as (r & Er & Hr);
    [done|done|lia|destruct (Nat.eqb_spec STEP 0); lia|by apply (bits_above_bound ds data)|lia|lia|
     exact ge_p3_identity_is|].
  rewrite HL in Er. step Er. exact (ge_p3_tobytes_ok _ _ Hr).
Qed.
