(* ===== verification/PippengerSpec.v ===== *)
(** * Correctness of [multiexp.cc]: Pippenger's method

    [pippenger] returns the encoding of the sum of [s_j P_j], for every list of
    32-byte scalars and points, with or without a cache of these points, for
    every width of the buckets it accepts. *)

From S2P Require Export MultiexpSpec.

#[local] Open Scope Z_scope.

(** ** The digits *)

Lemma land_pow2_0 x m : 0 ≤ m → (Z.land x (Z.shiftl 1 m) =? 0) = negb (Z.testbit x m).
Proof.
  intros Hm. rewrite Z.shiftl_1_l. destruct (Z.testbit x m) eqn:E; cbn [negb].
  - apply Z.eqb_neq. intros E0. apply (f_equal (λ y, Z.testbit y m)) in E0.
    rewrite Z.land_spec, E, Z.pow2_bits_true, Z.bits_0 in E0 by lia. done.
  - apply Z.eqb_eq, Z.bits_inj'. intros n Hn. rewrite Z.land_spec, Z.bits_0.
    destruct (decide (n = m)) as [->|Hne]; [by rewrite E|].
    rewrite Z.pow2_bits_false by lia. apply andb_false_r.
Qed.

Lemma test_ok k n :
  bytes32 k → negb (test k n =? 0) = Z.testbit (le_combine k) (Z.of_nat n).
Proof.
  intros [HL HB]. pose proof (le_combine_bound k HB) as Hr. rewrite HL in Hr. unfold test.
  destruct (Nat.leb_spec 256 n) as [Hn|Hn].
  - cbn [Z.eqb negb]. symmetry. rewrite <- (Z.mod_small (le_combine k) (2 ^ 256)) by exact Hr.
    apply Z.mod_pow2_bits_high. lia.
  - rewrite land_pow2_0, negb_involutive by lia.
    assert (n / 8 < 32)%nat as Hi by (apply Nat.Div0.div_lt_upper_bound; lia).
    rewrite le_combine_lookup by (done || lia). rewrite pow256_pow2.
    pose proof (Nat.mod_upper_bound n 8 ltac:(lia)) as Hm.
    change 256 with (2 ^ 8). rewrite Z.mod_pow2_bits_low, Z.div_pow2_bits by lia. f_equal.
    pose proof (Nat.div_mod_eq n 8). lia.
Qed.

(** The digit of group [k]: [c] bits *)
Definition group_digit (c k : nat) (s : Z) : Z := (s / 2 ^ Z.of_nat (k * c)) mod 2 ^ Z.of_nat c.

Lemma mod_pow2_succ x j :
  x mod 2 ^ Z.of_nat (S j) = x mod 2 ^ Z.of_nat j + Z.b2z (Z.testbit x (Z.of_nat j)) * 2 ^ Z.of_nat j.
Proof.
  rewrite pow2_nat_succ, (Z.mul_comm 2), Z.rem_mul_r by (pose proof (pow2_nat_pos j); lia).
  rewrite <- Z.testbit_spec' by lia. ring.
Qed.

Lemma bucket_of_ok k base n j :
  bytes32 k →
  let x := le_combine k / 2 ^ Z.of_nat base in
  bucket_of n j k base (x mod 2 ^ Z.of_nat j) = x mod 2 ^ Z.of_nat (j + n).
Proof.
  intros Hk x. revert j. induction n as [|n IH]; intros j; [by rewrite Nat.add_0_r|].
  cbn [bucket_of]. rewrite test_ok by exact Hk.
  replace (j + S n)%nat with (S j + n)%nat by lia. rewrite <- IH. f_equal.
  replace (Z.testbit (le_combine k) (Z.of_nat (base + j))) with (Z.testbit x (Z.of_nat j)).
  2: { unfold x. rewrite Z.div_pow2_bits by lia. f_equal. lia. }
  rewrite mod_pow2_succ.
  destruct Z.testbit; cbn [Z.b2z]; [|lia].
  rewrite lor_shiftl_add by (try apply Z.mod_pos_bound, pow2_nat_pos; lia). lia.
Qed.

Lemma bucket_ok c k d x :
  pair_is d x → bucket_of c 0 (md_scalar x) (k * c) 0 = group_digit c k d.1.
Proof.
  intros [Hb Hv _]. pose proof (bucket_of_ok (md_scalar x) (k * c) c 0 Hb) as E. cbv zeta in E.
  rewrite Z.mod_1_r, Hv in E. exact E.
Qed.

Lemma group_digit_range c k s : 0 ≤ group_digit c k s < 2 ^ Z.of_nat c.
Proof. apply Z.mod_pos_bound, pow2_nat_pos. Qed.

Lemma group_step c k s :
  s / 2 ^ Z.of_nat (k * c) =
    2 ^ Z.of_nat c * (s / 2 ^ Z.of_nat (S k * c)) + group_digit c k s.
Proof.
  unfold group_digit.
  replace (2 ^ Z.of_nat (S k * c)) with (2 ^ Z.of_nat (k * c) * 2 ^ Z.of_nat c)
    by (rewrite <- Z.pow_add_r by lia; f_equal; lia).
  rewrite <- Z.div_div by (pose proof (pow2_nat_pos (k * c)); try apply pow2_nat_pos; lia).
  apply Z.div_mod. pose proof (pow2_nat_pos c). lia.
Qed.

(** ** The buckets *)

Section buckets.
Context (c k : nat).

(** Bucket [b] holds the sum of the points whose digit is [b]. *)
Definition in_bucket (b : nat) (s : Z) : Z := if group_digit c k s =? Z.of_nat b then 1 else 0.

Record buckets_are (ds : list (Z * point)) (bs : list ge_p3) : Prop := {
  bk_length : length bs = (2 ^ c)%nat;
  bk_point b : (0 < b < 2 ^ c)%nat → ∃ h, bs !! b = Some h ∧ p3_is (window_sum (in_bucket b) ds) h
}.

Lemma pow2_nat_Z n : Z.of_nat (2 ^ n) = 2 ^ Z.of_nat n.
Proof. by rewrite Nat2Z.inj_pow. Qed.

Lemma buckets_empty : buckets_are [] (replicate (2 ^ c) ge_p3_identity).
Proof.
  split; [apply length_replicate|]. intros b Hb. exists ge_p3_identity.
  split; [apply lookup_replicate_2; lia|exact ge_p3_identity_is].
Qed.

Lemma wsum_snoc f ds d :
  good_pairs ds → on_curve d.2 → window_sum f (ds ++ [d]) = ed_add (window_sum f ds) (ed_mul (f d.1) d.2).
Proof.
  intros HG Hd. induction HG as [|e es [_ He] HG IH].
  { change (ed_add (ed_mul (f d.1) d.2) ed_zero = ed_add ed_zero (ed_mul (f d.1) d.2)).
    by rewrite ed_add_0_r, ed_add_0_l. }
  change (ed_add (ed_mul (f e.1) e.2) (window_sum f (es ++ [d])) =
    ed_add (ed_add (ed_mul (f e.1) e.2) (window_sum f es)) (ed_mul (f d.1) d.2)).
  rewrite IH. apply ed_add_assoc; auto with edwards.
Qed.

Lemma infinity_cases P h :
  p3_is P h →
  (ge_p3_is_point_at_infinity h =? 0) = true ∨
  (ge_p3_is_point_at_infinity h =? 0) = false ∧ P = ed_zero.
Proof.
  intros HP. unfold ge_p3_is_point_at_infinity. rewrite infinity_loop_ok.
  destruct forallb eqn:E; [right|by left]. split; [done|].
  apply (ge_p3_is_point_at_infinity_ok P h HP). unfold ge_p3_is_point_at_infinity.
  by rewrite infinity_loop_ok, E.
Qed.

Lemma bucket_add_ok ds bs d x cached :
  buckets_are ds bs → good_pairs ds → pair_is d x → cached_is d.2 cached →
  ∃ bs', bucket_add c k x cached bs = Ret bs' ∧ buckets_are (ds ++ [d]) bs'.
Proof.
  intros [HL HB] HG Hx Hc. unfold bucket_add. rewrite (bucket_ok c k d x Hx).
  assert (on_curve d.2) as Hd by exact (proj1 (pi_point _ _ Hx)).
  pose proof (group_digit_range c k d.1) as Hr. rewrite <- pow2_nat_Z in Hr.
  set (g := group_digit c k d.1) in *.
  assert (∀ b, g ≠ Z.of_nat b → window_sum (in_bucket b) (ds ++ [d]) = window_sum (in_bucket b) ds) as Hother.
  { intros b Hne. rewrite wsum_snoc by done. unfold in_bucket at 2. fold g.
    rewrite (proj2 (Z.eqb_neq _ _) Hne). cbn [ed_mul]. apply ed_add_0_r. }
  destruct (Z.eqb_spec g 0) as [E0|E0].
  { exists bs. split; [done|]. split; [exact HL|]. intros b Hb. rewrite Hother by lia. by apply HB. }
  rewrite Z.shiftl_1_l, <- pow2_nat_Z.
  rewrite (bind_ret _ _ _ (throw_unless_true _ (proj2 (Z.ltb_lt _ _) (proj2 Hr)))).
  set (b0 := Z.to_nat g). assert (Z.of_nat b0 = g) as Eb by (unfold b0; lia).
  destruct (HB b0 ltac:(lia)) as (old & Eo & Ho).
  rewrite (bind_run _ _ _ Eo).
  assert (∃ new, (if ge_p3_is_point_at_infinity old =? 0
      then run (add_cached old cached) else Ret (md_point x)) = Ret new ∧
    p3_is (ed_add (window_sum (in_bucket b0) ds) d.2) new) as (new & En & Hn).
  { destruct (infinity_cases _ _ Ho) as [->|[-> E]].
    - destruct (add_cached_ok _ _ _ _ Ho Hc) as (r & Er & Hr'). exists r.
      split; [exact (run_some _ _ Er)|exact Hr'].
    - exists (md_point x). split; [done|]. rewrite E, ed_add_0_l. exact (pi_point _ _ Hx). }
  rewrite (bind_ret _ _ _ En). eexists. split; [reflexivity|]. split; [by rewrite length_insert|].
  intros b Hb. destruct (decide (b = b0)) as [->|Hne].
  - exists new. split; [apply list_lookup_insert_eq; lia|]. rewrite wsum_snoc by done.
    unfold in_bucket at 2. fold g. rewrite (proj2 (Z.eqb_eq _ _) (eq_sym Eb)), ed_mul_1. exact Hn.
  - rewrite list_lookup_insert_ne by done. rewrite Hother by lia. by apply HB.
Qed.

Definition cached_are (ds : list (Z * point)) (cache : list ge_cached) : Prop :=
  (length ds ≤ length cache)%nat ∧
  ∀ j d, ds !! j = Some d → ∃ c, cache !! j = Some c ∧ cached_is d.2 c.

Lemma buckets_fill_ok done_ ds data cache bs :
  data_is ds data → cached_are ds cache → good_pairs done_ → buckets_are done_ bs →
  ∃ bs', buckets_fill c k data cache bs = Ret bs' ∧ buckets_are (done_ ++ ds) bs'.
Proof.
  intros HD. revert done_ cache bs. induction HD as [|d x ds data Hx HD IH]; intros dn cache bs HC HG HB.
  { exists bs. rewrite app_nil_r. by destruct cache. }
  destruct HC as [HL HC]. destruct cache as [|ch cache]; [cbn in HL; lia|].
  destruct (HC 0%nat d eq_refl) as (ch' & [= <-] & Hch).
  destruct (bucket_add_ok dn bs d x ch HB HG Hx Hch) as (b1 & E1 & H1).
  destruct (IH (dn ++ [d]) cache b1) as (b2 & E2 & H2).
  - split; [cbn in HL; lia|]. intros j e He. exact (HC (S j) e He).
  - apply Forall_app. split; [exact HG|].
    apply (data_is_good [d] [x]). constructor; [exact Hx|constructor].
  - exact H1.
  - exists b2. split; [|by rewrite <- app_assoc in H2].
    cbn [buckets_fill]. rewrite (bind_ret _ _ _ E1). exact E2.
Qed.

(** After bucket [i]: the sum of the buckets from [i] on, and of their multiples *)
Definition at_least (i : nat) (s : Z) : Z := if Z.of_nat i <=? group_digit c k s then 1 else 0.
Definition above (i : nat) (s : Z) : Z := Z.max 0 (group_digit c k s - Z.of_nat i + 1).

Lemma buckets_sum_ok ds bs R i pail result :
  buckets_are ds bs → good_pairs ds → (i < 2 ^ c)%nat → on_curve R →
  p3_is (window_sum (at_least (S i)) ds) pail → p3_is (ed_add R (window_sum (above (S i)) ds)) result →
  ∃ r, buckets_sum i bs pail result = Some r ∧ p3_is (ed_add R (window_sum (group_digit c k) ds)) r.
Proof.
  intros HB HG Hi HR. revert pail result. induction i as [|i IH]; intros pail result HP Hres.
  { exists result. split; [done|]. rewrite <- (wsum_ext (above 1) _ ds HG); [exact Hres|].
    intros s _. unfold above. pose proof (group_digit_range c k s). lia. }
  cbn [buckets_sum]. destruct (bk_point _ _ HB (S i) ltac:(lia)) as (b & Eb & Hb). step Eb.
  assert (∃ pail', (if ge_p3_is_point_at_infinity b =? 0 then add_p3 pail b else Some pail)
    = Some pail' ∧ p3_is (window_sum (at_least (S i)) ds) pail') as (pail' & Ep & Hp).
  { assert (window_sum (at_least (S i)) ds =
      ed_add (window_sum (at_least (S (S i))) ds) (window_sum (in_bucket (S i)) ds)) as E.
    { rewrite <- wsum_add by exact HG. apply wsum_ext; [exact HG|]. intros s _.
      unfold at_least, in_bucket. destruct (Z.leb_spec (Z.of_nat (S i)) (group_digit c k s)),
        (Z.leb_spec (Z.of_nat (S (S i))) (group_digit c k s)),
        (Z.eqb_spec (group_digit c k s) (Z.of_nat (S i))); lia. }
    rewrite E. destruct (infinity_cases _ _ Hb) as [->|[-> Ez]]; [exact (add_p3_ok _ _ _ _ HP Hb)|].
    exists pail. split; [done|]. by rewrite Ez, ed_add_0_r. }
  step Ep.
  assert (∃ result', (if ge_p3_is_point_at_infinity pail' =? 0 then add_p3 result pail' else Some result)
    = Some result' ∧ p3_is (ed_add R (window_sum (above (S i)) ds)) result') as (res' & Er & Hr).
  { assert (ed_add R (window_sum (above (S i)) ds) =
      ed_add (ed_add R (window_sum (above (S (S i))) ds)) (window_sum (at_least (S i)) ds)) as E.
    { rewrite <- ed_add_assoc, <- wsum_add by auto with edwards. f_equal.
      apply wsum_ext; [exact HG|]. intros s _. unfold at_least, above.
      destruct (Z.leb_spec (Z.of_nat (S i)) (group_digit c k s)); lia. }
    rewrite E. destruct (infinity_cases _ _ Hp) as [->|[-> Ez]]; [exact (add_p3_ok _ _ _ _ Hres Hp)|].
    exists result. split; [done|]. by rewrite Ez, ed_add_0_r. }
  step Er. apply IH; [lia|exact Hp|exact Hr].
Qed.

End buckets.

(** ** The loop over the groups *)

Lemma pippenger_loop_ok ds data cache c k R :
  data_is ds data → cached_are ds cache → (0 < c)%nat →
  p3_is (window_sum (λ s, s / 2 ^ Z.of_nat (k * c)) ds) R →
  ∃ r, pippenger_loop k c data cache R = Ret r ∧ p3_is (msum ds) r.
Proof.
  intros HD HC Hc. pose proof (data_is_good _ _ HD) as HG.
  revert R. induction k as [|k IH]; intros R HR.
  { exists R. split; [done|]. unfold msum.
    rewrite (wsum_ext id (λ s, s / 2 ^ Z.of_nat (0 * c)) ds HG); [exact HR|].
    intros s _. symmetry. apply Z.div_1_r. }
  cbn [pippenger_loop]. set (W := window_sum (λ s, s / 2 ^ Z.of_nat (S k * c)) ds) in *.
  assert (∃ q, (if ge_p3_is_point_at_infinity R =? 0 then dbl_p3 c R else Some R) = Some q ∧
    p3_is (ed_mul (2 ^ Z.of_nat c) W) q) as (q & Eq & Hq).
  { destruct (infinity_cases _ _ HR) as [->|[-> Ez]]; [exact (dbl_p3_ok c _ _ Hc HR)|].
    exists R. split; [done|]. rewrite Ez, ed_mul_zero, <- Ez. exact HR. }
  step_run Eq.
  destruct (buckets_fill_ok c k [] ds data cache _ HD HC (List.Forall_nil _) (buckets_empty c k))
    as (bs & Eb & Hb). step_ret Eb.
  assert (1 ≤ 2 ^ c)%nat as H1 by (apply Nat.le_succ_l, Nat.neq_0_lt_0, Nat.pow_nonzero; lia).
  assert (∀ s, group_digit c k s < Z.of_nat (2 ^ c)) as Hlt.
  { intros s. rewrite pow2_nat_Z. apply group_digit_range. }
  destruct (buckets_sum_ok c k ds bs (ed_mul (2 ^ Z.of_nat c) W) (2 ^ c - 1) ge_p3_identity q)
    as (r & Er & Hr); [exact Hb|exact HG|lia|exact (proj1 Hq)|..].
  - rewrite (wsum_ext _ (λ _, 0) ds HG), wsum_0; [exact ge_p3_identity_is|].
    intros s _. unfold at_least. specialize (Hlt s).
    destruct (Z.leb_spec (Z.of_nat (S (2 ^ c - 1))) (group_digit c k s)); lia.
  - rewrite (wsum_ext _ (λ _, 0) ds HG), wsum_0, ed_add_0_r; [exact Hq|].
    intros s _. unfold above. specialize (Hlt s). lia.
  - step_run Er. apply IH. rewrite (wsum_ext _ _ ds HG (λ s _, group_step c k s)), wsum_add, wsum_mul
      by exact HG. exact Hr.
Qed.

Lemma get_pippenger_c_range N : (1 ≤ get_pippenger_c N ≤ 9)%nat.
Proof. unfold get_pippenger_c. repeat case_match; lia. Qed.

Lemma points_cached ds data :
  data_is ds data →
  ∃ cache, mapM (λ d, ge_p3_to_cached (md_point d)) data = Some cache ∧
    Forall2 (λ d c, cached_is d.2 c) ds cache.
Proof.
  induction 1 as [|d x ds data [_ _ Hp] HD (cs & Ec & HF)]; [by exists []|].
  destruct (ge_p3_to_cached_ok _ _ Hp) as (c & E & Hc). exists (c :: cs).
  split; [cbn; rewrite E; cbn; by rewrite Ec|by constructor].
Qed.

Lemma pippenger_init_cache_ok ds data N :
  data_is ds data → (N ≤ length data)%nat →
  let M := if (N =? 0)%nat then length data else N in
  ∃ cache, pippenger_init_cache data N = Ret cache ∧ length cache = M ∧ cached_are (take M ds) cache.
Proof.
  intros HD HN M. pose proof (Forall2_length HD) as HL.
  assert (M ≤ length data)%nat as HM by (unfold M; destruct (N =? 0)%nat; lia).
  unfold pippenger_init_cache. fold M.
  rewrite (bind_ret _ _ _ (throw_unless_true _ (proj2 (Nat.leb_le _ _) HM))).
  apply (Forall2_take _ _ _ M) in HD. clearbody M.
  destruct (points_cached _ _ HD) as (cache & E & HF).
  exists cache. split; [exact (run_some _ _ E)|]. pose proof (Forall2_length HF) as HL2.
  rewrite length_take in HL2. split; [lia|]. split; [rewrite length_take; lia|].
  intros j d Hd. destruct (Forall2_lookup_l _ _ _ _ _ HF Hd) as (ch & Ech & Hch). by exists ch.
Qed.

Lemma pippenger_ok ds data cache c :
  data_is ds data → (∀ ch, cache = Some ch → cached_are ds ch) → (c ≤ 9)%nat →
  pippenger data cache c = Ret (ed_encode (msum ds)).
Proof.
  intros HD HC Hc. pose proof (Forall2_length HD) as HL. unfold pippenger.
  assert (∃ ch, match cache with None => pippenger_init_cache data 0 | Some ch => Ret ch end = Ret ch ∧
    cached_are ds ch) as (ch & Ech & Hch).
  { destruct cache as [ch|]; [exists ch; split; [done|by apply HC]|].
    destruct (pippenger_init_cache_ok ds data 0 HD ltac:(lia)) as (ch & E & _ & Hch).
    exists ch. split; [exact E|]. by rewrite take_ge in Hch by (cbn; lia). }
  assert (match cache with None => true | Some ch => (length data <=? length ch)%nat end = true) as E0.
  { destruct cache as [ch'|]; [|done]. apply Nat.leb_le. rewrite <- HL. by apply HC. }
  rewrite (bind_ret _ _ _ (throw_unless_true _ E0)).
  set (c' := if (c =? 0)%nat then get_pippenger_c (length data) else c).
  assert (1 ≤ c' ≤ 9)%nat as Hc'.
  { unfold c'. pose proof (get_pippenger_c_range (length data)). destruct (Nat.eqb_spec c 0); lia. }
  rewrite (bind_ret _ _ _ (throw_unless_true _ (proj2 (Nat.leb_le _ _) (proj2 Hc')))).
  rewrite (bind_ret _ _ _ Ech).
  destruct (maxscalar_ok ds data HD) as [HM _].
  destruct (bits_above_ok 256 1 (maxscalar data) 0) as (g & Eg & _ & HB); [lia|lia|lia|exact HM|].
  rewrite (bind_ret _ _ _ Eg). rewrite Nat.add_0_l, Nat.mul_1_r in *.
  set (groups := ((g + c' - 1) / c')%nat).
  destruct (pippenger_loop_ok ds data ch c' groups ge_p3_identity HD Hch ltac:(lia)) as (r & Er & Hr).
  { pose proof (bits_above_bound ds data g HD HB) as HS.
    rewrite (wsum_ext_in (λ s, s / 2 ^ Z.of_nat (groups * c')) (λ _, 0)), wsum_0; [exact ge_p3_identity_is|].
    eapply Forall_impl; [|exact HS]. intros d Hd. cbv beta in *. apply Z.div_small.
    assert (2 ^ Z.of_nat g ≤ 2 ^ Z.of_nat (groups * c')); [|lia].
    apply Z.pow_le_mono_r; [lia|]. apply Nat2Z.inj_le. unfold groups.
    pose proof (Nat.div_mod_eq (g + c' - 1) c'). pose proof (Nat.mod_upper_bound (g + c' - 1) c'). nia. }
  rewrite (bind_ret _ _ _ Er). exact (run_some _ _ (ge_p3_tobytes_ok _ _ Hr)).
Qed.

(** A cache for fewer points, or more than nine bits a digit, is refused. *)
Lemma multiexp_errors data scache pcache STEP c :
  (st_size scache < length data)%nat → (length pcache < length data)%nat → (9 < c)%nat →
  straus data (Some scache) STEP = Throw ∧ pippenger data (Some pcache) c = Throw ∧
  pippenger data None c = Throw.
Proof.
  intros Hs Hp Hc. unfold straus, pippenger.
  rewrite (proj2 (Nat.leb_gt _ _) Hs), (proj2 (Nat.leb_gt _ _) Hp).
  split; [done|]. split; [done|]. destruct (Nat.eqb_spec c 0); [lia|].
  by rewrite (proj2 (Nat.leb_gt _ _) Hc).
Qed.
