(* ===== verification/BosCoster.v ===== *)
(** * Bos and Coster's method: [bos_coster_heap_conv] and its robust version

    of [multiexp.cc].  The heap of the standard library holds indices of
    [data], ordered by the scalars. *)

From S2P Require Export Multiexp.

#[local] Open Scope Z_scope.

(** ** The heap of the standard library

    The standard leaves the algorithms open.  The operations are those of
    [<algorithm>] on a vector of indices, for a comparison [comp]. *)
Class Heap := {
  make_heap : (nat → nat → bool) → list nat → list nat;
  push_heap : (nat → nat → bool) → list nat → list nat;
  pop_heap : (nat → nat → bool) → list nat → list nat
}.

(** No element is above its parent. *)
Definition is_heap (comp : nat → nat → bool) (l : list nat) : Prop :=
  ∀ i p x, (0 < i)%nat → l !! i = Some x → l !! ((i - 1) / 2)%nat = Some p → comp p x = false.

(** [comp] orders the elements of the vector: a strict weak order, as the standard asks *)
Record weak_order (comp : nat → nat → bool) (l : list nat) : Prop := {
  wo_asym x y : x ∈ l → y ∈ l → comp x y = true → comp y x = false;
  wo_trans x y z : x ∈ l → y ∈ l → z ∈ l → comp x y = false → comp y z = false → comp x z = false
}.

(** What the standard says of them: [pop_heap] leaves a largest element at the back. *)
Class HeapLaws `(Heap) : Prop := {
  make_heap_spec comp l :
    weak_order comp l → make_heap comp l ≡ₚ l ∧ is_heap comp (make_heap comp l);
  push_heap_spec comp l x :
    weak_order comp (l ++ [x]) → is_heap comp l →
    push_heap comp (l ++ [x]) ≡ₚ l ++ [x] ∧ is_heap comp (push_heap comp (l ++ [x]));
  pop_heap_spec comp l :
    weak_order comp l → is_heap comp l → l ≠ [] →
    ∃ l' x, pop_heap comp l = l' ++ [x] ∧ l' ++ [x] ≡ₚ l ∧ is_heap comp l' ∧
      ∀ y, y ∈ l' → comp x y = false
}.

Section bos_coster.
Context `{Heap}.

(** [Comp]; it reads the scalars at the time of the call. *)
Definition Comp (data : list MultiexpData) (e0 e1 : nat) : bool :=
  match data !! e0, data !! e1 with
  | Some d0, Some d1 => key_lt (md_scalar d0) (md_scalar d1)
  | _, _ => false
  end.

(** [std::pop_heap(..); size_t index = heap.back(); heap.pop_back();] *)
Definition heap_take (data : list MultiexpData) (heap : list nat) : option (nat * list nat) :=
  let heap := pop_heap (Comp data) heap in
  index ← heap !! (length heap - 1)%nat;
  Some (index, take (length heap - 1) heap).

(** [heap.push_back(index); std::push_heap(..);] *)
Definition heap_put (data : list MultiexpData) (index : nat) (heap : list nat) : list nat :=
  push_heap (Comp data) (heap ++ [index]).

(** From the addition to the end of the body of the loop *)
Definition bos_coster_add (data : list MultiexpData) (heap : list nat) (index1 index2 : nat) :
    option (list MultiexpData * list nat) :=
  d1 ← data !! index1;
  d2 ← data !! index2;
  point ← add_p3 (md_point d2) (md_point d1);
  let data := <[index2 := {| md_scalar := md_scalar d2; md_point := point |}]> data in
  s ← sc_sub (md_scalar d1) (md_scalar d2);
  let data := <[index1 := {| md_scalar := s; md_point := md_point d1 |}]> data in
  let heap := if negb (key_eqb s zero) then heap_put data index1 heap else heap in
  Some (data, heap_put data index2 heap).

(** [ge_scalarmult(&p2, data[index1].scalar.bytes, &data[index1].point);], as bytes *)
Definition bos_coster_end (data : list MultiexpData) (heap : list nat) : option key :=
  '(index1, heap) ← heap_take data heap;
  d ← data !! index1;
  p2 ← ge_scalarmult (md_scalar d) (md_point d);
  ge_tobytes p2.

(** ** The first version *)

Definition bos_coster_step (data : list MultiexpData) (heap : list nat) :
    option (list MultiexpData * list nat) :=
  '(index1, heap) ← heap_take data heap;
  '(index2, heap) ← heap_take data heap;
  bos_coster_add data heap index1 index2.

(** [while (heap.size() > 1)], at most [n] iterations *)
Fixpoint bos_coster_loop (n : nat) (data : list MultiexpData) (heap : list nat) :
    option (list MultiexpData * list nat) :=
  match n with
  | O => None
  | S n' =>
      if (1 <? length heap)%nat then
        '(data, heap) ← bos_coster_step data heap;
        bos_coster_loop n' data heap
      else Some (data, heap)
  end.

Definition bos_coster_heap_conv (n : nat) (data : list MultiexpData) : outcome key :=
  _ ← throw_unless (1 <? length data)%nat;
  let heap := make_heap (Comp data) (seq 0 (length data)) in
  run (
    '(data, heap) ← bos_coster_loop n data heap;
    bos_coster_end data heap).

(** ** The robust version *)

(** [if (data[index1].scalar.bytes[0] & 1)]: one more point, with the scalar 1 *)
Definition push_odd (data : list MultiexpData) (heap : list nat) (d1 : MultiexpData) :
    list MultiexpData * list nat :=
  if negb (Z.land (md_scalar d1 !!! 0%nat) 1 =? 0) then
    let data := data ++ [{| md_scalar := rct_identity; md_point := md_point d1 |}] in
    (data, heap_put data (length data - 1) heap)
  else (data, heap).

(** [while (1)]: halves the first scalar while it is more than twice the second.
    At most [n] iterations. *)
Fixpoint bos_coster_div (n : nat) (data : list MultiexpData) (heap : list nat) (index1 index2 : nat) :
    option (list MultiexpData * list nat) :=
  match n with
  | O => None
  | S n' =>
      d1 ← data !! index1;
      d2 ← data !! index2;
      let s1_2 := div2 (md_scalar d1) in
      if negb (key_lt (md_scalar d2) s1_2) then Some (data, heap) else
      let '(data, heap) := push_odd data heap d1 in
      p1 ← ge_p2_dbl (ge_p3_to_p2 (md_point d1));
      point ← ge_p1p1_to_p3 p1;
      let data := <[index1 := {| md_scalar := div2 (md_scalar d1); md_point := point |}]> data in
      bos_coster_div n' data heap index1 index2
  end.

Definition bos_coster_robust_step (data : list MultiexpData) (heap : list nat) :
    option (list MultiexpData * list nat) :=
  '(index1, heap) ← heap_take data heap;
  '(index2, heap) ← heap_take data heap;
  '(data, heap) ← bos_coster_div 256 data heap index1 index2;
  bos_coster_add data heap index1 index2.

Fixpoint bos_coster_robust_loop (n : nat) (data : list MultiexpData) (heap : list nat) :
    option (list MultiexpData * list nat) :=
  match n with
  | O => None
  | S n' =>
      if (1 <? length heap)%nat then
        '(data, heap) ← bos_coster_robust_step data heap;
        bos_coster_robust_loop n' data heap
      else Some (data, heap)
  end.

(** A non-zero scalar, and a point that is not visibly the neutral one *)
Definition robust_keep (data : list MultiexpData) (n : nat) : bool :=
  match data !! n with
  | Some d => negb (key_eqb (md_scalar d) zero) && (ge_p3_is_point_at_infinity (md_point d) =? 0)
  | None => false
  end.

Definition robust_indices (data : list MultiexpData) : list nat :=
  filter (λ n, robust_keep data n = true) (seq 0 (length data)).

Definition bos_coster_heap_conv_robust (n : nat) (data : list MultiexpData) : outcome key :=
  _ ← throw_unless (0 <? length data)%nat;
  let heap := robust_indices data in
  let points := length heap in
  if (points =? 0)%nat then Ret rct_identity else
  let heap := make_heap (Comp data) heap in
  if (points <? 2)%nat then run (bos_coster_end data heap) else
  run (
    '(data, heap) ← bos_coster_robust_loop n data heap;
    bos_coster_end data heap).

End bos_coster.
