(* ===== verification/BosCosterSpec.v ===== *)
(** * Correctness of Bos and Coster's method

    The robust version returns the encoding of the sum of [s_j P_j] after a
    number of iterations linear in the number of points, for every list of
    reduced scalars and points; the first version returns it when no scalar is
    zero, and does not return when there are a zero scalar and one that is not. *)

From Stdlib Require Import Sorted.
From stdpp Require Import sets.
From S2P Require Export BosCoster PippengerSpec.

#[local] Open Scope Z_scope.

(** ** Sums over a heap *)

Lemma zsum_perm l l' : l ≡ₚ l' → zsum l = zsum l'.
Proof. induction 1; cbn [zsum foldr] in *; unfold zsum in *; lia. Qed.

Lemma psum_perm Ps Qs : Ps ≡ₚ Qs → Forall on_curve Ps → point_sum Ps = point_sum Qs.
Proof.
  induction 1 as [|P Ps Qs HP IH|P Q Ps|Ps Qs Rs H1 IH1 H2 IH2]; intros HF; [done|..].
  - apply Forall_cons_1 in HF as [_ HF]. change (ed_add P (point_sum Ps) = ed_add P (point_sum Qs)). by rewrite IH.
  - apply Forall_cons_1 in HF as [HQ HF]. apply Forall_cons_1 in HF as [HP HF].
    change (ed_add Q (ed_add P (point_sum Ps)) = ed_add P (ed_add Q (point_sum Ps))).
    rewrite !ed_add_assoc by auto with edwards. by rewrite (ed_add_comm Q P).
  - rewrite IH1 by done. apply IH2. by rewrite <- H1.
Qed.

(** What index [i] contributes *)
Definition term (ds : list (Z * point)) (i : nat) : point :=
  match ds !! i with Some d => ed_mul d.1 d.2 | None => ed_zero end.

Definition size_of (ds : list (Z * point)) (i : nat) : Z :=
  match ds !! i with Some d => d.1 | None => 0 end.

Definition hsum (ds : list (Z * point)) (heap : list nat) : point := point_sum (term ds <$> heap).

Lemma term_on_curve ds i : good_pairs ds → on_curve (term ds i).
Proof.
  intros HG. unfold term. destruct (ds !! i) as [d|] eqn:E; [|auto with edwards].
  destruct (Forall_lookup_1 _ _ _ _ HG E) as [_ Hd]. auto with edwards.
Qed.

Lemma terms_on_curve ds heap : good_pairs ds → Forall on_curve (term ds <$> heap).
Proof. intros HG. apply Forall_fmap, Forall_true. intros i. by apply term_on_curve. Qed.
#[local] Hint Resolve terms_on_curve term_on_curve : edwards.

Lemma hsum_perm ds h h' : good_pairs ds → h ≡ₚ h' → hsum ds h = hsum ds h'.
Proof.
  intros HG HP. unfold hsum. apply psum_perm; [by rewrite HP|by apply terms_on_curve].
Qed.

Lemma hsum_cons ds i h : hsum ds (i :: h) = ed_add (term ds i) (hsum ds h).
Proof. done. Qed.

Lemma hsum_ext ds ds' h : (∀ i, i ∈ h → ds !! i = ds' !! i) → hsum ds h = hsum ds' h.
Proof.
  intros E. unfold hsum. f_equal. apply list_fmap_ext. intros j i Hi. unfold term.
  by rewrite E by (by eapply list_elem_of_lookup_2).
Qed.

Lemma hsum_on_curve ds h : good_pairs ds → on_curve (hsum ds h).
Proof. intros HG. apply psum_on_curve. by apply terms_on_curve. Qed.
#[local] Hint Resolve hsum_on_curve : edwards.

Lemma term_lookup ds i d : ds !! i = Some d → term ds i = ed_mul d.1 d.2.
Proof. unfold term. by intros ->. Qed.

Lemma size_lookup ds i d : ds !! i = Some d → size_of ds i = d.1.
Proof. unfold size_of. by intros ->. Qed.

(** The sum of a list is the sum over all its indices. *)
Lemma msum_hsum ds : msum ds = hsum ds (seq 0 (length ds)).
Proof.
  unfold hsum, msum.
  assert (∀ es n, (∀ i d, es !! i = Some d → ds !! (n + i)%nat = Some d) →
    window_sum id es = point_sum (term ds <$> seq n (length es))) as HI.
  { induction es as [|e es IH]; intros n Hn; [done|].
    change (ed_add (ed_mul e.1 e.2) (window_sum id es) =
      ed_add (term ds n) (point_sum (term ds <$> seq (S n) (length es)))).
    rewrite (term_lookup ds n e) by (rewrite <- (Hn 0%nat e eq_refl); f_equal; lia).
    rewrite (IH (S n)); [done|]. intros i d Hd. rewrite <- (Hn (S i) d Hd). f_equal. lia. }
  by apply HI.
Qed.

(** ** The order of the heap *)

Section heap.
Context `{HP : Heap} {HPL : HeapLaws HP}.

Definition scalar_below (ds : list (Z * point)) (heap : list nat) : Prop :=
  ∀ i, i ∈ heap → is_Some (ds !! i).

Lemma Comp_ok ds data i j :
  data_is ds data → is_Some (ds !! i) → is_Some (ds !! j) →
  Comp data i j = (size_of ds i <? size_of ds j).
Proof.
  intros HD [d Hd] [e He]. unfold Comp.
  destruct (Forall2_lookup_l _ _ _ _ _ HD Hd) as (x & -> & [Hb Hv _]).
  destruct (Forall2_lookup_l _ _ _ _ _ HD He) as (y & -> & [Hb' Hv' _]).
  rewrite key_lt_ok by done. by rewrite Hv, Hv', (size_lookup _ _ _ Hd), (size_lookup _ _ _ He).
Qed.

Lemma Comp_order ds data heap :
  data_is ds data → scalar_below ds heap → weak_order (Comp data) heap.
Proof.
  intros HD HR. split.
  - intros x y Hx Hy. rewrite !(Comp_ok ds) by auto. rewrite Z.ltb_lt, Z.ltb_ge. lia.
  - intros x y z Hx Hy Hz. rewrite !(Comp_ok ds) by auto. rewrite !Z.ltb_ge. lia.
Qed.

Lemma is_heap_ext c c' l :
  (∀ x y, x ∈ l → y ∈ l → c x y = c' x y) → is_heap c l → is_heap c' l.
Proof.
  intros E HH i p x Hi Hx Hp. rewrite <- E; [by apply (HH i)|..]; by eapply list_elem_of_lookup_2.
Qed.

(** A pop: the index taken has a largest scalar. *)
Lemma heap_take_ok ds data heap :
  data_is ds data → scalar_below ds heap → is_heap (Comp data) heap → heap ≠ [] →
  ∃ i heap', heap_take data heap = Some (i, heap') ∧ i :: heap' ≡ₚ heap ∧
    is_heap (Comp data) heap' ∧ ∀ j, j ∈ heap' → size_of ds j ≤ size_of ds i.
Proof.
  intros HD HR HH Hne.
  destruct (pop_heap_spec (Comp data) heap (Comp_order _ _ _ HD HR) HH Hne)
    as (l & x & E & HPm & Hl & Hmax).
  exists x, l. unfold heap_take. rewrite E, length_app. cbn [length].
  replace (length l + 1 - 1)%nat with (length l) by lia.
  rewrite lookup_app_r, Nat.sub_diag by lia. cbn [lookup list_lookup mbind option_bind].
  rewrite take_app_length. split; [done|].
  assert (x :: l ≡ₚ heap) as HPx by (rewrite <- HPm; by rewrite Permutation_app_comm).
  split; [exact HPx|]. split; [exact Hl|]. intros j Hj. specialize (Hmax j Hj).
  rewrite (Comp_ok ds) in Hmax; [by apply Z.ltb_ge in Hmax|exact HD|..]; apply HR; rewrite <- HPx.
  - by left.
  - by right.
Qed.

Lemma heap_put_ok ds data i heap :
  data_is ds data → scalar_below ds (i :: heap) → is_heap (Comp data) heap →
  heap_put data i heap ≡ₚ i :: heap ∧ is_heap (Comp data) (heap_put data i heap).
Proof.
  intros HD HR HH. unfold heap_put. destruct (push_heap_spec (Comp data) heap i) as [H1 H2].
  - apply (Comp_order ds); [done|]. intros j Hj. apply HR. rewrite elem_of_app in Hj.
    destruct Hj as [Hj|Hj]; [by right|]. apply list_elem_of_singleton in Hj as ->. by left.
  - exact HH.
  - split; [|exact H2]. rewrite H1. by rewrite Permutation_app_comm.
Qed.

(** The comparison only reads the scalars of the elements. *)
Lemma Comp_frame ds ds' data data' heap :
  data_is ds data → data_is ds' data' → scalar_below ds heap → (∀ i, i ∈ heap → ds' !! i = ds !! i) →
  is_heap (Comp data) heap → is_heap (Comp data') heap.
Proof.
  intros HD HD' HR E. apply is_heap_ext. intros x y Hx Hy.
  rewrite (Comp_ok ds), (Comp_ok ds') by (done || (try rewrite E; auto)).
  unfold size_of. by rewrite !E.
Qed.

End heap.

(** ** Halving *)

Lemma land_1 b : Z.land b 1 = b mod 2.
Proof. exact (Z.land_ones b 1 ltac:(lia)). Qed.

Lemma div2_byte (P A b c x c' : Z) :
  b + 256 * c = 2 * x + c' → (A + P * b + P * 256 * c) / 2 = (A + c' * P) / 2 + P * x.
Proof.
  intros E. replace (A + P * b + P * 256 * c) with (A + c' * P + (P * x) * 2).
  - apply Z.div_add. lia.
  - replace (P * b + P * 256 * c) with (P * (b + 256 * c)) by ring. nia.
Qed.

Lemma div2_loop_ok n k res c :
  bytes32 k → (n ≤ 32)%nat → length res = 32%nat → 0 ≤ c ≤ 1 →
  div2_loop n k res (128 * c) =
    le_split n ((le_combine (take n k) + c * 256 ^ Z.of_nat n) / 2) ++ drop n res.
Proof.
  intros [HL HB]. revert res c. induction n as [|n IH]; intros res c Hn Hres Hc; [done|].
  cbn [div2_loop].
  assert (k !! n = Some (k !!! n)) as Ek by (apply list_lookup_lookup_total_lt; lia).
  pose proof (Forall_lookup_1 _ _ _ _ HB Ek) as Hb. cbv beta in Hb.
  set (b := k !!! n) in *. set (x := b / 2 + 128 * c).
  assert (0 ≤ x < 256) as Hx by (unfold x; zlia).
  rewrite (uwrap_id 8 x) by exact Hx.
  replace (Z.shiftl (Z.land b 1) 7) with (128 * (b mod 2)).
  2: { rewrite land_1, Z.shiftl_mul_pow2 by lia. change (2 ^ 7) with 128. ring. }
  rewrite IH; [|lia|by rewrite length_insert|zlia].
  rewrite (take_S_r _ _ _ Ek), le_combine_app, length_take, Nat.min_l by lia.
  cbn [le_combine]. rewrite Z.mul_0_r, Z.add_0_r, pow256_succ.
  assert (0 ≤ le_combine (take n k) < 256 ^ Z.of_nat n) as HA.
  { pose proof (le_combine_bound (take n k)) as HA. rewrite length_take, Nat.min_l in HA by lia.
    apply HA. by apply Forall_take. }
  replace (c * (256 * 256 ^ Z.of_nat n)) with (256 ^ Z.of_nat n * 256 * c) by ring.
  rewrite (div2_byte _ _ b c x (b mod 2)) by (unfold x; zlia).
  replace (S n) with (n + 1)%nat by lia. rewrite le_split_app.
  2: { assert (0 ≤ b mod 2 * 256 ^ Z.of_nat n ≤ 256 ^ Z.of_nat n) as Hm by
         (pose proof (Z.mod_pos_bound b 2 ltac:(lia)); nia).
       set (m := b mod 2 * 256 ^ Z.of_nat n) in *. clearbody m. zlia. }
  rewrite <- app_assoc. f_equal. cbn [le_split app].
  rewrite Z.mod_small by exact Hx.
  rewrite (drop_S _ x n) by (apply list_lookup_insert_eq; lia).
  rewrite drop_insert_lt by lia. by replace (n + 1)%nat with (S n) by lia.
Qed.

Lemma div2_ok k : bytes32 k → bytes32 (div2 k) ∧ le_combine (div2 k) = le_combine k / 2.
Proof.
  intros Hk. unfold div2.
  pose proof (div2_loop_ok 32 k (replicate 32 0) 0 Hk ltac:(lia) eq_refl ltac:(lia)) as E.
  rewrite Z.mul_0_r in E. rewrite E. destruct Hk as [HL HB].
  rewrite take_ge, drop_ge, app_nil_r by (rewrite ?length_replicate; lia).
  split; [split; [apply length_le_split|apply bytes_le_split]|].
  rewrite le_combine_split. pose proof (le_combine_bound k HB) as Hr. rewrite HL in Hr.
  rewrite Z.mul_0_l, Z.add_0_r. apply Z.mod_small. zlia.
Qed.

(** Bit 0 of a key *)
Lemma key_odd k : bytes32 k → negb (Z.land (k !!! 0%nat) 1 =? 0) = Z.odd (le_combine k).
Proof.
  intros [HL HB]. destruct k as [|b k]; [done|].
  change ((b :: k) !!! 0%nat) with b. cbn [le_combine].
  rewrite land_1, Zmod_odd.
  replace (b + 256 * le_combine k) with (b + 2 * (128 * le_combine k)) by ring.
  rewrite Z.odd_add_mul_2. by destruct (Z.odd b).
Qed.

(** ** Weights, for the termination of the robust version *)

Definition weight (s : Z) : Z := 2 * Z.log2_up s + 1.

Lemma weight_pos s : 0 < weight s.
Proof. unfold weight. pose proof (Z.log2_up_nonneg s). lia. Qed.

Lemma log2_up_double m : 0 < m → Z.log2_up (2 * m) = Z.log2_up m + 1.
Proof. intros Hm. rewrite Z.log2_up_double by lia. lia. Qed.

Lemma weight_half s : 2 ≤ s → weight (s / 2) ≤ weight s - 2.
Proof.
  intros Hs. unfold weight. assert (0 < s / 2) by zlia.
  pose proof (log2_up_double (s / 2) ltac:(lia)).
  pose proof (Z.log2_up_le_mono (2 * (s / 2)) s ltac:(zlia)). lia.
Qed.

(** A difference with at least half of the scalar *)
Lemma weight_sub s1 s2 :
  0 < s2 → s1 / 2 ≤ s2 → 0 < s1 - s2 → weight (s1 - s2) ≤ weight s1 - 2.
Proof.
  intros H2 Hh Hd. unfold weight.
  pose proof (Z.log2_up_le_mono (s1 - s2) ((s1 + 1) / 2) ltac:(zlia)).
  assert (0 < (s1 + 1) / 2) by zlia.
  pose proof (log2_up_double ((s1 + 1) / 2) ltac:(lia)) as E.
  assert (Z.log2_up (2 * ((s1 + 1) / 2)) = Z.log2_up s1).
  { destruct (Z.even s1) eqn:Ev.
    - apply Z.even_spec in Ev as [m ->]. f_equal. zlia.
    - assert (Z.odd s1 = true) as Ho by (by rewrite <- Z.negb_even, Ev).
      apply Z.odd_spec in Ho as [m ->].
      replace (2 * ((2 * m + 1 + 1) / 2)) with (2 * (m + 1)) by zlia.
      rewrite log2_up_double, Z.log2_up_succ_double by lia.
      rewrite (Z.log2_up_eqn (m + 1)) by lia. replace (Z.pred (m + 1)) with m by lia. lia. }
  lia.
Qed.

(** ** One iteration *)

Section bos_coster_spec.
Context `{HP : Heap} {HPL : HeapLaws HP}.

Record state_is (ds : list (Z * point)) (data : list MultiexpData) (heap : list nat) : Prop := {
  bs_data : data_is ds data;
  bs_nodup : NoDup heap;
  bs_small : ∀ i, i ∈ heap → ∃ d, ds !! i = Some d ∧ d.1 < L;
  bs_heap : is_heap (Comp data) heap
}.

Lemma state_range ds data heap : state_is ds data heap → scalar_below ds heap.
Proof. intros [_ _ HS _] i Hi. destruct (HS i Hi) as (d & E & _). by exists d. Qed.

Lemma state_frame ds data ds' data' heap :
  state_is ds data heap → data_is ds' data' → (∀ i, i ∈ heap → ds' !! i = ds !! i) →
  state_is ds' data' heap.
Proof.
  intros HS HD' E. pose proof (state_range _ _ _ HS) as HR. destruct HS as [HD HN HS HH].
  split; [done|done|..].
  - intros i Hi. rewrite E by done. by apply HS.
  - by apply (Comp_frame ds ds' data).
Qed.

Lemma state_put ds data heap i d :
  state_is ds data heap → i ∉ heap → ds !! i = Some d → d.1 < L →
  state_is ds data (heap_put data i heap) ∧ heap_put data i heap ≡ₚ i :: heap.
Proof.
  intros HS Hi Ed Hd. pose proof (state_range _ _ _ HS) as HR. destruct HS as [HD HN HS HH].
  destruct (heap_put_ok ds data i heap) as [H1 H2]; [done| |done|].
  { intros j Hj. apply elem_of_cons in Hj as [->|Hj]; [by exists d|by apply HR]. }
  split; [|done]. split; [done|rewrite H1; by constructor| |done].
  intros j Hj. rewrite H1 in Hj. apply elem_of_cons in Hj as [->|Hj]; [by exists d|by apply HS].
Qed.

Lemma state_take ds data heap :
  state_is ds data heap → heap ≠ [] →
  ∃ i heap' d, heap_take data heap = Some (i, heap') ∧ i :: heap' ≡ₚ heap ∧
    state_is ds data heap' ∧ i ∉ heap' ∧ ds !! i = Some d ∧ d.1 < L ∧
    ∀ j, j ∈ heap' → size_of ds j ≤ d.1.
Proof.
  intros HS Hne. pose proof (state_range _ _ _ HS) as HR. destruct HS as [HD HN HS HH].
  destruct (heap_take_ok ds data heap HD HR HH Hne) as (i & heap' & E & HPm & HH' & Hmax).
  assert (i ∈ heap) as Hi by (rewrite <- HPm; by left).
  destruct (HS i Hi) as (d & Ed & Hd). exists i, heap', d.
  rewrite <- HPm in HN. inversion_clear HN as [|? ? Hni HN2].
  split_and!; [done|done| |done|done|done|].
  - split; [done|done| |done]. intros j Hj. apply HS. rewrite <- HPm. by right.
  - intros j Hj. rewrite <- (size_lookup _ _ _ Ed). by apply Hmax.
Qed.

Lemma data_is_insert ds data i d x :
  data_is ds data → pair_is d x → data_is (<[i := d]> ds) (<[i := x]> data).
Proof. intros HD Hx. by apply Forall2_insert. Qed.

Lemma key_eqb_zero v : 0 ≤ v < L → key_eqb (to_scalar v) zero = (v =? 0).
Proof.
  intros Hv. destruct (Z.eqb_spec v 0) as [->|Hne].
  - apply key_eqb_eq. vm_compute. reflexivity.
  - apply bool_decide_eq_false. intros E. apply (f_equal le_combine) in E.
    rewrite le_combine_to_scalar, Z.mod_small in E by done. by rewrite (proj2 zero_bytes32) in E.
Qed.

(** [s1 P1 + s2 P2 = (s1 - s2) P1 + s2 (P2 + P1)] *)
Lemma combine_points s1 s2 P1 P2 :
  on_curve P1 → on_curve P2 →
  ed_add (ed_mul (s1 - s2) P1) (ed_mul s2 (ed_add P2 P1)) =
  ed_add (ed_mul s1 P1) (ed_mul s2 P2).
Proof.
  intros H1 H2. rewrite ed_mul_add_point, (ed_add_comm (ed_mul s2 P2)) by done.
  rewrite ed_add_assoc, <- ed_mul_add by auto with edwards. do 2 f_equal. lia.
Qed.

Lemma bos_coster_add_ok ds data heap i1 i2 s1 s2 P1 P2 :
  state_is ds data heap → i1 ∉ heap → i2 ∉ heap → i1 ≠ i2 →
  ds !! i1 = Some (s1, P1) → ds !! i2 = Some (s2, P2) → 0 ≤ s2 ≤ s1 → s1 < L →
  let ds' := <[i1 := (s1 - s2, P1)]> (<[i2 := (s2, ed_add P2 P1)]> ds) in
  ∃ data' heap', bos_coster_add data heap i1 i2 = Some (data', heap') ∧ state_is ds' data' heap' ∧
    heap' ≡ₚ i2 :: (if s1 - s2 =? 0 then heap else i1 :: heap) ∧
    hsum ds' heap' = ed_add (hsum ds heap) (ed_add (ed_mul s1 P1) (ed_mul s2 P2)).
Proof.
  intros HS Hi1 Hi2 Hne E1 E2 H12 HL ds'. pose proof (bs_data _ _ _ HS) as HD.
  destruct (Forall2_lookup_l _ _ _ _ _ HD E1) as (x1 & X1 & [B1 V1 Q1]).
  destruct (Forall2_lookup_l _ _ _ _ _ HD E2) as (x2 & X2 & [B2 V2 Q2]). cbn [fst snd] in *.
  unfold bos_coster_add. step X1. step X2.
  destruct (add_p3_ok _ _ _ _ Q2 Q1) as (q & Eq & Hq). step Eq.
  assert (sc_sub (md_scalar x1) (md_scalar x2) = Some (to_scalar (s1 - s2))) as Es.
  { destruct B1, B2. rewrite sc_sub_ok, V1, V2 by done. reflexivity. }
  step Es. rewrite key_eqb_zero by lia.
  set (data' := <[i1 := {| md_scalar := to_scalar (s1 - s2); md_point := md_point x1 |}]>
    (<[i2 := {| md_scalar := md_scalar x2; md_point := q |}]> data)).
  assert (data_is ds' data') as HD'.
  { apply data_is_insert; [apply data_is_insert|]; [exact HD|by split|]. split; cbn [md_scalar md_point fst snd].
    - apply scalar_bytes32, to_scalar_scalar.
    - rewrite le_combine_to_scalar. apply Z.mod_small. lia.
    - exact Q1. }
  assert (∀ i, i ∈ heap → ds' !! i = ds !! i) as Hframe.
  { intros i Hi. unfold ds'. rewrite !list_lookup_insert_ne; [done|..]; by intros ->. }
  pose proof (state_frame _ _ _ _ _ HS HD' Hframe) as HS'.
  assert (i1 < length ds ∧ i2 < length ds)%nat as [Hl1 Hl2]
    by (split; by eapply lookup_lt_Some).
  assert (ds' !! i1 = Some (s1 - s2, P1)) as F1
    by (unfold ds'; apply list_lookup_insert_eq; by rewrite length_insert).
  assert (ds' !! i2 = Some (s2, ed_add P2 P1)) as F2
    by (unfold ds'; rewrite list_lookup_insert_ne by done; by apply list_lookup_insert_eq).
  pose proof (proj1 Q1) as C1. pose proof (proj1 Q2) as C2.
  assert (good_pairs ds ∧ good_pairs ds') as [HG HG'] by (split; by eapply data_is_good).
  rewrite <- (combine_points s1 s2 P1 P2 C1 C2), <- (hsum_ext ds' ds heap Hframe).
  destruct (Z.eqb_spec (s1 - s2) 0) as [E0|E0]; cbn [negb].
  - destruct (state_put ds' data' heap i2 _ HS' Hi2 F2 ltac:(cbn; lia)) as [HS2 HP2].
    eexists _, _. split; [reflexivity|]. split; [exact HS2|]. split; [exact HP2|].
    rewrite (hsum_perm _ _ _ HG' HP2), hsum_cons, (term_lookup _ _ _ F2), E0. cbn [fst snd ed_mul].
    rewrite ed_add_0_l. apply ed_add_comm.
  - destruct (state_put ds' data' heap i1 _ HS' Hi1 F1 ltac:(cbn; lia)) as [HS1 HP1].
    assert (i2 ∉ heap_put data' i1 heap) as Hni
      by (rewrite HP1, elem_of_cons; intros [->|?]; done).
    destruct (state_put ds' data' _ i2 _ HS1 Hni F2 ltac:(cbn; lia)) as [HS2 HP2].
    eexists _, _. split; [reflexivity|]. split; [exact HS2|].
    assert (heap_put data' i2 (heap_put data' i1 heap) ≡ₚ i2 :: i1 :: heap) as HPm
      by (rewrite HP2; by rewrite HP1).
    split; [exact HPm|].
    rewrite (hsum_perm _ _ _ HG' HPm), !hsum_cons, (term_lookup _ _ _ F2), (term_lookup _ _ _ F1).
    cbn [fst snd]. rewrite ed_add_assoc by auto with edwards.
    rewrite ed_add_comm. f_equal. apply ed_add_comm.
Qed.

(** ** Halving the largest scalar *)

Definition positive_sizes (ds : list (Z * point)) (heap : list nat) : Prop :=
  ∀ i, i ∈ heap → 0 < size_of ds i.

Definition hweight (ds : list (Z * point)) (heap : list nat) : Z :=
  zsum ((λ i, weight (size_of ds i)) <$> heap).

Lemma hweight_perm ds h h' : h ≡ₚ h' → hweight ds h = hweight ds h'.
Proof. intros HPm. apply zsum_perm. by rewrite HPm. Qed.

Lemma hweight_cons ds i h : hweight ds (i :: h) = weight (size_of ds i) + hweight ds h.
Proof. done. Qed.

Lemma hweight_ext ds ds' h : (∀ i, i ∈ h → ds !! i = ds' !! i) → hweight ds h = hweight ds' h.
Proof.
  intros E. unfold hweight. f_equal. apply list_fmap_ext. intros j i Hi. unfold size_of.
  by rewrite E by (by eapply list_elem_of_lookup_2).
Qed.

Lemma hweight_nonneg ds h : Z.of_nat (length h) ≤ hweight ds h.
Proof.
  induction h as [|i h IH]; [done|]. rewrite hweight_cons. cbn [length].
  pose proof (weight_pos (size_of ds i)). lia.
Qed.

(** [s P = (s / 2) (2 P)], and one more [P] when [s] is odd *)
Lemma halve_points s P :
  on_curve P →
  ed_mul s P = ed_add (ed_mul (s / 2) (ed_add P P)) (if Z.odd s then P else ed_zero).
Proof.
  intros HC. assert (ed_add P P = ed_mul 2 P) as E2
    by (change 2 with (1 + 1); by rewrite ed_mul_add, ed_mul_1).
  rewrite E2, ed_mul_mul by done. pose proof (Zmod_odd s) as Eo. destruct (Z.odd s).
  - replace (ed_add (ed_mul (s / 2 * 2) P) P) with (ed_mul (s / 2 * 2 + 1) P)
      by (by rewrite ed_mul_add, ed_mul_1). f_equal. zlia.
  - rewrite ed_add_0_r. f_equal. zlia.
Qed.

(** The optional push of an odd bit *)
Lemma odd_push_ok ds data heap s1 P1 x1 :
  state_is ds data heap → pair_is (s1, P1) x1 →
  ∃ ds1 data1 heap1,
    push_odd data heap x1 = (data1, heap1) ∧
    state_is ds1 data1 heap1 ∧ (∀ i d, ds !! i = Some d → ds1 !! i = Some d) ∧
    (∀ i, i ∈ heap1 → i ∈ heap ∨ ds !! i = None ∧ size_of ds1 i = 1) ∧
    hsum ds1 heap1 = ed_add (hsum ds heap) (if Z.odd s1 then P1 else ed_zero) ∧
    hweight ds1 heap1 ≤ hweight ds heap + 1.
Proof.
  intros HS Hx. destruct Hx as [B1 V1 Q1]. cbn [fst snd] in *. unfold push_odd.
  rewrite (key_odd _ B1), V1. destruct (Z.odd s1).
  2: { exists ds, data, heap. rewrite ed_add_0_r. split_and!; [done..| |done|lia]. intros; by left. }
  pose proof (bs_data _ _ _ HS) as HD. pose proof (Forall2_length HD) as HLen.
  set (data1 := data ++ [{| md_scalar := rct_identity; md_point := md_point x1 |}]).
  set (ds1 := ds ++ [(1, P1)]).
  assert (length data1 - 1 = length ds)%nat as Elen
    by (unfold data1; rewrite length_app; cbn; lia).
  assert (data_is ds1 data1) as HD1.
  { apply Forall2_app; [exact HD|]. constructor; [|constructor].
    split; [|reflexivity|exact Q1]. split; [reflexivity|].
    apply (bool_decide_unpack _). vm_compute. exact I. }
  assert (∀ i d, ds !! i = Some d → ds1 !! i = Some d) as Hext by (intros; by apply lookup_app_l_Some).
  assert (∀ i, i ∈ heap → ds1 !! i = ds !! i) as Hframe.
  { intros i Hi. destruct (state_range _ _ _ HS i Hi) as [d Ed]. rewrite Ed. by apply Hext. }
  pose proof (state_frame _ _ _ _ _ HS HD1 Hframe) as HS1.
  assert (length ds ∉ heap) as Hni.
  { intros Hi. destruct (state_range _ _ _ HS _ Hi) as [d Ed]. apply lookup_lt_Some in Ed. lia. }
  assert (ds1 !! length ds = Some (1, P1)) as F by (unfold ds1; by rewrite lookup_app_r, Nat.sub_diag by lia).
  pose proof L_range.
  destruct (state_put ds1 data1 heap (length ds) _ HS1 Hni F ltac:(cbn; lia)) as [HS2 HP2].
  exists ds1, data1. eexists. cbv zeta. fold data1. rewrite Elen. split; [reflexivity|].
  split; [exact HS2|]. split; [exact Hext|].
  assert (good_pairs ds1) as HG1 by (by eapply data_is_good). split_and!.
  - intros i Hi. rewrite HP2 in Hi. apply elem_of_cons in Hi as [->|Hi]; [right|by left].
    split; [by apply lookup_ge_None|by apply (size_lookup _ _ _ F)].
  - rewrite (hsum_perm _ _ _ HG1 HP2), hsum_cons, (term_lookup _ _ _ F), (hsum_ext ds1 ds heap) by done.
    cbn [fst snd]. rewrite ed_mul_1. apply ed_add_comm.
  - rewrite (hweight_perm _ _ _ HP2), hweight_cons, (size_lookup _ _ _ F), (hweight_ext ds1 ds heap) by done.
    cbn [fst]. change (weight 1) with 1. lia.
Qed.

(** What the halving leaves: the same sum, scalars within a factor of two, no more weight *)
Record halved (ds : list (Z * point)) (heap : list nat) (i1 i2 : nat) (s1 s2 : Z) (P1 P2 : point)
    (ds' : list (Z * point)) (data' : list MultiexpData) (heap' : list nat) : Prop := {
  hv_state : state_is ds' data' heap';
  hv_out1 : i1 ∉ heap';
  hv_out2 : i2 ∉ heap';
  hv_second : ds' !! i2 = Some (s2, P2);
  hv_positive : positive_sizes ds heap → positive_sizes ds' heap';
  hv_first : ∃ s P, ds' !! i1 = Some (s, P) ∧ s2 ≤ s ≤ s1 ∧ s / 2 ≤ s2 ∧
    ed_add (hsum ds' heap') (ed_mul s P) = ed_add (hsum ds heap) (ed_mul s1 P1) ∧
    hweight ds' heap' + weight s ≤ hweight ds heap + weight s1
}.

Lemma bos_coster_div_ok n ds data heap i1 i2 s1 s2 P1 P2 :
  state_is ds data heap → i1 ∉ heap → i2 ∉ heap → i1 ≠ i2 →
  ds !! i1 = Some (s1, P1) → ds !! i2 = Some (s2, P2) → 0 < s2 ≤ s1 → s1 < L →
  s1 < 2 ^ Z.of_nat n →
  ∃ ds' data' heap', bos_coster_div (S n) data heap i1 i2 = Some (data', heap') ∧
    halved ds heap i1 i2 s1 s2 P1 P2 ds' data' heap'.
Proof.
  revert ds data heap s1 P1. induction n as [|n IH]; intros ds data heap s1 P1 HS Hi1 Hi2 Hne E1 E2 H12 HL Hn.
  { cbn in Hn. lia. }
  pose proof (bs_data _ _ _ HS) as HD.
  destruct (Forall2_lookup_l _ _ _ _ _ HD E1) as (x1 & X1 & Hx1).
  destruct (Forall2_lookup_l _ _ _ _ _ HD E2) as (x2 & X2 & [B2 V2 Q2]).
  pose proof Hx1 as [B1 V1 Q1]. cbn [fst snd] in *.
  destruct (div2_ok _ B1) as [Bd Vd]. rewrite V1 in Vd.
  set (m := S n). cbn [bos_coster_div]. step X1. step X2.
  rewrite (key_lt_ok _ _ B2 Bd), V2, Vd.
  destruct (Z.ltb_spec s2 (s1 / 2)) as [Hlt|Hge]; cbn [negb].
  2: { exists ds, data, heap. split; [done|]. split; [done..|]. exists s1, P1. split_and!; (done || lia). }
  destruct (odd_push_ok ds data heap s1 P1 x1 HS Hx1)
    as (ds1 & data1 & heap1 & Epush & HS1 & Hext & Hnew & Hsum1 & Hw1).
  rewrite Epush. cbv beta iota.
  destruct (ge_p2_dbl_ok _ _ (ge_p3_to_p2_ok _ _ Q1)) as (t & Et & Ht). step Et.
  destruct (ge_p1p1_to_p3_ok _ _ Ht) as (q & Eq & Hq). step Eq.
  set (data2 := <[i1 := {| md_scalar := div2 (md_scalar x1); md_point := q |}]> data1).
  set (ds2 := <[i1 := (s1 / 2, ed_add P1 P1)]> ds1).
  assert (data_is ds2 data2) as HD2
    by (apply data_is_insert; [exact (bs_data _ _ _ HS1)|]; by split).
  assert (∀ i, ds !! i ≠ None → i ∉ heap → i ∉ heap1) as Hout.
  { intros i H1 H2 Hi. destruct (Hnew i Hi) as [|[? _]]; done. }
  assert (i1 ∉ heap1) as Hi1' by (apply Hout; [by rewrite E1|done]).
  assert (i2 ∉ heap1) as Hi2' by (apply Hout; [by rewrite E2|done]).
  assert (∀ i, i ∈ heap1 → ds2 !! i = ds1 !! i) as Hframe.
  { intros i Hi. unfold ds2. apply list_lookup_insert_ne. by intros ->. }
  pose proof (state_frame _ _ _ _ _ HS1 HD2 Hframe) as HS2.
  assert (ds2 !! i1 = Some (s1 / 2, ed_add P1 P1)) as F1
    by (apply list_lookup_insert_eq; eapply lookup_lt_Some, Hext, E1).
  assert (ds2 !! i2 = Some (s2, P2)) as F2
    by (unfold ds2; rewrite list_lookup_insert_ne by done; by apply Hext).
  destruct (IH ds2 data2 heap1 (s1 / 2) (ed_add P1 P1)) as (ds' & data' & heap' & E & HV);
    [exact HS2|exact Hi1'|exact Hi2'|exact Hne|exact F1|exact F2|lia|zlia|
     rewrite pow2_nat_succ in Hn; zlia|].
  exists ds', data', heap'. split; [exact E|]. destruct HV as [V1' V2' V3' V4' V5' V6'].
  split; [done..| |].
  - intros HPos. apply V5'. intros i Hi. unfold size_of. rewrite Hframe by done.
    fold (size_of ds1 i). destruct (Hnew i Hi) as [Hi'|[_ ->]]; [|lia].
    destruct (state_range _ _ _ HS i Hi') as [d Ed]. rewrite (size_lookup _ _ _ (Hext _ _ Ed)).
    rewrite <- (size_lookup _ _ _ Ed). by apply HPos.
  - destruct V6' as (s & P & Es & Hs & Hh & Hsum & Hw). exists s, P.
    rewrite (hsum_ext ds2 ds1 heap1 Hframe) in Hsum. rewrite (hweight_ext ds2 ds1 heap1 Hframe) in Hw.
    split_and!; [done|lia|zlia|done| |].
    + rewrite Hsum, Hsum1, (halve_points s1 P1 (proj1 Q1)).
      assert (good_pairs ds) as HG by (by eapply data_is_good).
      pose proof (proj1 Q1) as HC1.
      assert (on_curve (if Z.odd s1 then P1 else ed_zero)) by (destruct Z.odd; auto with edwards).
      rewrite <- ed_add_assoc by auto with edwards. f_equal. apply ed_add_comm.
    + pose proof (weight_half s1 ltac:(zlia)). lia.
Qed.

(** The two largest elements, out of the heap *)
Lemma take_two ds data heap :
  state_is ds data heap → (1 < length heap)%nat →
  ∃ i1 i2 rest s1 s2 P1 P2,
    heap_take data heap ≫= (λ '(index1, heap), '(index2, heap) ← heap_take data heap;
      Some (index1, index2, heap)) = Some (i1, i2, rest) ∧
    i1 :: i2 :: rest ≡ₚ heap ∧ state_is ds data rest ∧ i1 ∉ rest ∧ i2 ∉ rest ∧ i1 ≠ i2 ∧
    ds !! i1 = Some (s1, P1) ∧ ds !! i2 = Some (s2, P2) ∧ 0 ≤ s2 ≤ s1 ∧ s1 < L ∧
    (∀ j, j ∈ rest → size_of ds j ≤ s2).
Proof.
  intros HS Hlen.
  destruct (state_take ds data heap HS) as (i1 & h1 & [s1 P1] & E1 & HP1 & HS1 & Hn1 & F1 & Hs1 & Hm1).
  { intros ->. cbn in Hlen. lia. }
  assert (length h1 = length heap - 1)%nat as HL1 by (rewrite <- HP1; cbn; lia).
  destruct (state_take ds data h1 HS1) as (i2 & h2 & [s2 P2] & E2 & HP2 & HS2 & Hn2 & F2 & Hs2 & Hm2).
  { intros ->. cbn in HL1. lia. }
  exists i1, i2, h2, s1, s2, P1, P2. rewrite E1. cbn [mbind option_bind]. rewrite E2. cbn [mbind option_bind].
  split; [done|]. split; [by rewrite HP2|]. split; [done|].
  assert (i2 ∈ h1) as Hi2 by (rewrite <- HP2; by left).
  split_and!; [|done| |done|done| | |done|done].
  - intros Hi. apply Hn1. rewrite <- HP2. by right.
  - by intros ->.
  - pose proof (data_is_good _ _ (bs_data _ _ _ HS)) as HG.
    destruct (Forall_lookup_1 _ _ _ _ HG F2) as [[? _] _]. done.
  - specialize (Hm1 i2 Hi2). by rewrite (size_lookup _ _ _ F2) in Hm1.
Qed.

Lemma hsum_two ds data i1 i2 rest heap s1 s2 P1 P2 :
  data_is ds data → i1 :: i2 :: rest ≡ₚ heap →
  ds !! i1 = Some (s1, P1) → ds !! i2 = Some (s2, P2) →
  hsum ds heap = ed_add (hsum ds rest) (ed_add (ed_mul s1 P1) (ed_mul s2 P2)) ∧
  on_curve P1 ∧ on_curve P2 ∧
  hweight ds heap = hweight ds rest + weight s1 + weight s2.
Proof.
  intros HD HPm F1 F2. pose proof (data_is_good _ _ HD) as HG.
  destruct (Forall_lookup_1 _ _ _ _ HG F1) as [_ C1]. destruct (Forall_lookup_1 _ _ _ _ HG F2) as [_ C2].
  cbn [fst snd] in *. split_and!; [|done|done|].
  - rewrite <- (hsum_perm _ _ _ HG HPm), !hsum_cons, (term_lookup _ _ _ F1), (term_lookup _ _ _ F2).
    cbn [fst snd]. rewrite ed_add_assoc by auto with edwards. apply ed_add_comm.
  - rewrite <- (hweight_perm _ _ _ HPm), !hweight_cons, (size_lookup _ _ _ F1), (size_lookup _ _ _ F2).
    cbn [fst]. lia.
Qed.

Lemma bind_two {A} (data : list MultiexpData) heap i1 i2 rest (f : nat → nat → list nat → option A) :
  heap_take data heap ≫= (λ '(index1, heap), '(index2, heap) ← heap_take data heap;
    Some (index1, index2, heap)) = Some (i1, i2, rest) →
  ('(index1, heap) ← heap_take data heap; '(index2, heap) ← heap_take data heap;
    f index1 index2 heap) = f i1 i2 rest.
Proof.
  destruct (heap_take data heap) as [[j1 h1]|]; [|done]. cbn [mbind option_bind].
  destruct (heap_take data h1) as [[j2 h2]|]; [|done]. cbn [mbind option_bind].
  by intros [= -> -> ->].
Qed.

Lemma bos_coster_robust_step_ok ds data heap :
  state_is ds data heap → positive_sizes ds heap → (1 < length heap)%nat →
  ∃ ds' data' heap', bos_coster_robust_step data heap = Some (data', heap') ∧
    state_is ds' data' heap' ∧ positive_sizes ds' heap' ∧ heap' ≠ [] ∧
    hsum ds' heap' = hsum ds heap ∧ hweight ds' heap' < hweight ds heap.
Proof.
  intros HS HPos Hlen. pose proof (bs_data _ _ _ HS) as HD.
  destruct (take_two ds data heap HS Hlen)
    as (i1 & i2 & rest & s1 & s2 & P1 & P2 & E & HPm & HSr & Hn1 & Hn2 & Hne & F1 & F2 & H12 & HL & _).
  destruct (hsum_two ds data i1 i2 rest heap s1 s2 P1 P2 HD HPm F1 F2) as (Hsum & C1 & C2 & Hw).
  unfold bos_coster_robust_step.
  rewrite (bind_two data heap i1 i2 rest (λ index1 index2 heap,
    '(data, heap) ← bos_coster_div 256 data heap index1 index2;
    bos_coster_add data heap index1 index2) E).
  assert (0 < s2) as Hs2.
  { assert (i2 ∈ heap) as Hi2 by (rewrite <- HPm; right; by left).
    specialize (HPos i2 Hi2). by rewrite (size_lookup _ _ _ F2) in HPos. }
  assert (positive_sizes ds rest) as HPr by (intros i Hi; apply HPos; rewrite <- HPm; by do 2 right).
  pose proof L_range.
  destruct (bos_coster_div_ok 255 ds data rest i1 i2 s1 s2 P1 P2)
    as (ds1 & data1 & h1 & E1 & [V1 V2 V3 V4 V5 (s & P & Es & Hs & Hh & Hs1 & Hw1)]);
    [done..|lia|lia|change (Z.of_nat 255) with 255; lia|].
  step E1.
  destruct (bos_coster_add_ok ds1 data1 h1 i1 i2 s s2 P P2) as (data2 & h2 & E2 & HS2 & HP2 & Hs2');
    [done..|lia|lia|].
  eexists _, data2, h2. split; [exact E2|]. split; [exact HS2|].
  pose proof (data_is_good _ _ (bs_data _ _ _ V1)) as HG1.
  destruct (Forall_lookup_1 _ _ _ _ HG1 Es) as [_ C]. cbn [fst snd] in C.
  set (ds2 := <[i1 := (s - s2, P)]> (<[i2 := (s2, ed_add P2 P)]> ds1)) in *.
  assert (i1 < length ds1 ∧ i2 < length ds1)%nat as [Hl1 Hl2] by (split; by eapply lookup_lt_Some).
  assert (ds2 !! i1 = Some (s - s2, P)) as G1
    by (unfold ds2; apply list_lookup_insert_eq; by rewrite length_insert).
  assert (ds2 !! i2 = Some (s2, ed_add P2 P)) as G2
    by (unfold ds2; rewrite list_lookup_insert_ne by done; by apply list_lookup_insert_eq).
  assert (∀ i, i ∈ h1 → ds2 !! i = ds1 !! i) as Hframe.
  { intros i Hi. unfold ds2. rewrite !list_lookup_insert_ne; [done|..]; by intros ->. }
  split_and!.
  - intros i Hi. rewrite HP2 in Hi. apply elem_of_cons in Hi as [->|Hi].
    { rewrite (size_lookup _ _ _ G2). done. }
    destruct (Z.eqb_spec (s - s2) 0) as [E0|E0].
    + unfold size_of. rewrite Hframe by done. by apply V5.
    + apply elem_of_cons in Hi as [->|Hi]; [rewrite (size_lookup _ _ _ G1); cbn; lia|].
      unfold size_of. rewrite Hframe by done. by apply V5.
  - intros ->. apply Permutation_nil_cons in HP2. done.
  - pose proof (data_is_good _ _ HD) as HG.
    rewrite Hs2', Hsum, ed_add_assoc, Hs1, <- ed_add_assoc by auto with edwards. done.
  - rewrite (hweight_perm _ _ _ HP2), hweight_cons, (size_lookup _ _ _ G2). cbn [fst].
    destruct (Z.eqb_spec (s - s2) 0) as [E0|E0].
    + rewrite (hweight_ext ds2 ds1 h1 Hframe). pose proof (weight_pos s). lia.
    + rewrite hweight_cons, (size_lookup _ _ _ G1), (hweight_ext ds2 ds1 h1 Hframe). cbn [fst].
      pose proof (weight_sub s s2 Hs2 Hh ltac:(lia)). lia.
Qed.

(** ** The loop *)

Lemma bos_coster_robust_loop_ok n ds data heap :
  state_is ds data heap → positive_sizes ds heap → heap ≠ [] → hweight ds heap < Z.of_nat n →
  ∃ ds' data' i, bos_coster_robust_loop n data heap = Some (data', [i]) ∧
    state_is ds' data' [i] ∧ hsum ds' [i] = hsum ds heap.
Proof.
  revert ds data heap. induction n as [|n IH]; intros ds data heap HS HPos Hne Hw.
  { pose proof (hweight_nonneg ds heap). lia. }
  cbn [bos_coster_robust_loop]. destruct (Nat.ltb_spec 1 (length heap)) as [Hlen|Hlen].
  - destruct (bos_coster_robust_step_ok ds data heap HS HPos Hlen)
      as (ds1 & data1 & h1 & E & HS1 & HP1 & Hne1 & Hs1 & Hw1).
    step E. destruct (IH ds1 data1 h1 HS1 HP1 Hne1 ltac:(lia)) as (ds2 & data2 & i & E2 & HS2 & Hs2).
    exists ds2, data2, i. rewrite Hs2. done.
  - destruct heap as [|i [|j heap]]; [done| |cbn in Hlen; lia]. by exists ds, data, i.
Qed.

Lemma bos_coster_end_ok ds data heap :
  state_is ds data heap → length heap = 1%nat →
  bos_coster_end data heap = Some (ed_encode (hsum ds heap)).
Proof.
  intros HS Hlen. pose proof (bs_data _ _ _ HS) as HD.
  destruct (state_take ds data heap HS) as (i & h & [s P] & E & HPm & _ & _ & F & Hs & _).
  { by intros ->. }
  assert (h = []) as -> by (destruct h; [done|]; rewrite <- HPm in Hlen; done).
  unfold bos_coster_end. step E. cbv beta iota.
  destruct (Forall2_lookup_l _ _ _ _ _ HD F) as (x & X & [[BL BB] V Q]). cbn [fst snd] in *. step X.
  rewrite (scalarmult_encode P (md_point x)); [|exact Q|].
  - pose proof (data_is_good _ _ HD) as HG.
    rewrite V, <- (hsum_perm _ _ _ HG HPm), hsum_cons, (term_lookup _ _ _ F). cbn [fst snd].
    by rewrite (ed_add_0_r (ed_mul s P) : ed_add (ed_mul s P) (hsum ds []) = _).
  - pose proof L_range. split; [exact BL|]. split; [exact BB|]. rewrite V. lia.
Qed.

Lemma hsum_filter (Q : nat → Prop) `{∀ i, Decision (Q i)} ds l :
  good_pairs ds → (∀ i, i ∈ l → ¬ Q i → term ds i = ed_zero) →
  hsum ds (filter Q l) = hsum ds l.
Proof.
  intros HG HZ. induction l as [|i l IH]; [done|].
  assert (hsum ds (filter Q l) = hsum ds l) as E by (apply IH; intros j Hj; apply HZ; by right).
  destruct (decide (Q i)) as [HQ|HQ].
  - rewrite filter_cons_True by done. by rewrite !hsum_cons, E.
  - rewrite filter_cons_False by done. rewrite hsum_cons, E, (HZ i) by (done || by left).
    by rewrite ed_add_0_l.
Qed.

Lemma make_heap_state ds data l :
  data_is ds data → NoDup l → (∀ i, i ∈ l → ∃ d, ds !! i = Some d ∧ d.1 < L) →
  state_is ds data (make_heap (Comp data) l) ∧ make_heap (Comp data) l ≡ₚ l.
Proof.
  intros HD HN HS. assert (scalar_below ds l) as HR by (intros i Hi; destruct (HS i Hi) as (d & E & _); by exists d).
  destruct (make_heap_spec (Comp data) l (Comp_order _ _ _ HD HR)) as [HPm HH].
  split; [|done]. split; [done|by rewrite HPm| |done]. intros i Hi. rewrite HPm in Hi. by apply HS.
Qed.

Lemma weight_max s : s < L → weight s ≤ 507.
Proof.
  intros Hs. unfold weight. pose proof L_range.
  assert (Z.log2_up s ≤ 253); [|lia]. destruct (Z.lt_ge_cases 0 s) as [H0|H0].
  - apply Z.log2_up_le_pow2; lia.
  - rewrite Z.log2_up_nonpos by lia. lia.
Qed.

Lemma hweight_max ds data heap :
  state_is ds data heap → hweight ds heap ≤ 507 * Z.of_nat (length heap).
Proof.
  intros [_ _ HS _]. revert HS. induction heap as [|i heap IH]; intros HS; [done|].
  rewrite hweight_cons. destruct (HS i ltac:(by left)) as (d & Ed & Hd).
  rewrite (size_lookup _ _ _ Ed). pose proof (weight_max _ Hd).
  specialize (IH ltac:(intros j Hj; apply HS; by right)). cbn [length]. lia.
Qed.

Lemma robust_indices_ok ds data :
  data_is ds data → Forall (λ d, d.1 < L) ds →
  NoDup (robust_indices data) ∧ (length (robust_indices data) ≤ length ds)%nat ∧
  (∀ i, i ∈ robust_indices data → ∃ d, ds !! i = Some d ∧ d.1 < L) ∧
  positive_sizes ds (robust_indices data) ∧ hsum ds (robust_indices data) = msum ds.
Proof.
  intros HD HL. pose proof (Forall2_length HD) as Hlen. pose proof (data_is_good _ _ HD) as HG.
  assert (∀ i, i ∈ seq 0 (length data) → ∃ d x, ds !! i = Some d ∧ data !! i = Some x ∧ pair_is d x) as HI.
  { intros i Hi. apply elem_of_seq in Hi.
    destruct (lookup_lt_is_Some_2 ds i ltac:(lia)) as [d Ed].
    destruct (Forall2_lookup_l _ _ _ _ _ HD Ed) as (x & Ex & Hx). by exists d, x. }
  assert (∀ d x, pair_is d x → key_eqb (md_scalar x) zero = (d.1 =? 0)) as HZ.
  { intros d x [[BL BB] V _]. destruct (Z.eqb_spec d.1 0) as [E|E].
    - apply key_eqb_eq. rewrite <- (le_split_combine _ BB), V, E, BL. vm_compute. reflexivity.
    - apply bool_decide_eq_false. intros E0. rewrite E0, (proj2 zero_bytes32) in V. lia. }
  unfold robust_indices. split_and!.
  - apply list.NoDup_filter, NoDup_seq.
  - etrans; [apply length_filter|]. rewrite length_seq. lia.
  - intros i Hi. apply list_elem_of_filter in Hi as [_ Hi]. destruct (HI i Hi) as (d & x & Ed & _).
    exists d. split; [done|]. exact (Forall_lookup_1 _ _ _ _ HL Ed).
  - intros i Hi. apply list_elem_of_filter in Hi as [Hk Hi]. destruct (HI i Hi) as (d & x & Ed & Ex & Hx).
    unfold robust_keep in Hk. rewrite Ex, (HZ d x Hx) in Hk. apply andb_true_iff in Hk as [Hk _].
    rewrite (size_lookup _ _ _ Ed). destruct (Forall_lookup_1 _ _ _ _ HG Ed) as [[H0 _] _].
    destruct (Z.eqb_spec d.1 0); [done|]. lia.
  - rewrite hsum_filter; [by rewrite msum_hsum, Hlen|done|].
    intros i Hi Hk. destruct (HI i Hi) as (d & x & Ed & Ex & Hx). rewrite (term_lookup _ _ _ Ed).
    unfold robust_keep in Hk. rewrite Ex, (HZ d x Hx) in Hk.
    destruct (Z.eqb_spec d.1 0) as [->|Hne]; [done|]. cbn [negb andb] in Hk.
    destruct (infinity_cases _ _ (pi_point _ _ Hx)) as [E|[_ ->]]; [by rewrite E in Hk|].
    apply ed_mul_zero.
Qed.

Lemma bos_coster_robust_ok n ds data :
  data_is ds data → Forall (λ d, d.1 < L) ds → ds ≠ [] → 507 * Z.of_nat (length ds) < Z.of_nat n →
  bos_coster_heap_conv_robust n data = Ret (ed_encode (msum ds)).
Proof.
  intros HD HL Hne Hn. pose proof (Forall2_length HD) as Hlen. unfold bos_coster_heap_conv_robust.
  assert (0 < length data)%nat as H0 by (destruct ds; [done|]; cbn in Hlen; lia).
  rewrite (bind_ret _ _ _ (throw_unless_true _ (proj2 (Nat.ltb_lt _ _) H0))).
  destruct (robust_indices_ok ds data HD HL) as (HN & HLe & HS & HPos & Hsum).
  destruct (make_heap_state ds data _ HD HN HS) as [HSt HPm].
  set (l := robust_indices data) in *. set (heap := make_heap (Comp data) l) in *.
  pose proof (data_is_good _ _ HD) as HG.
  assert (length heap = length l) as Hll by (by rewrite HPm).
  rewrite <- Hsum, <- (hsum_perm _ _ _ HG HPm).
  destruct (Nat.eqb_spec (length l) 0) as [E0|E0].
  { assert (heap = []) as -> by (apply nil_length_inv; lia). exact (f_equal Ret rct_identity_ok). }
  destruct (Nat.ltb_spec (length l) 2) as [E2|E2].
  { apply run_some, bos_coster_end_ok; [done|lia]. }
  assert (positive_sizes ds heap) as HPh by (intros i Hi; apply HPos; by rewrite <- HPm).
  assert (heap ≠ []) as Hhne by (intros E; rewrite E in Hll; cbn in Hll; lia).
  pose proof (hweight_max ds data heap HSt) as Hw.
  destruct (bos_coster_robust_loop_ok n ds data heap HSt HPh Hhne ltac:(lia))
    as (ds' & data' & i & E & HS' & <-).
  apply run_some. step E. by apply bos_coster_end_ok.
Qed.

(** ** The first version *)

Definition hsize (ds : list (Z * point)) (heap : list nat) : Z := zsum (size_of ds <$> heap).

Lemma hsize_perm ds h h' : h ≡ₚ h' → hsize ds h = hsize ds h'.
Proof. intros HPm. apply zsum_perm. by rewrite HPm. Qed.

Lemma hsize_cons ds i h : hsize ds (i :: h) = size_of ds i + hsize ds h.
Proof. done. Qed.

Lemma hsize_ext ds ds' h : (∀ i, i ∈ h → size_of ds i = size_of ds' i) → hsize ds h = hsize ds' h.
Proof.
  intros E. unfold hsize. f_equal. apply list_fmap_ext. intros j i Hi.
  apply E. by eapply list_elem_of_lookup_2.
Qed.

(** What an iteration does to the sizes: the second largest is taken from the largest. *)
Record subtracted (ds ds' : list (Z * point)) (heap heap' : list nat) (i1 i2 : nat) (rest : list nat) : Prop := {
  sb_heap : i1 :: i2 :: rest ≡ₚ heap;
  sb_heap' : heap' ≡ₚ i2 :: (if size_of ds i1 - size_of ds i2 =? 0 then rest else i1 :: rest);
  sb_order : 0 ≤ size_of ds i2 ≤ size_of ds i1;
  sb_largest j : j ∈ rest → size_of ds j ≤ size_of ds i2;
  sb_1 : size_of ds' i1 = size_of ds i1 - size_of ds i2;
  sb_2 : size_of ds' i2 = size_of ds i2;
  sb_rest i : i ∈ rest → size_of ds' i = size_of ds i
}.

Lemma bos_coster_step_ok ds data heap :
  state_is ds data heap → (1 < length heap)%nat →
  ∃ ds' data' heap' i1 i2 rest, bos_coster_step data heap = Some (data', heap') ∧
    state_is ds' data' heap' ∧ hsum ds' heap' = hsum ds heap ∧
    subtracted ds ds' heap heap' i1 i2 rest.
Proof.
  intros HS Hlen. pose proof (bs_data _ _ _ HS) as HD.
  destruct (take_two ds data heap HS Hlen)
    as (i1 & i2 & rest & s1 & s2 & P1 & P2 & E & HPm & HSr & Hn1 & Hn2 & Hne & F1 & F2 & H12 & HL & HM).
  destruct (hsum_two ds data i1 i2 rest heap s1 s2 P1 P2 HD HPm F1 F2) as (Hsum & C1 & C2 & Hw).
  unfold bos_coster_step.
  rewrite (bind_two data heap i1 i2 rest (λ index1 index2 heap, bos_coster_add data heap index1 index2) E).
  destruct (bos_coster_add_ok ds data rest i1 i2 s1 s2 P1 P2) as (data2 & h2 & E2 & HS2 & HP2 & Hs2');
    [done..|].
  eexists _, data2, h2, i1, i2, rest. split; [exact E2|]. split; [exact HS2|].
  split; [by rewrite Hs2', Hsum|].
  assert (i1 < length ds ∧ i2 < length ds)%nat as [Hl1 Hl2] by (split; by eapply lookup_lt_Some).
  pose proof (size_lookup _ _ _ F1) as S1. pose proof (size_lookup _ _ _ F2) as S2. cbn [fst] in S1, S2.
  split; rewrite ?S1, ?S2; try done.
  - rewrite (size_lookup _ _ (s1 - s2, P1)); [done|]. apply list_lookup_insert_eq. by rewrite length_insert.
  - rewrite (size_lookup _ _ (s2, ed_add P2 P1)); [done|].
    rewrite list_lookup_insert_ne by done. by apply list_lookup_insert_eq.
  - intros i Hi. unfold size_of. rewrite !list_lookup_insert_ne; [done|..]; by intros ->.
Qed.

Lemma subtracted_size ds ds' heap heap' i1 i2 rest :
  subtracted ds ds' heap heap' i1 i2 rest →
  hsize ds' heap' = hsize ds heap - size_of ds i2.
Proof.
  intros [HQ HQ' HO _ S1 S2 SR]. rewrite (hsize_perm _ _ _ HQ'), <- (hsize_perm _ _ _ HQ), !hsize_cons, S2.
  destruct (Z.eqb_spec (size_of ds i1 - size_of ds i2) 0) as [E0|E0].
  - rewrite (hsize_ext ds' ds rest SR). lia.
  - rewrite hsize_cons, S1, (hsize_ext ds' ds rest SR). lia.
Qed.

Lemma subtracted_positive ds ds' heap heap' i1 i2 rest :
  subtracted ds ds' heap heap' i1 i2 rest → positive_sizes ds heap → positive_sizes ds' heap'.
Proof.
  intros [HQ HQ' HO _ S1 S2 SR] HPos i Hi. rewrite HQ' in Hi.
  assert (0 < size_of ds i2) as H2 by (apply HPos; rewrite <- HQ; right; by left).
  assert (∀ j, j ∈ rest → 0 < size_of ds' j) as HR
    by (intros j Hj; rewrite (SR j Hj); apply HPos; rewrite <- HQ; by do 2 right).
  apply elem_of_cons in Hi as [->|Hi]; [lia|].
  destruct (Z.eqb_spec (size_of ds i1 - size_of ds i2) 0) as [E0|E0]; [by apply HR|].
  apply elem_of_cons in Hi as [->|Hi]; [lia|by apply HR].
Qed.

Lemma hsize_nonneg ds heap : positive_sizes ds heap → 0 ≤ hsize ds heap.
Proof.
  induction heap as [|i heap IH]; intros HP0; [done|]. rewrite hsize_cons.
  assert (0 < size_of ds i) by (apply HP0; by left).
  specialize (IH ltac:(intros j Hj; apply HP0; by right)). lia.
Qed.

Lemma bos_coster_loop_ok n ds data heap :
  state_is ds data heap → positive_sizes ds heap → heap ≠ [] → hsize ds heap < Z.of_nat n →
  ∃ ds' data' i, bos_coster_loop n data heap = Some (data', [i]) ∧
    state_is ds' data' [i] ∧ hsum ds' [i] = hsum ds heap.
Proof.
  revert ds data heap. induction n as [|n IH]; intros ds data heap HS HPos Hne Hw.
  { pose proof (hsize_nonneg ds heap HPos). lia. }
  cbn [bos_coster_loop]. destruct (Nat.ltb_spec 1 (length heap)) as [Hlen|Hlen].
  - destruct (bos_coster_step_ok ds data heap HS Hlen)
      as (ds1 & data1 & h1 & i1 & i2 & rest & E & HS1 & Hs1 & HB).
    pose proof (subtracted_size _ _ _ _ _ _ _ HB). pose proof (subtracted_positive _ _ _ _ _ _ _ HB HPos) as HP1.
    assert (0 < size_of ds i2) by (apply HPos; rewrite <- (sb_heap _ _ _ _ _ _ _ HB); right; by left).
    assert (h1 ≠ []) as Hne1 by (intros ->; pose proof (sb_heap' _ _ _ _ _ _ _ HB) as Q; by apply Permutation_nil_cons in Q).
    step E. destruct (IH ds1 data1 h1 HS1 HP1 Hne1 ltac:(lia)) as (ds2 & data2 & i & E2 & HS2 & Hs2).
    exists ds2, data2, i. rewrite Hs2. done.
  - destruct heap as [|i [|j heap]]; [done| |cbn in Hlen; lia]. by exists ds, data, i.
Qed.

Lemma all_indices_ok ds data :
  data_is ds data → Forall (λ d, d.1 < L) ds →
  state_is ds data (make_heap (Comp data) (seq 0 (length data))) ∧
  make_heap (Comp data) (seq 0 (length data)) ≡ₚ seq 0 (length data).
Proof.
  intros HD HL. pose proof (Forall2_length HD) as Hlen. apply make_heap_state; [done|apply NoDup_seq|].
  intros i Hi. apply elem_of_seq in Hi. destruct (lookup_lt_is_Some_2 ds i ltac:(lia)) as [d Ed].
  exists d. split; [done|]. exact (Forall_lookup_1 _ _ _ _ HL Ed).
Qed.

Lemma bos_coster_ok n ds data :
  data_is ds data → Forall (λ d, 0 < d.1 < L) ds → (1 < length ds)%nat →
  zsum ds.*1 < Z.of_nat n →
  bos_coster_heap_conv n data = Ret (ed_encode (msum ds)).
Proof.
  intros HD HB Hl Hn. pose proof (Forall2_length HD) as Hlen. unfold bos_coster_heap_conv.
  rewrite (bind_ret _ _ _ (throw_unless_true _ (proj2 (Nat.ltb_lt _ _) (eq_rect _ (λ k, (1 < k)%nat) Hl _ Hlen)))).
  assert (Forall (λ d, d.1 < L) ds) as HL by (eapply Forall_impl; [|exact HB]; cbn; lia).
  destruct (all_indices_ok ds data HD HL) as [HSt HPm].
  set (heap := make_heap _ _) in *. pose proof (data_is_good _ _ HD) as HG.
  rewrite msum_hsum, Hlen, <- (hsum_perm _ _ _ HG HPm) .
  assert (positive_sizes ds heap) as HPh.
  { intros i Hi. rewrite HPm in Hi. apply elem_of_seq in Hi.
    destruct (lookup_lt_is_Some_2 ds i ltac:(lia)) as [d Ed]. rewrite (size_lookup _ _ _ Ed).
    destruct (Forall_lookup_1 _ _ _ _ HB Ed). done. }
  assert (hsize ds heap = zsum ds.*1) as HZ.
  { rewrite (hsize_perm _ _ _ HPm), <- Hlen. unfold hsize. f_equal. apply list_eq. intros i.
    rewrite !list_lookup_fmap. destruct (Nat.lt_ge_cases i (length ds)) as [Hi|Hi].
    - destruct (lookup_lt_is_Some_2 ds i Hi) as [d Ed]. rewrite lookup_seq_lt by lia. rewrite Ed.
      change (Some (size_of ds i) = Some d.1). by rewrite (size_lookup _ _ _ Ed).
    - rewrite !lookup_ge_None_2; rewrite ?length_seq; done. }
  assert (heap ≠ []) as Hhne by (intros E; rewrite E in HPm; apply Permutation_length in HPm; rewrite length_seq in HPm; cbn in HPm; lia).
  destruct (bos_coster_loop_ok n ds data heap HSt HPh Hhne ltac:(lia)) as (ds' & data' & i & E & HS' & <-).
  apply run_some. step E. by apply bos_coster_end_ok.
Qed.

(** With a zero scalar and one that is not zero the heap never shrinks to one element. *)
Definition stuck (ds : list (Z * point)) (heap : list nat) : Prop :=
  ∃ z i, z ∈ heap ∧ i ∈ heap ∧ size_of ds z = 0 ∧ 0 < size_of ds i.

Lemma stuck_length ds heap : stuck ds heap → (1 < length heap)%nat.
Proof.
  intros (z & i & Hz & Hi & Ez & Ei). destruct heap as [|a [|b heap]]; [by apply elem_of_nil in Hz| |cbn; lia].
  apply list_elem_of_singleton in Hz as ->. apply list_elem_of_singleton in Hi as ->. lia.
Qed.

Lemma subtracted_stuck ds ds' heap heap' i1 i2 rest :
  subtracted ds ds' heap heap' i1 i2 rest → stuck ds heap → stuck ds' heap'.
Proof.
  intros [HQ HQ' HO HM S1 S2 SR] (z & i & Hz & Hi & Ez & Ei).
  assert (0 < size_of ds i1) as H1.
  { rewrite <- HQ in Hi. apply elem_of_cons in Hi as [->|Hi]; [done|].
    apply elem_of_cons in Hi as [->|Hi]; [lia|]. specialize (HM i Hi). lia. }
  destruct (Z.eqb_spec (size_of ds i2) 0) as [E2|E2].
  - exists i2, i1. destruct (Z.eqb_spec (size_of ds i1 - size_of ds i2) 0) as [E0|E0]; [lia|].
    rewrite HQ'. split_and!; [by left|right; by left|lia|lia].
  - assert (z ∈ rest) as Hzr.
    { rewrite <- HQ in Hz. apply elem_of_cons in Hz as [->|Hz]; [lia|].
      apply elem_of_cons in Hz as [->|Hz]; [lia|done]. }
    exists z, i2. rewrite HQ', (SR z Hzr). split_and!; [|by left|done|lia].
    right. destruct (_ =? 0); [done|by right].
Qed.

Lemma bos_coster_loop_stuck n ds data heap :
  state_is ds data heap → stuck ds heap → bos_coster_loop n data heap = None.
Proof.
  revert ds data heap. induction n as [|n IH]; intros ds data heap HS HK; [done|].
  pose proof (stuck_length _ _ HK) as Hlen. cbn [bos_coster_loop].
  rewrite (proj2 (Nat.ltb_lt _ _) Hlen).
  destruct (bos_coster_step_ok ds data heap HS Hlen)
    as (ds1 & data1 & h1 & i1 & i2 & rest & E & HS1 & _ & HB).
  step E. eapply IH; [exact HS1|]. by eapply subtracted_stuck.
Qed.

(** The state before iteration [n] *)
Fixpoint bos_coster_iter (n : nat) (data : list MultiexpData) (heap : list nat) :
    option (list MultiexpData * list nat) :=
  match n with
  | O => Some (data, heap)
  | S n' => '(data, heap) ← bos_coster_step data heap; bos_coster_iter n' data heap
  end.

Lemma bos_coster_iter_stuck n ds data heap :
  state_is ds data heap → stuck ds heap →
  ∃ data' heap', bos_coster_iter n data heap = Some (data', heap') ∧ (1 < length heap')%nat.
Proof.
  revert ds data heap. induction n as [|n IH]; intros ds data heap HS HK.
  { exists data, heap. split; [done|]. by eapply stuck_length. }
  cbn [bos_coster_iter].
  destruct (bos_coster_step_ok ds data heap HS (stuck_length _ _ HK))
    as (ds1 & data1 & h1 & i1 & i2 & rest & E & HS1 & _ & HB).
  step E. eapply IH; [exact HS1|]. by eapply subtracted_stuck.
Qed.

Lemma stuck_indices ds heap z i P s Q :
  ds !! z = Some (0, P) → ds !! i = Some (s, Q) → 0 < s → heap ≡ₚ seq 0 (length ds) → stuck ds heap.
Proof.
  intros Ez Ei Hs HPm. exists z, i. rewrite HPm, !elem_of_seq, (size_lookup _ _ _ Ez), (size_lookup _ _ _ Ei).
  apply lookup_lt_Some in Ez, Ei. split_and!; [lia..|done|done].
Qed.

End bos_coster_spec.

(** ** A heap: the vector kept sorted, the largest element first *)

Fixpoint insert_desc (comp : nat → nat → bool) (x : nat) (l : list nat) : list nat :=
  match l with
  | [] => [x]
  | y :: l' => if comp x y then y :: insert_desc comp x l' else x :: y :: l'
  end.

Definition sort_desc (comp : nat → nat → bool) (l : list nat) : list nat :=
  foldr (insert_desc comp) [] l.

#[export] Instance sorted_heap : Heap := {|
  make_heap := sort_desc;
  push_heap := sort_desc;
  pop_heap comp l := match sort_desc comp l with [] => [] | x :: l' => l' ++ [x] end
|}.

Definition descending (comp : nat → nat → bool) : list nat → Prop :=
  StronglySorted (λ x y, comp x y = false).

Lemma insert_desc_perm comp x l : insert_desc comp x l ≡ₚ x :: l.
Proof.
  induction l as [|y l IH]; cbn [insert_desc]; [done|]. destruct (comp x y); [|done].
  rewrite IH. apply Permutation_swap.
Qed.

Lemma sort_desc_perm comp l : sort_desc comp l ≡ₚ l.
Proof. induction l as [|x l IH]; cbn; [done|]. by rewrite insert_desc_perm, IH. Qed.

Lemma weak_order_sub comp l l' : weak_order comp l → l' ⊆ l → weak_order comp l'.
Proof.
  intros [HA HT] HS. split; intros; [apply HA|eapply (HT x y z)]; auto.
Qed.

Lemma insert_desc_sorted comp x l :
  weak_order comp (x :: l) → descending comp l → descending comp (insert_desc comp x l).
Proof.
  intros HW HD. revert HW. induction HD as [|y l HD IH HF]; intros HW; cbn [insert_desc].
  { repeat constructor. }
  destruct (comp x y) eqn:E.
  - constructor.
    + apply IH. eapply weak_order_sub; [exact HW|].
      intros w Hw. apply elem_of_cons in Hw as [->|Hw]; [by left|by do 2 right].
    + rewrite insert_desc_perm. constructor; [|done].
      apply (wo_asym _ _ HW); [set_solver..|done].
  - constructor; [by constructor|]. constructor; [done|]. rewrite Forall_forall in HF |- *.
    intros z Hz. apply list_elem_of_In in Hz.
    eapply (wo_trans _ _ HW x y z); [set_solver..|done|]. apply HF. by apply list_elem_of_In.
Qed.

Lemma sort_desc_sorted comp l : weak_order comp l → descending comp (sort_desc comp l).
Proof.
  induction l as [|x l IH]; intros HW; [constructor|]. cbn [sort_desc foldr].
  apply insert_desc_sorted.
  - eapply weak_order_sub; [exact HW|]. intros y. fold (sort_desc comp l). by rewrite sort_desc_perm.
  - apply IH. eapply weak_order_sub; [exact HW|]. set_solver.
Qed.

Lemma descending_lookup comp l i j x y :
  descending comp l → (i < j)%nat → l !! i = Some x → l !! j = Some y → comp x y = false.
Proof.
  intros HD. revert i j. induction HD as [|z l HD IH HF]; intros i j Hij Ei Ej; [done|].
  destruct j as [|j]; [lia|]. destruct i as [|i]; [|by apply (IH i j); [lia|..]].
  injection Ei as ->. rewrite Forall_forall in HF. apply HF, list_elem_of_In.
  by eapply list_elem_of_lookup_2.
Qed.

Lemma descending_heap comp l : descending comp l → is_heap comp l.
Proof.
  intros HD i p x Hi Ex Ep. eapply descending_lookup; [exact HD| |exact Ep|exact Ex].
  pose proof (Nat.Div0.div_le_upper_bound (i - 1) 2 (i - 1)). lia.
Qed.

#[export] Instance sorted_heap_laws : HeapLaws sorted_heap.
Proof.
  split; cbn [make_heap push_heap pop_heap sorted_heap].
  - intros comp l HW. split; [apply sort_desc_perm|]. by apply descending_heap, sort_desc_sorted.
  - intros comp l x HW _. split; [apply sort_desc_perm|]. by apply descending_heap, sort_desc_sorted.
  - intros comp l HW _ Hne. pose proof (sort_desc_perm comp l) as HPm.
    pose proof (sort_desc_sorted comp l HW) as HD. destruct (sort_desc comp l) as [|x l'].
    { by apply Permutation_nil_l in HPm. }
    inversion_clear HD as [|? ? HD' HF]. exists l', x.
    split; [done|]. split; [rewrite <- HPm; symmetry; apply Permutation_cons_append|].
    split; [by apply descending_heap|]. intros y Hy. rewrite Forall_forall in HF.
    by apply HF, list_elem_of_In.
Qed.

(** C13. The three methods for a sum of multiples agree.  For points on the
    curve and reduced scalars, [straus], with a cache of its own or a prepared
    one and for every step, [pippenger], with digits of at most nine bits, and
    [bos_coster_heap_conv_robust] return the encoding of the sum of the
    [s_j P_j].  The loop of the last ends after at most 507 iterations for
    each point, whichever heap the standard library implements. *)
Theorem multiexp_spec {HP : Heap} {HPL : HeapLaws HP} ds data n c STEP :
  data_is ds data → ds ≠ [] → Forall (λ d, d.1 < L) ds →
  507 * Z.of_nat (length ds) < Z.of_nat n → (c ≤ 9)%nat →
  straus data None STEP = Ret (ed_encode (msum ds)) ∧
  (∃ cache, straus_init_cache data 0 = Ret cache ∧
    straus data (Some cache) STEP = Ret (ed_encode (msum ds))) ∧
  pippenger data None c = Ret (ed_encode (msum ds)) ∧
  (∃ cache, pippenger_init_cache data 0 = Ret cache ∧
    pippenger data (Some cache) c = Ret (ed_encode (msum ds))) ∧
  bos_coster_heap_conv_robust n data = Ret (ed_encode (msum ds)).
Proof.
  intros HD Hne HL Hn Hc. pose proof (Forall2_length HD) as Hlen. split_and!.
  - by apply straus_ok.
  - destruct (straus_init_cache_ok ds data 0 HD ltac:(lia)) as (cache & E & _ & HC).
    rewrite take_ge in HC by (cbn; lia).
    exists cache. split; [done|]. apply straus_ok; [done|]. by intros ? [= <-].
  - by apply pippenger_ok.
  - destruct (pippenger_init_cache_ok ds data 0 HD ltac:(lia)) as (cache & E & _ & HC).
    rewrite take_ge in HC by (cbn; lia).
    exists cache. split; [done|]. apply pippenger_ok; [done| |done]. by intros ? [= <-].
  - by apply bos_coster_robust_ok.
Qed.

Lemma H_pair_is s : 0 ≤ s < L → pair_is (s, H25519) {| md_scalar := to_scalar s; md_point := ge_p3_H |}.
Proof.
  intros Hs. split; cbn [md_scalar md_point fst snd].
  - apply scalar_bytes32, to_scalar_scalar.
  - rewrite le_combine_to_scalar. by apply Z.mod_small.
  - exact ge_p3_H_is.
Qed.

Definition two_multiples : list MultiexpData :=
  [{| md_scalar := to_scalar 5; md_point := ge_p3_H |}; {| md_scalar := to_scalar 7; md_point := ge_p3_H |}].

Lemma two_multiples_is : data_is [(5, H25519); (7, H25519)] two_multiples.
Proof. constructor; [by apply H_pair_is|]. constructor; [by apply H_pair_is|constructor]. Qed.

Lemma multiexp_spec_witness :
  straus two_multiples None 0 = Ret (ed_encode (msum [(5, H25519); (7, H25519)])) ∧
  pippenger two_multiples None 9 = Ret (ed_encode (msum [(5, H25519); (7, H25519)])) ∧
  bos_coster_heap_conv_robust 1015 two_multiples = Ret (ed_encode (msum [(5, H25519); (7, H25519)])).
Proof.
  destruct (multiexp_spec [(5, H25519); (7, H25519)] two_multiples 1015 9 0)
    as (E1 & _ & E2 & _ & E3); [exact two_multiples_is|done|by repeat constructor|reflexivity|lia|].
  split; [exact E1|]. split; [exact E2|exact E3].
Defined.

(** C14. The first version of Bos and Coster's method, [bos_coster_heap_conv],
    returns the sum when no scalar is zero, after no more iterations than the
    sum of the scalars.  With a zero scalar beside one that is not zero it
    never returns: every iteration is defined and leaves more than one element
    in the heap, so that no number of iterations ends the loop. *)
Theorem bos_coster_progress_spec {HP : Heap} {HPL : HeapLaws HP} ds data :
  data_is ds data → Forall (λ d, d.1 < L) ds → (1 < length ds)%nat →
  (Forall (λ d, d.1 ≠ 0) ds →
    ∀ n, zsum ds.*1 < Z.of_nat n → bos_coster_heap_conv n data = Ret (ed_encode (msum ds))) ∧
  (Exists (λ d, d.1 = 0) ds → Exists (λ d, d.1 ≠ 0) ds →
    ∀ n, bos_coster_loop n data (make_heap (Comp data) (seq 0 (length data))) = None ∧
      ∃ data' heap',
        bos_coster_iter n data (make_heap (Comp data) (seq 0 (length data))) = Some (data', heap') ∧
        (1 < length heap')%nat).
Proof.
  intros HD HL Hlen. pose proof (data_is_good _ _ HD) as HG. split.
  - intros HN n Hn. apply bos_coster_ok; [done| |done|done].
    rewrite Forall_forall in HL, HN |- *. unfold good_pairs in HG. rewrite Forall_forall in HG.
    intros d Hd. specialize (HL d Hd). specialize (HN d Hd). destruct (HG d Hd) as [? _]. lia.
  - intros HZ HN n. destruct (all_indices_ok ds data HD HL) as [HS HPm].
    apply Exists_exists in HZ as ([z P] & Hz & Ez). apply Exists_exists in HN as ([s Q] & Hs & Es).
    cbn [fst] in *. subst z. apply list_elem_of_In, list_elem_of_lookup in Hz as [i Ei].
    apply list_elem_of_In, list_elem_of_lookup in Hs as [j Ej].
    destruct (Forall_lookup_1 _ _ _ _ HG Ej) as [[? _] _]. cbn [fst] in *.
    pose proof (Forall2_length HD) as Hl. rewrite <- Hl in *.
    pose proof (stuck_indices ds _ i j P s Q Ei Ej ltac:(lia) HPm) as HK.
    split; [by eapply bos_coster_loop_stuck|by eapply bos_coster_iter_stuck].
Qed.

Definition with_zero : list MultiexpData :=
  [{| md_scalar := to_scalar 0; md_point := ge_p3_H |}; {| md_scalar := to_scalar 7; md_point := ge_p3_H |}].

Lemma with_zero_is : data_is [(0, H25519); (7, H25519)] with_zero.
Proof. constructor; [by apply H_pair_is|]. constructor; [by apply H_pair_is|constructor]. Qed.

Lemma bos_coster_progress_spec_witness :
  bos_coster_heap_conv 13 two_multiples = Ret (ed_encode (msum [(5, H25519); (7, H25519)])) ∧
  ∀ n, bos_coster_loop n with_zero (make_heap (Comp with_zero) (seq 0 2)) = None.
Proof.
  split.
  - apply (bos_coster_progress_spec [(5, H25519); (7, H25519)] two_multiples);
      [exact two_multiples_is|by repeat constructor|cbn; lia|by repeat constructor|reflexivity].
  - intros n. apply (bos_coster_progress_spec [(0, H25519); (7, H25519)] with_zero);
      [exact with_zero_is|by repeat constructor|cbn; lia|by left|by right; left].
Defined.
