(* ===== verification/Borromean.v ===== *)
(** * Range proofs: [H2] of [rctTypes.h] and the first part of [rctSigs.cpp]

    Borromean ring signatures over the 64 bits of an amount, [genBorromean] and
    [verifyBorromean], and the range proofs built on them, [proveRange] and
    [verRange].  The loops that fill arrays of 64 keys element by element are
    recursions on the arrays; the sixty-four elements of an array not yet written
    are not read. *)

From S2P Require Export RctOps.

#[local] Open Scope Z_scope.

Definition H2 : list key :=
  [[139; 101; 89; 112; 21; 55; 153; 175; 42; 234; 220; 159; 241; 173; 208; 234; 108; 114; 81; 213; 65; 84; 207; 169; 44; 23; 58; 13; 211; 156; 31; 148];
   [143; 170; 68; 138; 228; 179; 226; 187; 61; 77; 19; 9; 9; 245; 95; 205; 121; 113; 28; 28; 131; 205; 188; 202; 221; 66; 203; 225; 81; 94; 135; 18];
   [18; 167; 214; 44; 119; 145; 101; 74; 87; 243; 230; 118; 148; 237; 80; 180; 154; 125; 158; 63; 193; 228; 199; 160; 189; 226; 157; 24; 126; 156; 199; 29];
   [120; 154; 185; 147; 75; 73; 196; 249; 230; 120; 92; 109; 87; 164; 152; 179; 234; 212; 67; 240; 79; 19; 223; 17; 12; 84; 39; 180; 242; 20; 199; 57];
   [119; 30; 146; 153; 217; 79; 2; 172; 114; 227; 142; 68; 222; 86; 138; 193; 220; 178; 237; 198; 237; 182; 31; 131; 202; 65; 142; 16; 119; 206; 61; 232];
   [115; 185; 109; 180; 48; 57; 129; 155; 218; 245; 104; 14; 92; 50; 215; 65; 72; 136; 132; 209; 141; 147; 134; 109; 64; 116; 168; 73; 24; 42; 138; 100];
   [141; 69; 142; 28; 47; 104; 235; 235; 204; 210; 253; 93; 55; 159; 94; 88; 248; 19; 77; 243; 224; 232; 140; 173; 61; 70; 112; 16; 99; 168; 212; 18];
   [9; 85; 30; 219; 228; 148; 65; 142; 129; 40; 68; 85; 214; 75; 53; 238; 138; 192; 147; 6; 138; 95; 22; 31; 166; 99; 117; 89; 23; 126; 244; 4];
   [208; 90; 136; 102; 244; 223; 140; 238; 30; 38; 139; 29; 35; 164; 197; 140; 146; 231; 96; 48; 151; 134; 205; 172; 15; 237; 161; 210; 71; 169; 201; 167];
   [85; 205; 170; 213; 24; 189; 135; 29; 209; 235; 123; 199; 2; 62; 29; 192; 253; 243; 51; 152; 100; 248; 143; 221; 45; 226; 105; 254; 158; 225; 131; 45];
   [231; 105; 126; 149; 26; 152; 207; 213; 113; 43; 132; 187; 229; 243; 78; 215; 51; 233; 71; 63; 203; 104; 237; 166; 110; 55; 136; 223; 25; 88; 195; 6];
   [249; 42; 151; 11; 174; 114; 120; 41; 137; 191; 200; 58; 223; 170; 146; 164; 244; 156; 126; 149; 145; 139; 59; 186; 60; 220; 127; 232; 138; 204; 141; 71];
   [31; 102; 194; 212; 145; 215; 90; 249; 21; 200; 219; 106; 109; 28; 176; 205; 79; 125; 220; 213; 230; 61; 59; 169; 184; 60; 134; 108; 57; 239; 58; 43];
   [62; 236; 152; 132; 180; 63; 88; 233; 62; 248; 222; 234; 38; 0; 4; 239; 234; 42; 70; 52; 79; 197; 150; 91; 26; 125; 213; 209; 137; 151; 239; 167];
   [178; 159; 143; 12; 203; 150; 151; 127; 231; 119; 212; 137; 214; 190; 158; 126; 188; 25; 196; 9; 181; 16; 53; 104; 242; 119; 97; 29; 126; 168; 72; 148];
   [86; 177; 245; 18; 101; 185; 85; 152; 118; 213; 141; 36; 157; 12; 20; 109; 105; 161; 3; 99; 102; 153; 135; 77; 63; 144; 71; 53; 80; 254; 63; 44];
   [29; 122; 54; 87; 94; 34; 245; 209; 57; 255; 156; 197; 16; 250; 19; 133; 5; 87; 107; 99; 129; 90; 148; 228; 176; 18; 191; 212; 87; 202; 170; 218];
   [208; 172; 80; 122; 134; 78; 205; 5; 147; 250; 103; 190; 125; 35; 19; 67; 146; 208; 14; 64; 7; 226; 83; 72; 120; 217; 178; 66; 225; 13; 118; 32];
   [246; 198; 132; 11; 156; 241; 69; 187; 45; 204; 248; 110; 148; 11; 224; 252; 9; 142; 50; 227; 16; 153; 213; 111; 127; 224; 135; 189; 93; 235; 80; 148];
   [40; 131; 26; 51; 64; 7; 14; 177; 219; 135; 193; 46; 5; 152; 13; 95; 51; 233; 239; 144; 248; 58; 72; 23; 201; 244; 160; 163; 50; 39; 225; 151];
   [135; 99; 34; 115; 214; 41; 204; 183; 225; 237; 26; 118; 143; 162; 235; 213; 23; 96; 243; 46; 28; 11; 134; 122; 93; 54; 141; 82; 113; 5; 92; 110];
   [92; 123; 41; 66; 67; 71; 150; 77; 4; 39; 85; 23; 197; 174; 20; 182; 181; 234; 39; 152; 181; 115; 252; 148; 230; 228; 74; 83; 33; 96; 12; 251];
   [230; 148; 80; 66; 215; 139; 194; 195; 189; 110; 197; 140; 81; 26; 159; 232; 89; 192; 173; 99; 253; 228; 148; 245; 3; 158; 14; 130; 50; 97; 43; 213];
   [54; 213; 105; 7; 226; 236; 116; 93; 182; 229; 79; 11; 46; 27; 35; 0; 171; 203; 66; 46; 113; 45; 165; 136; 164; 13; 63; 30; 187; 190; 2; 246];
   [52; 219; 110; 228; 208; 96; 142; 95; 120; 54; 80; 73; 90; 59; 47; 82; 115; 197; 19; 78; 82; 132; 228; 253; 249; 102; 39; 187; 22; 227; 30; 107];
   [142; 118; 89; 251; 69; 163; 120; 125; 103; 74; 232; 103; 49; 250; 162; 83; 142; 192; 253; 244; 66; 171; 38; 233; 199; 145; 250; 218; 8; 148; 103; 233];
   [48; 6; 207; 25; 139; 36; 243; 27; 180; 199; 230; 52; 96; 0; 171; 199; 1; 232; 39; 207; 187; 93; 245; 45; 207; 164; 46; 156; 169; 255; 8; 2];
   [245; 253; 64; 60; 182; 232; 190; 33; 71; 46; 55; 127; 253; 128; 90; 140; 96; 131; 234; 72; 3; 184; 72; 83; 137; 204; 62; 188; 33; 95; 0; 42];
   [55; 49; 178; 96; 235; 63; 148; 130; 228; 95; 28; 63; 59; 157; 207; 131; 75; 117; 230; 238; 248; 196; 15; 70; 30; 162; 126; 139; 110; 217; 71; 61];
   [159; 157; 171; 9; 195; 245; 228; 40; 85; 194; 222; 151; 27; 101; 147; 40; 162; 219; 196; 84; 132; 95; 57; 111; 252; 5; 63; 11; 177; 146; 248; 195];
   [94; 5; 93; 37; 248; 95; 219; 152; 242; 115; 228; 175; 224; 132; 100; 192; 3; 183; 15; 30; 240; 103; 123; 181; 226; 87; 6; 64; 11; 230; 32; 165];
   [134; 139; 207; 54; 121; 203; 107; 80; 11; 148; 65; 140; 11; 137; 37; 249; 134; 85; 48; 48; 58; 228; 228; 178; 98; 89; 24; 101; 102; 106; 69; 144];
   [179; 219; 107; 211; 137; 122; 251; 209; 223; 63; 150; 68; 171; 33; 200; 5; 14; 31; 0; 56; 165; 47; 124; 169; 90; 192; 195; 222; 117; 88; 203; 122];
   [129; 25; 179; 160; 89; 255; 44; 172; 72; 62; 105; 188; 212; 29; 109; 39; 20; 148; 71; 145; 66; 136; 187; 234; 238; 52; 19; 230; 220; 198; 209; 235];
   [16; 252; 88; 243; 95; 199; 254; 122; 232; 117; 82; 75; 181; 133; 0; 3; 0; 91; 127; 151; 140; 12; 101; 226; 169; 101; 70; 75; 109; 0; 129; 156];
   [90; 205; 148; 235; 60; 87; 131; 121; 193; 234; 88; 163; 67; 236; 79; 207; 249; 98; 119; 111; 227; 85; 33; 228; 117; 160; 224; 109; 136; 123; 45; 185];
   [51; 218; 243; 162; 20; 214; 224; 212; 45; 35; 0; 167; 180; 75; 57; 41; 13; 184; 152; 155; 66; 121; 116; 205; 134; 93; 176; 17; 5; 90; 41; 1];
   [207; 198; 87; 47; 41; 175; 209; 100; 164; 148; 230; 78; 111; 26; 235; 130; 12; 62; 125; 163; 85; 20; 78; 81; 36; 163; 145; 208; 110; 159; 149; 234];
   [213; 49; 42; 75; 14; 246; 21; 163; 49; 246; 53; 44; 46; 210; 29; 172; 158; 124; 54; 57; 139; 147; 154; 236; 144; 28; 37; 127; 108; 188; 158; 142];
   [85; 29; 103; 254; 252; 123; 91; 159; 159; 219; 246; 175; 87; 201; 108; 138; 116; 215; 228; 90; 0; 32; 120; 167; 181; 186; 69; 198; 253; 233; 62; 51];
   [213; 10; 199; 189; 92; 165; 147; 198; 86; 146; 143; 56; 66; 128; 23; 252; 123; 165; 2; 133; 76; 67; 216; 65; 73; 80; 233; 110; 203; 64; 93; 195];
   [7; 115; 225; 142; 161; 190; 68; 254; 26; 151; 226; 57; 87; 60; 250; 227; 228; 233; 94; 249; 170; 159; 170; 190; 172; 18; 116; 211; 173; 38; 22; 4];
   [233; 175; 14; 124; 168; 147; 48; 210; 184; 97; 93; 27; 65; 55; 202; 97; 126; 33; 41; 127; 47; 13; 237; 142; 49; 183; 210; 234; 216; 113; 70; 96];
   [123; 18; 69; 131; 9; 127; 16; 41; 160; 199; 65; 145; 254; 115; 120; 201; 16; 90; 204; 112; 102; 149; 237; 20; 147; 187; 118; 3; 66; 38; 165; 123];
   [236; 64; 5; 123; 153; 84; 118; 101; 11; 61; 185; 142; 157; 183; 87; 56; 168; 205; 47; 148; 216; 99; 185; 6; 21; 12; 86; 170; 193; 156; 170; 107];
   [1; 217; 255; 114; 158; 253; 57; 216; 55; 132; 192; 254; 89; 196; 174; 129; 166; 112; 52; 203; 83; 201; 67; 251; 129; 139; 157; 138; 231; 252; 51; 229];
   [0; 223; 179; 198; 150; 50; 140; 118; 66; 69; 25; 167; 190; 254; 142; 15; 108; 118; 249; 71; 181; 39; 103; 145; 109; 36; 130; 63; 115; 91; 175; 46];
   [70; 27; 121; 155; 77; 156; 238; 168; 213; 128; 220; 183; 109; 17; 21; 13; 83; 94; 22; 57; 209; 96; 3; 195; 251; 126; 157; 31; 209; 48; 131; 168];
   [238; 3; 3; 148; 121; 229; 34; 143; 220; 85; 28; 189; 231; 7; 157; 52; 18; 234; 24; 106; 81; 124; 204; 99; 228; 110; 159; 204; 228; 254; 58; 108];
   [168; 207; 181; 67; 82; 78; 127; 2; 185; 240; 69; 172; 213; 67; 194; 28; 55; 59; 76; 155; 152; 172; 32; 206; 196; 23; 166; 221; 181; 116; 78; 148];
   [147; 43; 121; 75; 248; 156; 110; 218; 245; 208; 101; 12; 124; 75; 173; 146; 66; 178; 86; 38; 227; 126; 173; 90; 167; 94; 200; 198; 78; 9; 221; 79];
   [22; 177; 12; 119; 156; 229; 207; 239; 89; 199; 113; 13; 46; 104; 68; 30; 166; 250; 203; 104; 233; 181; 247; 213; 51; 174; 11; 183; 142; 40; 191; 87];
   [15; 119; 199; 103; 67; 231; 57; 111; 153; 16; 19; 159; 73; 55; 216; 55; 174; 84; 226; 16; 56; 172; 92; 11; 63; 214; 239; 23; 26; 40; 167; 228];
   [215; 229; 116; 183; 185; 82; 242; 147; 232; 13; 222; 144; 94; 181; 9; 55; 63; 63; 108; 209; 9; 160; 34; 8; 179; 193; 233; 36; 8; 10; 32; 202];
   [69; 102; 111; 140; 56; 30; 61; 166; 117; 86; 63; 248; 186; 35; 248; 59; 250; 195; 12; 52; 171; 221; 230; 229; 192; 151; 94; 249; 253; 112; 12; 185];
   [178; 70; 18; 228; 84; 96; 126; 177; 171; 164; 71; 248; 22; 209; 164; 85; 30; 249; 95; 167; 36; 127; 183; 193; 245; 3; 2; 10; 113; 119; 240; 221];
   [126; 32; 136; 97; 133; 109; 164; 44; 139; 180; 106; 117; 103; 248; 18; 19; 98; 217; 251; 36; 150; 241; 49; 164; 170; 144; 23; 207; 54; 108; 223; 206];
   [91; 100; 107; 255; 106; 209; 16; 1; 101; 3; 122; 5; 86; 1; 234; 2; 53; 140; 15; 65; 5; 15; 157; 254; 60; 149; 220; 203; 211; 8; 123; 224];
   [116; 109; 29; 204; 254; 210; 240; 255; 30; 19; 197; 30; 45; 80; 213; 50; 67; 117; 251; 213; 191; 124; 168; 42; 137; 49; 130; 141; 128; 29; 67; 171];
   [203; 152; 17; 13; 74; 107; 185; 125; 34; 254; 173; 188; 108; 13; 137; 48; 197; 248; 252; 80; 139; 47; 197; 179; 83; 40; 210; 107; 136; 219; 25; 174];
   [96; 182; 38; 160; 51; 181; 95; 39; 215; 103; 108; 64; 149; 234; 186; 188; 122; 44; 126; 222; 38; 36; 180; 114; 233; 127; 100; 249; 107; 140; 252; 14];
   [229; 181; 43; 201; 39; 70; 141; 247; 24; 147; 235; 129; 151; 239; 130; 12; 247; 108; 176; 170; 246; 232; 228; 254; 147; 173; 98; 216; 3; 152; 49; 4];
   [5; 101; 65; 174; 93; 169; 150; 27; 226; 176; 165; 232; 149; 229; 197; 186; 21; 60; 187; 98; 221; 86; 26; 66; 123; 173; 15; 253; 65; 146; 49; 153];
   [248; 254; 240; 90; 63; 165; 201; 243; 235; 164; 22; 56; 178; 71; 183; 17; 169; 159; 150; 15; 231; 58; 162; 249; 1; 54; 174; 178; 3; 41; 184; 136]].

Section borromean.
Context `{FastHash} `{RctHash} {G : Type} `{Rng G}.

(** ** Borromean signatures *)

(** What the first loop of [genBorromean] leaves for bit [ii]: [alpha[ii]],
    [L[1][ii]], and [bb.s1[ii]] when it is written. *)
Record boro_row := { br_alpha : key; br_L1 : key; br_s1 : option key }.

Definition boro_commit (naught : Z) (P2 : key) : gen G boro_row :=
  alpha ← draw skGen;
  L_naught ← calc (run (scalarmultBase alpha));
  if naught =? 0 then
    s1 ← draw skGen;
    c ← calc (run (rct_hash_to_scalar L_naught));
    L1 ← calc (addKeys2 s1 c P2);
    mret {| br_alpha := alpha; br_L1 := L1; br_s1 := Some s1 |}
  else if naught =? 1 then mret {| br_alpha := alpha; br_L1 := L_naught; br_s1 := None |}
  else calc Undef.

Fixpoint boro_commits (indices : list Z) (P2 : keyV) : gen G (list boro_row) :=
  match indices, P2 with
  | [], _ => mret []
  | _ :: _, [] => calc Undef
  | naught :: indices, p2 :: P2 =>
      row ← boro_commit naught p2;
      rows ← boro_commits indices P2;
      mret (row :: rows)
  end.

(** [bb.s0[jj]] and [bb.s1[jj]] *)
Definition boro_close (ee : key) (index : Z) (x P1 : key) (row : boro_row) : gen G (key * key) :=
  if index =? 0 then
    s0 ← calc (run (sc_mulsub x ee (br_alpha row)));
    s1 ← calc (run (br_s1 row));
    mret (s0, s1)
  else
    s0 ← draw skGen;
    LL ← calc (addKeys2 s0 ee P1);
    cc ← calc (run (rct_hash_to_scalar LL));
    s1 ← calc (run (sc_mulsub x cc (br_alpha row)));
    mret (s0, s1).

Fixpoint boro_closes (ee : key) (indices : list Z) (x P1 : keyV) (rows : list boro_row) :
    gen G (list (key * key)) :=
  match indices, x, P1, rows with
  | [], _, _, _ => mret []
  | index :: indices, xj :: x, p1 :: P1, row :: rows =>
      s ← boro_close ee index xj p1 row;
      ss ← boro_closes ee indices x P1 rows;
      mret (s :: ss)
  | _, _, _, _ => calc Undef
  end.

Definition genBorromean (x P1 P2 : keyV) (indices : list Z) : gen G boroSig :=
  rows ← boro_commits indices P2;
  ee ← calc (run (hash_to_scalar_key64 (br_L1 <$> rows)));
  ss ← boro_closes ee indices x P1 rows;
  mret {| bb_s0 := ss.*1; bb_s1 := ss.*2; bb_ee := ee |}.

Fixpoint boro_verify (ee : key) (s0 s1 : keyV) (P1 P2 : list ge_p3) : option keyV :=
  match s0, s1, P1, P2 with
  | [], _, _, _ => Some []
  | s0i :: s0, s1i :: s1, p1 :: P1, p2 :: P2 =>
      q ← ge_double_scalarmult_base_vartime ee p1 s0i;
      LL ← ge_tobytes q;
      chash ← rct_hash_to_scalar LL;
      q ← ge_double_scalarmult_base_vartime chash p2 s1i;
      Lv1 ← ge_tobytes q;
      Lv ← boro_verify ee s0 s1 P1 P2;
      Some (Lv1 :: Lv)
  | _, _, _, _ => None
  end.

(** [verifyBorromean] on points *)
Definition verifyBorromean (bb : boroSig) (P1 P2 : list ge_p3) : option bool :=
  Lv1 ← boro_verify (bb_ee bb) (bb_s0 bb) (bb_s1 bb) P1 P2;
  eeComputed ← hash_to_scalar_key64 Lv1;
  Some (equalKeys eeComputed (bb_ee bb)).

(** The points of two arrays of keys; [Some None] when one is not a point. *)
Fixpoint load_two (P1 P2 : keyV) : option (option (list ge_p3 * list ge_p3)) :=
  match P1, P2 with
  | k1 :: P1, k2 :: P2 =>
      q1 ← ge_frombytes_vartime k1;
      match q1 with
      | None => Some None
      | Some q1 =>
          q2 ← ge_frombytes_vartime k2;
          match q2 with
          | None => Some None
          | Some q2 =>
              qs ← load_two P1 P2;
              Some ('(qs1, qs2) ← qs; Some (q1 :: qs1, q2 :: qs2))
          end
      end
  | [], [] => Some (Some ([], []))
  | _, _ => None
  end.

(** [verifyBorromean] on keys *)
Definition verifyBorromean_keys (bb : boroSig) (P1 P2 : keyV) : option bool :=
  qs ← load_two P1 P2;
  match qs with
  | None => Some false
  | Some (P1_p3, P2_p3) => verifyBorromean bb P1_p3 P2_p3
  end.

(** ** Range proofs *)

(** One bit: [ai[i]], [sig.Ci[i]] and [CiH[i]] *)
Definition prove_bit (bi : Z) (H2i : key) : gen G (key * key * key) :=
  ai ← draw skGen;
  Ci ← (if bi =? 0 then calc (run (scalarmultBase ai))
        else if bi =? 1 then calc (addKeys1 ai H2i) else calc Undef);
  CiH ← calc (subKeys Ci H2i);
  mret (ai, Ci, CiH).

Fixpoint prove_bits (b : list Z) (h2 : keyV) (mask C : key) :
    gen G (list (key * key * key) * key * key) :=
  match b, h2 with
  | [], _ => mret ([], mask, C)
  | _ :: _, [] => calc Undef
  | bi :: b, H2i :: h2 =>
      row ← prove_bit bi H2i;
      mask ← calc (run (sc_add mask row.1.1));
      C ← calc (addKeys C row.1.2);
      '(rows, mask, C) ← prove_bits b h2 mask C;
      mret (row :: rows, mask, C)
  end.

(** The proof, [C] and [mask] *)
Definition proveRange (amount : Z) : gen G (rangeSig * key * key) :=
  b ← calc (run (d2b (replicate 64 0) amount));
  '(rows, mask, C) ← prove_bits b H2 zero rct_identity;
  let ai := (λ r, r.1.1) <$> rows in
  let Ci := (λ r, r.1.2) <$> rows in
  let CiH := (λ r, r.2) <$> rows in
  asig ← genBorromean ai Ci CiH b;
  mret ({| rs_asig := asig; rs_Ci := Ci |}, C, mask).

(** The loop of [verRange]: [asCi], [CiH] and [Ctmp_p3]; [Some None] when
    a key is not a point. *)
Fixpoint range_points (h2 Ci : keyV) (Ctmp : ge_p3) :
    option (option (list ge_p3 * list ge_p3 * ge_p3)) :=
  match h2, Ci with
  | [], _ => Some (Some ([], [], Ctmp))
  | _ :: _, [] => None
  | H2i :: h2, ci :: Ci =>
      p3 ← ge_frombytes_vartime H2i;
      match p3 with
      | None => Some None
      | Some p3 =>
          cached ← ge_p3_to_cached p3;
          asCi ← ge_frombytes_vartime ci;
          match asCi with
          | None => Some None
          | Some asCi =>
              p1 ← ge_sub asCi cached;
              cached ← ge_p3_to_cached asCi;
              CiH ← ge_p1p1_to_p3 p1;
              p1 ← ge_add Ctmp cached;
              Ctmp ← ge_p1p1_to_p3 p1;
              rest ← range_points h2 Ci Ctmp;
              Some ('(asCis, CiHs, Ctmp) ← rest; Some (asCi :: asCis, CiH :: CiHs, Ctmp))
          end
      end
  end.

Definition verRange (C : key) (as_ : rangeSig) : outcome bool :=
  catch_all false (run (
    pts ← range_points H2 (rs_Ci as_) ge_p3_identity;
    match pts with
    | None => Some false
    | Some (asCi, CiH, Ctmp_p3) =>
        Ctmp ← ge_p3_tobytes Ctmp_p3;
        if negb (equalKeys C Ctmp) then Some false else
        verifyBorromean (rs_asig as_) asCi CiH
    end)).

End borromean.
