(* ===== verification/BorromeanSpec.v ===== *)
(** * Correctness of the range proofs

    A Borromean signature made with the discrete logarithm of one of two points
    for each bit verifies; a range proof made for an amount verifies against
    the commitment it returns, which commits to that amount; and [verRange] is
    defined on every signature of the right shape, whatever its bytes. *)

From Stdlib Require Import Zmod.
From S2P Require Export Borromean RctOpsSpec.

#[local] Open Scope Z_scope.

(** ** The table [H2] *)

(** The first coordinates of the points *)
Definition H2_x : list Z :=
  [44115840154693352731557989475342686826820046586146704265789981914775973517427;
   21887502907852327512161645864292694872593502520628969212237600592913256965730;
   41588944903280473071715959327419035112949396200362177688321681581243820540558;
   24462944360703661855804003447120648570478666629264811155506725847509989995922;
   34736432599419345002075668718594423595422573033361693832907570018378399496671;
   5035696844832586922582584478686745869458741122240005196150197282005161362970;
   8791637206177435063168150332781165970727062219171811828526002389578666362064;
   44882878918884453110191118899098714916143033732634125371304788157271779206644;
   9217263585868509733179310401531949339824061003410897985333169323893767985271;
   11587341316027925284725312109808036020833103907048540189469990259331159815446;
   18879868485482183688684621164973113391561606989557349041600957441324455033754;
   50259519091485564485983747384794324295397414505792154678243150646008888335476;
   51618184371412130469615831305363325329491083088823469136159919609849188902024;
   38929998764697060194418013299181021077952701918395182302407844398238865403721;
   10592985877495640278334570871017595565539287443799705470236513782422631798613;
   25884405003252739968463371498281045756666351093484082674290227293988877761582;
   3291915927713039657947548124417918068232598885629581504755257116635916178065;
   41482334082649911855993915686640811685047202292827534739050733420351955806778;
   3569141040624645068746432076217476712207222541635567318112696561217766065639;
   54750502050501753812678189337729024042148318881833874548923784748270879941565;
   5247231924602377698414268984380571186873117197006503179428150175115377374068;
   10950877724520631727960704505986790897793390731077029035960349829294825813919;
   7527321546596294066994481046354532233444903083400383625596677997965962759135;
   14609051779384522541379836316961019298521571006742426699820281553247851110499;
   25712737277381317502381222081738918858081063803048947018506350394000491098090;
   56745973156249230477345160724644945505181100145856305072418898933968892833151;
   26092861902412766090151769103920569442302326551656930625959149842047394260302;
   11300693936289462366426195910590205602758794849889940179723509944180797690228;
   7501406001513012941475442530835326218194630505827839143568248608989912119242;
   30313005916617871165024799884883088390663758017258171648842049189328948035839;
   54214202598270634349100642072215201520275741979371807405492429666818868356773;
   37693415674051507939458837795304125420846316407653517513227846849425015451605;
   23675740566217078065331237104817060634389702901902215507010974982589696778616;
   14786124139470644446052311911977488163431587522776322069828567173430325550723;
   20027674157896164542028949596442834585218758717894754530997152123736853202695;
   38818776264814999839963375071064556699991834324735983732858720088307303445395;
   26206382071772616819207860000139758588484236835011523110014274059570025078990;
   53882365347687183258723835152445537651541374828017136972102483984710834009243;
   45222167229104647935925341757756639547446992779060613648256871938244179689057;
   33601519402444205932399168378052812384555308175320541519174369541304431348722;
   57885782755842964124280904968679451692808149307755925597289054641053881463829;
   32548187706008030095668147385514017088947192485818319199623486042079246458804;
   38566599956840716636498396927346419529891388523257095161520543366051670653392;
   26407919742309165130375379224703184433330062605849452015480527798190316927098;
   10383970808100680711490195590234212608269322052068566023141708319429332944322;
   45128217331626823137667721595838469940795571629692694682223043441516347986013;
   4626052601440559751628561634009120432073528219788518720301170861156181499782;
   42491102085280442140455972991286696349342346712520285398757936412865369859545;
   34581581910632685795112715522164427366537929724553976482899422296357749086780;
   21960340388546908497137605632632749441948289041688609485711936459222387895739;
   11272421235488258710216428370389040479708689066957703461126893105171939720170;
   24092555184938333255092807336085475413918900663969849757599382821893946019178;
   11997797821102804949559437063302155112044999668514310169081743090983625620633;
   1601509994602381693232066955736016673835590182393756443866306427216305044205;
   47598405048270600565808973951147953620873039818218316396118341995950734916175;
   5810446869357212116405138765904336925708528914857494985056076894857398781513;
   32398694467385399439278747822929578004944710001438265039609411086397047518509;
   43828441849322815424920851440893406270343586074240905519774360253147550390761;
   22350711686641628588738925764518902938852868854977073802542105596923039892113;
   11519816717622446605368503650678244339333777408591483277500126573213417424781;
   34961808490317700960686476548325904437057389410246908036107483865350438970346;
   37546361449045091621200096787086399396019829569202704782948661234707999140786;
   14838734574831445413200033939124225313862355756654344101289092931938177267537;
   34598669537142688881588211151981060077871242680471831086516226716531058598333].

(** Each point is twice the one before, and its encoding is the key of the table. *)
Definition H2_entry (x : Z) (k : key) : Z * Z := (2 * x, 2 * (le_combine k mod 2 ^ 255)).

Definition check_H2_encode (x : Z) (k : key) : bool :=
  bool_decide (le_split 32 (le_combine k mod 2 ^ 255 + 2 ^ 255 * (x mod 2)) = k) &&
  (0 <=? x) && (x <? p25519) && (le_combine k mod 2 ^ 255 <? p25519).

Fixpoint check_H2 (prev : Z * Z) (xs : list Z) (ks : keyV) : bool :=
  match xs, ks with
  | [], [] => true
  | x :: xs, k :: ks =>
      check_H2_encode x k && check_sum prev prev (H2_entry x k) && check_H2 (H2_entry x k) xs ks
  | _, _ => false
  end.

Section coordinates.
#[local] Open Scope Zmod_scope.

Lemma twice_coord (z : Z) (c : Fp) :
  to_F (2 * z) = (1 + 1 : Fp) * c → (0 ≤ z < p25519)%Z → Zmod.to_Z c = z.
Proof.
  intros E Hz. rewrite Zmod.of_Z_mul, to_F_2 in E.
  apply (Zmod.mul_cancel_l_prime _ _ _ prime_25519 two_neq_0_25519) in E. rewrite <- E.
  rewrite Zmod.to_Z_of_Z. by apply Z.mod_small.
Qed.
End coordinates.

Lemma H2_entry_encode P x k :
  twice_is P (H2_entry x k) → check_H2_encode x k = true → k = ed_encode P.
Proof.
  intros [HX HY] HC. unfold check_H2_encode in HC. rewrite !andb_true_iff in HC.
  destruct HC as [[[HE H0] H1] H2]. apply bool_decide_eq_true in HE.
  set (y := le_combine k mod 2 ^ 255) in *. cbn [H2_entry fst snd] in HX, HY. fold y in HY.
  assert (0 ≤ y) by (apply Z.mod_pos_bound; lia).
  rewrite <- HE. unfold ed_encode, f_sign.
  rewrite (twice_coord x _ HX), (twice_coord y _ HY) by lia. done.
Qed.

Lemma check_H2_sound P prev xs ks :
  on_curve P → twice_is P prev → check_H2 prev xs ks = true →
  ks = (λ i, ed_encode (ed_mul (2 ^ (Z.of_nat i + 1)) P)) <$> seq 0 (length ks).
Proof.
  revert P prev ks. induction xs as [|x xs IH]; intros P prev [|k ks] HP HT HC; try done.
  cbn [check_H2] in HC. rewrite !andb_true_iff in HC. destruct HC as [[HE HS] HC].
  pose proof (check_sum_sound P P _ _ _ HP HP HT HT HS) as HT'.
  rewrite (H2_entry_encode _ _ _ HT' HE). cbn [length]. rewrite <- cons_seq, fmap_cons.
  pose proof (ed_double 1 P HP : ed_add P P = ed_mul 2 P) as E2. rewrite E2 in *. f_equal.
  rewrite <- fmap_S_seq, <- list_fmap_compose.
  rewrite (IH _ _ _ (on_curve_mul _ _ HP) HT' HC) at 1.
  apply list_fmap_ext. intros j i _. cbn [compose].
  replace (Z.of_nat (S i) + 1) with (Z.succ (Z.of_nat i + 1)) by lia.
  by rewrite Z.pow_succ_r, Z.mul_comm, <- ed_mul_mul by (lia || done).
Qed.

Lemma H2_head_is : twice_is H25519 (H2_entry (H2_x !!! 0%nat) (H2 !!! 0%nat)).
Proof. split; apply Zmod.of_Z_inj; vm_compute; reflexivity. Qed.

Lemma check_H2_true :
  check_H2 (H2_entry (H2_x !!! 0%nat) (H2 !!! 0%nat)) (drop 1 H2_x) (drop 1 H2) = true.
Proof. vm_compute. reflexivity. Qed.

(** [H2[i]] is [2^i H]. *)
Lemma H2_ok : H2 = (λ i, ed_encode (ed_mul (2 ^ Z.of_nat i) H25519)) <$> seq 0 64.
Proof.
  assert (H2 = rct_H :: drop 1 H2) as -> by reflexivity.
  rewrite <- cons_seq, fmap_cons. apply (f_equal2 cons).
  { rewrite rct_H_ok. exact (f_equal ed_encode (eq_sym (ed_mul_1 H25519))). }
  rewrite (check_H2_sound _ _ _ _ H_on_curve H2_head_is check_H2_true).
  rewrite <- fmap_S_seq, <- list_fmap_compose. apply list_fmap_ext. intros j i _. cbn [compose].
  do 2 f_equal. replace (Z.of_nat i + 1) with (Z.of_nat (S i)) by lia. reflexivity.
Qed.

(** ** Rings of two points *)

Definition lin (a b : key) (P : point) : point :=
  ed_add (mulG (le_combine a)) (ed_mul (le_combine b) P).

Lemma lin_on_curve a b P : on_curve P → on_curve (lin a b P).
Proof. intros HP. unfold lin. auto with edwards. Qed.
#[export] Hint Resolve lin_on_curve : edwards.

Lemma lin_encode P A a b :
  p3_is P A → scalar255 a → scalar255 b →
  (q ← ge_double_scalarmult_base_vartime b A a; ge_tobytes q) = Some (ed_encode (lin a b P)).
Proof.
  intros HP Ha Hb. destruct (ge_double_scalarmult_base_vartime_ok P A b a HP Hb Ha) as (r & Er & Hr).
  step Er. rewrite (ge_tobytes_ok _ _ Hr). unfold sum_point, lin. by rewrite ed_add_comm.
Qed.

Lemma bytes32_split k : bytes32 k → length k = 32%nat ∧ bytes k.
Proof. by intros []. Qed.

(** The same for any bytes: some point *)
Lemma lin_any P A a b :
  p3_is P A → bytes32 a → bytes32 b →
  ∃ Q, on_curve Q ∧ (q ← ge_double_scalarmult_base_vartime b A a; ge_tobytes q) = Some (ed_encode Q).
Proof.
  intros HP [La Ba] [Lb Bb].
  destruct (ge_double_scalarmult_base_vartime_any P A b a HP Lb Bb La Ba) as (vb & va & r & Er & Hr & _).
  exists (comb P B25519 vb va). split; [|by step Er; apply ge_tobytes_ok].
  exact (proj1 Hr).
Qed.

(** A response closes the ring: [(alpha - x e) G + e x G = alpha G]. *)
Lemma lin_response alpha x e :
  lin (to_scalar (alpha - x * le_combine e)) e (mulG x) = mulG alpha.
Proof.
  unfold lin. rewrite le_combine_to_scalar, mulG_mod, mulG_mul, <- mulG_add. f_equal. lia.
Qed.

Section borromean_spec.
Context {F : FastHash} {FL : FastHashLaws F} {RH : RctHash} {RHL : RctHashLaws F RH}.
Context {G : Type} {R : Rng G} {RL : RngLaws R}.

Definition key_hash (k : key) : key := to_scalar (hash_num k).

Lemma key_hash_scalar k : scalar (key_hash k).
Proof. apply to_scalar_scalar. Qed.

Lemma key_hash_ok k : rct_hash_to_scalar k = Some (key_hash k).
Proof. exact (rct_hash_to_scalar_ok k). Qed.

(** The second commitment of a ring, from the challenge and the two responses *)
Definition boro_ring (ee s0 s1 : key) (P1 P2 : point) : key :=
  ed_encode (lin s1 (key_hash (ed_encode (lin s0 ee P1))) P2).

Lemma boro_verify_ok ee s0 s1 P1 P2 A1 A2 :
  scalar255 ee → Forall scalar255 s0 → Forall scalar255 s1 →
  length s0 = length P1 → length s1 = length P1 → length P2 = length P1 →
  Forall2 p3_is P1 A1 → Forall2 p3_is P2 A2 →
  boro_verify ee s0 s1 A1 A2 =
    Some (zip_with (λ s P, boro_ring ee s.1 s.2 P.1 P.2) (zip s0 s1) (zip P1 P2)).
Proof.
  intros He H0. revert s1 P1 P2 A1 A2.
  induction H0 as [|a s0 Ha H0 IH]; intros s1 P1 P2 A1 A2 H1 L0 L1 L2 F1 F2; [done|].
  destruct F1 as [|P A P1 A1 HP F1]; [done|]. destruct F2 as [|P' A' P2 A2 HP' F2]; [done|].
  destruct H1 as [|b s1 Hb H1]; [done|]. injection L0 as L0. injection L1 as L1. injection L2 as L2.
  cbn [boro_verify]. pose proof (lin_encode P A a ee HP Ha He) as E1.
  destruct (ge_double_scalarmult_base_vartime ee A a) as [q1|]; [|done]. cbn [mbind option_bind] in *.
  step E1. step (key_hash_ok (ed_encode (lin a ee P))).
  pose proof (lin_encode P' A' b _ HP' Hb (scalar_255 _ (key_hash_scalar (ed_encode (lin a ee P))))) as E2.
  destruct (ge_double_scalarmult_base_vartime _ A' b) as [q2|]; [|done]. cbn [mbind option_bind] in *.
  step E2. step (IH s1 P1 P2 A1 A2 H1 L0 L1 L2 F1 F2). reflexivity.
Qed.

Lemma boro_verify_any ee s0 s1 P1 P2 A1 A2 :
  bytes32 ee → Forall bytes32 s0 → Forall bytes32 s1 →
  length s0 = length P1 → length s1 = length P1 → length P2 = length P1 →
  Forall2 p3_is P1 A1 → Forall2 p3_is P2 A2 →
  ∃ Lv1, boro_verify ee s0 s1 A1 A2 = Some Lv1 ∧ length Lv1 = length P1.
Proof.
  intros He H0. revert s1 P1 P2 A1 A2.
  induction H0 as [|a s0 Ha H0 IH]; intros s1 P1 P2 A1 A2 H1 L0 L1 L2 F1 F2.
  { exists []. by destruct P1. }
  destruct F1 as [|P A P1 A1 HP F1]; [done|]. destruct F2 as [|P' A' P2 A2 HP' F2]; [done|].
  destruct H1 as [|b s1 Hb H1]; [done|]. injection L0 as L0. injection L1 as L1. injection L2 as L2.
  cbn [boro_verify]. destruct (lin_any P A a ee HP Ha He) as (Q1 & C1 & E1).
  destruct (ge_double_scalarmult_base_vartime ee A a) as [q1|]; [|done]. cbn [mbind option_bind] in *.
  step E1. step (key_hash_ok (ed_encode Q1)).
  destruct (lin_any P' A' b _ HP' Hb (scalar_bytes32 _ (key_hash_scalar (ed_encode Q1)))) as (Q2 & C2 & E2).
  destruct (ge_double_scalarmult_base_vartime _ A' b) as [q2|]; [|done]. cbn [mbind option_bind] in *.
  step E2. destruct (IH s1 P1 P2 A1 A2 H1 L0 L1 L2 F1 F2) as (Lv & E & HL). step E.
  eexists. split; [reflexivity|]. cbn. lia.
Qed.

(** ** Making a signature *)

(** A bit, the secret and the two points of its ring *)
Record boro_bit := { bt_index : Z; bt_x : key; bt_P1 : point; bt_P2 : point }.

(** The secret is the logarithm of the point the bit selects. *)
Record knows (b : boro_bit) : Prop := {
  kn_x : scalar (bt_x b);
  kn_P1 : on_curve (bt_P1 b);
  kn_P2 : on_curve (bt_P2 b);
  kn_log : bt_index b = 0 ∧ bt_P1 b = mulG (le_combine (bt_x b)) ∨
           bt_index b = 1 ∧ bt_P2 b = mulG (le_combine (bt_x b))
}.

(** What the first loop leaves for a bit *)
Record row_ok (b : boro_bit) (row : boro_row) : Prop := {
  ro_alpha : scalar (br_alpha row);
  ro_0 : bt_index b = 0 → ∃ s1, br_s1 row = Some s1 ∧ scalar s1 ∧
    br_L1 row = ed_encode
      (lin s1 (key_hash (ed_encode (mulG (le_combine (br_alpha row))))) (bt_P2 b));
  ro_1 : bt_index b = 1 → br_L1 row = ed_encode (mulG (le_combine (br_alpha row)))
}.

Lemma gen_bind_ret {A B} (m : gen G A) (k : A → gen G B) s a s' :
  m s = Ret (a, s') → (m ≫= k) s = k a s'.
Proof. intros E. unfold mbind, gen_bind. by rewrite E. Qed.

Lemma boro_commit_ok b s :
  knows b → rng_ok s →
  ∃ row s', boro_commit (bt_index b) (ed_encode (bt_P2 b)) s = Ret (row, s') ∧ row_ok b row ∧ rng_ok s'.
Proof.
  intros [Hx HP1 HP2 Hlog] Hs. unfold boro_commit.
  destruct (skGen_ok s Hs) as (alpha & s1 & Ha & Hs1 & E1). rewrite (draw_step _ _ _ _ _ E1).
  rewrite (calc_step _ _ _ _ (run_some _ _ (scalarmultBase_ok alpha (scalar_bytes32 _ Ha)))).
  destruct Hlog as [[Hi _]|[Hi _]]; rewrite Hi; cbn [Z.eqb Pos.eqb].
  - destruct (skGen_ok s1 Hs1) as (t & s2 & Ht & Hs2 & E2). rewrite (draw_step _ _ _ _ _ E2).
    rewrite (calc_step _ _ _ _ (run_some _ _ (key_hash_ok _))).
    rewrite (calc_step _ _ _ _ (addKeys2_ok t _ _ (scalar_255 _ Ht) (scalar_255 _ (key_hash_scalar _)) HP2)).
    eexists _, s2. split; [reflexivity|]. split; [|done]. split; cbn [br_alpha br_s1 br_L1]; [done| |by rewrite Hi].
    intros _. by exists t.
  - eexists _, s1. split; [reflexivity|]. split; [|done]. split; [done|by rewrite Hi|done].
Qed.

Lemma boro_commits_ok bs s :
  Forall knows bs → rng_ok s →
  ∃ rows s', boro_commits (bt_index <$> bs) ((λ b, ed_encode (bt_P2 b)) <$> bs) s = Ret (rows, s') ∧
    Forall2 row_ok bs rows ∧ rng_ok s'.
Proof.
  intros HF. revert s. induction HF as [|b bs Hb HF IH]; intros s Hs.
  { exists [], s. split; [done|]. split; [constructor|done]. }
  rewrite !fmap_cons. cbn [boro_commits].
  destruct (boro_commit_ok b s Hb Hs) as (row & s1 & E1 & Hrow & Hs1).
  rewrite (gen_bind_ret _ _ _ _ _ E1).
  destruct (IH s1 Hs1) as (rows & s2 & E2 & Hrows & Hs2). rewrite (gen_bind_ret _ _ _ _ _ E2).
  eexists _, s2. split; [reflexivity|]. split; [by constructor|done].
Qed.

Lemma boro_close_ok ee b row s :
  scalar ee → knows b → row_ok b row → rng_ok s →
  ∃ t s', boro_close ee (bt_index b) (bt_x b) (ed_encode (bt_P1 b)) row s = Ret (t, s') ∧
    scalar t.1 ∧ scalar t.2 ∧ boro_ring ee t.1 t.2 (bt_P1 b) (bt_P2 b) = br_L1 row ∧ rng_ok s'.
Proof.
  intros He [Hx HP1 HP2 Hlog] [Ha H0 H1] Hs. unfold boro_close, boro_ring.
  destruct Hlog as [[Hi Hl]|[Hi Hl]]; rewrite Hi; cbn [Z.eqb].
  - destruct (H0 Hi) as (s1 & E & Hs1 & HL).
    rewrite (calc_step _ _ _ _ (run_some _ _ (sc_mulsub_scalar _ _ _ Hx He Ha))).
    rewrite (calc_step _ _ _ _ (run_some _ _ E)).
    eexists _, s. split; [reflexivity|]. cbn [fst snd]. split; [apply to_scalar_scalar|].
    split; [done|]. split; [|done]. rewrite HL, Hl. do 4 f_equal. apply lin_response.
  - destruct (skGen_ok s Hs) as (t & s2 & Ht & Hs2 & E2). rewrite (draw_step _ _ _ _ _ E2).
    rewrite (calc_step _ _ _ _ (addKeys2_ok t _ _ (scalar_255 _ Ht) (scalar_255 _ He) HP1)).
    rewrite (calc_step _ _ _ _ (run_some _ _ (key_hash_ok _))).
    rewrite (calc_step _ _ _ _ (run_some _ _ (sc_mulsub_scalar _ _ _ Hx (key_hash_scalar _) Ha))).
    eexists _, s2. split; [reflexivity|]. cbn [fst snd]. split; [done|].
    split; [apply to_scalar_scalar|]. split; [|done]. rewrite (H1 Hi), Hl. f_equal.
    apply lin_response.
Qed.

Lemma boro_closes_ok ee bs rows s :
  scalar ee → Forall knows bs → Forall2 row_ok bs rows → rng_ok s →
  ∃ ts s', boro_closes ee (bt_index <$> bs) (bt_x <$> bs) ((λ b, ed_encode (bt_P1 b)) <$> bs) rows s =
      Ret (ts, s') ∧
    Forall scalar ts.*1 ∧ Forall scalar ts.*2 ∧ length ts = length bs ∧
    zip_with (λ t P, boro_ring ee t.1 t.2 P.1 P.2) (zip ts.*1 ts.*2) (zip (bt_P1 <$> bs) (bt_P2 <$> bs)) =
      br_L1 <$> rows ∧ rng_ok s'.
Proof.
  intros He HF HR. revert s HF. induction HR as [|b row bs rows Hr HR IH]; intros s HF Hs.
  { exists [], s. split_and!; try done; constructor. }
  apply Forall_cons_1 in HF as [Hb HF]. rewrite !fmap_cons. cbn [boro_closes].
  destruct (boro_close_ok ee b row s He Hb Hr Hs) as (t & s1 & E1 & H0 & H1 & HL & Hs1).
  rewrite (gen_bind_ret _ _ _ _ _ E1).
  destruct (IH s1 HF Hs1) as (ts & s2 & E2 & F0 & F1 & Hlen & HZ & Hs2).
  rewrite (gen_bind_ret _ _ _ _ _ E2).
  exists (t :: ts), s2. split; [reflexivity|]. rewrite !fmap_cons.
  split; [by constructor|]. split; [by constructor|]. split; [cbn; lia|]. split; [|done].
  cbn [zip zip_with fst snd]. by rewrite HL, HZ.
Qed.

Lemma genBorromean_ok bs s :
  Forall knows bs → rng_ok s →
  ∃ bb s', genBorromean (bt_x <$> bs) ((λ b, ed_encode (bt_P1 b)) <$> bs)
      ((λ b, ed_encode (bt_P2 b)) <$> bs) (bt_index <$> bs) s = Ret (bb, s') ∧ rng_ok s' ∧
    scalar (bb_ee bb) ∧ Forall scalar (bb_s0 bb) ∧ Forall scalar (bb_s1 bb) ∧
    length (bb_s0 bb) = length bs ∧ length (bb_s1 bb) = length bs ∧
    ∀ A1 A2, Forall2 p3_is (bt_P1 <$> bs) A1 → Forall2 p3_is (bt_P2 <$> bs) A2 →
      verifyBorromean bb A1 A2 = Some true.
Proof.
  intros HF Hs. unfold genBorromean.
  destruct (boro_commits_ok bs s HF Hs) as (rows & s1 & E1 & HR & Hs1). rewrite (gen_bind_ret _ _ _ _ _ E1).
  rewrite (calc_step _ _ _ _ (run_some _ _ (hash_to_scalar_key64_ok _))).
  set (ee := to_scalar _). assert (scalar ee) as He by apply to_scalar_scalar.
  destruct (boro_closes_ok ee bs rows s1 He HF HR Hs1) as (ts & s2 & E2 & F0 & F1 & Hlen & HZ & Hs2).
  rewrite (gen_bind_ret _ _ _ _ _ E2).
  eexists _, s2. split; [reflexivity|]. cbn [bb_ee bb_s0 bb_s1]. rewrite !length_fmap.
  split_and!; try done. intros A1 A2 H1 H2. unfold verifyBorromean. cbn [bb_ee bb_s0 bb_s1].
  assert (∀ l, Forall scalar l → Forall scalar255 l) as HW
    by (intros l Hl; eapply Forall_impl; [|exact Hl]; exact scalar_255).
  pose proof (boro_verify_ok ee ts.*1 ts.*2 (bt_P1 <$> bs) (bt_P2 <$> bs) A1 A2) as E.
  rewrite !length_fmap in E.
  step (E (scalar_255 _ He) (HW _ F0) (HW _ F1) Hlen Hlen eq_refl H1 H2).
  rewrite HZ. step (hash_to_scalar_key64_ok (br_L1 <$> rows)). fold ee.
  rewrite equalKeys_ok by apply He. by rewrite bool_decide_true.
Qed.

(** Any signature of the right shape is decided. *)
Definition boro_shape (n : nat) (bb : boroSig) : Prop :=
  bytes32 (bb_ee bb) ∧ Forall bytes32 (bb_s0 bb) ∧ Forall bytes32 (bb_s1 bb) ∧
  length (bb_s0 bb) = n ∧ length (bb_s1 bb) = n.

Lemma verifyBorromean_any bb P1 P2 A1 A2 :
  boro_shape (length P1) bb → length P2 = length P1 → Forall2 p3_is P1 A1 → Forall2 p3_is P2 A2 →
  ∃ b, verifyBorromean bb A1 A2 = Some b.
Proof.
  intros (He & H0 & H1 & L0 & L1) L2 F1 F2. unfold verifyBorromean.
  destruct (boro_verify_any _ _ _ P1 P2 A1 A2 He H0 H1 L0 L1 L2 F1 F2) as (Lv & E & _). step E.
  step (hash_to_scalar_key64_ok Lv). by eexists.
Qed.

(** ** Making a range proof *)

(** The points [2^i H] *)
Definition weights (i n : nat) : list point := (λ j, ed_mul (2 ^ Z.of_nat j) H25519) <$> seq i n.

Lemma weights_on_curve i n : Forall on_curve (weights i n).
Proof. apply Forall_fmap, Forall_true. intros j. cbn. auto with edwards. Qed.

Lemma weights_cons i n : weights i (S n) = ed_mul (2 ^ Z.of_nat i) H25519 :: weights (S i) n.
Proof. done. Qed.

Lemma H2_weights : H2 = ed_encode <$> weights 0 64.
Proof. rewrite H2_ok. unfold weights. by rewrite <- list_fmap_compose. Qed.

(** The ring of bit [bi] of weight [2^i], with the mask [ai]: the points are
    commitments to [bi 2^i] and to [bi 2^i - 2^i]. *)
Definition bit_ring (i : nat) (bi : Z) (ai : key) : boro_bit :=
  {| bt_index := bi; bt_x := ai;
     bt_P1 := commitment (le_combine ai) (bi * 2 ^ Z.of_nat i);
     bt_P2 := commitment (le_combine ai) (bi * 2 ^ Z.of_nat i - 2 ^ Z.of_nat i) |}.

Fixpoint bit_rings (i : nat) (b : list Z) (ais : keyV) : list boro_bit :=
  match b, ais with
  | bi :: b, ai :: ais => bit_ring i bi ai :: bit_rings (S i) b ais
  | _, _ => []
  end.

Lemma bit_ring_knows i bi ai : bi = 0 ∨ bi = 1 → scalar ai → knows (bit_ring i bi ai).
Proof.
  intros Hb Ha. split; cbn [bit_ring bt_x bt_P1 bt_P2 bt_index]; [done|auto with edwards..|].
  destruct Hb as [-> | ->]; [left|right]; (split; [done|]); rewrite <- commitment_0; f_equal; lia.
Qed.

Lemma bit_rings_knows i b ais : is_bits b → Forall scalar ais → Forall knows (bit_rings i b ais).
Proof.
  intros Hb. revert i ais. induction Hb as [|bi b Hbi Hb IH]; intros i ais HF; [constructor|].
  destruct HF as [|ai ais Ha HF]; [constructor|]. cbn [bit_rings].
  constructor; [by apply bit_ring_knows|by apply IH].
Qed.

Lemma bit_rings_P1 i b ais :
  is_bits b → Forall scalar ais → Forall on_curve (bt_P1 <$> bit_rings i b ais).
Proof.
  intros Hb HF. apply Forall_fmap. eapply Forall_impl; [|by apply bit_rings_knows]. exact kn_P1.
Qed.

Lemma bit_rings_index i b ais : length ais = length b → bt_index <$> bit_rings i b ais = b.
Proof.
  revert i ais. induction b as [|bi b IH]; intros i [|ai ais] HL; try done.
  injection HL as HL. cbn [bit_rings]. rewrite fmap_cons. by rewrite IH.
Qed.

Lemma length_bit_rings i b ais : length ais = length b → length (bit_rings i b ais) = length b.
Proof. intros HL. rewrite <- (bit_rings_index i b ais HL) at 2. by rewrite length_fmap. Qed.

(** The second points are the first less the weights. *)
Lemma bit_rings_P2 i b ais :
  length ais = length b →
  zip_with (λ W P, ed_add P (ed_opp W)) (weights i (length b)) (bt_P1 <$> bit_rings i b ais) =
    bt_P2 <$> bit_rings i b ais.
Proof.
  revert i ais. induction b as [|bi b IH]; intros i [|ai ais] HL; try done.
  injection HL as HL. cbn [bit_rings length]. rewrite weights_cons, !fmap_cons. cbn [zip_with].
  f_equal; [|by apply IH]. cbn [bit_ring bt_P1 bt_P2]. rewrite <- ed_mul_opp.
  unfold commitment. by rewrite <- ed_add_assoc, <- ed_mul_add by auto with edwards.
Qed.

Definition ring_row (t : boro_bit) : key * key * key :=
  (bt_x t, ed_encode (bt_P1 t), ed_encode (bt_P2 t)).

Lemma commitment_add_H a v w : ed_add (commitment a v) (ed_mul w H25519) = commitment a (v + w).
Proof. unfold commitment. rewrite ed_mul_add, ed_add_assoc by auto with edwards. done. Qed.

Lemma ed_opp_mul n P : ed_opp (ed_mul n P) = ed_mul (- n) P.
Proof. symmetry. apply ed_mul_opp. Qed.

Lemma prove_bit_ok i bi s :
  bi = 0 ∨ bi = 1 → rng_ok s →
  ∃ ai s', prove_bit bi (ed_encode (ed_mul (2 ^ Z.of_nat i) H25519)) s =
      Ret (ring_row (bit_ring i bi ai), s') ∧ scalar ai ∧ rng_ok s'.
Proof.
  intros Hb Hs. unfold prove_bit.
  destruct (skGen_ok s Hs) as (ai & s1 & Ha & Hs1 & E1). rewrite (draw_step _ _ _ _ _ E1).
  set (W := ed_mul (2 ^ Z.of_nat i) H25519). assert (on_curve W) as HW by (unfold W; auto with edwards).
  exists ai, s1. split; [|done].
  assert ((if bi =? 0 then calc (run (scalarmultBase ai))
     else if bi =? 1 then calc (addKeys1 ai (ed_encode W)) else calc Undef) =
     (calc (Ret (ed_encode (bt_P1 (bit_ring i bi ai)))) : gen G key)) as ->.
  { destruct Hb as [-> | ->]; cbn [Z.eqb Pos.eqb bit_ring bt_P1].
    - rewrite (run_some _ _ (scalarmultBase_ok ai (scalar_bytes32 _ Ha))).
      by rewrite Z.mul_0_l, commitment_0.
    - rewrite (addKeys1_ok ai W (scalar_bytes32 _ Ha) HW). unfold W.
      by rewrite <- commitment_0, commitment_add_H, Z.mul_1_l. }
  rewrite (calc_step _ _ _ _ (eq_refl _)).
  rewrite (calc_step _ _ _ _ (subKeys_ok _ W (kn_P1 _ (bit_ring_knows i bi ai Hb Ha)) HW)).
  unfold ring_row. cbn [bit_ring bt_x bt_P1 bt_P2]. unfold W. rewrite ed_opp_mul, commitment_add_H.
  by rewrite Z.add_opp_r.
Qed.

Lemma prove_bits_ok b i T v mask s :
  is_bits b → scalar mask → T = commitment (le_combine mask) v → rng_ok s →
  ∃ ais mask' s',
    let rings := bit_rings i b ais in
    let C := ed_add T (point_sum (bt_P1 <$> rings)) in
    prove_bits b (ed_encode <$> weights i (length b)) mask (ed_encode T) s =
      Ret ((ring_row <$> rings, mask', ed_encode C), s') ∧
    length ais = length b ∧ Forall scalar ais ∧ scalar mask' ∧ rng_ok s' ∧
    C = commitment (le_combine mask') (v + 2 ^ Z.of_nat i * bits_val b).
Proof.
  intros Hb. revert i T v mask s. induction Hb as [|bi b Hbi Hb IH]; intros i T v mask s Hm HT Hs.
  { exists [], mask, s. cbn [bit_rings bits_val fmap list_fmap]. cbv zeta.
    rewrite (ed_add_0_r T : ed_add T (point_sum []) = T). split_and!; try done.
    rewrite Z.mul_0_r, Z.add_0_r. done. }
  cbn [length]. rewrite weights_cons, fmap_cons. cbn [prove_bits].
  destruct (prove_bit_ok i bi s Hbi Hs) as (ai & s1 & E1 & Ha & Hs1). rewrite (gen_bind_ret _ _ _ _ _ E1).
  cbn [ring_row fst snd bit_ring bt_x].
  rewrite (calc_step _ _ _ _ (run_some _ _ (sc_add_scalar _ _ Hm Ha))).
  assert (on_curve T) as CT by (rewrite HT; auto with edwards).
  pose proof (kn_P1 _ (bit_ring_knows i bi ai Hbi Ha)) as C1.
  rewrite (calc_step _ _ _ _ (addKeys_ok T _ CT C1)).
  set (mask1 := to_scalar _). assert (scalar mask1) as Hm1 by apply to_scalar_scalar.
  destruct (IH (S i) (ed_add T (bt_P1 (bit_ring i bi ai))) (v + bi * 2 ^ Z.of_nat i) mask1 s1 Hm1)
    as (ais & mask2 & s2 & E2 & HL & HF & Hm2 & Hs2 & HC); [|done|].
  { rewrite HT. cbn [bit_ring bt_P1]. rewrite commitment_add. unfold mask1.
    by rewrite le_combine_to_scalar, commitment_mod. }
  cbv zeta in *. rewrite (gen_bind_ret _ _ _ _ _ E2).
  pose proof (bit_rings_P1 (S i) b ais Hb HF) as HPs.
  exists (ai :: ais), mask2, s2. cbn [bit_rings]. rewrite !fmap_cons.
  assert (ed_add T (point_sum (bt_P1 (bit_ring i bi ai) :: (bt_P1 <$> bit_rings (S i) b ais))) =
    ed_add (ed_add T (bt_P1 (bit_ring i bi ai))) (point_sum (bt_P1 <$> bit_rings (S i) b ais))) as ->.
  { rewrite psum_cons. symmetry. by rewrite ed_add_assoc by auto with edwards. }
  split; [reflexivity|]. split; [cbn; lia|]. split; [by constructor|]. split; [done|]. split; [done|].
  rewrite HC. f_equal. cbn [bits_val]. rewrite pow2_nat_succ. ring.
Qed.

(** ** Verifying a range proof *)

(** The loop of [verRange] on points *)
Lemma range_points_ok Ws Ps T t :
  Forall on_curve Ws → Forall on_curve Ps → length Ps = length Ws → p3_is T t →
  ∃ A1 A2 t', range_points (ed_encode <$> Ws) (ed_encode <$> Ps) t = Some (Some (A1, A2, t')) ∧
    Forall2 p3_is Ps A1 ∧ Forall2 p3_is (zip_with (λ W P, ed_add P (ed_opp W)) Ws Ps) A2 ∧
    p3_is (ed_add T (point_sum Ps)) t'.
Proof.
  intros HW. revert Ps T t. induction HW as [|W Ws HW HWs IH]; intros Ps T t HP HL HT.
  { destruct Ps; [|done]. exists [], [], t. cbn. rewrite (ed_add_0_r T : ed_add T (point_sum []) = T).
    split_and!; try done; constructor. }
  destruct HP as [|P Ps HP HPs]; [done|]. injection HL as HL. rewrite !fmap_cons. cbn [range_points].
  destruct (ge_frombytes_encode W HW) as (w & Ew & Hw). step Ew. cbv iota.
  destruct (ge_p3_to_cached_ok _ _ Hw) as (cw & Ecw & Hcw). step Ecw.
  destruct (ge_frombytes_encode P HP) as (q & Eq & Hq). step Eq. cbv iota.
  destruct (ge_sub_ok _ _ _ _ Hq Hcw) as (u & Eu & Hu). step Eu.
  destruct (ge_p3_to_cached_ok _ _ Hq) as (cq & Ecq & Hcq). step Ecq.
  destruct (ge_p1p1_to_p3_ok _ _ Hu) as (d & Ed & Hd). step Ed.
  destruct (ge_add_ok _ _ _ _ HT Hcq) as (a & Ea & Ha). step Ea.
  destruct (ge_p1p1_to_p3_ok _ _ Ha) as (t1 & Et & Ht). step Et.
  destruct (IH Ps _ t1 HPs HL Ht) as (A1 & A2 & t2 & E & F1 & F2 & H2). step E.
  exists (q :: A1), (d :: A2), t2. split; [reflexivity|]. split; [by constructor|].
  split; [by constructor|]. rewrite psum_cons.
  by rewrite ed_add_assoc by (apply (proj1 HT) || auto with edwards).
Qed.

(** A key that is not a point *)
Lemma range_points_invalid Ws Ci t T :
  Forall on_curve Ws → Forall bytes32 Ci → length Ci = length Ws → p3_is T t →
  Exists invalid_key Ci → range_points (ed_encode <$> Ws) Ci t = Some None.
Proof.
  intros HW. revert Ci T t. induction HW as [|W Ws HW HWs IH]; intros Ci T t HB HL HT HE.
  { destruct Ci; [|done]. by apply Exists_nil in HE. }
  destruct HB as [|k Ci Hk HB]; [done|]. injection HL as HL. rewrite fmap_cons. cbn [range_points].
  destruct (ge_frombytes_encode W HW) as (w & Ew & Hw). step Ew. cbv iota.
  destruct (ge_p3_to_cached_ok _ _ Hw) as (cw & Ecw & Hcw). step Ecw.
  destruct (load_cases k Hk) as [(P & HP & ->)|Hi]; [|by step (load_invalid k Hk Hi)].
  apply Exists_cons in HE as [HE|HE]; [by destruct (HE P HP)|].
  destruct (ge_frombytes_encode P HP) as (q & Eq & Hq). step Eq. cbv iota.
  destruct (ge_sub_ok _ _ _ _ Hq Hcw) as (u & Eu & Hu). step Eu.
  destruct (ge_p3_to_cached_ok _ _ Hq) as (cq & Ecq & Hcq). step Ecq.
  destruct (ge_p1p1_to_p3_ok _ _ Hu) as (d & Ed & Hd). step Ed.
  destruct (ge_add_ok _ _ _ _ HT Hcq) as (a & Ea & Ha). step Ea.
  destruct (ge_p1p1_to_p3_ok _ _ Ha) as (t1 & Et & Ht). step Et.
  by step (IH Ci _ t1 HB HL Ht HE).
Qed.

Definition range_shape (sig : rangeSig) : Prop :=
  boro_shape 64 (rs_asig sig) ∧ Forall bytes32 (rs_Ci sig) ∧ length (rs_Ci sig) = 64%nat.

(** The keys of an array are all points, or one is not. *)
Lemma keys_cases ks :
  Forall bytes32 ks → (∃ Ps, Forall on_curve Ps ∧ ks = ed_encode <$> Ps) ∨ Exists invalid_key ks.
Proof.
  induction 1 as [|k ks Hk HB IH]; [left; exists []; by split; [constructor|]|].
  destruct (load_cases k Hk) as [(P & HP & ->)|Hi]; [|right; by left].
  destruct IH as [(Ps & HPs & ->)|HE]; [left|right; by right].
  exists (P :: Ps). split; [by constructor|done].
Qed.

Lemma encodes_valid Ps : Forall on_curve Ps → ¬ Exists invalid_key (ed_encode <$> Ps).
Proof.
  induction 1 as [|P Ps HP HPs IH]; intros HE; [by apply Exists_nil in HE|].
  rewrite fmap_cons in HE. apply Exists_cons in HE as [HE|HE]; [by destruct (HE P HP)|by apply IH].
Qed.

Lemma fmap_inj_on {A B} (f : A → B) (Q : A → Prop) l k :
  (∀ x y, Q x → Q y → f x = f y → x = y) → Forall Q l → Forall Q k → f <$> l = f <$> k → l = k.
Proof.
  intros Hf Hl. revert k. induction Hl as [|x l Hx Hl IH]; intros [|y k] Hk E; try done.
  apply Forall_cons_1 in Hk as [Hy Hk]. rewrite !fmap_cons in E. injection E as E1 E2.
  f_equal; [by apply Hf|by apply IH].
Qed.

Lemma encodes_inj Ps Qs :
  Forall on_curve Ps → Forall on_curve Qs → ed_encode <$> Ps = ed_encode <$> Qs → Ps = Qs.
Proof. apply fmap_inj_on. intros P Q HP HQ. by apply ed_encode_inj. Qed.

(** The equation of the rings *)
Definition rings_close (bb : boroSig) (P1 P2 : list point) : Prop :=
  bb_ee bb = to_scalar (hash_num (mjoin
    (zip_with (λ s P, boro_ring (bb_ee bb) s.1 s.2 P.1 P.2) (zip (bb_s0 bb) (bb_s1 bb)) (zip P1 P2)))).

Lemma verifyBorromean_ok bb P1 P2 A1 A2 :
  boro_shape (length P1) bb → scalar255 (bb_ee bb) → Forall scalar255 (bb_s0 bb) →
  Forall scalar255 (bb_s1 bb) → length P2 = length P1 → Forall2 p3_is P1 A1 → Forall2 p3_is P2 A2 →
  ∃ b, verifyBorromean bb A1 A2 = Some b ∧ (b = true ↔ rings_close bb P1 P2).
Proof.
  intros (He & _ & _ & L0 & L1) Se S0 S1 L2 F1 F2. unfold verifyBorromean, rings_close.
  step (boro_verify_ok _ _ _ P1 P2 A1 A2 Se S0 S1 L0 L1 L2 F1 F2).
  eexists. step (hash_to_scalar_key64_ok (zip_with (λ s P, boro_ring (bb_ee bb) s.1 s.2 P.1 P.2)
    (zip (bb_s0 bb) (bb_s1 bb)) (zip P1 P2))). split; [reflexivity|].
  rewrite equalKeys_ok by (apply to_scalar_scalar || apply He). rewrite bool_decide_eq_true.
  split; intros E; exact (eq_sym E).
Qed.

Definition less_weights (Ps : list point) : list point :=
  zip_with (λ W P, ed_add P (ed_opp W)) (weights 0 64) Ps.

Lemma length_weights i n : length (weights i n) = n.
Proof. unfold weights. by rewrite length_fmap, length_seq. Qed.

(** On points: the sum is compared, then the rings are checked. *)
Lemma verRange_points C sig Ps :
  length C = 32%nat → Forall on_curve Ps → rs_Ci sig = ed_encode <$> Ps → length Ps = 64%nat →
  ∃ A1 A2, Forall2 p3_is Ps A1 ∧ Forall2 p3_is (less_weights Ps) A2 ∧
    verRange C sig = run (if bool_decide (C = ed_encode (point_sum Ps))
      then verifyBorromean (rs_asig sig) A1 A2 else Some false).
Proof.
  intros HC HPs Ei HL. unfold verRange. rewrite Ei, H2_weights.
  destruct (range_points_ok (weights 0 64) Ps ed_zero ge_p3_identity (weights_on_curve _ _) HPs
    ltac:(by rewrite length_weights) ge_p3_identity_is) as (A1 & A2 & t & E & F1 & F2 & Ht).
  exists A1, A2. split; [done|]. split; [done|]. step E. cbv iota.
  step (ge_p3_tobytes_ok _ _ Ht). rewrite ed_add_0_l.
  rewrite equalKeys_ok by (done || apply length_ed_encode).
  case_bool_decide; cbn [negb catch_all run]; [|done]. by destruct verifyBorromean.
Qed.

Lemma length_less_weights Ps : length Ps = 64%nat → length (less_weights Ps) = length Ps.
Proof. intros HL. unfold less_weights. rewrite length_zip_with, length_weights. lia. Qed.

(** What [verRange] decides, on every signature of the right shape *)
Lemma verRange_ok C sig :
  bytes32 C → range_shape sig →
  ∃ b, verRange C sig = Ret b ∧
    (b = true → ∃ Ps, Forall on_curve Ps ∧ rs_Ci sig = ed_encode <$> Ps ∧ C = ed_encode (point_sum Ps)) ∧
    (scalar255 (bb_ee (rs_asig sig)) → Forall scalar255 (bb_s0 (rs_asig sig)) →
     Forall scalar255 (bb_s1 (rs_asig sig)) →
     (b = true ↔ ∃ Ps, Forall on_curve Ps ∧ rs_Ci sig = ed_encode <$> Ps ∧ C = ed_encode (point_sum Ps) ∧
       rings_close (rs_asig sig) Ps (less_weights Ps))).
Proof.
  intros HC (HS & HB & HL). destruct (keys_cases _ HB) as [(Ps & HPs & Ei)|Hi].
  2: { exists false. split; [|split; [done|]].
    - unfold verRange. rewrite H2_weights.
      rewrite (bind_some _ _ _ (range_points_invalid (weights 0 64) _ _ _ (weights_on_curve _ _) HB
        ltac:(by rewrite length_weights) ge_p3_identity_is Hi)). done.
    - intros _ _ _. split; [done|]. intros (Ps & HPs & E & _). exfalso. rewrite E in Hi. clear -Hi HPs.
      by apply encodes_valid in Hi. }
  assert (length Ps = 64%nat) as HL' by (by rewrite <- HL, Ei, length_fmap).
  destruct (verRange_points C sig Ps (proj1 HC) HPs Ei HL') as (A1 & A2 & F1 & F2 & ->).
  pose proof (length_less_weights Ps HL') as HW.
  assert (∀ Qs, Forall on_curve Qs → rs_Ci sig = ed_encode <$> Qs → Qs = Ps) as HU.
  { intros Qs HQs EQ. rewrite Ei in EQ. by apply encodes_inj. }
  rewrite HL' in *. rewrite <- HL' in HS.
  case_bool_decide as EC.
  - destruct (verifyBorromean_any _ Ps (less_weights Ps) A1 A2 HS ltac:(lia) F1 F2) as (b & Eb).
    exists b. rewrite Eb. split; [done|]. split; [intros _; by exists Ps|].
    intros Se S0 S1. destruct (verifyBorromean_ok _ Ps (less_weights Ps) A1 A2 HS Se S0 S1 ltac:(lia) F1 F2) as (b' & Eb' & Hb).
    rewrite Eb in Eb'. injection Eb' as <-. rewrite Hb. split; [intros HR; by exists Ps|].
    intros (Qs & HQs & EQ & _ & HR). by rewrite (HU Qs HQs EQ) in HR.
  - exists false. split; [done|]. split; [done|]. intros _ _ _. split; [done|].
    intros (Qs & HQs & EQ & EC' & _). by rewrite (HU Qs HQs EQ) in EC'.
Qed.

Lemma proveRange_ok amount s :
  0 ≤ amount < 2 ^ 64 → rng_ok s →
  ∃ sig mask s', let C := ed_encode (commitment (le_combine mask) amount) in
    proveRange amount s = Ret ((sig, C, mask), s') ∧ scalar mask ∧ rng_ok s' ∧
    range_shape sig ∧ verRange C sig = Ret true.
Proof.
  intros Ha Hs. unfold proveRange.
  rewrite (calc_step _ _ _ _ (run_some _ _ (d2b_ok (replicate 64 0) amount eq_refl Ha))).
  pose proof (bit_list_bits 64 amount) as HB. pose proof (length_bit_list 64 amount) as HLb.
  pose proof (bits_val_list 64 amount) as HV. rewrite Z.mod_small in HV by done.
  set (b := bit_list 64 amount) in *.
  assert (scalar zero) as Hz by (split; [reflexivity|apply (bool_decide_unpack _); vm_compute; exact I|reflexivity]).
  destruct (prove_bits_ok b 0 ed_zero 0 zero s HB Hz) as (ais & mask & s1 & E1 & HLa & HFa & Hm & Hs1 & HC).
  { symmetry. unfold commitment. cbn [ed_mul]. rewrite ed_add_0_r. reflexivity. }
  { done. }
  cbv zeta in *. rewrite HLb, <- H2_weights, <- rct_identity_ok in E1.
  rewrite (gen_bind_ret _ _ _ _ _ E1). set (rings := bit_rings 0 b ais) in *.
  rewrite ed_add_0_l in *. rewrite HC.
  replace (0 + 2 ^ Z.of_nat 0 * bits_val b) with amount in * by (rewrite HV; lia).
  pose proof (bit_rings_knows 0 b ais HB HFa) as HK. fold rings in HK.
  pose proof (bit_rings_index 0 b ais HLa) as HI. fold rings in HI.
  pose proof (length_bit_rings 0 b ais HLa) as HLr. fold rings in HLr. rewrite HLb in HLr.
  destruct (genBorromean_ok rings s1 HK Hs1) as (bb & s2 & E2 & Hs2 & Se & S0 & S1 & L0 & L1 & HVf).
  rewrite <- !list_fmap_compose. rewrite HI in E2.
  rewrite (gen_bind_ret _ _ _ _ _ E2).
  eexists _, mask, s2. split; [reflexivity|]. split; [done|]. split; [done|].
  assert (∀ l, Forall scalar l → Forall bytes32 l) as HW
    by (intros l Hl; eapply Forall_impl; [|exact Hl]; exact scalar_bytes32).
  split.
  { unfold range_shape. cbn [rs_asig rs_Ci]. split; [|split; [|by rewrite length_fmap, HLr]].
    - split; [by apply scalar_bytes32|]. split; [by apply HW|]. split; [by apply HW|]. by rewrite L0, L1.
    - apply Forall_fmap, Forall_true. intros t. apply bytes32_encode. }
  pose proof (bit_rings_P1 0 b ais HB HFa) as HP1. fold rings in HP1.
  destruct (verRange_points (ed_encode (commitment (le_combine mask) amount))
    {| rs_asig := bb; rs_Ci := ((λ r, r.1.2) ∘ ring_row) <$> rings |} (bt_P1 <$> rings))
    as (A1 & A2 & F1 & F2 & ->); [apply length_ed_encode|done| |by rewrite length_fmap|].
  { cbn [rs_Ci]. by rewrite <- list_fmap_compose. }
  rewrite HC, bool_decide_true by done. cbn [rs_asig].
  unfold less_weights in F2. rewrite <- HLb in F2. unfold rings in F2. rewrite bit_rings_P2 in F2 by done.
  by rewrite HVf.
Qed.

End borromean_spec.

(** C8. Range proofs are complete: for every amount below [2^64], [proveRange]
    returns a signature, a mask and the commitment to the amount with that
    mask, and [verRange] accepts the signature for the commitment. *)
Theorem range_proof_spec (B : Build) (amount : Z) (s : random_state) :
  0 ≤ amount < 2 ^ 64 → random_ready s →
  ∃ sig mask s', let C := ed_encode (commitment (le_combine mask) amount) in
    proveRange amount s = Ret ((sig, C, mask), s') ∧ scalar mask ∧ random_ready s' ∧
    range_shape sig ∧ verRange C sig = Ret true.
Proof. intros Ha Hs. exact (proveRange_ok amount s Ha (rng_ready s Hs)). Qed.

(** C12. [verRange] answers on every signature of the right shape, whatever its
    bytes, which come from the network: no access is out of bounds, nothing
    overflows, no exception escapes.  It answers yes only when all the
    [Ci] are points and the commitment is their sum; when the numbers of the
    signature are below [2^255], exactly when in addition the rings close. *)
Theorem verRange_total_spec (C : key) (sig : rangeSig) :
  bytes32 C → range_shape sig →
  ∃ b, verRange C sig = Ret b ∧
    (b = true → ∃ Ps, Forall on_curve Ps ∧ rs_Ci sig = ed_encode <$> Ps ∧ C = ed_encode (point_sum Ps)) ∧
    (scalar255 (bb_ee (rs_asig sig)) → Forall scalar255 (bb_s0 (rs_asig sig)) →
     Forall scalar255 (bb_s1 (rs_asig sig)) →
     (b = true ↔ ∃ Ps, Forall on_curve Ps ∧ rs_Ci sig = ed_encode <$> Ps ∧ C = ed_encode (point_sum Ps) ∧
       rings_close (rs_asig sig) Ps (less_weights Ps))).
Proof. exact (verRange_ok C sig). Qed.

(** The largest bytes *)
Definition ones_sig : rangeSig :=
  {| rs_asig := {| bb_s0 := replicate 64 (replicate 32 255); bb_s1 := replicate 64 (replicate 32 255);
       bb_ee := replicate 32 255 |};
     rs_Ci := replicate 64 rct_G |}.

Lemma ones_bytes32 : bytes32 (replicate 32 255).
Proof. split; [reflexivity|]. apply Forall_replicate. lia. Qed.

Lemma ones_sig_shape : range_shape ones_sig.
Proof.
  split; [|split; [|reflexivity]].
  - split; [exact ones_bytes32|].
    split; [apply Forall_replicate, ones_bytes32|]. split; [apply Forall_replicate, ones_bytes32|done].
  - apply Forall_replicate. rewrite rct_G_ok. apply bytes32_encode.
Qed.

#[local] Existing Instance debug_build.

Lemma range_proof_spec_witness :
  ∃ sig mask s', proveRange (2 ^ 64 - 1) ready_state =
      Ret ((sig, ed_encode (commitment (le_combine mask) (2 ^ 64 - 1)), mask), s') ∧
    verRange (ed_encode (commitment (le_combine mask) (2 ^ 64 - 1))) sig = Ret true.
Proof.
  destruct (range_proof_spec false (2 ^ 64 - 1) ready_state) as (sig & mask & s' & E & _ & _ & _ & V);
    [lia|exact ready_state_ok|].
  exists sig, mask, s'. split; [exact E|exact V].
Defined.

Lemma verRange_total_spec_witness :
  ∃ b, verRange rct_G ones_sig = Ret b ∧
    (b = true → ∃ Ps, Forall on_curve Ps ∧ rs_Ci ones_sig = ed_encode <$> Ps ∧ rct_G = ed_encode (point_sum Ps)).
Proof.
  destruct (verRange_total_spec rct_G ones_sig) as (b & E & H & _);
    [rewrite rct_G_ok; apply bytes32_encode|exact ones_sig_shape|].
  exists b. split; [exact E|exact H].
Defined.
