(* ===== verification/Mlsag.v ===== *)
(** * Ring signatures over several rows: [MLSAG_Gen], [MLSAG_Ver] of [rctSigs.cpp]

    with the operations of the default device they call
    ([device_default.cpp]), and the signatures over a ring of inputs and
    commitments built on them, [proveRctMG], [proveRctMGSimple], [verRctMG] and
    [verRctMGSimple].

    A matrix is a list of columns.  The vector [toHash] of the code is written
    whole for each column, except for the message in front: it is made anew here. *)

From S2P Require Export RctOps.

#[local] Open Scope Z_scope.

Section mlsag.
Context `{FastHash} `{RctHash} {G : Type} `{Rng G}.

(** ** The default device *)

(** [a], [aG], [aHP] and [II] *)
Definition mlsag_prepare (H xx : key) : gen G (key * key * key * key) :=
  '(a, aG) ← draw skpkGen;
  aHP ← calc (scalarmultKey H a);
  II ← calc (scalarmultKey H xx);
  mret (a, aG, aHP, II).

Definition mlsag_prehash (blob : list Z) (inputs_size outputs_size : nat) (hashes : keyV)
    (outPk : ctkeyV) : option key :=
  cn_fast_hash_keyV hashes.

Definition mlsag_hash (toHash : keyV) : option key := hash_to_scalar_keyV toHash.

Fixpoint mlsag_sign_loop (c : key) (xx alpha : keyV) : option keyV :=
  match xx, alpha with
  | x :: xx, a :: alpha =>
      s ← sc_mulsub c x a;
      ss ← mlsag_sign_loop c xx alpha;
      Some (s :: ss)
  | _, _ => Some []
  end.

Definition mlsag_sign (c : key) (xx alpha : keyV) (rows dsRows : nat) (ss : keyV) : outcome keyV :=
  _ ← throw_unless (dsRows <=? rows)%nat;
  _ ← throw_unless (length xx =? rows)%nat;
  _ ← throw_unless (length alpha =? rows)%nat;
  _ ← throw_unless (length ss =? rows)%nat;
  run (mlsag_sign_loop c xx alpha).

(** ** Signing *)

(** [CHECK_AND_ASSERT_THROW_MES(pk[i].size() == rows, ..)] for the columns after the first *)
Definition rectangular {A} (rows : nat) (pk : list (list A)) : bool :=
  forallb (λ col, (length col =? rows)%nat) (drop 1 pk).

(** What the first loop of [MLSAG_Gen] leaves for a row: [alpha[i]], the two keys
    it hashes, [rv.II[i]] and [Ip[i]] *)
Record ds_row := {
  dr_alpha : key; dr_L : key; dr_R : key; dr_II : key; dr_Ip : list ge_cached
}.

Definition mlsag_commit_ds (kLRki : option multisig_kLRki) (pk xx : key) : gen G ds_row :=
  '(alpha, L, R, II) ←
    match kLRki with
    | Some m => mret (ms_k m, ms_L m, ms_R m, ms_ki m)
    | None =>
        Hi ← calc (run (hashToPoint pk));
        mlsag_prepare Hi xx
    end;
  Ip ← calc (precomp II);
  mret {| dr_alpha := alpha; dr_L := L; dr_R := R; dr_II := II; dr_Ip := Ip |}.

Fixpoint mlsag_commits_ds (kLRki : option multisig_kLRki) (pk xx : keyV) : gen G (list ds_row) :=
  match pk, xx with
  | p :: pk, x :: xx =>
      row ← mlsag_commit_ds kLRki p x;
      rows ← mlsag_commits_ds kLRki pk xx;
      mret (row :: rows)
  | _, _ => mret []
  end.

(** The rows that are not double spendable: [alpha[i]] and [aG[i]] *)
Fixpoint mlsag_commits (pk : keyV) : gen G (list (key * key)) :=
  match pk with
  | [] => mret []
  | _ :: pk =>
      row ← draw skpkGen;
      rows ← mlsag_commits pk;
      mret (row :: rows)
  end.

(** The part of [toHash] for the double spendable rows, from the keys and the
    commitments, and the part for the others *)
Definition hash_ds (pk : keyV) (LR : list (key * key)) : keyV :=
  mjoin (zip_with (λ p lr, [p; lr.1; lr.2]) pk LR).
Definition hash_nds (pk L : keyV) : keyV := mjoin (zip_with (λ p l, [p; l]) pk L).

(** [L] and [R] for the double spendable rows of column [i] *)
Fixpoint mlsag_ds (c_old : key) (pk ss : keyV) (Ip : list (list ge_cached)) :
    outcome (list (key * key)) :=
  match pk, ss, Ip with
  | p :: pk, s :: ss, ip :: Ip =>
      L ← addKeys2 s c_old p;
      Hi ← run (hashToPoint p);
      R ← addKeys3 s Hi c_old ip;
      LR ← mlsag_ds c_old pk ss Ip;
      Ret ((L, R) :: LR)
  | _, _, _ => Ret []
  end.

(** [L] for the others *)
Fixpoint mlsag_nds (c_old : key) (pk ss : keyV) : outcome keyV :=
  match pk, ss with
  | p :: pk, s :: ss =>
      L ← addKeys2 s c_old p;
      Ls ← mlsag_nds c_old pk ss;
      Ret (L :: Ls)
  | _, _ => Ret []
  end.

(** [while (i != index)], at most [n] iterations: [rv.ss], [c] and [rv.cc], the
    last two once they are written *)
Fixpoint mlsag_ring (n : nat) (message : key) (pk : keyM) (Ip : list (list ge_cached))
    (rows dsRows index i : nat) (ss : keyM) (c : option key) (c_old : key) (cc : option key) :
    gen G (keyM * option key * option key) :=
  if (i =? index)%nat then mret (ss, c, cc) else
  match n with
  | O => calc Undef
  | S n' =>
      ssi ← skvGen rows;
      pki ← calc (run (pk !! i));
      LR ← calc (mlsag_ds c_old (take dsRows pki) ssi Ip);
      Ls ← calc (mlsag_nds c_old (drop dsRows pki) (drop dsRows ssi));
      c ← calc (run (mlsag_hash
        (message :: hash_ds (take dsRows pki) LR ++ hash_nds (drop dsRows pki) Ls)));
      let i' := ((i + 1) mod length pk)%nat in
      mlsag_ring n' message pk Ip rows dsRows index i' (<[i := ssi]> ss) (Some c) c
        (if (i' =? 0)%nat then Some c else cc)
  end.

(** The signature, and [*mscout] when it is asked for *)
Definition MLSAG_Gen (message : key) (pk : keyM) (xx : keyV) (kLRki : option multisig_kLRki)
    (mscout : bool) (index dsRows : nat) : gen G (mgSig * option key) :=
  let cols := length pk in
  _ ← calc (throw_unless (2 <=? cols)%nat);
  _ ← calc (throw_unless (index <? cols)%nat);
  pk0 ← calc (run (pk !! 0%nat));
  let rows := length pk0 in
  _ ← calc (throw_unless (1 <=? rows)%nat);
  _ ← calc (throw_unless (rectangular rows pk));
  _ ← calc (throw_unless (length xx =? rows)%nat);
  _ ← calc (throw_unless (dsRows <=? rows)%nat);
  _ ← calc (throw_unless (Bool.eqb (bool_decide (is_Some kLRki)) mscout));
  _ ← calc (throw_unless (negb (bool_decide (is_Some kLRki)) || (dsRows =? 1)%nat));
  pkx ← calc (run (pk !! index));
  ds ← mlsag_commits_ds kLRki (take dsRows pkx) (take dsRows xx);
  nds ← mlsag_commits (drop dsRows pkx);
  let alpha := (dr_alpha <$> ds) ++ nds.*1 in
  c_old ← calc (run (mlsag_hash (message ::
    hash_ds (take dsRows pkx) ((λ r, (dr_L r, dr_R r)) <$> ds) ++
    hash_nds (drop dsRows pkx) nds.*2)));
  let i := ((index + 1) mod cols)%nat in
  '(ss, c, cc) ← mlsag_ring cols message pk (dr_Ip <$> ds) rows dsRows index i
    (replicate cols (replicate rows zero)) None c_old (if (i =? 0)%nat then Some c_old else None);
  c ← calc (run c);
  cc ← calc (run cc);
  ssx ← calc (run (ss !! index));
  ssx ← calc (mlsag_sign c xx alpha rows dsRows ssx);
  mret ({| mg_ss := <[index := ssx]> ss; mg_cc := cc; mg_II := dr_II <$> ds |},
        if mscout then Some c else None).

(** ** Verifying *)

(** As [mlsag_ds]; [None] when a key hashes to the neutral element *)
Fixpoint mlsag_check_ds (c_old : key) (pk ss : keyV) (Ip : list (list ge_cached)) :
    outcome (option (list (key * key))) :=
  match pk, ss, Ip with
  | p :: pk, s :: ss, ip :: Ip =>
      L ← addKeys2 s c_old p;
      Hi ← run (hashToPoint p);
      if key_eqb Hi rct_identity then Ret None else
      R ← addKeys3 s Hi c_old ip;
      LR ← mlsag_check_ds c_old pk ss Ip;
      Ret (LR ← LR; Some ((L, R) :: LR))
  | _, _, _ => Ret (Some [])
  end.

(** [while (i < cols)]: the last [c_old] *)
Fixpoint mlsag_columns (message : key) (dsRows : nat) (Ip : list (list ge_cached)) (pk ss : keyM)
    (c_old : key) : outcome (option key) :=
  match pk, ss with
  | pki :: pk, ssi :: ss =>
      LR ← mlsag_check_ds c_old (take dsRows pki) ssi Ip;
      match LR with
      | None => Ret None
      | Some LR =>
          Ls ← mlsag_nds c_old (drop dsRows pki) (drop dsRows ssi);
          c ← run (hash_to_scalar_keyV
            (message :: hash_ds (take dsRows pki) LR ++ hash_nds (drop dsRows pki) Ls));
          mlsag_columns message dsRows Ip pk ss c
      end
  | _, _ => Ret (Some c_old)
  end.

(** [for (..) precomp(Ip[i].k, rv.II[i]);] *)
Fixpoint precomps (II : keyV) : outcome (list (list ge_cached)) :=
  match II with
  | [] => Ret []
  | k :: II => Ip ← precomp k; Ips ← precomps II; Ret (Ip :: Ips)
  end.

Definition MLSAG_Ver (message : key) (pk : keyM) (rv : mgSig) (dsRows : nat) : outcome bool :=
  let cols := length pk in
  if negb (2 <=? cols)%nat then Ret false else
  pk0 ← run (pk !! 0%nat);
  let rows := length pk0 in
  if negb (1 <=? rows)%nat then Ret false else
  if negb (rectangular rows pk) then Ret false else
  if negb (length (mg_II rv) =? dsRows)%nat then Ret false else
  if negb (length (mg_ss rv) =? cols)%nat then Ret false else
  if negb (forallb (λ col, (length col =? rows)%nat) (mg_ss rv)) then Ret false else
  if negb (dsRows <=? rows)%nat then Ret false else
  if negb (forallb (forallb (λ s, sc_check s =? 0)) (mg_ss rv)) then Ret false else
  if negb (sc_check (mg_cc rv) =? 0) then Ret false else
  Ip ← precomps (mg_II rv);
  c_old ← mlsag_columns message dsRows Ip pk (mg_ss rv) (mg_cc rv);
  match c_old with
  | None => Ret false
  | Some c_old => c ← run (sc_sub c_old (mg_cc rv)); Ret (sc_isnonzero c =? 0)
  end.

(** ** Over inputs and commitments *)

(** [for (j ..) addKeys(M[i][rows], M[i][rows], pubs[i][j].mask);] *)
Fixpoint add_masks (col : ctkeyV) (acc : key) : outcome key :=
  match col with
  | [] => Ret acc
  | p :: col => acc ← addKeys acc (ct_mask p); add_masks col acc
  end.

(** [for (j ..) subKeys(M[i][rows], M[i][rows], outPk[j].mask);] *)
Fixpoint sub_masks (outPk : ctkeyV) (acc : key) : outcome key :=
  match outPk with
  | [] => Ret acc
  | p :: outPk => acc ← subKeys acc (ct_mask p); sub_masks outPk acc
  end.

(** A column of [M]: the destinations, and the inputs less the outputs and the fee *)
Definition mg_column (outPk : ctkeyV) (txnFeeKey : key) (col : ctkeyV) : outcome keyV :=
  acc ← add_masks col rct_identity;
  acc ← sub_masks outPk acc;
  acc ← subKeys acc txnFeeKey;
  Ret ((ct_dest <$> col) ++ [acc]).

Fixpoint mg_matrix (column : ctkeyV → outcome keyV) (pubs : ctkeyM) : outcome keyM :=
  match pubs with
  | [] => Ret []
  | col :: pubs => c ← column col; M ← mg_matrix column pubs; Ret (c :: M)
  end.

(** [sc_add(sk[rows].bytes, ..)] over the inputs and [sc_sub] over the outputs *)
Definition mg_secret (inSk outSk : ctkeyV) : option key :=
  acc ← foldl (λ acc p, a ← acc; sc_add a (ct_mask p)) (Some zero) inSk;
  foldl (λ acc p, a ← acc; sc_sub a (ct_mask p)) (Some acc) outSk.

Definition proveRctMG (message : key) (pubs : ctkeyM) (inSk outSk outPk : ctkeyV)
    (kLRki : option multisig_kLRki) (mscout : bool) (index : nat) (txnFeeKey : key) :
    gen G (mgSig * option key) :=
  _ ← calc (throw_unless (1 <=? length pubs)%nat);
  col0 ← calc (run (pubs !! 0%nat));
  let rows := length col0 in
  _ ← calc (throw_unless (1 <=? rows)%nat);
  _ ← calc (throw_unless (rectangular rows pubs));
  _ ← calc (throw_unless (length inSk =? rows)%nat);
  _ ← calc (throw_unless (length outSk =? length outPk)%nat);
  _ ← calc (throw_unless (Bool.eqb (bool_decide (is_Some kLRki)) mscout));
  M ← calc (mg_matrix (mg_column outPk txnFeeKey) pubs);
  last ← calc (run (mg_secret inSk outSk));
  MLSAG_Gen message M ((ct_dest <$> inSk) ++ [last]) kLRki mscout index rows.

Definition simple_column (Cout : key) (p : ctkey) : outcome keyV :=
  d ← subKeys (ct_mask p) Cout;
  Ret [ct_dest p; d].

Fixpoint simple_matrix (Cout : key) (pubs : ctkeyV) : outcome keyM :=
  match pubs with
  | [] => Ret []
  | p :: pubs => c ← simple_column Cout p; M ← simple_matrix Cout pubs; Ret (c :: M)
  end.

Definition proveRctMGSimple (message : key) (pubs : ctkeyV) (inSk : ctkey) (a Cout : key)
    (kLRki : option multisig_kLRki) (mscout : bool) (index : nat) : gen G (mgSig * option key) :=
  _ ← calc (throw_unless (1 <=? length pubs)%nat);
  _ ← calc (throw_unless (Bool.eqb (bool_decide (is_Some kLRki)) mscout));
  sk1 ← calc (run (sc_sub (ct_mask inSk) a));
  M ← calc (simple_matrix Cout pubs);
  MLSAG_Gen message M [ct_dest inSk; sk1] kLRki mscout index 1.

Definition verRctMG (mg : mgSig) (pubs : ctkeyM) (outPk : ctkeyV) (txnFeeKey message : key) :
    outcome bool :=
  if negb (1 <=? length pubs)%nat then Ret false else
  col0 ← run (pubs !! 0%nat);
  let rows := length col0 in
  if negb (1 <=? rows)%nat then Ret false else
  if negb (rectangular rows pubs) then Ret false else
  M ← mg_matrix (mg_column outPk txnFeeKey) pubs;
  MLSAG_Ver message M mg rows.

Definition verRctMGSimple (message : key) (mg : mgSig) (pubs : ctkeyV) (C : key) : outcome bool :=
  catch_all false (
    if negb (1 <=? length pubs)%nat then Ret false else
    M ← simple_matrix C pubs;
    MLSAG_Ver message M mg 1).

End mlsag.
