(* ===== verification/MlsagSpec.v ===== *)
(** * Correctness of the ring signatures over several rows

    [MLSAG_Ver] accepts exactly the signatures whose chain of challenges closes;
    the signatures of [MLSAG_Gen] do, and in the multisignature case they
    do once the other signers have added their shares. *)

From Stdlib Require Import Zmod.Zmod Field.
From S2P Require Export Mlsag BorromeanSpec.

#[local] Open Scope Z_scope.

(** ** The point of a key *)

Section decode.
#[local] Open Scope Zmod_scope.

Definition p3_point (h : ge_p3) : point :=
  (Zmod.mdiv (to_F (fe_val (p3_X h))) (to_F (fe_val (p3_Z h))),
   Zmod.mdiv (to_F (fe_val (p3_Y h))) (to_F (fe_val (p3_Z h)))).

Lemma p3_point_is P h : p3_is P h → p3_point h = P.
Proof.
  intros (_ & z & Hz & HX & HY & HZ & _). apply fe_is_val in HX as [_ HX], HY as [_ HY], HZ as [_ HZ].
  unfold p3_point. rewrite HX, HY, HZ. destruct P as [x y]. f_equal; by apply mdiv_unique.
Qed.
End decode.

Section mlsag_spec.
Context {F : FastHash} {FL : FastHashLaws F} {RH : RctHash} {RHL : RctHashLaws F RH}.
Context {G : Type} {R : Rng G} {RL : RngLaws R}.

(** The point a key is hashed to *)
Definition hp (k : key) : point :=
  match hash_to_ec k with Some h => p3_point h | None => ed_zero end.

Lemma hp_ok k : hash_to_ec_is k (hp k) ∧ l_torsion (hp k).
Proof.
  destruct (hash_to_ec_ok k) as (P & (h & E & Hh) & HP). unfold hash_to_ec_is, hp. rewrite E.
  rewrite (p3_point_is _ _ Hh). split; [by exists h|done].
Qed.

Lemma hp_on_curve k : on_curve (hp k).
Proof. exact (proj1 (proj2 (hp_ok k))). Qed.
#[local] Hint Resolve hp_on_curve : edwards.

Lemma hashToPoint_hp k : hashToPoint k = Some (ed_encode (hp k)).
Proof. exact (hashToPoint_ok k _ (proj1 (hp_ok k))). Qed.

(** ** The hash of a column *)

(** [s H + c I] *)
Definition ilin (s c : key) (H J : point) : point :=
  ed_add (ed_mul (le_combine s) H) (ed_mul (le_combine c) J).

(** [L] and [R] of the double spendable rows, [L] of the others *)
Fixpoint ds_points (c : key) (Ps : list point) (ss : keyV) (Is : list point) : list (key * key) :=
  match Ps, ss, Is with
  | P :: Ps, s :: ss, J :: Is =>
      (ed_encode (lin s c P), ed_encode (ilin s c (hp (ed_encode P)) J)) :: ds_points c Ps ss Is
  | _, _, _ => []
  end.

Definition nds_points (c : key) (Ps : list point) (ss : keyV) : keyV :=
  zip_with (λ P s, ed_encode (lin s c P)) Ps ss.

Definition toHash (message : key) (dsRows : nat) (Ps : list point) (LR : list (key * key)) (Ls : keyV) : keyV :=
  message :: hash_ds (ed_encode <$> take dsRows Ps) LR ++ hash_nds (ed_encode <$> drop dsRows Ps) Ls.

Definition keys_hash (ks : keyV) : key := to_scalar (hash_num (mjoin ks)).

(** The next challenge *)
Definition col_hash (message : key) (dsRows : nat) (Is : list point) (c : key)
    (Ps : list point) (ss : keyV) : key :=
  keys_hash (toHash message dsRows Ps (ds_points c (take dsRows Ps) ss Is)
    (nds_points c (drop dsRows Ps) (drop dsRows ss))).

Lemma col_hash_scalar message d Is c Ps ss : scalar (col_hash message d Is c Ps ss).
Proof. apply to_scalar_scalar. Qed.

Lemma mlsag_ds_ok c Ps ss Is Ips :
  scalar255 c → Forall scalar255 ss → Forall on_curve Ps → Forall on_curve Is →
  Forall2 odd_multiples Is Ips →
  mlsag_ds c (ed_encode <$> Ps) ss Ips = Ret (ds_points c Ps ss Is).
Proof.
  intros Hc Hs HP HI HM. revert ss Hs Ps HP.
  induction HM as [|J ip Is Ips HM1 HM IH]; intros ss Hs Ps HP.
  { destruct HP as [|P Ps HP HPs], Hs; done. }
  apply Forall_cons_1 in HI as [HI1 HI]. destruct HP as [|P Ps HP HPs]; [by destruct ss|].
  destruct Hs as [|s ss Hs1 Hs]; [done|]. rewrite fmap_cons. cbn [mlsag_ds ds_points].
  step_ret (addKeys2_ok s c P Hs1 Hc HP). step_run (hashToPoint_hp (ed_encode P)).
  step_ret (addKeys3_ok s c (hp (ed_encode P)) J ip Hs1 Hc (hp_on_curve _) HI1 HM1).
  step_ret (IH HI ss Hs Ps HPs). reflexivity.
Qed.

Lemma mlsag_check_ds_ok c Ps ss Is Ips :
  scalar255 c → Forall scalar255 ss → Forall on_curve Ps → Forall on_curve Is →
  Forall2 odd_multiples Is Ips → (length Ps = length Is) → (length Is ≤ length ss)%nat →
  mlsag_check_ds c (ed_encode <$> Ps) ss Ips =
    Ret (if bool_decide (Exists (λ P, hp (ed_encode P) = ed_zero) Ps) then None
         else Some (ds_points c Ps ss Is)).
Proof.
  intros Hc Hs HP HI HM. revert ss Hs Ps HP.
  induction HM as [|J ip Is Ips HM1 HM IH]; intros ss Hs Ps HP HL1 HL2.
  { destruct HP; [|done]. by destruct Hs. }
  apply Forall_cons_1 in HI as [HI1 HI]. destruct HP as [|P Ps HP HPs]; [done|].
  destruct Hs as [|s ss Hs1 Hs]; [cbn in HL2; lia|]. cbn [length] in *.
  rewrite fmap_cons. cbn [mlsag_check_ds ds_points].
  step_ret (addKeys2_ok s c P Hs1 Hc HP). step_run (hashToPoint_hp (ed_encode P)).
  unfold key_eqb. rewrite rct_identity_ok. case_bool_decide as E0.
  { apply ed_encode_inj in E0; [|auto with edwards..]. rewrite bool_decide_true; [done|by left]. }
  step_ret (addKeys3_ok s c (hp (ed_encode P)) J ip Hs1 Hc (hp_on_curve _) HI1 HM1).
  step_ret (IH HI ss Hs Ps HPs ltac:(lia) ltac:(lia)).
  destruct (decide (Exists (λ P, hp (ed_encode P) = ed_zero) Ps)) as [HE|HE].
  - rewrite !bool_decide_true; [done|by right|done].
  - rewrite (bool_decide_false _ HE). rewrite bool_decide_false; [done|].
    intros HE'. apply Exists_cons in HE' as [E|E]; [|done]. apply E0. by rewrite E.
Qed.

Lemma mlsag_nds_ok c Ps ss :
  scalar255 c → Forall scalar255 ss → Forall on_curve Ps →
  mlsag_nds c (ed_encode <$> Ps) ss = Ret (nds_points c Ps ss).
Proof.
  intros Hc Hs HP. revert ss Hs. induction HP as [|P Ps HP HPs IH]; intros ss Hs; [by destruct Hs|].
  destruct Hs as [|s ss Hs1 Hs]; [done|]. rewrite fmap_cons. cbn [mlsag_nds nds_points zip_with].
  step_ret (addKeys2_ok s c P Hs1 Hc HP). step_ret (IH ss Hs). reflexivity.
Qed.

(** ** Verification *)

Fixpoint chain (message : key) (dsRows : nat) (Is : list point) (c : key)
    (Pss : list (list point)) (sss : keyM) : key :=
  match Pss, sss with
  | Ps :: Pss, ss :: sss => chain message dsRows Is (col_hash message dsRows Is c Ps ss) Pss sss
  | _, _ => c
  end.

Lemma chain_scalar message d Is c Pss sss : scalar c → scalar (chain message d Is c Pss sss).
Proof.
  revert c sss. induction Pss as [|Ps Pss IH]; intros c [|ss sss] Hc; try done.
  apply IH, col_hash_scalar.
Qed.

Lemma chain_app message d Is c Pss1 Pss2 sss1 sss2 :
  length sss1 = length Pss1 →
  chain message d Is c (Pss1 ++ Pss2) (sss1 ++ sss2) =
    chain message d Is (chain message d Is c Pss1 sss1) Pss2 sss2.
Proof.
  revert c sss1. induction Pss1 as [|Ps Pss1 IH]; intros c [|ss sss1] HL; try done.
  injection HL as HL. cbn [app chain]. by apply IH.
Qed.

(** A row whose key is hashed to the neutral element *)
Definition infinite (dsRows : nat) (Ps : list point) : Prop :=
  Exists (λ P, hp (ed_encode P) = ed_zero) (take dsRows Ps).

Definition matrix (rows : nat) (Pss : list (list point)) : Prop :=
  Forall (λ Ps, length Ps = rows ∧ Forall on_curve Ps) Pss.

Definition responses (rows : nat) (sss : keyM) : Prop :=
  Forall (λ ss, length ss = rows ∧ Forall scalar ss) sss.

Lemma scalars_255 l : Forall scalar l → Forall scalar255 l.
Proof. intros H. eapply Forall_impl; [|exact H]. exact scalar_255. Qed.

Lemma precomps_ok Is :
  Forall on_curve Is → ∃ Ips, precomps (ed_encode <$> Is) = Ret Ips ∧ Forall2 odd_multiples Is Ips.
Proof.
  induction 1 as [|J Is HJ HI IH]; [by exists []|]. destruct IH as (Ips & E & HM).
  destruct (precomp_ok J HJ) as (ip & Ep & Hp). exists (ip :: Ips). rewrite fmap_cons. cbn [precomps].
  step_ret Ep. step_ret E. split; [done|by constructor].
Qed.

Lemma precomps_invalid II : Forall bytes32 II → Exists invalid_key II → precomps II = Throw.
Proof.
  induction 1 as [|k II Hk HB IH]; intros HE; [by apply Exists_nil in HE|]. cbn [precomps].
  destruct (load_cases k Hk) as [(P & HP & ->)|Hi].
  - apply Exists_cons in HE as [HE|HE]; [by destruct (HE P HP)|].
    destruct (precomp_ok P HP) as (ip & Ep & _). step_ret Ep. by rewrite (IH HE).
  - unfold precomp. by rewrite (load_key_invalid k Hk Hi).
Qed.

Definition encode_matrix (Pss : list (list point)) : keyM := map (λ Ps, map ed_encode Ps) Pss.

Lemma length_encode_matrix Pss : length (encode_matrix Pss) = length Pss.
Proof. apply length_map. Qed.

Lemma keys_hash_ok ks : hash_to_scalar_keyV ks = Some (keys_hash ks).
Proof. exact (hash_to_scalar_keyV_ok ks). Qed.

Lemma mlsag_columns_ok message rows Is Ips c Pss sss :
  let d := length Is in
  scalar c → matrix rows Pss → responses rows sss → length sss = length Pss → (d ≤ rows)%nat →
  Forall on_curve Is → Forall2 odd_multiples Is Ips →
  mlsag_columns message d Ips (encode_matrix Pss) sss c =
    Ret (if bool_decide (Exists (infinite d) Pss) then None else Some (chain message d Is c Pss sss)).
Proof.
  intros d Hc HM HR HL Hd HI HIp. revert c Hc sss HR HL.
  induction HM as [|Ps Pss [HP1 HP2] HM IH]; intros c Hc sss HR HL; [by destruct HR|].
  destruct HR as [|ss sss [Hs1 Hs2] HR]; [done|]. injection HL as HL.
  cbn [encode_matrix map]. fold (encode_matrix Pss). change (map ed_encode Ps) with (ed_encode <$> Ps).
  cbn [mlsag_columns chain].
  rewrite <- !fmap_take, <- !fmap_drop.
  step_ret (mlsag_check_ds_ok c (take d Ps) ss Is Ips (scalar_255 _ Hc) (scalars_255 _ Hs2)
    (Forall_take _ d _ HP2) HI HIp ltac:(rewrite length_take; lia) ltac:(lia)).
  destruct (decide (infinite d Ps)) as [H0|H0].
  { rewrite (bool_decide_true _ H0), bool_decide_true; [done|by left]. }
  rewrite (bool_decide_false _ H0). cbv iota.
  step_ret (mlsag_nds_ok c (drop d Ps) (drop d ss) (scalar_255 _ Hc)
    (Forall_drop _ d _ (scalars_255 _ Hs2)) (Forall_drop _ d _ HP2)).
  step_run (keys_hash_ok (toHash message d Ps (ds_points c (take d Ps) ss Is)
    (nds_points c (drop d Ps) (drop d ss)))).
  fold (col_hash message d Is c Ps ss). rewrite (IH _ (col_hash_scalar _ _ _ _ _ _) sss HR HL).
  rewrite (bool_decide_ext (Exists (infinite d) (Ps :: Pss)) (Exists (infinite d) Pss)); [done|].
  rewrite Exists_cons. split; [by intros [HE|HE]|by right].
Qed.

(** The checks on the shape and on the scalars *)
Record mg_shape (rows cols dsRows : nat) (sig : mgSig) : Prop := {
  ms_rows : (dsRows ≤ rows)%nat;
  ms_II : length (mg_II sig) = dsRows;
  ms_cols : length (mg_ss sig) = cols;
  ms_ss : responses rows (mg_ss sig);
  ms_cc : scalar (mg_cc sig)
}.

Definition mg_bytes (sig : mgSig) : Prop :=
  Forall (Forall bytes32) (mg_ss sig) ∧ bytes32 (mg_cc sig) ∧ Forall bytes32 (mg_II sig).

(** The signature closes the chain. *)
Definition valid_mg (message : key) (Pss : list (list point)) (sig : mgSig) (dsRows : nat) : Prop :=
  ∃ Is, Forall on_curve Is ∧ mg_II sig = ed_encode <$> Is ∧ ¬ Exists (infinite dsRows) Pss ∧
    chain message dsRows Is (mg_cc sig) Pss (mg_ss sig) = mg_cc sig.

Lemma forallb_Forall {A} (f : A → bool) (Q : A → Prop) l :
  (∀ x, x ∈ l → f x = true ↔ Q x) → forallb f l = true ↔ Forall Q l.
Proof.
  intros H. rewrite forallb_forall, Forall_forall.
  split; intros HF x Hx; pose proof (proj2 (list_elem_of_In l x) Hx) as Hx'; apply (H x Hx'); by apply HF.
Qed.

Lemma rectangular_ok {A} rows (pk : list (list A)) col0 :
  pk !! 0%nat = Some col0 → length col0 = rows →
  rectangular rows pk = true ↔ Forall (λ col, length col = rows) pk.
Proof.
  intros E0 HL. destruct pk as [|c pk]; [done|]. injection E0 as ->. unfold rectangular.
  change (drop 1 (col0 :: pk)) with pk.
  rewrite (forallb_Forall _ (λ col, length col = rows)) by (intros; apply Nat.eqb_eq).
  split; [intros H; by constructor|intros H; by apply Forall_cons_1 in H as [_ H]].
Qed.

Lemma responses_ok rows sss :
  Forall (Forall bytes32) sss →
  forallb (λ col, (length col =? rows)%nat) sss = true →
  forallb (forallb (λ s, sc_check s =? 0)) sss = true ↔ responses rows sss.
Proof.
  intros HB HL. apply (forallb_Forall _ (λ col, length col = rows)) in HL; [|intros; apply Nat.eqb_eq].
  apply forallb_Forall. intros ss Hss. apply list_elem_of_In in Hss.
  rewrite Forall_forall in HB, HL. specialize (HB ss Hss). specialize (HL ss Hss).
  rewrite (forallb_Forall _ scalar); [by split; [|intros [_ ?]]|].
  intros s Hs. rewrite Z.eqb_eq. apply sc_check_scalar.
  rewrite Forall_forall in HB. by apply HB, list_elem_of_In.
Qed.

Lemma scalar_eq a b : scalar a → scalar b → le_combine a = le_combine b → a = b.
Proof. intros Ha Hb E. by rewrite <- (to_scalar_id a Ha), E, to_scalar_id. Qed.

(** What [MLSAG_Ver] decides on a matrix of points *)
Lemma MLSAG_Ver_ok message rows Pss sig dsRows :
  (2 ≤ length Pss)%nat → (1 ≤ rows)%nat → matrix rows Pss → mg_bytes sig →
  let pk := encode_matrix Pss in
  (mg_shape rows (length Pss) dsRows sig ∧ Exists invalid_key (mg_II sig) ∧
    MLSAG_Ver message pk sig dsRows = Throw) ∨
  (∃ b, MLSAG_Ver message pk sig dsRows = Ret b ∧
    (b = true ↔ mg_shape rows (length Pss) dsRows sig ∧ valid_mg message Pss sig dsRows)).
Proof.
  intros Hc Hr HM (B1 & B2 & B3) pk. unfold MLSAG_Ver.
  assert (length pk = length Pss) as Hlen by apply length_encode_matrix. rewrite Hlen.
  assert (∃ col0, pk !! 0%nat = Some col0 ∧ length col0 = rows) as (col0 & E0 & HL0).
  { destruct HM as [|Ps Pss [HP _] HM]; [cbn in Hc; lia|]. eexists. split; [reflexivity|]. by rewrite length_map. }
  rewrite (proj2 (Nat.leb_le _ _) Hc). cbn [negb]. step_run E0. rewrite HL0.
  rewrite (proj2 (Nat.leb_le _ _) Hr). cbn [negb].
  assert (rectangular rows pk = true) as ->.
  { apply (rectangular_ok rows pk col0 E0 HL0). apply Forall_map. eapply Forall_impl; [|exact HM].
    intros Ps [HP _]. by rewrite length_map. }
  cbn [negb].
  destruct (Nat.eqb_spec (length (mg_II sig)) dsRows) as [E1|E1]; cbn [negb];
    [|right; exists false; split; [done|]; split; [done|]; by intros [[] _]].
  destruct (Nat.eqb_spec (length (mg_ss sig)) (length Pss)) as [E2|E2]; cbn [negb];
    [|right; exists false; split; [done|]; split; [done|]; by intros [[] _]].
  destruct (forallb (λ col, (length col =? rows)%nat) (mg_ss sig)) eqn:E3; cbn [negb].
  2: { right. exists false. split; [done|]. split; [done|]. intros [[_ _ _ HR _] _].
    apply not_true_iff_false in E3. destruct E3.
    apply (forallb_Forall _ (λ col, length col = rows)); [intros; apply Nat.eqb_eq|].
    eapply Forall_impl; [|exact HR]. by intros ? []. }
  destruct (Nat.leb_spec dsRows rows) as [E4|E4]; cbn [negb];
    [|right; exists false; split; [done|]; split; [done|]; intros [[] _]; lia].
  pose proof (responses_ok rows _ B1 E3) as HR.
  destruct (forallb (forallb (λ s, sc_check s =? 0)) (mg_ss sig)); cbn [negb].
  2: { right. exists false. split; [done|]. split; [done|]. intros [[_ _ _ H _] _]. by apply HR in H. }
  assert (responses rows (mg_ss sig)) as HRs by (by apply HR).
  destruct (Z.eqb_spec (sc_check (mg_cc sig)) 0) as [E5|E5]; cbn [negb].
  2: { right. exists false. split; [done|]. split; [done|]. intros [[_ _ _ _ H] _].
    by apply sc_check_scalar in H. }
  apply sc_check_scalar in E5; [|done].
  assert (mg_shape rows (length Pss) dsRows sig) as HSh by done.
  destruct (keys_cases _ B3) as [(Is & HI & EI)|HE].
  2: { left. split; [done|]. split; [done|]. by rewrite (precomps_invalid _ B3 HE). }
  right. destruct (precomps_ok Is HI) as (Ips & Ep & HIp). rewrite EI. step_ret Ep.
  assert (length Is = dsRows) as HLI by (by rewrite <- E1, EI, length_fmap).
  pose proof (mlsag_columns_ok message rows Is Ips (mg_cc sig) Pss (mg_ss sig) E5 HM HRs E2
    ltac:(lia) HI HIp) as EC. cbv zeta in EC. rewrite HLI in EC. step_ret EC.
  case_bool_decide as HX.
  { exists false. split; [done|]. split; [done|]. intros [_ (Is' & _ & _ & HX' & _)]. done. }
  pose proof (chain_scalar message dsRows Is _ Pss (mg_ss sig) E5) as HCs.
  set (c := chain message dsRows Is (mg_cc sig) Pss (mg_ss sig)) in *.
  step_run (sc_sub_scalar _ _ HCs E5). eexists. split; [reflexivity|].
  rewrite sc_isnonzero_scalar.
  rewrite <- (Z.mod_small (le_combine c) L) by (split; [by apply scalar_nonneg|apply HCs]).
  rewrite sub_is_zero by done. rewrite (Z.mod_small (le_combine c) L) by (split; [by apply scalar_nonneg|apply HCs]).
  rewrite Z.eqb_eq. split.
  - intros E. split; [done|]. exists Is. split_and!; try done. fold c. by apply scalar_eq.
  - intros [_ (Is' & HI' & EI' & _ & EC')]. rewrite EI in EI'. apply encodes_inj in EI' as <-; [|done..].
    exact (f_equal le_combine EC').
Qed.

(** ** The signer's column *)

(** For the secrets [xs] and the nonces [as_]: the images, the hash of the
    commitments and the responses to the challenge [c] *)
Definition images (xs : list Z) : list point := (λ x, ed_mul x (hp (ed_encode (mulG x)))) <$> xs.

Definition ds_start (xs as_ : list Z) : list (key * key) :=
  zip_with (λ x a, (ed_encode (mulG a), ed_encode (ed_mul a (hp (ed_encode (mulG x)))))) xs as_.

Definition start_hash (message : key) (dsRows : nat) (xs as_ : list Z) : key :=
  keys_hash (toHash message dsRows (mulG <$> xs) (ds_start (take dsRows xs) (take dsRows as_))
    ((λ a, ed_encode (mulG a)) <$> drop dsRows as_)).

Definition answers (c : key) (xs as_ : list Z) : keyV :=
  zip_with (λ x a, to_scalar (a - le_combine c * x)) xs as_.

Lemma lin_answer c x a : lin (to_scalar (a - le_combine c * x)) c (mulG x) = mulG a.
Proof. rewrite Z.mul_comm. apply lin_response. Qed.

Lemma ilin_answer c x a H :
  l_torsion H → ilin (to_scalar (a - le_combine c * x)) c H (ed_mul x H) = ed_mul a H.
Proof.
  intros HT. pose proof (proj1 HT) as HC. unfold ilin.
  rewrite le_combine_to_scalar, l_torsion_mod, ed_mul_mul, <- ed_mul_add by done. f_equal. lia.
Qed.

Lemma ds_points_answers c xs as_ ss :
  length as_ = length xs →
  ds_points c (mulG <$> xs) (answers c xs as_ ++ ss) (images xs) = ds_start xs as_.
Proof.
  unfold images, answers, ds_start. revert as_. induction xs as [|x xs IH]; intros [|a as_] HL; try done.
  injection HL as HL. rewrite !fmap_cons. cbn [zip_with app ds_points].
  rewrite IH by done. do 2 f_equal; f_equal; [apply lin_answer|].
  apply ilin_answer. exact (proj2 (hp_ok _)).
Qed.

Lemma nds_points_answers c xs as_ :
  length as_ = length xs →
  nds_points c (mulG <$> xs) (answers c xs as_) = (λ a, ed_encode (mulG a)) <$> as_.
Proof.
  unfold nds_points, answers. revert as_. induction xs as [|x xs IH]; intros [|a as_] HL; try done.
  injection HL as HL. rewrite !fmap_cons. cbn [zip_with]. rewrite IH by done. by rewrite lin_answer.
Qed.

Lemma answers_split c d xs as_ :
  answers c xs as_ = answers c (take d xs) (take d as_) ++ answers c (drop d xs) (drop d as_).
Proof.
  unfold answers. revert d as_. induction xs as [|x xs IH]; intros d [|a as_].
  - by rewrite !take_nil, !drop_nil.
  - by rewrite !take_nil, !drop_nil.
  - by rewrite !take_nil, !drop_nil, !zip_with_nil_r.
  - destruct d as [|d]; [done|]. cbn [take drop zip_with app]. by rewrite (IH d).
Qed.

Lemma length_answers c xs as_ : length as_ = length xs → length (answers c xs as_) = length xs.
Proof. intros HL. unfold answers. rewrite length_zip_with. lia. Qed.

(** The responses close the ring. *)
Lemma col_hash_answers message d c xs as_ :
  length as_ = length xs → (d ≤ length xs)%nat →
  col_hash message d (images (take d xs)) c (mulG <$> xs) (answers c xs as_) = start_hash message d xs as_.
Proof.
  intros HL Hd. unfold col_hash, start_hash. do 2 f_equal.
  - rewrite <- fmap_take, (answers_split c d). apply ds_points_answers. rewrite !length_take. lia.
  - rewrite <- fmap_drop, (answers_split c d).
    rewrite drop_app_length' by (rewrite length_answers; rewrite !length_take; lia).
    apply nds_points_answers. rewrite !length_drop. lia.
Qed.

Lemma answers_responses c xs as_ : Forall scalar (answers c xs as_).
Proof.
  unfold answers. revert as_. induction xs as [|x xs IH]; intros [|a as_]; constructor; [|apply IH].
  apply to_scalar_scalar.
Qed.

(** ** Signing: the commitments *)

(** What the first loop leaves for rows with the secrets [xs] and the nonces [as_] *)
Record ds_commit (xs as_ : list Z) (rows : list ds_row) : Prop := {
  dc_alpha : Forall scalar (dr_alpha <$> rows);
  dc_length : length rows = length xs ∧ length as_ = length xs;
  dc_LR : (λ r, (dr_L r, dr_R r)) <$> rows = ds_start xs as_;
  dc_II : dr_II <$> rows = ed_encode <$> images xs;
  dc_Ip : Forall2 odd_multiples (images xs) (dr_Ip <$> rows)
}.

Lemma images_on_curve xs : Forall on_curve (images xs).
Proof. apply Forall_fmap, Forall_true. intros x. cbn. auto with edwards. Qed.

Lemma mlsag_commit_ds_ok x s :
  scalar x → rng_ok s →
  ∃ row s', mlsag_commit_ds None (ed_encode (mulG (le_combine x))) x s = Ret (row, s') ∧
    ds_commit [le_combine x] [le_combine (dr_alpha row)] [row] ∧ rng_ok s'.
Proof.
  intros Hx Hs. unfold mlsag_commit_ds, mlsag_prepare.
  set (k := ed_encode (mulG (le_combine x))). pose proof (hp_on_curve k) as HC.
  destruct (skpkGen_ok s Hs) as (a & s1 & Ha & Hs1 & E1).
  assert ((Hi ← calc (run (hashToPoint k)); '(a, aG) ← draw skpkGen;
      aHP ← calc (scalarmultKey Hi a); II ← calc (scalarmultKey Hi x); mret (a, aG, aHP, II)) s =
    Ret ((a, ed_encode (mulG (le_combine a)), ed_encode (ed_mul (le_combine a) (hp k)),
      ed_encode (ed_mul (le_combine x) (hp k))), s1)) as E.
  { rewrite (calc_step _ _ _ _ (run_some _ _ (hashToPoint_hp k))), (draw_step _ _ _ _ _ E1).
    rewrite (calc_step _ _ _ _ (scalarmultKey_ok _ a HC (scalar_255 _ Ha))).
    rewrite (calc_step _ _ _ _ (scalarmultKey_ok _ x HC (scalar_255 _ Hx))). done. }
  rewrite (gen_bind_ret _ _ _ _ _ E).
  destruct (precomp_ok (ed_mul (le_combine x) (hp k)) ltac:(auto with edwards)) as (ip & Ep & Hp).
  rewrite (calc_step _ _ _ _ Ep). eexists _, s1. split; [reflexivity|]. split; [|done].
  split; [constructor; [exact Ha|constructor]|done|done|done|constructor; [exact Hp|constructor]].
Qed.

Lemma ds_commit_cons x xs a as_ row rows :
  ds_commit [x] [a] [row] → ds_commit xs as_ rows → ds_commit (x :: xs) (a :: as_) (row :: rows).
Proof.
  intros [A1 _ L1 I1 P1] [A2 [N1 N2] L2 I2 P2]. split.
  - rewrite fmap_cons. constructor; [by apply Forall_cons_1 in A1 as [? _]|done].
  - cbn. lia.
  - change (ds_start (x :: xs) (a :: as_)) with (ds_start [x] [a] ++ ds_start xs as_).
    by rewrite <- L1, <- L2.
  - change (images (x :: xs)) with (images [x] ++ images xs). by rewrite fmap_app, <- I1, <- I2.
  - rewrite fmap_cons. change (images (x :: xs)) with (images [x] ++ images xs).
    change (dr_Ip row :: (dr_Ip <$> rows)) with ((dr_Ip <$> [row]) ++ (dr_Ip <$> rows)).
    by apply Forall2_app.
Qed.

Lemma mlsag_commits_ds_ok xx s :
  Forall scalar xx → rng_ok s →
  ∃ rows s', mlsag_commits_ds None ((λ x, ed_encode (mulG (le_combine x))) <$> xx) xx s = Ret (rows, s') ∧
    ds_commit (le_combine <$> xx) (le_combine <$> (dr_alpha <$> rows)) rows ∧ rng_ok s'.
Proof.
  intros HF. revert s. induction HF as [|x xx Hx HF IH]; intros s Hs.
  { exists [], s. split; [done|]. split; [|done]. by split; constructor. }
  rewrite fmap_cons. cbn [mlsag_commits_ds].
  destruct (mlsag_commit_ds_ok x s Hx Hs) as (row & s1 & E1 & C1 & Hs1). rewrite (gen_bind_ret _ _ _ _ _ E1).
  destruct (IH s1 Hs1) as (rows & s2 & E2 & C2 & Hs2). rewrite (gen_bind_ret _ _ _ _ _ E2).
  exists (row :: rows), s2. split; [done|]. split; [|done]. rewrite !fmap_cons. by apply ds_commit_cons.
Qed.

Lemma mlsag_commits_ok (ks : keyV) s :
  rng_ok s →
  ∃ rows s', mlsag_commits ks s = Ret (rows, s') ∧ length rows = length ks ∧
    Forall scalar rows.*1 ∧ rows.*2 = (λ a, ed_encode (mulG (le_combine a))) <$> rows.*1 ∧ rng_ok s'.
Proof.
  revert s. induction ks as [|k ks IH]; intros s Hs.
  { by exists [], s. }
  cbn [mlsag_commits]. destruct (skpkGen_ok s Hs) as (a & s1 & Ha & Hs1 & E1).
  rewrite (draw_step _ _ _ _ _ E1). destruct (IH s1 Hs1) as (rows & s2 & E2 & HL & HF & HE & Hs2).
  rewrite (gen_bind_ret _ _ _ _ _ E2). eexists _, s2. split; [reflexivity|].
  rewrite !fmap_cons. cbn [length fst snd]. split_and!; [lia|by constructor| |done]. by rewrite HE.
Qed.

Lemma mlsag_sign_ok c xx alpha rows d ss :
  scalar c → Forall scalar xx → Forall scalar alpha → length xx = rows → length alpha = rows →
  length ss = rows → (d ≤ rows)%nat →
  mlsag_sign c xx alpha rows d ss = Ret (answers c (le_combine <$> xx) (le_combine <$> alpha)).
Proof.
  intros Hc Hx Ha Lx La Ls Hd. unfold mlsag_sign.
  rewrite (bind_ret _ _ _ (throw_unless_true _ (proj2 (Nat.leb_le _ _) Hd))).
  rewrite (bind_ret _ _ _ (throw_unless_true _ (proj2 (Nat.eqb_eq _ _) Lx))).
  rewrite (bind_ret _ _ _ (throw_unless_true _ (proj2 (Nat.eqb_eq _ _) La))).
  rewrite (bind_ret _ _ _ (throw_unless_true _ (proj2 (Nat.eqb_eq _ _) Ls))). apply run_some.
  clear -Hc Hx Ha. unfold answers. revert alpha Ha.
  induction Hx as [|x xx Hx Hxx IH]; intros alpha Ha; [by destruct Ha|].
  destruct Ha as [|a alpha Ha Haa]; [done|]. cbn [mlsag_sign_loop]. rewrite !fmap_cons. cbn [zip_with].
  step (sc_mulsub_scalar _ _ _ Hc Hx Ha). step (IH alpha Haa). reflexivity.
Qed.

(** ** Signing: the other columns *)

Section ring.
Context (message : key) (Pss : list (list point)) (rows index : nat) (Is : list point)
  (Ips : list (list ge_cached)).
Context (HM : matrix rows Pss) (Hrows : (1 ≤ rows)%nat) (Hd : (length Is ≤ rows)%nat)
  (HI : Forall on_curve Is) (HIp : Forall2 odd_multiples Is Ips).

Lemma mlsag_ring_step m i ss c c_old cc s :
  (i < length Pss)%nat → i ≠ index → scalar c_old → rng_ok s →
  ∃ Ps ssi s', Pss !! i = Some Ps ∧ length ssi = rows ∧ Forall scalar ssi ∧ rng_ok s' ∧
    let c' := col_hash message (length Is) Is c_old Ps ssi in
    let i' := ((i + 1) mod length Pss)%nat in
    mlsag_ring (S m) message (encode_matrix Pss) Ips rows (length Is) index i ss c c_old cc s =
    mlsag_ring m message (encode_matrix Pss) Ips rows (length Is) index i' (<[i := ssi]> ss) (Some c') c'
      (if (i' =? 0)%nat then Some c' else cc) s'.
Proof.
  intros Hi Hne Hc Hs. destruct (lookup_lt_is_Some_2 Pss i Hi) as [Ps EPs].
  destruct (Forall_lookup_1 _ _ _ _ HM EPs) as [HL HC].
  destruct (skvGen_ok rows s ltac:(lia) Hs) as (ssi & s1 & HLs & HFs & Hs1 & E1).
  exists Ps, ssi, s1. split_and!; try done. cbv zeta. cbn [mlsag_ring].
  rewrite (proj2 (Nat.eqb_neq _ _) Hne), (gen_bind_ret _ _ _ _ _ E1).
  assert (encode_matrix Pss !! i = Some (ed_encode <$> Ps)) as EPk.
  { unfold encode_matrix. change (map (λ Ps, map ed_encode Ps) Pss) with ((λ Ps, map ed_encode Ps) <$> Pss).
    by rewrite list_lookup_fmap, EPs. }
  rewrite (calc_step _ _ _ _ (run_some _ _ EPk)). rewrite <- fmap_take, <- fmap_drop.
  rewrite (calc_step _ _ _ _ (mlsag_ds_ok c_old (take (length Is) Ps) ssi Is Ips (scalar_255 _ Hc)
    (scalars_255 _ HFs) (Forall_take _ _ _ HC) HI HIp)).
  rewrite (calc_step _ _ _ _ (mlsag_nds_ok c_old (drop (length Is) Ps) (drop (length Is) ssi) (scalar_255 _ Hc)
    (Forall_drop _ _ _ (scalars_255 _ HFs)) (Forall_drop _ _ _ HC))).
  rewrite (calc_step _ _ _ _ (run_some _ _ (keys_hash_ok (toHash message (length Is) Ps
    (ds_points c_old (take (length Is) Ps) ssi Is) (nds_points c_old (drop (length Is) Ps) (drop (length Is) ssi)))))).
  fold (col_hash message (length Is) Is c_old Ps ssi). by rewrite length_encode_matrix.
Qed.

(** [k] columns from [i] on, without going round *)
Lemma mlsag_ring_segment k m i ss c c_old cc s :
  (0 < k)%nat → (i + k ≤ length Pss)%nat → (∀ j, i ≤ j < i + k → j ≠ index)%nat → scalar c_old → rng_ok s →
  ∃ sss s', length sss = k ∧ responses rows sss ∧ rng_ok s' ∧
    let c' := chain message (length Is) Is c_old (take k (drop i Pss)) sss in
    mlsag_ring (k + m) message (encode_matrix Pss) Ips rows (length Is) index i ss c c_old cc s =
    mlsag_ring m message (encode_matrix Pss) Ips rows (length Is) index ((i + k) mod length Pss)%nat
      (list_inserts i sss ss) (Some c') c'
      (if (i + k =? length Pss)%nat then Some c' else cc) s'.
Proof.
  intros Hk. revert i ss c c_old cc s. induction k as [|k IH]; intros i ss c c_old cc s Hik Hne Hc Hs; [lia|].
  destruct (mlsag_ring_step (k + m) i ss c c_old cc s) as (Ps & ssi & s1 & EPs & HLs & HFs & Hs1 & E);
    [lia|apply Hne; lia|done|done|]. cbv zeta in E.
  change (S k + m)%nat with (S (k + m)). rewrite E. rewrite (drop_S _ _ _ EPs). cbn [take chain].
  set (c1 := col_hash message (length Is) Is c_old Ps ssi).
  destruct k as [|k].
  - exists [ssi], s1. split_and!; [done|by constructor; [split|constructor]|done|].
    cbv zeta. rewrite take_0. cbn [chain list_inserts Nat.add].
    destruct (Nat.eqb_spec (i + 1) (length Pss)) as [E1|E1].
    + rewrite E1, Nat.Div0.mod_same. reflexivity.
    + rewrite Nat.mod_small by lia. destruct (Nat.eqb_spec (i + 1) 0); [lia|reflexivity].
  - rewrite Nat.mod_small by lia. destruct (Nat.eqb_spec (i + 1) 0); [lia|].
    destruct (IH ltac:(lia) (i + 1)%nat (<[i := ssi]> ss) (Some c1) c1 cc s1) as (sss & s2 & HL & HR & Hs2 & E2);
      [lia|intros j Hj; apply Hne; lia|apply col_hash_scalar|done|]. cbv zeta in E2.
    exists (ssi :: sss), s2. split_and!; [cbn; lia|by constructor|done|]. cbv zeta. cbn [chain list_inserts].
    rewrite E2. replace (i + 1)%nat with (S i) by lia. fold c1.
    replace (i + S (S k))%nat with (S i + S k)%nat by lia.
    by rewrite list_insert_inserts_lt by lia.
Qed.
End ring.

Lemma inserts_after {A} (z : A) a (l : list A) :
  list_inserts (S a) l (replicate (a + S (length l)) z) = replicate a z ++ z :: l.
Proof.
  rewrite replicate_add. cbn [replicate].
  pose proof (list_inserts_app_r l (replicate a z) (z :: replicate (length l) z) 1) as E.
  rewrite length_replicate in E. replace (S a) with (a + 1)%nat by lia. rewrite E. f_equal.
  rewrite list_inserts_cons. f_equal.
  rewrite <- (app_nil_r (replicate (length l) z)), list_inserts_0_r by (by rewrite length_replicate).
  apply app_nil_r.
Qed.

(** All the way round, from the column after the signer's to the signer's *)
Lemma mlsag_ring_ok message A X B rows Is Ips z h0 s :
  let Pss := A ++ X :: B in
  let index := length A in
  let i := ((index + 1) mod length Pss)%nat in
  matrix rows Pss → (1 ≤ rows)%nat → (length Is ≤ rows)%nat → Forall on_curve Is →
  Forall2 odd_multiples Is Ips → (2 ≤ length Pss)%nat → scalar h0 → rng_ok s →
  ∃ sssA sssB s', length sssA = length A ∧ length sssB = length B ∧ responses rows sssA ∧
    responses rows sssB ∧ rng_ok s' ∧
    let cc := chain message (length Is) Is h0 B sssB in
    let c := chain message (length Is) Is cc A sssA in
    mlsag_ring (length Pss) message (encode_matrix Pss) Ips rows (length Is) index i
      (replicate (length Pss) z) None h0 (if (i =? 0)%nat then Some h0 else None) s =
    Ret ((sssA ++ z :: sssB, Some c, Some cc), s').
Proof.
  intros Pss index i HM Hr Hd HI HIp Hn Hh Hs.
  assert (length Pss = index + S (length B))%nat as Hlen by (unfold Pss; rewrite length_app; done).
  assert (drop (S index) Pss = B) as HB.
  { unfold Pss, index. rewrite drop_app_ge by lia. by replace (S (length A) - length A)%nat with 1%nat by lia. }
  assert (take index Pss = A) as HA by (unfold Pss, index; by rewrite take_app_length).
  assert (∀ m ss c c_old cc s, mlsag_ring m message (encode_matrix Pss) Ips rows (length Is) index index ss c c_old cc s =
    Ret ((ss, c, cc), s)) as Hend.
  { intros m ss c c_old cc s0. destruct m; cbn [mlsag_ring]; by rewrite Nat.eqb_refl. }
  assert (∃ sssB s1, length sssB = length B ∧ responses rows sssB ∧ rng_ok s1 ∧
    let cc := chain message (length Is) Is h0 B sssB in
    ∃ c, (B ≠ [] → c = Some cc) ∧
    mlsag_ring (length Pss) message (encode_matrix Pss) Ips rows (length Is) index i
      (replicate (length Pss) z) None h0 (if (i =? 0)%nat then Some h0 else None) s =
    mlsag_ring (index + 1) message (encode_matrix Pss) Ips rows (length Is) index 0
      (replicate index z ++ z :: sssB) c cc (Some cc) s1) as (sssB & s1 & LB & RB & Hs1 & c1 & Hc1 & ->).
  { destruct (decide (B = [])) as [EB|EB].
    - exists [], s. rewrite EB in *. cbn [length] in *. split_and!; [done|constructor|done|]. cbv zeta. exists None.
      split; [done|]. unfold i. rewrite Hlen, Nat.Div0.mod_same, replicate_add. done.
    - assert (0 < length B)%nat as HB0 by (destruct B; [done|cbn; lia]).
      destruct (mlsag_ring_segment message Pss rows index Is Ips HM Hr Hd HI HIp (length B) (index + 1) (index + 1)
        (replicate (length Pss) z) None h0 None s) as (sssB & s1 & LB & RB & Hs1 & E);
        [lia|lia|intros j Hj; lia|done|done|]. cbv zeta in E.
      exists sssB, s1. split_and!; try done. cbv zeta. eexists. split; [done|].
      unfold i. rewrite (Nat.mod_small (index + 1)) by lia. destruct (Nat.eqb_spec (index + 1) 0); [lia|].
      replace (length Pss) with (length B + (index + 1))%nat at 1 by lia. rewrite E.
      replace (index + 1 + length B)%nat with (length Pss) by lia. rewrite Nat.Div0.mod_same, Nat.eqb_refl.
      replace (index + 1)%nat with (S index) by lia. rewrite HB, take_ge by done.
      rewrite Hlen, <- LB, inserts_after. done. }
  set (cc := chain message (length Is) Is h0 B sssB) in *.
  pose proof (chain_scalar message (length Is) Is h0 B sssB Hh) as Hcc. fold cc in Hcc.
  destruct (decide (A = [])) as [EA|EA].
  - exists [], sssB, s1. split_and!; try done; [by rewrite EA|constructor|]. cbv zeta. fold cc.
    assert (index = 0%nat) as E0 by (unfold index; by rewrite EA). rewrite E0 in Hend |- *. rewrite Hend, EA. cbn [chain].
    rewrite Hc1; [done|]. intros ->. cbn in Hlen. lia.
  - assert (0 < index)%nat as HA0 by (unfold index; destruct A; [done|cbn; lia]).
    destruct (mlsag_ring_segment message Pss rows index Is Ips HM Hr Hd HI HIp index 1 0
      (replicate index z ++ z :: sssB) c1 cc (Some cc) s1) as (sssA & s2 & LA & RA & Hs2 & E);
      [lia|lia|intros j Hj; lia|done|done|]. cbv zeta in E. rewrite E.
    exists sssA, sssB, s2. split_and!; try done. cbv zeta. fold cc.
    rewrite Nat.add_0_l, drop_0, HA. rewrite Nat.mod_small by lia.
    destruct (Nat.eqb_spec index (length Pss)); [lia|]. rewrite Hend.
    rewrite list_inserts_0_r by (by rewrite length_replicate). done.
Qed.

(** ** [MLSAG_Gen] *)

Lemma calc_check {A} (b : bool) (k : gen G A) (s : G) :
  b = true → (calc (throw_unless b) ≫= λ _, k) s = k s.
Proof. by intros ->. Qed.

(** A ring with the signer's secrets [xs] at [length A], double spendable in the first [d] rows *)
Record ring_is (A : list (list point)) (xs : list Z) (B : list (list point)) (d : nat) : Prop := {
  ri_matrix : matrix (length xs) (A ++ (mulG <$> xs) :: B);
  ri_cols : (2 ≤ length (A ++ (mulG <$> xs) :: B))%nat;
  ri_rows : (1 ≤ length xs)%nat;
  ri_ds : (d ≤ length xs)%nat
}.

(** After the commitments of the first loop, whether the signer's own or given:
    the ring of challenges through the other columns *)
Lemma MLSAG_Gen_ok message A xs B d xx kLRki mscout as_ ds s s1 :
  let Pss := A ++ (mulG <$> xs) :: B in
  ring_is A xs B d → Forall scalar xx → length xx = length xs →
  bool_decide (is_Some kLRki) = mscout → (is_Some kLRki → d = 1%nat) →
  mlsag_commits_ds kLRki (ed_encode <$> (mulG <$> take d xs)) (take d xx) s = Ret (ds, s1) →
  ds_commit (take d xs) as_ ds → rng_ok s1 →
  ∃ sssA sssB alpha c cc s2,
    let nonces := as_ ++ (le_combine <$> alpha) in
    MLSAG_Gen message (encode_matrix Pss) xx kLRki mscout (length A) d s =
      Ret (({| mg_ss := sssA ++
                 answers c (le_combine <$> xx) (le_combine <$> ((dr_alpha <$> ds) ++ alpha)) :: sssB;
               mg_cc := cc; mg_II := ed_encode <$> images (take d xs) |},
            if mscout then Some c else None), s2) ∧
    rng_ok s2 ∧ scalar c ∧ scalar cc ∧ length sssA = length A ∧ length sssB = length B ∧
    responses (length xs) sssA ∧ responses (length xs) sssB ∧
    length nonces = length xs ∧ Forall scalar alpha ∧
    chain message d (images (take d xs)) cc A sssA = c ∧
    chain message d (images (take d xs)) (start_hash message d xs nonces) B sssB = cc.
Proof.
  intros Pss [HM Hcols Hrows Hd] Hxx Lxx Hms H1 E1 HC Hs1. unfold MLSAG_Gen. fold Pss in HM, Hcols.
  set (pk := encode_matrix Pss). assert (length pk = length Pss) as Hlen by apply length_encode_matrix.
  rewrite Hlen. rewrite calc_check by (by apply Nat.leb_le).
  assert (length A < length Pss)%nat as HiA by (unfold Pss; rewrite length_app; cbn; lia).
  rewrite calc_check by (by apply Nat.ltb_lt).
  assert (∃ col0, pk !! 0%nat = Some col0 ∧ length col0 = length xs) as (col0 & E0 & HL0).
  { unfold pk. destruct HM as [|Ps Pss' [HP _] HM']; [cbn in Hcols; lia|]. eexists. split; [reflexivity|]. by rewrite length_map. }
  rewrite (calc_step _ _ _ _ (run_some _ _ E0)), HL0. rewrite calc_check by (by apply Nat.leb_le).
  rewrite calc_check.
  2: { apply (rectangular_ok _ pk col0 E0 HL0). apply Forall_map. eapply Forall_impl; [|exact HM].
    intros Ps [HP _]. by rewrite length_map. }
  rewrite calc_check by (by apply Nat.eqb_eq). rewrite calc_check by (by apply Nat.leb_le).
  rewrite calc_check by (rewrite Hms; apply eqb_reflx).
  rewrite calc_check.
  2: { case_bool_decide as HS; [|done]. by rewrite (H1 HS). }
  assert (pk !! length A = Some (ed_encode <$> (mulG <$> xs))) as Ex.
  { unfold pk, encode_matrix, Pss. rewrite map_app. cbn [map].
    rewrite lookup_app_r by (by rewrite length_map). by rewrite length_map, Nat.sub_diag. }
  rewrite (calc_step _ _ _ _ (run_some _ _ Ex)). rewrite <- !fmap_take, <- !fmap_drop.
  rewrite (gen_bind_ret _ _ _ _ _ E1).
  destruct (mlsag_commits_ok (ed_encode <$> (mulG <$> drop d xs)) s1 Hs1) as (nds & s2 & E2 & L2 & F2 & P2 & Hs2).
  rewrite (gen_bind_ret _ _ _ _ _ E2). rewrite !length_fmap, length_drop in L2.
  destruct HC as [CA [CL1 CL2] CLR CII CIp]. rewrite length_take in CL1, CL2.
  set (nonces := as_ ++ (le_combine <$> nds.*1)).
  assert (length nonces = length xs) as LN by (unfold nonces; rewrite length_app, !length_fmap; lia).
  assert (message :: hash_ds (ed_encode <$> (mulG <$> take d xs)) ((λ r, (dr_L r, dr_R r)) <$> ds) ++
      hash_nds (ed_encode <$> (mulG <$> drop d xs)) nds.*2 =
    toHash message d (mulG <$> xs) (ds_start (take d xs) (take d nonces))
      ((λ a, ed_encode (mulG a)) <$> drop d nonces)) as ->.
  { unfold toHash, nonces. rewrite <- !fmap_take, <- !fmap_drop, CLR, P2.
    rewrite take_app_length', drop_app_length' by lia.
    by rewrite <- (list_fmap_compose le_combine (λ a, ed_encode (mulG a)) nds.*1). }
  rewrite (calc_step _ _ _ _ (run_some _ _ (keys_hash_ok _))).
  fold (start_hash message d xs nonces). set (h0 := start_hash message d xs nonces).
  assert (length (images (take d xs)) = d) as LI by (unfold images; rewrite length_fmap, length_take; lia).
  destruct (mlsag_ring_ok message A (mulG <$> xs) B (length xs) (images (take d xs)) (dr_Ip <$> ds)
    (replicate (length xs) zero) h0 s2 HM Hrows ltac:(lia) (images_on_curve _) CIp Hcols
    (to_scalar_scalar _) Hs2) as (sssA & sssB & s3 & LA & LB & RA & RB & Hs3 & E3).
  cbv zeta in E3. fold Pss in E3. rewrite LI in E3. fold pk in E3. rewrite (gen_bind_ret _ _ _ _ _ E3).
  set (cc := chain message d (images (take d xs)) h0 B sssB) in *.
  set (c := chain message d (images (take d xs)) cc A sssA) in *.
  assert (scalar cc) as Hcc by apply chain_scalar, to_scalar_scalar.
  assert (scalar c) as Hc by (by apply chain_scalar).
  rewrite (calc_step _ _ _ _ (eq_refl : run (Some c) = Ret c)).
  rewrite (calc_step _ _ _ _ (eq_refl : run (Some cc) = Ret cc)).
  assert ((sssA ++ replicate (length xs) zero :: sssB) !! length A = Some (replicate (length xs) zero)) as Es.
  { rewrite lookup_app_r by lia. by rewrite LA, Nat.sub_diag. }
  rewrite (calc_step _ _ _ _ (run_some _ _ Es)).
  assert (Forall scalar ((dr_alpha <$> ds) ++ nds.*1)) as HFa by (by apply Forall_app).
  rewrite (calc_step _ _ _ _ (mlsag_sign_ok c xx _ (length xs) d _ Hc Hxx HFa Lxx
    ltac:(rewrite length_app, !length_fmap; lia) (length_replicate _ _) Hd)).
  exists sssA, sssB, nds.*1, c, cc, s3. cbv zeta. fold nonces h0 cc c. split_and!; try done.
  rewrite CII, <- LA, insert_app_r_alt, Nat.sub_diag by lia. done.
Qed.

Lemma scalars_bytes32 l : Forall scalar l → Forall bytes32 l.
Proof. intros H. eapply Forall_impl; [|exact H]. exact scalar_bytes32. Qed.

(** The signature with the responses for the whole secrets and nonces verifies,
    unless a key of a double spendable row is hashed to the neutral element. *)
Lemma MLSAG_complete message A xs B d nonces c cc sssA sssB :
  let Pss := A ++ (mulG <$> xs) :: B in
  ring_is A xs B d → scalar cc →
  length sssA = length A → length sssB = length B →
  responses (length xs) sssA → responses (length xs) sssB → length nonces = length xs →
  chain message d (images (take d xs)) cc A sssA = c →
  chain message d (images (take d xs)) (start_hash message d xs nonces) B sssB = cc →
  MLSAG_Ver message (encode_matrix Pss)
    {| mg_ss := sssA ++ answers c xs nonces :: sssB; mg_cc := cc;
       mg_II := ed_encode <$> images (take d xs) |} d =
    Ret (bool_decide (¬ Exists (infinite d) Pss)).
Proof.
  intros Pss [HM Hcols Hrows Hd] Hcc LA LB RA RB LN Ec Ecc. fold Pss in HM, Hcols.
  set (sig := {| mg_ss := _; mg_cc := _; mg_II := _ |}).
  assert (responses (length xs) (mg_ss sig)) as HR.
  { apply Forall_app. split; [exact RA|]. constructor; [|exact RB].
    split; [by apply length_answers|apply answers_responses]. }
  assert (mg_shape (length xs) (length Pss) d sig) as HSh.
  { split; cbn [sig mg_II mg_ss mg_cc]; [done| | |done|done].
    - unfold images. rewrite !length_fmap, length_take. lia.
    - unfold Pss. rewrite !length_app. cbn [length]. lia. }
  assert (mg_bytes sig) as HB.
  { split_and!; cbn [sig mg_II mg_cc]; [|by apply scalar_bytes32|].
    - eapply Forall_impl; [|exact HR]. intros ss [_ HF]. by apply scalars_bytes32.
    - apply Forall_fmap, Forall_true. intros P. apply bytes32_encode. }
  destruct (MLSAG_Ver_ok message (length xs) Pss sig d Hcols Hrows HM HB) as [(_ & HE & _)|(b & -> & Hb)].
  - by destruct (encodes_valid _ (images_on_curve (take d xs))).
  - f_equal. apply eq_bool_prop_intro. rewrite bool_decide_spec, Is_true_true, Hb. split.
    + by intros [_ (_ & _ & _ & HX & _)].
    + intros HX. split; [done|]. exists (images (take d xs)). split_and!; [apply images_on_curve|done|done|].
      cbn [sig mg_cc mg_ss]. unfold Pss. rewrite chain_app by done. cbn [chain]. rewrite Ec.
      rewrite col_hash_answers by done. exact Ecc.
Qed.

(** A signer who knows the secrets of a column makes a signature that verifies. *)
Lemma MLSAG_Gen_verifies message A B xx d s :
  let xs := le_combine <$> xx in
  let Pss := A ++ (mulG <$> xs) :: B in
  ring_is A xs B d → Forall scalar xx → rng_ok s →
  ∃ sig s', MLSAG_Gen message (encode_matrix Pss) xx None false (length A) d s = Ret ((sig, None), s') ∧
    rng_ok s' ∧ mg_II sig = ed_encode <$> images (take d xs) ∧ mg_shape (length xs) (length Pss) d sig ∧
    MLSAG_Ver message (encode_matrix Pss) sig d = Ret (bool_decide (¬ Exists (infinite d) Pss)).
Proof.
  intros xs Pss HRi Hxx Hs.
  destruct (mlsag_commits_ds_ok (take d xx) s (Forall_take _ _ _ Hxx) Hs) as (ds & s1 & E1 & HC & Hs1).
  rewrite fmap_take in HC. fold xs in HC.
  assert (mlsag_commits_ds None (ed_encode <$> (mulG <$> take d xs)) (take d xx) s = Ret (ds, s1)) as E1'.
  { unfold xs. rewrite <- fmap_take, <- !list_fmap_compose. exact E1. }
  assert (length xx = length xs) as Lx by (unfold xs; by rewrite length_fmap).
  destruct (MLSAG_Gen_ok message A xs B d xx None false _ ds s s1 HRi Hxx Lx eq_refl
    ltac:(by intros [? ?]) E1' HC Hs1)
    as (sssA & sssB & alpha & c & cc & s2 & E & Hs2 & Hc & Hcc & LA & LB & RA & RB & LN & Ha & Ec & Ecc).
  cbv zeta in *. fold Pss in E. rewrite fmap_app in E.
  pose proof (MLSAG_complete message A xs B d _ c cc sssA sssB HRi Hcc LA LB RA RB LN Ec Ecc) as HV.
  eexists _, s2. split; [exact E|]. split; [done|]. split; [done|]. split; [|exact HV].
  split; cbn [mg_II mg_ss mg_cc]; [apply HRi| | | |done].
  - unfold images. rewrite !length_fmap, length_take. pose proof (ri_ds _ _ _ _ HRi). lia.
  - unfold Pss. rewrite !length_app. cbn [length]. lia.
  - apply Forall_app. split; [exact RA|]. constructor; [|exact RB].
    split; [by apply length_answers|apply answers_responses].
Qed.

(** ** No input makes the verification undefined *)

(** [m] returns a value that satisfies [Q], or throws. *)
Definition defined {A} (Q : A → Prop) (m : outcome A) : Prop :=
  match m with Ret a => Q a | Throw => True | Undef => False end.

Lemma defined_bind {A B} (Q : A → Prop) (Q' : B → Prop) (m : outcome A) (k : A → outcome B) :
  defined Q m → (∀ a, Q a → defined Q' (k a)) → defined Q' (m ≫= k).
Proof. intros Hm Hk. destruct m as [a| |]; [by apply Hk|done|done]. Qed.

Lemma defined_run {A} (Q : A → Prop) (o : option A) a : o = Some a → Q a → defined Q (run o).
Proof. by intros ->. Qed.

Lemma defined_catch (b : bool) m : defined (λ _, True) m → ∃ b', catch_all b m = Ret b'.
Proof. destruct m as [b'| |]; [by exists b'|by exists b|done]. Qed.

Definition good_key (k : key) : Prop := ∃ P, on_curve P ∧ k = ed_encode P.

Lemma good_bytes32 k : good_key k → bytes32 k.
Proof. intros (P & _ & ->). apply bytes32_encode. Qed.

Lemma load_key_defined k :
  bytes32 k → defined (λ h, ∃ P, k = ed_encode P ∧ p3_is P h) (load_key k).
Proof.
  intros Hk. destruct (load_cases k Hk) as [(P & HP & ->)|Hi].
  - destruct (load_key_ok P HP) as (h & -> & Hh). by exists P.
  - by rewrite (load_key_invalid k Hk Hi).
Qed.

Lemma addKeys2_defined a b k : scalar a → scalar b → bytes32 k → defined good_key (addKeys2 a b k).
Proof.
  intros Ha Hb Hk. destruct (load_cases k Hk) as [(P & HP & ->)|Hi].
  - rewrite (addKeys2_ok a b P) by auto using scalar_255. eexists. split; [|reflexivity]. auto with edwards.
  - destruct (linear_invalid a b k [] Hk Hi) as (-> & _). done.
Qed.

Lemma addKeys_defined k l : bytes32 k → bytes32 l → defined good_key (addKeys k l) ∧ defined good_key (subKeys k l).
Proof.
  intros Hk Hl. destruct (load_cases k Hk) as [(P & HP & ->)|Hi].
  2: { destruct (addKeys_invalid k l Hk Hl ltac:(by left)) as [-> ->]. done. }
  destruct (load_cases l Hl) as [(Q & HQ & ->)|Hi].
  2: { destruct (addKeys_invalid (ed_encode P) l Hk Hl ltac:(by right)) as [-> ->]. done. }
  rewrite addKeys_ok, subKeys_ok by done.
  split; eexists; (split; [|reflexivity]); auto with edwards.
Qed.

Definition ds_table_ok (ip : list ge_cached) : Prop := ∃ J, on_curve J ∧ odd_multiples J ip.

Lemma precomps_defined II : Forall bytes32 II → defined (λ Ips, Forall ds_table_ok Ips ∧ length Ips = length II) (precomps II).
Proof.
  induction 1 as [|k II Hk HB IH]; [by split; [constructor|]|]. cbn [precomps].
  apply (defined_bind ds_table_ok).
  - destruct (load_cases k Hk) as [(P & HP & ->)|Hi].
    + destruct (precomp_ok P HP) as (ip & -> & Hip). by exists P.
    + destruct (linear_invalid k k k [] Hk Hi) as (_ & _ & -> & _). done.
  - intros ip Hip. eapply defined_bind; [exact IH|]. intros Ips [HI HL]. split; [by constructor|cbn; lia].
Qed.

Lemma mlsag_check_ds_defined c pk ss Ips :
  scalar c → Forall bytes32 pk → Forall scalar ss → Forall ds_table_ok Ips →
  defined (λ _, True) (mlsag_check_ds c pk ss Ips).
Proof.
  intros Hc Hp. revert ss Ips. induction Hp as [|k pk Hk Hp IH]; intros ss Ips Hs HI; [done|].
  destruct Hs as [|s ss Hs1 Hs]; [done|]. destruct HI as [|ip Ips (J & HJ & HM) HI]; [done|].
  cbn [mlsag_check_ds]. eapply defined_bind; [by apply addKeys2_defined|]. intros l _.
  eapply defined_bind; [by eapply (defined_run (λ h, h = ed_encode (hp k))); [apply hashToPoint_hp|]|].
  intros h ->. destruct (key_eqb _ _); [done|].
  rewrite (addKeys3_ok s c (hp k) J ip (scalar_255 _ Hs1) (scalar_255 _ Hc) (hp_on_curve _) HJ HM).
  cbn [mbind outcome_bind]. eapply defined_bind; [by apply IH|]. done.
Qed.

Lemma mlsag_nds_defined c pk ss :
  scalar c → Forall bytes32 pk → Forall scalar ss → defined (λ _, True) (mlsag_nds c pk ss).
Proof.
  intros Hc Hp. revert ss. induction Hp as [|k pk Hk Hp IH]; intros ss Hs; [done|].
  destruct Hs as [|s ss Hs1 Hs]; [done|]. cbn [mlsag_nds].
  eapply defined_bind; [by apply addKeys2_defined|]. intros l _.
  eapply defined_bind; [by apply IH|]. done.
Qed.

Lemma mlsag_columns_defined message d Ips pk sss c :
  scalar c → Forall (Forall bytes32) pk → Forall (Forall scalar) sss → Forall ds_table_ok Ips →
  defined (λ o, ∀ c', o = Some c' → scalar c') (mlsag_columns message d Ips pk sss c).
Proof.
  intros Hc Hp. revert c Hc sss. induction Hp as [|pki pk Hk Hp IH]; intros c Hc sss Hs HI; [by intros ? [= <-]|].
  destruct Hs as [|ss sss Hs1 Hs]; [by intros ? [= <-]|]. cbn [mlsag_columns].
  eapply defined_bind; [apply mlsag_check_ds_defined; [done|by apply Forall_take|done|done]|].
  intros [LR|] _; [|by intros ? ?].
  eapply defined_bind; [apply mlsag_nds_defined; [done|by apply Forall_drop|by apply Forall_drop]|].
  intros Ls _. eapply defined_bind; [eapply (defined_run scalar); [apply keys_hash_ok|apply to_scalar_scalar]|].
  intros c' Hc'. by apply IH.
Qed.

Lemma MLSAG_Ver_defined message pk sig d :
  Forall (Forall bytes32) pk → mg_bytes sig → defined (λ _, True) (MLSAG_Ver message pk sig d).
Proof.
  intros Hp (B1 & B2 & B3). unfold MLSAG_Ver. destruct pk as [|pk0 pk]; [done|].
  destruct (negb (2 <=? _)%nat); [done|]. cbn [lookup list_lookup run mbind outcome_bind].
  repeat (match goal with |- defined _ (if ?b then _ else _) => destruct b eqn:?; [done|] end).
  assert (Forall (Forall scalar) (mg_ss sig)) as Hs.
  { match goal with H : negb (forallb (forallb _) _) = false |- _ => apply negb_false_iff in H; rename H into E end.
    apply (forallb_Forall _ (Forall scalar)) in E; [done|]. intros ss Hss.
    apply forallb_Forall. intros x Hx. rewrite Z.eqb_eq. apply sc_check_scalar.
    rewrite Forall_forall in B1. specialize (B1 ss ltac:(by apply list_elem_of_In)).
    rewrite Forall_forall in B1. by apply B1, list_elem_of_In. }
  assert (scalar (mg_cc sig)) as Hcc.
  { match goal with H : negb (sc_check _ =? 0) = false |- _ => apply negb_false_iff, Z.eqb_eq in H end.
    by apply sc_check_scalar. }
  eapply defined_bind; [by apply precomps_defined|]. intros Ips [HI _].
  eapply defined_bind; [by apply mlsag_columns_defined|]. intros [c|] Hc; [|done].
  eapply defined_bind; [eapply (defined_run (λ _, True)); [apply (sc_sub_scalar c _ (Hc c eq_refl) Hcc)|done]|]. done.
Qed.

End mlsag_spec.

(** C9. [MLSAG_Ver] decides whether the ring of challenges closes.  On a matrix
    of points of at least two columns and one row and any signature made of
    32-byte keys, it returns true exactly when the signature has the shape of
    the matrix, all its responses and its challenge are below [L], its
    images are points, no double spendable key is hashed to the neutral
    element, and the chain of hashes from the challenge through the columns
    comes back to it.  It throws only for an image that is not a point. *)
Theorem mlsag_verify_spec (message : key) (rows : nat) (Pss : list (list point)) (sig : mgSig)
    (dsRows : nat) :
  (2 ≤ length Pss)%nat → (1 ≤ rows)%nat → matrix rows Pss → mg_bytes sig →
  (mg_shape rows (length Pss) dsRows sig ∧ Exists invalid_key (mg_II sig) ∧
    MLSAG_Ver message (encode_matrix Pss) sig dsRows = Throw) ∨
  (∃ b, MLSAG_Ver message (encode_matrix Pss) sig dsRows = Ret b ∧
    (b = true ↔ mg_shape rows (length Pss) dsRows sig ∧ valid_mg message Pss sig dsRows)).
Proof. exact (MLSAG_Ver_ok message rows Pss sig dsRows). Qed.

(** C7. Ring signatures are complete.  A signer who knows the logarithms [xx] of
    one column of a matrix of points makes, with [MLSAG_Gen], a signature of
    the matrix's shape; its images are the multiples [x Hp(x G)] of
    the double spendable rows, and [MLSAG_Ver] accepts it, unless one of the
    double spendable keys is hashed to the neutral element. *)
Theorem mlsag_complete_spec (ND : Build) (message : key) (A B : list (list point)) (xx : keyV) (d : nat)
    (s : random_state) :
  ring_is A (le_combine <$> xx) B d → Forall scalar xx → random_ready s →
  let Pss := A ++ (mulG <$> (le_combine <$> xx)) :: B in
  ∃ sig s', MLSAG_Gen message (encode_matrix Pss) xx None false (length A) d s = Ret ((sig, None), s') ∧
    random_ready s' ∧ mg_II sig = ed_encode <$> images (take d (le_combine <$> xx)) ∧
    mg_shape (length xx) (length Pss) d sig ∧
    MLSAG_Ver message (encode_matrix Pss) sig d = Ret (bool_decide (¬ Exists (infinite d) Pss)).
Proof.
  intros HR Hx Hs Pss. rewrite <- (length_fmap le_combine xx).
  exact (MLSAG_Gen_verifies message A B xx d s HR Hx (rng_ready s Hs)).
Qed.

Definition decoy : list point := [mulG 5; mulG 6].

Lemma decoy_on_curve : Forall on_curve decoy.
Proof. constructor; [apply mulG_on_curve|]. constructor; [apply mulG_on_curve|constructor]. Qed.

Lemma decoy_ring : ring_is [decoy] (le_combine <$> [to_scalar 3; to_scalar 4]) [decoy] 1.
Proof.
  split; [|cbn; lia|cbn; lia|cbn; lia].
  constructor; [by split; [|apply decoy_on_curve]|]. constructor.
  - split; [done|]. constructor; [apply mulG_on_curve|]. constructor; [apply mulG_on_curve|constructor].
  - constructor; [by split; [|apply decoy_on_curve]|constructor].
Qed.

Definition small_sig : mgSig :=
  {| mg_ss := [[to_scalar 1; to_scalar 2]; [to_scalar 3; to_scalar 4]]; mg_cc := to_scalar 9;
     mg_II := [rct_G] |}.

Lemma small_sig_bytes : mg_bytes small_sig.
Proof.
  split; [|split; [apply scalar_bytes32_id|]].
  - constructor; [|constructor; [|constructor]];
      (constructor; [apply scalar_bytes32_id|constructor; [apply scalar_bytes32_id|constructor]]).
  - constructor; [rewrite rct_G_ok; apply bytes32_encode|constructor].
Qed.

#[local] Existing Instance debug_build.

Lemma mlsag_verify_spec_witness :
  (mg_shape 2 2 1 small_sig ∧ Exists invalid_key (mg_II small_sig) ∧
    MLSAG_Ver rct_G (encode_matrix [decoy; decoy]) small_sig 1 = Throw) ∨
  (∃ b, MLSAG_Ver rct_G (encode_matrix [decoy; decoy]) small_sig 1 = Ret b ∧
    (b = true ↔ mg_shape 2 2 1 small_sig ∧ valid_mg rct_G [decoy; decoy] small_sig 1)).
Proof.
  refine (mlsag_verify_spec rct_G 2 [decoy; decoy] small_sig 1 _ _ _ small_sig_bytes); [cbn; lia|lia|].
  constructor; [split; [reflexivity|exact decoy_on_curve]|].
  constructor; [split; [reflexivity|exact decoy_on_curve]|constructor].
Defined.

Lemma mlsag_complete_spec_witness :
  ∃ sig s', MLSAG_Gen rct_G (encode_matrix ([decoy] ++ (mulG <$> (le_combine <$> [to_scalar 3; to_scalar 4])) :: [decoy]))
      [to_scalar 3; to_scalar 4] None false 1 1 ready_state = Ret ((sig, None), s') ∧
    length (mg_II sig) = 1%nat.
Proof.
  destruct (mlsag_complete_spec false rct_G [decoy] [decoy] [to_scalar 3; to_scalar 4] 1 ready_state)
    as (sig & s' & E & _ & _ & HS & _).
  - exact decoy_ring.
  - constructor; [apply to_scalar_scalar|]. constructor; [apply to_scalar_scalar|constructor].
  - exact ready_state_ok.
  - exists sig, s'. split; [exact E|]. exact (ms_II _ _ _ _ HS).
Defined.
