(* ===== verification/RctMGSpec.v ===== *)
(** * Correctness of the signatures over inputs and commitments

    of [proveRctMG], [proveRctMGSimple], [verRctMG] and [verRctMGSimple]: the row of
    commitments is a multiple of the base point exactly when the amounts
    balance, so that the signer of a balanced transaction can sign it. *)

From S2P Require Export MlsagSpec.

#[local] Open Scope Z_scope.

(** ** Keys and commitments as points *)

Definition ct_of (p : point * point) : ctkey := {| ct_dest := ed_encode p.1; ct_mask := ed_encode p.2 |}.

Definition ct_curve (p : point * point) : Prop := on_curve p.1 ∧ on_curve p.2.

Lemma masks_on_curve ps : Forall ct_curve ps → Forall on_curve ps.*1 ∧ Forall on_curve ps.*2.
Proof.
  intros H. split; apply Forall_fmap; (eapply Forall_impl; [|exact H]); by intros ? [].
Qed.

Lemma add_masks_ok ps T :
  on_curve T → Forall ct_curve ps →
  add_masks (ct_of <$> ps) (ed_encode T) = Ret (ed_encode (ed_add T (point_sum ps.*2))).
Proof.
  intros HT HF. revert T HT. induction HF as [|p ps [H1 H2] HF IH]; intros T HT.
  { cbn. by rewrite (ed_add_0_r T : ed_add T (point_sum []) = T). }
  rewrite fmap_cons. cbn [add_masks ct_of ct_mask]. step_ret (addKeys_ok T p.2 HT H2).
  rewrite IH by auto with edwards. rewrite fmap_cons, psum_cons.
  destruct (masks_on_curve ps HF) as [_ HM]. by rewrite ed_add_assoc by auto with edwards.
Qed.

Lemma sub_masks_ok outPk Os T :
  on_curve T → Forall on_curve Os → ct_mask <$> outPk = ed_encode <$> Os →
  sub_masks outPk (ed_encode T) = Ret (ed_encode (ed_add T (ed_opp (point_sum Os)))).
Proof.
  intros HT HF. revert T HT outPk. induction HF as [|P Os HP HF IH]; intros T HT [|p outPk] E; try done.
  { cbn [sub_masks]. assert (ed_opp (point_sum []) = ed_zero) as -> by apply ed_opp_zero.
    by rewrite ed_add_0_r. }
  rewrite !fmap_cons in E. pose proof (f_equal (hd []) E) as E1. pose proof (f_equal tail E) as E2.
  cbn [hd tail] in E1, E2. cbn [sub_masks]. rewrite E1. step_ret (subKeys_ok T P HT HP).
  rewrite (IH (ed_add T (ed_opp P)) ltac:(auto with edwards) outPk E2), psum_cons, ed_opp_add.
  by rewrite ed_add_assoc by auto with edwards.
Qed.

(** A column of the matrix *)
Definition column_points (Os : list point) (fee : Z) (ps : list (point * point)) : list point :=
  ps.*1 ++ [ed_add (ed_add (point_sum ps.*2) (ed_opp (point_sum Os))) (ed_opp (ed_mul fee H25519))].

Definition fee_key (fee : Z) : key := ed_encode (ed_mul fee H25519).

Lemma mg_column_ok outPk Os fee ps :
  Forall on_curve Os → ct_mask <$> outPk = ed_encode <$> Os → Forall ct_curve ps →
  mg_column outPk (fee_key fee) (ct_of <$> ps) = Ret (ed_encode <$> column_points Os fee ps).
Proof.
  intros HO EO HP. destruct (masks_on_curve _ HP) as [_ HP2].
  unfold mg_column. rewrite rct_identity_ok.
  step_ret (add_masks_ok ps ed_zero ltac:(auto with edwards) HP). rewrite ed_add_0_l.
  step_ret (sub_masks_ok outPk Os (point_sum ps.*2) ltac:(auto with edwards) HO EO).
  unfold fee_key. step_ret (subKeys_ok (ed_add (point_sum ps.*2) (ed_opp (point_sum Os))) (ed_mul fee H25519)
    ltac:(auto with edwards) ltac:(auto with edwards)).
  unfold column_points. rewrite fmap_app. do 2 f_equal. by rewrite <- !list_fmap_compose.
Qed.

Definition ct_columns (cols : list (list (point * point))) : ctkeyM := map (λ ps, ct_of <$> ps) cols.

Lemma mg_matrix_ok outPk Os fee cols :
  Forall on_curve Os → ct_mask <$> outPk = ed_encode <$> Os → Forall (Forall ct_curve) cols →
  mg_matrix (mg_column outPk (fee_key fee)) (ct_columns cols) =
    Ret (encode_matrix (map (column_points Os fee) cols)).
Proof.
  intros HO EO. induction 1 as [|ps cols HP HC IH]; [done|]. cbn [ct_columns map mg_matrix].
  step_ret (mg_column_ok outPk Os fee ps HO EO HP). by step_ret IH.
Qed.

Definition simple_points (C : point) (p : point * point) : list point := [p.1; ed_add p.2 (ed_opp C)].

Lemma simple_matrix_ok C ps :
  on_curve C → Forall ct_curve ps →
  simple_matrix (ed_encode C) (ct_of <$> ps) = Ret (encode_matrix (map (simple_points C) ps)).
Proof.
  intros HC. induction 1 as [|p ps [H1 H2] HP IH]; [done|].
  rewrite fmap_cons. cbn [map simple_matrix]. unfold simple_column. cbn [ct_of ct_mask ct_dest].
  rewrite (subKeys_ok p.2 C H2 HC). step_ret (eq_refl (Ret [ed_encode p.1; ed_encode (ed_add p.2 (ed_opp C))])).
  by step_ret IH.
Qed.

Section mg_spec.
Context {F : FastHash} {FL : FastHashLaws F} {RH : RctHash} {RHL : RctHashLaws F RH}.
Context {G : Type} {R : Rng G} {RL : RngLaws R}.

(** A key that is hashed to the neutral element *)
Definition no_image (P : point) : Prop := hp (ed_encode P) = ed_zero.

#[export] Instance no_image_dec P : Decision (no_image P).
Proof. unfold no_image. apply _. Defined.

(** ** One input *)

Definition signer_points (sk : ctkey) (v : Z) : point * point :=
  (mulG (le_combine (ct_dest sk)), commitment (le_combine (ct_mask sk)) v).

Definition secret_ok (sk : ctkey) : Prop := scalar (ct_dest sk) ∧ scalar (ct_mask sk).

Lemma signer_curve sk v : ct_curve (signer_points sk v).
Proof. split; cbn; auto with edwards. Qed.

(** The difference of two commitments to the same amount *)
Lemma commitment_sub a b v : ed_add (commitment a v) (ed_opp (commitment b v)) = mulG (a - b).
Proof. rewrite commitment_opp, commitment_add, Z.add_opp_diag_r, commitment_0. done. Qed.

Lemma simple_infinite C ps :
  Exists (infinite 1) (map (simple_points C) ps) ↔ Exists (λ p, no_image p.1) ps.
Proof.
  unfold infinite, no_image. induction ps as [|p ps IH]; cbn [map]; [by rewrite !Exists_nil|].
  rewrite !Exists_cons, IH. cbn [simple_points take]. rewrite Exists_cons, Exists_nil. tauto.
Qed.

Lemma simple_matrix_is C ps :
  on_curve C → Forall ct_curve ps → matrix 2 (map (simple_points C) ps).
Proof.
  intros HC HP. apply Forall_map. eapply Forall_impl; [|exact HP]. intros p [H1 H2]. split; [done|].
  constructor; [done|]. constructor; [auto with edwards|constructor].
Qed.

Lemma proveRctMGSimple_ok message ps1 ps2 inSk v a s :
  let ps := ps1 ++ signer_points inSk v :: ps2 in
  let C := commitment (le_combine a) v in
  Forall ct_curve ps1 → Forall ct_curve ps2 → (2 ≤ length ps)%nat → secret_ok inSk → scalar a → rng_ok s →
  ∃ sig s', proveRctMGSimple message (ct_of <$> ps) inSk a (ed_encode C) None false (length ps1) s =
      Ret ((sig, None), s') ∧ rng_ok s' ∧
    mg_II sig = ed_encode <$> images [le_combine (ct_dest inSk)] ∧ mg_shape 2 (length ps) 1 sig ∧
    verRctMGSimple message sig (ct_of <$> ps) (ed_encode C) =
      Ret (bool_decide (¬ Exists (λ p, no_image p.1) ps)).
Proof.
  intros ps C H1 H2 Hlen [Hd Hm] Ha Hs.
  assert (on_curve C) as HC by apply commitment_on_curve.
  assert (Forall ct_curve ps) as HP.
  { apply Forall_app. split; [done|]. constructor; [apply signer_curve|done]. }
  pose proof (simple_matrix_ok C ps HC HP) as EM.
  set (sk1 := to_scalar (le_combine (ct_mask inSk) - le_combine a)).
  assert (scalar sk1) as Hsk1 by apply to_scalar_scalar.
  set (A := map (simple_points C) ps1). set (B := map (simple_points C) ps2).
  set (xx := [ct_dest inSk; sk1]).
  assert (map (simple_points C) ps = A ++ (mulG <$> (le_combine <$> xx)) :: B) as EP.
  { unfold ps, A, B. rewrite map_app. cbn [map]. do 2 f_equal. unfold simple_points, signer_points. cbn [fst snd].
    unfold C, xx, sk1. rewrite commitment_sub, !fmap_cons, le_combine_to_scalar, mulG_mod. done. }
  assert (length (map (simple_points C) ps) = length ps) as HLm by apply length_map.
  assert (ring_is A (le_combine <$> xx) B 1) as HR.
  { split; rewrite <- ?EP; [by apply simple_matrix_is|lia|cbn; lia|cbn; lia]. }
  assert (Forall scalar xx) as Hxx by (constructor; [done|]; constructor; [done|constructor]).
  destruct (MLSAG_Gen_verifies message A B xx 1 s HR Hxx Hs) as (sig & s' & E & Hs' & EI & HSh & EV).
  cbv zeta in *. rewrite <- EP in E, EV, HSh. rewrite HLm in HSh.
  exists sig, s'. split_and!; [|done|exact EI|exact HSh|].
  - unfold proveRctMGSimple. rewrite calc_check by (rewrite length_fmap; apply Nat.leb_le; lia).
    rewrite calc_check by done. rewrite (calc_step _ _ _ _ (run_some _ _ (sc_sub_scalar _ _ Hm Ha))).
    rewrite (calc_step _ _ _ _ EM). fold sk1 xx. unfold A in E. by rewrite length_map in E.
  - unfold verRctMGSimple. rewrite length_fmap. rewrite (proj2 (Nat.leb_le _ _)) by lia. cbn [negb].
    rewrite EM. cbn [mbind outcome_bind]. rewrite EV. cbn [catch_all]. f_equal.
    apply bool_decide_ext. by rewrite simple_infinite.
Qed.

(** ** All inputs in one signature *)

Lemma foldl_sc_add l acc :
  scalar acc → Forall scalar (ct_mask <$> l) →
  foldl (λ acc p, a ← acc; sc_add a (ct_mask p)) (Some acc) l =
    Some (to_scalar (le_combine acc + zsum (le_combine <$> (ct_mask <$> l)))).
Proof.
  intros Ha HF. revert acc Ha. induction l as [|p l IH]; intros acc Ha.
  { assert (zsum (le_combine <$> (ct_mask <$> [])) = 0) as -> by done.
    by rewrite Z.add_0_r, to_scalar_id. }
  rewrite fmap_cons in HF. apply Forall_cons_1 in HF as [Hp HF]. cbn [foldl].
  step (eq_refl (Some acc)). rewrite (sc_add_scalar _ _ Ha Hp), (IH HF) by apply to_scalar_scalar.
  f_equal. apply to_scalar_inj. rewrite le_combine_to_scalar, !fmap_cons.
  rewrite zsum_cons.
  rewrite Zplus_mod_idemp_l. f_equal. lia.
Qed.

Lemma foldl_sc_sub l acc :
  scalar acc → Forall scalar (ct_mask <$> l) →
  foldl (λ acc p, a ← acc; sc_sub a (ct_mask p)) (Some acc) l =
    Some (to_scalar (le_combine acc - zsum (le_combine <$> (ct_mask <$> l)))).
Proof.
  intros Ha HF. revert acc Ha. induction l as [|p l IH]; intros acc Ha.
  { assert (zsum (le_combine <$> (ct_mask <$> [])) = 0) as -> by done.
    by rewrite Z.sub_0_r, to_scalar_id. }
  rewrite fmap_cons in HF. apply Forall_cons_1 in HF as [Hp HF]. cbn [foldl].
  step (eq_refl (Some acc)). rewrite (sc_sub_scalar _ _ Ha Hp), (IH HF) by apply to_scalar_scalar.
  f_equal. apply to_scalar_inj. rewrite le_combine_to_scalar, !fmap_cons, zsum_cons.
  rewrite Zminus_mod_idemp_l. f_equal. lia.
Qed.

Lemma scalar_zero : scalar zero ∧ le_combine zero = 0.
Proof. exact scalar_sc_0. Qed.

Definition mask_sum (l : ctkeyV) : Z := zsum (le_combine <$> (ct_mask <$> l)).

Lemma mg_secret_ok inSk outSk :
  Forall scalar (ct_mask <$> inSk) → Forall scalar (ct_mask <$> outSk) →
  mg_secret inSk outSk = Some (to_scalar (mask_sum inSk - mask_sum outSk)).
Proof.
  intros HI HO. unfold mg_secret. destruct scalar_zero as [Hz Ez].
  step (foldl_sc_add inSk zero Hz HI). rewrite foldl_sc_sub by (done || apply to_scalar_scalar).
  rewrite le_combine_to_scalar, Ez. f_equal. apply to_scalar_inj. rewrite Zminus_mod_idemp_l. done.
Qed.

(** The signer's inputs with their amounts, and the outputs with theirs *)
Definition input_points (ins : list (ctkey * Z)) : list (point * point) :=
  (λ p, signer_points p.1 p.2) <$> ins.

Definition output_points (outs : list (ctkey * Z)) : list point :=
  (λ p, commitment (le_combine (ct_mask p.1)) p.2) <$> outs.

Lemma output_psum outs : point_sum (output_points outs) = commitment (mask_sum outs.*1) (zsum outs.*2).
Proof.
  unfold output_points, mask_sum.
  pose proof (commitment_psum ((λ p, (le_combine (ct_mask p.1), p.2)) <$> outs)) as E.
  rewrite <- !list_fmap_compose in E. rewrite <- !list_fmap_compose. exact E.
Qed.

Lemma input_psum ins : point_sum (input_points ins).*2 = commitment (mask_sum ins.*1) (zsum ins.*2).
Proof.
  rewrite <- output_psum. unfold input_points, output_points. by rewrite <- list_fmap_compose.
Qed.

(** The last row of the signer's column is a multiple of the base point when the amounts balance. *)
Lemma signer_column ins outs fee :
  zsum ins.*2 = zsum outs.*2 + fee →
  column_points (output_points outs) fee (input_points ins) =
    mulG <$> ((le_combine <$> (ct_dest <$> ins.*1)) ++ [mask_sum ins.*1 - mask_sum outs.*1]).
Proof.
  intros Hb. unfold column_points. rewrite fmap_app. f_equal.
  - unfold input_points. by rewrite <- !list_fmap_compose.
  - rewrite input_psum, output_psum, commitment_opp, commitment_add.
    rewrite ed_opp_mul, commitment_add_H. cbn [fmap list_fmap]. f_equal.
    rewrite <- commitment_0. f_equal; lia.
Qed.

Definition columns (n : nat) (cols : list (list (point * point))) : Prop :=
  Forall (λ ps, length ps = n ∧ Forall ct_curve ps) cols.

Lemma columns_curve n cols : columns n cols → Forall (Forall ct_curve) cols.
Proof. intros H. eapply Forall_impl; [|exact H]. by intros ? []. Qed.

Lemma column_matrix n Os fee cols :
  Forall on_curve Os → columns n cols → matrix (S n) (map (column_points Os fee) cols).
Proof.
  intros HO HC. apply Forall_map. eapply Forall_impl; [|exact HC]. intros ps [HL HP].
  destruct (masks_on_curve _ HP) as [H1 H2]. unfold column_points. split.
  - rewrite length_app, length_fmap. cbn. lia.
  - apply Forall_app. split; [done|]. constructor; [auto with edwards|constructor].
Qed.

Lemma column_infinite n Os fee cols :
  columns n cols →
  Exists (infinite n) (map (column_points Os fee) cols) ↔ Exists (Exists (λ p, no_image p.1)) cols.
Proof.
  unfold infinite, no_image. induction 1 as [|ps cols [HL HP] HC IH]; cbn [map]; [by rewrite !Exists_nil|].
  rewrite !Exists_cons, IH. unfold column_points at 1. rewrite take_app_length' by (by rewrite length_fmap).
  by rewrite Exists_fmap.
Qed.

Lemma rectangular_columns n cols col0 :
  columns n cols → ct_columns cols !! 0%nat = Some col0 → length col0 = n →
  rectangular n (ct_columns cols) = true.
Proof.
  intros HC E0 HL. apply (rectangular_ok n _ col0 E0 HL). apply Forall_map. eapply Forall_impl; [|exact HC].
  intros ps [Hn _]. by rewrite length_fmap.
Qed.

Lemma ct_columns_head n cols :
  columns n cols → (1 ≤ length cols)%nat → ∃ col0, ct_columns cols !! 0%nat = Some col0 ∧ length col0 = n.
Proof.
  intros HC Hl. destruct HC as [|ps cols [HL _] HC]; [cbn in Hl; lia|].
  eexists. split; [reflexivity|]. by rewrite length_fmap.
Qed.

Lemma proveRctMG_ok message cols1 cols2 ins outs outPk fee s :
  let n := length ins in
  let cols := cols1 ++ input_points ins :: cols2 in
  columns n cols1 → columns n cols2 → (2 ≤ length cols)%nat → (1 ≤ n)%nat →
  Forall secret_ok ins.*1 → Forall scalar (ct_mask <$> outs.*1) →
  ct_mask <$> outPk = ed_encode <$> output_points outs →
  zsum ins.*2 = zsum outs.*2 + fee → rng_ok s →
  ∃ sig s', proveRctMG message (ct_columns cols) ins.*1 outs.*1 outPk None false (length cols1)
      (fee_key fee) s = Ret ((sig, None), s') ∧ rng_ok s' ∧ mg_shape (S n) (length cols) n sig ∧
    verRctMG sig (ct_columns cols) outPk (fee_key fee) message =
      Ret (bool_decide (¬ Exists (Exists (λ p, no_image p.1)) cols)).
Proof.
  intros n cols H1 H2 Hlen Hn HSk HOk EO Hb Hs.
  assert (columns n cols) as HC.
  { apply Forall_app. split; [done|]. constructor; [|done]. unfold input_points. rewrite length_fmap.
    split; [done|]. apply Forall_fmap, Forall_true. intros p. apply signer_curve. }
  assert (Forall on_curve (output_points outs)) as HO.
  { apply Forall_fmap, Forall_true. intros p. cbn. auto with edwards. }
  pose proof (mg_matrix_ok outPk _ fee cols HO EO (columns_curve n cols HC)) as EM.
  destruct (ct_columns_head n cols HC ltac:(lia)) as (col0 & E0 & HL0).
  pose proof (rectangular_columns n cols col0 HC E0 HL0) as HRect.
  set (last := to_scalar (mask_sum ins.*1 - mask_sum outs.*1)).
  set (xx := (ct_dest <$> ins.*1) ++ [last]).
  set (M := column_points (output_points outs) fee) in *.
  assert (Forall scalar xx) as Hxx.
  { apply Forall_app. split; [|constructor; [apply to_scalar_scalar|constructor]].
    apply Forall_fmap. eapply Forall_impl; [|exact HSk]. by intros ? []. }
  assert (map M cols = map M cols1 ++ (mulG <$> (le_combine <$> xx)) :: map M cols2) as EP.
  { unfold cols. rewrite map_app. cbn [map]. do 2 f_equal. unfold M. rewrite signer_column by done.
    unfold xx. rewrite !fmap_app. f_equal. cbn [fmap list_fmap]. f_equal. unfold last.
    by rewrite le_combine_to_scalar, mulG_mod. }
  assert (length (le_combine <$> xx) = S n) as HLx.
  { unfold xx. rewrite length_fmap, length_app, !length_fmap. cbn. fold n. lia. }
  assert (ring_is (map M cols1) (le_combine <$> xx) (map M cols2) n) as HR.
  { split; rewrite <- ?EP, ?HLx; [by apply column_matrix|rewrite length_map; lia|lia|lia]. }
  destruct (MLSAG_Gen_verifies message _ _ xx n s HR Hxx Hs) as (sig & s' & E & Hs' & _ & HSh & EV).
  cbv zeta in *. rewrite <- EP in E, EV, HSh. rewrite HLx, length_map in HSh. rewrite length_map in E.
  exists sig, s'. split_and!; [|done|exact HSh|].
  - unfold proveRctMG. assert (length (ct_columns cols) = length cols) as -> by apply length_map.
    rewrite calc_check by (apply Nat.leb_le; lia).
    rewrite (calc_step _ _ _ _ (run_some _ _ E0)), HL0. rewrite calc_check by (apply Nat.leb_le; lia).
    rewrite calc_check by done. rewrite calc_check by (apply Nat.eqb_eq; by rewrite length_fmap).
    rewrite calc_check.
    2: { apply Nat.eqb_eq. pose proof (f_equal length EO) as EL. unfold output_points in EL.
      rewrite !length_fmap in EL. by rewrite length_fmap. }
    rewrite calc_check by done. rewrite (calc_step _ _ _ _ EM).
    rewrite (calc_step _ _ _ _ (run_some _ _ (mg_secret_ok ins.*1 outs.*1
      ltac:(apply Forall_fmap; eapply Forall_impl; [|exact HSk]; by intros ? []) HOk))). exact E.
  - unfold verRctMG. assert (length (ct_columns cols) = length cols) as -> by apply length_map.
    rewrite (proj2 (Nat.leb_le _ _)) by lia. cbn [negb]. step_run E0. rewrite HL0.
    rewrite (proj2 (Nat.leb_le _ _)) by lia. cbn [negb]. rewrite HRect. cbn [negb]. step_ret EM. rewrite EV.
    f_equal. apply bool_decide_ext. unfold M. by rewrite (column_infinite n).
Qed.

(** ** No input makes the verification undefined *)

Definition ct_bytes (p : ctkey) : Prop := bytes32 (ct_dest p) ∧ bytes32 (ct_mask p).

Lemma add_masks_defined ps k : bytes32 k → Forall ct_bytes ps → defined bytes32 (add_masks ps k).
Proof.
  intros Hk HF. revert k Hk. induction HF as [|p ps [_ Hp] HF IH]; intros k Hk; [done|]. cbn [add_masks].
  eapply defined_bind; [exact (proj1 (addKeys_defined _ _ Hk Hp))|]. intros a Ha. by apply IH, good_bytes32.
Qed.

Lemma sub_masks_defined ps k : bytes32 k → Forall ct_bytes ps → defined bytes32 (sub_masks ps k).
Proof.
  intros Hk HF. revert k Hk. induction HF as [|p ps [_ Hp] HF IH]; intros k Hk; [done|]. cbn [sub_masks].
  eapply defined_bind; [exact (proj2 (addKeys_defined _ _ Hk Hp))|]. intros a Ha. by apply IH, good_bytes32.
Qed.

Lemma dests_bytes ps : Forall ct_bytes ps → Forall bytes32 (ct_dest <$> ps).
Proof. intros H. apply Forall_fmap. eapply Forall_impl; [|exact H]. by intros ? []. Qed.

Lemma identity_bytes : bytes32 rct_identity.
Proof. rewrite rct_identity_ok. apply bytes32_encode. Qed.

Lemma verRctMG_defined sig pubs outPk feeKey message :
  Forall (Forall ct_bytes) pubs → Forall ct_bytes outPk → bytes32 feeKey → mg_bytes sig →
  defined (λ _, True) (verRctMG sig pubs outPk feeKey message).
Proof.
  intros HP HO HF HS. unfold verRctMG. destruct pubs as [|col0 pubs']; [done|].
  destruct (negb _); [done|]. cbn [lookup list_lookup run mbind outcome_bind].
  destruct (negb _); [done|]. destruct (negb _); [done|].
  eapply (defined_bind (Forall (Forall bytes32))); [|intros M HM; by apply MLSAG_Ver_defined].
  generalize (col0 :: pubs') HP. clear -HO HF FL RHL. induction 1 as [|col pubs Hc HP IH]; [constructor|].
  cbn [mg_matrix]. eapply (defined_bind (Forall bytes32)).
  - unfold mg_column. eapply defined_bind; [exact (add_masks_defined _ _ identity_bytes Hc)|].
    intros a Ha. eapply defined_bind; [exact (sub_masks_defined _ _ Ha HO)|].
    intros b Hb. eapply defined_bind; [exact (proj2 (addKeys_defined _ _ Hb HF))|]. intros c Hc'.
    apply Forall_app. split; [by apply dests_bytes|]. constructor; [by apply good_bytes32|constructor].
  - intros c Hc'. eapply defined_bind; [exact IH|]. intros M HM. by constructor.
Qed.

Lemma verRctMGSimple_defined message sig pubs C :
  Forall ct_bytes pubs → bytes32 C → mg_bytes sig → ∃ b, verRctMGSimple message sig pubs C = Ret b.
Proof.
  intros HP HC HS. apply defined_catch. destruct (negb _); [done|].
  eapply (defined_bind (Forall (Forall bytes32))); [|intros M HM; by apply MLSAG_Ver_defined].
  induction HP as [|p pubs [Hd Hm] HP IH]; [constructor|]. cbn [simple_matrix].
  eapply (defined_bind (Forall bytes32)).
  - unfold simple_column. eapply defined_bind; [exact (proj2 (addKeys_defined _ _ Hm HC))|]. intros d Hd'.
    constructor; [done|]. constructor; [by apply good_bytes32|constructor].
  - intros c Hc. eapply defined_bind; [exact IH|]. intros M HM. by constructor.
Qed.

End mg_spec.
