(* ===== verification/Bulletproofs.v ===== *)
(** * Bulletproofs: [bulletproofs.cc]

    The range proofs of logarithmic size: the generators [Gi], [Hi], the
    operations on vectors of scalars and of points, the two provers and the
    verifier of a batch of proofs.  The build is the one of the source:
    [DEBUG_BP] not defined.  Allocation succeeds.

    The static tables are computed by [init_exponents] on the first call, under
    a lock, and are not written afterwards: they are passed as an argument.  The
    operations of OpenSSL on big numbers are a class; its conversions from and
    to bytes are the documented ones. *)

From S2P Require Export Multiexp Varint.

#[local] Open Scope Z_scope.

(** ** OpenSSL *)

(** [BN_mod_inverse(r, a, n, ctx)]: the number stored in [r], [None] for [NULL] *)
Class BigNum := BN_mod_inverse : Z → Z → option Z.

(** The inverse modulo [n] of a number prime to [n] *)
Class BigNumLaws `(BigNum) : Prop :=
  BN_mod_inverse_spec a n :
    1 < n → 0 ≤ a → Z.gcd a n = 1 → ∃ i, BN_mod_inverse a n = Some i ∧ 0 ≤ i < n ∧ (i * a) mod n = 1.

Definition BN_num_bytes (i : Z) : nat :=
  if i =? 0 then 0%nat else Z.to_nat (Z.log2 i / 8 + 1).

(** Big-endian *)
Definition BN_bin2bn (l : list Z) : Z := le_combine (reverse l).
Definition BN_bn2bin (i : Z) : list Z := reverse (le_split (BN_num_bytes i) i).

(** ** Constants *)

Definition maxN : nat := 64.
Definition maxM : nat := 16.
Definition STRAUS_SIZE_LIMIT : nat := 128.
Definition PIPPENGER_SIZE_LIMIT : nat := 0.
Definition logN : nat := 6.
Definition bpN : nat := 64.

Definition TWO : key := 2 :: replicate 31 0.
(** declared and not used by the code *)
Definition MINUS_ONE : key :=
  [0xec; 0xd3; 0xf5; 0x5c; 0x1a; 0x63; 0x12; 0x58; 0xd6; 0x9c; 0xf7; 0xa2; 0xde; 0xf9; 0xde; 0x14;
   0; 0; 0; 0; 0; 0; 0; 0; 0; 0; 0; 0; 0; 0; 0; 0x10].
Definition MINUS_INV_EIGHT : key :=
  [0x74; 0xa4; 0x19; 0x7a; 0xf0; 0x7d; 0x0b; 0xf7; 0x05; 0xc2; 0xda; 0x25; 0x2b; 0x5c; 0x0b; 0x0d;
   0; 0; 0; 0; 0; 0; 0; 0; 0; 0; 0; 0; 0; 0; 0; 0x0a].

(** ** Vectors of scalars *)

(** [for (size_t i = 2; i < n; ++i)], [n] iterations; [prev] is [res[i-1]] *)
Fixpoint powers_loop (n : nat) (x prev : key) : option keyV :=
  match n with
  | O => Some []
  | S n' =>
      p ← sc_mul prev x;
      rest ← powers_loop n' x p;
      Some (p :: rest)
  end.

Definition vector_powers (x : key) (n : nat) : option keyV :=
  match n with
  | O => Some []
  | 1%nat => Some [rct_identity]
  | S (S n') =>
      rest ← powers_loop n' x x;
      Some (rct_identity :: x :: rest)
  end.

(** [for (size_t i = 1; i < n; ++i)], [n] iterations from [i] *)
Fixpoint power_sum_loop (n i : nat) (x prev res : key) : option key :=
  match n with
  | O => Some res
  | S n' =>
      prev ← (if (1 <? i)%nat then sc_mul prev x else Some prev);
      res ← sc_add res prev;
      power_sum_loop n' (S i) x prev res
  end.

Definition vector_power_sum (x : key) (n : nat) : option key :=
  match n with
  | O => Some zero
  | 1%nat => Some rct_identity
  | S n' => power_sum_loop n' 1 x x rct_identity
  end.

Fixpoint inner_product_loop (a b : keyV) (res : key) : option key :=
  match a, b with
  | a :: as_, b :: bs => res ← sc_muladd a b res; inner_product_loop as_ bs res
  | _, _ => Some res
  end.

Definition inner_product (a b : keyV) : outcome key :=
  _ ← throw_unless (length a =? length b)%nat;
  run (inner_product_loop a b zero).

(** The loop of the functions that combine two vectors entry by entry *)
Fixpoint zip_keys (f : key → key → outcome key) (a b : keyV) : outcome keyV :=
  match a, b with
  | a :: as_, b :: bs => c ← f a b; cs ← zip_keys f as_ bs; Ret (c :: cs)
  | _, _ => Ret []
  end.

Definition hadamard (a b : keyV) : outcome keyV :=
  _ ← throw_unless (length a =? length b)%nat;
  zip_keys (λ a b, run (sc_mul a b)) a b.

Definition hadamard2 (a b : keyV) : outcome keyV :=
  _ ← throw_unless (length a =? length b)%nat;
  zip_keys addKeys a b.

Definition vector_add (a b : keyV) : outcome keyV :=
  _ ← throw_unless (length a =? length b)%nat;
  zip_keys (λ a b, run (sc_add a b)) a b.

Definition vector_subtract (a b : keyV) : outcome keyV :=
  _ ← throw_unless (length a =? length b)%nat;
  zip_keys (λ a b, run (sc_sub a b)) a b.

Definition vector_scalar (a : keyV) (x : key) : outcome keyV :=
  run (mapM (λ a, sc_mul a x) a).

Definition vector_dup (x : key) (n : nat) : keyV := replicate n x.

Fixpoint vector_scalar2 (a : keyV) (x : key) : outcome keyV :=
  match a with
  | [] => Ret []
  | p :: a => q ← RctOps.scalarmultKey p x; qs ← vector_scalar2 a x; Ret (q :: qs)
  end.

Fixpoint vector_sum_loop (a : keyV) (res : key) : option key :=
  match a with
  | [] => Some res
  | x :: a => res ← sc_add res x; vector_sum_loop a res
  end.

Definition vector_sum (a : keyV) : option key := vector_sum_loop a zero.

(** [twoN] and [ip12] *)
Definition oneN : keyV := vector_dup rct_identity maxN.
Definition twoN : option keyV := vector_powers TWO maxN.
Definition ip12 : outcome key := twoN ← run twoN; inner_product oneN twoN.

Definition switch_endianness (k : key) : key := reverse k.

Definition invert `{BigNum} (x : key) : outcome key :=
  match BN_mod_inverse (BN_bin2bn (switch_endianness x)) (BN_bin2bn (switch_endianness curveOrder)) with
  | None => Throw
  | Some i =>
      let len := BN_num_bytes i in
      _ ← throw_unless (len <=? 32)%nat;
      let inv := BN_bn2bin i ++ drop len zero in
      Ret (reverse (take len inv) ++ drop len inv)
  end.

Definition slice (a : keyV) (start stop : nat) : outcome keyV :=
  _ ← throw_unless (start <? length a)%nat;
  _ ← throw_unless (stop <=? length a)%nat;
  _ ← throw_unless (start <? stop)%nat;
  Ret (take (stop - start) (drop start a)).

Definition is_reduced (scalar : key) : option bool :=
  reduced ← sc_reduce32 scalar;
  Some (key_eqb scalar reduced).

(** ** Points *)

Definition addKeys_acc_p3 (acc_p3 : ge_p3) (a point : key) : outcome ge_p3 :=
  p3 ← load_key point;
  run (
    p3 ← ge_scalarmult_p3 a p3;
    p3 ← p3;
    cached ← ge_p3_to_cached acc_p3;
    p1 ← ge_add p3 cached;
    ge_p1p1_to_p3 p1).

Definition add_acc_p3 (acc_p3 : ge_p3) (point : key) : outcome ge_p3 :=
  p3 ← load_key point;
  run (
    cached ← ge_p3_to_cached p3;
    p1 ← ge_add acc_p3 cached;
    ge_p1p1_to_p3 p1).

Definition sub_acc_p3 (acc_p3 : ge_p3) (point : key) : outcome ge_p3 :=
  p3 ← load_key point;
  run (
    cached ← ge_p3_to_cached p3;
    p1 ← ge_sub acc_p3 cached;
    ge_p1p1_to_p3 p1).

(** the overload of [scalarmultKey] for a [ge_p3] *)
Definition scalarmultKey_p3 (P : ge_p3) (a : key) : option key :=
  R ← ge_scalarmult a P;
  ge_tobytes R.

(** ** Code that draws random bytes and whose exceptions are caught

    The state of the generator after an exception is the one when it is thrown. *)
Definition genx (S A : Type) : Type := S → outcome A * S.

#[export] Instance genx_ret {S} : MRet (genx S) := λ A a s, (Ret a, s).
#[export] Instance genx_bind {S} : MBind (genx S) := λ A B k m s,
  match m s with
  | (Ret a, s') => k a s'
  | (Throw, s') => (Throw, s')
  | (Undef, s') => (Undef, s')
  end.

Definition drawx {S A} (m : rand S A) : genx S A := λ s,
  match m s with Some (a, s') => (Ret a, s') | None => (Undef, s) end.
Definition calcx {S A} (m : outcome A) : genx S A := λ s, (m, s).
Definition catchx {S A} (a : A) (m : genx S A) : genx S A := λ s,
  let '(o, s') := m s in (catch_all a o, s').

Section bulletproofs.
Context `{FastHash} `{RctHash} `{BigNum} {G : Type} `{Rng G}.

(** ** Generators *)

(** ["bulletproof"] *)
Definition salt : list Z := [98; 117; 108; 108; 101; 116; 112; 114; 111; 111; 102].

Definition get_exponent (base : key) (idx : nat) : outcome key :=
  let hashed := base ++ salt ++ get_varint_data (Z.of_nat idx) in
  h ← run (fast_hash hashed);
  e ← run (hashToPoint h);
  _ ← throw_unless (negb (key_eqb e rct_identity));
  Ret e.

(** The static tables *)
Record exponents := {
  ex_Hi : keyV; ex_Gi : keyV;
  ex_Hi_p3 : list ge_p3; ex_Gi_p3 : list ge_p3;
  ex_straus : straus_cached_data;
  ex_pippenger : list ge_cached
}.

(** What an iteration of [init_exponents] stores: [Hi[i]], [Hi_p3[i]], [Gi[i]], [Gi_p3[i]],
    and the two entries of [data] *)
Record exponent := {
  en_H : key; en_H_p3 : ge_p3; en_G : key; en_G_p3 : ge_p3; en_data : list MultiexpData
}.

(** [for (size_t i = 0; i < maxN*maxM; ++i)], [n] iterations from [i] *)
Fixpoint exponents_loop (n i : nat) : outcome (list exponent) :=
  match n with
  | O => Ret []
  | S n' =>
      h ← get_exponent rct_H (i * 2);
      h3 ← load_key h;
      g ← get_exponent rct_H (i * 2 + 1);
      g3 ← load_key g;
      d1 ← MultiexpData_of_keys zero g;
      d2 ← MultiexpData_of_keys zero h;
      rest ← exponents_loop n' (S i);
      Ret ({| en_H := h; en_H_p3 := h3; en_G := g; en_G_p3 := g3; en_data := [d1; d2] |} :: rest)
  end.

Definition init_exponents : outcome exponents :=
  l ← exponents_loop (maxN * maxM) 0;
  let data := l ≫= en_data in
  straus_HiGi_cache ← straus_init_cache data STRAUS_SIZE_LIMIT;
  pippenger_HiGi_cache ← pippenger_init_cache data PIPPENGER_SIZE_LIMIT;
  Ret {| ex_Hi := map en_H l; ex_Gi := map en_G l;
         ex_Hi_p3 := map en_H_p3 l; ex_Gi_p3 := map en_G_p3 l;
         ex_straus := straus_HiGi_cache; ex_pippenger := pippenger_HiGi_cache |}.

Definition bp_multiexp (E : exponents) (data : list MultiexpData) (HiGi : bool) : outcome key :=
  if HiGi then
    if (length data <=? 128)%nat then straus data (Some (ex_straus E)) 0
    else pippenger data (Some (ex_pippenger E)) (get_pippenger_c (length data))
  else
    if (length data <=? 64)%nat then straus data None 0
    else pippenger data None (get_pippenger_c (length data)).

(** The entries [a[i]], [Gi_p3[i]] and [b[i]], [Hi_p3[i]] *)
Fixpoint exponent_data (a b : keyV) (Gs Hs : list ge_p3) : option (list MultiexpData) :=
  match a, b with
  | a :: as_, b :: bs =>
      match Gs, Hs with
      | g :: Gs, h :: Hs =>
          rest ← exponent_data as_ bs Gs Hs;
          Some ({| md_scalar := a; md_point := g |} :: {| md_scalar := b; md_point := h |} :: rest)
      | _, _ => None
      end
  | _, _ => Some []
  end.

Definition vector_exponent (E : exponents) (a b : keyV) : outcome key :=
  _ ← throw_unless (length a =? length b)%nat;
  _ ← throw_unless (length a <=? maxN * maxM)%nat;
  multiexp_data ← run (exponent_data a b (ex_Gi_p3 E) (ex_Hi_p3 E));
  bp_multiexp E multiexp_data true.

Fixpoint exponent_data_custom (A B a b : keyV) : outcome (list MultiexpData) :=
  match A, B, a, b with
  | P :: A, Q :: B, s :: a, t :: b =>
      p ← load_key P;
      q ← load_key Q;
      rest ← exponent_data_custom A B a b;
      Ret ({| md_scalar := s; md_point := p |} :: {| md_scalar := t; md_point := q |} :: rest)
  | _, _, _, _ => Ret []
  end.

Definition vector_exponent_custom (E : exponents) (A B a b : keyV) : outcome key :=
  _ ← throw_unless (length A =? length B)%nat;
  _ ← throw_unless (length a =? length b)%nat;
  _ ← throw_unless (length a =? length A)%nat;
  _ ← throw_unless (length a <=? maxN * maxM)%nat;
  multiexp_data ← exponent_data_custom A B a b;
  bp_multiexp E multiexp_data false.

(** [hash_cache_mash], for two, three or four keys; it also assigns [hash_cache] *)
Definition hash_cache_mash (hash_cache : key) (mash : keyV) : option key :=
  hash_to_scalar_keyV (hash_cache :: mash).

(** ** The prover *)

(** [sv[i/8] & (((uint64_t)1)<<(i%8))] *)
Definition bit_key (sv : key) (i : nat) : key :=
  if Z.land (sv !!! (i / 8)%nat) (Z.shiftl 1 (Z.of_nat (i mod 8))) =? 0 then zero else rct_identity.

Definition bits_key (sv : key) : keyV := map (bit_key sv) (seq 0 bpN).

Definition minus_identity (aL : keyV) : option keyV := mapM (λ a, sc_sub a rct_identity) aL.

(** [V]: [addKeys2(V, gamma, sv, H)] times [INV_EIGHT] *)
Definition commit8 (gamma sv : key) : outcome key :=
  V ← addKeys2 gamma sv rct_H;
  RctOps.scalarmultKey V INV_EIGHT.

(** [A] or [S]: [vector_exponent(aL, aR)] plus [alpha] times the base, times [INV_EIGHT] *)
Definition commit_vectors (E : exponents) (aL aR : keyV) (alpha : key) : outcome key :=
  ve ← vector_exponent E aL aR;
  aG ← run (scalarmultBase alpha);
  A ← addKeys ve aG;
  RctOps.scalarmultKey A INV_EIGHT.

(** [T1] or [T2] *)
Definition commit_t (t tau : key) : outcome key :=
  tH ← run (scalarmultH t);
  tG ← run (scalarmultBase tau);
  T ← addKeys tH tG;
  RctOps.scalarmultKey T INV_EIGHT.

(** [Hprime]: the entries of [Hi_p3] times the powers of [yinv] *)
Fixpoint hprime_loop (Hs : list ge_p3) (yinv yinvpow : key) : option keyV :=
  match Hs with
  | [] => Some []
  | P :: Hs =>
      h ← scalarmultKey_p3 P yinvpow;
      yinvpow ← sc_mul yinvpow yinv;
      rest ← hprime_loop Hs yinv yinvpow;
      Some (h :: rest)
  end.

(** [L[round]] or [R[round]] *)
Definition round_key (E : exponents) (Gs Hs as_ bs : keyV) (c x_ip : key) : outcome key :=
  L ← vector_exponent_custom E Gs Hs as_ bs;
  tmp ← run (sc_mul c x_ip);
  tH ← run (scalarmultH tmp);
  L ← addKeys L tH;
  RctOps.scalarmultKey L INV_EIGHT.

(** PAPER LINES 24-25 and 28-29: [a] times [x] plus [b] times [y] *)
Definition fold_points (a b : keyV) (x y : key) : outcome keyV :=
  p ← vector_scalar2 a x;
  q ← vector_scalar2 b y;
  hadamard2 p q.
Definition fold_scalars (a b : keyV) (x y : key) : outcome keyV :=
  p ← vector_scalar a x;
  q ← vector_scalar b y;
  vector_add p q.

(** [while (nprime > 1)]; [n] is the number of entries of [L] from [round] on.  The
    challenge of the last round, and [L], [R], [aprime[0]], [bprime[0]] unless a
    challenge is 0 *)
Fixpoint ip_rounds (n : nat) (E : exponents) (x_ip hash_cache : key) (nprime : nat)
    (Gprime Hprime aprime bprime : keyV) : outcome (key * option (keyV * keyV * key * key)) :=
  if (nprime <=? 1)%nat then
    a ← run (aprime !! 0%nat);
    b ← run (bprime !! 0%nat);
    Ret (hash_cache, Some (replicate n rct_Z, replicate n rct_Z, a, b))
  else
  match n with
  | O => Undef
  | S n' =>
      let nprime := (nprime / 2)%nat in
      a0 ← slice aprime 0 nprime;
      a1 ← slice aprime nprime (length aprime);
      b0 ← slice bprime 0 nprime;
      b1 ← slice bprime nprime (length bprime);
      cL ← inner_product a0 b1;
      cR ← inner_product a1 b0;
      g0 ← slice Gprime 0 nprime;
      g1 ← slice Gprime nprime (length Gprime);
      h0 ← slice Hprime 0 nprime;
      h1 ← slice Hprime nprime (length Hprime);
      L ← round_key E g1 h0 a0 b1 cL x_ip;
      R ← round_key E g0 h1 a1 b0 cR x_ip;
      w ← run (hash_cache_mash hash_cache [L; R]);
      if key_eqb w zero then Ret (w, None) else
      winv ← invert w;
      Gprime ← fold_points g0 g1 winv w;
      Hprime ← fold_points h0 h1 w winv;
      aprime ← fold_scalars a0 a1 w winv;
      bprime ← fold_scalars b0 b1 winv w;
      '(hash_cache, rest) ← ip_rounds n' E x_ip w nprime Gprime Hprime aprime bprime;
      match rest with
      | None => Ret (hash_cache, None)
      | Some (Ls, Rs, a, b) => Ret (hash_cache, Some (L :: Ls, R :: Rs, a, b))
      end
  end.

(** From [x_ip] on: [Gprime], [Hprime] and the rounds, for vectors of [MN] entries *)
Definition prove_rounds (E : exponents) (logMN MN : nat) (y x_ip hash_cache : key) (l r : keyV) :
    outcome (key * option (keyV * keyV * key * key)) :=
  yinv ← invert y;
  Gprime ← run (if (MN <=? length (ex_Gi E))%nat then Some (take MN (ex_Gi E)) else None);
  Hs ← run (if (MN <=? length (ex_Hi_p3 E))%nat then Some (take MN (ex_Hi_p3 E)) else None);
  Hprime ← run (hprime_loop Hs yinv rct_identity);
  aprime ← run (if (MN <=? length l)%nat then Some (take MN l) else None);
  bprime ← run (if (MN <=? length r)%nat then Some (take MN r) else None);
  ip_rounds logMN E x_ip hash_cache MN Gprime Hprime aprime bprime.

(** One attempt of the prover of one value, from [try_again] on: the value of [hash_cache],
    which the next attempt starts with, and the proof, if the attempt is the last *)
Definition prove_attempt1 (E : exponents) (sv gamma V : key) (aL aR : keyV) (hash_cache : key) :
    gen G (key * option Bulletproof) :=
  alpha ← draw skGen;
  A ← calc (commit_vectors E aL aR alpha);
  sL ← skvGen bpN;
  sR ← skvGen bpN;
  rho ← draw skGen;
  S_ ← calc (commit_vectors E sL sR rho);
  y ← calc (run (hash_cache_mash hash_cache [A; S_]));
  if key_eqb y zero then mret (y, None) else
  z ← calc (run (rct_hash_to_scalar y));
  if key_eqb z zero then mret (z, None) else
  '(t1, t2, vs) ← calc (
    yN ← run (vector_powers y bpN);
    twoN ← run twoN;
    ip12 ← ip12;
    _ ← run (
      ip1y ← vector_sum yN;
      t0 ← sc_muladd z ip1y zero;
      zsq ← sc_mul z z;
      t0 ← sc_muladd zsq sv t0;
      k ← sc_mulsub zsq ip1y zero;
      zcu ← sc_mul zsq z;
      k ← sc_mulsub zcu ip12 k;
      sc_add t0 k);
    zsq ← run (sc_mul z z);
    HyNsR ← hadamard yN sR;
    let vpIz := vector_dup z bpN in
    vp2zsq ← vector_scalar twoN zsq;
    aL_vpIz ← vector_subtract aL vpIz;
    aR_vpIz ← vector_add aR vpIz;
    ip1 ← inner_product aL_vpIz HyNsR;
    t1 ← run (sc_add zero ip1);
    h ← hadamard yN aR_vpIz;
    v ← vector_add h vp2zsq;
    ip2 ← inner_product sL v;
    t1 ← run (sc_add t1 ip2);
    ip3 ← inner_product sL HyNsR;
    t2 ← run (sc_add zero ip3);
    Ret (t1, t2, (yN, zsq, vp2zsq, aL_vpIz, aR_vpIz)));
  let '(yN, zsq, vp2zsq, aL_vpIz, aR_vpIz) := vs in
  tau1 ← draw skGen;
  tau2 ← draw skGen;
  T1 ← calc (commit_t t1 tau1);
  T2 ← calc (commit_t t2 tau2);
  x ← calc (run (hash_cache_mash z [z; T1; T2]));
  if key_eqb x zero then mret (x, None) else
  calc (
    taux ← run (sc_mul tau1 x);
    xsq ← run (sc_mul x x);
    taux ← run (sc_muladd tau2 xsq taux);
    taux ← run (sc_muladd gamma zsq taux);
    mu ← run (sc_muladd x rho alpha);
    sLx ← vector_scalar sL x;
    l ← vector_add aL_vpIz sLx;
    sRx ← vector_scalar sR x;
    v ← vector_add aR_vpIz sRx;
    v ← hadamard yN v;
    r ← vector_add v vp2zsq;
    t ← inner_product l r;
    x_ip ← run (hash_cache_mash x [x; taux; mu; t]);
    '(hash_cache, rounds) ← prove_rounds E logN bpN y x_ip x_ip l r;
    match rounds with
    | None => Ret (hash_cache, None)
    | Some (L, R, a, b) =>
        Ret (hash_cache, Some {| bp_V := [V]; bp_A := A; bp_S := S_; bp_T1 := T1; bp_T2 := T2;
          bp_taux := taux; bp_mu := mu; bp_L := L; bp_R := R; bp_a := a; bp_b := b; bp_t := t |})
    end).

(** At most [n] attempts; [None] when all of them start again *)
Fixpoint prove_tries1 (n : nat) (E : exponents) (sv gamma V : key) (aL aR : keyV) (hash_cache : key) :
    gen G (option Bulletproof) :=
  match n with
  | O => mret None
  | S n' =>
      '(hash_cache, proof) ← prove_attempt1 E sv gamma V aL aR hash_cache;
      match proof with
      | Some proof => mret (Some proof)
      | None => prove_tries1 n' E sv gamma V aL aR hash_cache
      end
  end.

(** [bulletproof_PROVE] of a scalar *)
Definition bulletproof_PROVE_key (n : nat) (sv gamma : key) : gen G (option Bulletproof) :=
  E ← calc init_exponents;
  V ← calc (commit8 gamma sv);
  let aL := bits_key sv in
  aR ← calc (run (minus_identity aL));
  hash_cache ← calc (run (rct_hash_to_scalar V));
  prove_tries1 n E sv gamma V aL aR hash_cache.

(** The eight bytes of an amount *)
Definition v_key (v : Z) : key :=
  map (λ i, Z.land (Z.shiftr v (8 * Z.of_nat i)) 255) (seq 0 8) ++ drop 8 zero.

(** of an amount *)
Definition bulletproof_PROVE_amount (n : nat) (v : Z) (gamma : key) : gen G (option Bulletproof) :=
  bulletproof_PROVE_key n (v_key v) gamma.

(** [for (logM = 0; (M = 1<<logM) <= maxM && M < size; ++logM);], at most [n] iterations *)
Fixpoint find_logM (n logM size : nat) : nat :=
  match n with
  | O => logM
  | S n' => if ((2 ^ logM <=? maxM) && (2 ^ logM <? size))%nat then find_logM n' (S logM) size else logM
  end.

(** [1<<logM <= maxM] fails for [logM] = 5 *)
Definition size_logM (size : nat) : nat := find_logM 5 0 size.

(** [aL]: the bits of the values, then zeros up to [M] values *)
Definition bits_keys (M : nat) (sv : keyV) : keyV :=
  seq 0 M ≫= λ j, match sv !! j with Some k => bits_key k | None => replicate bpN zero end.

(** [for (size_t j = 1; j <= M; ++j)], [n] iterations from [j], for the entry [i] of [zero_twos] *)
Fixpoint zero_two (n j i : nat) (zpow twoN : keyV) (acc : key) : outcome key :=
  match n with
  | O => Ret acc
  | S n' =>
      if (((j - 1) * bpN <=? i) && (i <? j * bpN))%nat then
        _ ← throw_unless (1 + j <? length zpow)%nat;
        _ ← throw_unless (i - (j - 1) * bpN <? length twoN)%nat;
        acc ← run (sc_muladd (zpow !!! (1 + j)%nat) (twoN !!! (i - (j - 1) * bpN)%nat) acc);
        zero_two n' (S j) i zpow twoN acc
      else zero_two n' (S j) i zpow twoN acc
  end.

(** [for (size_t i = 0; i < MN; ++i)], [n] iterations from [i] *)
Fixpoint zero_twos (n i M : nat) (zpow twoN : keyV) : outcome keyV :=
  match n with
  | O => Ret []
  | S n' =>
      k ← zero_two M 1 i zpow twoN zero;
      rest ← zero_twos n' (S i) M zpow twoN;
      Ret (k :: rest)
  end.

(** [for (size_t j = 1; j <= sv.size(); ++j)], over [gamma] *)
Fixpoint taux_loop (j : nat) (zpow gamma : keyV) (taux : key) : outcome key :=
  match gamma with
  | [] => Ret taux
  | g :: gamma =>
      _ ← throw_unless (j + 1 <? length zpow)%nat;
      taux ← run (sc_muladd (zpow !!! (j + 1)%nat) g taux);
      taux_loop (S j) zpow gamma taux
  end.

(** The polynomials by coefficients: [l0], [r0], [r1], and [zpow] *)
Definition prove_vectors (M MN : nat) (y z : key) (aL aR sR : keyV) : outcome (keyV * keyV * keyV * keyV) :=
  let zMN := vector_dup z MN in
  l0 ← vector_subtract aL zMN;
  zpow ← run (vector_powers z (M + 2));
  twoN ← run twoN;
  zero_twos ← zero_twos MN 0 M zpow twoN;
  r0 ← vector_add aR zMN;
  yMN ← run (vector_powers y MN);
  r0 ← hadamard r0 yMN;
  r0 ← vector_add r0 zero_twos;
  r1 ← hadamard yMN sR;
  Ret (l0, r0, r1, zpow).

(** [t1] and [t2] *)
Definition prove_t (l0 sL r0 r1 : keyV) : outcome (key * key) :=
  t1_1 ← inner_product l0 r1;
  t1_2 ← inner_product sL r0;
  t1 ← run (sc_add t1_1 t1_2);
  t2 ← inner_product sL r1;
  Ret (t1, t2).

(** From PAPER LINES 52-53 on *)
Definition prove_response (E : exponents) (gamma V : keyV) (logMN MN : nat)
    (A S_ T1 T2 y x tau1 tau2 rho alpha : key) (l0 sL r0 r1 zpow : keyV) : outcome (option Bulletproof) :=
  taux ← run (sc_mul tau1 x);
  xsq ← run (sc_mul x x);
  taux ← run (sc_muladd tau2 xsq taux);
  taux ← taux_loop 1 zpow gamma taux;
  mu ← run (sc_muladd x rho alpha);
  l1x ← vector_scalar sL x;
  l ← vector_add l0 l1x;
  r1x ← vector_scalar r1 x;
  r ← vector_add r0 r1x;
  t ← inner_product l r;
  x_ip ← run (hash_cache_mash x [x; taux; mu; t]);
  if key_eqb x_ip zero then Ret None else
  '(_, rounds) ← prove_rounds E logMN MN y x_ip x_ip l r;
  match rounds with
  | None => Ret None
  | Some (L, R, a, b) =>
      Ret (Some {| bp_V := V; bp_A := A; bp_S := S_; bp_T1 := T1; bp_T2 := T2;
        bp_taux := taux; bp_mu := mu; bp_L := L; bp_R := R; bp_a := a; bp_b := b; bp_t := t |})
  end.

(** One attempt of the prover of several values; [None] starts again *)
Definition prove_attempt (E : exponents) (gamma V : keyV) (M logMN MN : nat) (aL aR : keyV) :
    gen G (option Bulletproof) :=
  hash_cache ← calc (run (hash_to_scalar_keyV V));
  alpha ← draw skGen;
  A ← calc (commit_vectors E aL aR alpha);
  sL ← skvGen MN;
  sR ← skvGen MN;
  rho ← draw skGen;
  S_ ← calc (commit_vectors E sL sR rho);
  y ← calc (run (hash_cache_mash hash_cache [A; S_]));
  if key_eqb y zero then mret None else
  z ← calc (run (rct_hash_to_scalar y));
  if key_eqb z zero then mret None else
  '(l0, r0, r1, zpow) ← calc (prove_vectors M MN y z aL aR sR);
  '(t1, t2) ← calc (prove_t l0 sL r0 r1);
  tau1 ← draw skGen;
  tau2 ← draw skGen;
  T1 ← calc (commit_t t1 tau1);
  T2 ← calc (commit_t t2 tau2);
  x ← calc (run (hash_cache_mash z [z; T1; T2]));
  if key_eqb x zero then mret None else
  calc (prove_response E gamma V logMN MN A S_ T1 T2 y x tau1 tau2 rho alpha l0 sL r0 r1 zpow).

Fixpoint prove_tries (n : nat) (E : exponents) (gamma V : keyV) (M logMN MN : nat) (aL aR : keyV) :
    gen G (option Bulletproof) :=
  match n with
  | O => mret None
  | S n' =>
      proof ← prove_attempt E gamma V M logMN MN aL aR;
      match proof with
      | Some proof => mret (Some proof)
      | None => prove_tries n' E gamma V M logMN MN aL aR
      end
  end.

(** [for (const rct::key &k: keys) CHECK_AND_ASSERT_THROW_MES(is_reduced(k), ..)] *)
Fixpoint check_reduced (keys : keyV) : outcome unit :=
  match keys with
  | [] => Ret tt
  | k :: keys => b ← run (is_reduced k); _ ← throw_unless b; check_reduced keys
  end.

(** [bulletproof_PROVE] of several scalars *)
Definition bulletproof_PROVE_keyV (n : nat) (sv gamma : keyV) : gen G (option Bulletproof) :=
  _ ← calc (throw_unless (length sv =? length gamma)%nat);
  _ ← calc (throw_unless (negb (length sv =? 0)%nat));
  _ ← calc (check_reduced sv);
  _ ← calc (check_reduced gamma);
  E ← calc init_exponents;
  let logM := size_logM (length sv) in
  let M := (2 ^ logM)%nat in
  _ ← calc (throw_unless (M <=? maxM)%nat);
  let logMN := (logM + logN)%nat in
  let MN := (M * bpN)%nat in
  V ← calc (zip_keys commit8 gamma sv);
  let aL := bits_keys M sv in
  aR ← calc (run (minus_identity aL));
  prove_tries n E gamma V M logMN MN aL aR.

(** of several amounts *)
Definition bulletproof_PROVE (n : nat) (v : list Z) (gamma : keyV) : gen G (option Bulletproof) :=
  _ ← calc (throw_unless (length v =? length gamma)%nat);
  bulletproof_PROVE_keyV n (map v_key v) gamma.

(** ** The verifier *)

(** The checks on a proof: [CHECK_AND_ASSERT_MES(.., false, ..)] returns false *)
Definition proof_sane (proof : Bulletproof) : option bool :=
  b1 ← is_reduced (bp_taux proof);
  if negb b1 then Some false else
  b2 ← is_reduced (bp_mu proof);
  if negb b2 then Some false else
  b3 ← is_reduced (bp_a proof);
  if negb b3 then Some false else
  b4 ← is_reduced (bp_b proof);
  if negb b4 then Some false else
  b5 ← is_reduced (bp_t proof);
  if negb b5 then Some false else
  Some ((1 <=? length (bp_V proof)) && (length (bp_L proof) =? length (bp_R proof)) &&
        (0 <? length (bp_L proof)))%nat.

(** The longest [L]; [None] when a check fails *)
Fixpoint sane_loop (proofs : list Bulletproof) (max_length : nat) : option (option nat) :=
  match proofs with
  | [] => Some (Some max_length)
  | proof :: proofs =>
      b ← proof_sane proof;
      if negb b then Some None else sane_loop proofs (max max_length (length (bp_L proof)))
  end.

(** The weighted aggregates *)
Record aggregate := {
  ag_Z0 : key; ag_z1 : key; ag_Z2 : key; ag_z3 : key; ag_z4 : keyV; ag_z5 : keyV;
  ag_Y2 : key; ag_Y3 : key; ag_Y4 : key; ag_y0 : key; ag_y1 : key
}.

Definition aggregate_0 (maxMN : nat) : aggregate := {|
  ag_Z0 := rct_identity; ag_z1 := zero; ag_Z2 := rct_identity; ag_z3 := zero;
  ag_z4 := replicate maxMN zero; ag_z5 := replicate maxMN zero;
  ag_Y2 := rct_identity; ag_Y3 := rct_identity; ag_Y4 := rct_identity;
  ag_y0 := zero; ag_y1 := zero
|}.

(** [for (rct::key &k: keys) k = rct::scalarmult8(k);] *)
Fixpoint times8 (keys : keyV) : outcome keyV :=
  match keys with
  | [] => Ret []
  | k :: keys => k ← scalarmult8 k; rest ← times8 keys; Ret (k :: rest)
  end.

(** [for (size_t j = 1; j <= M; ++j)], [n] iterations from [j]; [None] returns false *)
Fixpoint verify_k (n j : nat) (zpow : keyV) (ip12 k : key) : option (option key) :=
  match n with
  | O => Some (Some k)
  | S n' =>
      if negb (j + 2 <? length zpow)%nat then Some None else
      k ← sc_mulsub (zpow !!! (j + 2)%nat) ip12 k;
      verify_k n' (S j) zpow ip12 k
  end.

(** [multiexp_data.emplace_back(zpow[j+2], proof8_V[j])] *)
Fixpoint verify_V (j : nat) (zpow proof8_V : keyV) : outcome (list MultiexpData) :=
  match proof8_V with
  | [] => Ret []
  | V :: proof8_V =>
      zj ← run (zpow !! (j + 2)%nat);
      d ← MultiexpData_of_keys zj V;
      rest ← verify_V (S j) zpow proof8_V;
      Ret (d :: rest)
  end.

(** [for (size_t i = 0; i < rounds; ++i)]: the challenges; [None] returns false *)
Fixpoint verify_w (hash_cache : key) (L R : keyV) : option (option keyV) :=
  match L, R with
  | l :: L, r :: R =>
      w ← hash_cache_mash hash_cache [l; r];
      if key_eqb w zero then Some None else
      rest ← verify_w w L R;
      match rest with None => Some None | Some ws => Some (Some (w :: ws)) end
  | _, _ => Some (Some [])
  end.

Fixpoint inverts (w : keyV) : outcome keyV :=
  match w with
  | [] => Ret []
  | k :: w => v ← invert k; rest ← inverts w; Ret (v :: rest)
  end.

(** [for (size_t j = rounds; j-- > 0; )], with [j] iterations left *)
Fixpoint gh_loop (j i : nat) (w winv : keyV) (g_scalar h_scalar : key) : option (key * key) :=
  match j with
  | O => Some (g_scalar, h_scalar)
  | S j =>
      let J := (length w - j - 1)%nat in
      wJ ← w !! J;
      winvJ ← winv !! J;
      if (Nat.land i (Nat.shiftl 1 j) =? 0)%nat then
        g_scalar ← sc_mul g_scalar winvJ;
        h_scalar ← sc_mul h_scalar wJ;
        gh_loop j i w winv g_scalar h_scalar
      else
        g_scalar ← sc_mul g_scalar wJ;
        h_scalar ← sc_mul h_scalar winvJ;
        gh_loop j i w winv g_scalar h_scalar
  end.

(** What does not change in the loop over [i] *)
Record verify_env := {
  ve_MN : nat; ve_weight : key; ve_a : key; ve_b : key; ve_y : key; ve_yinv : key; ve_z : key;
  ve_w : keyV; ve_winv : keyV; ve_zpow : keyV; ve_twoN : keyV
}.

(** [for (size_t i = 0; i < MN; ++i)], [n] iterations from [i]; [None] returns false *)
Fixpoint verify_scalars (n i : nat) (V : verify_env) (yinvpow ypow : key) (z4 z5 : keyV) :
    option (option (keyV * keyV)) :=
  match n with
  | O => Some (Some (z4, z5))
  | S n' =>
      h_scalar ← sc_mul (ve_b V) yinvpow;
      '(g_scalar, h_scalar) ← gh_loop (length (ve_w V)) i (ve_w V) (ve_winv V) (ve_a V) h_scalar;
      g_scalar ← sc_add g_scalar (ve_z V);
      if negb (2 + i / bpN <? length (ve_zpow V))%nat then Some None else
      if negb (i mod bpN <? length (ve_twoN V))%nat then Some None else
      tmp ← sc_mul (ve_zpow V !!! (2 + i / bpN)%nat) (ve_twoN V !!! (i mod bpN)%nat);
      tmp ← sc_muladd (ve_z V) ypow tmp;
      h_scalar ← sc_mulsub tmp yinvpow h_scalar;
      z4i ← z4 !! i;
      z4i ← sc_muladd g_scalar (ve_weight V) z4i;
      z5i ← z5 !! i;
      z5i ← sc_muladd h_scalar (ve_weight V) z5i;
      '(yinvpow, ypow) ← (
        if (i =? ve_MN V - 1)%nat then Some (yinvpow, ypow) else
        yinvpow ← sc_mul yinvpow (ve_yinv V);
        ypow ← sc_mul ypow (ve_y V);
        Some (yinvpow, ypow));
      verify_scalars n' (S i) V yinvpow ypow (<[i := z4i]> z4) (<[i := z5i]> z5)
  end.

(** The squares of the challenges with [proof8_L], those of the inverses with [proof8_R] *)
Fixpoint verify_LR (w winv L8 R8 : keyV) : outcome (list MultiexpData) :=
  match w, winv, L8, R8 with
  | w :: ws, v :: vs, l :: L8, r :: R8 =>
      tmp ← run (sc_mul w w);
      d1 ← MultiexpData_of_keys tmp l;
      tmp ← run (sc_mul v v);
      d2 ← MultiexpData_of_keys tmp r;
      rest ← verify_LR ws vs L8 R8;
      Ret (d1 :: d2 :: rest)
  | _, _, _, _ => Ret []
  end.

(** [rct::addKeys(acc, acc, rct::scalarmultKey(P, a))] *)
Definition acc_mul (acc P a : key) : outcome key :=
  aP ← RctOps.scalarmultKey P a;
  addKeys acc aP.

(** The body of the loop over the proofs after the weight is drawn; [None] returns false *)
Definition verify_proof (E : exponents) (proof : Bulletproof) (logM : nat) (weight : key)
    (ag : aggregate) : outcome (option aggregate) :=
  let M := (2 ^ logM)%nat in
  let MN := (M * bpN)%nat in
  hash_cache ← run (hash_to_scalar_keyV (bp_V proof));
  y ← run (hash_cache_mash hash_cache [bp_A proof; bp_S proof]);
  if key_eqb y zero then Ret None else
  z ← run (rct_hash_to_scalar y);
  if key_eqb z zero then Ret None else
  x ← run (hash_cache_mash z [z; bp_T1 proof; bp_T2 proof]);
  if key_eqb x zero then Ret None else
  x_ip ← run (hash_cache_mash x [x; bp_taux proof; bp_mu proof; bp_t proof]);
  if key_eqb x_ip zero then Ret None else
  proof8_V ← times8 (bp_V proof);
  proof8_L ← times8 (bp_L proof);
  proof8_R ← times8 (bp_R proof);
  proof8_T1 ← scalarmult8 (bp_T1 proof);
  proof8_T2 ← scalarmult8 (bp_T2 proof);
  proof8_S ← scalarmult8 (bp_S proof);
  y0 ← run (sc_muladd (bp_taux proof) weight (ag_y0 ag));
  zpow ← run (vector_powers z (M + 3));
  ip1y ← run (vector_power_sum y MN);
  z2 ← run (zpow !! 2%nat);
  k ← run (sc_mulsub z2 ip1y zero);
  ip12 ← ip12;
  k ← run (verify_k M 1 zpow ip12 k);
  match k with None => Ret None | Some k =>
  tmp ← run (sc_muladd z ip1y k);
  tmp ← run (sc_sub (bp_t proof) tmp);
  y1 ← run (sc_muladd tmp weight (ag_y1 ag));
  multiexp_data ← verify_V 0 zpow proof8_V;
  acc ← bp_multiexp E multiexp_data false;
  Y2 ← acc_mul (ag_Y2 ag) acc weight;
  tmp ← run (sc_mul x weight);
  Y3 ← acc_mul (ag_Y3 ag) proof8_T1 tmp;
  xsq ← run (sc_mul x x);
  tmp ← run (sc_mul xsq weight);
  Y4 ← acc_mul (ag_Y4 ag) proof8_T2 tmp;
  proof8_A ← scalarmult8 (bp_A proof);
  xS ← RctOps.scalarmultKey proof8_S x;
  AxS ← addKeys proof8_A xS;
  Z0 ← acc_mul (ag_Z0 ag) AxS weight;
  w ← run (verify_w x_ip (bp_L proof) (bp_R proof));
  match w with None => Ret None | Some w =>
  yinv ← invert y;
  winv ← inverts w;
  twoN ← run twoN;
  let V := {| ve_MN := MN; ve_weight := weight; ve_a := bp_a proof; ve_b := bp_b proof;
              ve_y := y; ve_yinv := yinv; ve_z := z; ve_w := w; ve_winv := winv;
              ve_zpow := zpow; ve_twoN := twoN |} in
  z45 ← run (verify_scalars MN 0 V rct_identity rct_identity (ag_z4 ag) (ag_z5 ag));
  match z45 with None => Ret None | Some (z4, z5) =>
  z1 ← run (sc_muladd (bp_mu proof) weight (ag_z1 ag));
  multiexp_data ← verify_LR w winv proof8_L proof8_R;
  acc ← bp_multiexp E multiexp_data false;
  Z2 ← acc_mul (ag_Z2 ag) acc weight;
  tmp ← run (sc_mulsub (bp_a proof) (bp_b proof) (bp_t proof));
  tmp ← run (sc_mul tmp x_ip);
  z3 ← run (sc_muladd tmp weight (ag_z3 ag));
  Ret (Some {| ag_Z0 := Z0; ag_z1 := z1; ag_Z2 := Z2; ag_z3 := z3; ag_z4 := z4; ag_z5 := z5;
               ag_Y2 := Y2; ag_Y3 := Y3; ag_Y4 := Y4; ag_y0 := y0; ag_y1 := y1 |})
  end end end.

Fixpoint verify_loop (E : exponents) (proofs : list Bulletproof) (ag : aggregate) :
    genx G (option aggregate) :=
  match proofs with
  | [] => mret (Some ag)
  | proof :: proofs =>
      let logM := size_logM (length (bp_V proof)) in
      if negb (length (bp_L proof) =? 6 + logM)%nat then mret None else
      weight ← drawx skGen;
      ag ← calcx (verify_proof E proof logM weight ag);
      match ag with
      | None => mret None
      | Some ag => verify_loop E proofs ag
      end
  end.

(** [multiexp_data.emplace_back(-z4[i], Gi_p3[i])], then the same for [z5], [Hi_p3] *)
Fixpoint minus_data (z4 z5 : keyV) (Gs Hs : list ge_p3) : option (list MultiexpData) :=
  match z4, z5 with
  | a :: z4, b :: z5 =>
      match Gs, Hs with
      | g :: Gs, h :: Hs =>
          ma ← sc_sub zero a;
          mb ← sc_sub zero b;
          rest ← minus_data z4 z5 Gs Hs;
          Some ({| md_scalar := ma; md_point := g |} :: {| md_scalar := mb; md_point := h |} :: rest)
      | _, _ => None
      end
  | _, _ => Some []
  end.

(** The points of the two equations.  [check2] is read when it is not written: undefined *)
Definition verify_step1 (ag : aggregate) : outcome ge_p3 :=
  check1 ← run (ge_scalarmult_base (ag_y0 ag));
  check1 ← addKeys_acc_p3 check1 (ag_y1 ag) rct_H;
  check1 ← sub_acc_p3 check1 (ag_Y2 ag);
  check1 ← sub_acc_p3 check1 (ag_Y3 ag);
  sub_acc_p3 check1 (ag_Y4 ag).

Definition verify_step2 (E : exponents) (ag : aggregate) : outcome ge_p3 :=
  tmp ← run (sc_sub zero (ag_z1 ag));
  check2 ← run (ge_double_scalarmult_base_vartime_p3 (ag_z3 ag) ge_p3_H tmp);
  check2 ← run check2;
  check2 ← add_acc_p3 check2 (ag_Z0 ag);
  check2 ← add_acc_p3 check2 (ag_Z2 ag);
  multiexp_data ← run (minus_data (ag_z4 ag) (ag_z5 ag) (ex_Gi_p3 E) (ex_Hi_p3 E));
  acc ← bp_multiexp E multiexp_data true;
  add_acc_p3 check2 acc.

(** [bulletproof_VERIFY] *)
Definition bulletproof_VERIFY (proofs : list Bulletproof) : genx G bool :=
  E ← calcx init_exponents;
  max_length ← calcx (run (sane_loop proofs 0));
  match max_length with None => mret false | Some max_length =>
  if negb (max_length <? 32)%nat then mret false else
  ag ← verify_loop E proofs (aggregate_0 (2 ^ max_length));
  match ag with None => mret false | Some ag =>
  check1 ← calcx (verify_step1 ag);
  if ge_p3_is_point_at_infinity check1 =? 0 then mret false else
  check2 ← calcx (verify_step2 E ag);
  mret (negb (ge_p3_is_point_at_infinity check2 =? 0))
  end end.

(** The overloads for one proof *)
Definition bulletproof_VERIFY_one (proof : Bulletproof) : genx G bool := bulletproof_VERIFY [proof].
End bulletproofs.
