(* ===== verification/VectorSpec.v ===== *)
(** * Vectors of scalars and of points

    The operations of [bulletproofs.cc] on vectors, on vectors given by a
    function of the index: [svec n f] holds the scalars [f 0], ..,
    [f (n - 1)], [pvec n g] the points whose logarithms are [g 0], ..,
    [g (n - 1)]. *)

From Stdlib Require Import Zmod.Zmod Field.
From S2P Require Export Bulletproofs ScalarField PippengerSpec.

#[local] Open Scope Zmod_scope.

Add Field FL_field' : FL_field_theory.

(** ** Finite sums and powers *)

Fixpoint fsum (n : nat) (f : nat → FL) : FL :=
  match n with O => 0 | S n' => f O + fsum n' (λ i, f (S i)) end.

Lemma fsum_ext n f g : (∀ i, (i < n)%nat → f i = g i) → fsum n f = fsum n g.
Proof.
  revert f g. induction n as [|n IH]; intros f g E; [done|]. cbn [fsum].
  rewrite (E 0%nat) by lia. f_equal. apply IH. intros i Hi. apply E. lia.
Qed.

Lemma fsum_add n f g : fsum n f + fsum n g = fsum n (λ i, f i + g i).
Proof.
  revert f g. induction n as [|n IH]; intros f g; cbn [fsum]; [ring|]. rewrite <- IH. ring.
Qed.

Lemma fsum_sub n f g : fsum n f - fsum n g = fsum n (λ i, f i - g i).
Proof.
  revert f g. induction n as [|n IH]; intros f g; cbn [fsum]; [ring|]. rewrite <- IH. ring.
Qed.

Lemma fsum_mul n c f : c * fsum n f = fsum n (λ i, c * f i).
Proof.
  revert f. induction n as [|n IH]; intros f; cbn [fsum]; [ring|]. rewrite <- IH. ring.
Qed.

Lemma fsum_split n m f : fsum (n + m) f = fsum n f + fsum m (λ i, f (n + i)%nat).
Proof.
  revert f. induction n as [|n IH]; intros f.
  - cbn [fsum Nat.add]. change (λ i, f i) with f. ring.
  - cbn [fsum Nat.add]. rewrite IH. ring.
Qed.

Lemma fsum_zero n f : (∀ i, (i < n)%nat → f i = 0) → fsum n f = 0.
Proof.
  intros E. rewrite (fsum_ext _ _ (λ _, 0)) by exact E. clear E. induction n as [|n IH]; [done|].
  cbn [fsum]. rewrite IH. ring.
Qed.

Lemma fsum_last n f : fsum (S n) f = fsum n f + f n.
Proof.
  replace (S n) with (n + 1)%nat by lia. rewrite fsum_split. cbn [fsum].
  replace (n + 0)%nat with n by lia. ring.
Qed.

(** [M] blocks of [N] entries *)
Lemma fsum_blocks M N f : fsum (M * N) f = fsum M (λ j, fsum N (λ i, f (j * N + i)%nat)).
Proof.
  revert f. induction M as [|M IH]; intros f; [done|]. cbn [fsum Nat.mul].
  rewrite fsum_split, IH. f_equal. apply fsum_ext. intros j _. apply fsum_ext. intros i _.
  f_equal. lia.
Qed.

Fixpoint fpow (x : FL) (n : nat) : FL := match n with O => 1 | S n' => x * fpow x n' end.

Lemma fpow_add x n m : fpow x (n + m) = fpow x n * fpow x m.
Proof. induction n as [|n IH]; cbn [fpow Nat.add]; [ring|]. rewrite IH. ring. Qed.

Lemma fpow_inv x n : x ≠ 0 → fpow x n * fpow (Zmod.inv x) n = 1.
Proof.
  intros Hx. induction n as [|n IH]; cbn [fpow]; [ring|].
  transitivity (x * Zmod.inv x * (fpow x n * fpow (Zmod.inv x) n)); [ring|].
  rewrite IH. rewrite Zmod.mul_inv_same_r_prime; [ring|exact prime_L|exact Hx].
Qed.

(** ** Vectors *)

Definition vec {A} (n : nat) (f : nat → A) : list A := map f (seq 0 n).

Lemma vec_S {A} n (f : nat → A) : vec (S n) f = f O :: vec n (λ i, f (S i)).
Proof. unfold vec. cbn [seq map]. f_equal. rewrite <- seq_shift, map_map. done. Qed.

Lemma length_vec {A} n (f : nat → A) : length (vec n f) = n.
Proof. unfold vec. by rewrite length_map, length_seq. Qed.

Lemma vec_ext {A} n (f g : nat → A) : (∀ i, (i < n)%nat → f i = g i) → vec n f = vec n g.
Proof.
  intros E. apply map_ext_in. intros i Hi. apply in_seq in Hi. apply E. lia.
Qed.

Lemma vec_lookup {A} n (f : nat → A) i : (i < n)%nat → vec n f !! i = Some (f i).
Proof.
  intros Hi. unfold vec. change (map f) with (fmap (M := list) f).
  rewrite list_lookup_fmap, lookup_seq_lt by lia. done.
Qed.

Lemma vec_lookup_total `{Inhabited A} n (f : nat → A) i : (i < n)%nat → vec n f !!! i = f i.
Proof. intros Hi. by apply list_lookup_total_correct, vec_lookup. Qed.

Lemma vec_app {A} n m (f : nat → A) : vec (n + m) f = vec n f ++ vec m (λ i, f (n + i)%nat).
Proof.
  revert f. induction n as [|n IH]; intros f; [done|]. cbn [Nat.add]. rewrite !vec_S, IH. done.
Qed.

Lemma take_vec {A} n m (f : nat → A) : take n (vec (n + m) f) = vec n f.
Proof. rewrite vec_app, take_app_le, take_ge; rewrite ?length_vec; done. Qed.

Lemma drop_vec {A} n m (f : nat → A) : drop n (vec (n + m) f) = vec m (λ i, f (n + i)%nat).
Proof. rewrite vec_app, drop_app_length'; [done|]. by rewrite length_vec. Qed.

Lemma list_vec `{Inhabited A} (l : list A) : l = vec (length l) (λ i, l !!! i).
Proof.
  apply list_eq. intros i. destruct (decide (i < length l)%nat) as [Hi|Hi].
  - rewrite vec_lookup by exact Hi. by apply list_lookup_lookup_total_lt.
  - rewrite !lookup_ge_None_2; [done|rewrite length_vec; lia|lia].
Qed.

Definition svec (n : nat) (f : nat → FL) : keyV := vec n (λ i, fkey (f i)).
Definition pvec (n : nat) (g : nat → FL) : keyV := vec n (λ i, pkey (g i)).

Lemma svec_S n f : svec (S n) f = fkey (f O) :: svec n (λ i, f (S i)).
Proof. apply vec_S. Qed.
Lemma pvec_S n f : pvec (S n) f = pkey (f O) :: pvec n (λ i, f (S i)).
Proof. apply vec_S. Qed.

Lemma svec_ext n f g : (∀ i, (i < n)%nat → f i = g i) → svec n f = svec n g.
Proof. intros E. apply vec_ext. intros i Hi. by rewrite E. Qed.

Lemma svec_lookup n f i : (i < n)%nat → svec n f !! i = Some (fkey (f i)).
Proof. intros Hi. exact (vec_lookup n (λ i, fkey (f i)) i Hi). Qed.
Lemma svec_lookup_total n f i : (i < n)%nat → svec n f !!! i = fkey (f i).
Proof. intros Hi. exact (vec_lookup_total n (λ i, fkey (f i)) i Hi). Qed.

Lemma scalars_svec (l : keyV) : Forall scalar l → ∃ f, l = svec (length l) f.
Proof.
  intros HF. exists (λ i, of_key (l !!! i)). etransitivity; [apply list_vec|].
  apply vec_ext. intros i Hi. symmetry. apply fkey_of_key.
  exact (proj1 (Forall_lookup_total _ _) HF i Hi).
Qed.

(** ** Operations on vectors *)

Lemma check_eq {A} n m (k : outcome A) : n = m → (_ ← throw_unless (n =? m)%nat; k) = k.
Proof. intros E. by rewrite (throw_unless_true _ (proj2 (Nat.eqb_eq _ _) E)). Qed.

Lemma length_svec n f : length (svec n f) = n.
Proof. apply length_vec. Qed.
Lemma length_pvec n f : length (pvec n f) = n.
Proof. apply length_vec. Qed.

Lemma inner_product_loop_f n f g acc :
  inner_product_loop (svec n f) (svec n g) (fkey acc) = Some (fkey (acc + fsum n (λ i, f i * g i))).
Proof.
  revert f g acc. induction n as [|n IH]; intros f g acc.
  - cbn [fsum]. apply (f_equal (λ x, Some (fkey x))). ring.
  - rewrite !svec_S. cbn [inner_product_loop fsum]. rewrite sc_muladd_f. cbn [mbind option_bind].
    rewrite IH. apply (f_equal (λ x, Some (fkey x))). ring.
Qed.

Lemma inner_product_f n f g : inner_product (svec n f) (svec n g) = Ret (fkey (fsum n (λ i, f i * g i))).
Proof.
  unfold inner_product. rewrite check_eq by (by rewrite !length_svec). rewrite zero_fkey, inner_product_loop_f.
  apply (f_equal (λ x, Ret (fkey x))). ring.
Qed.

Lemma zip_keys_f op (F : FL → FL → FL) n f g :
  (∀ a b, op (fkey a) (fkey b) = Ret (fkey (F a b))) →
  zip_keys op (svec n f) (svec n g) = Ret (svec n (λ i, F (f i) (g i))).
Proof.
  intros E. revert f g. induction n as [|n IH]; intros f g; [done|].
  rewrite !svec_S. cbn [zip_keys]. step_ret (E (f 0%nat) (g 0%nat)). by rewrite IH.
Qed.

Lemma zip_keys_p op (F : FL → FL → FL) n f g :
  (∀ a b, op (pkey a) (pkey b) = Ret (pkey (F a b))) →
  zip_keys op (pvec n f) (pvec n g) = Ret (pvec n (λ i, F (f i) (g i))).
Proof.
  intros E. revert f g. induction n as [|n IH]; intros f g; [done|].
  rewrite !pvec_S. cbn [zip_keys]. step_ret (E (f 0%nat) (g 0%nat)). by rewrite IH.
Qed.

Lemma hadamard_f n f g : hadamard (svec n f) (svec n g) = Ret (svec n (λ i, f i * g i)).
Proof.
  unfold hadamard. rewrite check_eq by (by rewrite !length_svec).
  apply zip_keys_f. intros a b. by rewrite sc_mul_f.
Qed.

Lemma vector_add_f n f g : vector_add (svec n f) (svec n g) = Ret (svec n (λ i, f i + g i)).
Proof.
  unfold vector_add. rewrite check_eq by (by rewrite !length_svec).
  apply zip_keys_f. intros a b. by rewrite sc_add_f.
Qed.

Lemma vector_subtract_f n f g : vector_subtract (svec n f) (svec n g) = Ret (svec n (λ i, f i - g i)).
Proof.
  unfold vector_subtract. rewrite check_eq by (by rewrite !length_svec).
  apply zip_keys_f. intros a b. by rewrite sc_sub_f.
Qed.

Lemma hadamard2_f n f g : hadamard2 (pvec n f) (pvec n g) = Ret (pvec n (λ i, f i + g i)).
Proof.
  unfold hadamard2. rewrite check_eq by (by rewrite !length_pvec).
  apply zip_keys_p. exact addKeys_p.
Qed.

Lemma mapM_svec op (F : FL → FL) n f :
  (∀ a, op (fkey a) = Some (fkey (F a))) → mapM op (svec n f) = Some (svec n (λ i, F (f i))).
Proof.
  intros E. revert f. induction n as [|n IH]; intros f; [done|].
  rewrite !svec_S. cbn [mapM]. rewrite E. cbn [mbind option_bind]. by rewrite IH.
Qed.

Lemma vector_scalar_f n f x : vector_scalar (svec n f) (fkey x) = Ret (svec n (λ i, f i * x)).
Proof.
  unfold vector_scalar. rewrite (mapM_svec _ (λ a, a * x)); [done|]. intros a. apply sc_mul_f.
Qed.

Lemma vector_dup_f n x : vector_dup (fkey x) n = svec n (λ _, x).
Proof. induction n as [|n IH]; [done|]. rewrite svec_S, <- IH. done. Qed.

Lemma vector_scalar2_f n g x : vector_scalar2 (pvec n g) (fkey x) = Ret (pvec n (λ i, x * g i)).
Proof.
  revert g. induction n as [|n IH]; intros g; [done|].
  rewrite !pvec_S. cbn [vector_scalar2]. step_ret (scalarmultKey_p x (g 0%nat)). by rewrite IH.
Qed.

Lemma powers_loop_f n x p :
  powers_loop n (fkey x) (fkey p) = Some (svec n (λ i, fpow x (S i) * p)).
Proof.
  revert p. induction n as [|n IH]; intros p; [done|].
  cbn [powers_loop]. rewrite sc_mul_f. cbn [mbind option_bind]. rewrite IH. cbn [mbind option_bind].
  rewrite svec_S. apply (f_equal Some). f_equal; [cbn [fpow]; f_equal; ring|].
  apply svec_ext. intros i _. cbn [fpow]. ring.
Qed.

Lemma vector_powers_f x n : vector_powers (fkey x) n = Some (svec n (fpow x)).
Proof.
  destruct n as [|[|n]]; [done..|]. cbn [vector_powers]. rewrite powers_loop_f. cbn [mbind option_bind].
  rewrite !svec_S. apply (f_equal Some). f_equal. f_equal; [cbn [fpow]; f_equal; ring|].
  apply svec_ext. intros i _. cbn [fpow]. ring.
Qed.

Lemma power_sum_loop_f n i x acc :
  (0 < i)%nat →
  power_sum_loop n i (fkey x) (fkey (fpow x (max 1 (i - 1)))) (fkey acc) =
    Some (fkey (acc + fsum n (λ j, fpow x (i + j)))).
Proof.
  revert i acc. induction n as [|n IH]; intros i acc Hi.
  { cbn [fsum power_sum_loop]. apply (f_equal (λ x, Some (fkey x))). ring. }
  cbn [power_sum_loop fsum].
  assert ((if (1 <? i)%nat then sc_mul (fkey (fpow x (max 1 (i - 1)))) (fkey x)
           else Some (fkey (fpow x (max 1 (i - 1))))) = Some (fkey (fpow x (max 1 (S i - 1))))) as ->.
  { destruct (Nat.ltb_spec 1 i) as [Hi1|Hi1].
    - rewrite sc_mul_f. apply (f_equal (λ x, Some (fkey x))).
      replace (max 1 (S i - 1)) with (S (max 1 (i - 1))) by lia. cbn [fpow]. ring.
    - assert (i = 1%nat) as -> by lia. done. }
  cbn [mbind option_bind]. rewrite sc_add_f. cbn [mbind option_bind]. rewrite IH by lia.
  apply (f_equal (λ x, Some (fkey x))).
  rewrite (fsum_ext n (λ j, fpow x (S i + j)) (λ j, fpow x (i + S j))) by (intros j _; f_equal; lia).
  replace (max 1 (S i - 1)) with (i + 0)%nat by lia. ring.
Qed.

Lemma vector_power_sum_f x n : vector_power_sum (fkey x) n = Some (fkey (fsum n (fpow x))).
Proof.
  destruct n as [|[|n]].
  - done.
  - cbn [vector_power_sum fsum fpow]. apply (f_equal Some). rewrite one_fkey. apply (f_equal fkey). ring.
  - change (vector_power_sum (fkey x) (S (S n))) with (power_sum_loop (S n) 1 (fkey x) (fkey x) rct_identity).
    pose proof (power_sum_loop_f (S n) 1 x 1 ltac:(lia)) as E. cbn [Nat.sub Nat.max fpow] in E.
    replace (x * 1) with x in E by ring. rewrite one_fkey. rewrite E.
    apply (f_equal (λ x, Some (fkey x))). cbn [fsum fpow Nat.add]. ring.
Qed.

Lemma vector_sum_f n f : vector_sum (svec n f) = Some (fkey (fsum n f)).
Proof.
  unfold vector_sum. rewrite zero_fkey.
  assert (∀ acc, vector_sum_loop (svec n f) (fkey acc) = Some (fkey (acc + fsum n f))) as E.
  { revert f. induction n as [|n IH]; intros f acc.
    - cbn [fsum]. apply (f_equal (λ x, Some (fkey x))). ring.
    - rewrite svec_S. cbn [vector_sum_loop fsum]. rewrite sc_add_f. cbn [mbind option_bind].
      rewrite IH. apply (f_equal (λ x, Some (fkey x))). ring. }
  rewrite E. apply (f_equal (λ x, Some (fkey x))). ring.
Qed.

Definition two : FL := 1 + 1.

Lemma twoN_f : twoN = Some (svec 64 (fpow two)).
Proof.
  unfold twoN. replace TWO with (fkey two) by (vm_compute; reflexivity). apply vector_powers_f.
Qed.

Lemma ip12_f : ip12 = Ret (fkey (fsum 64 (fpow two))).
Proof.
  unfold ip12. rewrite twoN_f. cbn [run mbind outcome_bind].
  unfold oneN. rewrite one_fkey, vector_dup_f. change maxN with 64%nat. rewrite inner_product_f.
  apply (f_equal (λ x, Ret (fkey x))). apply fsum_ext. intros i _. ring.
Qed.

Lemma slice_vec {A} (f : nat → A) a b n : (n = a + b)%nat → take b (drop a (vec n f)) = vec b (λ i, f (a + i)%nat).
Proof. intros ->. rewrite drop_vec. by rewrite take_ge by (rewrite length_vec; lia). Qed.

Lemma slice_ok (l : keyV) start stop :
  (start < stop ≤ length l)%nat → slice l start stop = Ret (take (stop - start) (drop start l)).
Proof.
  intros H. unfold slice.
  rewrite (bind_ret _ _ _ (throw_unless_true _ (proj2 (Nat.ltb_lt start (length l)) ltac:(lia)))).
  rewrite (bind_ret _ _ _ (throw_unless_true _ (proj2 (Nat.leb_le stop (length l)) ltac:(lia)))).
  by rewrite (bind_ret _ _ _ (throw_unless_true _ (proj2 (Nat.ltb_lt start stop) ltac:(lia)))).
Qed.

Lemma slice_svec n f : (0 < n)%nat →
  slice (svec (n + n) f) 0 n = Ret (svec n f) ∧
  slice (svec (n + n) f) n (length (svec (n + n) f)) = Ret (svec n (λ i, f (n + i)%nat)).
Proof.
  intros Hn. rewrite !slice_ok by (rewrite !length_svec; lia). rewrite length_svec.
  unfold svec. split; apply (f_equal Ret).
  - rewrite Nat.sub_0_r. cbn [drop]. apply take_vec.
  - replace (n + n - n)%nat with n by lia. by apply slice_vec.
Qed.

Lemma slice_pvec n f : (0 < n)%nat →
  slice (pvec (n + n) f) 0 n = Ret (pvec n f) ∧
  slice (pvec (n + n) f) n (length (pvec (n + n) f)) = Ret (pvec n (λ i, f (n + i)%nat)).
Proof.
  intros Hn. rewrite !slice_ok by (rewrite !length_pvec; lia). rewrite length_pvec.
  unfold pvec. split; apply (f_equal Ret).
  - rewrite Nat.sub_0_r. cbn [drop]. apply take_vec.
  - replace (n + n - n)%nat with n by lia. by apply slice_vec.
Qed.

Lemma is_reduced_ok k : bytes32 k → is_reduced k = Some (key_eqb k (fkey (of_key k))).
Proof.
  intros Hk. unfold is_reduced. rewrite sc_reduce32_scalar by exact Hk. cbn [mbind option_bind].
  unfold of_key. by rewrite <- to_scalar_fkey.
Qed.

Lemma is_reduced_f c : is_reduced (fkey c) = Some true.
Proof.
  rewrite is_reduced_ok by apply scalar_bytes32, fkey_scalar. rewrite of_key_fkey.
  apply (f_equal Some), key_eqb_eq. reflexivity.
Qed.

(** ** The inverse of OpenSSL *)

Lemma bytes_needed i : (0 ≤ i < L)%Z → (BN_num_bytes i ≤ 32)%nat ∧ (i < 256 ^ Z.of_nat (BN_num_bytes i))%Z.
Proof.
  intros Hi. unfold BN_num_bytes. destruct (Z.eqb_spec i 0) as [->|Hne].
  { split; [lia|reflexivity]. }
  pose proof (Z.log2_nonneg i). pose proof (Z.log2_spec i ltac:(lia)) as [_ Hlt].
  pose proof (Z.div_pos (Z.log2 i) 8 ltac:(lia) ltac:(lia)).
  assert (Z.log2 i < 256)%Z by (apply Z.log2_lt_pow2; [lia|]; pose proof L_range; lia).
  pose proof (Z.div_lt_upper_bound (Z.log2 i) 8 32 ltac:(lia) ltac:(lia)).
  split; [lia|]. rewrite Z2Nat.id by lia. change 256%Z with (2 ^ 8)%Z. rewrite <- Z.pow_mul_r by lia.
  eapply Z.lt_le_trans; [exact Hlt|]. apply Z.pow_le_mono_r; [lia|].
  pose proof (Z.div_mod (Z.log2 i) 8 ltac:(lia)). pose proof (Z.mod_pos_bound (Z.log2 i) 8 ltac:(lia)). lia.
Qed.

Lemma padded_number n i :
  (n ≤ 32)%nat → (0 ≤ i < 256 ^ Z.of_nat n)%Z → le_split n i ++ drop n zero = le_split 32 i.
Proof.
  intros Hn Hi.
  assert (drop n zero = replicate (32 - n) 0%Z) as E0 by (unfold zero; apply drop_replicate).
  rewrite E0. set (l := le_split n i ++ replicate (32 - n) 0%Z).
  assert (length l = 32%nat) as HL by (unfold l; rewrite length_app, length_le_split, length_replicate; lia).
  assert (bytes l) as HB.
  { unfold l. apply Forall_app. split; [apply bytes_le_split|]. apply Forall_replicate. lia. }
  rewrite <- (le_split_combine l HB), HL. f_equal. unfold l.
  rewrite le_combine_app, le_combine_replicate_0, le_combine_split, length_le_split.
  rewrite Z.mod_small by exact Hi. lia.
Qed.

Section invert.
Context {BN : BigNum} {BNL : BigNumLaws BN}.

Lemma invert_f c : c ≠ 0 → invert (fkey c) = Ret (fkey (Zmod.inv c)).
Proof.
  intros Hc. unfold invert, BN_bin2bn, switch_endianness. rewrite !reverse_involutive, le_combine_fkey.
  rewrite (proj2 curveOrder_ok). pose proof (to_Z_range_L c) as Hr.
  assert (Zmod.to_Z c ≠ 0%Z) as Hz by (intros E; apply Hc, Zmod.unsigned_inj; exact E).
  destruct (BN_mod_inverse_spec (Zmod.to_Z c) L) as (i & -> & Hi & Ei); [reflexivity|lia| |].
  { rewrite Z.gcd_comm. apply Z.coprime_prime_l; [exact prime_L|].
    intros [k Hk]. assert (0 < k)%Z by nia. assert (k < 1)%Z by nia. lia. }
  destruct (bytes_needed i Hi) as [Hn Hp].
  rewrite (bind_ret _ _ _ (throw_unless_true _ (proj2 (Nat.leb_le _ _) Hn))). cbv beta zeta.
  apply (f_equal Ret). unfold BN_bn2bin.
  assert (length (reverse (le_split (BN_num_bytes i) i)) = BN_num_bytes i) as HL
    by (by rewrite length_reverse, length_le_split).
  rewrite take_app_length', drop_app_length', reverse_involutive by (by rewrite HL).
  rewrite padded_number by (try exact Hn; lia).
  transitivity (to_scalar i); [unfold to_scalar; by rewrite Z.mod_small|]. rewrite to_scalar_fkey.
  f_equal. assert (Zmod.of_Z L i * c = 1) as E1.
  { apply Zmod.unsigned_inj. rewrite Zmod.to_Z_mul, Zmod.to_Z_of_Z.
    rewrite Z.mul_mod_idemp_l by discriminate. exact Ei. }
  transitivity (Zmod.of_Z L i * (c * Zmod.inv c)); [|transitivity (Zmod.of_Z L i * c * Zmod.inv c); [ring|]].
  - rewrite Zmod.mul_inv_same_r_prime; [ring|exact prime_L|exact Hc].
  - rewrite E1. ring.
Qed.
End invert.

(** ** Sums of multiples *)

(** Scalars with the logarithms of points *)
Definition log_pair (p : FL * FL) : Z * point := (Zmod.to_Z p.1, fpoint p.2).
Definition log_data (l : list (FL * FL)) (data : list MultiexpData) : Prop := data_is (log_pair <$> l) data.
Definition log_sum (l : list (FL * FL)) : FL := foldr (λ p acc, p.1 * p.2 + acc) 0 l.

Lemma msum_logs l : msum (log_pair <$> l) = fpoint (log_sum l).
Proof.
  induction l as [|[a c] l IH]; [symmetry; exact fpoint_0|].
  change (ed_add (ed_mul (Zmod.to_Z a) (fpoint c)) (msum (log_pair <$> l)) = fpoint (a * c + log_sum l)).
  by rewrite IH, fpoint_to_Z, fpoint_add.
Qed.

Lemma log_sum_app l k : log_sum (l ++ k) = log_sum l + log_sum k.
Proof.
  induction l as [|[a c] l IH]; [cbn [app]; unfold log_sum at 2; cbn [foldr]; ring|].
  change (a * c + log_sum (l ++ k) = (a * c + log_sum l) + log_sum k). rewrite IH. ring.
Qed.

Lemma log_entry a c p : p3_is (fpoint c) p → pair_is (log_pair (a, c)) {| md_scalar := fkey a; md_point := p |}.
Proof.
  intros Hp. split; [apply scalar_bytes32, fkey_scalar|apply le_combine_fkey|exact Hp].
Qed.

Lemma log_data_nil : log_data [] [].
Proof. constructor. Qed.

Lemma log_data_cons a c p l data :
  p3_is (fpoint c) p → log_data l data → log_data ((a, c) :: l) ({| md_scalar := fkey a; md_point := p |} :: data).
Proof. intros Hp HD. constructor; [by apply log_entry|exact HD]. Qed.

Lemma load_pkey c : ∃ h, load_key (pkey c) = Ret h ∧ p3_is (fpoint c) h.
Proof. apply load_key_ok, fpoint_on_curve. Qed.

(** The entries [(a_0, g_0); (b_0, h_0); (a_1, g_1); ..] *)
Definition gen_pairs (n : nat) (a g b h : nat → FL) : list (FL * FL) :=
  seq 0 n ≫= λ i, [(a i, g i); (b i, h i)].

Lemma pairs_S n a g b h :
  gen_pairs (S n) a g b h =
    (a O, g O) :: (b O, h O) :: gen_pairs n (λ i, a (S i)) (λ i, g (S i)) (λ i, b (S i)) (λ i, h (S i)).
Proof.
  unfold gen_pairs. cbn [seq]. cbn [mbind list_bind app]. f_equal. f_equal.
  rewrite <- seq_shift. induction (seq 0 n) as [|i l IH]; [done|]. cbn [map mbind list_bind app] in *.
  by rewrite IH.
Qed.

Lemma length_log_pairs n a g b h : length (gen_pairs n a g b h) = (2 * n)%nat.
Proof.
  revert a g b h. induction n as [|n IH]; intros a g b h; [done|]. rewrite pairs_S. cbn [length].
  rewrite IH. lia.
Qed.

Lemma log_sum_pairs n a g b h :
  log_sum (gen_pairs n a g b h) = fsum n (λ i, a i * g i) + fsum n (λ i, b i * h i).
Proof.
  revert a g b h. induction n as [|n IH]; intros a g b h; [cbn; ring|]. rewrite pairs_S.
  change (a O * g O + (b O * h O + log_sum (gen_pairs n (λ i, a (S i)) (λ i, g (S i)) (λ i, b (S i)) (λ i, h (S i)))) =
    fsum (S n) (λ i, a i * g i) + fsum (S n) (λ i, b i * h i)).
  rewrite IH. cbn [fsum]. ring.
Qed.

Lemma exponent_data_custom_f n g h a b :
  ∃ data, exponent_data_custom (pvec n g) (pvec n h) (svec n a) (svec n b) = Ret data ∧
    log_data (gen_pairs n a g b h) data.
Proof.
  revert g h a b. induction n as [|n IH]; intros g h a b; [exists []; split; [done|constructor]|].
  destruct (load_pkey (g O)) as (p & Ep & Hp). destruct (load_pkey (h O)) as (q & Eq & Hq).
  destruct (IH (λ i, g (S i)) (λ i, h (S i)) (λ i, a (S i)) (λ i, b (S i))) as (data & E & HD).
  rewrite !pvec_S, !svec_S. cbn [exponent_data_custom]. step_ret Ep. step_ret Eq. step_ret E.
  eexists. split; [done|]. rewrite pairs_S. by repeat apply log_data_cons.
Qed.

Lemma multiexp_plain E l data :
  log_data l data → bp_multiexp E data false = Ret (pkey (log_sum l)).
Proof.
  intros HD. unfold bp_multiexp, pkey. rewrite <- msum_logs. destruct (length data <=? 64)%nat.
  - by apply straus_ok.
  - apply pippenger_ok; [exact HD|done|apply get_pippenger_c_range].
Qed.

(** ** The generators *)

(** The tables hold the points whose logarithms are [g] and [h], and caches of them. *)
Definition table_pairs (g h : nat → FL) (n : nat) : list (Z * point) :=
  log_pair <$> gen_pairs n (λ _, 0) g (λ _, 0) h.

Record exponents_are (g h : nat → FL) (E : exponents) : Prop := {
  ea_Gi : ex_Gi E = pvec 1024 g;
  ea_Hi : ex_Hi E = pvec 1024 h;
  ea_Gi_p3 : length (ex_Gi_p3 E) = 1024%nat ∧ ∀ i p, ex_Gi_p3 E !! i = Some p → p3_is (fpoint (g i)) p;
  ea_Hi_p3 : length (ex_Hi_p3 E) = 1024%nat ∧ ∀ i p, ex_Hi_p3 E !! i = Some p → p3_is (fpoint (h i)) p;
  ea_straus : cache_is (take 128 (table_pairs g h 1024)) (ex_straus E);
  ea_pippenger : cached_are (table_pairs g h 1024) (ex_pippenger E)
}.

Lemma vector_exponent_custom_f E n g h a b :
  (n ≤ 1024)%nat →
  vector_exponent_custom E (pvec n g) (pvec n h) (svec n a) (svec n b) =
    Ret (pkey (fsum n (λ i, a i * g i) + fsum n (λ i, b i * h i))).
Proof.
  intros Hn. unfold vector_exponent_custom.
  rewrite !length_pvec, !length_svec, !check_eq by done.
  rewrite (bind_ret _ _ _ (throw_unless_true (n <=? maxN * maxM)%nat (proj2 (Nat.leb_le _ _) Hn))).
  destruct (exponent_data_custom_f n g h a b) as (data & Ed & HD). step_ret Ed.
  rewrite (multiexp_plain E _ _ HD), log_sum_pairs. done.
Qed.

(** Entry [j] of [gen_pairs]: its point does not depend on the scalars or the length. *)
Lemma pairs_lookup n a g b h j :
  gen_pairs n a g b h !! j =
    if decide (j < 2 * n)%nat then
      Some (if Nat.even j then (a (j / 2)%nat, g (j / 2)%nat) else (b (j / 2)%nat, h (j / 2)%nat))
    else None.
Proof.
  revert j a g b h. induction n as [|n IH]; intros j a g b h; [done|]. rewrite pairs_S.
  destruct j as [|[|j]]; [by rewrite decide_True by lia..|]. cbn [lookup list_lookup]. rewrite IH.
  assert ((S (S j) / 2)%nat = S (j / 2)) as Ej.
  { replace (S (S j)) with (j + 1 * 2)%nat by lia. rewrite Nat.div_add by lia. lia. }
  rewrite Ej. destruct (decide (j < 2 * n)%nat), (decide (S (S j) < 2 * S n)%nat); try lia; [|done].
  done.
Qed.

Lemma table_prefix n m a b g h j d :
  (n ≤ m)%nat → (log_pair <$> gen_pairs n a g b h) !! j = Some d →
  ∃ d', table_pairs g h m !! j = Some d' ∧ d'.2 = d.2 ∧ (j < 2 * n)%nat.
Proof.
  intros Hnm. unfold table_pairs. rewrite !list_lookup_fmap, !pairs_lookup.
  destruct (decide (j < 2 * n)%nat) as [Hj|]; [|done]. rewrite decide_True by lia. cbn [fmap option_fmap option_map].
  intros [= <-]. eexists. split; [done|]. split; [by destruct (Nat.even j)|exact Hj].
Qed.

Section tables.
Context (g h : nat → FL) (E : exponents) (HE : exponents_are g h E).

Lemma multiexp_tables n a b data :
  (n ≤ 1024)%nat → log_data (gen_pairs n a g b h) data →
  bp_multiexp E data true = Ret (pkey (log_sum (gen_pairs n a g b h))).
Proof.
  intros Hn HD. unfold bp_multiexp, pkey. rewrite <- msum_logs.
  assert (length data = 2 * n)%nat as HL.
  { pose proof (Forall2_length HD) as H. rewrite length_fmap, length_log_pairs in H. lia. }
  destruct (Nat.leb_spec (length data) 128) as [Hle|Hgt].
  - apply straus_ok; [exact HD|]. intros c [= <-]. destruct (ea_straus g h E HE) as [Hs Hr]. split.
    + rewrite length_fmap, length_log_pairs. rewrite length_take in Hs. unfold table_pairs in Hs.
      rewrite length_fmap, length_log_pairs in Hs. lia.
    + intros j d Hd. destruct (table_prefix n 1024 a b g h j d Hn Hd) as (d' & Ed' & <- & Hj).
      apply (Hr j d'). rewrite lookup_take_lt by lia. exact Ed'.
  - apply pippenger_ok; [exact HD| |apply get_pippenger_c_range]. intros ch [= <-].
    destruct (ea_pippenger g h E HE) as [Hs Hr]. split.
    + unfold table_pairs in Hs. rewrite length_fmap, length_log_pairs in *. lia.
    + intros j d Hd. destruct (table_prefix n 1024 a b g h j d Hn Hd) as (d' & Ed' & <- & Hj). by apply Hr.
Qed.

Lemma exponent_data_f n a b :
  (n ≤ 1024)%nat →
  ∃ data, exponent_data (svec n a) (svec n b) (ex_Gi_p3 E) (ex_Hi_p3 E) = Some data ∧
    log_data (gen_pairs n a g b h) data.
Proof.
  destruct (ea_Gi_p3 g h E HE) as [HG HGi]. destruct (ea_Hi_p3 g h E HE) as [HH HHi].
  rewrite <- HG. assert (length (ex_Gi_p3 E) = length (ex_Hi_p3 E)) as HL by congruence.
  revert a b HL HGi HHi. clear HE HG HH. generalize (ex_Gi_p3 E) (ex_Hi_p3 E). clear E.
  revert g h. induction n as [|n IH]; intros g' h' Gs Hs a b HL HGi HHi Hn.
  { exists []. split; [done|constructor]. }
  destruct Gs as [|p Gs]; [cbn in Hn; lia|]. destruct Hs as [|q Hs]; [cbn in HL; lia|].
  destruct (IH (λ i, g' (S i)) (λ i, h' (S i)) Gs Hs (λ i, a (S i)) (λ i, b (S i))) as (data & Ed & HD).
  { cbn in HL. lia. }
  { intros i r Hr. exact (HGi (S i) r Hr). }
  { intros i r Hr. exact (HHi (S i) r Hr). }
  { cbn in Hn. lia. }
  rewrite !svec_S. cbn [exponent_data]. rewrite Ed. cbn [mbind option_bind].
  eexists. split; [done|]. rewrite pairs_S.
  apply log_data_cons; [exact (HGi O p eq_refl)|]. apply log_data_cons; [exact (HHi O q eq_refl)|exact HD].
Qed.

Lemma vector_exponent_f n a b :
  (n ≤ 1024)%nat →
  vector_exponent E (svec n a) (svec n b) =
    Ret (pkey (fsum n (λ i, a i * g i) + fsum n (λ i, b i * h i))).
Proof.
  intros Hn. unfold vector_exponent. rewrite !length_svec, check_eq by done.
  rewrite (bind_ret _ _ _ (throw_unless_true (n <=? maxN * maxM)%nat (proj2 (Nat.leb_le _ _) Hn))).
  destruct (exponent_data_f n a b Hn) as (data & Ed & HD). step_run Ed.
  rewrite (multiexp_tables n a b data Hn HD), log_sum_pairs. done.
Qed.

(** The entries of [minus_data]: the scalars negated *)
Lemma minus_data_eq n a b Gs Hs :
  minus_data (svec n a) (svec n b) Gs Hs = exponent_data (svec n (λ i, - a i)) (svec n (λ i, - b i)) Gs Hs.
Proof.
  revert a b Gs Hs. induction n as [|n IH]; intros a b Gs Hs; [done|]. rewrite !svec_S.
  cbn [minus_data exponent_data]. destruct Gs as [|p Gs]; [done|]. destruct Hs as [|q Hs]; [done|].
  rewrite zero_fkey, !sc_sub_f. cbn [mbind option_bind]. rewrite IH.
  replace (0 - a O) with (- a O) by ring. by replace (0 - b O) with (- b O) by ring.
Qed.
End tables.

Section generators.
Context {F : FastHash} {FL' : FastHashLaws F} {RH : RctHash} {RHL : RctHashLaws F RH}.

Lemma get_exponent_ok base idx :
  get_exponent base idx = Throw ∨ ∃ c, get_exponent base idx = Ret (pkey c) ∧ c ≠ 0.
Proof.
  unfold get_exponent.
  destruct (fast_hash_total (base ++ salt ++ get_varint_data (Z.of_nat idx))) as (d & Ed & _).
  step_run Ed. destruct (hash_to_ec_ok d) as (P & HP & HT). step_run (hashToPoint_ok d P HP).
  destruct (l_torsion_fpoint P HT) as [c ->]. fold (pkey c). rewrite identity_pkey.
  destruct (decide (c = 0)) as [->|Hc].
  - left. by rewrite (proj2 (key_eqb_eq _ _) eq_refl).
  - right. exists c. split; [|exact Hc].
    destruct (key_eqb (pkey c) (pkey 0)) eqn:E; [|done].
    apply key_eqb_eq, pkey_inj in E. done.
Qed.

Lemma exponents_loop_ok n i :
  exponents_loop n i = Throw ∨
  ∃ g h l, exponents_loop n i = Ret l ∧ length l = n ∧ map en_G l = pvec n g ∧ map en_H l = pvec n h ∧
    (∀ j e, l !! j = Some e → p3_is (fpoint (g j)) (en_G_p3 e) ∧ p3_is (fpoint (h j)) (en_H_p3 e)) ∧
    log_data (gen_pairs n (λ _, 0) g (λ _, 0) h) (l ≫= en_data).
Proof.
  revert i. induction n as [|n IH]; intros i.
  { right. exists (λ _, 0), (λ _, 0), []. split_and!; [done..|constructor]. }
  cbn [exponents_loop].
  destruct (get_exponent_ok rct_H (i * 2)) as [->|(ch & Eh & _)]; [by left|]. step_ret Eh.
  destruct (load_pkey ch) as (ph & Eph & Hph). step_ret Eph.
  destruct (get_exponent_ok rct_H (i * 2 + 1)) as [->|(cg & Eg & _)]; [by left|]. step_ret Eg.
  destruct (load_pkey cg) as (pg & Epg & Hpg). step_ret Epg.
  unfold MultiexpData_of_keys. rewrite Epg, Eph. rewrite !(bind_ret _ _ _ (eq_refl (Ret _))).
  destruct (IH (S i)) as [->|(g & h & l & El & HL & HG & HH & HP & HD)]; [by left|]. right. step_ret El.
  exists (λ j, match j with O => cg | S j => g j end), (λ j, match j with O => ch | S j => h j end).
  eexists. split; [done|]. split_and!.
  - cbn [length]. lia.
  - cbn [map]. rewrite pvec_S, HG. done.
  - cbn [map]. rewrite pvec_S, HH. done.
  - intros [|j] e He; [injection He as <-; done|]. exact (HP j e He).
  - rewrite pairs_S. cbn [mbind list_bind en_data app]. rewrite zero_fkey.
    apply log_data_cons; [exact Hpg|]. apply log_data_cons; [exact Hph|exact HD].
Qed.

(** The tables are computed, unless a generator is the neutral element. *)
Lemma init_exponents_ok :
  init_exponents = Throw ∨ ∃ E g h, init_exponents = Ret E ∧ exponents_are g h E.
Proof.
  unfold init_exponents. change (maxN * maxM)%nat with 1024%nat.
  destruct (exponents_loop_ok 1024 0) as [->|(g & h & l & El & HL & HG & HH & HP & HD)]; [by left|].
  right. step_ret El. cbv zeta.
  assert (length (l ≫= en_data) = 2048%nat) as HLd.
  { pose proof (Forall2_length HD) as H. rewrite length_fmap, length_log_pairs in H. lia. }
  destruct (straus_init_cache_ok _ _ STRAUS_SIZE_LIMIT HD) as (sc & Es & _ & Hsc);
    [rewrite HLd; unfold STRAUS_SIZE_LIMIT; lia|]. step_ret Es.
  destruct (pippenger_init_cache_ok _ _ PIPPENGER_SIZE_LIMIT HD) as (pc & Ep & _ & Hpc);
    [unfold PIPPENGER_SIZE_LIMIT; lia|]. step_ret Ep.
  eexists _, g, h. split; [done|]. split; cbn [ex_Gi ex_Hi ex_Gi_p3 ex_Hi_p3 ex_straus ex_pippenger].
  - exact HG.
  - exact HH.
  - split; [by rewrite length_map|]. intros i p Hp. change (map en_G_p3 l) with (en_G_p3 <$> l) in Hp.
    apply list_lookup_fmap_Some in Hp as (e & -> & He). exact (proj1 (HP i e He)).
  - split; [by rewrite length_map|]. intros i p Hp. change (map en_H_p3 l) with (en_H_p3 <$> l) in Hp.
    apply list_lookup_fmap_Some in Hp as (e & -> & He). exact (proj2 (HP i e He)).
  - exact Hsc.
  - change (if (PIPPENGER_SIZE_LIMIT =? 0)%nat then length (l ≫= en_data) else PIPPENGER_SIZE_LIMIT)
      with (length (l ≫= en_data)) in Hpc.
    rewrite HLd in Hpc. rewrite take_ge in Hpc; [exact Hpc|]. rewrite length_fmap, length_log_pairs. lia.
Qed.
End generators.
