(* ===== verification/InnerProductSpec.v ===== *)
(** * The inner product argument

    The rounds of the provers of [bulletproofs.cc] halve the vectors; each round
    keeps, up to the two points it publishes, the commitment to the vectors and
    to their inner product.  The verifier recovers the same challenges from the
    published points, and the coefficients of the generators that remain. *)

From Stdlib Require Import Zmod.Zmod Field.
From S2P Require Export VectorSpec.

#[local] Open Scope Zmod_scope.

Add Field FL_field'' : FL_field_theory.

(** ** The coefficients of the generators *)

(** Entry [i]: the product of one component of each pair, the second where the
    bit of [i] is set, the first pair belonging to the highest bit. *)
Fixpoint coef (l : list (FL * FL)) (i : nat) : FL :=
  match l with
  | [] => 1
  | (lo, hi) :: l' =>
      let m := (2 ^ length l')%nat in
      if (i <? m)%nat then lo * coef l' i else hi * coef l' (i - m)
  end.

Definition g_pairs (ws : list FL) : list (FL * FL) := (λ w, (Zmod.inv w, w)) <$> ws.
Definition h_pairs (ws : list FL) : list (FL * FL) := (λ w, (w, Zmod.inv w)) <$> ws.

Lemma coef_fold l lo hi f m :
  m = (2 ^ length l)%nat →
  fsum (m + m) (λ i, coef ((lo, hi) :: l) i * f i) =
    fsum m (λ i, coef l i * (lo * f i + hi * f (m + i)%nat)).
Proof.
  intros Hm. rewrite fsum_split, fsum_add. apply fsum_ext. intros i Hi. cbn [coef]. rewrite <- Hm.
  rewrite (proj2 (Nat.ltb_lt i m) Hi). rewrite (proj2 (Nat.ltb_ge (m + i) m)) by lia.
  replace (m + i - m)%nat with i by lia. ring.
Qed.

(** ** One round *)

Lemma fold_product m (w v : FL) (f g : nat → FL) :
  w * v = 1 →
  fsum m (λ i, (f i * w + f (m + i)%nat * v) * (v * g i + w * g (m + i)%nat)) =
    fsum (m + m) (λ i, f i * g i) +
    (w * w * fsum m (λ i, f i * g (m + i)%nat) + v * v * fsum m (λ i, f (m + i)%nat * g i)).
Proof.
  intros Hw. rewrite fsum_split, !fsum_mul. repeat rewrite fsum_add. apply fsum_ext. intros i _.
  ring [Hw].
Qed.

Lemma fold_identity m (w v : FL) (a b g h : nat → FL) (k : FL) :
  w * v = 1 →
  let a' i := a i * w + a (m + i)%nat * v in
  let b' i := b i * v + b (m + i)%nat * w in
  let g' i := v * g i + w * g (m + i)%nat in
  let h' i := w * h i + v * h (m + i)%nat in
  let l := fsum m (λ i, a i * g (m + i)%nat) + fsum m (λ i, b (m + i)%nat * h i) +
           fsum m (λ i, a i * b (m + i)%nat) * k in
  let r := fsum m (λ i, a (m + i)%nat * g i) + fsum m (λ i, b i * h (m + i)%nat) +
           fsum m (λ i, a (m + i)%nat * b i) * k in
  fsum m (λ i, a' i * g' i) + fsum m (λ i, b' i * h' i) + fsum m (λ i, a' i * b' i) * k =
  fsum (m + m) (λ i, a i * g i) + fsum (m + m) (λ i, b i * h i) + fsum (m + m) (λ i, a i * b i) * k +
    (w * w * l + v * v * r).
Proof.
  intros Hw a' b' g' h' l r. unfold l, r, a', b', g', h'.
  rewrite (fold_product m w v a g Hw).
  rewrite (fold_product m v w b h) by (rewrite <- Hw; ring).
  rewrite (fsum_ext m (λ i, (a i * w + a (m + i)%nat * v) * (b i * v + b (m + i)%nat * w))
    (λ i, (a i * w + a (m + i)%nat * v) * (v * b i + w * b (m + i)%nat))) by (intros i _; ring).
  rewrite (fold_product m w v a b Hw). ring.
Qed.

Section rounds.
Context {F : FastHash} {FL' : FastHashLaws F} {RH : RctHash} {RHL : RctHashLaws F RH}.
Context {BN : BigNum} {BNL : BigNumLaws BN}.
Context (eta : FL) (Heta : H25519 = fpoint eta).

Lemma scalarmultH_p a : scalarmultH (fkey a) = Some (pkey (a * eta)).
Proof.
  rewrite scalarmultH_ok by apply fkey_255. by rewrite Heta, le_combine_fkey, fpoint_to_Z.
Qed.

(** A challenge *)
Definition mash (l : keyV) : FL := Zmod.of_Z L (hash_num (mjoin l)).

Lemma hash_cache_mash_f hc l : hash_cache_mash hc l = Some (fkey (mash (hc :: l))).
Proof. unfold hash_cache_mash. rewrite hash_to_scalar_keyV_ok. by rewrite to_scalar_fkey. Qed.

Lemma key_eqb_0 c : key_eqb (fkey c) zero = bool_decide (c = 0).
Proof. rewrite zero_fkey. apply key_eqb_fkey. Qed.

Lemma fold_points_f n f g x y :
  fold_points (pvec n f) (pvec n g) (fkey x) (fkey y) = Ret (pvec n (λ i, x * f i + y * g i)).
Proof.
  unfold fold_points. step_ret (vector_scalar2_f n f x). step_ret (vector_scalar2_f n g y).
  apply hadamard2_f.
Qed.

Lemma fold_scalars_f n f g x y :
  fold_scalars (svec n f) (svec n g) (fkey x) (fkey y) = Ret (svec n (λ i, f i * x + g i * y)).
Proof.
  unfold fold_scalars. step_ret (vector_scalar_f n f x). step_ret (vector_scalar_f n g y).
  apply vector_add_f.
Qed.

Lemma round_key_f E n g h a b c xi :
  (n ≤ 1024)%nat →
  round_key E (pvec n g) (pvec n h) (svec n a) (svec n b) (fkey c) (fkey xi) =
    Ret (pkey (inv8 * (fsum n (λ i, a i * g i) + fsum n (λ i, b i * h i) + c * (xi * eta)))).
Proof.
  intros Hn. unfold round_key. step_ret (vector_exponent_custom_f E n g h a b Hn).
  step_run (sc_mul_f c xi). step_run (scalarmultH_p (c * xi)).
  rewrite addKeys_p. rewrite (bind_ret _ _ _ eq_refl). rewrite INV_EIGHT_f, scalarmultKey_p.
  apply (f_equal (λ x, Ret (pkey x))). ring.
Qed.

(** What the rounds return: the challenges [ws], the logarithms [ls], [rs] of eight times the
    published points, and the last entries [a'], [b'] *)
Definition round_sum (ws ls rs : list FL) : FL :=
  log_sum (zip ((λ w, w * w) <$> ws) ls) + log_sum (zip ((λ w, Zmod.inv w * Zmod.inv w) <$> ws) rs).

Record rounds_ok (hc : key) (m : nat) (g h a b : nat → FL) (k : FL) (Ls Rs : keyV) (a' b' : FL)
    (ws ls rs : list FL) : Prop := {
  ro_L : Ls = (λ l, pkey (inv8 * l)) <$> ls;
  ro_R : Rs = (λ r, pkey (inv8 * r)) <$> rs;
  ro_ls : length ls = length ws;
  ro_rs : length rs = length ws;
  ro_nonzero : Forall (λ w, w ≠ 0) ws;
  ro_challenges : verify_w hc Ls Rs = Some (Some (fkey <$> ws));
  ro_sum :
    fsum m (λ i, a i * g i) + fsum m (λ i, b i * h i) + fsum m (λ i, a i * b i) * k + round_sum ws ls rs =
    a' * fsum m (λ i, coef (g_pairs ws) i * g i) + b' * fsum m (λ i, coef (h_pairs ws) i * h i) +
      a' * b' * k
}.

Lemma rounds_step hc n g h a b k Ls Rs a' b' ws ls rs l r :
  let m := (2 ^ n)%nat in
  let w := mash [hc; pkey (inv8 * l); pkey (inv8 * r)] in
  let v := Zmod.inv w in
  w ≠ 0 → length ws = n →
  l = fsum m (λ i, a i * g (m + i)%nat) + fsum m (λ i, b (m + i)%nat * h i) +
      fsum m (λ i, a i * b (m + i)%nat) * k →
  r = fsum m (λ i, a (m + i)%nat * g i) + fsum m (λ i, b i * h (m + i)%nat) +
      fsum m (λ i, a (m + i)%nat * b i) * k →
  rounds_ok (fkey w) m (λ i, v * g i + w * g (m + i)%nat) (λ i, w * h i + v * h (m + i)%nat)
    (λ i, a i * w + a (m + i)%nat * v) (λ i, b i * v + b (m + i)%nat * w) k Ls Rs a' b' ws ls rs →
  rounds_ok hc (m + m) g h a b k (pkey (inv8 * l) :: Ls) (pkey (inv8 * r) :: Rs) a' b'
    (w :: ws) (l :: ls) (r :: rs).
Proof.
  intros m w v Hw Hn Hl Hr [EL ER Hls Hrs Hnz Hch Hsum]. split.
  - by rewrite EL.
  - by rewrite ER.
  - cbn [length]. by rewrite Hls.
  - cbn [length]. by rewrite Hrs.
  - by constructor.
  - cbn [verify_w]. rewrite hash_cache_mash_f. fold w. cbn [mbind option_bind].
    rewrite key_eqb_0, bool_decide_eq_false_2 by exact Hw. by rewrite Hch.
  - assert (w * v = 1) as Hwv by (apply Zmod.mul_inv_same_r_prime; [exact prime_L|exact Hw]).
    assert (m = (2 ^ length (g_pairs ws))%nat) as Eg by (unfold g_pairs, m; by rewrite length_fmap, Hn).
    assert (m = (2 ^ length (h_pairs ws))%nat) as Eh by (unfold h_pairs, m; by rewrite length_fmap, Hn).
    change (g_pairs (w :: ws)) with ((v, w) :: g_pairs ws).
    change (h_pairs (w :: ws)) with ((w, v) :: h_pairs ws).
    rewrite (coef_fold _ v w g m Eg), (coef_fold _ w v h m Eh).
    rewrite <- Hsum. rewrite (fold_identity m w v a b g h k Hwv), <- Hl, <- Hr.
    unfold round_sum. cbn [fmap list_fmap zip zip_with log_sum foldr fst snd].
    fold (log_sum (zip ((λ w, w * w) <$> ws) ls)). fold (log_sum (zip ((λ w, Zmod.inv w * Zmod.inv w) <$> ws) rs)).
    fold v. ring.
Qed.

Lemma ip_rounds_ok n E xi hc g h a b :
  (2 ^ n ≤ 2048)%nat →
  let m := (2 ^ n)%nat in
  let run := ip_rounds n E (fkey xi) hc m (pvec m g) (pvec m h) (svec m a) (svec m b) in
  run = Ret (zero, None) ∨
  (∃ hc' Ls Rs a' b' ws ls rs,
    run = Ret (hc', Some (Ls, Rs, fkey a', fkey b')) ∧ length ws = n ∧
    rounds_ok hc m g h a b (xi * eta) Ls Rs a' b' ws ls rs).
Proof.
  revert hc g h a b. induction n as [|n IH]; intros hc g h a b Hn m run.
  { right. unfold run, m. exists hc, [], [], (a O), (b O), [], [], []. split; [done|]. split; [done|].
    split; [done..|constructor|done|]. cbn [fsum Nat.pow g_pairs h_pairs fmap list_fmap coef].
    unfold round_sum. cbn [fmap list_fmap zip zip_with log_sum foldr]. ring. }
  assert (m = 2 ^ n + 2 ^ n)%nat as Em by (unfold m; cbn [Nat.pow]; lia).
  assert (0 < 2 ^ n)%nat as Hpos by (pose proof (Nat.pow_nonzero 2 n ltac:(lia)); lia).
  unfold run. rewrite Em. set (p := (2 ^ n)%nat) in *. cbn [ip_rounds].
  rewrite (proj2 (Nat.leb_gt (p + p) 1)) by lia.
  replace ((p + p) / 2)%nat with p by (replace (p + p)%nat with (p * 2)%nat by lia; by rewrite Nat.div_mul).
  cbv zeta. destruct (slice_svec p a Hpos) as [Ea0 Ea1]. destruct (slice_svec p b Hpos) as [Eb0 Eb1].
  destruct (slice_pvec p g Hpos) as [Eg0 Eg1]. destruct (slice_pvec p h Hpos) as [Eh0 Eh1].
  step_ret Ea0. step_ret Ea1. step_ret Eb0. step_ret Eb1.
  step_ret (inner_product_f p a (λ i, b (p + i)%nat)). step_ret (inner_product_f p (λ i, a (p + i)%nat) b).
  step_ret Eg0. step_ret Eg1. step_ret Eh0. step_ret Eh1.
  assert (p ≤ 1024)%nat as Hp by (unfold m in *; cbn [Nat.pow] in Hn; lia).
  rewrite (bind_ret _ _ _ (round_key_f E p (λ i, g (p + i)%nat) h a (λ i, b (p + i)%nat) _ xi Hp)).
  rewrite (bind_ret _ _ _ (round_key_f E p g (λ i, h (p + i)%nat) (λ i, a (p + i)%nat) b _ xi Hp)).
  set (l := fsum p (λ i, a i * g (p + i)%nat) + _ + _). set (r := fsum p (λ i, a (p + i)%nat * g i) + _ + _).
  rewrite (bind_run _ _ _ (hash_cache_mash_f hc [pkey (inv8 * l); pkey (inv8 * r)])).
  set (w := mash _). rewrite key_eqb_0. destruct (decide (w = 0)) as [Hw|Hw].
  { left. rewrite (bool_decide_eq_true_2 _ Hw). by rewrite Hw, zero_fkey. }
  rewrite (bool_decide_eq_false_2 _ Hw). rewrite (bind_ret _ _ _ (invert_f w Hw)).
  rewrite (bind_ret _ _ _ (fold_points_f p g (λ i, g (p + i)%nat) (Zmod.inv w) w)).
  rewrite (bind_ret _ _ _ (fold_points_f p h (λ i, h (p + i)%nat) w (Zmod.inv w))).
  rewrite (bind_ret _ _ _ (fold_scalars_f p a (λ i, a (p + i)%nat) w (Zmod.inv w))).
  rewrite (bind_ret _ _ _ (fold_scalars_f p b (λ i, b (p + i)%nat) (Zmod.inv w) w)).
  destruct (IH (fkey w) (λ i, Zmod.inv w * g i + w * g (p + i)%nat) (λ i, w * h i + Zmod.inv w * h (p + i)%nat)
    (λ i, a i * w + a (p + i)%nat * Zmod.inv w) (λ i, b i * Zmod.inv w + b (p + i)%nat * w) ltac:(lia))
    as [Er|(hc' & Ls & Rs & a' & b' & ws & ls & rs & Er & HL & HR)].
  { left. by rewrite Er. }
  right. exists hc', (pkey (inv8 * l) :: Ls), (pkey (inv8 * r) :: Rs), a', b', (w :: ws), (l :: ls), (r :: rs).
  split; [by rewrite Er|]. split; [cbn [length]; by rewrite HL|].
  exact (rounds_step hc n g h a b (xi * eta) Ls Rs a' b' ws ls rs l r Hw HL eq_refl eq_refl HR).
Qed.
End rounds.
