(* ===== verification/BulletproofsVerify.v ===== *)
(** * The verifier of bulletproofs

    [bulletproof_VERIFY] accumulates, over the proofs of the batch and with a
    random weight for each, the two equations of the scheme.  With the
    logarithms of the points it is a computation in the field of scalars; the
    result is stated on the points. *)

From Stdlib Require Import Zmod.Zmod Field.
From S2P Require Export InnerProductSpec.

#[local] Open Scope Zmod_scope.

Add Field FL_field_v : FL_field_theory.

(** ** The scalars of the generators *)

Lemma land_bit i j : (Nat.land i (Nat.shiftl 1 j) =? 0)%nat = negb (Nat.testbit i j).
Proof.
  rewrite Nat.shiftl_1_l. destruct (Nat.testbit i j) eqn:E; cbn [negb].
  - apply Nat.eqb_neq. intros E0. apply (f_equal (λ y, Nat.testbit y j)) in E0.
    rewrite Nat.land_spec, E, Nat.pow2_bits_true, Nat.bits_0 in E0. done.
  - apply Nat.eqb_eq, Nat.bits_inj. intros k. rewrite Nat.land_spec, Nat.bits_0.
    destruct (decide (j = k)) as [<-|Hne]; [by rewrite E|]. rewrite Nat.pow2_bits_false by done.
    apply andb_false_r.
Qed.

Lemma mod_bit i j :
  (i mod 2 ^ S j = i mod 2 ^ j + if Nat.testbit i j then 2 ^ j else 0)%nat.
Proof.
  pose proof (Nat.pow_nonzero 2 j ltac:(lia)).
  replace (2 ^ S j)%nat with (2 ^ j * 2)%nat by (cbn [Nat.pow]; lia).
  rewrite Nat.Div0.mod_mul_r. rewrite <- Nat.testbit_spec'. destruct (Nat.testbit i j); cbn [Nat.b2n]; lia.
Qed.

Lemma coef_bit lo hi l i :
  coef ((lo, hi) :: l) (i mod 2 ^ S (length l)) =
    (if Nat.testbit i (length l) then hi else lo) * coef l (i mod 2 ^ length l).
Proof.
  cbn [coef]. rewrite mod_bit. pose proof (Nat.pow_nonzero 2 (length l) ltac:(lia)) as Hp.
  pose proof (Nat.mod_upper_bound i (2 ^ length l) Hp). destruct (Nat.testbit i (length l)).
  - rewrite (proj2 (Nat.ltb_ge _ _)) by lia. f_equal. f_equal. lia.
  - rewrite (proj2 (Nat.ltb_lt _ _)) by lia. f_equal. f_equal. lia.
Qed.

Lemma gh_loop_f i ws1 ws2 c d :
  gh_loop (length ws2) i (fkey <$> ws1 ++ ws2) (fkey <$> (Zmod.inv <$> ws1 ++ ws2)) (fkey c) (fkey d) =
    Some (fkey (c * coef (g_pairs ws2) (i mod 2 ^ length ws2)), fkey (d * coef (h_pairs ws2) (i mod 2 ^ length ws2))).
Proof.
  revert ws1 c d. induction ws2 as [|w ws2 IH]; intros ws1 c d.
  { cbn [length gh_loop g_pairs h_pairs fmap list_fmap coef].
    replace (c * 1) with c by ring. by replace (d * 1) with d by ring. }
  cbn [length gh_loop].
  assert ((length (fkey <$> ws1 ++ w :: ws2) - length ws2 - 1)%nat = length ws1) as ->
    by (rewrite length_fmap, length_app; cbn [length]; lia).
  rewrite !list_lookup_fmap, !list_lookup_middle by done. cbn [fmap option_fmap option_map mbind option_bind].
  rewrite land_bit.
  replace (ws1 ++ w :: ws2) with ((ws1 ++ [w]) ++ ws2) by (by rewrite <- app_assoc).
  change (g_pairs (w :: ws2)) with ((Zmod.inv w, w) :: g_pairs ws2).
  change (h_pairs (w :: ws2)) with ((w, Zmod.inv w) :: h_pairs ws2).
  assert (length (g_pairs ws2) = length ws2) as Eg by (unfold g_pairs; apply length_fmap).
  assert (length (h_pairs ws2) = length ws2) as Eh by (unfold h_pairs; apply length_fmap).
  pose proof (coef_bit (Zmod.inv w) w (g_pairs ws2) i) as Cg. rewrite Eg in Cg.
  pose proof (coef_bit w (Zmod.inv w) (h_pairs ws2) i) as Ch. rewrite Eh in Ch. rewrite Cg, Ch.
  destruct (Nat.testbit i (length ws2)); cbn [negb]; rewrite !sc_mul_f; cbn [mbind option_bind]; rewrite IH;
    do 2 f_equal; f_equal; ring.
Qed.

Lemma insert_vec {A} n (f : nat → A) i c :
  (i < n)%nat → <[i := c]> (vec n f) = vec n (λ j, if (j =? i)%nat then c else f j).
Proof.
  intros Hi. apply list_eq. intros j. destruct (decide (j < n)%nat) as [Hj|Hj].
  - rewrite vec_lookup by exact Hj. destruct (Nat.eqb_spec j i) as [->|Hne].
    + apply list_lookup_insert_eq. by rewrite length_vec.
    + rewrite list_lookup_insert_ne by done. by apply vec_lookup.
  - rewrite !lookup_ge_None_2; [done|rewrite length_vec; lia|rewrite length_insert, length_vec; lia].
Qed.

Lemma insert_svec n f i c :
  (i < n)%nat → <[i := fkey c]> (svec n f) = svec n (λ j, if (j =? i)%nat then c else f j).
Proof. intros Hi. unfold svec. rewrite insert_vec by exact Hi. apply vec_ext. intros j _. by destruct (j =? i)%nat. Qed.

(** The scalars of the generators of a proof *)
Definition g_scalar (ws : list FL) (a z : FL) (i : nat) : FL := a * coef (g_pairs ws) i + z.
Definition h_scalar (ws : list FL) (b y z : FL) (i : nat) : FL :=
  b * fpow (Zmod.inv y) i * coef (h_pairs ws) i -
  (z * fpow y i + fpow z (2 + i / 64) * fpow two (i mod 64)) * fpow (Zmod.inv y) i.

(** The entries from [i] to [m] accumulate [f] times the weight. *)
Definition accumulate (i m : nat) (wt : FL) (f acc : nat → FL) : nat → FL :=
  λ j, if ((i <=? j) && (j <? m))%nat then f j * wt + acc j else acc j.

Record env_is (M : nat) (wt a b y z : FL) (ws : list FL) (V : verify_env) : Prop := {
  ei_MN : ve_MN V = (M * 64)%nat;
  ei_weight : ve_weight V = fkey wt;
  ei_a : ve_a V = fkey a;
  ei_b : ve_b V = fkey b;
  ei_y : ve_y V = fkey y;
  ei_yinv : ve_yinv V = fkey (Zmod.inv y);
  ei_z : ve_z V = fkey z;
  ei_w : ve_w V = fkey <$> ws;
  ei_winv : ve_winv V = fkey <$> (Zmod.inv <$> ws);
  ei_zpow : ve_zpow V = svec (M + 3) (fpow z);
  ei_twoN : ve_twoN V = svec 64 (fpow two)
}.

Lemma accumulate_all m wt f acc j : (m ≤ j)%nat → accumulate m m wt f acc j = acc j.
Proof. intros Hj. unfold accumulate. destruct (Nat.leb_spec m j), (Nat.ltb_spec j m); try lia; done. Qed.

Lemma accumulate_step i m wt f acc K :
  (i < m)%nat →
  svec K (accumulate (S i) m wt f (λ j, if (j =? i)%nat then f i * wt + acc i else acc j)) =
  svec K (accumulate i m wt f acc).
Proof.
  intros Hi. apply svec_ext. intros j _. unfold accumulate.
  destruct (Nat.leb_spec (S i) j), (Nat.leb_spec i j), (Nat.ltb_spec j m), (Nat.eqb_spec j i);
    try lia; cbn [andb]; try done; by subst.
Qed.

Lemma verify_scalars_f n i K M wt a b y z ws V z4 z5 :
  env_is M wt a b y z ws V →
  (i + n = M * 64)%nat → (M * 64 ≤ K)%nat → (M * 64 = 2 ^ length ws)%nat →
  verify_scalars n i V (fkey (fpow (Zmod.inv y) i)) (fkey (fpow y i)) (svec K z4) (svec K z5) =
    Some (Some (svec K (accumulate i (M * 64) wt (g_scalar ws a z) z4),
                svec K (accumulate i (M * 64) wt (h_scalar ws b y z) z5))).
Proof.
  intros [EMN Ewt Ea Eb Ey Eyi Ez Ew Ewi Ezp E2] Hi HK HMN. revert i z4 z5 Hi.
  induction n as [|n IH]; intros i z4 z5 Hi.
  { cbn [verify_scalars]. do 3 f_equal; apply svec_ext; intros j _; unfold accumulate;
      destruct (Nat.leb_spec i j), (Nat.ltb_spec j (M * 64)); try lia; done. }
  cbn [verify_scalars]. rewrite Eb. step (sc_mul_f b (fpow (Zmod.inv y) i)).
  rewrite Ew, Ewi, Ea, length_fmap.
  pose proof (gh_loop_f i [] ws a (b * fpow (Zmod.inv y) i)) as Eg. cbn [app] in Eg.
  rewrite (Nat.mod_small i (2 ^ length ws)) in Eg by (rewrite <- HMN; lia). step Eg.
  rewrite Ez. step (sc_add_f (a * coef (g_pairs ws) i) z).
  rewrite Ezp, E2, !length_svec. change bpN with 64%nat.
  assert (i / 64 < M)%nat as Hd by (apply Nat.div_lt_upper_bound; lia).
  pose proof (Nat.mod_upper_bound i 64 ltac:(lia)) as Hm.
  rewrite (proj2 (Nat.ltb_lt (2 + i / 64) (M + 3))) by lia. rewrite (proj2 (Nat.ltb_lt (i mod 64) 64)) by lia.
  cbv iota. change (negb true) with false. cbv iota. rewrite !svec_lookup_total by lia.
  step (sc_mul_f (fpow z (2 + i / 64)) (fpow two (i mod 64))).
  step (sc_muladd_f z (fpow y i) (fpow z (2 + i / 64) * fpow two (i mod 64))).
  step (sc_mulsub_f (z * fpow y i + fpow z (2 + i / 64) * fpow two (i mod 64)) (fpow (Zmod.inv y) i)
    (b * fpow (Zmod.inv y) i * coef (h_pairs ws) i)).
  fold (g_scalar ws a z i). fold (h_scalar ws b y z i).
  step (svec_lookup K z4 i ltac:(lia)). rewrite Ewt. step (sc_muladd_f (g_scalar ws a z i) wt (z4 i)).
  step (svec_lookup K z5 i ltac:(lia)). step (sc_muladd_f (h_scalar ws b y z i) wt (z5 i)).
  rewrite !insert_svec by lia.
  rewrite EMN. destruct n as [|n].
  - assert (S i = M * 64)%nat as Hlast by lia.
    assert (i = M * 64 - 1)%nat as Hi' by lia. rewrite (proj2 (Nat.eqb_eq _ _) Hi').
    rewrite (bind_some _ _ _ eq_refl). cbn [verify_scalars].
    do 3 f_equal; rewrite <- accumulate_step by lia; apply svec_ext; intros j Hj; unfold accumulate;
      destruct (Nat.leb_spec (S i) j), (Nat.ltb_spec j (M * 64)); try lia; done.
  - rewrite (proj2 (Nat.eqb_neq i (M * 64 - 1))) by lia.
    rewrite Eyi, Ey, !sc_mul_f. rewrite !(bind_some _ _ _ eq_refl).
    replace (fpow (Zmod.inv y) i * Zmod.inv y) with (fpow (Zmod.inv y) (S i)) by (cbn [fpow]; ring).
    replace (fpow y i * y) with (fpow y (S i)) by (cbn [fpow]; ring).
    rewrite IH by lia. by rewrite !accumulate_step by lia.
Qed.

(** ** A proof in the field *)

(** What the verifier reads of a proof: the number of values, the logarithms of eight times its
    points, its scalars, and the challenges *)
Record view := {
  q_n : nat; q_logM : nat;
  q_V : nat → FL; q_A : FL; q_S : FL; q_T1 : FL; q_T2 : FL;
  q_taux : FL; q_mu : FL; q_a : FL; q_b : FL; q_t : FL;
  q_ls : list FL; q_rs : list FL;
  q_y : FL; q_z : FL; q_x : FL; q_xi : FL; q_ws : list FL
}.

Definition q_M (q : view) : nat := (2 ^ q_logM q)%nat.
Definition q_MN (q : view) : nat := (q_M q * 64)%nat.

(** [delta (y, z)] *)
Definition delta (q : view) : FL :=
  let ip1y := fsum (q_MN q) (fpow (q_y q)) in
  q_z q * ip1y +
    (- (fpow (q_z q) 2 * ip1y) - fsum (q_M q) (λ j, fpow (q_z q) (j + 3)) * fsum 64 (fpow two)).

Definition V_sum (q : view) : FL := fsum (q_n q) (λ j, fpow (q_z q) (j + 2) * q_V q j).

(** The two equations *)
Definition equation1 (eta : FL) (q : view) : FL :=
  q_taux q + (q_t q - delta q) * eta - V_sum q - q_x q * q_T1 q - q_x q * q_x q * q_T2 q.

Definition z3_of (q : view) : FL := (q_t q - q_a q * q_b q) * q_xi q.

Definition equation2 (eta : FL) (g h : nat → FL) (q : view) : FL :=
  z3_of q * eta - q_mu q + (q_A q + q_x q * q_S q) + round_sum (q_ws q) (q_ls q) (q_rs q) -
  fsum (q_MN q) (λ i, g_scalar (q_ws q) (q_a q) (q_z q) i * g i) -
  fsum (q_MN q) (λ i, h_scalar (q_ws q) (q_b q) (q_y q) (q_z q) i * h i).

Section verifier.
Context {F : FastHash} {FL' : FastHashLaws F} {RH : RctHash} {RHL : RctHashLaws F RH}.
Context {BN : BigNum} {BNL : BigNumLaws BN}.

(** Up to the challenges of the rounds *)
Record pre_view (proof : Bulletproof) (q : view) : Prop := {
  pv_n : (1 ≤ q_n q ≤ 16)%nat;
  pv_V : length (bp_V proof) = q_n q ∧ times8 (bp_V proof) = Ret (pvec (q_n q) (q_V q));
  pv_logM : size_logM (q_n q) = q_logM q;
  pv_A : scalarmult8 (bp_A proof) = Ret (pkey (q_A q));
  pv_S : scalarmult8 (bp_S proof) = Ret (pkey (q_S q));
  pv_T1 : scalarmult8 (bp_T1 proof) = Ret (pkey (q_T1 q));
  pv_T2 : scalarmult8 (bp_T2 proof) = Ret (pkey (q_T2 q));
  pv_scalars : bp_taux proof = fkey (q_taux q) ∧ bp_mu proof = fkey (q_mu q) ∧
    bp_a proof = fkey (q_a q) ∧ bp_b proof = fkey (q_b q) ∧ bp_t proof = fkey (q_t q);
  pv_L : times8 (bp_L proof) = Ret (pkey <$> q_ls q);
  pv_R : times8 (bp_R proof) = Ret (pkey <$> q_rs q);
  pv_lengths : length (bp_L proof) = (6 + q_logM q)%nat ∧ length (bp_R proof) = (6 + q_logM q)%nat ∧
    length (q_ls q) = (6 + q_logM q)%nat ∧ length (q_rs q) = (6 + q_logM q)%nat;
  pv_y : q_y q = mash [fkey (mash (bp_V proof)); bp_A proof; bp_S proof];
  pv_z : q_z q = mash [fkey (q_y q)];
  pv_x : q_x q = mash [fkey (q_z q); fkey (q_z q); bp_T1 proof; bp_T2 proof];
  pv_xi : q_xi q = mash [fkey (q_x q); fkey (q_x q); bp_taux proof; bp_mu proof; bp_t proof]
}.

Record view_of (proof : Bulletproof) (q : view) : Prop := {
  vo_pre : pre_view proof q;
  vo_nonzero : q_y q ≠ 0 ∧ q_z q ≠ 0 ∧ q_x q ≠ 0 ∧ q_xi q ≠ 0;
  vo_ws : length (q_ws q) = (6 + q_logM q)%nat ∧ Forall (λ w, w ≠ 0) (q_ws q) ∧
    verify_w (fkey (q_xi q)) (bp_L proof) (bp_R proof) = Some (Some (fkey <$> q_ws q))
}.

Lemma size_logM_ok n : (1 ≤ n ≤ 16)%nat → (size_logM n ≤ 4)%nat ∧ (n ≤ 2 ^ size_logM n)%nat.
Proof.
  intros Hn. do 17 (destruct n as [|n]; [try lia; vm_compute; lia|]). lia.
Qed.

Lemma verify_k_f n j m z c k :
  (j + n + 2 ≤ m)%nat →
  verify_k n j (svec m (fpow z)) (fkey c) (fkey k) =
    Some (Some (fkey (k - fsum n (λ i, fpow z (i + (j + 2))) * c))).
Proof.
  revert j k. induction n as [|n IH]; intros j k Hm.
  { cbn [verify_k fsum]. apply (f_equal (λ x, Some (Some (fkey x)))). ring. }
  cbn [verify_k]. rewrite length_svec, (proj2 (Nat.ltb_lt (j + 2) m)) by lia.
  change (negb true) with false. cbv iota. rewrite svec_lookup_total by lia.
  step (sc_mulsub_f (fpow z (j + 2)) c k). rewrite IH by lia.
  apply (f_equal (λ x, Some (Some (fkey x)))). cbn [fsum].
  rewrite (fsum_ext n (λ i, fpow z (i + (S j + 2))) (λ i, fpow z (S i + (j + 2)))) by (intros i _; f_equal; lia).
  change (0 + (j + 2))%nat with (j + 2)%nat. generalize (fsum n (λ i, fpow z (S i + (j + 2)))) (fpow z (j + 2)).
  intros f1 f2. ring.
Qed.

Lemma verify_V_f n j m z v :
  (j + n + 2 ≤ m)%nat →
  ∃ data, verify_V j (svec m (fpow z)) (pvec n v) = Ret data ∧
    log_data (vec n (λ i, (fpow z (i + (j + 2)), v i))) data.
Proof.
  revert j v. induction n as [|n IH]; intros j v Hm; [exists []; split; [done|constructor]|].
  rewrite pvec_S. cbn [verify_V]. step_run (svec_lookup m (fpow z) (j + 2) ltac:(lia)).
  unfold MultiexpData_of_keys. destruct (load_pkey (v O)) as (p & Ep & Hp). rewrite Ep.
  rewrite !(bind_ret _ _ _ eq_refl). destruct (IH (S j) (λ i, v (S i)) ltac:(lia)) as (data & E & HD). step_ret E.
  eexists. split; [done|]. rewrite vec_S. apply log_data_cons; [exact Hp|].
  erewrite vec_ext; [exact HD|]. intros i _. cbv beta. do 2 f_equal. lia.
Qed.

Lemma log_sum_vec n a c : log_sum (vec n (λ i, (a i, c i))) = fsum n (λ i, a i * c i).
Proof.
  revert a c. induction n as [|n IH]; intros a c; [done|]. rewrite vec_S. cbn [fsum].
  rewrite <- IH. done.
Qed.

Lemma inverts_f ws : Forall (λ w, w ≠ 0) ws → inverts (fkey <$> ws) = Ret (fkey <$> (Zmod.inv <$> ws)).
Proof.
  induction 1 as [|w ws Hw _ IH]; [done|]. cbn [fmap list_fmap inverts].
  step_ret (invert_f w Hw). by rewrite IH.
Qed.

Lemma verify_LR_f ws ls rs :
  length ls = length ws → length rs = length ws →
  ∃ l data, verify_LR (fkey <$> ws) (fkey <$> (Zmod.inv <$> ws)) (pkey <$> ls) (pkey <$> rs) = Ret data ∧
    log_data l data ∧ log_sum l = round_sum ws ls rs.
Proof.
  revert ls rs. induction ws as [|w ws IH]; intros [|l ls] [|r rs] Hl Hr; try done.
  { exists [], []. split; [done|]. split; [constructor|]. unfold round_sum. cbn. ring. }
  destruct (IH ls rs) as (k & data & E & HD & HS); [cbn in Hl; lia|cbn in Hr; lia|].
  cbn [fmap list_fmap verify_LR]. step_run (sc_mul_f w w). unfold MultiexpData_of_keys.
  destruct (load_pkey l) as (p & Ep & Hp). destruct (load_pkey r) as (p' & Ep' & Hp').
  rewrite Ep, Ep'. rewrite (bind_ret _ _ _ eq_refl). rewrite (bind_ret _ _ _ eq_refl).
  step_run (sc_mul_f (Zmod.inv w) (Zmod.inv w)). rewrite (bind_ret _ _ _ eq_refl). rewrite (bind_ret _ _ _ eq_refl).
  rewrite (bind_ret _ _ _ E). exists ((w * w, l) :: (Zmod.inv w * Zmod.inv w, r) :: k). eexists. split; [done|].
  split; [by repeat apply log_data_cons|]. unfold round_sum in *.
  change (w * w * l + (Zmod.inv w * Zmod.inv w * r + log_sum k) =
    w * w * l + log_sum (zip ((λ w, w * w) <$> ws) ls) +
    (Zmod.inv w * Zmod.inv w * r + log_sum (zip ((λ w, Zmod.inv w * Zmod.inv w) <$> ws) rs))).
  rewrite HS. ring.
Qed.

Lemma acc_mul_f acc c a : acc_mul (pkey acc) (pkey c) (fkey a) = Ret (pkey (acc + a * c)).
Proof. unfold acc_mul. step_ret (scalarmultKey_p a c). apply addKeys_p. Qed.

(** ** The aggregates *)

Record agg := {
  sZ0 : FL; sz1 : FL; sZ2 : FL; sz3 : FL; sz4 : nat → FL; sz5 : nat → FL;
  sY2 : FL; sY3 : FL; sY4 : FL; sy0 : FL; sy1 : FL
}.

Record agg_is (K : nat) (s : agg) (ag : aggregate) : Prop := {
  ai_Z0 : ag_Z0 ag = pkey (sZ0 s);
  ai_z1 : ag_z1 ag = fkey (sz1 s);
  ai_Z2 : ag_Z2 ag = pkey (sZ2 s);
  ai_z3 : ag_z3 ag = fkey (sz3 s);
  ai_z4 : ag_z4 ag = svec K (sz4 s);
  ai_z5 : ag_z5 ag = svec K (sz5 s);
  ai_Y2 : ag_Y2 ag = pkey (sY2 s);
  ai_Y3 : ag_Y3 ag = pkey (sY3 s);
  ai_Y4 : ag_Y4 ag = pkey (sY4 s);
  ai_y0 : ag_y0 ag = fkey (sy0 s);
  ai_y1 : ag_y1 ag = fkey (sy1 s)
}.

(** What a proof adds *)
Definition agg_add (wt : FL) (q : view) (s : agg) : agg := {|
  sZ0 := sZ0 s + wt * (q_A q + q_x q * q_S q);
  sz1 := q_mu q * wt + sz1 s;
  sZ2 := sZ2 s + wt * round_sum (q_ws q) (q_ls q) (q_rs q);
  sz3 := z3_of q * wt + sz3 s;
  sz4 := accumulate 0 (q_MN q) wt (g_scalar (q_ws q) (q_a q) (q_z q)) (sz4 s);
  sz5 := accumulate 0 (q_MN q) wt (h_scalar (q_ws q) (q_b q) (q_y q) (q_z q)) (sz5 s);
  sY2 := sY2 s + wt * V_sum q;
  sY3 := sY3 s + q_x q * wt * q_T1 q;
  sY4 := sY4 s + q_x q * q_x q * wt * q_T2 q;
  sy0 := q_taux q * wt + sy0 s;
  sy1 := (q_t q - delta q) * wt + sy1 s
|}.

Lemma rct_hash_f c : rct_hash_to_scalar (fkey c) = Some (fkey (mash [fkey c])).
Proof.
  rewrite rct_hash_to_scalar_ok, to_scalar_fkey. unfold mash. cbn [mjoin list_join]. by rewrite app_nil_r.
Qed.

Lemma challenge_nonzero {A} (c : FL) (k : outcome (option A)) :
  c ≠ 0 → (if key_eqb (fkey c) zero then Ret None else k) = k.
Proof. intros Hc. by rewrite key_eqb_0, bool_decide_eq_false_2. Qed.

(** The verifier up to the challenges of the rounds; the rest of it does not fail. *)
Lemma verify_proof_prefix E proof q wt K s ag :
  pre_view proof q → q_y q ≠ 0 → q_z q ≠ 0 → q_x q ≠ 0 → q_xi q ≠ 0 → agg_is K s ag →
  ∃ rest, verify_proof E proof (q_logM q) (fkey wt) ag =
      (w ← run (verify_w (fkey (q_xi q)) (bp_L proof) (bp_R proof));
       match w with None => Ret None | Some w => rest w end) ∧
    (view_of proof q → (q_MN q ≤ K)%nat →
     ∃ ag', rest (fkey <$> q_ws q) = Ret (Some ag') ∧ agg_is K (agg_add wt q s) ag').
Proof.
  intros [Hn [HVl EV] HlM EA ES ET1 ET2 (Etx & Emu & Ea & Eb & Et) EL ER (HL & HR & Hls & Hrs)
    Ey Ez Ex Exi] Hy Hz Hx Hxi HA.
  unfold verify_proof. fold (q_M q). change (q_M q * bpN)%nat with (q_MN q).
  step_run (hash_to_scalar_keyV_ok (bp_V proof)). rewrite to_scalar_fkey. fold (mash (bp_V proof)).
  step_run (hash_cache_mash_f (fkey (mash (bp_V proof))) [bp_A proof; bp_S proof]). rewrite <- Ey.
  rewrite (challenge_nonzero (q_y q)) by exact Hy. step_run (rct_hash_f (q_y q)). rewrite <- Ez.
  rewrite (challenge_nonzero (q_z q)) by exact Hz.
  step_run (hash_cache_mash_f (fkey (q_z q)) [fkey (q_z q); bp_T1 proof; bp_T2 proof]). rewrite <- Ex.
  rewrite (challenge_nonzero (q_x q)) by exact Hx.
  step_run (hash_cache_mash_f (fkey (q_x q)) [fkey (q_x q); bp_taux proof; bp_mu proof; bp_t proof]). rewrite <- Exi.
  rewrite (challenge_nonzero (q_xi q)) by exact Hxi.
  step_ret EV. step_ret EL. step_ret ER. step_ret ET1. step_ret ET2. step_ret ES.
  rewrite Etx, (ai_y0 _ _ _ HA). step_run (sc_muladd_f (q_taux q) wt (sy0 s)).
  destruct (size_logM_ok (q_n q) Hn) as [HM4 HnM]. rewrite HlM in HM4, HnM. fold (q_M q) in HnM.
  step_run (vector_powers_f (q_z q) (q_M q + 3)). step_run (vector_power_sum_f (q_y q) (q_MN q)).
  set (ip1y := fsum (q_MN q) (fpow (q_y q))).
  step_run (svec_lookup (q_M q + 3) (fpow (q_z q)) 2 ltac:(lia)). rewrite zero_fkey.
  step_run (sc_mulsub_f (fpow (q_z q) 2) ip1y 0). step_ret ip12_f.
  step_run (verify_k_f (q_M q) 1 (q_M q + 3) (q_z q) (fsum 64 (fpow two)) (0 - fpow (q_z q) 2 * ip1y) ltac:(lia)).
  step_run (sc_muladd_f (q_z q) ip1y
    (0 - fpow (q_z q) 2 * ip1y - fsum (q_M q) (λ i, fpow (q_z q) (i + (1 + 2))) * fsum 64 (fpow two))).
  assert (q_z q * ip1y + (0 - fpow (q_z q) 2 * ip1y - fsum (q_M q) (λ i, fpow (q_z q) (i + (1 + 2))) * fsum 64 (fpow two))
    = delta q) as -> by (unfold delta; fold ip1y; change (1 + 2)%nat with 3%nat;
      generalize (fsum (q_M q) (λ i, fpow (q_z q) (i + 3))) (fsum 64 (fpow two)) ip1y (fpow (q_z q) 2); intros; ring).
  rewrite Et. step_run (sc_sub_f (q_t q) (delta q)). rewrite (ai_y1 _ _ _ HA).
  step_run (sc_muladd_f (q_t q - delta q) wt (sy1 s)).
  destruct (verify_V_f (q_n q) 0 (q_M q + 3) (q_z q) (q_V q) ltac:(lia)) as (dV & EdV & HdV). step_ret EdV.
  step_ret (multiexp_plain E _ _ HdV). rewrite log_sum_vec. change (0 + 2)%nat with 2%nat. fold (V_sum q).
  rewrite (ai_Y2 _ _ _ HA). step_ret (acc_mul_f (sY2 s) (V_sum q) wt).
  step_run (sc_mul_f (q_x q) wt). rewrite (ai_Y3 _ _ _ HA). step_ret (acc_mul_f (sY3 s) (q_T1 q) (q_x q * wt)).
  step_run (sc_mul_f (q_x q) (q_x q)). step_run (sc_mul_f (q_x q * q_x q) wt).
  rewrite (ai_Y4 _ _ _ HA). step_ret (acc_mul_f (sY4 s) (q_T2 q) (q_x q * q_x q * wt)).
  step_ret EA. step_ret (scalarmultKey_p (q_x q) (q_S q)). step_ret (addKeys_p (q_A q) (q_x q * q_S q)).
  rewrite (ai_Z0 _ _ _ HA). step_ret (acc_mul_f (sZ0 s) (q_A q + q_x q * q_S q) wt).
  eexists. split; [reflexivity|]. cbv beta. intros [_ _ (Hws & Hw & Ews)] HK.
  step_ret (invert_f (q_y q) Hy). step_ret (inverts_f (q_ws q) Hw). step_run twoN_f.
  assert (q_M q * 64 = 2 ^ length (q_ws q))%nat as EMN
    by (rewrite Hws, Nat.pow_add_r; unfold q_M; change (2 ^ 6)%nat with 64%nat; lia).
  set (V := {| ve_MN := q_MN q |}). cbv zeta.
  assert (env_is (q_M q) wt (q_a q) (q_b q) (q_y q) (q_z q) (q_ws q) V) as HV by (split; first [exact Ea|exact Eb|reflexivity]).
  pose proof (verify_scalars_f (q_MN q) 0 K (q_M q) wt (q_a q) (q_b q) (q_y q) (q_z q) (q_ws q) V (sz4 s) (sz5 s)
    HV eq_refl HK EMN) as Evs.
  rewrite (ai_z4 _ _ _ HA), (ai_z5 _ _ _ HA). change (fkey (fpow _ 0)) with rct_identity in Evs. step_run Evs.
  rewrite Emu, (ai_z1 _ _ _ HA). step_run (sc_muladd_f (q_mu q) wt (sz1 s)).
  destruct (verify_LR_f (q_ws q) (q_ls q) (q_rs q)) as (k & dLR & EdLR & HdLR & HS); [congruence..|]. step_ret EdLR.
  step_ret (multiexp_plain E _ _ HdLR). rewrite HS. rewrite (ai_Z2 _ _ _ HA).
  step_ret (acc_mul_f (sZ2 s) (round_sum (q_ws q) (q_ls q) (q_rs q)) wt).
  rewrite Ea, Eb. step_run (sc_mulsub_f (q_a q) (q_b q) (q_t q)).
  step_run (sc_mul_f (q_t q - q_a q * q_b q) (q_xi q)). fold (z3_of q). rewrite (ai_z3 _ _ _ HA).
  step_run (sc_muladd_f (z3_of q) wt (sz3 s)).
  eexists. split; [reflexivity|]. split; reflexivity.
Qed.

Lemma verify_proof_f E proof q wt K s ag :
  view_of proof q → (q_MN q ≤ K)%nat → agg_is K s ag →
  ∃ ag', verify_proof E proof (q_logM q) (fkey wt) ag = Ret (Some ag') ∧ agg_is K (agg_add wt q s) ag'.
Proof.
  intros HV HK HA. pose proof HV as [Hp (Hy & Hz & Hx & Hxi) (_ & _ & Ew)].
  destruct (verify_proof_prefix E proof q wt K s ag Hp Hy Hz Hx Hxi HA) as (rest & Er & H).
  destruct (H HV HK) as (ag' & E' & HA'). exists ag'. split; [|exact HA']. rewrite Er, Ew. exact E'.
Qed.

(** ** The two equations *)

Definition sum1 (eta : FL) (s : agg) : FL := sy0 s + sy1 s * eta - sY2 s - sY3 s - sY4 s.
Definition sum2 (eta : FL) (g h : nat → FL) (K : nat) (s : agg) : FL :=
  sz3 s * eta - sz1 s + sZ0 s + sZ2 s - fsum K (λ i, sz4 s i * g i) - fsum K (λ i, sz5 s i * h i).

Lemma sum1_add eta wt q s : sum1 eta (agg_add wt q s) = sum1 eta s + wt * equation1 eta q.
Proof. unfold sum1, equation1. cbn [agg_add sy0 sy1 sY2 sY3 sY4]. ring. Qed.

Lemma fsum_accumulate K m wt f acc (c : nat → FL) :
  (m ≤ K)%nat →
  fsum K (λ i, accumulate 0 m wt f acc i * c i) = fsum K (λ i, acc i * c i) + wt * fsum m (λ i, f i * c i).
Proof.
  intros Hm. replace K with (m + (K - m))%nat by lia. rewrite !fsum_split, fsum_mul.
  rewrite (fsum_ext m _ (λ i, acc i * c i + wt * (f i * c i))).
  2: { intros i Hi. unfold accumulate. rewrite (proj2 (Nat.ltb_lt i m) Hi). cbn [Nat.leb andb]. ring. }
  rewrite <- fsum_add. rewrite (fsum_ext (K - m) _ (λ i, acc (m + i)%nat * c (m + i)%nat)).
  2: { intros i _. unfold accumulate. rewrite (proj2 (Nat.ltb_ge (m + i) m)) by lia. by rewrite andb_false_r. }
  ring.
Qed.

Lemma sum2_add eta g h K wt q s :
  (q_MN q ≤ K)%nat → sum2 eta g h K (agg_add wt q s) = sum2 eta g h K s + wt * equation2 eta g h q.
Proof.
  intros HK. unfold sum2, equation2. cbn [agg_add sz3 sz1 sZ0 sZ2 sz4 sz5].
  rewrite !fsum_accumulate by exact HK. generalize (round_sum (q_ws q) (q_ls q) (q_rs q)). intros wd. ring.
Qed.

Lemma acc_p3_ok c P p :
  p3_is P p →
  (∃ r, add_acc_p3 p (pkey c) = Ret r ∧ p3_is (ed_add P (fpoint c)) r) ∧
  (∃ r, sub_acc_p3 p (pkey c) = Ret r ∧ p3_is (ed_add P (ed_opp (fpoint c))) r).
Proof.
  intros HP. destruct (load_pkey c) as (h & E & Hh). destruct (ge_p3_to_cached_ok _ _ Hh) as (cd & Ec & Hc).
  unfold add_acc_p3, sub_acc_p3. split; step_ret E.
  - destruct (ge_add_ok _ _ _ _ HP Hc) as (t & Et & Ht). destruct (ge_p1p1_to_p3_ok _ _ Ht) as (r & Er & Hr).
    exists r. split; [|exact Hr]. apply run_some. step Ec. step Et. exact Er.
  - destruct (ge_sub_ok _ _ _ _ HP Hc) as (t & Et & Ht). destruct (ge_p1p1_to_p3_ok _ _ Ht) as (r & Er & Hr).
    exists r. split; [|exact Hr]. apply run_some. step Ec. step Et. exact Er.
Qed.

Context (eta : FL) (Heta : H25519 = fpoint eta).

Lemma addKeys_acc_p3_f a c p :
  p3_is (fpoint c) p → ∃ r, addKeys_acc_p3 p (fkey a) rct_H = Ret r ∧ p3_is (fpoint (c + a * eta)) r.
Proof.
  intros Hp. unfold addKeys_acc_p3. destruct (load_pkey eta) as (h & E & Hh).
  assert (rct_H = pkey eta) as -> by (unfold pkey; rewrite <- Heta; exact rct_H_ok). step_ret E.
  destruct (ge_scalarmult_p3_ok _ _ _ Hh (fkey_255 a)) as (q & Eq & Hq).
  destruct (ge_p3_to_cached_ok _ _ Hp) as (cd & Ec & Hc).
  destruct (ge_add_ok _ _ _ _ Hq Hc) as (t & Et & Ht). destruct (ge_p1p1_to_p3_ok _ _ Ht) as (r & Er & Hr).
  exists r. split.
  - apply run_some. step Eq. step (eq_refl (Some q)). step Ec. step Et. exact Er.
  - rewrite le_combine_fkey, fpoint_to_Z, <- fpoint_add in Hr. by replace (c + a * eta) with (a * eta + c) by ring.
Qed.

Lemma verify_step1_f K s ag :
  agg_is K s ag → ∃ c, verify_step1 ag = Ret c ∧ p3_is (fpoint (sum1 eta s)) c.
Proof.
  intros HA. unfold verify_step1.
  rewrite (ai_y0 _ _ _ HA), (ai_y1 _ _ _ HA), (ai_Y2 _ _ _ HA), (ai_Y3 _ _ _ HA), (ai_Y4 _ _ _ HA).
  destruct (base_mul _ (fkey_scalar (sy0 s))) as (b & Eb & Hb & _). step_run Eb.
  rewrite le_combine_fkey in Hb. fold (fpoint (sy0 s)) in Hb.
  destruct (addKeys_acc_p3_f (sy1 s) _ _ Hb) as (c1 & E1 & H1). step_ret E1.
  destruct (acc_p3_ok (sY2 s) _ _ H1) as [_ (c2 & E2 & H2)]. step_ret E2. rewrite <- fpoint_opp, <- fpoint_add in H2.
  destruct (acc_p3_ok (sY3 s) _ _ H2) as [_ (c3 & E3 & H3)]. step_ret E3. rewrite <- fpoint_opp, <- fpoint_add in H3.
  destruct (acc_p3_ok (sY4 s) _ _ H3) as [_ (c4 & E4 & H4)]. rewrite <- fpoint_opp, <- fpoint_add in H4.
  exists c4. split; [exact E4|]. unfold sum1.
  by replace (sy0 s + sy1 s * eta - sY2 s - sY3 s - sY4 s) with (sy0 s + sy1 s * eta + - sY2 s + - sY3 s + - sY4 s) by ring.
Qed.

Lemma verify_step2_f g h E K s ag :
  exponents_are g h E → (K ≤ 1024)%nat → agg_is K s ag →
  (sz1 s = 0 ∧ sz3 s = 0 ∧ verify_step2 E ag = Undef) ∨
  (∃ c, verify_step2 E ag = Ret c ∧ p3_is (fpoint (sum2 eta g h K s)) c).
Proof.
  intros HE HK HA. unfold verify_step2. rewrite (ai_z1 _ _ _ HA), (ai_z3 _ _ _ HA), (ai_Z0 _ _ _ HA), (ai_Z2 _ _ _ HA).
  rewrite zero_fkey. step_run (sc_sub_f 0 (sz1 s)).
  destruct (decide (sz1 s = 0 ∧ sz3 s = 0)) as [[Hz1 Hz3]|Hnz].
  { left. split; [exact Hz1|]. split; [exact Hz3|].
    assert (le_combine (fkey (sz3 s)) = 0%Z) as E3 by (rewrite Hz3; reflexivity).
    assert (le_combine (fkey (0 - sz1 s)) = 0%Z) as E1 by (rewrite Hz1; reflexivity).
    by rewrite (bind_run _ _ _ (ge_double_scalarmult_base_vartime_p3_zero _ _ _ _ ge_p3_H_is
      (fkey_255 _) (fkey_255 _) E3 E1)). }
  right.
  destruct (ge_double_scalarmult_base_vartime_p3_ok _ _ (fkey (sz3 s)) (fkey (0 - sz1 s)) ge_p3_H_is
    (fkey_255 _) (fkey_255 _)) as (r & Er & Hr).
  { rewrite !le_combine_fkey. intros [E3 E1]. apply Hnz. apply Zmod.unsigned_0_iff in E1, E3.
    split; [|exact E3]. transitivity (0 - (0 - sz1 s)); [ring|]. rewrite E1. ring. }
  step_run Er. step_run (eq_refl (Some r)).
  assert (p3_is (fpoint (sz3 s * eta - sz1 s)) r) as Hr'.
  { unfold sum_point in Hr. rewrite !le_combine_fkey, Heta, fpoint_to_Z in Hr. fold (mulG (Zmod.to_Z (0 - sz1 s))) in Hr.
    fold (fpoint (0 - sz1 s)) in Hr. rewrite <- fpoint_add in Hr.
    by replace (sz3 s * eta - sz1 s) with (sz3 s * eta + (0 - sz1 s)) by ring. }
  destruct (acc_p3_ok (sZ0 s) _ _ Hr') as [(c1 & E1 & H1) _]. step_ret E1. rewrite <- fpoint_add in H1.
  destruct (acc_p3_ok (sZ2 s) _ _ H1) as [(c2 & E2 & H2) _]. step_ret E2. rewrite <- fpoint_add in H2.
  rewrite (ai_z4 _ _ _ HA), (ai_z5 _ _ _ HA), minus_data_eq.
  destruct (exponent_data_f g h E HE K (λ i, - sz4 s i) (λ i, - sz5 s i) HK) as (data & Ed & HD). step_run Ed.
  step_ret (multiexp_tables g h E HE K _ _ data HK HD). rewrite log_sum_pairs.
  destruct (acc_p3_ok (fsum K (λ i, - sz4 s i * g i) + fsum K (λ i, - sz5 s i * h i)) _ _ H2) as [(c3 & E3 & H3) _].
  exists c3. split; [exact E3|]. rewrite <- fpoint_add in H3.
  assert (∀ z c : nat → FL, fsum K (λ i, - z i * c i) = - fsum K (λ i, z i * c i)) as En.
  { intros z c. transitivity (- (1) * fsum K (λ i, z i * c i)); [rewrite fsum_mul; apply fsum_ext; intros i _; ring|ring]. }
  rewrite !En in H3. unfold sum2.
  match type of H3 with p3_is (fpoint ?x) _ =>
    match goal with |- p3_is (fpoint ?y) _ => replace y with x by ring end end. exact H3.
Qed.

(** ** The batch *)

Context {G : Type} {R : Rng G} {RL : RngLaws R}.

Definition agg_0 : agg := {|
  sZ0 := 0; sz1 := 0; sZ2 := 0; sz3 := 0; sz4 := λ _, 0; sz5 := λ _, 0;
  sY2 := 0; sY3 := 0; sY4 := 0; sy0 := 0; sy1 := 0
|}.

Lemma aggregate_0_f K : agg_is K agg_0 (aggregate_0 K).
Proof. split; try reflexivity; try exact identity_pkey; exact (vector_dup_f K 0). Qed.

Fixpoint agg_all (wqs : list (FL * view)) (s : agg) : agg :=
  match wqs with [] => s | (wt, q) :: wqs => agg_all wqs (agg_add wt q s) end.

Lemma drawx_step {S A B} (m : rand S A) (k : A → genx S B) s a s' :
  m s = Some (a, s') → (drawx m ≫= k) s = k a s'.
Proof. intros E. unfold mbind, genx_bind, drawx. by rewrite E. Qed.

Lemma calcx_step {S A B} (o : outcome A) (k : A → genx S B) s a :
  o = Ret a → (calcx o ≫= k) s = k a s.
Proof. by intros ->. Qed.

(** The weights are those that [skvGen] would draw. *)
Lemma verify_loop_f E K proofs qs s ag r :
  Forall2 view_of proofs qs → Forall (λ q, (q_MN q ≤ K)%nat) qs → agg_is K s ag → rng_ok r →
  ∃ wts ag' r', skvGen_loop (length proofs) r = Some (fkey <$> wts, r') ∧ rng_ok r' ∧ length wts = length qs ∧
    verify_loop E proofs ag r = (Ret (Some ag'), r') ∧ agg_is K (agg_all (zip wts qs) s) ag'.
Proof.
  intros HV. revert s ag r. induction HV as [|proof q proofs qs Hq HV IH]; intros s ag r HF HA Hr.
  { exists [], ag, r. done. }
  apply Forall_cons_1 in HF as [HK HF]. destruct (skGen_ok r Hr) as (x & r1 & Hx & Hr1 & Ex).
  destruct (verify_proof_f E proof q (of_key x) K s ag Hq HK HA) as (ag1 & E1 & HA1).
  destruct (IH _ ag1 r1 HF HA1 Hr1) as (wts & ag' & r' & Ew & Hr' & HL & El & HA').
  exists (of_key x :: wts), ag', r'. split_and!.
  - cbn [length skvGen_loop]. rewrite (rand_step _ _ _ _ _ Ex), (rand_step _ _ _ _ _ Ew).
    by rewrite fmap_cons, fkey_of_key.
  - exact Hr'.
  - cbn [length]. by rewrite HL.
  - cbn [verify_loop]. rewrite (proj1 (pv_V _ _ (vo_pre _ _ Hq))), (pv_logM _ _ (vo_pre _ _ Hq)).
    rewrite (proj2 (Nat.eqb_eq _ _) (proj1 (pv_lengths _ _ (vo_pre _ _ Hq)))). change (negb true) with false. cbv iota.
    rewrite (drawx_step _ _ _ _ _ Ex). rewrite fkey_of_key in E1 by exact Hx.
    rewrite (calcx_step _ _ _ _ E1). exact El.
  - exact HA'.
Qed.

Lemma proof_sane_f proof q : pre_view proof q → proof_sane proof = Some true.
Proof.
  intros []. unfold proof_sane. destruct pv_scalars0 as (-> & -> & -> & -> & ->).
  rewrite !is_reduced_f. cbn [mbind option_bind negb]. destruct pv_lengths0 as (-> & -> & _), pv_V0 as [-> _].
  rewrite (proj2 (Nat.leb_le 1 (q_n q))) by lia. by rewrite Nat.eqb_refl.
Qed.

Definition max_rounds (qs : list view) : nat := foldr (λ q m, max (6 + q_logM q) m) 0%nat qs.

Lemma sane_loop_f proofs qs m :
  Forall2 pre_view proofs qs → sane_loop proofs m = Some (Some (max m (max_rounds qs))).
Proof.
  intros HV. revert m. induction HV as [|proof q proofs qs Hq HV IH]; intros m.
  { cbn [sane_loop max_rounds foldr]. by rewrite Nat.max_0_r. }
  cbn [sane_loop]. rewrite (proof_sane_f _ _ Hq). cbn [mbind option_bind negb].
  rewrite IH. rewrite (proj1 (pv_lengths _ _ Hq)). cbn [max_rounds foldr]. do 2 f_equal. fold (max_rounds qs). lia.
Qed.

Lemma views_pre proofs qs : Forall2 view_of proofs qs → Forall2 pre_view proofs qs.
Proof. induction 1; constructor; auto using vo_pre. Qed.

Lemma max_rounds_le proofs qs :
  Forall2 pre_view proofs qs →
  (max_rounds qs ≤ 10)%nat ∧ Forall (λ q, (q_MN q ≤ 2 ^ max_rounds qs)%nat) qs.
Proof.
  induction 1 as [|proof q proofs qs Hq _ [IH1 IH2]]; [cbn; split; [lia|constructor]|].
  destruct (size_logM_ok (q_n q) (pv_n _ _ Hq)) as [H4 _]. rewrite (pv_logM _ _ Hq) in H4.
  cbn [max_rounds foldr]. fold (max_rounds qs). split; [lia|]. constructor.
  - unfold q_MN, q_M. replace (2 ^ q_logM q * 64)%nat with (2 ^ (6 + q_logM q))%nat
      by (rewrite Nat.pow_add_r; change (2 ^ 6)%nat with 64%nat; lia).
    apply Nat.pow_le_mono_r; lia.
  - eapply Forall_impl; [|exact IH2]. intros q' Hq'. etransitivity; [exact Hq'|]. apply Nat.pow_le_mono_r; lia.
Qed.

(** The weighted sums of the two equations *)
Definition weighted_sum (f : view → FL) (wqs : list (FL * view)) : FL :=
  foldr (λ p acc, p.1 * f p.2 + acc) 0 wqs.

Lemma sum1_all wqs s : sum1 eta (agg_all wqs s) = sum1 eta s + weighted_sum (equation1 eta) wqs.
Proof.
  revert s. induction wqs as [|[wt q] wqs IH]; intros s; cbn [agg_all weighted_sum foldr fst snd]; [ring|].
  rewrite IH, sum1_add. fold (weighted_sum (equation1 eta) wqs). ring.
Qed.

Lemma sum2_all g h K wqs s :
  Forall (λ q, (q_MN q ≤ K)%nat) wqs.*2 →
  sum2 eta g h K (agg_all wqs s) = sum2 eta g h K s + weighted_sum (equation2 eta g h) wqs.
Proof.
  revert s. induction wqs as [|[wt q] wqs IH]; intros s HF; cbn [agg_all weighted_sum foldr fst snd]; [ring|].
  apply Forall_cons_1 in HF as [HK HF]. rewrite IH, sum2_add by assumption.
  fold (weighted_sum (equation2 eta g h) wqs). ring.
Qed.

Lemma agg_all_z wqs s :
  sz1 (agg_all wqs s) = sz1 s + weighted_sum q_mu wqs ∧ sz3 (agg_all wqs s) = sz3 s + weighted_sum z3_of wqs.
Proof.
  revert s. induction wqs as [|[wt q] wqs IH]; intros s; cbn [agg_all weighted_sum foldr fst snd]; [split; ring|].
  destruct (IH (agg_add wt q s)) as [-> ->]. cbn [agg_add sz1 sz3]. unfold weighted_sum. split; ring.
Qed.

Definition recognised (c : ge_p3) : bool := negb (ge_p3_is_point_at_infinity c =? 0)%Z.

(** What [bulletproof_VERIFY] returns for a batch of proofs of the right shape: the two points it
    computes are the round_sum sums of the equations; the second is not computed when the scalars
    of [G] and [H] in it are both 0. *)
Lemma bulletproof_VERIFY_f g h E proofs qs r :
  init_exponents = Ret E → exponents_are g h E → Forall2 view_of proofs qs → rng_ok r →
  ∃ wts r', skvGen_loop (length proofs) r = Some (fkey <$> wts, r') ∧ rng_ok r' ∧ length wts = length qs ∧
    let wqs := zip wts qs in
    ∃ c1, p3_is (fpoint (weighted_sum (equation1 eta) wqs)) c1 ∧
      ((weighted_sum q_mu wqs = 0 ∧ weighted_sum z3_of wqs = 0 ∧
        bulletproof_VERIFY proofs r = (if recognised c1 then Undef else Ret false, r')) ∨
       (∃ c2, p3_is (fpoint (weighted_sum (equation2 eta g h) wqs)) c2 ∧
         bulletproof_VERIFY proofs r = (Ret (recognised c1 && recognised c2), r'))).
Proof.
  intros EE HE HV Hr. destruct (max_rounds_le _ _ (views_pre _ _ HV)) as [H10 HK]. set (K := (2 ^ max_rounds qs)%nat) in *.
  destruct (verify_loop_f E K proofs qs agg_0 (aggregate_0 K) r HV HK (aggregate_0_f K) Hr)
    as (wts & ag & r' & Ew & Hr' & HL & El & HA).
  exists wts, r'. split; [exact Ew|]. split; [exact Hr'|]. split; [exact HL|]. intros wqs. fold wqs in HA.
  assert (Forall (λ q, (q_MN q ≤ K)%nat) wqs.*2) as HK'.
  { unfold wqs. rewrite snd_zip by lia. exact HK. }
  destruct (verify_step1_f K _ ag HA) as (c1 & E1 & H1). rewrite sum1_all in H1.
  assert (sum1 eta agg_0 + weighted_sum (equation1 eta) wqs = weighted_sum (equation1 eta) wqs) as Es1
    by (unfold sum1, agg_0; cbn [sy0 sy1 sY2 sY3 sY4]; ring).
  rewrite Es1 in H1. exists c1. split; [exact H1|].
  assert (bulletproof_VERIFY proofs r = (if recognised c1 then
      (let '(o, s) := calcx (verify_step2 E ag) r' in
       match o with Ret c2 => (Ret (recognised c2), s) | Throw => (Throw, s) | Undef => (Undef, s) end)
      else (Ret false, r'))) as EV.
  { unfold bulletproof_VERIFY. rewrite (calcx_step _ _ _ _ EE).
    rewrite (calcx_step _ _ _ _ (run_some _ _ (sane_loop_f proofs qs 0 (views_pre _ _ HV)))). rewrite Nat.max_0_l.
    rewrite (proj2 (Nat.ltb_lt (max_rounds qs) 32)) by lia. change (negb true) with false. cbv iota. fold K.
    unfold mbind at 1, genx_bind at 1. rewrite El.
    rewrite (calcx_step _ _ _ _ E1). unfold recognised at 1.
    destruct (ge_p3_is_point_at_infinity c1 =? 0)%Z; [done|]. cbn [negb].
    unfold mbind, genx_bind, calcx. by destruct (verify_step2 E ag). }
  destruct (agg_all_z wqs agg_0) as [Z1 Z3].
  assert (K ≤ 1024)%nat as HK10.
  { unfold K. transitivity (2 ^ 10)%nat; [apply Nat.pow_le_mono_r; lia|]. apply Nat.leb_le. reflexivity. }
  destruct (verify_step2_f g h E K _ ag HE HK10 HA) as [(Hz1 & Hz3 & E2)|(c2 & E2 & H2)].
  - left. rewrite Hz1 in Z1. rewrite Hz3 in Z3. cbn [agg_0 sz1 sz3] in Z1, Z3. split_and!.
    + rewrite <- (Zmod.add_0_l (weighted_sum q_mu wqs)). by rewrite <- Z1.
    + rewrite <- (Zmod.add_0_l (weighted_sum z3_of wqs)). by rewrite <- Z3.
    + rewrite EV, E2. by destruct (recognised c1).
  - right. exists c2. rewrite sum2_all in H2 by exact HK'.
    assert (sum2 eta g h K agg_0 + weighted_sum (equation2 eta g h) wqs = weighted_sum (equation2 eta g h) wqs) as Es2.
    { unfold sum2, agg_0. cbn [sz3 sz1 sZ0 sZ2 sz4 sz5]. rewrite !(fsum_zero K) by (intros; ring). ring. }
    rewrite Es2 in H2. split; [exact H2|]. rewrite EV, E2. by destruct (recognised c1).
Qed.
End verifier.
