(* ===== verification/BulletproofsProve.v ===== *)
(** * The prover of bulletproofs

    For amounts below [2^64] and any masks, a proof that [bulletproof_PROVE]
    returns satisfies the two equations that [bulletproof_VERIFY] checks. *)

From Stdlib Require Import Zmod.Zmod Field.
From S2P Require Export BulletproofsVerify BorromeanSpec MlsagSpec.

#[local] Open Scope Zmod_scope.

Add Field FL_field_p : FL_field_theory.

(** ** Amounts and their bits *)

Lemma le_split_vec n v :
  le_split n v = vec n (λ i, Z.land (Z.shiftr v (8 * Z.of_nat i)) 255).
Proof.
  revert v. induction n as [|n IH]; intros v; [done|]. rewrite vec_S. cbn [le_split]. f_equal.
  - change 255%Z with (Z.ones 8). by rewrite Z.land_ones, Z.shiftr_0_r by lia.
  - rewrite IH. apply vec_ext. intros i _. f_equal.
    change 256%Z with (2 ^ 8)%Z. rewrite <- Z.shiftr_div_pow2, Z.shiftr_shiftr by lia. f_equal. lia.
Qed.

Lemma v_key_f v : (0 ≤ v < 2 ^ 64)%Z → v_key v = fkey (Zmod.of_Z L v).
Proof.
  intros Hv. rewrite <- to_scalar_fkey. unfold to_scalar.
  rewrite Z.mod_small by (pose proof L_range; lia).
  rewrite <- (padded_number 8) by (change (256 ^ Z.of_nat 8)%Z with (2 ^ 64)%Z; lia).
  by rewrite le_split_vec.
Qed.

Definition bit (v : Z) (i : nat) : FL := if Z.testbit v (Z.of_nat i) then 1 else 0.

Lemma bit_key_f v i : (i < 64)%nat → (0 ≤ v < 2 ^ 64)%Z → bit_key (v_key v) i = fkey (bit v i).
Proof.
  intros Hi Hv. rewrite v_key_f by exact Hv.
  pose proof (test_ok (fkey (Zmod.of_Z L v)) i (scalar_bytes32 _ (fkey_scalar _))) as E.
  rewrite le_combine_fkey, Zmod.to_Z_of_Z, Z.mod_small in E by (pose proof L_range; lia).
  unfold test in E. rewrite (proj2 (Nat.leb_gt 256 i)) in E by lia.
  unfold bit_key, bit. rewrite <- E. by destruct (_ =? 0)%Z.
Qed.

(** The value of the bits *)
Lemma bits_value v : (0 ≤ v < 2 ^ 64)%Z → fsum 64 (λ i, bit v i * fpow two i) = Zmod.of_Z L v.
Proof.
  intros Hv.
  assert (∀ n, fsum n (λ i, bit v i * fpow two i) = Zmod.of_Z L (v mod 2 ^ Z.of_nat n)) as E.
  { induction n as [|n IH]; [by rewrite Z.mod_1_r|]. rewrite fsum_last, IH, mod_pow2_succ, Zmod.of_Z_add.
    f_equal. assert (∀ m, fpow two m = Zmod.of_Z L (2 ^ Z.of_nat m)) as E2.
    { clear. induction m as [|m IH]; [done|]. cbn [fpow]. rewrite IH, Nat2Z.inj_succ, Z.pow_succ_r, Zmod.of_Z_mul by lia.
      done. }
    rewrite E2. unfold bit. destruct (Z.testbit v (Z.of_nat n)); cbn [Z.b2z].
    - rewrite Z.mul_1_l. ring.
    - rewrite Z.mul_0_l, Zmod.of_Z_0. ring. }
  rewrite E. f_equal. apply Z.mod_small. exact Hv.
Qed.

(** The bits of amount [i / 64], and no bit beyond the amounts *)
Definition bits (vs : list Z) (i : nat) : FL :=
  match vs !! (i / 64)%nat with Some v => bit v (i mod 64) | None => 0 end.

Lemma bits_keys_f M vs :
  Forall (λ v, 0 ≤ v < 2 ^ 64)%Z vs → bits_keys M (map v_key vs) = svec (M * 64) (bits vs).
Proof.
  intros HF. unfold bits_keys.
  assert (∀ j n, (seq j n ≫= λ j, match map v_key vs !! j with Some k => bits_key k | None => replicate bpN zero end) =
    svec (n * 64) (λ i, bits vs (j * 64 + i)%nat)) as E; [|exact (E 0%nat M)].
  intros j n. revert j. induction n as [|n IH]; intros j; [done|]. cbn [seq mbind list_bind Nat.mul].
  unfold svec. rewrite vec_app. f_equal.
  - rewrite list_lookup_fmap. unfold bits.
    assert (∀ i, (i < 64)%nat → ((j * 64 + i) / 64 = j)%nat ∧ ((j * 64 + i) mod 64 = i)%nat) as Hdm.
    { intros i Hi. rewrite Nat.add_comm. split.
      - rewrite Nat.div_add, Nat.div_small by lia. lia.
      - rewrite Nat.Div0.mod_add, Nat.mod_small by lia. lia. }
    destruct (vs !! j) as [v|] eqn:Ev; cbn [fmap option_fmap option_map].
    + apply vec_ext. intros i Hi. destruct (Hdm i Hi) as [-> ->]. rewrite Ev.
      apply bit_key_f; [exact Hi|]. exact (Forall_lookup_1 _ _ _ _ HF Ev).
    + etransitivity; [exact (vector_dup_f 64 0)|]. apply vec_ext. intros i Hi. destruct (Hdm i Hi) as [-> _]. by rewrite Ev.
  - etransitivity; [exact (IH (S j))|]. apply vec_ext. intros i _. f_equal. f_equal. lia.
Qed.

Lemma minus_identity_f n f : minus_identity (svec n f) = Some (svec n (λ i, f i - 1)).
Proof. unfold minus_identity. rewrite (mapM_svec _ (λ a, a - 1)); [done|]. intros a. rewrite one_fkey. apply sc_sub_f. Qed.

(** ** Commitments *)

Lemma times8_f {A} (f : A → FL) l : times8 ((λ x, pkey (inv8 * f x)) <$> l) = Ret ((λ x, pkey (f x)) <$> l).
Proof.
  induction l as [|a l IH]; [done|]. rewrite !fmap_cons. cbn [times8].
  rewrite scalarmult8_p. replace (Zmod.of_Z L 8 * (inv8 * f a)) with (f a).
  2:{ transitivity (inv8 * Zmod.of_Z L 8 * f a); [rewrite inv8_8; ring|ring]. }
  rewrite (bind_ret _ _ _ eq_refl). by rewrite IH.
Qed.

Lemma scalarmult8_inv8 c : scalarmult8 (pkey (inv8 * c)) = Ret (pkey c).
Proof.
  rewrite scalarmult8_p. apply (f_equal (λ x, Ret (pkey x))).
  transitivity (inv8 * Zmod.of_Z L 8 * c); [ring|rewrite inv8_8; ring].
Qed.

Section prover.
Context {F : FastHash} {FL' : FastHashLaws F} {RH : RctHash} {RHL : RctHashLaws F RH}.
Context {BN : BigNum} {BNL : BigNumLaws BN}.
Context {G : Type} {R : Rng G} {RL : RngLaws R}.
Context (eta : FL) (Heta : H25519 = fpoint eta).
Context (g h : nat → FL) (E : exponents) (HE : exponents_are g h E).

Lemma commit8_f gam v : commit8 (fkey gam) (fkey v) = Ret (pkey (inv8 * (gam + v * eta))).
Proof.
  unfold commit8. rewrite rct_H_ok.
  rewrite addKeys2_ok by (try apply fkey_255; rewrite Heta; auto with edwards).
  rewrite (bind_ret _ _ _ eq_refl). rewrite !le_combine_fkey, Heta, fpoint_to_Z.
  change (mulG (Zmod.to_Z gam)) with (fpoint gam). rewrite <- fpoint_add, INV_EIGHT_f.
  exact (scalarmultKey_p inv8 (gam + v * eta)).
Qed.

Lemma commit_vectors_f n a b c :
  (n ≤ 1024)%nat →
  commit_vectors E (svec n a) (svec n b) (fkey c) =
    Ret (pkey (inv8 * (fsum n (λ i, a i * g i) + fsum n (λ i, b i * h i) + c))).
Proof.
  intros Hn. unfold commit_vectors. step_ret (vector_exponent_f g h E HE n a b Hn).
  step_run (scalarmultBase_p c). step_ret (addKeys_p (fsum n (λ i, a i * g i) + fsum n (λ i, b i * h i)) c).
  rewrite INV_EIGHT_f. apply scalarmultKey_p.
Qed.

Lemma commit_t_f t tau : commit_t (fkey t) (fkey tau) = Ret (pkey (inv8 * (t * eta + tau))).
Proof.
  unfold commit_t. step_run (scalarmultH_p eta Heta t). step_run (scalarmultBase_p tau).
  step_ret (addKeys_p (t * eta) tau). rewrite INV_EIGHT_f. apply scalarmultKey_p.
Qed.

Lemma hprime_loop_f Hs (f : nat → FL) y p :
  (∀ i P, Hs !! i = Some P → p3_is (fpoint (f i)) P) →
  hprime_loop Hs (fkey y) (fkey p) = Some (pvec (length Hs) (λ i, fpow y i * p * f i)).
Proof.
  revert f p. induction Hs as [|P Hs IH]; intros f p HH; [done|]. cbn [hprime_loop length].
  assert (scalarmultKey_p3 P (fkey p) = Some (pkey (p * f O))) as E1.
  { unfold scalarmultKey_p3.
    destruct (ge_scalarmult_ok _ P (fkey p) (HH O P eq_refl) (fkey_255 p)) as (r & Er & Hr). step Er.
    rewrite (ge_tobytes_ok _ _ Hr), le_combine_fkey, fpoint_to_Z. done. }
  step E1. step (sc_mul_f p y). rewrite (IH (λ i, f (S i))) by (intros i Q HQ; exact (HH (S i) Q HQ)).
  rewrite (bind_some _ _ _ eq_refl). rewrite pvec_S. apply (f_equal Some). f_equal.
  - apply (f_equal pkey). cbn [fpow]. ring.
  - apply vec_ext. intros i _. apply (f_equal pkey). cbn [fpow]. ring.
Qed.

Lemma take_svec n m f : (n ≤ m)%nat → take n (svec m f) = svec n f.
Proof. intros H. replace m with (n + (m - n))%nat by lia. apply take_vec. Qed.
Lemma take_pvec n m f : (n ≤ m)%nat → take n (pvec m f) = pvec n f.
Proof. intros H. replace m with (n + (m - n))%nat by lia. apply take_vec. Qed.

Lemma prove_rounds_f k xi hc y l r :
  (2 ^ k ≤ 1024)%nat → y ≠ 0 →
  let m := (2 ^ k)%nat in
  prove_rounds E k m (fkey y) (fkey xi) hc (svec m l) (svec m r) =
    ip_rounds k E (fkey xi) hc m (pvec m g) (pvec m (λ i, fpow (Zmod.inv y) i * h i)) (svec m l) (svec m r).
Proof.
  intros Hk Hy m. fold m in Hk. unfold prove_rounds. step_ret (invert_f y Hy).
  rewrite (ea_Gi _ _ _ HE), length_pvec, (proj2 (Nat.leb_le _ _) Hk), take_pvec by exact Hk.
  rewrite (bind_run _ _ _ eq_refl). destruct (ea_Hi_p3 _ _ _ HE) as [HL HH].
  rewrite HL, (proj2 (Nat.leb_le _ _) Hk). rewrite (bind_run _ _ _ eq_refl).
  rewrite one_fkey, (hprime_loop_f (take m (ex_Hi_p3 E)) h).
  2:{ intros i P HP. apply HH. apply lookup_take_Some in HP as [HP _]. exact HP. }
  rewrite (bind_run _ _ _ eq_refl). rewrite length_take, HL, Nat.min_l by exact Hk.
  rewrite !length_svec, (proj2 (Nat.leb_le m m)), !take_svec by lia. rewrite !(bind_run _ _ _ eq_refl).
  f_equal. apply vec_ext. intros i _. apply (f_equal pkey). ring.
Qed.

(** ** The polynomials *)

Lemma check_true {A} (b : bool) (k : outcome A) : b = true → (_ ← throw_unless b; k) = k.
Proof. by intros ->. Qed.

(** [zero_twos]: the powers of two, times the power of [z] of the value *)
Definition zt (z : FL) (i : nat) : FL := fpow z (2 + i / 64) * fpow two (i mod 64).

Lemma zero_two_f n j i m z acc :
  (1 ≤ j)%nat → (n + j < m)%nat →
  zero_two n j i (svec m (fpow z)) (svec 64 (fpow two)) (fkey acc) =
    Ret (fkey (acc + if ((j <=? S (i / 64)) && (S (i / 64) <? j + n))%nat then zt z i else 0)).
Proof.
  revert j acc. induction n as [|n IH]; intros j acc Hj Hm.
  { cbn [zero_two]. apply (f_equal (λ x, Ret (fkey x))).
    destruct (Nat.leb_spec j (S (i / 64))), (Nat.ltb_spec (S (i / 64)) (j + 0)); try lia; cbn [andb]; ring. }
  pose proof (Nat.div_mod_eq i 64) as Ei. pose proof (Nat.mod_upper_bound i 64 ltac:(lia)) as Hb.
  cbn [zero_two]. change bpN with 64%nat.
  destruct (decide (j = S (i / 64))) as [Ej|Nj].
  - rewrite (proj2 (Nat.leb_le ((j - 1) * 64) i)) by lia. rewrite (proj2 (Nat.ltb_lt i (j * 64))) by lia. cbv iota. cbn [andb].
    rewrite !length_svec, !check_true by (apply Nat.ltb_lt; lia).
    rewrite !svec_lookup_total by lia.
    replace (i - (j - 1) * 64)%nat with (i mod 64) by lia. replace (1 + j)%nat with (2 + i / 64)%nat by lia.
    step_run (sc_muladd_f (fpow z (2 + i / 64)) (fpow two (i mod 64)) acc). fold (zt z i). rewrite IH by lia.
    apply (f_equal (λ x, Ret (fkey x))).
    destruct (Nat.leb_spec (S j) (S (i / 64))), (Nat.ltb_spec (S (i / 64)) (S j + n)),
      (Nat.leb_spec j (S (i / 64))), (Nat.ltb_spec (S (i / 64)) (j + S n)); try lia; cbn [andb]; ring.
  - replace (((j - 1) * 64 <=? i) && (i <? j * 64))%nat with false.
    2:{ destruct (Nat.leb_spec ((j - 1) * 64) i), (Nat.ltb_spec i (j * 64)); try done; lia. }
    rewrite IH by lia. apply (f_equal (λ x, Ret (fkey x))).
    destruct (Nat.leb_spec (S j) (S (i / 64))), (Nat.ltb_spec (S (i / 64)) (S j + n)),
      (Nat.leb_spec j (S (i / 64))), (Nat.ltb_spec (S (i / 64)) (j + S n)); try lia; cbn [andb]; ring.
Qed.

Lemma zero_twos_f n i M z :
  (i + n ≤ M * 64)%nat →
  zero_twos n i M (svec (M + 2) (fpow z)) (svec 64 (fpow two)) = Ret (svec n (λ k, zt z (i + k))).
Proof.
  revert i. induction n as [|n IH]; intros i Hi; [done|]. cbn [zero_twos]. rewrite zero_fkey.
  assert (i / 64 < M)%nat by (apply Nat.div_lt_upper_bound; lia).
  rewrite zero_two_f by lia. rewrite (bind_ret _ _ _ eq_refl), IH by lia. rewrite (bind_ret _ _ _ eq_refl), svec_S.
  apply (f_equal Ret). f_equal.
  - rewrite (proj2 (Nat.leb_le 1 (S (i / 64)))) by lia. rewrite (proj2 (Nat.ltb_lt (S (i / 64)) (1 + M))) by lia.
    cbn [andb]. rewrite Nat.add_0_r. apply (f_equal fkey). ring.
  - apply vec_ext. intros k _. do 2 f_equal. lia.
Qed.

Lemma taux_loop_f n j m z gam acc :
  (j + n < m)%nat →
  taux_loop j (svec m (fpow z)) (svec n gam) (fkey acc) =
    Ret (fkey (acc + fsum n (λ i, fpow z (i + (j + 1)) * gam i))).
Proof.
  revert j gam acc. induction n as [|n IH]; intros j gam acc Hm.
  { cbn [fsum]. apply (f_equal (λ x, Ret (fkey x))). ring. }
  rewrite svec_S. cbn [taux_loop]. rewrite length_svec, check_true by (apply Nat.ltb_lt; lia).
  rewrite svec_lookup_total by lia.
  step_run (sc_muladd_f (fpow z (j + 1)) (gam O) acc). rewrite IH by lia.
  apply (f_equal (λ x, Ret (fkey x))). cbn [fsum].
  rewrite (fsum_ext n (λ i, fpow z (S i + (j + 1)) * gam (S i)) (λ i, fpow z (i + (S j + 1)) * gam (S i)))
    by (intros i _; do 2 f_equal; lia).
  change (0 + (j + 1))%nat with (j + 1)%nat.
  generalize (fsum n (λ i, fpow z (i + (S j + 1)) * gam (S i))) (fpow z (j + 1)). intros f1 f2. ring.
Qed.

Definition l0_of (aL : nat → FL) (z : FL) (i : nat) : FL := aL i - z.
Definition r0_of (aL : nat → FL) (y z : FL) (i : nat) : FL := (aL i - 1 + z) * fpow y i + zt z i.

(** The constant term of the inner product, for bits [aL] *)
Lemma constant_term M vs y z :
  (length vs ≤ M)%nat → Forall (λ v, 0 ≤ v < 2 ^ 64)%Z vs →
  fsum (M * 64) (λ i, l0_of (bits vs) z i * r0_of (bits vs) y z i) =
    z * fsum (M * 64) (fpow y) + (- (fpow z 2 * fsum (M * 64) (fpow y)) -
      fsum M (λ j, fpow z (j + 3)) * fsum 64 (fpow two)) +
    fsum (length vs) (λ j, fpow z (j + 2) * Zmod.of_Z L (vs !!! j)).
Proof.
  intros HM HF.
  assert (∀ i, bits vs i * bits vs i = bits vs i) as Hb.
  { intros i. unfold bits, bit. destruct (vs !! _) as [v|]; [|ring]. destruct (Z.testbit _ _); ring. }
  rewrite (fsum_ext _ _ (λ i, (z - fpow z 2) * fpow y i + (bits vs i * zt z i - z * zt z i))).
  2:{ intros i _. unfold l0_of, r0_of. change (fpow z 2) with (z * (z * 1)).
      generalize (Hb i). generalize (bits vs i) (fpow y i) (zt z i). intros b p t Hbb. ring [Hbb]. }
  rewrite <- fsum_add, <- fsum_sub, <- !fsum_mul.
  assert (fsum (M * 64) (zt z) = fsum M (λ j, fpow z (j + 2)) * fsum 64 (fpow two)) as E1.
  { rewrite fsum_blocks. rewrite (Zmod.mul_comm (fsum M _)), fsum_mul. apply fsum_ext. intros j _.
    rewrite Zmod.mul_comm, fsum_mul. apply fsum_ext. intros i Hi. unfold zt.
    rewrite Nat.div_add_l, Nat.div_small by lia. rewrite (Nat.add_comm (j * 64)), Nat.Div0.mod_add, Nat.mod_small by lia.
    do 2 f_equal. lia. }
  assert (fsum (M * 64) (λ i, bits vs i * zt z i) =
    fsum (length vs) (λ j, fpow z (j + 2) * Zmod.of_Z L (vs !!! j))) as E2.
  { rewrite fsum_blocks. replace M with (length vs + (M - length vs))%nat by lia. rewrite fsum_split.
    rewrite (fsum_zero (M - length vs)).
    2:{ intros j _. apply fsum_zero. intros i Hi. unfold bits. rewrite Nat.div_add_l, Nat.div_small by lia.
        rewrite lookup_ge_None_2 by lia. ring. }
    rewrite Zmod.add_0_r. apply fsum_ext. intros j Hj. unfold bits, zt.
    destruct (lookup_lt_is_Some_2 vs j Hj) as [v Ev]. rewrite (list_lookup_total_correct _ _ _ Ev).
    rewrite <- bits_value by exact (Forall_lookup_1 _ _ _ _ HF Ev). rewrite fsum_mul. apply fsum_ext. intros i Hi.
    rewrite Nat.div_add_l, Nat.div_small, Nat.add_0_r, Ev by lia.
    rewrite (Nat.add_comm (j * 64)), Nat.Div0.mod_add, Nat.mod_small by lia.
    replace (2 + j)%nat with (j + 2)%nat by lia. ring. }
  rewrite E1, E2.
  assert (fsum M (λ j, fpow z (j + 3)) = z * fsum M (λ j, fpow z (j + 2))) as E3.
  { rewrite fsum_mul. apply fsum_ext. intros j _. by rewrite Nat.add_succ_r. }
  rewrite E3.
  generalize (fsum (M * 64) (fpow y)) (fsum M (λ j, fpow z (j + 2))) (fsum 64 (fpow two))
    (fsum (length vs) (λ j, fpow z (j + 2) * Zmod.of_Z L (vs !!! j))) (fpow z 2).
  intros f1 f2 f3 f4 f5. ring.
Qed.

(** ** What a proof contains *)

(** The prover's secrets and the challenges *)
Record secrets := {
  p_vs : list Z; p_gamma : nat → FL; p_k : nat;
  p_alpha : FL; p_rho : FL; p_tau1 : FL; p_tau2 : FL; p_sL : nat → FL; p_sR : nat → FL;
  p_y : FL; p_z : FL; p_x : FL
}.

Definition p_MN (p : secrets) : nat := (2 ^ p_k p * 64)%nat.
Definition p_l0 (p : secrets) : nat → FL := l0_of (bits (p_vs p)) (p_z p).
Definition p_r0 (p : secrets) : nat → FL := r0_of (bits (p_vs p)) (p_y p) (p_z p).
Definition p_r1 (p : secrets) (i : nat) : FL := fpow (p_y p) i * p_sR p i.
Definition p_t1 (p : secrets) : FL :=
  fsum (p_MN p) (λ i, p_l0 p i * p_r1 p i) + fsum (p_MN p) (λ i, p_sL p i * p_r0 p i).
Definition p_t2 (p : secrets) : FL := fsum (p_MN p) (λ i, p_sL p i * p_r1 p i).
Definition p_l (p : secrets) (i : nat) : FL := p_l0 p i + p_sL p i * p_x p.
Definition p_r (p : secrets) (i : nat) : FL := p_r0 p i + p_r1 p i * p_x p.
Definition p_t (p : secrets) : FL := fsum (p_MN p) (λ i, p_l p i * p_r p i).
Definition p_V (p : secrets) (j : nat) : FL := p_gamma p j + Zmod.of_Z L (p_vs p !!! j) * eta.
Definition p_taux (p : secrets) : FL :=
  p_tau2 p * (p_x p * p_x p) + p_tau1 p * p_x p +
    fsum (length (p_vs p)) (λ j, fpow (p_z p) (j + 2) * p_gamma p j).
Definition p_mu (p : secrets) : FL := p_x p * p_rho p + p_alpha p.
Definition p_A (p : secrets) : FL :=
  fsum (p_MN p) (λ i, bits (p_vs p) i * g i) + fsum (p_MN p) (λ i, (bits (p_vs p) i - 1) * h i) + p_alpha p.
Definition p_S (p : secrets) : FL :=
  fsum (p_MN p) (λ i, p_sL p i * g i) + fsum (p_MN p) (λ i, p_sR p i * h i) + p_rho p.

Definition p_view (p : secrets) (xi a b : FL) (ws ls rs : list FL) : view := {|
  q_n := length (p_vs p); q_logM := p_k p; q_V := p_V p; q_A := p_A p; q_S := p_S p;
  q_T1 := p_t1 p * eta + p_tau1 p; q_T2 := p_t2 p * eta + p_tau2 p;
  q_taux := p_taux p; q_mu := p_mu p; q_a := a; q_b := b; q_t := p_t p;
  q_ls := ls; q_rs := rs; q_y := p_y p; q_z := p_z p; q_x := p_x p; q_xi := xi; q_ws := ws
|}.

Lemma p_t_expand p :
  p_t p = fsum (p_MN p) (λ i, p_l0 p i * p_r0 p i) + p_x p * p_t1 p + p_x p * p_x p * p_t2 p.
Proof.
  unfold p_t, p_t1, p_t2. rewrite fsum_add, !fsum_mul. repeat rewrite fsum_add. apply fsum_ext. intros i _.
  unfold p_l, p_r. ring.
Qed.

Lemma p_equation1 p xi a b ws ls rs :
  (length (p_vs p) ≤ 2 ^ p_k p)%nat → Forall (λ v, 0 ≤ v < 2 ^ 64)%Z (p_vs p) →
  equation1 eta (p_view p xi a b ws ls rs) = 0.
Proof.
  intros HM HF. unfold equation1, delta, V_sum, q_MN, q_M.
  cbn [p_view q_n q_logM q_V q_T1 q_T2 q_taux q_t q_y q_z q_x]. rewrite p_t_expand.
  unfold p_MN at 1. unfold p_l0, p_r0. rewrite (constant_term (2 ^ p_k p) _ _ _ HM HF).
  assert (fsum (length (p_vs p)) (λ j, fpow (p_z p) (j + 2) * p_V p j) =
    fsum (length (p_vs p)) (λ j, fpow (p_z p) (j + 2) * p_gamma p j) +
    eta * fsum (length (p_vs p)) (λ j, fpow (p_z p) (j + 2) * Zmod.of_Z L (p_vs p !!! j))) as ->.
  { rewrite fsum_mul, fsum_add. apply fsum_ext. intros j _. unfold p_V. ring. }
  unfold p_taux.
  generalize (fsum (2 ^ p_k p * 64) (fpow (p_y p))) (fsum (2 ^ p_k p) (λ j, fpow (p_z p) (j + 3))) (fsum 64 (fpow two))
    (fsum (length (p_vs p)) (λ j, fpow (p_z p) (j + 2) * p_gamma p j)) (fpow (p_z p) 2) (p_t1 p) (p_t2 p)
    (fsum (length (p_vs p)) (λ j, fpow (p_z p) (j + 2) * Zmod.of_Z L (p_vs p !!! j))).
  intros f1 f2 f3 f4 f5 f6 f7 f8. ring.
Qed.

Lemma p_equation2 p hc xi a b ws ls rs Ls Rs :
  p_y p ≠ 0 →
  rounds_ok hc (p_MN p) g (λ i, fpow (Zmod.inv (p_y p)) i * h i) (p_l p) (p_r p) (xi * eta) Ls Rs a b ws ls rs →
  equation2 eta g h (p_view p xi a b ws ls rs) = 0.
Proof.
  intros Hy HR. pose proof (ro_sum _ _ _ _ _ _ _ _ _ _ _ _ _ _ HR) as Es. cbv beta in Es. fold (p_t p) in Es.
  unfold equation2, z3_of. unfold q_MN, q_M.
  cbn [p_view q_n q_logM q_A q_S q_mu q_a q_b q_t q_y q_z q_x q_xi q_ws q_ls q_rs]. fold (p_MN p).
  set (N := p_MN p) in *.
  assert (fsum N (λ i, g_scalar ws a (p_z p) i * g i) =
    a * fsum N (λ i, coef (g_pairs ws) i * g i) + p_z p * fsum N g) as ->.
  { rewrite !fsum_mul, fsum_add. apply fsum_ext. intros i _. unfold g_scalar. ring. }
  assert (p_A p + p_x p * p_S p - p_mu p = fsum N (λ i, p_l p i * g i) + p_z p * fsum N g +
    fsum N (λ i, (bits (p_vs p) i - 1 + p_x p * p_sR p i) * h i)) as EA.
  { assert (fsum N (λ i, p_l p i * g i) + p_z p * fsum N g =
      fsum N (λ i, bits (p_vs p) i * g i) + p_x p * fsum N (λ i, p_sL p i * g i)) as ->.
    { rewrite !fsum_mul, !fsum_add. apply fsum_ext. intros i _. unfold p_l, p_l0, l0_of. ring. }
    assert (fsum N (λ i, (bits (p_vs p) i - 1 + p_x p * p_sR p i) * h i) =
      fsum N (λ i, (bits (p_vs p) i - 1) * h i) + p_x p * fsum N (λ i, p_sR p i * h i)) as ->.
    { rewrite !fsum_mul, !fsum_add. apply fsum_ext. intros i _. ring. }
    unfold p_A, p_S, p_mu. fold N. ring. }
  assert (fsum N (λ i, (bits (p_vs p) i - 1 + p_x p * p_sR p i) * h i) -
    fsum N (λ i, h_scalar ws b (p_y p) (p_z p) i * h i) =
    fsum N (λ i, p_r p i * (fpow (Zmod.inv (p_y p)) i * h i)) -
    b * fsum N (λ i, coef (h_pairs ws) i * (fpow (Zmod.inv (p_y p)) i * h i))) as EH.
  { rewrite !fsum_mul, !fsum_sub. apply fsum_ext. intros i _.
    unfold h_scalar, p_r, p_r0, r0_of, p_r1. fold (zt (p_z p) i). pose proof (fpow_inv (p_y p) i Hy) as Hyi.
    generalize dependent (fpow (p_y p) i). generalize (fpow (Zmod.inv (p_y p)) i).
    intros u w Hw. ring [Hw]. }
  match goal with |- ?lhs = 0 => transitivity
    ((p_t p - a * b) * xi * eta + round_sum ws ls rs + (p_A p + p_x p * p_S p - p_mu p) -
     (a * fsum N (λ i, coef (g_pairs ws) i * g i) + p_z p * fsum N g) -
     fsum N (λ i, h_scalar ws b (p_y p) (p_z p) i * h i)); [ring|] end.
  rewrite EA. revert Es EH.
  generalize (fsum N (λ i, p_l p i * g i)) (fsum N (λ i, p_r p i * (fpow (Zmod.inv (p_y p)) i * h i)))
    (fsum N (λ i, coef (g_pairs ws) i * g i)) (round_sum ws ls rs) (p_t p)
    (fsum N (λ i, coef (h_pairs ws) i * (fpow (Zmod.inv (p_y p)) i * h i)))
    (fsum N (λ i, (bits (p_vs p) i - 1 + p_x p * p_sR p i) * h i))
    (fsum N (λ i, h_scalar ws b (p_y p) (p_z p) i * h i)) (fsum N g).
  intros f1 f2 f3 f4 f5 f6 f7 f8 f9 Es EH.
  transitivity ((f1 + f2 + f5 * (xi * eta) + f4) - (a * f3 + b * f6 + a * b * (xi * eta)) +
    (f7 - f8 - (f2 - b * f6))); [ring|]. rewrite Es, EH. ring.
Qed.

(** ** An attempt *)

Definition proves (V : keyV) (proof : Bulletproof) : Prop :=
  bp_V proof = V ∧ ∃ q, view_of proof q ∧ equation1 eta q = 0 ∧ equation2 eta g h q = 0.

Section amounts.
Context (vs : list Z) (gam : nat → FL).
Context (Hn : (1 ≤ length vs ≤ 16)%nat) (Hvs : Forall (λ v, 0 ≤ v < 2 ^ 64)%Z vs).

Definition V_keys : keyV := pvec (length vs) (λ j, inv8 * (gam j + Zmod.of_Z L (vs !!! j) * eta)).

Lemma V_keys_times8 : times8 V_keys = Ret (pvec (length vs) (λ j, gam j + Zmod.of_Z L (vs !!! j) * eta)).
Proof. exact (times8_f (λ j, gam j + Zmod.of_Z L (vs !!! j) * eta) (seq 0 (length vs))). Qed.

(** The proof of an attempt that succeeds *)
Lemma attempt_proves p hc Ls Rs a b ws ls rs taux mu t A S_ T1 T2 xi :
  p_vs p = vs → p_gamma p = gam → p_k p = size_logM (length vs) →
  A = pkey (inv8 * p_A p) → S_ = pkey (inv8 * p_S p) →
  T1 = pkey (inv8 * (p_t1 p * eta + p_tau1 p)) → T2 = pkey (inv8 * (p_t2 p * eta + p_tau2 p)) →
  taux = fkey (p_taux p) → mu = fkey (p_mu p) → t = fkey (p_t p) →
  p_y p = mash [fkey (mash V_keys); A; S_] → p_z p = mash [fkey (p_y p)] →
  p_x p = mash [fkey (p_z p); fkey (p_z p); T1; T2] →
  xi = mash [fkey (p_x p); fkey (p_x p); taux; mu; t] → hc = fkey xi →
  p_y p ≠ 0 → p_z p ≠ 0 → p_x p ≠ 0 → xi ≠ 0 → length ws = (6 + p_k p)%nat →
  rounds_ok hc (p_MN p) g (λ i, fpow (Zmod.inv (p_y p)) i * h i) (p_l p) (p_r p) (xi * eta) Ls Rs a b ws ls rs →
  proves V_keys {| bp_V := V_keys; bp_A := A; bp_S := S_; bp_T1 := T1; bp_T2 := T2; bp_taux := taux; bp_mu := mu;
    bp_L := Ls; bp_R := Rs; bp_a := fkey a; bp_b := fkey b; bp_t := t |}.
Proof.
  intros Evs Egam Ek EA ES E1 E2 Et Em E3 Ey Ez Ex Exi Ehc Hy Hz Hx Hxi Hws HR.
  split; [done|]. exists (p_view p xi a b ws ls rs). destruct (size_logM_ok _ Hn) as [H4 HM].
  split; [|split].
  - pose proof (ro_ls _ _ _ _ _ _ _ _ _ _ _ _ _ _ HR) as Hls. pose proof (ro_rs _ _ _ _ _ _ _ _ _ _ _ _ _ _ HR) as Hrs.
    assert (pre_view {| bp_V := V_keys; bp_A := A; bp_S := S_; bp_T1 := T1; bp_T2 := T2; bp_taux := taux; bp_mu := mu;
      bp_L := Ls; bp_R := Rs; bp_a := fkey a; bp_b := fkey b; bp_t := t |} (p_view p xi a b ws ls rs)) as Hpre.
    { split; cbn [p_view q_n q_logM q_V q_A q_S q_T1 q_T2 q_taux q_mu q_a q_b q_t q_ls q_rs q_y q_z q_x q_xi q_ws
      bp_V bp_A bp_S bp_T1 bp_T2 bp_taux bp_mu bp_L bp_R bp_a bp_b bp_t].
      + by rewrite Evs.
      + rewrite Evs. split; [apply length_pvec|]. rewrite V_keys_times8. unfold p_V. by rewrite Evs, Egam.
      + by rewrite Evs.
      + rewrite EA. apply scalarmult8_inv8.
      + rewrite ES. apply scalarmult8_inv8.
      + rewrite E1. apply scalarmult8_inv8.
      + rewrite E2. apply scalarmult8_inv8.
      + done.
      + rewrite (ro_L _ _ _ _ _ _ _ _ _ _ _ _ _ _ HR). exact (times8_f (λ l, l) ls).
      + rewrite (ro_R _ _ _ _ _ _ _ _ _ _ _ _ _ _ HR). exact (times8_f (λ l, l) rs).
      + rewrite (ro_L _ _ _ _ _ _ _ _ _ _ _ _ _ _ HR), (ro_R _ _ _ _ _ _ _ _ _ _ _ _ _ _ HR), !length_fmap.
      split_and!; congruence.
      + exact Ey.
      + exact Ez.
      + exact Ex.
      + exact Exi. }
    split; [exact Hpre|done|]. split; [exact Hws|]. split; [exact (ro_nonzero _ _ _ _ _ _ _ _ _ _ _ _ _ _ HR)|].
    cbn [p_view q_xi q_ws bp_L bp_R]. rewrite <- Ehc. exact (ro_challenges _ _ _ _ _ _ _ _ _ _ _ _ _ _ HR).
  - apply p_equation1; [rewrite Evs, Ek; exact HM|by rewrite Evs].
  - exact (p_equation2 p hc xi a b ws ls rs Ls Rs Hy HR).
Qed.

Let k := size_logM (length vs).
Let MN := (2 ^ k * 64)%nat.

Lemma prover_sizes_ok : (k ≤ 4)%nat ∧ (length vs ≤ 2 ^ k)%nat ∧ MN = (2 ^ (k + 6))%nat ∧ (0 < MN ≤ 1024)%nat.
Proof.
  destruct (size_logM_ok _ Hn) as [H4 HM]. fold k in H4, HM.
  assert (MN = 2 ^ (k + 6))%nat as EMN by (unfold MN; rewrite Nat.pow_add_r; reflexivity).
  pose proof (Nat.pow_nonzero 2 (k + 6) ltac:(lia)).
  assert (2 ^ (k + 6) ≤ 2 ^ 10)%nat as H10 by (apply Nat.pow_le_mono_r; lia).
  split_and!; [done..|lia|]. rewrite EMN. etransitivity; [exact H10|]. apply Nat.leb_le. reflexivity.
Qed.

Lemma prove_vectors_f y z sR :
  prove_vectors (2 ^ k) MN (fkey y) (fkey z) (svec MN (bits vs)) (svec MN (λ i, bits vs i - 1)) (svec MN sR) =
    Ret (svec MN (l0_of (bits vs) z), svec MN (r0_of (bits vs) y z), svec MN (λ i, fpow y i * sR i),
         svec (2 ^ k + 2) (fpow z)).
Proof.
  unfold prove_vectors. cbv zeta. rewrite vector_dup_f. step_ret (vector_subtract_f MN (bits vs) (λ _, z)).
  step_run (vector_powers_f z (2 ^ k + 2)). step_run twoN_f.
  step_ret (zero_twos_f MN 0 (2 ^ k) z ltac:(reflexivity)).
  step_ret (vector_add_f MN (λ i, bits vs i - 1) (λ _, z)). step_run (vector_powers_f y MN).
  step_ret (hadamard_f MN (λ i, bits vs i - 1 + z) (fpow y)).
  step_ret (vector_add_f MN (λ i, (bits vs i - 1 + z) * fpow y i) (λ i, zt z (0 + i))).
  step_ret (hadamard_f MN (fpow y) sR). reflexivity.
Qed.

Lemma prove_t_f n l0 sL r0 r1 :
  prove_t (svec n l0) (svec n sL) (svec n r0) (svec n r1) =
    Ret (fkey (fsum n (λ i, l0 i * r1 i) + fsum n (λ i, sL i * r0 i)), fkey (fsum n (λ i, sL i * r1 i))).
Proof.
  unfold prove_t. step_ret (inner_product_f n l0 r1). step_ret (inner_product_f n sL r0).
  step_run (sc_add_f (fsum n (λ i, l0 i * r1 i)) (fsum n (λ i, sL i * r0 i))).
  step_ret (inner_product_f n sL r1). reflexivity.
Qed.

(** The challenges of an attempt follow from what it draws. *)
Record transcript (p : secrets) : Prop := {
  tr_vs : p_vs p = vs;
  tr_gamma : p_gamma p = gam;
  tr_k : p_k p = k;
  tr_y : p_y p = mash [fkey (mash V_keys); pkey (inv8 * p_A p); pkey (inv8 * p_S p)];
  tr_z : p_z p = mash [fkey (p_y p)];
  tr_x : p_x p = mash [fkey (p_z p); fkey (p_z p); pkey (inv8 * (p_t1 p * eta + p_tau1 p));
    pkey (inv8 * (p_t2 p * eta + p_tau2 p))]
}.

Definition p_xi (p : secrets) : FL :=
  mash [fkey (p_x p); fkey (p_x p); fkey (p_taux p); fkey (p_mu p); fkey (p_t p)].

Definition zero_challenge (p : secrets) : Prop :=
  p_y p = 0 ∨ p_z p = 0 ∨ p_x p = 0 ∨ p_xi p = 0 ∨
  prove_rounds E (k + 6) MN (fkey (p_y p)) (fkey (p_xi p)) (fkey (p_xi p)) (svec MN (p_l p)) (svec MN (p_r p)) =
    Ret (zero, None).

(** What an attempt draws *)
Definition drawn (s : G) (p : secrets) : Prop :=
  ∃ s1 s2 s3 s4 s5 s6,
    skGen s = Some (fkey (p_alpha p), s1) ∧ skvGen MN s1 = Ret (svec MN (p_sL p), s2) ∧
    skvGen MN s2 = Ret (svec MN (p_sR p), s3) ∧ skGen s3 = Some (fkey (p_rho p), s4) ∧
    skGen s4 = Some (fkey (p_tau1 p), s5) ∧ skGen s5 = Some (fkey (p_tau2 p), s6).

(** The result of an attempt: a proof, or no proof because a challenge is 0 *)
Definition attempt_result (s : G) (o : option Bulletproof) : Prop :=
  match o with
  | None => ∃ p, transcript p ∧ drawn s p ∧ zero_challenge p
  | Some proof => proves V_keys proof
  end.

Lemma prove_response_ok p :
  transcript p → p_y p ≠ 0 → p_z p ≠ 0 → p_x p ≠ 0 →
  ∃ o, prove_response E (svec (length vs) gam) V_keys (k + 6) MN (pkey (inv8 * p_A p)) (pkey (inv8 * p_S p))
      (pkey (inv8 * (p_t1 p * eta + p_tau1 p))) (pkey (inv8 * (p_t2 p * eta + p_tau2 p)))
      (fkey (p_y p)) (fkey (p_x p)) (fkey (p_tau1 p)) (fkey (p_tau2 p)) (fkey (p_rho p)) (fkey (p_alpha p))
      (svec MN (p_l0 p)) (svec MN (p_sL p)) (svec MN (p_r0 p)) (svec MN (p_r1 p)) (svec (2 ^ k + 2) (fpow (p_z p))) =
      Ret o ∧ match o with None => zero_challenge p | Some proof => proves V_keys proof end.
Proof.
  intros [Evs Egam Ek Ey Ez Ex] Hy Hz Hx. destruct prover_sizes_ok as (H4 & HM & EMN & Hpos & HMN).
  assert (p_MN p = MN) as EN by (unfold p_MN, MN; by rewrite Ek).
  unfold prove_response. step_run (sc_mul_f (p_tau1 p) (p_x p)). step_run (sc_mul_f (p_x p) (p_x p)).
  step_run (sc_muladd_f (p_tau2 p) (p_x p * p_x p) (p_tau1 p * p_x p)).
  rewrite taux_loop_f by lia. rewrite (bind_ret _ _ _ eq_refl).
  change (1 + 1)%nat with 2%nat. rewrite <- Evs, <- Egam. fold (p_taux p).
  step_run (sc_muladd_f (p_x p) (p_rho p) (p_alpha p)). fold (p_mu p).
  step_ret (vector_scalar_f MN (p_sL p) (p_x p)). step_ret (vector_add_f MN (p_l0 p) (λ i, p_sL p i * p_x p)).
  step_ret (vector_scalar_f MN (p_r1 p) (p_x p)). step_ret (vector_add_f MN (p_r0 p) (λ i, p_r1 p i * p_x p)).
  fold (p_l p). fold (p_r p). step_ret (inner_product_f MN (p_l p) (p_r p)).
  assert (fsum MN (λ i, p_l p i * p_r p i) = p_t p) as -> by (unfold p_t; by rewrite EN).
  step_run (hash_cache_mash_f (fkey (p_x p)) [fkey (p_x p); fkey (p_taux p); fkey (p_mu p); fkey (p_t p)]).
  fold (p_xi p). rewrite key_eqb_0. destruct (decide (p_xi p = 0)) as [Hxi|Hxi].
  { rewrite (bool_decide_eq_true_2 _ Hxi). exists None. split; [done|]. unfold zero_challenge. by auto. }
  rewrite (bool_decide_eq_false_2 _ Hxi). unfold zero_challenge. rewrite EMN in HMN |- *. rewrite prove_rounds_f by done.
  destruct (ip_rounds_ok eta Heta (k + 6) E (p_xi p) (fkey (p_xi p)) g (λ i, fpow (Zmod.inv (p_y p)) i * h i) (p_l p) (p_r p))
    as [Er|(hc' & Ls & Rs & a & b & ws & ls & rs & Er & Hw & HR)]; [lia|rewrite Er; exists None; by auto 6|].
  rewrite Er. eexists. split; [reflexivity|]. cbv beta iota.
  apply (attempt_proves p (fkey (p_xi p)) Ls Rs a b ws ls rs _ _ _ _ _ _ _ (p_xi p)); try done.
  - rewrite Ek. lia.
  - by rewrite EN, EMN.
Qed.

Lemma skGen_f s : rng_ok s → ∃ c s', rng_ok s' ∧ skGen s = Some (fkey c, s').
Proof.
  intros Hs. destruct (skGen_ok s Hs) as (x & s' & Hx & Hs' & E'). exists (of_key x), s'. by rewrite fkey_of_key.
Qed.

Lemma skvGen_f n s : (0 < n)%nat → rng_ok s → ∃ f s', rng_ok s' ∧ skvGen n s = Ret (svec n f, s').
Proof.
  intros H0 Hs. destruct (skvGen_ok n s H0 Hs) as (l & s' & HL & HF & Hs' & E'). destruct (scalars_svec l HF) as [f Ef].
  exists f, s'. split; [exact Hs'|]. rewrite HL in Ef. by rewrite <- Ef.
Qed.

Lemma prove_attempt_ok s :
  rng_ok s →
  ∃ o s', rng_ok s' ∧
    prove_attempt E (svec (length vs) gam) V_keys (2 ^ k) (k + 6) MN (svec MN (bits vs))
      (svec MN (λ i, bits vs i - 1)) s = Ret (o, s') ∧ attempt_result s o.
Proof.
  intros Hs. destruct prover_sizes_ok as (H4 & HM & EMN & Hpos & HMN).
  destruct (skGen_f s Hs) as (alpha & s1 & Hs1 & D1). destruct (skvGen_f MN s1 Hpos Hs1) as (sL & s2 & Hs2 & D2).
  destruct (skvGen_f MN s2 Hpos Hs2) as (sR & s3 & Hs3 & D3). destruct (skGen_f s3 Hs3) as (rho & s4 & Hs4 & D4).
  destruct (skGen_f s4 Hs4) as (tau1 & s5 & Hs5 & D5). destruct (skGen_f s5 Hs5) as (tau2 & s6 & Hs6 & D6).
  pose (p0 := λ y z x, {| p_vs := vs; p_gamma := gam; p_k := k; p_alpha := alpha; p_rho := rho;
    p_tau1 := tau1; p_tau2 := tau2; p_sL := sL; p_sR := sR; p_y := y; p_z := z; p_x := x |}).
  set (A := pkey (inv8 * p_A (p0 0 0 0))). set (S_ := pkey (inv8 * p_S (p0 0 0 0))).
  set (y := mash [fkey (mash V_keys); A; S_]). set (z := mash [fkey y]).
  destruct (ex_intro (λ t, t = p_t1 (p0 y z 0)) _ eq_refl) as [t1 Et1].
  destruct (ex_intro (λ t, t = p_t2 (p0 y z 0)) _ eq_refl) as [t2 Et2].
  set (T1 := pkey (inv8 * (t1 * eta + tau1))). set (T2 := pkey (inv8 * (t2 * eta + tau2))).
  set (x := mash [fkey z; fkey z; T1; T2]). pose (p := p0 y z x).
  assert (transcript p) as Htr.
  { split; try reflexivity. change (p_t1 p) with (p_t1 (p0 y z 0)). change (p_t2 p) with (p_t2 (p0 y z 0)).
    rewrite <- Et1, <- Et2. reflexivity. }
  assert (drawn s p) as Hd by (exists s1, s2, s3, s4, s5, s6; done).
  unfold prove_attempt.
  assert (hash_to_scalar_keyV V_keys = Some (fkey (mash V_keys))) as Eh
    by (rewrite hash_to_scalar_keyV_ok, to_scalar_fkey; done).
  rewrite (calc_step _ _ _ _ (run_some _ _ Eh)), (draw_step _ _ _ _ _ D1).
  rewrite (calc_step _ _ _ _ (commit_vectors_f MN (bits vs) (λ i, bits vs i - 1) alpha HMN)).
  rewrite (gen_bind_ret _ _ _ _ _ D2), (gen_bind_ret _ _ _ _ _ D3), (draw_step _ _ _ _ _ D4).
  rewrite (calc_step _ _ _ _ (commit_vectors_f MN sL sR rho HMN)).
  rewrite (calc_step _ _ _ _ (run_some _ _ (hash_cache_mash_f (fkey (mash V_keys)) [A; S_]))).
  fold y. rewrite key_eqb_0. destruct (decide (y = 0)) as [Hy|Hy].
  { rewrite (bool_decide_eq_true_2 _ Hy). exists None, s4. split_and!; [done..|]. exists p. unfold zero_challenge. by auto 8. }
  rewrite (bool_decide_eq_false_2 _ Hy).
  rewrite (calc_step _ _ _ _ (run_some _ _ (rct_hash_f y))).
  fold z. rewrite key_eqb_0. destruct (decide (z = 0)) as [Hz|Hz].
  { rewrite (bool_decide_eq_true_2 _ Hz). exists None, s4. split_and!; [done..|]. exists p. unfold zero_challenge. by auto 8. }
  rewrite (bool_decide_eq_false_2 _ Hz). rewrite (calc_step _ _ _ _ (prove_vectors_f y z sR)).
  rewrite (calc_step _ _ _ _ (prove_t_f MN (l0_of (bits vs) z) sL (r0_of (bits vs) y z) (λ i, fpow y i * sR i))).
  cbv beta iota. rewrite (draw_step _ _ _ _ _ D5), (draw_step _ _ _ _ _ D6).
  change (fsum MN (λ i, _ * (fpow y i * sR i)) + _) with (p_t1 (p0 y z 0)).
  change (fsum MN (λ i, sL i * (fpow y i * sR i))) with (p_t2 (p0 y z 0)). rewrite <- Et1, <- Et2.
  rewrite (commit_t_f t1 tau1), (commit_t_f t2 tau2), 2!(calc_step _ _ _ _ (eq_refl _)).
  rewrite (calc_step _ _ _ _ (run_some _ _ (hash_cache_mash_f (fkey z) [fkey z; T1; T2]))).
  fold x. rewrite key_eqb_0. destruct (decide (x = 0)) as [Hx|Hx].
  { rewrite (bool_decide_eq_true_2 _ Hx). exists None, s6. split_and!; [done..|]. exists p. unfold zero_challenge. by auto 8. }
  rewrite (bool_decide_eq_false_2 _ Hx). destruct (prove_response_ok p Htr Hy Hz Hx) as (o & Eo & Ho).
  change (p_t1 p) with (p_t1 (p0 y z 0)) in Eo. change (p_t2 p) with (p_t2 (p0 y z 0)) in Eo. rewrite <- Et1, <- Et2 in Eo.
  exists o, s6. split; [exact Hs6|]. split; [|destruct o; [exact Ho|by exists p]]. unfold calc.
  change (svec MN (l0_of (bits vs) z)) with (svec MN (p_l0 p)). change (svec MN (r0_of (bits vs) y z)) with (svec MN (p_r0 p)).
  change (svec MN (λ i, fpow y i * sR i)) with (svec MN (p_r1 p)).
  match type of Eo with ?lhs = _ => match goal with |- context [prove_response E ?a1 ?a2 ?a3 ?a4 ?a5 ?a6 ?a7 ?a8 ?a9 ?b1 ?b2 ?b3 ?b4 ?b5 ?b6 ?b7 ?b8 ?b9 ?c] =>
    change (prove_response E a1 a2 a3 a4 a5 a6 a7 a8 a9 b1 b2 b3 b4 b5 b6 b7 b8 b9 c) with lhs end end.
  by rewrite Eo.
Qed.

Lemma prove_tries_ok n s :
  rng_ok s →
  ∃ o s', rng_ok s' ∧
    prove_tries n E (svec (length vs) gam) V_keys (2 ^ k) (k + 6) MN (svec MN (bits vs))
      (svec MN (λ i, bits vs i - 1)) s = Ret (o, s') ∧ (n = O ∧ o = None ∨ attempt_result s o).
Proof.
  revert s. induction n as [|n IH]; intros s Hs; [exists None, s; by auto|].
  destruct (prove_attempt_ok s Hs) as (o & s1 & Hs1 & E1 & H1). cbn [prove_tries].
  rewrite (gen_bind_ret _ _ _ _ _ E1). destruct o as [proof|].
  { exists (Some proof), s1. by auto. }
  destruct (IH s1 Hs1) as (o & s2 & Hs2 & E2 & H2). exists o, s2. split; [done|]. split; [done|]. right.
  destruct o as [proof|]; [|exact H1]. by destruct H2 as [[_ H2]|H2].
Qed.
End amounts.

Lemma check_reduced_f n f : check_reduced (svec n f) = Ret tt.
Proof.
  revert f. induction n as [|n IH]; intros f; [done|]. rewrite svec_S. cbn [check_reduced].
  step_run (is_reduced_f (f O)). rewrite check_true by done. apply IH.
Qed.

Lemma amounts_f vs : Forall (λ v, 0 ≤ v < 2 ^ 64)%Z vs → map v_key vs = svec (length vs) (λ j, Zmod.of_Z L (vs !!! j)).
Proof.
  intros HF. etransitivity; [apply (list_vec (map v_key vs))|]. rewrite length_map. apply vec_ext. intros i Hi.
  destruct (lookup_lt_is_Some_2 vs i Hi) as [v Ev]. rewrite (list_lookup_total_correct _ _ _ Ev).
  rewrite <- v_key_f by exact (Forall_lookup_1 _ _ _ _ HF Ev). apply list_lookup_total_correct.
  change (map v_key vs) with (v_key <$> vs). by rewrite list_lookup_fmap, Ev.
Qed.

Lemma commits_f n f v :
  zip_keys commit8 (svec n f) (svec n v) = Ret (pvec n (λ j, inv8 * (f j + v j * eta))).
Proof.
  revert f v. induction n as [|n IH]; intros f v; [done|]. rewrite !svec_S, pvec_S. cbn [zip_keys].
  step_ret (commit8_f (f O) (v O)). by rewrite IH.
Qed.

Lemma bulletproof_PROVE_ok n vs gam s :
  init_exponents = Ret E → (1 ≤ length vs ≤ 16)%nat → Forall (λ v, 0 ≤ v < 2 ^ 64)%Z vs → rng_ok s →
  ∃ o s', rng_ok s' ∧ bulletproof_PROVE n vs (svec (length vs) gam) s = Ret (o, s') ∧
    (n = O ∧ o = None ∨ attempt_result vs gam s o).
Proof.
  intros EE Hn Hvs Hs. destruct (prove_tries_ok vs gam Hn Hvs n s Hs) as (o & s' & Hs' & E1 & H1).
  exists o, s'. split; [exact Hs'|]. split; [|exact H1]. unfold bulletproof_PROVE, bulletproof_PROVE_keyV.
  rewrite calc_check by (by rewrite length_svec, Nat.eqb_refl).
  rewrite (amounts_f vs Hvs), !length_svec, Nat.eqb_refl. rewrite calc_check by done.
  rewrite calc_check by (apply negb_true_iff, Nat.eqb_neq; lia).
  rewrite !check_reduced_f, EE, 3!(calc_step _ _ _ _ (eq_refl _)).
  destruct (prover_sizes_ok vs Hn) as (H4 & HM & EMN & HMN). cbv zeta.
  rewrite calc_check.
  2:{ apply Nat.leb_le. transitivity (2 ^ 4)%nat; [apply Nat.pow_le_mono_r; lia|]. apply Nat.leb_le. reflexivity. }
  rewrite (calc_step _ _ _ _ (commits_f (length vs) gam (λ j, Zmod.of_Z L (vs !!! j)))).
  rewrite <- amounts_f, bits_keys_f by exact Hvs.
  rewrite (calc_step _ _ _ _ (run_some _ _ (minus_identity_f _ (bits vs)))). exact E1.
Qed.
End prover.
