(* ===== verification/BulletproofsSpec.v ===== *)
(** * Bulletproofs: proofs verify, and what is verified

    The claims on [bulletproof_PROVE] and [bulletproof_VERIFY], with the hash
    and the generator of the development. *)

From Stdlib Require Import Zmod.Zmod Field.
From S2P Require Export BulletproofsProve.

#[local] Open Scope Zmod_scope.

Add Field FL_field_s : FL_field_theory.

(** ** An inverse modulo a number *)

(** [BN_mod_inverse] by the extended Euclidean algorithm *)
Definition euclid_inverse : BigNum := λ a n,
  let '(u, _, g) := Z.extgcd a n in if (g =? 1)%Z then Some (u mod n)%Z else None.

Lemma euclid_inverse_laws : BigNumLaws euclid_inverse.
Proof.
  intros a n Hn Ha Hg. unfold BN_mod_inverse, euclid_inverse. pose proof (Z.extgcd_correct a n) as HE.
  destruct (Z.extgcd a n) as [[u v] d]. destruct (HE u v d eq_refl) as [Hu Hd]. rewrite Hg in Hd. subst d.
  exists (u mod n)%Z. rewrite Hd. split; [done|]. split; [apply Z.mod_pos_bound; lia|].
  rewrite Zmult_mod_idemp_l. replace (u * a)%Z with (1 + - v * n)%Z by lia.
  rewrite Z.mod_add by lia. apply Z.mod_small. lia.
Qed.

Section claims.
Context {F : FastHash} {FL' : FastHashLaws F} {RH : RctHash} {RHL : RctHashLaws F RH}.
Context {BN : BigNum} {BNL : BigNumLaws BN}.
Context {G : Type} {R : Rng G} {RL : RngLaws R}.

(** ** The prover *)

(** Amounts and masks that [bulletproof_PROVE] takes *)
Record prover_input (vs : list Z) (gamma : keyV) : Prop := {
  pi_size : (1 ≤ length vs ≤ 16)%nat;
  pi_amounts : Forall (λ v, 0 ≤ v < 2 ^ 64)%Z vs;
  pi_masks : length gamma = length vs ∧ Forall scalar gamma
}.

(** A proof that [bulletproof_PROVE] returned *)
Definition honest (proof : Bulletproof) : Prop :=
  ∃ n vs gamma s s', prover_input vs gamma ∧ rng_ok s ∧ bulletproof_PROVE n vs gamma s = Ret (Some proof, s').

(** The commitments to the amounts *)
Definition commitment_keys (vs : list Z) (gamma : keyV) : keyV :=
  zip_with (λ m v, ed_encode (commitment (le_combine m) v)) gamma vs.

Lemma commitment_keys_f eta vs gam :
  H25519 = fpoint eta →
  commitment_keys vs (svec (length vs) gam) = pvec (length vs) (λ j, gam j + Zmod.of_Z L (vs !!! j) * eta).
Proof.
  intros Heta. apply list_eq. intros i. unfold commitment_keys. rewrite lookup_zip_with.
  destruct (decide (i < length vs)%nat) as [Hi|Hi].
  - destruct (lookup_lt_is_Some_2 vs i Hi) as [v Ev]. rewrite svec_lookup by exact Hi. unfold pvec.
    rewrite vec_lookup by exact Hi. rewrite Ev, (list_lookup_total_correct _ _ _ Ev). cbn [mbind option_bind].
    apply (f_equal Some). unfold pkey. f_equal. unfold commitment. rewrite le_combine_fkey, Heta, fpoint_mul.
    by rewrite fpoint_add.
  - rewrite (lookup_ge_None_2 (pvec _ _)) by (rewrite length_pvec; lia).
    rewrite (lookup_ge_None_2 (svec _ _)) by (rewrite length_svec; lia). done.
Qed.

(** The first attempt from the state [s] computes a challenge that is 0. *)
Definition attempt_fails (vs : list Z) (gamma : keyV) (s : G) : Prop :=
  ∃ eta g h E gam p, H25519 = fpoint eta ∧ init_exponents = Ret E ∧ exponents_are g h E ∧
    gamma = svec (length vs) gam ∧ transcript eta g h vs gam p ∧ drawn vs s p ∧ zero_challenge E vs p.

Lemma PROVE_throws n vs gamma s :
  prover_input vs gamma → init_exponents = Throw → bulletproof_PROVE n vs gamma s = Throw.
Proof.
  intros [Hn Hvs [HL HF]] ET. destruct (scalars_svec gamma HF) as [gam ->].
  rewrite HL. unfold bulletproof_PROVE, bulletproof_PROVE_keyV.
  rewrite calc_check by (by rewrite length_svec, Nat.eqb_refl).
  rewrite (amounts_f vs Hvs), !length_svec, Nat.eqb_refl. rewrite calc_check by done.
  rewrite calc_check by (apply negb_true_iff, Nat.eqb_neq; lia).
  rewrite !check_reduced_f, ET, 2!(calc_step _ _ _ _ (eq_refl _)). reflexivity.
Qed.

Section generators.
Context (eta : FL) (Heta : H25519 = fpoint eta) (g h : nat → FL) (E : exponents).
Context (EE : init_exponents = Ret E) (HE : exponents_are g h E).

Lemma PROVE_result n vs gamma s :
  prover_input vs gamma → rng_ok s →
  ∃ o s', rng_ok s' ∧ bulletproof_PROVE n vs gamma s = Ret (o, s') ∧
    match o with
    | None => n = O ∨ attempt_fails vs gamma s
    | Some proof => ∃ V, proves eta g h V proof ∧ times8 V = Ret (commitment_keys vs gamma)
    end.
Proof.
  intros [Hn Hvs [HL HF]] Hs. destruct (scalars_svec gamma HF) as [gam Eg]. rewrite HL in Eg. rewrite Eg.
  destruct (bulletproof_PROVE_ok eta Heta g h E HE n vs gam s EE Hn Hvs Hs) as (o & s' & Hs' & E1 & Ho).
  exists o, s'. do 2 (split; [assumption|]). destruct o as [proof|].
  - destruct Ho as [[_ Ho]|Ho]; [done|]. exists (V_keys eta vs gam). split; [exact Ho|].
    rewrite V_keys_times8. by rewrite (commitment_keys_f eta).
  - destruct Ho as [[-> _]|(p & H1 & H2 & H3)]; [by left|]. right. by exists eta, g, h, E, gam, p.
Qed.

Lemma honest_proves proof : honest proof → ∃ V, proves eta g h V proof.
Proof.
  intros (n & vs & gamma & s & s' & Hi & Hs & E1). destruct (PROVE_result n vs gamma s Hi Hs) as (o & s2 & _ & E2 & Ho).
  rewrite E1 in E2. injection E2 as <- _. destruct Ho as (V & HV & _). by exists V.
Qed.

(** ** Proofs of the prover verify *)

Lemma weighted_sum_zero (f : view → FL) wts qs :
  Forall (λ q, f q = 0) qs → weighted_sum f (zip wts qs) = 0.
Proof.
  intros HF. revert wts. induction HF as [|q qs Hq _ IH]; intros [|w wts]; try done.
  change (w * f q + weighted_sum f (zip wts qs) = 0). rewrite Hq, IH. ring.
Qed.

(** The sum of the products of scalars *)
Definition product_sum (ws ks : keyV) : Z := zsum (zip_with (λ w k, le_combine w * le_combine k)%Z ws ks).

Lemma product_sum_mu proofs qs wts :
  Forall2 view_of proofs qs → length wts = length qs →
  Zmod.of_Z L (product_sum (fkey <$> wts) (bp_mu <$> proofs)) = weighted_sum q_mu (zip wts qs).
Proof.
  intros HV. revert wts. induction HV as [|proof q proofs qs Hq _ IH]; intros [|w wts] HL; try done.
  change (Zmod.of_Z L (le_combine (fkey w) * le_combine (bp_mu proof) + product_sum (fkey <$> wts) (bp_mu <$> proofs)) =
    w * q_mu q + weighted_sum q_mu (zip wts qs)).
  rewrite Zmod.of_Z_add, IH by (cbn in HL; lia). f_equal. destruct (pv_scalars _ _ (vo_pre _ _ Hq)) as (_ & -> & _).
  by rewrite !le_combine_fkey, Zmod.of_Z_mul, !Zmod.of_Z_to_Z.
Qed.

(** [bulletproof_VERIFY] draws the weights, and computes the neutral element twice; its answer is
    whether [ge_p3_is_point_at_infinity] sees that.  When the scalar of [G] in the second sum
    is 0, the second may not have been computed. *)
Definition verifies (proofs : list Bulletproof) (r : G) : Prop :=
  ∃ ws r' c1, skvGen_loop (length proofs) r = Some (ws, r') ∧ rng_ok r' ∧ p3_is ed_zero c1 ∧
    ((product_sum ws (bp_mu <$> proofs) mod L = 0)%Z ∧
       bulletproof_VERIFY proofs r = (if recognised c1 then Undef else Ret false, r') ∨
     ∃ c2, p3_is ed_zero c2 ∧ bulletproof_VERIFY proofs r = (Ret (recognised c1 && recognised c2), r')).

Lemma proves_verify proofs r :
  Forall (λ proof, ∃ V, proves eta g h V proof) proofs → rng_ok r → verifies proofs r.
Proof.
  intros HF Hr.
  assert (∃ qs, Forall2 view_of proofs qs ∧ Forall (λ q, equation1 eta q = 0) qs ∧ Forall (λ q, equation2 eta g h q = 0) qs)
    as (qs & HV & H1 & H2).
  { induction HF as [|proof proofs (V & _ & q & Hq & E1 & E2) _ (qs & HV & H1 & H2)]; [by exists []|].
    exists (q :: qs). split_and!; by constructor. }
  destruct (bulletproof_VERIFY_f eta Heta g h E proofs qs r EE HE HV Hr) as (wts & r' & Ew & Hr' & HL & c1 & P1 & HC).
  rewrite weighted_sum_zero, fpoint_0 in P1 by exact H1.
  exists (fkey <$> wts), r', c1. split; [exact Ew|]. split; [exact Hr'|]. split; [exact P1|].
  destruct HC as [(Hm & _ & Ev)|(c2 & P2 & Ev)].
  - left. split; [|exact Ev]. rewrite <- (product_sum_mu proofs qs wts HV HL) in Hm.
    apply (f_equal Zmod.to_Z) in Hm. by rewrite Zmod.to_Z_of_Z in Hm.
  - right. exists c2. rewrite weighted_sum_zero, fpoint_0 in P2 by exact H2. by split.
Qed.
End generators.

Lemma bulletproof_roundtrip n vs gamma s others r :
  prover_input vs gamma → rng_ok s → Forall honest others → rng_ok r →
  match bulletproof_PROVE n vs gamma s with
  | Ret (Some proof, s') =>
      rng_ok s' ∧ times8 (bp_V proof) = Ret (commitment_keys vs gamma) ∧ verifies (proof :: others) r
  | Ret (None, s') => n = O ∨ attempt_fails vs gamma s
  | Throw => init_exponents = Throw
  | Undef => False
  end.
Proof.
  intros Hi Hs Ho Hr. destruct init_exponents_ok as [ET|(E & g & h & EE & HE)]; [by rewrite PROVE_throws|].
  destruct H_log as [eta Heta]. destruct (PROVE_result eta Heta g h E EE HE n vs gamma s Hi Hs) as (o & s' & Hs' & -> & HO).
  destruct o as [proof|]; [|exact HO]. destruct HO as (V & HV & EV).
  split; [exact Hs'|]. split; [by rewrite (proj1 HV)|].
  apply (proves_verify eta Heta g h E EE HE); [|exact Hr]. constructor; [by exists V|].
  eapply Forall_impl; [|exact Ho]. intros p Hp. by apply (honest_proves eta Heta g h E EE HE).
Qed.

(** ** Any proof *)

#[local] Instance FL_inhabited : Inhabited FL := populate 0.

Definition is_point (k : key) : Prop := ∃ P, on_curve P ∧ k = ed_encode P.

(** The challenges that the verifier computes *)
Definition ch_y (proof : Bulletproof) : FL := mash [fkey (mash (bp_V proof)); bp_A proof; bp_S proof].
Definition ch_z (proof : Bulletproof) : FL := mash [fkey (ch_y proof)].
Definition ch_x (proof : Bulletproof) : FL :=
  mash [fkey (ch_z proof); fkey (ch_z proof); bp_T1 proof; bp_T2 proof].
Definition ch_xi (proof : Bulletproof) : FL :=
  mash [fkey (ch_x proof); fkey (ch_x proof); bp_taux proof; bp_mu proof; bp_t proof].

(** A proof of at most 16 amounts whose points are encodings of points of the curve, whose scalars
    are reduced *)
Record proof_shape (proof : Bulletproof) : Prop := {
  ps_size : (1 ≤ length (bp_V proof) ≤ 16)%nat;
  ps_rounds : length (bp_L proof) = (6 + size_logM (length (bp_V proof)))%nat ∧
    length (bp_R proof) = (6 + size_logM (length (bp_V proof)))%nat;
  ps_points : Forall is_point ([bp_A proof; bp_S proof; bp_T1 proof; bp_T2 proof] ++
    bp_V proof ++ bp_L proof ++ bp_R proof);
  ps_scalars : Forall scalar [bp_taux proof; bp_mu proof; bp_a proof; bp_b proof; bp_t proof]
}.

(** A challenge is 0. *)
Definition zero_ch (proof : Bulletproof) : Prop :=
  ch_y proof = 0 ∨ ch_z proof = 0 ∨ ch_x proof = 0 ∨ ch_xi proof = 0 ∨
  verify_w (fkey (ch_xi proof)) (bp_L proof) (bp_R proof) = Some None.

Lemma point8 k : is_point k → ∃ c, scalarmult8 k = Ret (pkey c).
Proof. intros (P & HP & ->). destruct (scalarmult8_any P HP) as (c & _ & E). by exists c. Qed.

Lemma points8 l : Forall is_point l → ∃ cs, times8 l = Ret (pkey <$> cs) ∧ length cs = length l.
Proof.
  induction 1 as [|k l Hk _ (cs & E & HL)]; [by exists []|]. destruct (point8 k Hk) as [c Ec].
  exists (c :: cs). cbn [times8 length]. rewrite Ec, E, HL. done.
Qed.

Lemma verify_w_f hc Ls Rs :
  length Ls = length Rs →
  verify_w hc Ls Rs = Some None ∨
  ∃ ws, verify_w hc Ls Rs = Some (Some (fkey <$> ws)) ∧ length ws = length Ls ∧ Forall (λ w, w ≠ 0) ws.
Proof.
  revert hc Rs. induction Ls as [|l Ls IH]; intros hc [|r Rs] HL; try done; [right; by exists []|].
  cbn [verify_w]. rewrite hash_cache_mash_f. set (w := mash _). rewrite (bind_some _ _ _ eq_refl), key_eqb_0.
  destruct (decide (w = 0)) as [Hw|Hw]; [left; by rewrite (bool_decide_eq_true_2 _ Hw)|].
  rewrite (bool_decide_eq_false_2 _ Hw).
  destruct (IH (fkey w) Rs ltac:(cbn in HL; lia)) as [E|(ws & E & HLw & HF)]; [left; by rewrite E|right].
  exists (w :: ws). rewrite E. split; [done|]. split; [cbn [length]; by rewrite HLw|]. by constructor.
Qed.

Lemma shape_pre proof ws : proof_shape proof →
  ∃ q, pre_view proof q ∧ q_ws q = ws ∧ q_y q = ch_y proof ∧ q_z q = ch_z proof ∧ q_x q = ch_x proof ∧ q_xi q = ch_xi proof.
Proof.
  intros [Hn [HL HR] HP HS].
  apply Forall_app in HP as [HP4 [HPV [HPL HPR]%Forall_app]%Forall_app].
  apply Forall_cons_1 in HP4 as [HA HP4]. apply Forall_cons_1 in HP4 as [HS_ HP4].
  apply Forall_cons_1 in HP4 as [HT1 HP4]. apply Forall_cons_1 in HP4 as [HT2 _].
  apply Forall_cons_1 in HS as [S1 HS]. apply Forall_cons_1 in HS as [S2 HS]. apply Forall_cons_1 in HS as [S3 HS].
  apply Forall_cons_1 in HS as [S4 HS]. apply Forall_cons_1 in HS as [S5 _].
  destruct (point8 _ HA) as [A EA], (point8 _ HS_) as [S_ ES], (point8 _ HT1) as [T1 E1], (point8 _ HT2) as [T2 E2].
  destruct (points8 _ HPV) as (cs & EV & HLV), (points8 _ HPL) as (ls & EL & HLl), (points8 _ HPR) as (rs & ER & HLr).
  exists {| q_n := length (bp_V proof); q_logM := size_logM (length (bp_V proof)); q_V := λ j, cs !!! j;
    q_A := A; q_S := S_; q_T1 := T1; q_T2 := T2; q_taux := of_key (bp_taux proof); q_mu := of_key (bp_mu proof);
    q_a := of_key (bp_a proof); q_b := of_key (bp_b proof); q_t := of_key (bp_t proof); q_ls := ls; q_rs := rs;
    q_y := ch_y proof; q_z := ch_z proof; q_x := ch_x proof; q_xi := ch_xi proof; q_ws := ws |}.
  split; [|done].
  split; cbn [q_n q_logM q_V q_A q_S q_T1 q_T2 q_taux q_mu q_a q_b q_t q_ls q_rs q_y q_z q_x q_xi q_ws]; try done.
  - split; [done|]. rewrite EV. apply (f_equal Ret). unfold pvec. rewrite <- HLV.
    rewrite (list_vec cs) at 1. unfold vec. change (fmap pkey) with (map pkey). rewrite map_map. done.
  - by rewrite !fkey_of_key.
  - split_and!; congruence.
Qed.

Lemma early_reject E proof logM wt ag :
  ch_y proof = 0 ∨ ch_z proof = 0 ∨ ch_x proof = 0 ∨ ch_xi proof = 0 →
  verify_proof E proof logM wt ag = Ret None.
Proof.
  intros H0. unfold verify_proof. step_run (hash_to_scalar_keyV_ok (bp_V proof)). rewrite to_scalar_fkey. fold (mash (bp_V proof)).
  step_run (hash_cache_mash_f (fkey (mash (bp_V proof))) [bp_A proof; bp_S proof]). fold (ch_y proof). rewrite key_eqb_0.
  destruct (decide (ch_y proof = 0)) as [Hy|Hy]; [by rewrite (bool_decide_eq_true_2 _ Hy)|].
  rewrite (bool_decide_eq_false_2 _ Hy). step_run (rct_hash_f (ch_y proof)). fold (ch_z proof). rewrite key_eqb_0.
  destruct (decide (ch_z proof = 0)) as [Hz|Hz]; [by rewrite (bool_decide_eq_true_2 _ Hz)|].
  rewrite (bool_decide_eq_false_2 _ Hz).
  step_run (hash_cache_mash_f (fkey (ch_z proof)) [fkey (ch_z proof); bp_T1 proof; bp_T2 proof]).
  fold (ch_x proof). rewrite key_eqb_0.
  destruct (decide (ch_x proof = 0)) as [Hx|Hx]; [by rewrite (bool_decide_eq_true_2 _ Hx)|].
  rewrite (bool_decide_eq_false_2 _ Hx).
  step_run (hash_cache_mash_f (fkey (ch_x proof)) [fkey (ch_x proof); bp_taux proof; bp_mu proof; bp_t proof]).
  fold (ch_xi proof). rewrite key_eqb_0.
  destruct (decide (ch_xi proof = 0)) as [Hxi|Hxi]; [by rewrite (bool_decide_eq_true_2 _ Hxi)|]. tauto.
Qed.

(** Either a challenge is 0 and the proof is rejected, or the verifier has a view of the proof. *)
Lemma shape_cases E proof wt K s ag :
  proof_shape proof → agg_is K s ag →
  zero_ch proof ∧ verify_proof E proof (size_logM (length (bp_V proof))) (fkey wt) ag = Ret None ∨
  ∃ q, view_of proof q.
Proof.
  intros HS HA. unfold zero_ch.
  destruct (decide (ch_y proof = 0)) as [Hy|Hy]; [left; split; [by auto|apply early_reject; by auto]|].
  destruct (decide (ch_z proof = 0)) as [Hz|Hz]; [left; split; [by auto|apply early_reject; by auto]|].
  destruct (decide (ch_x proof = 0)) as [Hx|Hx]; [left; split; [by auto|apply early_reject; by auto]|].
  destruct (decide (ch_xi proof = 0)) as [Hi|Hi]; [left; split; [by auto|apply early_reject; by auto]|].
  destruct (verify_w_f (fkey (ch_xi proof)) (bp_L proof) (bp_R proof)) as [Ew|(ws & Ew & HLw & HF)];
    [by rewrite (proj1 (ps_rounds _ HS)), (proj2 (ps_rounds _ HS))| |].
  - left. split; [by auto 6|]. destruct (shape_pre proof [] HS) as (q & Hq & _ & Ey & Ez & Ex & Exi).
    rewrite (proj1 (pv_V _ _ Hq)), (pv_logM _ _ Hq).
    destruct (verify_proof_prefix E proof q wt K s ag Hq) as (rest & Er & _); [congruence..|exact HA|].
    by rewrite Er, Exi, Ew.
  - right. destruct (shape_pre proof ws HS) as (q & Hq & Ews & Ey & Ez & Ex & Exi). exists q.
    split; [exact Hq|rewrite Ey, Ez, Ex, Exi; done|]. rewrite Ews, Exi. split; [|done].
    rewrite HLw. apply (proj1 (pv_lengths _ _ Hq)).
Qed.

Lemma shape_pres proofs : Forall proof_shape proofs → ∃ qs, Forall2 pre_view proofs qs.
Proof.
  induction 1 as [|proof proofs Hp _ [qs IH]]; [by exists []|]. destruct (shape_pre proof [] Hp) as (q & Hq & _).
  exists (q :: qs). by constructor.
Qed.

Lemma loop_cases E K proofs s ag r :
  Forall proof_shape proofs → Forall (λ proof, (2 ^ size_logM (length (bp_V proof)) * 64 ≤ K)%nat) proofs →
  agg_is K s ag → rng_ok r →
  (Exists zero_ch proofs ∧ ∃ r', verify_loop E proofs ag r = (Ret None, r')) ∨ ∃ qs, Forall2 view_of proofs qs.
Proof.
  intros HF. revert s ag r. induction HF as [|proof proofs Hp HF IH]; intros s ag r HK HA Hr; [right; by exists []|].
  apply Forall_cons_1 in HK as [HK1 HK]. destruct (skGen_f r Hr) as (wt & r1 & Hr1 & E1).
  assert (∀ o, verify_proof E proof (size_logM (length (bp_V proof))) (fkey wt) ag = Ret o →
    verify_loop E (proof :: proofs) ag r = match o with None => (Ret None, r1) | Some ag => verify_loop E proofs ag r1 end) as EL.
  { intros o Eo. cbn [verify_loop]. rewrite (proj2 (Nat.eqb_eq _ _) (proj1 (ps_rounds _ Hp))). cbn [negb].
    rewrite (drawx_step _ _ _ _ _ E1), (calcx_step _ _ _ _ Eo). by destruct o. }
  destruct (shape_cases E proof wt K s ag Hp HA) as [[H0 E0]|[q Hq]].
  { left. split; [by left|]. exists r1. exact (EL None E0). }
  destruct (verify_proof_f E proof q wt K s ag Hq) as (ag1 & Ea & HA1); [|exact HA|].
  { unfold q_MN, q_M. rewrite <- (pv_logM _ _ (vo_pre _ _ Hq)), <- (proj1 (pv_V _ _ (vo_pre _ _ Hq))). exact HK1. }
  destruct (IH _ ag1 r1 HK HA1 Hr1) as [[H0 [r' Er']]|[qs Hqs]].
  - left. split; [by right|]. exists r'. rewrite (EL (Some ag1)); [exact Er'|].
    rewrite (proj1 (pv_V _ _ (vo_pre _ _ Hq))), (pv_logM _ _ (vo_pre _ _ Hq)). exact Ea.
  - right. exists (q :: qs). by constructor.
Qed.

Lemma VERIFY_cases E proofs r :
  init_exponents = Ret E → Forall proof_shape proofs → rng_ok r →
  (Exists zero_ch proofs ∧ ∃ r', bulletproof_VERIFY proofs r = (Ret false, r')) ∨ ∃ qs, Forall2 view_of proofs qs.
Proof.
  intros EE HF Hr. destruct (shape_pres proofs HF) as [qs HV]. destruct (max_rounds_le _ _ HV) as [H10 HK].
  set (K := (2 ^ max_rounds qs)%nat) in *.
  destruct (loop_cases E K proofs agg_0 (aggregate_0 K) r HF) as [[H0 [r' Er']]|Hqs]; [| |exact Hr| |by right].
  - clear - HV HK. clearbody K. induction HV as [|proof q proofs qs' Hq _ IH]; [constructor|].
    apply Forall_cons_1 in HK as [HK1 HK]. constructor; [|by apply IH].
    unfold q_MN, q_M in HK1. rewrite <- (pv_logM _ _ Hq), <- (proj1 (pv_V _ _ Hq)) in HK1. exact HK1.
  - exact (aggregate_0_f K).
  - left. split; [exact H0|]. exists r'. unfold bulletproof_VERIFY. rewrite (calcx_step _ _ _ _ EE).
    rewrite (calcx_step _ _ _ _ (run_some _ _ (sane_loop_f proofs qs 0 HV))). rewrite Nat.max_0_l.
    rewrite (proj2 (Nat.ltb_lt (max_rounds qs) 32)) by lia. change (negb true) with false. cbv iota. fold K.
    unfold mbind, genx_bind. by rewrite Er'.
Qed.

Lemma recognised_ok P c : p3_is P c → recognised c = true → P = ed_zero.
Proof.
  intros HP Hc. destruct (infinity_cases P c HP) as [E|[_ E]]; [|exact E]. unfold recognised in Hc. by rewrite E in Hc.
Qed.

(** The answer of the verifier, from the weighted sums of the two equations *)
Definition verified (proofs : list Bulletproof) (r : G) : Prop :=
  ∃ eta g h E qs ws r' c1,
    H25519 = fpoint eta ∧ init_exponents = Ret E ∧ exponents_are g h E ∧ Forall2 view_of proofs qs ∧
    skvGen_loop (length proofs) r = Some (fkey <$> ws, r') ∧ length ws = length proofs ∧
    let sum1 := weighted_sum (equation1 eta) (zip ws qs) in
    let sum2 := weighted_sum (equation2 eta g h) (zip ws qs) in
    p3_is (fpoint sum1) c1 ∧
    (weighted_sum q_mu (zip ws qs) = 0 ∧ weighted_sum z3_of (zip ws qs) = 0 ∧
       bulletproof_VERIFY proofs r = (if recognised c1 then Undef else Ret false, r') ∨
     ∃ c2, p3_is (fpoint sum2) c2 ∧
       bulletproof_VERIFY proofs r = (Ret (recognised c1 && recognised c2), r') ∧
       (recognised c1 && recognised c2 = true → sum1 = 0 ∧ sum2 = 0)).

Lemma verify_any proofs r :
  Forall proof_shape proofs → rng_ok r →
  init_exponents = Throw ∧ bulletproof_VERIFY proofs r = (Throw, r) ∨
  (Exists zero_ch proofs ∧ ∃ r', bulletproof_VERIFY proofs r = (Ret false, r')) ∨ verified proofs r.
Proof.
  intros HF Hr. destruct init_exponents_ok as [ET|(E & g & h & EE & HE)].
  { left. split; [exact ET|]. unfold bulletproof_VERIFY. by rewrite ET. }
  right. destruct (VERIFY_cases E proofs r EE HF Hr) as [H0|[qs HV]]; [by left|right].
  destruct H_log as [eta Heta].
  destruct (bulletproof_VERIFY_f eta Heta g h E proofs qs r EE HE HV Hr) as (wts & r' & Ew & Hr' & HL & c1 & P1 & HC).
  exists eta, g, h, E, qs, wts, r', c1. do 5 (split; [assumption|]).
  split; [rewrite HL; symmetry; exact (Forall2_length HV)|]. split; [exact P1|].
  destruct HC as [HC|(c2 & P2 & Ev)]; [by left|]. right. exists c2. split; [exact P2|]. split; [exact Ev|].
  intros [R1 R2]%andb_true_iff. split; apply fpoint_inj; rewrite fpoint_0; by eapply recognised_ok.
Qed.
End claims.

(** ** The claims *)

(** C5. Proofs verify: for 1 to 16 amounts below [2^64] and masks that are
    reduced, [bulletproof_PROVE] returns a proof, unless a challenge of its
    first attempt is 0, or the generators cannot be computed.  Eight times the points
    of the proof are the commitments to the amounts with the masks, and in a batch with any
    other proofs of the prover [bulletproof_VERIFY] computes the neutral
    element for both equations, and accepts if [ge_p3_is_point_at_infinity], which compares
    limbs, recognises the two points; but when the sum of the [mu] with the weights drawn is 0
    the second point is not computed, and is read from memory that was not written. *)
Theorem bulletproof_roundtrip_spec (ND : Build) (BN : BigNum) (n : nat) (vs : list Z) (gamma : keyV)
    (s : random_state) (others : list Bulletproof) (r : random_state) :
  BigNumLaws BN → prover_input vs gamma → random_ready s → Forall honest others → random_ready r →
  match bulletproof_PROVE n vs gamma s with
  | Ret (Some proof, s') =>
      random_ready s' ∧ times8 (bp_V proof) = Ret (commitment_keys vs gamma) ∧ verifies (proof :: others) r
  | Ret (None, _) => n = O ∨ attempt_fails vs gamma s
  | Throw => init_exponents = Throw
  | Undef => False
  end.
Proof. intros HB Hi Hs Ho Hr. exact (bulletproof_roundtrip n vs gamma s others r Hi (rng_ready s Hs) Ho (rng_ready r Hr)). Qed.

(** C6. The verifier: for proofs of the right shape, [bulletproof_VERIFY]
    rejects a proof with a challenge that is 0; otherwise it
    computes the sums of the two equations of the proofs with the weights it draws,
    and accepts only if both are 0; the second sum is not computed when its scalars of
    [G] and [H] are both 0, and then the result is read from memory that was not
    written. *)
Theorem bulletproof_verify_spec (ND : Build) (BN : BigNum) (proofs : list Bulletproof) (r : random_state) :
  BigNumLaws BN → Forall proof_shape proofs → random_ready r →
  init_exponents = Throw ∧ bulletproof_VERIFY proofs r = (Throw, r) ∨
  (Exists zero_ch proofs ∧ ∃ r', bulletproof_VERIFY proofs r = (Ret false, r')) ∨ verified proofs r.
Proof. intros HB HF Hr. exact (verify_any proofs r HF (rng_ready r Hr)). Qed.

#[local] Existing Instance debug_build.

Lemma two_amounts : prover_input [7; 2 ^ 64 - 1]%Z [fkey two; fkey two].
Proof. split; [cbn; lia|repeat constructor; lia|]. split; [done|].
  constructor; [apply fkey_scalar|]. constructor; [apply fkey_scalar|constructor]. Qed.

Lemma bulletproof_roundtrip_spec_witness :
  match @bulletproof_PROVE _ _ euclid_inverse _ _ 3 [7; 2 ^ 64 - 1]%Z [fkey two; fkey two] ready_state with
  | Ret (Some proof, _) => @verifies _ _ euclid_inverse _ _ _ [proof] ready_state
  | Ret (None, _) => @attempt_fails _ _ euclid_inverse _ _ [7; 2 ^ 64 - 1]%Z [fkey two; fkey two] ready_state
  | Throw => init_exponents = Throw
  | Undef => False
  end.
Proof.
  pose proof (bulletproof_roundtrip_spec false euclid_inverse 3 [7; 2 ^ 64 - 1]%Z [fkey two; fkey two] ready_state []
    ready_state euclid_inverse_laws two_amounts ready_state_ok (Forall_nil_2 _) ready_state_ok) as HR.
  destruct (bulletproof_PROVE _ _ _ _) as [[[proof|] s']| |]; [exact (proj2 (proj2 HR))| |exact HR|exact HR].
  destruct HR as [HR|HR]; [discriminate HR|exact HR].
Defined.

(** A proof made of the neutral element and of zeros *)
Definition zero_proof : Bulletproof := {|
  bp_V := [rct_identity]; bp_A := rct_identity; bp_S := rct_identity; bp_T1 := rct_identity; bp_T2 := rct_identity;
  bp_taux := zero; bp_mu := zero; bp_L := replicate 6 rct_identity; bp_R := replicate 6 rct_identity;
  bp_a := zero; bp_b := zero; bp_t := zero
|}.

Lemma neutral_is_point : is_point rct_identity.
Proof. exists (fpoint 0). split; [auto with edwards|exact identity_pkey]. Qed.

Lemma zero_proof_shape : proof_shape zero_proof.
Proof.
  split; [cbn; lia|done| |].
  - do 4 (constructor; [exact neutral_is_point|]). constructor; [exact neutral_is_point|].
    apply Forall_app. split; apply Forall_replicate, neutral_is_point.
  - change (Forall scalar (replicate 5 zero)). rewrite zero_fkey. apply Forall_replicate, fkey_scalar.
Qed.

Lemma bulletproof_verify_spec_witness :
  init_exponents = Throw ∧ @bulletproof_VERIFY _ _ euclid_inverse _ _ [zero_proof; zero_proof] ready_state = (Throw, ready_state) ∨
  (Exists zero_ch [zero_proof; zero_proof] ∧
    ∃ r', @bulletproof_VERIFY _ _ euclid_inverse _ _ [zero_proof; zero_proof] ready_state = (Ret false, r')) ∨
  @verified _ _ euclid_inverse _ _ [zero_proof; zero_proof] ready_state.
Proof.
  apply (bulletproof_verify_spec false euclid_inverse [zero_proof; zero_proof] ready_state euclid_inverse_laws);
    [|exact ready_state_ok]. constructor; [exact zero_proof_shape|]. constructor; [exact zero_proof_shape|constructor].
Defined.
