(* ===== verification/RctSigs.v ===== *)
(** * Signatures of ring confidential transactions: [rctSigs.cpp]

    The hash that is signed, the generation of full and simple signatures with
    the three kinds of range proofs, their verification, the decoding of amounts
    and the completion of a signature by the other signers of a multisignature.
    The device is the default one. *)

From S2P Require Export PoolClients Borromean Mlsag Bulletproofs.

#[local] Open Scope Z_scope.

(** What decides how the tasks of a function that leaves are interleaved with it: the threads of the pool and the
    calling one, whether it is itself a task, and whose turn it is *)
Class Schedule := { pool_max : Z; call_depth : Z; turns : list label }.

Section rct_sigs.
Context `{FastHash} `{RctHash} `{BigNum} {G : Type} `{Rng G}.

(** ** Range proofs *)

(** The calls to the provers of [bulletproofs.cc] make at most [n] attempts; no proof
    after them is undefined here. *)
Definition attempts {A} (m : gen G (option A)) : gen G A :=
  a ← m;
  calc (run a).

(** The proof, [C] and [mask] *)
Definition proveRangeBulletproof1 (n : nat) (amount : Z) : gen G (Bulletproof * key * key) :=
  mask ← draw skGen;
  proof ← attempts (bulletproof_PROVE_amount n amount mask);
  _ ← calc (throw_unless (length (bp_V proof) =? 1)%nat);
  C ← calc (run (bp_V proof !! 0%nat));
  mret (proof, C, mask).

(** The proof, [C] and [masks] *)
Definition proveRangeBulletproof (n : nat) (amounts : list Z) : gen G (Bulletproof * keyV * keyV) :=
  masks ← skvGen (length amounts);
  proof ← attempts (bulletproof_PROVE n amounts masks);
  _ ← calc (throw_unless (length (bp_V proof) =? length amounts)%nat);
  mret (proof, bp_V proof, masks).

Definition verBulletproof (proofs : list Bulletproof) : genx G bool :=
  catchx false (bulletproof_VERIFY proofs).

Definition verBulletproof1 (proof : Bulletproof) : genx G bool :=
  catchx false (bulletproof_VERIFY_one proof).

(** ** The hash that is signed *)

(** [serialize_rctsig_base] into a binary archive: [None] returns false *)
Definition serialize_rctsig_base (rv : rctSig) (inputs outputs : nat) : option (list Z) :=
  let type := rct_type rv in
  if type =? RCTTypeNull then Some [type] else
  if negb ((type =? RCTTypeFull) || (type =? RCTTypeSimple) || (type =? RCTTypeBulletproof)) then None else
  pseudoOuts ← (
    if type =? RCTTypeSimple then
      if negb (length (rct_pseudoOuts rv) =? inputs)%nat then None else Some (mjoin (rct_pseudoOuts rv))
    else Some []);
  if negb (length (rct_ecdhInfo rv) =? outputs)%nat then None else
  if negb (length (rct_outPk rv) =? outputs)%nat then None else
  Some ([type] ++ write_varint (rct_txnFee rv) ++ pseudoOuts ++
        (rct_ecdhInfo rv ≫= λ e, ecdh_mask e ++ ecdh_amount e) ++ (rct_outPk rv ≫= ct_mask)).

(** What is hashed of a proof; [key64] has 64 entries *)
Definition bulletproof_keys (p : Bulletproof) : keyV :=
  [bp_A p; bp_S p; bp_T1 p; bp_T2 p; bp_taux p; bp_mu p] ++ bp_L p ++ bp_R p ++ [bp_a p; bp_b p; bp_t p].
Definition rangeSig_keys (r : rangeSig) : keyV :=
  bb_s0 (rs_asig r) ++ bb_s1 (rs_asig r) ++ [bb_ee (rs_asig r)] ++ rs_Ci r.

Definition get_pre_mlsag_hash (rv : rctSig) : outcome key :=
  match rct_mixRing rv with
  | [] => Throw
  | ring :: _ =>
      let inputs := if is_rct_simple (rct_type rv) then length (rct_mixRing rv) else length ring in
      let outputs := length (rct_ecdhInfo rv) in
      match serialize_rctsig_base rv inputs outputs with
      | None => Throw
      | Some ss =>
          h ← run (fast_hash ss);
          let kv :=
            if rct_type rv =? RCTTypeBulletproof then p_bulletproofs (rct_p rv) ≫= bulletproof_keys
            else p_rangeSigs (rct_p rv) ≫= rangeSig_keys in
          h2 ← run (cn_fast_hash_keyV kv);
          run (mlsag_prehash ss inputs outputs [rct_message rv; h; h2] (rct_outPk rv))
      end
  end.

(** ** Keys of the blockchain *)

(** [reference_index] is not used *)
Definition getKeyFromBlockchain : rand G ctkey :=
  mask ← pkGen;
  dest ← pkGen;
  mret {| ct_dest := dest; ct_mask := mask |}.

Fixpoint getKeysFromBlockchain (rows : nat) : rand G ctkeyV :=
  match rows with
  | O => mret []
  | S n => k ← getKeyFromBlockchain; rest ← getKeysFromBlockchain n; mret (k :: rest)
  end.

(** [for (i = 0; i <= mixin; i++)], [n] iterations from [i] *)
Fixpoint populate_loop (n i index : nat) (inPk : ctkeyV) : rand G ctkeyM :=
  match n with
  | O => mret []
  | S n' =>
      col ← (if (i =? index)%nat then mret inPk else getKeysFromBlockchain (length inPk));
      rest ← populate_loop n' (S i) index inPk;
      mret (col :: rest)
  end.

(** for [mixin] not negative *)
Definition populateFromBlockchain (inPk : ctkeyV) (mixin : nat) : rand G (ctkeyM * nat) :=
  index ← randXmrAmount (Z.of_nat mixin);
  let index := Z.to_nat index in
  rv ← populate_loop (S mixin) 0 index inPk;
  mret (rv, index).

Fixpoint populate_simple_loop (n i index : nat) (inPk : ctkey) : rand G ctkeyV :=
  match n with
  | O => mret []
  | S n' =>
      k ← (if (i =? index)%nat then mret inPk else _ ← randXmrAmount 1000; getKeyFromBlockchain);
      rest ← populate_simple_loop n' (S i) index inPk;
      mret (k :: rest)
  end.

(** [mixRing] has [mixin + 1] entries *)
Definition populateFromBlockchainSimple (inPk : ctkey) (mixin : nat) : rand G (ctkeyV * nat) :=
  index ← randXmrAmount (Z.of_nat mixin);
  let index := Z.to_nat index in
  mixRing ← populate_simple_loop (S mixin) 0 index inPk;
  mret (mixRing, index).

(** ** Generation *)

(** [outSk.resize(n)] *)
Definition resize_ct (n : nat) (outSk : ctkeyV) : ctkeyV :=
  take n outSk ++ replicate (n - length outSk) {| ct_dest := rct_Z; ct_mask := rct_Z |}.

Definition set_masks (outSk : ctkeyV) (masks : keyV) : ctkeyV :=
  zip_with (λ p m, {| ct_dest := ct_dest p; ct_mask := m |}) outSk masks.

(** [rv.ecdhInfo[i]] from the mask, the amount and the amount key *)
Definition encode_amount (mask : key) (amount : Z) (amount_key : key) : option ecdhTuple :=
  am ← d2h amount;
  ecdhEncode {| ecdh_mask := mask; ecdh_amount := am; ecdh_senderPk := rct_Z |} amount_key.

(** An output: its commitment, its mask, its range proof and the data for the receiver *)
Record out := { o_C : key; o_mask : key; o_sig : rangeSig; o_ecdh : ecdhTuple }.

(** The loop of [genRct] over the destinations *)
Fixpoint gen_outs (amounts : list Z) (amount_keys : keyV) : gen G (list out) :=
  match amounts, amount_keys with
  | amount :: amounts, k :: amount_keys =>
      '(sig, C, mask) ← proveRange amount;
      e ← calc (run (encode_amount mask amount k));
      rest ← gen_outs amounts amount_keys;
      mret ({| o_C := C; o_mask := mask; o_sig := sig; o_ecdh := e |} :: rest)
  | _, _ => mret []
  end.

Definition make_outPk (destinations Cs : keyV) : ctkeyV :=
  zip_with (λ d C, {| ct_dest := d; ct_mask := C |}) destinations Cs.

(** The signature without [MGs] *)
Definition full_sig (message : key) (destinations : keyV) (outs : list out) (txnFee : Z)
    (mixRing : ctkeyM) (MGs : list mgSig) : rctSig := {|
  rct_type := RCTTypeFull; rct_message := message; rct_mixRing := mixRing; rct_pseudoOuts := [];
  rct_ecdhInfo := o_ecdh <$> outs; rct_outPk := make_outPk destinations (o_C <$> outs);
  rct_txnFee := txnFee;
  rct_p := {| p_rangeSigs := o_sig <$> outs; p_bulletproofs := []; p_MGs := MGs; p_pseudoOuts := [] |}
|}.

(** The signature, [outSk] and [msout->c] *)
Definition genRct (message : key) (inSk : ctkeyV) (destinations : keyV) (amounts : list Z)
    (mixRing : ctkeyM) (amount_keys : keyV) (kLRki : option multisig_kLRki) (msout : bool)
    (index : nat) (outSk : ctkeyV) : gen G (rctSig * ctkeyV * option keyV) :=
  let n := length destinations in
  _ ← calc (throw_unless ((length amounts =? n) || (length amounts =? n + 1))%nat);
  _ ← calc (throw_unless (length amount_keys =? n)%nat);
  _ ← calc (throw_unless (index <? length mixRing)%nat);
  _ ← calc (throw_unless (forallb (λ col, (length col =? length inSk)%nat) mixRing));
  _ ← calc (throw_unless (Bool.eqb (bool_decide (is_Some kLRki)) msout));
  outs ← gen_outs (take n amounts) amount_keys;
  let outSk := set_masks (resize_ct n outSk) (o_mask <$> outs) in
  let txnFee := if (n <? length amounts)%nat then amounts !!! n else 0 in
  txnFeeKey ← calc (run (fee ← d2h txnFee; scalarmultH fee));
  let rv := full_sig message destinations outs txnFee mixRing in
  hash ← calc (get_pre_mlsag_hash (rv []));
  '(mg, c) ← proveRctMG hash mixRing inSk outSk (rct_outPk (rv [])) kLRki msout index txnFeeKey;
  mret (rv [mg], outSk, (λ c, [c]) <$> c).

(** with a ring of random keys *)
Definition genRct_mixin (message : key) (inSk inPk : ctkeyV) (destinations : keyV) (amounts : list Z)
    (amount_keys : keyV) (kLRki : option multisig_kLRki) (msout : bool) (mixin : nat) :
    gen G (rctSig * option keyV) :=
  '(mixRing, index) ← draw (populateFromBlockchain inPk mixin);
  '(rv, _, c) ← genRct message inSk destinations amounts mixRing amount_keys kLRki msout index [];
  mret (rv, c).

(** ** Simple signatures *)

(** Range proofs of the outputs: the commitments, the masks, and the proofs *)
Record range_proofs := {
  rp_C : keyV; rp_masks : keyV; rp_sigs : list rangeSig; rp_proofs : list Bulletproof
}.

Fixpoint borromean_outs (amounts : list Z) : gen G range_proofs :=
  match amounts with
  | [] => mret {| rp_C := []; rp_masks := []; rp_sigs := []; rp_proofs := [] |}
  | amount :: amounts =>
      '(sig, C, mask) ← proveRange amount;
      rest ← borromean_outs amounts;
      mret {| rp_C := C :: rp_C rest; rp_masks := mask :: rp_masks rest;
              rp_sigs := sig :: rp_sigs rest; rp_proofs := [] |}
  end.

(** [while (batch_size * 2 + amounts_proved <= n_amounts && ..) batch_size *= 2;],
    at most [n] iterations *)
Fixpoint batch_loop (n batch_size amounts_proved n_amounts : nat) : nat :=
  match n with
  | O => batch_size
  | S n' =>
      if ((batch_size * 2 + amounts_proved <=? n_amounts) && (batch_size * 2 <=? maxM))%nat
      then batch_loop n' (batch_size * 2) amounts_proved n_amounts
      else batch_size
  end.

(** One proof of several amounts, its commitments times 8 *)
Definition prove_batch (n : nat) (amounts : list Z) : gen G range_proofs :=
  '(proof, C, masks) ← proveRangeBulletproof n amounts;
  C ← calc (times8 C);
  mret {| rp_C := C; rp_masks := masks; rp_sigs := []; rp_proofs := [proof] |}.

(** [while (amounts_proved < n_amounts)], at most [k] iterations; [BULLETPROOF_MAX_OUTPUTS] is 16 *)
Fixpoint batches (k n : nat) (multi : bool) (amounts : list Z) (amounts_proved : nat) :
    gen G range_proofs :=
  if (length amounts <=? amounts_proved)%nat then
    mret {| rp_C := []; rp_masks := []; rp_sigs := []; rp_proofs := [] |}
  else
  match k with
  | O => calc Undef
  | S k' =>
      let batch_size := if multi then batch_loop 4 1 amounts_proved (length amounts) else 1%nat in
      batch ← prove_batch n (take batch_size (drop amounts_proved amounts));
      rest ← batches k' n multi amounts (amounts_proved + batch_size);
      mret {| rp_C := rp_C batch ++ rp_C rest; rp_masks := rp_masks batch ++ rp_masks rest;
              rp_sigs := []; rp_proofs := rp_proofs batch ++ rp_proofs rest |}
  end.

Definition simple_outs (n : nat) (range_proof_type : RangeProofType) (amounts : list Z) :
    gen G range_proofs :=
  match range_proof_type with
  | RangeProofBorromean => borromean_outs amounts
  | RangeProofPaddedBulletproof => prove_batch n amounts
  | RangeProofMultiOutputBulletproof => batches (length amounts) n true amounts 0
  | RangeProofBulletproof => batches (length amounts) n false amounts 0
  end.

(** The loop over [outSk]: [sumout] and [rv.ecdhInfo] *)
Fixpoint encode_amounts (sumout : key) (masks : keyV) (amounts : list Z) (amount_keys : keyV) :
    option (key * list ecdhTuple) :=
  match masks, amounts, amount_keys with
  | mask :: masks, amount :: amounts, k :: amount_keys =>
      sumout ← sc_add mask sumout;
      e ← encode_amount mask amount k;
      '(sumout, es) ← encode_amounts sumout masks amounts amount_keys;
      Some (sumout, e :: es)
  | _, _, _ => Some (sumout, [])
  end.

(** [a[i]] and [pseudoOuts[i]]; the last mask makes the sums equal *)
Fixpoint pseudo_outs (sumout sumpouts : key) (inamounts : list Z) : gen G (list (key * key)) :=
  match inamounts with
  | [] => calc Undef
  | [v] =>
      a ← calc (run (sc_sub sumout sumpouts));
      C ← calc (genC a v);
      mret [(a, C)]
  | v :: inamounts =>
      a ← draw skGen;
      sumpouts ← calc (run (sc_add a sumpouts));
      C ← calc (genC a v);
      rest ← pseudo_outs sumout sumpouts inamounts;
      mret ((a, C) :: rest)
  end.

(** The loop over the inputs: [rv.p.MGs] and [msout->c] *)
Fixpoint simple_MGs (message : key) (mixRing : ctkeyM) (inSk : ctkeyV) (aC : list (key * key))
    (kLRki : option (list multisig_kLRki)) (msout : bool) (index : list nat) :
    gen G (list (mgSig * option key)) :=
  match mixRing, inSk, aC, index with
  | ring :: mixRing, sk :: inSk, (a, C) :: aC, i :: index =>
      kl ← calc (match kLRki with
        | None => Ret None
        | Some kl => k ← run (kl !! 0%nat); Ret (Some k)
        end);
      mg ← proveRctMGSimple message ring sk a C kl msout i;
      rest ← simple_MGs message mixRing inSk aC (drop 1 <$> kLRki) msout index;
      mret (mg :: rest)
  | _, _, _, _ => mret []
  end.

(** The signature; [pseudoOuts] is a field of [rv.p] with bulletproofs *)
Definition simple_sig (bulletproof : bool) (message : key) (destinations : keyV) (rp : range_proofs)
    (es : list ecdhTuple) (txnFee : Z) (mixRing : ctkeyM) (pseudoOuts : keyV) (MGs : list mgSig) :
    rctSig := {|
  rct_type := if bulletproof then RCTTypeBulletproof else RCTTypeSimple;
  rct_message := message; rct_mixRing := mixRing;
  rct_pseudoOuts := if bulletproof then [] else pseudoOuts;
  rct_ecdhInfo := es; rct_outPk := make_outPk destinations (rp_C rp);
  rct_txnFee := txnFee;
  rct_p := {| p_rangeSigs := rp_sigs rp; p_bulletproofs := rp_proofs rp; p_MGs := MGs;
              p_pseudoOuts := if bulletproof then pseudoOuts else [] |}
|}.

(** [CHECK_AND_ASSERT_THROW_MES(index[n] < mixRing[n].size(), ..)] *)
Definition indices_ok (index : list nat) (mixRing : ctkeyM) : bool :=
  forallb (λ p, (p.1 <? length p.2)%nat) (zip index mixRing).

Definition genRctSimple (n : nat) (message : key) (inSk : ctkeyV) (destinations : keyV)
    (inamounts outamounts : list Z) (txnFee : Z) (mixRing : ctkeyM) (amount_keys : keyV)
    (kLRki : option (list multisig_kLRki)) (msout : bool) (index : list nat) (outSk : ctkeyV)
    (range_proof_type : RangeProofType) : gen G (rctSig * ctkeyV * option keyV) :=
  let bulletproof := match range_proof_type with RangeProofBorromean => false | _ => true end in
  _ ← calc (throw_unless (0 <? length inamounts)%nat);
  _ ← calc (throw_unless (length inamounts =? length inSk)%nat);
  _ ← calc (throw_unless (length outamounts =? length destinations)%nat);
  _ ← calc (throw_unless (length amount_keys =? length destinations)%nat);
  _ ← calc (throw_unless (length index =? length inSk)%nat);
  _ ← calc (throw_unless (length mixRing =? length inSk)%nat);
  _ ← calc (throw_unless (indices_ok index mixRing));
  _ ← calc (throw_unless (Bool.eqb (bool_decide (is_Some kLRki)) msout));
  _ ← calc (throw_unless (match kLRki with
    | Some kl => (length kl =? length inamounts)%nat
    | None => true end));
  rp ← simple_outs n range_proof_type outamounts;
  let outSk := set_masks (resize_ct (length destinations) outSk) (rp_masks rp) in
  '(sumout, es) ← calc (run (encode_amounts zero (rp_masks rp) outamounts amount_keys));
  aC ← pseudo_outs sumout zero inamounts;
  let rv := simple_sig bulletproof message destinations rp es txnFee mixRing aC.*2 in
  full_message ← calc (get_pre_mlsag_hash (rv []));
  mgs ← simple_MGs full_message mixRing inSk aC kLRki msout index;
  mret (rv mgs.*1, outSk, if msout then Some (omap id mgs.*2) else None).

Fixpoint populate_simple (inPk : ctkeyV) (mixin : nat) : rand G (list (ctkeyV * nat)) :=
  match inPk with
  | [] => mret []
  | p :: inPk =>
      r ← populateFromBlockchainSimple p mixin;
      rest ← populate_simple inPk mixin;
      mret (r :: rest)
  end.

(** with rings of random keys *)
Definition genRctSimple_mixin (n : nat) (message : key) (inSk inPk : ctkeyV) (destinations : keyV)
    (inamounts outamounts : list Z) (amount_keys : keyV) (kLRki : option (list multisig_kLRki))
    (msout : bool) (txnFee : Z) (mixin : nat) : gen G (rctSig * option keyV) :=
  rings ← draw (populate_simple inPk mixin);
  '(rv, _, c) ← genRctSimple n message inSk destinations inamounts outamounts txnFee rings.*1
    amount_keys kLRki msout rings.*2 [] RangeProofBorromean;
  mret (rv, c).

(** ** Verification *)

Definition verRanges (outPk : ctkeyV) (rangeSigs : list rangeSig) : list (outcome bool) :=
  zip_with (λ p r, verRange (ct_mask p) r) outPk rangeSigs.

Definition verRct (rv : rctSig) (semantics : bool) : outcome bool :=
  let p := rct_p rv in
  if negb (rct_type rv =? RCTTypeFull) then Ret false else
  if semantics && negb (length (rct_outPk rv) =? length (p_rangeSigs p))%nat then Ret false else
  if semantics && negb (length (rct_outPk rv) =? length (rct_ecdhInfo rv))%nat then Ret false else
  if semantics && negb (length (p_MGs p) =? 1)%nat then Ret false else
  catch_all false (
    if semantics then
      results ← tasks (verRanges (rct_outPk rv) (p_rangeSigs p));
      Ret (forallb id results)
    else
      txnFeeKey ← run (fee ← d2h (rct_txnFee rv); scalarmultH fee);
      mg ← run (p_MGs p !! 0%nat);
      hash ← get_pre_mlsag_hash rv;
      verRctMG mg (rct_mixRing rv) (rct_outPk rv) txnFeeKey hash).

(** The first loop of [verRctSemanticsSimple]: the sizes *)
Definition simple_sizes (rv : rctSig) : bool :=
  let p := rct_p rv in
  ((rct_type rv =? RCTTypeSimple) || (rct_type rv =? RCTTypeBulletproof)) &&
  (if is_rct_bulletproof (rct_type rv) then
     (Z.of_nat (length (rct_outPk rv)) =? n_bulletproofs_amounts (p_bulletproofs p)) &&
     (length (p_pseudoOuts p) =? length (p_MGs p))%nat && (length (rct_pseudoOuts rv) =? 0)%nat
   else
     (length (rct_outPk rv) =? length (p_rangeSigs p))%nat &&
     (length (rct_pseudoOuts rv) =? length (p_MGs p))%nat && (length (p_pseudoOuts p) =? 0)%nat) &&
  (length (rct_outPk rv) =? length (rct_ecdhInfo rv))%nat.

(** The pseudo outputs against the outputs and the fee *)
Definition sum_check (rv : rctSig) : outcome bool :=
  let pseudoOuts :=
    if is_rct_bulletproof (rct_type rv) then p_pseudoOuts (rct_p rv) else rct_pseudoOuts rv in
  sumOutpks ← addKeys_keyV (ct_mask <$> rct_outPk rv);
  txnFeeKey ← run (fee ← d2h (rct_txnFee rv); scalarmultH fee);
  sumOutpks ← addKeys txnFeeKey sumOutpks;
  sumPseudoOuts ← addKeys_keyV pseudoOuts;
  Ret (equalKeys sumPseudoOuts sumOutpks).

(** The number of [results] *)
Definition max_non_bp_proofs (rvv : list rctSig) : nat :=
  foldr (λ rv n, (if is_rct_bulletproof (rct_type rv) then 0 else length (p_rangeSigs (rct_p rv))) + n)%nat 0%nat rvv.

(** Leaving the function, by [return false] or by an exception it catches.  [results] is declared
    after [waiter], so it is destroyed before the destructor of [waiter] waits for the tasks that
    write to it.  With tasks submitted the outcome depends on the schedule: it is [Undef] when one of them
    writes after that, and for a schedule that ends before the function does. *)
Definition leave `{Schedule} (results : nat) (submitted : list (outcome bool)) : outcome bool :=
  match submitted with
  | [] => Ret false
  | _ :: _ =>
      match execute run_on turns (leaving pool_max results submitted call_depth) with
      | Next s => if has_returned (workers pool_max) s then Ret false else Undef
      | Blocked | Undefined => Undef
      end
  end.

(** The second loop: the tasks and the proofs that are left to verify, or what is returned *)
Fixpoint semantics_loop `{Schedule} (results : nat) (rvv : list rctSig) (submitted : list (outcome bool))
    (proofs : list Bulletproof) : outcome (list (outcome bool) * list Bulletproof + bool) :=
  match rvv with
  | [] => Ret (inl (submitted, proofs))
  | rv :: rvv =>
      match sum_check rv with
      | Ret true =>
          if is_rct_bulletproof (rct_type rv)
          then semantics_loop results rvv submitted (proofs ++ p_bulletproofs (rct_p rv))
          else semantics_loop results rvv (submitted ++ verRanges (rct_outPk rv) (p_rangeSigs (rct_p rv))) proofs
      | Ret false | Throw => b ← leave results submitted; Ret (inr b)
      | Undef => Undef
      end
  end.

(** [None] for a null pointer *)
Definition verRctSemanticsSimple `{Schedule} (rvv : list (option rctSig)) : genx G bool :=
  match mapM id rvv with
  | None => mret false
  | Some rvv =>
      if negb (forallb simple_sizes rvv) then mret false else
      r ← calcx (semantics_loop (max_non_bp_proofs rvv) rvv [] []);
      match r with
      | inr b => mret b
      | inl (submitted, proofs) =>
          b ← (if (length proofs =? 0)%nat then mret true else verBulletproof proofs);
          if negb b then calcx (leave (max_non_bp_proofs rvv) submitted) else
          results ← calcx (tasks submitted);
          mret (forallb id results)
      end
  end.

Definition verRctSemanticsSimple1 `{Schedule} (rv : rctSig) : genx G bool := verRctSemanticsSimple [Some rv].

(** A task of [verRctNonSemanticsSimple] *)
Definition verMG_task (rv : rctSig) (pseudoOuts : keyV) (message : key) (i : nat) (ring : ctkeyV) :
    outcome bool :=
  mg ← run (p_MGs (rct_p rv) !! i);
  C ← run (pseudoOuts !! i);
  verRctMGSimple message mg ring C.

Definition verRctNonSemanticsSimple (rv : rctSig) : outcome bool :=
  catch_all false (
    if negb ((rct_type rv =? RCTTypeSimple) || (rct_type rv =? RCTTypeBulletproof)) then Ret false else
    let pseudoOuts :=
      if is_rct_bulletproof (rct_type rv) then p_pseudoOuts (rct_p rv) else rct_pseudoOuts rv in
    if negb (length pseudoOuts =? length (rct_mixRing rv))%nat then Ret false else
    message ← get_pre_mlsag_hash rv;
    results ← tasks (imap (verMG_task rv pseudoOuts message) (rct_mixRing rv));
    Ret (forallb id results)).

(** ** Decoding *)

(** [decodeRct] or [decodeRctSimple] after the check of the type: the amount and [mask] *)
Definition decode_amount (rv : rctSig) (sk : key) (i : nat) : outcome (Z * key) :=
  _ ← throw_unless (i <? length (rct_ecdhInfo rv))%nat;
  _ ← throw_unless (length (rct_outPk rv) =? length (rct_ecdhInfo rv))%nat;
  info ← run (rct_ecdhInfo rv !! i);
  ecdh_info ← run (ecdhDecode info sk);
  let mask := ecdh_mask ecdh_info in
  let amount := ecdh_amount ecdh_info in
  outPk ← run (rct_outPk rv !! i);
  _ ← throw_unless (sc_check mask =? 0);
  _ ← throw_unless (sc_check amount =? 0);
  Ctmp ← addKeys2 mask amount rct_H;
  _ ← throw_unless (equalKeys (ct_mask outPk) Ctmp);
  Ret (h2d amount, mask).

(** The amount, and [mask] if it is written: [CHECK_AND_ASSERT_MES(.., false, ..)] returns 0 *)
Definition decodeRct (rv : rctSig) (sk : key) (i : nat) : outcome (Z * option key) :=
  if negb (rct_type rv =? RCTTypeFull) then Ret (0, None) else
  '(amount, mask) ← decode_amount rv sk i;
  Ret (amount, Some mask).

Definition decodeRctSimple (rv : rctSig) (sk : key) (i : nat) : outcome (Z * option key) :=
  if negb ((rct_type rv =? RCTTypeSimple) || (rct_type rv =? RCTTypeBulletproof)) then Ret (0, None) else
  '(amount, mask) ← decode_amount rv sk i;
  Ret (amount, Some mask).

(** ** Multisignatures *)

(** [CHECK_AND_ASSERT_MES(indices[n] < rv.p.MGs[n].ss.size(), ..)] and the row is not empty *)
Definition ms_index_ok (i : nat) (mg : mgSig) : bool :=
  match mg_ss mg !! i with Some (_ :: _) => true | _ => false end.

(** [ss[i][0] += k - c * secret_key] *)
Definition ms_add (c secret_key k : key) (i : nat) (mg : mgSig) : option mgSig :=
  diff ← sc_mulsub c secret_key k;
  ssi ← mg_ss mg !! i;
  s0 ← ssi !! 0%nat;
  s ← sc_add s0 diff;
  Some {| mg_ss := <[i := <[0%nat := s]> ssi]> (mg_ss mg); mg_cc := mg_cc mg; mg_II := mg_II mg |}.

Fixpoint ms_adds (indices : list nat) (k c : keyV) (secret_key : key) (mgs : list mgSig) :
    option (list mgSig) :=
  match indices, k, c, mgs with
  | i :: indices, ki :: k, ci :: c, mg :: mgs =>
      mg ← ms_add ci secret_key ki i mg;
      rest ← ms_adds indices k c secret_key mgs;
      Some (mg :: rest)
  | _, _, _, _ => Some []
  end.

Definition set_MGs (rv : rctSig) (mgs : list mgSig) : rctSig := {|
  rct_type := rct_type rv; rct_message := rct_message rv; rct_mixRing := rct_mixRing rv;
  rct_pseudoOuts := rct_pseudoOuts rv; rct_ecdhInfo := rct_ecdhInfo rv; rct_outPk := rct_outPk rv;
  rct_txnFee := rct_txnFee rv;
  rct_p := {| p_rangeSigs := p_rangeSigs (rct_p rv); p_bulletproofs := p_bulletproofs (rct_p rv);
              p_MGs := mgs; p_pseudoOuts := p_pseudoOuts (rct_p rv) |}
|}.

(** What is returned, and the signature *)
Definition signMultisig (rv : rctSig) (indices : list nat) (k c : keyV) (secret_key : key) :
    option (bool * rctSig) :=
  let mgs := p_MGs (rct_p rv) in
  if negb ((rct_type rv =? RCTTypeFull) || (rct_type rv =? RCTTypeSimple) ||
           (rct_type rv =? RCTTypeBulletproof)) then Some (false, rv) else
  if negb (length indices =? length k)%nat then Some (false, rv) else
  if negb (length k =? length mgs)%nat then Some (false, rv) else
  if negb (length k =? length c)%nat then Some (false, rv) else
  if (rct_type rv =? RCTTypeFull) && negb (length mgs =? 1)%nat then Some (false, rv) else
  if negb (forallb (λ p, ms_index_ok p.1 p.2) (zip indices mgs)) then Some (false, rv) else
  mgs ← ms_adds indices k c secret_key mgs;
  Some (true, set_MGs rv mgs).

End rct_sigs.
