(* ===== verification/RctSigsSpec.v ===== *)
(** * Correctness of the signatures of ring confidential transactions

    A signature that [genRct] or [genRctSimple] makes for a balanced transaction
    passes the verification and its amounts are decoded by their receivers; the
    check of the sums is the equality of the sums of points; the signers of a
    multisignature complete it; what the first check accepts is safe for
    the second. *)

From S2P Require Export RctSigs RctMGSpec.

#[local] Open Scope Z_scope.

Lemma check_step {A} (b : bool) (k : unit → outcome A) : b = true → (throw_unless b ≫= k) = k tt.
Proof. by intros ->. Qed.

Section rct_sigs_spec.
Context {F : FastHash} {FL : FastHashLaws F} {RH : RctHash} {RHL : RctHashLaws F RH}.
Context {BN : BigNum} {SP : Schedule} {G : Type} {R : Rng G} {RL : RngLaws R}.

(** ** The hash that is signed *)

Definition rct_inputs (rv : rctSig) : nat :=
  if is_rct_simple (rct_type rv) then length (rct_mixRing rv) else match rct_mixRing rv with [] => 0%nat | ring :: _ => length ring end.

(** The sizes with which the signature is serialized *)
Record base_shape (rv : rctSig) : Prop := {
  bs_ring : rct_mixRing rv ≠ [];
  bs_type : rct_type rv = RCTTypeFull ∨ rct_type rv = RCTTypeSimple ∨ rct_type rv = RCTTypeBulletproof;
  bs_pseudo : rct_type rv = RCTTypeSimple → length (rct_pseudoOuts rv) = length (rct_mixRing rv);
  bs_outPk : length (rct_outPk rv) = length (rct_ecdhInfo rv)
}.

Lemma serialize_some rv : base_shape rv → is_Some (serialize_rctsig_base rv (rct_inputs rv) (length (rct_ecdhInfo rv))).
Proof.
  intros [HR HT HP HO]. unfold serialize_rctsig_base, rct_inputs.
  rewrite HO, Nat.eqb_refl. cbn [negb].
  destruct HT as [E|[E|E]]; rewrite E; [by eexists| |by eexists].
  cbn. rewrite (HP E), Nat.eqb_refl. by eexists.
Qed.

Lemma pre_hash_ok rv : base_shape rv → ∃ h, get_pre_mlsag_hash rv = Ret h ∧ bytes32 h.
Proof.
  intros HB. destruct (serialize_some rv HB) as [ss Es]. destruct HB as [HR _ _ _].
  unfold get_pre_mlsag_hash, rct_inputs in *. destruct (rct_mixRing rv) as [|ring rest]; [done|].
  rewrite Es. destruct (fast_hash_total ss) as (h & Eh & _). step_run Eh.
  rewrite cn_fast_hash_keyV_ok. destruct (fast_hash_total (mjoin (if rct_type rv =? RCTTypeBulletproof
    then p_bulletproofs (rct_p rv) ≫= bulletproof_keys else p_rangeSigs (rct_p rv) ≫= rangeSig_keys)))
    as (h2 & Eh2 & _). step_run Eh2.
  unfold mlsag_prehash. rewrite cn_fast_hash_keyV_ok.
  destruct (fast_hash_total (mjoin [rct_message rv; h; h2])) as (h3 & Eh3 & Hb).
  exists h3. split; [exact (run_some _ _ Eh3)|exact Hb].
Qed.

(** Otherwise it throws. *)
Lemma pre_hash_defined rv : defined bytes32 (get_pre_mlsag_hash rv).
Proof.
  unfold get_pre_mlsag_hash. destruct (rct_mixRing rv) as [|ring rest]; [done|].
  destruct (serialize_rctsig_base _ _ _) as [ss|]; [|done].
  destruct (fast_hash_total ss) as (h & Eh & _). step_run Eh. rewrite cn_fast_hash_keyV_ok.
  match goal with |- context [fast_hash (mjoin ?k)] =>
    destruct (fast_hash_total (mjoin k)) as (h2 & Eh2 & _) end. step_run Eh2.
  unfold mlsag_prehash. rewrite cn_fast_hash_keyV_ok.
  destruct (fast_hash_total (mjoin [rct_message rv; h; h2])) as (h3 & Eh3 & Hb).
  rewrite Eh3. exact Hb.
Qed.

(** ** The amount sent to the receiver *)

Lemma encode_amount_ok mask v k :
  scalar mask → 0 ≤ v < 2 ^ 64 →
  ∃ e, encode_amount mask v k = Some e ∧ ecdh_ok e ∧
    ecdhDecode e k = Some {| ecdh_mask := mask; ecdh_amount := amount_key v; ecdh_senderPk := rct_Z |}.
Proof.
  intros Hm Hv. destruct (amount_scalar v Hv) as [HS E]. unfold encode_amount. step (d2h_ok v Hv).
  destruct (ecdh_round_trip {| ecdh_mask := mask; ecdh_amount := amount_key v; ecdh_senderPk := rct_Z |} k)
    as (m & Em & Hok & Ed).
  { split; by apply scalar_bytes32. }
  exists m. split; [exact Em|]. split; [exact Hok|]. rewrite Ed. cbn [ecdh_mask ecdh_amount ecdh_senderPk].
  by rewrite (to_scalar_id mask Hm), (to_scalar_id _ HS).
Qed.

(** What makes an output decodable *)
Record sent (rv : rctSig) (i : nat) (k mask : key) (v : Z) : Prop := {
  se_ecdh : ∃ e, rct_ecdhInfo rv !! i = Some e ∧ encode_amount mask v k = Some e;
  se_outPk : ∃ d, rct_outPk rv !! i =
    Some {| ct_dest := d; ct_mask := ed_encode (commitment (le_combine mask) v) |}
}.

Lemma decode_amount_ok rv i k mask v :
  sent rv i k mask v → length (rct_outPk rv) = length (rct_ecdhInfo rv) → scalar mask → 0 ≤ v < 2 ^ 64 →
  decode_amount rv k i = Ret (v, mask).
Proof.
  intros [(e & Ee & Een) (d & Eo)] HL Hm Hv. unfold decode_amount.
  destruct (encode_amount_ok mask v k Hm Hv) as (e' & Ee' & _ & Ed).
  rewrite Een in Ee'. injection Ee' as <-.
  pose proof (lookup_lt_Some _ _ _ Ee) as Hi. destruct (amount_scalar v Hv) as [HS EV].
  rewrite check_step by (by apply Nat.ltb_lt). rewrite check_step by (by apply Nat.eqb_eq).
  step_run Ee. step_run Ed. cbv zeta. cbn [ecdh_mask ecdh_amount]. step_run Eo. cbn [ct_mask].
  rewrite check_step by (by apply sc_check_0). rewrite check_step by (by apply sc_check_0).
  rewrite rct_H_ok. step_ret (addKeys2_ok mask (amount_key v) H25519 (scalar_255 _ Hm) (scalar_255 _ HS) H_on_curve).
  rewrite EV. rewrite check_step.
  2: { exact (proj2 (equalKeys_points _ _ (commitment_on_curve _ _) (commitment_on_curve _ _)) eq_refl). }
  rewrite h2d_ok by (by apply scalar_bytes32). rewrite EV. unfold uwrap. rewrite Z.mod_small by lia. reflexivity.
Qed.
(** ** Outputs of a full signature *)

Definition amount_ok (v : Z) : Prop := 0 ≤ v < 2 ^ 64.

Record out_ok (v : Z) (k : key) (o : out) : Prop := {
  oo_C : o_C o = ed_encode (commitment (le_combine (o_mask o)) v);
  oo_mask : scalar (o_mask o);
  oo_range : verRange (o_C o) (o_sig o) = Ret true;
  oo_ecdh : encode_amount (o_mask o) v k = Some (o_ecdh o)
}.

Lemma gen_outs_ok vs ks s :
  Forall amount_ok vs → length ks = length vs → rng_ok s →
  ∃ outs s', gen_outs vs ks s = Ret (outs, s') ∧ rng_ok s' ∧ Forall3 out_ok vs ks outs.
Proof.
  intros HV. revert ks s. induction HV as [|v vs Hv HV IH]; intros [|k ks] s HL Hs; try done.
  { exists [], s. split; [done|]. split; [done|constructor]. }
  destruct (proveRange_ok v s Hv Hs) as (sig & mask & s1 & E1 & Hm & Hs1 & HR & EV). cbv zeta in *.
  destruct (encode_amount_ok mask v k Hm Hv) as (e & Ee & _).
  destruct (IH ks s1) as (outs & s2 & E2 & Hs2 & HF); [cbn in HL; lia|done|].
  eexists (_ :: outs), s2. cbn [gen_outs]. rewrite (gen_bind_ret _ _ _ _ _ E1).
  rewrite (calc_step _ _ _ _ (run_some _ _ Ee)), (gen_bind_ret _ _ _ _ _ E2).
  split; [reflexivity|]. split; [done|]. constructor; [|exact HF]. by split.
Qed.

Lemma length_resize_ct n outSk : length (resize_ct n outSk) = n.
Proof. unfold resize_ct. rewrite length_app, length_take, length_replicate. lia. Qed.

Lemma set_masks_mask outSk masks :
  length outSk = length masks → ct_mask <$> set_masks outSk masks = masks.
Proof.
  revert masks. induction outSk as [|p outSk IH]; intros [|m masks] HL; try done.
  unfold set_masks. cbn [zip_with]. rewrite fmap_cons. f_equal. apply IH. cbn in HL. lia.
Qed.

Lemma make_outPk_mask ds Cs : length ds = length Cs → ct_mask <$> make_outPk ds Cs = Cs.
Proof.
  revert Cs. induction ds as [|d ds IH]; intros [|C Cs] HL; try done.
  unfold make_outPk. cbn [zip_with]. rewrite fmap_cons. f_equal. apply IH. cbn in HL. lia.
Qed.

Lemma length_make_outPk ds Cs : length ds = length Cs → length (make_outPk ds Cs) = length Cs.
Proof. intros HL. unfold make_outPk. rewrite length_zip_with. lia. Qed.

Lemma outs_lengths vs ks outs : Forall3 out_ok vs ks outs → length ks = length vs ∧ length outs = length vs.
Proof. induction 1; cbn; lia. Qed.

(** The masks with the amounts, as [proveRctMG_ok] takes them *)
Lemma outs_points (outSk : ctkeyV) vs ks outs :
  length outSk = length vs → Forall3 out_ok vs ks outs →
  let os := zip (set_masks outSk (o_mask <$> outs)) vs in
  os.*1 = set_masks outSk (o_mask <$> outs) ∧ os.*2 = vs ∧
  Forall scalar (ct_mask <$> os.*1) ∧ o_C <$> outs = ed_encode <$> output_points os.
Proof.
  intros HL HF os. destruct (outs_lengths _ _ _ HF) as [_ HLo].
  assert (length (set_masks outSk (o_mask <$> outs)) = length vs) as HLs.
  { unfold set_masks. rewrite length_zip_with, length_fmap. lia. }
  assert (os.*1 = set_masks outSk (o_mask <$> outs)) as E1 by (apply fst_zip; lia).
  assert (os.*2 = vs) as E2 by (apply snd_zip; lia).
  split; [done|]. split; [done|]. split.
  - rewrite E1, set_masks_mask by (rewrite length_fmap; lia). clear -HF. induction HF as [|v k o ??? [] HF IH]; [constructor|].
    rewrite fmap_cons. by constructor.
  - subst os. clear E1 E2 HLs. revert outSk HL. clear HLo. induction HF as [|v k o vs ks outs [EC _ _ _] HF IH]; intros [|p outSk] HL; try done.
    rewrite !fmap_cons. unfold set_masks. cbn [zip_with]. unfold output_points. rewrite !fmap_cons.
    cbn [fst snd ct_mask]. rewrite EC. f_equal. apply IH. cbn in HL. lia.
Qed.

Lemma verRanges_ok ds vs ks outs :
  length ds = length vs → Forall3 out_ok vs ks outs →
  ∃ bs, tasks (verRanges (make_outPk ds (o_C <$> outs)) (o_sig <$> outs)) = Ret bs ∧ forallb id bs = true.
Proof.
  intros HL HF. revert ds HL. induction HF as [|v k o vs ks outs [_ _ HR _] HF IH]; intros [|d ds] HL; try done.
  { by exists []. }
  destruct (IH ds) as (bs & E & Hb); [cbn in HL; lia|]. exists (true :: bs). split; [|exact Hb].
  rewrite !fmap_cons. unfold make_outPk, verRanges. cbn [zip_with ct_mask tasks]. rewrite HR.
  unfold make_outPk, verRanges in E. by step_ret E.
Qed.

Lemma outs_sent rv ds vs ks outs i v k :
  length ds = length vs → Forall3 out_ok vs ks outs →
  rct_ecdhInfo rv = o_ecdh <$> outs → rct_outPk rv = make_outPk ds (o_C <$> outs) →
  vs !! i = Some v → ks !! i = Some k →
  ∃ o, outs !! i = Some o ∧ out_ok v k o ∧ sent rv i k (o_mask o) v.
Proof.
  intros HL HF E1 E2 Hv Hk. destruct (Forall3_lookup_l _ _ _ _ _ _ HF Hv) as (k' & o & Hk' & Ho & HO).
  rewrite Hk in Hk'. injection Hk' as <-.
  exists o. split; [done|]. split; [done|]. destruct HO as [EC _ _ EE]. split.
  - exists (o_ecdh o). rewrite E1, list_lookup_fmap, Ho. done.
  - destruct (lookup_lt_is_Some_2 ds i) as [d Hd]; [rewrite HL; by eapply lookup_lt_Some|].
    exists d. rewrite E2. unfold make_outPk. rewrite lookup_zip_with, Hd. cbn. rewrite list_lookup_fmap, Ho. cbn.
    by rewrite EC.
Qed.

(** ** A full signature *)

Lemma fees_amount (vs fees : list Z) :
  (length fees ≤ 1)%nat →
  (if (length vs <? length (vs ++ fees))%nat then (vs ++ fees) !!! length vs else 0) = zsum fees.
Proof.
  intros HL. rewrite length_app. destruct fees as [|f [|? ?]]; cbn [length] in *; [| |lia].
  - by rewrite (proj2 (Nat.ltb_ge _ _)) by lia.
  - rewrite (proj2 (Nat.ltb_lt _ _)) by lia. unfold zsum. cbn [foldr]. rewrite Z.add_0_r.
    unfold lookup_total, list_lookup_total. apply list_lookup_total_correct, list_lookup_middle. done.
Qed.

Lemma genRct_ok message dests vs fees aks outSk0 cols1 cols2 ins s :
  let n := length ins in
  let cols := cols1 ++ input_points ins :: cols2 in
  columns n cols1 → columns n cols2 → (2 ≤ length cols)%nat → (1 ≤ n)%nat →
  Forall secret_ok ins.*1 → Forall amount_ok vs → Forall amount_ok fees → (length fees ≤ 1)%nat →
  length dests = length vs → length aks = length vs →
  zsum ins.*2 = zsum vs + zsum fees → rng_ok s →
  ∃ rv outSk s',
    genRct message ins.*1 dests (vs ++ fees) (ct_columns cols) aks None false (length cols1) outSk0 s =
      Ret ((rv, outSk, None), s') ∧ rng_ok s' ∧
    verRct rv true = Ret true ∧
    verRct rv false = Ret (bool_decide (¬ Exists (Exists (λ p, no_image p.1)) cols)) ∧
    length outSk = length vs ∧
    (∀ i v k, vs !! i = Some v → aks !! i = Some k →
      ∃ sk, outSk !! i = Some sk ∧ decodeRct rv k i = Ret (v, Some (ct_mask sk))).
Proof.
  intros n cols H1 H2 Hlen Hn HSk HV HFee HL1 HLd HLa Hb Hs.
  destruct (gen_outs_ok vs aks s HV HLa Hs) as (outs & s1 & E1 & Hs1 & HO).
  destruct (outs_lengths _ _ _ HO) as [_ HLo].
  set (outSk := set_masks (resize_ct (length dests) outSk0) (o_mask <$> outs)).
  assert (length (resize_ct (length dests) outSk0) = length vs) as HLr by (rewrite length_resize_ct; lia).
  destruct (outs_points _ vs aks outs HLr HO) as (P1 & P2 & P3 & P4). cbv zeta in *. fold outSk in P1, P2, P3, P4.
  assert (amount_ok (zsum fees)) as Hfee.
  { destruct HFee as [|f ? Hf HFee]; [unfold amount_ok; cbn; lia|]. destruct HFee; [|cbn in HL1; lia].
    unfold zsum. cbn [foldr]. by rewrite Z.add_0_r. }
  set (rv := full_sig message dests outs (zsum fees) (ct_columns cols)).
  assert (length (make_outPk dests (o_C <$> outs)) = length (o_ecdh <$> outs)) as HLp.
  { rewrite length_make_outPk; rewrite !length_fmap; lia. }
  assert (∀ mgs, base_shape (rv mgs)) as HBS.
  { intros mgs. split; cbn [rv full_sig rct_mixRing rct_type rct_outPk rct_ecdhInfo]; [|by left|done|exact HLp].
    unfold ct_columns, cols. rewrite map_app. by destruct (map _ cols1). }
  destruct (pre_hash_ok (rv []) (HBS [])) as (h & Eh & Hh).
  destruct (proveRctMG_ok h cols1 cols2 ins (zip outSk vs) (make_outPk dests (o_C <$> outs)) (zsum fees) s1)
    as (sig & s2 & E2 & Hs2 & HSh & EV); try done.
  { rewrite make_outPk_mask; [exact P4|]. rewrite length_fmap. lia. }
  { by rewrite P2. }
  cbv zeta in *. fold n cols in E2, EV. rewrite P1 in E2.
  exists (rv [sig]), outSk, s2. split_and!; [|exact Hs2|..].
  - unfold genRct. rewrite HLd, length_app.
    rewrite calc_check.
    2: { destruct fees as [|? [|? ?]]; cbn [length] in *; [|apply orb_true_intro; right; apply Nat.eqb_eq; lia|lia].
      apply orb_true_intro. left. apply Nat.eqb_eq. lia. }
    rewrite calc_check by (by apply Nat.eqb_eq).
    rewrite calc_check.
    2: { apply Nat.ltb_lt. unfold ct_columns, cols. rewrite length_map, length_app. cbn. lia. }
    rewrite calc_check.
    2: { apply (forallb_Forall _ (λ col, length col = length ins.*1)); [intros; apply Nat.eqb_eq|].
      rewrite length_fmap. fold n. apply Forall_map. apply Forall_app. split; [|constructor].
      - eapply Forall_impl; [|exact H1]. intros ? []. by rewrite length_fmap.
      - rewrite length_fmap. unfold input_points. by rewrite length_fmap.
      - eapply Forall_impl; [|exact H2]. intros ? []. by rewrite length_fmap. }
    rewrite calc_check by done. rewrite take_app_length. rewrite (gen_bind_ret _ _ _ _ _ E1).
    rewrite <- length_app, fees_amount by done.
    rewrite (calc_step _ _ _ _ (run_some _ _ (amountH_ok (zsum fees) Hfee))).
    rewrite <- HLd. fold outSk rv. rewrite (calc_step _ _ _ _ Eh). by rewrite (gen_bind_ret _ _ _ _ _ E2).
  - unfold verRct. cbn [rv full_sig rct_type rct_outPk rct_ecdhInfo rct_p p_rangeSigs p_MGs length].
    rewrite HLp, !length_fmap, !Nat.eqb_refl. cbn [negb andb].
    destruct (verRanges_ok dests vs aks outs HLd HO) as (bs & Eb & Hbs). step_ret Eb. cbn [catch_all]. by rewrite Hbs.
  - unfold verRct. cbn [rv full_sig rct_type rct_outPk rct_ecdhInfo rct_p p_rangeSigs p_MGs rct_txnFee rct_mixRing].
    cbn [andb]. change (negb (RCTTypeFull =? RCTTypeFull)) with false. cbv iota.
    step_run (amountH_ok (zsum fees) Hfee). step_run (eq_refl ([sig] !! 0%nat)).
    assert (get_pre_mlsag_hash (rv [sig]) = Ret h) as Eh' by exact Eh. unfold rv in Eh'. step_ret Eh'.
    change (ed_encode (ed_mul (zsum fees) H25519)) with (fee_key (zsum fees)). rewrite EV. reflexivity.
  - unfold outSk, set_masks. rewrite length_zip_with, length_fmap. lia.
  - intros i v k Hv Hk.
    destruct (outs_sent (rv [sig]) dests vs aks outs i v k HLd HO eq_refl eq_refl Hv Hk) as (o & Ho & [_ Hm _ _] & HS).
    assert (ct_mask <$> (outSk !! i) = Some (o_mask o)) as Esk.
    { rewrite <- list_lookup_fmap. unfold outSk. rewrite set_masks_mask by (rewrite length_fmap; lia).
      by rewrite list_lookup_fmap, Ho. }
    destruct (outSk !! i) as [sk|] eqn:Esk'; [|done]. injection Esk as Esk. exists sk. split; [done|].
    unfold decodeRct. change (negb (rct_type (rv [sig]) =? RCTTypeFull)) with false. cbv iota.
    rewrite Esk. step_ret (decode_amount_ok (rv [sig]) i k (o_mask o) v HS HLp Hm
      (proj1 (Forall_lookup _ _) HV i v Hv)). reflexivity.
Qed.

(** ** The check of the sums *)

Definition pseudo_of (rv : rctSig) : keyV :=
  if is_rct_bulletproof (rct_type rv) then p_pseudoOuts (rct_p rv) else rct_pseudoOuts rv.

Lemma sum_check_ok rv Ps Os :
  Forall on_curve Ps → Forall on_curve Os → pseudo_of rv = ed_encode <$> Ps →
  ct_mask <$> rct_outPk rv = ed_encode <$> Os → amount_ok (rct_txnFee rv) →
  sum_check rv = Ret (bool_decide (point_sum Ps = ed_add (ed_mul (rct_txnFee rv) H25519) (point_sum Os))).
Proof.
  intros HP HO EP EO Hf. unfold sum_check. rewrite EO. step_ret (addKeys_keyV_ok Os HO).
  step_run (amountH_ok _ Hf).
  pose proof (psum_on_curve Os HO) as HOs. pose proof (psum_on_curve Ps HP) as HPs.
  pose proof (on_curve_mul (rct_txnFee rv) H25519 H_on_curve) as HH.
  step_ret (addKeys_ok _ _ HH HOs). fold (pseudo_of rv). rewrite EP. step_ret (addKeys_keyV_ok Ps HP).
  f_equal. apply eq_bool_prop_intro. rewrite !Is_true_true, bool_decide_eq_true.
  apply equalKeys_points; [exact HPs|auto with edwards].
Qed.

(** ** Outputs of a simple signature *)

Definition commitments (masks : keyV) (vs : list Z) : list point :=
  zip_with (λ m v, commitment (le_combine m) v) masks vs.

Record rp_is (vs : list Z) (rp : range_proofs) : Prop := {
  rp_length : length (rp_masks rp) = length vs;
  rp_scalars : Forall scalar (rp_masks rp);
  rp_commit : rp_C rp = ed_encode <$> commitments (rp_masks rp) vs
}.

Lemma borromean_outs_ok vs s :
  Forall amount_ok vs → rng_ok s →
  ∃ rp s', borromean_outs vs s = Ret (rp, s') ∧ rng_ok s' ∧ rp_is vs rp ∧ rp_proofs rp = [] ∧
    length (rp_sigs rp) = length vs ∧
    ∀ ds, length ds = length vs →
      ∃ bs, tasks (verRanges (make_outPk ds (rp_C rp)) (rp_sigs rp)) = Ret bs ∧ forallb id bs = true.
Proof.
  intros HV. revert s. induction HV as [|v vs Hv HV IH]; intros s Hs.
  { eexists _, s. split; [reflexivity|]. split; [done|]. split; [by split|]. split; [done|]. split; [done|].
    intros [|d ds] HL; [|done]. by exists []. }
  destruct (proveRange_ok v s Hv Hs) as (sig & mask & s1 & E1 & Hm & Hs1 & HR & EV). cbv zeta in *.
  destruct (IH s1 Hs1) as (rp & s2 & E2 & Hs2 & [HL HF HC] & HP & HLs & HT).
  eexists _, s2. cbn [borromean_outs]. rewrite (gen_bind_ret _ _ _ _ _ E1), (gen_bind_ret _ _ _ _ _ E2).
  split; [reflexivity|]. split; [done|].
  split; [split; cbn [rp_masks rp_C]; [cbn; lia|by constructor|]|].
  { rewrite HC. done. }
  split; [done|]. split; [cbn; lia|]. intros [|d ds] HLd; [done|].
  destruct (HT ds) as (bs & E & Hb); [cbn in HLd; lia|]. exists (true :: bs). split; [|exact Hb].
  cbn [rp_C rp_sigs]. unfold make_outPk, verRanges in *. cbn [zip_with ct_mask tasks]. rewrite EV. by step_ret E.
Qed.

Lemma encode_amounts_ok sumout masks vs ks :
  scalar sumout → Forall scalar masks → Forall amount_ok vs → length masks = length vs → length ks = length vs →
  ∃ es, encode_amounts sumout masks vs ks =
      Some (to_scalar (le_combine sumout + zsum (le_combine <$> masks)), es) ∧
    length es = length vs ∧
    ∀ i m v k, masks !! i = Some m → vs !! i = Some v → ks !! i = Some k →
      ∃ e, es !! i = Some e ∧ encode_amount m v k = Some e.
Proof.
  intros Hs HM. revert sumout Hs vs ks. induction HM as [|m masks Hm HM IH]; intros sumout Hs vs ks HV HL1 HL2.
  { exists []. destruct vs; [|done]. split; [|done]. cbn [encode_amounts].
    assert (zsum (le_combine <$> []) = 0) as -> by done. by rewrite Z.add_0_r, to_scalar_id. }
  destruct HV as [|v vs Hv HV]; [done|]. destruct ks as [|k ks]; [done|].
  destruct (encode_amount_ok m v k Hm Hv) as (e & Ee & _).
  destruct (IH (to_scalar (le_combine m + le_combine sumout)) (to_scalar_scalar _) vs ks HV)
    as (es & E & HLe & HE); [cbn in *; lia..|].
  exists (e :: es). cbn [encode_amounts]. step (sc_add_scalar m sumout Hm Hs). step Ee. step E.
  split; [|split; [cbn; lia|]].
  - do 2 f_equal. apply to_scalar_inj. rewrite fmap_cons, zsum_cons, le_combine_to_scalar, Zplus_mod_idemp_l.
    f_equal. lia.
  - intros [|i] m' v' k' Hm' Hv' Hk'; [|by apply (HE i)]. cbn in *. injection Hm' as <-. injection Hv' as <-.
    injection Hk' as <-. by exists e.
Qed.

(** ** The pseudo outputs *)

Lemma pseudo_outs_ok sumout sumpouts vs s :
  scalar sumout → scalar sumpouts → Forall amount_ok vs → vs ≠ [] → rng_ok s →
  ∃ aC s', pseudo_outs sumout sumpouts vs s = Ret (aC, s') ∧ rng_ok s' ∧
    length aC = length vs ∧ Forall scalar aC.*1 ∧ aC.*2 = ed_encode <$> commitments aC.*1 vs ∧
    zsum (le_combine <$> aC.*1) mod L = (le_combine sumout - le_combine sumpouts) mod L.
Proof.
  intros Ho. revert sumpouts s. induction vs as [|v vs IH]; intros sumpouts s Hp HV Hne Hs; [done|].
  apply Forall_cons_1 in HV as [Hv HV]. destruct vs as [|v' vs].
  - set (a := to_scalar (le_combine sumout - le_combine sumpouts)).
    assert (scalar a) as Ha by apply to_scalar_scalar.
    eexists [(a, _)], s. cbn [pseudo_outs].
    rewrite (calc_step _ _ _ _ (run_some _ _ (sc_sub_scalar _ _ Ho Hp))).
    rewrite (calc_step _ _ _ _ (genC_ok a v (scalar_bytes32 _ Ha) Hv)).
    split; [reflexivity|]. split; [done|]. split; [done|]. split; [by constructor|]. split; [done|].
    cbn [fmap list_fmap fst]. rewrite zsum_cons. unfold zsum at 1. cbn [foldr]. rewrite Z.add_0_r.
    unfold a. rewrite le_combine_to_scalar. apply Z.mod_mod. pose proof L_range. lia.
  - destruct (skGen_ok s Hs) as (a & s1 & Ha & Hs1 & E1).
    set (sp := to_scalar (le_combine a + le_combine sumpouts)).
    destruct (IH sp s1) as (aC & s2 & E2 & Hs2 & HL & HF & HC & HZ); [apply to_scalar_scalar|done|done|done|].
    eexists ((a, _) :: aC), s2. remember (v' :: vs) as vs1 eqn:Evs.
    assert (pseudo_outs sumout sumpouts (v :: vs1) = (a ← draw skGen;
      sumpouts ← calc (run (sc_add a sumpouts)); C ← calc (genC a v);
      rest ← pseudo_outs sumout sumpouts vs1; mret ((a, C) :: rest))) as -> by (by subst vs1).
    rewrite (draw_step _ _ _ _ _ E1). rewrite (calc_step _ _ _ _ (run_some _ _ (sc_add_scalar _ _ Ha Hp))).
    rewrite (calc_step _ _ _ _ (genC_ok a v (scalar_bytes32 _ Ha) Hv)). fold sp. rewrite (gen_bind_ret _ _ _ _ _ E2).
    split; [reflexivity|]. split; [done|]. split; [cbn; lia|]. split; [by constructor|].
    split; [rewrite !fmap_cons; cbn [snd fst]; rewrite HC; done|].
    rewrite !fmap_cons, zsum_cons. cbn [fst]. rewrite Zplus_mod, HZ, <- Zplus_mod. unfold sp.
    rewrite le_combine_to_scalar. rewrite Z.add_sub_assoc, Zminus_mod_idemp_r. f_equal. lia.
Qed.

Lemma psum_commitments masks vs :
  length masks = length vs → point_sum (commitments masks vs) = commitment (zsum (le_combine <$> masks)) (zsum vs).
Proof.
  revert vs. induction masks as [|m masks IH]; intros [|v vs] HL; [exact (eq_sym (commitment_0 0))|done|done|].
  unfold commitments. cbn [zip_with]. rewrite psum_cons. fold (commitments masks vs).
  rewrite IH by (cbn in HL; lia). by rewrite commitment_add.
Qed.

Lemma commitments_on_curve masks vs : Forall on_curve (commitments masks vs).
Proof.
  revert vs. induction masks as [|m masks IH]; intros [|v vs]; [constructor..|].
  constructor; [apply commitment_on_curve|apply IH].
Qed.

(** ** The signatures of the inputs *)

(** An input: the signer's secrets, the secret of the key that is spent (the signer's, unless
    there are other signers), the amount, and the ring around it *)
Record sinput := {
  si_sk : ctkey; si_key : Z; si_v : Z;
  si_before : list (point * point); si_after : list (point * point)
}.

Definition si_spent (i : sinput) : point * point :=
  (mulG (si_key i), commitment (le_combine (ct_mask (si_sk i))) (si_v i)).

Definition si_ring (i : sinput) : list (point * point) := si_before i ++ si_spent i :: si_after i.

Record sinput_ok (i : sinput) : Prop := {
  so_before : Forall ct_curve (si_before i);
  so_after : Forall ct_curve (si_after i);
  so_size : (2 ≤ length (si_ring i))%nat;
  so_secret : secret_ok (si_sk i);
  so_amount : amount_ok (si_v i)
}.

Definition si_own (i : sinput) : Prop := si_key i = le_combine (ct_dest (si_sk i)).

Definition si_index (i : sinput) : nat := length (si_before i).
Definition si_pubs (i : sinput) : ctkeyV := ct_of <$> si_ring i.

(** The signature of the input [i] over its ring and the pseudo output of mask [a] *)
Definition mg_ok (message : key) (i : sinput) (a : key) (mg : mgSig) : Prop :=
  verRctMGSimple message mg (si_pubs i) (ed_encode (commitment (le_combine a) (si_v i))) =
    Ret (bool_decide (¬ Exists (λ p, no_image p.1) (si_ring i))).

Lemma simple_MGs_ok message inputs aC s :
  Forall sinput_ok inputs → Forall si_own inputs → Forall scalar aC.*1 → length aC = length inputs →
  aC.*2 = ed_encode <$> commitments aC.*1 (si_v <$> inputs) → rng_ok s →
  ∃ mgs s', simple_MGs message (map si_pubs inputs) (si_sk <$> inputs) aC None false (si_index <$> inputs) s =
      Ret (mgs, s') ∧ rng_ok s' ∧ length mgs = length inputs ∧
    Forall3 (mg_ok message) inputs aC.*1 mgs.*1.
Proof.
  intros HI. revert aC s.
  induction HI as [|i inputs [H1 H2 Hsz Hsk Hv] HI IH]; intros [|[a C] aC] s HW HF HL EC Hs; try done.
  { exists [], s. split; [done|]. split; [done|]. split; [done|constructor]. }
  apply Forall_cons_1 in HW as [Ew HW].
  assert (si_spent i = signer_points (si_sk i) (si_v i)) as Esp by (unfold si_spent; by rewrite Ew).
  unfold si_ring in Hsz. rewrite Esp in Hsz.
  assert (si_pubs i = ct_of <$> (si_before i ++ signer_points (si_sk i) (si_v i) :: si_after i)) as Epub
    by (unfold si_pubs, si_ring; by rewrite Esp).
  rewrite fmap_cons in HF. cbn [fst] in HF. apply Forall_cons_1 in HF as [Ha HF].
  rewrite !fmap_cons in EC. cbn [fst snd] in EC. unfold commitments in EC. cbn [zip_with] in EC.
  rewrite fmap_cons in EC. pose proof (f_equal (hd []) EC) as EC1. pose proof (f_equal tail EC) as EC2.
  cbn [hd tail] in EC1, EC2.
  destruct (proveRctMGSimple_ok message (si_before i) (si_after i) (si_sk i) (si_v i) a s H1 H2 Hsz Hsk Ha Hs)
    as (mg & s1 & E1 & Hs1 & _ & _ & EV). cbv zeta in *.
  destruct (IH aC s1 HW HF ltac:(cbn in HL; lia) EC2 Hs1) as (mgs & s2 & E2 & Hs2 & HLm & HM).
  exists ((mg, None) :: mgs), s2. rewrite !fmap_cons. cbn [map simple_MGs].
  assert ((calc (Ret None) : gen G (option multisig_kLRki)) s = Ret (None, s)) as E0 by done.
  rewrite (gen_bind_ret _ _ _ _ _ E0). rewrite EC1, Epub. unfold si_index at 1.
  rewrite (gen_bind_ret _ _ _ _ _ E1). cbn [fmap option_fmap option_map].
  rewrite (gen_bind_ret _ _ _ _ _ E2). split; [reflexivity|]. split; [done|]. split; [cbn; lia|].
  cbn [fst]. constructor; [|exact HM]. unfold mg_ok, si_pubs, si_ring. rewrite Esp. exact EV.
Qed.

Lemma mgs_tasks rv message inputs as_ mgs pre :
  Forall3 (mg_ok message) inputs as_ mgs →
  p_MGs (rct_p rv) = pre.*1 ++ mgs →
  let pseudo := pre.*2 ++ (ed_encode <$> commitments as_ (si_v <$> inputs)) in
  ∃ bs, tasks (imap (λ i, verMG_task rv pseudo message (length pre + i)) (map si_pubs inputs)) = Ret bs ∧
    forallb id bs = bool_decide (¬ Exists (λ i, Exists (λ p, no_image p.1) (si_ring i)) inputs).
Proof.
  intros HM. revert pre. induction HM as [|i a mg inputs as_ mgs Hmg HM IH]; intros pre Ep pseudo.
  { exists []. split; [done|]. symmetry. apply bool_decide_eq_true. intros HE. by apply Exists_nil in HE. }
  set (C := ed_encode (commitment (le_combine a) (si_v i))).
  destruct (IH (pre ++ [(mg, C)])) as (bs & E & Hb).
  { rewrite Ep, fmap_app, <- app_assoc. done. }
  assert (pseudo = (pre ++ [(mg, C)]).*2 ++ (ed_encode <$> commitments as_ (si_v <$> inputs))) as EP.
  { unfold pseudo. rewrite fmap_app, <- app_assoc. done. }
  cbv zeta in E. rewrite <- EP in E.
  eexists (_ :: bs). split.
  - cbn [map]. rewrite imap_cons. unfold compose. rewrite Nat.add_0_r.
    assert (verMG_task rv pseudo message (length pre) (si_pubs i) =
      Ret (bool_decide (¬ Exists (λ p, no_image p.1) (si_ring i)))) as ET.
    { unfold verMG_task. rewrite Ep. rewrite lookup_app_r, length_fmap, Nat.sub_diag by (rewrite length_fmap; lia).
      step_run (eq_refl ((mg :: mgs) !! 0%nat)). unfold pseudo.
      rewrite lookup_app_r, length_fmap, Nat.sub_diag by (rewrite length_fmap; lia).
      step_run (eq_refl (Some C)). exact Hmg. }
    cbn [tasks]. rewrite ET.
    rewrite (imap_ext _ (λ j, verMG_task rv pseudo message (length (pre ++ [(mg, C)]) + j))).
    2: { intros j x _. rewrite length_app. cbn [length]. f_equal. lia. }
    rewrite E. reflexivity.
  - cbn [forallb id]. rewrite Hb. rewrite <- bool_decide_and. apply bool_decide_ext.
    rewrite Exists_cons. tauto.
Qed.

(** ** A simple signature *)

Definition is_bulletproof (t : RangeProofType) : bool :=
  match t with RangeProofBorromean => false | _ => true end.

Lemma rp_outPk dests vs rp :
  rp_is vs rp → length dests = length vs →
  length (make_outPk dests (rp_C rp)) = length vs ∧
  ct_mask <$> make_outPk dests (rp_C rp) = ed_encode <$> commitments (rp_masks rp) vs.
Proof.
  intros [HL HF HC] HLd. assert (length (rp_C rp) = length vs) as HLC.
  { rewrite HC, length_fmap. unfold commitments. rewrite length_zip_with. lia. }
  split; [rewrite length_make_outPk; lia|]. rewrite make_outPk_mask by lia. exact HC.
Qed.

(** The mask of the last pseudo output makes the sums equal. *)
Lemma pseudo_balance as_ ins masks outs fee :
  length as_ = length ins → length masks = length outs →
  zsum (le_combine <$> as_) mod L = zsum (le_combine <$> masks) mod L → zsum ins = zsum outs + fee →
  point_sum (commitments as_ ins) = ed_add (ed_mul fee H25519) (point_sum (commitments masks outs)).
Proof.
  intros H1 H2 EM EV. rewrite !psum_commitments by done.
  rewrite ed_add_comm, commitment_add_H. rewrite <- (commitment_mod (zsum (le_combine <$> as_))), EM, commitment_mod.
  by rewrite EV.
Qed.

Lemma indices_inputs inputs : indices_ok (si_index <$> inputs) (map si_pubs inputs) = true.
Proof.
  induction inputs as [|i inputs IH]; [done|]. rewrite fmap_cons. unfold indices_ok. cbn [map zip_with forallb fst snd].
  apply andb_true_intro. split; [|exact IH]. apply Nat.ltb_lt. unfold si_index, si_pubs, si_ring.
  rewrite length_fmap, length_app. cbn. lia.
Qed.

Lemma nonsemantics_ok rv message inputs as_ mgs :
  rct_type rv = RCTTypeSimple ∨ rct_type rv = RCTTypeBulletproof →
  pseudo_of rv = ed_encode <$> commitments as_ (si_v <$> inputs) → rct_mixRing rv = map si_pubs inputs →
  p_MGs (rct_p rv) = mgs → get_pre_mlsag_hash rv = Ret message → Forall3 (mg_ok message) inputs as_ mgs →
  verRctNonSemanticsSimple rv =
    Ret (bool_decide (¬ Exists (λ i, Exists (λ p, no_image p.1) (si_ring i)) inputs)).
Proof.
  intros HT EP ER EM EH HM. unfold verRctNonSemanticsSimple.
  assert ((rct_type rv =? RCTTypeSimple) || (rct_type rv =? RCTTypeBulletproof) = true) as ->.
  { by destruct HT as [-> | ->]. }
  cbn [negb]. fold (pseudo_of rv). rewrite EP, ER, length_map, length_fmap.
  pose proof (Forall3_length_lm _ _ _ _ HM) as HL. unfold commitments at 1. rewrite length_zip_with, length_fmap.
  rewrite (proj2 (Nat.eqb_eq _ _)) by lia. cbn [negb].
  destruct (mgs_tasks rv message inputs as_ mgs [] HM EM) as (bs & E & Hb). cbv zeta in E. cbn [length] in E.
  step_ret EH. step_ret E. cbn [catch_all]. by rewrite Hb.
Qed.

Definition ms_sizes (kLRki : option (list multisig_kLRki)) (n : nat) : Prop :=
  match kLRki with Some kl => length kl = n | None => True end.

(** What the signatures of the inputs are made for *)
Record pseudo_is (inputs : list sinput) (aC : list (key * key)) : Prop := {
  ps_length : length aC = length inputs;
  ps_scalars : Forall scalar aC.*1;
  ps_points : aC.*2 = ed_encode <$> commitments aC.*1 (si_v <$> inputs)
}.

(** For any range proofs with the right commitments, and any signatures of the inputs *)
Lemma genRctSimple_any Q n t message dests vs fee aks outSk0 inputs kLRki rp s s1 :
  Forall amount_ok (si_v <$> inputs) → inputs ≠ [] → Forall amount_ok vs → amount_ok fee →
  length dests = length vs → length aks = length vs → ms_sizes kLRki (length inputs) →
  zsum (si_v <$> inputs) = zsum vs + fee →
  simple_outs n t vs s = Ret (rp, s1) → rng_ok s1 → rp_is vs rp →
  (∀ h aC s2, pseudo_is inputs aC → rng_ok s2 →
    ∃ mgs s3, simple_MGs h (map si_pubs inputs) (si_sk <$> inputs) aC kLRki (bool_decide (is_Some kLRki))
        (si_index <$> inputs) s2 = Ret (mgs, s3) ∧ rng_ok s3 ∧ length mgs = length inputs ∧ Q h aC.*1 mgs) →
  ∃ rv outSk s' es as_ h mgs,
    genRctSimple n message (si_sk <$> inputs) dests (si_v <$> inputs) vs fee (map si_pubs inputs) aks kLRki
      (bool_decide (is_Some kLRki)) (si_index <$> inputs) outSk0 t s =
      Ret ((rv, outSk, if bool_decide (is_Some kLRki) then Some (omap id mgs.*2) else None), s') ∧ rng_ok s' ∧
    rv = simple_sig (is_bulletproof t) message dests rp es fee (map si_pubs inputs)
      (ed_encode <$> commitments as_ (si_v <$> inputs)) mgs.*1 ∧
    length es = length vs ∧ length as_ = length inputs ∧ length mgs = length inputs ∧
    get_pre_mlsag_hash rv = Ret h ∧ Q h as_ mgs ∧
    sum_check rv = Ret true ∧ ct_mask <$> outSk = rp_masks rp ∧
    (∀ i v k m, vs !! i = Some v → aks !! i = Some k → rp_masks rp !! i = Some m →
      decodeRctSimple rv k i = Ret (v, Some m)).
Proof.
  intros HVi Hne HV Hfee HLd HLa Hms Hb E1 Hs1 Hrp HQ.
  destruct (rp_outPk dests vs rp Hrp HLd) as [HLp EOp]. destruct Hrp as [HLm HFm HC].
  destruct scalar_zero as [Hz Ez].
  destruct (encode_amounts_ok zero (rp_masks rp) vs aks Hz HFm HV HLm HLa) as (es & Ee & HLe & HE).
  rewrite Ez, Z.add_0_l in Ee. set (sumout := to_scalar (zsum (le_combine <$> rp_masks rp))) in *.
  destruct (pseudo_outs_ok sumout zero (si_v <$> inputs) s1) as (aC & s2 & E2 & Hs2 & HLc & HFa & EC & HZ);
    [apply to_scalar_scalar|done|done|by destruct inputs|done|].
  rewrite length_fmap in HLc. rewrite Ez, Z.sub_0_r in HZ. unfold sumout in HZ. rewrite le_combine_to_scalar in HZ.
  rewrite Z.mod_mod in HZ by (pose proof L_range; lia).
  set (rv := simple_sig (is_bulletproof t) message dests rp es fee (map si_pubs inputs) (ed_encode <$> commitments aC.*1 (si_v <$> inputs))).
  assert (∀ mgs, pseudo_of (rv mgs) = ed_encode <$> commitments aC.*1 (si_v <$> inputs)) as EPs.
  { intros mgs. unfold pseudo_of, rv, simple_sig. cbn [rct_type rct_p p_pseudoOuts rct_pseudoOuts].
    by destruct t. }
  assert (∀ mgs, base_shape (rv mgs)) as HBS.
  { intros mgs. split; cbn [rv simple_sig rct_mixRing rct_type rct_outPk rct_ecdhInfo rct_pseudoOuts].
    - by destruct inputs.
    - destruct t; cbn; tauto.
    - destruct t; cbn; [|done..]. intros _. rewrite length_fmap, length_map. unfold commitments.
      rewrite length_zip_with, !length_fmap. lia.
    - lia. }
  destruct (pre_hash_ok (rv []) (HBS [])) as (h & Eh & Hh).
  destruct (HQ h aC s2 ltac:(by split) Hs2) as (mgs & s3 & E3 & Hs3 & HLg & HM).
  exists (rv mgs.*1), (set_masks (resize_ct (length dests) outSk0) (rp_masks rp)), s3, es, aC.*1, h, mgs.
  split_and!; [|exact Hs3|reflexivity|exact HLe|rewrite length_fmap; lia|lia|exact Eh|exact HM|..].
  - unfold genRctSimple. rewrite !length_fmap, ?length_map.
    rewrite calc_check by (destruct inputs; [done|by apply Nat.ltb_lt; cbn; lia]).
    rewrite calc_check by apply Nat.eqb_refl. rewrite calc_check by (by apply Nat.eqb_eq).
    rewrite calc_check by (apply Nat.eqb_eq; lia).
    rewrite calc_check by apply Nat.eqb_refl. rewrite calc_check by apply Nat.eqb_refl.
    rewrite calc_check by apply indices_inputs. rewrite calc_check by (by destruct (bool_decide _)).
    rewrite calc_check by (destruct kLRki; [by apply Nat.eqb_eq|done]).
    rewrite (gen_bind_ret _ _ _ _ _ E1).
    rewrite (calc_step _ _ _ _ (run_some _ _ Ee)). rewrite (gen_bind_ret _ _ _ _ _ E2).
    change (match t with RangeProofBorromean => false | _ => true end) with (is_bulletproof t). rewrite EC. fold rv.
    rewrite (calc_step _ _ _ _ Eh). rewrite (gen_bind_ret _ _ _ _ _ E3). reflexivity.
  - rewrite (sum_check_ok (rv mgs.*1) (commitments aC.*1 (si_v <$> inputs)) (commitments (rp_masks rp) vs)
      (commitments_on_curve _ _) (commitments_on_curve _ _)); [|by rewrite EPs|exact EOp|exact Hfee].
    f_equal. apply bool_decide_eq_true. apply pseudo_balance; [rewrite !length_fmap; lia|lia|exact HZ|exact Hb].
  - apply set_masks_mask. rewrite length_resize_ct. lia.
  - intros i v k m Hv Hk Hm. unfold decodeRctSimple.
    assert ((rct_type (rv mgs.*1) =? RCTTypeSimple) || (rct_type (rv mgs.*1) =? RCTTypeBulletproof) = true) as ->.
    { unfold rv. cbn [simple_sig rct_type]. by destruct t. }
    cbn [negb]. assert (sent (rv mgs.*1) i k m v) as HS.
    { split; [exact (HE i m v k Hm Hv Hk)|].
      destruct (lookup_lt_is_Some_2 dests i) as [d Hd]; [rewrite HLd; by eapply lookup_lt_Some|].
      exists d. unfold rv. cbn [simple_sig rct_outPk]. unfold make_outPk. rewrite lookup_zip_with, Hd, HC. cbn [mbind option_bind].
      rewrite list_lookup_fmap. unfold commitments. rewrite lookup_zip_with, Hm. cbn [mbind option_bind]. rewrite Hv. done. }
    step_ret (decode_amount_ok (rv mgs.*1) i k m v HS ltac:(cbn [rv simple_sig rct_outPk rct_ecdhInfo]; lia)
      (proj1 (Forall_lookup _ _) HFm i m Hm) (proj1 (Forall_lookup _ _) HV i v Hv)). reflexivity.
Qed.

Lemma inputs_amounts inputs : Forall sinput_ok inputs → Forall amount_ok (si_v <$> inputs).
Proof. intros HI. apply Forall_fmap. eapply Forall_impl; [|exact HI]. by intros ? []. Qed.

(** One signer *)
Lemma genRctSimple_ok n t message dests vs fee aks outSk0 inputs rp s s1 :
  Forall sinput_ok inputs → Forall si_own inputs → inputs ≠ [] → Forall amount_ok vs → amount_ok fee →
  length dests = length vs → length aks = length vs → zsum (si_v <$> inputs) = zsum vs + fee →
  simple_outs n t vs s = Ret (rp, s1) → rng_ok s1 → rp_is vs rp →
  ∃ rv outSk s' es Cs mgs,
    genRctSimple n message (si_sk <$> inputs) dests (si_v <$> inputs) vs fee (map si_pubs inputs) aks None false
      (si_index <$> inputs) outSk0 t s = Ret ((rv, outSk, None), s') ∧ rng_ok s' ∧
    rv = simple_sig (is_bulletproof t) message dests rp es fee (map si_pubs inputs) Cs mgs ∧
    length es = length vs ∧ length Cs = length inputs ∧ length mgs = length inputs ∧
    sum_check rv = Ret true ∧
    verRctNonSemanticsSimple rv =
      Ret (bool_decide (¬ Exists (λ i, Exists (λ p, no_image p.1) (si_ring i)) inputs)) ∧
    ct_mask <$> outSk = rp_masks rp ∧
    (∀ i v k m, vs !! i = Some v → aks !! i = Some k → rp_masks rp !! i = Some m →
      decodeRctSimple rv k i = Ret (v, Some m)).
Proof.
  intros HI HW Hne HV Hfee HLd HLa Hb E1 Hs1 Hrp.
  destruct (genRctSimple_any (λ h as_ mgs, Forall3 (mg_ok h) inputs as_ mgs.*1)
    n t message dests vs fee aks outSk0 inputs None rp s s1)
    as (rv & outSk & s' & es & as_ & h & mgs & E & Hs' & Erv & HLe & HLa' & HLg & Eh & HM & HS & HO & HD); try done.
  { by apply inputs_amounts. }
  { intros h aC s2 [HLc HF EC] Hs2. by apply simple_MGs_ok. }
  exists rv, outSk, s', es, (ed_encode <$> commitments as_ (si_v <$> inputs)), mgs.*1.
  split_and!; try done.
  - unfold commitments. rewrite length_fmap, length_zip_with, length_fmap. lia.
  - by rewrite length_fmap.
  - subst rv. apply nonsemantics_ok with (message := h) (as_ := as_) (mgs := mgs.*1); try done.
    + cbn [simple_sig rct_type]. destruct t; cbn; tauto.
    + unfold pseudo_of, simple_sig. cbn [rct_type rct_p p_pseudoOuts rct_pseudoOuts]. by destruct t.
Qed.

(** ** The first check *)

(** With ring range proofs the generator is not used. *)
Lemma semantics_borromean rv bs s :
  rct_type rv = RCTTypeSimple → simple_sizes rv = true → sum_check rv = Ret true →
  tasks (verRanges (rct_outPk rv) (p_rangeSigs (rct_p rv))) = Ret bs →
  verRctSemanticsSimple1 rv s = (Ret (forallb id bs), s).
Proof.
  intros ET HS HC HT. unfold verRctSemanticsSimple1, verRctSemanticsSimple.
  assert (mapM id [Some rv] = Some [rv]) as -> by reflexivity. cbn [forallb]. rewrite HS. cbn [andb negb semantics_loop].
  rewrite HC. unfold is_rct_bulletproof. rewrite ET. change (RCTTypeSimple =? RCTTypeBulletproof) with false.
  cbn [app]. unfold mbind, genx_bind, calcx, mret, genx_ret. cbn [length Nat.eqb negb]. by rewrite HT.
Qed.

Lemma borromean_accepted message dests vs rp es fee pubs Cs mgs s :
  rp_is vs rp → length dests = length vs → length (rp_sigs rp) = length vs → length es = length vs →
  length Cs = length mgs →
  (∃ bs, tasks (verRanges (make_outPk dests (rp_C rp)) (rp_sigs rp)) = Ret bs ∧ forallb id bs = true) →
  let rv := simple_sig false message dests rp es fee pubs Cs mgs in
  sum_check rv = Ret true → verRctSemanticsSimple1 rv s = (Ret true, s).
Proof.
  intros Hrp HLd HLs HLe HLC (bs & Eb & Hbs) rv HS. rewrite <- Hbs.
  destruct (rp_outPk dests vs rp Hrp HLd) as [HLp _].
  apply semantics_borromean; [done| |exact HS|exact Eb]. unfold rv, simple_sizes, simple_sig.
  cbn [rct_type rct_p rct_outPk rct_ecdhInfo rct_pseudoOuts p_rangeSigs p_MGs p_pseudoOuts].
  rewrite HLp, HLs, HLC, HLe, !Nat.eqb_refl. done.
Qed.

Lemma genRctSimple_borromean n message dests vs fee aks outSk0 inputs s :
  Forall sinput_ok inputs → Forall si_own inputs → inputs ≠ [] → Forall amount_ok vs → amount_ok fee →
  length dests = length vs → length aks = length vs → zsum (si_v <$> inputs) = zsum vs + fee → rng_ok s →
  ∃ rv outSk s',
    genRctSimple n message (si_sk <$> inputs) dests (si_v <$> inputs) vs fee (map si_pubs inputs) aks None false
      (si_index <$> inputs) outSk0 RangeProofBorromean s = Ret ((rv, outSk, None), s') ∧ rng_ok s' ∧
    (∀ s'', verRctSemanticsSimple1 rv s'' = (Ret true, s'')) ∧
    verRctNonSemanticsSimple rv =
      Ret (bool_decide (¬ Exists (λ i, Exists (λ p, no_image p.1) (si_ring i)) inputs)) ∧
    length outSk = length vs ∧
    (∀ i v k, vs !! i = Some v → aks !! i = Some k →
      ∃ sk, outSk !! i = Some sk ∧ decodeRctSimple rv k i = Ret (v, Some (ct_mask sk))).
Proof.
  intros HI HW Hne HV Hfee HLd HLa Hb Hs.
  destruct (borromean_outs_ok vs s HV Hs) as (rp & s1 & E1 & Hs1 & Hrp & HP & HLs & HT).
  destruct (genRctSimple_ok n RangeProofBorromean message dests vs fee aks outSk0 inputs rp s s1)
    as (rv & outSk & s' & es & Cs & mgs & E & Hs' & Erv & HLe & HLC & HLg & HS & HN & HO & HD); try done.
  exists rv, outSk, s'. split; [exact E|]. split; [exact Hs'|]. split; [|split; [exact HN|]].
  - intros s''. subst rv. apply (borromean_accepted _ _ vs); [done..|lia|by apply HT|exact HS].
  - destruct Hrp as [HLm _ _]. pose proof (f_equal length HO) as HLo. rewrite length_fmap in HLo. split; [lia|].
    intros i v k Hv Hk. destruct (lookup_lt_is_Some_2 outSk i) as [sk Hsk].
    { rewrite HLo, HLm. by eapply lookup_lt_Some. }
    exists sk. split; [done|]. apply (HD i v k); [done|done|]. rewrite <- HO, list_lookup_fmap, Hsk. done.
Qed.

(** ** What the first check accepts is safe for the second *)

(** The data of a signature, as they come from the network: only the widths are known. *)
Record rct_bytes (rv : rctSig) : Prop := {
  rb_fee : amount_ok (rct_txnFee rv);
  rb_ring : Forall (Forall ct_bytes) (rct_mixRing rv);
  rb_outPk : Forall ct_bytes (rct_outPk rv);
  rb_pseudo : Forall bytes32 (rct_pseudoOuts rv) ∧ Forall bytes32 (p_pseudoOuts (rct_p rv));
  rb_range : Forall range_shape (p_rangeSigs (rct_p rv));
  rb_MGs : Forall mg_bytes (p_MGs (rct_p rv))
}.

Lemma verRanges_defined outPk sigs :
  Forall ct_bytes outPk → Forall range_shape sigs → ∃ bs, tasks (verRanges outPk sigs) = Ret bs.
Proof.
  intros HO. revert sigs. induction HO as [|p outPk [_ Hp] HO IH]; intros [|r sigs] HR; try by exists [].
  apply Forall_cons_1 in HR as [Hr HR]. destruct (IH sigs HR) as [bs E].
  destruct (verRange_ok (ct_mask p) r Hp Hr) as (b & Eb & _). exists (b :: bs).
  unfold verRanges in *. cbn [zip_with tasks]. rewrite Eb. by step_ret E.
Qed.

Lemma amountH_bytes v : amount_ok v → ∃ k, (fee ← d2h v; scalarmultH fee) = Some k ∧ bytes32 k.
Proof. intros Hv. eexists. split; [exact (amountH_ok v Hv)|apply bytes32_encode]. Qed.

Lemma verRct_total rv :
  rct_bytes rv →
  (∃ b, verRct rv true = Ret b) ∧ (verRct rv true = Ret true → ∃ b, verRct rv false = Ret b).
Proof.
  intros [HF HR HO _ HRa HM]. unfold verRct. destruct (negb (rct_type rv =? RCTTypeFull)); [by split; eauto|].
  cbn [andb]. split.
  - repeat (case_match; [by eexists|]). destruct (verRanges_defined _ _ HO HRa) as [bs ->].
    eexists. reflexivity.
  - intros HT. destruct (Nat.eqb_spec (length (p_MGs (rct_p rv))) 1) as [EM|EM].
    2: { repeat case_match; done. }
    apply defined_catch. destruct (amountH_bytes _ HF) as (k & Ek & Hk). step_run Ek.
    destruct (p_MGs (rct_p rv)) as [|mg [|? ?]]; [done| |done]. step_run (eq_refl ([mg] !! 0%nat)).
    apply Forall_cons_1 in HM as [Hmg _].
    eapply defined_bind; [exact (pre_hash_defined rv)|]. intros h Hh. by apply verRctMG_defined.
Qed.

Lemma addKeys_loop_defined ks P p : p3_is P p → Forall bytes32 ks → defined (λ p, ∃ P, p3_is P p) (addKeys_loop ks p).
Proof.
  intros Hp HF. revert P p Hp. induction HF as [|k ks Hk HF IH]; intros P p Hp; [by exists P|].
  cbn [addKeys_loop]. eapply defined_bind; [exact (load_key_defined k Hk)|].
  intros q (Q & _ & HQ). destruct (add_p3_ok _ _ _ _ Hp HQ) as (r & Er & Hr). step_run Er. by apply (IH _ _ Hr).
Qed.

Lemma addKeys_keyV_defined ks : Forall bytes32 ks → defined good_key (addKeys_keyV ks).
Proof.
  intros HF. destruct HF as [|k ks Hk HF].
  { exists ed_zero. split; [auto with edwards|exact rct_identity_ok]. }
  cbn [addKeys_keyV]. eapply defined_bind; [exact (load_key_defined k Hk)|]. intros p (P & _ & Hp).
  eapply defined_bind; [exact (addKeys_loop_defined ks P p Hp HF)|]. intros q (Q & HQ).
  rewrite (run_some _ _ (ge_p3_tobytes_ok _ _ HQ)). exists Q. split; [exact (proj1 HQ)|reflexivity].
Qed.

Lemma sum_check_defined rv : rct_bytes rv → defined (λ _, True) (sum_check rv).
Proof.
  intros [HF _ HO [HP1 HP2] _ _]. unfold sum_check.
  assert (Forall bytes32 (ct_mask <$> rct_outPk rv)) as HM.
  { apply Forall_fmap. eapply Forall_impl; [|exact HO]. by intros ? []. }
  eapply defined_bind; [exact (addKeys_keyV_defined _ HM)|]. intros a Ha.
  destruct (amountH_bytes _ HF) as (k & Ek & Hk). step_run Ek.
  eapply defined_bind; [exact (proj1 (addKeys_defined _ _ Hk (good_bytes32 _ Ha)))|]. intros b Hb.
  eapply defined_bind; [|intros c Hc; exact I].
  apply addKeys_keyV_defined. by destruct (is_rct_bulletproof _).
Qed.

Lemma semantics_total rv s :
  rct_bytes rv → rct_type rv ≠ RCTTypeBulletproof → ∃ b, verRctSemanticsSimple1 rv s = (Ret b, s).
Proof.
  intros HB HT. unfold verRctSemanticsSimple1, verRctSemanticsSimple.
  assert (mapM id [Some rv] = Some [rv]) as -> by reflexivity. cbn [forallb].
  destruct (simple_sizes rv) eqn:HS; cbn [andb negb]; [|by eexists].
  assert (rct_type rv = RCTTypeSimple) as ET.
  { unfold simple_sizes in HS. apply andb_prop in HS as [HS _]. apply andb_prop in HS as [HS _].
    apply orb_prop in HS as [HS|HS]; apply Z.eqb_eq in HS; done. }
  pose proof (sum_check_defined rv HB) as HD. destruct HB as [_ _ HO _ HRa _]. cbn [semantics_loop].
  destruct (sum_check rv) as [[|]| |]; [|by eexists|by eexists|done].
  unfold is_rct_bulletproof. rewrite ET. change (RCTTypeSimple =? RCTTypeBulletproof) with false.
  destruct (verRanges_defined _ _ HO HRa) as [bs Eb].
  cbn [app]. unfold mbind, genx_bind, calcx, mret, genx_ret. cbn [length Nat.eqb negb]. rewrite Eb. by eexists.
Qed.

Lemma tasks_defined l : Forall (λ t, ∃ b, t = Ret b) l → ∃ bs, tasks l = Ret bs.
Proof.
  induction 1 as [|t l [b ->] HF [bs E]]; [by exists []|]. exists (b :: bs). cbn [tasks]. by step_ret E.
Qed.

(** After the sizes are checked no access of the second check is out of bounds. *)
Lemma nonsemantics_total rv :
  rct_bytes rv → simple_sizes rv = true → ∃ b, verRctNonSemanticsSimple rv = Ret b.
Proof.
  intros [_ HR _ [HP1 HP2] _ HM] HS. apply defined_catch.
  destruct (negb _); [done|]. cbv zeta. fold (pseudo_of rv).
  destruct (Nat.eqb_spec (length (pseudo_of rv)) (length (rct_mixRing rv))) as [EL|]; [|done]. cbn [negb].
  assert (length (p_MGs (rct_p rv)) = length (pseudo_of rv)) as EM.
  { unfold simple_sizes in HS. unfold pseudo_of. apply andb_prop in HS as [HS _]. apply andb_prop in HS as [_ HS].
    destruct (is_rct_bulletproof _); apply andb_prop in HS as [HS _]; apply andb_prop in HS as [_ HS];
      by apply Nat.eqb_eq in HS. }
  assert (Forall bytes32 (pseudo_of rv)) as HP by (unfold pseudo_of; by destruct (is_rct_bulletproof _)).
  eapply defined_bind; [exact (pre_hash_defined rv)|]. intros h Hh.
  destruct (tasks_defined (imap (verMG_task rv (pseudo_of rv) h) (rct_mixRing rv))) as [bs Eb].
  { apply Forall_lookup. intros i t Ht. apply list_lookup_imap_Some in Ht as (ring & Hring & ->).
    unfold verMG_task. pose proof (lookup_lt_Some _ _ _ Hring) as Hi.
    destruct (lookup_lt_is_Some_2 (p_MGs (rct_p rv)) i ltac:(lia)) as [mg Hmg]. step_run Hmg.
    destruct (lookup_lt_is_Some_2 (pseudo_of rv) i ltac:(lia)) as [C HC]. step_run HC.
    apply verRctMGSimple_defined; [exact (proj1 (Forall_lookup _ _) HR i ring Hring)|
      exact (proj1 (Forall_lookup _ _) HP i C HC)|exact (proj1 (Forall_lookup _ _) HM i mg Hmg)]. }
  step_ret Eb. exact I.
Qed.
(** The first check looks at the sizes. *)
Lemma semantics_sizes rv s : (verRctSemanticsSimple1 rv s).1 = Ret true → simple_sizes rv = true.
Proof.
  unfold verRctSemanticsSimple1, verRctSemanticsSimple.
  assert (mapM id [Some rv] = Some [rv]) as -> by reflexivity. cbn [forallb]. by destruct (simple_sizes rv).
Qed.

(** Leaving after the tasks of the first signature of a batch *)
Lemma semantics_batch rv1 rv2 s :
  simple_sizes rv1 = true → simple_sizes rv2 = true → rct_type rv1 = RCTTypeSimple →
  sum_check rv1 = Ret true → sum_check rv2 = Ret false ∨ sum_check rv2 = Throw →
  verRctSemanticsSimple [Some rv1; Some rv2] s =
    (leave (max_non_bp_proofs [rv1; rv2]) (verRanges (rct_outPk rv1) (p_rangeSigs (rct_p rv1))), s).
Proof.
  intros H1 H2 ET E1 E2. unfold verRctSemanticsSimple.
  assert (mapM id [Some rv1; Some rv2] = Some [rv1; rv2]) as -> by reflexivity. cbn [forallb].
  rewrite H1, H2. cbn [andb negb semantics_loop]. rewrite E1. unfold is_rct_bulletproof at 1. rewrite ET.
  change (RCTTypeSimple =? RCTTypeBulletproof) with false. cbn [app].
  destruct E2 as [-> | ->]; unfold mbind, genx_bind, calcx, outcome_bind; by destruct (leave _ _).
Qed.

(** There is a task for each output. *)
Lemma simple_tasks rv :
  simple_sizes rv = true → rct_type rv = RCTTypeSimple →
  length (verRanges (rct_outPk rv) (p_rangeSigs (rct_p rv))) = length (rct_outPk rv) ∧
  length (p_rangeSigs (rct_p rv)) = length (rct_outPk rv).
Proof.
  intros HS ET. unfold simple_sizes, is_rct_bulletproof in HS. rewrite ET in HS.
  change (RCTTypeSimple =? RCTTypeBulletproof) with false in HS.
  apply andb_prop in HS as [HS _]. apply andb_prop in HS as [_ HS]. apply andb_prop in HS as [HS _].
  apply andb_prop in HS as [HS _]. apply Nat.eqb_eq in HS. unfold verRanges. rewrite length_zip_with. lia.
Qed.
End rct_sigs_spec.

(** ** The properties *)

(** C2. Full signatures are complete.  For inputs whose amounts are those of the
    outputs plus the fee, in a ring of at least two columns of points,
    [genRct] returns a signature; [verRct] accepts its range proofs, and its ring
    signature unless a key of the ring is hashed to the neutral
    element; and [decodeRct] with the key of an output returns its amount
    and the mask of its commitment. *)
Theorem rct_full_spec (ND : Build) (message : key) (dests : keyV) (vs fees : list Z) (aks : keyV)
    (outSk0 : ctkeyV) (cols1 cols2 : list (list (point * point))) (ins : list (ctkey * Z)) (s : random_state) :
  columns (length ins) cols1 → columns (length ins) cols2 → (1 ≤ length cols1 + length cols2)%nat →
  (1 ≤ length ins)%nat → Forall secret_ok ins.*1 → Forall amount_ok vs → Forall amount_ok fees →
  (length fees ≤ 1)%nat → length dests = length vs → length aks = length vs →
  zsum ins.*2 = zsum vs + zsum fees → random_ready s →
  let cols := cols1 ++ input_points ins :: cols2 in
  ∃ rv outSk s',
    genRct message ins.*1 dests (vs ++ fees) (ct_columns cols) aks None false (length cols1) outSk0 s =
      Ret ((rv, outSk, None), s') ∧ random_ready s' ∧
    verRct rv true = Ret true ∧
    verRct rv false = Ret (bool_decide (¬ Exists (Exists (λ p, no_image p.1)) cols)) ∧
    length outSk = length vs ∧
    (∀ i v k, vs !! i = Some v → aks !! i = Some k →
      ∃ sk, outSk !! i = Some sk ∧ decodeRct rv k i = Ret (v, Some (ct_mask sk))).
Proof.
  intros H1 H2 Hc Hn HS HV HF HL HLd HLa Hb Hs cols.
  refine (genRct_ok message dests vs fees aks outSk0 cols1 cols2 ins s H1 H2 _ Hn HS HV HF HL HLd HLa Hb (rng_ready s Hs)).
  rewrite length_app. cbn. lia.
Qed.

(** C1. Simple signatures are complete.  For inputs whose amounts are those of the
    outputs plus the fee, each in a ring of at least two points,
    [genRctSimple] with ring range proofs returns a signature;
    [verRctSemanticsSimple] accepts it; [verRctNonSemanticsSimple] accepts it
    unless a key of a ring is hashed to the neutral element; and
    [decodeRctSimple] returns the amounts and the masks. *)
Theorem rct_simple_spec (ND : Build) (BN : BigNum) (SP : Schedule) (n : nat) (message : key) (dests : keyV) (vs : list Z)
    (fee : Z) (aks : keyV) (outSk0 : ctkeyV) (inputs : list sinput) (s : random_state) :
  Forall sinput_ok inputs → Forall si_own inputs → inputs ≠ [] → Forall amount_ok vs → amount_ok fee →
  length dests = length vs → length aks = length vs → zsum (si_v <$> inputs) = zsum vs + fee →
  random_ready s →
  ∃ rv outSk s',
    genRctSimple n message (si_sk <$> inputs) dests (si_v <$> inputs) vs fee (map si_pubs inputs) aks None false
      (si_index <$> inputs) outSk0 RangeProofBorromean s = Ret ((rv, outSk, None), s') ∧ random_ready s' ∧
    (∀ s'' : random_state, verRctSemanticsSimple1 rv s'' = (Ret true, s'')) ∧
    verRctNonSemanticsSimple rv =
      Ret (bool_decide (¬ Exists (λ i, Exists (λ p, no_image p.1) (si_ring i)) inputs)) ∧
    length outSk = length vs ∧
    (∀ i v k, vs !! i = Some v → aks !! i = Some k →
      ∃ sk, outSk !! i = Some sk ∧ decodeRctSimple rv k i = Ret (v, Some (ct_mask sk))).
Proof.
  intros HI HW Hne HV Hf HLd HLa Hb Hs.
  exact (genRctSimple_borromean n message dests vs fee aks outSk0 inputs s HI HW Hne HV Hf HLd HLa Hb (rng_ready s Hs)).
Qed.

(** C10. What the first check accepts is safe for the second, whatever the bytes of the
    signature, which come from the network.  The first check returns
    (for a signature without bulletproofs): [verRct] with [semantics] and
    [verRctSemanticsSimple] read nothing out of bounds and let no exception
    out.  When it returns true the second one, [verRct] without
    [semantics] or [verRctNonSemanticsSimple], returns too; it reads
    [MGs[i]] without checking their number. *)
Theorem rct_checks_total_spec (ND : Build) (BN : BigNum) (SP : Schedule) (rv : rctSig) (s : random_state) :
  rct_bytes rv →
  (∃ b, verRct rv true = Ret b) ∧
  (verRct rv true = Ret true → ∃ b, verRct rv false = Ret b) ∧
  (rct_type rv ≠ RCTTypeBulletproof → ∃ b, verRctSemanticsSimple1 rv s = (Ret b, s)) ∧
  ((verRctSemanticsSimple1 rv s).1 = Ret true → ∃ b, verRctNonSemanticsSimple rv = Ret b).
Proof.
  intros HB. destruct (verRct_total rv HB) as [H1 H2].
  split; [exact H1|]. split; [exact H2|]. split; [by apply semantics_total|].
  intros HT. apply nonsemantics_total; [exact HB|exact (semantics_sizes rv s HT)].
Qed.

(** The check of the sums is the equation between the commitments.  When
    the pseudo outputs and the outputs are points, [sum_check] is true
    exactly when the sum of the pseudo outputs is the sum of the outputs plus
    the fee times [H]; for commitments [a G + v H] with equal sums of masks
    this holds when the amounts balance. *)
Theorem sum_check_spec (rv : rctSig) (Ps Os : list point) :
  Forall on_curve Ps → Forall on_curve Os → pseudo_of rv = ed_encode <$> Ps →
  ct_mask <$> rct_outPk rv = ed_encode <$> Os → amount_ok (rct_txnFee rv) →
  sum_check rv = Ret (bool_decide (point_sum Ps = ed_add (ed_mul (rct_txnFee rv) H25519) (point_sum Os))) ∧
  (∀ as_ ins masks outs, Ps = commitments as_ ins → Os = commitments masks outs →
    length as_ = length ins → length masks = length outs →
    zsum (le_combine <$> as_) mod L = zsum (le_combine <$> masks) mod L →
    zsum ins = zsum outs + rct_txnFee rv → sum_check rv = Ret true).
Proof.
  intros HP HO EP EO Hf. pose proof (sum_check_ok rv Ps Os HP HO EP EO Hf) as E. split; [exact E|].
  intros as_ ins masks outs -> -> H1 H2 HM HV. rewrite E. f_equal. apply bool_decide_eq_true.
  by apply pseudo_balance.
Qed.

#[local] Existing Instance debug_build.

(** A library whose inverses are not used here *)
Definition no_inverse : BigNum := λ _ _, None.

(** A schedule that is not used here *)
Definition no_turns : Schedule := {| pool_max := 1; call_depth := 0; turns := [] |}.

Definition small_sk : ctkey := {| ct_dest := to_scalar 3; ct_mask := to_scalar 4 |}.
Definition small_decoy : point * point := (mulG 5, mulG 6).
Definition small_input : sinput :=
  {| si_sk := small_sk; si_key := le_combine (to_scalar 3); si_v := 10; si_before := []; si_after := [small_decoy] |}.

Lemma small_decoy_curve : Forall ct_curve [small_decoy].
Proof. constructor; [split; apply mulG_on_curve|constructor]. Qed.

Lemma small_secret_ok : secret_ok small_sk.
Proof. split; apply to_scalar_scalar. Qed.

Lemma small_input_ok : sinput_ok small_input.
Proof.
  split; [constructor|exact small_decoy_curve|cbn; lia|exact small_secret_ok|unfold amount_ok; cbn [small_input si_v]; lia].
Qed.

Lemma small_amounts v : 0 ≤ v < 100 → Forall amount_ok [v].
Proof. intros Hv. constructor; [unfold amount_ok; lia|constructor]. Qed.

Lemma rct_full_spec_witness :
  ∃ rv outSk s', genRct rct_G [small_sk] [rct_G] [7; 3] (ct_columns [input_points [(small_sk, 10)]; [small_decoy]])
      [rct_H] None false 0 [] ready_state = Ret ((rv, outSk, None), s') ∧
    verRct rv true = Ret true ∧ ∃ sk, outSk !! 0%nat = Some sk ∧ decodeRct rv rct_H 0 = Ret (7, Some (ct_mask sk)).
Proof.
  destruct (rct_full_spec false rct_G [rct_G] [7] [3] [rct_H] [] [] [[small_decoy]] [(small_sk, 10)] ready_state)
    as (rv & outSk & s' & E & _ & V & _ & _ & D).
  - constructor.
  - constructor; [split; [reflexivity|exact small_decoy_curve]|constructor].
  - cbn; lia.
  - cbn; lia.
  - constructor; [exact small_secret_ok|constructor].
  - apply small_amounts; lia.
  - apply small_amounts; lia.
  - cbn; lia.
  - reflexivity.
  - reflexivity.
  - reflexivity.
  - exact ready_state_ok.
  - exists rv, outSk, s'. split; [exact E|]. split; [exact V|]. exact (D 0%nat 7 rct_H eq_refl eq_refl).
Defined.

Lemma rct_simple_spec_witness :
  ∃ rv outSk s', @genRctSimple _ _ no_inverse _ _ 0 rct_G [small_sk] [rct_G] [10] [7] 3 [si_pubs small_input] [rct_H] None false
      [0%nat] [] RangeProofBorromean ready_state = Ret ((rv, outSk, None), s') ∧
    ∃ sk, outSk !! 0%nat = Some sk ∧ decodeRctSimple rv rct_H 0 = Ret (7, Some (ct_mask sk)).
Proof.
  destruct (rct_simple_spec false no_inverse no_turns 0 rct_G [rct_G] [7] 3 [rct_H] [] [small_input] ready_state)
    as (rv & outSk & s' & E & _ & _ & _ & _ & D).
  - constructor; [exact small_input_ok|constructor].
  - constructor; [reflexivity|constructor].
  - discriminate.
  - apply small_amounts; lia.
  - unfold amount_ok; lia.
  - reflexivity.
  - reflexivity.
  - reflexivity.
  - exact ready_state_ok.
  - exists rv, outSk, s'. split; [exact E|]. exact (D 0%nat 7 rct_H eq_refl eq_refl).
Defined.

(** One input and [n] outputs of the same commitment *)
Definition small_rct (n : nat) : rctSig := {|
  rct_type := RCTTypeSimple; rct_message := rct_G; rct_mixRing := [[{| ct_dest := rct_G; ct_mask := rct_G |}]];
  rct_pseudoOuts := [rct_G];
  rct_ecdhInfo := replicate n {| ecdh_mask := rct_G; ecdh_amount := rct_G; ecdh_senderPk := rct_G |};
  rct_outPk := replicate n {| ct_dest := rct_G; ct_mask := rct_G |}; rct_txnFee := 0;
  rct_p := {| p_rangeSigs := replicate n ones_sig; p_bulletproofs := []; p_MGs := [small_sig]; p_pseudoOuts := [] |}
|}.

Lemma rct_G_bytes : bytes32 rct_G.
Proof. rewrite rct_G_ok. apply bytes32_encode. Qed.

Lemma small_rct_bytes n : rct_bytes (small_rct n).
Proof.
  pose proof rct_G_bytes as HG.
  split; [unfold amount_ok; cbn; lia| | | | |].
  - constructor; [constructor; [by split|constructor]|constructor].
  - by apply Forall_replicate.
  - split; [by constructor|constructor].
  - apply Forall_replicate, ones_sig_shape.
  - constructor; [exact small_sig_bytes|constructor].
Qed.

Lemma small_rct_sum n :
  sum_check (small_rct n) = Ret (bool_decide (point_sum [B25519] = ed_add (ed_mul 0 H25519) (point_sum (replicate n B25519)))).
Proof.
  apply sum_check_ok.
  - constructor; [exact (proj1 l_torsion_B)|constructor].
  - apply Forall_replicate. exact (proj1 l_torsion_B).
  - exact (f_equal (λ k, [k]) rct_G_ok).
  - cbn [small_rct rct_outPk]. rewrite !fmap_replicate. reflexivity.
  - unfold amount_ok. cbn. lia.
Qed.

Lemma rct_checks_total_spec_witness :
  ∃ b, @verRctSemanticsSimple1 _ _ no_inverse _ _ no_turns (small_rct 1) ready_state = (Ret b, ready_state).
Proof.
  destruct (rct_checks_total_spec false no_inverse no_turns (small_rct 1) ready_state (small_rct_bytes 1)) as (_ & _ & H & _).
  exact (H ltac:(discriminate)).
Defined.

Lemma sum_check_spec_witness : sum_check (small_rct 1) =
  Ret (bool_decide (point_sum [B25519] = ed_add (ed_mul (rct_txnFee (small_rct 1)) H25519) (point_sum [B25519]))).
Proof.
  refine (proj1 (sum_check_spec (small_rct 1) [B25519] [B25519] _ _ (f_equal (λ k, [k]) rct_G_ok)
    (f_equal (λ k, [k]) rct_G_ok) _)).
  - constructor; [exact (proj1 l_torsion_B)|constructor].
  - constructor; [exact (proj1 l_torsion_B)|constructor].
  - unfold amount_ok. cbn. lia.
Defined.
