(* ===== verification/RctBatchSpec.v ===== *)
(** * A batch of signatures that is left early

    [verRctSemanticsSimple] hands the range proofs of a signature to the thread pool before it looks at
    the next one of the batch.  What happens when the next one fails its check depends on the pool. *)

From S2P Require Export RctSigsSpec PoolLeavingSpec.

#[local] Open Scope Z_scope.



Section left.
Context `{Build} (n : nat) (bs : list bool) (Hn : (length bs ≤ n)%nat) (HL : Z.of_nat (length bs) < 2 ^ 31) (Hbs : bs ≠ []).





End left.


#[local] Existing Instance debug_build.

