(* ===== verification/RctBulletproofSpec.v ===== *)
(** * Transactions with bulletproofs

    [genRctSimple] with one padded bulletproof for all the outputs, the kind
    that the wallet asks for, and the two checks of the signature it returns. *)

From S2P Require Export BulletproofsSpec RctSigsSpec.

#[local] Open Scope Z_scope.

Section padded.
Context {F : FastHash} {FL' : FastHashLaws F} {RH : RctHash} {RHL : RctHashLaws F RH}.
Context {BN : BigNum} {BNL : BigNumLaws BN} {SP : Schedule}.
Context {G : Type} {R : Rng G} {RL : RngLaws R}.

(** The commitments are those of [genRctSimple]. *)
Lemma commitment_keys_eq vs masks : commitment_keys vs masks = ed_encode <$> commitments masks vs.
Proof.
  unfold commitment_keys, commitments. revert vs. induction masks as [|m masks IH]; intros [|v vs]; [done..|].
  cbn [zip_with]. rewrite fmap_cons. f_equal. apply IH.
Qed.

(** The number of amounts that the sizes of a proof stand for *)
Lemma proof_amounts proof q : pre_view proof q → n_bulletproofs_amounts [proof] = Z.of_nat (length (bp_V proof)).
Proof.
  intros Hq. destruct (pv_lengths _ _ Hq) as (HL & HR & _). unfold n_bulletproofs_amounts. cbn [sum_amounts].
  unfold n_bulletproof_amounts. rewrite HL, HR, (proj1 (pv_V _ _ Hq)), <- (pv_logM _ _ Hq).
  pose proof (pv_n _ _ Hq) as Hn. revert Hn. generalize (q_n q). intros n Hn.
  do 17 (destruct n as [|n]; [try lia; reflexivity|]). lia.
Qed.

Lemma times8_length l l' : times8 l = Ret l' → length l = length l'.
Proof.
  revert l'. induction l as [|k l IH]; intros l'; cbn [times8]; [by intros [= <-]|].
  destruct (scalarmult8 k) as [x| |]; try discriminate. cbn [mbind outcome_bind].
  destruct (times8 l) as [l1| |]; try discriminate. intros [= <-]. cbn [length]. f_equal. by apply IH.
Qed.

Lemma attempts_step {A} (m : gen G (option A)) s o s' :
  m s = Ret (o, s') → attempts m s = match o with Some a => Ret (a, s') | None => Undef end.
Proof. intros E. unfold attempts. rewrite (gen_bind_ret _ _ _ _ _ E). by destruct o. Qed.

(** The outputs *)
Lemma padded_outs n vs s :
  (1 ≤ length vs ≤ 16)%nat → Forall amount_ok vs → rng_ok s →
  match simple_outs n RangeProofPaddedBulletproof vs s with
  | Ret (rp, s') => rng_ok s' ∧ rp_is vs rp ∧
      ∃ proof, rp_proofs rp = [proof] ∧ n_bulletproofs_amounts [proof] = Z.of_nat (length vs) ∧
        ∀ r, rng_ok r → verifies [proof] r
  | Throw => init_exponents = Throw
  | Undef => ∃ masks s0, skvGen (length vs) s = Ret (masks, s0) ∧ (n = O ∨ attempt_fails vs masks s0)
  end.
Proof.
  intros Hn HV Hs. cbn [simple_outs]. unfold prove_batch, proveRangeBulletproof.
  destruct (skvGen_ok (length vs) s ltac:(lia) Hs) as (masks & s0 & HL & HF & Hs0 & E0).
  assert (prover_input vs masks) as Hi by (split; [exact Hn|exact HV|by split]).
  destruct init_exponents_ok as [ET|(E & g & h & EE & HE)].
  { pose proof (PROVE_throws n vs masks s0 Hi ET) as EP. unfold mbind, gen_bind, attempts. rewrite E0. cbn [fst snd].
    unfold mbind, gen_bind. by rewrite EP. }
  destruct H_log as [eta Heta].
  destruct (PROVE_result eta Heta g h E EE HE n vs masks s0 Hi Hs0) as (o & s' & Hs' & EP & HO).
  pose proof (attempts_step _ _ _ _ EP) as EA. destruct o as [proof|].
  - destruct HO as (V & Hp & E8). pose proof Hp as (EV & q & Hq & _). pose proof (times8_length _ _ E8) as HLV.
    assert (length V = length vs) as HV'.
    { rewrite HLV, commitment_keys_eq, length_fmap. unfold commitments. rewrite length_zip_with. lia. }
    assert ((masks0 ← skvGen (length vs); proof0 ← attempts (bulletproof_PROVE n vs masks0);
      _ ← calc (throw_unless (length (bp_V proof0) =? length vs)%nat);
      mret (proof0, bp_V proof0, masks0) : gen G (Bulletproof * keyV * keyV)) s = Ret ((proof, V, masks), s')) as E1.
    { rewrite (gen_bind_ret _ _ _ _ _ E0), (gen_bind_ret _ _ _ _ _ EA).
      rewrite calc_check by (apply Nat.eqb_eq; by rewrite EV). by rewrite EV. }
    rewrite (gen_bind_ret _ _ _ _ _ E1). rewrite (calc_step _ _ _ _ E8). split; [exact Hs'|].
    split; [split; [exact HL|exact HF|exact (commitment_keys_eq vs masks)]|].
    exists proof. split; [done|]. split; [rewrite (proof_amounts proof q (vo_pre _ _ Hq)); by rewrite EV, HV'|].
    intros r Hr. apply (proves_verify eta Heta g h E EE HE); [|exact Hr]. constructor; [by exists V|constructor].
  - assert ((masks0 ← skvGen (length vs); proof0 ← attempts (bulletproof_PROVE n vs masks0);
      _ ← calc (throw_unless (length (bp_V proof0) =? length vs)%nat);
      mret (proof0, bp_V proof0, masks0) : gen G (Bulletproof * keyV * keyV)) s = Undef) as E1.
    { rewrite (gen_bind_ret _ _ _ _ _ E0). unfold mbind, gen_bind. by rewrite EA. }
    unfold mbind at 1, gen_bind at 1. rewrite E1. by exists masks, s0.
Qed.

(** ** The checks *)

Lemma semantics_bulletproof rv proof s :
  rct_type rv = RCTTypeBulletproof → p_bulletproofs (rct_p rv) = [proof] →
  simple_sizes rv = true → sum_check rv = Ret true →
  verRctSemanticsSimple1 rv s = verBulletproof [proof] s.
Proof.
  intros ET EP HS HC. unfold verRctSemanticsSimple1, verRctSemanticsSimple.
  assert (mapM id [Some rv] = Some [rv]) as -> by reflexivity. cbn [forallb]. rewrite HS. cbn [andb negb semantics_loop].
  rewrite HC. unfold is_rct_bulletproof. rewrite ET. change (RCTTypeBulletproof =? RCTTypeBulletproof) with true.
  cbv iota. rewrite EP. cbn [app]. unfold mbind, genx_bind, calcx, mret, genx_ret. cbn [length Nat.eqb].
  destruct (verBulletproof [proof] s) as [[b| |] s']; [|done..]. by destruct b.
Qed.

Lemma padded_sizes message dests vs rp es fee pubs Cs mgs proof :
  rp_is vs rp → rp_proofs rp = [proof] → n_bulletproofs_amounts [proof] = Z.of_nat (length vs) →
  length dests = length vs → length es = length vs → length Cs = length mgs →
  simple_sizes (simple_sig true message dests rp es fee pubs Cs mgs) = true.
Proof.
  intros Hrp EP EN HLd HLe HLC. destruct (rp_outPk dests vs rp Hrp HLd) as [HLp _]. unfold simple_sizes, simple_sig.
  cbn [rct_type rct_p rct_outPk rct_ecdhInfo rct_pseudoOuts p_rangeSigs p_MGs p_pseudoOuts p_bulletproofs].
  change (is_rct_bulletproof RCTTypeBulletproof) with true. cbv iota.
  rewrite EP, EN, HLp, HLC, HLe, !Z.eqb_refl, !Nat.eqb_refl. done.
Qed.

(** No signature without range proofs *)
Lemma genRctSimple_fails n t message dests vs fee aks kLRki outSk0 inputs s :
  inputs ≠ [] → length dests = length vs → length aks = length vs → ms_sizes kLRki (length inputs) →
  let sign := genRctSimple n message (si_sk <$> inputs) dests (si_v <$> inputs) vs fee (map si_pubs inputs) aks kLRki
    (bool_decide (is_Some kLRki)) (si_index <$> inputs) outSk0 t s in
  match simple_outs n t vs s with
  | Ret _ => True
  | Throw => sign = Throw
  | Undef => sign = Undef
  end.
Proof.
  intros Hne HLd HLa Hms sign. unfold sign. clear sign.
  assert (∀ (k : range_proofs → gen G (rctSig * ctkeyV * option keyV)),
    match simple_outs n t vs s with
    | Ret _ => True
    | Throw => (simple_outs n t vs ≫= k) s = Throw
    | Undef => (simple_outs n t vs ≫= k) s = Undef
    end) as Hk.
  { intros k. unfold mbind, gen_bind. by destruct (simple_outs n t vs s). }
  unfold genRctSimple. rewrite !length_fmap, ?length_map.
  rewrite calc_check by (destruct inputs; [done|by apply Nat.ltb_lt; cbn; lia]).
  rewrite calc_check by apply Nat.eqb_refl. rewrite calc_check by (by apply Nat.eqb_eq).
  rewrite calc_check by (apply Nat.eqb_eq; lia).
  rewrite calc_check by apply Nat.eqb_refl. rewrite calc_check by apply Nat.eqb_refl.
  rewrite calc_check by apply indices_inputs. rewrite calc_check by (by destruct (bool_decide _)).
  rewrite calc_check by (destruct kLRki; [by apply Nat.eqb_eq|done]). apply Hk.
Qed.

Lemma genRctSimple_padded n message dests vs fee aks outSk0 inputs s :
  Forall sinput_ok inputs → Forall si_own inputs → inputs ≠ [] → (1 ≤ length vs ≤ 16)%nat → Forall amount_ok vs →
  amount_ok fee → length dests = length vs → length aks = length vs → zsum (si_v <$> inputs) = zsum vs + fee →
  rng_ok s →
  match genRctSimple n message (si_sk <$> inputs) dests (si_v <$> inputs) vs fee (map si_pubs inputs) aks None false
    (si_index <$> inputs) outSk0 RangeProofPaddedBulletproof s with
  | Ret ((rv, outSk, c), s') => c = None ∧ rng_ok s' ∧
      (∃ proof, ∀ r, rng_ok r → verifies [proof] r ∧ verRctSemanticsSimple1 rv r = verBulletproof [proof] r) ∧
      verRctNonSemanticsSimple rv =
        Ret (bool_decide (¬ Exists (λ i, Exists (λ p, no_image p.1) (si_ring i)) inputs)) ∧
      length outSk = length vs ∧
      (∀ i v k, vs !! i = Some v → aks !! i = Some k →
        ∃ sk, outSk !! i = Some sk ∧ decodeRctSimple rv k i = Ret (v, Some (ct_mask sk)))
  | Throw => init_exponents = Throw
  | Undef => ∃ masks s0, skvGen (length vs) s = Ret (masks, s0) ∧ (n = O ∨ attempt_fails vs masks s0)
  end.
Proof.
  intros HI HW Hne Hn HV Hfee HLd HLa Hb Hs.
  pose proof (padded_outs n vs s Hn HV Hs) as HP.
  pose proof (genRctSimple_fails n RangeProofPaddedBulletproof message dests vs fee aks None outSk0 inputs s Hne HLd HLa I) as HFl.
  cbn [is_Some] in HFl. rewrite (bool_decide_eq_false_2 (is_Some None)) in HFl by (by intros []).
  destruct (simple_outs n RangeProofPaddedBulletproof vs s) as [[rp s1]| |] eqn:E1; [|rewrite HFl; exact HP..].
  destruct HP as (Hs1 & Hrp & proof & EP & EN & HVr).
  destruct (genRctSimple_ok n RangeProofPaddedBulletproof message dests vs fee aks outSk0 inputs rp s s1)
    as (rv & outSk & s' & es & Cs & mgs & E & Hs' & Erv & HLe & HLC & HLg & HS & HN & HO & HD); try done.
  rewrite E. split; [done|]. split; [exact Hs'|]. split; [|split; [exact HN|]].
  - exists proof. intros r Hr. split; [by apply HVr|]. subst rv. apply semantics_bulletproof; [done|exact EP| |exact HS].
    apply (padded_sizes _ _ vs _ _ _ _ _ _ proof); try done. lia.
  - destruct Hrp as [HLm _ _]. pose proof (f_equal length HO) as HLo. rewrite length_fmap in HLo. split; [lia|].
    intros i v k Hv Hk. destruct (lookup_lt_is_Some_2 outSk i) as [sk Hsk].
    { rewrite HLo, HLm. by eapply lookup_lt_Some. }
    exists sk. split; [done|]. apply (HD i v k); [done|done|]. rewrite <- HO, list_lookup_fmap, Hsk. done.
Qed.
End padded.

(** ** The claim *)

(** C4. Transactions with a bulletproof.  For inputs whose amounts are those of 1 to
    16 outputs plus the fee, [genRctSimple] with a padded bulletproof returns a signature,
    unless the prover meets a challenge that is 0 or the generators cannot be
    computed.  [verRctSemanticsSimple] answers what [verBulletproof] answers
    for the proof, whose two equations hold (the second is not computed when [mu] times its
    weight is 0); [verRctNonSemanticsSimple]
    accepts the signature unless a key of a ring is hashed to the neutral element; and
    [decodeRctSimple] returns the amounts and the masks. *)
Theorem rct_bulletproof_spec (ND : Build) (BN : BigNum) (SP : Schedule) (n : nat) (message : key) (dests : keyV) (vs : list Z)
    (fee : Z) (aks : keyV) (outSk0 : ctkeyV) (inputs : list sinput) (s : random_state) :
  BigNumLaws BN → Forall sinput_ok inputs → Forall si_own inputs → inputs ≠ [] → (1 ≤ length vs ≤ 16)%nat →
  Forall amount_ok vs → amount_ok fee → length dests = length vs → length aks = length vs →
  zsum (si_v <$> inputs) = zsum vs + fee → random_ready s →
  match genRctSimple n message (si_sk <$> inputs) dests (si_v <$> inputs) vs fee (map si_pubs inputs) aks None false
    (si_index <$> inputs) outSk0 RangeProofPaddedBulletproof s with
  | Ret ((rv, outSk, c), s') => c = None ∧ random_ready s' ∧
      (∃ proof, ∀ r, random_ready r → verifies [proof] r ∧ verRctSemanticsSimple1 rv r = verBulletproof [proof] r) ∧
      verRctNonSemanticsSimple rv =
        Ret (bool_decide (¬ Exists (λ i, Exists (λ p, no_image p.1) (si_ring i)) inputs)) ∧
      length outSk = length vs ∧
      (∀ i v k, vs !! i = Some v → aks !! i = Some k →
        ∃ sk, outSk !! i = Some sk ∧ decodeRctSimple rv k i = Ret (v, Some (ct_mask sk)))
  | Throw => init_exponents = Throw
  | Undef => ∃ masks s0, skvGen (length vs) s = Ret (masks, s0) ∧ (n = O ∨ attempt_fails vs masks s0)
  end.
Proof.
  intros HB HI HW Hne Hn HV Hf HLd HLa Hb Hs.
  exact (genRctSimple_padded n message dests vs fee aks outSk0 inputs s HI HW Hne Hn HV Hf HLd HLa Hb (rng_ready s Hs)).
Qed.

#[local] Existing Instance debug_build.

Lemma rct_bulletproof_spec_witness :
  match @genRctSimple _ _ euclid_inverse _ _ 2 rct_G [small_sk] [rct_G] [10] [7] 3 [si_pubs small_input] [rct_H] None false
    [0%nat] [] RangeProofPaddedBulletproof ready_state with
  | Ret ((rv, outSk, _), _) => ∃ sk, outSk !! 0%nat = Some sk ∧ decodeRctSimple rv rct_H 0 = Ret (7, Some (ct_mask sk))
  | Throw => init_exponents = Throw
  | Undef => ∃ masks s0, skvGen 1 ready_state = Ret (masks, s0) ∧
      (2%nat = O ∨ @attempt_fails _ _ euclid_inverse _ _ [7] masks s0)
  end.
Proof.
  assert (Forall sinput_ok [small_input]) as HI by (constructor; [exact small_input_ok|constructor]).
  assert (Forall si_own [small_input]) as HW by (constructor; [reflexivity|constructor]).
  assert (Forall amount_ok [7]) as HV by (apply small_amounts; lia).
  assert (amount_ok 3) as Hf by (unfold amount_ok; lia).
  assert (1 ≤ length [7] ≤ 16)%nat as Hn by (cbn; lia).
  pose proof (rct_bulletproof_spec false euclid_inverse no_turns 2 rct_G [rct_G] [7] 3 [rct_H] [] [small_input] ready_state
    euclid_inverse_laws HI HW ltac:(discriminate) Hn HV Hf eq_refl eq_refl eq_refl ready_state_ok) as HR.
  cbn [fmap list_fmap map] in HR.
  change (si_sk small_input) with small_sk in HR. change (si_v small_input) with 10 in HR.
  change (si_index small_input) with 0%nat in HR.
  destruct (genRctSimple _ _ _ _ _ _ _ _ _ _ _ _ _ _ _) as [[[[rv outSk] c] s']| |]; [|exact HR..].
  destruct HR as (_ & _ & _ & _ & _ & D). exact (D 0%nat 7 rct_H eq_refl eq_refl).
Defined.
