(* ===== verification/MultisigSpec.v ===== *)
(** * Completion of multisignatures: [signMultisig]

    The first signer makes the signature with its share of the key that is spent
    and the commitments of all; each other signer adds its part of the
    response.  With the parts of all of them the signature verifies, and the
    parts can be added in any order.  This holds for both kinds of range proofs. *)

From S2P Require Export RctBulletproofSpec.

#[local] Open Scope Z_scope.

(** ** The response of a column *)

(** The first response of column [i] plus [t] *)
Definition plus_s0 (i : nat) (t : Z) (mg : mgSig) : mgSig := {|
  mg_ss := alter (λ ss, match ss with s0 :: r => to_scalar (le_combine s0 + t) :: r | [] => [] end) i (mg_ss mg);
  mg_cc := mg_cc mg; mg_II := mg_II mg
|}.

(** There is one *)
Definition has_s0 (i : nat) (mg : mgSig) : Prop :=
  ∃ s0 r, mg_ss mg !! i = Some (s0 :: r) ∧ scalar s0.

Lemma plus_s0_has i t mg : has_s0 i mg → has_s0 i (plus_s0 i t mg).
Proof.
  intros (s0 & r & E & _). exists (to_scalar (le_combine s0 + t)), r. split; [|apply to_scalar_scalar].
  cbn [plus_s0 mg_ss]. by rewrite list_lookup_alter_eq, E.
Qed.

Lemma plus_s0_plus i t u mg : plus_s0 i t (plus_s0 i u mg) = plus_s0 i (u + t) mg.
Proof.
  unfold plus_s0. cbn [mg_ss mg_cc mg_II]. f_equal. apply list_eq. intros j.
  destruct (decide (j = i)) as [->|Hne]; [|by rewrite !list_lookup_alter_ne].
  rewrite !list_lookup_alter_eq. destruct (mg_ss mg !! i) as [[|s0 r]|]; [done| |done].
  cbn [fmap option_fmap option_map]. do 2 f_equal. apply to_scalar_inj.
  rewrite le_combine_to_scalar, Zplus_mod_idemp_l. f_equal. lia.
Qed.

Lemma plus_s0_0 i mg : has_s0 i mg → plus_s0 i 0 mg = mg.
Proof.
  intros (s0 & r & E & Hs). unfold plus_s0. destruct mg as [ss cc II]. cbn [mg_ss mg_cc mg_II] in *. f_equal.
  apply list_eq. intros j. destruct (decide (j = i)) as [->|Hne].
  - rewrite list_lookup_alter_eq, E. cbn [fmap option_fmap option_map]. by rewrite Z.add_0_r, to_scalar_id.
  - by rewrite list_lookup_alter_ne.
Qed.

Lemma plus_s0_mod i t u mg : t mod L = u mod L → plus_s0 i t mg = plus_s0 i u mg.
Proof.
  intros E. unfold plus_s0. f_equal. apply list_alter_ext; [|done]. intros [|s0 r] _; [done|]. f_equal.
  apply to_scalar_inj. by rewrite Zplus_mod, E, <- Zplus_mod.
Qed.

Lemma ms_add_ok c y k i mg :
  scalar c → scalar y → scalar k → has_s0 i mg →
  ms_add c y k i mg = Some (plus_s0 i (le_combine k - le_combine c * le_combine y) mg).
Proof.
  intros Hc Hy Hk (s0 & r & E & Hs). unfold ms_add. step (sc_mulsub_scalar c y k Hc Hy Hk). step E.
  step (eq_refl (Some s0)). step (sc_add_scalar s0 _ Hs (to_scalar_scalar (le_combine k - le_combine c * le_combine y))).
  unfold plus_s0. do 2 f_equal. apply list_eq. intros j. destruct (decide (j = i)) as [->|Hne].
  - rewrite list_lookup_insert_eq by (by eapply lookup_lt_Some). rewrite list_lookup_alter_eq, E.
    cbn [fmap option_fmap option_map insert list_insert]. do 2 f_equal.
    apply to_scalar_inj. by rewrite le_combine_to_scalar, Zplus_mod_idemp_r.
  - by rewrite list_lookup_insert_ne, list_lookup_alter_ne.
Qed.

(** ** All inputs *)

Definition plus_all (idx : list nat) (ts : list Z) (mgs : list mgSig) : list mgSig :=
  zip_with (λ p mg, plus_s0 p.1 p.2 mg) (zip idx ts) mgs.

(** The parts of a signer *)
Definition ms_parts (y : key) (ks cs : keyV) : list Z :=
  zip_with (λ k c, le_combine k - le_combine c * le_combine y) ks cs.

Lemma ms_adds_ok idx ks cs y mgs :
  scalar y → Forall scalar ks → Forall scalar cs → length idx = length mgs → length ks = length mgs →
  length cs = length mgs → Forall2 has_s0 idx mgs →
  ms_adds idx ks cs y mgs = Some (plus_all idx (ms_parts y ks cs) mgs).
Proof.
  intros Hy HK HC L1 L2 L3 HS. revert ks cs HK HC L1 L2 L3.
  induction HS as [|i mg idx mgs Hi HS IH]; intros [|k ks] [|c cs] HK HC L1 L2 L3; try done.
  apply Forall_cons_1 in HK as [Hk HK]. apply Forall_cons_1 in HC as [Hc HC]. cbn [ms_adds].
  step (ms_add_ok c y k i mg Hc Hy Hk Hi). cbn in L1, L2, L3.
  step (IH ks cs HK HC ltac:(lia) ltac:(lia) ltac:(lia)). done.
Qed.

Lemma plus_all_has idx ts mgs : length ts = length mgs → Forall2 has_s0 idx mgs → Forall2 has_s0 idx (plus_all idx ts mgs).
Proof.
  intros HL HS. revert ts HL. induction HS as [|i mg idx mgs Hi HS IH]; intros [|t ts] HL; try done.
  cbn in HL. constructor; [by apply plus_s0_has|]. apply IH. lia.
Qed.

Lemma plus_all_plus idx ts us mgs :
  length ts = length mgs → length us = length mgs → length idx = length mgs →
  plus_all idx ts (plus_all idx us mgs) = plus_all idx (zip_with Z.add us ts) mgs.
Proof.
  revert idx ts us. induction mgs as [|mg mgs IH]; intros [|i idx] [|t ts] [|u us] H1 H2 H3; try done.
  unfold plus_all. cbn [zip_with zip fst snd]. cbn in H1, H2, H3. f_equal; [apply plus_s0_plus|]. apply IH; lia.
Qed.

Lemma length_plus_all idx ts mgs :
  length ts = length mgs → length idx = length mgs → length (plus_all idx ts mgs) = length mgs.
Proof. intros H1 H2. unfold plus_all. rewrite !length_zip_with. lia. Qed.

Section multisig.
Context {F : FastHash} {FL : FastHashLaws F} {RH : RctHash} {RHL : RctHashLaws F RH}.
Context {BN : BigNum} {BNL : BigNumLaws BN} {SP : Schedule} {G : Type} {R : Rng G} {RL : RngLaws R}.

Lemma signMultisig_ok rv idx ks cs y :
  let mgs := p_MGs (rct_p rv) in
  rct_type rv = RCTTypeSimple ∨ rct_type rv = RCTTypeBulletproof →
  scalar y → Forall scalar ks → Forall scalar cs → length idx = length mgs → length ks = length mgs →
  length cs = length mgs → Forall2 has_s0 idx mgs →
  signMultisig rv idx ks cs y = Some (true, set_MGs rv (plus_all idx (ms_parts y ks cs) mgs)).
Proof.
  intros mgs HT Hy HK HC L1 L2 L3 HS. unfold signMultisig. fold mgs.
  assert ((rct_type rv =? RCTTypeFull) || (rct_type rv =? RCTTypeSimple) || (rct_type rv =? RCTTypeBulletproof) = true) as ->.
  { by destruct HT as [-> | ->]. }
  assert ((rct_type rv =? RCTTypeFull) = false) as -> by (by destruct HT as [-> | ->]).
  rewrite L1, L2, L3, !Nat.eqb_refl. cbn [negb andb].
  assert (forallb (λ p, ms_index_ok p.1 p.2) (zip idx mgs) = true) as ->.
  { clear -HS. induction HS as [|i mg idx mgs (s0 & r & E & _) HS IH]; [done|]. cbn [zip_with forallb fst snd].
    unfold ms_index_ok at 1. by rewrite E. }
  cbn [negb]. by step (ms_adds_ok idx ks cs y mgs Hy HK HC L1 L2 L3 HS).
Qed.

(** The other signers, one after the other: the secret key of each, and its nonce for each input *)
Fixpoint sign_all (rv : rctSig) (idx : list nat) (cs : keyV) (signers : list (list Z * keyV)) : option rctSig :=
  match signers with
  | [] => Some rv
  | (y, ks) :: signers =>
      match signMultisig rv idx ks cs y with
      | Some (true, rv) => sign_all rv idx cs signers
      | _ => None
      end
  end.

Definition signer_ok (n : nat) (sg : key * keyV) : Prop :=
  scalar sg.1 ∧ Forall scalar sg.2 ∧ length sg.2 = n.

(** The sum of their parts, for each input *)
Fixpoint all_parts (cs : keyV) (signers : list (key * keyV)) : list Z :=
  match signers with
  | [] => replicate (length cs) 0
  | (y, ks) :: signers => zip_with Z.add (ms_parts y ks cs) (all_parts cs signers)
  end.

Lemma length_all_parts n cs signers :
  Forall (signer_ok n) signers → length cs = n → length (all_parts cs signers) = n.
Proof.
  intros HS HL. induction HS as [|[y ks] signers (_ & _ & HL1) HS IH].
  { cbn [all_parts]. by rewrite length_replicate. }
  cbn [all_parts]. unfold ms_parts. rewrite !length_zip_with. cbn in HL1. lia.
Qed.

Lemma set_MGs_id rv mgs : p_MGs (rct_p rv) = mgs → set_MGs rv mgs = rv.
Proof. intros <-. by destruct rv as [? ? ? ? ? ? ? []]. Qed.

Lemma plus_all_0 idx mgs :
  Forall2 has_s0 idx mgs → plus_all idx (replicate (length mgs) 0) mgs = mgs.
Proof.
  induction 1 as [|i mg idx mgs Hi HS IH]; [done|]. unfold plus_all. cbn [length replicate zip_with fst snd].
  rewrite plus_s0_0 by done. by f_equal.
Qed.

Lemma sign_all_ok rv idx cs signers :
  let mgs := p_MGs (rct_p rv) in
  rct_type rv = RCTTypeSimple ∨ rct_type rv = RCTTypeBulletproof → Forall scalar cs →
  Forall (signer_ok (length mgs)) signers → length idx = length mgs → length cs = length mgs →
  Forall2 has_s0 idx mgs →
  sign_all rv idx cs signers = Some (set_MGs rv (plus_all idx (all_parts cs signers) mgs)).
Proof.
  intros mgs HT HC HS L1 L3 HA.
  assert (Forall2 has_s0 idx (p_MGs (rct_p rv)) ∧ p_MGs (rct_p rv) = mgs) as [HA' EM] by done.
  clearbody mgs. revert rv mgs HT HS L1 L3 HA HA' EM.
  induction signers as [|[y ks] signers IH]; intros rv mgs HT HS L1 L3 HA HA' EM.
  { cbn [sign_all all_parts]. rewrite L3, plus_all_0, set_MGs_id by done. done. }
  apply Forall_cons_1 in HS as [(Hy & HK & HL) HS]. cbn [fst snd] in Hy, HK, HL. cbn [sign_all all_parts].
  assert (length (p_MGs (rct_p rv)) = length mgs) as EL by (by rewrite EM).
  rewrite (signMultisig_ok rv idx ks cs y HT Hy HK HC ltac:(lia) ltac:(lia) ltac:(lia) HA').
  rewrite EM. set (mgs' := plus_all idx (ms_parts y ks cs) mgs).
  assert (length (ms_parts y ks cs) = length mgs) as Lp by (unfold ms_parts; rewrite length_zip_with; lia).
  assert (length mgs' = length mgs) as L' by (by apply length_plus_all).
  pose proof (plus_all_has idx (ms_parts y ks cs) mgs Lp HA) as HA2. fold mgs' in HA2.
  assert (Forall (signer_ok (length mgs')) signers) as HS' by (by rewrite L').
  rewrite (IH (set_MGs rv mgs') mgs' HT HS' ltac:(lia) ltac:(lia) HA2 HA2 eq_refl). f_equal.
  unfold mgs'. rewrite plus_all_plus; [done| |done|done].
  pose proof (length_all_parts _ cs signers HS ltac:(lia)). lia.
Qed.

(** ** The first signer *)

(** The key that is spent is the sum of the first signer's share and of [Y], the nonce the sum
    of the first signer's and of [kk]; [kl] holds the commitments of all. *)
Record kLRki_ok (i : sinput) (kl : multisig_kLRki) (Y kk : Z) : Prop := {
  kl_key : si_key i = le_combine (ct_dest (si_sk i)) + Y;
  kl_k : scalar (ms_k kl);
  kl_L : ms_L kl = ed_encode (mulG (le_combine (ms_k kl) + kk));
  kl_R : ms_R kl = ed_encode (ed_mul (le_combine (ms_k kl) + kk) (hp (ed_encode (mulG (si_key i)))));
  kl_ki : ms_ki kl = ed_encode (ed_mul (si_key i) (hp (ed_encode (mulG (si_key i)))))
}.

Lemma proveRctMGSimple_ms message i a kl Y kk s :
  sinput_ok i → kLRki_ok i kl Y kk → scalar a → rng_ok s →
  ∃ sig c s', proveRctMGSimple message (si_pubs i) (si_sk i) a
      (ed_encode (commitment (le_combine a) (si_v i))) (Some kl) true (si_index i) s = Ret ((sig, Some c), s') ∧
    rng_ok s' ∧ scalar c ∧ has_s0 (si_index i) sig ∧
    mg_ok message i a (plus_s0 (si_index i) (kk - le_combine c * Y) sig).
Proof.
  intros [H1 H2 Hlen [Hd Hm] Hv] [EX Hk EL ER EI] Ha Hs.
  set (C := commitment (le_combine a) (si_v i)). assert (on_curve C) as HC by apply commitment_on_curve.
  assert (Forall ct_curve (si_ring i)) as HP.
  { apply Forall_app. split; [done|]. constructor; [split; cbn; auto with edwards|done]. }
  pose proof (simple_matrix_ok C (si_ring i) HC HP) as EM.
  set (sk1 := to_scalar (le_combine (ct_mask (si_sk i)) - le_combine a)).
  assert (scalar sk1) as Hsk1 by apply to_scalar_scalar.
  set (A := map (simple_points C) (si_before i)). set (B := map (simple_points C) (si_after i)).
  set (xs := [si_key i; le_combine sk1]).
  assert (map (simple_points C) (si_ring i) = A ++ (mulG <$> xs) :: B) as EP.
  { unfold si_ring, A, B. rewrite map_app. cbn [map]. do 2 f_equal. unfold simple_points, si_spent. cbn [fst snd].
    unfold C, xs, sk1. rewrite commitment_sub, !fmap_cons, le_combine_to_scalar, mulG_mod. done. }
  assert (length (map (simple_points C) (si_ring i)) = length (si_ring i)) as HLm by apply length_map.
  assert (ring_is A xs B 1) as HR.
  { split; rewrite <- ?EP; [by apply simple_matrix_is|lia|cbn; lia|cbn; lia]. }
  set (xx := [ct_dest (si_sk i); sk1]).
  assert (Forall scalar xx) as Hxx by (constructor; [done|]; constructor; [done|constructor]).
  set (X := si_key i) in *. set (K := le_combine (ms_k kl) + kk) in *. set (H := hp (ed_encode (mulG X))) in *.
  destruct (precomp_ok (ed_mul X H) (on_curve_mul X H (hp_on_curve _))) as (ip & Ep & Hp).
  set (row := {| dr_alpha := ms_k kl; dr_L := ms_L kl; dr_R := ms_R kl; dr_II := ms_ki kl; dr_Ip := ip |}).
  assert (mlsag_commits_ds (Some kl) (ed_encode <$> (mulG <$> take 1 xs)) (take 1 xx) s = Ret ([row], s)) as E1.
  { cbn [xs xx take mlsag_commits_ds fmap list_fmap]. unfold mlsag_commit_ds. rewrite EI in *.
    assert ((mret (ms_k kl, ms_L kl, ms_R kl, ed_encode (ed_mul X H)) : gen G _) s =
      Ret ((ms_k kl, ms_L kl, ms_R kl, ed_encode (ed_mul X H)), s)) as E0 by done.
    unfold mbind at 1, gen_bind at 1. unfold mbind at 1, gen_bind at 1. rewrite E0.
    rewrite (calc_step _ _ _ _ Ep). unfold row. by rewrite EI. }
  assert (ds_commit (take 1 xs) [K] [row]) as HD.
  { split; [by constructor|done| | |].
    - cbn [fmap list_fmap row dr_L dr_R]. by rewrite EL, ER.
    - cbn [fmap list_fmap row dr_II]. by rewrite EI.
    - constructor; [exact Hp|constructor]. }
  destruct (MLSAG_Gen_ok message A xs B 1 xx (Some kl) true [K] [row] s s HR Hxx eq_refl
    ltac:(by apply bool_decide_eq_true) ltac:(done) E1 HD Hs)
    as (sssA & sssB & alpha & c & cc & s2 & E & Hs2 & Hc & Hcc & LA & LB & RA & RB & LN & Hal & Ec & Ecc).
  cbv zeta in *. rewrite <- EP in E.
  pose proof (MLSAG_complete message A xs B 1 _ c cc sssA sssB HR Hcc LA LB RA RB LN Ec Ecc) as HV.
  cbv zeta in HV. rewrite <- EP in HV.
  assert (length sssA = si_index i) as LI by (unfold si_index; rewrite LA; unfold A; by rewrite length_map).
  eexists _, c, s2. split; [|split; [exact Hs2|split; [exact Hc|split]]].
  - unfold proveRctMGSimple, si_pubs. rewrite calc_check by (rewrite length_fmap; apply Nat.leb_le; lia).
    rewrite calc_check by done. rewrite (calc_step _ _ _ _ (run_some _ _ (sc_sub_scalar _ _ Hm Ha))).
    rewrite (calc_step _ _ _ _ EM). fold sk1 xx. rewrite <- LI, LA. exact E.
  - destruct alpha as [|al alpha]; [done|].
    eexists _, _. cbn [mg_ss]. split; [rewrite <- LI; by apply list_lookup_middle|apply to_scalar_scalar].
  - unfold mg_ok, verRctMGSimple, si_pubs. rewrite length_fmap. rewrite (proj2 (Nat.leb_le _ _)) by lia. cbn [negb].
    fold C. rewrite EM. cbn [mbind outcome_bind].
    assert (∀ sg, sg = {| mg_ss := sssA ++ answers c xs ([K] ++ (le_combine <$> alpha)) :: sssB;
      mg_cc := cc; mg_II := ed_encode <$> images (take 1 xs) |} →
      catch_all false (MLSAG_Ver message (encode_matrix (map (simple_points C) (si_ring i))) sg 1) =
        Ret (bool_decide (¬ Exists (λ p, no_image p.1) (si_ring i)))) as HG.
    { intros sg ->. rewrite HV. cbn [catch_all]. f_equal. apply bool_decide_ext. by rewrite simple_infinite. }
    apply HG. unfold plus_s0. cbn [mg_ss mg_cc mg_II]. f_equal.
    rewrite <- LI, alter_app_r_alt, Nat.sub_diag by lia. f_equal.
    destruct alpha as [|al [|? ?]]; [done| |done]. cbn [alter list_alter]. f_equal.
    unfold answers, xs, xx. cbn [zip_with app fmap list_fmap row dr_alpha]. f_equal.
    apply to_scalar_inj. rewrite le_combine_to_scalar, Zplus_mod_idemp_l. f_equal. unfold K. rewrite EX. lia.
Qed.

(** What the other signers have to add for each input *)
Definition ms_rest (Y : Z) (kks : list Z) (cs : keyV) : list Z :=
  zip_with (λ kk c, kk - le_combine c * Y) kks cs.

Lemma simple_MGs_ms h inputs kls kks Y aC s :
  Forall sinput_ok inputs → Forall3 (λ i kl kk, kLRki_ok i kl Y kk) inputs kls kks →
  pseudo_is inputs aC → rng_ok s →
  ∃ mgs s', simple_MGs h (map si_pubs inputs) (si_sk <$> inputs) aC (Some kls) true (si_index <$> inputs) s =
      Ret (mgs, s') ∧ rng_ok s' ∧ length mgs = length inputs ∧
    ∃ cs, mgs.*2 = Some <$> cs ∧ Forall scalar cs ∧ Forall2 has_s0 (si_index <$> inputs) mgs.*1 ∧
      Forall3 (mg_ok h) inputs aC.*1 (plus_all (si_index <$> inputs) (ms_rest Y kks cs) mgs.*1).
Proof.
  intros HI HK. revert aC s HI. induction HK as [|i kl kk inputs kls kks Hkl HK IH];
    intros [|[a C] aC] s HI [HL HF EC] Hs; try done.
  { exists [], s. split; [done|]. split; [done|]. split; [done|]. exists []. by split_and!; constructor. }
  apply Forall_cons_1 in HI as [Hi HI].
  rewrite fmap_cons in HF. cbn [fst] in HF. apply Forall_cons_1 in HF as [Ha HF].
  rewrite !fmap_cons in EC. cbn [fst snd] in EC. unfold commitments in EC. cbn [zip_with] in EC.
  rewrite fmap_cons in EC. pose proof (f_equal (hd []) EC) as EC1. pose proof (f_equal tail EC) as EC2.
  cbn [hd tail] in EC1, EC2.
  destruct (proveRctMGSimple_ms h i a kl Y kk s Hi Hkl Ha Hs) as (mg & c & s1 & E1 & Hs1 & Hc & H0 & HV).
  destruct (IH aC s1 HI) as (mgs & s2 & E2 & Hs2 & HLm & cs & Ecs & Hcs & HA & HM);
    [split; [cbn in HL; lia|exact HF|exact EC2]|exact Hs1|].
  exists ((mg, Some c) :: mgs), s2. rewrite !fmap_cons. cbn [map simple_MGs].
  assert ((calc (k ← run ((kl :: kls) !! 0%nat); Ret (Some k)) : gen G (option multisig_kLRki)) s =
    Ret (Some kl, s)) as E0 by done.
  rewrite (gen_bind_ret _ _ _ _ _ E0). rewrite EC1. rewrite (gen_bind_ret _ _ _ _ _ E1).
  cbn [fmap option_fmap option_map drop].
  rewrite (gen_bind_ret _ _ _ _ _ E2). split; [reflexivity|]. split; [done|]. split; [cbn; lia|].
  exists (c :: cs). rewrite !fmap_cons, Ecs. split; [done|]. split; [by constructor|]. cbn [fst].
  split; [by constructor|]. constructor; [exact HV|exact HM].
Qed.

(** The secret keys of the other signers, and their nonces for each input, added up *)
Definition key_sum (signers : list (key * keyV)) : Z := zsum (le_combine <$> signers.*1).

Definition nonce_sums (n : nat) (signers : list (key * keyV)) : list Z :=
  foldr (λ sg acc, zip_with Z.add (le_combine <$> sg.2) acc) (replicate n 0) signers.

Lemma length_nonce_sums n signers : Forall (signer_ok n) signers → length (nonce_sums n signers) = n.
Proof.
  induction 1 as [|sg signers (_ & _ & HL) HS IH]; [apply length_replicate|].
  unfold nonce_sums. cbn [foldr]. fold (nonce_sums n signers). rewrite length_zip_with, length_fmap. lia.
Qed.

Lemma ms_parts_rest cs y ks Y kks :
  length ks = length cs → length kks = length cs →
  zip_with Z.add (ms_parts y ks cs) (ms_rest Y kks cs) =
    ms_rest (le_combine y + Y) (zip_with Z.add (le_combine <$> ks) kks) cs.
Proof.
  revert ks kks. induction cs as [|c cs IH]; intros [|k ks] [|kk kks] H1 H2; try done.
  unfold ms_parts, ms_rest in *. rewrite fmap_cons. cbn [zip_with]. cbn in H1, H2. rewrite IH by lia. f_equal. lia.
Qed.

Lemma all_parts_sums cs signers :
  Forall (signer_ok (length cs)) signers →
  all_parts cs signers = ms_rest (key_sum signers) (nonce_sums (length cs) signers) cs.
Proof.
  induction 1 as [|[y ks] signers (Hy & HK & HL) HS IH].
  { cbn [all_parts nonce_sums foldr]. unfold ms_rest. assert (key_sum [] = 0) as -> by done.
    generalize cs. clear. intros cs. induction cs as [|c cs IH]; [done|]. cbn [length replicate zip_with].
    f_equal; [lia|exact IH]. }
  cbn [all_parts]. rewrite IH. cbn [fst snd] in HL. rewrite ms_parts_rest; [|done|by apply length_nonce_sums].
  unfold key_sum. rewrite !fmap_cons, zsum_cons. done.
Qed.

Lemma zip_add_swap (a b l : list Z) : zip_with Z.add a (zip_with Z.add b l) = zip_with Z.add b (zip_with Z.add a l).
Proof. revert b l. induction a as [|x a IH]; intros [|y b] [|z l]; try done. cbn [zip_with]. rewrite IH. f_equal. lia. Qed.

(** The order of the signers does not matter. *)
Lemma all_parts_perm cs signers signers' :
  signers ≡ₚ signers' → all_parts cs signers = all_parts cs signers'.
Proof.
  induction 1 as [|[y ks] l l' _ IH|[y ks] [y' ks'] l|l1 l2 l3 _ IH1 _ IH2]; [done| | |by rewrite IH1].
  - cbn [all_parts]. by rewrite IH.
  - cbn [all_parts]. apply zip_add_swap.
Qed.

(** What the first signer hands out, and what the others make of it in any order *)
Definition completes (inputs : list sinput) (signers : list (key * keyV)) (rv : rctSig) (cs : keyV)
    (accepted : rctSig → Prop) : Prop :=
  ∀ signers', signers' ≡ₚ signers →
    ∃ rv', sign_all rv (si_index <$> inputs) cs signers' = Some rv' ∧ accepted rv' ∧
      verRctNonSemanticsSimple rv' =
        Ret (bool_decide (¬ Exists (λ i, Exists (λ p, no_image p.1) (si_ring i)) inputs)).

(** For any range proofs with the right commitments *)
Lemma genRctSimple_ms_any n t message dests vs fee aks outSk0 inputs kls signers rp s s1 (Q : rctSig → Prop) :
  let kks := nonce_sums (length inputs) signers in
  Forall sinput_ok inputs → Forall3 (λ i kl kk, kLRki_ok i kl (key_sum signers) kk) inputs kls kks →
  Forall (signer_ok (length inputs)) signers →
  inputs ≠ [] → Forall amount_ok vs → amount_ok fee →
  length dests = length vs → length aks = length vs → zsum (si_v <$> inputs) = zsum vs + fee →
  simple_outs n t vs s = Ret (rp, s1) → rng_ok s1 → rp_is vs rp →
  (∀ es Cs mgs, length es = length vs → length Cs = length mgs →
    let rv := simple_sig (is_bulletproof t) message dests rp es fee (map si_pubs inputs) Cs mgs in
    sum_check rv = Ret true → Q rv) →
  ∃ rv outSk cs s',
    genRctSimple n message (si_sk <$> inputs) dests (si_v <$> inputs) vs fee (map si_pubs inputs) aks (Some kls) true
      (si_index <$> inputs) outSk0 t s = Ret ((rv, outSk, Some cs), s') ∧ rng_ok s' ∧ completes inputs signers rv cs Q.
Proof.
  intros kks HI HK HSg Hne HV Hfee HLd HLa Hb E1 Hs1 Hrp HQ.
  pose proof (Forall3_length_lm _ _ _ _ HK) as HLk.
  destruct (genRctSimple_any (λ h as_ mgs, ∃ cs, mgs.*2 = Some <$> cs ∧ Forall scalar cs ∧
      Forall2 has_s0 (si_index <$> inputs) mgs.*1 ∧
      Forall3 (mg_ok h) inputs as_ (plus_all (si_index <$> inputs) (ms_rest (key_sum signers) kks cs) mgs.*1))
    n t message dests vs fee aks outSk0 inputs (Some kls) rp s s1)
    as (rv & outSk & s' & es & as_ & h & mgs & E & Hs' & Erv & HLe & HLa' & HLg & Eh & (cs & Ecs & Hcs & HA & HM) & HS & HO & HD);
    try done.
  { by apply inputs_amounts. }
  { intros h aC s2 Hps Hs2. by apply simple_MGs_ms. }
  pose proof (f_equal length Ecs) as HLcs. rewrite !length_fmap in HLcs.
  assert (omap id mgs.*2 = cs) as Ecs'.
  { rewrite Ecs. clear. induction cs as [|c cs IH]; [done|]. rewrite fmap_cons. cbn. by f_equal. }
  rewrite (bool_decide_eq_true_2 _ (mk_is_Some (Some kls) kls eq_refl)), Ecs' in E.
  exists rv, outSk, cs, s'. split; [exact E|]. split; [exact Hs'|]. intros signers' HPm.
  assert (Forall (signer_ok (length inputs)) signers') as HSg' by (by rewrite HPm).
  assert (p_MGs (rct_p rv) = mgs.*1) as EM by (by subst rv).
  assert (rct_type rv = RCTTypeSimple ∨ rct_type rv = RCTTypeBulletproof) as HT.
  { subst rv. cbn [simple_sig rct_type]. destruct (is_bulletproof t); tauto. }
  assert (length mgs.*1 = length inputs) as HLg' by (by rewrite length_fmap).
  eexists. split; [apply sign_all_ok; rewrite ?EM; [exact HT|done|by rewrite HLg'|by rewrite length_fmap|lia|done]|].
  rewrite EM, (all_parts_perm cs signers' signers HPm), all_parts_sums by (by rewrite <- HLcs, HLg).
  rewrite <- HLcs, HLg. fold kks. set (mgs' := plus_all _ _ _) in *.
  assert (length mgs' = length inputs) as HL'.
  { pose proof (Forall3_length_lr _ _ _ _ HM). lia. }
  subst rv. split.
  - apply (HQ es _ mgs' HLe); [|exact HS]. unfold commitments. rewrite length_fmap, length_zip_with, length_fmap. lia.
  - apply nonsemantics_ok with (message := h) (as_ := as_) (mgs := mgs'); try done.
    unfold pseudo_of, simple_sig. cbn [rct_type rct_p p_pseudoOuts rct_pseudoOuts]. by destruct t.
Qed.

Section first_signer.
Context (n : nat) (message : key) (dests : keyV) (vs : list Z) (fee : Z) (aks : keyV) (outSk0 : ctkeyV).
Context (inputs : list sinput) (kls : list multisig_kLRki) (signers : list (key * keyV)) (s : G).
Context (HI : Forall sinput_ok inputs).
Context (HK : Forall3 (λ i kl kk, kLRki_ok i kl (key_sum signers) kk) inputs kls (nonce_sums (length inputs) signers)).
Context (HSg : Forall (signer_ok (length inputs)) signers) (Hne : inputs ≠ []).
Context (HV : Forall amount_ok vs) (Hfee : amount_ok fee).
Context (HLd : length dests = length vs) (HLa : length aks = length vs).
Context (Hb : zsum (si_v <$> inputs) = zsum vs + fee) (Hs : rng_ok s).

(** The partial signature *)
Definition gen_partial (t : RangeProofType) : outcome (rctSig * ctkeyV * option keyV * G) :=
  genRctSimple n message (si_sk <$> inputs) dests (si_v <$> inputs) vs fee (map si_pubs inputs) aks (Some kls) true
    (si_index <$> inputs) outSk0 t s.

Lemma gen_partial_borromean :
  ∃ rv outSk cs s', gen_partial RangeProofBorromean = Ret ((rv, outSk, Some cs), s') ∧ rng_ok s' ∧
    completes inputs signers rv cs (λ rv', ∀ s'', verRctSemanticsSimple1 rv' s'' = (Ret true, s'')).
Proof.
  destruct (borromean_outs_ok vs s HV Hs) as (rp & s1 & E1 & Hs1 & Hrp & HP & HLs & HT).
  apply (genRctSimple_ms_any n RangeProofBorromean message dests vs fee aks outSk0 inputs kls signers rp s s1); try done.
  intros es Cs mgs HLe HLC rv HS s''. apply (borromean_accepted message dests vs rp es fee _ Cs mgs); try done. by apply HT.
Qed.

Lemma gen_partial_padded :
  (1 ≤ length vs ≤ 16)%nat →
  match gen_partial RangeProofPaddedBulletproof with
  | Ret ((rv, outSk, c), s') => rng_ok s' ∧ ∃ cs proof, c = Some cs ∧
      completes inputs signers rv cs (λ rv', ∀ r, rng_ok r →
        verifies [proof] r ∧ verRctSemanticsSimple1 rv' r = verBulletproof [proof] r)
  | Throw => init_exponents = Throw
  | Undef => ∃ masks s0, skvGen (length vs) s = Ret (masks, s0) ∧ (n = O ∨ attempt_fails vs masks s0)
  end.
Proof.
  intros Hn. pose proof (padded_outs n vs s Hn HV Hs) as HP.
  pose proof (genRctSimple_fails n RangeProofPaddedBulletproof message dests vs fee aks (Some kls) outSk0 inputs s
    Hne HLd HLa (eq_sym (Forall3_length_lm _ _ _ _ HK))) as HFl.
  rewrite (bool_decide_eq_true_2 _ (mk_is_Some (Some kls) kls eq_refl)) in HFl.
  unfold gen_partial. destruct (simple_outs n RangeProofPaddedBulletproof vs s) as [[rp s1]| |] eqn:E1; [|rewrite HFl; exact HP..].
  clear HFl. destruct HP as (Hs1 & Hrp & proof & EP & EN & HVr).
  destruct (genRctSimple_ms_any n RangeProofPaddedBulletproof message dests vs fee aks outSk0 inputs kls signers rp s s1
    (λ rv', ∀ r, rng_ok r → verifies [proof] r ∧ verRctSemanticsSimple1 rv' r = verBulletproof [proof] r))
    as (rv & outSk & cs & s' & E & Hs' & HC); try done.
  - intros es Cs mgs HLe HLC rv HS r Hr. split; [by apply HVr|].
    apply semantics_bulletproof; [done|exact EP| |exact HS]. by apply (padded_sizes _ _ vs _ _ _ _ _ _ proof).
  - rewrite E. split; [exact Hs'|]. by exists cs, proof.
Qed.
End first_signer.
End multisig.

(** C3. Multisignatures are complete.  The inputs have rings of at least two points, and the amounts of the
    inputs are those of the outputs plus the fee.  The key of each input is the sum of the
    first signer's share and of the secret keys of the other signers; the
    commitments given to the first signer are those of the sums of
    the nonces, and the key image it is given is the one of the whole key.  Then [genRctSimple] with ring range proofs
    returns a partial signature and its challenges; the other signers, in any order, all succeed with
    [signMultisig]; and what they obtain is accepted by
    [verRctSemanticsSimple], and by [verRctNonSemanticsSimple] unless a key of a
    ring is hashed to the neutral element.  With a padded bulletproof for 1 to 16 outputs the same holds, unless the
    prover meets a challenge that is 0 or the generators cannot be computed; [verRctSemanticsSimple] then
    answers what [verBulletproof] answers for the proof, whose two equations hold (the second is not
    computed when [mu] times its weight is 0). *)
Theorem multisig_spec (ND : Build) (BN : BigNum) (SP : Schedule) (n : nat) (message : key) (dests : keyV) (vs : list Z)
    (fee : Z) (aks : keyV) (outSk0 : ctkeyV) (inputs : list sinput) (kls : list multisig_kLRki)
    (signers : list (key * keyV)) (s : random_state) :
  BigNumLaws BN → Forall sinput_ok inputs →
  Forall3 (λ i kl kk, kLRki_ok i kl (key_sum signers) kk) inputs kls (nonce_sums (length inputs) signers) →
  Forall (signer_ok (length inputs)) signers →
  inputs ≠ [] → Forall amount_ok vs → amount_ok fee →
  length dests = length vs → length aks = length vs → zsum (si_v <$> inputs) = zsum vs + fee → random_ready s →
  let partial := genRctSimple n message (si_sk <$> inputs) dests (si_v <$> inputs) vs fee (map si_pubs inputs) aks
    (Some kls) true (si_index <$> inputs) outSk0 in
  (∃ rv outSk cs s',
    partial RangeProofBorromean s = Ret ((rv, outSk, Some cs), s') ∧ random_ready s' ∧
    completes inputs signers rv cs (λ rv', ∀ s'' : random_state, verRctSemanticsSimple1 rv' s'' = (Ret true, s''))) ∧
  ((1 ≤ length vs ≤ 16)%nat →
    match partial RangeProofPaddedBulletproof s with
    | Ret ((rv, outSk, c), s') => random_ready s' ∧ ∃ cs proof, c = Some cs ∧
        completes inputs signers rv cs (λ rv', ∀ r, random_ready r →
          verifies [proof] r ∧ verRctSemanticsSimple1 rv' r = verBulletproof [proof] r)
    | Throw => init_exponents = Throw
    | Undef => ∃ masks s0, skvGen (length vs) s = Ret (masks, s0) ∧ (n = O ∨ attempt_fails vs masks s0)
    end).
Proof.
  intros HB HI HK HSg Hne HV Hf HLd HLa Hb Hs. split.
  - exact (gen_partial_borromean n message dests vs fee aks outSk0 inputs kls signers s HI HK HSg Hne HV Hf HLd HLa Hb
      (rng_ready s Hs)).
  - exact (gen_partial_padded n message dests vs fee aks outSk0 inputs kls signers s HI HK HSg Hne HV Hf HLd HLa Hb
      (rng_ready s Hs)).
Qed.

#[local] Existing Instance debug_build.

Definition second_signer : key * keyV := (to_scalar 8, [to_scalar 9]).

Definition shared_input : sinput :=
  {| si_sk := small_sk; si_key := le_combine (to_scalar 3) + key_sum [second_signer]; si_v := 10;
     si_before := []; si_after := [small_decoy] |}.

Definition shared_nonce : Z := le_combine (to_scalar 2) + (le_combine (to_scalar 9) + 0).

Definition shared_kLRki : multisig_kLRki :=
  let H := hp (ed_encode (mulG (si_key shared_input))) in
  {| ms_k := to_scalar 2; ms_L := ed_encode (mulG shared_nonce); ms_R := ed_encode (ed_mul shared_nonce H);
     ms_ki := ed_encode (ed_mul (si_key shared_input) H) |}.

Lemma multisig_spec_witness :
  (∃ rv outSk cs s' rv',
    @genRctSimple _ _ euclid_inverse _ _ 2 rct_G [small_sk] [rct_G] [10] [7] 3 [si_pubs shared_input] [rct_H]
      (Some [shared_kLRki]) true [0%nat] [] RangeProofBorromean ready_state = Ret ((rv, outSk, Some cs), s') ∧
    sign_all rv [0%nat] cs [second_signer] = Some rv') ∧
  match @genRctSimple _ _ euclid_inverse _ _ 2 rct_G [small_sk] [rct_G] [10] [7] 3 [si_pubs shared_input] [rct_H]
    (Some [shared_kLRki]) true [0%nat] [] RangeProofPaddedBulletproof ready_state with
  | Ret ((rv, _, c), _) => ∃ cs rv', c = Some cs ∧ sign_all rv [0%nat] cs [second_signer] = Some rv'
  | Throw => init_exponents = Throw
  | Undef => ∃ masks s0, skvGen 1 ready_state = Ret (masks, s0) ∧
      (2%nat = O ∨ @attempt_fails _ _ euclid_inverse _ _ [7] masks s0)
  end.
Proof.
  destruct (multisig_spec false euclid_inverse no_turns 2 rct_G [rct_G] [7] 3 [rct_H] [] [shared_input] [shared_kLRki]
    [second_signer] ready_state) as [(rv & outSk & cs & s' & E & _ & H) H'].
  - exact euclid_inverse_laws.
  - constructor; [|constructor].
    split; [constructor|exact small_decoy_curve|cbn; lia|exact small_secret_ok|unfold amount_ok; cbn [shared_input si_v]; lia].
  - constructor; [|constructor]. split; [reflexivity|apply to_scalar_scalar|reflexivity|reflexivity|reflexivity].
  - constructor; [|constructor]. split; [apply to_scalar_scalar|]. split; [|reflexivity].
    constructor; [apply to_scalar_scalar|constructor].
  - discriminate.
  - apply small_amounts; lia.
  - unfold amount_ok; lia.
  - reflexivity.
  - reflexivity.
  - reflexivity.
  - exact ready_state_ok.
  - split.
    + destruct (H [second_signer] (Permutation_refl _)) as (rv' & E' & _).
      exists rv, outSk, cs, s', rv'. split; [exact E|exact E'].
    + clear E H. specialize (H' ltac:(cbn; lia)). cbn [fmap list_fmap map] in H'.
      change (si_sk shared_input) with small_sk in H'. change (si_v shared_input) with 10 in H'.
      change (si_index shared_input) with 0%nat in H'.
      destruct (genRctSimple _ _ _ _ _ _ _ _ _ _ _ _ _ _ _) as [[[[rv1 outSk1] c] s1]| |]; [|exact H'..].
      destruct H' as (_ & cs1 & proof & -> & HC).
      destruct (HC [second_signer] (Permutation_refl _)) as (rv' & E' & _). by exists cs1, rv'.
Defined.
